(* ===== verification/_CoqProject ===== *)
-Q . S2P
Prelude.v
ByteMap.v
Keys.v
Versioned.v
MemTable.v
Extern.v
Wal.v
Mvcc.v
Bloom.v
Zone.v
Sst.v
SstReader.v
SstRead.v
Layers.v
SstBatch.v
SstFilter.v
Lsm.v
LsmReads.v
LsmCompact.v
LsmBatch.v
LsmFilter.v
LsmRecovery.v
Store.v
Utf8.v
Values.v
Ieee.v
Schema.v
SchemaParser.v
SchemaEmit.v
SchemaSpec.v
SchemaRoundTrip.v
Serde.v
IndexKeys.v
Posting.v
Fulltext.v
Engine.v
EngineEdges.v
EngineOps.v
EngineDelete.v
EngineInv.v
EngineTxn.v
EngineCreate.v
EngineUpdate.v
EngineSystem.v
EngineDemo.v
EngineProps.v
FilterScan.v
FilterSpec.v
FilterProps.v
ScanChunks.v
FilterStore.v
Rules.v
RulesParser.v
RulesProps.v
QueryPlan.v
QueryPlanProps.v
QueryReads.v
Executor.v
ExecutorProps.v
ExecutorFilter.v
ExecutorDemo.v
Subscribe.v
Protocol.v
ProtocolProps.v
QueryParser.v
QueryParserProps.v
QueryTextProps.v
FulltextQuery.v
FulltextSearch.v
FulltextSearchProps.v
FulltextScan.v
FulltextExact.v
FulltextAnswer.v
FulltextHidden.v
CatalogCodec.v
Catalog.v
CatalogInv.v
CatalogOpen.v
CatalogLife.v
DatabaseOpen.v
