(* ===== verification/Prelude.v ===== *)
(** * rhypedb: a verification of the database

    rhypedb is an object database written in Rust.  Its storage crate
    (crates/rhypedb-storage) is a versioned, transactional key-value store: an
    LSM tree with a write-ahead log, in-memory tables, immutable sorted files
    and multi-version concurrency control.  The engine (crates/rhypedb-engine)
    keeps typed objects, their indexes and the edges between them as rows of
    that store, under a schema written in a language of its own
    (crates/rhypedb-schema) and with objects encoded by the wire crate
    (crates/rhypedb-wire).  Queries (crates/rhypedb-query) run over the engine,
    and security rules (crates/rhypedb-authz) say who may read and write what.
    This library models the storage crate, the schema language, the object
    codec, full-text search, the core of the engine, the rules, the execution of queries, subscriptions (crates/rhypedb-subscribe)
    and the wire protocol, and proves what makes them correct.

    ** The parts and how they interact

    A user key is built by [KeyBuilder] (key.rs) and stored as an internal
    key, the user key followed by the complemented version, so that byte order
    is user-key order with the newest version first.  A transaction
    ([Mvcc.Transaction], mvcc.rs) buffers its writes; the manager's [commit]
    checks it for conflicts, reserves a version and calls back into the tree,
    which appends the batch to the log (wal.rs) and inserts it in the active
    memtable (memtable.rs), and only then publishes the version.  A flush writes
    the memtable as an SST (sst.rs, with its bloom filter bloom.rs and its zone
    map zone.rs) and recreates the log; a compaction merges the SSTs and drops
    the versions no registered snapshot can read; opening a directory rebuilds
    the tree from the SSTs and the log.  Reads go through the memtables and the
    SSTs from the newest to the oldest.

    The engine sees the store as a map at a version: it reads the snapshot its
    transaction began with, stages puts and deletes, and commits.  An object is
    one row (its fields in the binary codec); each unique field adds a row from
    the value to the object, each indexed field a row ordered by value that
    carries the object's data, each full-text field a row per term, and each
    edge two rows, by source and by target, the second carrying a cover: a copy
    of data of neighbours, stamped with their generations.

    A query is a source (a lookup, a filter, a creation, all objects of a type)
    followed by steps (traversals, filters, searches, writes, cuts).  The planner
    serves a filter from the unique and secondary indexes; a governor counts the
    rows a query examines; and when a rules program is configured, the rows of
    every stage are dropped unless the principal may read them, and a write is
    refused unless every object it touches passes its rule beforehand.

    ** The files

    - [Prelude]: bytes as [Init.Byte.byte], machine integers as [Z] with their
      range predicates ([is_u32], [is_u64]) and truncations ([as_u32],
      [as_u64]), big-endian codecs, the lexicographic order on byte strings,
      and the result monad [res] ([Ok], [Err], [Panic]) in which every fallible
      operation runs: [Panic] is an out-of-range slice, an overflowing
      subtraction or an [unwrap] that fails.
    - [ByteMap]: sorted association lists keyed by bytes; the class [SkipMap]
      with its laws [SkipMapLaws], the interface of the third-party concurrent
      skip list the memtable uses, and a reference instance.
    - [Keys] (key.rs): [KeyPrefix], [InternalKey] and every constructor,
      prefix and parser of [KeyBuilder].
    - [Versioned]: the abstract specification of reads: [visible es k v] is the
      newest version of [k] at or below [v] among the entries [es]; and the scan
      loop that the memtable and the SST reader share.
    - [MemTable] (memtable.rs): all the operations of [MemTable].
    - [Extern]: the class of third-party functions (CRC-32, XXH3, LZ4) with the
      laws the code relies on ([ExternLaws]), and a concrete instance.
    - [Wal] (wal.rs): the record codec, the framed batches, [Wal::open],
      [append_txn], [replay_with_valid_len], [truncate_to], [create_fresh].  A
      file is its bytes; a crash leaves a prefix of what was appended.
    - [Mvcc] (mvcc.rs): the transaction manager as a step relation over begin,
      write, commit, failed commit and abort, for any storage callback.
    - [Bloom] (bloom.rs), [Zone] (zone.rs): the filters, their probes and their
      encodings.
    - [Sst] (sst.rs, the writer), [SstReader] (sst.rs, opening and block access
      and the read operations), [SstRead] (the theorems on what a reader of a
      written file returns, for both formats the writer produces),
      [SstBatch] (sst.rs, the batched lookups and prefix scans), [SstFilter]
      (sst.rs, the scans filtered by the zone map).
    - [Layers]: the theory of reading several layers: age order, first hit,
      merge.
    - [Lsm] (lsm.rs): the tree and its data directory, reads, commit, flush,
      compaction, recovery.  [LsmReads], [LsmCompact], [LsmRecovery]: the
      theorems on reads, on compaction, and on recovery and crash safety.
      [LsmBatch] and [LsmFilter] (lsm.rs): the batched and the filtered reads
      of the tree.  [LsmRecovery] ends with concrete histories in which an
      acknowledged write or a needed version is lost.
    - [Store]: the tree as a transactional map; [apply_ops] is the effect of a
      list of writes, [rows_under] a prefix scan.
    - [Utf8], [Ieee]: UTF-8 and the order of IEEE-754 floats given by their bits.
    - [Values] (crates/rhypedb-wire/src/object.rs): values and the object codec.
    - [Schema], [SchemaParser], [SchemaEmit] (crates/rhypedb-schema): the data,
      the parser with validation, the emitter; [SchemaSpec] and
      [SchemaRoundTrip]: the lexical theory and the theorems.
    - [IndexKeys] (engine database.rs): the order-preserving encodings of
      indexed values, the keys built from them, comparison and validation.
    - [Posting], [Fulltext] (engine fulltext/): analyzers, postings and the
      incremental maintenance of the full-text index.
    - [Engine] (engine database.rs): the open database and its operations, each
      a function from a snapshot to a list of writes: [create], [create_batch],
      [update], [delete_object], [link], [unlink], the renewal of covers, [get],
      [get_links], [find_by_unique_at].  [EngineEdges],
      [EngineOps], [EngineDelete]: the families of rows, the two directions of
      edges, what each operation writes, the walk of a cascade.  [EngineInv]:
      the invariant of the store and the writes that keep it.  [EngineTxn],
      [EngineCreate], [EngineUpdate]: every operation keeps it.
      [EngineSystem]: concurrent sessions over the transaction manager.
      [EngineDemo]: a small database to evaluate.  [EngineProps]: the
      properties, and runs that end in surprising states.
    - [FilterScan] (engine database.rs): batched and projected reads, scans of a
      type whole and in chunks, filters over indexes, zone maps or all objects.
      [FilterSpec], [FilterProps], [ScanChunks]: what they return.
      [FilterStore]: the scans of the tree serve them.
    - [Serde]: JSON documents and the text of floats, as the libraries give
      them; values as JSON (wire object.rs).
    - [Rules] (authz rules/mod.rs, rules/eval.rs, principal.rs): programs and
      their three-valued evaluation through an accessor, the class [reads].
      [RulesParser] (rules/parse.rs): lexer, parser and compiler.  [RulesProps]:
      the theorems.
    - [QueryPlan] (query ast.rs, executor.rs): the syntax of queries, predicates,
      literals and the planner of filters; [QueryPlanProps] and [ExecutorDemo]:
      the planner is exact, and where it is not.
    - [QueryReads] (engine database.rs): objects with encoded fields, the links
      of many objects; and the governor of queries (query governor.rs).
    - [Executor] (executor.rs, authz.rs): queries as computations over [World],
      the store with the tally of the governor; the accessor [EngineResource]
      of the rules.  [ExecutorProps], [ExecutorFilter], [ExecutorDemo]: the
      theorems and runs.
    - [QueryParser] (query parser.rs): the parser of queries; [QueryParserProps]:
      it ends.  [QueryTextProps] (client query.rs): the client's query builder and a
      printer of queries, whose text is read back.
    - [FulltextQuery] (fulltext/query.rs): the parser of search text.
      [FulltextSearch] (search.rs, candidates.rs): BM25 in 32-bit floats, phrases,
      prefixes, the ranking over visible documents; [FulltextSearchProps]: it is
      the reference ranking [hit_spec], and depends on visible postings only.
      [FulltextScan] (engine database.rs): the collection of postings in chunks
      under limits, and [fulltext_search]; [FulltextExact]: the lists it collects
      are those of the documents.  [FulltextAnswer], [FulltextHidden]: the
      theorems on whole searches.
    - [CatalogCodec] (engine catalog.rs): the records of the catalog: entries with
      their ids, counters, migration plans and partition cursors.  [Catalog]: the
      catalog in memory, [load_existing], [backfill_into_txn],
      [reconcile_into_txn], [recover_partial_into_txn] and [load_or_initialize].
      [CatalogInv], [CatalogOpen]: the catalog and its rows in step, through every
      step of an opening.  [CatalogLife]: openings over time, and the digest of
      schemas.  [DatabaseOpen] (engine database.rs): the handle an opening builds
      from the catalog.
    - [Subscribe] (crates/rhypedb-subscribe): change events, filters and the hub
      that delivers them, over the class [EventSink].
    - [Protocol] (crates/rhypedb-wire/src/protocol.rs): frames, the reader that
      reassembles them, and the payloads; [ProtocolProps]: the theorems.

    ** What the theorems show

    - Crash safety ([LsmRecovery]): a tree is [synced] with its directory when
      its memtable is the log and its SSTs are the directory's.  Opening a
      directory gives a synced tree that reads exactly the union of the log and
      the SSTs; committing and flushing keep it synced; and for commit, flush
      and compaction the directory at every crash boundary the code marks (a torn
      log batch, a partial temporary file, the SST published beside the full
      log, the merged SST beside some of its inputs) reopens to the same readable contents.
    - Reads ([LsmReads]): point reads, prefix scans, counts and chunked scans of
      a tree return exactly what [visible] specifies over all its layers;
      batched reads ([SstBatch], [LsmBatch]) return what the single ones do, for
      batches without repetitions.  Filtered scans ([SstFilter], [LsmFilter])
      miss no row whose newest version satisfies the predicate, unless a file
      spreads a key over three blocks; [LsmFilter] shows what happens then, and
      that stale rows may come with the others.
    - Compaction ([LsmCompact]): every snapshot that may still be read sees the
      same value of every key before and after, and nothing else survives.
    - Transactions ([Mvcc], and [lsm_snapshot_reads_stable] for the tree's own
      callback): first committer wins, snapshot reads are stable, the registry
      of snapshots is exact.
    - Files: log, SST, bloom filter and zone map round trips; the log's batches
      are all or nothing; the SST reader finds the newest visible version
      through the index, the blocks and the bloom filter; pruning by key range,
      bloom filter or zone map never hides an entry that matches.
    - Keys: internal keys order as intended, the fixed-width families are
      prefix-free, and prefix scans return exactly their family.

    - The store as a map ([Store]): reads of the tree at a version are reads of
      one map and a commit applies its writes to it.
    - Objects ([EngineProps]): under any interleaving of sessions, the store
      read at any version is consistent ([engine_invariant]): blobs decode,
      unique and secondary indexes are exact, edges are mirrored.  So lookups by
      unique value are right, links read the same from both ends, writes are
      read back, and deletes end and leave no row of the object behind.
    - The catalog ([CatalogLife]): over any sequence of openings, whatever the
      schemas, ids stay with their names, are never shared or reused, and what was
      retired stays retired; the names in use are exactly the schema's; what an
      opening returned is found again.  So the handle can always be built, and
      satisfies what the theorems on objects and queries assume ([DatabaseOpen]).
    - Codecs: objects, single fields read in place, schemas and postings round
      trip; the checked object reader never panics; index keys order as values.
    - Full text: what is indexed fits its encoding, and an incremental update
      leaves exactly the rows of the new text ([Fulltext]); a search answers with
      the documents that satisfy the query, ranked by the formula
      ([FulltextAnswer]); and what a caller may not read changes neither the
      hits nor their scores nor the refusals ([FulltextHidden]).
    - Filters ([FilterProps], [QueryPlanProps], [ExecutorFilter]): whichever
      access path serves it, a filter returns exactly the objects of a full scan
      that satisfy its predicate, from the filters of the engine over the planner
      to a whole query; a walk in chunks visits every object once.
    - Rules ([RulesProps]): compiling ends and gives exactly the clauses of the
      text, well scoped; data that an accessor withholds never grants.
    - Queries ([ExecutorProps]): under rules a query returns only objects its
      principal may read and changes the store only as the rules allow in the
      state before; a query that succeeds stayed within its limits.
    - The text of queries ([QueryParserProps], [QueryTextProps]): parsing ends on
      every text, in a query that keeps the rules of the language or an error;
      printed queries and those of the client's builder are read back as meant.
    - Connections ([ProtocolProps], [Subscribe]): frames arrive whole and in
      order however their bytes are split and delayed, requests and results are
      read as they were sent, no bytes make a reader panic, and a subscription
      receives exactly the events its filter matches.

    The hypotheses that recur: keys read by a point lookup have no other stored
    key as a proper extension ([key_separate], [no_extension]) and scanned
    layers have prefix-free keys ([prefix_free]): [Keys] proves it of the
    fixed-width families, and [MemTable] and [SstRead] show reads that go wrong
    without it.  [sst_fits] says that a table is within the widths of the file
    format (offsets, index size) and, compressed, within the block cap.

    ** Bounds and fuel

    [replay_loop], [decode_entries] and [last_key_loop] take the number of
    remaining bytes as fuel: each step consumes at least one byte, so it never
    runs out ([wal_recovery_idempotent] has no fuel hypothesis, and the SST
    round trip covers the rest).  The batched walks ([multi_get_loop],
    [multi_scan_loop], [skip_versions]) and the filtered one ([filtered_loop])
    take the bytes of the file and the needles or blocks: a step consumes an
    entry, a needle or a block, and the theorems on them show that they end.
    [delete_inner] takes one unit per level of a cascade; [delete_fuel], the
    incoming relations times the rows plus two, is enough: every level adds an
    object that was found at the other end of a stored edge ([delete_ends]).
    The parsers of schemas, rules, queries and search texts take the length of
    the text.  A scan of postings takes the rows of the store: a chunk that is not
    the last visits at least one.  The fields of a catalog record are walked with
    its length, and an opening makes at most [COMMIT_RETRY_BUDGET] attempts, as the
    code does; the first opening of a store succeeds ([first_open_succeeds]).
    The other loops are structural, over lists, block counts or probe indices.  Versions are 64-bit; a run of the manager
    stops before the version counter wraps.  Arithmetic on positions read from
    a file wraps at 64 bits, as in a release build.

    ** What is not modelled

    The directory lock and its owner fence (lock.rs); [snapshot_to];
    the crash-injection hooks; threads: an operation is atomic except where the
    code's own steps are split ([begin_load] and [begin_register], the SSTs
    flushed while a compaction runs, the crash boundaries).  File names, memory
    mapping and fsync are outside the model: a published file is durable.  The
    buffer of the log writer is not part of the directory.

    Of the engine: export and restore, renames, the driving of field-type
    migrations (their records are modelled) and the double writes they add, change
    events and background full-text builds.  The hash of a schema's digest is a
    parameter ([CatalogLib]) assumed to tell schemas apart ([collision_free]); what
    commits between two openings leaves the rows of the catalog alone.  [HashMap]s are sorted association lists; where the code iterates
    one, the order is a parameter ([hash_order]).  Word segmentation,
    normalization and stemming ([TextLib]), JSON ([Json], [SerdeJson]), dates and
    base64 ([TextCodecs]) and the Unicode character classes ([CharClass]) are
    parameters.  The invariant assumes that an update does not exchange the two
    zeros of an indexed float ([keeps_zeros]); [EngineProps] shows why.

    Of queries: each engine call commits on its own and no other session commits
    during a query; vector search and, to the executor, full-text search are
    parameters ([SearchLib]).  The natural logarithm is a parameter ([MathLib]).  Messages of errors are left out.

    Of the wire protocol: the JSON text of events.  A connection is the list of
    the reads it delivers.

    The verification of tokens, the server, the vector crates and the connections
    of the client are not modelled.  The order in which they should come:
    renames and the drivers of migrations, the owner fence of the directory lock. *)

From Stdlib Require Import ZArith Lia Bool List Sorting.Sorted Strings.Byte.
From stdpp Require Import base option list countable gmap.

Local Open Scope Z_scope.

(** ** Bytes *)

Abbreviation byte := Init.Byte.byte.
Abbreviation bytes := (list Init.Byte.byte).

#[global] Instance byte_eq_decision : EqDecision byte := byte_eq_dec.

#[global] Program Instance byte_countable : Countable byte :=
  {| encode b := N.succ_pos (Byte.to_N b);
     decode p := Byte.of_N (Pos.pred_N p) |}.
Next Obligation.
  intros b. cbn. rewrite N.pos_pred_succ. apply Byte.of_to_N.
Qed.

(** [u8] as an integer, and the [as u8] truncation. *)
Definition b2z (b : byte) : Z := Z.of_N (Byte.to_N b).

Definition z2b (z : Z) : byte :=
  match Byte.of_N (Z.to_N (z mod 256)) with
  | Some b => b
  | None => x00
  end.

Lemma b2z_range b : 0 <= b2z b < 256.
Proof. unfold b2z. pose proof (Byte.to_N_bounded b). lia. Qed.

Lemma b2z_z2b z : b2z (z2b z) = z mod 256.
Proof.
  unfold z2b, b2z.
  pose proof (Z.mod_pos_bound z 256 ltac:(lia)).
  destruct (Byte.of_N (Z.to_N (z mod 256))) as [b|] eqn:E.
  - apply Byte.to_of_N in E. rewrite E. lia.
  - apply Byte.of_N_None_iff in E. lia.
Qed.

Lemma b2z_inj a b : b2z a = b2z b -> a = b.
Proof.
  unfold b2z. intros H. apply N2Z.inj in H.
  pose proof (Byte.of_to_N a) as Ha. pose proof (Byte.of_to_N b) as Hb.
  rewrite H in Ha. congruence.
Qed.

Lemma z2b_b2z b : z2b (b2z b) = b.
Proof.
  apply b2z_inj. rewrite b2z_z2b.
  apply Z.mod_small, b2z_range.
Qed.

(** ** Machine words *)

Definition u32_max : Z := 2 ^ 32 - 1.
Definition u64_max : Z := 2 ^ 64 - 1.

Definition is_u32 (x : Z) : Prop := 0 <= x < 2 ^ 32.
Definition is_u64 (x : Z) : Prop := 0 <= x < 2 ^ 64.

(** Truncating casts [as u32], wrapping [u64] arithmetic, and [!x]. *)
Definition as_u32 (x : Z) : Z := x mod 2 ^ 32.
Definition as_u64 (x : Z) : Z := x mod 2 ^ 64.
Definition not64 (x : Z) : Z := Z.lxor x (Z.ones 64).

Lemma u64_testbit_high x n : is_u64 x -> 64 <= n -> Z.testbit x n = false.
Proof.
  intros [Hx0 Hx] Hn.
  destruct (Z.eq_dec x 0) as [->|]; [apply Z.bits_0|].
  apply Z.bits_above_log2; [lia|].
  apply Z.log2_lt_pow2; [lia|].
  apply Z.lt_le_trans with (2 ^ 64); [lia|].
  apply Z.pow_le_mono_r; lia.
Qed.

Lemma not64_sub x : is_u64 x -> not64 x = u64_max - x.
Proof.
  intros Hx. unfold not64, u64_max.
  assert (E : Z.lxor x (Z.ones 64) = Z.ldiff (Z.ones 64) x).
  { apply Z.bits_inj'. intros n Hn.
    rewrite Z.lxor_spec, Z.ldiff_spec.
    destruct (Z.lt_ge_cases n 64).
    - rewrite Z.ones_spec_low by lia. destruct (Z.testbit x n); reflexivity.
    - rewrite Z.ones_spec_high by lia. by rewrite u64_testbit_high. }
  rewrite E, <- Z.sub_nocarry_ldiff; [rewrite Z.ones_equiv; lia|].
  apply Z.bits_inj'. intros n Hn.
  rewrite Z.ldiff_spec, Z.bits_0.
  destruct (Z.lt_ge_cases n 64).
  - rewrite Z.ones_spec_low by lia. apply andb_false_r.
  - by rewrite u64_testbit_high.
Qed.

Lemma not64_u64 x : is_u64 x -> is_u64 (not64 x).
Proof. intros H. rewrite not64_sub by done. unfold is_u64, u64_max in *. lia. Qed.

Lemma not64_involutive x : not64 (not64 x) = x.
Proof. unfold not64. by rewrite Z.lxor_assoc, Z.lxor_nilpotent, Z.lxor_0_r. Qed.

Lemma not64_compare x y :
  is_u64 x -> is_u64 y -> Z.compare (not64 x) (not64 y) = Z.compare y x.
Proof.
  intros Hx Hy. rewrite !not64_sub by done.
  destruct (Z.compare_spec y x); destruct (Z.compare_spec (u64_max - x) (u64_max - y)); lia || reflexivity.
Qed.

(** ** Big-endian integers ([to_be_bytes] / [from_be_bytes], [put_u32], [put_u64]) *)

Fixpoint be (n : nat) (x : Z) : bytes :=
  match n with
  | O => []
  | S n' => z2b (x / 256 ^ Z.of_nat n') :: be n' x
  end.

Definition from_be (l : bytes) : Z :=
  fold_left (fun acc b => acc * 256 + b2z b) l 0.

Definition be32 : Z -> bytes := be 4.
Definition be64 : Z -> bytes := be 8.

Lemma length_be n x : length (be n x) = n.
Proof. induction n; simpl; congruence. Qed.

Lemma from_be_acc l acc :
  fold_left (fun acc b => acc * 256 + b2z b) l acc
  = acc * 256 ^ Z.of_nat (length l) + from_be l.
Proof.
  unfold from_be. revert acc. induction l as [|b l IH]; intros acc.
  - simpl. lia.
  - cbn [fold_left length]. rewrite IH, (IH (0 * 256 + b2z b)).
    rewrite Nat2Z.inj_succ, Z.pow_succ_r by lia. lia.
Qed.

Lemma from_be_cons b l :
  from_be (b :: l) = b2z b * 256 ^ Z.of_nat (length l) + from_be l.
Proof. unfold from_be at 1. cbn [fold_left]. rewrite from_be_acc. lia. Qed.

Lemma from_be_range l : 0 <= from_be l < 256 ^ Z.of_nat (length l).
Proof.
  induction l as [|b l IH]; [cbn; lia|].
  rewrite from_be_cons. cbn [length].
  rewrite Nat2Z.inj_succ, Z.pow_succ_r by lia.
  pose proof (b2z_range b). nia.
Qed.

Lemma from_be_be_mod n x : from_be (be n x) = x mod 256 ^ Z.of_nat n.
Proof.
  induction n as [|n IH]; [by rewrite Z.mod_1_r|].
  cbn [be]. rewrite from_be_cons, IH, length_be, b2z_z2b.
  rewrite Nat2Z.inj_succ, Z.pow_succ_r, (Z.mul_comm 256) by lia.
  rewrite Z.rem_mul_r by lia. lia.
Qed.

Lemma from_be_be n x : 0 <= x < 256 ^ Z.of_nat n -> from_be (be n x) = x.
Proof. intros H. rewrite from_be_be_mod. by apply Z.mod_small. Qed.

Lemma from_be64 x : is_u64 x -> from_be (be64 x) = x.
Proof. intros H. apply from_be_be. unfold is_u64 in H. simpl Z.of_nat. lia. Qed.

Lemma from_be32 x : is_u32 x -> from_be (be32 x) = x.
Proof. intros H. apply from_be_be. unfold is_u32 in H. simpl Z.of_nat. lia. Qed.

Lemma from_be_u64 l : length l = 8%nat -> is_u64 (from_be l).
Proof. intros H. pose proof (from_be_range l) as R. rewrite H in R. exact R. Qed.

Lemma from_be_u32 l : length l = 4%nat -> is_u32 (from_be l).
Proof. intros H. pose proof (from_be_range l) as R. rewrite H in R. exact R. Qed.

(** ** Lexicographic order on byte strings (Rust's [Ord] for [[u8]]) *)

Fixpoint bytes_cmp (a b : bytes) : comparison :=
  match a, b with
  | [], [] => Eq
  | [], _ :: _ => Lt
  | _ :: _, [] => Gt
  | x :: a', y :: b' =>
      match Z.compare (b2z x) (b2z y) with
      | Eq => bytes_cmp a' b'
      | c => c
      end
  end.

Definition blt (a b : bytes) : Prop := bytes_cmp a b = Lt.
Definition ble (a b : bytes) : Prop := bytes_cmp a b <> Gt.
Definition bltb (a b : bytes) : bool := match bytes_cmp a b with Lt => true | _ => false end.
Definition bleb (a b : bytes) : bool := match bytes_cmp a b with Gt => false | _ => true end.
Definition beqb (a b : bytes) : bool := match bytes_cmp a b with Eq => true | _ => false end.

Declare Scope bytes_scope.
Delimit Scope bytes_scope with bytes.
Notation "a <b b" := (blt a b) (at level 70, no associativity) : bytes_scope.
Notation "a <=b b" := (ble a b) (at level 70, no associativity) : bytes_scope.
Local Open Scope bytes_scope.

Lemma bytes_cmp_refl a : bytes_cmp a a = Eq.
Proof. induction a; simpl; [done|]. by rewrite Z.compare_refl. Qed.

Lemma bytes_cmp_eq a b : bytes_cmp a b = Eq <-> a = b.
Proof.
  split; [|intros ->; apply bytes_cmp_refl].
  revert b. induction a as [|x a IH]; intros [|y b]; simpl; try done.
  destruct (Z.compare_spec (b2z x) (b2z y)) as [E| |]; try done.
  intros H. f_equal; [by apply b2z_inj|by apply IH].
Qed.

Lemma bytes_cmp_antisym a b : bytes_cmp b a = CompOpp (bytes_cmp a b).
Proof.
  revert b. induction a as [|x a IH]; intros [|y b]; simpl; try done.
  rewrite (Z.compare_antisym (b2z x) (b2z y)).
  destruct (Z.compare (b2z x) (b2z y)); simpl; auto.
Qed.

Lemma blt_trans a b c : a <b b -> b <b c -> a <b c.
Proof.
  unfold blt. revert b c.
  induction a as [|x a IH]; intros [|y b] [|z c]; simpl; try done.
  destruct (Z.compare_spec (b2z x) (b2z y)), (Z.compare_spec (b2z y) (b2z z));
    try done; intros H1 H2;
    destruct (Z.compare_spec (b2z x) (b2z z)); try done; try lia; eauto.
Qed.

Lemma blt_irrefl a : ~ a <b a.
Proof. unfold blt. by rewrite bytes_cmp_refl. Qed.

Lemma ble_lteq a b : a <=b b <-> a <b b \/ a = b.
Proof.
  unfold ble, blt. rewrite <- (bytes_cmp_eq a b).
  destruct (bytes_cmp a b); split; intros H; try done; auto; destruct H; done.
Qed.

Lemma blt_total a b : a <b b \/ a = b \/ b <b a.
Proof.
  unfold blt. rewrite (bytes_cmp_antisym a b).
  destruct (bytes_cmp a b) eqn:E; simpl; auto.
  right; left. by apply bytes_cmp_eq.
Qed.

Lemma not_blt a b : ~ a <b b <-> b <=b a.
Proof.
  rewrite ble_lteq. pose proof (blt_total a b). split.
  - intros Hn. destruct H as [?|[->|?]]; auto; done.
  - intros [H1| ->] H2; [|by apply blt_irrefl in H2].
    by apply (blt_irrefl a), (blt_trans _ b).
Qed.

Lemma not_ble a b : ~ a <=b b <-> b <b a.
Proof.
  rewrite <- not_blt. split; [|tauto].
  destruct (blt_total b a) as [?|[->|?]]; [done| |].
  - intros H. exfalso. apply H, blt_irrefl.
  - intros H'. exfalso. apply H'. intros H2.
    by apply (blt_irrefl a), (blt_trans _ b).
Qed.

Lemma ble_refl a : a <=b a.
Proof. apply ble_lteq. auto. Qed.

Lemma blt_ble a b : a <b b -> a <=b b.
Proof. intros. apply ble_lteq. auto. Qed.

Lemma ble_trans a b c : a <=b b -> b <=b c -> a <=b c.
Proof.
  rewrite !ble_lteq. intros [H1| ->] [H2| ->]; auto. left. by eapply blt_trans.
Qed.

Lemma blt_ble_trans a b c : a <b b -> b <=b c -> a <b c.
Proof. rewrite ble_lteq. intros H1 [H2| ->]; auto. by eapply blt_trans. Qed.

Lemma ble_blt_trans a b c : a <=b b -> b <b c -> a <b c.
Proof. rewrite ble_lteq. intros [H1| ->] H2; auto. by eapply blt_trans. Qed.

Lemma ble_antisym a b : a <=b b -> b <=b a -> a = b.
Proof.
  rewrite !ble_lteq. intros [H1| ->] [H2|H2]; auto.
  exfalso. by apply (blt_irrefl a), (blt_trans _ b).
Qed.

Lemma bltb_spec a b : reflect (a <b b) (bltb a b).
Proof. unfold bltb, blt. destruct (bytes_cmp a b); constructor; done. Qed.

Lemma bleb_spec a b : reflect (a <=b b) (bleb a b).
Proof. unfold bleb, ble. destruct (bytes_cmp a b); constructor; [done|done|]. by intros []. Qed.

Lemma beqb_spec a b : reflect (a = b) (beqb a b).
Proof.
  unfold beqb. destruct (bytes_cmp a b) eqn:E; constructor.
  - by apply bytes_cmp_eq.
  - intros ->. by rewrite bytes_cmp_refl in E.
  - intros ->. by rewrite bytes_cmp_refl in E.
Qed.

#[global] Instance blt_decision a b : Decision (a <b b).
Proof. destruct (bltb_spec a b); [left|right]; done. Defined.

#[global] Instance ble_decision a b : Decision (a <=b b).
Proof. destruct (bleb_spec a b); [left|right]; done. Defined.

Lemma bytes_cmp_app p a b : bytes_cmp (p ++ a) (p ++ b) = bytes_cmp a b.
Proof. induction p; simpl; [done|]. by rewrite Z.compare_refl. Qed.

Lemma blt_app p a b : p ++ a <b p ++ b <-> a <b b.
Proof. unfold blt. by rewrite bytes_cmp_app. Qed.

Lemma ble_app p a b : p ++ a <=b p ++ b <-> a <=b b.
Proof. unfold ble. by rewrite bytes_cmp_app. Qed.

Lemma ble_nil a : [] <=b a.
Proof. by destruct a. Qed.

Lemma ble_app_r a x : a <=b a ++ x.
Proof. rewrite <- (app_nil_r a) at 1. apply ble_app, ble_nil. Qed.

(** Strings of one length compare like the integers they encode. *)
Lemma bytes_cmp_from_be a b :
  length a = length b -> bytes_cmp a b = Z.compare (from_be a) (from_be b).
Proof.
  revert b. induction a as [|x a IH]; intros [|y b] Hl; try done.
  simpl in Hl. rewrite !from_be_cons. simpl bytes_cmp.
  pose proof (from_be_range a) as Ra. pose proof (from_be_range b) as Rb.
  injection Hl as Hl. rewrite <- Hl in *.
  destruct (Z.compare_spec (b2z x) (b2z y)) as [E|L|G].
  - rewrite E, IH by done. by rewrite Z.add_compare_mono_l.
  - symmetry. apply Z.compare_lt_iff. nia.
  - symmetry. apply Z.compare_gt_iff. nia.
Qed.

Lemma be_compare n x y :
  0 <= x < 256 ^ Z.of_nat n -> 0 <= y < 256 ^ Z.of_nat n ->
  bytes_cmp (be n x) (be n y) = Z.compare x y.
Proof.
  intros Hx Hy. rewrite bytes_cmp_from_be by (by rewrite !length_be).
  by rewrite !from_be_be.
Qed.

Lemma be64_compare x y :
  is_u64 x -> is_u64 y -> bytes_cmp (be64 x) (be64 y) = Z.compare x y.
Proof. unfold is_u64. intros. apply be_compare; simpl Z.of_nat; lia. Qed.

Lemma be64_inj x y : is_u64 x -> is_u64 y -> be64 x = be64 y -> x = y.
Proof.
  intros Hx Hy E. rewrite <- (from_be64 x), <- (from_be64 y) by done. by rewrite E.
Qed.

Lemma from_be_inj a b : length a = length b -> from_be a = from_be b -> a = b.
Proof.
  intros Hl E. apply bytes_cmp_eq. rewrite bytes_cmp_from_be by done.
  by apply Z.compare_eq_iff.
Qed.

Lemma be_from_be l : be (length l) (from_be l) = l.
Proof.
  apply from_be_inj; [by rewrite length_be|].
  apply from_be_be, from_be_range.
Qed.

(** ** Prefixes ([starts_with]) *)

Fixpoint starts_with (l p : bytes) {struct p} : bool :=
  match p, l with
  | [], _ => true
  | x :: p', y :: l' => Byte.eqb x y && starts_with l' p'
  | _ :: _, [] => false
  end.

Lemma starts_with_spec l p : reflect (p `prefix_of` l) (starts_with l p).
Proof.
  revert l. induction p as [|x p IH]; intros l; simpl.
  { constructor. apply prefix_nil. }
  destruct l as [|y l]; simpl.
  { constructor. by apply prefix_nil_not. }
  destruct (Byte.eqb x y) eqn:E; simpl.
  - apply Byte.byte_dec_bl in E as ->.
    destruct (IH l) as [H|H]; constructor.
    + by apply prefix_cons.
    + intros H'. by apply prefix_cons_inv_2 in H'.
  - constructor. intros H. apply prefix_cons_inv_1 in H as <-.
    by rewrite (@Byte.byte_dec_lb x x eq_refl) in E.
Qed.

Lemma starts_with_true l p : starts_with l p = true <-> p `prefix_of` l.
Proof. by destruct (starts_with_spec l p). Qed.

(** Two byte strings neither of which is a prefix of the other keep their
    order under any suffixes. *)
Lemma blt_not_prefix a b x y :
  a <b b -> ~ a `prefix_of` b -> a ++ x <b b ++ y.
Proof.
  unfold blt. revert b. induction a as [|p a IH]; intros [|q b]; simpl; try done.
  - intros _ H. exfalso. apply H, prefix_nil.
  - destruct (Z.compare_spec (b2z p) (b2z q)) as [E| |]; try done.
    intros H Hp. apply IH; [done|]. intros Hp'. apply Hp.
    apply b2z_inj in E as ->. by apply prefix_cons.
Qed.

Lemma blt_not_prefix_inv a b x y :
  a ++ x <b b ++ y -> ~ a `prefix_of` b -> ~ b `prefix_of` a -> a <b b.
Proof.
  intros H Ha Hb. destruct (blt_total a b) as [?|[->|Hc]]; [done|done|].
  exfalso. apply (blt_irrefl (a ++ x)). eapply blt_trans; [done|].
  by apply blt_not_prefix.
Qed.

Lemma prefix_ble (a b : bytes) : a `prefix_of` b -> a <=b b.
Proof. intros [s ->]. apply ble_app_r. Qed.

(** A string between two extensions of [p] extends [p]. *)
Lemma blt_between_prefix p a b c :
  p ++ a <=b c -> c <=b p ++ b -> p `prefix_of` c.
Proof.
  revert c. induction p as [|x p IH]; intros c Ha Hb; [apply prefix_nil|].
  destruct c as [|y c]; [by destruct Ha|].
  unfold ble in *. simpl in *.
  rewrite (Z.compare_antisym (b2z x) (b2z y)) in Hb.
  destruct (Z.compare_spec (b2z x) (b2z y)) as [E| |]; simpl in *; try done.
  apply b2z_inj in E as ->. apply prefix_cons. by apply IH.
Qed.

(** ** Fallible computations

    Rust's [Result] with the panic of an out-of-range slice as a third
    outcome.  Diagnostic strings are not modelled: an error is its variant. *)

Inductive error :=
| Io
| WalCorrupted
| SstCorrupted
| NotFound
| WriteConflict
| TransactionAborted
| DataDirLocked
| DataDirOwnershipLost.

#[global] Instance error_eq_decision : EqDecision error.
Proof. solve_decision. Defined.

Inductive res (A : Type) :=
| Ok (a : A)
| Err (e : error)
| Panic.
Arguments Ok {A} a.
Arguments Err {A} e.
Arguments Panic {A}.

#[global] Instance res_ret : MRet res := @Ok.
#[global] Instance res_bind : MBind res := fun A B f m =>
  match m with
  | Ok a => f a
  | Err e => Err e
  | Panic => Panic
  end.

(** ** Slices *)

Definition len (l : bytes) : Z := Z.of_nat (length l).

(** [&l[a..b]]: panics when the range is not inside the slice. *)
Definition slice (l : bytes) (a b : Z) : res bytes :=
  if (0 <=? a) && (a <=? b) && (b <=? len l)
  then Ok (take (Z.to_nat (b - a)) (drop (Z.to_nat a) l))
  else Panic.

Lemma slice_ok l a b :
  0 <= a -> a <= b -> b <= len l ->
  slice l a b = Ok (take (Z.to_nat (b - a)) (drop (Z.to_nat a) l)).
Proof.
  intros. unfold slice.
  rewrite (proj2 (Z.leb_le 0 a)), (proj2 (Z.leb_le a b)), (proj2 (Z.leb_le b _)) by lia.
  done.
Qed.

Lemma len_app a b : len (a ++ b) = len a + len b.
Proof. unfold len. rewrite length_app. lia. Qed.

Lemma len_nonneg a : 0 <= len a.
Proof. unfold len. lia. Qed.

Lemma len_cons x a : len (x :: a) = 1 + len a.
Proof. unfold len. simpl. lia. Qed.

Lemma len_be n x : len (be n x) = Z.of_nat n.
Proof. unfold len. by rewrite length_be. Qed.

Lemma len_nil : len [] = 0.
Proof. done. Qed.

(** The middle part of a concatenation, addressed by its offsets. *)
Lemma slice_app l m r a b :
  a = len l -> b = a + len m -> slice (l ++ m ++ r) a b = Ok m.
Proof.
  intros -> ->. rewrite slice_ok; rewrite ?len_app; pose proof (len_nonneg l);
    pose proof (len_nonneg m); pose proof (len_nonneg r); try lia.
  f_equal. unfold len.
  replace (Z.to_nat (Z.of_nat (length l) + Z.of_nat (length m) - Z.of_nat (length l)))
    with (length m) by lia.
  rewrite Nat2Z.id, drop_app_length. apply take_app_length.
Qed.

#[global] Arguments be : simpl never.
#[global] Arguments be32 : simpl never.
#[global] Arguments be64 : simpl never.
#[global] Arguments from_be : simpl never.
#[global] Arguments b2z : simpl never.
#[global] Arguments z2b : simpl never.
#[global] Arguments not64 : simpl never.

Lemma length_be64 x : length (be64 x) = 8%nat.
Proof. apply length_be. Qed.

Lemma length_be32 x : length (be32 x) = 4%nat.
Proof. apply length_be. Qed.

Lemma be32_inj x y : is_u32 x -> is_u32 y -> be32 x = be32 y -> x = y.
Proof.
  intros Hx Hy E. rewrite <- (from_be32 x), <- (from_be32 y) by done. by rewrite E.
Qed.

Lemma prefix_same_length (a b : bytes) : a `prefix_of` b -> length a = length b -> a = b.
Proof.
  intros [s ->] H. rewrite length_app in H.
  destruct s; [by rewrite app_nil_r|]. simpl in H. lia.
Qed.

Create HintDb rhype.
#[export] Hint Resolve ble_refl blt_ble bytes_cmp_refl len_nonneg b2z_range : rhype.
#[export] Hint Rewrite length_be length_be32 length_be64 @length_app @length_cons @length_nil
  len_app len_cons len_nil len_be : rhype.

Lemma take_drop_mid {A} (l x r : list A) m n :
  m = length l -> n = length x -> take n (drop m (l ++ x ++ r)) = x.
Proof. intros -> ->. rewrite drop_app_length. apply take_app_length. Qed.

Lemma drop_mid {A} (l r : list A) m : m = length l -> drop m (l ++ r) = r.
Proof. intros ->. apply drop_app_length. Qed.

Lemma take_mid {A} (l r : list A) m : m = length l -> take m (l ++ r) = l.
Proof. intros ->. apply take_app_length. Qed.

Lemma as_u32_small x : is_u32 x -> as_u32 x = x.
Proof. apply Z.mod_small. Qed.

Lemma as_u64_small x : is_u64 x -> as_u64 x = x.
Proof. apply Z.mod_small. Qed.

(** Re-associates a concatenation of byte strings and closes equalities between
    such concatenations. *)
Ltac app_solve := repeat (rewrite <- ?app_assoc; cbn [app]); try reflexivity.

(** Normalises lengths of concatenations. *)
Ltac len_simpl :=
  repeat (rewrite ?length_app, ?length_cons, ?length_nil, ?length_be64, ?length_be32,
            ?length_be, ?len_app, ?len_cons, ?len_nil, ?len_be).

(** [read_exact] on the front of a buffer. *)
Definition read_exact (r : bytes) (n : nat) : res (bytes * bytes) :=
  if (n <=? length r)%nat then Ok (take n r, drop n r) else Err Io.

Lemma read_exact_app a r n : length a = n -> read_exact (a ++ r) n = Ok (a, r).
Proof.
  intros <-. unfold read_exact. rewrite length_app.
  destruct (Nat.leb_spec (length a) (length a + length r)); [|lia].
  by rewrite take_app_length, drop_app_length.
Qed.
