(* ===== verification/ByteMap.v ===== *)
(** * Ordered maps over byte-string keys

    [std::collections::BTreeMap<Bytes, V>] as a strictly sorted association
    list, the stable [sort_by] used by the compaction merge, and the interface
    the memtable needs from the concurrent skip list
    ([crossbeam_skiplist::SkipMap], a third-party crate): the class [SkipMap]
    states the documented behaviour of the operations the code calls, and the
    sorted association list is its instance used to evaluate examples. *)

From Stdlib Require Import ZArith Lia Bool List Sorting.Sorted Sorting.Permutation.
From stdpp Require Import base option list.
From S2P Require Import Prelude.

Local Open Scope bytes_scope.

Abbreviation bmap V := (list (bytes * V)).

Section bmap.
Context {V : Type}.
Implicit Types (m : bmap V) (k : bytes) (v : V).

(** [BTreeMap::insert]: replaces the value of an existing key. *)
Fixpoint bm_insert k v m : bmap V :=
  match m with
  | [] => [(k, v)]
  | (k', v') :: m' =>
      match bytes_cmp k k' with
      | Lt => (k, v) :: m
      | Eq => (k, v) :: m'
      | Gt => (k', v') :: bm_insert k v m'
      end
  end.

(** [BTreeMap::get]. *)
Fixpoint bm_get k m : option V :=
  match m with
  | [] => None
  | (k', v') :: m' => if beqb k k' then Some v' else bm_get k m'
  end.

(** [map.range(lb..)]. *)
Definition bm_range (lb : bytes) m : bmap V :=
  List.filter (fun e => bleb lb (fst e)) m.

(** Inserting a sequence of entries, later ones overwriting earlier ones. *)
Definition bm_insert_all (es : list (bytes * V)) m : bmap V :=
  fold_left (fun acc e => bm_insert (fst e) (snd e) acc) es m.

(** Keys strictly ascending. *)
Definition bsorted m : Prop := StronglySorted (fun x y => fst x <b fst y) m.

Lemma bsorted_nil : bsorted [].
Proof. constructor. Qed.

Lemma bsorted_cons_inv e m :
  bsorted (e :: m) -> bsorted m /\ Forall (fun x => fst e <b fst x) m.
Proof. intros H. by inversion H; subst. Qed.

Lemma in_bm_insert k v m k' v' :
  bsorted m ->
  In (k', v') (bm_insert k v m) <-> (k' = k /\ v' = v) \/ (k' <> k /\ In (k', v') m).
Proof.
  induction m as [|[k0 v0] m IH]; intros Hs; cbn [bm_insert].
  - simpl. intuition congruence.
  - apply bsorted_cons_inv in Hs as [Hs Hf]. simpl in Hf.
    rewrite List.Forall_forall in Hf.
    destruct (bytes_cmp k k0) eqn:E; simpl.
    + apply bytes_cmp_eq in E as ->. split.
      * intros [[= <- <-]|Hin]; [by auto|]. right. split; [|by auto].
        intros ->. apply Hf in Hin. by apply blt_irrefl in Hin.
      * intros [[-> ->]|[Hne [[= ? ?]|Hin]]]; [by auto|congruence|by auto].
    + assert (Hne : forall x, In (k', x) m -> k' <> k).
      { intros x Hx ->. apply Hf in Hx. simpl in Hx.
        apply (blt_irrefl k). by eapply blt_trans. }
      assert (k <> k0) by (intros ->; by rewrite bytes_cmp_refl in E).
      intuition (try congruence; eauto).
    + assert (k <> k0) by (intros ->; by rewrite bytes_cmp_refl in E).
      rewrite IH by done. intuition (try congruence; eauto).
Qed.

Lemma bsorted_insert k v m : bsorted m -> bsorted (bm_insert k v m).
Proof.
  induction m as [|[k0 v0] m IH]; intros Hs; cbn [bm_insert].
  { repeat constructor. }
  pose proof Hs as Hs'. apply bsorted_cons_inv in Hs' as [Hs' Hf].
  destruct (bytes_cmp k k0) eqn:E.
  - apply bytes_cmp_eq in E as ->. by constructor.
  - constructor; [done|]. constructor; [done|].
    eapply Forall_impl; [exact Hf|]. intros x Hx. simpl in *. by eapply blt_trans.
  - constructor; [by apply IH|]. apply List.Forall_forall. intros [k' v'] Hin.
    apply in_bm_insert in Hin as [[-> ->]|[_ Hin]]; [| |done].
    + simpl. unfold blt. by rewrite bytes_cmp_antisym, E.
    + rewrite List.Forall_forall in Hf. by apply Hf in Hin.
Qed.

Lemma bm_get_in k v m : bsorted m -> bm_get k m = Some v <-> In (k, v) m.
Proof.
  induction m as [|[k0 v0] m IH]; intros Hs; simpl; [done|].
  apply bsorted_cons_inv in Hs as [Hs Hf]. rewrite List.Forall_forall in Hf.
  destruct (beqb_spec k k0) as [->|Hne].
  - split; [intros [= ->]; auto|]. intros [[= ->]|Hin]; [done|].
    apply Hf in Hin. by apply blt_irrefl in Hin.
  - rewrite IH by done. split; [auto|]. intros [[= -> ->]|]; done.
Qed.

Lemma bm_get_none k m : bm_get k m = None <-> forall v, ~ In (k, v) m.
Proof.
  induction m as [|[k0 v0] m IH]; simpl; [by split; eauto|].
  destruct (beqb_spec k k0) as [->|Hne].
  - split; [done|]. intros H. exfalso. by apply (H v0); left.
  - rewrite IH. split; intros H v; specialize (H v); [|by auto].
    intros [[= -> ->]|]; done.
Qed.

Lemma bm_get_insert k v m k' :
  bsorted m ->
  bm_get k' (bm_insert k v m) = if decide (k' = k) then Some v else bm_get k' m.
Proof.
  intros Hs. pose proof (bsorted_insert k v m Hs) as Hs'.
  case_decide as E; [subst|].
  - apply bm_get_in; [done|]. apply in_bm_insert; auto.
  - destruct (bm_get k' m) as [w|] eqn:G.
    + apply bm_get_in; [done|]. apply in_bm_insert; [done|]. right.
      split; [done|]. by apply bm_get_in.
    + apply bm_get_none. intros w Hin. apply in_bm_insert in Hin as [[-> ->]|[_ Hin]]; try done.
      by apply (proj1 (bm_get_none k' m) G w).
Qed.

(** Strictly sorted maps with the same lookups are equal. *)
Lemma bm_ext m1 m2 :
  bsorted m1 -> bsorted m2 -> (forall k, bm_get k m1 = bm_get k m2) -> m1 = m2.
Proof.
  revert m2. induction m1 as [|[k v] m1 IH]; intros [|[k' v'] m2] H1 H2 Hg; [done| | |].
  - specialize (Hg k'). simpl in Hg. by destruct (beqb_spec k' k').
  - specialize (Hg k). simpl in Hg. by destruct (beqb_spec k k).
  - apply bsorted_cons_inv in H1 as [H1 F1]. apply bsorted_cons_inv in H2 as [H2 F2].
    rewrite List.Forall_forall in F1, F2.
    assert (k = k') as ->.
    { destruct (blt_total k k') as [L|[E|L]]; [|done|]; exfalso.
      - specialize (Hg k). simpl in Hg. destruct (beqb_spec k k) as [_|]; [|done].
        destruct (beqb_spec k k') as [->|_]; [by apply blt_irrefl in L|].
        symmetry in Hg. apply bm_get_in in Hg; [|done]. apply F2 in Hg. simpl in Hg.
        apply (blt_irrefl k). by eapply blt_trans.
      - specialize (Hg k'). simpl in Hg. destruct (beqb_spec k' k') as [_|]; [|done].
        destruct (beqb_spec k' k) as [->|_]; [by apply blt_irrefl in L|].
        apply bm_get_in in Hg; [|done]. apply F1 in Hg. simpl in Hg.
        apply (blt_irrefl k). by eapply blt_trans. }
    pose proof (Hg k') as Hk. simpl in Hk.
    destruct (beqb_spec k' k') as [_|]; [|done]. injection Hk as ->. f_equal.
    apply IH; [done|done|]. intros q. specialize (Hg q). simpl in Hg.
    destruct (beqb_spec q k') as [Hq|Hq]; [|done]. rewrite Hq.
    rewrite (proj2 (bm_get_none k' m1)), (proj2 (bm_get_none k' m2)); [done| |].
    + intros w Hw. apply F2 in Hw. by apply blt_irrefl in Hw.
    + intros w Hw. apply F1 in Hw. by apply blt_irrefl in Hw.
Qed.

Lemma in_bm_range lb m e : In e (bm_range lb m) <-> In e m /\ lb <=b fst e.
Proof.
  unfold bm_range. rewrite filter_In. by destruct (bleb_spec lb (fst e)); intuition.
Qed.

Lemma bsorted_filter (f : bytes * V -> bool) m : bsorted m -> bsorted (List.filter f m).
Proof.
  induction m as [|e m IH]; intros Hs; simpl; [constructor|].
  apply bsorted_cons_inv in Hs as [Hs Hf].
  destruct (f e); [|by apply IH].
  constructor; [by apply IH|].
  rewrite List.Forall_forall in *. intros x Hx. apply filter_In in Hx as [Hx _]. by apply Hf.
Qed.

Lemma bsorted_range lb m : bsorted m -> bsorted (bm_range lb m).
Proof. apply bsorted_filter. Qed.

Lemma bsorted_insert_all es m : bsorted m -> bsorted (bm_insert_all es m).
Proof.
  revert m. induction es as [|e es IH]; intros m Hs; [done|].
  apply IH, bsorted_insert, Hs.
Qed.

Lemma bsorted_nodup m : bsorted m -> NoDup (map fst m).
Proof.
  induction m as [|e m IH]; intros Hs; [constructor|].
  apply bsorted_cons_inv in Hs as [Hs Hf]. rewrite List.Forall_forall in Hf.
  cbn [map]. apply NoDup_cons. split; [|by apply IH]. rewrite list_elem_of_In, in_map_iff. intros (x & E & Hx).
  apply Hf in Hx. rewrite E in Hx. by apply blt_irrefl in Hx.
Qed.

Lemma bm_get_insert_all_notin es m k :
  bsorted m -> ~ In k (map fst es) -> bm_get k (bm_insert_all es m) = bm_get k m.
Proof.
  revert m. induction es as [|e es IH]; intros m Hs Hk; [done|]. cbn in Hk.
  change (bm_get k (bm_insert_all es (bm_insert (fst e) (snd e) m)) = bm_get k m).
  rewrite IH by (try apply bsorted_insert; tauto). rewrite bm_get_insert by done.
  rewrite decide_False; [done|]. intros ->. tauto.
Qed.

Lemma bm_get_insert_all_in es m k v :
  bsorted m -> NoDup (map fst es) -> In (k, v) es -> bm_get k (bm_insert_all es m) = Some v.
Proof.
  revert m. induction es as [|e es IH]; intros m Hs Hn Hin; [done|].
  apply NoDup_cons in Hn as [Hk Hn]. rewrite list_elem_of_In in Hk.
  change (bm_get k (bm_insert_all es (bm_insert (fst e) (snd e) m)) = Some v).
  destruct Hin as [->|Hin]; [|by apply IH; [apply bsorted_insert| |]].
  rewrite bm_get_insert_all_notin, bm_get_insert by (try apply bsorted_insert; done).
  by rewrite decide_True.
Qed.

(** [BTreeMap::remove]. *)
Definition bm_delete k m : bmap V := List.filter (fun e => negb (beqb k (fst e))) m.

Lemma bm_get_delete k m k' : bm_get k' (bm_delete k m) = if decide (k' = k) then None else bm_get k' m.
Proof.
  unfold bm_delete. induction m as [|[k0 v0] m IH]; cbn [List.filter fst bm_get]; [by case_decide|].
  destruct (beqb_spec k k0) as [->|Hne]; cbn [negb bm_get].
  - rewrite IH. case_decide; [done|]. by destruct (beqb_spec k' k0).
  - destruct (beqb_spec k' k0) as [->|]; [by rewrite decide_False by congruence|done].
Qed.

Lemma bsorted_in_unique m k v v' : bsorted m -> In (k, v) m -> In (k, v') m -> v = v'.
Proof.
  intros Hs H1 H2. apply bm_get_in in H1; [|done]. apply bm_get_in in H2; [|done].
  congruence.
Qed.

Lemma bsorted_delete k m : bsorted m -> bsorted (bm_delete k m).
Proof. apply bsorted_filter. Qed.

Lemma bm_get_filter (f : bytes -> bool) m k :
  bm_get k (List.filter (fun e => f (fst e)) m) = if f k then bm_get k m else None.
Proof.
  induction m as [|[k0 v0] m IH]; cbn [List.filter fst bm_get]; [by destruct (f k)|].
  destruct (f k0) eqn:E; cbn [bm_get]; destruct (beqb_spec k k0) as [->|]; rewrite ?IH, ?E; done.
Qed.

Lemma bsorted_app m1 m2 :
  bsorted (m1 ++ m2) <->
  bsorted m1 /\ bsorted m2 /\ (forall x y, In x m1 -> In y m2 -> fst x <b fst y).
Proof.
  induction m1 as [|e m1 IH]; simpl.
  - split; [|tauto]. intros H. split; [constructor|]. split; [done|]. by intros.
  - split.
    + intros H. apply bsorted_cons_inv in H as [H Hf]. apply IH in H as (H1 & H2 & H3).
      rewrite Forall_app in Hf. destruct Hf as [Hf1 Hf2].
      split; [by constructor|]. split; [done|]. intros x y [<-|Hx] Hy; [|by auto].
      rewrite List.Forall_forall in Hf2. by apply Hf2.
    + intros (H1 & H2 & H3). apply bsorted_cons_inv in H1 as [H1 Hf].
      constructor; [apply IH; by eauto|]. rewrite Forall_app. split; [done|].
      apply List.Forall_forall. intros y Hy. apply H3; auto.
Qed.

End bmap.

(** ** The stable sort of the compaction merge ([Vec::sort_by] on the key) *)

Section sort.
Context {V : Type}.
Implicit Types (l : list (bytes * V)).

Fixpoint sort_insert (e : bytes * V) l : list (bytes * V) :=
  match l with
  | [] => [e]
  | e' :: l' => if bleb (fst e) (fst e') then e :: l else e' :: sort_insert e l'
  end.

Definition sort_by_key l : list (bytes * V) := fold_right sort_insert [] l.

Lemma sort_insert_perm e l : Permutation (e :: l) (sort_insert e l).
Proof.
  induction l as [|e' l IH]; simpl; [done|].
  destruct (bleb _ _); [done|].
  etransitivity; [apply perm_swap|]. by apply perm_skip.
Qed.

Lemma sort_by_key_perm l : Permutation l (sort_by_key l).
Proof.
  induction l as [|e l IH]; simpl; [done|].
  etransitivity; [apply perm_skip, IH|]. apply sort_insert_perm.
Qed.

Lemma in_sort_by_key l e : In e (sort_by_key l) <-> In e l.
Proof.
  split; apply Permutation_in; [symmetry|]; apply sort_by_key_perm.
Qed.

Definition ksorted l : Prop := StronglySorted (fun x y => fst x <=b fst y) l.

Lemma ksorted_insert e l : ksorted l -> ksorted (sort_insert e l).
Proof.
  induction 1 as [|e' l Hs IH Hf]; simpl; [repeat constructor|].
  destruct (bleb_spec (fst e) (fst e')) as [L|L].
  - constructor; [by constructor|]. constructor; [done|].
    eapply Forall_impl; [exact Hf|]. intros x Hx. by eapply ble_trans.
  - apply not_ble, blt_ble in L.
    constructor; [done|]. apply List.Forall_forall. intros x Hx.
    apply Permutation_in with (l' := e :: l) in Hx; [|symmetry; apply sort_insert_perm].
    destruct Hx as [<-|Hx]; [done|]. rewrite List.Forall_forall in Hf. by apply Hf.
Qed.

Lemma ksorted_sort_by_key l : ksorted (sort_by_key l).
Proof. induction l; simpl; [constructor|]. by apply ksorted_insert. Qed.

End sort.

(** ** What the memtable needs from the concurrent skip list *)

Class SkipMap (V : Type) := {
  sm_map : Type;
  sm_new : sm_map;
  sm_insert : bytes -> V -> sm_map -> sm_map;
  sm_iter : sm_map -> list (bytes * V);
  sm_range : bytes -> sm_map -> list (bytes * V);
}.
Arguments sm_map {V} _.

(** The documented behaviour: a new map is empty, [insert] replaces an entry
    with the same key, iteration is in ascending key order, and [range(lb..)]
    yields the entries at or above [lb]. *)
Class SkipMapLaws {V : Type} (S : SkipMap V) : Prop := {
  sm_iter_new : sm_iter sm_new = [];
  sm_iter_insert k v m : sm_iter (sm_insert k v m) = bm_insert k v (sm_iter m);
  sm_iter_sorted m : bsorted (sm_iter m);
  sm_range_iter lb m : sm_range lb m = bm_range lb (sm_iter m);
}.

(** The reference instance: sorted association lists, with the order kept by
    construction. *)
Record sorted_bmap (V : Type) := SortedBmap {
  sb_list : bmap V;
  sb_ok : bsorted sb_list;
}.
Arguments sb_list {V} _.
Arguments sb_ok {V} _.

#[export] Instance list_skipmap (V : Type) : SkipMap V := {|
  sm_map := sorted_bmap V;
  sm_new := SortedBmap V [] bsorted_nil;
  sm_insert k v m :=
    SortedBmap V (bm_insert k v (sb_list m)) (bsorted_insert k v _ (sb_ok m));
  sm_iter := sb_list;
  sm_range lb m := bm_range lb (sb_list m);
|}.

#[export] Instance list_skipmap_laws (V : Type) : SkipMapLaws (list_skipmap V).
Proof. split; try done. intros m. apply sb_ok. Qed.
