(* ===== verification/Keys.v ===== *)
(** * Storage keys (crates/rhypedb-storage/src/key.rs)

    The key prefixes, the MVCC internal key [user_key ++ be64 (!version)] and
    every constructor of [KeyBuilder], the owned ones and the arena ([_into])
    ones.  A [Bytes]/[BytesMut] buffer is the list of bytes it holds; [put_u64]
    and [to_be_bytes] append the big-endian encoding. *)

From Stdlib Require Import ZArith Lia Bool List Strings.Byte.
From stdpp Require Import base option list.
From S2P Require Import Prelude.

Local Open Scope Z_scope.
Local Open Scope bytes_scope.

(** ** Prefixes *)

Inductive KeyPrefix :=
| Object | Edge | ReverseEdge | Vector | Unique | Queue | VectorState
| FieldIndex | Generation | Catalog | Fulltext | FulltextDoc.

(** The [repr(u8)] discriminants ['o'], ['e'], ['r'], ... *)
Definition prefix_u8 (p : KeyPrefix) : byte :=
  match p with
  | Object => x6f
  | Edge => x65
  | ReverseEdge => x72
  | Vector => x76
  | Unique => x75
  | Queue => x71
  | VectorState => x73
  | FieldIndex => x69
  | Generation => x67
  | Catalog => x63
  | Fulltext => x66
  | FulltextDoc => x6c
  end.

(** The separator byte [':']. *)
Definition SEPARATOR : byte := x3a.

Definition FULLTEXT_PREFIX_LEN : Z := 1 + 1 + 8 + 1 + 8 + 1 + 4 + 1.

Definition put_fulltext_prefix (buf : bytes) (prefix : KeyPrefix)
    (type_id field_id generation : Z) : bytes :=
  buf ++ [prefix_u8 prefix] ++ [SEPARATOR] ++ be64 type_id ++ [SEPARATOR]
    ++ be64 field_id ++ [SEPARATOR] ++ be32 generation ++ [SEPARATOR].

Definition push_fulltext_prefix (buf : bytes) (prefix : KeyPrefix)
    (type_id field_id generation : Z) : bytes :=
  buf ++ [prefix_u8 prefix] ++ [SEPARATOR] ++ be64 type_id ++ [SEPARATOR]
    ++ be64 field_id ++ [SEPARATOR] ++ be32 generation ++ [SEPARATOR].

(** ** Internal keys *)

Module InternalKey.

Definition new (user_key : bytes) (version : Z) : bytes :=
  user_key ++ be64 (not64 version).

(** [&data[..len - 8]] and the version in the last 8 bytes, for data of at
    least 8 bytes. *)
Definition user_key (data : bytes) : bytes := take (length data - 8) data.

Definition version (data : bytes) : Z := not64 (from_be (drop (length data - 8) data)).

End InternalKey.

(** ** The key builder *)

Module KeyBuilder.

Definition object (type_id object_id : Z) : bytes :=
  [prefix_u8 Object] ++ [SEPARATOR] ++ be64 type_id ++ [SEPARATOR] ++ be64 object_id.

Definition edge (source_id rel_id target_id : Z) : bytes :=
  [prefix_u8 Edge] ++ [SEPARATOR] ++ be64 source_id ++ [SEPARATOR] ++ be64 rel_id
    ++ [SEPARATOR] ++ be64 target_id.

Definition reverse_edge (target_id rel_id source_id : Z) : bytes :=
  [prefix_u8 ReverseEdge] ++ [SEPARATOR] ++ be64 target_id ++ [SEPARATOR] ++ be64 rel_id
    ++ [SEPARATOR] ++ be64 source_id.

Definition vector (type_id object_id field_id : Z) : bytes :=
  [prefix_u8 Vector] ++ [SEPARATOR] ++ be64 type_id ++ [SEPARATOR] ++ be64 object_id
    ++ [SEPARATOR] ++ be64 field_id.

Definition all_objects_prefix : bytes := [prefix_u8 Object; SEPARATOR].

Definition all_edges_prefix : bytes := [prefix_u8 Edge; SEPARATOR].

Definition object_prefix (type_id : Z) : bytes :=
  [prefix_u8 Object] ++ [SEPARATOR] ++ be64 type_id ++ [SEPARATOR].

Definition edge_prefix (source_id rel_id : Z) : bytes :=
  [prefix_u8 Edge] ++ [SEPARATOR] ++ be64 source_id ++ [SEPARATOR] ++ be64 rel_id
    ++ [SEPARATOR].

Definition reverse_edge_prefix (target_id rel_id : Z) : bytes :=
  [prefix_u8 ReverseEdge] ++ [SEPARATOR] ++ be64 target_id ++ [SEPARATOR] ++ be64 rel_id
    ++ [SEPARATOR].

Definition vector_prefix (type_id : Z) : bytes :=
  [prefix_u8 Vector] ++ [SEPARATOR] ++ be64 type_id ++ [SEPARATOR].

Definition unique_index (type_id field_id : Z) (value_bytes : bytes) : bytes :=
  [prefix_u8 Unique] ++ [SEPARATOR] ++ be64 type_id ++ [SEPARATOR] ++ be64 field_id
    ++ [SEPARATOR] ++ value_bytes.

(** [encoded_value] is an [[u8; 8]] here. *)
Definition field_index (type_id field_id : Z) (encoded_value : bytes) (object_id : Z) : bytes :=
  [prefix_u8 FieldIndex] ++ [SEPARATOR] ++ be64 type_id ++ [SEPARATOR] ++ be64 field_id
    ++ [SEPARATOR] ++ encoded_value ++ [SEPARATOR] ++ be64 object_id.

Definition field_index_prefix (type_id field_id : Z) : bytes :=
  [prefix_u8 FieldIndex] ++ [SEPARATOR] ++ be64 type_id ++ [SEPARATOR] ++ be64 field_id
    ++ [SEPARATOR].

Definition field_index_value_prefix (type_id field_id : Z) (encoded_value : bytes) : bytes :=
  [prefix_u8 FieldIndex] ++ [SEPARATOR] ++ be64 type_id ++ [SEPARATOR] ++ be64 field_id
    ++ [SEPARATOR] ++ encoded_value ++ [SEPARATOR].

Definition field_index_var (type_id field_id : Z) (encoded_value : bytes) (object_id : Z)
    : bytes :=
  [prefix_u8 FieldIndex] ++ [SEPARATOR] ++ be64 type_id ++ [SEPARATOR] ++ be64 field_id
    ++ [SEPARATOR] ++ encoded_value ++ be64 object_id.

Definition field_index_var_value_prefix (type_id field_id : Z) (encoded_value : bytes)
    : bytes :=
  [prefix_u8 FieldIndex] ++ [SEPARATOR] ++ be64 type_id ++ [SEPARATOR] ++ be64 field_id
    ++ [SEPARATOR] ++ encoded_value.

Definition fulltext_posting (type_id field_id generation : Z) (encoded_term : bytes)
    (object_id : Z) : bytes :=
  put_fulltext_prefix [] Fulltext type_id field_id generation
    ++ encoded_term ++ be64 object_id.

Definition fulltext_term_prefix (type_id field_id generation : Z) (encoded_term : bytes)
    : bytes :=
  put_fulltext_prefix [] Fulltext type_id field_id generation ++ encoded_term.

Definition fulltext_field_prefix (type_id field_id generation : Z) : bytes :=
  put_fulltext_prefix [] Fulltext type_id field_id generation.

Definition fulltext_field_all_generations_prefix (type_id field_id : Z) : bytes :=
  [prefix_u8 Fulltext] ++ [SEPARATOR] ++ be64 type_id ++ [SEPARATOR] ++ be64 field_id
    ++ [SEPARATOR].

Definition fulltext_doc (type_id field_id generation object_id : Z) : bytes :=
  put_fulltext_prefix [] FulltextDoc type_id field_id generation ++ be64 object_id.

Definition fulltext_doc_prefix (type_id field_id generation : Z) : bytes :=
  put_fulltext_prefix [] FulltextDoc type_id field_id generation.

Definition fulltext_doc_all_generations_prefix (type_id field_id : Z) : bytes :=
  [prefix_u8 FulltextDoc] ++ [SEPARATOR] ++ be64 type_id ++ [SEPARATOR] ++ be64 field_id
    ++ [SEPARATOR].

Definition fulltext_object_id (key : bytes) : option Z :=
  if len key <? FULLTEXT_PREFIX_LEN + 8 then None
  else Some (from_be (drop (length key - 8) key)).

Definition fulltext_posting_term (key : bytes) : option bytes :=
  if len key <? FULLTEXT_PREFIX_LEN + 2 + 8 then None
  else
    let term := drop (Z.to_nat FULLTEXT_PREFIX_LEN) (take (length key - 8) key) in
    if negb (beqb (drop (length term - 2) term) [x00; x00]) then None
    else Some term.

(** The arena variants: append to the caller's buffer and return the range
    written, its ends truncated to [u32]. *)
Definition arena (buf buf' : bytes) : bytes * (Z * Z) :=
  (buf', (as_u32 (len buf), as_u32 (len buf'))).

Definition fulltext_posting_into (buf : bytes) (type_id field_id generation : Z)
    (encoded_term : bytes) (object_id : Z) : bytes * (Z * Z) :=
  arena buf (push_fulltext_prefix buf Fulltext type_id field_id generation
               ++ encoded_term ++ be64 object_id).

Definition fulltext_doc_into (buf : bytes) (type_id field_id generation object_id : Z)
    : bytes * (Z * Z) :=
  arena buf (push_fulltext_prefix buf FulltextDoc type_id field_id generation
               ++ be64 object_id).

Definition queue_entry (job_id : Z) : bytes :=
  [prefix_u8 Queue] ++ [SEPARATOR] ++ be64 job_id.

Definition queue_prefix : bytes := [prefix_u8 Queue] ++ [SEPARATOR].

(** [&(window << 8).to_be_bytes()[..7]]; the shift drops the top byte. *)
Definition queue_window_prefix (window : Z) : bytes :=
  [prefix_u8 Queue] ++ [SEPARATOR] ++ take 7 (be64 (as_u64 (Z.shiftl window 8))).

Definition vector_state (type_id object_id field_id : Z) : bytes :=
  [prefix_u8 VectorState] ++ [SEPARATOR] ++ be64 type_id ++ [SEPARATOR] ++ be64 object_id
    ++ [SEPARATOR] ++ be64 field_id.

Definition vector_state_type_prefix (type_id : Z) : bytes :=
  [prefix_u8 VectorState] ++ [SEPARATOR] ++ be64 type_id ++ [SEPARATOR].

Definition object_version (type_id object_id : Z) : bytes :=
  [prefix_u8 Generation] ++ [SEPARATOR] ++ be64 type_id ++ [SEPARATOR] ++ be64 object_id.

Definition object_into (buf : bytes) (type_id object_id : Z) : bytes * (Z * Z) :=
  arena buf (buf ++ [prefix_u8 Object] ++ [SEPARATOR] ++ be64 type_id ++ [SEPARATOR]
               ++ be64 object_id).

Definition edge_into (buf : bytes) (source_id rel_id target_id : Z) : bytes * (Z * Z) :=
  arena buf (buf ++ [prefix_u8 Edge] ++ [SEPARATOR] ++ be64 source_id ++ [SEPARATOR]
               ++ be64 rel_id ++ [SEPARATOR] ++ be64 target_id).

Definition reverse_edge_into (buf : bytes) (target_id rel_id source_id : Z)
    : bytes * (Z * Z) :=
  arena buf (buf ++ [prefix_u8 ReverseEdge] ++ [SEPARATOR] ++ be64 target_id ++ [SEPARATOR]
               ++ be64 rel_id ++ [SEPARATOR] ++ be64 source_id).

Definition object_version_into (buf : bytes) (type_id object_id : Z) : bytes * (Z * Z) :=
  arena buf (buf ++ [prefix_u8 Generation] ++ [SEPARATOR] ++ be64 type_id ++ [SEPARATOR]
               ++ be64 object_id).

Definition unique_index_into (buf : bytes) (type_id field_id : Z) (value_bytes : bytes)
    : bytes * (Z * Z) :=
  arena buf (buf ++ [prefix_u8 Unique] ++ [SEPARATOR] ++ be64 type_id ++ [SEPARATOR]
               ++ be64 field_id ++ [SEPARATOR] ++ value_bytes).

Definition field_index_into (buf : bytes) (type_id field_id : Z) (encoded_value : bytes)
    (object_id : Z) : bytes * (Z * Z) :=
  arena buf (buf ++ [prefix_u8 FieldIndex] ++ [SEPARATOR] ++ be64 type_id ++ [SEPARATOR]
               ++ be64 field_id ++ [SEPARATOR] ++ encoded_value ++ [SEPARATOR]
               ++ be64 object_id).

Definition field_index_var_into (buf : bytes) (type_id field_id : Z) (encoded_value : bytes)
    (object_id : Z) : bytes * (Z * Z) :=
  arena buf (buf ++ [prefix_u8 FieldIndex] ++ [SEPARATOR] ++ be64 type_id ++ [SEPARATOR]
               ++ be64 field_id ++ [SEPARATOR] ++ encoded_value ++ be64 object_id).

Definition object_version_prefix : bytes := [prefix_u8 Generation] ++ [SEPARATOR].

(** *** Catalog keys: the subtype tag is one ASCII byte *)

(** [c:F:], [c:I:], [c:M:], [c:D:], [c:V:]. *)
Definition catalog_format : bytes := [prefix_u8 Catalog; SEPARATOR; x46; SEPARATOR].
Definition catalog_initialized : bytes := [prefix_u8 Catalog; SEPARATOR; x49; SEPARATOR].
Definition catalog_metadata : bytes := [prefix_u8 Catalog; SEPARATOR; x4d; SEPARATOR].
Definition catalog_digest : bytes := [prefix_u8 Catalog; SEPARATOR; x44; SEPARATOR].
Definition catalog_migration_version : bytes :=
  [prefix_u8 Catalog; SEPARATOR; x56; SEPARATOR].

(** [c:T:<type>], [c:E:<type>\0<field>], [c:R:<type>\0<field>]; the debug
    assertions on the names are not executed in release builds. *)
Definition catalog_type (type_name : bytes) : bytes :=
  [prefix_u8 Catalog; SEPARATOR; x54; SEPARATOR] ++ type_name.

Definition catalog_field (type_name field_name : bytes) : bytes :=
  [prefix_u8 Catalog; SEPARATOR; x45; SEPARATOR] ++ type_name ++ [x00] ++ field_name.

Definition catalog_rel (type_name field_name : bytes) : bytes :=
  [prefix_u8 Catalog; SEPARATOR; x52; SEPARATOR] ++ type_name ++ [x00] ++ field_name.

(** Counters [c:N:T], [c:N:E], [c:N:R], [c:N:M]. *)
Definition catalog_next_type : bytes := [prefix_u8 Catalog; SEPARATOR; x4e; SEPARATOR; x54].
Definition catalog_next_field : bytes := [prefix_u8 Catalog; SEPARATOR; x4e; SEPARATOR; x45].
Definition catalog_next_rel : bytes := [prefix_u8 Catalog; SEPARATOR; x4e; SEPARATOR; x52].
Definition catalog_next_migration : bytes :=
  [prefix_u8 Catalog; SEPARATOR; x4e; SEPARATOR; x4d].

Definition catalog_prefix_type : bytes := [prefix_u8 Catalog; SEPARATOR; x54; SEPARATOR].
Definition catalog_prefix_field : bytes := [prefix_u8 Catalog; SEPARATOR; x45; SEPARATOR].
Definition catalog_prefix_rel : bytes := [prefix_u8 Catalog; SEPARATOR; x52; SEPARATOR].
Definition catalog_prefix_all : bytes := [prefix_u8 Catalog; SEPARATOR].

Definition catalog_migration_log (ordinal : Z) : bytes :=
  [prefix_u8 Catalog; SEPARATOR; x47; SEPARATOR] ++ be64 ordinal.
Definition catalog_migration_log_prefix : bytes :=
  [prefix_u8 Catalog; SEPARATOR; x47; SEPARATOR].

Definition catalog_migration_plan (plan_id : Z) : bytes :=
  [prefix_u8 Catalog; SEPARATOR; x50; SEPARATOR] ++ be64 plan_id.
Definition catalog_migration_plan_prefix : bytes :=
  [prefix_u8 Catalog; SEPARATOR; x50; SEPARATOR].

Definition catalog_partition_cursor (plan_id : Z) (partition_idx : byte) : bytes :=
  [prefix_u8 Catalog; SEPARATOR; x53; SEPARATOR] ++ be64 plan_id ++ [partition_idx].
Definition catalog_partition_cursor_plan_prefix (plan_id : Z) : bytes :=
  [prefix_u8 Catalog; SEPARATOR; x53; SEPARATOR] ++ be64 plan_id.
Definition catalog_partition_cursor_prefix : bytes :=
  [prefix_u8 Catalog; SEPARATOR; x53; SEPARATOR].

Definition catalog_fulltext_marker (type_id field_id : Z) : bytes :=
  [prefix_u8 Catalog; SEPARATOR; x58; SEPARATOR] ++ be64 type_id ++ be64 field_id.
Definition catalog_fulltext_marker_prefix : bytes :=
  [prefix_u8 Catalog; SEPARATOR; x58; SEPARATOR].

Definition catalog_fulltext_marker_ids (key : bytes) : option (Z * Z) :=
  if negb (len key =? 4 + 8 + 8) then None
  else Some (from_be (take 8 (drop 4 key)), from_be (take 8 (drop 12 key))).

Definition fulltext_generation (key : bytes) : option Z :=
  if len key <? FULLTEXT_PREFIX_LEN then None
  else Some (from_be (take 4 (drop 20 key))).

Definition catalog_quarantine (plan_id object_id : Z) : bytes :=
  [prefix_u8 Catalog; SEPARATOR; x51; SEPARATOR] ++ be64 plan_id ++ be64 object_id.
Definition catalog_quarantine_plan_prefix (plan_id : Z) : bytes :=
  [prefix_u8 Catalog; SEPARATOR; x51; SEPARATOR] ++ be64 plan_id.
Definition catalog_quarantine_prefix : bytes :=
  [prefix_u8 Catalog; SEPARATOR; x51; SEPARATOR].

End KeyBuilder.

(** ** Internal keys: round trip and order *)

Lemma drop_app_8 (k s : bytes) :
  length s = 8%nat -> drop (length (k ++ s) - 8) (k ++ s) = s.
Proof.
  intros H. rewrite length_app, H, Nat.add_sub. apply drop_app_length.
Qed.

Lemma take_app_8 (k s : bytes) :
  length s = 8%nat -> take (length (k ++ s) - 8) (k ++ s) = k.
Proof.
  intros H. rewrite length_app, H, Nat.add_sub. apply take_app_length.
Qed.

Lemma ik_user_key_new k v : InternalKey.user_key (InternalKey.new k v) = k.
Proof. apply take_app_8, length_be64. Qed.

Lemma ik_version_new k v : is_u64 v -> InternalKey.version (InternalKey.new k v) = v.
Proof.
  intros Hv. unfold InternalKey.version, InternalKey.new.
  rewrite drop_app_8 by apply length_be64.
  rewrite from_be64 by (by apply not64_u64). apply not64_involutive.
Qed.

Lemma ik_length_new k v : length (InternalKey.new k v) = (length k + 8)%nat.
Proof. unfold InternalKey.new. by rewrite length_app, length_be64. Qed.

Lemma ik_new_inj k1 v1 k2 v2 :
  is_u64 v1 -> is_u64 v2 ->
  InternalKey.new k1 v1 = InternalKey.new k2 v2 -> k1 = k2 /\ v1 = v2.
Proof.
  intros H1 H2 E. split.
  - rewrite <- (ik_user_key_new k1 v1), <- (ik_user_key_new k2 v2). by rewrite E.
  - rewrite <- (ik_version_new k1 v1), <- (ik_version_new k2 v2) by done. by rewrite E.
Qed.

(** Data of at least eight bytes is the internal key of its own parts. *)
Lemma ik_new_parts (d : bytes) :
  (8 <= length d)%nat -> InternalKey.new (InternalKey.user_key d) (InternalKey.version d) = d.
Proof.
  intros H. unfold InternalKey.new, InternalKey.version, InternalKey.user_key.
  rewrite not64_involutive.
  assert (Hl : length (drop (length d - 8) d) = 8%nat) by (rewrite length_drop; lia).
  unfold be64. rewrite <- Hl at 2. rewrite be_from_be. apply take_drop.
Qed.

Lemma ik_version_u64 (d : bytes) : (8 <= length d)%nat -> is_u64 (InternalKey.version d).
Proof.
  intros H. apply not64_u64, from_be_u64. rewrite length_drop. lia.
Qed.

(** Within one user key a higher version sorts first. *)
Lemma ik_compare k v1 v2 :
  is_u64 v1 -> is_u64 v2 ->
  bytes_cmp (InternalKey.new k v1) (InternalKey.new k v2) = Z.compare v2 v1.
Proof.
  intros H1 H2. unfold InternalKey.new.
  rewrite bytes_cmp_app, be64_compare by (by apply not64_u64).
  by apply not64_compare.
Qed.

Lemma ik_ble k v1 v2 :
  is_u64 v1 -> is_u64 v2 ->
  (InternalKey.new k v1 <=b InternalKey.new k v2 <-> v2 <= v1).
Proof.
  intros H1 H2. unfold ble. rewrite ik_compare by done.
  destruct (Z.compare_spec v2 v1); split; try done; lia.
Qed.

(** The seek key [user_key ++ 0^8] is the internal key at version [u64::MAX]. *)
Lemma ik_new_max k : InternalKey.new k u64_max = k ++ repeat x00 8.
Proof. reflexivity. Qed.

Lemma ik_max_le k v : is_u64 v -> InternalKey.new k u64_max <=b InternalKey.new k v.
Proof. intros H. apply ik_ble; unfold is_u64, u64_max in *; lia. Qed.

(** Neither key is a prefix of the other. *)
Definition incomparable (a b : bytes) : Prop := ~ a `prefix_of` b /\ ~ b `prefix_of` a.

Lemma ik_blt_incomparable k1 v1 k2 v2 :
  incomparable k1 k2 ->
  (InternalKey.new k1 v1 <b InternalKey.new k2 v2 <-> k1 <b k2).
Proof.
  intros [H1 H2]. unfold InternalKey.new. split; intros H.
  - by eapply blt_not_prefix_inv.
  - by apply blt_not_prefix.
Qed.

#[export] Hint Resolve ik_version_u64 not64_u64 : rhype.
#[export] Hint Rewrite ik_user_key_new ik_length_new : rhype.

(** ** The fixed-width keys form a prefix code *)

(** The keys whose parts all have a fixed width, in the engine's own terms. *)
Inductive fixed_key :=
| FObject (type_id object_id : Z)
| FEdge (source_id rel_id target_id : Z)
| FReverseEdge (target_id rel_id source_id : Z)
| FVector (type_id object_id field_id : Z)
| FQueue (job_id : Z)
| FVectorState (type_id object_id field_id : Z)
| FFieldIndex (type_id field_id : Z) (encoded_value : bytes) (object_id : Z)
| FGeneration (type_id object_id : Z)
| FFulltextDoc (type_id field_id generation object_id : Z).

Definition fixed_key_bytes (k : fixed_key) : bytes :=
  match k with
  | FObject t o => KeyBuilder.object t o
  | FEdge s r t => KeyBuilder.edge s r t
  | FReverseEdge t r s => KeyBuilder.reverse_edge t r s
  | FVector t o f => KeyBuilder.vector t o f
  | FQueue j => KeyBuilder.queue_entry j
  | FVectorState t o f => KeyBuilder.vector_state t o f
  | FFieldIndex t f e o => KeyBuilder.field_index t f e o
  | FGeneration t o => KeyBuilder.object_version t o
  | FFulltextDoc t f g o => KeyBuilder.fulltext_doc t f g o
  end.

Definition fixed_key_ok (k : fixed_key) : Prop :=
  match k with
  | FObject a b | FGeneration a b => is_u64 a /\ is_u64 b
  | FEdge a b c | FReverseEdge a b c | FVector a b c | FVectorState a b c =>
      is_u64 a /\ is_u64 b /\ is_u64 c
  | FQueue a => is_u64 a
  | FFieldIndex a b e c => is_u64 a /\ is_u64 b /\ length e = 8%nat /\ is_u64 c
  | FFulltextDoc a b g c => is_u64 a /\ is_u64 b /\ is_u32 g /\ is_u64 c
  end.

Lemma cons_tail_inj (x y : byte) (a b : bytes) : x :: a = y :: b -> a = b.
Proof. by intros [= _ ->]. Qed.

(** Splits an equation between two keys of one layout into equations between
    their parts. *)
Ltac key_parts H :=
  repeat match type of H with
  | _ :: _ = _ :: _ => apply cons_tail_inj in H
  | (_ ++ _) ++ _ = _ => rewrite <- !app_assoc in H; cbn [app] in H
  | be64 ?a ++ _ = be64 ?b ++ _ =>
      let E := fresh "E" in
      apply app_inj_1 in H as [E%be64_inj H]; [|done|done|by rewrite !length_be64]
  | be32 ?a ++ _ = be32 ?b ++ _ =>
      let E := fresh "E" in
      apply app_inj_1 in H as [E%be32_inj H]; [|done|done|by rewrite !length_be32]
  | be64 _ = be64 _ => apply be64_inj in H; [|done|done]
  | ?e ++ _ = ?e' ++ _ =>
      let E := fresh "E" in
      apply app_inj_1 in H as [E H]; [|congruence]
  end.

Lemma fixed_key_bytes_inj a b :
  fixed_key_ok a -> fixed_key_ok b -> fixed_key_bytes a = fixed_key_bytes b -> a = b.
Proof.
  destruct a, b; simpl; intros Ha Hb H; try discriminate H;
    unfold KeyBuilder.object, KeyBuilder.edge, KeyBuilder.reverse_edge, KeyBuilder.vector,
      KeyBuilder.queue_entry, KeyBuilder.vector_state, KeyBuilder.field_index,
      KeyBuilder.object_version, KeyBuilder.fulltext_doc, put_fulltext_prefix in H;
    cbn [app] in H; destruct_and?; rewrite <- ?app_assoc in H; cbn [app] in H;
    key_parts H; congruence.
Qed.

Lemma fixed_key_same_prefix_length a b :
  fixed_key_ok a -> fixed_key_ok b -> fixed_key_bytes a `prefix_of` fixed_key_bytes b ->
  length (fixed_key_bytes a) = length (fixed_key_bytes b).
Proof.
  intros Ha Hb Hp.
  assert (Hh : head (fixed_key_bytes a) = head (fixed_key_bytes b)).
  { destruct Hp as [s ->]. by destruct a. }
  clear Hp. destruct a, b; try discriminate Hh; simpl in *; destruct_and?;
    unfold KeyBuilder.object, KeyBuilder.edge, KeyBuilder.reverse_edge, KeyBuilder.vector,
      KeyBuilder.queue_entry, KeyBuilder.vector_state, KeyBuilder.field_index,
      KeyBuilder.object_version, KeyBuilder.fulltext_doc, put_fulltext_prefix;
    autorewrite with rhype; congruence.
Qed.

Lemma fixed_key_incomparable a b :
  fixed_key_ok a -> fixed_key_ok b -> a <> b ->
  incomparable (fixed_key_bytes a) (fixed_key_bytes b).
Proof.
  intros Ha Hb Hne. split; intros Hp; apply Hne.
  - apply fixed_key_bytes_inj; [done..|]. apply prefix_same_length; [done|].
    by apply fixed_key_same_prefix_length.
  - symmetry. apply fixed_key_bytes_inj; [done..|]. apply prefix_same_length; [done|].
    by apply fixed_key_same_prefix_length.
Qed.

(** ** Scan prefixes select exactly the keys they are meant for *)

Lemma prefix_app_iff (p q s : bytes) :
  length p = length q -> (p `prefix_of` q ++ s <-> p = q).
Proof.
  intros H. split.
  - intros [t E]. apply app_inj_1 in E as [E _]; [done|]. by symmetry.
  - intros ->. by exists s.
Qed.

(** [q] followed by anything starts with [p] of the same length iff [p = q]. *)
Lemma starts_with_app_iff (p q s : bytes) :
  length p = length q -> (starts_with (q ++ s) p = true <-> p = q).
Proof.
  intros H. rewrite <- prefix_app_iff with (s := s) by done.
  by destruct (starts_with_spec (q ++ s) p).
Qed.

Lemma starts_with_cons (x : byte) (l p : bytes) :
  starts_with (x :: l) (x :: p) = starts_with l p.
Proof. simpl. by rewrite (@Byte.byte_dec_lb x x eq_refl). Qed.

Lemma object_prefix_exact t o t' :
  is_u64 t -> is_u64 t' ->
  starts_with (KeyBuilder.object t o) (KeyBuilder.object_prefix t') = true <-> t' = t.
Proof.
  intros Ht Ht'. unfold KeyBuilder.object, KeyBuilder.object_prefix.
  cbn [app]. rewrite !starts_with_cons, (cons_middle _ (be64 t)), app_assoc.
  rewrite starts_with_app_iff by (by autorewrite with rhype).
  split; [|by intros ->]. intros H. by key_parts H.
Qed.

Lemma edge_prefix_exact s r t s' r' :
  is_u64 s -> is_u64 r -> is_u64 s' -> is_u64 r' ->
  starts_with (KeyBuilder.edge s r t) (KeyBuilder.edge_prefix s' r') = true
  <-> s' = s /\ r' = r.
Proof.
  intros Hs Hr Hs' Hr'. unfold KeyBuilder.edge, KeyBuilder.edge_prefix.
  cbn [app]. rewrite !starts_with_cons.
  replace (be64 s ++ SEPARATOR :: be64 r ++ SEPARATOR :: be64 t)
    with ((be64 s ++ SEPARATOR :: be64 r ++ [SEPARATOR]) ++ be64 t)
    by (rewrite <- !app_assoc; cbn [app]; by rewrite <- !app_assoc).
  rewrite starts_with_app_iff by (by autorewrite with rhype).
  split; [|by intros [-> ->]]. intros H. key_parts H. done.
Qed.

Lemma reverse_edge_prefix_exact t r s t' r' :
  is_u64 t -> is_u64 r -> is_u64 t' -> is_u64 r' ->
  starts_with (KeyBuilder.reverse_edge t r s) (KeyBuilder.reverse_edge_prefix t' r') = true
  <-> t' = t /\ r' = r.
Proof.
  intros Ht Hr Ht' Hr'. unfold KeyBuilder.reverse_edge, KeyBuilder.reverse_edge_prefix.
  cbn [app]. rewrite !starts_with_cons.
  replace (be64 t ++ SEPARATOR :: be64 r ++ SEPARATOR :: be64 s)
    with ((be64 t ++ SEPARATOR :: be64 r ++ [SEPARATOR]) ++ be64 s)
    by (rewrite <- !app_assoc; cbn [app]; by rewrite <- !app_assoc).
  rewrite starts_with_app_iff by (by autorewrite with rhype).
  split; [|by intros [-> ->]]. intros H. key_parts H. done.
Qed.

(** The top seven bytes of a [u64] are its quotient by 256. *)
Lemma take_7_be64 x : take 7 (be64 x) = be 7 (x / 256).
Proof.
  unfold be64. cbn -[z2b Z.pow Z.div]. unfold be. cbn -[z2b Z.pow Z.div].
  repeat (f_equal; try (rewrite Z.div_div by lia; f_equal; lia)).
Qed.

Lemma shiftl_8_u64 w : 0 <= w < 2 ^ 56 -> as_u64 (Z.shiftl w 8) = w * 256.
Proof. intros H. unfold as_u64. rewrite Z.shiftl_mul_pow2 by lia. apply Z.mod_small. lia. Qed.

Lemma queue_window_exact j w :
  is_u64 j -> 0 <= w < 2 ^ 56 ->
  starts_with (KeyBuilder.queue_entry j) (KeyBuilder.queue_window_prefix w) = true
  <-> w * 256 <= j < w * 256 + 256.
Proof.
  intros Hj Hw. unfold KeyBuilder.queue_entry, KeyBuilder.queue_window_prefix.
  cbn [app]. rewrite !starts_with_cons, shiftl_8_u64, take_7_be64, Z.div_mul by lia.
  rewrite <- (take_drop 7 (be64 j)), take_7_be64.
  rewrite starts_with_app_iff by (by rewrite !length_be).
  assert (0 <= j / 256 < 2 ^ 56).
  { unfold is_u64 in Hj. split; [apply Z.div_pos; lia|].
    apply Z.div_lt_upper_bound; lia. }
  pose proof (Z.div_mod j 256 ltac:(lia)). pose proof (Z.mod_pos_bound j 256 ltac:(lia)).
  split.
  - intros E. apply (f_equal from_be) in E.
    rewrite !from_be_be in E by (change (256 ^ Z.of_nat 7) with (2 ^ 56); lia). lia.
  - intros R. f_equal. lia.
Qed.

(** ** Arena variants write the same key as the owned ones *)

(** What a caller of an [_into] variant relies on: the buffer it passed is
    extended, and the returned range addresses exactly [key]. *)
Definition arena_writes (buf : bytes) (r : bytes * (Z * Z)) (key : bytes) : Prop :=
  r.1 = buf ++ key /\
  (len (buf ++ key) < 2 ^ 32 -> slice r.1 r.2.1 r.2.2 = Ok key).

Lemma arena_writes_app buf key : arena_writes buf (KeyBuilder.arena buf (buf ++ key)) key.
Proof.
  split; [done|]. intros H. unfold KeyBuilder.arena, as_u32. cbn [fst snd].
  rewrite len_app in *. pose proof (len_nonneg buf). pose proof (len_nonneg key).
  rewrite !Z.mod_small by lia.
  rewrite <- (app_nil_r key) at 1. by apply slice_app.
Qed.

(** Every arena key encoder appends to its buffer exactly the key the owned
    encoder of the same name builds, and, as long as the buffer stays below
    4 GiB (the returned offsets are [u32]), the returned range slices it back. *)
Theorem arena_parity buf a b c g (v : bytes) :
  arena_writes buf (KeyBuilder.object_into buf a b) (KeyBuilder.object a b) /\
  arena_writes buf (KeyBuilder.edge_into buf a b c) (KeyBuilder.edge a b c) /\
  arena_writes buf (KeyBuilder.reverse_edge_into buf a b c) (KeyBuilder.reverse_edge a b c) /\
  arena_writes buf (KeyBuilder.object_version_into buf a b) (KeyBuilder.object_version a b) /\
  arena_writes buf (KeyBuilder.unique_index_into buf a b v) (KeyBuilder.unique_index a b v) /\
  arena_writes buf (KeyBuilder.field_index_into buf a b v c) (KeyBuilder.field_index a b v c) /\
  arena_writes buf (KeyBuilder.field_index_var_into buf a b v c)
    (KeyBuilder.field_index_var a b v c) /\
  arena_writes buf (KeyBuilder.fulltext_posting_into buf a b g v c)
    (KeyBuilder.fulltext_posting a b g v c) /\
  arena_writes buf (KeyBuilder.fulltext_doc_into buf a b g c)
    (KeyBuilder.fulltext_doc a b g c).
Proof.
  split_and!; try apply arena_writes_app.
  - unfold KeyBuilder.fulltext_posting_into, push_fulltext_prefix.
    rewrite <- app_assoc. apply arena_writes_app.
  - unfold KeyBuilder.fulltext_doc_into, push_fulltext_prefix.
    rewrite <- app_assoc. apply arena_writes_app.
Qed.

(** An internal key gives back its user key and version, and among the
    internal keys of one user key a forward scan meets the newest version
    first. *)
Theorem internal_key_round_trip k v1 v2 :
  is_u64 v1 -> is_u64 v2 ->
  InternalKey.user_key (InternalKey.new k v1) = k /\
  InternalKey.version (InternalKey.new k v1) = v1 /\
  bytes_cmp (InternalKey.new k v1) (InternalKey.new k v2) = Z.compare v2 v1.
Proof.
  intros H1 H2. split_and!; [apply ik_user_key_new|by apply ik_version_new|by apply ik_compare].
Qed.

Lemma internal_key_round_trip_witness :
  bytes_cmp (InternalKey.new [x61] 5) (InternalKey.new [x61] 7) = Gt.
Proof.
  refine (proj2 (proj2 (internal_key_round_trip [x61] 5 7 _ _)));
    unfold is_u64; lia.
Defined.

(** Two different fixed-width keys (objects, edges, reverse edges, vectors,
    queue entries, vector states, integer field-index entries, generations,
    full-text document rows) are never prefixes of one another, so the storage
    layer's versioned lookups never confuse them. *)
Theorem fixed_width_keys_prefix_free a b :
  fixed_key_ok a -> fixed_key_ok b -> a <> b ->
  incomparable (fixed_key_bytes a) (fixed_key_bytes b).
Proof. apply fixed_key_incomparable. Qed.

Lemma fixed_width_keys_prefix_free_witness :
  incomparable (fixed_key_bytes (FObject 1 2)) (fixed_key_bytes (FEdge 1 2 3)).
Proof.
  apply (fixed_width_keys_prefix_free (FObject 1 2) (FEdge 1 2 3));
    [unfold fixed_key_ok, is_u64; lia..|done].
Defined.

(** A prefix scan built by the key builder selects exactly the keys of its
    type, of its (source, relation) pair, of its (target, relation) pair, and
    the 256 queue jobs of its window. *)
Theorem scan_prefixes_exact a b c a' b' :
  is_u64 a -> is_u64 b -> is_u64 a' -> is_u64 b' ->
  (starts_with (KeyBuilder.object a c) (KeyBuilder.object_prefix a') = true <-> a' = a) /\
  (starts_with (KeyBuilder.edge a b c) (KeyBuilder.edge_prefix a' b') = true
   <-> a' = a /\ b' = b) /\
  (starts_with (KeyBuilder.reverse_edge a b c) (KeyBuilder.reverse_edge_prefix a' b') = true
   <-> a' = a /\ b' = b) /\
  (a' < 2 ^ 56 ->
   starts_with (KeyBuilder.queue_entry a) (KeyBuilder.queue_window_prefix a') = true
   <-> a' * 256 <= a < a' * 256 + 256).
Proof.
  intros. split_and!.
  - by apply object_prefix_exact.
  - by apply edge_prefix_exact.
  - by apply reverse_edge_prefix_exact.
  - intros Hw. apply queue_window_exact; [done|]. unfold is_u64 in *. lia.
Qed.

Lemma scan_prefixes_exact_witness :
  starts_with (KeyBuilder.edge 7 3 9) (KeyBuilder.edge_prefix 7 3) = true.
Proof.
  apply (scan_prefixes_exact 7 3 9 7 3); unfold is_u64; lia.
Defined.
