(* ===== verification/Versioned.v ===== *)
(** * Versioned entries

    What every layer of the LSM tree stores: entries keyed by internal keys.
    This file has the abstract reading of a collection of entries, the newest
    version of a user key visible at a snapshot ([best], [visible]), and the
    scan loop the memtable and the SST reader share, with its correctness over
    an entry list in internal-key order. *)

From Stdlib Require Import ZArith Lia Bool List Sorting.Sorted.
From stdpp Require Import base option list.
From S2P Require Import Prelude ByteMap Keys.

Local Open Scope Z_scope.
Local Open Scope bytes_scope.

(** A stored value; [None] is a tombstone. *)
Abbreviation MemValue := (option bytes).

Abbreviation entry := (bytes * option bytes)%type.

Definition euk (e : entry) : bytes := InternalKey.user_key (fst e).
Definition ever (e : entry) : Z := InternalKey.version (fst e).

(** Every key is long enough to carry a version. *)
Definition wf_entries (es : list entry) : Prop := Forall (fun e => (8 <= length (fst e))%nat) es.

(** ** The newest visible version *)

(** The version and value of the newest entry of [k] at or below [v]; on equal
    versions the first entry of the list. *)
Fixpoint best (es : list entry) (k : bytes) (v : Z) : option (Z * MemValue) :=
  match es with
  | [] => None
  | e :: es' =>
      if beqb (euk e) k && (ever e <=? v) then
        match best es' k v with
        | Some (w, m) => if w <=? ever e then Some (ever e, snd e) else Some (w, m)
        | None => Some (ever e, snd e)
        end
      else best es' k v
  end.

Definition visible (es : list entry) (k : bytes) (v : Z) : option MemValue :=
  snd <$> best es k v.

(** An internal key has one value. *)
Definition functional (es : list entry) : Prop :=
  forall k m m', In (k, m) es -> In (k, m') es -> m = m'.

Lemma wf_entries_in es e : wf_entries es -> In e es -> (8 <= length (fst e))%nat.
Proof. intros H. by apply (proj1 (List.Forall_forall _ _) H). Qed.

Lemma entry_eta e : (8 <= length (fst e))%nat -> e = (InternalKey.new (euk e) (ever e), snd e).
Proof.
  intros H. destruct e as [k m]. unfold euk, ever. simpl in *. by rewrite ik_new_parts.
Qed.

Lemma euk_new k v m : euk (InternalKey.new k v, m) = k.
Proof. apply ik_user_key_new. Qed.

Lemma ever_new k v m : is_u64 v -> ever (InternalKey.new k v, m) = v.
Proof. apply ik_version_new. Qed.

Lemma best_none es k v :
  best es k v = None <-> forall e, In e es -> euk e = k -> v < ever e.
Proof.
  induction es as [|e es IH]; simpl; [by split; eauto|].
  destruct (beqb_spec (euk e) k) as [Hk|Hk]; simpl;
    [destruct (Z.leb_spec (ever e) v) as [Hv|Hv]; simpl|].
  - split.
    + destruct (best es k v) as [[w m]|]; [by destruct (_ <=? _)|done].
    + intros H. specialize (H e (or_introl eq_refl) Hk). lia.
  - rewrite IH. split; intros H e'; [intros [<-|Hin]; [done|by auto]|by auto].
  - rewrite IH. split; intros H e'; [intros [<-|Hin]; [done|by auto]|by auto].
Qed.

Lemma best_some es k v w m :
  best es k v = Some (w, m) ->
  (exists e, In e es /\ euk e = k /\ ever e = w /\ snd e = m) /\ w <= v /\
  (forall e, In e es -> euk e = k -> ever e <= v -> ever e <= w).
Proof.
  revert w m. induction es as [|e es IH]; intros w m; simpl; [done|].
  destruct (beqb_spec (euk e) k) as [Hk|Hk]; simpl.
  2: { intros H. apply IH in H as ((e' & Hin & H1 & H2 & H3) & Hv & Hmax).
       split_and!; [by exists e'; auto|done|]. intros e'' [<-|Hin''] Hk'' Hv''; [done|by auto]. }
  destruct (Z.leb_spec (ever e) v) as [Hv|Hv]; simpl.
  2: { intros H. apply IH in H as ((e' & Hin & H1 & H2 & H3) & Hv' & Hmax).
       split_and!; [by exists e'; auto|done|]. intros e'' [<-|Hin''] Hk'' Hv''; [lia|by auto]. }
  destruct (best es k v) as [[w' m']|] eqn:E.
  - specialize (IH _ _ eq_refl) as ((e' & Hin & H1 & H2 & H3) & Hv' & Hmax).
    destruct (Z.leb_spec w' (ever e)); intros [= <- <-]; split_and!;
      [by exists e; auto|lia| |by exists e'; auto|lia|];
      intros e'' [<-|Hin''] Hk'' Hv''; try lia;
      specialize (Hmax _ Hin'' Hk'' Hv''); lia.
  - intros [= <- <-]. split_and!; [by exists e; auto|done|].
    intros e'' [<-|Hin''] Hk'' Hv''; [lia|]. exfalso.
    apply best_none with (e := e'') in E; [lia|done|done].
Qed.

(** The specification of [best], and that it depends on the entries as a set. *)
Lemma best_spec es k v w m :
  wf_entries es -> functional es ->
  (best es k v = Some (w, m) <->
   In (InternalKey.new k w, m) es /\ is_u64 w /\ w <= v /\
   (forall e, In e es -> euk e = k -> ever e <= v -> ever e <= w)).
Proof.
  intros Hwf Hf. split.
  - intros H. apply best_some in H as ((e & Hin & <- & <- & <-) & Hv & Hmax).
    pose proof (wf_entries_in _ _ Hwf Hin).
    split_and!; [by rewrite <- entry_eta|by apply ik_version_u64|done|done].
  - intros (Hin & Hu & Hv & Hmax).
    destruct (best es k v) as [[w' m']|] eqn:E.
    + apply best_some in E as ((e & Hin' & <- & <- & <-) & Hv' & Hmax').
      pose proof (wf_entries_in _ _ Hwf Hin') as Hl.
      assert (ever e = w) as Hw.
      { pose proof (Hmax _ Hin' eq_refl Hv').
        specialize (Hmax' _ Hin). rewrite euk_new, ever_new in Hmax' by done.
        specialize (Hmax' eq_refl Hv). lia. }
      subst w. do 2 f_equal. eapply Hf; [|exact Hin].
      by rewrite (entry_eta e Hl) in Hin'.
    + exfalso. apply best_none with (e := (InternalKey.new k w, m)) in E;
        [|done|apply euk_new]. rewrite ever_new in E by done. lia.
Qed.

Lemma best_ext es es' k v :
  wf_entries es -> functional es -> (forall e, euk e = k -> In e es <-> In e es') ->
  best es k v = best es' k v.
Proof.
  intros Hwf Hf Hext.
  destruct (best es k v) as [[w m]|] eqn:E.
  - apply best_some in E as ((e & Hin & Hk & <- & <-) & Hv & Hmax).
    destruct (best es' k v) as [[w' m']|] eqn:E'.
    + apply best_some in E' as ((e' & Hin' & Hk' & <- & <-) & Hv' & Hmax').
      apply Hext in Hin' as Hin2; [|done]. apply Hext in Hin as Hin3; [|done].
      pose proof (Hmax _ Hin2 Hk' Hv'). pose proof (Hmax' _ Hin3 Hk Hv).
      assert (ever e' = ever e) as Heq by lia. rewrite Heq. do 2 f_equal.
      pose proof (wf_entries_in _ _ Hwf Hin) as L1.
      pose proof (wf_entries_in _ _ Hwf Hin2) as L2.
      eapply Hf.
      * rewrite (entry_eta e L1) in Hin. exact Hin.
      * rewrite (entry_eta e' L2), Hk', Heq, <- Hk in Hin2. exact Hin2.
    + exfalso. eapply best_none in E'; [|by apply Hext|done]. lia.
  - symmetry. apply best_none. intros e Hin Hk.
    eapply best_none; [exact E| |done]. by apply Hext.
Qed.

(** Entries in strict internal-key order are functional. *)
Lemma bsorted_functional (es : list entry) : bsorted es -> functional es.
Proof. intros Hs k m m'. by apply bsorted_in_unique. Qed.

Lemma wf_entries_app es es' : wf_entries (es ++ es') <-> wf_entries es /\ wf_entries es'.
Proof. apply Forall_app. Qed.

Lemma wf_entries_incl es es' :
  (forall e, In e es' -> In e es) -> wf_entries es -> wf_entries es'.
Proof.
  intros Hi Hw. apply List.Forall_forall. intros e He. by apply (wf_entries_in es), Hi.
Qed.

(** ** The scan loop

    [MemTable::scan_prefix], [scan_prefix_max] and [scan_from_max] and the SST
    reader's [scan_prefix_impl] and [scan_from_max] walk the entries in
    internal-key order with the same body: skip keys below [lower] (when the
    method has that guard), stop at the first key outside [prefix], skip
    versions above the snapshot, keep the first remaining entry of each user
    key, and stop after [max_distinct] results (when bounded).  [count] is
    [results.len()], [last] is [last_user_key]. *)
Fixpoint scan_loop (lower : option bytes) (prefix : bytes) (version : Z)
    (max_distinct : option Z) (count : Z) (last : option bytes) (es : list entry)
    : list (bytes * MemValue) :=
  match es with
  | [] => []
  | e :: es' =>
      if (length (fst e) <? 8)%nat then scan_loop lower prefix version max_distinct count last es'
      else
        let user_key := euk e in
        if match lower with Some lo => bltb user_key lo | None => false end then
          scan_loop lower prefix version max_distinct count last es'
        else if negb (starts_with user_key prefix) then []
        else if version <? ever e then
          scan_loop lower prefix version max_distinct count last es'
        else if match last with Some prev => beqb prev user_key | None => false end then
          scan_loop lower prefix version max_distinct count last es'
        else
          (user_key, snd e) ::
            match max_distinct with
            | Some n =>
                if n <=? count + 1 then []
                else scan_loop lower prefix version max_distinct (count + 1)
                       (Some user_key) es'
            | None =>
                scan_loop lower prefix version max_distinct (count + 1) (Some user_key) es'
            end
  end.

(** The bound only cuts the unbounded result. *)
Lemma scan_loop_max lower p v n c c' last es :
  c < n ->
  scan_loop lower p v (Some n) c last es
  = take (Z.to_nat (n - c)) (scan_loop lower p v None c' last es).
Proof.
  revert c c' last. induction es as [|e es IH]; intros c c' last Hc; simpl.
  { by rewrite take_nil. }
  destruct (_ <? 8)%nat; [by apply IH|].
  destruct (match lower with Some lo => _ | None => _ end); [by apply IH|].
  destruct (negb _); [by rewrite take_nil|].
  destruct (v <? ever e); [by apply IH|].
  destruct (match last with Some prev => _ | None => _ end); [by apply IH|].
  destruct (Z.leb_spec n (c + 1)).
  - replace (Z.to_nat (n - c)) with 1%nat by lia. done.
  - replace (Z.to_nat (n - c)) with (S (Z.to_nat (n - (c + 1)))) by lia.
    simpl. f_equal. by apply IH.
Qed.

Lemma scan_loop_count lower p v c c' last es :
  scan_loop lower p v None c last es = scan_loop lower p v None c' last es.
Proof.
  revert c c' last. induction es as [|e es IH]; intros c c' last; simpl; [done|].
  destruct (_ <? 8)%nat; [done|].
  destruct (match lower with Some lo => _ | None => _ end); [done|].
  destruct (negb _); [done|]. destruct (v <? ever e); [done|].
  destruct (match last with Some prev => _ | None => _ end); [done|].
  f_equal. apply IH.
Qed.

(** Distinct user keys of the list are incomparable. *)
Definition prefix_free (es : list entry) : Prop :=
  forall e e', In e es -> In e' es -> euk e <> euk e' -> incomparable (euk e) (euk e').

Lemma prefix_free_cons e es : prefix_free (e :: es) -> prefix_free es.
Proof. intros H a b Ha Hb. apply H; by right. Qed.

(** In a prefix-free list, internal-key order is user-key order and, within a
    user key, newest first. *)
Lemma ik_order e e' :
  (8 <= length (fst e))%nat -> (8 <= length (fst e'))%nat ->
  (euk e <> euk e' -> incomparable (euk e) (euk e')) ->
  fst e <b fst e' ->
  euk e <b euk e' \/ (euk e = euk e' /\ ever e' < ever e).
Proof.
  intros L1 L2 Hinc Hlt. destruct e as [k m], e' as [k' m']. simpl in *.
  rewrite <- (ik_new_parts k), <- (ik_new_parts k') in Hlt by done.
  change (InternalKey.user_key k) with (euk (k, m)) in *.
  change (InternalKey.user_key k') with (euk (k', m')) in *.
  destruct (decide (euk (k, m) = euk (k', m'))) as [E|E].
  - right. split; [done|]. rewrite E in Hlt. unfold blt in Hlt.
    rewrite ik_compare in Hlt by (by apply ik_version_u64).
    by apply Z.compare_lt_iff in Hlt.
  - left. eapply ik_blt_incomparable; [by apply Hinc|exact Hlt].
Qed.

Lemma best_cons_skip e es k v :
  euk e <> k \/ v < ever e -> best (e :: es) k v = best es k v.
Proof.
  intros H. simpl. destruct (beqb_spec (euk e) k) as [E|]; [|done].
  destruct (Z.leb_spec (ever e) v); [|done]. destruct H; [done|lia].
Qed.

Lemma best_cons_hit e es v :
  ever e <= v -> (forall e', In e' es -> euk e' = euk e -> ever e' <= ever e) ->
  best (e :: es) (euk e) v = Some (ever e, snd e).
Proof.
  intros Hv Hmax. simpl. destruct (beqb_spec (euk e) (euk e)) as [_|]; [|done].
  destruct (Z.leb_spec (ever e) v); [|lia]. simpl.
  destruct (best es (euk e) v) as [[w m]|] eqn:E; [|done].
  apply best_some in E as ((e' & Hin & Hk & <- & <-) & _ & _).
  destruct (Z.leb_spec (ever e') (ever e)); [done|]. specialize (Hmax _ Hin Hk). lia.
Qed.

(** The hypotheses of a scan over a layer: sorted well-formed entries with
    prefix-free user keys, and a seek that leaves no key outside [prefix]
    below it. *)
Record scan_ok (lower : option bytes) (p : bytes) (es : list entry) : Prop := {
  so_wf : wf_entries es;
  so_sorted : bsorted es;
  so_free : prefix_free es;
  so_seek e : In e es -> match lower with Some lo => lo <=b euk e | None => True end ->
    ~ p `prefix_of` euk e -> p <b euk e;
}.

Lemma scan_ok_cons lower p e es : scan_ok lower p (e :: es) -> scan_ok lower p es.
Proof.
  intros [Hw Hs Hf Hseek]. split.
  - by inversion Hw.
  - apply (bsorted_cons_inv _ _ Hs).
  - by eapply prefix_free_cons.
  - intros e' Hin. apply Hseek. by right.
Qed.

(** Entries after [e] have a larger user key, or the same one and an older version. *)
Lemma scan_ok_after lower p e es e' :
  scan_ok lower p (e :: es) -> In e' es ->
  euk e <b euk e' \/ (euk e = euk e' /\ ever e' < ever e).
Proof.
  intros [Hw Hs Hf _] Hin. apply bsorted_cons_inv in Hs as [_ Hlt].
  rewrite List.Forall_forall in Hlt.
  apply ik_order.
  - eapply wf_entries_in; [exact Hw|by left].
  - eapply wf_entries_in; [exact Hw|by right].
  - apply Hf; [by left|by right].
  - by apply Hlt.
Qed.

Definition last_below (last : option bytes) (es : list entry) : Prop :=
  match last with Some l => forall e, In e es -> l <=b euk e | None => True end.

Lemma last_below_cons last e es : last_below last (e :: es) -> last_below last es.
Proof. destruct last; [|done]. intros H e' He'. apply H. by right. Qed.

Lemma last_below_after lower p e es :
  scan_ok lower p (e :: es) -> last_below (Some (euk e)) es.
Proof.
  intros Hok e' Hin. destruct (scan_ok_after _ _ _ _ _ Hok Hin) as [H|[-> _]]; auto with rhype.
Qed.

(** Past the first key outside the prefix there is no key of the prefix. *)
Lemma scan_ok_break lower p e es u v w :
  scan_ok lower p (e :: es) ->
  match lower with Some lo => lo <=b euk e | None => True end ->
  ~ p `prefix_of` euk e -> p `prefix_of` u -> best (e :: es) u v <> Some w.
Proof.
  intros Hok Hlo Hnp [s ->] E. destruct w as [w m].
  apply best_some in E as ((e' & Hin & Hk & _ & _) & _ & _).
  pose proof (so_seek _ _ _ Hok e (or_introl eq_refl) Hlo Hnp) as Hlt.
  assert (Hu : p ++ s <b euk e).
  { rewrite <- (app_nil_r (euk e)). by apply blt_not_prefix. }
  destruct Hin as [<-|Hin].
  - rewrite <- Hk in Hu. by apply blt_irrefl in Hu.
  - destruct (scan_ok_after _ _ _ _ _ Hok Hin) as [H|[H _]].
    + rewrite Hk in H. apply (blt_irrefl (euk e)). by eapply blt_trans.
    + rewrite H, Hk in Hu. by apply blt_irrefl in Hu.
Qed.

Lemma scan_loop_in lower p v c last es u m :
  scan_ok lower p es -> last_below last es ->
  In (u, m) (scan_loop lower p v None c last es) <->
  last <> Some u /\ p `prefix_of` u /\
  match lower with Some lo => lo <=b u | None => True end /\
  visible es u v = Some m.
Proof.
  revert c last. induction es as [|e es IH]; intros c last Hok Hlast; cbn [scan_loop].
  { unfold visible. simpl. split; [done|]. by intros (_ & _ & _ & ?). }
  pose proof (scan_ok_cons _ _ _ _ Hok) as Hok'.
  pose proof (last_below_cons _ _ _ Hlast) as Hlast'.
  destruct (Nat.ltb_spec (length (fst e)) 8) as [Hl|Hl].
  { exfalso. pose proof (wf_entries_in _ e (so_wf _ _ _ Hok) (or_introl eq_refl)). lia. }
  assert (Hskip : forall (P : Prop), (P -> euk e <> u \/ v < ever e) ->
    (P /\ visible (e :: es) u v = Some m <-> P /\ visible es u v = Some m)).
  { intros P HP. unfold visible. split; intros [H1 H2]; split; auto;
      by rewrite best_cons_skip in * by auto. }
  destruct (match lower with Some lo => bltb (euk e) lo | None => false end) eqn:Elo.
  { rewrite IH by done. destruct lower as [lo|]; [|done].
    destruct (bltb_spec (euk e) lo) as [Hlt|]; [|done].
    rewrite (Hskip (lo <=b u)); [done|].
    intros Hle. left. intros <-. by apply not_blt in Hle. }
  assert (Hlo : match lower with Some lo => lo <=b euk e | None => True end).
  { destruct lower as [lo|]; [|done]. destruct (bltb_spec (euk e) lo); [done|].
    by apply not_blt. }
  destruct (starts_with_spec (euk e) p) as [Hp|Hp]; cbn [negb].
  2: { split; [done|]. intros (_ & Hpu & _ & Hv). unfold visible in Hv.
       destruct (best (e :: es) u v) as [w|] eqn:E; [|done].
       by apply (scan_ok_break _ _ _ _ _ _ w Hok Hlo Hp Hpu) in E. }
  destruct (Z.ltb_spec v (ever e)) as [Hv|Hv].
  { rewrite IH by done. unfold visible. by rewrite best_cons_skip by auto. }
  destruct (match last with Some prev => beqb prev (euk e) | None => false end) eqn:El.
  { destruct last as [prev|]; [|done]. destruct (beqb_spec prev (euk e)) as [->|]; [|done].
    rewrite IH by done. split; intros (H1 & H2 & H3 & H4); split_and!; try done;
      unfold visible in *; by rewrite best_cons_skip in * by (left; congruence). }
  cbn [In]. rewrite IH by (done || by eapply last_below_after).
  assert (Hbest : best (e :: es) (euk e) v = Some (ever e, snd e)).
  { apply best_cons_hit; [done|]. intros e' Hin Hk.
    destruct (scan_ok_after _ _ _ _ _ Hok Hin) as [H|[_ H]]; [|lia].
    rewrite Hk in H. by apply blt_irrefl in H. }
  destruct (decide (u = euk e)) as [->|Hne].
  - unfold visible. rewrite Hbest. simpl. split.
    + intros [[= ->]|(H & _)]; [|done]. split_and!; try done.
      destruct last as [l|]; [|done]. destruct (beqb_spec l (euk e)); congruence.
    + intros (_ & _ & _ & [= ->]). by left.
  - unfold visible. rewrite best_cons_skip by (left; congruence). split.
    + intros [[= ? ?]|(_ & H2 & H3 & H4)]; [congruence|]. split_and!; try done.
      destruct last as [l|]; [|done]. intros [= ->].
      destruct (best es u v) as [[w m']|] eqn:E; [|done].
      apply best_some in E as ((e' & Hin & Hk & _ & _) & _ & _).
      pose proof (Hlast e (or_introl eq_refl)) as Hle.
      destruct (scan_ok_after _ _ _ _ _ Hok Hin) as [H|[H _]]; rewrite Hk in H; [|done].
      apply (blt_irrefl (euk e)). by eapply blt_ble_trans.
    + intros (_ & H2 & H3 & H4). right. split_and!; try done. congruence.
Qed.

Lemma visible_in es k v m : visible es k v = Some m -> exists e, In e es /\ euk e = k.
Proof.
  unfold visible. destruct (best es k v) as [[w m']|] eqn:E; [|done].
  apply best_some in E as ((e & Hin & Hk & _) & _). eauto.
Qed.

(** The results come in ascending key order, one per user key. *)
Lemma scan_loop_sorted lower p v c last es :
  scan_ok lower p es -> last_below last es -> bsorted (scan_loop lower p v None c last es).
Proof.
  revert c last. induction es as [|e es IH]; intros c last Hok Hlast; cbn [scan_loop];
    [constructor|].
  pose proof (scan_ok_cons _ _ _ _ Hok) as Hok'.
  pose proof (last_below_cons _ _ _ Hlast) as Hlast'.
  pose proof (last_below_after _ _ _ _ Hok) as Haft.
  destruct (_ <? 8)%nat; [by apply IH|].
  destruct (match lower with Some lo => _ | None => _ end); [by apply IH|].
  destruct (negb _); [constructor|]. destruct (v <? ever e); [by apply IH|].
  destruct (match last with Some prev => _ | None => _ end); [by apply IH|].
  constructor; [by apply IH|]. apply List.Forall_forall. intros [u m] Hin.
  apply scan_loop_in in Hin as (Hne & _ & _ & Hv); [|done..].
  apply visible_in in Hv as (e' & Hin' & Hk). simpl. rewrite <- Hk.
  destruct (proj1 (ble_lteq _ _) (Haft _ Hin')) as [Hlt|E]; [done|congruence].
Qed.

(** ** What a layer promises to the tree

    A layer (memtable or SST) holding the entries [es] answers a scan of
    [prefix] at snapshot [v] with the newest visible version of every user key
    under the prefix, in ascending key order. *)
Definition scan_answer (es : list entry) (p : bytes) (lo : bytes) (v : Z)
    (r : list (bytes * MemValue)) : Prop :=
  bsorted r /\
  forall u m, In (u, m) r <-> p `prefix_of` u /\ lo <=b u /\ visible es u v = Some m.

Lemma scan_answer_unique es p lo v r r' :
  scan_answer es p lo v r -> scan_answer es p lo v r' -> r = r'.
Proof.
  intros [Hs H] [Hs' H']. apply bm_ext; [done..|]. intros k.
  destruct (bm_get k r) as [m|] eqn:E.
  - symmetry. apply bm_get_in; [done|]. apply H', H. by apply bm_get_in.
  - symmetry. apply bm_get_none. intros m Hin.
    apply (proj1 (bm_get_none k r) E m). by apply H, H'.
Qed.

(** A scan over a part of the entries that has all versions of the keys asked
    for answers for the whole collection. *)
Lemma scan_loop_answer lower p lo v es es' :
  scan_ok lower p es' ->
  match lower with Some l => l = lo | None => lo = p end ->
  (forall u, p `prefix_of` u -> lo <=b u -> visible es' u v = visible es u v) ->
  scan_answer es p lo v (scan_loop lower p v None 0 None es').
Proof.
  intros Hok Hlo Hsub. split; [by apply scan_loop_sorted|].
  intros u m. rewrite scan_loop_in by done. split.
  - intros (_ & Hp & Hl & Hv).
    assert (lo <=b u) by (destruct lower; subst; auto using prefix_ble).
    by rewrite Hsub in Hv.
  - intros (Hp & Hl & Hv). rewrite Hsub by done. split_and!; try done.
    by destruct lower; subst.
Qed.

Lemma zeros_ble n (l : bytes) : (n <= length l)%nat -> repeat Byte.x00 n <=b l.
Proof.
  revert l. induction n as [|n IH]; intros [|x l] H; simpl in *; try done; [lia|].
  unfold ble. simpl. pose proof (b2z_range x) as R. revert R. generalize (b2z x).
  change (b2z Byte.x00) with 0. intros z R.
  destruct (Z.compare_spec 0 z) as [|Hlt|]; [|destruct z; done || lia|lia].
  subst z. apply IH. lia.
Qed.

(** All versions of a user key at or above [lo] sort after the seek key [lo ++ 0^8]. *)
Lemma seek_ble lo e :
  (8 <= length (fst e))%nat -> lo <=b euk e -> InternalKey.new lo u64_max <=b fst e.
Proof.
  intros Hl Hle. rewrite ik_new_max, (entry_eta e Hl). cbn [fst]. unfold InternalKey.new.
  destruct (starts_with_spec (euk e) lo) as [[s ->]|Hp].
  - rewrite <- app_assoc. apply ble_app, zeros_ble. rewrite length_app, length_be64. lia.
  - apply ble_lteq in Hle as [Hlt|E]; [|by rewrite E in Hp].
    by apply blt_ble, blt_not_prefix.
Qed.

(** A key at or after the seek key of [p], and not a strict prefix of [p], is
    not below [p]. *)
Lemma seek_above p e :
  (8 <= length (fst e))%nat -> (euk e `prefix_of` p -> euk e = p) ->
  InternalKey.new p u64_max <=b fst e -> p <=b euk e.
Proof.
  intros Hl Hpre Hge. apply not_blt. intros Hlt.
  rewrite ik_new_max, (entry_eta e Hl) in Hge. cbn [fst] in Hge. unfold InternalKey.new in Hge.
  apply not_blt in Hge. apply Hge, blt_not_prefix; [done|].
  intros Hp. rewrite (Hpre Hp) in Hlt. by apply blt_irrefl in Hlt.
Qed.

(** No user key is a strict prefix of [p]. *)
Definition no_strict_prefix (p : bytes) (es : list entry) : Prop :=
  forall e, In e es -> euk e `prefix_of` p -> euk e = p.

Lemma prefix_free_incl es es' :
  (forall e, In e es' -> In e es) -> prefix_free es -> prefix_free es'.
Proof. intros Hi Hf a b Ha Hb. apply Hf; auto. Qed.

(** Snapshots above every version read the same. *)
Lemma visible_bound es k v w : (forall e, In e es -> ever e <= v /\ ever e <= w) -> visible es k v = visible es k w.
Proof.
  intros H. unfold visible. f_equal. induction es as [|e es IH]; [done|]. cbn [best].
  destruct (H e) as [H1 H2]; [by left|]. rewrite (proj2 (Z.leb_le _ _) H1), (proj2 (Z.leb_le _ _) H2), IH; [done|].
  intros e' He'. apply H. by right.
Qed.

Lemma visible_ext es es' k v :
  wf_entries es -> functional es -> (forall e, euk e = k -> In e es <-> In e es') ->
  visible es k v = visible es' k v.
Proof. intros. unfold visible. by rewrite (best_ext es es'). Qed.
