(* ===== verification/MemTable.v ===== *)
(** * The memtable (crates/rhypedb-storage/src/memtable.rs)

    The in-memory layer: a skip list keyed by internal keys and an approximate
    size.  The skip list is the parameter [SkipMap] of ByteMap.v; the methods
    take [&self] in the source because the skip list is shared, and are state
    passing here. *)

From Stdlib Require Import ZArith Lia Bool List Sorting.Sorted Strings.Byte.
From stdpp Require Import base option list.
From S2P Require Import Prelude ByteMap Keys Versioned.

Local Open Scope Z_scope.
Local Open Scope bytes_scope.

Section memtable.
Context {SM : SkipMap MemValue}.

Record MemTable := {
  mt_map : sm_map SM;
  mt_size_bytes : Z;
}.

Definition mem_new : MemTable := {| mt_map := sm_new; mt_size_bytes := 0 |}.

(** [fetch_add] wraps at the width of [usize]. *)
Definition mem_put (mt : MemTable) (user_key : bytes) (version : Z) (value : bytes)
    : MemTable :=
  let key_bytes := InternalKey.new user_key version in
  let added := len key_bytes + len value in
  {| mt_map := sm_insert key_bytes (Some value) (mt_map mt);
     mt_size_bytes := as_u64 (mt_size_bytes mt + added) |}.

Definition mem_delete (mt : MemTable) (user_key : bytes) (version : Z) : MemTable :=
  let key_bytes := InternalKey.new user_key version in
  let added := len key_bytes in
  {| mt_map := sm_insert key_bytes None (mt_map mt);
     mt_size_bytes := as_u64 (mt_size_bytes mt + added) |}.

(** The body of the [for] loop of [get] over the range from the scan key. *)
Fixpoint mem_get_loop (user_key : bytes) (es : list entry) : option MemValue :=
  match es with
  | [] => None
  | e :: es' =>
      if (length (fst e) <? 8)%nat then mem_get_loop user_key es'
      else if negb (beqb (euk e) user_key) then None
      else Some (snd e)
  end.

Definition mem_get (mt : MemTable) (user_key : bytes) (version : Z) : option MemValue :=
  mem_get_loop user_key (sm_range (InternalKey.new user_key version) (mt_map mt)).

Definition mem_approximate_size (mt : MemTable) : Z := mt_size_bytes mt.

Definition mem_iter (mt : MemTable) : list entry := sm_iter (mt_map mt).

Definition mem_is_empty (mt : MemTable) : bool :=
  match mem_iter mt with [] => true | _ :: _ => false end.

Definition mem_scan_from_max (mt : MemTable) (prefix start_user_key : bytes) (version : Z)
    (max_distinct : Z) : list (bytes * MemValue) :=
  if (max_distinct =? 0) || negb (starts_with start_user_key prefix) then []
  else scan_loop (Some start_user_key) prefix version (Some max_distinct) 0 None
         (sm_range (InternalKey.new start_user_key u64_max) (mt_map mt)).

Definition mem_scan_prefix_max (mt : MemTable) (prefix : bytes) (version : Z)
    (max_distinct : Z) : list (bytes * MemValue) :=
  if max_distinct =? 0 then []
  else scan_loop None prefix version (Some max_distinct) 0 None
         (sm_range (InternalKey.new prefix u64_max) (mt_map mt)).

Definition mem_scan_prefix (mt : MemTable) (prefix : bytes) (version : Z)
    : list (bytes * MemValue) :=
  scan_loop None prefix version None 0 None
    (sm_range (InternalKey.new prefix u64_max) (mt_map mt)).

Definition mem_multi_get (mt : MemTable) (user_keys : list bytes) (version : Z)
    : list (option MemValue) :=
  map (fun k => mem_get mt k version) user_keys.

Definition mem_multi_scan_prefix (mt : MemTable) (prefixes : list bytes) (version : Z)
    : list (list (bytes * MemValue)) :=
  map (fun p => mem_scan_prefix mt p version) prefixes.

(** ** Contents *)

Context {SML : SkipMapLaws SM}.

Lemma mem_iter_new : mem_iter mem_new = [].
Proof. apply sm_iter_new. Qed.

Lemma mem_iter_put mt k v val :
  mem_iter (mem_put mt k v val) = bm_insert (InternalKey.new k v) (Some val) (mem_iter mt).
Proof. apply sm_iter_insert. Qed.

Lemma mem_iter_delete mt k v :
  mem_iter (mem_delete mt k v) = bm_insert (InternalKey.new k v) None (mem_iter mt).
Proof. apply sm_iter_insert. Qed.

Lemma mem_iter_sorted mt : bsorted (mem_iter mt).
Proof. apply sm_iter_sorted. Qed.

Lemma mem_iter_functional mt : functional (mem_iter mt).
Proof. apply bsorted_functional, mem_iter_sorted. Qed.

(** The table only holds internal keys: the invariant of [put] and [delete]. *)
Definition mem_wf (mt : MemTable) : Prop := wf_entries (mem_iter mt).

Lemma wf_entries_insert k v m es :
  bsorted es -> wf_entries es -> wf_entries (bm_insert (InternalKey.new k v) m es).
Proof.
  intros Hs Hw. apply List.Forall_forall. intros [k' m'] Hin.
  apply in_bm_insert in Hin as [[-> ->]|[_ Hin]]; [|by eapply wf_entries_in|done].
  simpl. rewrite ik_length_new. lia.
Qed.

Lemma mem_wf_new : mem_wf mem_new.
Proof. unfold mem_wf. rewrite mem_iter_new. constructor. Qed.

Lemma mem_wf_put mt k v val : mem_wf mt -> mem_wf (mem_put mt k v val).
Proof.
  unfold mem_wf. rewrite mem_iter_put. apply wf_entries_insert, mem_iter_sorted.
Qed.

Lemma mem_wf_delete mt k v : mem_wf mt -> mem_wf (mem_delete mt k v).
Proof.
  unfold mem_wf. rewrite mem_iter_delete. apply wf_entries_insert, mem_iter_sorted.
Qed.

(** [k] is not confusable with another user key of the entries. *)
Definition key_separate (k : bytes) (es : list entry) : Prop :=
  forall e, In e es -> euk e <> k -> incomparable (euk e) k.

(** An entry between two internal keys of [k] belongs to [k]. *)
Lemma ik_between k v w e :
  (8 <= length (fst e))%nat ->
  InternalKey.new k v <=b fst e -> fst e <=b InternalKey.new k w ->
  (euk e <> k -> incomparable (euk e) k) -> euk e = k.
Proof.
  intros Hl H1 H2 Hinc. destruct (decide (euk e = k)) as [|Hne]; [done|].
  exfalso. destruct (Hinc Hne) as [Ha Hb].
  assert (Hp : k `prefix_of` fst e) by (by eapply blt_between_prefix).
  assert (Hq : euk e `prefix_of` fst e).
  { exists (drop (length (fst e) - 8) (fst e)). symmetry. apply take_drop. }
  by destruct (prefix_weak_total _ _ _ Hp Hq).
Qed.

Lemma mem_get_loop_visible k v es :
  wf_entries es -> bsorted es -> key_separate k es -> is_u64 v ->
  mem_get_loop k (bm_range (InternalKey.new k v) es) = visible es k v.
Proof.
  intros Hw Hs Hsep Hv. unfold visible.
  assert (Hrange : forall e, In e es -> euk e = k -> ever e <= v ->
    In e (bm_range (InternalKey.new k v) es)).
  { intros e Hin <- Hle. apply in_bm_range. split; [done|].
    pose proof (wf_entries_in _ _ Hw Hin) as L.
    rewrite (entry_eta e L) at 2. apply ik_ble; [done|by apply ik_version_u64|done]. }
  pose proof (bsorted_range (InternalKey.new k v) es Hs) as Hsr.
  destruct (bm_range (InternalKey.new k v) es) as [|e0 r] eqn:Er; cbn [mem_get_loop].
  { rewrite (proj2 (best_none es k v)); [done|]. intros e Hin Hk.
    destruct (Z.lt_ge_cases v (ever e)); [done|]. by apply Hrange in Hin. }
  assert (H0 : In e0 es /\ InternalKey.new k v <=b fst e0).
  { apply in_bm_range. rewrite Er. by left. }
  destruct H0 as [Hin0 Hge0]. pose proof (wf_entries_in _ _ Hw Hin0) as L0.
  destruct (Nat.ltb_spec (length (fst e0)) 8) as [|_]; [lia|].
  apply bsorted_cons_inv in Hsr as [_ Hmin]. rewrite List.Forall_forall in Hmin.
  assert (Hle : forall e, In e es -> euk e = k -> ever e <= v -> fst e0 <=b fst e).
  { intros e Hin Hk He. apply Hrange in Hin as [->|Hin]; [apply ble_refl| |done|done].
    by apply blt_ble, Hmin. }
  destruct (beqb_spec (euk e0) k) as [Hk0|Hk0]; cbn [negb].
  - rewrite (entry_eta e0 L0), Hk0 in Hge0. cbn [fst] in Hge0.
    apply ik_ble in Hge0; [|done|by apply ik_version_u64].
    rewrite (proj2 (best_spec es k v (ever e0) (snd e0) Hw (bsorted_functional _ Hs))); [done|].
    split_and!; [by rewrite <- Hk0, <- entry_eta|by apply ik_version_u64|done|].
    intros e Hin Hk He. pose proof (Hle e Hin Hk He) as Hord.
    pose proof (wf_entries_in _ _ Hw Hin) as L.
    rewrite (entry_eta e0 L0), (entry_eta e L), Hk0, Hk in Hord. cbn [fst] in Hord.
    by apply ik_ble in Hord; [|by apply ik_version_u64..].
  - rewrite (proj2 (best_none es k v)); [done|]. intros e Hin Hk.
    destruct (Z.lt_ge_cases v (ever e)) as [|He]; [done|]. exfalso. apply Hk0.
    pose proof (Hle e Hin Hk He) as Hord. pose proof (wf_entries_in _ _ Hw Hin) as L.
    rewrite (entry_eta e L), Hk in Hord. eapply ik_between; eauto.
Qed.

Lemma mem_get_visible mt k v :
  mem_wf mt -> key_separate k (mem_iter mt) -> is_u64 v ->
  mem_get mt k v = visible (mem_iter mt) k v.
Proof.
  intros Hw Hs Hv. unfold mem_get. rewrite sm_range_iter.
  apply mem_get_loop_visible; auto. apply mem_iter_sorted.
Qed.

Lemma mem_range_visible mt lo u v :
  mem_wf mt -> lo <=b u ->
  visible (bm_range (InternalKey.new lo u64_max) (mem_iter mt)) u v
  = visible (mem_iter mt) u v.
Proof.
  intros Hw Hle. symmetry. apply visible_ext; [done|apply mem_iter_functional|].
  intros e <-. rewrite in_bm_range. split; [|by intros []].
  intros Hin. split; [done|]. apply seek_ble; [by eapply wf_entries_in|done].
Qed.

Lemma mem_scan_ok mt lower p lo :
  mem_wf mt -> prefix_free (mem_iter mt) ->
  (forall e, In e (mem_iter mt) -> InternalKey.new lo u64_max <=b fst e ->
     match lower with Some l => l <=b euk e | None => True end ->
     ~ p `prefix_of` euk e -> p <b euk e) ->
  scan_ok lower p (bm_range (InternalKey.new lo u64_max) (mem_iter mt)).
Proof.
  intros Hw Hf Hseek.
  assert (Hi : forall e, In e (bm_range (InternalKey.new lo u64_max) (mem_iter mt)) ->
                 In e (mem_iter mt)) by (intros e He; apply in_bm_range in He; tauto).
  split.
  - by eapply wf_entries_incl.
  - apply bsorted_range, mem_iter_sorted.
  - by eapply prefix_free_incl.
  - intros e He. apply in_bm_range in He as [Hin Hge]. by apply Hseek.
Qed.

Lemma mem_scan_prefix_answer mt p v :
  mem_wf mt -> prefix_free (mem_iter mt) -> no_strict_prefix p (mem_iter mt) ->
  scan_answer (mem_iter mt) p p v (mem_scan_prefix mt p v).
Proof.
  intros Hw Hf Hn. unfold mem_scan_prefix. rewrite sm_range_iter.
  apply scan_loop_answer; [|done|].
  - apply mem_scan_ok; [done..|]. intros e Hin Hge _ Hnp.
    assert (Hle : p <=b euk e)
      by (apply seek_above; [by eapply wf_entries_in|by apply Hn|done]).
    apply ble_lteq in Hle as [|E]; [done|]. by rewrite E in Hnp.
  - intros u _ Hle. by apply mem_range_visible.
Qed.

Lemma mem_scan_prefix_max_take mt p v n :
  0 <= n -> mem_scan_prefix_max mt p v n = take (Z.to_nat n) (mem_scan_prefix mt p v).
Proof.
  intros Hn. unfold mem_scan_prefix_max, mem_scan_prefix.
  destruct (Z.eqb_spec n 0) as [->|]; [done|].
  rewrite scan_loop_max with (c' := 0) by lia. do 2 f_equal. lia.
Qed.

Lemma mem_scan_from_max_answer mt p s v n :
  mem_wf mt -> prefix_free (mem_iter mt) -> p `prefix_of` s -> 0 <= n ->
  exists r, scan_answer (mem_iter mt) p s v r /\
    mem_scan_from_max mt p s v n = take (Z.to_nat n) r.
Proof.
  intros Hw Hf Hp Hn. unfold mem_scan_from_max. rewrite sm_range_iter.
  exists (scan_loop (Some s) p v None 0 None
            (bm_range (InternalKey.new s u64_max) (mem_iter mt))). split.
  - apply scan_loop_answer; [|done|].
    + apply mem_scan_ok; [done..|]. intros e Hin Hge Hle Hnp.
      apply prefix_ble in Hp. pose proof (ble_trans _ _ _ Hp Hle) as H.
      apply ble_lteq in H as [|E]; [done|]. by rewrite E in Hnp.
    + intros u _ Hle. by apply mem_range_visible.
  - destruct (Z.eqb_spec n 0) as [->|]; [done|]. cbn [orb].
    destruct (starts_with_spec s p); [|done]. cbn [negb].
    rewrite scan_loop_max with (c' := 0) by lia. do 2 f_equal. lia.
Qed.

(** A memtable lookup returns the newest version of the key at or below the
    snapshot (a put, a tombstone, or nothing), provided no other stored user
    key is a prefix or an extension of the key. *)
Theorem mem_get_newest_visible mt k v :
  mem_wf mt -> key_separate k (mem_iter mt) -> is_u64 v ->
  mem_get mt k v = visible (mem_iter mt) k v.
Proof. apply mem_get_visible. Qed.

End memtable.
Arguments MemTable SM : clear implicits.

(** ** Evaluation on the reference skip list *)

Module Examples.

Definition mt0 : MemTable (list_skipmap MemValue) :=
  mem_delete (mem_put (mem_put mem_new [x61] 1 [x31]) [x62] 2 [x32]) [x61] 5.

Example get_at_snapshot : mem_get mt0 [x61] 4 = Some (Some [x31]).
Proof. vm_compute. reflexivity. Qed.

Example get_tombstone : mem_get mt0 [x61] 5 = Some None.
Proof. vm_compute. reflexivity. Qed.

Lemma mt0_wf : mem_wf mt0.
Proof. apply mem_wf_delete, mem_wf_put, mem_wf_put, mem_wf_new. Qed.

End Examples.

Lemma mem_get_newest_visible_witness :
  mem_get Examples.mt0 [x61] 9 = visible (mem_iter Examples.mt0) [x61] 9.
Proof.
  apply (mem_get_newest_visible Examples.mt0 [x61] 9).
  - apply Examples.mt0_wf.
  - intros e Hin. vm_compute in Hin.
    repeat (destruct Hin as [<-|Hin];
      [try (by intros []); split; intros [s Hs]; vm_compute in Hs; congruence|]).
    destruct Hin.
  - unfold is_u64. lia.
Defined.

(** The requirement on the keys is needed: with the versions of ["a"] and
    one key that extends ["a"] by eight bytes, a lookup of ["a"] lands on the
    other key and reports a miss although an older version of ["a"] is
    visible. *)
Theorem mem_get_misses_interleaved_key :
  let other := [x61; xff; xff; xff; xff; xff; xff; xff; xfb] in
  let mt := mem_put (mem_put (mem_new (SM := list_skipmap MemValue)) [x61] 3 [x31])
              other 1 [x32] in
  mem_get mt [x61] 5 = None /\ visible (mem_iter mt) [x61] 5 = Some (Some [x31]).
Proof. vm_compute. done. Qed.
