(* ===== verification/Extern.v ===== *)
(** * Third-party functions the storage engine calls

    The checksum ([crc32fast::hash]), the seeded hash of the bloom filter
    ([xxhash_rust::xxh3::xxh3_64_with_seed]) and the block compressor
    ([lz4_flex::compress], [lz4_flex::decompress]) are not part of the
    repository: they are the operations of the class [Extern], and what the
    code relies on is the class [ExternLaws].  [toy_extern] is one instance,
    used to evaluate the definitions. *)

From Stdlib Require Import ZArith Lia Bool List Strings.Byte.
From stdpp Require Import base option list.
From S2P Require Import Prelude.

Local Open Scope Z_scope.

Class Extern := {
  crc32 : bytes -> Z;
  xxh3_64_with_seed : bytes -> Z -> Z;
  lz4_compress : bytes -> bytes;
  lz4_decompress : bytes -> Z -> option bytes;
}.

(** The result types ([u32], [u64]) and the round trip of the compressor. *)
Class ExternLaws (E : Extern) : Prop := {
  crc32_u32 b : is_u32 (crc32 b);
  xxh3_u64 b seed : is_u64 (xxh3_64_with_seed b seed);
  lz4_round_trip b : lz4_decompress (lz4_compress b) (len b) = Some b;
}.

(** A block of one repeated byte is stored as that byte and its count. *)
Definition toy_compress (b : bytes) : bytes :=
  match b with
  | x :: b' => if forallb (Byte.eqb x) b' then x01 :: x :: be64 (len b) else x00 :: b
  | [] => [x00]
  end.

Definition toy_decompress (b : bytes) (uncomp_len : Z) : option bytes :=
  match b with
  | t :: b' =>
      if Byte.eqb t x01 then
        match b' with x :: _ => Some (repeat x (Z.to_nat uncomp_len)) | [] => None end
      else Some b'
  | [] => None
  end.

Definition toy_extern : Extern := {|
  crc32 b := fold_left (fun acc x => (acc * 31 + b2z x) mod 2 ^ 32) b 7;
  xxh3_64_with_seed b seed :=
    fold_left (fun acc x => (acc * 1099511628211 + b2z x) mod 2 ^ 64) b (seed mod 2 ^ 64);
  lz4_compress := toy_compress;
  lz4_decompress := toy_decompress;
|}.

Lemma fold_mod_range (c m : Z) b acc :
  0 < m -> 0 <= acc < m ->
  0 <= fold_left (fun acc x => (acc * c + b2z x) mod m) b acc < m.
Proof.
  intros Hm. revert acc. induction b as [|x b IH]; intros acc Hacc; [done|].
  cbn [fold_left]. apply IH. by apply Z.mod_pos_bound.
Qed.

Lemma repeat_forallb (x : byte) b : forallb (Byte.eqb x) b = true -> repeat x (length b) = b.
Proof.
  induction b as [|y b IH]; [done|]. cbn [forallb]. intros H.
  apply andb_prop in H as [H1%Byte.byte_dec_bl H2]. subst. cbn. by rewrite IH.
Qed.

#[export] Instance toy_extern_laws : ExternLaws toy_extern.
Proof.
  split; simpl.
  - intros b. apply fold_mod_range; lia.
  - intros b seed. apply fold_mod_range; [lia|]. apply Z.mod_pos_bound. lia.
  - intros [|x b]; [done|]. unfold toy_compress.
    destruct (forallb (Byte.eqb x) b) eqn:E; [|done]. cbn -[be64 repeat len Z.to_nat].
    unfold len. rewrite Nat2Z.id. cbn. by rewrite repeat_forallb.
Qed.
