(* ===== verification/Wal.v ===== *)
(** * The write-ahead log (crates/rhypedb-storage/src/wal.rs)

    The record codec, the framed transaction batch ([append_txn]), and the
    replay that recovers the committed batches and the length of the valid
    prefix.  A log file is the list of its bytes, absent before it is created;
    [write_all] + [flush] appends to it.  What is durable at a crash is a
    prefix of the bytes appended. *)

From Stdlib Require Import ZArith Lia Bool List Strings.Byte.
From stdpp Require Import base option list.
From S2P Require Import Prelude Extern.

Local Open Scope Z_scope.

Inductive RecordType := Put | Delete | Commit.

#[global] Instance RecordType_eq_decision : EqDecision RecordType.
Proof. solve_decision. Defined.

(** [record_type as u8] and [RecordType::try_from]. *)
Definition record_type_u8 (t : RecordType) : byte :=
  match t with Put => x01 | Delete => x02 | Commit => x03 end.

Definition record_type_try_from (v : byte) : res RecordType :=
  match b2z v with
  | 1 => Ok Put
  | 2 => Ok Delete
  | 3 => Ok Commit
  | _ => Err WalCorrupted
  end.

Record WalRecord := {
  wr_type : RecordType;
  wr_key : bytes;
  wr_value : bytes;
  wr_version : Z;
}.

Definition HEADER_SIZE : Z := 4 + 8 + 1 + 4 + 4.

(** The framing magic ["RHYPWAL\x01"]. *)
Definition WAL_MAGIC : bytes := [x52; x48; x59; x50; x57; x41; x4c; x01].

Section wal.
Context {E : Extern}.

(** The bytes a record's checksum covers. *)
Definition record_body (record_type : RecordType) (version : Z) (key value : bytes) : bytes :=
  be64 version ++ [record_type_u8 record_type] ++ be32 (as_u32 (len key))
    ++ be32 (as_u32 (len value)) ++ key ++ value.

Definition encode_record_into (buf : bytes) (record_type : RecordType) (version : Z)
    (key value : bytes) : bytes :=
  let body := record_body record_type version key value in
  buf ++ be32 (crc32 body) ++ body.

(** [WalRecord::decode]: the record at the start of [data] and its size. *)
Definition decode_record (data : bytes) : res (WalRecord * Z) :=
  if len data <? HEADER_SIZE then Err WalCorrupted
  else
    let stored_crc := from_be (take 4 data) in
    let version := from_be (take 8 (drop 4 data)) in
    record_type ← match drop 12 data with b :: _ => record_type_try_from b | [] => Panic end;
    let key_len := from_be (take 4 (drop 13 data)) in
    let value_len := from_be (take 4 (drop 17 data)) in
    let total := HEADER_SIZE + key_len + value_len in
    if len data <? total then Err WalCorrupted
    else
      body ← slice data 4 total;
      if negb (stored_crc =? crc32 body) then Err WalCorrupted
      else
        key ← slice data HEADER_SIZE (HEADER_SIZE + key_len);
        value ← slice data (HEADER_SIZE + key_len) (HEADER_SIZE + key_len + value_len);
        Ok ({| wr_type := record_type; wr_key := key; wr_value := value;
               wr_version := version |}, total).

(** ** The log file *)

(** [Wal::open]: a new or empty file gets the magic. *)
Definition wal_open (file : option bytes) : bytes :=
  match file with
  | None | Some [] => WAL_MAGIC
  | Some data => data
  end.

Definition wal_file_is_legacy (file : option bytes) : bool :=
  match file with
  | None => false
  | Some data =>
      if 8 <=? len data then negb (beqb (take 8 data) WAL_MAGIC) else 0 <? len data
  end.

(** The data records of a transaction and the batch with its footer. *)
Definition txn_record (commit_version : Z) (w : bytes * option bytes) : WalRecord :=
  match snd w with
  | Some v => {| wr_type := Put; wr_key := fst w; wr_value := v; wr_version := commit_version |}
  | None => {| wr_type := Delete; wr_key := fst w; wr_value := []; wr_version := commit_version |}
  end.

Definition encode_txn (writes : list (bytes * option bytes)) (commit_version : Z) : bytes :=
  let buf :=
    fold_left
      (fun buf w =>
         let r := txn_record commit_version w in
         encode_record_into buf (wr_type r) commit_version (wr_key r) (wr_value r))
      writes [] in
  let count := be64 (as_u64 (Z.of_nat (length writes))) in
  encode_record_into buf Commit commit_version [] count.

Definition wal_append_txn (file : bytes) (writes : list (bytes * option bytes))
    (commit_version : Z) : bytes :=
  match writes with
  | [] => file
  | _ :: _ => file ++ encode_txn writes commit_version
  end.

(** The [while] loop of the replay: [rest] is [data[offset..]].  Every decoded
    record takes at least 21 bytes, so the file's length is enough fuel. *)
Fixpoint replay_loop (fuel : nat) (rest : bytes) (offset valid_len : Z)
    (records pending : list WalRecord)
    : res (Z * Z * list WalRecord * list WalRecord) :=
  match fuel with
  | O => Ok (offset, valid_len, records, pending)
  | S fuel' =>
      match rest with
      | [] => Ok (offset, valid_len, records, pending)
      | _ :: _ =>
          match decode_record rest with
          | Ok (record, size) =>
              let offset := offset + size in
              let rest := drop (Z.to_nat size) rest in
              match wr_type record with
              | Commit =>
                  let count :=
                    if len (wr_value record) =? 8 then from_be (take 8 (wr_value record))
                    else u64_max in
                  if negb (count =? Z.of_nat (length pending))
                  then Ok (offset, valid_len, records, [])
                  else replay_loop fuel' rest offset offset (records ++ pending) []
              | _ => replay_loop fuel' rest offset valid_len records (pending ++ [record])
              end
          | Err WalCorrupted => Ok (offset, valid_len, records, pending)
          | Err e => Err e
          | Panic => Panic
          end
      end
  end.

Definition wal_replay_with_valid_len (file : option bytes) : res (list WalRecord * Z) :=
  match file with
  | None => Ok ([], 0)
  | Some data =>
      let framed := (len WAL_MAGIC <=? len data) && beqb (take 8 data) WAL_MAGIC in
      let offset := if framed then len WAL_MAGIC else 0 in
      '(offset, valid_len, records, pending) ←
        replay_loop (length data) (drop (Z.to_nat offset) data) offset offset [] [];
      match pending with
      | _ :: _ =>
          if framed then Ok (records, valid_len) else Ok (records ++ pending, offset)
      | [] => Ok (records, valid_len)
      end
  end.

Definition wal_replay (file : option bytes) : res (list WalRecord) :=
  r ← wal_replay_with_valid_len file; Ok (fst r).

(** [set_len]: cuts the file, or extends it with zeros. *)
Definition wal_truncate_to (data : bytes) (n : Z) : bytes :=
  take (Z.to_nat n) data ++ repeat x00 (Z.to_nat n - length data).

Definition wal_create_fresh : bytes := WAL_MAGIC.

(** ** The record codec *)

Context {EL : ExternLaws E}.

Definition record_ok (r : WalRecord) : Prop :=
  is_u64 (wr_version r) /\ is_u32 (len (wr_key r)) /\ is_u32 (len (wr_value r)).

Definition enc (r : WalRecord) : bytes :=
  encode_record_into [] (wr_type r) (wr_version r) (wr_key r) (wr_value r).

Lemma encode_record_into_app buf r :
  encode_record_into buf (wr_type r) (wr_version r) (wr_key r) (wr_value r) = buf ++ enc r.
Proof. done. Qed.

Lemma len_enc r : len (enc r) = HEADER_SIZE + len (wr_key r) + len (wr_value r).
Proof.
  unfold enc, encode_record_into, record_body, HEADER_SIZE. len_simpl.
  unfold be32, be64. len_simpl. lia.
Qed.

Lemma record_type_round_trip t : record_type_try_from (record_type_u8 t) = Ok t.
Proof. by destruct t. Qed.

(** The header fields of an encoded record, read at their offsets. *)
Lemma enc_fields r rest :
  record_ok r ->
  let data := enc r ++ rest in
  from_be (take 4 data) = crc32 (record_body (wr_type r) (wr_version r) (wr_key r) (wr_value r)) /\
  from_be (take 8 (drop 4 data)) = wr_version r /\
  (exists tl, drop 12 data = record_type_u8 (wr_type r) :: tl) /\
  from_be (take 4 (drop 13 data)) = len (wr_key r) /\
  from_be (take 4 (drop 17 data)) = len (wr_value r).
Proof.
  intros (Hv & Hk & Hl). unfold enc, encode_record_into, record_body. cbn [app].
  set (c := crc32 _). set (t := record_type_u8 _).
  rewrite !as_u32_small by done. app_solve. split_and!.
  - rewrite take_mid by done. apply from_be32, crc32_u32.
  - rewrite take_drop_mid by done. by apply from_be64.
  - eexists. replace (be32 c ++ be64 (wr_version r) ++ t :: _) with
      ((be32 c ++ be64 (wr_version r)) ++ t :: be32 (len (wr_key r)) ++ be32 (len (wr_value r))
         ++ wr_key r ++ wr_value r ++ rest) by app_solve.
    by rewrite drop_mid by (by len_simpl).
  - replace (be32 c ++ be64 (wr_version r) ++ t :: _) with
      ((be32 c ++ be64 (wr_version r) ++ [t]) ++ be32 (len (wr_key r)) ++ be32 (len (wr_value r))
         ++ wr_key r ++ wr_value r ++ rest) by app_solve.
    rewrite take_drop_mid by (by len_simpl). by apply from_be32.
  - replace (be32 c ++ be64 (wr_version r) ++ t :: _) with
      ((be32 c ++ be64 (wr_version r) ++ [t] ++ be32 (len (wr_key r))) ++ be32 (len (wr_value r))
         ++ wr_key r ++ wr_value r ++ rest) by app_solve.
    rewrite take_drop_mid by (by len_simpl). by apply from_be32.
Qed.

Lemma decode_enc r rest :
  record_ok r -> decode_record (enc r ++ rest) = Ok (r, len (enc r)).
Proof.
  intros Hr. destruct (enc_fields r rest Hr) as (F1 & F2 & [tl F3] & F4 & F5).
  pose proof (len_enc r) as Hlen. pose proof (len_nonneg rest).
  pose proof (len_nonneg (wr_key r)). pose proof (len_nonneg (wr_value r)).
  unfold decode_record. rewrite F1, F2, F3, F4, F5, record_type_round_trip.
  cbn [mbind res_bind]. rewrite len_app.
  destruct (Z.ltb_spec (len (enc r) + len rest) HEADER_SIZE); [unfold HEADER_SIZE in *; lia|].
  rewrite <- Hlen. destruct (Z.ltb_spec (len (enc r) + len rest) (len (enc r))); [lia|].
  set (body := record_body _ _ _ _).
  assert (E1 : enc r ++ rest = be32 (crc32 body) ++ body ++ rest)
    by (unfold enc, encode_record_into; fold body; app_solve).
  rewrite E1 at 1. rewrite slice_app by
    (unfold enc, encode_record_into; fold body; len_simpl; unfold be32; len_simpl; lia).
  cbn [mbind res_bind]. rewrite Z.eqb_refl. cbn [negb].
  set (hdr := be32 (crc32 body) ++ be64 (wr_version r) ++ [record_type_u8 (wr_type r)]
    ++ be32 (as_u32 (len (wr_key r))) ++ be32 (as_u32 (len (wr_value r)))).
  assert (Hh : len hdr = HEADER_SIZE) by (unfold hdr, be32, be64; len_simpl; done).
  assert (E2 : enc r ++ rest = hdr ++ wr_key r ++ (wr_value r ++ rest))
    by (unfold enc, encode_record_into, hdr; subst body; unfold record_body; app_solve).
  rewrite E2 at 1. rewrite slice_app by lia. cbn [mbind res_bind].
  assert (E3 : enc r ++ rest = (hdr ++ wr_key r) ++ wr_value r ++ rest)
    by (rewrite E2; app_solve).
  rewrite E3. rewrite slice_app by (rewrite ?len_app; lia). cbn [mbind res_bind].
  by destruct r.
Qed.

(** A record cut short is reported as corrupt, whatever the checksum. *)
Lemma decode_truncated r t s :
  record_ok r -> enc r = t ++ s -> s <> [] -> decode_record t = Err WalCorrupted.
Proof.
  intros Hr He Hs. pose proof (len_enc r) as Hlen. rewrite He, len_app in Hlen.
  assert (0 < len s) by (destruct s; [done|rewrite len_cons; pose proof (len_nonneg s); lia]).
  unfold decode_record. destruct (Z.ltb_spec (len t) HEADER_SIZE) as [|Hh]; [done|].
  destruct (enc_fields r [] Hr) as (_ & _ & [tl F3] & F4 & F5).
  rewrite app_nil_r, He in F3, F4, F5. unfold HEADER_SIZE, len in Hh.
  rewrite !drop_app_le in F3, F4, F5 by lia.
  rewrite take_app_le in F4, F5 by (rewrite length_drop; lia).
  rewrite F4, F5. destruct (drop 12 t) as [|b tl'] eqn:Ed.
  { exfalso. apply (f_equal length) in Ed. rewrite length_drop in Ed. simpl in Ed. lia. }
  injection F3 as -> _. rewrite record_type_round_trip. cbn [mbind res_bind].
  destruct (Z.ltb_spec (len t) (HEADER_SIZE + len (wr_key r) + len (wr_value r))); [done|lia].
Qed.

(** ** Replay *)

Lemma decode_size data r size :
  decode_record data = Ok (r, size) -> HEADER_SIZE <= size <= len data.
Proof.
  unfold decode_record. destruct (Z.ltb_spec (len data) HEADER_SIZE) as [|H]; [done|].
  destruct (drop 12 data) as [|b tl]; [done|]. cbn [mbind res_bind].
  destruct (record_type_try_from b); try done. cbn [mbind res_bind].
  set (kl := from_be (take 4 (drop 13 data))). set (vl := from_be (take 4 (drop 17 data))).
  destruct (Z.ltb_spec (len data) (HEADER_SIZE + kl + vl)); [done|].
  pose proof (from_be_range (take 4 (drop 13 data))).
  pose proof (from_be_range (take 4 (drop 17 data))).
  destruct (slice data 4 _); try done. cbn [mbind res_bind].
  destruct (negb _); [done|]. destruct (slice data HEADER_SIZE _); try done. cbn [mbind res_bind].
  destruct (slice data _ _); try done. cbn [mbind res_bind]. intros [= <- <-]. lia.
Qed.

(** More fuel than bytes does not change the result. *)
Lemma replay_loop_fuel f1 f2 rest o v recs pend :
  (length rest <= f1)%nat -> (length rest <= f2)%nat ->
  replay_loop f1 rest o v recs pend = replay_loop f2 rest o v recs pend.
Proof.
  revert f2 rest o v recs pend. induction f1 as [|f1 IH]; intros f2 rest o v recs pend H1 H2.
  { destruct rest; [by destruct f2|simpl in H1; lia]. }
  destruct rest as [|b rest]; [by destruct f2|].
  destruct f2 as [|f2]; [simpl in H2; lia|]. cbn [replay_loop].
  destruct (decode_record (b :: rest)) as [[r size]|e|] eqn:D; [|done..].
  apply decode_size in D as [Ds Dl].
  assert (Hd : (length (drop (Z.to_nat size) (b :: rest)) < length (b :: rest))%nat).
  { rewrite length_drop. unfold HEADER_SIZE in Ds. simpl. lia. }
  destruct (wr_type r); try (apply IH; simpl in *; lia).
  destruct (negb _); [done|]. apply IH; simpl in *; lia.
Qed.

Definition replay (rest : bytes) := replay_loop (length rest) rest.

Lemma replay_decoded rest r size o v recs pend :
  decode_record rest = Ok (r, size) ->
  replay rest o v recs pend =
  match wr_type r with
  | Commit =>
      if (if len (wr_value r) =? 8 then from_be (take 8 (wr_value r)) else u64_max)
           =? Z.of_nat (length pend)
      then replay (drop (Z.to_nat size) rest) (o + size) (o + size) (recs ++ pend) []
      else Ok (o + size, v, recs, [])
  | _ => replay (drop (Z.to_nat size) rest) (o + size) v recs (pend ++ [r])
  end.
Proof.
  intros D. unfold replay. pose proof (decode_size _ _ _ D) as [Hs Hl].
  unfold HEADER_SIZE, len in *.
  assert (Hd : (length (drop (Z.to_nat size) rest) < length rest)%nat) by (rewrite length_drop; lia).
  destruct rest as [|b tl] eqn:Er; [simpl in *; lia|]. cbn [length replay_loop]. rewrite <- Er in *.
  rewrite D. subst rest. cbn [length] in *.
  destruct (wr_type r); try (apply replay_loop_fuel; lia).
  destruct (_ =? Z.of_nat _); [|done]. cbn [negb]. apply replay_loop_fuel; lia.
Qed.

Lemma replay_stuck rest o v recs pend :
  rest = [] \/ decode_record rest = Err WalCorrupted ->
  replay rest o v recs pend = Ok (o, v, recs, pend).
Proof.
  unfold replay. intros [->|D]; [done|]. destruct rest; [done|]. cbn [length replay_loop].
  by rewrite D.
Qed.

Lemma replay_step r rest o v recs pend :
  record_ok r ->
  replay (enc r ++ rest) o v recs pend =
  match wr_type r with
  | Commit =>
      if (if len (wr_value r) =? 8 then from_be (take 8 (wr_value r)) else u64_max)
           =? Z.of_nat (length pend)
      then replay rest (o + len (enc r)) (o + len (enc r)) (recs ++ pend) []
      else Ok (o + len (enc r), v, recs, [])
  | _ => replay rest (o + len (enc r)) v recs (pend ++ [r])
  end.
Proof.
  intros Hr. rewrite (replay_decoded _ _ _ _ _ _ _ (decode_enc r rest Hr)).
  replace (Z.to_nat (len (enc r))) with (length (enc r)) by (unfold len; lia).
  by rewrite drop_app_length.
Qed.

Lemma replay_records rs rest o v recs pend :
  Forall record_ok rs -> Forall (fun r => wr_type r <> Commit) rs ->
  replay (concat (map enc rs) ++ rest) o v recs pend
  = replay rest (o + len (concat (map enc rs))) v recs (pend ++ rs).
Proof.
  revert o pend. induction rs as [|r rs IH]; intros o pend H1 H2.
  { simpl. by rewrite Z.add_0_r, app_nil_r. }
  inversion H1; subst. inversion H2; subst. cbn [map concat].
  rewrite <- app_assoc, replay_step by done.
  rewrite len_app, Z.add_assoc, (app_assoc pend [r] rs : pend ++ r :: rs = _), <- IH by done.
  by destruct (wr_type r).
Qed.

(** *** Transactions *)

Definition txn : Type := list (bytes * option bytes) * Z.

Definition txn_ok (t : txn) : Prop :=
  t.1 <> [] /\ is_u64 t.2 /\ is_u64 (Z.of_nat (length t.1)) /\
  Forall (fun w => is_u32 (len w.1) /\
            match w.2 with Some v => is_u32 (len v) | None => True end) t.1.

Definition txn_records (t : txn) : list WalRecord := map (txn_record t.2) t.1.

Definition txn_footer (t : txn) : WalRecord :=
  {| wr_type := Commit; wr_key := [];
     wr_value := be64 (as_u64 (Z.of_nat (length t.1))); wr_version := t.2 |}.

Lemma encode_txn_records t :
  encode_txn t.1 t.2 = concat (map enc (txn_records t)) ++ enc (txn_footer t).
Proof.
  unfold encode_txn, txn_records. destruct t as [ws v]. cbn [fst snd].
  assert (H : forall buf, fold_left (fun buf w =>
      encode_record_into buf (wr_type (txn_record v w)) v (wr_key (txn_record v w))
        (wr_value (txn_record v w))) ws buf
    = buf ++ concat (map enc (map (txn_record v) ws))).
  { induction ws as [|w ws IH]; intros buf; cbn [fold_left map concat]; [by rewrite app_nil_r|].
    rewrite IH, app_assoc. f_equal. unfold txn_record. by destruct (snd w). }
  rewrite H. done.
Qed.

Lemma txn_records_ok t :
  txn_ok t -> Forall record_ok (txn_records t) /\
  Forall (fun r => wr_type r <> Commit) (txn_records t) /\ record_ok (txn_footer t).
Proof.
  intros (_ & Hv & _ & Hf). unfold txn_records. split_and!.
  - apply Forall_fmap. eapply Forall_impl; [exact Hf|]. intros [k [val|]] [H1 H2]; cbn in *;
      split_and!; done.
  - apply Forall_fmap, Forall_true. by intros [k [val|]].
  - split_and!; [done|unfold is_u32, len; cbn; lia|]. cbn [wr_value txn_footer].
    unfold be64. rewrite len_be. unfold is_u32. lia.
Qed.

Lemma replay_txn t rest o v recs :
  txn_ok t ->
  replay (encode_txn t.1 t.2 ++ rest) o v recs []
  = replay rest (o + len (encode_txn t.1 t.2)) (o + len (encode_txn t.1 t.2))
      (recs ++ txn_records t) [].
Proof.
  intros Ht. destruct (txn_records_ok t Ht) as (Hr & Hc & Hf).
  rewrite encode_txn_records, <- app_assoc, replay_records, replay_step by done.
  cbn [wr_type wr_value txn_footer app]. unfold be64 at 1. rewrite len_be. cbn [Z.of_nat Z.eqb].
  rewrite firstn_all2 by (by rewrite length_be64).
  destruct Ht as (_ & _ & Hn & _).
  rewrite as_u64_small, from_be64 by done. unfold txn_records at 1. rewrite length_map, Z.eqb_refl.
  by rewrite len_app, Z.add_assoc.
Qed.

Definition log_bytes (ts : list txn) : bytes := concat (map (fun t => encode_txn t.1 t.2) ts).
Definition log_records (ts : list txn) : list WalRecord := concat (map txn_records ts).

Lemma log_records_snoc ts t : log_records (ts ++ [t]) = log_records ts ++ txn_records t.
Proof. unfold log_records. rewrite map_app, concat_app. cbn. by rewrite app_nil_r. Qed.

Lemma replay_log ts rest o recs :
  Forall txn_ok ts ->
  replay (log_bytes ts ++ rest) o o recs []
  = replay rest (o + len (log_bytes ts)) (o + len (log_bytes ts)) (recs ++ log_records ts) [].
Proof.
  revert o recs. induction ts as [|t ts IH]; intros o recs H.
  { unfold log_bytes, log_records. simpl. by rewrite Z.add_0_r, app_nil_r. }
  inversion H; subst. unfold log_bytes, log_records. cbn [map concat].
  rewrite <- app_assoc, replay_txn by done. fold (log_bytes ts) (log_records ts).
  rewrite IH by done. by rewrite len_app, Z.add_assoc, app_assoc.
Qed.

(** A torn batch: some of its data records are decoded, then the log ends or
    the next record is cut. *)
Lemma replay_torn t tail s o v recs :
  txn_ok t -> encode_txn t.1 t.2 = tail ++ s -> s <> [] ->
  exists o' pend, replay tail o v recs [] = Ok (o', v, recs, pend).
Proof.
  intros Ht. destruct (txn_records_ok t Ht) as (Hr & Hc & Hf).
  rewrite encode_txn_records. generalize ([] : list WalRecord) as pend.
  revert tail o Hr Hc. induction (txn_records t) as [|r rs IH]; intros tail o Hr Hc pend He Hs.
  - cbn in He. destruct tail as [|b tail]; [by eexists _, _|].
    unfold replay. cbn [length replay_loop]. rewrite (decode_truncated _ _ _ Hf He Hs). eauto.
  - inversion Hr; inversion Hc; subst. cbn [map concat] in He. rewrite <- app_assoc in He.
    destruct (decide (length (enc r) <= length tail)%nat) as [Hle|Hgt].
    + rewrite <- (take_drop (length (enc r)) tail), <- app_assoc in He.
      apply app_inj_1 in He as [E1 E2]; [|rewrite length_take; lia].
      rewrite <- (take_drop (length (enc r)) tail), <- E1, replay_step by done.
      destruct (IH _ (o + len (enc r)) ltac:(done) ltac:(done) (pend ++ [r]) E2 Hs)
        as (o' & p' & ->). destruct (wr_type r); by eauto.
    + destruct tail as [|b tail]; [by eexists _, _|].
      assert (Ht' : enc r = (b :: tail) ++ drop (length (b :: tail)) (enc r)).
      { rewrite <- (take_drop (length (b :: tail)) (enc r)) at 1. f_equal.
        apply (f_equal (take (length (b :: tail)))) in He.
        rewrite take_app_length, take_app_le in He by lia. done. }
      unfold replay. cbn [length replay_loop].
      rewrite (decode_truncated r _ _ ltac:(done) Ht'); [by eauto|].
      intros Hd. apply (f_equal length) in Hd. rewrite length_drop in Hd. simpl in *. lia.
Qed.

(** ** Replay of an arbitrary file *)

Lemma decode_total data :
  (exists r size, decode_record data = Ok (r, size)) \/ decode_record data = Err WalCorrupted.
Proof.
  unfold decode_record. destruct (Z.ltb_spec (len data) HEADER_SIZE) as [|H]; [by right|].
  destruct (drop 12 data) as [|b tl] eqn:Ed.
  { exfalso. apply (f_equal length) in Ed. rewrite length_drop in Ed.
    unfold HEADER_SIZE, len in H. simpl in Ed. lia. }
  assert (Hb : record_type_try_from b = Err WalCorrupted \/ exists t, record_type_try_from b = Ok t)
    by (destruct b; cbn; eauto).
  destruct Hb as [->|[t ->]]; cbn [mbind res_bind]; [by right|].
  pose proof (from_be_range (take 4 (drop 13 data))).
  pose proof (from_be_range (take 4 (drop 17 data))).
  set (kl := from_be (take 4 (drop 13 data))) in *.
  set (vl := from_be (take 4 (drop 17 data))) in *.
  destruct (Z.ltb_spec (len data) (HEADER_SIZE + kl + vl)); [by right|].
  rewrite !slice_ok by (unfold HEADER_SIZE in *; lia). cbn [mbind res_bind].
  destruct (negb _); eauto.
Qed.

Lemma slice_prefix a b x y : y <= len a -> slice (a ++ b) x y = slice a x y.
Proof.
  intros H. unfold slice. rewrite len_app. pose proof (len_nonneg b).
  destruct (Z.leb_spec 0 x), (Z.leb_spec x y); try done. cbn [andb].
  destruct (Z.leb_spec y (len a + len b)), (Z.leb_spec y (len a)); try lia; try done.
  unfold len in *. rewrite drop_app_le by lia.
  by rewrite take_app_le by (rewrite length_drop; lia).
Qed.

Lemma decode_prefix a b r size :
  decode_record (a ++ b) = Ok (r, size) -> size <= len a -> decode_record a = Ok (r, size).
Proof.
  intros D Hs. pose proof (decode_size _ _ _ D) as [Hh _].
  assert (Ha : (21 <= length a)%nat) by (unfold HEADER_SIZE, len in *; lia).
  revert D. unfold decode_record. rewrite len_app.
  destruct (Z.ltb_spec (len a) HEADER_SIZE); [lia|].
  destruct (Z.ltb_spec (len a + len b) HEADER_SIZE); [done|].
  rewrite !drop_app_le by lia. rewrite !take_app_le by (rewrite ?length_drop; lia).
  set (kl := from_be (take 4 (drop 13 a))). set (vl := from_be (take 4 (drop 17 a))).
  pose proof (from_be_range (take 4 (drop 13 a)) : 0 <= kl < _).
  pose proof (from_be_range (take 4 (drop 17 a)) : 0 <= vl < _).
  destruct (drop 12 a) as [|t tl] eqn:Ed; [by apply nil_length_inv in Ed || (exfalso;
    apply (f_equal length) in Ed; rewrite length_drop in Ed; simpl in Ed; lia)|].
  cbn [app]. destruct (record_type_try_from t); try done. cbn [mbind res_bind].
  destruct (Z.ltb_spec (len a + len b) (HEADER_SIZE + kl + vl)); [done|].
  destruct (Z.leb_spec (HEADER_SIZE + kl + vl) (len a)) as [Hle|Hgt].
  - destruct (Z.ltb_spec (len a) (HEADER_SIZE + kl + vl)); [lia|].
    by rewrite !slice_prefix by lia.
  - rewrite !slice_ok by (unfold HEADER_SIZE in *; rewrite ?len_app; lia). cbn [mbind res_bind].
    destruct (negb _); [done|]. intros [= _ <-]. lia.
Qed.

Lemma decode_take data n r size :
  decode_record data = Ok (r, size) -> size <= Z.of_nat n -> decode_record (take n data) = Ok (r, size).
Proof.
  intros D Hn. pose proof (decode_size _ _ _ D) as [_ Hs]. unfold len in Hs.
  rewrite <- (take_drop n data) in D. eapply decode_prefix; [exact D|].
  unfold len. rewrite length_take. lia.
Qed.

(** The loop never fails, and cutting the file at the valid length it reports
    leaves a file that replays to the same records with nothing pending. *)
Lemma replay_cut rest o v recs pend :
  exists o' v' recs' pend', replay rest o v recs pend = Ok (o', v', recs', pend') /\
  o <= o' <= o + len rest /\
  ((v' = v /\ recs' = recs) \/
   (o < v' <= o' /\
    replay (take (Z.to_nat (v' - o)) rest) o v recs pend = Ok (v', v', recs', []))).
Proof.
  revert o v recs pend. induction rest as [rest IH] using (induction_ltof1 _ length).
  unfold ltof in IH. intros o v recs pend. pose proof (len_nonneg rest) as Hl0.
  destruct (decode_total rest) as [(r & size & D)|D];
    [|rewrite replay_stuck by auto; eexists _, _, _, _; split_and!; eauto; lia].
  rewrite (replay_decoded _ _ _ _ _ _ _ D). pose proof (decode_size _ _ _ D) as [Hs Hl].
  unfold HEADER_SIZE in Hs. set (tl := drop (Z.to_nat size) rest) in *.
  assert (Htl : len tl = len rest - size)
    by (unfold tl, len in *; rewrite length_drop; lia).
  assert (IHtl : forall o v recs pend, _) by (apply (IH tl); unfold len in *; lia).
  assert (Hcut : forall v', o + size <= v' ->
    decode_record (take (Z.to_nat (v' - o)) rest) = Ok (r, size) /\
    drop (Z.to_nat size) (take (Z.to_nat (v' - o)) rest) = take (Z.to_nat (v' - (o + size))) tl).
  { intros v' Hv'. split; [apply decode_take; [done|lia]|].
    unfold tl. rewrite take_drop_commute. do 2 f_equal. lia. }
  destruct (wr_type r) eqn:Et.
  1,2: destruct (IHtl (o + size) v recs (pend ++ [r])) as (o' & v' & rs & p & E1 & Ho & [[-> ->]|[Hv E2]]);
    eexists o', _, _, p; (split; [exact E1|split; [lia|]]); [by left|right; split; [lia|]];
    destruct (Hcut v' ltac:(lia)) as [C1 C2];
    by rewrite (replay_decoded _ _ _ _ _ _ _ C1), C2, Et.
  destruct (_ =? Z.of_nat (length pend)) eqn:Ec; [|eexists _, _, _, _; split_and!; eauto; lia].
  destruct (IHtl (o + size) (o + size) (recs ++ pend) []) as (o' & v' & rs & p & E1 & Ho & H).
  eexists o', v', rs, p. split; [exact E1|split; [lia|right; split; [lia|]]].
  destruct (Hcut v' ltac:(lia)) as [C1 C2].
  rewrite (replay_decoded _ _ _ _ _ _ _ C1), C2, Et, Ec.
  destruct H as [[-> ->]|[_ E2]]; [|done].
  replace (Z.to_nat (o + size - (o + size))) with 0%nat by lia. done.
Qed.

(** ** Whole files *)

(** The log after the transactions [ts] were appended to a new file. *)
Definition wal_after (ts : list txn) : bytes :=
  fold_left (fun file t => wal_append_txn file t.1 t.2) ts (wal_open None).

Lemma wal_append_txn_bytes file t :
  txn_ok t -> wal_append_txn file t.1 t.2 = file ++ encode_txn t.1 t.2.
Proof. intros (Hne & _). unfold wal_append_txn. by destruct (t.1). Qed.

Lemma wal_after_bytes ts : Forall txn_ok ts -> wal_after ts = WAL_MAGIC ++ log_bytes ts.
Proof.
  intros H. unfold wal_after. change (wal_open None) with WAL_MAGIC.
  generalize WAL_MAGIC as file. induction H as [|t ts Ht _ IH]; intros file.
  { unfold log_bytes. simpl. by rewrite app_nil_r. }
  cbn [fold_left]. rewrite wal_append_txn_bytes, IH by done.
  unfold log_bytes. cbn [map concat]. by rewrite app_assoc.
Qed.

Lemma wal_after_snoc ts t :
  wal_append_txn (wal_after ts) t.1 t.2 = wal_after (ts ++ [t]).
Proof. unfold wal_after. by rewrite fold_left_app. Qed.

(** The replay of a file that starts with the magic. *)
Lemma framed_replay body :
  wal_replay_with_valid_len (Some (WAL_MAGIC ++ body)) =
  ('(_, valid_len, records, _) ← replay body 8 8 [] []; Ok (records, valid_len)).
Proof.
  unfold wal_replay_with_valid_len. rewrite take_mid by done.
  rewrite len_app. pose proof (len_nonneg body).
  destruct (Z.leb_spec (len WAL_MAGIC) (len WAL_MAGIC + len body)); [|lia].
  assert (Hb : beqb WAL_MAGIC WAL_MAGIC = true) by by vm_compute. rewrite Hb. cbn [andb].
  change (Z.to_nat (len WAL_MAGIC)) with (length WAL_MAGIC). rewrite drop_app_length.
  change (len WAL_MAGIC) with 8. unfold replay.
  rewrite (replay_loop_fuel (length (WAL_MAGIC ++ body)) (length body)) by
    (rewrite ?length_app; lia).
  destruct (replay_loop _ _ _ _ _ _) as [[[[o v] recs] pend]|e|]; cbn; try done.
  by destruct pend.
Qed.

Lemma wal_truncate_take data n :
  0 <= n <= len data -> wal_truncate_to data n = take (Z.to_nat n) data.
Proof.
  intros H. unfold wal_truncate_to, len in *.
  replace (Z.to_nat n - length data)%nat with 0%nat by lia. apply app_nil_r.
Qed.

Lemma wal_after_torn_replay ts t tail s :
  Forall txn_ok ts -> txn_ok t -> encode_txn t.1 t.2 = tail ++ s -> s <> [] ->
  wal_replay_with_valid_len (Some (wal_after ts ++ tail)) = Ok (log_records ts, len (wal_after ts)).
Proof.
  intros Hts Ht He Hs. rewrite wal_after_bytes, <- app_assoc, framed_replay by done.
  rewrite replay_log by done.
  destruct (replay_torn t tail s (8 + len (log_bytes ts)) (8 + len (log_bytes ts))
    ([] ++ log_records ts) Ht He Hs) as (o & p & ->). cbn [mbind res_bind].
  by rewrite len_app.
Qed.

Lemma wal_after_replay ts :
  Forall txn_ok ts ->
  wal_replay_with_valid_len (Some (wal_after ts)) = Ok (log_records ts, len (wal_after ts)).
Proof.
  intros Hts. rewrite wal_after_bytes, framed_replay by done.
  rewrite <- (app_nil_r (log_bytes ts)) at 1. rewrite replay_log by done.
  unfold replay. cbn [mbind res_bind length replay_loop]. by rewrite len_app.
Qed.

(** ** The properties of the log *)

(** Record codec round trip.  Decoding the bytes [encode_record_into]
    wrote, whatever follows them, gives back the record and its exact size;
    cut anywhere before its last byte, the record decodes to [WalCorrupted]
    (the torn-tail signal), never to another record and never by panicking. *)
Theorem wal_record_round_trip r rest :
  record_ok r ->
  decode_record (encode_record_into [] (wr_type r) (wr_version r) (wr_key r) (wr_value r) ++ rest)
    = Ok (r, HEADER_SIZE + len (wr_key r) + len (wr_value r)) /\
  forall t s,
    encode_record_into [] (wr_type r) (wr_version r) (wr_key r) (wr_value r) = t ++ s ->
    s <> [] -> decode_record t = Err WalCorrupted.
Proof.
  intros Hr. rewrite <- len_enc. split; [by apply decode_enc|].
  intros t s. by apply decode_truncated.
Qed.

(** C38: crash atomicity of the log.  If a crash leaves any strict prefix
    [tail] of the last batch after the batches of [ts], replay returns exactly
    the records of [ts], in order, none of the torn transaction, and reports
    as valid length the end of the last complete batch. *)
Theorem wal_replay_all_or_nothing ts t tail s :
  Forall txn_ok ts -> txn_ok t -> wal_append_txn [] t.1 t.2 = tail ++ s -> s <> [] ->
  wal_replay_with_valid_len (Some (wal_after ts ++ tail)) = Ok (log_records ts, len (wal_after ts)) /\
  wal_replay_with_valid_len (Some (wal_append_txn (wal_after ts) t.1 t.2))
    = Ok (log_records ts ++ txn_records t, len (wal_after (ts ++ [t]))).
Proof.
  intros Hts Ht He Hs. rewrite wal_append_txn_bytes in He by done. split.
  - by eapply wal_after_torn_replay.
  - rewrite wal_after_snoc, wal_after_replay by (apply Forall_app; auto).
    by rewrite log_records_snoc.
Qed.

(** Recovery then append.  After a crash that tore the last batch,
    recovery (replay, then [truncate_to] the valid length) restores the file
    as it was before that batch, so a transaction committed after recovery is
    replayed together with all the earlier ones. *)
Theorem wal_recover_then_append ts t tail s t' recs n :
  Forall txn_ok ts -> txn_ok t -> wal_append_txn [] t.1 t.2 = tail ++ s -> s <> [] -> txn_ok t' ->
  wal_replay_with_valid_len (Some (wal_after ts ++ tail)) = Ok (recs, n) ->
  wal_truncate_to (wal_after ts ++ tail) n = wal_after ts /\
  wal_replay (Some (wal_append_txn (wal_truncate_to (wal_after ts ++ tail) n) t'.1 t'.2))
    = Ok (recs ++ txn_records t').
Proof.
  intros Hts Ht He Hs Ht'. rewrite wal_append_txn_bytes in He by done.
  rewrite (wal_after_torn_replay ts t tail s) by done. intros [= <- <-].
  assert (Hc : wal_truncate_to (wal_after ts ++ tail) (len (wal_after ts)) = wal_after ts).
  { rewrite wal_truncate_take by (rewrite len_app; pose proof (len_nonneg tail);
      pose proof (len_nonneg (wal_after ts)); lia).
    apply take_mid. unfold len. lia. }
  rewrite Hc, wal_after_snoc. split; [done|]. unfold wal_replay.
  rewrite wal_after_replay by (apply Forall_app; auto). cbn [mbind res_bind fst].
  by rewrite log_records_snoc.
Qed.

(** Recovery is total and idempotent.  Replaying any file, however
    corrupt, succeeds with a valid length inside the file; and for a framed
    file, replaying the file cut at that length returns the same records and
    the same length, so a crash during or after recovery loses nothing. *)
Theorem wal_recovery_idempotent data :
  exists recs n,
    wal_replay_with_valid_len (Some data) = Ok (recs, n) /\ 0 <= n <= len data /\
    (take 8 data = WAL_MAGIC ->
     wal_replay_with_valid_len (Some (wal_truncate_to data n)) = Ok (recs, n)).
Proof.
  destruct (decide (take 8 data = WAL_MAGIC)) as [Hm|Hm].
  - rewrite <- (take_drop 8 data), Hm. set (body := drop 8 data). rewrite framed_replay.
    destruct (replay_cut body 8 8 [] []) as (o & v & recs & p & -> & Ho & H).
    cbn [mbind res_bind]. exists recs, v. rewrite len_app. change (len WAL_MAGIC) with 8.
    assert (8 <= v <= o) by (destruct H as [[-> _]|[? _]]; lia).
    split_and!; [done|lia..|]. intros _.
    rewrite wal_truncate_take by (rewrite ?len_app; change (len WAL_MAGIC) with 8; lia).
    rewrite take_app_ge by (cbn; lia). rewrite framed_replay.
    replace (Z.to_nat v - length WAL_MAGIC)%nat with (Z.to_nat (v - 8)) by (cbn; lia).
    destruct H as [[-> ->]|[_ ->]]; [|done]. by vm_compute.
  - unfold wal_replay_with_valid_len.
    destruct (beqb_spec (take 8 data) WAL_MAGIC); [done|]. rewrite andb_false_r.
    change (Z.to_nat 0) with 0%nat. rewrite drop_0. fold (replay data).
    destruct (replay_cut data 0 0 [] []) as (o & v & recs & p & -> & Ho & H).
    assert (0 <= v <= o) by (destruct H as [[-> _]|[? _]]; lia).
    destruct p; cbn; eexists _, _; (split; [done|split; [lia|done]]).
Qed.

(** C40: a failed append hides later commits.  If an append failed after the
    data records of a batch reached the file but before its footer did, the
    file is not cut back; the next transaction's footer then counts fewer
    records than replay has pending, and replay stops there: every
    transaction acknowledged after the failure is lost at the next restart. *)
Theorem failed_append_hides_later_commits ts t t' more :
  Forall txn_ok ts -> txn_ok t -> txn_ok t' ->
  wal_replay (Some (wal_append_txn (wal_after ts ++ concat (map enc (txn_records t))) t'.1 t'.2 ++ more))
    = Ok (log_records ts).
Proof.
  intros Hts Ht Ht'. rewrite wal_append_txn_bytes by done. unfold wal_replay.
  rewrite wal_after_bytes, <- !app_assoc by done. rewrite framed_replay, replay_log by done.
  destruct (txn_records_ok t Ht) as (Hr & Hc & _). destruct (txn_records_ok t' Ht') as (Hr' & Hc' & Hf').
  rewrite replay_records by done. rewrite encode_txn_records, <- app_assoc.
  rewrite replay_records by done. rewrite replay_step by done.
  cbn [wr_type txn_footer wr_value].
  assert (H8 : forall x, len (be64 x) = 8) by (intros x; unfold be64; by rewrite len_be). rewrite H8.
  destruct Ht' as (_ & _ & Hl & _). rewrite as_u64_small by done.
  destruct Ht as (Hne & _).
  assert (Hx : (from_be (take 8 (be64 (Z.of_nat (length t'.1)))) =?
    Z.of_nat (length (([] ++ txn_records t) ++ txn_records t'))) = false).
  { rewrite take_ge by (rewrite length_be64; lia). rewrite from_be64 by done. apply Z.eqb_neq.
    rewrite !length_app. unfold txn_records. rewrite !length_map. destruct (t.1); [done|]. cbn. lia. }
  cbn [Z.eqb Pos.eqb]. rewrite Hx. done.
Qed.

End wal.

(** ** Witnesses *)

Definition wal_ex_1 : txn := ([([x61], Some [x01; x02]); ([x62], None)], 7).
Definition wal_ex_2 : txn := ([([x63], Some [])], 8).

Lemma wal_ex_ok : txn_ok wal_ex_1 /\ txn_ok wal_ex_2.
Proof.
  unfold txn_ok, is_u32, is_u64, len. split; (split; [done|split; [cbn; lia|split; [cbn; lia|]]]);
    repeat constructor; cbn; lia.
Qed.

Lemma wal_record_round_trip_witness :
  @decode_record toy_extern
    (@encode_record_into toy_extern [] Put 5 [x61] [x62; x63] ++ [xff])
  = Ok ({| wr_type := Put; wr_key := [x61]; wr_value := [x62; x63]; wr_version := 5 |}, 24).
Proof.
  apply (@wal_record_round_trip toy_extern toy_extern_laws
    {| wr_type := Put; wr_key := [x61]; wr_value := [x62; x63]; wr_version := 5 |} [xff]).
  unfold record_ok, is_u64, is_u32, len; cbn; lia.
Defined.

Lemma wal_replay_all_or_nothing_witness :
  @wal_replay_with_valid_len toy_extern
    (Some (@wal_after toy_extern [wal_ex_1] ++ take 20 (@wal_append_txn toy_extern [] wal_ex_2.1 wal_ex_2.2)))
  = Ok (log_records [wal_ex_1], len (@wal_after toy_extern [wal_ex_1])).
Proof.
  apply (@wal_replay_all_or_nothing toy_extern toy_extern_laws [wal_ex_1] wal_ex_2
    (take 20 (@wal_append_txn toy_extern [] wal_ex_2.1 wal_ex_2.2))
    (drop 20 (@wal_append_txn toy_extern [] wal_ex_2.1 wal_ex_2.2))).
  - constructor; [apply wal_ex_ok|constructor].
  - apply wal_ex_ok.
  - by rewrite take_drop.
  - by vm_compute.
Defined.

Lemma wal_recover_then_append_witness :
  @wal_replay toy_extern (Some (@wal_append_txn toy_extern
     (wal_truncate_to (@wal_after toy_extern [wal_ex_1]
        ++ take 20 (@wal_append_txn toy_extern [] wal_ex_2.1 wal_ex_2.2)) 83) wal_ex_2.1 wal_ex_2.2))
  = Ok (log_records [wal_ex_1] ++ txn_records wal_ex_2).
Proof.
  apply (@wal_recover_then_append toy_extern toy_extern_laws [wal_ex_1] wal_ex_2
    (take 20 (@wal_append_txn toy_extern [] wal_ex_2.1 wal_ex_2.2))
    (drop 20 (@wal_append_txn toy_extern [] wal_ex_2.1 wal_ex_2.2)) wal_ex_2
    (log_records [wal_ex_1]) 83).
  - constructor; [apply wal_ex_ok|constructor].
  - apply wal_ex_ok.
  - by rewrite take_drop.
  - by vm_compute.
  - apply wal_ex_ok.
  - by vm_compute.
Defined.

(** Without the cut, the transaction appended after a torn batch is lost: the
    orphaned record is counted into its footer. *)
Example wal_append_without_cut :
  @wal_replay toy_extern (Some (@wal_append_txn toy_extern
     (WAL_MAGIC ++ take 24 (@encode_txn toy_extern wal_ex_1.1 wal_ex_1.2)) wal_ex_2.1 wal_ex_2.2))
  = Ok [].
Proof. by vm_compute. Qed.

(** The batch of [wal_ex_1] loses its footer; [wal_ex_2] is committed after. *)
Lemma failed_append_hides_later_commits_witness :
  wal_replay (E := toy_extern) (Some (wal_append_txn (E := toy_extern)
    (wal_after (E := toy_extern) [] ++ concat (map (enc (E := toy_extern)) (txn_records wal_ex_1)))
    wal_ex_2.1 wal_ex_2.2 ++ [])) = Ok [].
Proof.
  apply (failed_append_hides_later_commits (E := toy_extern) [] wal_ex_1 wal_ex_2 []).
  - constructor.
  - apply wal_ex_ok.
  - apply wal_ex_ok.
Defined.
