(* ===== verification/Mvcc.v ===== *)
(** * Transactions (crates/rhypedb-storage/src/mvcc.rs)

    The transaction manager: the published version, the commit state behind
    its mutex (the next version and the log of recent commits), and the
    refcounted registry of active snapshots shared with the transactions.
    Each method is a function from the manager (and the transaction) to the
    new ones.  [commit] holds the mutex from its conflict check to the
    publication, so it is one step of the system; [begin] is a load of the
    published version followed by the registration of the hold. *)

From Stdlib Require Import ZArith Lia Bool List Strings.Byte.
From stdpp Require Import base option list countable gmap relations.
From S2P Require Import Prelude.

Local Open Scope Z_scope.

#[global] Instance byte_countable : Countable byte :=
  inj_countable Byte.to_N Byte.of_N Byte.of_to_N.

(** A buffered write: a put, or [None] for a delete. *)
Abbreviation write := (bytes * option bytes)%type.

Record CommittedTxn := {
  commit_version : Z;
  write_set : gset bytes;
}.

Record TransactionManager := {
  visible_version : Z;
  next_version : Z;
  committed_log : list CommittedTxn;
  active_snapshots : gmap Z Z;
  max_committed_log_size : nat;
}.

(** [hold] is whether the transaction still owns its share of the registry. *)
Record Transaction := {
  snapshot : Z;
  writes : list write;
  index : gmap bytes nat;
  hold : bool;
}.

Definition set_active (m : TransactionManager) (a : gmap Z Z) : TransactionManager :=
  {| visible_version := visible_version m; next_version := next_version m;
     committed_log := committed_log m; active_snapshots := a;
     max_committed_log_size := max_committed_log_size m |}.

(** ** The transaction *)

Definition release_hold (active : gmap Z Z) (snapshot : Z) : gmap Z Z :=
  match active !! snapshot with
  | Some count =>
      let count := count - 1 in
      if count =? 0 then delete snapshot active else <[snapshot := count]> active
  | None => active
  end.

(** [Transaction::release]: takes the hold, so a second call does nothing. *)
Definition txn_release (active : gmap Z Z) (t : Transaction) : gmap Z Z * Transaction :=
  if hold t
  then (release_hold active (snapshot t),
        {| snapshot := snapshot t; writes := writes t; index := index t; hold := false |})
  else (active, t).

(** [Transaction::upsert]; a position outside the buffer would panic. *)
Definition upsert (t : Transaction) (key : bytes) (value : option bytes) : res Transaction :=
  match index t !! key with
  | Some i =>
      match writes t !! i with
      | Some w =>
          Ok {| snapshot := snapshot t; writes := <[i := (fst w, value)]> (writes t);
                index := index t; hold := hold t |}
      | None => Panic
      end
  | None =>
      let i := length (writes t) in
      Ok {| snapshot := snapshot t; writes := writes t ++ [(key, value)];
            index := <[key := i]> (index t); hold := hold t |}
  end.

Definition record_put (t : Transaction) (key value : bytes) : res Transaction :=
  upsert t key (Some value).

Definition record_delete (t : Transaction) (key : bytes) : res Transaction :=
  upsert t key None.

Definition txn_is_empty (t : Transaction) : bool :=
  match writes t with [] => true | _ => false end.

(** ** The manager *)

Definition tm_new : TransactionManager :=
  {| visible_version := 0; next_version := 1; committed_log := [];
     active_snapshots := ∅; max_committed_log_size := 1024 |}.

Definition recover_at_version (version : Z) : TransactionManager :=
  {| visible_version := version; next_version := as_u64 (version + 1); committed_log := [];
     active_snapshots := ∅; max_committed_log_size := 1024 |}.

(** [begin] is two atomic accesses: the load of the published version and the
    increment of its count in the registry. *)
Definition begin_load (m : TransactionManager) : Z := visible_version m.

Definition begin_register (m : TransactionManager) (s : Z) : TransactionManager * Transaction :=
  (set_active m (<[s := default 0 (active_snapshots m !! s) + 1]> (active_snapshots m)),
   {| snapshot := s; writes := []; index := ∅; hold := true |}).

Definition tm_begin (m : TransactionManager) : TransactionManager * Transaction :=
  begin_register m (begin_load m).

(** [keys().copied().min()]. *)
Fixpoint list_min (l : list Z) : option Z :=
  match l with
  | [] => None
  | x :: l => Some (match list_min l with Some y => Z.min x y | None => x end)
  end.

Definition min_active (active : gmap Z Z) : Z :=
  default u64_max (list_min (map fst (map_to_list active))).

Definition min_active_snapshot (m : TransactionManager) : Z := min_active (active_snapshots m).

Definition active_snapshot_stats (m : TransactionManager) : nat * Z :=
  (size (active_snapshots m), foldr Z.add 0 (map snd (map_to_list (active_snapshots m)))).

Definition current_version (m : TransactionManager) : Z := visible_version m.

(** The conflict check against one logged commit. *)
Definition conflicts (t : Transaction) (c : CommittedTxn) : bool :=
  if commit_version c <=? snapshot t then false
  else existsb (fun w => bool_decide (fst w ∈ write_set c)) (writes t).

Definition write_set_of (ws : list write) : gset bytes := list_to_set (map fst ws).

(** The two trimming loops of [commit]. *)
Fixpoint trim_front (min_active : Z) (log : list CommittedTxn) : list CommittedTxn :=
  match log with
  | front :: log' => if commit_version front <? min_active then trim_front min_active log' else log
  | [] => []
  end.

Definition trim_size (max_size : nat) (log : list CommittedTxn) : list CommittedTxn :=
  drop (length log - max_size) log.

Section commit.
(** [apply] is the callback: it takes the storage state to a new one and
    reports success or failure. *)
Context {St : Type} (apply : St -> Z -> list write -> St * res unit).

Definition tm_commit (m : TransactionManager) (t : Transaction) (st : St)
    : TransactionManager * Transaction * St * res Z :=
  if txn_is_empty t then
    let '(active, t') := txn_release (active_snapshots m) t in
    (set_active m active, t', st, Ok (snapshot t))
  else if existsb (conflicts t) (committed_log m) then (m, t, st, Err WriteConflict)
  else
    let version := next_version m in
    let next := as_u64 (version + 1) in
    match apply st version (writes t) with
    | (st', Ok _) =>
        let log := committed_log m ++
          [{| commit_version := version; write_set := write_set_of (writes t) |}] in
        let log := trim_front (min_active (active_snapshots m)) log in
        let log := trim_size (max_committed_log_size m) log in
        let '(active, t') := txn_release (active_snapshots m) t in
        ({| visible_version := version; next_version := next; committed_log := log;
            active_snapshots := active; max_committed_log_size := max_committed_log_size m |},
         t', st', Ok version)
    | (st', bad) =>
        ({| visible_version := visible_version m; next_version := next;
            committed_log := committed_log m; active_snapshots := active_snapshots m;
            max_committed_log_size := max_committed_log_size m |},
         t, st', match bad with Err e => Err e | _ => Panic end)
    end.

End commit.

(** [abort] and [Drop for Transaction] release the hold. *)
Definition tm_abort (m : TransactionManager) (t : Transaction) : TransactionManager * Transaction :=
  let '(active, t') := txn_release (active_snapshots m) t in (set_active m active, t').

(** ** The write buffer *)

(** The index maps each buffered key to the position of its only write. *)
Definition txn_wf (t : Transaction) : Prop :=
  forall k i, index t !! k = Some i <-> exists v, writes t !! i = Some (k, v).

Definition buffer_map (ws : list write) : gmap bytes (option bytes) := list_to_map ws.

Lemma txn_wf_nodup t : txn_wf t -> NoDup (map fst (writes t)).
Proof.
  intros Hw. apply NoDup_alt. intros i j k Hi Hj.
  apply list_lookup_fmap_Some in Hi as ([k1 v1] & -> & Hi).
  apply list_lookup_fmap_Some in Hj as ([k2 v2] & Ek & Hj). cbn in *. subst k2.
  assert (index t !! k1 = Some i) by (apply Hw; eauto).
  assert (index t !! k1 = Some j) by (apply Hw; eauto). congruence.
Qed.

Lemma insert_keys (ws : list write) i k old v :
  ws !! i = Some (k, old) -> map fst (<[i := (k, v)]> ws) = map fst ws.
Proof.
  intros Hi. rewrite (list_fmap_insert fst). apply list_insert_id.
  change (map fst ws) with (fst <$> ws). by rewrite list_lookup_fmap, Hi.
Qed.

Lemma buffer_insert ws i k old v :
  NoDup (map fst ws) -> ws !! i = Some (k, old) ->
  buffer_map (<[i := (k, v)]> ws) = <[k := v]> (buffer_map ws).
Proof.
  intros Hnd Hi. pose proof (lookup_lt_Some _ _ _ Hi) as Hlt. apply map_eq. intros k'.
  unfold buffer_map. pose proof (insert_keys ws i k old v Hi) as Hk.
  assert (Hnd' : NoDup (map fst (<[i := (k, v)]> ws))) by by rewrite Hk.
  destruct (decide (k' = k)) as [->|Hne].
  - rewrite lookup_insert_eq. apply elem_of_list_to_map; [done|].
    eapply list_elem_of_lookup_2. by apply list_lookup_insert_eq.
  - rewrite lookup_insert_ne by done. apply option_eq. intros v'.
    rewrite <- !elem_of_list_to_map by done. rewrite !list_elem_of_lookup.
    split; intros [j Hj]; exists j.
    + apply list_lookup_insert_Some in Hj as [(_ & [= <- <-] & _)|[_ H]]; done.
    + rewrite list_lookup_insert_ne; [done|]. intros <-. congruence.
Qed.

Lemma buffer_snoc ws k v :
  k ∉ map fst ws -> buffer_map (ws ++ [(k, v)]) = <[k := v]> (buffer_map ws).
Proof.
  intros Hk. unfold buffer_map. rewrite list_to_map_app. cbn.
  apply map_eq. intros k'. rewrite lookup_union.
  destruct (decide (k' = k)) as [->|Hne].
  - rewrite (proj1 (not_elem_of_list_to_map ws k) Hk), !lookup_insert_eq. done.
  - rewrite !lookup_insert_ne by done. rewrite lookup_empty. by destruct (list_to_map ws !! k').
Qed.

Lemma index_in t k i : txn_wf t -> index t !! k = Some i -> k ∈ map fst (writes t).
Proof.
  intros Hw Hi. apply Hw in Hi as [v Hv]. apply (list_elem_of_fmap fst). exists (k, v).
  split; [done|]. by eapply list_elem_of_lookup_2.
Qed.

Lemma index_notin t k : txn_wf t -> index t !! k = None -> k ∉ map fst (writes t).
Proof.
  intros Hw Hn Hin. apply (list_elem_of_fmap fst) in Hin as ([k' v] & -> & Hin).
  apply list_elem_of_lookup in Hin as [i Hi].
  assert (index t !! k' = Some i) by (apply Hw; eauto). cbn in Hn. congruence.
Qed.

(** [upsert] succeeds, keeps the index exact, sets the key in the buffer's map
    and keeps the keys in the order of their first write. *)
Lemma upsert_wf t k v :
  txn_wf t -> exists t', upsert t k v = Ok t' /\ txn_wf t' /\
    buffer_map (writes t') = <[k := v]> (buffer_map (writes t)) /\
    snapshot t' = snapshot t /\ hold t' = hold t /\
    map fst (writes t') =
      map fst (writes t) ++ (if decide (k ∈ map fst (writes t)) then [] else [k]).
Proof.
  intros Hw. pose proof (txn_wf_nodup t Hw) as Hnd. unfold upsert.
  destruct (index t !! k) as [i|] eqn:Ei.
  - destruct (proj1 (Hw k i) Ei) as [old Hi]. rewrite Hi. eexists. split; [done|].
    cbn [writes fst snapshot hold]. split_and!; [|by eapply buffer_insert|done|done|].
    + intros k' i'. cbn [index writes]. rewrite (Hw k' i').
      setoid_rewrite list_lookup_insert_Some. pose proof (lookup_lt_Some _ _ _ Hi).
      destruct (decide (i = i')) as [<-|]; [rewrite Hi|]; naive_solver.
    + rewrite (insert_keys _ _ _ old), decide_True by eauto using index_in.
      by rewrite app_nil_r.
  - pose proof (index_notin t k Hw Ei) as Hk. eexists. split; [done|].
    cbn [writes snapshot hold]. split_and!; [|by apply buffer_snoc|done|done|].
    + intros k' i'. cbn [index writes]. rewrite lookup_insert_Some.
      setoid_rewrite lookup_app_Some. rewrite (Hw k' i').
      setoid_rewrite list_lookup_singleton_Some. split.
      * intros [[-> <-]|[_ [v' H']]]; [exists v; right; split; [lia|]; split; [lia|done]|eauto].
      * intros [v' [H'|(Hl & Hl' & [= -> ->])]]; [right|left; split; [done|lia]].
        split; [|eauto]. intros ->. apply Hk, (list_elem_of_fmap fst). exists (k', v').
        split; [done|]. by eapply list_elem_of_lookup_2.
    + rewrite decide_False by done. apply map_app.
Qed.

(** A run of buffered writes. *)
Fixpoint upserts (t : Transaction) (ops : list write) : res Transaction :=
  match ops with
  | [] => Ok t
  | (k, v) :: ops => t' ← upsert t k v; upserts t' ops
  end.

Lemma upserts_wf t ops :
  txn_wf t -> exists t', upserts t ops = Ok t' /\ txn_wf t' /\
    buffer_map (writes t') = fold_left (fun m w => <[w.1 := w.2]> m) ops (buffer_map (writes t)).
Proof.
  revert t. induction ops as [|[k v] ops IH]; intros t Hw; [by exists t|].
  destruct (upsert_wf t k v Hw) as (t1 & E1 & Hw1 & Hm & _). cbn [upserts].
  rewrite E1. cbn [mbind res_bind]. destruct (IH t1 Hw1) as (t2 & E2 & Hw2 & Hm2).
  exists t2. cbn [fold_left fst snd]. by rewrite Hm2, Hm.
Qed.

(** ** The registry of snapshots *)

(** The holds of the live transactions on version [s]. *)
Definition holds (s : Z) (ts : list Transaction) : Z :=
  Z.of_nat (length (filter (fun t => snapshot t = s) ts)).

Definition registry_exact (active : gmap Z Z) (ts : list Transaction) : Prop :=
  forall s, active !! s = if decide (holds s ts = 0) then None else Some (holds s ts).

Lemma holds_cons s t ts : holds s (t :: ts) = (if decide (snapshot t = s) then 1 else 0) + holds s ts.
Proof. unfold holds. rewrite filter_cons. destruct (decide _); cbn [length]; lia. Qed.

Lemma holds_perm s ts ts' : ts ≡ₚ ts' -> holds s ts = holds s ts'.
Proof. intros H. unfold holds. by rewrite H. Qed.

Lemma holds_nonneg s ts : 0 <= holds s ts.
Proof. unfold holds. lia. Qed.

Lemma registry_perm active ts ts' :
  ts ≡ₚ ts' -> registry_exact active ts -> registry_exact active ts'.
Proof. intros Hp H s. by rewrite <- (holds_perm s ts ts' Hp). Qed.

Lemma registry_register active ts t :
  registry_exact active ts ->
  registry_exact (<[snapshot t := default 0 (active !! snapshot t) + 1]> active) (t :: ts).
Proof.
  intros H s. rewrite holds_cons. pose proof (holds_nonneg s ts).
  destruct (decide (snapshot t = s)) as [<-|Hne].
  - rewrite lookup_insert_eq, H. repeat destruct (decide _); cbn; try lia; f_equal; lia.
  - rewrite lookup_insert_ne by done. apply H.
Qed.

Lemma registry_release active ts t :
  registry_exact active (t :: ts) -> registry_exact (release_hold active (snapshot t)) ts.
Proof.
  intros H s. pose proof (holds_nonneg s ts). pose proof (holds_nonneg (snapshot t) ts).
  unfold release_hold. rewrite (H (snapshot t)), holds_cons, (decide_True (P := snapshot t = snapshot t)) by done.
  rewrite decide_False by lia.
  pose proof (H s) as Hs. rewrite holds_cons in Hs.
  destruct (Z.eqb_spec (1 + holds (snapshot t) ts - 1) 0).
  - destruct (decide (s = snapshot t)) as [->|Hne].
    + rewrite lookup_delete_eq. by rewrite decide_True by lia.
    + rewrite lookup_delete_ne, Hs, (decide_False (P := snapshot t = s)) by congruence. done.
  - destruct (decide (s = snapshot t)) as [->|Hne].
    + rewrite lookup_insert_eq, decide_False by lia. f_equal. lia.
    + rewrite lookup_insert_ne, Hs, (decide_False (P := snapshot t = s)) by congruence. done.
Qed.

Lemma list_min_spec l :
  match list_min l with Some m => In m l /\ forall x, In x l -> m <= x | None => l = [] end.
Proof.
  induction l as [|x l IH]; [done|]. cbn [list_min]. destruct (list_min l) as [m|].
  - destruct IH as [Hm Hle]. split.
    + destruct (Z.min_spec x m) as [[_ ->]|[_ ->]]; cbn; auto.
    + intros y [<-|Hy]; [lia|]. apply Hle in Hy. lia.
  - subst l. split; [by left|]. intros y [<-|[]]. lia.
Qed.

Lemma min_active_le active s c : active !! s = Some c -> min_active active <= s.
Proof.
  intros H. unfold min_active. pose proof (list_min_spec (map fst (map_to_list active))) as Hm.
  assert (Hin : In s (map fst (map_to_list active))).
  { apply in_map_iff. exists (s, c). split; [done|]. by apply list_elem_of_In, elem_of_map_to_list. }
  destruct (list_min _) as [m|]; cbn; [by apply Hm|]. by rewrite Hm in Hin.
Qed.

(** The registry's minimum is a lower bound of the live snapshots, and is one
    of them when there is any. *)
Lemma registry_min active ts :
  registry_exact active ts ->
  (forall t, t ∈ ts -> min_active active <= snapshot t) /\
  (ts <> [] -> exists t, t ∈ ts /\ snapshot t = min_active active) /\
  (ts = [] -> min_active active = u64_max).
Proof.
  intros H. split_and!.
  - intros t Ht. eapply min_active_le. rewrite H. rewrite decide_False; [done|].
    unfold holds. intros Hz. assert (Hin : t ∈ filter (fun t' => snapshot t' = snapshot t) ts)
      by by apply list_elem_of_filter.
    destruct (filter _ ts); [by apply elem_of_nil in Hin|cbn in Hz; lia].
  - intros Hne. unfold min_active.
    pose proof (list_min_spec (map fst (map_to_list active))) as Hm.
    destruct (list_min _) as [m|]; cbn.
    + destruct Hm as [Hin _]. apply in_map_iff in Hin as ([s c] & <- & Hin).
      apply list_elem_of_In, elem_of_map_to_list in Hin. rewrite H in Hin. cbn.
      destruct (decide _) as [|Hz]; [done|]. unfold holds in Hz.
      destruct (filter (fun t => snapshot t = s) ts) as [|t l] eqn:Ef; [done|].
      assert (Ht : t ∈ filter (fun t => snapshot t = s) ts) by (rewrite Ef; left).
      apply list_elem_of_filter in Ht as [<- Ht]. eauto.
    + destruct ts as [|t ts]; [done|]. exfalso. specialize (H (snapshot t)).
      apply map_eq_nil, map_to_list_empty_iff in Hm. subst active.
      rewrite lookup_empty, holds_cons in H. pose proof (holds_nonneg (snapshot t) ts).
      repeat case_decide; try done; lia.
  - intros ->. assert (active = ∅) as ->; [|done]. apply map_eq. intros s. rewrite H. done.
Qed.

(** ** The system of transactions

    The manager, the storage state, the live transactions and the history of
    committed transactions (version and writes, oldest first), which the
    manager does not keep. *)
Section system.
Context {St : Type} (apply : St -> Z -> list write -> St * res unit).

Record sys := {
  mgr : TransactionManager;
  store : St;
  live : list Transaction;
  hist : list (Z * list write);
}.

Inductive step : sys -> sys -> Prop :=
| step_begin s m' t :
    tm_begin (mgr s) = (m', t) ->
    step s {| mgr := m'; store := store s; live := t :: live s; hist := hist s |}
| step_write s i t t' k v :
    live s !! i = Some t -> upsert t k v = Ok t' ->
    step s {| mgr := mgr s; store := store s; live := <[i := t']> (live s); hist := hist s |}
| step_commit s i t m' t' st' v :
    next_version (mgr s) < u64_max ->
    live s !! i = Some t -> tm_commit apply (mgr s) t (store s) = (m', t', st', Ok v) ->
    step s {| mgr := m'; store := st'; live := delete i (live s);
              hist := if txn_is_empty t then hist s else hist s ++ [(v, writes t)] |}
| step_fail s i t m' t' st' e :
    next_version (mgr s) < u64_max ->
    live s !! i = Some t -> tm_commit apply (mgr s) t (store s) = (m', t', st', Err e) ->
    step s {| mgr := m'; store := st'; live := <[i := t']> (live s); hist := hist s |}
| step_abort s i t m' t' :
    live s !! i = Some t -> tm_abort (mgr s) t = (m', t') ->
    step s {| mgr := m'; store := store s; live := delete i (live s); hist := hist s |}.

Definition init (v : Z) (st : St) : sys :=
  {| mgr := recover_at_version v; store := st; live := []; hist := [] |}.

Definition reachable (v : Z) (st : St) (s : sys) : Prop := rtc step (init v st) s.

(** A commit as the log records it. *)
Definition logged (h : Z * list write) : CommittedTxn :=
  {| commit_version := h.1; write_set := write_set_of h.2 |}.

Definition versions_sorted (hs : list (Z * list write)) : Prop :=
  forall i j a b, hs !! i = Some a -> hs !! j = Some b -> (i < j)%nat -> a.1 < b.1.

(** The log is the tail of the history that starts at [d]; what came before
    is either older than every live snapshot or followed by as many commits as
    the log may hold. *)
Definition log_covers (m : TransactionManager) (ts : list Transaction)
    (hs : list (Z * list write)) : Prop :=
  exists d : nat,
    committed_log m = map logged (drop d hs) /\
    forall k h, hs !! k = Some h -> (k < d)%nat ->
      (forall t, t ∈ ts -> h.1 <= snapshot t) \/
      (max_committed_log_size m + k < length hs)%nat.

Record sys_inv (s : sys) : Prop := {
  inv_registry : registry_exact (active_snapshots (mgr s)) (live s);
  inv_live : forall t, t ∈ live s ->
    hold t = true /\ txn_wf t /\ snapshot t <= visible_version (mgr s);
  inv_versions : visible_version (mgr s) < next_version (mgr s) <= u64_max;
  inv_nonneg : 0 <= visible_version (mgr s);
  inv_hist : forall h, h ∈ hist s -> h.1 <= visible_version (mgr s);
  inv_sorted : versions_sorted (hist s);
  inv_log : log_covers (mgr s) (live s) (hist s);
}.

Lemma live_perm (s : sys) i t : live s !! i = Some t -> live s ≡ₚ t :: delete i (live s).
Proof. intros H. by apply delete_Permutation. Qed.

Lemma elem_of_delete (s : sys) i t' : t' ∈ delete i (live s) -> t' ∈ live s.
Proof.
  intros H. apply list_elem_of_lookup in H as [j Hj].
  destruct (decide (j < i)%nat).
  - rewrite list_lookup_delete_lt in Hj by done. by eapply list_elem_of_lookup_2.
  - rewrite list_lookup_delete_ge in Hj by lia. by eapply list_elem_of_lookup_2.
Qed.

(** Fewer live transactions, or the same snapshots: the log still covers. *)
Lemma log_covers_sub m m' ts ts' hs :
  committed_log m' = committed_log m -> max_committed_log_size m' = max_committed_log_size m ->
  (forall t, t ∈ ts' -> exists t0, t0 ∈ ts /\ snapshot t0 = snapshot t) ->
  log_covers m ts hs -> log_covers m' ts' hs.
Proof.
  intros El Es Hsub (d & Hl & Hd). exists d. rewrite El, Es. split; [done|].
  intros k h Hk Hlt. destruct (Hd k h Hk Hlt) as [H|H]; [left|by right].
  intros t Ht. destruct (Hsub t Ht) as (t0 & H0 & <-). by apply H.
Qed.

Lemma trim_front_drop mn hs :
  exists n, trim_front mn (map logged hs) = map logged (drop n hs) /\
    forall k h, hs !! k = Some h -> (k < n)%nat -> h.1 < mn.
Proof.
  induction hs as [|h hs IH]; [exists 0%nat; split; [done|lia]|]. cbn [map trim_front].
  destruct (Z.ltb_spec (commit_version (logged h)) mn) as [Hlt|Hge].
  - destruct IH as (n & E & Hn). exists (S n). split; [done|].
    intros [|k] h' Hk Hlt'; cbn in Hk; [by injection Hk as <-|]. eapply Hn; [done|lia].
  - exists 0%nat. split; [done|lia].
Qed.

Lemma trim_size_drop n hs :
  trim_size n (map logged hs) = map logged (drop (length hs - n) hs).
Proof. unfold trim_size. by rewrite length_map, skipn_map. Qed.

(** The log after a successful commit. *)
Lemma log_covers_commit m m' ts ts' hs h :
  log_covers m ts hs -> (forall t, t ∈ ts' -> t ∈ ts) ->
  (forall t, t ∈ ts -> min_active (active_snapshots m) <= snapshot t) ->
  max_committed_log_size m' = max_committed_log_size m ->
  committed_log m' = trim_size (max_committed_log_size m)
    (trim_front (min_active (active_snapshots m)) (committed_log m ++ [logged h])) ->
  log_covers m' ts' (hs ++ [h]).
Proof.
  intros (d & El & Hd) Hsub Hmin Es El'. pose proof El' as Hlog. rewrite El in Hlog.
  set (d0 := Nat.min d (length hs)).
  assert (Ed : map logged (drop d hs) ++ [logged h] = map logged (drop d0 (hs ++ [h]))).
  { rewrite drop_app_le by lia. rewrite map_app. do 2 f_equal. unfold d0.
    destruct (decide (d <= length hs)%nat); [by rewrite Nat.min_l|].
    rewrite Nat.min_r, !drop_ge by lia. done. }
  rewrite Ed in Hlog.
  destruct (trim_front_drop (min_active (active_snapshots m)) (drop d0 (hs ++ [h]))) as (n & En & Hn).
  rewrite En, trim_size_drop, !drop_drop, !length_drop in Hlog.
  eexists. split; [exact Hlog|]. intros k h' Hk Hlt. rewrite Es.
  destruct (decide (k < d0)%nat) as [Hkd|Hkd].
  - rewrite lookup_app_l in Hk by lia. destruct (Hd k h' Hk ltac:(lia)) as [H|H].
    + left. intros t Ht. apply H, Hsub, Ht.
    + right. rewrite length_app. lia.
  - destruct (decide (k < d0 + n)%nat) as [Hkn|Hkn].
    + left. intros t Ht. transitivity (min_active (active_snapshots m)); [|by apply Hmin, Hsub].
      apply Z.lt_le_incl, (Hn (k - d0)%nat); [|lia]. rewrite lookup_drop.
      by replace (d0 + (k - d0))%nat with k by lia.
    + right. rewrite length_app in *. cbn [length] in *. lia.
Qed.

Lemma release_live (s : sys) i t :
  sys_inv s -> live s !! i = Some t ->
  txn_release (active_snapshots (mgr s)) t
  = (release_hold (active_snapshots (mgr s)) (snapshot t),
     {| snapshot := snapshot t; writes := writes t; index := index t; hold := false |}) /\
  registry_exact (release_hold (active_snapshots (mgr s)) (snapshot t)) (delete i (live s)).
Proof.
  intros Hi Ht. destruct (inv_live s Hi t) as (Hh & _); [by eapply list_elem_of_lookup_2|].
  unfold txn_release. rewrite Hh. split; [done|]. apply registry_release.
  eapply registry_perm; [by apply live_perm|]. apply (inv_registry s Hi).
Qed.

(** Removing a transaction keeps what the invariant says of the others. *)
Lemma inv_delete (s : sys) i t m' st' :
  sys_inv s -> live s !! i = Some t ->
  m' = set_active (mgr s) (release_hold (active_snapshots (mgr s)) (snapshot t)) ->
  sys_inv {| mgr := m'; store := st'; live := delete i (live s); hist := hist s |}.
Proof.
  intros Hi Ht ->. destruct (release_live s i t Hi Ht) as [_ Hr].
  destruct Hi. split; cbn; eauto using elem_of_delete.
  eapply log_covers_sub; [..|done]; try done. intros t0 H0. exists t0. eauto using elem_of_delete.
Qed.

Lemma tm_commit_cases m t st m' t' st' r :
  tm_commit apply m t st = (m', t', st', r) ->
  (txn_is_empty t = true /\ r = Ok (snapshot t) /\ st' = st /\
   m' = set_active m (txn_release (active_snapshots m) t).1) \/
  (txn_is_empty t = false /\ existsb (conflicts t) (committed_log m) = true /\
   r = Err WriteConflict /\ m' = m /\ t' = t /\ st' = st) \/
  (txn_is_empty t = false /\ existsb (conflicts t) (committed_log m) = false /\
   apply st (next_version m) (writes t) = (st', Ok tt) /\ r = Ok (next_version m) /\
   m' = {| visible_version := next_version m; next_version := as_u64 (next_version m + 1);
           committed_log := trim_size (max_committed_log_size m)
             (trim_front (min_active (active_snapshots m))
               (committed_log m ++ [logged (next_version m, writes t)]));
           active_snapshots := (txn_release (active_snapshots m) t).1;
           max_committed_log_size := max_committed_log_size m |}) \/
  (txn_is_empty t = false /\ existsb (conflicts t) (committed_log m) = false /\
   (exists a, apply st (next_version m) (writes t) = (st', a) /\ a <> Ok tt) /\
   (forall v, r <> Ok v) /\ t' = t /\
   m' = {| visible_version := visible_version m; next_version := as_u64 (next_version m + 1);
           committed_log := committed_log m; active_snapshots := active_snapshots m;
           max_committed_log_size := max_committed_log_size m |}).
Proof.
  unfold tm_commit. destruct (txn_is_empty t); [|destruct (existsb _ _)].
  - destruct (txn_release _ t) as [a t1]. intros [= <- <- <- <-]. by left.
  - intros [= <- <- <- <-]. by right; left.
  - destruct (apply st _ _) as [st1 [[]|e|]].
    + destruct (txn_release _ t) as [a t1]. intros [= <- <- <- <-]. by right; right; left.
    + intros [= <- <- <- <-]. right; right; right. split_and!; eauto.
    + intros [= <- <- <- <-]. right; right; right. split_and!; eauto.
Qed.

Lemma as_u64_next v : 0 <= v < u64_max -> as_u64 (v + 1) = v + 1.
Proof. intros H. apply as_u64_small. unfold is_u64, u64_max in *. lia. Qed.

Lemma versions_sorted_snoc hs h :
  versions_sorted hs -> (forall h', h' ∈ hs -> h'.1 < h.1) -> versions_sorted (hs ++ [h]).
Proof.
  intros Hs Hlt i j a b Hi Hj Hij.
  apply lookup_app_Some in Hj as [Hj|[Hj1 Hj2]].
  - rewrite lookup_app_l in Hi by (apply lookup_lt_Some in Hj; lia). by eapply Hs.
  - apply list_lookup_singleton_Some in Hj2 as [Hj2 <-].
    rewrite lookup_app_l in Hi by lia. apply Hlt. by eapply list_elem_of_lookup_2.
Qed.

Lemma inv_commit (s : sys) i t st' m' :
  sys_inv s -> live s !! i = Some t -> next_version (mgr s) < u64_max ->
  m' = {| visible_version := next_version (mgr s);
          next_version := as_u64 (next_version (mgr s) + 1);
          committed_log := trim_size (max_committed_log_size (mgr s))
            (trim_front (min_active (active_snapshots (mgr s)))
              (committed_log (mgr s) ++ [logged (next_version (mgr s), writes t)]));
          active_snapshots := (txn_release (active_snapshots (mgr s)) t).1;
          max_committed_log_size := max_committed_log_size (mgr s) |} ->
  sys_inv {| mgr := m'; store := st'; live := delete i (live s);
             hist := hist s ++ [(next_version (mgr s), writes t)] |}.
Proof.
  intros Hi Ht Hv ->. destruct (release_live s i t Hi Ht) as [Er Hr]. rewrite Er. cbn [fst].
  pose proof (registry_min _ _ (inv_registry s Hi)) as (Hmin & _).
  destruct Hi as [Hreg Hl Hvs Hnn Hh Hs Hlog].
  split; cbn -[u64_max]; rewrite ?as_u64_next by lia; try done; try lia.
  - intros t0 H0. destruct (Hl t0 (elem_of_delete s i t0 H0)) as (? & ? & ?). split_and!; try done; lia.
  - intros h [H|H]%elem_of_app; [apply Hh in H; lia|]. apply list_elem_of_singleton in H as ->.
    cbn. lia.
  - apply versions_sorted_snoc; [done|]. intros h H%Hh. cbn. lia.
  - eapply log_covers_commit; eauto using elem_of_delete.
Qed.

Lemma live_insert (s : sys) i t t' t0 :
  live s !! i = Some t -> t0 ∈ <[i := t']> (live s) -> t0 = t' \/ t0 ∈ live s.
Proof.
  intros Hi H. apply list_elem_of_lookup in H as [j Hj].
  apply list_lookup_insert_Some in Hj as [(_ & <- & _)|[_ Hj]]; [by left|right].
  by eapply list_elem_of_lookup_2.
Qed.

Lemma holds_insert (s : sys) i t t' v :
  live s !! i = Some t -> snapshot t' = snapshot t ->
  holds v (<[i := t']> (live s)) = holds v (live s).
Proof.
  intros Hi Hs. pose proof (lookup_lt_Some _ _ _ Hi) as Hlt.
  rewrite (holds_perm v (live s) (t :: delete i (live s))) by by apply delete_Permutation.
  rewrite (holds_perm v (<[i:=t']> (live s)) (t' :: delete i (live s))).
  - by rewrite !holds_cons, Hs.
  - rewrite insert_take_drop by done. rewrite delete_take_drop. symmetry; apply Permutation_middle.
Qed.

(** Rewriting a live transaction in place keeps the invariant. *)
Lemma inv_update (s : sys) i t t' m' st' :
  sys_inv s -> live s !! i = Some t -> txn_wf t' -> snapshot t' = snapshot t -> hold t' = hold t ->
  active_snapshots m' = active_snapshots (mgr s) -> visible_version m' = visible_version (mgr s) ->
  visible_version m' < next_version m' <= u64_max ->
  committed_log m' = committed_log (mgr s) ->
  max_committed_log_size m' = max_committed_log_size (mgr s) ->
  sys_inv {| mgr := m'; store := st'; live := <[i := t']> (live s); hist := hist s |}.
Proof.
  intros Hi Ht Hw Hs Hh Ea Ev Hv El Em. pose proof (list_elem_of_lookup_2 _ _ _ Ht) as Hin.
  assert (Hsub : forall t0, t0 ∈ <[i := t']> (live s) ->
    exists t1, t1 ∈ live s /\ snapshot t1 = snapshot t0 /\ hold t1 = hold t0).
  { intros t0 H0. destruct (live_insert s i t t' t0 Ht H0) as [->|]; eauto. }
  destruct Hi as [Hreg Hl Hvs Hnn Hhi Hso Hlog]. split; cbn -[u64_max]; rewrite ?Ev; try done.
  - intros v. rewrite Ea, holds_insert with (t := t) by done. apply Hreg.
  - intros t0 H0. destruct (Hsub t0 H0) as (t1 & H1 & <- & <-). destruct (Hl t1 H1) as (? & ? & ?).
    split_and!; try done. destruct (live_insert s i t t' t0 Ht H0) as [->|Hin0]; [done|].
    apply (Hl t0 Hin0).
  - by rewrite <- Ev.
  - eapply log_covers_sub; [done|done| |done].
    intros t0 H0. destruct (Hsub t0 H0) as (t1 & ? & ? & ?). eauto.
Qed.

Lemma step_inv s s' : sys_inv s -> step s s' -> sys_inv s'.
Proof.
  intros Hi Hst. destruct Hst as [s m' t E|s i t t' k v Ht E|s i t m' t' st' v Hv Ht E
    |s i t m' t' st' e Hv Ht E|s i t m' t' Ht E].
  - unfold tm_begin, begin_register, begin_load in E. injection E as <- <-.
    destruct Hi as [Hreg Hl Hvs Hnn Hh Hs Hlog]. split; cbn -[u64_max]; try done.
    + by apply (registry_register _ _ {| snapshot := _; writes := []; index := ∅; hold := true |}).
    + intros t [->|Ht]%elem_of_cons; [|by apply Hl]. split_and!; [done| |cbn; lia].
      intros k i. cbn. rewrite lookup_empty. split; [done|intros [v [=]]].
    + destruct Hlog as (d & El & Hd). exists d. split; [done|]. intros k h Hk Hlt.
      destruct (Hd k h Hk Hlt) as [H|H]; [left|by right].
      intros t [->|Ht]%elem_of_cons; [|by apply H]. apply Hh. by eapply list_elem_of_lookup_2.
  - destruct (inv_live s Hi t) as (Hh & Hw & _); [by eapply list_elem_of_lookup_2|].
    destruct (upsert_wf t k v Hw) as (t1 & E1 & Hw1 & _ & Hs1 & Hh1 & _).
    rewrite E in E1. injection E1 as <-. eapply inv_update; eauto. apply (inv_versions s Hi).
  - destruct (tm_commit_cases _ _ _ _ _ _ _ E)
      as [(-> & _ & -> & ->)|[(_ & _ & [=] & _)|[(-> & _ & _ & [= ->] & ->)|(_ & _ & _ & H & _)]]].
    + eapply inv_delete; [done..|]. by rewrite (proj1 (release_live s i t Hi Ht)).
    + by eapply inv_commit.
    + by destruct (H v).
  - destruct (inv_live s Hi t) as (Hh & Hw & _); [by eapply list_elem_of_lookup_2|].
    pose proof (inv_versions s Hi). pose proof (inv_nonneg s Hi).
    destruct (tm_commit_cases _ _ _ _ _ _ _ E)
      as [(_ & [=] & _)|[(_ & _ & _ & -> & -> & ->)|[(_ & _ & _ & [=] & _)|(_ & _ & _ & _ & -> & ->)]]];
      eapply inv_update; eauto. cbn -[u64_max]. rewrite as_u64_next; lia.
  - unfold tm_abort in E. rewrite (proj1 (release_live s i t Hi Ht)) in E. injection E as <- <-.
    by eapply inv_delete.
Qed.

Lemma reachable_inv v st s : 0 <= v < u64_max -> reachable v st s -> sys_inv s.
Proof.
  intros Hv Hr. eapply (rtc_ind_r (fun s => sys_inv s) (init v st)); [| |exact Hr].
  - split; cbn -[u64_max]; rewrite ?as_u64_next by lia; try (done || lia).
    + intros t Ht. by apply elem_of_nil in Ht.
    + intros h Hh. by apply elem_of_nil in Hh.
    + exists 0%nat. split; [done|]. intros k h. by rewrite lookup_nil.
  - intros y z _ Hst Hy. by eapply step_inv.
Qed.

(** ** Conflict detection *)

Definition overlaps (ws ws' : list write) : Prop := exists k, k ∈ map fst ws /\ k ∈ map fst ws'.

(** The commits newer than a snapshot. *)
Definition newer (s : Z) (hs : list (Z * list write)) : list (Z * list write) :=
  filter (fun h => s < h.1) hs.

Lemma conflicts_logged t h :
  conflicts t (logged h) = true <-> snapshot t < h.1 /\ overlaps (writes t) h.2.
Proof.
  unfold conflicts, logged, overlaps, write_set_of. cbn [commit_version write_set].
  destruct (Z.leb_spec h.1 (snapshot t)); [split; [done|lia]|].
  rewrite existsb_exists. split.
  - intros (w & Hin & Hb%bool_decide_eq_true). split; [lia|]. exists w.1.
    rewrite elem_of_list_to_set in Hb. split; [|done].
    apply (list_elem_of_fmap fst). exists w. split; [done|]. by apply list_elem_of_In.
  - intros (_ & k & H1 & H2). apply (list_elem_of_fmap fst) in H1 as (w & -> & H1).
    exists w. split; [by apply list_elem_of_In|]. apply bool_decide_eq_true.
    by rewrite elem_of_list_to_set.
Qed.

Lemma filter_all {B} (P : B -> Prop) `{forall x, Decision (P x)} (l : list B) :
  Forall P l -> filter P l = l.
Proof. induction 1; [done|]. rewrite filter_cons_True by done. by f_equal. Qed.

Lemma newer_length hs k h s :
  versions_sorted hs -> hs !! k = Some h -> s < h.1 -> (length hs - k <= length (newer s hs))%nat.
Proof.
  intros Hs Hk Hlt. unfold newer. rewrite <- (take_drop k hs) at 2. rewrite filter_app, length_app.
  assert (E : filter (fun h => s < h.1) (drop k hs) = drop k hs).
  { apply filter_all, Forall_lookup. intros j x Hj. rewrite lookup_drop in Hj.
    destruct j as [|j]; [rewrite Nat.add_0_r in Hj; congruence|].
    pose proof (Hs k (k + S j)%nat h x Hk Hj ltac:(lia)). lia. }
  rewrite E, length_drop. lia.
Qed.

(** The check of [commit] against the log is the check against the history,
    when the commits since the snapshot fit in the log. *)
Lemma log_check_exact (s : sys) t :
  sys_inv s -> t ∈ live s ->
  (length (newer (snapshot t) (hist s)) <= max_committed_log_size (mgr s))%nat ->
  existsb (conflicts t) (committed_log (mgr s)) = true <->
  exists h, h ∈ hist s /\ snapshot t < h.1 /\ overlaps (writes t) h.2.
Proof.
  intros Hi Ht Hlen. destruct (inv_log s Hi) as (d & -> & Hd). rewrite existsb_exists. split.
  - intros (c & Hin & Hc). apply in_map_iff in Hin as (h & <- & Hin).
    exists h. apply conflicts_logged in Hc. split; [|done].
    apply list_elem_of_In in Hin. rewrite <- (take_drop d (hist s)). apply elem_of_app. by right.
  - intros (h & Hin & Hlt & Ho). exists (logged h). split; [|by apply conflicts_logged].
    apply in_map_iff. exists h. split; [done|]. apply list_elem_of_In.
    apply list_elem_of_lookup in Hin as [k Hk]. destruct (decide (k < d)%nat) as [Hkd|Hkd].
    + exfalso. destruct (Hd k h Hk Hkd) as [H|H]; [specialize (H t Ht); lia|].
      pose proof (newer_length _ _ _ _ (inv_sorted s Hi) Hk Hlt). lia.
    + apply (list_elem_of_lookup_2 _ (k - d)). rewrite lookup_drop.
      by replace (d + (k - d))%nat with k by lia.
Qed.

(** ** What a snapshot reads *)

(** [view st v] is what a reader at version [v] sees; a commit at a version
    only changes what readers at that version or later see. *)
Definition apply_at_version {A} (view : St -> Z -> A) : Prop :=
  forall st v ws w, is_u64 v -> w < v -> view (apply st v ws).1 w = view st w.

Lemma step_view {A} (view : St -> Z -> A) s s' w :
  apply_at_version view -> sys_inv s -> step s s' -> w <= visible_version (mgr s) ->
  view (store s') w = view (store s) w /\ w <= visible_version (mgr s').
Proof.
  intros Ha Hi Hst Hw. pose proof (inv_versions s Hi) as Hv.
  assert (Hu : is_u64 (next_version (mgr s))).
  { pose proof (inv_nonneg s Hi). unfold is_u64, u64_max in *. lia. }
  destruct Hst as [s m' t E|s i t t' k v Ht E|s i t m' t' st' v Hn Ht E
    |s i t m' t' st' e Hn Ht E|s i t m' t' Ht E]; cbn [store mgr].
  - injection E as <- <-. by split.
  - by split.
  - destruct (tm_commit_cases _ _ _ _ _ _ _ E)
      as [(_ & _ & -> & ->)|[(_ & _ & [=] & _)|[(_ & _ & Ea & _ & ->)|(_ & _ & _ & H & _)]]].
    + done.
    + cbn. split; [|lia]. specialize (Ha (store s) (next_version (mgr s)) (writes t) w).
      rewrite Ea in Ha. apply Ha; [done|lia].
    + by destruct (H v).
  - destruct (tm_commit_cases _ _ _ _ _ _ _ E)
      as [(_ & [=] & _)|[(_ & _ & _ & -> & -> & ->)|[(_ & _ & _ & [=] & _)|(_ & _ & (a & Ea & _) & _ & -> & ->)]]];
      [done|]. cbn. split; [|lia].
    specialize (Ha (store s) (next_version (mgr s)) (writes t) w). rewrite Ea in Ha. apply Ha; [done|lia].
  - unfold tm_abort in E. destruct (txn_release _ t). by injection E as <- <-.
Qed.

Lemma reachable_view {A} (view : St -> Z -> A) v st s s' w :
  apply_at_version view -> 0 <= v < u64_max -> reachable v st s -> rtc step s s' ->
  w <= visible_version (mgr s) ->
  view (store s') w = view (store s) w /\ visible_version (mgr s) <= visible_version (mgr s').
Proof.
  intros Ha Hv Hr Hst. pose proof (reachable_inv v st s Hv Hr) as Hi. clear Hr.
  revert w Hi. induction Hst as [s|s s1 s' H1 _ IH]; intros w Hi Hw; [by split|].
  destruct (step_view view s s1 w Ha Hi H1 Hw) as [E1 Hw1].
  destruct (step_view view s s1 _ Ha Hi H1 (Z.le_refl _)) as [_ Hm].
  destruct (IH w (step_inv s s1 Hi H1) Hw1) as [E2 Hm2]. split; [congruence|lia].
Qed.

(** ** Properties *)

(** The snapshot registry counts exactly.  In every reachable state the
    registry holds, for each version, the number of live transactions on that
    snapshot; so the minimum the compaction asks for is the oldest live
    snapshot ([u64::MAX] when there is none), and no finished, aborted or
    dropped transaction pins it. *)
Theorem registry_counts_live v st s :
  0 <= v < u64_max -> reachable v st s ->
  (forall x, default 0 (active_snapshots (mgr s) !! x) = holds x (live s)) /\
  (forall t, t ∈ live s -> min_active_snapshot (mgr s) <= snapshot t) /\
  (live s <> [] -> exists t, t ∈ live s /\ snapshot t = min_active_snapshot (mgr s)) /\
  (live s = [] -> min_active_snapshot (mgr s) = u64_max).
Proof.
  intros Hv Hr. pose proof (reachable_inv v st s Hv Hr) as Hi.
  split; [|apply registry_min, (inv_registry s Hi)].
  intros x. rewrite (inv_registry s Hi x). by destruct (decide _).
Qed.

(** C39: first committer wins.  While the commits made since a transaction's
    snapshot fit in the log (1024 in the code), its commit fails with
    [WriteConflict], leaving the manager and the storage as they were, exactly
    when some transaction committed after the snapshot wrote one of its keys;
    otherwise its writes are applied at a version above every earlier one. *)
Theorem commit_first_committer_wins v st s i t :
  0 <= v < u64_max -> reachable v st s -> live s !! i = Some t -> writes t <> [] ->
  (length (newer (snapshot t) (hist s)) <= max_committed_log_size (mgr s))%nat ->
  ((exists h, h ∈ hist s /\ snapshot t < h.1 /\ overlaps (writes t) h.2) ->
   tm_commit apply (mgr s) t (store s) = (mgr s, t, store s, Err WriteConflict)) /\
  (~ (exists h, h ∈ hist s /\ snapshot t < h.1 /\ overlaps (writes t) h.2) ->
   (tm_commit apply (mgr s) t (store s)).1.2
     = (apply (store s) (next_version (mgr s)) (writes t)).1 /\
   snapshot t <= visible_version (mgr s) < next_version (mgr s) /\
   forall h, h ∈ hist s -> h.1 < next_version (mgr s)).
Proof.
  intros Hv Hr Ht Hw Hlen. pose proof (reachable_inv v st s Hv Hr) as Hi.
  pose proof (list_elem_of_lookup_2 _ _ _ Ht) as Hin.
  pose proof (log_check_exact s t Hi Hin Hlen) as Hc.
  assert (He : txn_is_empty t = false) by (unfold txn_is_empty; by destruct (writes t)).
  unfold tm_commit. rewrite He. split; intros H.
  - apply Hc in H. by rewrite H.
  - destruct (existsb _ _); [by destruct H; apply Hc|].
    pose proof (inv_live s Hi t Hin). pose proof (inv_versions s Hi).
    split; [|split; [lia|intros h Hh%(inv_hist s Hi); lia]].
    destruct (apply _ _ _) as [st' [[]|e|]]; cbn; [|done..]. by destruct (txn_release _ t).
Qed.

(** Snapshot reads are stable.  If applying a commit at a version only
    changes what readers at that version or above see, then whatever begins,
    writes, commits, failures and aborts follow, a reader at a published
    version keeps seeing the same thing: nothing is published before it is
    applied and nothing is applied at or below a published version. *)
Theorem snapshot_reads_stable {A} (view : St -> Z -> A) v st s s' w :
  apply_at_version view -> 0 <= v < u64_max -> reachable v st s -> rtc step s s' ->
  w <= visible_version (mgr s) ->
  view (store s') w = view (store s) w /\ visible_version (mgr s) <= visible_version (mgr s').
Proof. apply reachable_view. Qed.

(** A failed apply burns its version.  When the callback fails the
    reserved version is consumed but not published, the log and the registry
    are unchanged and the transaction keeps its hold, so the next commit gets
    a strictly larger version. *)
Theorem failed_apply_burns_version m t st st' e :
  writes t <> [] -> existsb (conflicts t) (committed_log m) = false ->
  0 <= next_version m < u64_max ->
  apply st (next_version m) (writes t) = (st', Err e) ->
  exists m', tm_commit apply m t st = (m', t, st', Err e) /\
    next_version m' = next_version m + 1 /\ visible_version m' = visible_version m /\
    committed_log m' = committed_log m /\ active_snapshots m' = active_snapshots m.
Proof.
  intros Hw Hc Hv Ha. unfold tm_commit, txn_is_empty. destruct (writes t) as [|w ws] eqn:Ew; [done|].
  rewrite Hc, Ha. eexists. split; [done|]. cbn -[u64_max]. rewrite as_u64_next by done. done.
Qed.

End system.

(** The write buffer.  Any run of puts and deletes on a new transaction
    succeeds; the buffer then holds each key once, with its last write. *)
Theorem txn_buffer_last_write_wins m ops :
  exists t', upserts (tm_begin m).2 ops = Ok t' /\ NoDup (map fst (writes t')) /\
    buffer_map (writes t') = fold_left (fun b w => <[w.1 := w.2]> b) ops ∅.
Proof.
  destruct (upserts_wf (tm_begin m).2 ops) as (t' & E & Hw & Hm).
  { intros k i. cbn. rewrite lookup_empty. split; [done|intros [v [=]]]. }
  exists t'. split; [done|]. split; [by apply txn_wf_nodup|done].
Qed.

(** ** Limits *)

Definition no_store (st : unit) (v : Z) (ws : list write) : unit * res unit := (tt, Ok tt).

(** A transaction that begins, writes one key and commits. *)
Definition quick_commit (m : TransactionManager) (k : bytes) : TransactionManager :=
  let '(m, t) := tm_begin m in
  match upsert t k (Some []) with
  | Ok t => let '(m, _, _, _) := tm_commit no_store m t tt in m
  | _ => m
  end.

Definition slow_commit (m : TransactionManager) (t : Transaction) (k : bytes) : res Z :=
  t ← upsert t k (Some []);
  let '(_, _, _, r) := tm_commit no_store m t tt in r.

(** The log's bound loses a conflict.  A transaction begins, another one
    commits key [a], 1024 commits of key [b] push that commit out of the log,
    and the first transaction then commits [a] without a conflict, over the
    write it has not seen. *)
Theorem log_bound_misses_conflict :
  let '(m, t) := tm_begin tm_new in
  slow_commit (quick_commit m [x61]) t [x61] = Err WriteConflict /\
  slow_commit (Nat.iter 1024 (fun m => quick_commit m [x62]) (quick_commit m [x61])) t [x61]
    = Ok 1026.
Proof. by vm_compute. Qed.

(** The two accesses of [begin] race with the trimming.  A transaction
    that has loaded the version but not yet registered its hold does not keep
    the log: two commits in between drop an entry it needed, and its conflict
    on key [a] is missed. *)
Theorem begin_race_misses_conflict :
  let s := begin_load tm_new in
  let m := quick_commit (quick_commit (quick_commit tm_new [x61]) [x62]) [x63] in
  let '(m', t) := begin_register m s in
  snapshot t = 0 /\ slow_commit m' t [x61] = Ok 4 /\
  let '(m1, t1) := begin_register tm_new s in
  slow_commit (quick_commit (quick_commit (quick_commit m1 [x61]) [x62]) [x63]) t1 [x61]
    = Err WriteConflict.
Proof. by vm_compute. Qed.

(** ** Executable runs and witnesses *)

Inductive action :=
| ABegin
| AWrite (i : nat) (k : bytes) (v : option bytes)
| ACommit (i : nat)
| AAbort (i : nat).

Section run.
Context {St : Type} (apply : St -> Z -> list write -> St * res unit).

Definition run_action (s : @sys St) (a : action) : option (@sys St) :=
  match a with
  | ABegin =>
      let '(m', t) := tm_begin (mgr s) in
      Some {| mgr := m'; store := store s; live := t :: live s; hist := hist s |}
  | AWrite i k v =>
      match live s !! i with
      | Some t =>
          match upsert t k v with
          | Ok t' => Some {| mgr := mgr s; store := store s; live := <[i := t']> (live s);
                             hist := hist s |}
          | _ => None
          end
      | None => None
      end
  | ACommit i =>
      if u64_max <=? next_version (mgr s) then None
      else match live s !! i with
      | Some t =>
          match tm_commit apply (mgr s) t (store s) with
          | (m', _, st', Ok v) =>
              Some {| mgr := m'; store := st'; live := delete i (live s);
                      hist := if txn_is_empty t then hist s else hist s ++ [(v, writes t)] |}
          | (m', t', st', Err _) =>
              Some {| mgr := m'; store := st'; live := <[i := t']> (live s); hist := hist s |}
          | _ => None
          end
      | None => None
      end
  | AAbort i =>
      match live s !! i with
      | Some t =>
          let '(m', _) := tm_abort (mgr s) t in
          Some {| mgr := m'; store := store s; live := delete i (live s); hist := hist s |}
      | None => None
      end
  end.

Fixpoint run (s : @sys St) (l : list action) : option (@sys St) :=
  match l with
  | [] => Some s
  | a :: l => match run_action s a with Some s' => run s' l | None => None end
  end.

Lemma run_action_step s a s' : run_action s a = Some s' -> step apply s s'.
Proof.
  destruct a as [|i k v|i|i]; cbn -[tm_commit].
  - intros [= <-]. by eapply step_begin.
  - destruct (live s !! i) eqn:Ei; [|done]. destruct (upsert _ _ _) eqn:Eu; [|done..].
    intros [= <-]. by eapply step_write.
  - destruct (Z.leb_spec u64_max (next_version (mgr s))); [done|].
    destruct (live s !! i) eqn:Ei; [|done].
    destruct (tm_commit _ _ _ _) as [[[m' t'] st'] r] eqn:Ec. destruct r; [..|done]; intros [= <-].
    + by eapply step_commit.
    + by eapply step_fail.
  - destruct (live s !! i) eqn:Ei; [|done]. destruct (tm_abort _ _) eqn:Ea.
    intros [= <-]. by eapply step_abort.
Qed.

Lemma run_steps s l s' : run s l = Some s' -> rtc (step apply) s s'.
Proof.
  revert s. induction l as [|a l IH]; intros s; cbn; [by intros [= <-]|].
  destruct (run_action s a) eqn:E; [|done]. intros H.
  eapply rtc_l; [by eapply run_action_step|by apply IH].
Qed.

End run.

(** A storage that keeps every write with its version. *)
Definition log_store (st : list (Z * write)) (v : Z) (ws : list write) : list (Z * write) * res unit :=
  (st ++ map (pair v) ws, Ok tt).

Definition log_view (st : list (Z * write)) (v : Z) : list (Z * write) := filter (fun e => e.1 <= v) st.

(** A state reached from version [v] by a list of actions. *)
Definition ran (v : Z) (l : list action) : @sys (list (Z * write)) :=
  default (init v []) (run log_store (init v []) l).

Definition mvcc_ex : list action :=
  [ABegin; AWrite 0 [x61] (Some [x01]); ABegin; AWrite 0 [x61] (Some [x02]); ACommit 0].

Definition runs (v : Z) (l : list action) : bool :=
  match run log_store (init v []) l with Some _ => true | None => false end.

Lemma ran_reachable v l : runs v l = true -> reachable log_store v [] (ran v l).
Proof.
  unfold runs, ran, reachable. destruct (run _ _ l) eqn:E; [|done]. intros _. by eapply run_steps.
Qed.

Lemma run_app {St} apply (s : @sys St) l l' :
  run apply s (l ++ l') = match run apply s l with Some s' => run apply s' l' | None => None end.
Proof. revert s. induction l as [|a l IH]; intros s; [done|]. cbn. by destruct (run_action _ _ _). Qed.

Lemma ran_steps v l l' : runs v (l ++ l') = true -> rtc (step log_store) (ran v l) (ran v (l ++ l')).
Proof.
  unfold runs, ran. rewrite run_app. destruct (run _ _ l) as [s|]; [|done]. cbn.
  destruct (run _ s l') eqn:E; [|done]. intros _. by eapply run_steps.
Qed.

(** The transaction begun first in [mvcc_ex], still live at its end. *)
Definition mvcc_ex_txn : Transaction :=
  {| snapshot := 5; writes := [([x61], Some [x01])]; index := {[ [x61] := 0%nat ]}; hold := true |}.

Definition mvcc_ex_more : list action := [ABegin; AWrite 0 [x62] None; ACommit 0].

Lemma registry_counts_live_witness :
  default 0 (active_snapshots (mgr (ran 5 mvcc_ex)) !! 5) = holds 5 (live (ran 5 mvcc_ex)).
Proof.
  apply (registry_counts_live log_store 5 [] (ran 5 mvcc_ex)); [unfold u64_max; lia|].
  by apply ran_reachable.
Defined.

Lemma commit_first_committer_wins_witness :
  tm_commit log_store (mgr (ran 5 mvcc_ex)) mvcc_ex_txn (store (ran 5 mvcc_ex))
  = (mgr (ran 5 mvcc_ex), mvcc_ex_txn, store (ran 5 mvcc_ex), Err WriteConflict).
Proof.
  apply (commit_first_committer_wins log_store 5 [] (ran 5 mvcc_ex) 0).
  - unfold u64_max; lia.
  - by apply ran_reachable.
  - by vm_compute.
  - done.
  - by apply Nat.leb_le.
  - exists (6, [([x61], Some [x02])]). split; [|split; [done|]].
    + apply list_elem_of_In. by left.
    + exists [x61]. split; apply list_elem_of_In; by left.
Defined.

Lemma snapshot_reads_stable_witness :
  log_view (store (ran 5 (mvcc_ex ++ mvcc_ex_more))) 6 = log_view (store (ran 5 mvcc_ex)) 6.
Proof.
  refine (proj1 (snapshot_reads_stable log_store log_view 5 [] (ran 5 mvcc_ex)
    (ran 5 (mvcc_ex ++ mvcc_ex_more)) 6 _ _ _ _ _)).
  - intros st v ws w _ Hw. unfold log_view, log_store. cbn. rewrite filter_app.
    assert (E : filter (fun e : Z * write => e.1 <= w) (map (pair v) ws) = []).
    { induction ws; [done|]. cbn [map]. rewrite filter_cons_False; [done|cbn; lia]. }
    by rewrite E, app_nil_r.
  - unfold u64_max; lia.
  - by apply ran_reachable.
  - by apply ran_steps.
  - by apply Z.leb_le.
Defined.

Lemma failed_apply_burns_version_witness :
  exists m', tm_commit (fun (st : unit) _ _ => (st, Err Io)) (tm_begin tm_new).1
    {| snapshot := 0; writes := [([x61], None)]; index := {[ [x61] := 0%nat ]}; hold := true |} tt
    = (m', {| snapshot := 0; writes := [([x61], None)]; index := {[ [x61] := 0%nat ]};
              hold := true |}, tt, Err Io) /\ next_version m' = 2.
Proof.
  destruct (failed_apply_burns_version (fun (st : unit) _ _ => (st, Err Io)) (tm_begin tm_new).1
    {| snapshot := 0; writes := [([x61], None)]; index := {[ [x61] := 0%nat ]}; hold := true |}
    tt tt Io) as (m' & E & Hn & _); [done|done|cbn; unfold u64_max; lia|done|].
  exists m'. split; [exact E|exact Hn].
Defined.
