(* ===== verification/Bloom.v ===== *)
(** * Bloom filters (crates/rhypedb-storage/src/bloom.rs)

    The double-hashed filter of an SST's user keys: construction with a
    power-of-two bit count, [add] and [contains] on the mask and on the modulo
    path, and the serialized form.  Indexing the bit array out of range is a
    panic. *)

From Stdlib Require Import ZArith Lia Bool List Strings.Byte.
From stdpp Require Import base option list.
From S2P Require Import Prelude Extern.

Local Open Scope Z_scope.

Inductive HashAlgo := Fnv1a | Xxh3.

#[global] Instance HashAlgo_eq_decision : EqDecision HashAlgo.
Proof. solve_decision. Defined.

(** [HashAlgo::from_byte] and [to_byte]. *)
Definition hash_algo_from_byte (b : byte) : option HashAlgo :=
  match b2z b with 0 => Some Fnv1a | 1 => Some Xxh3 | _ => None end.

Definition hash_algo_to_byte (a : HashAlgo) : byte := match a with Fnv1a => x00 | Xxh3 => x01 end.

Record BloomFilter := {
  bits : bytes;
  num_bits : Z;
  bloom_k : Z;
  bloom_mask : option Z;
  algo : HashAlgo;
}.

Definition DEFAULT_BITS_PER_ENTRY : Z := 10.
Definition DEFAULT_K : Z := 7.

(** The smallest power of two at least [x], for [1 <= x <= 2^63]. *)
Definition next_power_of_two (x : Z) : Z := 2 ^ Z.log2_up x.

Definition is_power_of_two (x : Z) : bool := (0 <? x) && (2 ^ Z.log2 x =? x).

Definition div_ceil8 (x : Z) : Z := (x + 7) / 8.

Definition with_params_and_algo (expected_entries bits_per_entry k : Z) (a : HashAlgo) : BloomFilter :=
  let raw_bits := Z.max (Z.max expected_entries 1 * bits_per_entry) 1 in
  let num_bits := next_power_of_two raw_bits in
  let num_bytes := div_ceil8 num_bits in
  {| bits := repeat x00 (Z.to_nat num_bytes); num_bits := as_u32 num_bits; bloom_k := k;
     bloom_mask := Some (as_u32 (num_bits - 1)); algo := a |}.

Definition with_params (expected_entries bits_per_entry k : Z) : BloomFilter :=
  with_params_and_algo expected_entries bits_per_entry k Xxh3.

Definition bloom_new (expected_entries : Z) : BloomFilter :=
  with_params expected_entries DEFAULT_BITS_PER_ENTRY DEFAULT_K.

(** [set_bit] and [get_bit]: the byte [bit / 8] and its bit [bit % 8]. *)
Definition set_bit (bs : bytes) (bit : Z) : res bytes :=
  let i := Z.to_nat (bit / 8) in
  match bs !! i with
  | Some b => Ok (<[i := z2b (Z.lor (b2z b) (Z.shiftl 1 (bit mod 8)))]> bs)
  | None => Panic
  end.

Definition get_bit (bs : bytes) (bit : Z) : res bool :=
  match bs !! Z.to_nat (bit / 8) with
  | Some b => Ok (negb (Z.land (b2z b) (Z.shiftl 1 (bit mod 8)) =? 0))
  | None => Panic
  end.

Definition fnv1a_64 (data : bytes) (seed : Z) : Z :=
  fold_left (fun hash b => as_u64 (Z.lxor hash (b2z b) * 0x100000001b3)) data seed.

Definition SEED1 : Z := 0xcbf29ce484222325.
Definition SEED2 : Z := 0x9e3779b97f4a7c15.

Definition fnv_double_hash (key : bytes) : Z * Z :=
  (fnv1a_64 key SEED1, Z.lor (fnv1a_64 key SEED2) 1).

Definition combined_hash (h1 h2 i : Z) : Z := as_u64 (h1 + as_u64 (i * h2)).

Section bloom.
Context {E : Extern}.

Definition xxh3_double_hash (key : bytes) : Z * Z :=
  (xxh3_64_with_seed key SEED1, Z.lor (xxh3_64_with_seed key SEED2) 1).

Definition double_hash (f : BloomFilter) (key : bytes) : Z * Z :=
  match algo f with
  | Fnv1a => fnv_double_hash key
  | Xxh3 => xxh3_double_hash key
  end.

(** The position of probe [i]: by the mask, or modulo the bit count (a
    remainder by zero panics). *)
Definition probe (f : BloomFilter) (h1 h2 i : Z) : res Z :=
  match bloom_mask f with
  | Some mask => Ok (Z.land (as_u32 (combined_hash h1 h2 i)) mask)
  | None => if num_bits f =? 0 then Panic else Ok (combined_hash h1 h2 i mod num_bits f)
  end.

(** [0..k]. *)
Definition probes (f : BloomFilter) : list Z := map Z.of_nat (seq 0 (Z.to_nat (bloom_k f))).

Fixpoint add_loop (f : BloomFilter) (h1 h2 : Z) (idx : list Z) (bs : bytes) : res bytes :=
  match idx with
  | [] => Ok bs
  | i :: idx => bit ← probe f h1 h2 i; bs ← set_bit bs bit; add_loop f h1 h2 idx bs
  end.

Definition bloom_add (f : BloomFilter) (key : bytes) : res BloomFilter :=
  let '(h1, h2) := double_hash f key in
  bs ← add_loop f h1 h2 (probes f) (bits f);
  Ok {| bits := bs; num_bits := num_bits f; bloom_k := bloom_k f; bloom_mask := bloom_mask f;
        algo := algo f |}.

Fixpoint contains_loop (f : BloomFilter) (h1 h2 : Z) (idx : list Z) : res bool :=
  match idx with
  | [] => Ok true
  | i :: idx =>
      bit ← probe f h1 h2 i;
      set ← get_bit (bits f) bit;
      if negb set then Ok false else contains_loop f h1 h2 idx
  end.

Definition bloom_contains (f : BloomFilter) (key : bytes) : res bool :=
  if num_bits f =? 0 then Ok true
  else let '(h1, h2) := double_hash f key in contains_loop f h1 h2 (probes f).

(** [num_bits: u32][k: u8][bits]. *)
Definition bloom_write_to (f : BloomFilter) : bytes :=
  be32 (num_bits f) ++ [z2b (bloom_k f)] ++ bits f.

Definition bloom_read_from (r : bytes) (a : HashAlgo) : res (BloomFilter * bytes) :=
  '(buf4, r) ← read_exact r 4;
  let n := from_be buf4 in
  '(buf1, r) ← read_exact r 1;
  let k := from_be buf1 in
  '(bs, r) ← read_exact r (Z.to_nat (div_ceil8 n));
  let mask := if (0 <? n) && is_power_of_two n then Some (n - 1) else None in
  Ok ({| bits := bs; num_bits := n; bloom_k := k; bloom_mask := mask; algo := a |}, r).

Fixpoint bloom_add_all (f : BloomFilter) (keys : list bytes) : res BloomFilter :=
  match keys with
  | [] => Ok f
  | key :: keys => f ← bloom_add f key; bloom_add_all f keys
  end.

(** ** Bits *)

Lemma land_pow2_testbit x n : 0 <= n -> (Z.land x (Z.shiftl 1 n) =? 0) = negb (Z.testbit x n).
Proof.
  intros Hn. rewrite Z.shiftl_1_l.
  destruct (Z.testbit x n) eqn:Et; cbn [negb].
  - apply Z.eqb_neq. intros H. apply (f_equal (fun z => Z.testbit z n)) in H.
    rewrite Z.land_spec, Et, Z.pow2_bits_true, Z.bits_0 in H by done. done.
  - apply Z.eqb_eq, Z.bits_inj'. intros m Hm. rewrite Z.land_spec, Z.bits_0.
    destruct (Z.eq_dec n m) as [<-|Hne]; [by rewrite Et|].
    by rewrite Z.pow2_bits_false, andb_false_r.
Qed.

(** The bit array as a predicate on positions. *)
Definition bit_at (bs : bytes) (bit : Z) : Prop :=
  exists b, bs !! Z.to_nat (bit / 8) = Some b /\ Z.testbit (b2z b) (bit mod 8) = true.

Lemma get_bit_spec bs bit :
  0 <= bit < 8 * len bs ->
  exists r, get_bit bs bit = Ok r /\ (r = true <-> bit_at bs bit).
Proof.
  intros Hb. unfold get_bit, bit_at. unfold len in Hb.
  destruct (lookup_lt_is_Some_2 bs (Z.to_nat (bit / 8))) as [b Eb].
  { pose proof (Z.div_lt_upper_bound bit 8 (Z.of_nat (length bs))). pose proof (Z.div_pos bit 8). lia. }
  rewrite Eb. eexists. split; [done|].
  rewrite land_pow2_testbit by (apply Z.mod_pos_bound; lia). rewrite negb_involutive.
  split; [eauto|]. intros (b' & [= <-] & ?). done.
Qed.

Lemma b2z_lor b n :
  0 <= n < 8 -> b2z (z2b (Z.lor (b2z b) (Z.shiftl 1 n))) = Z.lor (b2z b) (Z.shiftl 1 n).
Proof.
  intros Hn. rewrite b2z_z2b. apply Z.mod_small. pose proof (b2z_range b).
  assert (0 <= Z.shiftl 1 n) by (rewrite Z.shiftl_1_l; lia).
  split; [by apply Z.lor_nonneg; lia|]. change 256 with (2 ^ 8).
  apply Z.log2_lt_cancel. rewrite Z.log2_pow2, Z.log2_lor by lia.
  rewrite Z.shiftl_1_l, Z.log2_pow2 by lia.
  assert (Z.log2 (b2z b) < 8); [|lia].
  destruct (Z.eq_dec (b2z b) 0) as [->|]; [done|]. apply Z.log2_lt_pow2; lia.
Qed.

Lemma set_bit_spec bs bit :
  0 <= bit < 8 * len bs ->
  exists bs', set_bit bs bit = Ok bs' /\ length bs' = length bs /\ bit_at bs' bit /\
    forall j, bit_at bs j -> bit_at bs' j.
Proof.
  intros Hb. unfold set_bit. unfold len in Hb.
  destruct (lookup_lt_is_Some_2 bs (Z.to_nat (bit / 8))) as [b Eb].
  { pose proof (Z.div_lt_upper_bound bit 8 (Z.of_nat (length bs))). pose proof (Z.div_pos bit 8). lia. }
  rewrite Eb. eexists. split; [done|]. pose proof (lookup_lt_Some _ _ _ Eb) as Hlt.
  pose proof (Z.mod_pos_bound bit 8 ltac:(lia)) as Hm.
  split; [apply length_insert|]. split.
  - eexists. split; [by apply list_lookup_insert_eq|]. rewrite b2z_lor, Z.lor_spec by done.
    rewrite Z.shiftl_1_l, Z.pow2_bits_true by lia. apply orb_true_r.
  - intros j (b' & Ej & Ht). destruct (decide (Z.to_nat (bit / 8) = Z.to_nat (j / 8))) as [He|Hne].
    + rewrite <- He, Eb in Ej. injection Ej as <-. eexists. rewrite <- He.
      split; [by apply list_lookup_insert_eq|]. by rewrite b2z_lor, Z.lor_spec, Ht by done.
    + exists b'. split; [by rewrite list_lookup_insert_ne|done].
Qed.

(** ** The filter *)

(** Every position a probe can take is inside the bit array. *)
Definition bloom_ok (f : BloomFilter) : Prop :=
  match bloom_mask f with
  | Some m => exists p, 0 <= p /\ m = Z.ones p /\ 2 ^ p <= 8 * len (bits f)
  | None => 0 < num_bits f <= 8 * len (bits f)
  end.

(** The bits of a key are all set. *)
Definition key_set (f : BloomFilter) (key : bytes) : Prop :=
  forall i bit, In i (probes f) ->
    probe f (double_hash f key).1 (double_hash f key).2 i = Ok bit -> bit_at (bits f) bit.

Lemma probe_ok f h1 h2 i :
  bloom_ok f -> exists bit, probe f h1 h2 i = Ok bit /\ 0 <= bit < 8 * len (bits f).
Proof.
  unfold bloom_ok, probe. destruct (bloom_mask f) as [m|].
  - intros (p & Hp & -> & Hl). eexists. split; [done|]. rewrite Z.land_ones by done.
    pose proof (Z.mod_pos_bound (as_u32 (combined_hash h1 h2 i)) (2 ^ p)). lia.
  - intros H. destruct (Z.eqb_spec (num_bits f) 0); [lia|]. eexists. split; [done|].
    pose proof (Z.mod_pos_bound (combined_hash h1 h2 i) (num_bits f)). lia.
Qed.

Lemma add_loop_spec f h1 h2 idx bs :
  bloom_ok f -> length bs = length (bits f) ->
  exists bs', add_loop f h1 h2 idx bs = Ok bs' /\ length bs' = length bs /\
    (forall j, bit_at bs j -> bit_at bs' j) /\
    (forall i bit, In i idx -> probe f h1 h2 i = Ok bit -> bit_at bs' bit).
Proof.
  intros Hok. revert bs. induction idx as [|i idx IH]; intros bs Hl.
  { exists bs. split_and!; try done. }
  cbn [add_loop]. destruct (probe_ok f h1 h2 i Hok) as (bit & Ep & Hb). rewrite Ep.
  cbn [mbind res_bind].
  destruct (set_bit_spec bs bit) as (b1 & -> & Hl1 & Hs & Hm1); [unfold len in *; lia|].
  cbn [mbind res_bind]. destruct (IH b1) as (b2 & -> & Hl2 & Hm2 & Hp2); [lia|].
  exists b2. split_and!; [done|lia|by auto|].
  intros i' bit' [<-|Hi] Ep'; [|by eauto]. rewrite Ep in Ep'. injection Ep' as <-. auto.
Qed.

Lemma bloom_add_spec f key :
  bloom_ok f -> exists f', bloom_add f key = Ok f' /\ bloom_ok f' /\ key_set f' key /\
    (forall k, key_set f k -> key_set f' k) /\
    length (bits f') = length (bits f) /\ num_bits f' = num_bits f /\ bloom_k f' = bloom_k f /\
    bloom_mask f' = bloom_mask f /\ algo f' = algo f.
Proof.
  intros Hok. unfold bloom_add. destruct (double_hash f key) as [h1 h2] eqn:Eh.
  destruct (add_loop_spec f h1 h2 (probes f) (bits f) Hok eq_refl) as (bs & -> & Hl & Hm & Hp).
  cbn [mbind res_bind]. eexists. split; [done|].
  split_and!; try done.
  - revert Hok. unfold bloom_ok, len. cbn. by rewrite Hl.
  - intros i bit Hi. unfold double_hash. cbn [algo]. fold (double_hash f key). rewrite Eh. cbn.
    unfold probe. cbn. fold (probe f h1 h2 i). eauto.
  - intros k Hk i bit Hi Hpr. apply Hm. by apply (Hk i bit).
Qed.

Lemma contains_of_key_set f key :
  bloom_ok f -> key_set f key -> bloom_contains f key = Ok true.
Proof.
  intros Hok Hk. unfold bloom_contains. destruct (num_bits f =? 0); [done|].
  unfold key_set in Hk. destruct (double_hash f key) as [h1 h2]. cbn [fst snd] in Hk.
  induction (probes f) as [|i idx IH]; [done|]. cbn [contains_loop].
  destruct (probe_ok f h1 h2 i Hok) as (bit & Ep & Hb). rewrite Ep. cbn [mbind res_bind].
  destruct (get_bit_spec (bits f) bit Hb) as (r & -> & Hr). cbn [mbind res_bind].
  rewrite (proj2 Hr) by (eapply Hk; [by left|done]). cbn [negb].
  apply IH. intros i' bit' Hi. apply Hk. by right.
Qed.

Lemma contains_total f key : bloom_ok f -> exists b, bloom_contains f key = Ok b.
Proof.
  intros Hok. unfold bloom_contains. destruct (num_bits f =? 0); [by eexists|].
  destruct (double_hash f key) as [h1 h2]. induction (probes f) as [|i idx IH]; [by eexists|].
  cbn [contains_loop]. destruct (probe_ok f h1 h2 i Hok) as (bit & -> & Hb). cbn [mbind res_bind].
  destruct (get_bit_spec (bits f) bit Hb) as (r & -> & _). cbn [mbind res_bind].
  destruct r; cbn [negb]; [exact IH|by eexists].
Qed.

(** A filter without its bits: what [add] does not change. *)
Definition same_shape (f f' : BloomFilter) : Prop :=
  length (bits f') = length (bits f) /\ num_bits f' = num_bits f /\ bloom_k f' = bloom_k f /\
  bloom_mask f' = bloom_mask f /\ algo f' = algo f.

Lemma bloom_add_all_spec f keys :
  bloom_ok f -> exists f', bloom_add_all f keys = Ok f' /\ bloom_ok f' /\ same_shape f f' /\
    (forall k, In k keys -> key_set f' k) /\ (forall k, key_set f k -> key_set f' k).
Proof.
  revert f. induction keys as [|key keys IH]; intros f Hok.
  { exists f. unfold same_shape. split_and!; try done. }
  cbn [bloom_add_all].
  destruct (bloom_add_spec f key Hok) as (f1 & -> & Hok1 & Hk1 & Hm1 & Hs1). cbn [mbind res_bind].
  destruct (IH f1 Hok1) as (f2 & -> & Hok2 & Hs2 & Hk2 & Hm2). exists f2.
  split_and!; auto.
  - unfold same_shape in *. intuition congruence.
  - intros k [<-|Hk]; auto.
Qed.

(** ** Construction and serialization *)

Lemma as_u32_ones p : 0 <= p -> as_u32 (2 ^ p - 1) = Z.ones (Z.min p 32).
Proof.
  intros Hp. unfold as_u32.
  replace (2 ^ p - 1) with (Z.ones p) by (rewrite Z.ones_equiv; lia).
  rewrite <- Z.land_ones by lia. apply Z.bits_inj'. intros n Hn.
  rewrite !Z.land_spec, !Z.testbit_ones by lia.
  destruct (Z.leb_spec 0 n), (Z.ltb_spec n p), (Z.ltb_spec n 32), (Z.ltb_spec n (Z.min p 32));
    try done; lia.
Qed.

(** The exponent of the bit count. *)
Definition params_log2 (expected_entries bits_per_entry : Z) : Z :=
  Z.log2_up (Z.max (Z.max expected_entries 1 * bits_per_entry) 1).

Lemma len_with_params e b k a :
  len (bits (with_params_and_algo e b k a)) = div_ceil8 (2 ^ params_log2 e b).
Proof.
  unfold with_params_and_algo, len. cbn [bits]. rewrite repeat_length. unfold next_power_of_two.
  fold (params_log2 e b). apply Z2Nat.id. unfold div_ceil8.
  apply Z.div_pos; [|lia]. pose proof (Z.pow_nonneg 2 (params_log2 e b)). lia.
Qed.

Lemma div_ceil8_ge x : x <= 8 * div_ceil8 x.
Proof. unfold div_ceil8. pose proof (Z.mod_pos_bound (x + 7) 8). pose proof (Z.div_mod (x + 7) 8). lia. Qed.

Lemma with_params_ok e b k a : bloom_ok (with_params_and_algo e b k a).
Proof.
  unfold bloom_ok. rewrite len_with_params. cbn [bloom_mask with_params_and_algo].
  assert (Hp : 0 <= params_log2 e b) by apply Z.log2_up_nonneg.
  exists (Z.min (params_log2 e b) 32). split; [lia|].
  split; [unfold next_power_of_two; by apply as_u32_ones|].
  pose proof (div_ceil8_ge (2 ^ params_log2 e b)).
  pose proof (Z.pow_le_mono_r 2 (Z.min (params_log2 e b) 32) (params_log2 e b)). lia.
Qed.

Lemma is_power_of_two_pow p : 0 <= p -> is_power_of_two (2 ^ p) = true.
Proof.
  intros Hp. unfold is_power_of_two. rewrite Z.log2_pow2, Z.eqb_refl by done.
  destruct (Z.ltb_spec 0 (2 ^ p)); [done|]. pose proof (Z.pow_pos_nonneg 2 p). lia.
Qed.

(** Reading back a filter of the shape of a new one: itself, or, when its bit
    count does not fit 32 bits, one that excludes no key. *)
Lemma bloom_round_trip e b k a f rest :
  0 <= k < 256 -> same_shape (with_params_and_algo e b k a) f ->
  exists f' rest', bloom_read_from (bloom_write_to f ++ rest) a = Ok (f', rest') /\
    ((f' = f /\ rest' = rest) \/ num_bits f' = 0).
Proof.
  intros Hk (Hl & Hn & Hk' & Hm & Ha). pose proof (len_with_params e b k a) as Hlen.
  set (p := params_log2 e b) in *. assert (Hp : 0 <= p) by apply Z.log2_up_nonneg.
  cbn [with_params_and_algo num_bits bloom_k bloom_mask algo] in Hn, Hk', Hm, Ha.
  unfold next_power_of_two in Hn, Hm. fold (params_log2 e b) in Hn, Hm. fold p in Hn, Hm.
  unfold bloom_read_from, bloom_write_to. rewrite <- !app_assoc.
  rewrite read_exact_app by apply length_be32. cbn [mbind res_bind].
  rewrite from_be32 by (rewrite Hn; unfold as_u32, is_u32; apply Z.mod_pos_bound; lia).
  rewrite read_exact_app by done. cbn [mbind res_bind].
  assert (Hb : from_be [z2b (bloom_k f)] = bloom_k f).
  { rewrite from_be_cons, b2z_z2b, Hk', Z.mod_small by lia. cbn [length]. change (from_be []) with 0. lia. }
  rewrite Hb. destruct (Z.lt_ge_cases p 32) as [Hp32|Hp32].
  - assert (H2 : 2 ^ p < 2 ^ 32) by (apply Z.pow_lt_mono_r; lia).
    assert (H0 : 0 < 2 ^ p) by (apply Z.pow_pos_nonneg; lia).
    assert (En : num_bits f = 2 ^ p) by (rewrite Hn; apply as_u32_small; unfold is_u32; lia).
    rewrite En. rewrite read_exact_app by (unfold len in Hlen; lia). cbn [mbind res_bind].
    rewrite is_power_of_two_pow by done.
    destruct (Z.ltb_spec 0 (2 ^ p)); [|lia]. cbn [andb]. eexists _, _. split; [done|]. left.
    split; [|done]. rewrite as_u32_small in Hm by (unfold is_u32; lia).
    destruct f. cbn in *. congruence.
  - assert (E0 : num_bits f = 0).
    { rewrite Hn. unfold as_u32. replace p with (p - 32 + 32) by lia.
      rewrite Z.pow_add_r by lia. apply Z.mod_mul. lia. }
    rewrite E0. cbn. eexists _, _. split; [done|]. by right.
Qed.

(** No false negatives.  A filter built with any parameters, to which keys
    were added, answers [true] for every one of them and never indexes outside
    its bits; so does the filter read back from its serialized form. *)
Theorem bloom_no_false_negatives e b k a keys rest :
  0 <= k < 256 ->
  exists f, bloom_add_all (with_params_and_algo e b k a) keys = Ok f /\
    (forall key, In key keys -> bloom_contains f key = Ok true) /\
    exists f' rest', bloom_read_from (bloom_write_to f ++ rest) a = Ok (f', rest') /\
      forall key, In key keys -> bloom_contains f' key = Ok true.
Proof.
  intros Hk. destruct (bloom_add_all_spec _ keys (with_params_ok e b k a))
    as (f & E1 & Hok & Hs & Hin & _).
  exists f. split; [done|]. split; [intros; apply contains_of_key_set; auto|].
  destruct (bloom_round_trip e b k a f rest Hk Hs) as (f' & rest' & E2 & H).
  exists f', rest'. split; [done|]. intros key Hkey. destruct H as [[-> _]|H0].
  - apply contains_of_key_set; auto.
  - unfold bloom_contains. by rewrite H0.
Qed.

End bloom.

Lemma bloom_no_false_negatives_witness :
  exists f, @bloom_add_all toy_extern (with_params_and_algo 2 10 7 Xxh3) [[x61]; [x62; x63]] = Ok f /\
    @bloom_contains toy_extern f [x61] = Ok true /\ @bloom_contains toy_extern f [x64] = Ok false.
Proof.
  destruct (@bloom_no_false_negatives toy_extern 2 10 7 Xxh3 [[x61]; [x62; x63]] []
    ltac:(lia)) as (f & E1 & Hin & _).
  exists f. split; [done|]. split; [apply Hin; by left|].
  vm_compute in E1. injection E1 as <-. by vm_compute.
Defined.
