(* ===== verification/Zone.v ===== *)
(** * Zone maps (crates/rhypedb-storage/src/zone.rs)

    The per-block, per-field bounds an SST keeps for opted-in integer fields:
    the writer's accumulator, the serialized form, the reader's map and the
    test that lets a scan skip a block. *)

From Stdlib Require Import ZArith Lia Bool List Strings.Byte.
From stdpp Require Import base option list countable gmap.
From S2P Require Import Prelude.

Local Open Scope Z_scope.

(** The no-data bounds [(u64::MAX, u64::MIN)]. *)
Definition no_data : Z * Z := (u64_max, 0).

Record ZoneBuilder := {
  zb_idx : gmap Z nat;
  zb_field_ids : list Z;
  zb_bounds : list (list (Z * Z));
}.

Definition zb_new : ZoneBuilder := {| zb_idx := ∅; zb_field_ids := []; zb_bounds := [] |}.

(** The column of a field, allocated on its first value. *)
Definition zb_column (zb : ZoneBuilder) (field_id : Z) : ZoneBuilder * nat :=
  match zb_idx zb !! field_id with
  | Some idx => (zb, idx)
  | None =>
      let idx := length (zb_field_ids zb) in
      ({| zb_idx := <[field_id := idx]> (zb_idx zb); zb_field_ids := zb_field_ids zb ++ [field_id];
          zb_bounds := map (fun block => block ++ [no_data]) (zb_bounds zb) |}, idx)
  end.

(** One value of the loop of [record]; an index out of range would panic. *)
Definition zb_record_value (block_idx : nat) (zb : ZoneBuilder) (field_id : Z) (value : bytes)
    : res ZoneBuilder :=
  let '(zb, field_idx) := zb_column zb field_id in
  let v := from_be value in
  match zb_bounds zb !! block_idx with
  | Some block =>
      match block !! field_idx with
      | Some (cur_min, cur_max) =>
          Ok {| zb_idx := zb_idx zb; zb_field_ids := zb_field_ids zb;
                zb_bounds := <[block_idx :=
                  <[field_idx := (Z.min cur_min v, Z.max cur_max v)]> block]> (zb_bounds zb) |}
      | None => Panic
      end
  | None => Panic
  end.

Fixpoint zb_record_loop (block_idx : nat) (zb : ZoneBuilder) (zone_fields : list (Z * bytes))
    : res ZoneBuilder :=
  match zone_fields with
  | [] => Ok zb
  | (field_id, value) :: rest =>
      zb ← zb_record_value block_idx zb field_id value; zb_record_loop block_idx zb rest
  end.

Definition zb_record (zb : ZoneBuilder) (block_idx : nat) (zone_fields : list (Z * bytes))
    : res ZoneBuilder :=
  let missing := (S block_idx - length (zb_bounds zb))%nat in
  let grown := zb_bounds zb ++ repeat (repeat no_data (length (zb_field_ids zb))) missing in
  zb_record_loop block_idx
    {| zb_idx := zb_idx zb; zb_field_ids := zb_field_ids zb; zb_bounds := grown |} zone_fields.

Definition zb_write_to (zb : ZoneBuilder) : bytes :=
  be32 (as_u32 (Z.of_nat (length (zb_bounds zb))))
    ++ be32 (as_u32 (Z.of_nat (length (zb_field_ids zb))))
    ++ concat (map be32 (zb_field_ids zb))
    ++ concat (map (fun block => concat (map (fun b => be64 (fst b) ++ be64 (snd b)) block))
                   (zb_bounds zb)).

Record ZoneMap := {
  zm_idx : gmap Z nat;
  zm_num_fields : nat;
  zm_bounds : list Z;
}.

Definition zm_default : ZoneMap := {| zm_idx := ∅; zm_num_fields := 0; zm_bounds := [] |}.

(** Every read error is reported as a corrupt zone map. *)
Definition zm_read (r : bytes) (n : nat) : res (Z * bytes) :=
  match read_exact r n with
  | Ok (buf, r) => Ok (from_be buf, r)
  | _ => Err SstCorrupted
  end.

Fixpoint zm_read_ids (n idx : nat) (m : gmap Z nat) (r : bytes) : res (gmap Z nat * bytes) :=
  match n with
  | O => Ok (m, r)
  | S n' => '(id, r) ← zm_read r 4; zm_read_ids n' (S idx) (<[id := idx]> m) r
  end.

Fixpoint zm_read_bounds (n : nat) (r : bytes) : res (list Z * bytes) :=
  match n with
  | O => Ok ([], r)
  | S n' => '(v, r) ← zm_read r 8; '(vs, r) ← zm_read_bounds n' r; Ok (v :: vs, r)
  end.

(** The number of bounds is computed in [usize], and a vector of more than
    [isize::MAX] bytes cannot be reserved. *)
Definition zm_read_from (r : bytes) : res (ZoneMap * bytes) :=
  '(num_blocks, r) ← zm_read r 4;
  '(num_fields, r) ← zm_read r 4;
  '(idx, r) ← zm_read_ids (Z.to_nat num_fields) 0 ∅ r;
  let bound_count := as_u64 (as_u64 (num_blocks * num_fields) * 2) in
  if 2 ^ 63 <=? bound_count * 8 then Panic
  else
    '(bounds, r) ← zm_read_bounds (Z.to_nat bound_count) r;
    Ok ({| zm_idx := idx; zm_num_fields := Z.to_nat num_fields; zm_bounds := bounds |}, r).

Definition zm_num_blocks (zm : ZoneMap) : nat :=
  match zm_num_fields zm with
  | O => length (zm_bounds zm)
  | n => (length (zm_bounds zm) / (n * 2))%nat
  end.

Definition zm_bounds_at (zm : ZoneMap) (block_idx : nat) (field_id : Z) : option (Z * Z) :=
  match zm_idx zm !! field_id with
  | None => None
  | Some field_idx =>
      let pos := ((block_idx * zm_num_fields zm + field_idx) * 2)%nat in
      if (length (zm_bounds zm) <=? pos + 1)%nat then None
      else
        match zm_bounds zm !! pos, zm_bounds zm !! (pos + 1)%nat with
        | Some mn, Some mx => Some (mn, mx)
        | _, _ => None
        end
  end.

Inductive CompareOp := OpEq | OpNe | OpLt | OpLe | OpGt | OpGe.

Record FieldPredicate := {
  fp_field_id : Z;
  fp_op : CompareOp;
  fp_target : Z;
}.

Definition block_could_match (zm : ZoneMap) (block_idx : nat) (field_id : Z) (op : CompareOp)
    (target : Z) : bool :=
  match zm_bounds_at zm block_idx field_id with
  | None => true
  | Some (mn, mx) =>
      if mx <? mn then true
      else match op with
      | OpEq => (mn <=? target) && (target <=? mx)
      | OpNe => true
      | OpLt => mn <? target
      | OpLe => mn <=? target
      | OpGt => target <? mx
      | OpGe => target <=? mx
      end
  end.

(** ** The accumulator *)

(** A recorded entry: its block and its field values. *)
Abbreviation zrec := (nat * list (Z * bytes))%type.

Fixpoint zb_record_all (zb : ZoneBuilder) (recs : list zrec) : res ZoneBuilder :=
  match recs with
  | [] => Ok zb
  | (b, fs) :: recs => zb ← zb_record zb b fs; zb_record_all zb recs
  end.

(** The bounds of a field in a block of the accumulator. *)
Definition zb_at (zb : ZoneBuilder) (block_idx : nat) (field_id : Z) : option (Z * Z) :=
  match zb_idx zb !! field_id, zb_bounds zb !! block_idx with
  | Some i, Some block => block !! i
  | _, _ => None
  end.

(** The table is rectangular and the index is the inverse of the id list. *)
Record zb_wf (zb : ZoneBuilder) : Prop := {
  zbw_idx : forall f i, zb_idx zb !! f = Some i <-> zb_field_ids zb !! i = Some f;
  zbw_rect : Forall (fun block => length block = length (zb_field_ids zb)) (zb_bounds zb);
}.

(** Widening the bounds [b] by a value. *)
Definition widen (b : Z * Z) (v : Z) : Z * Z := (Z.min (fst b) v, Z.max (snd b) v).

Definition zb_get (zb : ZoneBuilder) (block_idx : nat) (field_id : Z) : Z * Z :=
  default no_data (zb_at zb block_idx field_id).

Lemma zb_column_wf zb f :
  zb_wf zb -> let '(zb', i) := zb_column zb f in
  zb_wf zb' /\ zb_idx zb' !! f = Some i /\ length (zb_bounds zb') = length (zb_bounds zb).
Proof.
  intros [Hi Hr]. unfold zb_column. destruct (zb_idx zb !! f) as [i|] eqn:Ef; [done|].
  split_and!; cbn; [|apply lookup_insert_eq|apply length_map]. split; cbn.
  - intros g i. rewrite lookup_insert_Some, lookup_app_Some, list_lookup_singleton_Some, Hi.
    split; [intros [[-> <-]|[? ?]]; [right; split; [lia|split; [lia|done]]|by left]|].
    intros [H|(Hl & Hz & <-)]; [right|left; split; [done|lia]]. split; [|done].
    intros <-. apply Hi in H. congruence.
  - rewrite length_app. cbn. apply Forall_fmap. eapply Forall_impl; [exact Hr|].
    intros block Hb. cbn. rewrite length_app, Hb. done.
Qed.

(** A new column holds no data. *)
Lemma zb_column_get zb f b g : zb_wf zb -> zb_get (zb_column zb f).1 b g = zb_get zb b g.
Proof.
  intros [Hi Hr]. unfold zb_column. destruct (zb_idx zb !! f) as [i|] eqn:Ef; [done|].
  unfold zb_get, zb_at. cbn. change (map ?h ?l) with (h <$> l). rewrite list_lookup_fmap.
  destruct (decide (f = g)) as [<-|Hne].
  - rewrite lookup_insert_eq, Ef. destruct (zb_bounds zb !! b) as [block|] eqn:Eb; [|done]. cbn.
    pose proof (Forall_lookup_1 _ _ _ _ Hr Eb) as Hl. cbn in Hl. rewrite <- Hl.
    by rewrite lookup_app_r, Nat.sub_diag by lia.
  - rewrite lookup_insert_ne by done. destruct (zb_idx zb !! g) as [i|] eqn:Eg; [|done].
    destruct (zb_bounds zb !! b) as [block|] eqn:Eb; [|done]. cbn.
    pose proof (Forall_lookup_1 _ _ _ _ Hr Eb) as Hl. cbn in Hl.
    rewrite lookup_app_l; [done|]. rewrite Hl. by apply Hi, lookup_lt_Some in Eg.
Qed.

Lemma zb_record_value_spec b zb f bs :
  zb_wf zb -> (b < length (zb_bounds zb))%nat ->
  exists zb', zb_record_value b zb f bs = Ok zb' /\ zb_wf zb' /\
    length (zb_bounds zb') = length (zb_bounds zb) /\
    forall b' g, zb_get zb' b' g =
      if decide (b' = b /\ g = f) then widen (zb_get zb b g) (from_be bs) else zb_get zb b' g.
Proof.
  intros Hw Hb. unfold zb_record_value. pose proof (zb_column_wf zb f Hw) as Hc.
  pose proof (fun b' g => zb_column_get zb f b' g Hw) as Hg.
  destruct (zb_column zb f) as [zc i]. destruct Hc as ([Hi Hr] & Ei & El). cbn [fst] in Hg.
  destruct (lookup_lt_is_Some_2 (zb_bounds zc) b ltac:(lia)) as [block Eb]. rewrite Eb.
  pose proof (Forall_lookup_1 _ _ _ _ Hr Eb) as Hl. cbn in Hl.
  destruct (lookup_lt_is_Some_2 block i) as [[mn mx] Ex].
  { rewrite Hl. apply (lookup_lt_Some _ _ f), Hi, Ei. }
  rewrite Ex. eexists. split; [done|]. cbn [zb_bounds]. rewrite length_insert. split_and!; [|done|].
  - split; cbn; [done|]. apply Forall_insert; [done|]. by rewrite length_insert.
  - intros b' g. rewrite <- !Hg. unfold zb_get, zb_at. cbn.
    destruct (zb_idx zc !! g) as [j|] eqn:Eg.
    2: { destruct (decide _) as [[-> ->]|_]; [congruence|done]. }
    pose proof (lookup_lt_Some _ _ _ Eb). pose proof (lookup_lt_Some _ _ _ Ex).
    destruct (decide (b' = b)) as [->|Hne].
    + rewrite list_lookup_insert_eq, Eb by done. destruct (decide (g = f)) as [->|Hgf].
      * rewrite decide_True by done. assert (j = i) as -> by congruence.
        by rewrite list_lookup_insert_eq, Ex by done.
      * rewrite decide_False by tauto. rewrite list_lookup_insert_ne; [done|].
        intros ->. apply Hi in Ei, Eg. congruence.
    + rewrite decide_False by tauto. by rewrite list_lookup_insert_ne by done.
Qed.

(** The values recorded for a field in a block. *)
Definition zvals (b : nat) (f : Z) (recs : list zrec) : list Z :=
  concat (map (fun r => if decide (fst r = b) then
    map (fun x => from_be (snd x)) (filter (fun x => fst x = f) (snd r)) else []) recs).

Lemma zb_record_loop_spec b zb fs :
  zb_wf zb -> (b < length (zb_bounds zb))%nat ->
  exists zb', zb_record_loop b zb fs = Ok zb' /\ zb_wf zb' /\
    length (zb_bounds zb') = length (zb_bounds zb) /\
    forall b' g, zb_get zb' b' g = fold_left widen (zvals b' g [(b, fs)]) (zb_get zb b' g).
Proof.
  revert zb. induction fs as [|[f bs] fs IH]; intros zb Hw Hb.
  { exists zb. split_and!; try done. intros b' g. unfold zvals. cbn. by destruct (decide _). }
  cbn [zb_record_loop].
  destruct (zb_record_value_spec b zb f bs Hw Hb) as (z1 & -> & Hw1 & Hl1 & Hg1).
  cbn [mbind res_bind]. destruct (IH z1 Hw1 ltac:(lia)) as (z2 & -> & Hw2 & Hl2 & Hg2).
  exists z2. split_and!; [done|done|lia|]. intros b' g. rewrite Hg2, Hg1. unfold zvals. cbn [map concat fst snd].
  rewrite !app_nil_r. destruct (decide (b = b')) as [<-|Hne].
  - rewrite filter_cons. cbn [fst]. destruct (decide (f = g)) as [<-|Hfg].
    + by rewrite decide_True by done.
    + by rewrite decide_False by naive_solver.
  - by rewrite decide_False by naive_solver.
Qed.

Lemma zb_record_spec b zb fs :
  zb_wf zb -> exists zb', zb_record zb b fs = Ok zb' /\ zb_wf zb' /\
    length (zb_bounds zb') = Nat.max (length (zb_bounds zb)) (S b) /\
    forall b' g, zb_get zb' b' g = fold_left widen (zvals b' g [(b, fs)]) (zb_get zb b' g).
Proof.
  intros [Hi Hr]. unfold zb_record. set (missing := (S b - length (zb_bounds zb))%nat).
  set (zg := {| zb_idx := zb_idx zb; zb_field_ids := _; zb_bounds := _ |}).
  assert (Hwg : zb_wf zg).
  { split; cbn; [done|]. apply Forall_app. split; [done|]. apply List.Forall_forall.
    intros x Hx%repeat_spec. subst x. apply repeat_length. }
  assert (Hlg : length (zb_bounds zg) = Nat.max (length (zb_bounds zb)) (S b))
    by (cbn; rewrite length_app, repeat_length; lia).
  destruct (zb_record_loop_spec b zg fs Hwg ltac:(lia)) as (z' & -> & Hw' & Hl' & Hg').
  exists z'. split_and!; [done|done|lia|]. intros b' g. rewrite Hg'. f_equal.
  unfold zb_get, zb_at. cbn. destruct (zb_idx zb !! g) as [i|] eqn:Eg; [|done].
  destruct (zb_bounds zb !! b') as [block|] eqn:Eb; [by erewrite lookup_app_l_Some by done|].
  rewrite lookup_app_r by by apply lookup_ge_None_1.
  destruct (repeat _ missing !! _) as [blk|] eqn:Ek; [|done].
  apply list_elem_of_lookup_2, list_elem_of_In, repeat_spec in Ek. subst blk.
  destruct (repeat no_data _ !! i) as [x|] eqn:Ex; [|done].
  apply list_elem_of_lookup_2, list_elem_of_In, repeat_spec in Ex. by subst x.
Qed.

Lemma zb_record_all_spec zb recs :
  zb_wf zb -> exists zb', zb_record_all zb recs = Ok zb' /\ zb_wf zb' /\
    forall b g, zb_get zb' b g = fold_left widen (zvals b g recs) (zb_get zb b g).
Proof.
  revert zb. induction recs as [|[b fs] recs IH]; intros zb Hw; [by exists zb|].
  cbn [zb_record_all]. destruct (zb_record_spec b zb fs Hw) as (z1 & -> & Hw1 & _ & Hg1).
  cbn [mbind res_bind]. destruct (IH z1 Hw1) as (z2 & -> & Hw2 & Hg2). exists z2.
  split_and!; [done|done|]. intros b' g. rewrite Hg2, Hg1, <- fold_left_app. f_equal.
  unfold zvals. cbn [map concat]. by rewrite app_nil_r.
Qed.

Lemma zb_new_wf : zb_wf zb_new.
Proof. split; [|constructor]. intros f i. cbn. by rewrite lookup_empty, lookup_nil. Qed.

Lemma widen_bounds vs x :
  let b := fold_left widen vs x in
  fst b <= fst x /\ snd x <= snd b /\ (forall v, In v vs -> fst b <= v <= snd b).
Proof.
  revert x. induction vs as [|v vs IH]; intros x; cbn [fold_left]; [by split_and!|].
  destruct (IH (widen x v)) as (H1 & H2 & H3). unfold widen in *. cbn [fst snd] in *.
  split_and!; [lia|lia|]. intros v' [<-|Hv]; [lia|auto].
Qed.

(** ** The serialized form *)

Lemma concat_lookup {A} n (ls : list (list A)) b i :
  Forall (fun l => length l = n) ls -> (i < n)%nat ->
  concat ls !! (b * n + i)%nat = match ls !! b with Some l => l !! i | None => None end.
Proof.
  intros H Hi. revert b. induction H as [|l ls Hl _ IH]; intros b; [by rewrite !lookup_nil|].
  cbn [concat]. destruct b as [|b].
  - cbn. by rewrite lookup_app_l by lia.
  - rewrite lookup_app_r by (cbn; lia). cbn [list_lookup lookup].
    replace (S b * n + i - length l)%nat with (b * n + i)%nat by (cbn; lia). apply IH.
Qed.

Definition flat_bounds (zb : ZoneBuilder) : list Z :=
  concat (map (fun p => [fst p; snd p]) (concat (zb_bounds zb))).

Lemma pairs_lookup (ps : list (Z * Z)) k :
  concat (map (fun p => [fst p; snd p]) ps) !! (k * 2)%nat = fst <$> ps !! k /\
  concat (map (fun p => [fst p; snd p]) ps) !! (k * 2 + 1)%nat = snd <$> ps !! k.
Proof.
  revert k. induction ps as [|p ps IH]; intros k; [by rewrite !lookup_nil|].
  destruct k as [|k]; [done|]. cbn [map concat Nat.mul Nat.add app].
  destruct (IH k) as [H1 H2]. split; [exact H1|exact H2].
Qed.

Lemma length_pairs (ps : list (Z * Z)) :
  length (concat (map (fun p => [fst p; snd p]) ps)) = (2 * length ps)%nat.
Proof. induction ps; cbn in *; lia. Qed.

Lemma length_concat_rect {A} n (ls : list (list A)) :
  Forall (fun l => length l = n) ls -> length (concat ls) = (length ls * n)%nat.
Proof. induction 1; cbn; [done|]. rewrite length_app. lia. Qed.

(** Sizes that the format can represent. *)
Definition zb_sized (zb : ZoneBuilder) : Prop :=
  is_u32 (Z.of_nat (length (zb_bounds zb))) /\ is_u32 (Z.of_nat (length (zb_field_ids zb))) /\
  Z.of_nat (length (zb_bounds zb)) * Z.of_nat (length (zb_field_ids zb)) * 16 < 2 ^ 63 /\
  Forall is_u32 (zb_field_ids zb) /\
  Forall (Forall (fun b => is_u64 (fst b) /\ is_u64 (snd b))) (zb_bounds zb).

Lemma zm_read_be32 x r : is_u32 x -> zm_read (be32 x ++ r) 4 = Ok (x, r).
Proof. intros H. unfold zm_read. rewrite read_exact_app by done. by rewrite from_be32. Qed.

Lemma zm_read_be64 x r : is_u64 x -> zm_read (be64 x ++ r) 8 = Ok (x, r).
Proof. intros H. unfold zm_read. rewrite read_exact_app by done. by rewrite from_be64. Qed.

Lemma zm_read_ids_spec ids idx m r :
  Forall is_u32 ids -> NoDup ids -> (forall f, f ∈ ids -> m !! f = None) ->
  exists m', zm_read_ids (length ids) idx m (concat (map be32 ids) ++ r) = Ok (m', r) /\
    forall f j, m' !! f = Some j <-> m !! f = Some j \/ (idx <= j /\ ids !! (j - idx) = Some f)%nat.
Proof.
  revert idx m. induction ids as [|id ids IH]; intros idx m Hu Hnd Hm.
  { exists m. split; [done|]. intros f j. rewrite lookup_nil. naive_solver. }
  inversion Hu; subst. inversion Hnd as [|? ? Hni Hnd']; subst.
  cbn [map concat length zm_read_ids]. rewrite <- app_assoc, zm_read_be32 by done.
  cbn [mbind res_bind]. destruct (IH (S idx) (<[id := idx]> m)) as (m' & -> & Hm'); try done.
  { intros f Hf. rewrite lookup_insert_ne by (intros ->; done). apply Hm. by right. }
  exists m'. split; [done|]. intros f j. rewrite Hm', lookup_insert_Some.
  destruct (decide (j = idx)) as [->|Hj].
  - rewrite Nat.sub_diag. cbn. split.
    + intros [[[-> _]|[? ?]]|[? ?]]; [right; by split|by left|lia].
    + intros [H|[_ [= ->]]]; [|by left; left].
      left. right. split; [|done]. intros ->. rewrite Hm in H by left. done.
  - destruct (j - idx)%nat as [|n] eqn:En.
    + split; [intros [[[? ?]|[? ?]]|[? ?]]; [lia|by left|lia]|].
      intros [H|[? ?]]; [|lia]. left; right. split; [|done]. intros ->. by rewrite Hm in H by left.
    + replace (j - S idx)%nat with n by lia. cbn. split.
      * intros [[[? ?]|[? ?]]|[? ?]]; [lia|by left|right; split; [lia|done]].
      * intros [H|[? ?]]; [left; right|right; split; [lia|done]].
        split; [|done]. intros ->. by rewrite Hm in H by left.
Qed.

Lemma zm_read_bounds_spec ps r :
  Forall (fun b => is_u64 (fst b) /\ is_u64 (snd b)) ps ->
  zm_read_bounds (2 * length ps) (concat (map (fun b => be64 (fst b) ++ be64 (snd b)) ps) ++ r)
  = Ok (concat (map (fun p => [fst p; snd p]) ps), r).
Proof.
  induction 1 as [|p ps [H1 H2] _ IH]; [done|]. cbn [length map concat].
  replace (2 * S (length ps))%nat with (S (S (2 * length ps))) by lia.
  cbn [zm_read_bounds]. rewrite <- !app_assoc.
  rewrite zm_read_be64 by done. cbn [mbind res_bind].
  rewrite zm_read_be64 by done. cbn [mbind res_bind]. by rewrite IH.
Qed.

(** Reading back a written zone map gives the accumulator's bounds. *)
Lemma zone_round_trip zb rest :
  zb_wf zb -> zb_sized zb ->
  exists zm, zm_read_from (zb_write_to zb ++ rest) = Ok (zm, rest) /\
    forall b f, zm_bounds_at zm b f = zb_at zb b f.
Proof.
  intros [Hi Hr] (Hb & Hf & Hs & Hids & Hbs). unfold zm_read_from, zb_write_to.
  rewrite <- !app_assoc, !as_u32_small by done. rewrite !zm_read_be32 by done.
  cbn [mbind res_bind]. rewrite zm_read_be32 by done. cbn [mbind res_bind]. rewrite Nat2Z.id.
  assert (Hnd : NoDup (zb_field_ids zb)).
  { apply NoDup_alt. intros i j f Ei Ej. apply Hi in Ei, Ej. congruence. }
  destruct (zm_read_ids_spec (zb_field_ids zb) 0 ∅ (concat (map (fun block => concat
    (map (fun b => be64 (fst b) ++ be64 (snd b)) block)) (zb_bounds zb)) ++ rest) Hids Hnd)
    as (m & -> & Hm); [by intros; apply lookup_empty|].
  cbn [mbind res_bind]. unfold is_u32 in *.
  set (nb := length (zb_bounds zb)) in *. set (nf := length (zb_field_ids zb)) in *.
  assert (0 <= Z.of_nat nb * Z.of_nat nf) by (apply Z.mul_nonneg_nonneg; lia).
  rewrite (as_u64_small (Z.of_nat nb * Z.of_nat nf)), as_u64_small by (unfold is_u64; lia).
  destruct (Z.leb_spec (2 ^ 63) (Z.of_nat nb * Z.of_nat nf * 2 * 8)); [lia|].
  pose proof (length_concat_rect nf _ Hr) as Hlen. fold nb in Hlen.
  replace (Z.to_nat (Z.of_nat nb * Z.of_nat nf * 2)) with (2 * length (concat (zb_bounds zb)))%nat by lia.
  assert (Ec : concat (map (fun block => concat (map (fun b => be64 (fst b) ++ be64 (snd b)) block))
      (zb_bounds zb)) = concat (map (fun b => be64 (fst b) ++ be64 (snd b)) (concat (zb_bounds zb)))).
  { clear. induction (zb_bounds zb) as [|x l IH]; [done|]. cbn. by rewrite map_app, concat_app, IH. }
  rewrite Ec, zm_read_bounds_spec by by apply Forall_concat.
  cbn [mbind res_bind]. eexists. split; [done|]. intros b f. unfold zm_bounds_at, zb_at. cbn.
  assert (Em : m !! f = zb_idx zb !! f).
  { apply option_eq. intros j. rewrite Hm, Hi, Nat.sub_0_r, lookup_empty. naive_solver lia. }
  rewrite Em. destruct (zb_idx zb !! f) as [i|] eqn:Ei; [|done].
  assert (Hin : (i < nf)%nat) by by apply Hi, lookup_lt_Some in Ei.
  rewrite length_pairs. destruct (pairs_lookup (concat (zb_bounds zb)) (b * nf + i)) as [-> ->].
  rewrite (concat_lookup nf _ b i Hr Hin). fold nb. rewrite Hlen.
  destruct (zb_bounds zb !! b) as [block|] eqn:Eb.
  - pose proof (lookup_lt_Some _ _ _ Eb : (b < nb)%nat).
    destruct (Nat.leb_spec (2 * (nb * nf)) ((b * nf + i) * 2 + 1)); [nia|].
    by destruct (block !! i) as [[mn mx]|].
  - by destruct (_ <=? _)%nat.
Qed.

(** ** Skipping blocks *)

Definition op_holds (op : CompareOp) (v target : Z) : bool :=
  match op with
  | OpEq => v =? target
  | OpNe => negb (v =? target)
  | OpLt => v <? target
  | OpLe => v <=? target
  | OpGt => target <? v
  | OpGe => target <=? v
  end.

Lemma could_match_sound zm b f mn mx op v target :
  zm_bounds_at zm b f = Some (mn, mx) -> mn <= v <= mx -> op_holds op v target = true ->
  block_could_match zm b f op target = true.
Proof.
  intros E Hv Ho. unfold block_could_match. rewrite E.
  destruct (Z.ltb_spec mx mn); [lia|]. destruct op; cbn in *; lia.
Qed.

Lemma zone_map_facts recs zb rest :
  zb_record_all zb_new recs = Ok zb -> zb_sized zb ->
  exists zm, zm_read_from (zb_write_to zb ++ rest) = Ok (zm, rest) /\
    (forall b f x, zm_bounds_at zm b f = Some x -> x = fold_left widen (zvals b f recs) no_data) /\
    forall b f v op target, In v (zvals b f recs) -> op_holds op v target = true ->
      block_could_match zm b f op target = true.
Proof.
  intros Hz Hs. destruct (zb_record_all_spec zb_new recs zb_new_wf) as (zb' & E & Hw & Hg).
  rewrite Hz in E. injection E as <-. destruct (zone_round_trip zb rest Hw Hs) as (zm & E & Hat).
  exists zm. split; [done|].
  assert (Hx : forall b f x, zm_bounds_at zm b f = Some x ->
    x = fold_left widen (zvals b f recs) no_data).
  { intros b f x Hx. rewrite Hat in Hx. specialize (Hg b f). unfold zb_get in Hg at 1.
    rewrite Hx in Hg. exact Hg. }
  split; [done|]. intros b f v op target Hv Ho.
  destruct (zm_bounds_at zm b f) as [[mn mx]|] eqn:Eb.
  - eapply could_match_sound; [done| |done]. apply Hx in Eb.
    destruct (widen_bounds (zvals b f recs) no_data) as (_ & _ & H). rewrite <- Eb in H. by apply H.
  - unfold block_could_match. by rewrite Eb.
Qed.

(** Zone maps never hide a match.  Record any entries, write the map, read
    it back: if an entry of block [b] recorded value [v] for field [f] and [v]
    satisfies the predicate, the block is not skipped; and the bounds kept for
    the block are exactly the minimum and maximum of the values recorded. *)
Theorem zone_map_sound recs zb rest :
  zb_record_all zb_new recs = Ok zb -> zb_sized zb ->
  exists zm, zm_read_from (zb_write_to zb ++ rest) = Ok (zm, rest) /\
    (forall b f x, zm_bounds_at zm b f = Some x -> x = fold_left widen (zvals b f recs) no_data) /\
    forall b f v op target, In v (zvals b f recs) -> op_holds op v target = true ->
      block_could_match zm b f op target = true.
Proof. apply zone_map_facts. Qed.

Definition zone_ex : list zrec :=
  [(0%nat, [(7, be64 10); (9, be64 3)]); (0%nat, [(7, be64 20)]); (1%nat, [(7, be64 50)])].

Lemma zone_map_sound_witness :
  exists zb zm, zb_record_all zb_new zone_ex = Ok zb /\
    zm_read_from (zb_write_to zb ++ []) = Ok (zm, []) /\
    block_could_match zm 0 7 OpGt 15 = true /\ block_could_match zm 0 7 OpGt 20 = false.
Proof.
  destruct (zb_record_all zb_new zone_ex) as [zb|e|] eqn:E; vm_compute in E; try discriminate E.
  exists zb. assert (Hs : zb_sized zb).
  { injection E as <-. unfold zb_sized, is_u32, is_u64. cbn. repeat constructor; cbn; lia. }
  destruct (zone_map_sound zone_ex zb [] E Hs) as (zm & Er & _ & H). exists zm.
  split; [done|]. split; [done|]. split; [apply (H _ _ 20); [vm_compute; auto|done]|].
  injection E as <-. vm_compute in Er. injection Er as <-. by vm_compute.
Defined.
