(* ===== verification/Sst.v ===== *)
(** * The SST writer (crates/rhypedb-storage/src/sst.rs, [SstWriter])

    The sorted-table file: a header, the data region in blocks of 16 entries
    (verbatim in format v5, one LZ4 or raw frame per block in v6), the sparse
    index, the zone map, the bloom filter and the footer.  The writer's file
    is the list of bytes written so far; [finish] returns the complete file.
    How the temporary file is published is part of the tree. *)

From Stdlib Require Import ZArith Lia Bool List Strings.Byte.
From stdpp Require Import base option list.
From S2P Require Import Prelude ByteMap Keys Versioned Extern Bloom Zone.

Local Open Scope Z_scope.
Local Open Scope bytes_scope.

(** ["RSST"]. *)
Definition SST_MAGIC : bytes := [x52; x53; x53; x54].

Definition SST_VERSION_UNCOMPRESSED : Z := 5.
Definition SST_VERSION_COMPRESSED : Z := 6.
Definition SST_VERSION_MAX : Z := 6.

Definition BLOCK_FRAME_HEADER : Z := 1 + 4 + 4.
Definition BLOCK_FLAG_RAW : byte := x00.
Definition BLOCK_FLAG_LZ4 : byte := x01.
Definition MAX_BLOCK_UNCOMP_LEN : Z := 64 * 1024 * 1024.

Inductive SstCompression := CompressNone | CompressLz4.

Definition FOOTER_V1_SIZE : Z := 8 + 4 + 4.
Definition FOOTER_V2_SIZE : Z := 8 + 4 + 8 + 4 + 4.
Definition FOOTER_V4_SIZE : Z := 8 + 4 + FOOTER_V2_SIZE.

Definition TOMBSTONE_MARKER : Z := 2 ^ 32 - 1.
Definition ENTRIES_PER_BLOCK : nat := 16.

Record IndexEntry := { ie_key : bytes; ie_offset : Z }.

(** The closure that extracts zone fields from a key and a value. *)
Abbreviation ZoneFieldExtractor := (bytes -> bytes -> list (Z * bytes)).

Record SstWriter := {
  w_out : bytes;
  w_index : list IndexEntry;
  w_current_offset : Z;
  w_entry_count : nat;
  w_user_keys : list bytes;
  w_zone_extractor : option ZoneFieldExtractor;
  w_zone_builder : ZoneBuilder;
  w_compression : SstCompression;
  w_block_buf : bytes;
}.

Definition sst_version (c : SstCompression) : Z :=
  match c with
  | CompressNone => SST_VERSION_UNCOMPRESSED
  | CompressLz4 => SST_VERSION_COMPRESSED
  end.

Definition new_with_options (ext : option ZoneFieldExtractor) (c : SstCompression) : SstWriter :=
  {| w_out := SST_MAGIC ++ be32 (sst_version c); w_index := [];
     w_current_offset := len SST_MAGIC + 4; w_entry_count := 0; w_user_keys := [];
     w_zone_extractor := ext; w_zone_builder := zb_new; w_compression := c; w_block_buf := [] |}.

(** The bytes of one entry. *)
Definition enc_entry (e : entry) : bytes :=
  let '(value_len, value_bytes) :=
    match snd e with
    | Some v => (as_u32 (len v), v)
    | None => (TOMBSTONE_MARKER, [])
    end in
  be32 (as_u32 (len (fst e))) ++ be32 value_len ++ fst e ++ value_bytes.

Section writer.
Context {E : Extern}.

(** What [flush_block] writes for a non-empty buffer. *)
Definition block_frame (c : SstCompression) (block_buf : bytes) : bytes :=
  match c with
  | CompressNone => block_buf
  | CompressLz4 =>
      let uncomp_len := len block_buf in
      let compressed := lz4_compress block_buf in
      if len compressed <? uncomp_len
      then [BLOCK_FLAG_LZ4] ++ be32 (as_u32 uncomp_len) ++ be32 (as_u32 (len compressed)) ++ compressed
      else [BLOCK_FLAG_RAW] ++ be32 (as_u32 uncomp_len) ++ be32 (as_u32 uncomp_len) ++ block_buf
  end.

Definition flush_block (w : SstWriter) : SstWriter :=
  match w_block_buf w with
  | [] => w
  | _ :: _ =>
      let frame := block_frame (w_compression w) (w_block_buf w) in
      {| w_out := w_out w ++ frame; w_index := w_index w;
         w_current_offset := w_current_offset w + len frame; w_entry_count := w_entry_count w;
         w_user_keys := w_user_keys w; w_zone_extractor := w_zone_extractor w;
         w_zone_builder := w_zone_builder w; w_compression := w_compression w; w_block_buf := [] |}
  end.

(** The block boundary: flush the full block and index the next one. *)
Definition start_block (w : SstWriter) (internal_key : bytes) : SstWriter :=
  let w := flush_block w in
  {| w_out := w_out w;
     w_index := w_index w ++ [{| ie_key := internal_key; ie_offset := w_current_offset w |}];
     w_current_offset := w_current_offset w; w_entry_count := w_entry_count w;
     w_user_keys := w_user_keys w; w_zone_extractor := w_zone_extractor w;
     w_zone_builder := w_zone_builder w; w_compression := w_compression w;
     w_block_buf := w_block_buf w |}.

(** The zone fields of an entry, recorded in its block. *)
Definition add_zone (w : SstWriter) (e : entry) : res ZoneBuilder :=
  match w_zone_extractor w, snd e with
  | Some extractor, Some value_bytes =>
      match extractor (fst e) value_bytes with
      | [] => Ok (w_zone_builder w)
      | zone_fields =>
          zb_record (w_zone_builder w) (w_entry_count w / ENTRIES_PER_BLOCK) zone_fields
      end
  | _, _ => Ok (w_zone_builder w)
  end.

(** The user key, unless it repeats the last one. *)
Definition add_user_key (user_keys : list bytes) (internal_key : bytes) : list bytes :=
  if (8 <=? length internal_key)%nat then
    let user_key := InternalKey.user_key internal_key in
    match last user_keys with
    | Some prev => if beqb prev user_key then user_keys else user_keys ++ [user_key]
    | None => user_keys ++ [user_key]
    end
  else user_keys.

Definition writer_add (w : SstWriter) (e : entry) : res SstWriter :=
  let w := if (w_entry_count w mod ENTRIES_PER_BLOCK =? 0)%nat then start_block w (fst e) else w in
  zone ← add_zone w e;
  Ok {| w_out := w_out w; w_index := w_index w; w_current_offset := w_current_offset w;
        w_entry_count := S (w_entry_count w); w_user_keys := add_user_key (w_user_keys w) (fst e);
        w_zone_extractor := w_zone_extractor w; w_zone_builder := zone;
        w_compression := w_compression w; w_block_buf := w_block_buf w ++ enc_entry e |}.

Fixpoint writer_add_all (w : SstWriter) (es : list entry) : res SstWriter :=
  match es with
  | [] => Ok w
  | e :: es => w ← writer_add w e; writer_add_all w es
  end.

Definition enc_index (index : list IndexEntry) : bytes :=
  concat (map (fun e => be32 (as_u32 (len (ie_key e))) ++ ie_key e ++ be64 (ie_offset e)) index).

Record SstMeta := {
  meta_entry_count : nat;
  meta_first_key : option bytes;
  meta_last_key : option bytes;
}.

(** [finish]: the complete file and its metadata. *)
Definition writer_finish (w : SstWriter) : res (bytes * SstMeta) :=
  let w := flush_block w in
  let index_offset := w_current_offset w in
  let index_buf := enc_index (w_index w) in
  let zonemap_offset := index_offset + len index_buf in
  let zone_buf := zb_write_to (w_zone_builder w) in
  let zonemap_size := as_u32 (len zone_buf) in
  bloom ← bloom_add_all (bloom_new (Z.of_nat (length (w_user_keys w)))) (w_user_keys w);
  let bloom_offset := zonemap_offset + zonemap_size in
  let bloom_buf := [hash_algo_to_byte (algo bloom)] ++ bloom_write_to bloom in
  let bloom_size := as_u32 (len bloom_buf) in
  let footer := be64 zonemap_offset ++ be32 zonemap_size ++ be64 bloom_offset ++ be32 bloom_size
    ++ be64 index_offset ++ be32 (as_u32 (Z.of_nat (length (w_index w)))) ++ SST_MAGIC in
  Ok (w_out w ++ index_buf ++ zone_buf ++ bloom_buf ++ footer,
      {| meta_entry_count := w_entry_count w; meta_first_key := ie_key <$> head (w_index w);
         meta_last_key := ie_key <$> last (w_index w) |}).

(** Writing a table of entries. *)
Definition sst_write (ext : option ZoneFieldExtractor) (c : SstCompression) (es : list entry)
    : res (bytes * SstMeta) :=
  w ← writer_add_all (new_with_options ext c) es; writer_finish w.

(** ** The shape of the data region *)

Definition enc_entries (es : list entry) : bytes := concat (map enc_entry es).

Definition frames (c : SstCompression) (bs : list (list entry)) : bytes :=
  concat (map (fun b => block_frame c (enc_entries b)) bs).

(** The sparse index of blocks laid out from [offset]. *)
Fixpoint index_of (c : SstCompression) (offset : Z) (bs : list (list entry)) : list IndexEntry :=
  match bs with
  | [] => []
  | b :: bs =>
      {| ie_key := match b with e :: _ => fst e | [] => [] end; ie_offset := offset |}
        :: index_of c (offset + len (block_frame c (enc_entries b))) bs
  end.

Lemma enc_entry_length e : (8 <= length (enc_entry e))%nat.
Proof.
  unfold enc_entry. destruct (snd e); rewrite !length_app, !length_be32; lia.
Qed.

Lemma enc_entries_nil es : enc_entries es = [] <-> es = [].
Proof.
  destruct es as [|e es]; [done|]. split; [|done]. unfold enc_entries. cbn. intros H.
  apply (f_equal length) in H. rewrite length_app in H. pose proof (enc_entry_length e). cbn in H. lia.
Qed.

Lemma enc_entries_app es es' : enc_entries (es ++ es') = enc_entries es ++ enc_entries es'.
Proof. unfold enc_entries. by rewrite map_app, concat_app. Qed.

Lemma frames_snoc c bs b : frames c (bs ++ [b]) = frames c bs ++ block_frame c (enc_entries b).
Proof. unfold frames. rewrite map_app, concat_app. cbn. by rewrite app_nil_r. Qed.

Lemma index_of_snoc c off bs b :
  index_of c off (bs ++ [b]) = index_of c off bs ++
    [{| ie_key := match b with e :: _ => fst e | [] => [] end;
        ie_offset := off + len (frames c bs) |}].
Proof.
  revert off. induction bs as [|b' bs IH]; intros off.
  { unfold frames, len. cbn. by rewrite Z.add_0_r. }
  cbn [app index_of]. rewrite IH. unfold frames. cbn [map concat app].
  by rewrite len_app, Z.add_assoc.
Qed.

Lemma index_of_head c off bs b e :
  b <> [] -> index_of c off (bs ++ [b ++ [e]]) = index_of c off (bs ++ [b]).
Proof. intros Hb. rewrite !index_of_snoc. by destruct b. Qed.

(** ** The writer's invariant: the blocks already written and the open one *)

(** The zone records of the entries, from entry number [n]. *)
Fixpoint zone_recs (ext : option ZoneFieldExtractor) (n : nat) (es : list entry) : list zrec :=
  match es with
  | [] => []
  | e :: es =>
      (match ext, snd e with
       | Some x, Some v =>
           match x (fst e) v with [] => [] | fs => [((n / ENTRIES_PER_BLOCK)%nat, fs)] end
       | _, _ => []
       end) ++ zone_recs ext (S n) es
  end.

Record writer_inv (ext : option ZoneFieldExtractor) (c : SstCompression) (w : SstWriter)
    (done : list (list entry)) (cur : list entry) : Prop := {
  wi_ext : w_zone_extractor w = ext;
  wi_comp : w_compression w = c;
  wi_out : w_out w = SST_MAGIC ++ be32 (sst_version c) ++ frames c done;
  wi_offset : w_current_offset w = len (w_out w);
  wi_buf : w_block_buf w = enc_entries cur;
  wi_count : w_entry_count w = length (concat done ++ cur);
  wi_full : Forall (fun b => length b = ENTRIES_PER_BLOCK) done;
  wi_cur : (length cur <= ENTRIES_PER_BLOCK)%nat /\ (cur = [] -> done = []);
  wi_index : w_index w = index_of c 8 (match cur with [] => done | _ => done ++ [cur] end);
  wi_zone : zb_record_all zb_new (zone_recs ext 0 (concat done ++ cur)) = Ok (w_zone_builder w);
  wi_keys : forall e, In e (concat done ++ cur) -> (8 <= length (fst e))%nat ->
    In (euk e) (w_user_keys w);
}.

Lemma len_sst_header c : len (SST_MAGIC ++ be32 (sst_version c)) = 8.
Proof. by destruct c. Qed.

(** All the blocks, the open one included. *)
Definition all_blocks (done : list (list entry)) (cur : list entry) : list (list entry) :=
  match cur with [] => done | _ => done ++ [cur] end.

Lemma concat_all_blocks done cur : concat (all_blocks done cur) = concat done ++ cur.
Proof. unfold all_blocks. destruct cur; rewrite ?concat_app; cbn; by rewrite ?app_nil_r. Qed.

(** After a flush everything is in the file and the offset is its length. *)
Lemma flush_block_spec ext c w done cur :
  writer_inv ext c w done cur ->
  w_out (flush_block w) = SST_MAGIC ++ be32 (sst_version c) ++ frames c (all_blocks done cur) /\
  w_current_offset (flush_block w) = len (w_out (flush_block w)) /\
  w_block_buf (flush_block w) = [] /\ w_index (flush_block w) = w_index w /\
  w_entry_count (flush_block w) = w_entry_count w /\ w_user_keys (flush_block w) = w_user_keys w /\
  w_zone_extractor (flush_block w) = w_zone_extractor w /\
  w_zone_builder (flush_block w) = w_zone_builder w /\
  w_compression (flush_block w) = w_compression w.
Proof.
  intros [He Hc Ho Hof Hb _ _ _ _ _ _]. unfold flush_block, all_blocks. rewrite Hb.
  destruct cur as [|e cur]; [by cbn|].
  destruct (enc_entries (e :: cur)) as [|x l] eqn:Ee; [by apply enc_entries_nil in Ee|].
  rewrite <- Ee. cbn [w_out w_current_offset w_block_buf w_index w_entry_count w_user_keys
    w_zone_extractor w_zone_builder w_compression]. rewrite Hc, Ho, frames_snoc, Hof, Ho.
  split; [by rewrite <- !app_assoc|]. split_and!; try done. by rewrite !len_app.
Qed.

Lemma zb_record_all_app zb r1 r2 :
  zb_record_all zb (r1 ++ r2) = (zb' ← zb_record_all zb r1; zb_record_all zb' r2).
Proof.
  revert zb. induction r1 as [|[b fs] r1 IH]; intros zb; [done|]. cbn [app zb_record_all].
  destruct (zb_record zb b fs); cbn; [apply IH|done|done].
Qed.

Lemma zone_recs_app ext n es es' :
  zone_recs ext n (es ++ es') = zone_recs ext n es ++ zone_recs ext (n + length es) es'.
Proof.
  revert n. induction es as [|e es IH]; intros n; cbn [app zone_recs length].
  { by rewrite Nat.add_0_r. }
  rewrite IH, <- app_assoc. do 3 f_equal. lia.
Qed.

(** The zone accumulator follows the entries. *)
Lemma add_zone_spec ext w es e :
  w_zone_extractor w = ext -> w_entry_count w = length es ->
  zb_record_all zb_new (zone_recs ext 0 es) = Ok (w_zone_builder w) ->
  exists zb, add_zone w e = Ok zb /\ zb_record_all zb_new (zone_recs ext 0 (es ++ [e])) = Ok zb.
Proof.
  intros He Hn Hz. rewrite zone_recs_app, zb_record_all_app, Hz. cbn [mbind res_bind zone_recs].
  rewrite app_nil_r, Nat.add_0_l. unfold add_zone. rewrite He, Hn.
  destruct ext as [x|]; [|by eexists]. destruct (snd e) as [v|]; [|by eexists].
  destruct (x (fst e) v) as [|f fs]; [by eexists|].
  destruct (zb_record_all_spec zb_new (zone_recs (Some x) 0 es) zb_new_wf) as (z & Ez & Hw & _).
  rewrite Hz in Ez. injection Ez as <-.
  destruct (zb_record_spec (length es / ENTRIES_PER_BLOCK) _ (f :: fs) Hw) as (z & Ez & _).
  exists z. split; [done|]. cbn [zb_record_all]. by rewrite Ez.
Qed.

Lemma add_user_key_in uks e u :
  In u uks \/ ((8 <= length (fst e))%nat /\ u = euk e) -> In u (add_user_key uks (fst e)).
Proof.
  unfold add_user_key. destruct (Nat.leb_spec 8 (length (fst e))) as [|Hl]; [|intros [?|[? _]]; [done|lia]].
  fold (euk e). destruct (last uks) as [prev|] eqn:El.
  - destruct (beqb_spec prev (euk e)) as [->|]; intros [Hu|[_ ->]]; try done.
    + apply last_Some in El as [l ->]. apply in_or_app. right. by left.
    + apply in_or_app. by left.
    + apply in_or_app. right. by left.
  - intros [Hu|[_ ->]]; apply in_or_app; [by left|right; by left].
Qed.

Lemma concat_full_length (done : list (list entry)) :
  Forall (fun b => length b = ENTRIES_PER_BLOCK) done ->
  length (concat done) = (ENTRIES_PER_BLOCK * length done)%nat.
Proof. induction 1 as [|b l Hb _ IH]; [done|]. cbn [concat length]. rewrite length_app, Hb, IH. lia. Qed.

Lemma count_mod ext c w done cur :
  writer_inv ext c w done cur ->
  (w_entry_count w mod ENTRIES_PER_BLOCK = 0 <-> length cur = 0 \/ length cur = ENTRIES_PER_BLOCK)%nat.
Proof.
  intros Hi. rewrite (wi_count _ _ _ _ _ Hi), length_app, concat_full_length by apply Hi.
  destruct (wi_cur _ _ _ _ _ Hi) as [Hc _].
  rewrite Nat.mul_comm, Nat.add_comm, Nat.Div0.mod_add.
  destruct (decide (length cur = ENTRIES_PER_BLOCK)) as [->|].
  - rewrite Nat.Div0.mod_same. tauto.
  - rewrite Nat.mod_small by lia. lia.
Qed.

(** [add] either extends the open block or closes it and opens another. *)
Lemma writer_add_inv ext c w done cur e :
  writer_inv ext c w done cur ->
  exists w' done' cur', writer_add w e = Ok w' /\ writer_inv ext c w' done' cur' /\
    concat done' ++ cur' = (concat done ++ cur) ++ [e] /\ cur' <> [].
Proof.
  intros Hi. pose proof (count_mod _ _ _ _ _ Hi) as Hmod. unfold writer_add.
  set (w1 := if (_ =? 0)%nat then _ else w).
  assert (Hw1 : w_zone_extractor w1 = ext /\ w_entry_count w1 = w_entry_count w /\
    w_zone_builder w1 = w_zone_builder w /\ w_user_keys w1 = w_user_keys w /\ w_compression w1 = c).
  { destruct (flush_block_spec _ _ _ _ _ Hi) as (_ & _ & _ & _ & H1 & H2 & H3 & H4 & H5).
    pose proof (wi_ext _ _ _ _ _ Hi). pose proof (wi_comp _ _ _ _ _ Hi).
    subst w1. destruct (_ =? 0)%nat; cbn; split_and!; congruence. }
  destruct Hw1 as (He & Hn & Hz & Hk & Hc).
  destruct (add_zone_spec ext w1 (concat done ++ cur) e) as (zb & Ez & Hzb);
    [done|rewrite Hn; apply Hi|rewrite Hz; apply Hi|].
  rewrite Ez. cbn [mbind res_bind]. rewrite He, Hc, Hn, Hk.
  assert (Hkeys : forall e0, In e0 ((concat done ++ cur) ++ [e]) -> (8 <= length (fst e0))%nat ->
    In (euk e0) (add_user_key (w_user_keys w) (fst e))).
  { intros e0 Hin Hl. apply add_user_key_in. apply in_app_or in Hin as [Hin|[<-|[]]]; [left|by right].
    by apply (wi_keys _ _ _ _ _ Hi). }
  assert (Hcnt : S (w_entry_count w) = length ((concat done ++ cur) ++ [e])).
  { rewrite (wi_count _ _ _ _ _ Hi), (length_app _ [e]). cbn. lia. }
  destruct (flush_block_spec _ _ _ _ _ Hi) as (Ho & Hof & Hb & Hix & _).
  destruct (wi_cur _ _ _ _ _ Hi) as [Hlen Hempty].
  subst w1. destruct (Nat.eqb_spec (w_entry_count w mod ENTRIES_PER_BLOCK) 0) as [Hm|Hm].
  - eexists _, (all_blocks done cur), [e]. split; [done|].
    rewrite concat_all_blocks. split; [|done]. apply Hmod in Hm.
    assert (Hfull : Forall (fun b => length b = ENTRIES_PER_BLOCK) (all_blocks done cur)).
    { unfold all_blocks. destruct cur; [apply Hi|]. apply Forall_app. split; [apply Hi|].
      constructor; [|done]. destruct Hm as [Hm|Hm]; [done|exact Hm]. }
    cbn [start_block w_out w_index w_current_offset w_block_buf]. rewrite Ho, Hof, Hb, Hix.
    split; cbn; rewrite ?concat_all_blocks; try done.
    + by rewrite Ho.
    + by rewrite app_nil_r.
    + unfold ENTRIES_PER_BLOCK. split; [lia|done].
    + rewrite (wi_index _ _ _ _ _ Hi). fold (all_blocks done cur).
      rewrite index_of_snoc, Ho. do 3 f_equal. by rewrite app_assoc, len_app, len_sst_header.
  - assert (Hne : cur <> []) by (intros ->; tauto).
    eexists _, done, (cur ++ [e]). split; [done|]. rewrite app_assoc.
    split; [|split; [done|by destruct cur]].
    pose proof (wi_index _ _ _ _ _ Hi) as Hidx.
    destruct Hi. split; cbn; rewrite ?app_assoc; try done.
    + rewrite wi_buf0, enc_entries_app. cbn. by rewrite app_nil_r.
    + rewrite length_app. cbn. split; [|by destruct cur].
      assert (length cur <> ENTRIES_PER_BLOCK) by tauto. lia.
    + rewrite Hidx. destruct (cur ++ [e]) eqn:Ec; [by destruct cur|]. rewrite <- Ec.
      rewrite index_of_head by done. by destruct cur.
Qed.

Lemma writer_add_all_inv ext c w done cur es :
  writer_inv ext c w done cur ->
  exists w' done' cur', writer_add_all w es = Ok w' /\ writer_inv ext c w' done' cur' /\
    concat done' ++ cur' = (concat done ++ cur) ++ es.
Proof.
  revert w done cur. induction es as [|e es IH]; intros w done cur Hi.
  { exists w, done, cur. by rewrite app_nil_r. }
  destruct (writer_add_inv _ _ _ _ _ e Hi) as (w1 & d1 & c1 & E1 & Hi1 & Hc1 & _).
  destruct (IH w1 d1 c1 Hi1) as (w2 & d2 & c2 & E2 & Hi2 & Hc2).
  exists w2, d2, c2. cbn [writer_add_all]. rewrite E1. cbn [mbind res_bind].
  split_and!; try done. rewrite Hc2, Hc1. by rewrite <- !app_assoc.
Qed.

Lemma writer_new_inv ext c : writer_inv ext c (new_with_options ext c) [] [].
Proof.
  split; cbn; try done; try (by split; [lia|]).
Qed.

(** The footer of a written file. *)
Definition sst_footer (c : SstCompression) (bs : list (list entry)) (zone_buf bloom_buf : bytes) : bytes :=
  let index_offset := 8 + len (frames c bs) in
  let zonemap_offset := index_offset + len (enc_index (index_of c 8 bs)) in
  be64 zonemap_offset ++ be32 (as_u32 (len zone_buf))
    ++ be64 (zonemap_offset + as_u32 (len zone_buf)) ++ be32 (as_u32 (len bloom_buf))
    ++ be64 index_offset ++ be32 (as_u32 (Z.of_nat (length bs))) ++ SST_MAGIC.

(** A written file, region by region. *)
Definition sst_file (c : SstCompression) (bs : list (list entry)) (zone_buf bloom_buf : bytes) : bytes :=
  SST_MAGIC ++ be32 (sst_version c) ++ frames c bs ++ enc_index (index_of c 8 bs)
    ++ zone_buf ++ bloom_buf ++ sst_footer c bs zone_buf bloom_buf.

Lemma length_index_of c off bs : length (index_of c off bs) = length bs.
Proof. revert off. induction bs; intros; cbn; auto. Qed.

(** Blocks of at most 16 entries, all full but the last, none empty. *)
Definition blocked (bs : list (list entry)) : Prop :=
  Forall (fun b => b <> []) bs /\ Forall (fun b => (length b <= ENTRIES_PER_BLOCK)%nat) bs /\
  forall i b, bs !! i = Some b -> (S i < length bs)%nat -> length b = ENTRIES_PER_BLOCK.

Lemma all_blocks_blocked ext c w done cur :
  writer_inv ext c w done cur -> blocked (all_blocks done cur).
Proof.
  intros Hi. pose proof (wi_full _ _ _ _ _ Hi) as Hf. destruct (wi_cur _ _ _ _ _ Hi) as [Hl He].
  assert (Hd : Forall (fun b => b <> []) done).
  { eapply Forall_impl; [exact Hf|]. by intros b Hb ->. }
  assert (Hd2 : Forall (fun b => (length b <= ENTRIES_PER_BLOCK)%nat) done).
  { eapply Forall_impl; [exact Hf|]. intros b Hb. cbn in Hb. lia. }
  unfold blocked, all_blocks. destruct cur as [|e cur].
  - rewrite (He eq_refl). split_and!; constructor || done.
  - split_and!; [apply Forall_app; split; [done|by constructor]..|].
    intros i b Hb Hlt. rewrite length_app in Hlt. cbn in Hlt.
    rewrite lookup_app_l in Hb by lia. by apply (Forall_lookup_1 _ _ _ _ Hf Hb).
Qed.

(** What writing a table produces. *)
Lemma sst_write_layout ext c es :
  exists w bs bloom meta,
    writer_add_all (new_with_options ext c) es = Ok w /\
    concat bs = es /\ blocked bs /\ 8 + len (frames c bs) = w_current_offset (flush_block w) /\
    zb_record_all zb_new (zone_recs ext 0 es) = Ok (w_zone_builder w) /\
    bloom_add_all (bloom_new (Z.of_nat (length (w_user_keys w)))) (w_user_keys w) = Ok bloom /\
    (forall e, In e es -> (8 <= length (fst e))%nat -> In (euk e) (w_user_keys w)) /\
    writer_finish w = Ok (sst_file c bs (zb_write_to (w_zone_builder w))
      ([hash_algo_to_byte (algo bloom)] ++ bloom_write_to bloom), meta) /\
    meta_entry_count meta = length es.
Proof.
  destruct (writer_add_all_inv ext c _ _ _ es (writer_new_inv ext c)) as (w & d & cu & Ew & Hi & Hc).
  cbn in Hc. destruct (flush_block_spec _ _ _ _ _ Hi) as (Ho & Hof & _ & Hix & Hn & Hk & _ & Hz & _).
  pose proof (wi_index _ _ _ _ _ Hi) as Hidx. fold (all_blocks d cu) in Hidx.
  assert (Hoff : 8 + len (frames c (all_blocks d cu)) = w_current_offset (flush_block w)).
  { by rewrite Hof, Ho, app_assoc, len_app, len_sst_header. }
  destruct (bloom_add_all_spec (bloom_new (Z.of_nat (length (w_user_keys w)))) (w_user_keys w)
    (with_params_ok _ _ _ _)) as (f & Ef & _).
  eexists w, (all_blocks d cu), f, _.
  split; [done|]. split; [by rewrite concat_all_blocks|]. split; [by eapply all_blocks_blocked|].
  split; [done|]. split; [rewrite <- Hc; apply Hi|]. split; [done|].
  split; [rewrite <- Hc; apply Hi|]. split.
  - unfold writer_finish. rewrite <- Hoff, Ho, Hix, Hn, Hk, Hz, Hidx, Ef. cbn [mbind res_bind].
    do 2 f_equal. unfold sst_file, sst_footer. rewrite length_index_of. by rewrite <- !app_assoc.
  - cbn [meta_entry_count]. rewrite (wi_count _ _ _ _ _ Hi). congruence.
Qed.

(** The sizes the format can represent: a file below 2^62 bytes whose index,
    zone map and filter take less than 4 GiB, and, with compression, entries
    of at most 4 MiB. *)
Definition sst_fits (ext : option ZoneFieldExtractor) (c : SstCompression) (es : list entry) : Prop :=
  exists w file meta,
    writer_add_all (new_with_options ext c) es = Ok w /\ writer_finish w = Ok (file, meta) /\
    len file < 2 ^ 62 /\ len file - w_current_offset (flush_block w) < 2 ^ 32 /\
    zb_sized (w_zone_builder w) /\
    match c with
    | CompressNone => True
    | CompressLz4 => Forall (fun e => 16 * len (enc_entry e) <= MAX_BLOCK_UNCOMP_LEN) es
    end.

Lemma index_of_lookup c off bs i b :
  bs !! i = Some b ->
  index_of c off bs !! i = Some {| ie_key := match b with e :: _ => fst e | [] => [] end;
                                   ie_offset := off + len (frames c (take i bs)) |}.
Proof.
  revert off i. induction bs as [|b' bs IH]; intros off i Hi; [done|]. destruct i as [|i].
  - injection Hi as <-. unfold frames. cbn. by rewrite Z.add_0_r.
  - cbn in Hi. cbn [index_of list_lookup lookup]. erewrite IH by done. do 2 f_equal.
    cbn [take]. unfold frames. cbn [map concat]. rewrite len_app. lia.
Qed.

Lemma frames_split c bs i b :
  bs !! i = Some b ->
  frames c bs = frames c (take i bs) ++ block_frame c (enc_entries b) ++ frames c (drop (S i) bs).
Proof.
  intros Hi. rewrite <- (take_drop_middle bs i b Hi) at 1. unfold frames.
  by rewrite map_app, concat_app.
Qed.

Lemma frames_take_S c bs i b :
  bs !! i = Some b ->
  len (frames c (take (S i) bs)) = len (frames c (take i bs)) + len (block_frame c (enc_entries b)).
Proof. intros Hi. rewrite (take_S_r _ _ _ Hi), frames_snoc, len_app. done. Qed.

Lemma block_frame_nonempty c blk : 0 < len blk -> 0 < len (block_frame c blk).
Proof.
  intros H. destruct c; [done|]. unfold block_frame. cbv zeta.
  destruct (_ <? _); cbn [app]; rewrite len_cons;
    match goal with |- 0 < 1 + len ?x => pose proof (len_nonneg x) end; lia.
Qed.

Lemma enc_entries_pos b : b <> [] -> 0 < len (enc_entries b).
Proof.
  destruct b as [|e b]; [done|]. intros _. change (enc_entries (e :: b)) with (enc_entry e ++ enc_entries b).
  rewrite len_app. pose proof (enc_entry_length e). pose proof (len_nonneg (enc_entries b)).
  unfold len in *. lia.
Qed.

End writer.
