(* ===== verification/SstReader.v ===== *)
(** * The SST reader (crates/rhypedb-storage/src/sst.rs, [SstReader])

    Opening a file of any format version, locating and decoding a block
    (decompressing v6 frames), point reads, scans and full walks.  Positions
    are integers with the wrap-around of [usize] where they come from the
    file, and a slice outside the file panics.  A block is decoded to the
    list of its entries and the way its decoding ended; the loops of the code
    are loops over that list. *)

From Stdlib Require Import ZArith Lia Bool List Strings.Byte.
From stdpp Require Import base option list.
From S2P Require Import Prelude ByteMap Keys Versioned Extern Bloom Zone Sst.

Local Open Scope Z_scope.
Local Open Scope bytes_scope.

Record SstReader := {
  r_data : bytes;
  r_index : list IndexEntry;
  r_bloom : option BloomFilter;
  r_data_end : Z;
  r_first_user_key : option bytes;
  r_last_user_key : option bytes;
  r_zone_map : option ZoneMap;
  r_version : Z;
}.

(** A big-endian integer at a position. *)
Definition read_be (data : bytes) (pos n : Z) : res Z :=
  b ← slice data pos (as_u64 (pos + n)); Ok (from_be b).

(** The trailing slice [&data[from..]]. *)
Definition slice_from (data : bytes) (from : Z) : res bytes := slice data from (len data).

Section reader.
Context {E : Extern}.

Definition map_sst_corrupted {A} (r : res A) : res A :=
  match r with Err _ => Err SstCorrupted | r => r end.

(** ** Opening *)

(** The bloom block: an algorithm byte (from v3 on), then the filter. *)
Definition open_bloom (data : bytes) (version bloom_offset bloom_size footer_start : Z)
    : res BloomFilter :=
  let bloom_end := as_u64 (bloom_offset + bloom_size) in
  if footer_start <? bloom_end then Err SstCorrupted
  else
    bloom_slice ← slice data bloom_offset bloom_end;
    if version =? 2 then
      r ← map_sst_corrupted (bloom_read_from bloom_slice Fnv1a); Ok (fst r)
    else
      match bloom_slice with
      | [] => Err SstCorrupted
      | b :: rest =>
          match hash_algo_from_byte b with
          | None => Err SstCorrupted
          | Some a => r ← map_sst_corrupted (bloom_read_from rest a); Ok (fst r)
          end
      end.

(** The zone map, used from v5 on. *)
Definition open_zone (data : bytes) (version zonemap_offset zonemap_size footer_start : Z)
    : res (option ZoneMap) :=
  let zone_end := as_u64 (zonemap_offset + zonemap_size) in
  if footer_start <? zone_end then Err SstCorrupted
  else if 5 <=? version then
    zone_slice ← slice data zonemap_offset zone_end;
    r ← zm_read_from zone_slice;
    Ok (Some (fst r))
  else Ok None.

(** [index_offset], [index_count], the filter and the zone map. *)
Definition open_footer (data : bytes) (version : Z) : res (Z * Z * option BloomFilter * option ZoneMap) :=
  if 4 <=? version then
    if len data <? len SST_MAGIC + 4 + FOOTER_V4_SIZE then Err SstCorrupted
    else
      let footer_start := len data - FOOTER_V4_SIZE in
      magic ← slice_from data (footer_start + 36);
      if negb (beqb magic SST_MAGIC) then Err SstCorrupted
      else
        zonemap_offset ← read_be data footer_start 8;
        zonemap_size ← read_be data (footer_start + 8) 4;
        bloom_offset ← read_be data (footer_start + 12) 8;
        bloom_size ← read_be data (footer_start + 20) 4;
        index_offset ← read_be data (footer_start + 24) 8;
        index_count ← read_be data (footer_start + 32) 4;
        zone_map ← open_zone data version zonemap_offset zonemap_size footer_start;
        bloom ← open_bloom data version bloom_offset bloom_size footer_start;
        Ok (index_offset, index_count, Some bloom, zone_map)
  else if (version =? 2) || (version =? 3) then
    if len data <? len SST_MAGIC + 4 + FOOTER_V2_SIZE then Err SstCorrupted
    else
      let footer_start := len data - FOOTER_V2_SIZE in
      magic ← slice_from data (footer_start + 24);
      if negb (beqb magic SST_MAGIC) then Err SstCorrupted
      else
        bloom_offset ← read_be data footer_start 8;
        bloom_size ← read_be data (footer_start + 8) 4;
        index_offset ← read_be data (footer_start + 12) 8;
        index_count ← read_be data (footer_start + 20) 4;
        bloom ← open_bloom data version bloom_offset bloom_size footer_start;
        Ok (index_offset, index_count, Some bloom, None)
  else
    let footer_start := len data - FOOTER_V1_SIZE in
    magic ← slice_from data (footer_start + 12);
    if negb (beqb magic SST_MAGIC) then Err SstCorrupted
    else
      index_offset ← read_be data footer_start 8;
      index_count ← read_be data (footer_start + 8) 4;
      Ok (index_offset, index_count, None, None).

(** The loop over the index entries: only the length prefix is checked. *)
Fixpoint parse_index (count : nat) (data : bytes) (pos : Z) : res (list IndexEntry) :=
  match count with
  | O => Ok []
  | S count' =>
      if len data <? as_u64 (pos + 4) then Err SstCorrupted
      else
        key_len ← read_be data pos 4;
        let pos := as_u64 (pos + 4) in
        key ← slice data pos (as_u64 (pos + key_len));
        let pos := as_u64 (pos + key_len) in
        offset ← read_be data pos 8;
        let pos := as_u64 (pos + 8) in
        rest ← parse_index count' data pos;
        Ok ({| ie_key := key; ie_offset := offset |} :: rest)
  end.

(** ** Blocks *)

Definition block_end_offset (r : SstReader) (block_idx : nat) : Z :=
  match r_index r !! S block_idx with
  | Some e => ie_offset e
  | None => r_data_end r
  end.

Definition decompress_frame (data : bytes) (start end_ : Z) : res bytes :=
  if end_ <? as_u64 (start + BLOCK_FRAME_HEADER) then Err SstCorrupted
  else
    flag_byte ← slice data start (start + 1);
    uncomp_len ← read_be data (start + 1) 4;
    payload_len ← read_be data (start + 5) 4;
    let payload_start := start + BLOCK_FRAME_HEADER in
    if end_ <? as_u64 (payload_start + payload_len) then Err SstCorrupted
    else if MAX_BLOCK_UNCOMP_LEN <? uncomp_len then Err SstCorrupted
    else
      payload ← slice data payload_start (as_u64 (payload_start + payload_len));
      let flag := from_be flag_byte in
      if flag =? b2z BLOCK_FLAG_RAW then
        if negb (payload_len =? uncomp_len) then Err SstCorrupted else Ok payload
      else if flag =? b2z BLOCK_FLAG_LZ4 then
        match lz4_decompress payload uncomp_len with
        | None => Err SstCorrupted
        | Some out => if negb (len out =? uncomp_len) then Err SstCorrupted else Ok out
        end
      else Err SstCorrupted.

Definition sst_block (r : SstReader) (block_idx : nat) : res bytes :=
  match r_index r !! block_idx with
  | None => Panic
  | Some e =>
      let start := ie_offset e in
      let end_ := block_end_offset r block_idx in
      if (end_ <? start) || (r_data_end r <? end_) then Err SstCorrupted
      else if r_version r <? SST_VERSION_COMPRESSED then slice (r_data r) start end_
      else decompress_frame (r_data r) start end_
  end.

(** How the decoding of a block ended: at its last byte, with fewer than 8
    bytes left, or at an entry whose key or value passes the end. *)
Inductive block_end := EndClean | EndTail | EndBad.

(** The entries of a block; each takes at least 8 bytes, so the length of the
    block is enough fuel. *)
Fixpoint decode_entries (fuel : nat) (rest : bytes) : list entry * block_end :=
  match fuel with
  | O => ([], EndClean)
  | S fuel' =>
      match rest with
      | [] => ([], EndClean)
      | _ :: _ =>
          if len rest <? 8 then ([], EndTail)
          else
            let key_len := from_be (take 4 rest) in
            let value_len_raw := from_be (take 4 (drop 4 rest)) in
            let key_end := 8 + key_len in
            if len rest <? key_end then ([], EndBad)
            else
              let key := take (Z.to_nat key_len) (drop 8 rest) in
              let is_tombstone := value_len_raw =? TOMBSTONE_MARKER in
              let value_len := if is_tombstone then 0 else value_len_raw in
              let value_end := key_end + value_len in
              if len rest <? value_end then ([], EndBad)
              else
                let value := take (Z.to_nat value_len) (drop (Z.to_nat key_end) rest) in
                let '(es, fin) := decode_entries fuel' (drop (Z.to_nat value_end) rest) in
                ((key, if is_tombstone then None else Some value) :: es, fin)
      end
  end.

Definition decode_block (blk : bytes) : list entry * block_end := decode_entries (length blk) blk.

(** [compute_last_user_key]: the keys of the last block; the values are only
    skipped, and a skip past the end stops the loop. *)
Fixpoint last_key_loop (fuel : nat) (rest : bytes) (last_uk : option bytes) : option bytes :=
  match fuel with
  | O => last_uk
  | S fuel' =>
      if len rest <? 8 then last_uk
      else
        let key_len := from_be (take 4 rest) in
        let value_len_raw := from_be (take 4 (drop 4 rest)) in
        let key_end := 8 + key_len in
        if len rest <? key_end then last_uk
        else
          let key := take (Z.to_nat key_len) (drop 8 rest) in
          let last_uk := if 8 <=? key_len then Some (InternalKey.user_key key) else last_uk in
          let val_len := if value_len_raw =? TOMBSTONE_MARKER then 0 else value_len_raw in
          last_key_loop fuel' (drop (Z.to_nat (key_end + val_len)) rest) last_uk
  end.

Definition compute_last_user_key (r : SstReader) : res (option bytes) :=
  match r_index r with
  | [] => Ok None
  | _ :: _ =>
      blk ← sst_block r (length (r_index r) - 1);
      Ok (last_key_loop (length blk) blk None)
  end.

Definition sst_open (data : bytes) : res SstReader :=
  if len data <? len SST_MAGIC + 4 + FOOTER_V1_SIZE then Err SstCorrupted
  else if negb (beqb (take 4 data) SST_MAGIC) then Err SstCorrupted
  else
    version ← read_be data 4 4;
    if negb ((1 <=? version) && (version <=? SST_VERSION_MAX)) then Err SstCorrupted
    else
      '(index_offset, index_count, bloom, zone_map) ← open_footer data version;
      index ← parse_index (Z.to_nat index_count) data index_offset;
      let first_user_key :=
        match index with
        | e :: _ =>
            if (8 <=? length (ie_key e))%nat then Some (InternalKey.user_key (ie_key e)) else None
        | [] => None
        end in
      let reader last := {| r_data := data; r_index := index; r_bloom := bloom;
        r_data_end := index_offset; r_first_user_key := first_user_key; r_last_user_key := last;
        r_zone_map := zone_map; r_version := version |} in
      last ← compute_last_user_key (reader None);
      Ok (reader last).

(** ** Pruning *)

Definition might_contain (r : SstReader) (user_key : bytes) : res bool :=
  match r_bloom r with
  | Some filter => bloom_contains filter user_key
  | None => Ok true
  end.

Definition range_overlaps_sorted (r : SstReader) (sorted_user_keys : list bytes) : bool :=
  match head sorted_user_keys, last sorted_user_keys with
  | Some smallest, Some largest =>
      match r_first_user_key r, r_last_user_key r with
      | Some first, Some last => negb (bltb last smallest) && negb (bltb largest first)
      | _, _ => false
      end
  | _, _ => false
  end.

Definition prefix_range_overlaps_sorted (r : SstReader) (sorted_prefixes : list bytes) : bool :=
  match head sorted_prefixes, last sorted_prefixes with
  | Some smallest, Some largest =>
      match r_first_user_key r, r_last_user_key r with
      | Some first, Some last =>
          if bltb last smallest then false
          else if bltb largest first && negb (starts_with first largest) then false
          else true
      | _, _ => false
      end
  | _, _ => false
  end.

(** ** Seeking *)

(** [binary_search_by] on a sorted index: the position of the key, or the
    number of keys below it. *)
Fixpoint binary_search (index : list IndexEntry) (target : bytes) : nat + nat :=
  match index with
  | [] => inr 0%nat
  | e :: index' =>
      match bytes_cmp (ie_key e) target with
      | Eq => inl 0%nat
      | Gt => inr 0%nat
      | Lt => match binary_search index' target with inl i => inl (S i) | inr i => inr (S i) end
      end
  end.

(** The block at or before [target]; the first one when there is none. *)
Definition seek_block (index : list IndexEntry) (target : bytes) : nat :=
  match binary_search index target with
  | inl i => i
  | inr O => 0%nat
  | inr (S i) => i
  end.

Definition locate_block_from (r : SstReader) (user_key : bytes) (start : nat) : nat :=
  (start + seek_block (drop start (r_index r)) (user_key ++ repeat x00 8))%nat.

Definition prefix_start_block_from (r : SstReader) (prefix : bytes) (start : nat) : nat :=
  (start + seek_block (drop start (r_index r)) (prefix ++ repeat x00 8))%nat.

Definition HEADER_POS : Z := len SST_MAGIC + 4.

Definition user_key_start_offset (r : SstReader) (start_user_key : bytes) : Z :=
  match r_index r with
  | [] => HEADER_POS
  | _ :: _ =>
      match r_index r !! seek_block (r_index r) (start_user_key ++ repeat x00 8) with
      | Some e => ie_offset e
      | None => HEADER_POS
      end
  end.

Definition prefix_start_offset (r : SstReader) (prefix : bytes) : Z :=
  match r_index r with
  | [] => HEADER_POS
  | _ :: _ =>
      match r_index r !! seek_block (r_index r) (prefix ++ repeat x00 8) with
      | Some e => ie_offset e
      | None => HEADER_POS
      end
  end.

(** [block_idx_for_offset]: the block before the first one past [offset]. *)
Fixpoint first_past (index : list IndexEntry) (offset : Z) : option nat :=
  match index with
  | [] => None
  | e :: index' =>
      if offset <? ie_offset e then Some 0%nat
      else match first_past index' offset with Some i => Some (S i) | None => None end
  end.

Definition block_idx_for_offset (r : SstReader) (offset : Z) : nat :=
  match first_past (r_index r) offset with
  | Some i => (i - 1)%nat
  | None => (length (r_index r) - 1)%nat
  end.

(** ** Point reads *)

(** The scan of one block for an internal key: [Some] is the method's return. *)
Fixpoint get_loop (target_key : bytes) (es : list entry) : option (option MemValue) :=
  match es with
  | [] => None
  | e :: es =>
      if beqb (fst e) target_key then Some (Some (snd e))
      else if bltb target_key (fst e) then Some None
      else get_loop target_key es
  end.

Definition sst_get (r : SstReader) (target_key : bytes) : res (option MemValue) :=
  might ← (if (8 <=? length target_key)%nat
           then might_contain r (InternalKey.user_key target_key) else Ok true);
  if negb might then Ok None
  else
    match binary_search (r_index r) target_key with
    | inr O => Ok None
    | inl i | inr (S i) =>
        blk ← sst_block r i;
        Ok (match get_loop target_key (fst (decode_block blk)) with Some v => v | None => None end)
    end.

(** The scan of one block by [get_versioned]: [Some] is the method's return. *)
Fixpoint get_versioned_loop (user_key : bytes) (version : Z) (es : list entry)
    : option (option MemValue) :=
  match es with
  | [] => None
  | e :: es =>
      if (8 <=? length (fst e))%nat then
        if beqb (euk e) user_key then
          if ever e <=? version then Some (Some (snd e))
          else get_versioned_loop user_key version es
        else if bltb user_key (euk e) then Some None
        else get_versioned_loop user_key version es
      else get_versioned_loop user_key version es
  end.

(** The outer loop over the [n] blocks from [bi] on. *)
Fixpoint get_versioned_blocks (n : nat) (r : SstReader) (bi : nat) (user_key : bytes) (version : Z)
    : res (option MemValue) :=
  match n with
  | O => Ok None
  | S n' =>
      blk ← sst_block r bi;
      match get_versioned_loop user_key version (fst (decode_block blk)) with
      | Some v => Ok v
      | None => get_versioned_blocks n' r (S bi) user_key version
      end
  end.

Definition get_versioned (r : SstReader) (user_key : bytes) (version : Z) : res (option MemValue) :=
  match r_index r with
  | [] => Ok None
  | _ :: _ =>
      might ← might_contain r user_key;
      if negb might then Ok None
      else
        let block_idx := seek_block (r_index r) (InternalKey.new user_key u64_max) in
        get_versioned_blocks (length (r_index r) - block_idx) r block_idx user_key version
  end.

(** ** Walks *)

(** [try_for_each_entry]: all the entries, or the first inconsistency. *)
Fixpoint walk_blocks (n : nat) (r : SstReader) (bi : nat) : res (list entry) :=
  match n with
  | O => Ok []
  | S n' =>
      blk ← sst_block r bi;
      let '(es, fin) := decode_block blk in
      match fin with
      | EndBad => Err SstCorrupted
      | _ => rest ← walk_blocks n' r (S bi); Ok (es ++ rest)
      end
  end.

Definition try_for_each_entry (r : SstReader) : res (list entry) :=
  walk_blocks (length (r_index r)) r 0.

Definition max_version (r : SstReader) : res Z :=
  es ← try_for_each_entry r;
  Ok (fold_left (fun m e => if (8 <=? length (fst e))%nat then Z.max m (ever e) else m) es 0).

(** The entries an [SstIterator] yields from the [n] blocks from [bi] on: a
    block that cannot be read, or that does not end cleanly, ends it. *)
Fixpoint iter_blocks (n : nat) (r : SstReader) (bi : nat) : res (list entry) :=
  match n with
  | O => Ok []
  | S n' =>
      match sst_block r bi with
      | Panic => Panic
      | Err _ => Ok []
      | Ok blk =>
          let '(es, fin) := decode_block blk in
          match fin with
          | EndClean => rest ← iter_blocks n' r (S bi); Ok (es ++ rest)
          | _ => Ok es
          end
      end
  end.

(** [iter_from]; every caller passes the offset of a block. *)
Definition iter_from (r : SstReader) (start : Z) : res (list entry) :=
  match r_index r with
  | [] => Ok []
  | _ :: _ =>
      if r_data_end r <=? start then Ok []
      else
        let block_idx := block_idx_for_offset r start in
        iter_blocks (length (r_index r) - block_idx) r block_idx
  end.

Definition sst_iter (r : SstReader) : res (list entry) := iter_from r HEADER_POS.

(** ** Scans *)

Definition scan_prefix_impl (r : SstReader) (prefix : bytes) (version : Z) (max_distinct : option Z)
    : res (list (bytes * MemValue)) :=
  if match max_distinct with Some n => n =? 0 | None => false end then Ok []
  else
    es ← iter_from r (prefix_start_offset r prefix);
    Ok (scan_loop (Some prefix) prefix version max_distinct 0 None es).

Definition sst_scan_prefix (r : SstReader) (prefix : bytes) (version : Z)
    : res (list (bytes * MemValue)) := scan_prefix_impl r prefix version None.

Definition sst_scan_prefix_max (r : SstReader) (prefix : bytes) (version max_distinct : Z)
    : res (list (bytes * MemValue)) := scan_prefix_impl r prefix version (Some max_distinct).

Definition sst_scan_from_max (r : SstReader) (prefix start_user_key : bytes) (version max_distinct : Z)
    : res (list (bytes * MemValue)) :=
  if (max_distinct =? 0) || negb (starts_with start_user_key prefix) then Ok []
  else
    es ← iter_from r (user_key_start_offset r start_user_key);
    Ok (scan_loop (Some start_user_key) prefix version (Some max_distinct) 0 None es).

(** ** Decoding what the writer encoded *)

(** The lengths fit the format, and no value is as long as the tombstone mark. *)
Definition entry_ok (e : entry) : Prop :=
  is_u32 (len (fst e)) /\
  match snd e with Some v => 0 <= len v < TOMBSTONE_MARKER | None => True end.

Definition value_bytes (m : MemValue) : bytes := match m with Some v => v | None => [] end.
Definition value_len_of (m : MemValue) : Z :=
  match m with Some v => len v | None => TOMBSTONE_MARKER end.

Lemma enc_entry_parts e :
  entry_ok e ->
  enc_entry e = be32 (len (fst e)) ++ be32 (value_len_of (snd e)) ++ fst e ++ value_bytes (snd e).
Proof.
  intros [Hk Hv]. unfold enc_entry, value_len_of, value_bytes. destruct (snd e) as [v|];
    rewrite !as_u32_small; unfold is_u32, TOMBSTONE_MARKER in *; try done; lia.
Qed.

Lemma value_len_u32 e : entry_ok e -> is_u32 (value_len_of (snd e)).
Proof.
  intros [_ Hv]. unfold value_len_of, is_u32, TOMBSTONE_MARKER in *. destruct (snd e); lia.
Qed.

Lemma value_len_tomb e :
  entry_ok e -> (value_len_of (snd e) =? TOMBSTONE_MARKER) = match snd e with None => true | _ => false end.
Proof.
  intros [_ Hv]. unfold value_len_of. destruct (snd e); [|apply Z.eqb_refl]. apply Z.eqb_neq. lia.
Qed.

Lemma enc_entry_len e : entry_ok e -> len (enc_entry e) = 8 + len (fst e) + len (value_bytes (snd e)).
Proof. intros H. rewrite enc_entry_parts by done. unfold be32. rewrite !len_app, !len_be. lia. Qed.

(** The fields of the first entry of a block. *)
Lemma enc_entry_fields e rest :
  entry_ok e -> let blk := enc_entry e ++ rest in
  from_be (take 4 blk) = len (fst e) /\ from_be (take 4 (drop 4 blk)) = value_len_of (snd e) /\
  take (Z.to_nat (len (fst e))) (drop 8 blk) = fst e /\
  take (Z.to_nat (len (value_bytes (snd e)))) (drop (Z.to_nat (8 + len (fst e))) blk) = value_bytes (snd e) /\
  drop (Z.to_nat (8 + len (fst e) + len (value_bytes (snd e)))) blk = rest.
Proof.
  intros He. pose proof (value_len_u32 e He) as Hv. destruct (He) as [Hk _].
  rewrite enc_entry_parts by done. set (m := value_bytes (snd e)). cbv zeta.
  pose proof (len_nonneg (fst e)). pose proof (len_nonneg m).
  rewrite <- !app_assoc. split_and!.
  - rewrite take_mid by done. by apply from_be32.
  - rewrite take_drop_mid by done. by apply from_be32.
  - rewrite (app_assoc (be32 _)). rewrite take_drop_mid; [done|done|unfold len; lia].
  - rewrite (app_assoc (be32 _)), (app_assoc (_ ++ _)). rewrite take_drop_mid; [done| |unfold len; lia].
    rewrite !length_app, !length_be32. unfold len. lia.
  - rewrite (app_assoc (be32 _)), (app_assoc (_ ++ _)), (app_assoc (_ ++ _)). rewrite drop_mid; [done|].
    rewrite !length_app, !length_be32. unfold len. lia.
Qed.

Lemma decode_entries_enc es fuel :
  Forall entry_ok es -> (length (enc_entries es) <= fuel)%nat ->
  decode_entries fuel (enc_entries es) = (es, EndClean).
Proof.
  intros H. revert fuel. induction H as [|e es He _ IH]; intros fuel Hf; [by destruct fuel|].
  change (enc_entries (e :: es)) with (enc_entry e ++ enc_entries es) in *.
  pose proof (enc_entry_length e) as H8. rewrite length_app in Hf.
  destruct fuel as [|fuel]; [lia|]. pose proof (enc_entry_len e He) as Hlen.
  pose proof (len_nonneg (enc_entries es)). pose proof (len_nonneg (fst e)).
  pose proof (len_nonneg (value_bytes (snd e))).
  destruct (enc_entry_fields e (enc_entries es) He) as (F1 & F2 & F3 & F4 & F5).
  cbn [decode_entries]. destruct (enc_entry e ++ enc_entries es) as [|b tl] eqn:Eb.
  { apply (f_equal length) in Eb. rewrite length_app in Eb. cbn in Eb. lia. }
  rewrite <- Eb in *. rewrite len_app, Hlen, F1, F2, F3, value_len_tomb by done.
  destruct (Z.ltb_spec (8 + len (fst e) + len (value_bytes (snd e)) + len (enc_entries es)) 8); [lia|].
  destruct (Z.ltb_spec (8 + len (fst e) + len (value_bytes (snd e)) + len (enc_entries es))
    (8 + len (fst e))); [lia|].
  assert (Hl : (if match snd e with None => true | _ => false end then 0 else value_len_of (snd e))
    = len (value_bytes (snd e))) by by destruct (snd e).
  rewrite Hl. destruct (Z.ltb_spec (8 + len (fst e) + len (value_bytes (snd e)) + len (enc_entries es))
    (8 + len (fst e) + len (value_bytes (snd e)))); [lia|].
  rewrite F4, F5, IH by lia. destruct e as [k [v|]]; done.
Qed.

Lemma decode_block_enc es : Forall entry_ok es -> decode_block (enc_entries es) = (es, EndClean).
Proof. intros H. by apply decode_entries_enc. Qed.

Lemma last_key_loop_enc es fuel acc :
  Forall entry_ok es -> wf_entries es -> (length (enc_entries es) <= fuel)%nat ->
  last_key_loop fuel (enc_entries es) acc = match last es with Some e => Some (euk e) | None => acc end.
Proof.
  intros H. revert fuel acc. induction H as [|e es He _ IH]; intros fuel acc Hw Hf; [by destruct fuel|].
  change (enc_entries (e :: es)) with (enc_entry e ++ enc_entries es) in *.
  pose proof (enc_entry_length e) as H8. rewrite length_app in Hf.
  destruct fuel as [|fuel]; [lia|]. pose proof (enc_entry_len e He) as Hlen.
  pose proof (len_nonneg (enc_entries es)). pose proof (len_nonneg (fst e)).
  pose proof (len_nonneg (value_bytes (snd e))). inversion Hw as [|? ? Hwe Hw']; subst.
  destruct (enc_entry_fields e (enc_entries es) He) as (F1 & F2 & F3 & _ & F5).
  cbn [last_key_loop]. rewrite len_app, Hlen, F1, F2, F3, value_len_tomb by done.
  destruct (Z.ltb_spec (8 + len (fst e) + len (value_bytes (snd e)) + len (enc_entries es)) 8); [lia|].
  destruct (Z.ltb_spec (8 + len (fst e) + len (value_bytes (snd e)) + len (enc_entries es))
    (8 + len (fst e))); [lia|].
  assert (Hl : (if match snd e with None => true | _ => false end then 0 else value_len_of (snd e))
    = len (value_bytes (snd e))) by by destruct (snd e).
  rewrite Hl, F5. destruct (Z.leb_spec 8 (len (fst e))); [|unfold len in *; lia].
  rewrite IH by (done || lia). fold (euk e). rewrite last_cons. by destruct (last es).
Qed.

(** ** Frames *)

Lemma read_be32_at l x r pos :
  pos = len l -> is_u32 x -> pos + 4 < 2 ^ 64 -> read_be (l ++ be32 x ++ r) pos 4 = Ok x.
Proof.
  intros -> Hx Hp. pose proof (len_nonneg l). unfold read_be.
  rewrite as_u64_small by (unfold is_u64; lia). rewrite slice_app; [|done|by unfold be32; rewrite len_be].
  cbn [mbind res_bind]. by rewrite from_be32.
Qed.

Lemma read_be64_at l x r pos :
  pos = len l -> is_u64 x -> pos + 8 < 2 ^ 64 -> read_be (l ++ be64 x ++ r) pos 8 = Ok x.
Proof.
  intros -> Hx Hp. pose proof (len_nonneg l). unfold read_be.
  rewrite as_u64_small by (unfold is_u64; lia). rewrite slice_app; [|done|by unfold be64; rewrite len_be].
  cbn [mbind res_bind]. by rewrite from_be64.
Qed.

(** The header of a frame, at its position in the file. *)
Lemma decompress_frame_header pre flag u p payload post :
  is_u32 u -> is_u32 p -> len payload = p ->
  len pre + 9 + p + len post < 2 ^ 63 ->
  decompress_frame (pre ++ ([flag] ++ be32 u ++ be32 p ++ payload) ++ post) (len pre) (len pre + 9 + p)
  = if MAX_BLOCK_UNCOMP_LEN <? u then Err SstCorrupted
    else if b2z flag =? b2z BLOCK_FLAG_RAW then
      if negb (p =? u) then Err SstCorrupted else Ok payload
    else if b2z flag =? b2z BLOCK_FLAG_LZ4 then
      match lz4_decompress payload u with
      | None => Err SstCorrupted
      | Some out => if negb (len out =? u) then Err SstCorrupted else Ok out
      end
    else Err SstCorrupted.
Proof.
  intros Hu Hp Hl Hsz. unfold decompress_frame, BLOCK_FRAME_HEADER.
  pose proof (len_nonneg pre). pose proof (len_nonneg post). pose proof (len_nonneg payload).
  rewrite as_u64_small by (unfold is_u64; lia).
  destruct (Z.ltb_spec (len pre + 9 + p) (len pre + (1 + 4 + 4))); [lia|].
  set (data := pre ++ _ ++ post).
  assert (D0 : data = pre ++ [flag] ++ (be32 u ++ be32 p ++ payload ++ post)) by (unfold data; app_solve).
  assert (D1 : data = (pre ++ [flag]) ++ be32 u ++ (be32 p ++ payload ++ post)) by (unfold data; app_solve).
  assert (D2 : data = (pre ++ [flag] ++ be32 u) ++ be32 p ++ (payload ++ post)) by (unfold data; app_solve).
  assert (D3 : data = (pre ++ [flag] ++ be32 u ++ be32 p) ++ payload ++ post) by (unfold data; app_solve).
  assert (Hl1 : len (pre ++ [flag]) = len pre + 1) by (by rewrite len_app).
  assert (Hl2 : len (pre ++ [flag] ++ be32 u) = len pre + 5)
    by (unfold be32; rewrite !len_app, len_be; change (len [flag]) with 1; lia).
  assert (Hl3 : len (pre ++ [flag] ++ be32 u ++ be32 p) = len pre + 9)
    by (unfold be32; rewrite !len_app, !len_be; change (len [flag]) with 1; lia).
  rewrite D0 at 1. rewrite slice_app by (change (len [flag]) with 1; lia). cbn [mbind res_bind].
  rewrite D1 at 1. rewrite read_be32_at by (done || lia). cbn [mbind res_bind].
  rewrite D2 at 1. rewrite read_be32_at by (done || lia). cbn [mbind res_bind].
  rewrite as_u64_small by (unfold is_u64; lia).
  destruct (Z.ltb_spec (len pre + 9 + p) (len pre + (1 + 4 + 4) + p)); [lia|].
  destruct (MAX_BLOCK_UNCOMP_LEN <? u); [done|].
  rewrite D3, slice_app by lia. cbn [mbind res_bind].
  replace (from_be [flag]) with (b2z flag); [done|].
  rewrite from_be_cons. cbn [length]. change (from_be []) with 0. lia.
Qed.

(** A block written and read back, in both formats. *)
Lemma block_frame_round_trip pre blk post :
  ExternLaws E -> 0 < len blk <= MAX_BLOCK_UNCOMP_LEN ->
  len pre + len (block_frame CompressLz4 blk) + len post < 2 ^ 63 ->
  decompress_frame (pre ++ block_frame CompressLz4 blk ++ post) (len pre)
    (len pre + len (block_frame CompressLz4 blk)) = Ok blk.
Proof.
  intros EL Hb. unfold block_frame. pose proof (len_nonneg (lz4_compress blk)).
  assert (Hu : forall x, 0 <= x <= MAX_BLOCK_UNCOMP_LEN -> is_u32 x /\ as_u32 x = x).
  { intros x Hx. assert (is_u32 x) by (unfold is_u32, MAX_BLOCK_UNCOMP_LEN in *; lia).
    split; [done|by apply as_u32_small]. }
  destruct (Z.ltb_spec (len (lz4_compress blk)) (len blk)) as [Hlt|Hge]; intros Hsz.
  - destruct (Hu (len blk)) as [U1 ->]; [lia|].
    destruct (Hu (len (lz4_compress blk))) as [U2 ->]; [lia|].
    assert (Hlen : forall x y, len ([BLOCK_FLAG_LZ4] ++ be32 x ++ be32 y ++ lz4_compress blk)
      = 9 + len (lz4_compress blk)).
    { intros. unfold be32. rewrite !len_app, !len_be. change (len [BLOCK_FLAG_LZ4]) with 1. lia. }
    rewrite Hlen in *. rewrite Z.add_assoc, decompress_frame_header by (done || lia).
    destruct (Z.ltb_spec MAX_BLOCK_UNCOMP_LEN (len blk)); [lia|].
    change (b2z BLOCK_FLAG_LZ4 =? b2z BLOCK_FLAG_RAW) with false. cbv iota.
    by rewrite lz4_round_trip, !Z.eqb_refl.
  - destruct (Hu (len blk)) as [U1 ->]; [lia|].
    assert (Hlen : forall x y, len ([BLOCK_FLAG_RAW] ++ be32 x ++ be32 y ++ blk) = 9 + len blk).
    { intros. unfold be32. rewrite !len_app, !len_be. change (len [BLOCK_FLAG_RAW]) with 1. lia. }
    rewrite Hlen in *. rewrite Z.add_assoc, decompress_frame_header by (done || lia).
    destruct (Z.ltb_spec MAX_BLOCK_UNCOMP_LEN (len blk)); [lia|].
    by rewrite !Z.eqb_refl.
Qed.

(** The writer does not enforce the reader's block cap.  A block of more
    than 64 MiB (16 rows averaging over 4 MiB) is written as a frame, raw or
    compressed, that the reader then rejects as corrupt. *)
Theorem oversized_block_unreadable pre blk post :
  MAX_BLOCK_UNCOMP_LEN < len blk < 2 ^ 32 ->
  len pre + len (block_frame CompressLz4 blk) + len post < 2 ^ 63 ->
  decompress_frame (pre ++ block_frame CompressLz4 blk ++ post) (len pre)
    (len pre + len (block_frame CompressLz4 blk)) = Err SstCorrupted.
Proof.
  intros Hb. unfold block_frame. pose proof (len_nonneg (lz4_compress blk)).
  assert (H0 : 0 < MAX_BLOCK_UNCOMP_LEN) by done.
  assert (Hu : forall x, 0 <= x < 2 ^ 32 -> is_u32 x /\ as_u32 x = x).
  { intros x Hx. split; [done|by apply as_u32_small]. }
  assert (Hlen : forall f x y z, len ([f] ++ be32 x ++ be32 y ++ z) = 9 + len z).
  { intros. unfold be32. rewrite !len_app, !len_be. change (len [f]) with 1. lia. }
  destruct (Hu (len blk)) as [U1 E1]; [lia|]. rewrite E1.
  destruct (Z.ltb_spec (len (lz4_compress blk)) (len blk)) as [Hlt|Hge]; intros Hsz;
    rewrite Hlen in *; rewrite Z.add_assoc.
  - destruct (Hu (len (lz4_compress blk))) as [U2 ->]; [lia|].
    rewrite decompress_frame_header by (done || lia).
    destruct (Z.ltb_spec MAX_BLOCK_UNCOMP_LEN (len blk)); [done|lia].
  - rewrite decompress_frame_header by (done || lia).
    destruct (Z.ltb_spec MAX_BLOCK_UNCOMP_LEN (len blk)); [done|lia].
Qed.

(** ** Opening a written file *)

Lemma len_be32 x : len (be32 x) = 4.
Proof. unfold be32. by rewrite len_be. Qed.

Lemma len_be64 x : len (be64 x) = 8.
Proof. unfold be64. by rewrite len_be. Qed.

Definition index_entry_ok (e : IndexEntry) : Prop := is_u32 (len (ie_key e)) /\ is_u64 (ie_offset e).

Lemma parse_index_enc ix pre post :
  Forall index_entry_ok ix -> len (pre ++ enc_index ix ++ post) < 2 ^ 63 ->
  parse_index (length ix) (pre ++ enc_index ix ++ post) (len pre) = Ok ix.
Proof.
  intros H. revert pre. induction H as [|e ix [Hk Ho] _ IH]; intros pre Hsz; [done|].
  change (enc_index (e :: ix)) with
    ((be32 (as_u32 (len (ie_key e))) ++ ie_key e ++ be64 (ie_offset e)) ++ enc_index ix) in *.
  rewrite (as_u32_small (len (ie_key e))) in * by done.
  set (data := pre ++ _ ++ post) in *.
  pose proof (len_nonneg pre). pose proof (len_nonneg (ie_key e)).
  assert (D1 : data = pre ++ be32 (len (ie_key e)) ++ (ie_key e ++ be64 (ie_offset e) ++ enc_index ix ++ post))
    by (unfold data; app_solve).
  assert (D2 : data = (pre ++ be32 (len (ie_key e))) ++ ie_key e ++ (be64 (ie_offset e) ++ enc_index ix ++ post))
    by (unfold data; app_solve).
  assert (D3 : data = (pre ++ be32 (len (ie_key e)) ++ ie_key e) ++ be64 (ie_offset e) ++ (enc_index ix ++ post))
    by (unfold data; app_solve).
  set (pre' := pre ++ be32 (len (ie_key e)) ++ ie_key e ++ be64 (ie_offset e)).
  assert (D4 : data = pre' ++ enc_index ix ++ post) by (unfold data, pre'; app_solve).
  assert (L2 : len (pre ++ be32 (len (ie_key e))) = len pre + 4) by (by rewrite len_app, len_be32).
  assert (L3 : len (pre ++ be32 (len (ie_key e)) ++ ie_key e) = len pre + 4 + len (ie_key e))
    by (rewrite !len_app, len_be32; lia).
  assert (L4 : len pre' = len pre + 4 + len (ie_key e) + 8)
    by (unfold pre'; rewrite !len_app, len_be32, len_be64; lia).
  assert (Hd : len pre' <= len data) by (rewrite D4, len_app; pose proof (len_nonneg (enc_index ix ++ post)); lia).
  cbn [length parse_index]. rewrite (as_u64_small (len pre + 4)) by (unfold is_u64; lia).
  destruct (Z.ltb_spec (len data) (len pre + 4)); [lia|].
  rewrite D1 at 1. rewrite read_be32_at by (done || lia). cbn [mbind res_bind].
  rewrite !(as_u64_small (len pre + 4 + len (ie_key e))) by (unfold is_u64; lia).
  rewrite D2 at 1. rewrite slice_app by lia. cbn [mbind res_bind].
  rewrite D3 at 1. rewrite read_be64_at by (done || lia). cbn [mbind res_bind].
  rewrite as_u64_small by (unfold is_u64; lia).
  rewrite D4 in *. rewrite <- L4, IH by done. by destruct e.
Qed.

(** The footer of a v5/v6 file, read at its offsets. *)
Lemma open_footer_fields body zo zs bo bs io ic version bloom zone :
  4 <= version -> is_u64 zo -> is_u32 zs -> is_u64 bo -> is_u32 bs -> is_u64 io -> is_u32 ic ->
  8 <= len body -> len body < 2 ^ 62 ->
  let data := body ++ be64 zo ++ be32 zs ++ be64 bo ++ be32 bs ++ be64 io ++ be32 ic ++ SST_MAGIC in
  open_zone data version zo zs (len body) = Ok zone ->
  open_bloom data version bo bs (len body) = Ok bloom ->
  open_footer data version = Ok (io, ic, Some bloom, zone).
Proof.
  intros Hv Hzo Hzs Hbo Hbs Hio Hic H8 Hsz data Hz Hb. unfold open_footer.
  destruct (Z.leb_spec 4 version); [|lia].
  assert (Hlen : len data = len body + 40).
  { unfold data. rewrite !len_app, !len_be64, !len_be32. change (len SST_MAGIC) with 4. lia. }
  change (len SST_MAGIC + 4 + FOOTER_V4_SIZE) with 48. change FOOTER_V4_SIZE with 40. rewrite Hlen.
  destruct (Z.ltb_spec (len body + 40) 48); [lia|].
  replace (len body + 40 - 40) with (len body) by lia.
  set (p1 := body ++ be64 zo). set (p2 := p1 ++ be32 zs). set (p3 := p2 ++ be64 bo).
  set (p4 := p3 ++ be32 bs). set (p5 := p4 ++ be64 io). set (p6 := p5 ++ be32 ic).
  assert (L1 : len p1 = len body + 8) by (unfold p1; by rewrite len_app, len_be64).
  assert (L2 : len p2 = len body + 12) by (unfold p2; rewrite len_app, len_be32; lia).
  assert (L3 : len p3 = len body + 20) by (unfold p3; rewrite len_app, len_be64; lia).
  assert (L4 : len p4 = len body + 24) by (unfold p4; rewrite len_app, len_be32; lia).
  assert (L5 : len p5 = len body + 32) by (unfold p5; rewrite len_app, len_be64; lia).
  assert (L6 : len p6 = len body + 36) by (unfold p6; rewrite len_app, len_be32; lia).
  assert (D0 : data = body ++ be64 zo ++ be32 zs ++ be64 bo ++ be32 bs ++ be64 io ++ be32 ic ++ SST_MAGIC)
    by done.
  assert (D1 : data = p1 ++ be32 zs ++ be64 bo ++ be32 bs ++ be64 io ++ be32 ic ++ SST_MAGIC)
    by (unfold data, p1; app_solve).
  assert (D2 : data = p2 ++ be64 bo ++ be32 bs ++ be64 io ++ be32 ic ++ SST_MAGIC)
    by (rewrite D1; unfold p2; app_solve).
  assert (D3 : data = p3 ++ be32 bs ++ be64 io ++ be32 ic ++ SST_MAGIC) by (rewrite D2; unfold p3; app_solve).
  assert (D4 : data = p4 ++ be64 io ++ be32 ic ++ SST_MAGIC) by (rewrite D3; unfold p4; app_solve).
  assert (D5 : data = p5 ++ be32 ic ++ SST_MAGIC) by (rewrite D4; unfold p5; app_solve).
  assert (D6 : data = p6 ++ SST_MAGIC ++ []) by (rewrite D5, app_nil_r; unfold p6; app_solve).
  clearbody data.
  unfold slice_from. rewrite D6 at 1. rewrite slice_app by
    (rewrite ?Hlen; change (len SST_MAGIC) with 4; lia). cbn [mbind res_bind].
  replace (beqb SST_MAGIC SST_MAGIC) with true by done. cbn [negb].
  rewrite D0 at 1. rewrite read_be64_at by (done || lia). cbn [mbind res_bind].
  rewrite D1 at 1. rewrite read_be32_at by (done || lia). cbn [mbind res_bind].
  rewrite D2 at 1. rewrite read_be64_at by (done || lia). cbn [mbind res_bind].
  rewrite D3 at 1. rewrite read_be32_at by (done || lia). cbn [mbind res_bind].
  rewrite D4 at 1. rewrite read_be64_at by (done || lia). cbn [mbind res_bind].
  rewrite D5 at 1. rewrite read_be32_at by (done || lia). cbn [mbind res_bind].
  rewrite Hz. cbn [mbind res_bind]. by rewrite Hb.
Qed.

(** A reader over a data region laid out as the writer does. *)
Record laid_out (r : SstReader) (c : SstCompression) (bs : list (list entry)) : Prop := {
  lo_data : exists rest, r_data r = (SST_MAGIC ++ be32 (sst_version c)) ++ frames c bs ++ rest;
  lo_size : len (r_data r) < 2 ^ 63;
  lo_index : r_index r = index_of c 8 bs;
  lo_end : r_data_end r = 8 + len (frames c bs);
  lo_version : r_version r = sst_version c;
  lo_nonempty : Forall (fun b => b <> []) bs;
  lo_cap : c = CompressLz4 -> Forall (fun b => len (enc_entries b) <= MAX_BLOCK_UNCOMP_LEN) bs;
}.

Lemma laid_out_end r c bs i b :
  laid_out r c bs -> bs !! i = Some b ->
  block_end_offset r i = 8 + len (frames c (take (S i) bs)).
Proof.
  intros Hl Hi. unfold block_end_offset. rewrite (lo_index _ _ _ Hl).
  destruct (bs !! S i) as [b'|] eqn:E'.
  - by erewrite index_of_lookup by done.
  - rewrite (proj2 (lookup_ge_None (index_of c 8 bs) (S i))).
    + rewrite (lo_end _ _ _ Hl). do 2 f_equal. rewrite take_ge; [done|]. by apply lookup_ge_None.
    + rewrite length_index_of. by apply lookup_ge_None.
Qed.

Lemma laid_out_block r c bs i b :
  ExternLaws E -> laid_out r c bs -> bs !! i = Some b -> sst_block r i = Ok (enc_entries b).
Proof.
  intros EL Hl Hi. unfold sst_block. rewrite (laid_out_end r c bs i b Hl Hi), (lo_index _ _ _ Hl).
  rewrite (index_of_lookup c 8 bs i b Hi). cbn [ie_offset]. rewrite (frames_take_S _ _ _ _ Hi).
  destruct (lo_data _ _ _ Hl) as [rest Hd]. pose proof (lo_size _ _ _ Hl) as Hsz.
  pose proof (enc_entries_pos b (Forall_lookup_1 _ _ _ _ (lo_nonempty _ _ _ Hl) Hi)) as Hpos.
  rewrite (lo_end _ _ _ Hl), (lo_version _ _ _ Hl), (frames_split _ _ _ _ Hi).
  rewrite (frames_split _ _ _ _ Hi) in Hd. set (blk := enc_entries b) in *.
  pose proof (block_frame_nonempty c blk Hpos).
  set (pre := frames c (take i bs)) in *. set (post := frames c (drop (S i) bs)) in *.
  pose proof (len_nonneg pre). pose proof (len_nonneg post). pose proof (len_nonneg rest).
  rewrite !len_app.
  destruct (Z.ltb_spec (8 + (len pre + len (block_frame c blk))) (8 + len pre)); [lia|].
  destruct (Z.ltb_spec (8 + (len pre + (len (block_frame c blk) + len post)))
    (8 + (len pre + len (block_frame c blk)))); [lia|]. cbn [orb].
  set (hd := SST_MAGIC ++ be32 (sst_version c)) in *.
  assert (Hh : len (hd ++ pre) = 8 + len pre) by (rewrite len_app; unfold hd; by rewrite len_sst_header).
  assert (Hdata : r_data r = (hd ++ pre) ++ block_frame c blk ++ (post ++ rest)) by (rewrite Hd; app_solve).
  rewrite Hdata in *. rewrite !len_app in Hsz. destruct c.
  - rewrite <- Hh. change (sst_version CompressNone <? SST_VERSION_COMPRESSED) with true. cbv iota.
    rewrite slice_app; [done|done|]. rewrite len_app. unfold hd. rewrite len_sst_header. lia.
  - change (sst_version CompressLz4 <? SST_VERSION_COMPRESSED) with false. cbv iota.
    replace (8 + (len pre + len (block_frame CompressLz4 blk)))
      with (len (hd ++ pre) + len (block_frame CompressLz4 blk)) by lia.
    rewrite <- Hh. apply block_frame_round_trip; [done| |rewrite !len_app; lia].
    split; [done|]. by apply (Forall_lookup_1 _ _ _ _ (lo_cap _ _ _ Hl eq_refl) Hi).
Qed.

Lemma first_past_spec ix off :
  match first_past ix off with
  | Some i => (exists e, ix !! i = Some e /\ off < ie_offset e) /\
      forall j e, (j < i)%nat -> ix !! j = Some e -> ie_offset e <= off
  | None => forall j e, ix !! j = Some e -> ie_offset e <= off
  end.
Proof.
  induction ix as [|e ix IH]; [done|]. cbn [first_past].
  destruct (Z.ltb_spec off (ie_offset e)) as [Hlt|Hge]; [by split; [exists e|lia]|].
  destruct (first_past ix off) as [i|].
  - destruct IH as [H1 H2]. split; [done|]. intros [|j] e' Hj He'; [by injection He' as <-|].
    apply (H2 j); [lia|done].
  - intros [|j] e' He'; [by injection He' as <-|]. by apply (IH j).
Qed.

Lemma frames_take_mono c bs i j :
  Forall (fun b => b <> []) bs -> (i < j)%nat -> (j <= length bs)%nat ->
  len (frames c (take i bs)) < len (frames c (take j bs)).
Proof.
  intros Hne Hij. induction Hij as [|j Hij IH]; intros Hj.
  - destruct (lookup_lt_is_Some_2 bs i ltac:(lia)) as [b Hb]. rewrite (frames_take_S _ _ _ _ Hb).
    pose proof (block_frame_nonempty c _ (enc_entries_pos b (Forall_lookup_1 _ _ _ _ Hne Hb))). lia.
  - destruct (lookup_lt_is_Some_2 bs j ltac:(lia)) as [b Hb]. rewrite (frames_take_S _ _ _ _ Hb).
    pose proof (block_frame_nonempty c _ (enc_entries_pos b (Forall_lookup_1 _ _ _ _ Hne Hb))).
    specialize (IH ltac:(lia)). lia.
Qed.

(** Block boundaries are recognized. *)
Lemma laid_out_offset r c bs i b :
  laid_out r c bs -> bs !! i = Some b ->
  block_idx_for_offset r (8 + len (frames c (take i bs))) = i /\
  8 + len (frames c (take i bs)) < r_data_end r.
Proof.
  intros Hl Hi. pose proof (lo_nonempty _ _ _ Hl) as Hne. pose proof (lookup_lt_Some _ _ _ Hi) as Hlt.
  split.
  - unfold block_idx_for_offset. rewrite (lo_index _ _ _ Hl), length_index_of.
    pose proof (first_past_spec (index_of c 8 bs) (8 + len (frames c (take i bs)))) as Hf.
    destruct (first_past _ _) as [j|].
    + destruct Hf as [(e & Hj & Hgt) Hall].
      pose proof (lookup_lt_Some _ _ _ Hj) as Hjl. rewrite length_index_of in Hjl.
      destruct (lookup_lt_is_Some_2 bs j Hjl) as [bj Hbj].
      rewrite (index_of_lookup c 8 bs j bj Hbj) in Hj. injection Hj as <-. cbn in Hgt.
      destruct (decide (j = S i)) as [->|Hne']; [lia|]. exfalso.
      destruct (decide (j <= i)%nat) as [Hle|Hle].
      * destruct (decide (j = i)) as [->|]; [lia|].
        pose proof (frames_take_mono c bs j i Hne ltac:(lia) ltac:(lia)). lia.
      * destruct (lookup_lt_is_Some_2 bs (S i) ltac:(lia)) as [b2 Hb2].
        specialize (Hall (S i) _ ltac:(lia) (index_of_lookup c 8 bs (S i) b2 Hb2)). cbn in Hall.
        pose proof (frames_take_mono c bs i (S i) Hne ltac:(lia) ltac:(lia)). lia.
    + destruct (decide (i = length bs - 1)%nat); [lia|].
      destruct (lookup_lt_is_Some_2 bs (S i) ltac:(lia)) as [b2 Hb2].
      specialize (Hf (S i) _ (index_of_lookup c 8 bs (S i) b2 Hb2)). cbn in Hf.
      pose proof (frames_take_mono c bs i (S i) Hne ltac:(lia) ltac:(lia)). lia.
  - rewrite (lo_end _ _ _ Hl). pose proof (frames_take_mono c bs i (length bs) Hne ltac:(lia) ltac:(lia)).
    rewrite take_ge with (n := length bs) in * by lia. lia.
Qed.

(** ** What a reader represents

    The interface between the file format and the read paths: a reader over
    the blocks [bs]. *)
Record sst_repr (r : SstReader) (bs : list (list entry)) : Prop := {
  sr_length : length (r_index r) = length bs;
  sr_key : forall i b, bs !! i = Some b ->
    exists ie e tl, r_index r !! i = Some ie /\ b = e :: tl /\ ie_key ie = fst e /\
      block_idx_for_offset r (ie_offset ie) = i /\ ie_offset ie < r_data_end r;
  sr_start : forall ie, r_index r !! 0%nat = Some ie -> ie_offset ie = HEADER_POS;
  sr_block : forall i b, bs !! i = Some b -> sst_block r i = Ok (enc_entries b);
  sr_ok : Forall entry_ok (concat bs);
  sr_wf : wf_entries (concat bs);
  sr_sorted : bsorted (concat bs);
  sr_bloom : forall k, exists b, might_contain r k = Ok b /\
    forall e, In e (concat bs) -> euk e = k -> b = true;
  sr_first : r_first_user_key r = euk <$> head (concat bs);
  sr_last : r_last_user_key r = euk <$> last (concat bs);
}.

Lemma read_be32_header c rest :
  len (SST_MAGIC ++ be32 (sst_version c) ++ rest) < 2 ^ 63 ->
  read_be (SST_MAGIC ++ be32 (sst_version c) ++ rest) 4 4 = Ok (sst_version c).
Proof. intros H. apply read_be32_at; [done|destruct c; by unfold is_u32|lia]. Qed.

Lemma head_concat (bs : list (list entry)) :
  Forall (fun b => b <> []) bs -> head (concat bs) = match bs with (e :: _) :: _ => Some e | _ => None end.
Proof. intros H. destruct bs as [|[|e b] bs]; [done| |done]. by inversion H. Qed.

Lemma last_concat (bs : list (list entry)) b :
  b <> [] -> last (concat (bs ++ [b])) = last b.
Proof.
  intros Hb. rewrite concat_app. cbn. rewrite app_nil_r.
  destruct (exists_last Hb) as (l & e & ->). by rewrite app_assoc, !last_snoc.
Qed.

Lemma open_bloom_written pre buf post version f rest :
  version <> 2 -> len pre + len buf <= 2 ^ 62 ->
  forall a, buf = hash_algo_to_byte a :: rest ->
  (exists r', bloom_read_from rest a = Ok (f, r')) ->
  open_bloom (pre ++ buf ++ post) version (len pre) (len buf) (len pre + len buf) = Ok f.
Proof.
  intros Hv Hsz a Hb [r' Hr]. pose proof (len_nonneg pre). pose proof (len_nonneg buf).
  unfold open_bloom. rewrite as_u64_small by (unfold is_u64; lia).
  destruct (Z.ltb_spec (len pre + len buf) (len pre + len buf)); [lia|].
  rewrite slice_app by done. cbn [mbind res_bind].
  destruct (Z.eqb_spec version 2); [done|]. rewrite Hb.
  assert (Ha : hash_algo_from_byte (hash_algo_to_byte a) = Some a) by by destruct a.
  rewrite Ha, Hr. done.
Qed.

Lemma open_zone_written pre buf post version zm rest fs :
  5 <= version -> len pre + len buf <= fs -> fs <= 2 ^ 62 -> zm_read_from buf = Ok (zm, rest) ->
  open_zone (pre ++ buf ++ post) version (len pre) (len buf) fs = Ok (Some zm).
Proof.
  intros Hv Hle Hsz Hr. pose proof (len_nonneg pre). pose proof (len_nonneg buf).
  unfold open_zone. rewrite as_u64_small by (unfold is_u64; lia).
  destruct (Z.ltb_spec fs (len pre + len buf)); [lia|]. destruct (Z.leb_spec 5 version); [|lia].
  rewrite slice_app by done. cbn [mbind res_bind]. by rewrite Hr.
Qed.

Lemma compute_last_laid_out r c bs :
  ExternLaws E -> laid_out r c bs -> Forall entry_ok (concat bs) -> wf_entries (concat bs) ->
  compute_last_user_key r = Ok (euk <$> last (concat bs)).
Proof.
  intros EL Hl Hok Hw. unfold compute_last_user_key. pose proof (lo_index _ _ _ Hl) as Hix.
  pose proof (lo_nonempty _ _ _ Hl) as Hne. pose proof (length_index_of c 8 bs) as Hlen.
  destruct bs as [|b bs' _] using rev_ind; [by rewrite Hix|].
  rewrite <- Hix in Hlen. rewrite length_app in Hlen. cbn in Hlen.
  destruct (r_index r) as [|ie ix] eqn:Er; [cbn in Hlen; lia|]. rewrite <- Er in *. rewrite Hlen.
  replace (length bs' + 1 - 1)%nat with (length bs') by lia.
  assert (Hb : (bs' ++ [b]) !! length bs' = Some b) by (rewrite lookup_app_r, Nat.sub_diag by lia; done).
  rewrite (laid_out_block r c _ _ b EL Hl Hb). cbn [mbind res_bind].
  assert (Hbn : b <> []) by (apply Forall_app in Hne as [_ Hne]; by inversion Hne).
  rewrite concat_app in Hok, Hw. cbn in Hok, Hw. rewrite app_nil_r in Hok, Hw.
  apply Forall_app in Hok as [_ Hok]. apply Forall_app in Hw as [_ Hw].
  rewrite last_key_loop_enc by done. rewrite last_concat by done. by destruct (last b).
Qed.

Lemma index_of_ok c bs :
  Forall entry_ok (concat bs) -> Forall (fun b => b <> []) bs -> 8 + len (frames c bs) < 2 ^ 64 ->
  Forall index_entry_ok (index_of c 8 bs).
Proof.
  intros Hok Hne Hsz. apply Forall_lookup. intros i ie Hi.
  pose proof (lookup_lt_Some _ _ _ Hi) as Hlt. rewrite length_index_of in Hlt.
  destruct (lookup_lt_is_Some_2 bs i Hlt) as [b Hb].
  rewrite (index_of_lookup c 8 bs i b Hb) in Hi. injection Hi as <-.
  assert (Hbn : b <> []) by apply (Forall_lookup_1 _ _ _ _ Hne Hb). split; cbn.
  - destruct b as [|e b]; [done|].
    assert (He : In e (concat bs)).
    { apply in_concat. exists (e :: b). split; [|by left]. apply list_elem_of_In. by eapply list_elem_of_lookup_2. }
    rewrite List.Forall_forall in Hok. by apply Hok.
  - rewrite (frames_split c bs i b Hb), !len_app in Hsz.
    pose proof (len_nonneg (frames c (take i bs))). pose proof (len_nonneg (block_frame c (enc_entries b))).
    pose proof (len_nonneg (frames c (drop (S i) bs))). unfold is_u64. lia.
Qed.

(** The footer of a written file. *)
Lemma open_file_footer c bs zb bloom rest' f' zm :
  let zone_buf := zb_write_to zb in
  let bloom_buf := [hash_algo_to_byte (algo bloom)] ++ bloom_write_to bloom in
  zm_read_from zone_buf = Ok (zm, []) ->
  bloom_read_from (bloom_write_to bloom) (algo bloom) = Ok (f', rest') ->
  is_u32 (len zone_buf) -> is_u32 (len bloom_buf) -> is_u32 (Z.of_nat (length bs)) ->
  len (sst_file c bs zone_buf bloom_buf) < 2 ^ 62 ->
  open_footer (sst_file c bs zone_buf bloom_buf) (sst_version c)
  = Ok (8 + len (frames c bs), Z.of_nat (length bs), Some f', Some zm).
Proof.
  intros zone_buf bloom_buf Hz Hb Huz Hub Hul Hsz.
  set (hd := SST_MAGIC ++ be32 (sst_version c)). set (ix := enc_index (index_of c 8 bs)).
  assert (Hh : len hd = 8) by apply len_sst_header.
  set (io := 8 + len (frames c bs)). set (zo := io + len ix). set (bo := zo + len zone_buf).
  set (body := hd ++ frames c bs ++ ix ++ zone_buf ++ bloom_buf).
  assert (Hfoot : sst_file c bs zone_buf bloom_buf = body ++ be64 zo ++ be32 (len zone_buf) ++ be64 bo
    ++ be32 (len bloom_buf) ++ be64 io ++ be32 (Z.of_nat (length bs)) ++ SST_MAGIC).
  { unfold sst_file, sst_footer. rewrite !as_u32_small by done. fold ix io zo bo.
    unfold body, hd. app_solve. }
  set (data := sst_file c bs zone_buf bloom_buf) in *.
  pose proof (len_nonneg (frames c bs)). pose proof (len_nonneg ix). pose proof (len_nonneg zone_buf).
  pose proof (len_nonneg bloom_buf).
  assert (Hbody : len body = bo + len bloom_buf) by (unfold body, bo, zo, io; rewrite !len_app; lia).
  assert (Hlen : len data = len body + 40).
  { rewrite Hfoot, !len_app, !len_be64, !len_be32. change (len SST_MAGIC) with 4. lia. }
  set (tail := be64 zo ++ be32 (len zone_buf) ++ be64 bo ++ be32 (len bloom_buf) ++ be64 io
    ++ be32 (Z.of_nat (length bs)) ++ SST_MAGIC) in *.
  assert (Hv5 : 5 <= sst_version c /\ sst_version c <> 2 /\ sst_version c <= 6) by (destruct c; by cbn).
  assert (Ez : open_zone data (sst_version c) zo (len zone_buf) (len body) = Ok (Some zm)).
  { rewrite Hfoot. replace (body ++ tail) with ((hd ++ frames c bs ++ ix) ++ zone_buf ++ (bloom_buf ++ tail))
      by (unfold body; app_solve).
    replace zo with (len (hd ++ frames c bs ++ ix)) by (unfold zo, io; rewrite !len_app; lia).
    eapply open_zone_written; [lia| |lia|exact Hz]. rewrite Hbody. unfold bo, zo, io. rewrite !len_app. lia. }
  assert (Eb : open_bloom data (sst_version c) bo (len bloom_buf) (len body) = Ok f').
  { rewrite Hfoot. replace (body ++ tail) with ((hd ++ frames c bs ++ ix ++ zone_buf) ++ bloom_buf ++ tail)
      by (unfold body; app_solve).
    replace bo with (len (hd ++ frames c bs ++ ix ++ zone_buf)) by (unfold bo, zo, io; rewrite !len_app; lia).
    rewrite Hbody. replace (bo + len bloom_buf) with (len (hd ++ frames c bs ++ ix ++ zone_buf) + len bloom_buf)
      by (unfold bo, zo, io; rewrite !len_app; lia).
    eapply open_bloom_written; [lia| |done|by eexists]. unfold bo, zo, io in *. rewrite !len_app. lia. }
  rewrite Hfoot. unfold tail. apply open_footer_fields; try done; unfold is_u64, is_u32, bo, zo, io in *;
    try lia; fold tail io zo bo; by rewrite <- Hfoot.
Qed.

(** A file laid out by the writer opens to a reader of its blocks. *)
Lemma open_file c bs zb bloom rest' f' zm :
  ExternLaws E -> Forall (fun b => b <> []) bs -> Forall entry_ok (concat bs) ->
  wf_entries (concat bs) ->
  (c = CompressLz4 -> Forall (fun b => len (enc_entries b) <= MAX_BLOCK_UNCOMP_LEN) bs) ->
  let zone_buf := zb_write_to zb in
  let bloom_buf := [hash_algo_to_byte (algo bloom)] ++ bloom_write_to bloom in
  zm_read_from zone_buf = Ok (zm, []) ->
  bloom_read_from (bloom_write_to bloom) (algo bloom) = Ok (f', rest') ->
  is_u32 (len zone_buf) -> is_u32 (len bloom_buf) -> is_u32 (Z.of_nat (length bs)) ->
  len (sst_file c bs zone_buf bloom_buf) < 2 ^ 62 ->
  exists r, sst_open (sst_file c bs zone_buf bloom_buf) = Ok r /\ laid_out r c bs /\
    r_bloom r = Some f' /\ r_zone_map r = Some zm /\
    r_first_user_key r = euk <$> head (concat bs) /\ r_last_user_key r = euk <$> last (concat bs).
Proof.
  intros EL Hne Hok Hw Hcap zone_buf bloom_buf Hz Hb Huz Hub Hul Hsz.
  pose proof (open_file_footer c bs zb bloom rest' f' zm Hz Hb Huz Hub Hul Hsz) as Ef.
  fold zone_buf bloom_buf in Ef. set (data := sst_file c bs zone_buf bloom_buf) in *.
  set (rest := enc_index (index_of c 8 bs) ++ zone_buf ++ bloom_buf ++ sst_footer c bs zone_buf bloom_buf).
  assert (Hd : data = (SST_MAGIC ++ be32 (sst_version c)) ++ frames c bs ++ rest)
    by (unfold data, sst_file, rest; app_solve).
  assert (Hd2 : data = ((SST_MAGIC ++ be32 (sst_version c)) ++ frames c bs) ++ enc_index (index_of c 8 bs)
    ++ (zone_buf ++ bloom_buf ++ sst_footer c bs zone_buf bloom_buf)) by (rewrite Hd; unfold rest; app_solve).
  assert (Hlo : forall last, laid_out {| r_data := data; r_index := index_of c 8 bs; r_bloom := Some f';
    r_data_end := 8 + len (frames c bs);
    r_first_user_key := match index_of c 8 bs with
      | e :: _ => if (8 <=? length (ie_key e))%nat then Some (InternalKey.user_key (ie_key e)) else None
      | [] => None end;
    r_last_user_key := last; r_zone_map := Some zm; r_version := sst_version c |} c bs).
  { intros last. split; cbn [r_data r_index r_data_end r_version]; try done; [by exists rest|lia]. }
  assert (Hpi : parse_index (length bs) data (8 + len (frames c bs)) = Ok (index_of c 8 bs)).
  { rewrite <- (length_index_of c 8 bs), Hd2.
    replace (8 + len (frames c bs)) with (len ((SST_MAGIC ++ be32 (sst_version c)) ++ frames c bs))
      by (rewrite len_app, len_sst_header; lia).
    apply parse_index_enc; [|rewrite <- Hd2; lia]. apply index_of_ok; [done..|].
    rewrite Hd, len_app, len_sst_header, len_app in Hsz. pose proof (len_nonneg rest). lia. }
  unfold sst_open. assert (Hl48 : 48 <= len data).
  { rewrite Hd, !len_app. unfold rest, sst_footer. rewrite !len_app, !len_be64, !len_be32.
    repeat match goal with |- context [len ?x] => lazymatch goal with
      | H : 0 <= len x |- _ => fail | _ => pose proof (len_nonneg x) end end.
    change (len SST_MAGIC) with 4. lia. }
  change (len SST_MAGIC + 4 + FOOTER_V1_SIZE) with 24.
  destruct (Z.ltb_spec (len data) 24); [lia|].
  replace (take 4 data) with SST_MAGIC by done. replace (beqb SST_MAGIC SST_MAGIC) with true by done.
  assert (Hver : read_be data 4 4 = Ok (sst_version c))
    by (apply read_be32_header; fold (sst_file c bs zone_buf bloom_buf) data; lia).
  cbn [negb]. rewrite Hver. cbn [mbind res_bind]. replace (negb _) with false by by destruct c.
  rewrite Ef. cbn [mbind res_bind]. rewrite Nat2Z.id, Hpi. cbn [mbind res_bind].
  rewrite (compute_last_laid_out _ c bs EL (Hlo None) Hok Hw). cbn [mbind res_bind].
  eexists. split; [done|]. split; [apply Hlo|].
  cbn [r_bloom r_zone_map r_first_user_key r_last_user_key]. split_and!; try done.
  rewrite head_concat by done. destruct bs as [|[|e b] bs]; [done|by inversion Hne|].
  cbn [index_of ie_key]. inversion Hw as [|? ? Hl _].
  by destruct (Nat.leb_spec 8 (length (fst e))); [|lia].
Qed.

Lemma len_enc_index ix : 12 * Z.of_nat (length ix) <= len (enc_index ix).
Proof.
  induction ix as [|e ix IH]; [done|]. change (enc_index (e :: ix)) with
    ((be32 (as_u32 (len (ie_key e))) ++ ie_key e ++ be64 (ie_offset e)) ++ enc_index ix).
  rewrite !len_app, len_be32, len_be64. cbn [length]. pose proof (len_nonneg (ie_key e)). lia.
Qed.

Lemma len_enc_entries_bound m b :
  0 <= m -> Forall (fun e => 16 * len (enc_entry e) <= m) b -> 16 * len (enc_entries b) <= m * Z.of_nat (length b).
Proof.
  intros Hm H. induction H as [|e b He _ IH]; [unfold len; cbn; lia|].
  change (enc_entries (e :: b)) with (enc_entry e ++ enc_entries b). rewrite len_app. cbn [length]. lia.
Qed.

Lemma block_in (bs : list (list entry)) i b e : bs !! i = Some b -> In e b -> In e (concat bs).
Proof.
  intros Hb He. apply in_concat. exists b. split; [|done].
  apply list_elem_of_In. by eapply list_elem_of_lookup_2.
Qed.

Lemma cap_of_entries bs :
  blocked bs -> Forall (fun e => 16 * len (enc_entry e) <= MAX_BLOCK_UNCOMP_LEN) (concat bs) ->
  Forall (fun b => len (enc_entries b) <= MAX_BLOCK_UNCOMP_LEN) bs.
Proof.
  intros (_ & Hl & _) He. apply Forall_lookup. intros i b Hb.
  pose proof (Forall_lookup_1 _ _ _ _ Hl Hb) as Hlen. cbn in Hlen. unfold ENTRIES_PER_BLOCK in Hlen.
  assert (Hb' : Forall (fun e => 16 * len (enc_entry e) <= MAX_BLOCK_UNCOMP_LEN) b).
  { apply List.Forall_forall. intros e Hin. rewrite List.Forall_forall in He. eapply He, block_in; eauto. }
  pose proof (len_enc_entries_bound MAX_BLOCK_UNCOMP_LEN b ltac:(done) Hb').
  assert (0 < MAX_BLOCK_UNCOMP_LEN) by done. nia.
Qed.

(** The filter of a written file answers every lookup, and yes for its keys. *)
Lemma written_bloom uks bloom :
  bloom_add_all (bloom_new (Z.of_nat (length uks))) uks = Ok bloom ->
  exists f' rest', bloom_read_from (bloom_write_to bloom) (algo bloom) = Ok (f', rest') /\
    forall k, exists b, bloom_contains f' k = Ok b /\ (In k uks -> b = true).
Proof.
  intros Hb. destruct (bloom_add_all_spec _ uks (with_params_ok (Z.of_nat (length uks))
    DEFAULT_BITS_PER_ENTRY DEFAULT_K Xxh3)) as (f & Ef & Hok & Hs & Hin & _).
  assert (f = bloom) as -> by (unfold bloom_new, with_params in Hb; congruence).
  destruct (bloom_round_trip _ _ DEFAULT_K _ bloom [] ltac:(by unfold DEFAULT_K) Hs) as (f' & rest' & Er & Hf).
  assert (Ha : algo bloom = Xxh3) by by destruct Hs as (_ & _ & _ & _ & ->).
  rewrite app_nil_r in Er. rewrite Ha. exists f', rest'. split; [done|]. intros k.
  destruct Hf as [[-> _]|H0].
  - destruct (contains_total bloom k Hok) as [b Eb]. exists b. split; [done|]. intros Hk.
    rewrite contains_of_key_set in Eb by auto. congruence.
  - exists true. unfold bloom_contains. by rewrite H0.
Qed.

(** Writing entries in key order and opening the file gives a reader of them. *)
Lemma sst_write_open ext c es :
  ExternLaws E -> bsorted es -> wf_entries es -> Forall entry_ok es -> sst_fits ext c es ->
  exists file meta r bs zb zm, sst_write ext c es = Ok (file, meta) /\ meta_entry_count meta = length es /\
    sst_open file = Ok r /\ sst_repr r bs /\ laid_out r c bs /\ concat bs = es /\ blocked bs /\
    zb_record_all zb_new (zone_recs ext 0 es) = Ok zb /\ zb_sized zb /\
    zm_read_from (zb_write_to zb ++ []) = Ok (zm, []) /\ r_zone_map r = Some zm.
Proof.
  intros EL Hs Hw Hok (w' & file & meta' & Ew' & Ef & Hsz & Hmeta & Hzs & Hcap).
  destruct (sst_write_layout ext c es) as (w & bs & bloom & meta & Ew & Hc & Hb & Hoff & Hz & Hbl & Hk & Efin & Hm).
  rewrite Ew in Ew'. injection Ew' as <-. rewrite Efin in Ef. injection Ef as <- <-.
  destruct (zb_record_all_spec zb_new (zone_recs ext 0 es) zb_new_wf) as (zb & Ez & Hzw & _).
  rewrite Hz in Ez. injection Ez as <-.
  destruct (zone_round_trip (w_zone_builder w) [] Hzw Hzs) as (zm & Ezm & _). pose proof Ezm as Ezm'.
  rewrite app_nil_r in Ezm.
  destruct (written_bloom _ _ Hbl) as (f' & rest' & Er & Hf'). subst es.
  set (zone_buf := zb_write_to (w_zone_builder w)) in *.
  set (bloom_buf := [hash_algo_to_byte (algo bloom)] ++ bloom_write_to bloom) in *.
  assert (Hu : is_u32 (len zone_buf) /\ is_u32 (len bloom_buf) /\ is_u32 (Z.of_nat (length bs))).
  { rewrite <- Hoff in Hmeta. unfold sst_file in Hmeta.
    rewrite app_assoc, (len_app (SST_MAGIC ++ _)), len_sst_header, (len_app (frames c bs)),
      (len_app (enc_index _)), (len_app zone_buf), (len_app bloom_buf) in Hmeta.
    pose proof (len_enc_index (index_of c 8 bs)) as Hix. rewrite length_index_of in Hix.
    pose proof (len_nonneg zone_buf). pose proof (len_nonneg bloom_buf).
    pose proof (len_nonneg (sst_footer c bs zone_buf (hash_algo_to_byte (algo bloom) :: bloom_write_to bloom))).
    unfold is_u32. lia. }
  destruct Hu as (Hu1 & Hu2 & Hu3).
  destruct (open_file c bs (w_zone_builder w) bloom rest' f' zm EL (proj1 Hb) Hok Hw) as
    (r & Eo & Hlo & Hrb & Hrz & Hrf & Hrl); try done.
  { intros ->. by apply cap_of_entries. }
  exists (sst_file c bs zone_buf bloom_buf), meta, r, bs, (w_zone_builder w), zm.
  unfold sst_write. rewrite Ew. split_and!; try done. split; try done.
  - by rewrite (lo_index _ _ _ Hlo), length_index_of.
  - intros i b Hi. destruct (laid_out_offset _ _ _ _ _ Hlo Hi) as [H1 H2].
    pose proof (Forall_lookup_1 _ _ _ _ (proj1 Hb) Hi) as Hbn. cbn in Hbn.
    destruct b as [|e tl]; [done|]. eexists _, e, tl. rewrite (lo_index _ _ _ Hlo).
    rewrite (index_of_lookup c 8 bs i _ Hi). cbn. done.
  - intros ie Hi. rewrite (lo_index _ _ _ Hlo) in Hi. destruct bs; [done|]. by injection Hi as <-.
  - intros i b Hi. by eapply laid_out_block.
  - intros k. unfold might_contain. rewrite Hrb. destruct (Hf' k) as (b & Ec & Hin).
    exists b. split; [done|]. intros e He <-. apply Hin, Hk; [done|]. by eapply wf_entries_in.
Qed.

End reader.

(** A block one byte over the cap. *)
Definition big_block : bytes := repeat x00 (Z.to_nat (MAX_BLOCK_UNCOMP_LEN + 1)).

Lemma len_big_block : len big_block = MAX_BLOCK_UNCOMP_LEN + 1.
Proof. unfold big_block, len. rewrite repeat_length, Z2Nat.id; [done|]. by vm_compute. Qed.

Lemma len_block_frame {E : Extern} blk : len (block_frame CompressLz4 blk) <= 9 + len blk.
Proof.
  unfold block_frame. destruct (Z.ltb_spec (len (lz4_compress blk)) (len blk));
    unfold be32; rewrite !len_app, !len_be; change (len [_]) with 1; lia.
Qed.

Lemma oversized_block_unreadable_witness :
  decompress_frame (E := toy_extern) ([] ++ block_frame (E := toy_extern) CompressLz4 big_block ++ [])
    (len []) (len [] + len (block_frame (E := toy_extern) CompressLz4 big_block)) = Err SstCorrupted.
Proof.
  apply (oversized_block_unreadable (E := toy_extern) [] big_block []).
  - rewrite len_big_block. by vm_compute.
  - pose proof (len_block_frame (E := toy_extern) big_block) as H. rewrite len_big_block in H.
    rewrite !len_nil. assert (9 + (MAX_BLOCK_UNCOMP_LEN + 1) < 2 ^ 63) by by vm_compute. lia.
Defined.
