(* ===== verification/SstRead.v ===== *)
(** * Reads of an SST

    The read paths of [SstReader] against the entries of the file, from the
    interface [sst_repr] that opening a written file establishes: the walks
    return every entry in order, a point read returns the newest visible
    version, a scan answers for every key of its range. *)

From Stdlib Require Import ZArith Lia Bool List Sorting.Sorted Strings.Byte.
From stdpp Require Import base option list.
From S2P Require Import Prelude ByteMap Keys Versioned Extern Bloom Zone Sst SstReader.

Local Open Scope Z_scope.
Local Open Scope bytes_scope.

(** No user key of the entries properly extends [k]. *)
Definition no_extension (k : bytes) (es : list entry) : Prop :=
  forall e, In e es -> k `prefix_of` euk e -> euk e = k.

(** ** Seeking *)

Lemma binary_search_spec ix target :
  match binary_search ix target with
  | inl i => exists ie, ix !! i = Some ie /\ ie_key ie = target
  | inr i => (i <= length ix)%nat /\
      (forall ie, ix !! i = Some ie -> target <b ie_key ie) /\
      (forall j ie, i = S j -> ix !! j = Some ie -> ie_key ie <b target)
  end.
Proof.
  induction ix as [|e ix IH]; [done|]. cbn [binary_search].
  destruct (bytes_cmp (ie_key e) target) eqn:Ec.
  - apply bytes_cmp_eq in Ec. by exists e.
  - destruct (binary_search ix target) as [i|i].
    + destruct IH as (ie & H1 & H2). by exists ie.
    + destruct IH as (H1 & H2 & H3). split; [cbn; lia|]. split; [exact H2|].
      intros j ie [= <-] Hj. destruct i as [|i]; [by injection Hj as <-|]. by apply (H3 i).
  - split; [lia|]. split; [|done]. intros ie [= <-]. unfold blt. by rewrite bytes_cmp_antisym, Ec.
Qed.

Lemma seek_block_spec ix target :
  (ix <> [] -> (seek_block ix target < length ix)%nat) /\
  (seek_block ix target = 0%nat \/
   exists ie, ix !! seek_block ix target = Some ie /\ ie_key ie <=b target).
Proof.
  unfold seek_block. pose proof (binary_search_spec ix target) as H.
  destruct (binary_search ix target) as [i|[|i]].
  - destruct H as (ie & H1 & <-). split; [intros _; by apply lookup_lt_Some in H1|].
    right. exists ie. split; [done|apply ble_refl].
  - split; [|by left]. destruct ix; [done|cbn; lia].
  - destruct H as (H1 & _ & H3). split; [lia|]. right.
    destruct (lookup_lt_is_Some_2 ix i ltac:(lia)) as [ie Hi]. exists ie. split; [done|].
    by apply blt_ble, (H3 i ie).
Qed.

Section reads.
Context {E : Extern} (r : SstReader) (bs : list (list entry)) (Hr : sst_repr r bs).

Local Notation es := (concat bs).

Lemma take_drop_concat i : concat bs = concat (take i bs) ++ concat (drop i bs).
Proof. by rewrite <- concat_app, take_drop. Qed.

(** Entries before the block a seek lands on are below the target. *)
Lemma seek_below target e :
  In e (concat (take (seek_block (r_index r) target) bs)) -> fst e <b target.
Proof.
  intros He. destruct (proj2 (seek_block_spec (r_index r) target)) as [H0|(ie & Hi & Hle)].
  { rewrite H0 in He. done. }
  set (i := seek_block _ _) in *. pose proof (lookup_lt_Some _ _ _ Hi) as Hlt.
  rewrite (sr_length r bs Hr) in Hlt. destruct (lookup_lt_is_Some_2 bs i Hlt) as [b Hb].
  destruct (sr_key r bs Hr i b Hb) as (ie' & e0 & tl & Hi' & -> & Hk & _).
  rewrite Hi in Hi'. injection Hi' as <-. rewrite Hk in Hle. eapply blt_ble_trans; [|exact Hle].
  pose proof (sr_sorted r bs Hr) as Hs. rewrite (take_drop_concat i) in Hs.
  apply bsorted_app in Hs as (_ & _ & Hs). apply Hs; [done|].
  rewrite (drop_S _ _ _ Hb). by left.
Qed.

Lemma entries_in_drop target e :
  In e es -> target <=b fst e -> In e (concat (drop (seek_block (r_index r) target) bs)).
Proof.
  intros He Hge. rewrite (take_drop_concat (seek_block (r_index r) target)) in He.
  apply in_app_or in He as [He|He]; [|done]. apply seek_below in He.
  exfalso. apply not_blt in Hge. by apply Hge.
Qed.

Lemma in_drop i e : In e (concat (drop i bs)) -> In e es.
Proof. intros H. rewrite (take_drop_concat i). apply in_or_app. by right. Qed.

Lemma drop_wf i : wf_entries (concat (drop i bs)).
Proof. eapply wf_entries_incl; [apply in_drop|apply Hr]. Qed.

Lemma drop_sorted i : bsorted (concat (drop i bs)).
Proof.
  pose proof (sr_sorted r bs Hr) as Hs. rewrite (take_drop_concat i) in Hs.
  by apply bsorted_app in Hs as (_ & Hs & _).
Qed.

(** Keys at or above the seek key have all their versions in the blocks read. *)
Lemma drop_visible lo u v :
  lo <=b u ->
  visible (concat (drop (seek_block (r_index r) (InternalKey.new lo u64_max)) bs)) u v = visible es u v.
Proof.
  intros Hle. apply visible_ext; [apply drop_wf|apply bsorted_functional, drop_sorted|].
  intros e Hu. split; [apply in_drop|]. intros He. apply entries_in_drop; [done|].
  apply seek_ble; [by eapply wf_entries_in; [apply Hr|]|by rewrite Hu].
Qed.

(** ** Walks *)

Lemma block_ok i b : bs !! i = Some b -> decode_block (enc_entries b) = (b, EndClean).
Proof.
  intros Hb. apply decode_block_enc. pose proof (sr_ok r bs Hr) as Hok.
  apply List.Forall_forall. intros e He. rewrite List.Forall_forall in Hok.
  eapply Hok, block_in; eauto.
Qed.

Lemma walk_blocks_spec n i :
  (n + i = length bs)%nat -> walk_blocks n r i = Ok (concat (drop i bs)) /\
  iter_blocks n r i = Ok (concat (drop i bs)).
Proof.
  revert i. induction n as [|n IH]; intros i Hn.
  { rewrite drop_ge by lia. done. }
  destruct (lookup_lt_is_Some_2 bs i ltac:(lia)) as [b Hb]. cbn [walk_blocks iter_blocks].
  rewrite (sr_block r bs Hr i b Hb). cbn [mbind res_bind]. rewrite (block_ok i b Hb).
  destruct (IH (S i) ltac:(lia)) as [-> ->]. by rewrite (drop_S _ _ _ Hb).
Qed.

Lemma try_for_each_entry_all : try_for_each_entry r = Ok es.
Proof.
  unfold try_for_each_entry. rewrite (sr_length r bs Hr).
  by rewrite (proj1 (walk_blocks_spec (length bs) 0 ltac:(lia))).
Qed.

Lemma index_nil : r_index r = [] -> bs = [].
Proof. intros H. pose proof (sr_length r bs Hr) as Hl. rewrite H in Hl. by destruct bs. Qed.

(** The iterator from a block boundary. *)
Lemma iter_from_block i ie :
  r_index r !! i = Some ie -> iter_from r (ie_offset ie) = Ok (concat (drop i bs)).
Proof.
  intros Hi. pose proof (lookup_lt_Some _ _ _ Hi) as Hlt. rewrite (sr_length r bs Hr) in Hlt.
  destruct (lookup_lt_is_Some_2 bs i Hlt) as [b Hb].
  destruct (sr_key r bs Hr i b Hb) as (ie' & e & tl & Hi' & _ & _ & Hblk & Hend).
  rewrite Hi in Hi'. injection Hi' as <-. unfold iter_from.
  destruct (r_index r) eqn:Ei; [done|]. rewrite <- Ei in *.
  destruct (Z.leb_spec (r_data_end r) (ie_offset ie)); [lia|]. rewrite Hblk, (sr_length r bs Hr).
  apply walk_blocks_spec. lia.
Qed.

Lemma sst_iter_all : sst_iter r = Ok es.
Proof.
  unfold sst_iter. destruct (r_index r) as [|ie ix] eqn:Ei.
  - unfold iter_from. by rewrite Ei, (index_nil Ei).
  - rewrite <- (sr_start r bs Hr ie) by by rewrite Ei.
    by rewrite (iter_from_block 0 ie) by by rewrite Ei.
Qed.

Lemma iter_from_seek target :
  iter_from r (match r_index r with
    | [] => HEADER_POS
    | _ :: _ => match r_index r !! seek_block (r_index r) target with
                | Some e => ie_offset e | None => HEADER_POS end
    end) = Ok (concat (drop (seek_block (r_index r) target) bs)).
Proof.
  destruct (r_index r) as [|ie ix] eqn:Ei.
  - unfold iter_from. rewrite Ei, (index_nil Ei). by rewrite drop_nil.
  - rewrite <- Ei. destruct (seek_block_spec (r_index r) target) as [Hlt _].
    specialize (Hlt ltac:(by rewrite Ei)).
    destruct (lookup_lt_is_Some_2 _ _ Hlt) as [e He]. rewrite He. by apply iter_from_block.
Qed.

(** ** Point reads *)

Lemma get_versioned_loop_app k v es1 es2 :
  get_versioned_loop k v (es1 ++ es2) =
  match get_versioned_loop k v es1 with Some x => Some x | None => get_versioned_loop k v es2 end.
Proof.
  induction es1 as [|e es1 IH]; [done|]. cbn [app get_versioned_loop]. rewrite IH.
  by repeat case_match.
Qed.

Lemma get_versioned_blocks_spec n i k v :
  (n + i = length bs)%nat ->
  get_versioned_blocks n r i k v =
  Ok (match get_versioned_loop k v (concat (drop i bs)) with Some x => x | None => None end).
Proof.
  revert i. induction n as [|n IH]; intros i Hn.
  { by rewrite drop_ge by lia. }
  destruct (lookup_lt_is_Some_2 bs i ltac:(lia)) as [b Hb]. cbn [get_versioned_blocks].
  rewrite (sr_block r bs Hr i b Hb). cbn [mbind res_bind]. rewrite (block_ok i b Hb). cbn [fst].
  rewrite (drop_S _ _ _ Hb). cbn [concat]. rewrite get_versioned_loop_app.
  destruct (get_versioned_loop k v b); [done|]. apply IH. lia.
Qed.

Lemma get_versioned_loop_visible k v l :
  wf_entries l -> bsorted l -> no_extension k l ->
  match get_versioned_loop k v l with Some x => x | None => None end = visible l k v.
Proof.
  intros Hw Hs Hx. unfold visible. induction l as [|e l IH]; [done|].
  inversion Hw as [|? ? L Hw']; subst. apply bsorted_cons_inv in Hs as [Hs' Hlt].
  rewrite List.Forall_forall in Hlt.
  assert (IH' := IH Hw' Hs' ltac:(intros e' He'; apply Hx; by right)). clear IH.
  cbn [get_versioned_loop]. destruct (Nat.leb_spec 8 (length (fst e))); [|lia].
  destruct (beqb_spec (euk e) k) as [<-|Hne].
  - destruct (Z.leb_spec (ever e) v).
    + rewrite best_cons_hit; [done|done|]. intros e' He' Hk.
      pose proof (wf_entries_in _ _ Hw' He') as L'.
      destruct (ik_order e e' L L') as [H1|[_ H1]]; [by rewrite Hk|by apply Hlt| |lia].
      rewrite Hk in H1. by apply blt_irrefl in H1.
    + rewrite best_cons_skip by (right; lia). done.
  - rewrite best_cons_skip by by left. destruct (bltb_spec k (euk e)) as [Hklt|]; [|done].
    rewrite (proj2 (best_none l k v)); [done|]. intros e' He' Hk. exfalso.
    pose proof (wf_entries_in _ _ Hw' He') as L'. specialize (Hlt e' He').
    rewrite (entry_eta e L), (entry_eta e' L'), Hk in Hlt. cbn [fst] in Hlt.
    unfold InternalKey.new in Hlt. eapply blt_irrefl, blt_trans; [exact Hlt|].
    apply blt_not_prefix; [done|]. intros Hp. apply Hne, Hx; [by left|done].
Qed.

Lemma get_versioned_visible k v :
  no_extension k es -> get_versioned r k v = Ok (visible es k v).
Proof.
  intros Hx. unfold get_versioned. destruct (r_index r) as [|ie ix] eqn:Ei; [by rewrite (index_nil Ei)|].
  rewrite <- Ei. destruct (sr_bloom r bs Hr k) as (b & -> & Hb). cbn [mbind res_bind].
  destruct b; cbn [negb].
  - set (i := seek_block _ _). destruct (seek_block_spec (r_index r) (InternalKey.new k u64_max)) as [Hlt _].
    specialize (Hlt ltac:(by rewrite Ei)). fold i in Hlt. rewrite (sr_length r bs Hr) in *.
    rewrite get_versioned_blocks_spec by lia.
    rewrite get_versioned_loop_visible; [|apply drop_wf|apply drop_sorted|].
    + f_equal. apply (drop_visible k k v (ble_refl k)).
    + intros e He. by apply Hx, (in_drop i).
  - unfold visible. rewrite (proj2 (best_none es k v)); [done|]. intros e He Hk.
    by specialize (Hb e He Hk).
Qed.

(** [get] of an exact internal key. *)
Lemma get_loop_sorted key l :
  bsorted l -> match get_loop key l with Some x => x | None => None end = bm_get key l.
Proof.
  induction l as [|[k m] l IH]; [done|]. intros Hs. apply bsorted_cons_inv in Hs as [Hs' Hlt].
  cbn [get_loop fst snd bm_get]. destruct (beqb_spec k key) as [<-|Hne].
  - destruct (beqb_spec k k); [done|congruence].
  - destruct (beqb_spec key k) as [->|_]; [done|]. destruct (bltb_spec key k) as [Hk|]; [|auto].
    symmetry. apply bm_get_none. intros v Hin. rewrite List.Forall_forall in Hlt.
    apply Hlt in Hin. cbn in Hin. eapply blt_irrefl, blt_trans; [exact Hin|done].
Qed.

Lemma bm_get_app key (l1 l2 : list entry) :
  bm_get key (l1 ++ l2) = match bm_get key l1 with Some v => Some v | None => bm_get key l2 end.
Proof. induction l1 as [|[k m] l1 IH]; [done|]. cbn. by destruct (beqb key k). Qed.

Lemma bm_get_none_all key (l : list entry) :
  (forall e, In e l -> fst e <> key) -> bm_get key l = None.
Proof. intros H. apply bm_get_none. intros v Hin. by apply (H _ Hin). Qed.

(** An internal key can only be in the block a search lands on. *)
Lemma bm_get_block key i b :
  bs !! i = Some b ->
  binary_search (r_index r) key = inl i \/ binary_search (r_index r) key = inr (S i) ->
  bm_get key es = bm_get key b.
Proof.
  intros Hb Hsearch. pose proof (sr_sorted r bs Hr) as Hs.
  rewrite (take_drop_concat i), (drop_S _ _ _ Hb) in *. cbn [concat] in *.
  apply bsorted_app in Hs as (_ & Hs & H1). apply bsorted_app in Hs as (_ & _ & H2).
  destruct (sr_key r bs Hr i b Hb) as (ie & e0 & tl & Hi & Eb & Hk & _).
  assert (Hlo : ie_key ie <=b key).
  { pose proof (binary_search_spec (r_index r) key) as H. destruct Hsearch as [Hse|Hse]; rewrite Hse in H.
    - destruct H as (ie' & Hi' & <-). rewrite Hi in Hi'. injection Hi' as <-. apply ble_refl.
    - destruct H as (_ & _ & H). by apply blt_ble, (H i). }
  rewrite !bm_get_app, (bm_get_none_all key (concat (take i bs))).
  2: { intros e He Hek. specialize (H1 e e0 He). rewrite Eb in H1. specialize (H1 (or_introl eq_refl)).
       rewrite <- Hk in H1. rewrite Hek in H1. apply not_blt in Hlo. by apply Hlo. }
  rewrite (bm_get_none_all key (concat (drop (S i) bs))); [by destruct (bm_get key b)|].
  intros e He Hek. destruct (bs !! S i) as [b'|] eqn:Eb'.
  2: { apply lookup_ge_None in Eb'. by rewrite drop_ge in He by done. }
  destruct (sr_key r bs Hr (S i) b' Eb') as (ie' & e1 & tl' & Hi' & -> & Hk' & _).
  assert (Hhi : key <b ie_key ie').
  { pose proof (binary_search_spec (r_index r) key) as H. destruct Hsearch as [Hse|Hse]; rewrite Hse in H.
    - destruct H as (ie2 & Hi2 & <-). rewrite Hi in Hi2. injection Hi2 as <-. rewrite Hk, Hk'.
      apply H2; [rewrite Eb; by left|]. rewrite (drop_S _ _ _ Eb'). by left.
    - destruct H as (_ & H & _). by apply H. }
  assert (Hge : ie_key ie' <=b fst e); [|rewrite Hek in Hge; apply not_blt in Hge; by apply Hge].
  rewrite Hk'. pose proof (drop_sorted (S i)) as Hs3. rewrite (drop_S _ _ _ Eb') in Hs3, He.
  cbn [concat app] in Hs3, He. destruct He as [<-|He]; [apply ble_refl|].
  apply bsorted_cons_inv in Hs3 as [_ Hs3]. rewrite List.Forall_forall in Hs3. by apply blt_ble, Hs3.
Qed.

(** The first indexed key is the smallest key. *)
Lemma first_block e : In e es -> exists ie, r_index r !! 0%nat = Some ie /\ ie_key ie <=b fst e.
Proof.
  intros He. pose proof (sr_sorted r bs Hr) as Hs.
  destruct (bs !! 0%nat) as [b|] eqn:Eb.
  - destruct (sr_key r bs Hr 0 b Eb) as (ie & e0 & tl & Hi & -> & Hk & _). exists ie. split; [done|].
    rewrite Hk. change bs with (drop 0 bs) in He, Hs. rewrite (drop_S _ _ _ Eb) in He, Hs.
    cbn [concat app] in He, Hs. destruct He as [<-|He]; [apply ble_refl|].
    apply bsorted_cons_inv in Hs as [_ Hs]. rewrite List.Forall_forall in Hs. by apply blt_ble, Hs.
  - apply lookup_ge_None in Eb. change bs with (drop 0 bs) in He. by rewrite drop_ge in He by lia.
Qed.

Lemma sst_get_exact key : sst_get r key = Ok (bm_get key es).
Proof.
  unfold sst_get.
  assert (Hm : exists b, (if (8 <=? length key)%nat then might_contain r (InternalKey.user_key key) else Ok true)
      = Ok b /\ (b = false -> bm_get key es = None)).
  { destruct (Nat.leb_spec 8 (length key)); [|by exists true].
    destruct (sr_bloom r bs Hr (InternalKey.user_key key)) as (b & Eb & Hb). exists b.
    split; [done|]. intros ->. apply bm_get_none_all. intros e He Hk.
    specialize (Hb e He). unfold euk in Hb. rewrite Hk in Hb. by discriminate Hb. }
  destruct Hm as (b & -> & Hb). cbn [mbind res_bind]. destruct b; cbn [negb]; [|by rewrite Hb].
  pose proof (binary_search_spec (r_index r) key) as Hse.
  assert (Hblk : forall i, (i < length (r_index r))%nat ->
    binary_search (r_index r) key = inl i \/ binary_search (r_index r) key = inr (S i) ->
    (blk ← sst_block r i; Ok (match get_loop key (fst (decode_block blk)) with Some v => v | None => None end))
    = Ok (bm_get key es)).
  { intros i Hi Hs. rewrite (sr_length r bs Hr) in Hi.
    destruct (lookup_lt_is_Some_2 bs i Hi) as [blk Hblk].
    rewrite (sr_block r bs Hr i blk Hblk). cbn [mbind res_bind]. rewrite (block_ok i blk Hblk). cbn [fst].
    rewrite (bm_get_block key i blk Hblk Hs), get_loop_sorted; [done|].
    pose proof (drop_sorted i) as Hd. rewrite (drop_S _ _ _ Hblk) in Hd. cbn in Hd.
    by apply bsorted_app in Hd as (Hd & _). }
  destruct (binary_search (r_index r) key) as [i|[|i]].
  - destruct Hse as (ie & Hi & _). apply Hblk; [by apply lookup_lt_Some in Hi|by left].
  - destruct Hse as (_ & Hgt & _). rewrite bm_get_none_all; [done|]. intros e He Hk.
    destruct (first_block e He) as (ie & Hi & Hle). specialize (Hgt ie Hi).
    rewrite <- Hk in Hgt. apply not_blt in Hle. by apply Hle.
  - destruct Hse as (Hle & _). apply Hblk; [lia|by right].
Qed.

(** ** Scans *)

Lemma sst_scan_ok p lo i :
  p `prefix_of` lo -> prefix_free es -> scan_ok (Some lo) p (concat (drop i bs)).
Proof.
  intros Hp Hf. split; [apply drop_wf|apply drop_sorted|by eapply prefix_free_incl; [apply in_drop|]|].
  intros e _ Hle Hnp. assert (Hpe : p <=b euk e) by (eapply ble_trans; [by apply prefix_ble|done]).
  apply ble_lteq in Hpe as [|Heq]; [done|]. destruct Hnp. rewrite Heq. reflexivity.
Qed.

Lemma sst_scan_prefix_answer p v :
  prefix_free es -> exists res, sst_scan_prefix r p v = Ok res /\ scan_answer es p p v res.
Proof.
  intros Hf. unfold sst_scan_prefix, scan_prefix_impl, prefix_start_offset.
  rewrite iter_from_seek. cbn [mbind res_bind]. eexists. split; [done|].
  apply scan_loop_answer; [by apply sst_scan_ok|done|]. intros u _ Hle. by apply drop_visible.
Qed.

Lemma sst_scan_prefix_max_take p v n res :
  0 <= n -> sst_scan_prefix r p v = Ok res -> sst_scan_prefix_max r p v n = Ok (take (Z.to_nat n) res).
Proof.
  intros Hn. unfold sst_scan_prefix, sst_scan_prefix_max, scan_prefix_impl.
  destruct (iter_from r (prefix_start_offset r p)) as [l|e|]; [|done..]. cbn [mbind res_bind].
  intros [= <-]. destruct (Z.eqb_spec n 0) as [->|]; [done|].
  rewrite (scan_loop_max _ _ _ n 0 0) by lia. by rewrite Z.sub_0_r.
Qed.

Lemma sst_scan_from_max_answer p s v n :
  prefix_free es -> p `prefix_of` s -> 0 < n ->
  exists res, sst_scan_from_max r p s v n = Ok (take (Z.to_nat n) res) /\ scan_answer es p s v res.
Proof.
  intros Hf Hp Hn. unfold sst_scan_from_max, user_key_start_offset.
  destruct (Z.eqb_spec n 0); [lia|]. destruct (starts_with_spec s p); [|done]. cbn [orb negb].
  rewrite iter_from_seek. cbn [mbind res_bind].
  eexists. split; [rewrite (scan_loop_max _ _ _ n 0 0), Z.sub_0_r by lia; done|].
  apply scan_loop_answer; [by apply sst_scan_ok|done|]. intros u _ Hle. by apply drop_visible.
Qed.

(** ** Pruning and the version counter *)

Lemma first_last_bounds e :
  prefix_free es -> In e es ->
  exists f l, r_first_user_key r = Some f /\ r_last_user_key r = Some l /\ f <=b euk e /\ euk e <=b l.
Proof.
  intros Hf He. rewrite (sr_first r bs Hr), (sr_last r bs Hr).
  pose proof (sr_wf r bs Hr) as Hw. pose proof (sr_sorted r bs Hr) as Hs.
  assert (Hord : forall a b, In a es -> In b es -> fst a <b fst b -> euk a <=b euk b).
  { intros a b Ha Hb Hlt. destruct (ik_order a b) as [H|[H _]]; eauto using wf_entries_in, blt_ble.
    rewrite H. apply ble_refl. }
  destruct es as [|e0 l0] eqn:Ees; [done|].
  destruct (exists_last (l := e0 :: l0)) as (l1 & e1 & El); [done|].
  exists (euk e0), (euk e1). rewrite El, last_snoc, <- El. split_and!; try done.
  - destruct He as [<-|He]; [apply ble_refl|]. apply Hord; [by left|by right|].
    apply bsorted_cons_inv in Hs as [_ Hs]. rewrite List.Forall_forall in Hs. by apply Hs.
  - rewrite El in Hs, He, Hord. apply in_app_or in He as [He|[<-|[]]]; [|apply ble_refl].
    apply bsorted_app in Hs as (_ & _ & Hs).
    apply Hord; [apply in_or_app; by left|apply in_or_app; right; by left|apply Hs; [done|by left]].
Qed.

Lemma fold_max_version l m :
  wf_entries l ->
  let x := fold_left (fun m e => if (8 <=? length (fst e))%nat then Z.max m (ever e) else m) l m in
  m <= x /\ (forall e, In e l -> ever e <= x) /\ (x = m \/ exists e, In e l /\ ever e = x).
Proof.
  intros Hw. revert m. induction Hw as [|e l L _ IH]; intros m; cbn [fold_left].
  { split_and!; [lia|done|by left]. }
  destruct (Nat.leb_spec 8 (length (fst e))); [|lia].
  destruct (IH (Z.max m (ever e))) as (H1 & H2 & H3). split_and!; [lia| |].
  - intros e' [<-|He']; [lia|by apply H2].
  - destruct H3 as [H3|(e' & He' & H3)]; [|right; exists e'; split; [by right|done]].
    destruct (Z.max_spec m (ever e)) as [[_ Hm]|[_ Hm]]; rewrite Hm in *; [|by left].
    right. exists e. split; [by left|done].
Qed.

Lemma max_version_spec :
  exists m, max_version r = Ok m /\ 0 <= m /\ (forall e, In e es -> ever e <= m) /\
    (m = 0 \/ exists e, In e es /\ ever e = m).
Proof.
  unfold max_version. rewrite try_for_each_entry_all. cbn [mbind res_bind]. eexists. split; [done|].
  apply fold_max_version, Hr.
Qed.

End reads.

(** ** Sorted batches *)

Lemma last_In {A} (l : list A) z : last l = Some z -> In z l.
Proof. intros H. apply last_Some in H as [l' ->]. apply in_or_app. right. by left. Qed.

Lemma sorted_head_last (l : list bytes) k :
  StronglySorted ble l -> In k l ->
  exists a z, head l = Some a /\ last l = Some z /\ a <=b k /\ k <=b z.
Proof.
  induction 1 as [|a l Hs IH Hall]; [done|]. rewrite List.Forall_forall in Hall. intros Hk.
  destruct l as [|b l].
  - destruct Hk as [<-|[]]. exists a, a. split_and!; try done; apply ble_refl.
  - rewrite last_cons_cons.
    assert (Hz : exists z, last (b :: l) = Some z /\ In z (b :: l)).
    { destruct (last (b :: l)) as [z|] eqn:El; [|by apply last_None in El].
      exists z. split; [done|by apply last_In]. }
    destruct Hz as (z & Ez & Hz). exists a, z. split; [done|]. split; [done|].
    destruct Hk as [<-|Hk]; [split; [apply ble_refl|by apply Hall]|].
    split; [by apply Hall|]. destruct (IH Hk) as (a' & z' & _ & Ez' & _ & Hkz). congruence.
Qed.

Lemma ble_not_blt a b : a <=b b -> ~ b <b a.
Proof. by intros H%not_blt. Qed.

(** Between a prefix and one of its extensions everything extends the prefix. *)
Lemma between_prefix p z u : p `prefix_of` u -> p <=b z -> z <=b u -> p `prefix_of` z.
Proof.
  intros [s ->] H1 H2. destruct (starts_with_spec z p) as [|Hn]; [done|]. exfalso.
  apply ble_lteq in H1 as [H1|<-]; [|by apply Hn].
  eapply ble_not_blt; [exact H2|]. rewrite <- (app_nil_r z). by apply blt_not_prefix.
Qed.

(** ** Pruning a whole file *)

Lemma range_overlaps_sound {E : Extern} r bs keys k v :
  sst_repr r bs -> prefix_free (concat bs) -> StronglySorted ble keys ->
  range_overlaps_sorted r keys = false -> In k keys -> visible (concat bs) k v = None.
Proof.
  intros Hr Hfree Hsk Ho Hk. unfold visible. rewrite (proj2 (best_none _ k v)); [done|]. intros e He Hek. exfalso.
  destruct (first_last_bounds r bs Hr e Hfree He) as (f & l & Ef & El & Hfe & Hel).
  destruct (sorted_head_last keys k Hsk Hk) as (a & z & Ea & Ez & Hak & Hkz).
  unfold range_overlaps_sorted in Ho. rewrite Ea, Ez, Ef, El in Ho. rewrite Hek in *.
  apply andb_false_iff in Ho as [Ho|Ho]; apply negb_false_iff in Ho.
  - destruct (bltb_spec l a); [|done]. eapply ble_not_blt; [exact (ble_trans _ _ _ Hak Hel)|done].
  - destruct (bltb_spec z f); [|done]. eapply ble_not_blt; [exact (ble_trans _ _ _ Hfe Hkz)|done].
Qed.

Lemma prefix_range_overlaps_sound {E : Extern} r bs prefixes p e :
  sst_repr r bs -> prefix_free (concat bs) -> StronglySorted ble prefixes ->
  (forall p q, In p prefixes -> In q prefixes -> p `prefix_of` q -> p = q) ->
  prefix_range_overlaps_sorted r prefixes = false -> In p prefixes -> In e (concat bs) -> ~ p `prefix_of` euk e.
Proof.
  intros Hr Hfree Hsp Hdis Ho Hp He Hpe.
  destruct (first_last_bounds r bs Hr e Hfree He) as (f & l & Ef & El & Hfe & Hel).
  destruct (sorted_head_last prefixes p Hsp Hp) as (a & z & Ea & Ez & Hap & Hpz).
  unfold prefix_range_overlaps_sorted in Ho. rewrite Ea, Ez, Ef, El in Ho.
  destruct (bltb_spec l a) as [Hla|_].
  - eapply ble_not_blt; [|exact Hla]. eapply ble_trans; [exact Hap|].
    eapply ble_trans; [by apply prefix_ble|done].
  - destruct (bltb_spec z f) as [Hzf|]; [|done]. destruct (starts_with_spec f z) as [|Hnz]; [done|].
    assert (Hze : z <=b euk e) by (eapply ble_trans; [by apply blt_ble|done]).
    assert (Hpz' : p `prefix_of` z) by by eapply between_prefix.
    assert (p = z) as -> by (apply Hdis; [done| |done]; by apply last_In).
    apply Hnz. eapply between_prefix; [|by apply blt_ble|exact Hfe]. done.
Qed.

(** ** Properties *)

(** Entries a table can hold: in key order, with a version in every key, and
    within the format's lengths. *)
Definition table_ok (es : list entry) : Prop :=
  bsorted es /\ wf_entries es /\ Forall entry_ok es.

Section properties.
Context {E : Extern} {EL : ExternLaws E} (ext : option ZoneFieldExtractor) (c : SstCompression).

(** SST round trip.  Writing any entries in key order, in either format,
    and opening the file gives back exactly these entries, in order, through
    the fallible walk and through the iterator; an exact lookup returns the
    value stored under that internal key, or nothing. *)
Theorem sst_round_trip es :
  table_ok es -> sst_fits ext c es ->
  exists file meta r, sst_write ext c es = Ok (file, meta) /\ meta_entry_count meta = length es /\
    sst_open file = Ok r /\ try_for_each_entry r = Ok es /\ sst_iter r = Ok es /\
    forall key, sst_get r key = Ok (bm_get key es).
Proof.
  intros (Hs & Hw & Hok) Hf.
  destruct (sst_write_open ext c es EL Hs Hw Hok Hf)
    as (file & meta & r & bs & _ & _ & E1 & E2 & E3 & Hr & _ & <- & _).
  exists file, meta, r. split_and!; try done.
  - by apply try_for_each_entry_all.
  - by apply sst_iter_all.
  - intros key. by apply sst_get_exact.
Qed.

(** Point reads of an SST.  For a user key that no other stored user key
    extends, [get_versioned] returns the newest version at or below the
    snapshot: its value, its tombstone, or nothing; also when the versions of
    the key straddle blocks. *)
Theorem sst_get_versioned_newest es k v :
  table_ok es -> sst_fits ext c es -> no_extension k es ->
  exists file meta r, sst_write ext c es = Ok (file, meta) /\ sst_open file = Ok r /\
    get_versioned r k v = Ok (visible es k v).
Proof.
  intros (Hs & Hw & Hok) Hf Hx.
  destruct (sst_write_open ext c es EL Hs Hw Hok Hf)
    as (file & meta & r & bs & _ & _ & E1 & _ & E3 & Hr & _ & <- & _).
  exists file, meta, r. split_and!; try done. by apply get_versioned_visible.
Qed.

(** Scans of an SST.  When no stored user key is a prefix of another, a
    prefix scan at a snapshot returns, in ascending order and once each, every
    user key under the prefix that has a visible version, with its newest one;
    the bounded scan is its first [n] results, and the scan from a key starts
    at that key. *)
Theorem sst_scan_complete es p s v n :
  table_ok es -> sst_fits ext c es -> prefix_free es -> p `prefix_of` s -> 0 < n ->
  exists file meta r all from, sst_write ext c es = Ok (file, meta) /\ sst_open file = Ok r /\
    sst_scan_prefix r p v = Ok all /\ scan_answer es p p v all /\
    sst_scan_prefix_max r p v n = Ok (take (Z.to_nat n) all) /\
    sst_scan_from_max r p s v n = Ok (take (Z.to_nat n) from) /\ scan_answer es p s v from.
Proof.
  intros (Hs & Hw & Hok) Hf Hfree Hp Hn.
  destruct (sst_write_open ext c es EL Hs Hw Hok Hf)
    as (file & meta & r & bs & _ & _ & E1 & _ & E3 & Hr & _ & <- & _).
  destruct (sst_scan_prefix_answer r bs Hr p v Hfree) as (all & Ea & Ha).
  destruct (sst_scan_from_max_answer r bs Hr p s v n Hfree Hp Hn) as (from & Eb & Hb).
  exists file, meta, r, all, from. split_and!; try done.
  by apply sst_scan_prefix_max_take; [lia|].
Qed.

(** Whole-file pruning.  When no stored user key is a prefix of another,
    a batch the range check rejects has no key in the file, and a batch of
    pairwise incomparable prefixes it rejects matches no key of the file. *)
Theorem sst_pruning_sound es keys prefixes :
  table_ok es -> sst_fits ext c es -> prefix_free es ->
  StronglySorted ble keys -> StronglySorted ble prefixes ->
  (forall p q, In p prefixes -> In q prefixes -> p `prefix_of` q -> p = q) ->
  exists file meta r, sst_write ext c es = Ok (file, meta) /\ sst_open file = Ok r /\
    (range_overlaps_sorted r keys = false -> forall k v, In k keys -> visible es k v = None) /\
    (prefix_range_overlaps_sorted r prefixes = false ->
     forall p e, In p prefixes -> In e es -> ~ p `prefix_of` euk e).
Proof.
  intros (Hs & Hw & Hok) Hf Hfree Hsk Hsp Hdis.
  destruct (sst_write_open ext c es EL Hs Hw Hok Hf)
    as (file & meta & r & bs & _ & _ & E1 & _ & E3 & Hr & _ & <- & _).
  exists file, meta, r. split_and!; try done.
  - intros Ho k v. by eapply range_overlaps_sound.
  - intros Ho p e. by eapply prefix_range_overlaps_sound.
Qed.

(** Version recovery.  The version an SST reports at recovery is the
    largest version stored in it (zero for an empty table). *)
Theorem sst_max_version es :
  table_ok es -> sst_fits ext c es ->
  exists file meta r m, sst_write ext c es = Ok (file, meta) /\ sst_open file = Ok r /\
    max_version r = Ok m /\ (forall e, In e es -> ever e <= m) /\
    (m = 0 \/ exists e, In e es /\ ever e = m).
Proof.
  intros (Hs & Hw & Hok) Hf.
  destruct (sst_write_open ext c es EL Hs Hw Hok Hf)
    as (file & meta & r & bs & _ & _ & E1 & _ & E3 & Hr & _ & <- & _).
  destruct (max_version_spec r bs Hr) as (m & Em & _ & H1 & H2).
  exists file, meta, r, m. split_and!; try done.
Qed.

End properties.

(** ** Witnesses *)

Definition sst_ex : list entry :=
  [(InternalKey.new [x61] 7, Some [x01]); (InternalKey.new [x61] 3, Some [x02]);
   (InternalKey.new [x62] 5, None)].

Lemma sst_ex_ok : table_ok sst_ex.
Proof.
  split; [|split].
  - repeat constructor; by vm_compute.
  - repeat constructor; vm_compute; lia.
  - repeat constructor; vm_compute; done.
Qed.

Lemma sst_ex_fits : @sst_fits toy_extern None CompressLz4 sst_ex.
Proof.
  eexists _, _, _. split; [by vm_compute|]. split; [by vm_compute|].
  split; [by vm_compute|]. split; [by vm_compute|].
  split; [unfold zb_sized, is_u32; cbn; repeat constructor; lia|].
  repeat constructor; by vm_compute.
Qed.

Lemma sst_ex_free : prefix_free sst_ex.
Proof.
  intros e e' He He' Hne. unfold incomparable. rewrite <- !starts_with_true.
  destruct He as [<-|[<-|[<-|[]]]], He' as [<-|[<-|[<-|[]]]]; try (by destruct Hne); split; intros [=].
Qed.

Lemma sst_round_trip_witness :
  exists file meta r, @sst_write toy_extern None CompressLz4 sst_ex = Ok (file, meta) /\
    @sst_open toy_extern file = Ok r /\ @try_for_each_entry toy_extern r = Ok sst_ex.
Proof.
  destruct (@sst_round_trip toy_extern toy_extern_laws None CompressLz4 sst_ex sst_ex_ok sst_ex_fits)
    as (file & meta & r & E1 & _ & E2 & E3 & _).
  exists file, meta, r. auto.
Defined.

Lemma sst_get_versioned_newest_witness :
  exists file meta r, @sst_write toy_extern None CompressLz4 sst_ex = Ok (file, meta) /\
    @sst_open toy_extern file = Ok r /\ @get_versioned toy_extern r [x61] 6 = Ok (Some (Some [x02])).
Proof.
  apply (@sst_get_versioned_newest toy_extern toy_extern_laws None CompressLz4 sst_ex [x61] 6).
  - exact sst_ex_ok.
  - exact sst_ex_fits.
  - intros e [<-|[<-|[<-|[]]]] Hp; try by vm_compute.
    apply starts_with_true in Hp. by vm_compute in Hp.
Defined.

Lemma sst_scan_complete_witness :
  exists file meta r all, @sst_write toy_extern None CompressLz4 sst_ex = Ok (file, meta) /\
    @sst_open toy_extern file = Ok r /\ @sst_scan_prefix toy_extern r [] 6 = Ok all /\
    scan_answer sst_ex [] [] 6 all.
Proof.
  destruct (@sst_scan_complete toy_extern toy_extern_laws None CompressLz4 sst_ex [] [x61] 6 1
    sst_ex_ok sst_ex_fits sst_ex_free) as (file & meta & r & all & from & H1 & H2 & H3 & H4 & _).
  - apply prefix_nil.
  - lia.
  - exists file, meta, r, all. auto.
Defined.

Lemma sst_pruning_sound_witness :
  exists file meta r, @sst_write toy_extern None CompressLz4 sst_ex = Ok (file, meta) /\
    @sst_open toy_extern file = Ok r /\
    (range_overlaps_sorted r [[x63]] = false -> visible sst_ex [x63] 9 = None).
Proof.
  destruct (@sst_pruning_sound toy_extern toy_extern_laws None CompressLz4 sst_ex [[x63]] [[x63]]
    sst_ex_ok sst_ex_fits sst_ex_free) as (file & meta & r & H1 & H2 & H3 & _).
  - repeat constructor.
  - repeat constructor.
  - intros p q [<-|[]] [<-|[]] _. done.
  - exists file, meta, r. split; [done|]. split; [done|]. intros Ho. apply H3; [done|by left].
Defined.

Lemma sst_max_version_witness :
  exists file meta r m, @sst_write toy_extern None CompressLz4 sst_ex = Ok (file, meta) /\
    @sst_open toy_extern file = Ok r /\ @max_version toy_extern r = Ok m /\
    (forall e, In e sst_ex -> ever e <= m).
Proof.
  destruct (@sst_max_version toy_extern toy_extern_laws None CompressLz4 sst_ex sst_ex_ok sst_ex_fits)
    as (file & meta & r & m & H1 & H2 & H3 & H4 & _).
  exists file, meta, r, m. auto.
Defined.

(** ** A key that is a prefix of another *)

(** The unique-index style keys "bobby" and "bob", in internal-key order: the
    longer key sorts first, since the version bytes of the shorter one start
    with [0xff]. *)
Definition bob_ex : list entry :=
  [(InternalKey.new [x62; x6f; x62; x62; x79] 1, Some [x01]); (InternalKey.new [x62; x6f; x62] 1, Some [x02])].

Definition bob_reader (c : SstCompression) : res SstReader :=
  '(file, _) ← @sst_write toy_extern None c bob_ex; @sst_open toy_extern file.

(** A key hidden by a longer one.  The table holds "bobby" and "bob"; the
    file is in key order and complete, but the point read of "bob" stops at
    "bobby", which sorts before it, and reports the key absent; the batch
    range check also excludes "bob" from the file. *)
Theorem get_versioned_misses_prefix_key :
  table_ok bob_ex /\ visible bob_ex [x62; x6f; x62] 1 = Some (Some [x02]) /\
  exists r, bob_reader CompressNone = Ok r /\ @try_for_each_entry toy_extern r = Ok bob_ex /\
    @get_versioned toy_extern r [x62; x6f; x62] 1 = Ok None /\
    range_overlaps_sorted r [[x62; x6f; x62]] = false.
Proof.
  split; [|split; [by vm_compute|]].
  - split; [|split]; repeat constructor; vm_compute; done || lia.
  - eexists. split; [by vm_compute|]. split_and!; by vm_compute.
Qed.
