(* ===== verification/Layers.v ===== *)
(** * Layers of the tree

    The tree reads its layers (the active memtable, the immutable ones, the
    SSTs) from the newest to the oldest for a point read, and merges them from
    the oldest to the newest for a scan.  This file has the theory of that
    order: when an entry of an older layer is below every version of its key
    in the newer layers (or repeated there), the first hit and the merge both
    answer for the union of the layers. *)

From Stdlib Require Import ZArith Lia Bool List Sorting.Sorted.
From stdpp Require Import base option list.
From S2P Require Import Prelude ByteMap Keys Versioned.

Local Open Scope Z_scope.
Local Open Scope bytes_scope.

(** ** Age order *)

(** Every entry of [older] is in [newer] too, or is below all the versions of
    its key there. *)
Definition age_ordered (newer older : list entry) : Prop :=
  forall e', In e' older ->
    In e' newer \/ forall e, In e newer -> euk e = euk e' -> ever e' < ever e.

(** Layers, newest first. *)
Definition layers_ordered (ls : list (list entry)) : Prop := ForallOrdPairs age_ordered ls.

Record layers_ok (ls : list (list entry)) : Prop := {
  lk_wf : wf_entries (concat ls);
  lk_functional : functional (concat ls);
  lk_ordered : layers_ordered ls;
}.

Lemma age_ordered_concat newer ls :
  Forall (age_ordered newer) ls -> age_ordered newer (concat ls).
Proof.
  induction 1 as [|l ls H _ IH]; [intros e []|]. cbn [concat].
  intros e He. apply in_app_or in He as [He|He]; auto.
Qed.

Lemma layers_ok_cons l ls : layers_ok (l :: ls) -> layers_ok ls /\ age_ordered l (concat ls).
Proof.
  intros [Hw Hf Ho]. inversion Ho as [|? ? Hl Ho']; subst. cbn [concat] in *. split.
  - split; [by apply wf_entries_app in Hw as [_ ?]| |done].
    intros k m m' H1 H2. eapply Hf; apply in_or_app; right; eauto.
  - by apply age_ordered_concat.
Qed.

Lemma best_app es1 es2 k v :
  best (es1 ++ es2) k v =
  match best es1 k v, best es2 k v with
  | Some (w1, m1), Some (w2, m2) => if w2 <=? w1 then Some (w1, m1) else Some (w2, m2)
  | Some x, None => Some x
  | None, y => y
  end.
Proof.
  induction es1 as [|e es1 IH]; [by cbn; destruct (best es2 k v) as [[w m]|]|].
  cbn [app best]. rewrite IH. destruct (beqb (euk e) k && (ever e <=? v)); [|done].
  destruct (best es1 k v) as [[w1 m1]|], (best es2 k v) as [[w2 m2]|]; try done;
    repeat (match goal with |- context [?a <=? ?b] => destruct (Z.leb_spec a b) end; try done); lia.
Qed.

(** The newest layer with a visible version of the key decides. *)
Lemma visible_layers l rest k v :
  functional (l ++ rest) -> wf_entries (l ++ rest) -> age_ordered l rest ->
  visible (l ++ rest) k v = match visible l k v with Some m => Some m | None => visible rest k v end.
Proof.
  intros Hf Hw Ha. unfold visible. rewrite best_app.
  destruct (best l k v) as [[w1 m1]|] eqn:E1; [|done].
  destruct (best rest k v) as [[w2 m2]|] eqn:E2; [|done]. cbn.
  destruct (Z.leb_spec w2 w1) as [|Hlt]; [done|]. exfalso.
  apply best_some in E1 as ((e1 & H1 & K1 & V1 & _) & _ & Hmax).
  apply best_some in E2 as ((e2 & H2 & K2 & V2 & _) & Hv2 & _).
  destruct (Ha e2 H2) as [Hin|Hbelow].
  - specialize (Hmax e2 Hin K2 ltac:(lia)). lia.
  - specialize (Hbelow e1 H1 ltac:(congruence)). lia.
Qed.

(** ** Point reads: the first hit *)

Fixpoint first_hit (ls : list (list entry)) (k : bytes) (v : Z) : option MemValue :=
  match ls with
  | [] => None
  | l :: ls => match visible l k v with Some m => Some m | None => first_hit ls k v end
  end.

Lemma first_hit_visible ls k v : layers_ok ls -> first_hit ls k v = visible (concat ls) k v.
Proof.
  induction ls as [|l ls IH]; [done|]. intros Hk. pose proof (layers_ok_cons _ _ Hk) as [Hk' Ha].
  cbn [first_hit concat]. rewrite IH by done.
  rewrite visible_layers; [done|apply Hk|apply Hk|done].
Qed.

(** ** Scans: the merge *)

(** The merge of the layers' results, oldest first: later inserts win. *)
Definition merge (rs : list (list (bytes * MemValue))) : bmap MemValue :=
  fold_left (fun m r => bm_insert_all r m) rs [].

(** Dropping the tombstones of a merge. *)
Fixpoint live_rows (l : list (bytes * MemValue)) : list (bytes * bytes) :=
  match l with
  | [] => []
  | (k, Some v) :: l => (k, v) :: live_rows l
  | (k, None) :: l => live_rows l
  end.

Lemma bm_get_insert_all k (r m : bmap MemValue) :
  bsorted m -> bsorted r ->
  bm_get k (bm_insert_all r m) = match bm_get k r with Some v => Some v | None => bm_get k m end.
Proof.
  unfold bm_insert_all. revert m. induction r as [|[k0 v0] r IH]; intros m Hm Hr; [done|].
  apply bsorted_cons_inv in Hr as [Hr Hlt]. rewrite List.Forall_forall in Hlt. cbn [fold_left fst snd].
  rewrite IH by (auto using bsorted_insert). rewrite bm_get_insert by done. cbn [bm_get].
  destruct (beqb_spec k k0) as [->|Hne]; [|by rewrite decide_False].
  rewrite decide_True by done. rewrite (proj2 (bm_get_none k0 r)); [done|].
  intros w Hw. apply Hlt in Hw. by apply blt_irrefl in Hw.
Qed.

Lemma merge_sorted_acc (rs : list (list (bytes * MemValue))) m :
  bsorted m -> bsorted (fold_left (fun m r => bm_insert_all r m) rs m).
Proof. revert m. induction rs; intros m Hm; [done|]. cbn. auto using bsorted_insert_all. Qed.

Lemma merge_sorted rs : bsorted (merge rs).
Proof. apply merge_sorted_acc, bsorted_nil. Qed.

Lemma merge_snoc rs r : merge (rs ++ [r]) = bm_insert_all r (merge rs).
Proof. unfold merge. by rewrite fold_left_app. Qed.

(** A lookup in the merge is the lookup in the newest result that has the key. *)
Fixpoint first_found (rs : list (list (bytes * MemValue))) (k : bytes) : option MemValue :=
  match rs with
  | [] => None
  | r :: rs => match bm_get k r with Some m => Some m | None => first_found rs k end
  end.

Lemma merge_get rs k :
  Forall bsorted rs -> bm_get k (merge rs) = first_found (rev rs) k.
Proof.
  induction rs as [|r rs IH] using rev_ind; [done|]. intros H.
  apply Forall_app in H as [Hrs Hr]. inversion Hr; subst.
  rewrite merge_snoc, rev_app_distr, bm_get_insert_all by auto using merge_sorted. cbn.
  by rewrite IH.
Qed.

Lemma scan_answer_get es p lo v r k :
  scan_answer es p lo v r ->
  bm_get k r = if decide (p `prefix_of` k /\ lo <=b k) then visible es k v else None.
Proof.
  intros [Hs H]. destruct (decide _) as [[Hp Hl]|Hn].
  - destruct (bm_get k r) as [m|] eqn:Eg.
    + apply bm_get_in in Eg; [|done]. apply H in Eg. symmetry. tauto.
    + destruct (visible es k v) as [m|] eqn:Ev; [|done]. exfalso.
      eapply (proj1 (bm_get_none k r) Eg m). by apply H.
  - apply bm_get_none. intros m Hin. apply H in Hin. tauto.
Qed.

#[global] Instance ble_dec a b : Decision (a <=b b).
Proof. destruct (bleb_spec a b); [by left|by right]. Defined.

(** Merging the answers of the layers answers for their union; [ls] is newest
    first, the results are in the same order. *)
Lemma merge_answer ls rs p lo v :
  layers_ok ls -> Forall2 (fun l r => scan_answer l p lo v r) ls rs ->
  scan_answer (concat ls) p lo v (merge (rev rs)).
Proof.
  intros Hk Hall.
  assert (Hsr : Forall bsorted (rev rs)).
  { apply Forall_rev. clear Hk. induction Hall as [|l r ls rs H _ IH]; constructor; [apply H|done]. }
  assert (Hg : forall k, bm_get k (merge (rev rs)) =
    if decide (p `prefix_of` k /\ lo <=b k) then visible (concat ls) k v else None).
  { intros k. rewrite merge_get, rev_involutive by done. rewrite <- first_hit_visible by done.
    clear Hk Hsr. induction Hall as [|l r ls rs H _ IH]; cbn; [by destruct (decide _)|].
    rewrite (scan_answer_get _ _ _ _ _ k H), IH. by destruct (decide _). }
  split; [apply merge_sorted|]. intros u m. rewrite <- bm_get_in by apply merge_sorted.
  rewrite Hg. destruct (decide _) as [[H1 H2]|Hn]; [tauto|]. split; [done|tauto].
Qed.

Lemma live_rows_in l k x : In (k, x) (live_rows l) <-> In (k, Some x) l.
Proof.
  induction l as [|[k0 [v0|]] l IH]; cbn; [done|..]; rewrite IH; naive_solver.
Qed.

Lemma live_rows_sorted l : bsorted l -> bsorted (live_rows l).
Proof.
  induction l as [|[k0 m0] l IH]; intros Hs; [constructor|].
  apply bsorted_cons_inv in Hs as [Hs Hlt]. destruct m0 as [v0|]; cbn; [|auto].
  constructor; [by apply IH|]. rewrite List.Forall_forall in Hlt. apply List.Forall_forall.
  intros [k x] Hin. apply live_rows_in in Hin. by apply Hlt in Hin.
Qed.

(** ** Windows: bounded scans *)

(** The [n] smallest keys of a merge only need the [n] smallest of each layer. *)
Lemma window_rank n (U S : bmap MemValue) k v :
  bsorted U -> bsorted S -> (forall a x, In (a, x) S -> exists y, In (a, y) U) ->
  (exists y, In (k, y) (take n U)) -> In (k, v) S -> In (k, v) (take n S).
Proof.
  revert U S. induction n as [|n IH]; intros U S HU HS Hsub [y Hy] Hk; [done|].
  destruct U as [|[u yu] U]; [done|]. destruct S as [|[s ys] S]; [done|]. cbn [take] in *.
  apply bsorted_cons_inv in HU as [HU HltU]. pose proof (bsorted_cons_inv _ _ HS) as [HS' HltS].
  rewrite List.Forall_forall in HltU, HltS.
  assert (Hne : s <> u -> u <b s).
  { intros Hne. destruct (Hsub s ys (or_introl eq_refl)) as (y' & [[= -> _]|Hin]); [done|].
    by apply HltU in Hin. }
  destruct (decide (s = u)) as [->|Hsu].
  - destruct Hk as [[= <- <-]|Hk]; [by left|]. right. apply (IH U S); [done|done| |  |done].
    + intros a x Ha. destruct (Hsub a x (or_intror Ha)) as (y' & [[= <- _]|Hin]); [|eauto].
      exfalso. apply HltS in Ha. by apply blt_irrefl in Ha.
    + destruct Hy as [[= <- _]|Hy]; [|eauto]. exfalso. apply HltS in Hk. by apply blt_irrefl in Hk.
  - specialize (Hne Hsu). assert (Hku : u <b k).
    { destruct Hk as [[= <- <-]|Hk]; [done|]. apply HltS in Hk. by eapply blt_trans. }
    assert (Hin : In (k, v) (take n ((s, ys) :: S))).
    { apply (IH U); [done|done| | |done].
      - intros a x Ha. destruct (Hsub a x Ha) as (y' & [[= <- _]|Hin]); [|eauto]. exfalso.
        destruct Ha as [[= -> _]|Ha]; [done|]. apply HltS in Ha.
        eapply blt_irrefl, blt_trans; [exact Hne|exact Ha].
      - destruct Hy as [[= <- _]|Hy]; [by apply blt_irrefl in Hku|eauto]. }
    destruct n as [|n]; [done|]. cbn [take] in *. destruct Hin as [|Hin]; [by left|]. right.
    revert Hin. clear. intros Hin. rewrite <- (take_drop n (take (Datatypes.S n) S)), take_take.
    rewrite Nat.min_l by lia. apply in_or_app. by left.
Qed.

Lemma window_take n (A B : bmap MemValue) :
  bsorted A -> bsorted B ->
  (forall e, In e (take n A) -> In e B) -> (forall k v, In (k, v) B -> exists v', In (k, v') A) ->
  take n B = take n A.
Proof.
  revert A B. induction n as [|n IH]; intros A B HA HB Hin Hsub; [done|].
  destruct A as [|[a x] A].
  { destruct B as [|[b y] B]; [done|]. by destruct (Hsub b y (or_introl eq_refl)) as [v' []]. }
  pose proof (Hin (a, x) (or_introl eq_refl)) as Ha.
  apply bsorted_cons_inv in HA as [HA HltA]. rewrite List.Forall_forall in HltA.
  destruct B as [|[b y] B]; [done|]. apply bsorted_cons_inv in HB as [HB HltB].
  rewrite List.Forall_forall in HltB.
  assert (Hhd : (b, y) = (a, x)).
  { destruct Ha as [|Ha]; [done|]. exfalso. apply HltB in Ha. cbn in Ha.
    destruct (Hsub b y (or_introl eq_refl)) as (v' & [[= -> _]|Hb]); [by apply blt_irrefl in Ha|].
    apply HltA in Hb. cbn in Hb. eapply blt_irrefl, blt_trans; [exact Ha|exact Hb]. }
  injection Hhd as -> ->. cbn [take]. f_equal. apply IH; [done|done| |].
  - intros e He. destruct (Hin e) as [<-|HB']; [right; done| |done]. exfalso.
    assert (In (a, x) A) as HaA by (rewrite <- (take_drop n A); apply in_or_app; by left).
    apply HltA in HaA. by apply blt_irrefl in HaA.
  - intros k v Hk. destruct (Hsub k v (or_intror Hk)) as (v' & [[= <- _]|H]); [|eauto]. exfalso.
    apply HltB in Hk. by apply blt_irrefl in Hk.
Qed.

Lemma first_found_ext (f : list (bytes * MemValue) -> list (bytes * MemValue)) rs k :
  (forall r, In r rs -> bm_get k (f r) = bm_get k r) -> first_found (map f rs) k = first_found rs k.
Proof.
  induction rs as [|r rs IH]; intros H; [done|]. cbn. rewrite (H r) by by left.
  rewrite IH; [done|]. intros r' Hr'. apply H. by right.
Qed.

Lemma first_found_in rs k m : first_found rs k = Some m -> exists r, In r rs /\ bm_get k r = Some m.
Proof.
  induction rs as [|r rs IH]; [done|]. cbn. destruct (bm_get k r) as [m'|] eqn:Eg.
  - intros [= ->]. exists r. split; [by left|done].
  - intros H. destruct (IH H) as (r' & Hr' & E'). exists r'. split; [by right|done].
Qed.

Lemma first_found_is_some rs k r m :
  In r rs -> bm_get k r = Some m -> exists m', first_found rs k = Some m'.
Proof.
  induction rs as [|r0 rs IH]; [done|]. intros [->|Hr] Hg; cbn; [rewrite Hg; eauto|].
  destruct (bm_get k r0); eauto.
Qed.

Lemma bsorted_take n (r : bmap MemValue) : bsorted r -> bsorted (take n r).
Proof. intros H. rewrite <- (take_drop n r) in H. apply (proj1 (bsorted_app _ _) H). Qed.

Lemma in_take {A} n (l : list A) x : In x (take n l) -> In x l.
Proof. intros H. rewrite <- (take_drop n l). apply in_or_app. by left. Qed.

(** The window of a merge is the window of the merged windows. *)
Lemma merge_window n rs :
  Forall bsorted rs -> take n (merge (map (take n) rs)) = take n (merge rs).
Proof.
  intros Hs.
  assert (Hs' : Forall bsorted (map (take n) rs)).
  { apply Forall_fmap. eapply Forall_impl; [exact Hs|]. intros r. apply bsorted_take. }
  assert (Hin : forall r, In r (rev rs) -> bsorted r).
  { intros r Hr. apply in_rev in Hr. rewrite List.Forall_forall in Hs. by apply Hs. }
  assert (Hkeys : forall r k x, In r rs -> In (k, x) r -> exists y, In (k, y) (merge rs)).
  { intros r k x Hr Hx. pose proof (proj1 (List.Forall_forall _ _) Hs) as Hs2.
    destruct (first_found_is_some (rev rs) k r x) as [y Hy]; [by apply in_rev in Hr| |].
    - apply bm_get_in; [by apply Hs2|done].
    - exists y. apply bm_get_in; [apply merge_sorted|]. by rewrite merge_get. }
  apply window_take; [apply merge_sorted..| |].
  - intros [k m] He. pose proof (in_take _ _ _ He) as Hm.
    apply bm_get_in in Hm; [|apply merge_sorted]. apply bm_get_in; [apply merge_sorted|].
    rewrite merge_get in * by done. rewrite <- map_rev, first_found_ext; [done|]. intros r Hr.
    destruct (bm_get k r) as [x|] eqn:Ex.
    + apply bm_get_in in Ex; [|by apply Hin]. apply bm_get_in; [by apply bsorted_take, Hin|].
      eapply window_rank; [apply merge_sorted|by apply Hin| |by exists m; exact He|done].
      intros a y Ha. eapply Hkeys; [|exact Ha]. by apply in_rev.
    + apply bm_get_none. intros x Hx. by apply (proj1 (bm_get_none k r) Ex x), (in_take n).
  - intros k v Hv. apply bm_get_in in Hv; [|apply merge_sorted]. rewrite merge_get in Hv by done.
    apply first_found_in in Hv as (r & Hr & Eg). apply in_rev, in_map_iff in Hr as (r0 & <- & Hr0).
    rewrite List.Forall_forall in Hs. apply bm_get_in in Eg; [|by apply bsorted_take, Hs].
    eapply Hkeys; [done|by eapply in_take].
Qed.

(** A merge whose windows are all short is complete. *)
Lemma merge_unsaturated n (rs : list (list (bytes * MemValue))) :
  (forall r, In r rs -> length (take n r) <> n) -> map (take n) rs = rs.
Proof.
  induction rs as [|r rs IH]; intros H; [done|]. cbn. rewrite IH by (intros r' Hr'; apply H; by right).
  f_equal. apply take_ge. specialize (H r (or_introl eq_refl)). rewrite length_take in H. lia.
Qed.
