(* ===== verification/SstBatch.v ===== *)
(** * Batched reads of an SST (crates/rhypedb-storage/src/sst.rs)

    [multi_get_versioned] and [multi_scan_prefix_versioned] walk an
    uncompressed file once, with a cursor at absolute offsets, for a sorted
    batch of keys or prefixes; on a compressed file they fall back to the
    single-key operations.  The walk gives, for every needle, what the single
    lookup or scan gives. *)

From Stdlib Require Import ZArith Lia Bool List Strings.Byte Sorting.Sorted.
From stdpp Require Import base option list.
From S2P Require Import Prelude ByteMap Keys Versioned Extern Bloom Zone Sst SstReader SstRead Layers.

Local Open Scope Z_scope.
Local Open Scope bytes_scope.

Lemma in_skipn {A} n (l : list A) x : In x (drop n l) -> In x l.
Proof. intros H. rewrite <- (take_drop n l). apply in_or_app. by right. Qed.

Section batch.
Context {E : Extern}.

(** ** The cursor *)

(** [self.index[i]]. *)
Definition index_at (r : SstReader) (i : nat) : res IndexEntry :=
  match r_index r !! i with Some e => Ok e | None => Panic end.

(** The lengths at the head of the entry at [pos]. *)
Definition entry_header (r : SstReader) (pos : Z) : res (Z * Z) :=
  key_len ← read_be (r_data r) pos 4;
  value_len_raw ← read_be (r_data r) (pos + 4) 4;
  Ok (key_len, value_len_raw).

(** [while block_idx + 1 < index.len() && pos >= index[block_idx + 1].offset]. *)
Fixpoint sync_block (n : nat) (r : SstReader) (block_idx : nat) (pos : Z) : nat :=
  match n with
  | O => block_idx
  | S n =>
      match r_index r !! S block_idx with
      | Some e => if ie_offset e <=? pos then sync_block n r (S block_idx) pos else block_idx
      | None => block_idx
      end
  end.

(** The threshold gallop: past the block, seek again with [locate]. *)
Definition gallop (r : SstReader) (locate : nat -> nat) (pos : Z) (block_idx : nat) : res (Z * nat) :=
  match r_index r !! S block_idx with
  | Some e =>
      if ie_offset e <=? pos then
        let block_idx := locate (S block_idx) in
        ie ← index_at r block_idx; Ok (ie_offset ie, block_idx)
      else Ok (pos, block_idx)
  | None => Ok (pos, block_idx)
  end.

(** The inner loop that skips the older versions of a key that was found. *)
Fixpoint skip_versions (fuel : nat) (r : SstReader) (needle : bytes) (pos : Z) : res Z :=
  match fuel with
  | O => Panic
  | S fuel =>
      if pos <? r_data_end r then
        '(kl2, vlr2) ← entry_header r pos;
        if kl2 <? 8 then Ok pos
        else
          next_user ← slice (r_data r) (pos + 8) (pos + 8 + kl2 - 8);
          if negb (beqb next_user needle) then Ok pos
          else
            let vl2 := if vlr2 =? TOMBSTONE_MARKER then 0 else vlr2 in
            skip_versions fuel r needle (pos + (8 + kl2 + vl2))
      else Ok pos
  end.

(** The outer loop.  [needles] is [sorted_user_keys[i..]], the result is
    [out[i..]], and the cursor is absent until it is seeded.  A walk that did
    not end within the fuel would be [Panic]; on a written file it ends. *)
Fixpoint multi_get_loop (fuel : nat) (r : SstReader) (version : Z) (needles : list bytes)
    (cur : option (Z * nat)) : res (list (option MemValue)) :=
  match needles, fuel with
  | [], _ => Ok []
  | _ :: _, O => Panic
  | needle :: rest, S fuel =>
      might ← might_contain r needle;
      if negb might then
        out ← multi_get_loop fuel r version rest cur; Ok (None :: out)
      else
        '(pos, block_idx) ←
          match cur with
          | Some c => Ok c
          | None =>
              let block_idx := locate_block_from r needle 0 in
              ie ← index_at r block_idx; Ok (ie_offset ie, block_idx)
          end;
        if r_data_end r <=? pos then
          out ← multi_get_loop fuel r version rest (Some (pos, block_idx)); Ok (None :: out)
        else
          '(key_len, value_len_raw) ← entry_header r pos;
          let key_start := pos + 8 in
          let key_end := key_start + key_len in
          let is_tomb := value_len_raw =? TOMBSTONE_MARKER in
          let val_end := key_end + (if is_tomb then 0 else value_len_raw) in
          if key_len <? 8 then multi_get_loop fuel r version needles (Some (val_end, block_idx))
          else
            entry_user ← slice (r_data r) key_start (key_end - 8);
            match bytes_cmp entry_user needle with
            | Lt =>
                c ← gallop r (locate_block_from r needle) val_end block_idx;
                multi_get_loop fuel r version needles (Some c)
            | Eq =>
                ver_bytes ← slice (r_data r) (key_end - 8) key_end;
                if not64 (from_be ver_bytes) <=? version then
                  value ← (if is_tomb then Ok None
                           else v ← slice (r_data r) key_end val_end; Ok (Some v));
                  pos ← skip_versions (length (r_data r)) r needle val_end;
                  let block_idx := sync_block (length (r_index r)) r block_idx pos in
                  out ← multi_get_loop fuel r version rest (Some (pos, block_idx));
                  Ok (Some value :: out)
                else
                  let block_idx := sync_block (length (r_index r)) r block_idx val_end in
                  multi_get_loop fuel r version needles (Some (val_end, block_idx))
            | Gt =>
                out ← multi_get_loop fuel r version rest (Some (pos, block_idx)); Ok (None :: out)
            end
  end.

(** The per-needle fallback on a compressed file. *)
Fixpoint get_each (r : SstReader) (version : Z) (needles : list bytes) : res (list (option MemValue)) :=
  match needles with
  | [] => Ok []
  | needle :: needles =>
      v ← get_versioned r needle version; out ← get_each r version needles; Ok (v :: out)
  end.

Definition multi_get_versioned (r : SstReader) (sorted_user_keys : list bytes) (version : Z)
    : res (list (option MemValue)) :=
  match sorted_user_keys, r_index r with
  | [], _ | _, [] => Ok (map (fun _ => None) sorted_user_keys)
  | _, _ =>
      if SST_VERSION_COMPRESSED <=? r_version r then get_each r version sorted_user_keys
      else multi_get_loop (length sorted_user_keys + length (r_data r)) r version sorted_user_keys None
  end.

(** ** Offsets of the entries *)

Section walk.
Context (r : SstReader) (bs : list (list entry)) (Hr : sst_repr r bs) (Hl : laid_out r CompressNone bs).

Local Notation es := (concat bs).

Definition off (j : nat) : Z := 8 + len (enc_entries (take j es)).
Definition start (b : nat) : nat := length (concat (take b bs)).

Lemma frames_none l : frames CompressNone l = enc_entries (concat l).
Proof.
  unfold frames, block_frame. induction l as [|b l IH]; [done|]. cbn [map concat].
  by rewrite enc_entries_app, IH.
Qed.

Lemma take_start b : take (start b) es = concat (take b bs).
Proof. rewrite (take_drop_concat bs b). unfold start. by rewrite take_mid. Qed.

Lemma entry_at j e : es !! j = Some e -> entry_ok e /\ (8 <= length (fst e))%nat /\ In e es.
Proof.
  intros Hj. assert (Hin : In e es) by (apply list_elem_of_In; by eapply list_elem_of_lookup_2).
  split_and!; [|by eapply wf_entries_in; [apply Hr|]|done].
  by apply (proj1 (List.Forall_forall _ _) (sr_ok r bs Hr)).
Qed.

Lemma off_S j e : es !! j = Some e -> off (S j) = off j + 8 + len (fst e) + len (value_bytes (snd e)).
Proof.
  intros Hj. unfold off. rewrite (take_S_r _ _ _ Hj), enc_entries_app, len_app.
  unfold enc_entries at 2. cbn [map concat]. rewrite app_nil_r.
  rewrite enc_entry_len by (by eapply entry_at). lia.
Qed.

Lemma off_mono i j : (i < j)%nat -> (j <= length es)%nat -> off i < off j.
Proof.
  induction 1 as [|j Hij IH]; intros Hj.
  - destruct (lookup_lt_is_Some_2 es i ltac:(lia)) as [e He]. rewrite (off_S i e He).
    pose proof (len_nonneg (fst e)). pose proof (len_nonneg (value_bytes (snd e))). lia.
  - destruct (lookup_lt_is_Some_2 es j ltac:(lia)) as [e He]. rewrite (off_S j e He).
    pose proof (len_nonneg (fst e)). pose proof (len_nonneg (value_bytes (snd e))). specialize (IH ltac:(lia)). lia.
Qed.

Lemma off_le i j : (i <= length es)%nat -> (j <= length es)%nat -> off i <= off j <-> (i <= j)%nat.
Proof.
  intros Hi Hj. split.
  - intros Ho. destruct (decide (i <= j)%nat); [done|]. pose proof (off_mono j i ltac:(lia) Hi). lia.
  - intros Hij. destruct (decide (i = j)) as [->|]; [lia|]. pose proof (off_mono i j ltac:(lia) Hj). lia.
Qed.

Lemma data_end_off : r_data_end r = off (length es).
Proof. rewrite (lo_end _ _ _ Hl), frames_none. unfold off. by rewrite firstn_all. Qed.

Lemma off_end j : (j <= length es)%nat -> (r_data_end r <=? off j) = (length es <=? j)%nat.
Proof.
  intros Hj. rewrite data_end_off. destruct (Z.leb_spec (off (length es)) (off j)) as [H|H];
    destruct (Nat.leb_spec (length es) j) as [H'|H']; try done.
  - apply off_le in H; lia.
  - assert (j = length es) as -> by lia. lia.
Qed.

Lemma off_lt_end j : (j <= length es)%nat -> (off j <? r_data_end r) = (j <? length es)%nat.
Proof.
  intros Hj. pose proof (off_end j Hj) as H. rewrite Z.leb_antisym, Nat.leb_antisym in H.
  by destruct (off j <? r_data_end r), (j <? length es)%nat.
Qed.

Lemma start_le b : (start b <= length es)%nat.
Proof. unfold start. rewrite (take_drop_concat bs b), length_app. lia. Qed.

Lemma start_S b blk : bs !! b = Some blk -> start (S b) = (start b + length blk)%nat.
Proof.
  intros Hb. unfold start. rewrite (take_S_r _ _ _ Hb), concat_app, length_app. cbn. by rewrite app_nil_r.
Qed.

Lemma start_mono b b' : (b < b')%nat -> (b' <= length bs)%nat -> (start b < start b')%nat.
Proof.
  induction 1 as [|b' Hb IH]; intros Hle.
  - destruct (lookup_lt_is_Some_2 bs b ltac:(lia)) as [blk Hblk]. rewrite (start_S b blk Hblk).
    pose proof (Forall_lookup_1 _ _ _ _ (lo_nonempty _ _ _ Hl) Hblk). destruct blk; [done|cbn; lia].
  - destruct (lookup_lt_is_Some_2 bs b' ltac:(lia)) as [blk Hblk]. rewrite (start_S b' blk Hblk).
    specialize (IH ltac:(lia)). lia.
Qed.

Lemma start_all : start (length bs) = length es.
Proof. unfold start. by rewrite firstn_all. Qed.

Lemma index_lookup b :
  (b < length bs)%nat -> exists ie, r_index r !! b = Some ie /\ ie_offset ie = off (start b).
Proof.
  intros Hb. destruct (lookup_lt_is_Some_2 bs b Hb) as [blk Hblk].
  rewrite (lo_index _ _ _ Hl), (index_of_lookup _ _ _ _ _ Hblk). eexists. split; [done|]. cbn [ie_offset].
  unfold off. by rewrite take_start, frames_none.
Qed.

Lemma index_end b : (length bs <= b)%nat -> r_index r !! b = None.
Proof. intros Hb. apply lookup_ge_None. by rewrite (sr_length r bs Hr). Qed.

(** ** Decoding at an offset *)

Lemma data_at j e :
  es !! j = Some e -> exists pre post, len pre = off j /\ r_data r = pre ++ enc_entry e ++ post.
Proof.
  intros Hj. destruct (lo_data _ _ _ Hl) as [rest Hd]. rewrite frames_none in Hd.
  exists ((SST_MAGIC ++ be32 (sst_version CompressNone)) ++ enc_entries (take j es)), (enc_entries (drop (S j) es) ++ rest).
  split; [rewrite len_app, len_sst_header; done|].
  rewrite Hd, <- (take_drop_middle _ _ _ Hj) at 1. rewrite enc_entries_app. unfold enc_entries at 2. cbn [map concat].
  fold (enc_entries (drop (S j) es)). app_solve.
Qed.

Lemma data_small j : off j < 2 ^ 63.
Proof.
  destruct (lo_data _ _ _ Hl) as [rest Hd]. pose proof (lo_size _ _ _ Hl) as Hs. rewrite Hd, frames_none in Hs.
  rewrite <- (take_drop j es), enc_entries_app in Hs.
  rewrite (len_app (SST_MAGIC ++ _)), len_sst_header, !len_app in Hs.
  pose proof (len_nonneg rest). pose proof (len_nonneg (enc_entries (drop j es))). unfold off. lia.
Qed.

Record decoded (j : nat) (e : entry) : Prop := {
  de_header : entry_header r (off j) = Ok (len (fst e), value_len_of (snd e));
  de_user : slice (r_data r) (off j + 8) (off j + 8 + len (fst e) - 8) = Ok (euk e);
  de_version : slice (r_data r) (off j + 8 + len (fst e) - 8) (off j + 8 + len (fst e)) = Ok (drop (length (fst e) - 8) (fst e));
  de_value : (if value_len_of (snd e) =? TOMBSTONE_MARKER then Ok None
              else x ← slice (r_data r) (off j + 8 + len (fst e)) (off (S j)); Ok (Some x)) = Ok (snd e);
  de_next : off j + 8 + len (fst e) + (if value_len_of (snd e) =? TOMBSTONE_MARKER then 0 else value_len_of (snd e)) = off (S j);
}.

Lemma decode_at j e : es !! j = Some e -> decoded j e.
Proof.
  intros Hj. destruct (entry_at j e Hj) as (Hok & H8 & _). destruct (data_at j e Hj) as (pre & post & Hp & Hd).
  pose proof (enc_entry_parts e Hok) as Hparts. rewrite Hparts in Hd. pose proof (off_S j e Hj) as HS.
  pose proof (value_len_u32 e Hok) as Hv. pose proof Hok as [Hk _].
  pose proof (data_small (S j)). pose proof (len_nonneg (fst e)). pose proof (len_nonneg (value_bytes (snd e))).
  assert (Hoff : 0 <= off j) by (unfold off; pose proof (len_nonneg (enc_entries (take j es))); lia).
  set (k := fst e) in *. set (u := euk e). set (s := drop (length k - 8) k).
  assert (Hks : k = u ++ s) by (unfold u, s, euk, InternalKey.user_key; fold k; by rewrite take_drop).
  assert (Hs8 : len s = 8) by (unfold s, len; rewrite length_drop; lia).
  assert (Hku : len k = len u + 8) by (transitivity (len (u ++ s)); [by rewrite <- Hks|rewrite len_app; lia]).
  assert (Hu : euk e = u) by done. assert (Hsu : drop (length k - 8) k = s) by done. clearbody u s.
  split; fold k.
  - unfold entry_header. rewrite Hd, <- !app_assoc, (read_be32_at pre _ _ (off j)) by (done || lia). cbn [mbind res_bind].
    rewrite app_assoc, read_be32_at; [done| |done|lia]. unfold be32. rewrite len_app, len_be. lia.
  - rewrite Hu, Hd. clear Hsu. rewrite Hks, <- !app_assoc, (app_assoc pre), (app_assoc (_ ++ _)). apply slice_app; unfold be32; rewrite ?len_app, ?len_be; lia.
  - rewrite Hsu, Hd. rewrite Hks, <- !app_assoc, (app_assoc pre), (app_assoc (_ ++ _)), (app_assoc (_ ++ _)).
    apply slice_app; unfold be32; rewrite ?len_app, ?len_be; lia.
  - assert (Hsl : slice (r_data r) (off j + 8 + len k) (off (S j)) = Ok (value_bytes (snd e))).
    { rewrite Hd, <- !app_assoc, (app_assoc pre), (app_assoc (_ ++ _)), (app_assoc (_ ++ _)).
      apply slice_app; unfold be32; rewrite ?len_app, ?len_be; lia. }
    rewrite value_len_tomb by done. destruct (snd e); [|done]. by rewrite Hsl.
  - rewrite (value_len_tomb e Hok). unfold value_bytes, value_len_of in *. destruct (snd e); rewrite ?len_nil in *; lia.
Qed.

(** ** The cursor on the entries *)

(** The cursor is at entry [j], with its block in sync. *)
Definition cursor_at (j : nat) (c : Z * nat) : Prop :=
  c.1 = off j /\ (j <= length es)%nat /\ (c.2 < length bs)%nat /\ (start c.2 <= j)%nat /\
  ((S c.2 < length bs)%nat -> (j < start (S c.2))%nat).

Lemma cursor_block b : (b < length bs)%nat -> cursor_at (start b) (off (start b), b).
Proof.
  intros Hb. split_and!; cbn; [done|apply start_le|done|done|]. intros Hs. apply start_mono; lia.
Qed.

Lemma sync_block_at n j b :
  (j <= length es)%nat -> (start b <= j)%nat -> (b < length bs)%nat -> (length bs <= n + S b)%nat ->
  cursor_at j (off j, sync_block n r b (off j)).
Proof.
  intros Hj. revert b. induction n as [|n IH]; intros b Hb Hlt Hn; cbn [sync_block].
  { split_and!; cbn; try done. lia. }
  destruct (decide (S b < length bs)%nat) as [Hs|Hs].
  - destruct (index_lookup (S b) Hs) as (ie & -> & ->).
    destruct (Z.leb_spec (off (start (S b))) (off j)) as [Ho|Ho].
    + apply off_le in Ho; [|apply start_le|done]. apply IH; [done..|lia].
    + split_and!; cbn; try done. intros _. destruct (decide (j < start (S b))%nat); [done|].
      pose proof (proj2 (off_le (start (S b)) j (start_le _) Hj) ltac:(lia)). lia.
  - rewrite index_end by lia. split_and!; cbn; try done. 
Qed.

(** A seek from block [s] skips only entries below its target. *)
Lemma seek_from_below s target :
  (s < length bs)%nat ->
  let b := (s + seek_block (drop s (r_index r)) target)%nat in
  (s <= b < length bs)%nat /\ forall e, In e (drop (start s) (take (start b) es)) -> fst e <b target.
Proof.
  intros Hs b. pose proof (sr_length r bs Hr) as Hlen.
  destruct (seek_block_spec (drop s (r_index r)) target) as [Hlt Hk].
  assert (Hb : (s <= b < length bs)%nat).
  { assert (drop s (r_index r) <> []) as Hne by (intros Hx; apply (f_equal length) in Hx; rewrite length_drop in Hx; cbn in Hx; lia).
    specialize (Hlt Hne). rewrite length_drop in Hlt. unfold b. lia. }
  split; [done|]. intros e He. destruct Hk as [H0|(ie & Hi & Hle)].
  { exfalso. unfold b in He. rewrite H0, Nat.add_0_r in He. rewrite drop_ge in He; [done|]. rewrite length_take. lia. }
  rewrite lookup_drop in Hi. fold b in Hi. destruct (lookup_lt_is_Some_2 bs b ltac:(lia)) as [blk Hblk].
  destruct (sr_key r bs Hr b blk Hblk) as (ie' & e0 & tl & Hi' & -> & Hk & _).
  rewrite Hi in Hi'. injection Hi' as <-. rewrite Hk in Hle. eapply blt_ble_trans; [|exact Hle].
  pose proof (sr_sorted r bs Hr) as Hso. rewrite (take_drop_concat bs b) in Hso.
  apply bsorted_app in Hso as (_ & _ & Hso). apply Hso.
  - rewrite take_start in He. by eapply in_skipn.
  - rewrite (drop_S _ _ _ Hblk). by left.
Qed.

(** The gallop moves the cursor forward, over entries below the target only. *)
Lemma gallop_at j b target locate :
  cursor_at j (off j, b) -> (j < length es)%nat ->
  (forall s, locate s = (s + seek_block (drop s (r_index r)) target)%nat) ->
  exists j' c, gallop r locate (off (S j)) b = Ok c /\ cursor_at j' c /\ (S j <= j')%nat /\
    forall e, In e (drop (S j) (take j' es)) -> fst e <b target.
Proof.
  intros (_ & Hj & Hb & Hst & Hn) Hlt Hloc. cbn [fst snd] in *. unfold gallop.
  destruct (decide (S b < length bs)%nat) as [Hs|Hs].
  - specialize (Hn Hs). destruct (index_lookup (S b) Hs) as (ie & -> & ->).
    destruct (Z.leb_spec (off (start (S b))) (off (S j))) as [Ho|Ho].
    + apply off_le in Ho; [|apply start_le|lia]. assert (Hjs : S j = start (S b)) by lia.
      destruct (seek_from_below (S b) target Hs) as [Hb' Hbelow]. rewrite <- Hloc in Hb', Hbelow.
      destruct (index_lookup (locate (S b)) ltac:(lia)) as (ie' & Ei & Eo). unfold index_at. rewrite Ei. cbn [mbind res_bind].
      exists (start (locate (S b))). eexists. split; [done|]. rewrite Eo. split; [apply cursor_block; lia|].
      rewrite Hjs. split; [|done]. destruct (decide (locate (S b) = S b)) as [->|]; [done|].
      apply Nat.lt_le_incl, start_mono; lia.
    + exists (S j), (off (S j), b). split; [done|]. split; [|split; [done|]].
      * assert (S j < start (S b))%nat.
        { destruct (decide (S j < start (S b))%nat); [done|].
          pose proof (proj2 (off_le (start (S b)) (S j) (start_le _) ltac:(lia)) ltac:(lia)). lia. }
        split_and!; cbn [fst snd]; done || lia.
      * rewrite drop_ge; [done|]. rewrite length_take. lia.
  - rewrite index_end by lia. exists (S j), (off (S j), b). split; [done|]. split; [|split; [done|]].
    + split_and!; cbn [fst snd]; done || lia.
    + rewrite drop_ge; [done|]. rewrite length_take. lia.
Qed.

(** ** The batched lookup *)

Section lookup.
Context (v : Z).

(** The entries before the cursor are below the needle, or are versions of it
    that the snapshot does not see. *)
Definition passed (j : nat) (needle : bytes) : Prop :=
  forall e, In e (take j es) -> euk e <b needle \/ (euk e = needle /\ v < ever e).

Lemma passed_visible j needle : passed j needle -> visible es needle v = visible (drop j es) needle v.
Proof.
  intros Hp. rewrite <- (take_drop j es) at 1. unfold visible, passed in *.
  assert (Hn : best (take j es) needle v = None).
  { apply best_none. intros e He Hk. destruct (Hp e He) as [Hlt|[_ ?]]; [|done].
    rewrite Hk in Hlt. by apply blt_irrefl in Hlt. }
  revert Hn. generalize (take j es). intros l Hn. induction l as [|e l IH]; [done|].
  cbn [best app] in *. destruct (beqb (euk e) needle && (ever e <=? v)); [|by apply IH].
  destruct (best l needle v) as [[w m]|]; [by destruct (_ <=? _)|done].
Qed.

Lemma passed_next j needle needle' :
  (forall e, In e (take j es) -> euk e <=b needle) -> needle <b needle' -> passed j needle'.
Proof. intros Hp Hlt e He. left. eapply ble_blt_trans; [by apply Hp|done]. Qed.

Lemma passed_le j needle : passed j needle -> forall e, In e (take j es) -> euk e <=b needle.
Proof. intros Hp e He. apply ble_lteq. destruct (Hp e He) as [?|[? _]]; auto. Qed.

Lemma in_take_S j j' e0 e :
  es !! j = Some e0 -> (S j <= j')%nat -> In e (take j' es) ->
  In e (take j es) \/ e = e0 \/ In e (drop (S j) (take j' es)).
Proof.
  intros Hj Hle He. rewrite <- (take_drop (S j) (take j' es)) in He.
  rewrite take_take, Nat.min_l in He by done. rewrite (take_S_r _ _ _ Hj) in He.
  rewrite !in_app_iff in He. cbn in He. intuition.
Qed.

(** The snapshot's answer from the entry at the cursor. *)
Lemma head_visible j e needle :
  es !! j = Some e -> passed j needle -> no_extension needle es ->
  (euk e = needle -> ever e <= v -> visible es needle v = Some (snd e)) /\
  (needle <b euk e -> visible es needle v = None).
Proof.
  intros Hj Hp Hx. rewrite (passed_visible j needle Hp).
  assert (Hin : forall x, In x (drop j es) -> In x es) by (intros x; apply in_skipn).
  rewrite <- get_versioned_loop_visible.
  2: { eapply wf_entries_incl; [exact Hin|apply Hr]. }
  2: { pose proof (sr_sorted r bs Hr) as Hs. rewrite <- (take_drop j es) in Hs. by apply bsorted_app in Hs as (_ & ? & _). }
  2: { intros x Hx'. by apply Hx, Hin. }
  destruct (entry_at j e Hj) as (_ & H8 & _).
  rewrite (drop_S _ _ _ Hj). cbn [get_versioned_loop]. destruct (Nat.leb_spec 8 (length (fst e))); [|lia]. split.
  - intros <- Hv. destruct (beqb_spec (euk e) (euk e)); [|done]. by destruct (Z.leb_spec (ever e) v); [|lia].
  - intros Hlt. destruct (beqb_spec (euk e) needle) as [Heq|]; [rewrite Heq in Hlt; by apply blt_irrefl in Hlt|].
    by destruct (bltb_spec needle (euk e)).
Qed.

Lemma below_needle e needle : In e es -> fst e <b needle ++ repeat x00 8 -> euk e <b needle.
Proof.
  intros He Hlt. apply not_ble. intros Hle. apply not_blt in Hlt; [done|].
  rewrite <- ik_new_max. apply seek_ble; [by eapply wf_entries_in; [apply Hr|]|done].
Qed.

Lemma skip_versions_at fuel needle j :
  (j <= length es)%nat -> (length es - j < fuel)%nat ->
  exists j', skip_versions fuel r needle (off j) = Ok (off j') /\ (j <= j' <= length es)%nat /\
    forall e, In e (drop j (take j' es)) -> euk e = needle.
Proof.
  revert j. induction fuel as [|fuel IH]; intros j Hj Hf; [lia|]. cbn [skip_versions].
  assert (Hstop : exists j', Ok (off j) = Ok (off j') /\ (j <= j' <= length es)%nat /\
    forall e, In e (drop j (take j' es)) -> euk e = needle).
  { exists j. split; [done|]. split; [lia|]. intros e He. rewrite drop_ge in He; [done|]. rewrite length_take. lia. }
  rewrite off_lt_end by done. destruct (Nat.ltb_spec j (length es)) as [Hlt|]; [|done].
  destruct (lookup_lt_is_Some_2 es j Hlt) as [e He]. destruct (decode_at j e He) as [-> Du _ _ Dn]. cbn [mbind res_bind].
  destruct (entry_at j e He) as (_ & H8 & _). destruct (Z.ltb_spec (len (fst e)) 8) as [Hx|_]; [unfold len in Hx; lia|].
  rewrite Du. cbn [mbind res_bind]. destruct (beqb_spec (euk e) needle) as [Hk|Hk]; cbn [negb]; [|done].
  replace (off j + _) with (off (S j)) by (rewrite <- Dn; lia).
  destruct (IH (S j) ltac:(lia) ltac:(lia)) as (j' & -> & Hj' & Hall). exists j'. split; [done|]. split; [lia|].
  intros x Hx. rewrite (drop_S (take j' es) e j) in Hx by (rewrite lookup_take_lt by lia; done).
  destruct Hx as [<-|Hx]; [done|by apply Hall].
Qed.

Lemma entries_lt_data : (length es < length (r_data r))%nat.
Proof.
  destruct (lo_data _ _ _ Hl) as [rest Hd]. rewrite Hd, frames_none, !length_app. cbn [length SST_MAGIC].
  assert (H : forall l, (length l <= length (enc_entries l))%nat); [|specialize (H es); lia].
  induction l as [|e l IH]; [done|]. unfold enc_entries. cbn [map concat length]. rewrite length_app.
  pose proof (enc_entry_length e). fold (enc_entries l). lia.
Qed.

(** The walk from the cursor answers every remaining needle. *)
Lemma multi_get_loop_spec fuel needles j c :
  StronglySorted blt needles -> Forall (fun k => no_extension k es) needles -> cursor_at j c ->
  match needles with [] => True | needle :: _ => passed j needle end ->
  (length needles + (length es - j) <= fuel)%nat ->
  multi_get_loop fuel r v needles (Some c) = Ok (map (fun k => visible es k v) needles).
Proof.
  revert needles j c. induction fuel as [|fuel IH]; intros needles j c Hs Hx Hc Hp Hf.
  { destruct needles; [done|cbn in Hf; lia]. }
  destruct needles as [|needle rest]; [done|]. cbn [length] in Hf.
  pose proof (StronglySorted_inv Hs) as [Hs' Hlt]. inversion Hx as [|? ? Hx0 Hx']; subst.
  (* what is left to do for the other needles once this one is answered *)
  assert (Hnext : forall j' c', cursor_at j' c' -> (j <= j')%nat ->
    (forall e, In e (take j' es) -> euk e <=b needle) ->
    multi_get_loop fuel r v rest (Some c') = Ok (map (fun k => visible es k v) rest)).
  { intros j' c' Hc' Hj' Hle. apply (IH rest j'); [done..| |lia]. destruct rest as [|k rest]; [done|].
    inversion Hlt; subst. by apply (passed_next j' needle). }
  cbn [multi_get_loop map]. destruct (sr_bloom r bs Hr needle) as (might & -> & Hb). cbn [mbind res_bind].
  destruct might; cbn [negb].
  2: { rewrite (Hnext j c) by (done || apply passed_le, Hp). cbn [mbind res_bind]. do 2 f_equal.
       unfold visible. rewrite (proj2 (best_none es needle v)); [done|]. intros e He Hk. by specialize (Hb e He Hk). }
  destruct c as [pos b]. pose proof Hc as (Epos & Hj & Hbl & Hst & Hn). cbn [fst snd] in *. subst pos.
  rewrite off_end by done. destruct (Nat.leb_spec (length es) j) as [Hend|Hlt'].
  { rewrite (Hnext j (off j, b)) by (done || apply passed_le, Hp). cbn [mbind res_bind]. do 2 f_equal.
    rewrite (passed_visible j needle Hp), drop_ge by done. done. }
  destruct (lookup_lt_is_Some_2 es j Hlt') as [e He]. destruct (decode_at j e He) as [-> Du Dv Dval Dn]. cbn [mbind res_bind].
  destruct (entry_at j e He) as (Hok & H8 & Hine). destruct (Z.ltb_spec (len (fst e)) 8) as [Hlen|_]; [unfold len in Hlen; lia|].
  rewrite Du. cbn [mbind res_bind]. rewrite Dn.
  destruct (head_visible j e needle He Hp Hx0) as [Hhit Hgt].
  destruct (bytes_cmp (euk e) needle) eqn:Ec.
  - apply bytes_cmp_eq in Ec. rewrite Dv. cbn [mbind res_bind].
    change (not64 (from_be (drop (length (fst e) - 8) (fst e)))) with (ever e).
    destruct (Z.leb_spec (ever e) v) as [Hle|Hgtv].
    + rewrite Dval. cbn [mbind res_bind].
      destruct (skip_versions_at (length (r_data r)) needle (S j)) as (j' & -> & Hj' & Hall);
        [lia|pose proof entries_lt_data; lia|].
      cbn [mbind res_bind]. rewrite (Hnext j').
      * cbn [mbind res_bind]. by rewrite Hhit.
      * apply sync_block_at; [lia..|]. rewrite (sr_length r bs Hr). lia.
      * lia.
      * intros x Hxin. destruct (in_take_S j j' e x He ltac:(lia) Hxin) as [H|[->|H]];
          [by eapply passed_le|rewrite Ec; apply ble_refl|rewrite (Hall x H); apply ble_refl].
    + apply (IH (needle :: rest) (S j)); [done..| | |cbn [length]; lia].
      * apply sync_block_at; [lia..|]. rewrite (sr_length r bs Hr). lia.
      * intros x Hxin. destruct (in_take_S j (S j) e x He ltac:(lia) Hxin) as [H|[->|H]]; [by apply Hp|by right|].
        rewrite drop_ge in H; [done|]. rewrite length_take. lia.
  - destruct (gallop_at j b (needle ++ repeat x00 8) (locate_block_from r needle) Hc Hlt' (fun _ => eq_refl))
      as (j' & c' & -> & Hc' & Hj' & Hbelow). cbn [mbind res_bind].
    apply (IH (needle :: rest) j'); [done..| |cbn [length]; lia].
    intros x Hxin. destruct (in_take_S j j' e x He Hj' Hxin) as [H|[->|H]]; [by apply Hp|by left|].
    left. apply below_needle; [|by apply Hbelow]. by eapply in_take, in_skipn.
  - rewrite (Hnext j (off j, b)) by (done || apply passed_le, Hp). cbn [mbind res_bind]. rewrite Hgt; [done|].
    unfold blt. by rewrite bytes_cmp_antisym, Ec.
Qed.

Lemma multi_get_loop_unseeded fuel needles :
  bs <> [] -> StronglySorted blt needles -> Forall (fun k => no_extension k es) needles ->
  (length needles + length es <= fuel)%nat ->
  multi_get_loop fuel r v needles None = Ok (map (fun k => visible es k v) needles).
Proof.
  intros Hne. revert fuel. induction needles as [|needle rest IH]; intros fuel Hs Hx Hf; [by destruct fuel|].
  destruct fuel as [|fuel]; [cbn in Hf; lia|]. destruct (sr_bloom r bs Hr needle) as (might & Em & Hb).
  destruct might.
  - assert (Hlen : (0 < length bs)%nat) by (destruct bs; [done|cbn; lia]).
    destruct (seek_from_below 0 (needle ++ repeat x00 8) Hlen) as [Hb' Hbelow].
    set (b := (0 + seek_block (drop 0 (r_index r)) (needle ++ repeat x00 8))%nat) in *.
    destruct (index_lookup b ltac:(lia)) as (ie & Ei & Eo).
    rewrite <- (multi_get_loop_spec (S fuel) (needle :: rest) (start b) (off (start b), b)); [|done..| | |].
    + cbn [multi_get_loop]. rewrite Em. cbn [mbind res_bind negb]. unfold index_at.
      change (locate_block_from r needle 0) with b. rewrite Ei. cbn [mbind res_bind]. by rewrite Eo.
    + apply cursor_block. lia.
    + intros e He. left. apply below_needle; [by eapply in_take|]. apply Hbelow. by rewrite drop_0.
    + lia.
  - cbn [multi_get_loop map]. rewrite Em. cbn [mbind res_bind negb]. apply StronglySorted_inv in Hs as [Hs _].
    inversion Hx; subst. rewrite IH by (done || (cbn [length] in Hf; lia)). cbn [mbind res_bind]. do 2 f_equal.
    unfold visible. rewrite (proj2 (best_none es needle v)); [done|]. intros e He Hk. by specialize (Hb e He Hk).
Qed.

End lookup.
End walk.

Lemma get_each_visible r bs v needles :
  sst_repr r bs -> Forall (fun k => no_extension k (concat bs)) needles ->
  get_each r v needles = Ok (map (fun k => visible (concat bs) k v) needles).
Proof.
  intros Hr. induction 1 as [|k needles Hk _ IH]; [done|]. cbn [get_each map].
  rewrite (get_versioned_visible r bs Hr) by done. cbn [mbind res_bind]. by rewrite IH.
Qed.

Lemma multi_get_visible r c bs keys v :
  sst_repr r bs -> laid_out r c bs -> StronglySorted blt keys ->
  Forall (fun k => no_extension k (concat bs)) keys ->
  multi_get_versioned r keys v = Ok (map (fun k => visible (concat bs) k v) keys).
Proof.
  intros Hr Hl Hs Hx. unfold multi_get_versioned. destruct keys as [|k keys]; [done|].
  destruct (r_index r) as [|ie ix] eqn:Ei.
  { rewrite (index_nil r bs Hr Ei). done. }
  rewrite (lo_version _ _ _ Hl). destruct c.
  - change (SST_VERSION_COMPRESSED <=? sst_version CompressNone) with false. cbv iota.
    apply multi_get_loop_unseeded; [done..| |done|done|].
    + intros ->. pose proof (sr_length r [] Hr) as Hlen. by rewrite Ei in Hlen.
    + pose proof (entries_lt_data r bs Hl). lia.
  - change (SST_VERSION_COMPRESSED <=? sst_version CompressLz4) with true. cbv iota. by apply get_each_visible.
Qed.

(** ** The batched prefix scan *)

(** [prefixes] is [sorted_prefixes[i..]], [acc] is [out[i]] so far and the
    result is [out[i..]]. *)
Fixpoint multi_scan_loop (fuel : nat) (r : SstReader) (version : Z) (prefixes : list bytes)
    (cur : option (Z * nat)) (last_user_key : option bytes) (acc : list (bytes * MemValue))
    : res (list (list (bytes * MemValue))) :=
  match prefixes, fuel with
  | [], _ => Ok []
  | _ :: _, O => Panic
  | prefix :: rest, S fuel =>
      '(pos, block_idx, last_user_key) ←
        match cur with
        | Some (pos, block_idx) => Ok (pos, block_idx, last_user_key)
        | None =>
            let block_idx := prefix_start_block_from r prefix 0 in
            ie ← index_at r block_idx; Ok (ie_offset ie, block_idx, None)
        end;
      if r_data_end r <=? pos then
        out ← multi_scan_loop fuel r version rest (Some (pos, block_idx)) None []; Ok (acc :: out)
      else
        '(key_len, value_len_raw) ← entry_header r pos;
        let key_start := pos + 8 in
        let key_end := key_start + key_len in
        let is_tomb := value_len_raw =? TOMBSTONE_MARKER in
        let val_end := key_end + (if is_tomb then 0 else value_len_raw) in
        if key_len <? 8 then
          multi_scan_loop fuel r version prefixes (Some (val_end, block_idx)) last_user_key acc
        else
          entry_user ← slice (r_data r) key_start (key_end - 8);
          if bltb entry_user prefix then
            c ← gallop r (prefix_start_block_from r prefix) val_end block_idx;
            multi_scan_loop fuel r version prefixes (Some c) last_user_key acc
          else if starts_with entry_user prefix then
            ver_bytes ← slice (r_data r) (key_end - 8) key_end;
            '(last_user_key, acc) ←
              (if not64 (from_be ver_bytes) <=? version then
                 if match last_user_key with Some prev => beqb prev entry_user | None => false end
                 then Ok (last_user_key, acc)
                 else
                   value ← (if is_tomb then Ok None
                            else v ← slice (r_data r) key_end val_end; Ok (Some v));
                   Ok (Some entry_user, acc ++ [(entry_user, value)])
               else Ok (last_user_key, acc));
            let block_idx := sync_block (length (r_index r)) r block_idx val_end in
            multi_scan_loop fuel r version prefixes (Some (val_end, block_idx)) last_user_key acc
          else
            out ← multi_scan_loop fuel r version rest (Some (pos, block_idx)) None []; Ok (acc :: out)
  end.

Fixpoint scan_each (r : SstReader) (version : Z) (prefixes : list bytes) : res (list (list (bytes * MemValue))) :=
  match prefixes with
  | [] => Ok []
  | prefix :: prefixes =>
      rows ← sst_scan_prefix r prefix version; out ← scan_each r version prefixes; Ok (rows :: out)
  end.

Definition multi_scan_prefix_versioned (r : SstReader) (sorted_prefixes : list bytes) (version : Z)
    : res (list (list (bytes * MemValue))) :=
  match sorted_prefixes, r_index r with
  | [], _ | _, [] => Ok (map (fun _ => []) sorted_prefixes)
  | _, _ =>
      if SST_VERSION_COMPRESSED <=? r_version r then scan_each r version sorted_prefixes
      else multi_scan_loop (length sorted_prefixes + length (r_data r)) r version sorted_prefixes None None []
  end.

(** Prefixes in order, none a prefix of a later one. *)
Definition disjoint_before (p p' : bytes) : Prop := p <b p' /\ ~ p `prefix_of` p'.

Section scan.
Context (r : SstReader) (bs : list (list entry)) (Hr : sst_repr r bs) (Hl : laid_out r CompressNone bs) (v : Z).

Local Notation es := (concat bs).
Local Notation rows p last j := (scan_loop (Some p) p v None 0 last (drop j es)).

(** Entries below the prefix are skipped by its scan. *)
Lemma scan_skip p last l1 l2 :
  wf_entries l1 -> (forall e, In e l1 -> euk e <b p) ->
  scan_loop (Some p) p v None 0 last (l1 ++ l2) = scan_loop (Some p) p v None 0 last l2.
Proof.
  induction 1 as [|e l1 L _ IH]; intros Hb; [done|]. cbn [app scan_loop].
  destruct (Nat.ltb_spec (length (fst e)) 8); [lia|].
  destruct (bltb_spec (euk e) p) as [_|Hx]; [|destruct Hx; apply Hb; by left].
  apply IH. intros x Hx. apply Hb. by right.
Qed.

Lemma rows_forward p last i j :
  (i <= j)%nat -> (forall e, In e (drop i (take j es)) -> euk e <b p) -> rows p last i = rows p last j.
Proof.
  intros Hij Hb. replace (drop i es) with (drop i (take j es) ++ drop j es).
  - apply scan_skip; [|done]. eapply wf_entries_incl; [|apply Hr]. intros e He. by eapply in_take, in_skipn.
  - rewrite <- (take_drop j es) at 3. rewrite drop_app.
    destruct (decide (j <= length es)%nat).
    + rewrite length_take, Nat.min_l by done. by replace (i - j)%nat with 0%nat by lia.
    + by rewrite (drop_ge es j) by lia; rewrite drop_nil.
Qed.

(** One entry of a prefix's scan. *)
Lemma rows_entry p last j e :
  es !! j = Some e ->
  rows p last j =
  if bltb (euk e) p then rows p last (S j)
  else if starts_with (euk e) p then
    if ever e <=? v then
      if match last with Some prev => beqb prev (euk e) | None => false end then rows p last (S j)
      else (euk e, snd e) :: rows p (Some (euk e)) (S j)
    else rows p last (S j)
  else [].
Proof.
  intros He. destruct (entry_at r bs Hr j e He) as (_ & H8 & _). rewrite (drop_S _ _ _ He). cbn [scan_loop].
  destruct (Nat.ltb_spec (length (fst e)) 8); [lia|]. destruct (bltb _ _); [done|].
  destruct (starts_with _ _); cbn [negb]; [|done].
  destruct (Z.ltb_spec v (ever e)), (Z.leb_spec (ever e) v); try lia; [done|].
  destruct (match last with Some _ => _ | None => _ end); [done|]. f_equal. apply scan_loop_count.
Qed.

(** The walk from the cursor scans every remaining prefix. *)
Lemma multi_scan_loop_spec fuel p rest j c last acc :
  StronglySorted disjoint_before (p :: rest) -> cursor_at bs j c ->
  (forall e, In e (take j es) -> euk e <b p \/ p `prefix_of` euk e) ->
  (S (length rest) + (length es - j) <= fuel)%nat ->
  multi_scan_loop fuel r v (p :: rest) (Some c) last acc =
  Ok ((acc ++ rows p last j) :: map (fun p' => rows p' None 0%nat) rest).
Proof.
  revert p rest j c last acc. induction fuel as [|fuel IH]; intros p rest j c last acc Hs Hc Hp Hf; [lia|].
  apply StronglySorted_inv in Hs as [Hs' Hlt].
  assert (Hbefore : forall e p', In e (take j es) -> In p' rest -> euk e <b p').
  { intros e p' He Hin. destruct (proj1 (List.Forall_forall _ _) Hlt p' Hin) as [Hpp Hnp].
    destruct (Hp e He) as [Hx|[z Hz]]; [by eapply blt_trans|]. rewrite Hz, <- (app_nil_r p'). by apply blt_not_prefix. }
  assert (Hnext : multi_scan_loop fuel r v rest (Some c) None [] = Ok (map (fun p' => rows p' None 0%nat) rest)).
  { destruct rest as [|p' rest]; [by destruct fuel|].
    rewrite (IH p' rest j c); [|done..| |cbn [length] in Hf; lia].
    - cbn [map app]. do 2 f_equal. symmetry. apply rows_forward; [lia|]. intros e He. rewrite drop_0 in He.
      apply Hbefore; [done|by left].
    - intros e He. left. apply Hbefore; [done|by left]. }
  destruct c as [pos b]. pose proof Hc as (Epos & Hj & Hbl & Hst & Hn). cbn [fst snd] in *. subst pos.
  cbn [multi_scan_loop mbind res_bind]. rewrite (off_end r bs Hr Hl) by done.
  destruct (Nat.leb_spec (length es) j) as [Hend|Hlt'].
  { rewrite Hnext. cbn [mbind res_bind]. rewrite (drop_ge es j) by done. by rewrite app_nil_r. }
  destruct (lookup_lt_is_Some_2 es j Hlt') as [e He].
  destruct (decode_at r bs Hr Hl j e He) as [-> Du Dv Dval Dn]. cbn [mbind res_bind].
  destruct (entry_at r bs Hr j e He) as (Hok & H8 & Hine).
  destruct (Z.ltb_spec (len (fst e)) 8) as [Hlen|_]; [unfold len in Hlen; lia|].
  rewrite Du. cbn [mbind res_bind]. rewrite Dn.
  assert (HS : forall x, In x (take (S j) es) -> In x (take j es) \/ x = e).
  { intros x Hx. rewrite (take_S_r _ _ _ He) in Hx. apply in_app_or in Hx as [?|[<-|[]]]; auto. }
  rewrite (rows_entry p last j e He).
  destruct (bltb_spec (euk e) p) as [Hbelow|Hge].
  - destruct (gallop_at r bs Hr Hl j b (p ++ repeat x00 8) (prefix_start_block_from r p) Hc Hlt' (fun _ => eq_refl))
      as (j' & c' & -> & Hc' & Hj' & Hskip). cbn [mbind res_bind].
    assert (Hb : forall x, In x (drop (S j) (take j' es)) -> euk x <b p).
    { intros x Hx. apply (below_needle r bs Hr); [by eapply in_take, in_skipn|by apply Hskip]. }
    rewrite (IH p rest j' c'); [|by constructor|done| |lia].
    + do 3 f_equal. symmetry. by apply rows_forward.
    + intros x Hx. destruct (in_take_S bs j j' e x He Hj' Hx) as [H|[->|H]]; [by apply Hp|by left|left; by apply Hb].
  - destruct (starts_with_spec (euk e) p) as [Hpre|Hnp].
    + rewrite Dv. cbn [mbind res_bind]. change (not64 (from_be (drop (length (fst e) - 8) (fst e)))) with (ever e).
      rewrite Dval. cbn [mbind res_bind].
      assert (Hstep : forall last' acc', multi_scan_loop fuel r v (p :: rest)
          (Some (off bs (S j), sync_block (length (r_index r)) r b (off bs (S j)))) last' acc'
          = Ok ((acc' ++ rows p last' (S j)) :: map (fun p' => rows p' None 0%nat) rest)).
      { intros last' acc'. apply IH; [by constructor| | |lia].
        - apply (sync_block_at r bs Hr Hl); [lia..|]. rewrite (sr_length r bs Hr). lia.
        - intros x Hx. destruct (HS x Hx) as [H| ->]; [by apply Hp|by right]. }
      destruct (ever e <=? v); cbn [mbind res_bind]; [|by apply Hstep].
      destruct (match last with Some prev => beqb prev (euk e) | None => false end); cbn [mbind res_bind]; [by apply Hstep|].
      by rewrite Hstep, <- app_assoc.
    + rewrite Hnext. cbn [mbind res_bind]. by rewrite app_nil_r.
Qed.

Lemma multi_scan_loop_unseeded fuel p rest :
  bs <> [] -> StronglySorted disjoint_before (p :: rest) -> (S (length rest) + length es <= fuel)%nat ->
  multi_scan_loop fuel r v (p :: rest) None None [] =
  Ok (map (fun p => scan_loop (Some p) p v None 0 None es) (p :: rest)).
Proof.
  intros Hne Hs Hf. destruct fuel as [|fuel]; [lia|].
  assert (Hlen : (0 < length bs)%nat) by (destruct bs; [done|cbn; lia]).
  destruct (seek_from_below r bs Hr 0 (p ++ repeat x00 8) Hlen) as [Hb' Hbelow].
  set (b := (0 + seek_block (drop 0 (r_index r)) (p ++ repeat x00 8))%nat) in *.
  destruct (index_lookup r bs Hl b ltac:(lia)) as (ie & Ei & Eo).
  assert (Hlow : forall e, In e (take (start bs b) es) -> euk e <b p).
  { intros e He. apply (below_needle r bs Hr); [by eapply in_take|]. apply Hbelow. by rewrite drop_0. }
  transitivity (multi_scan_loop (S fuel) r v (p :: rest) (Some (off bs (start bs b), b)) None []).
  - cbn [multi_scan_loop]. unfold index_at. change (prefix_start_block_from r p 0) with b. rewrite Ei.
    cbn [mbind res_bind]. by rewrite Eo.
  - rewrite (multi_scan_loop_spec (S fuel) p rest (start bs b) _ None []); [|done| | |lia].
    + cbn [map app]. do 2 f_equal. symmetry. apply (rows_forward p None 0); [lia|]. intros e He. rewrite drop_0 in He. auto.
    + apply (cursor_block r bs Hl). lia.
    + intros e He. left. auto.
Qed.

End scan.

(** The scan with the lower guard answers the prefix. *)
Lemma guarded_scan_answer r bs p v :
  sst_repr r bs -> prefix_free (concat bs) ->
  scan_answer (concat bs) p p v (scan_loop (Some p) p v None 0 None (concat bs)).
Proof.
  intros Hr Hf. apply scan_loop_answer; [|done|done]. split; [apply Hr..|done|].
  intros e _ Hle Hnp. apply ble_lteq in Hle as [?|Heq]; [done|]. destruct Hnp. by rewrite Heq.
Qed.

Lemma scan_each_answer r bs v prefixes :
  sst_repr r bs -> prefix_free (concat bs) ->
  exists rows, scan_each r v prefixes = Ok rows /\
    Forall2 (fun p rs => scan_answer (concat bs) p p v rs) prefixes rows.
Proof.
  intros Hr Hf. induction prefixes as [|p prefixes (rows & IH & Hrows)]; [by exists []|].
  destruct (sst_scan_prefix_answer r bs Hr p v Hf) as (rs & Es & Ha).
  exists (rs :: rows). cbn [scan_each]. rewrite Es. cbn [mbind res_bind]. rewrite IH. split; [done|by constructor].
Qed.

Lemma multi_scan_answer r c bs prefixes v :
  sst_repr r bs -> laid_out r c bs -> prefix_free (concat bs) -> StronglySorted disjoint_before prefixes ->
  exists rows, multi_scan_prefix_versioned r prefixes v = Ok rows /\
    Forall2 (fun p rs => scan_answer (concat bs) p p v rs) prefixes rows.
Proof.
  intros Hr Hl Hf Hs.
  assert (Hall : Forall2 (fun p rs => scan_answer (concat bs) p p v rs) prefixes
    (map (fun p => scan_loop (Some p) p v None 0 None (concat bs)) prefixes)).
  { clear Hs. induction prefixes; constructor; [by eapply guarded_scan_answer|done]. }
  unfold multi_scan_prefix_versioned. destruct prefixes as [|p prefixes]; [by exists []|].
  destruct (r_index r) as [|ie ix] eqn:Ei.
  { rewrite (index_nil r bs Hr Ei) in *. by eexists. }
  rewrite (lo_version _ _ _ Hl). destruct c.
  - change (SST_VERSION_COMPRESSED <=? sst_version CompressNone) with false. cbv iota.
    eexists. split; [|exact Hall]. apply multi_scan_loop_unseeded; [done..| |done|].
    + intros ->. pose proof (sr_length r [] Hr) as Hlen. by rewrite Ei in Hlen.
    + pose proof (entries_lt_data r bs Hl). cbn [length]. lia.
  - change (SST_VERSION_COMPRESSED <=? sst_version CompressLz4) with true. cbv iota. by apply scan_each_answer.
Qed.

(** Batched lookups.  For a strictly sorted batch of keys that no stored key
    properly extends, the single walk of [multi_get_versioned] over the file
    (its cursor, its gallop over blocks and its bloom skips) ends and returns
    for every key what [get_versioned] returns: the newest version at or below
    the snapshot; in both file formats. *)
Theorem multi_get_batch ext c es keys v :
  ExternLaws E -> table_ok es -> sst_fits ext c es -> StronglySorted blt keys ->
  Forall (fun k => no_extension k es) keys ->
  exists file meta r, sst_write ext c es = Ok (file, meta) /\ sst_open file = Ok r /\
    multi_get_versioned r keys v = Ok (map (fun k => visible es k v) keys) /\
    Forall (fun k => get_versioned r k v = Ok (visible es k v)) keys.
Proof.
  intros EL (Hs & Hw & Hok) Hf Hk Hx.
  destruct (sst_write_open ext c es EL Hs Hw Hok Hf)
    as (file & meta & r & bs & _ & _ & E1 & _ & E3 & Hr & Hl & <- & _).
  exists file, meta, r. split_and!; [done..|by eapply multi_get_visible|].
  apply List.Forall_forall. intros k Hin. apply get_versioned_visible; [done|].
  by apply (proj1 (List.Forall_forall _ _) Hx).
Qed.

(** Batched prefix scans.  For prefixes in order, none a prefix of another,
    the single walk of [multi_scan_prefix_versioned] ends and returns for every
    prefix exactly the rows [scan_prefix] returns; in both file formats. *)
Theorem multi_scan_batch ext c es prefixes v :
  ExternLaws E -> table_ok es -> sst_fits ext c es -> prefix_free es ->
  StronglySorted disjoint_before prefixes ->
  exists file meta r rows, sst_write ext c es = Ok (file, meta) /\ sst_open file = Ok r /\
    multi_scan_prefix_versioned r prefixes v = Ok rows /\
    Forall2 (fun p rs => sst_scan_prefix r p v = Ok rs /\ scan_answer es p p v rs) prefixes rows.
Proof.
  intros EL (Hs & Hw & Hok) Hf Hpf Hp.
  destruct (sst_write_open ext c es EL Hs Hw Hok Hf)
    as (file & meta & r & bs & _ & _ & E1 & _ & E3 & Hr & Hl & <- & _).
  destruct (multi_scan_answer r c bs prefixes v Hr Hl Hpf Hp) as (rows & Er & Hrows).
  exists file, meta, r, rows. split_and!; [done..|]. eapply Forall2_impl; [exact Hrows|]. intros p rs Ha.
  split; [|done]. destruct (sst_scan_prefix_answer r bs Hr p v Hpf) as (rs' & -> & Ha').
  by rewrite (scan_answer_unique _ _ _ _ _ _ Ha Ha').
Qed.

End batch.

(** ** Witnesses *)

Lemma sst_ex_fits_raw : @sst_fits toy_extern None CompressNone sst_ex.
Proof.
  eexists _, _, _. split; [by vm_compute|]. split; [by vm_compute|].
  split; [by vm_compute|]. split; [by vm_compute|].
  split; [unfold zb_sized, is_u32; cbn; repeat constructor; lia|done].
Qed.

Lemma multi_get_batch_witness :
  exists file meta r, @sst_write toy_extern None CompressNone sst_ex = Ok (file, meta) /\
    @sst_open toy_extern file = Ok r /\
    @multi_get_versioned toy_extern r [[x61]; [x62]; [x63]] 6 = Ok [Some (Some [x02]); Some None; None].
Proof.
  destruct (@multi_get_batch toy_extern None CompressNone sst_ex [[x61]; [x62]; [x63]] 6 toy_extern_laws
    sst_ex_ok sst_ex_fits_raw) as (file & meta & r & E1 & E2 & E3 & _).
  - repeat constructor; by vm_compute.
  - repeat (constructor; [intros e [<-|[<-|[<-|[]]]] Hp; try (by vm_compute);
      apply starts_with_true in Hp; by vm_compute in Hp|]). constructor.
  - exists file, meta, r. split; [exact E1|]. split; [exact E2|]. rewrite E3. by vm_compute.
Defined.

Lemma multi_scan_batch_witness :
  exists file meta r rows, @sst_write toy_extern None CompressNone sst_ex = Ok (file, meta) /\
    @sst_open toy_extern file = Ok r /\ @multi_scan_prefix_versioned toy_extern r [[x61]; [x62]] 6 = Ok rows /\
    Forall2 (fun p rs => @sst_scan_prefix toy_extern r p 6 = Ok rs) [[x61]; [x62]] rows.
Proof.
  destruct (@multi_scan_batch toy_extern None CompressNone sst_ex [[x61]; [x62]] 6 toy_extern_laws
    sst_ex_ok sst_ex_fits_raw sst_ex_free) as (file & meta & r & rows & E1 & E2 & E3 & H).
  - repeat constructor; try (by vm_compute); intros Hp; apply starts_with_true in Hp; by vm_compute in Hp.
  - exists file, meta, r, rows. split_and!; [exact E1|exact E2|exact E3|].
    eapply Forall2_impl; [exact H|]. by intros p rs [? _].
Defined.

(** ** A repeated key *)

Definition batch_reader (c : SstCompression) : res SstReader :=
  '(file, _) ← @sst_write toy_extern None c sst_ex; @sst_open toy_extern file.

(** With a key twice in the batch, the walk over an uncompressed file has moved
    past the key when it comes to its second occurrence and reports it absent;
    on a compressed file both occurrences are found. *)
Theorem repeated_key_reported_absent :
  (r ← batch_reader CompressNone; @multi_get_versioned toy_extern r [[x61]; [x61]] 9)
    = Ok [Some (Some [x01]); None] /\
  (r ← batch_reader CompressLz4; @multi_get_versioned toy_extern r [[x61]; [x61]] 9)
    = Ok [Some (Some [x01]); Some (Some [x01])].
Proof. by vm_compute. Qed.
