(* ===== verification/SstFilter.v ===== *)
(** * Filtered scans of an SST (crates/rhypedb-storage/src/sst.rs)

    [scan_prefix_filtered] and its compressed variant: a prefix scan that skips
    the blocks whose zone bounds rule out a predicate.  Both variants walk the
    same blocks and give the same rows, and no newest version that satisfies
    the predicate is missed. *)

From Stdlib Require Import ZArith Lia Bool List Strings.Byte Sorting.Sorted.
From stdpp Require Import base option list.
From S2P Require Import Prelude ByteMap Keys Versioned Extern Bloom Zone Sst SstReader SstRead Layers SstBatch.

Local Open Scope Z_scope.
Local Open Scope bytes_scope.

Section filter.
Context {E : Extern}.

(** The zone check of a block. *)
Definition could_match (zone_map : ZoneMap) (predicate : FieldPredicate) (block_idx : nat) : bool :=
  block_could_match zone_map block_idx (fp_field_id predicate) (fp_op predicate) (fp_target predicate).

(** The walk of an uncompressed file.  [current_block_passed] is absent where
    the code has [usize::MAX].  A walk that did not end within the fuel would
    be [Panic]; on a written file it ends. *)
Fixpoint filtered_loop (fuel : nat) (r : SstReader) (zone_map : ZoneMap) (prefix : bytes) (version : Z)
    (predicate : FieldPredicate) (pos : Z) (block_idx : nat) (current_block_passed : option nat)
    (last_user_key : option bytes) : res (list (bytes * MemValue)) :=
  match fuel with
  | O => Panic
  | S fuel =>
      if pos <? r_data_end r then
        if negb (bool_decide (current_block_passed = Some block_idx))
           && negb (could_match zone_map predicate block_idx) then
          filtered_loop fuel r zone_map prefix version predicate (block_end_offset r block_idx)
            (S block_idx) current_block_passed None
        else
          let current_block_passed := Some block_idx in
          '(key_len, value_len_raw) ← entry_header r pos;
          let key_start := pos + 8 in
          let key_end := key_start + key_len in
          let is_tomb := value_len_raw =? TOMBSTONE_MARKER in
          let val_end := key_end + (if is_tomb then 0 else value_len_raw) in
          if key_len <? 8 then
            filtered_loop fuel r zone_map prefix version predicate val_end block_idx
              current_block_passed last_user_key
          else
            user_key ← slice (r_data r) key_start (key_end - 8);
            let synced := sync_block (length (r_index r)) r block_idx val_end in
            if bltb user_key prefix then
              filtered_loop fuel r zone_map prefix version predicate val_end synced
                current_block_passed last_user_key
            else if negb (starts_with user_key prefix) then Ok []
            else
              ver_bytes ← slice (r_data r) (key_end - 8) key_end;
              if version <? not64 (from_be ver_bytes) then
                filtered_loop fuel r zone_map prefix version predicate val_end synced
                  current_block_passed last_user_key
              else if match last_user_key with Some prev => beqb prev user_key | None => false end then
                filtered_loop fuel r zone_map prefix version predicate val_end synced
                  current_block_passed last_user_key
              else
                value ← (if is_tomb then Ok None
                         else v ← slice (r_data r) key_end val_end; Ok (Some v));
                rows ← filtered_loop fuel r zone_map prefix version predicate val_end synced
                         current_block_passed (Some user_key);
                Ok ((user_key, value) :: rows)
      else Ok []
  end.

(** The inner loop over the entries of a block of a compressed file: the rows,
    [last_user_key] after them, and whether the scan is over ([break 'blocks]). *)
Fixpoint filter_entries (prefix : bytes) (version : Z) (last_user_key : option bytes) (es : list entry)
    : list (bytes * MemValue) * option bytes * bool :=
  match es with
  | [] => ([], last_user_key, false)
  | e :: es =>
      if (length (fst e) <? 8)%nat then filter_entries prefix version last_user_key es
      else if bltb (euk e) prefix then filter_entries prefix version last_user_key es
      else if negb (starts_with (euk e) prefix) then ([], last_user_key, true)
      else if version <? ever e then filter_entries prefix version last_user_key es
      else if match last_user_key with Some prev => beqb prev (euk e) | None => false end then
        filter_entries prefix version last_user_key es
      else
        let '(rows, last, stop) := filter_entries prefix version (Some (euk e)) es in
        ((euk e, snd e) :: rows, last, stop)
  end.

(** The [n] blocks from [bi] on; a pruned block is not read, an unreadable one
    ends the scan. *)
Fixpoint filtered_blocks (n : nat) (r : SstReader) (zone_map : ZoneMap) (prefix : bytes) (version : Z)
    (predicate : FieldPredicate) (bi : nat) (last_user_key : option bytes)
    : res (list (bytes * MemValue)) :=
  match n with
  | O => Ok []
  | S n =>
      if negb (could_match zone_map predicate bi) then
        filtered_blocks n r zone_map prefix version predicate (S bi) None
      else
        match sst_block r bi with
        | Panic => Panic
        | Err _ => Ok []
        | Ok blk =>
            let '(rows, last, stop) := filter_entries prefix version last_user_key (fst (decode_block blk)) in
            if stop then Ok rows
            else
              rest ← filtered_blocks n r zone_map prefix version predicate (S bi) last;
              Ok (rows ++ rest)
        end
  end.

Definition scan_prefix_filtered_v6 (r : SstReader) (prefix : bytes) (version : Z) (predicate : FieldPredicate)
    : res (list (bytes * MemValue)) :=
  match r_zone_map r with
  | None => sst_scan_prefix r prefix version
  | Some zone_map =>
      let start_block := block_idx_for_offset r (prefix_start_offset r prefix) in
      filtered_blocks (length (r_index r) - start_block) r zone_map prefix version predicate start_block None
  end.

Definition scan_prefix_filtered (r : SstReader) (prefix : bytes) (version : Z) (predicate : FieldPredicate)
    : res (list (bytes * MemValue)) :=
  if SST_VERSION_COMPRESSED <=? r_version r then scan_prefix_filtered_v6 r prefix version predicate
  else
    match r_zone_map r with
    | None => sst_scan_prefix r prefix version
    | Some zone_map =>
        let start := prefix_start_offset r prefix in
        filtered_loop (length (r_data r) + length (r_index r)) r zone_map prefix version predicate
          start (block_idx_for_offset r start) None None
    end.

(** ** Both walks give the rows of the kept blocks *)

(** The rows of the blocks [bs], numbered from [b]. *)
Fixpoint kept_rows (keep : nat -> bool) (p : bytes) (v : Z) (b : nat) (last : option bytes)
    (bs : list (list entry)) : list (bytes * MemValue) :=
  match bs with
  | [] => []
  | blk :: bs =>
      if keep b then
        let '(rows, last, stop) := filter_entries p v last blk in
        rows ++ (if stop then [] else kept_rows keep p v (S b) last bs)
      else kept_rows keep p v (S b) None bs
  end.

Section rows.
Context (r : SstReader) (bs : list (list entry)) (Hr : sst_repr r bs).
Context (zm : ZoneMap) (pred : FieldPredicate) (p : bytes) (v : Z).

Local Notation es := (concat bs).
Local Notation keep := (could_match zm pred).

Lemma filtered_blocks_rows n b last :
  (n + b = length bs)%nat ->
  filtered_blocks n r zm p v pred b last = Ok (kept_rows keep p v b last (drop b bs)).
Proof.
  revert b last. induction n as [|n IH]; intros b last Hn; cbn [filtered_blocks].
  { by rewrite drop_ge by lia. }
  destruct (lookup_lt_is_Some_2 bs b ltac:(lia)) as [blk Hb].
  rewrite (drop_S _ _ _ Hb). cbn [kept_rows]. destruct (keep b); cbn [negb]; [|by apply IH; lia].
  rewrite (sr_block r bs Hr b blk Hb), (block_ok r bs Hr b blk Hb). cbn [fst].
  destruct (filter_entries p v last blk) as [[rows last'] stop]. destruct stop; [by rewrite app_nil_r|].
  rewrite IH by lia. done.
Qed.

Section raw.
Context (Hl : laid_out r CompressNone bs).

(** The rows from entry [j] of block [b] on, the block's check being known. *)
Definition rows_from (j b : nat) (last : option bytes) : list (bytes * MemValue) :=
  if keep b then
    let '(rows, last, stop) := filter_entries p v last (drop (j - start bs b) (default [] (bs !! b))) in
    rows ++ (if stop then [] else kept_rows keep p v (S b) last (drop (S b) bs))
  else kept_rows keep p v (S b) None (drop (S b) bs).

Lemma rows_from_start b last :
  (b < length bs)%nat -> rows_from (start bs b) b last = kept_rows keep p v b last (drop b bs).
Proof.
  intros Hb. destruct (lookup_lt_is_Some_2 bs b Hb) as [blk Hblk]. unfold rows_from.
  by rewrite Hblk, (drop_S _ _ _ Hblk), Nat.sub_diag.
Qed.

(** The walk is at entry [j] of block [b]; the check of the block is done, or
    the entry is its first. *)
Definition walk_at (j b : nat) (cur : option nat) : Prop :=
  (b < length bs)%nat /\ (start bs b <= j < start bs (S b))%nat /\
  (cur = Some b /\ keep b = true \/ (forall c, cur = Some c -> (c < b)%nat) /\ j = start bs b).

Lemma entry_of_block j b :
  (b < length bs)%nat -> (start bs b <= j < start bs (S b))%nat ->
  exists blk e, bs !! b = Some blk /\ es !! j = Some e /\ blk !! (j - start bs b)%nat = Some e.
Proof.
  intros Hb Hj. destruct (lookup_lt_is_Some_2 bs b Hb) as [blk Hblk]. rewrite (start_S bs b blk Hblk) in Hj.
  destruct (lookup_lt_is_Some_2 blk (j - start bs b) ltac:(lia)) as [e He]. exists blk, e. split_and!; try done.
  rewrite (take_drop_concat bs b), (drop_S _ _ _ Hblk). cbn [concat].
  rewrite lookup_app_r by (fold (start bs b); lia). fold (start bs b).
  rewrite lookup_app_l; [done|]. by eapply lookup_lt_Some.
Qed.

(** The state after an entry of a kept block. *)
Lemma walk_next j b last' :
  (b < length bs)%nat -> (start bs b <= j < start bs (S b))%nat -> keep b = true ->
  exists b', sync_block (length (r_index r)) r b (off bs (S j)) = b' /\
    ((S j < length es)%nat /\ walk_at (S j) b' (Some b) /\ (b <= b')%nat /\
       rows_from (S j) b' last' = rows_from (S j) b last' \/
     S j = length es /\ rows_from (S j) b last' = []).
Proof.
  intros Hb Hj Hk. eexists. split; [done|]. destruct (lookup_lt_is_Some_2 bs b Hb) as [blk Hblk].
  pose proof (start_S bs b blk Hblk) as HS. pose proof (start_le bs (S b)) as Hle.
  destruct (sync_block_at r bs Hr Hl (length (r_index r)) (S j) b) as (_ & Hj' & Hb' & Hst & Hn);
    [lia|lia|lia|rewrite (sr_length r bs Hr); lia|]. cbn [fst snd] in *.
  set (b' := sync_block _ _ _ _) in *. clearbody b'.
  assert (Hmono : forall x y, (x < y)%nat -> (y <= length bs)%nat -> (start bs x < start bs y)%nat)
    by (intros; by apply (start_mono r bs Hl)).
  assert (Hbb : (b <= b')%nat).
  { destruct (decide (b <= b')%nat); [done|]. exfalso. specialize (Hn ltac:(lia)).
    destruct (decide (S b' = b)) as [Hx|]; [rewrite Hx in Hn; lia|]. specialize (Hmono (S b') b ltac:(lia) ltac:(lia)). lia. }
  destruct (decide (S j < start bs (S b))%nat) as [Hin|Hout].
  - left. assert (b' = b) as ->.
    { destruct (decide (b' = b)); [done|]. exfalso.
      destruct (decide (b' = S b)) as [->|]; [lia|]. specialize (Hmono (S b) b' ltac:(lia) ltac:(lia)). lia. }
    split_and!; [lia| |lia|done]. split_and!; [done|lia..|by left].
  - assert (HSj : S j = start bs (S b)) by lia. destruct (decide (S b < length bs)%nat) as [Hs|Hs].
    + left. assert (b' = S b) as ->.
      { destruct (decide (b' = b)) as [->|]; [specialize (Hn Hs); lia|].
        destruct (decide (b' = S b)); [done|]. specialize (Hmono (S b) b' ltac:(lia) ltac:(lia)). lia. }
      pose proof (Hmono (S b) (S (S b)) ltac:(lia) ltac:(lia)) as Hlt. pose proof (start_le bs (S (S b))).
      split_and!; [lia|split_and!; [done|lia..|right; split; [intros c [= <-]; lia|lia]]|lia|].
      rewrite HSj, rows_from_start by done. unfold rows_from. rewrite Hk, Hblk. cbn [default id from_option].
      by rewrite (drop_ge blk) by lia.
    + right. assert (S b = length bs) as Hlast by lia. rewrite HSj, Hlast, start_all. split; [done|].
      unfold rows_from. rewrite Hk, Hblk. cbn [default id from_option].
      rewrite (drop_ge bs) by lia. rewrite (drop_ge blk); [done|]. rewrite <- (start_all bs), <- Hlast. lia.
Qed.

(** One entry of a kept block. *)
Lemma rows_from_entry j b last e :
  (b < length bs)%nat -> (start bs b <= j < start bs (S b))%nat -> keep b = true -> es !! j = Some e ->
  rows_from j b last =
  if bltb (euk e) p then rows_from (S j) b last
  else if negb (starts_with (euk e) p) then []
  else if v <? ever e then rows_from (S j) b last
  else if match last with Some prev => beqb prev (euk e) | None => false end then rows_from (S j) b last
  else (euk e, snd e) :: rows_from (S j) b (Some (euk e)).
Proof.
  intros Hb Hj Hk He. destruct (entry_of_block j b Hb Hj) as (blk & e' & Hblk & He' & Hb').
  rewrite He in He'. injection He' as <-. destruct (entry_at r bs Hr j e He) as (_ & H8 & _).
  unfold rows_from. rewrite Hk, Hblk. cbn [default id from_option].
  replace (S j - start bs b)%nat with (S (j - start bs b)) by lia.
  rewrite (drop_S _ _ _ Hb'). cbn [filter_entries].
  destruct (Nat.ltb_spec (length (fst e)) 8); [lia|]. destruct (bltb _ _); [done|].
  destruct (starts_with _ _); cbn [negb]; [|done]. destruct (v <? ever e); [done|].
  destruct (match last with Some _ => _ | None => _ end); [done|].
  by destruct (filter_entries p v (Some (euk e)) _) as [[rows last'] stop].
Qed.

Lemma filtered_loop_end fuel b cur last :
  (0 < fuel)%nat -> filtered_loop fuel r zm p v pred (off bs (length es)) b cur last = Ok [].
Proof.
  intros Hf. destruct fuel as [|fuel]; [lia|]. cbn [filtered_loop].
  rewrite (off_lt_end r bs Hr Hl) by done. by rewrite Nat.ltb_irrefl.
Qed.

Lemma filtered_loop_rows fuel j b cur last :
  walk_at j b cur -> (length es - j + (length bs - b) <= fuel)%nat ->
  filtered_loop fuel r zm p v pred (off bs j) b cur last = Ok (rows_from j b last).
Proof.
  revert j b cur last. induction fuel as [|fuel IH]; intros j b cur last (Hb & Hj & Hc) Hf; [lia|].
  pose proof (start_le bs (S b)) as Hle. cbn [filtered_loop].
  rewrite (off_lt_end r bs Hr Hl) by lia. destruct (Nat.ltb_spec j (length es)); [|lia].
  destruct (keep b) eqn:Hk.
  - rewrite andb_false_r. cbv iota. destruct (entry_of_block j b Hb Hj) as (_ & e & _ & He & _).
    destruct (decode_at r bs Hr Hl j e He) as [-> Du Dv Dval Dn]. cbn [mbind res_bind].
    destruct (entry_at r bs Hr j e He) as (Hok & H8 & Hine).
    destruct (Z.ltb_spec (len (fst e)) 8) as [Hlen|_]; [unfold len in Hlen; lia|].
    rewrite Du. cbn [mbind res_bind]. rewrite Dn, Dv. cbn [mbind res_bind].
    change (not64 (from_be (drop (length (fst e) - 8) (fst e)))) with (ever e). rewrite Dval. cbn [mbind res_bind].
    rewrite (rows_from_entry j b last e) by done.
    assert (Hstep : forall last', filtered_loop fuel r zm p v pred (off bs (S j))
        (sync_block (length (r_index r)) r b (off bs (S j))) (Some b) last' = Ok (rows_from (S j) b last')).
    { intros last'. destruct (walk_next j b last' Hb Hj Hk) as (b' & -> & [(Hlt & Hw & Hbb & <-)|(Hend & ->)]).
      - apply IH; [done|lia].
      - rewrite Hend. apply filtered_loop_end. lia. }
    destruct (bltb _ _); [by apply Hstep|]. destruct (starts_with _ _); cbn [negb]; [|done].
    destruct (v <? ever e); [by apply Hstep|].
    destruct (match last with Some _ => _ | None => _ end); [by apply Hstep|].
    by rewrite Hstep.
  - destruct Hc as [[_ Hk']|[Hcur ->]]; [congruence|].
    rewrite bool_decide_eq_false_2 by (intros ->; specialize (Hcur b eq_refl); lia). cbn [negb andb].
    unfold rows_from. rewrite Hk. unfold block_end_offset. destruct (decide (S b < length bs)%nat) as [Hs|Hs].
    + destruct (index_lookup r bs Hl (S b) Hs) as (ie & -> & ->).
      rewrite IH; [by rewrite rows_from_start| |].
      * split_and!; [done|done|apply (start_mono r bs Hl); lia|]. right. split; [|done].
        intros c Hc. specialize (Hcur c Hc). lia.
      * pose proof (start_mono r bs Hl b (S b) ltac:(lia) ltac:(lia)). lia.
    + rewrite (index_end r bs Hr) by lia. rewrite (data_end_off r bs Hl), filtered_loop_end by lia.
      by rewrite drop_ge by lia.
Qed.

End raw.
(** Blocks below the prefix give no rows. *)
Lemma filter_entries_below last l :
  wf_entries l -> (forall e, In e l -> euk e <b p) -> filter_entries p v last l = ([], last, false).
Proof.
  induction 1 as [|e l L _ IH]; intros Hb; [done|]. cbn [filter_entries].
  destruct (Nat.ltb_spec (length (fst e)) 8); [lia|].
  destruct (bltb_spec (euk e) p) as [_|Hx]; [|destruct Hx; apply Hb; by left].
  apply IH. intros x Hx. apply Hb. by right.
Qed.

Lemma kept_rows_below k b bs1 bs2 :
  wf_entries (concat bs1) -> (forall e, In e (concat bs1) -> euk e <b p) ->
  kept_rows k p v b None (bs1 ++ bs2) = kept_rows k p v (b + length bs1) None bs2.
Proof.
  revert b. induction bs1 as [|blk bs1 IH]; intros b Hw Hb; [by rewrite Nat.add_0_r|].
  cbn [concat] in *. apply wf_entries_app in Hw as [Hw1 Hw2].
  cbn [app kept_rows length]. rewrite filter_entries_below; [|done|intros e He; apply Hb, in_or_app; by left].
  cbn [app]. rewrite IH, Nat.add_succ_comm; [by destruct (k b)|done|].
  intros e He. apply Hb, in_or_app. by right.
Qed.

(** Where both walks start. *)
Lemma filtered_start :
  bs <> [] -> exists s, (s < length bs)%nat /\ block_idx_for_offset r (prefix_start_offset r p) = s /\
    (exists ie, r_index r !! s = Some ie /\ prefix_start_offset r p = ie_offset ie) /\
    kept_rows keep p v 0 None bs = kept_rows keep p v s None (drop s bs).
Proof.
  intros Hne. assert (Hlen : (0 < length bs)%nat) by (destruct bs; [done|cbn; lia]).
  destruct (seek_from_below r bs Hr 0 (p ++ repeat x00 8) Hlen) as [Hs Hbelow]. rewrite drop_0 in Hs, Hbelow.
  cbn [Nat.add] in *. set (s := seek_block (r_index r) (p ++ repeat x00 8)) in *. rewrite drop_0 in Hbelow.
  destruct (lookup_lt_is_Some_2 bs s ltac:(lia)) as [blk Hblk].
  destruct (sr_key r bs Hr s blk Hblk) as (ie & e & tl & Hi & _ & _ & Hoff & _).
  assert (Hst : prefix_start_offset r p = ie_offset ie).
  { unfold prefix_start_offset. fold s. rewrite Hi. by destruct (r_index r). }
  exists s. rewrite Hst. split_and!; [lia|done|by eauto|].
  rewrite take_start in Hbelow. rewrite <- (take_drop s bs) at 1. rewrite kept_rows_below.
  - rewrite length_take. f_equal. lia.
  - eapply wf_entries_incl; [|apply Hr]. intros x Hx. rewrite (take_drop_concat bs s). apply in_or_app. by left.
  - intros x Hx. apply (below_needle r bs Hr); [|by apply Hbelow].
    rewrite (take_drop_concat bs s). apply in_or_app. by left.
Qed.

End rows.

(** Both formats: the rows of the kept blocks. *)
Lemma scan_prefix_filtered_rows r c bs zm pred p v :
  sst_repr r bs -> laid_out r c bs -> r_zone_map r = Some zm ->
  scan_prefix_filtered r p v pred = Ok (kept_rows (could_match zm pred) p v 0 None bs).
Proof.
  intros Hr Hl Hz. pose proof (sr_length r bs Hr) as Hlen.
  unfold scan_prefix_filtered, scan_prefix_filtered_v6. rewrite Hz, (lo_version _ _ _ Hl).
  destruct (decide (bs = [])) as [->|Hne].
  { destruct (r_index r) as [|ie ix] eqn:Ei; [|done]. destruct c.
    - change (SST_VERSION_COMPRESSED <=? sst_version CompressNone) with false. cbv iota.
      unfold prefix_start_offset. rewrite Ei.
      replace HEADER_POS with (off [] (length (concat (@nil (list entry))))) by done.
      apply filtered_loop_end; [done|done|]. pose proof (entries_lt_data r [] Hl). cbn in *. lia.
    - by change (SST_VERSION_COMPRESSED <=? sst_version CompressLz4) with true. }
  destruct (filtered_start r bs Hr zm pred p v Hne) as (s & Hs & Hb & (ie & Hi & Ho) & ->). destruct c.
  - change (SST_VERSION_COMPRESSED <=? sst_version CompressNone) with false. cbv iota. rewrite Hb, Ho.
    destruct (index_lookup r bs Hl s Hs) as (ie' & Hi' & Ho'). rewrite Hi in Hi'. injection Hi' as <-.
    rewrite Ho', (filtered_loop_rows r bs Hr zm pred p v Hl); [by rewrite rows_from_start|..].
    + split_and!; [done|done|apply (start_mono r bs Hl); lia|by right].
    + pose proof (entries_lt_data r bs Hl). lia.
  - change (SST_VERSION_COMPRESSED <=? sst_version CompressLz4) with true. cbv iota. rewrite Hb.
    apply (filtered_blocks_rows r bs Hr). lia.
Qed.

(** ** What the rows hold *)

Section kept.
Context (p : bytes) (v : Z) (keep : nat -> bool).

(** Every row is a version of a key under the prefix that the snapshot may see. *)
Lemma filter_entries_sound last l u m :
  In (u, m) (fst (fst (filter_entries p v last l))) ->
  exists e, In e l /\ euk e = u /\ snd e = m /\ ever e <= v /\ p `prefix_of` u.
Proof.
  revert last. induction l as [|e l IH]; intros last; cbn [filter_entries]; [done|].
  assert (Hrec : forall last, In (u, m) (fst (fst (filter_entries p v last l))) ->
    exists x, In x (e :: l) /\ euk x = u /\ snd x = m /\ ever x <= v /\ p `prefix_of` u).
  { intros last' H. destruct (IH last' H) as (x & Hx & H'). exists x. split; [by right|done]. }
  destruct (_ <? 8)%nat; [by apply Hrec|]. destruct (bltb _ _); [by apply Hrec|].
  destruct (starts_with_spec (euk e) p) as [Hp|]; cbn [negb]; [|done].
  destruct (Z.ltb_spec v (ever e)); [by apply Hrec|].
  destruct (match last with Some _ => _ | None => _ end); [by apply Hrec|].
  specialize (Hrec (Some (euk e))). destruct (filter_entries p v (Some (euk e)) l) as [[rows last'] stop].
  intros [[= <- <-]|Hin]; [|by apply Hrec]. exists e. split_and!; [by left|done..].
Qed.

Lemma kept_rows_sound b last bs u m :
  In (u, m) (kept_rows keep p v b last bs) ->
  exists e, In e (concat bs) /\ euk e = u /\ snd e = m /\ ever e <= v /\ p `prefix_of` u.
Proof.
  revert b last. induction bs as [|blk bs IH]; intros b last; cbn [kept_rows concat]; [done|].
  assert (Hrec : forall b last, In (u, m) (kept_rows keep p v b last bs) ->
    exists e, In e (blk ++ concat bs) /\ euk e = u /\ snd e = m /\ ever e <= v /\ p `prefix_of` u).
  { intros b' last' H. destruct (IH b' last' H) as (x & Hx & H'). exists x. split; [apply in_or_app; by right|done]. }
  destruct (keep b); [|by apply Hrec]. pose proof (filter_entries_sound last blk u m) as Hs.
  destruct (filter_entries p v last blk) as [[rows last'] stop]. intros [H|H]%in_app_or.
  - destruct (Hs H) as (x & Hx & H'). exists x. split; [apply in_or_app; by left|done].
  - destruct stop; [done|by apply Hrec in H].
Qed.

Context (e : entry) (He : p `prefix_of` euk e) (Hev : ever e <= v) (He8 : (8 <= length (fst e))%nat).

(** An entry that neither ends the scan before [e] nor stands for its key. *)
Definition passable (x : entry) : Prop :=
  (8 <= length (fst x))%nat /\ (euk x <b p \/ p `prefix_of` euk x) /\ (euk x = euk e -> v < ever x).

Lemma filter_entries_passable last l l' :
  Forall passable l -> last <> Some (euk e) ->
  exists rows last', last' <> Some (euk e) /\
    filter_entries p v last (l ++ l') =
      let '(rows', fin, stop) := filter_entries p v last' l' in (rows ++ rows', fin, stop).
Proof.
  intros H. revert last. induction H as [|x l (H8 & Hpx & Hvx) _ IH]; intros last Hlast.
  { exists [], last. split; [done|]. cbn [app]. by destruct (filter_entries p v last l') as [[? ?] ?]. }
  cbn [app filter_entries]. destruct (Nat.ltb_spec (length (fst x)) 8); [lia|].
  destruct (bltb_spec (euk x) p) as [|Hnb]; [by apply IH|].
  destruct (starts_with_spec (euk x) p) as [|Hns]; cbn [negb]; [|by destruct Hpx].
  destruct (Z.ltb_spec v (ever x)) as [|Hle]; [by apply IH|].
  destruct (match last with Some _ => _ | None => _ end); [by apply IH|].
  destruct (IH (Some (euk x))) as (rows & last' & Hl' & ->).
  { intros [= Heq]. specialize (Hvx Heq). lia. }
  exists ((euk x, snd x) :: rows), last'. split; [done|].
  by destruct (filter_entries p v last' l') as [[? ?] ?].
Qed.

Lemma filter_entries_hit last l1 l2 :
  Forall passable l1 -> last <> Some (euk e) ->
  In (euk e, snd e) (fst (fst (filter_entries p v last (l1 ++ e :: l2)))).
Proof.
  intros Hl Hlast. destruct (filter_entries_passable last l1 (e :: l2) Hl Hlast) as (rows & last' & Hl' & ->).
  cbn [filter_entries]. destruct (Nat.ltb_spec (length (fst e)) 8); [lia|].
  destruct (bltb_spec (euk e) p) as [Hb|_].
  { exfalso. eapply blt_irrefl, ble_blt_trans; [by apply prefix_ble|exact Hb]. }
  destruct (starts_with_spec (euk e) p); [cbn [negb]|done]. destruct (Z.ltb_spec v (ever e)); [lia|].
  destruct last' as [prev|]; [destruct (beqb_spec prev (euk e)) as [->|]; [done|]|];
    destruct (filter_entries p v (Some (euk e)) l2) as [[rows' fin] stop]; cbn;
    apply in_or_app; right; by left.
Qed.

Lemma kept_rows_hit b last bs1 l1 l2 bs2 :
  Forall passable (concat bs1 ++ l1) -> last <> Some (euk e) -> keep (b + length bs1)%nat = true ->
  In (euk e, snd e) (kept_rows keep p v b last (bs1 ++ (l1 ++ e :: l2) :: bs2)).
Proof.
  revert b last. induction bs1 as [|blk bs1 IH]; intros b last Hp Hlast Hk; cbn [app kept_rows concat length] in *.
  - rewrite Nat.add_0_r in Hk. rewrite Hk. pose proof (filter_entries_hit last l1 l2 Hp Hlast) as H.
    destruct (filter_entries p v last _) as [[rows last'] stop]. apply in_or_app. by left.
  - rewrite <- app_assoc in Hp. apply Forall_app in Hp as [Hp1 Hp2]. rewrite <- Nat.add_succ_comm in Hk.
    destruct (keep b); [|by apply IH].
    destruct (filter_entries_passable last blk [] Hp1 Hlast) as (rows & last' & Hl' & Eq).
    rewrite app_nil_r in Eq. rewrite Eq. cbn [filter_entries]. apply in_or_app. right. by apply IH.
Qed.

End kept.

(** The newest visible version of a key under the prefix, in a kept block. *)
Lemma kept_rows_complete keep p v bs i blk e :
  bsorted (concat bs) -> wf_entries (concat bs) -> prefix_free (concat bs) ->
  bs !! i = Some blk -> In e blk -> p `prefix_of` euk e ->
  best (concat bs) (euk e) v = Some (ever e, snd e) -> keep i = true ->
  In (euk e, snd e) (kept_rows keep p v 0 None bs).
Proof.
  intros Hs Hw Hf Hi He Hp Hbest Hk. apply best_some in Hbest as (_ & Hev & Hmax).
  apply in_split in He as (l1 & l2 & ->). pose proof (take_drop_middle _ _ _ Hi) as Hbs.
  assert (Hlen : length (take i bs) = i) by (rewrite length_take; apply lookup_lt_Some in Hi; lia).
  set (bs1 := take i bs) in *. set (bs2 := drop (S i) bs) in *. clearbody bs1 bs2. subst bs i.
  assert (Hc : concat (bs1 ++ (l1 ++ e :: l2) :: bs2) = (concat bs1 ++ l1) ++ e :: (l2 ++ concat bs2)).
  { rewrite concat_app. cbn [concat]. by rewrite <- !app_assoc. }
  rewrite Hc in *. pose proof (proj1 (bsorted_app _ _) Hs) as (_ & _ & Hbefore).
  assert (Hin : In e ((concat bs1 ++ l1) ++ e :: l2 ++ concat bs2)) by (apply in_or_app; right; by left).
  apply kept_rows_hit; [done|done|by eapply wf_entries_in| |done|done].
  apply List.Forall_forall. intros x Hx.
  assert (Hinx : In x ((concat bs1 ++ l1) ++ e :: l2 ++ concat bs2)) by (apply in_or_app; by left).
  pose proof (wf_entries_in _ _ Hw Hinx) as H8. split; [done|].
  destruct (ik_order x e H8 (wf_entries_in _ _ Hw Hin)) as [Hlt|[Heq Hlt]].
  - intros Hne. by apply Hf.
  - apply Hbefore; [done|by left].
  - split; [|intros Heq; rewrite Heq in Hlt; by apply blt_irrefl in Hlt].
    destruct (bltb_spec (euk x) p) as [|Hnb]; [by left|right]. destruct Hp as [z Hz].
    eapply (blt_between_prefix p [] z); [rewrite app_nil_r; by apply not_blt|rewrite <- Hz; by apply blt_ble].
  - rewrite Heq. split; [by right|]. intros _. destruct (Z.ltb_spec v (ever x)); [done|].
    specialize (Hmax x Hinx Heq ltac:(lia)). lia.
Qed.

(** ** The zone map of a written file *)

(** The values the extractor gives an entry for a field. *)
Definition zone_values (ext : option ZoneFieldExtractor) (f : Z) (e : entry) : list Z :=
  match ext, snd e with
  | Some x, Some val => map (fun y => from_be (snd y)) (filter (fun y => fst y = f) (x (fst e) val))
  | _, _ => []
  end.

(** A live row one of whose values of the field satisfies the predicate. *)
Definition satisfies (ext : option ZoneFieldExtractor) (pred : FieldPredicate) (e : entry) : Prop :=
  exists w, In w (zone_values ext (fp_field_id pred) e) /\ op_holds (fp_op pred) w (fp_target pred) = true.

Lemma zvals_app b f l l' : zvals b f (l ++ l') = zvals b f l ++ zvals b f l'.
Proof. unfold zvals. by rewrite map_app, concat_app. Qed.

Lemma zvals_recorded ext f m n es e w :
  es !! n = Some e -> In w (zone_values ext f e) ->
  In w (zvals ((m + n) / ENTRIES_PER_BLOCK) f (zone_recs ext m es)).
Proof.
  revert m n. induction es as [|e0 es IH]; intros m [|n] Hn Hw; [done..| |]; cbn [zone_recs]; rewrite zvals_app;
    apply in_or_app.
  - left. injection Hn as ->. rewrite Nat.add_0_r. unfold zone_values in Hw.
    destruct ext as [x|]; [|done]. destruct (snd e) as [val|]; [|done].
    destruct (x (fst e) val) as [|y fs] eqn:Ex; [done|]. unfold zvals. cbn [map concat fst snd].
    rewrite decide_True by done. by rewrite app_nil_r.
  - right. rewrite <- Nat.add_succ_comm. by apply IH.
Qed.

Lemma blocked_tail b bs : blocked (b :: bs) -> blocked bs.
Proof.
  intros (H1 & H2 & H3). inversion H1; inversion H2; subst. split_and!; [done..|].
  intros i b' Hi Hlt. apply (H3 (S i)); [done|cbn; lia].
Qed.

Lemma blocked_start bs i : blocked bs -> (i < length bs)%nat -> start bs i = (ENTRIES_PER_BLOCK * i)%nat.
Proof.
  revert i. induction bs as [|b bs IH]; intros i Hb Hi; [cbn in Hi; lia|]. cbn [length] in Hi.
  destruct i as [|i]; [unfold start; cbn; lia|]. unfold start. cbn [take concat]. rewrite length_app.
  fold (start bs i). rewrite (IH i) by (eauto using blocked_tail || lia).
  pose proof Hb as (_ & _ & H3). rewrite (H3 0%nat b) by (done || cbn; lia). lia.
Qed.

(** The blocks of a table are determined by its entries. *)
Lemma blocked_unique bs bs' : blocked bs -> blocked bs' -> concat bs = concat bs' -> bs = bs'.
Proof.
  revert bs'. induction bs as [|b bs IH]; intros [|b' bs'] Hb Hb' Hc; cbn [concat] in *; [done|..].
  - destruct Hb' as (H1 & _). inversion H1; subst. by destruct b'.
  - destruct Hb as (H1 & _). inversion H1; subst. by destruct b.
  - assert (Hlen : length b = length b').
    { pose proof Hb as (Hn1 & Hl1 & Hf1). pose proof Hb' as (Hn2 & Hl2 & Hf2).
      inversion Hn1; inversion Hn2; inversion Hl1; inversion Hl2; subst.
      apply (f_equal length) in Hc. rewrite !length_app in Hc.
      destruct bs as [|c bs], bs' as [|c' bs']; cbn [concat length] in *.
      - lia.
      - specialize (Hf2 0%nat b' eq_refl ltac:(cbn; lia)). rewrite length_app in Hc.
        apply Forall_cons in Hn2 as [_ [Hx _]%Forall_cons]. destruct c' as [|x c']; [done|cbn in Hc; lia].
      - specialize (Hf1 0%nat b eq_refl ltac:(cbn; lia)). rewrite length_app in Hc.
        apply Forall_cons in Hn1 as [_ [Hx _]%Forall_cons]. destruct c as [|x c]; [done|cbn in Hc; lia].
      - rewrite (Hf1 0%nat b eq_refl), (Hf2 0%nat b' eq_refl) by (cbn; lia). done. }
    apply app_inj_1 in Hc as [-> Hc]; [|done]. f_equal. apply IH; eauto using blocked_tail.
Qed.

(** A block with a satisfying row is kept. *)
Lemma satisfying_block_kept ext pred bs zb zm i blk e :
  blocked bs -> zb_record_all zb_new (zone_recs ext 0 (concat bs)) = Ok zb -> zb_sized zb ->
  zm_read_from (zb_write_to zb ++ []) = Ok (zm, []) ->
  bs !! i = Some blk -> In e blk -> satisfies ext pred e -> could_match zm pred i = true.
Proof.
  intros Hb Hz Hs Hr Hi He (w & Hw & Ho).
  destruct (zone_map_facts _ zb [] Hz Hs) as (zm' & Er & _ & Hm). rewrite Hr in Er. injection Er as <-.
  apply (Hm i (fp_field_id pred) w); [|done].
  apply list_elem_of_In, list_elem_of_lookup in He as [k Hk].
  assert (Hlt : (i < length bs)%nat) by by eapply lookup_lt_Some.
  assert (Hk16 : (k < ENTRIES_PER_BLOCK)%nat).
  { pose proof Hb as (_ & H2 & _). pose proof (Forall_lookup_1 _ _ _ _ H2 Hi) as Hl. cbn in Hl.
    apply lookup_lt_Some in Hk. lia. }
  replace i with ((0 + (ENTRIES_PER_BLOCK * i + k)) / ENTRIES_PER_BLOCK)%nat at 1.
  - eapply zvals_recorded; [|exact Hw]. rewrite <- (blocked_start bs i) by done.
    rewrite (take_drop_concat bs i), (drop_S _ _ _ Hi). cbn [concat].
    rewrite lookup_app_r by (fold (start bs i); lia). fold (start bs i).
    replace (start bs i + k - start bs i)%nat with k by lia. rewrite lookup_app_l; [done|].
    by eapply lookup_lt_Some.
  - cbn [Nat.add]. rewrite Nat.mul_comm, Nat.div_add_l by done. rewrite Nat.div_small by done. lia.
Qed.

(** Filtered scans.  Skipping blocks by their zone bounds loses no match:
    the newest visible version of every key under the prefix that satisfies the
    predicate is among the rows; every row is a stored version at or below the
    snapshot of a key under the prefix; and a compressed and an uncompressed
    file of the same entries give the same rows. *)
Theorem filtered_scan_complete ext c es p v pred :
  ExternLaws E -> table_ok es -> sst_fits ext c es -> prefix_free es ->
  exists file meta r rows, sst_write ext c es = Ok (file, meta) /\ sst_open file = Ok r /\
    scan_prefix_filtered r p v pred = Ok rows /\
    (forall e, In e es -> p `prefix_of` euk e -> best es (euk e) v = Some (ever e, snd e) ->
       satisfies ext pred e -> In (euk e, snd e) rows) /\
    (forall u m, In (u, m) rows ->
       exists e, In e es /\ euk e = u /\ snd e = m /\ ever e <= v /\ p `prefix_of` u) /\
    forall c', sst_fits ext c' es -> exists file' meta' r', sst_write ext c' es = Ok (file', meta') /\
       sst_open file' = Ok r' /\ scan_prefix_filtered r' p v pred = Ok rows.
Proof.
  intros EL (Hs & Hw & Hok) Hf Hfree.
  destruct (sst_write_open ext c es EL Hs Hw Hok Hf)
    as (file & meta & r & bs & zb & zm & E1 & _ & E3 & Hr & Hl & Hc & Hb & Hz & Hzs & Hzr & Hrz).
  exists file, meta, r. eexists. split_and!; [done|done|by eapply scan_prefix_filtered_rows|..].
  - intros e He Hp Hbest Hsat. subst es. apply in_concat in He as (blk & Hblk & He).
    apply list_elem_of_In, list_elem_of_lookup in Hblk as [i Hi].
    eapply kept_rows_complete; eauto. by eapply satisfying_block_kept.
  - intros u m Hin. apply kept_rows_sound in Hin. by rewrite Hc in Hin.
  - intros c' Hf'. destruct (sst_write_open ext c' es EL Hs Hw Hok Hf')
      as (file' & meta' & r' & bs' & zb' & zm' & F1 & _ & F3 & Hr' & Hl' & Hc' & Hb' & Hz' & _ & Hzr' & Hrz').
    exists file', meta', r'. split_and!; [done|done|].
    rewrite Hz in Hz'. injection Hz' as <-. rewrite Hzr in Hzr'. injection Hzr' as <-.
    rewrite (blocked_unique bs bs' Hb Hb') by congruence. by eapply scan_prefix_filtered_rows.
Qed.

End filter.

(** ** Witness *)

(** Field 7 is the (one-byte) value as a number. *)
Definition filter_ext : option ZoneFieldExtractor := Some (fun _ val => [(7, repeat x00 7 ++ val)]).

Definition filter_pred : FieldPredicate := {| fp_field_id := 7; fp_op := OpEq; fp_target := 1 |}.

Lemma sst_ex_fits_zone : @sst_fits toy_extern filter_ext CompressNone sst_ex.
Proof.
  eexists _, _, _. split; [by vm_compute|]. split; [by vm_compute|].
  split; [by vm_compute|]. split; [by vm_compute|].
  split; [unfold zb_sized, is_u32, is_u64; cbn; repeat constructor; cbn; lia|done].
Qed.

Lemma filtered_scan_complete_witness :
  exists file meta r rows, @sst_write toy_extern filter_ext CompressNone sst_ex = Ok (file, meta) /\
    @sst_open toy_extern file = Ok r /\
    @scan_prefix_filtered toy_extern r [x61] 9 filter_pred = Ok rows /\ In ([x61], Some [x01]) rows.
Proof.
  destruct (filtered_scan_complete (E := toy_extern) filter_ext CompressNone sst_ex [x61] 9 filter_pred
    toy_extern_laws sst_ex_ok sst_ex_fits_zone sst_ex_free)
    as (file & meta & r & rows & E1 & E2 & E3 & H & _).
  exists file, meta, r, rows. split_and!; [exact E1|exact E2|exact E3|].
  apply (H (InternalKey.new [x61] 7, Some [x01])).
  - by vm_compute; auto.
  - by exists [].
  - by vm_compute.
  - exists 1. split; [by left|done].
Defined.
