(* ===== verification/Lsm.v ===== *)
(** * The LSM tree (crates/rhypedb-storage/src/lsm.rs)

    The tree's memory (the memtables, the open SSTs, the transaction manager)
    and its data directory (the WAL file, the SST files, the temporary files of
    SSTs being written), with the operations on them: reads and scans over the
    layers, commit, flush, compaction and recovery.  An operation that may fail
    at an I/O call takes the fault as an argument.  A crash keeps the data
    directory and loses the memory; the directory states at the crash
    boundaries the code marks are listed with the operation. *)

From Stdlib Require Import ZArith Lia Bool List Strings.Byte.
From stdpp Require Import base option list gmap.
From S2P Require Import Prelude ByteMap Keys Versioned MemTable Extern Wal Mvcc Bloom Zone Sst.
From S2P Require Import SstReader SstRead Layers.

Local Open Scope Z_scope.
Local Open Scope bytes_scope.

Record LsmConfig := {
  memtable_flush_size : Z;
  compact_trigger_ssts : nat;
  zone_extractor : option ZoneFieldExtractor;
  sync_on_commit : bool;
  background_compaction : bool;
  block_compression : SstCompression;
}.

Definition DEFAULT_MEMTABLE_FLUSH_SIZE : Z := 4 * 1024 * 1024.
Definition DEFAULT_COMPACT_TRIGGER_SSTS : nat := 4.

Definition config_new : LsmConfig :=
  {| memtable_flush_size := DEFAULT_MEMTABLE_FLUSH_SIZE;
     compact_trigger_ssts := DEFAULT_COMPACT_TRIGGER_SSTS; zone_extractor := None;
     sync_on_commit := true; background_compaction := true; block_compression := CompressNone |}.

(** The data directory: [wal.log], the published SSTs by file id, and the ids
    of the [.sst.tmp] files. *)
Record Disk := {
  d_wal : option bytes;
  d_ssts : list (Z * bytes);
  d_tmps : list Z;
}.

Section lsm.
Context {E : Extern} {SM : SkipMap MemValue}.

Local Notation Mem := (MemTable SM).

(** [sst_files] is ordered from the oldest to the newest, each reader with its
    file id; [immutable_memtables] is ordered the same way. *)
Record LsmTree := {
  config : LsmConfig;
  active_memtable : Mem;
  immutable_memtables : list Mem;
  sst_files : list (Z * SstReader);
  txn_manager : TransactionManager;
  next_sst_id : Z;
  compaction_pending : bool;
}.

Definition set_memtables (t : LsmTree) (active : Mem) (immutables : list Mem) : LsmTree :=
  {| config := config t; active_memtable := active; immutable_memtables := immutables;
     sst_files := sst_files t; txn_manager := txn_manager t; next_sst_id := next_sst_id t;
     compaction_pending := compaction_pending t |}.

Definition set_ssts (t : LsmTree) (ssts : list (Z * SstReader)) : LsmTree :=
  {| config := config t; active_memtable := active_memtable t;
     immutable_memtables := immutable_memtables t; sst_files := ssts;
     txn_manager := txn_manager t; next_sst_id := next_sst_id t;
     compaction_pending := compaction_pending t |}.

Definition set_txn_manager (t : LsmTree) (m : TransactionManager) : LsmTree :=
  {| config := config t; active_memtable := active_memtable t;
     immutable_memtables := immutable_memtables t; sst_files := sst_files t; txn_manager := m;
     next_sst_id := next_sst_id t; compaction_pending := compaction_pending t |}.

(** [next_sst_id.fetch_add(1)]. *)
Definition take_sst_id (t : LsmTree) : LsmTree :=
  {| config := config t; active_memtable := active_memtable t;
     immutable_memtables := immutable_memtables t; sst_files := sst_files t;
     txn_manager := txn_manager t; next_sst_id := as_u64 (next_sst_id t + 1);
     compaction_pending := compaction_pending t |}.

Definition set_wal (d : Disk) (w : option bytes) : Disk :=
  {| d_wal := w; d_ssts := d_ssts d; d_tmps := d_tmps d |}.

(** ** Reads *)

Definition read_snapshot (t : LsmTree) : Z := current_version (txn_manager t).

Fixpoint get_memtables (mts : list Mem) (user_key : bytes) (version : Z) : option MemValue :=
  match mts with
  | [] => None
  | mt :: mts =>
      match mem_get mt user_key version with
      | Some val => Some val
      | None => get_memtables mts user_key version
      end
  end.

Fixpoint get_ssts (ssts : list (Z * SstReader)) (user_key : bytes) (version : Z) : res MemValue :=
  match ssts with
  | [] => Ok None
  | (_, sst) :: ssts =>
      val ← get_versioned sst user_key version;
      match val with
      | Some v => Ok v
      | None => get_ssts ssts user_key version
      end
  end.

(** [get_at]: the active memtable, the immutable ones newest first, the SSTs
    newest first; a tombstone ends the search with no value. *)
Definition get_at (t : LsmTree) (version : Z) (user_key : bytes) : res (option bytes) :=
  match mem_get (active_memtable t) user_key version with
  | Some val => Ok val
  | None =>
      match get_memtables (rev (immutable_memtables t)) user_key version with
      | Some val => Ok val
      | None => get_ssts (rev (sst_files t)) user_key version
      end
  end.

Definition lsm_get (t : LsmTree) (txn : Transaction) (user_key : bytes) : res (option bytes) :=
  get_at t (snapshot txn) user_key.

(** The rows of a list of SSTs, in order. *)
Fixpoint ssts_rows (scan : SstReader -> res (list (bytes * MemValue))) (ssts : list (Z * SstReader))
    : res (list (list (bytes * MemValue))) :=
  match ssts with
  | [] => Ok []
  | (_, sst) :: ssts => rows ← scan sst; rest ← ssts_rows scan ssts; Ok (rows :: rest)
  end.

(** The rows of every layer in the order the scans insert them: SSTs oldest
    first, immutable memtables oldest first, the active memtable last. *)
Definition layer_rows (t : LsmTree) (sst_scan : SstReader -> res (list (bytes * MemValue)))
    (mem_scan : Mem -> list (bytes * MemValue)) : res (list (list (bytes * MemValue))) :=
  rows ← ssts_rows sst_scan (sst_files t);
  Ok (rows ++ map mem_scan (immutable_memtables t) ++ [mem_scan (active_memtable t)]).

Definition scan_prefix_at (t : LsmTree) (version : Z) (prefix : bytes) : res (list (bytes * bytes)) :=
  rows ← layer_rows t (fun s => sst_scan_prefix s prefix version)
                      (fun m => mem_scan_prefix m prefix version);
  Ok (live_rows (merge rows)).

Definition lsm_scan_prefix (t : LsmTree) (txn : Transaction) (prefix : bytes)
    : res (list (bytes * bytes)) := scan_prefix_at t (snapshot txn) prefix.

Definition scan_prefix_at_limited (t : LsmTree) (version : Z) (prefix : bytes) (max_distinct : Z)
    : res (list (bytes * bytes)) :=
  if max_distinct =? 0 then Ok []
  else
    rows ← layer_rows t (fun s => sst_scan_prefix_max s prefix version max_distinct)
                        (fun m => mem_scan_prefix_max m prefix version max_distinct);
    Ok (take (Z.to_nat max_distinct) (live_rows (merge rows))).

Definition scan_from_at_limited (t : LsmTree) (version : Z) (prefix start_user_key : bytes)
    (max_distinct : Z) : res (list (bytes * bytes)) :=
  if max_distinct =? 0 then Ok []
  else
    rows ← layer_rows t (fun s => sst_scan_from_max s prefix start_user_key version max_distinct)
                        (fun m => mem_scan_from_max m prefix start_user_key version max_distinct);
    Ok (take (Z.to_nat max_distinct) (live_rows (merge rows))).

Record ChunkScan := {
  cs_live : list (bytes * bytes);
  cs_high_water : option bytes;
  cs_more : bool;
  cs_visited : nat;
}.

Definition scan_chunk_raw (t : LsmTree) (version : Z) (prefix start_user_key : bytes) (max_distinct : Z)
    : res ChunkScan :=
  if max_distinct =? 0 then
    Ok {| cs_live := []; cs_high_water := None; cs_more := false; cs_visited := 0 |}
  else
    rows ← layer_rows t (fun s => sst_scan_from_max s prefix start_user_key version max_distinct)
                        (fun m => mem_scan_from_max m prefix start_user_key version max_distinct);
    let source_saturated := existsb (fun r => Z.of_nat (length r) =? max_distinct) rows in
    let merged := merge rows in
    let more := source_saturated || (max_distinct <? Z.of_nat (length merged)) in
    let taken := take (Z.to_nat max_distinct) merged in
    Ok {| cs_live := live_rows taken; cs_high_water := fst <$> last taken; cs_more := more;
          cs_visited := length taken |}.

(** Only a liveness flag is kept per key. *)
Definition count_prefix_at (t : LsmTree) (version : Z) (prefix : bytes) : res Z :=
  rows ← layer_rows t (fun s => sst_scan_prefix s prefix version)
                      (fun m => mem_scan_prefix m prefix version);
  let flags := fold_left (fun m r => bm_insert_all
    (map (fun kv => (fst kv, match snd kv with Some _ => true | None => false end)) r) m) rows [] in
  Ok (Z.of_nat (length (List.filter (fun kv => snd kv) flags))).

(** ** Writes *)

Definition lsm_put (txn : Transaction) (user_key value : bytes) : res Transaction :=
  record_put txn user_key value.

Definition lsm_delete (txn : Transaction) (user_key : bytes) : res Transaction :=
  record_delete txn user_key.

Fixpoint put_batch (txn : Transaction) (entries : list (bytes * bytes)) : res Transaction :=
  match entries with
  | [] => Ok txn
  | (key, value) :: entries => txn ← record_put txn key value; put_batch txn entries
  end.

Fixpoint delete_batch (txn : Transaction) (keys : list bytes) : res Transaction :=
  match keys with
  | [] => Ok txn
  | key :: keys => txn ← record_delete txn key; delete_batch txn keys
  end.

(** The memtable inserts of a commit. *)
Definition apply_writes (mt : Mem) (commit_version : Z) (ws : list write) : Mem :=
  fold_left (fun mt w =>
    match snd w with
    | Some v => mem_put mt (fst w) commit_version v
    | None => mem_delete mt (fst w) commit_version
    end) ws mt.

(** Where the WAL of a commit can fail: the append, after [n] of its bytes
    reached the file, or the fsync.  (A batch at least as large as the log
    writer's buffer is written straight to the file, and a failure leaves just
    these bytes; the rest of a smaller batch stays in the buffer, which a crash
    loses and a later append would write.) *)
Inductive commit_fault := CommitOk | AppendFails (n : nat) | SyncFails.

(** The closure [commit] passes to the transaction manager, on the active
    memtable and the directory. *)
Definition commit_apply (cfg : LsmConfig) (fault : commit_fault) (st : Mem * Disk)
    (commit_version : Z) (ws : list write) : (Mem * Disk) * res unit :=
  let '(mt, d) := st in
  let file := default [] (d_wal d) in
  let appended := set_wal d (Some (wal_append_txn file ws commit_version)) in
  match fault with
  | AppendFails n =>
      ((mt, set_wal d (Some (file ++ take n (encode_txn ws commit_version)))), Err Io)
  | SyncFails =>
      if sync_on_commit cfg then ((mt, appended), Err Io)
      else ((apply_writes mt commit_version ws, appended), Ok tt)
  | CommitOk => ((apply_writes mt commit_version ws, appended), Ok tt)
  end.

(** ** Flush *)

(** Where a flush can fail: writing the SST (the temporary is unlinked),
    opening the published file, or recreating the WAL. *)
Inductive flush_fault := FlushOk | SstWriteFails | SstOpenFails | WalCreateFails.

Definition flush_locked (fault : flush_fault) (t : LsmTree) (d : Disk) : LsmTree * Disk * res unit :=
  let old_memtable := active_memtable t in
  let t := set_memtables t mem_new (immutable_memtables t) in
  if mem_is_empty old_memtable then (t, d, Ok tt)
  else
    let t := set_memtables t (active_memtable t) (immutable_memtables t ++ [old_memtable]) in
    let sst_id := next_sst_id t in
    let t := take_sst_id t in
    match fault, sst_write (zone_extractor (config t)) (block_compression (config t)) (mem_iter old_memtable) with
    | SstWriteFails, _ => (t, d, Err Io)
    | _, Panic => (t, d, Panic)
    | _, Err e => (t, d, Err e)
    | _, Ok (file, _) =>
        let d := {| d_wal := d_wal d; d_ssts := d_ssts d ++ [(sst_id, file)]; d_tmps := d_tmps d |} in
        match fault, sst_open file with
        | SstOpenFails, _ => (t, d, Err Io)
        | _, Panic => (t, d, Panic)
        | _, Err e => (t, d, Err e)
        | _, Ok reader =>
            let t := set_ssts t (sst_files t ++ [(sst_id, reader)]) in
            let immutables := take (length (immutable_memtables t) - 1) (immutable_memtables t) in
            let t := set_memtables t (active_memtable t) immutables in
            match fault with
            | WalCreateFails => (t, d, Err Io)
            | _ => (t, set_wal d (Some wal_create_fresh), Ok tt)
            end
        end
    end.

(** The directory at the crash boundaries of a flush that writes [file] as SST
    [sst_id]: the rotation, the partial temporary file, the published SST (its
    registration and the removal from the immutable list change no file), and
    the recreated WAL, of which any part of the header may have been written. *)
Definition flush_crash_disks (d : Disk) (sst_id : Z) (file : bytes) : list Disk :=
  let published := {| d_wal := d_wal d; d_ssts := d_ssts d ++ [(sst_id, file)]; d_tmps := d_tmps d |} in
  [d; {| d_wal := d_wal d; d_ssts := d_ssts d; d_tmps := sst_id :: d_tmps d |}; published;
   set_wal published (Some wal_create_fresh)].

(** ** Compaction *)

(** The rule that keeps an entry: every version of a user key down to and
    including the newest one at or below [min_snapshot].  [prev] is
    [prev_user_key], [floor] is [floor_kept_for_key]. *)
Fixpoint compact_keep (min_snapshot : Z) (prev : option bytes) (floor : bool) (es : list entry)
    : list entry :=
  match es with
  | [] => []
  | e :: es =>
      if (length (fst e) <? 8)%nat then compact_keep min_snapshot prev floor es
      else
        let same_key := match prev with Some p => beqb p (euk e) | None => false end in
        let floor := if same_key then floor else false in
        if floor then compact_keep min_snapshot (Some (euk e)) true es
        else e :: compact_keep min_snapshot (Some (euk e)) (ever e <=? min_snapshot) es
  end.

Fixpoint all_entries (ssts : list (Z * SstReader)) : res (list entry) :=
  match ssts with
  | [] => Ok []
  | (_, sst) :: ssts => es ← try_for_each_entry sst; rest ← all_entries ssts; Ok (es ++ rest)
  end.

Definition remove_sst_files (ids : list Z) (d : Disk) : Disk :=
  {| d_wal := d_wal d;
     d_ssts := List.filter (fun f => negb (existsb (Z.eqb (fst f)) ids)) (d_ssts d);
     d_tmps := d_tmps d |}.

(** [compact_inner].  The merge works on the SSTs present when it starts, and
    [flushed] are the SSTs registered while it ran, which it must keep. *)
Definition compact_inner (t : LsmTree) (d : Disk) (flushed : list (Z * SstReader))
    : LsmTree * Disk * res unit :=
  if (length (sst_files t) <? 2)%nat then (set_ssts t (sst_files t ++ flushed), d, Ok tt)
  else
    let min_snapshot := min_active_snapshot (txn_manager t) in
    let merged_ids := map fst (sst_files t) in
    let all := sst_files t ++ flushed in
    match all_entries (sst_files t) with
    | Err e => (set_ssts t all, d, Err e)
    | Panic => (set_ssts t all, d, Panic)
    | Ok es =>
        let es := sort_by_key es in
        let sst_id := next_sst_id t in
        let t := take_sst_id t in
        match sst_write (zone_extractor (config t)) (block_compression (config t))
                (compact_keep min_snapshot None false es) with
        | Err e => (set_ssts t all, d, Err e)
        | Panic => (set_ssts t all, d, Panic)
        | Ok (file, meta) =>
            let kept := List.filter (fun s => negb (existsb (Z.eqb (fst s)) merged_ids)) all in
            if (meta_entry_count meta =? 0)%nat then (set_ssts t kept, remove_sst_files merged_ids d, Ok tt)
            else
              let d := {| d_wal := d_wal d; d_ssts := d_ssts d ++ [(sst_id, file)]; d_tmps := d_tmps d |} in
              match sst_open file with
              | Err e => (set_ssts t all, d, Err e)
              | Panic => (set_ssts t all, d, Panic)
              | Ok reader =>
                  (set_ssts t ((sst_id, reader) :: kept), remove_sst_files merged_ids d, Ok tt)
              end
        end
    end.

(** The directory at the crash boundaries of a compaction that writes [file] as
    SST [sst_id]: the partial temporary file, the merged SST published with all
    its inputs, then the inputs unlinked one by one. *)
Definition compact_crash_disks (d : Disk) (sst_id : Z) (file : bytes) (merged_ids : list Z) : list Disk :=
  let published := {| d_wal := d_wal d; d_ssts := d_ssts d ++ [(sst_id, file)]; d_tmps := d_tmps d |} in
  [d; {| d_wal := d_wal d; d_ssts := d_ssts d; d_tmps := sst_id :: d_tmps d |}; published] ++
  map (fun j => remove_sst_files (take j merged_ids) published) (seq 1 (length merged_ids)).

Definition lsm_compact (t : LsmTree) (d : Disk) : LsmTree * Disk * res unit := compact_inner t d [].

Definition signal_compaction (t : LsmTree) : LsmTree :=
  {| config := config t; active_memtable := active_memtable t;
     immutable_memtables := immutable_memtables t; sst_files := sst_files t;
     txn_manager := txn_manager t; next_sst_id := next_sst_id t; compaction_pending := true |}.

Definition maybe_flush (t : LsmTree) (d : Disk) : LsmTree * Disk * res unit :=
  if memtable_flush_size (config t) <=? mem_approximate_size (active_memtable t) then
    let '(t, d, r) := flush_locked FlushOk t d in
    match r with
    | Ok _ =>
        if (compact_trigger_ssts (config t) <=? length (sst_files t))%nat then
          if background_compaction (config t) then (signal_compaction t, d, Ok tt)
          else lsm_compact t d
        else (t, d, Ok tt)
    | _ => (t, d, r)
    end
  else (t, d, Ok tt).

(** [commit]: the apply inside the manager's critical section, then the flush
    check.  ([check_fenced] is part of the directory guard.) *)
Definition lsm_commit (fault : commit_fault) (t : LsmTree) (d : Disk) (txn : Transaction)
    : LsmTree * Disk * Transaction * res Z :=
  let '(m, txn, (mt, d), r) :=
    tm_commit (commit_apply (config t) fault) (txn_manager t) txn (active_memtable t, d) in
  let t := set_txn_manager (set_memtables t mt (immutable_memtables t)) m in
  match r with
  | Ok version =>
      let '(t, d, f) := maybe_flush t d in
      (t, d, txn, match f with Ok _ => Ok version | Err e => Err e | Panic => Panic end)
  | _ => (t, d, txn, r)
  end.

Definition lsm_abort (t : LsmTree) (txn : Transaction) : LsmTree * Transaction :=
  let '(m, txn) := tm_abort (txn_manager t) txn in (set_txn_manager t m, txn).

Definition begin_txn (t : LsmTree) : LsmTree * Transaction :=
  let '(m, txn) := tm_begin (txn_manager t) in (set_txn_manager t m, txn).

(** ** Recovery *)

(** Every SST opened, with its id and its maximum version. *)
Fixpoint open_ssts (files : list (Z * bytes)) : res (list (Z * Z * SstReader)) :=
  match files with
  | [] => Ok []
  | (id, file) :: files =>
      reader ← sst_open file;
      mv ← max_version reader;
      rest ← open_ssts files;
      Ok ((id, mv, reader) :: rest)
  end.

(** [sort_by] on the maximum version, then the file id. *)
Definition older_sst (a b : Z * Z * SstReader) : bool :=
  (snd (fst a) <? snd (fst b)) || ((snd (fst a) =? snd (fst b)) && (fst (fst a) <=? fst (fst b))).

Fixpoint sst_insert (s : Z * Z * SstReader) (l : list (Z * Z * SstReader)) : list (Z * Z * SstReader) :=
  match l with
  | [] => [s]
  | s' :: l' => if older_sst s s' then s :: l else s' :: sst_insert s l'
  end.

Definition sort_ssts (l : list (Z * Z * SstReader)) : list (Z * Z * SstReader) :=
  fold_right sst_insert [] l.

Definition replay_record (mt : Mem) (r : WalRecord) : Mem :=
  match wr_type r with
  | Put => mem_put mt (wr_key r) (wr_version r) (wr_value r)
  | Delete => mem_delete mt (wr_key r) (wr_version r)
  | Commit => mt
  end.

Definition lsm_open (cfg : LsmConfig) (d : Disk) : res (LsmTree * Disk) :=
  (* the sweep of [*.sst.tmp] *)
  let d := {| d_wal := d_wal d; d_ssts := d_ssts d; d_tmps := [] |} in
  ssts ← open_ssts (d_ssts d);
  let max_version := fold_left (fun m s => Z.max m (snd (fst s))) ssts 0 in
  let max_sst_id := fold_left (fun m s => Z.max m (fst (fst s))) ssts 0 in
  let wal_was_legacy := wal_file_is_legacy (d_wal d) in
  '(records, valid_wal_len) ← wal_replay_with_valid_len (d_wal d);
  let max_version := fold_left (fun m r => Z.max m (wr_version r)) records max_version in
  let memtable := fold_left replay_record records mem_new in
  let wal :=
    match d_wal d with
    | Some data =>
        if negb wal_was_legacy && (valid_wal_len <? len data)
        then Some (wal_truncate_to data valid_wal_len) else Some data
    | None => None
    end in
  let d := set_wal d (Some (wal_open wal)) in
  let t := {| config := cfg; active_memtable := memtable; immutable_memtables := [];
              sst_files := map (fun s => (fst (fst s), snd s)) (sort_ssts ssts);
              txn_manager := recover_at_version max_version; next_sst_id := as_u64 (max_sst_id + 1);
              compaction_pending := false |} in
  if wal_was_legacy then
    match flush_locked FlushOk t d with
    | (t, d, Ok _) => Ok (t, d)
    | (_, _, Err e) => Err e
    | (_, _, Panic) => Panic
    end
  else Ok (t, d).

End lsm.
