(* ===== verification/LsmReads.v ===== *)
(** * Reads of the tree

    [get_at] and the scans against the union of the layers: the newest visible
    version of a key, wherever it is, and the exact window of a chunked scan. *)

From Stdlib Require Import ZArith Lia Bool List Strings.Byte.
From stdpp Require Import base option list gmap.
From S2P Require Import Prelude ByteMap Keys Versioned MemTable Extern Wal Mvcc Bloom Zone Sst.
From S2P Require Import SstReader SstRead Layers Lsm.

Local Open Scope Z_scope.
Local Open Scope bytes_scope.

Lemma Forall2_rev {A B} (P : A -> B -> Prop) l k : Forall2 P l k -> Forall2 P (rev l) (rev k).
Proof. induction 1; [constructor|]. cbn. apply Forall2_app; [done|by constructor]. Qed.

(** An SST reader over the entries [es]. *)
Definition sst_holds {E : Extern} (s : Z * SstReader) (es : list entry) : Prop :=
  exists bs, sst_repr (snd s) bs /\ concat bs = es /\ exists c, laid_out (snd s) c bs.

Section reads.
Context {E : Extern} {SM : SkipMap MemValue} {SML : SkipMapLaws SM}.

Local Notation Mem := (MemTable SM).
Local Notation Tree := (LsmTree (SM := SM)).

(** The layers of a tree whose SSTs hold [ess] (oldest first), newest first. *)
Definition layers (t : Tree) (ess : list (list entry)) : list (list entry) :=
  (mem_iter (active_memtable t) :: map mem_iter (rev (immutable_memtables t))) ++ rev ess.

(** All the entries of the tree. *)
Definition contents (t : Tree) (ess : list (list entry)) : list entry := concat (layers t ess).

Record tree_repr (t : Tree) (ess : list (list entry)) : Prop := {
  tr_ssts : Forall2 sst_holds (sst_files t) ess;
  tr_layers : layers_ok (layers t ess);
}.

Lemma layer_incl t ess l e : In l (layers t ess) -> In e l -> In e (contents t ess).
Proof. intros Hl He. apply in_concat. eauto. Qed.

Lemma mem_layer_wf t ess mt :
  tree_repr t ess -> In (mem_iter mt) (layers t ess) -> mem_wf mt.
Proof.
  intros Ht Hl. eapply wf_entries_incl; [|apply (lk_wf _ (tr_layers t ess Ht))].
  intros e He. by eapply layer_incl.
Qed.

Lemma active_layer t ess : In (mem_iter (active_memtable t)) (layers t ess).
Proof. by left. Qed.

Lemma immutable_layer t ess mt : In mt (immutable_memtables t) -> In (mem_iter mt) (layers t ess).
Proof. intros H. right. apply in_or_app. left. apply in_map. by apply in_rev in H. Qed.

Lemma sst_layer t ess es : In es ess -> In es (layers t ess).
Proof. intros H. apply in_or_app. right. by apply in_rev in H. Qed.

(** ** Point reads *)

Lemma key_separate_incl k es es' :
  (forall e, In e es' -> In e es) -> key_separate k es -> key_separate k es'.
Proof. intros Hi H e He. apply H; auto. Qed.

Lemma key_separate_no_extension k es : key_separate k es -> no_extension k es.
Proof.
  intros H e He Hp. destruct (decide (euk e = k)) as [|Hne]; [done|].
  by destruct (H e He Hne) as [_ []].
Qed.

Lemma first_hit_app ls1 ls2 k v :
  first_hit (ls1 ++ ls2) k v = match first_hit ls1 k v with Some m => Some m | None => first_hit ls2 k v end.
Proof. induction ls1 as [|l ls1 IH]; [done|]. cbn. by destruct (visible l k v). Qed.

Lemma get_memtables_hit mts k v :
  is_u64 v -> (forall mt, In mt mts -> mem_wf mt /\ key_separate k (mem_iter mt)) ->
  get_memtables mts k v = first_hit (map mem_iter mts) k v.
Proof.
  intros Hv. induction mts as [|mt mts IH]; intros H; [done|]. cbn.
  destruct (H mt (or_introl eq_refl)) as [Hw Hs]. rewrite mem_get_visible by done.
  destruct (visible _ k v); [done|]. apply IH. intros mt' Hmt'. apply H. by right.
Qed.

Lemma get_ssts_hit ssts ess k v :
  Forall2 sst_holds ssts ess -> (forall es, In es ess -> no_extension k es) ->
  get_ssts ssts k v = Ok (default None (first_hit ess k v)).
Proof.
  intros H. induction H as [|[id s] es ssts ess (bs & Hr & <- & _) _ IH]; intros Hx; [done|]. cbn [get_ssts].
  rewrite (get_versioned_visible s bs Hr) by by apply Hx; left. cbn [mbind res_bind first_hit].
  destruct (visible _ k v); [done|]. apply IH. intros es Hes. apply Hx. by right.
Qed.

Lemma get_at_visible t ess k v :
  tree_repr t ess -> key_separate k (contents t ess) -> is_u64 v ->
  get_at t v k = Ok (default None (visible (contents t ess) k v)).
Proof.
  intros Ht Hs Hv. unfold contents. rewrite <- first_hit_visible by apply Ht.
  assert (Hsep : forall l, In l (layers t ess) -> key_separate k l).
  { intros l Hl. eapply key_separate_incl; [|exact Hs]. intros e. by apply layer_incl. }
  unfold get_at, layers. rewrite <- app_comm_cons. cbn [first_hit].
  rewrite mem_get_visible; [|by eapply mem_layer_wf, active_layer|apply Hsep, active_layer|done].
  destruct (visible (mem_iter (active_memtable t)) k v); [done|].
  rewrite first_hit_app, get_memtables_hit; [|done|].
  2: { intros mt Hmt. apply in_rev in Hmt. split.
       - by eapply mem_layer_wf, immutable_layer.
       - by apply Hsep, immutable_layer. }
  destruct (first_hit (map mem_iter _) k v); [done|]. apply get_ssts_hit.
  - apply Forall2_rev, Ht.
  - intros es Hes. apply in_rev in Hes. by apply key_separate_no_extension, Hsep, sst_layer.
Qed.

(** ** Scans *)

Lemma prefix_free_layer t ess l :
  In l (layers t ess) -> prefix_free (contents t ess) -> prefix_free l.
Proof. intros Hl. apply prefix_free_incl. intros e. by apply layer_incl. Qed.

Lemma ssts_rows_answer L ssts ess sst_scan p lo v
    (f : list (bytes * MemValue) -> list (bytes * MemValue)) :
  Forall2 sst_holds ssts ess -> (forall es, In es ess -> In es L) ->
  (forall s bs, sst_repr s bs -> In (concat bs) L ->
     exists r, sst_scan s = Ok (f r) /\ scan_answer (concat bs) p lo v r) ->
  exists rs, ssts_rows sst_scan ssts = Ok (map f rs) /\
    Forall2 (fun l r => scan_answer l p lo v r) ess rs.
Proof.
  intros H Hl Hsst. induction H as [|[id s] es ssts ess (bs & Hr & <- & _) _ IH]; [by exists []|].
  destruct (Hsst s bs Hr) as (r & Er & Ha); [apply Hl; by left|].
  destruct IH as (rs & Ers & Hrs); [intros es Hes; apply Hl; by right|].
  exists (r :: rs). cbn [ssts_rows]. rewrite Er. cbn [mbind res_bind]. rewrite Ers. cbn.
  split; [done|by constructor].
Qed.

Lemma mems_rows_answer L (mts : list Mem) mem_scan p lo v
    (f : list (bytes * MemValue) -> list (bytes * MemValue)) :
  (forall mt, In mt mts -> In (mem_iter mt) L) ->
  (forall mt, In (mem_iter mt) L -> exists r, mem_scan mt = f r /\ scan_answer (mem_iter mt) p lo v r) ->
  exists rs, map mem_scan mts = map f rs /\
    Forall2 (fun l r => scan_answer l p lo v r) (map mem_iter mts) rs.
Proof.
  intros Hl Hmem. induction mts as [|mt mts IH]; [by exists []|].
  destruct (Hmem mt) as (r & Er & Ha); [apply Hl; by left|].
  destruct IH as (rs & Ers & Hrs); [intros mt' Hmt'; apply Hl; by right|].
  exists (r :: rs). cbn. rewrite Er, Ers. split; [done|by constructor].
Qed.

(** When every layer's scan answers [lo], the merge answers for the tree; [f]
    is applied to each layer's rows ([take n] for the bounded scans). *)
Lemma layer_rows_answer t ess sst_scan mem_scan p lo v
    (f : list (bytes * MemValue) -> list (bytes * MemValue)) :
  tree_repr t ess ->
  (forall s bs, sst_repr s bs -> In (concat bs) (layers t ess) ->
     exists r, sst_scan s = Ok (f r) /\ scan_answer (concat bs) p lo v r) ->
  (forall mt, In (mem_iter mt) (layers t ess) ->
     exists r, mem_scan mt = f r /\ scan_answer (mem_iter mt) p lo v r) ->
  exists rs, layer_rows t sst_scan mem_scan = Ok (map f rs) /\
    scan_answer (contents t ess) p lo v (merge rs) /\ Forall bsorted rs.
Proof.
  intros Ht Hsst Hmem.
  destruct (ssts_rows_answer (layers t ess) (sst_files t) ess sst_scan p lo v f (tr_ssts t ess Ht))
    as (rs1 & E1 & F1); [by intros; apply sst_layer|done|].
  destruct (mems_rows_answer (layers t ess) (immutable_memtables t) mem_scan p lo v f)
    as (rs2 & E2 & F2); [by intros; apply immutable_layer|done|].
  destruct (Hmem (active_memtable t) (active_layer t ess)) as (r3 & E3 & F3).
  exists (rs1 ++ rs2 ++ [r3]).
  assert (Hall : Forall2 (fun l r => scan_answer l p lo v r) (layers t ess) (rev (rs1 ++ rs2 ++ [r3]))).
  { unfold layers. rewrite !rev_app_distr. cbn [rev app]. constructor; [done|].
    rewrite map_rev. apply Forall2_app; by apply Forall2_rev. }
  split_and!.
  - unfold layer_rows. rewrite E1. cbn [mbind res_bind]. by rewrite E2, E3, !map_app.
  - rewrite <- (rev_involutive (rs1 ++ rs2 ++ [r3])). apply merge_answer; [apply Ht|done].
  - rewrite <- (rev_involutive (rs1 ++ rs2 ++ [r3])).
    apply Forall_rev. clear -Hall. induction Hall as [|l r ls rs H _ IH]; constructor; [apply H|done].
Qed.

Lemma scan_prefix_rows t ess p v :
  tree_repr t ess -> prefix_free (contents t ess) -> no_strict_prefix p (contents t ess) ->
  exists rs, layer_rows t (fun s => sst_scan_prefix s p v) (fun m => mem_scan_prefix m p v) = Ok rs /\
    scan_answer (contents t ess) p p v (merge rs) /\ Forall bsorted rs.
Proof.
  intros Ht Hf Hn.
  destruct (layer_rows_answer t ess (fun s => sst_scan_prefix s p v) (fun m => mem_scan_prefix m p v)
    p p v (fun r => r) Ht) as (rs & E1 & H1 & H2).
  - intros s bs Hr Hl. apply (sst_scan_prefix_answer s bs Hr p v). by eapply prefix_free_layer.
  - intros mt Hl. eexists. split; [done|]. apply mem_scan_prefix_answer.
    + by eapply mem_layer_wf.
    + by eapply prefix_free_layer.
    + intros e He. apply Hn. by eapply layer_incl.
  - exists rs. rewrite E1, map_id. done.
Qed.

Lemma scan_from_rows t ess p s v n :
  tree_repr t ess -> prefix_free (contents t ess) -> p `prefix_of` s -> 0 < n ->
  exists rs, layer_rows t (fun r => sst_scan_from_max r p s v n) (fun m => mem_scan_from_max m p s v n)
      = Ok (map (take (Z.to_nat n)) rs) /\
    scan_answer (contents t ess) p s v (merge rs) /\ Forall bsorted rs.
Proof.
  intros Ht Hf Hp Hn. apply layer_rows_answer; [done|..].
  - intros r bs Hr Hl. apply (sst_scan_from_max_answer r bs Hr p s v n); [|done..].
    by eapply prefix_free_layer.
  - intros mt Hl. destruct (mem_scan_from_max_answer mt p s v n) as (r & H1 & H2); [..|done|lia|eauto].
    + by eapply mem_layer_wf.
    + by eapply prefix_free_layer.
Qed.

(** The liveness flags of [count_prefix_at] are the flags of the merge. *)
Definition live_flag (kv : bytes * MemValue) : bytes * bool :=
  (fst kv, match snd kv with Some _ => true | None => false end).

Lemma bm_insert_flag k m b :
  map live_flag (bm_insert k m b) = bm_insert k (snd (live_flag (k, m))) (map live_flag b).
Proof.
  induction b as [|[k0 m0] b IH]; [done|]. cbn [bm_insert map live_flag fst snd].
  destruct (bytes_cmp _ _); cbn [map]; [done|done|]. by rewrite IH.
Qed.

Lemma flags_of_merge rs m :
  fold_left (fun b r => bm_insert_all (map live_flag r) b) rs (map live_flag m)
  = map live_flag (fold_left (fun b r => bm_insert_all r b) rs m).
Proof.
  revert m. induction rs as [|r rs IH]; intros m; [done|]. cbn [fold_left]. rewrite <- IH. f_equal.
  unfold bm_insert_all. revert m. induction r as [|[k x] r IHr]; intros m; [done|].
  cbn [map fold_left live_flag fst snd]. rewrite <- IHr. f_equal. by rewrite bm_insert_flag.
Qed.

Lemma count_live l : length (List.filter (fun kv => snd kv) (map live_flag l)) = length (live_rows l).
Proof. induction l as [|[k [x|]] l IH]; cbn; auto. Qed.

(** Point reads of the tree.  Whatever memtables and SSTs hold the
    versions of a key, [get_at] returns the value of its newest version at or
    below the snapshot over all the layers, and nothing when that version is a
    tombstone or there is none. *)
Theorem get_at_newest t ess k v :
  tree_repr t ess -> key_separate k (contents t ess) -> is_u64 v ->
  get_at t v k = Ok (default None (visible (contents t ess) k v)).
Proof. apply get_at_visible. Qed.

(** Prefix scans of the tree.  [scan_prefix_at] returns exactly the live
    keys under the prefix at the snapshot, with their newest values, in
    ascending order, merged from all the layers; [count_prefix_at] is their
    number. *)
Theorem scan_prefix_at_complete t ess p v :
  tree_repr t ess -> prefix_free (contents t ess) -> no_strict_prefix p (contents t ess) ->
  exists rows, scan_prefix_at t v p = Ok rows /\ bsorted rows /\
    (forall u x, In (u, x) rows <-> p `prefix_of` u /\ visible (contents t ess) u v = Some (Some x)) /\
    count_prefix_at t v p = Ok (Z.of_nat (length rows)).
Proof.
  intros Ht Hf Hn. destruct (scan_prefix_rows t ess p v Ht Hf Hn) as (rs & E1 & [Hs Ha] & _).
  exists (live_rows (merge rs)). unfold scan_prefix_at, count_prefix_at. rewrite E1.
  cbn [mbind res_bind]. split_and!; [done|by apply live_rows_sorted| |].
  - intros u x. rewrite live_rows_in, Ha. split; [tauto|]. intros [Hp Hv].
    split_and!; try done. by apply prefix_ble.
  - f_equal. f_equal. rewrite <- count_live. f_equal. f_equal. exact (flags_of_merge rs []).
Qed.

Lemma chunk_rows t ess p s v n :
  tree_repr t ess -> prefix_free (contents t ess) -> p `prefix_of` s -> 0 < n ->
  exists raw chunk, scan_answer (contents t ess) p s v raw /\ scan_chunk_raw t v p s n = Ok chunk /\
    cs_live chunk = live_rows (take (Z.to_nat n) raw) /\
    cs_high_water chunk = fst <$> last (take (Z.to_nat n) raw) /\
    cs_visited chunk = length (take (Z.to_nat n) raw) /\
    (cs_more chunk = false -> take (Z.to_nat n) raw = raw).
Proof.
  intros Ht Hf Hp Hn. destruct (scan_from_rows t ess p s v n Ht Hf Hp Hn) as (rs & E1 & Ha & Hs).
  exists (merge rs). unfold scan_chunk_raw. destruct (Z.eqb_spec n 0); [lia|]. rewrite E1.
  cbn [mbind res_bind]. eexists. split; [done|]. split; [done|]. cbn [cs_live cs_high_water cs_visited cs_more].
  rewrite merge_window by done. split_and!; try done.
  intros Hm. apply orb_false_iff in Hm as [Hsat Hlen].
  rewrite merge_unsaturated in Hlen.
  - destruct (Z.ltb_spec n (Z.of_nat (length (merge rs)))); [done|]. apply take_ge. lia.
  - intros r Hr Hl. assert (Hx : existsb (fun r => Z.of_nat (length r) =? n) (map (take (Z.to_nat n)) rs) = true).
    { apply existsb_exists. exists (take (Z.to_nat n) r). split; [by apply in_map|].
      apply Z.eqb_eq. lia. }
    congruence.
Qed.

(** Chunked scans visit everything.  [scan_chunk_raw] processes exactly the
    first [n] raw keys (tombstones included) at or after the start key: its
    live rows are theirs, its high-water mark is the last of them, and when it
    reports that there are no more keys, there are none past the mark.  So a
    caller that restarts after the mark until [more] is false visits every key
    of the range once. *)
Theorem scan_chunk_exact t ess p s v n :
  tree_repr t ess -> prefix_free (contents t ess) -> p `prefix_of` s -> 0 < n ->
  exists raw chunk, scan_answer (contents t ess) p s v raw /\ scan_chunk_raw t v p s n = Ok chunk /\
    cs_live chunk = live_rows (take (Z.to_nat n) raw) /\
    cs_high_water chunk = fst <$> last (take (Z.to_nat n) raw) /\
    cs_visited chunk = length (take (Z.to_nat n) raw) /\
    (cs_more chunk = false -> take (Z.to_nat n) raw = raw).
Proof.
  apply chunk_rows.
Qed.

End reads.

(** ** Witnesses *)

Definition lsm_mem (puts : list (bytes * Z * option bytes)) : MemTable (list_skipmap MemValue) :=
  fold_left (fun mt w => match snd w with
    | Some x => mem_put mt (fst (fst w)) (snd (fst w)) x
    | None => mem_delete mt (fst (fst w)) (snd (fst w)) end) puts mem_new.

(** An active memtable over an immutable one: key [a] updated, key [b] deleted. *)
Definition lsm_ex : LsmTree (SM := list_skipmap MemValue) :=
  {| config := config_new;
     active_memtable := lsm_mem [([x61], 2, Some [x0a]); ([x62], 2, None)];
     immutable_memtables := [lsm_mem [([x61], 1, Some [x01]); ([x62], 1, Some [x02]); ([x63], 1, Some [x03])]];
     sst_files := []; txn_manager := tm_new; next_sst_id := 1; compaction_pending := false |}.

Definition lsm_ex_entries : list entry :=
  [(InternalKey.new [x61] 2, Some [x0a]); (InternalKey.new [x62] 2, None);
   (InternalKey.new [x61] 1, Some [x01]); (InternalKey.new [x62] 1, Some [x02]);
   (InternalKey.new [x63] 1, Some [x03])].

Lemma functional_nodup (l : list entry) : NoDup (map fst l) -> functional l.
Proof.
  induction l as [|[k0 m0] l IH]; intros Hn k m m' H1 H2; [done|].
  inversion Hn as [|? ? Hx Hl]; subst.
  assert (Hk : forall y, In (k0, y) l -> False).
  { intros y Hy. apply Hx. apply list_elem_of_In. change k0 with (fst (k0, y)). by apply in_map. }
  destruct H1 as [[= <- <-]|H1], H2 as [[= E1]|H2]; subst; try done; try (exfalso; by eapply Hk).
  by eapply IH.
Qed.

Lemma lsm_ex_contents : contents lsm_ex [] = lsm_ex_entries.
Proof. by vm_compute. Qed.

Lemma lsm_ex_repr : tree_repr (E := toy_extern) lsm_ex [].
Proof.
  split; [constructor|]. split.
  - change (wf_entries (contents lsm_ex [])). rewrite lsm_ex_contents.
    repeat constructor; vm_compute; lia.
  - change (functional (contents lsm_ex [])). rewrite lsm_ex_contents. apply functional_nodup.
    apply (bool_decide_unpack (NoDup (map fst lsm_ex_entries))). by vm_compute.
  - constructor; [constructor; [|constructor]|constructor; [constructor|constructor]].
    intros e' He'. right. intros e He _. cut (ever e' = 1 /\ ever e = 2); [lia|]. split.
    + change (In e' [(InternalKey.new [x61] 1, Some [x01]); (InternalKey.new [x62] 1, Some [x02]);
        (InternalKey.new [x63] 1, Some [x03])]) in He'. by destruct He' as [<-|[<-|[<-|[]]]].
    + change (In e [(InternalKey.new [x61] 2, Some [x0a]); (InternalKey.new [x62] 2, None)]) in He.
      by destruct He as [<-|[<-|[]]].
Qed.

(** One-byte user keys are incomparable. *)
Lemma one_byte_keys k k' : length k = 1%nat -> length k' = 1%nat -> k <> k' -> incomparable k k'.
Proof.
  intros H1 H2 Hne. split; intros [z ->]; rewrite length_app in *; destruct z; cbn in *; try lia;
    apply Hne; by rewrite app_nil_r.
Qed.

Lemma lsm_ex_one_byte e : In e lsm_ex_entries -> length (euk e) = 1%nat.
Proof. intros He. by repeat (destruct He as [<-|He]; [by vm_compute|]). Qed.

Lemma lsm_ex_free : prefix_free (contents lsm_ex []).
Proof. rewrite lsm_ex_contents. intros e e' He He' Hne. apply one_byte_keys; auto using lsm_ex_one_byte. Qed.

Lemma get_at_newest_witness :
  get_at (E := toy_extern) lsm_ex 2 [x62] = Ok (default None (visible (contents lsm_ex []) [x62] 2)).
Proof.
  apply (get_at_newest (E := toy_extern) lsm_ex []).
  - exact lsm_ex_repr.
  - rewrite lsm_ex_contents. intros e He Hne. apply one_byte_keys; [by apply lsm_ex_one_byte|done|done].
  - unfold is_u64; lia.
Defined.

Lemma scan_prefix_at_complete_witness :
  exists rows, scan_prefix_at (E := toy_extern) lsm_ex 2 [] = Ok rows /\
    count_prefix_at (E := toy_extern) lsm_ex 2 [] = Ok (Z.of_nat (length rows)).
Proof.
  destruct (scan_prefix_at_complete (E := toy_extern) lsm_ex [] [] 2 lsm_ex_repr lsm_ex_free)
    as (rows & H1 & _ & _ & H2).
  - rewrite lsm_ex_contents. intros e He [z Hz]. apply lsm_ex_one_byte in He.
    destruct (euk e); [done|discriminate Hz].
  - exists rows. auto.
Defined.

Lemma scan_chunk_exact_witness :
  exists chunk, scan_chunk_raw (E := toy_extern) lsm_ex 2 [] [] 2 = Ok chunk /\ cs_visited chunk = 2%nat.
Proof.
  destruct (scan_chunk_exact (E := toy_extern) lsm_ex [] [] [] 2 2 lsm_ex_repr lsm_ex_free)
    as (raw & chunk & _ & H1 & _); [reflexivity|lia|].
  exists chunk. split; [done|]. vm_compute in H1. by injection H1 as <-.
Defined.

(** ** The limited scans *)

(** A layer that deletes [a] and [b] over one that holds [b]. *)
Definition lsm_deleted : LsmTree (SM := list_skipmap MemValue) :=
  {| config := config_new;
     active_memtable := lsm_mem [([x61], 2, None); ([x62], 2, None)];
     immutable_memtables := [lsm_mem [([x62], 1, Some [x02])]];
     sst_files := []; txn_manager := tm_new; next_sst_id := 1; compaction_pending := false |}.

(** The limited scans return deleted rows.  Key [b] is deleted: the point
    read and the full scan do not return it.  With a limit of one, the newer
    layer's window holds only the tombstone of [a], the older layer's window
    holds [b], and the limited scans return [b] as live. *)
Theorem limited_scan_returns_deleted_row :
  get_at (E := toy_extern) lsm_deleted 2 [x62] = Ok None /\
  scan_prefix_at (E := toy_extern) lsm_deleted 2 [] = Ok [] /\
  scan_prefix_at_limited (E := toy_extern) lsm_deleted 2 [] 1 = Ok [([x62], [x02])] /\
  scan_from_at_limited (E := toy_extern) lsm_deleted 2 [] [x61] 1 = Ok [([x62], [x02])].
Proof. by vm_compute. Qed.
