(* ===== verification/LsmCompact.v ===== *)
(** * Compaction of the tree

    The rule that drops versions ([compact_keep]) and the pass that merges the
    SSTs of a tree ([compact_inner]): every snapshot that may still be read
    sees the same value of every key before and after, with the SSTs flushed
    while the merge ran kept. *)

From Stdlib Require Import ZArith Lia Bool List Strings.Byte Sorting.Sorted.
From stdpp Require Import base option list gmap.
From S2P Require Import Prelude ByteMap Keys Versioned MemTable Extern Wal Mvcc Bloom Zone Sst.
From S2P Require Import SstReader SstRead Layers Lsm LsmReads.

Local Open Scope Z_scope.
Local Open Scope bytes_scope.

(** ** The rule *)

(** Within a user key, internal-key order is newest first; no assumption on
    the other keys. *)
Lemma same_key_order e e' :
  (8 <= length (fst e))%nat -> (8 <= length (fst e'))%nat -> euk e = euk e' ->
  fst e <=b fst e' -> ever e' <= ever e.
Proof.
  intros L1 L2 Hk Hle. apply ble_lteq in Hle as [Hlt|Heq].
  - apply ik_order in Hlt; [|done..]. destruct Hlt as [Hlt|[_ ?]]; [|lia].
    rewrite Hk in Hlt. by apply blt_irrefl in Hlt.
  - unfold ever. rewrite Heq. lia.
Qed.

(** Two entries of a functional list with the same user key and version are
    the same entry. *)
Lemma same_version_entry es e e' :
  wf_entries es -> functional es -> In e es -> In e' es -> euk e = euk e' -> ever e = ever e' -> e = e'.
Proof.
  intros Hw Hf H1 H2 Hk Hv.
  pose proof (entry_eta e (wf_entries_in _ _ Hw H1)) as E1.
  pose proof (entry_eta e' (wf_entries_in _ _ Hw H2)) as E2.
  rewrite Hk, Hv in E1. assert (snd e = snd e') as Es.
  { rewrite E1 in H1. rewrite E2 in H2. by eapply Hf. }
  etransitivity; [exact E1|]. rewrite Es. by symmetry.
Qed.

Lemma ksorted_cons_inv (e : entry) es : ksorted (e :: es) -> ksorted es /\ forall e', In e' es -> fst e <=b fst e'.
Proof.
  intros H. apply StronglySorted_inv in H as [H1 H2]. split; [done|].
  by apply (proj1 (List.Forall_forall _ _)) .
Qed.

Lemma compact_keep_incl ms prev fl es e : In e (compact_keep ms prev fl es) -> In e es.
Proof.
  revert prev fl. induction es as [|a es IH]; intros prev fl; [done|]. cbn [compact_keep].
  destruct (_ <? _)%nat; [intros H; right; eauto|].
  destruct (if (match prev with Some p => beqb p (euk a) | None => false end) then fl else false).
  - intros H. right. eauto.
  - intros [<-|H]; [by left|]. right. eauto.
Qed.

(** One step on a well-formed entry: it is kept unless the floor of its key
    was already kept, just before it. *)
Lemma compact_keep_cons ms prev fl e es :
  (8 <= length (fst e))%nat ->
  (compact_keep ms prev fl (e :: es) = compact_keep ms (Some (euk e)) true es /\ fl = true /\ prev = Some (euk e))
  \/ (compact_keep ms prev fl (e :: es) = e :: compact_keep ms (Some (euk e)) (ever e <=? ms) es /\
      ~ (fl = true /\ prev = Some (euk e))).
Proof.
  intros Hl. cbn [compact_keep]. destruct (Nat.ltb_spec (length (fst e)) 8); [lia|].
  destruct prev as [p|]; [|right; split; [done|by intros [_ [=]]]].
  destruct (beqb_spec p (euk e)) as [->|]; [|right; split; [done|by intros [_ [=]]]].
  destruct fl; [by left|right; split; [done|by intros [[=] _]]].
Qed.

(** What is dropped is covered: a kept entry of the same key, at least as new
    and at or below [min_snapshot]. *)
Lemma compact_keep_covers ms prev fl es e :
  ksorted es -> wf_entries es -> In e es ->
  In e (compact_keep ms prev fl es) \/
  (exists e', In e' (compact_keep ms prev fl es) /\ euk e' = euk e /\ ever e <= ever e' <= ms) \/
  (fl = true /\ prev = Some (euk e)).
Proof.
  revert prev fl. induction es as [|a es IH]; intros prev fl Hs Hw He; [done|].
  apply ksorted_cons_inv in Hs as [Hs Hle].
  assert (Hla : (8 <= length (fst a))%nat) by (eapply wf_entries_in; [exact Hw|by left]).
  assert (Hw' : wf_entries es) by (by inversion Hw).
  destruct (compact_keep_cons ms prev fl a es Hla) as [(-> & -> & ->)|[-> _]].
  - destruct He as [<-|He]; [by right; right|].
    destruct (IH (Some (euk a)) true Hs Hw' He) as [?|[?|[_ [= E]]]]; [by left|by right; left|].
    right. right. split; [done|]. by rewrite E.
  - destruct He as [<-|He]; [left; by left|].
    destruct (IH (Some (euk a)) (ever a <=? ms) Hs Hw' He) as [?|[(e' & H1 & H2)|[Hf [= E]]]].
    + left. by right.
    + right. left. exists e'. split; [by right|done].
    + right. left. exists a. split; [by left|]. split; [done|]. apply Z.leb_le in Hf.
      split; [|done]. apply same_key_order; [done|by eapply wf_entries_in|done|auto].
Qed.

(** The snapshots a compaction preserves: those at or above [min_snapshot], and
    those at or above every version. *)
Definition preserved (ms v : Z) (es : list entry) : Prop :=
  forall e, In e es -> ever e <= ms -> ever e <= v.

Lemma best_sandwich es keep k v :
  wf_entries es -> functional es -> (forall e, In e keep -> In e es) ->
  (forall e, In e es -> euk e = k -> ever e <= v ->
     exists e', In e' keep /\ euk e' = k /\ ever e <= ever e' <= v) ->
  best keep k v = best es k v.
Proof.
  intros Hw Hf Hi Hc.
  assert (Hwk : wf_entries keep) by by apply (wf_entries_incl es).
  assert (Hfk : functional keep) by (intros ? ? ? H1 H2; by eapply Hf; eauto).
  destruct (best es k v) as [[w m]|] eqn:Eb.
  - apply best_spec in Eb as (Hin & Hu & Hv & Hmax); [|done..].
    apply best_spec; [done..|]. split_and!; try done; [|intros; by apply Hmax; auto].
    destruct (Hc (InternalKey.new k w, m)) as (e' & H1 & H2 & H3).
    { done. } { apply euk_new. } { by rewrite ever_new. }
    rewrite ever_new in H3 by done.
    pose proof (Hmax e' (Hi e' H1) H2 ltac:(lia)).
    assert (e' = (InternalKey.new k w, m)) as <-; [|done].
    apply (same_version_entry es); auto; [by rewrite euk_new|rewrite ever_new by done; lia].
  - apply best_none. intros e He Hk. eapply best_none; [exact Eb|auto|done].
Qed.

Lemma compact_keep_best ms es k v :
  ksorted es -> wf_entries es -> functional es -> preserved ms v es ->
  best (compact_keep ms None false es) k v = best es k v.
Proof.
  intros Hs Hw Hf Hp. apply best_sandwich; [done..|intros e; apply compact_keep_incl|].
  intros e He Hk Hv. destruct (compact_keep_covers ms None false es e Hs Hw He) as [H|[(e' & H & Hk' & Hle)|[H _]]];
    [exists e; split_and!; try done; lia| |done].
  exists e'. split_and!; [done|congruence|lia|].
  apply Hp; [by eapply compact_keep_incl|lia].
Qed.

(** Versions above [min_snapshot] are stored once. *)
Definition single_above (ms : Z) (es : list entry) : Prop :=
  NoDup (map fst (List.filter (fun e => ms <? ever e) es)).

Lemma single_above_cons ms e es :
  single_above ms (e :: es) -> single_above ms es /\ (ms < ever e -> forall e', In e' es -> fst e' <> fst e).
Proof.
  unfold single_above. cbn [List.filter]. destruct (Z.ltb_spec ms (ever e)) as [Hlt|Hge].
  - cbn [map]. intros H. inversion H as [|? ? Hx Hn]; subst. split; [done|]. intros _ e' He' Heq.
    apply Hx. apply list_elem_of_In. rewrite <- Heq. apply in_map. apply filter_In. split; [done|].
    apply Z.ltb_lt. unfold ever in *. by rewrite Heq.
  - intros H. split; [done|lia].
Qed.

(** The kept entries are in strict order. *)
Lemma compact_keep_above ms prev fl es e e' :
  ksorted (e :: es) -> wf_entries (e :: es) -> single_above ms (e :: es) ->
  prev = Some (euk e) -> fl = (ever e <=? ms) ->
  In e' (compact_keep ms prev fl es) -> fst e <b fst e'.
Proof.
  intros Hs Hw Hn. revert prev fl. apply ksorted_cons_inv in Hs as [Hs Hle].
  intros prev fl -> -> Hin.
  pose proof (Hle e' (compact_keep_incl _ _ _ _ _ Hin)) as Hc. apply ble_lteq in Hc as [|Heq]; [done|].
  exfalso. destruct (Z.leb_spec (ever e) ms) as [Hv|Hv].
  2: { apply single_above_cons in Hn as [_ Hn]. eapply Hn; [lia|by eapply compact_keep_incl|by symmetry]. }
  assert (Hw' : wf_entries es) by (by inversion Hw).
  clear Hn Hw. revert Hin. revert Hs Hle Hw'. induction es as [|a es IH]; intros Hs Hle Hw' Hin; [done|].
  apply ksorted_cons_inv in Hs as [Hs Hle'].
  assert (Hla : (8 <= length (fst a))%nat) by (eapply wf_entries_in; [exact Hw'|by left]).
  assert (Hea : fst a = fst e).
  { apply ble_antisym; [|apply Hle; by left]. rewrite Heq.
    destruct (compact_keep_incl _ _ _ _ _ Hin) as [->|H]; [apply ble_refl|by apply Hle']. }
  assert (Hua : euk a = euk e) by (unfold euk; by rewrite Hea).
  destruct (compact_keep_cons ms (Some (euk e)) true a es Hla) as [(Ek & _ & _)|[_ Hx]].
  - rewrite Ek, Hua in Hin. apply IH; [done| |by inversion Hw'|done]. intros b Hb. apply Hle. by right.
  - apply Hx. by rewrite Hua.
Qed.

Lemma compact_keep_sorted ms prev fl es :
  ksorted es -> wf_entries es -> single_above ms es -> bsorted (compact_keep ms prev fl es).
Proof.
  revert prev fl. induction es as [|e es IH]; intros prev fl Hs Hw Hn; [constructor|].
  pose proof (ksorted_cons_inv _ _ Hs) as [Hs' _].
  pose proof (single_above_cons _ _ _ Hn) as [Hn' _].
  assert (Hw' : wf_entries es) by (by inversion Hw).
  destruct (compact_keep_cons ms prev fl e es) as [(-> & _)|[-> _]].
  - eapply wf_entries_in; [exact Hw|by left].
  - by apply IH.
  - constructor; [by apply IH|]. apply List.Forall_forall. intros e' He'.
    by eapply compact_keep_above.
Qed.

(** In internal-key order with prefix-free user keys, an entry of another key
    separates the keys before it from those after it. *)
Lemma ksorted_next e a es e' :
  ksorted (e :: a :: es) -> wf_entries (e :: a :: es) -> prefix_free (e :: a :: es) ->
  euk a <> euk e -> In e' es -> euk e' <> euk e.
Proof.
  intros Hs Hw Hf Hne He' Heq. apply ksorted_cons_inv in Hs as [Hs H1].
  apply ksorted_cons_inv in Hs as [_ H2].
  assert (Hlen : forall x, In x (e :: a :: es) -> (8 <= length (fst x))%nat) by (intros x; by apply wf_entries_in).
  assert (Hord : forall x y, In x (e :: a :: es) -> In y (e :: a :: es) -> euk x <> euk y ->
            fst x <=b fst y -> euk x <b euk y).
  { intros x y Hx Hy Hxy Hle. apply ble_lteq in Hle as [Hlt|E2]; [|unfold euk in Hxy; by rewrite E2 in Hxy].
    apply ik_order in Hlt as [?|[? _]]; auto; done. }
  assert (L1 : euk e <b euk a).
  { apply Hord; [by left|right; by left|by apply not_eq_sym|apply H1; by left]. }
  assert (L2 : euk a <b euk e').
  { apply Hord; [right; by left|do 2 right; done|congruence|by apply H2]. }
  rewrite Heq in L2. exact (blt_irrefl _ (blt_trans _ _ _ L1 L2)).
Qed.

Lemma ksorted_drop_second (e a : entry) es : ksorted (e :: a :: es) -> ksorted (e :: es).
Proof.
  intros H. apply ksorted_cons_inv in H as [H H1]. apply ksorted_cons_inv in H as [H _].
  constructor; [done|]. apply List.Forall_forall. intros x Hx. apply H1. by right.
Qed.

(** Once the floor of a key is kept, nothing else of the key is. *)
Lemma compact_keep_floor ms e es e' :
  ksorted (e :: es) -> wf_entries (e :: es) -> prefix_free (e :: es) ->
  In e' (compact_keep ms (Some (euk e)) true es) -> euk e' <> euk e.
Proof.
  induction es as [|a es IH]; intros Hs Hw Hf Hin; [done|].
  assert (Hla : (8 <= length (fst a))%nat) by (eapply wf_entries_in; [exact Hw|right; by left]).
  destruct (compact_keep_cons ms (Some (euk e)) true a es Hla) as [(Ek & _ & Hk)|[Ek Hx]]; rewrite Ek in Hin.
  - injection Hk as Hk. rewrite <- Hk in Hin. apply IH; [by eapply ksorted_drop_second| | |done].
    + inversion Hw as [|? ? H1 H2]; subst. inversion H2; subst. by constructor.
    + eapply prefix_free_incl; [|exact Hf]. intros x [<-|Hx]; [by left|by do 2 right].
  - assert (Hne : euk a <> euk e) by (intros E2; apply Hx; by rewrite E2).
    destruct Hin as [<-|Hin]; [done|]. eapply ksorted_next; [exact Hs|done..|].
    by eapply compact_keep_incl.
Qed.

Lemma compact_keep_one_floor ms prev fl es e e' :
  ksorted es -> wf_entries es -> prefix_free es -> functional es ->
  In e (compact_keep ms prev fl es) -> In e' (compact_keep ms prev fl es) ->
  euk e = euk e' -> ever e <= ms -> ever e' <= ms -> e = e'.
Proof.
  revert prev fl. induction es as [|a es IH]; intros prev fl Hs Hw Hf Hfn He He' Hk Hv Hv'; [done|].
  pose proof (ksorted_cons_inv _ _ Hs) as [Hs' _].
  assert (Hw' : wf_entries es) by (by inversion Hw).
  assert (Hf' : prefix_free es) by by eapply prefix_free_cons.
  assert (Hfn' : functional es) by (intros ? ? ? ? ?; eapply Hfn; by right).
  destruct (compact_keep_cons ms prev fl a es) as [(Ek & _)|[Ek _]];
    [eapply wf_entries_in; [exact Hw|by left]|rewrite Ek in *; by eapply IH|].
  rewrite Ek in He, He'. destruct He as [<-|He], He' as [<-|He']; [done|..].
  - exfalso. rewrite (proj2 (Z.leb_le _ _) Hv) in He'.
    by apply (compact_keep_floor ms a es e' Hs Hw Hf He').
  - exfalso. rewrite (proj2 (Z.leb_le _ _) Hv') in He.
    by apply (compact_keep_floor ms a es e Hs Hw Hf He).
  - by eapply IH.
Qed.

(** What compaction keeps.  Over the merged entries in internal-key order,
    the kept entries are among the inputs and in strict order; every version
    above the minimum active snapshot is kept; a reader at any snapshot from
    the minimum on (or at or above all versions) sees the same value of every
    key; and at most one version of a key at or below the minimum survives. *)
Theorem compact_keep_correct ms es :
  ksorted es -> wf_entries es -> functional es -> single_above ms es ->
  let kept := compact_keep ms None false es in
  bsorted kept /\ (forall e, In e kept -> In e es) /\
  (forall e, In e es -> ms < ever e -> In e kept) /\
  (forall k v, preserved ms v es -> visible kept k v = visible es k v) /\
  (prefix_free es -> forall e e', In e kept -> In e' kept -> euk e = euk e' ->
     ever e <= ms -> ever e' <= ms -> e = e').
Proof.
  intros Hs Hw Hf Hn kept. subst kept. split_and!.
  - by apply compact_keep_sorted.
  - intros e. apply compact_keep_incl.
  - intros e He Hv. destruct (compact_keep_covers ms None false es e Hs Hw He) as [H|[(e' & _ & _ & H)|[H1 H2]]];
      [done|lia|done].
  - intros k v Hp. unfold visible. by rewrite compact_keep_best.
  - intros Hp e e'. by apply compact_keep_one_floor.
Qed.

(** ** The pass over a tree *)

(** Replacing the oldest layers by some of their entries keeps the layers in
    order. *)
Lemma layers_ok_replace A B M :
  layers_ok (A ++ B) -> (forall e, In e M -> In e (concat B)) -> layers_ok (A ++ [M]).
Proof.
  intros [Hw Hf Ho] Hi.
  assert (Hin : forall e, In e (concat (A ++ [M])) -> In e (concat (A ++ B))).
  { intros e. rewrite !concat_app, !in_app_iff. cbn. rewrite app_nil_r. intuition. }
  split; [by eapply wf_entries_incl|intros k m m' H1 H2; eapply Hf; eauto|].
  clear Hin Hw Hf. unfold layers_ordered in *. induction A as [|a A IH]; cbn [app] in *.
  - constructor; [constructor|constructor].
  - inversion Ho as [|? ? Ha Ho']; subst. constructor; [|by apply IH].
    apply Forall_app in Ha as [H1 H2]. apply Forall_app. split; [done|]. constructor; [|constructor].
    intros e' He'. apply Hi in He'. apply in_concat in He' as (l & Hl & He').
    by apply (proj1 (List.Forall_forall _ _) H2 l Hl).
Qed.

Lemma layers_ok_tail A B : layers_ok (A ++ B) -> layers_ok A.
Proof.
  intros H. destruct (layers_ok_replace A B [] H) as [Hw Hf Ho]; [done|].
  rewrite concat_app in *. cbn in *. rewrite !app_nil_r in *. split; [done..|].
  clear -Ho. unfold layers_ordered in *. induction A as [|a A IH]; [constructor|].
  cbn in Ho. inversion Ho as [|? ? Ha Ho']; subst. apply Forall_app in Ha as [Ha _].
  constructor; [done|by apply IH].
Qed.

Lemma in_concat_rev (ess : list (list entry)) e : In e (concat ess) <-> In e (concat (rev ess)).
Proof.
  rewrite !in_concat. split; intros (l & Hl & He); exists l; split; try done; by apply in_rev in Hl || apply in_rev.
Qed.

Lemma best_app_cong es1 es2 es2' k v :
  best es2 k v = best es2' k v -> best (es1 ++ es2) k v = best (es1 ++ es2') k v.
Proof. intros H. by rewrite !best_app, H. Qed.

Section compact.
Context {E : Extern} {EL : ExternLaws E} {SM : SkipMap MemValue} {SML : SkipMapLaws SM}.

Local Notation Tree := (LsmTree (SM := SM)).

Lemma all_entries_concat ssts ess :
  Forall2 sst_holds ssts ess -> all_entries ssts = Ok (concat ess).
Proof.
  induction 1 as [|[id s] es ssts ess (bs & Hr & <- & _) _ IH]; [done|]. cbn [all_entries concat].
  rewrite (try_for_each_entry_all s bs Hr). cbn [mbind res_bind]. by rewrite IH.
Qed.

Lemma sst_holds_ok ssts ess : Forall2 sst_holds ssts ess -> Forall entry_ok (concat ess).
Proof.
  induction 1 as [|s es ssts ess (bs & Hr & <- & _) _ IH]; [constructor|]. cbn [concat].
  apply Forall_app. split; [apply Hr|done].
Qed.

Lemma layers_set_ssts (t : Tree) ssts ess : layers (set_ssts t ssts) ess = layers t ess.
Proof. done. Qed.

Lemma filter_out_ids (l1 l2 : list (Z * SstReader)) :
  (forall s, In s l2 -> ~ In (fst s) (map fst l1)) ->
  List.filter (fun s => negb (existsb (Z.eqb (fst s)) (map fst l1))) (l1 ++ l2) = l2.
Proof.
  intros Hd. rewrite List.filter_app.
  replace (List.filter _ l1) with ([] : list (Z * SstReader)).
  - cbn. rewrite <- (List.filter_true l2) at 2.
    apply List.filter_ext_in. intros s Hs. apply negb_true_iff. apply not_true_iff_false.
    intros Hx. apply existsb_exists in Hx as (i & Hi & Heq%Z.eqb_eq).
    apply (Hd s Hs). by rewrite Heq.
  - symmetry. assert (H : forall l, (forall s, In s l -> In s l1) ->
      List.filter (fun s : Z * SstReader => negb (existsb (Z.eqb (fst s)) (map fst l1))) l = []).
    { induction l as [|s l IH]; intros Hl; [done|]. cbn [List.filter].
      replace (existsb _ _) with true; [cbn; apply IH; intros; apply Hl; by right|].
      symmetry. apply existsb_exists. exists (fst s). split; [apply in_map, Hl; by left|apply Z.eqb_refl]. }
    by apply H.
Qed.

(** The SSTs of a tree that a compaction of its [ess] writes. *)
Definition merged_entries (t : Tree) (ess : list (list entry)) : list entry :=
  compact_keep (min_active_snapshot (txn_manager t)) None false (sort_by_key (concat ess)).

Lemma single_above_perm ms es es' :
  Permutation es es' -> single_above ms es -> single_above ms es'.
Proof.
  unfold single_above. intros Hp Hn. apply NoDup_ListNoDup; apply NoDup_ListNoDup in Hn.
  eapply Permutation_NoDup; [|exact Hn]. apply Permutation_map. clear Hn.
  induction Hp as [|x l l' _ IH|x y l|l1 l2 l3 _ IH1 _ IH2]; cbn; try done.
  - destruct (_ <? _); [by constructor|done].
  - destruct (ms <? ever x), (ms <? ever y); try done. constructor.
  - by etransitivity.
Qed.

Lemma merged_entries_facts t ess :
  wf_entries (concat ess) -> functional (concat ess) ->
  single_above (min_active_snapshot (txn_manager t)) (concat ess) ->
  bsorted (merged_entries t ess) /\ wf_entries (merged_entries t ess) /\
  (forall e, In e (merged_entries t ess) -> In e (concat ess)) /\
  (forall k v, preserved (min_active_snapshot (txn_manager t)) v (concat ess) ->
     best (merged_entries t ess) k v = best (concat ess) k v).
Proof.
  intros Hw Hf Hn. set (es := sort_by_key (concat ess)).
  assert (Hin : forall e, In e es <-> In e (concat ess)) by (intros e; apply in_sort_by_key).
  assert (Hws : wf_entries es) by (eapply wf_entries_incl; [|exact Hw]; intros e; apply Hin).
  assert (Hi : forall e, In e (merged_entries t ess) -> In e (concat ess)).
  { intros e He. by apply Hin, (compact_keep_incl _ _ _ _ _ He). }
  split_and!; [|by eapply wf_entries_incl|done|].
  - apply compact_keep_sorted; [apply ksorted_sort_by_key|done|].
    eapply single_above_perm; [apply sort_by_key_perm|done].
  - intros k v Hp. unfold merged_entries. rewrite compact_keep_best; [|apply ksorted_sort_by_key|done|..].
    + symmetry. apply best_ext; [done..|]. intros e _. symmetry. apply Hin.
    + intros a m m' H1 H2. eapply Hf; by apply Hin.
    + intros e He. apply Hp. by apply Hin.
Qed.

(** The directory with a new SST published. *)
Definition published (d : Disk) (id : Z) (file : bytes) : Disk :=
  {| d_wal := d_wal d; d_ssts := d_ssts d ++ [(id, file)]; d_tmps := d_tmps d |}.

(** What [compact_inner] does with its inputs readable and its output within
    the format's limits. *)
Lemma compact_inner_run (t : Tree) d flushed ess :
  Forall2 sst_holds (sst_files t) ess -> (2 <= length ess)%nat ->
  (forall s, In s flushed -> ~ In (fst s) (map fst (sst_files t))) ->
  bsorted (merged_entries t ess) -> wf_entries (merged_entries t ess) ->
  (forall e, In e (merged_entries t ess) -> In e (concat ess)) ->
  sst_fits (zone_extractor (config t)) (block_compression (config t)) (merged_entries t ess) ->
  let ids := map fst (sst_files t) in
  (merged_entries t ess = [] /\
     compact_inner t d flushed = (set_ssts (take_sst_id t) flushed, remove_sst_files ids d, Ok tt)) \/
  (exists file reader, sst_open file = Ok reader /\ sst_holds (next_sst_id t, reader) (merged_entries t ess) /\
     compact_inner t d flushed =
       (set_ssts (take_sst_id t) ((next_sst_id t, reader) :: flushed),
        remove_sst_files ids (published d (next_sst_id t) file), Ok tt)).
Proof.
  intros Hss H2 Hids Hs Hw Hi Hfit ids.
  assert (Hok : Forall entry_ok (merged_entries t ess)).
  { pose proof (sst_holds_ok _ _ Hss) as Hok. apply List.Forall_forall. intros e He.
    apply (proj1 (List.Forall_forall _ _) Hok). auto. }
  destruct (sst_write_open _ _ _ EL Hs Hw Hok Hfit)
    as (file & meta & r & bs & zb & zm & Ew & Em & Eo & Hr & Hlo & Hc & _).
  pose proof (Forall2_length _ _ _ Hss) as Hlen.
  unfold compact_inner. destruct (Nat.ltb_spec (length (sst_files t)) 2); [lia|].
  rewrite (all_entries_concat _ _ Hss). cbn [config take_sst_id].
  fold (merged_entries t ess). rewrite Ew, Em, filter_out_ids by done.
  destruct (merged_entries t ess) as [|e es] eqn:Eme; [by left|right].
  exists file, r. split; [done|]. split; [exists bs; eauto|]. cbn [length Nat.eqb]. by rewrite Eo.
Qed.

Lemma remove_sst_files_gone ids d f : In f (d_ssts (remove_sst_files ids d)) -> ~ In (fst f) ids.
Proof.
  cbn. intros H Hin. apply filter_In in H as [_ H]. apply negb_true_iff in H.
  rewrite (proj2 (existsb_exists _ _)) in H; [done|]. exists (fst f). split; [done|apply Z.eqb_refl].
Qed.

(** Replacing the entries of the oldest SSTs by a selection that reads the same. *)
Lemma visible_replace A ess M k v :
  wf_entries (concat ess) -> functional (concat ess) -> best M k v = best (concat ess) k v ->
  visible (concat (A ++ [M])) k v = visible (concat (A ++ rev ess)) k v.
Proof.
  intros Hw Hf Hb. unfold visible. f_equal. rewrite !concat_app. cbn [concat]. rewrite app_nil_r.
  apply best_app_cong. rewrite Hb. apply best_ext; [done..|]. intros e _. apply in_concat_rev.
Qed.

(** Compaction preserves reads.  [compact_inner] over a tree whose SSTs
    hold [ess], with the SSTs [flushed] registered while the merge ran: it
    succeeds, the new tree's layers are in age order with the flushed SSTs
    kept, the merged input files are unlinked, and every key reads the same at
    every snapshot from the minimum active one on (or at or above all
    versions). *)
Theorem compact_inner_preserves_reads (t : Tree) d flushed ess fess :
  tree_repr (set_ssts t (sst_files t ++ flushed)) (ess ++ fess) ->
  length (sst_files t) = length ess -> (2 <= length ess)%nat ->
  (forall s, In s flushed -> ~ In (fst s) (map fst (sst_files t))) ->
  single_above (min_active_snapshot (txn_manager t)) (concat ess) ->
  sst_fits (zone_extractor (config t)) (block_compression (config t)) (merged_entries t ess) ->
  exists t' d' ess', compact_inner t d flushed = (t', d', Ok tt) /\ tree_repr t' ess' /\
    (length ess' <= 1 + length fess)%nat /\
    (forall f, In f (d_ssts d') -> ~ In (fst f) (map fst (sst_files t))) /\
    forall k v, preserved (min_active_snapshot (txn_manager t)) v (concat ess) ->
      visible (contents t' ess') k v = visible (contents t (ess ++ fess)) k v.
Proof.
  intros [Hss Hlay] Hlen H2 Hids Hn Hfit. cbn [sst_files set_ssts] in Hss.
  apply Forall2_app_inv in Hss as [Hss Hfs]; [|done].
  set (A := (mem_iter (active_memtable t) :: map mem_iter (rev (immutable_memtables t))) ++ rev fess).
  assert (HL : layers (set_ssts t (sst_files t ++ flushed)) (ess ++ fess) = A ++ rev ess).
  { unfold layers, A. cbn [active_memtable immutable_memtables set_ssts]. by rewrite rev_app_distr, !app_assoc. }
  assert (HC : contents t (ess ++ fess) = concat (A ++ rev ess)) by (by rewrite <- HL).
  rewrite HL in Hlay. rewrite HC. clear HL HC.
  assert (Hsub : forall e, In e (concat ess) -> In e (concat (A ++ rev ess))).
  { intros e He. rewrite concat_app. apply in_or_app. right. by rewrite <- in_concat_rev. }
  assert (Hw : wf_entries (concat ess)) by (eapply wf_entries_incl; [exact Hsub|apply Hlay]).
  assert (Hf : functional (concat ess)) by (intros a m m' ? ?; eapply (lk_functional _ Hlay); eauto).
  destruct (merged_entries_facts t ess Hw Hf Hn) as (Hs & Hwm & Hmi & Hb).
  destruct (compact_inner_run t d flushed ess Hss H2 Hids Hs Hwm Hmi Hfit)
    as [(Em & ->)|(file & r & Eo & Hr & ->)].
  - exists (set_ssts (take_sst_id t) flushed). eexists. exists fess. split; [done|].
    split; [split; [done|exact (layers_ok_tail A _ Hlay)]|]. split; [lia|].
    split; [intros f; apply remove_sst_files_gone|].
    intros k v Hp. rewrite <- (visible_replace A ess (merged_entries t ess) k v Hw Hf (Hb k v Hp)), Em.
    rewrite concat_app. cbn [concat]. by rewrite !app_nil_r.
  - do 2 eexists. exists (merged_entries t ess :: fess). split; [done|]. split; [split|].
    + by constructor.
    + change (layers_ok (layers t (merged_entries t ess :: fess))). unfold layers. cbn [rev].
      rewrite app_assoc. eapply layers_ok_replace; [exact Hlay|]. intros e He. rewrite <- in_concat_rev. by apply Hmi.
    + cbn [length]. split; [lia|]. split; [intros f; apply remove_sst_files_gone|].
      intros k v Hp. rewrite <- (visible_replace A ess (merged_entries t ess) k v Hw Hf (Hb k v Hp)).
      unfold contents, layers. cbn [rev]. by rewrite app_assoc.
Qed.

End compact.

(** ** Witnesses *)

(** The file of a table and its reader. *)
Definition file_of {E : Extern} (es : list entry) : bytes :=
  match sst_write None CompressNone es with Ok (f, _) => f | _ => [] end.

Definition reader_of {E : Extern} (es : list entry) : SstReader :=
  match sst_open (file_of es) with
  | Ok r => r
  | _ => {| r_data := []; r_index := []; r_bloom := None; r_data_end := 0; r_first_user_key := None;
            r_last_user_key := None; r_zone_map := None; r_version := 0 |}
  end.

Lemma reader_of_holds {E : Extern} {EL : ExternLaws E} id es :
  table_ok es -> sst_fits None CompressNone es ->
  sst_open (file_of es) = Ok (reader_of es) /\ sst_holds (id, reader_of es) es.
Proof.
  intros (Hs & Hw & Hok) Hf.
  destruct (sst_write_open None CompressNone es EL Hs Hw Hok Hf)
    as (file & meta & r & bs & _ & _ & E1 & _ & E3 & Hr & Hlo & Hc & _).
  unfold reader_of, file_of. rewrite E1, E3. split; [done|]. exists bs; eauto.
Qed.

Definition compact_old : list entry :=
  [(InternalKey.new [x61] 1, Some [x01]); (InternalKey.new [x62] 1, Some [x02])].
Definition compact_new : list entry :=
  [(InternalKey.new [x61] 3, Some [x0a]); (InternalKey.new [x62] 2, None)].

Ltac table_ok_tac := split; [repeat constructor; by vm_compute|split;
  [repeat constructor; vm_compute; lia|repeat constructor; vm_compute; done]].

Ltac fits_tac := eexists _, _, _; split; [by vm_compute|]; split; [by vm_compute|];
  split; [by vm_compute|]; split; [by vm_compute|];
  split; [unfold zb_sized, is_u32; cbn; repeat constructor; lia|done].

Lemma compact_old_ok : table_ok compact_old /\ @sst_fits toy_extern None CompressNone compact_old.
Proof. split; [table_ok_tac|fits_tac]. Qed.

Lemma compact_new_ok : table_ok compact_new /\ @sst_fits toy_extern None CompressNone compact_new.
Proof. split; [table_ok_tac|fits_tac]. Qed.

(** Two SSTs and a reader at snapshot 2. *)
Definition compact_ex : LsmTree (SM := list_skipmap MemValue) :=
  {| config := config_new; active_memtable := mem_new; immutable_memtables := [];
     sst_files := [(1, @reader_of toy_extern compact_old); (2, @reader_of toy_extern compact_new)];
     txn_manager := fst (tm_begin (recover_at_version 2)); next_sst_id := 3; compaction_pending := false |}.

Definition compact_ex_all : list entry := compact_new ++ compact_old.

Lemma compact_ex_repr : tree_repr (E := toy_extern) compact_ex [compact_old; compact_new].
Proof.
  assert (Ef : functional compact_ex_all).
  { apply functional_nodup. apply (bool_decide_unpack (NoDup (map fst compact_ex_all))). by vm_compute. }
  split.
  - constructor; [|constructor; [|constructor]]; apply reader_of_holds; apply compact_old_ok || apply compact_new_ok.
  - change (layers compact_ex [compact_old; compact_new]) with ([[]; compact_new; compact_old]).
    split; cbn [concat app].
    + repeat constructor; vm_compute; lia.
    + exact Ef.
    + constructor; [by repeat (constructor; [intros ? ?; by right|])|].
      constructor; [|constructor; constructor]. constructor; [|constructor].
      intros e' He'. right. intros e He _. cut (ever e' = 1 /\ 1 < ever e); [lia|].
      split; [by destruct He' as [<-|[<-|[]]]|by destruct He as [<-|[<-|[]]]].
Qed.

Lemma compact_keep_correct_witness :
  bsorted (compact_keep 2 None false (sort_by_key compact_ex_all)) /\
  visible (compact_keep 2 None false (sort_by_key compact_ex_all)) [x61] 2
    = visible (sort_by_key compact_ex_all) [x61] 2.
Proof.
  destruct (compact_keep_correct 2 (sort_by_key compact_ex_all)) as (H1 & _ & _ & H2 & _).
  - apply ksorted_sort_by_key.
  - repeat constructor; vm_compute; lia.
  - apply functional_nodup.
    apply (bool_decide_unpack (NoDup (map fst (sort_by_key compact_ex_all)))). by vm_compute.
  - apply (bool_decide_unpack (single_above 2 (sort_by_key compact_ex_all))). by vm_compute.
  - split; [exact H1|]. apply H2. intros e He. lia.
Defined.

Lemma compact_inner_preserves_reads_witness :
  exists t' d' ess', compact_inner (E := toy_extern) compact_ex {| d_wal := None; d_ssts := []; d_tmps := [] |} []
      = (t', d', Ok tt) /\
    visible (contents t' ess') [x61] 2 = Some (Some [x01]).
Proof.
  destruct (compact_inner_preserves_reads (E := toy_extern) compact_ex
    {| d_wal := None; d_ssts := []; d_tmps := [] |} [] [compact_old; compact_new] [])
    as (t' & d' & ess' & H1 & _ & _ & _ & H2).
  - exact compact_ex_repr.
  - done.
  - cbn; lia.
  - done.
  - apply (bool_decide_unpack (single_above 2 (compact_old ++ compact_new))). by vm_compute.
  - fits_tac.
  - exists t', d', ess'. split; [exact H1|]. rewrite H2; [by vm_compute|].
    intros e He. change (min_active_snapshot (txn_manager compact_ex)) with 2. lia.
Defined.
