(* ===== verification/LsmBatch.v ===== *)
(** * Batched reads of the tree (crates/rhypedb-storage/src/lsm.rs)

    [multi_get_at] and [multi_scan_prefix_at]: the needles are sorted once with
    their positions, every layer is probed with its batched primitive, files
    out of range are skipped, and the answers go back to the positions of the
    input.  A batch reads what the single operations read. *)

From Stdlib Require Import ZArith Lia Bool List Strings.Byte Sorting.Sorted.
From stdpp Require Import base option list gmap.
From S2P Require Import Prelude ByteMap Keys Versioned MemTable Extern Wal Mvcc Bloom Zone Sst.
From S2P Require Import SstReader SstRead Layers SstBatch Lsm LsmReads LsmCompact.

Local Open Scope Z_scope.
Local Open Scope bytes_scope.

Section batch.
Context {E : Extern} {SM : SkipMap MemValue}.

Local Notation Mem := (MemTable SM).
Local Notation Tree := (LsmTree (SM := SM)).

(** [v[i] = x] on a [Vec]: out of range it panics. *)
Definition vec_set {A} (v : list A) (i : nat) (x : A) : res (list A) :=
  if (i <? length v)%nat then Ok (<[i := x]> v) else Panic.

(** The needles in key order, each with its position in the input.  Equal keys
    may come in any order in the code ([sort_unstable_by]). *)
Definition sorted_needles (needles : list bytes) : list (bytes * nat) :=
  sort_by_key (combine needles (seq 0 (length needles))).

(** ** Point lookups *)

(** The needles still without an answer, and the answers so far. *)
Definition probe_state : Type := list (bytes * nat) * list (option bytes).

(** The zip of [probe_layer!]: a hit or a tombstone is recorded, a miss stays. *)
Fixpoint probe_zip (remaining : list (bytes * nat)) (vals : list (option MemValue))
    (out : list (option bytes)) : res probe_state :=
  match remaining, vals with
  | (key, orig_idx) :: remaining, Some memval :: vals =>
      out ← vec_set out orig_idx memval; probe_zip remaining vals out
  | (key, orig_idx) :: remaining, None :: vals =>
      '(next, out) ← probe_zip remaining vals out; Ok ((key, orig_idx) :: next, out)
  | _, _ => Ok ([], out)
  end.

Definition probe_layer (lookup : list bytes -> res (list (option MemValue))) (st : probe_state)
    : res probe_state :=
  vals ← lookup (map fst (fst st)); probe_zip (fst st) vals (snd st).

Fixpoint probe_memtables (mts : list Mem) (version : Z) (st : probe_state) : res probe_state :=
  match mts with
  | [] => Ok st
  | mt :: mts =>
      match fst st with
      | [] => Ok st
      | _ :: _ =>
          st ← probe_layer (fun keys => Ok (mem_multi_get mt keys version)) st;
          probe_memtables mts version st
      end
  end.

Fixpoint probe_ssts (ssts : list (Z * SstReader)) (version : Z) (st : probe_state) : res probe_state :=
  match ssts with
  | [] => Ok st
  | (_, sst) :: ssts =>
      match fst st with
      | [] => Ok st
      | _ :: _ =>
          if negb (range_overlaps_sorted sst (map fst (fst st))) then probe_ssts ssts version st
          else
            st ← probe_layer (fun keys => multi_get_versioned sst keys version) st;
            probe_ssts ssts version st
      end
  end.

Definition multi_get_at (t : Tree) (version : Z) (user_keys : list bytes) : res (list (option bytes)) :=
  let out := repeat None (length user_keys) in
  match user_keys with
  | [] => Ok out
  | _ :: _ =>
      st ← probe_layer (fun keys => Ok (mem_multi_get (active_memtable t) keys version))
             (sorted_needles user_keys, out);
      st ← probe_memtables (rev (immutable_memtables t)) version st;
      st ← probe_ssts (rev (sst_files t)) version st;
      Ok (snd st)
  end.

(** ** Prefix scans *)

(** One layer's rows into the accumulators, one per sorted prefix. *)
Fixpoint insert_layer (merged : list (bmap MemValue)) (layer : list (list (bytes * MemValue)))
    : res (list (bmap MemValue)) :=
  match layer, merged with
  | [], _ => Ok merged
  | _ :: _, [] => Panic
  | entries :: layer, m :: merged =>
      merged ← insert_layer merged layer; Ok (bm_insert_all entries m :: merged)
  end.

Fixpoint insert_ssts (ssts : list (Z * SstReader)) (sorted_prefixes : list bytes) (version : Z)
    (merged : list (bmap MemValue)) : res (list (bmap MemValue)) :=
  match ssts with
  | [] => Ok merged
  | (_, sst) :: ssts =>
      if negb (prefix_range_overlaps_sorted sst sorted_prefixes)
      then insert_ssts ssts sorted_prefixes version merged
      else
        layer ← multi_scan_prefix_versioned sst sorted_prefixes version;
        merged ← insert_layer merged layer;
        insert_ssts ssts sorted_prefixes version merged
  end.

Fixpoint insert_memtables (mts : list Mem) (sorted_prefixes : list bytes) (version : Z)
    (merged : list (bmap MemValue)) : res (list (bmap MemValue)) :=
  match mts with
  | [] => Ok merged
  | mt :: mts =>
      merged ← insert_layer merged (mem_multi_scan_prefix mt sorted_prefixes version);
      insert_memtables mts sorted_prefixes version merged
  end.

(** The last loop: tombstones dropped, every prefix back at its position. *)
Fixpoint restore_order (indexed : list (bytes * nat)) (merged : list (bmap MemValue))
    (out : list (list (bytes * bytes))) : res (list (list (bytes * bytes))) :=
  match indexed, merged with
  | [], _ => Ok out
  | _ :: _, [] => Panic
  | (_, orig_idx) :: indexed, m :: merged =>
      out ← vec_set out orig_idx (live_rows m); restore_order indexed merged out
  end.

Definition multi_scan_prefix_at (t : Tree) (version : Z) (prefixes : list bytes)
    : res (list (list (bytes * bytes))) :=
  match prefixes with
  | [] => Ok []
  | _ :: _ =>
      let indexed := sorted_needles prefixes in
      let sorted_prefixes := map fst indexed in
      merged ← insert_ssts (sst_files t) sorted_prefixes version (repeat [] (length prefixes));
      merged ← insert_memtables (immutable_memtables t) sorted_prefixes version merged;
      merged ← insert_layer merged (mem_multi_scan_prefix (active_memtable t) sorted_prefixes version);
      restore_order indexed merged (repeat [] (length prefixes))
  end.

(** ** The sorted needles *)

Lemma in_combine_seq (ks : list bytes) s k i :
  In (k, i) (combine ks (seq s (length ks))) <-> (s <= i)%nat /\ ks !! (i - s)%nat = Some k.
Proof.
  revert s. induction ks as [|k0 ks IH]; intros s; cbn; [naive_solver|]. rewrite IH.
  destruct (Nat.eq_dec i s) as [->|Hne].
  - rewrite Nat.sub_diag. cbn. split; [intros [[= ->]|[? _]]; [by split|lia]|].
    intros [_ [= ->]]. by left.
  - destruct (decide (s <= i)%nat) as [Hle|]; [|split; [intros [[=]|[]]; lia|lia]].
    replace (i - s)%nat with (S (i - S s)) by lia. cbn. split; [intros [[=]|[_ H]]; [lia|done]|].
    intros [_ H]. right. split; [lia|done].
Qed.

Lemma in_sorted_needles ks k i : In (k, i) (sorted_needles ks) <-> ks !! i = Some k.
Proof.
  unfold sorted_needles. rewrite in_sort_by_key, in_combine_seq, Nat.sub_0_r. split; [tauto|].
  split; [lia|done].
Qed.

Lemma sorted_needles_perm ks :
  Permutation (map fst (sorted_needles ks)) ks /\
  Permutation (map snd (sorted_needles ks)) (seq 0 (length ks)).
Proof.
  unfold sorted_needles. split; rewrite <- sort_by_key_perm.
  - generalize 0%nat. induction ks as [|k ks IH]; intros s; cbn; [done|]. by rewrite IH.
  - generalize 0%nat. induction ks as [|k ks IH]; intros s; cbn; [done|]. by rewrite IH.
Qed.

Lemma sorted_needles_keys ks : NoDup ks -> bsorted (sorted_needles ks).
Proof.
  intros Hn. assert (Hnd : NoDup (map fst (sorted_needles ks))).
  { by rewrite (proj1 (sorted_needles_perm ks)). }
  unfold sorted_needles in *. revert Hnd. generalize (ksorted_sort_by_key (combine ks (seq 0 (length ks)))).
  generalize (sort_by_key (combine ks (seq 0 (length ks)))).
  induction 1 as [|e l _ IH Hf]; [constructor|]. cbn. intros Hnd.
  apply NoDup_cons in Hnd as [Hx Hnd]. constructor; [by apply IH|].
  rewrite List.Forall_forall in Hf. apply List.Forall_forall. intros x Hin.
  destruct (proj1 (ble_lteq _ _) (Hf x Hin)) as [|Heq]; [done|]. exfalso. apply Hx. rewrite Heq.
  apply list_elem_of_In. by apply in_map.
Qed.

Lemma sorted_needles_positions ks : NoDup (map snd (sorted_needles ks)).
Proof. rewrite (proj2 (sorted_needles_perm ks)). apply NoDup_seq. Qed.

Lemma bsorted_keys {V} (l : bmap V) : bsorted l -> StronglySorted blt (map fst l).
Proof.
  induction 1 as [|e l _ IH Hf]; cbn; constructor; [done|]. apply Forall_fmap. exact Hf.
Qed.

Lemma vec_set_in {A} (v : list A) i x : (i < length v)%nat -> vec_set v i x = Ok (<[i := x]> v).
Proof. intros H. unfold vec_set. by rewrite (proj2 (Nat.ltb_lt _ _) H). Qed.

Lemma lookup_repeat {A} (x : A) n i : (i < n)%nat -> repeat x n !! i = Some x.
Proof. revert i. induction n as [|n IH]; intros [|i] H; cbn; [lia|lia|done|]. apply IH. lia. Qed.

(** ** Probing the layers *)

Definition unanswered (f : bytes -> option MemValue) (kn : bytes * nat) : bool :=
  match f (fst kn) with None => true | Some _ => false end.

(** [f] first, [g] where [f] has nothing. *)
Definition or_else (f g : bytes -> option MemValue) (k : bytes) : option MemValue :=
  match f k with Some m => Some m | None => g k end.

Lemma probe_zip_spec rem g out :
  NoDup (map snd rem) -> (forall k i, In (k, i) rem -> (i < length out)%nat) ->
  exists out', probe_zip rem (map g (map fst rem)) out = Ok (List.filter (unanswered g) rem, out') /\
    length out' = length out /\
    (forall k i, In (k, i) rem -> out' !! i = match g k with Some m => Some m | None => out !! i end) /\
    (forall i, (forall k, ~ In (k, i) rem) -> out' !! i = out !! i).
Proof.
  revert out. induction rem as [|[k i] rem IH]; intros out Hn Hlt; [by exists out|].
  apply NoDup_cons in Hn as [Hi Hn]. cbn [map fst snd probe_zip List.filter] in *.
  change (unanswered g (k, i)) with (match g k with None => true | Some _ => false end).
  assert (Hi' : forall k', ~ In (k', i) rem).
  { intros k' H. apply Hi, list_elem_of_In. by apply (in_map snd) in H. }
  pose proof (Hlt k i (or_introl eq_refl)) as Hil.
  destruct (g k) as [m|] eqn:Eg.
  - rewrite vec_set_in by done. cbn [mbind res_bind].
    destruct (IH (<[i := m]> out)) as (out' & E1 & E2 & E3 & E4); [done| |].
    { intros k' i' H. rewrite length_insert. apply (Hlt k'). by right. }
    exists out'. rewrite length_insert in E2. split_and!; [done|done| |].
    + intros k' i' [[= <- <-]|H].
      * rewrite Eg, E4 by done. by rewrite list_lookup_insert_eq.
      * rewrite (E3 k' i' H). rewrite list_lookup_insert_ne; [done|]. intros ->. by apply Hi' in H.
    + intros i' H. rewrite E4 by (intros k' Hk'; apply (H k'); by right).
      rewrite list_lookup_insert_ne; [done|]. intros ->. apply (H k). by left.
  - destruct (IH out) as (out' & E1 & E2 & E3 & E4); [done|intros k' i' H; apply (Hlt k'); by right|].
    exists out'. rewrite E1. cbn. split_and!; [done|done| |].
    + intros k' i' [[= <- <-]|H]; [rewrite Eg; by apply E4|by apply E3].
    + intros i' H. apply E4. intros k' Hk'. apply (H k'). by right.
Qed.

Section probes.
Context (ks : list bytes) (Hnd : NoDup ks).

(** After the layers that answer [f]: what is left, and the answers. *)
Definition probed (f : bytes -> option MemValue) (st : probe_state) : Prop :=
  fst st = List.filter (unanswered f) (sorted_needles ks) /\ length (snd st) = length ks /\
  forall k i, ks !! i = Some k -> snd st !! i = Some (default None (f k)).

Lemma probed_ext f g st : (forall k, In k ks -> f k = g k) -> probed f st -> probed g st.
Proof.
  intros He (H1 & H2 & H3). split_and!; [|done|].
  - rewrite H1. apply filter_ext_in. intros [k i] Hin. apply in_sorted_needles in Hin.
    unfold unanswered. cbn. rewrite He; [done|]. by eapply list_elem_of_In, list_elem_of_lookup_2.
  - intros k i Hk. rewrite (H3 k i Hk), He; [done|]. by eapply list_elem_of_In, list_elem_of_lookup_2.
Qed.

Lemma probed_start : probed (fun _ => None) (sorted_needles ks, repeat None (length ks)).
Proof.
  split_and!; cbn.
  - symmetry. rewrite (filter_ext_in _ (fun _ => true)); [|done].
    by induction (sorted_needles ks); cbn; [|f_equal].
  - apply repeat_length.
  - intros k i Hk. apply lookup_lt_Some in Hk. by apply lookup_repeat.
Qed.

(** The keys that are left: sorted, and among the needles. *)
Lemma probed_left f st :
  probed f st -> StronglySorted blt (map fst (fst st)) /\
    forall k, In k (map fst (fst st)) -> In k ks /\ f k = None.
Proof.
  intros (H1 & _). rewrite H1. split.
  - apply bsorted_keys, bsorted_filter, sorted_needles_keys, Hnd.
  - intros k ([k' i] & <- & Hin)%in_map_iff. apply filter_In in Hin as [Hin Hu].
    apply in_sorted_needles in Hin. unfold unanswered in Hu. cbn in *. split.
    + by eapply list_elem_of_In, list_elem_of_lookup_2.
    + by destruct (f k').
Qed.

Lemma probed_layer f g lookup st :
  probed f st ->
  lookup (map fst (fst st)) = Ok (map g (map fst (fst st))) ->
  exists st', probe_layer lookup st = Ok st' /\ probed (or_else f g) st'.
Proof.
  intros Hp Hl. pose proof Hp as (H1 & H2 & H3). unfold probe_layer. rewrite Hl. cbn [mbind res_bind].
  destruct (probe_zip_spec (fst st) g (snd st)) as (out' & E1 & E2 & E3 & E4).
  - rewrite H1. generalize (sorted_needles_positions ks). generalize (sorted_needles ks). clear.
    induction l as [|x l IH]; cbn; [done|]. intros [Hx Hn]%NoDup_cons. destruct (unanswered f x); [|auto].
    cbn. constructor; [|auto]. intros H. apply Hx. apply list_elem_of_In in H. apply list_elem_of_In.
    apply in_map_iff in H as (y & <- & Hy). apply filter_In in Hy as [Hy _]. by apply in_map.
  - intros k i H. rewrite H1 in H. apply filter_In in H as [H _]. apply in_sorted_needles in H.
    rewrite H2. by eapply lookup_lt_Some.
  - eexists. split; [exact E1|]. split_and!; cbn [fst snd].
    + rewrite H1. generalize (sorted_needles ks). clear. induction l as [|[k i] l IH]; [done|].
      cbn. unfold unanswered, or_else in *. cbn in *. destruct (f k) as [m|] eqn:Ef; cbn; [done|].
      destruct (g k) eqn:Eg; cbn; rewrite IH; done.
    + congruence.
    + intros k i Hk. unfold or_else. destruct (f k) as [m|] eqn:Ef.
      * rewrite E4; [by rewrite (H3 k i Hk), Ef|]. intros k' H. rewrite H1 in H.
        apply filter_In in H as [H Hu]. apply in_sorted_needles in H. rewrite Hk in H.
        injection H as <-. unfold unanswered in Hu. cbn in Hu. by rewrite Ef in Hu.
      * rewrite (E3 k i).
        -- destruct (g k) as [m|]; [done|]. by rewrite (H3 k i Hk), Ef.
        -- rewrite H1. apply filter_In. split; [by apply in_sorted_needles|].
           unfold unanswered. cbn. by rewrite Ef.
Qed.

(** When nothing is left the remaining layers do not matter. *)
Lemma probed_done f g st : fst st = [] -> probed f st -> probed (or_else f g) st.
Proof.
  intros Hd Hp. pose proof Hp as (H1 & _). revert Hp. apply probed_ext. intros k Hk. unfold or_else.
  destruct (f k) eqn:Ef; [done|]. exfalso.
  apply list_elem_of_In, list_elem_of_lookup in Hk as [i Hi]. apply in_sorted_needles in Hi.
  rewrite Hd in H1. assert (Hin : In (k, i) []); [|done]. rewrite H1. apply filter_In. split; [done|].
  unfold unanswered. cbn. by rewrite Ef.
Qed.

Lemma probed_assoc f g h st :
  probed (or_else (or_else f g) h) st -> probed (or_else f (or_else g h)) st.
Proof. apply probed_ext. intros k _. unfold or_else. by destruct (f k). Qed.

Context {SML : SkipMapLaws SM} (v : Z) (Hv : is_u64 v).

Lemma mem_multi_get_visible mt keys :
  mem_wf mt -> (forall k, In k keys -> key_separate k (mem_iter mt)) ->
  mem_multi_get mt keys v = map (fun k => visible (mem_iter mt) k v) keys.
Proof.
  intros Hw Hs. unfold mem_multi_get. apply map_ext_in. intros k Hk.
  apply mem_get_visible; [done|by apply Hs|done].
Qed.

Lemma probe_memtables_spec mts f st :
  (forall mt, In mt mts -> mem_wf mt /\ forall k, In k ks -> key_separate k (mem_iter mt)) ->
  probed f st ->
  exists st', probe_memtables mts v st = Ok st' /\
    probed (or_else f (fun k => first_hit (map mem_iter mts) k v)) st'.
Proof.
  revert f st. induction mts as [|mt mts IH]; intros f st Hm Hp; cbn [probe_memtables].
  { exists st. split; [done|]. eapply probed_ext; [|exact Hp]. intros k _. unfold or_else. by destruct (f k). }
  destruct (fst st) as [|x rem] eqn:Er; [exists st; split; [done|by apply probed_done]|].
  destruct (probed_left f st Hp) as [_ Hin]. destruct (Hm mt (or_introl eq_refl)) as [Hw Hs].
  destruct (probed_layer f (fun k => visible (mem_iter mt) k v)
    (fun keys => Ok (mem_multi_get mt keys v)) st Hp) as (st1 & E1 & Hp1).
  { rewrite mem_multi_get_visible; [done|done|]. intros k Hk. apply Hs. by apply Hin. }
  rewrite E1. cbn [mbind res_bind].
  destruct (IH _ st1 (fun mt' H => Hm mt' (or_intror H)) Hp1) as (st' & E' & Hp').
  exists st'. split; [done|]. by apply probed_assoc.
Qed.

(** A file that the range check skips has nothing for the keys that are left. *)
Lemma probe_ssts_spec ssts ess f st :
  Forall2 sst_holds ssts ess ->
  (forall es, In es ess -> prefix_free es /\ forall k, In k ks -> no_extension k es) ->
  probed f st ->
  exists st', probe_ssts ssts v st = Ok st' /\ probed (or_else f (fun k => first_hit ess k v)) st'.
Proof.
  intros H. revert f st.
  induction H as [|[id r] es ssts ess (bs & Hr & Hes & c & Hl) _ IH]; intros f st Hx Hp; cbn [probe_ssts].
  { exists st. split; [done|]. eapply probed_ext; [|exact Hp]. intros k _. unfold or_else. by destruct (f k). }
  destruct (fst st) as [|x rem] eqn:Er; [exists st; split; [done|by apply probed_done]|]. rewrite <- Er.
  destruct (probed_left f st Hp) as [Hsort Hin]. destruct (Hx es (or_introl eq_refl)) as [Hf Hs].
  subst es. cbn [snd] in *.
  destruct (range_overlaps_sorted r _) eqn:Eo; cbn [negb].
  - destruct (probed_layer f (fun k => visible (concat bs) k v)
      (fun keys => multi_get_versioned r keys v) st Hp) as (st1 & E1 & Hp1).
    { eapply multi_get_visible; [done|done|done|]. apply List.Forall_forall. intros k Hk. apply Hs. by apply Hin. }
    rewrite E1. cbn [mbind res_bind].
    destruct (IH _ st1 (fun es H => Hx es (or_intror H)) Hp1) as (st' & E' & Hp').
    exists st'. split; [done|]. by apply probed_assoc.
  - destruct (IH f st (fun es H => Hx es (or_intror H)) Hp) as (st' & E' & Hp').
    exists st'. split; [done|]. eapply probed_ext; [|exact Hp']. intros k Hk. unfold or_else. cbn [first_hit].
    destruct (f k) eqn:Ef; [done|]. rewrite (range_overlaps_sound r bs (map fst (fst st)) k v); [done|done|done| |done|].
    + clear -Hsort. induction Hsort as [|a l _ IH Hf]; constructor; [done|].
      eapply Forall_impl; [exact Hf|]. intros b. apply blt_ble.
    + destruct Hp as (H1 & _). rewrite H1. apply list_elem_of_In, list_elem_of_lookup in Hk as [i Hi].
      apply in_map_iff. exists (k, i). split; [done|]. apply filter_In. rewrite in_sorted_needles.
      split; [done|]. unfold unanswered. cbn. by rewrite Ef.
Qed.

End probes.

Lemma multi_get_at_visible {SML : SkipMapLaws SM} (t : Tree) ess keys v :
  tree_repr t ess -> prefix_free (contents t ess) -> NoDup keys ->
  Forall (fun k => key_separate k (contents t ess)) keys -> is_u64 v ->
  multi_get_at t v keys = Ok (map (fun k => default None (visible (contents t ess) k v)) keys).
Proof.
  intros Ht Hf Hnd Hs Hv. rewrite List.Forall_forall in Hs.
  assert (Hsep : forall l k, In l (layers t ess) -> In k keys -> key_separate k l).
  { intros l k Hl Hk. eapply key_separate_incl; [|by apply Hs]. intros e. by apply layer_incl. }
  unfold multi_get_at. destruct keys as [|k0 ks0] eqn:Ek; [done|]. rewrite <- Ek in *. clear k0 ks0 Ek.
  destruct (probed_layer keys _ (fun k => visible (mem_iter (active_memtable t)) k v)
    (fun keys => Ok (mem_multi_get (active_memtable t) keys v)) _ (probed_start keys)) as (st1 & E1 & Hp1).
  { rewrite mem_multi_get_visible; [done|done| |].
    - by eapply mem_layer_wf, active_layer.
    - intros k Hk. apply Hsep; [apply active_layer|]. by apply (probed_left keys Hnd _ _ (probed_start keys)). }
  rewrite E1. cbn [mbind res_bind].
  edestruct (probe_memtables_spec keys Hnd v Hv (rev (immutable_memtables t))) as (st2 & E2 & Hp2); [|exact Hp1|].
  { intros mt Hmt. apply in_rev in Hmt. split; [by eapply mem_layer_wf, immutable_layer|].
    intros k Hk. apply Hsep; [by apply immutable_layer|done]. }
  rewrite E2. cbn [mbind res_bind].
  edestruct (probe_ssts_spec keys Hnd v (rev (sst_files t)) (rev ess)) as (st3 & E3 & _ & H2 & H3).
  { apply Forall2_rev, Ht. }
  { intros es Hes. apply in_rev in Hes. split; [by eapply prefix_free_layer, Hf; apply sst_layer|].
    intros k Hk. apply key_separate_no_extension, Hsep; [by apply sst_layer|done]. }
  { exact Hp2. }
  rewrite E3. cbn [mbind res_bind]. f_equal. apply list_eq. intros i.
  rewrite list_lookup_fmap. destruct (keys !! i) as [k|] eqn:Ek.
  - rewrite (H3 k i Ek). cbn [fmap option_fmap option_map]. f_equal. f_equal. unfold contents. rewrite <- first_hit_visible by apply Ht.
    unfold layers, or_else. cbn [app first_hit]. destruct (visible _ k v); [done|].
    by rewrite first_hit_app.
  - cbn. apply lookup_ge_None_2. rewrite H2. by apply lookup_ge_None_1.
Qed.

(** ** Merging the scans *)

Section scans.
Context {SML : SkipMapLaws SM} (v : Z).

(** The accumulator of a prefix after the layers [ls] (newest first). *)
Definition accumulated (ls : list (list entry)) (p : bytes) (m : bmap MemValue) : Prop :=
  bsorted m /\
  forall k, bm_get k m = if decide (p `prefix_of` k) then first_hit ls k v else None.

Lemma accumulated_insert ls l p m r :
  accumulated ls p m -> scan_answer l p p v r -> accumulated (l :: ls) p (bm_insert_all r m).
Proof.
  intros [Hs Hm] Ha. split; [by apply bsorted_insert_all|]. intros k.
  rewrite bm_get_insert_all by (done || apply Ha). rewrite (scan_answer_get _ _ _ _ _ k Ha), Hm. cbn [first_hit].
  destruct (decide (p `prefix_of` k)) as [Hp|Hn].
  - rewrite decide_True by (split; [done|by apply prefix_ble]). done.
  - by rewrite decide_False by tauto.
Qed.

Lemma accumulated_skip ls l p m :
  accumulated ls p m -> (forall e, In e l -> ~ p `prefix_of` euk e) -> accumulated (l :: ls) p m.
Proof.
  intros [Hs Hm] Hn. split; [done|]. intros k. rewrite Hm. destruct (decide (p `prefix_of` k)) as [Hp|]; [|done].
  cbn [first_hit]. unfold visible. rewrite (proj2 (best_none l k v)); [done|].
  intros e He Hk. subst k. by apply Hn in He.
Qed.

Lemma accumulated_answer ls p m : layers_ok ls -> accumulated ls p m -> scan_answer (concat ls) p p v m.
Proof.
  intros Hk [Hs Hm]. split; [done|]. intros u x. rewrite <- bm_get_in by done. rewrite Hm.
  rewrite first_hit_visible by done. destruct (decide (p `prefix_of` u)) as [Hp|]; [|naive_solver].
  split; [|tauto]. intros H. split_and!; [done|by apply prefix_ble|done].
Qed.

Lemma insert_layer_spec ls l ps merged layer :
  Forall2 (accumulated ls) ps merged -> Forall2 (fun p r => scan_answer l p p v r) ps layer ->
  exists merged', insert_layer merged layer = Ok merged' /\ Forall2 (accumulated (l :: ls)) ps merged'.
Proof.
  intros Hm. revert layer. induction Hm as [|p m ps merged H _ IH]; intros layer Hl;
    inversion Hl as [|? r ? layer' Hr Hl']; subst; cbn [insert_layer]; [by exists []|].
  destruct (IH layer' Hl') as (merged' & E' & H'). rewrite E'. eexists. split; [done|].
  constructor; [by apply accumulated_insert|done].
Qed.

Context (ps : list bytes) (Hps : StronglySorted disjoint_before ps).

Lemma disjoint_before_sorted : StronglySorted ble ps.
Proof.
  clear -Hps. revert Hps. induction 1 as [|p l _ IH Hf]; [constructor|]. constructor; [done|].
  eapply Forall_impl; [exact Hf|]. intros q [Hq _]. by apply blt_ble.
Qed.

Lemma disjoint_before_prefix p q : In p ps -> In q ps -> p `prefix_of` q -> p = q.
Proof.
  clear -Hps. revert Hps. induction 1 as [|a l _ IH Hf]; [done|]. rewrite List.Forall_forall in Hf.
  intros [->|Hp] [->|Hq] Hpq; [done| | |auto].
  - by destruct (Hf q Hq) as [_ []].
  - destruct (Hf p Hp) as [Hlt _]. apply prefix_ble in Hpq. exfalso.
    eapply blt_irrefl, blt_ble_trans; [exact Hlt|exact Hpq].
Qed.

Lemma insert_ssts_spec ssts ess ls merged :
  Forall2 sst_holds ssts ess -> (forall es, In es ess -> prefix_free es) ->
  Forall2 (accumulated ls) ps merged ->
  exists merged', insert_ssts ssts ps v merged = Ok merged' /\
    Forall2 (accumulated (rev ess ++ ls)) ps merged'.
Proof.
  intros H. revert ls merged.
  induction H as [|[id r] es ssts ess (bs & Hr & Hes & c & Hl) _ IH]; intros ls merged Hf Hm; [by exists merged|].
  pose proof (Hf es (or_introl eq_refl)) as Hfree. specialize (IH (es :: ls)).
  cbn [insert_ssts rev]. rewrite <- app_assoc. cbn [app snd] in *. subst es.
  destruct (prefix_range_overlaps_sorted r ps) eqn:Eo; cbn [negb].
  - destruct (multi_scan_answer r c bs ps v Hr Hl Hfree Hps) as (rows & Er & Hrows).
    rewrite Er. cbn [mbind res_bind].
    destruct (insert_layer_spec ls (concat bs) ps merged rows Hm Hrows) as (merged' & E' & H').
    rewrite E'. cbn [mbind res_bind]. apply IH; [intros es Hes; apply Hf; by right|done].
  - apply IH; [intros es Hes; apply Hf; by right|]. rewrite Forall2_lookup in Hm |- *. intros i.
    specialize (Hm i). destruct (ps !! i) as [p|] eqn:Ep; inversion Hm as [? ? Hacc|]; subst; constructor.
    apply accumulated_skip; [done|]. intros e He.
    eapply prefix_range_overlaps_sound; [exact Hr|exact Hfree|apply disjoint_before_sorted|apply disjoint_before_prefix|exact Eo| |exact He].
    by eapply list_elem_of_In, list_elem_of_lookup_2.
Qed.

Lemma mem_multi_scan_answer mt :
  mem_wf mt -> prefix_free (mem_iter mt) -> Forall (fun p => no_strict_prefix p (mem_iter mt)) ps ->
  Forall2 (fun p r => scan_answer (mem_iter mt) p p v r) ps (mem_multi_scan_prefix mt ps v).
Proof.
  intros Hw Hf Hn. unfold mem_multi_scan_prefix. apply Forall2_fmap_r, Forall_Forall2_diag.
  eapply Forall_impl; [exact Hn|]. intros p Hp. by apply mem_scan_prefix_answer.
Qed.

Lemma insert_memtables_spec mts ls merged :
  (forall mt, In mt mts -> mem_wf mt /\ prefix_free (mem_iter mt) /\
     Forall (fun p => no_strict_prefix p (mem_iter mt)) ps) ->
  Forall2 (accumulated ls) ps merged ->
  exists merged', insert_memtables mts ps v merged = Ok merged' /\
    Forall2 (accumulated (rev (map mem_iter mts) ++ ls)) ps merged'.
Proof.
  revert ls merged. induction mts as [|mt mts IH]; intros ls merged H Hm; [by exists merged|].
  destruct (H mt (or_introl eq_refl)) as (Hw & Hf & Hn).
  destruct (insert_layer_spec ls _ ps merged _ Hm (mem_multi_scan_answer mt Hw Hf Hn)) as (m' & E' & H').
  cbn [insert_memtables map rev]. rewrite E'. cbn [mbind res_bind]. rewrite <- app_assoc. cbn [app].
  apply IH; [|done]. intros mt' Hmt'. apply H. by right.
Qed.

End scans.

Lemma restore_order_spec (F : bytes -> list (bytes * bytes)) indexed merged out :
  NoDup (map snd indexed) -> (forall k i, In (k, i) indexed -> (i < length out)%nat) ->
  Forall2 (fun p m => live_rows m = F p) (map fst indexed) merged ->
  exists out', restore_order indexed merged out = Ok out' /\ length out' = length out /\
    (forall k i, In (k, i) indexed -> out' !! i = Some (F k)) /\
    (forall i, (forall k, ~ In (k, i) indexed) -> out' !! i = out !! i).
Proof.
  revert merged out. induction indexed as [|[k i] indexed IH]; intros merged out Hn Hlt Hf; [by exists out|].
  apply NoDup_cons in Hn as [Hi Hn]. cbn [map fst snd] in *.
  inversion Hf as [|? m ? merged' Hm Hf']; subst. cbn [restore_order].
  assert (Hi' : forall k', ~ In (k', i) indexed).
  { intros k' H. apply Hi, list_elem_of_In. by apply (in_map snd) in H. }
  pose proof (Hlt k i (or_introl eq_refl)) as Hil. rewrite vec_set_in by done. cbn [mbind res_bind].
  destruct (IH merged' (<[i := live_rows m]> out)) as (out' & E1 & E2 & E3 & E4); [done| |done|].
  { intros k' i' H. rewrite length_insert. apply (Hlt k'). by right. }
  exists out'. rewrite length_insert in E2. split_and!; [done|done| |].
  - intros k' i' [[= <- <-]|H]; [|by apply E3]. rewrite E4 by done. rewrite <- Hm. by apply list_lookup_insert_eq.
  - intros i' H. rewrite E4 by (intros k' Hk'; apply (H k'); by right).
    rewrite list_lookup_insert_ne; [done|]. intros ->. apply (H k). by left.
Qed.

(** No prefix of the batch is repeated or a prefix of another. *)
Definition disjoint_prefixes (ps : list bytes) : Prop :=
  NoDup ps /\ forall p q, In p ps -> In q ps -> p `prefix_of` q -> p = q.

Lemma sorted_prefixes_disjoint ps :
  disjoint_prefixes ps -> StronglySorted disjoint_before (map fst (sorted_needles ps)).
Proof.
  intros [Hnd Hd]. pose proof (bsorted_keys _ (sorted_needles_keys ps Hnd)) as Hs.
  assert (Hin : forall p, In p (map fst (sorted_needles ps)) -> In p ps).
  { intros p. apply Permutation_in, sorted_needles_perm. }
  revert Hs Hin. induction 1 as [|p l _ IH Hf]; intros Hin; [constructor|].
  constructor; [apply IH; intros q Hq; apply Hin; by right|].
  rewrite List.Forall_forall in Hf. apply List.Forall_forall. intros q Hq. split; [by apply Hf|].
  intros Hpq. specialize (Hf q Hq). rewrite (Hd p q) in Hf; [by apply blt_irrefl in Hf|..|done];
    apply Hin; [by left|by right].
Qed.

Lemma accumulated_start v ps : Forall2 (accumulated v []) ps (repeat [] (length ps)).
Proof.
  induction ps; cbn; constructor; [|done]. split; [constructor|]. intros k. by destruct (decide _).
Qed.

Context {SML : SkipMapLaws SM}.

(** The accumulator of every prefix holds what [scan_prefix_at] returns. *)
Lemma accumulated_scan (t : Tree) ess v p m :
  tree_repr t ess -> prefix_free (contents t ess) -> no_strict_prefix p (contents t ess) ->
  accumulated v (layers t ess) p m -> scan_prefix_at t v p = Ok (live_rows m).
Proof.
  intros Ht Hf Hn Hm. destruct (scan_prefix_rows t ess p v Ht Hf Hn) as (rs & E1 & Ha & _).
  unfold scan_prefix_at. rewrite E1. cbn [mbind res_bind]. do 2 f_equal.
  eapply scan_answer_unique; [exact Ha|]. apply accumulated_answer; [apply Ht|done].
Qed.

Lemma multi_scan_merged (t : Tree) ess ps v :
  tree_repr t ess -> prefix_free (contents t ess) -> StronglySorted disjoint_before ps ->
  (forall p, In p ps -> no_strict_prefix p (contents t ess)) ->
  exists merged, (merged ← insert_ssts (sst_files t) ps v (repeat [] (length ps));
                  merged ← insert_memtables (immutable_memtables t) ps v merged;
                  insert_layer merged (mem_multi_scan_prefix (active_memtable t) ps v)) = Ok merged /\
    Forall2 (accumulated v (layers t ess)) ps merged.
Proof.
  intros Ht Hf Hps Hn.
  assert (Hmem : forall mt, In (mem_iter mt) (layers t ess) -> mem_wf mt /\ prefix_free (mem_iter mt) /\
    Forall (fun p => no_strict_prefix p (mem_iter mt)) ps).
  { intros mt Hl. split_and!; [by eapply mem_layer_wf|by eapply prefix_free_layer|].
    apply List.Forall_forall. intros p Hp e He. apply (Hn p Hp). by eapply layer_incl. }
  destruct (insert_ssts_spec v ps Hps (sst_files t) ess [] (repeat [] (length ps)) (tr_ssts t ess Ht))
    as (m1 & E1 & H1);
    [intros es Hes; by eapply prefix_free_layer, Hf; apply sst_layer|apply accumulated_start|].
  rewrite E1. cbn [mbind res_bind].
  edestruct (insert_memtables_spec v ps (immutable_memtables t)) as (m2 & E2 & H2);
    [intros mt Hmt; apply Hmem; by apply immutable_layer|exact H1|].
  rewrite E2. cbn [mbind res_bind]. rewrite app_nil_r in H2. rewrite <- map_rev in H2.
  destruct (Hmem _ (active_layer t ess)) as (Ha1 & Ha2 & Ha3).
  destruct (insert_layer_spec v _ _ ps m2 _ H2 (mem_multi_scan_answer v ps _ Ha1 Ha2 Ha3)) as (m3 & E3 & H3).
  exists m3. by split.
Qed.

(** Batched point reads of the tree.  For distinct keys, the layered probe
    of [multi_get_at] (sorted needles, answered keys dropped after each layer,
    files out of range skipped) returns at every position what [get_at] returns
    for the key there. *)
Theorem multi_get_at_agrees (t : Tree) ess keys v :
  tree_repr t ess -> prefix_free (contents t ess) -> NoDup keys ->
  Forall (fun k => key_separate k (contents t ess)) keys -> is_u64 v ->
  exists out, multi_get_at t v keys = Ok out /\ Forall2 (fun k o => get_at t v k = Ok o) keys out.
Proof.
  intros Ht Hf Hnd Hs Hv. eexists. split; [by apply (multi_get_at_visible t ess)|].
  apply Forall2_fmap_r, Forall_Forall2_diag. eapply Forall_impl; [exact Hs|]. intros k Hk.
  by apply get_at_visible.
Qed.

(** Batched prefix scans of the tree.  For prefixes of which none is
    repeated or a prefix of another, [multi_scan_prefix_at] returns at every
    position what [scan_prefix_at] returns for the prefix there. *)
Theorem multi_scan_prefix_at_agrees (t : Tree) ess prefixes v :
  tree_repr t ess -> prefix_free (contents t ess) -> disjoint_prefixes prefixes ->
  Forall (fun p => no_strict_prefix p (contents t ess)) prefixes ->
  exists out, multi_scan_prefix_at t v prefixes = Ok out /\
    Forall2 (fun p rows => scan_prefix_at t v p = Ok rows) prefixes out.
Proof.
  intros Ht Hf Hd Hn. rewrite List.Forall_forall in Hn.
  destruct prefixes as [|p0 ps0] eqn:Ep; [exists []; split; [done|constructor]|]. rewrite <- Ep in *.
  destruct (sorted_needles_perm prefixes) as [P1 P2].
  destruct (multi_scan_merged t ess (map fst (sorted_needles prefixes)) v Ht Hf) as (merged & Em & Hm).
  { by apply sorted_prefixes_disjoint. }
  { intros p Hp. apply Hn. by eapply Permutation_in. }
  assert (Hlen : length (map fst (sorted_needles prefixes)) = length prefixes) by by rewrite P1.
  set (F := fun p => match scan_prefix_at t v p with Ok r => r | _ => [] end).
  assert (HF : forall p, In p prefixes -> scan_prefix_at t v p = Ok (F p)).
  { intros p Hp. unfold F. destruct (scan_prefix_rows t ess p v Ht Hf (Hn p Hp)) as (rs & E1 & _).
    unfold scan_prefix_at. by rewrite E1. }
  destruct (restore_order_spec F (sorted_needles prefixes) merged (repeat [] (length prefixes)))
    as (out & Eo & El & Ho & _).
  { apply sorted_needles_positions. }
  { intros k i H. apply in_sorted_needles in H. rewrite repeat_length. by eapply lookup_lt_Some. }
  { apply Forall2_same_length_lookup_2; [by eapply Forall2_length|]. intros i p m H1 H2.
    assert (Hp : In p prefixes) by (eapply Permutation_in; [exact P1|]; by eapply list_elem_of_In, list_elem_of_lookup_2).
    pose proof (Forall2_lookup_lr _ _ _ _ _ _ Hm H1 H2) as Hacc.
    pose proof (accumulated_scan t ess v p m Ht Hf (Hn p Hp) Hacc) as Hs. unfold F. by rewrite Hs. }
  exists out. split.
  - unfold multi_scan_prefix_at. rewrite Hlen in Em. destruct prefixes as [|? ?]; [done|].
    destruct (insert_ssts _ _ _ _) as [m1| |]; cbn [mbind res_bind] in *; [|done..].
    destruct (insert_memtables _ _ _ _) as [m2| |]; cbn [mbind res_bind] in *; [|done..].
    rewrite Em. exact Eo.
  - apply Forall2_same_length_lookup_2; [by rewrite El, repeat_length|]. intros i p rows Hp Hr.
    rewrite (Ho p i) in Hr by by apply in_sorted_needles. injection Hr as <-. apply HF.
    by eapply list_elem_of_In, list_elem_of_lookup_2.
Qed.

End batch.

(** ** Witnesses *)

Lemma compact_ex_contents : contents compact_ex [compact_old; compact_new] = compact_ex_all.
Proof. by vm_compute. Qed.

Lemma compact_ex_one_byte e : In e compact_ex_all -> length (euk e) = 1%nat.
Proof. intros He. by repeat (destruct He as [<-|He]; [by vm_compute|]). Qed.

Lemma compact_ex_free : prefix_free (contents compact_ex [compact_old; compact_new]).
Proof.
  rewrite compact_ex_contents. intros e e' He He' Hne.
  apply one_byte_keys; auto using compact_ex_one_byte.
Qed.

Lemma multi_get_at_agrees_witness :
  exists out, multi_get_at (E := toy_extern) compact_ex 3 [[x62]; [x63]; [x61]] = Ok out /\
    Forall2 (fun k o => get_at (E := toy_extern) compact_ex 3 k = Ok o) [[x62]; [x63]; [x61]] out.
Proof.
  apply (multi_get_at_agrees (E := toy_extern) compact_ex [compact_old; compact_new]).
  - exact compact_ex_repr.
  - exact compact_ex_free.
  - apply (bool_decide_unpack (NoDup [[x62]; [x63]; [x61]])). by vm_compute.
  - rewrite compact_ex_contents. apply List.Forall_forall. intros k Hk e He Hne.
    apply one_byte_keys; [by apply compact_ex_one_byte|by destruct Hk as [<-|[<-|[<-|[]]]]|done].
  - unfold is_u64; lia.
Defined.

Lemma multi_scan_prefix_at_agrees_witness :
  exists out, multi_scan_prefix_at (E := toy_extern) compact_ex 3 [[x62]; [x61]] = Ok out /\
    Forall2 (fun p rows => scan_prefix_at (E := toy_extern) compact_ex 3 p = Ok rows) [[x62]; [x61]] out.
Proof.
  apply (multi_scan_prefix_at_agrees (E := toy_extern) compact_ex [compact_old; compact_new]).
  - exact compact_ex_repr.
  - exact compact_ex_free.
  - split; [apply (bool_decide_unpack (NoDup [[x62]; [x61]])); by vm_compute|].
    intros p q Hp Hq [z Hz]. destruct Hp as [<-|[<-|[]]], Hq as [<-|[<-|[]]]; done.
  - rewrite compact_ex_contents. apply List.Forall_forall. intros p Hp e He [z Hz].
    apply compact_ex_one_byte in He. destruct (euk e) as [|b [|]]; [done| |done].
    destruct Hp as [<-|[<-|[]]]; by injection Hz as -> _.
Defined.

(** ** A repeated key *)

(** A key twice in a batch: the newer file answers the first occurrence only,
    and the second is answered by the older file with an overwritten value. *)
Theorem repeated_key_reads_stale :
  get_at (E := toy_extern) compact_ex 3 [x61] = Ok (Some [x0a]) /\
  multi_get_at (E := toy_extern) compact_ex 3 [[x61]; [x61]] = Ok [Some [x0a]; Some [x01]].
Proof. by vm_compute. Qed.
