(* ===== verification/LsmFilter.v ===== *)
(** * Filtered scans of the tree (crates/rhypedb-storage/src/lsm.rs)

    [scan_prefix_filtered_at] merges the filtered scans of the SSTs with the
    plain scans of the memtables.  A row whose newest version satisfies the
    predicate is returned as long as no SST spreads the versions of a key over
    three blocks; rows that are overwritten or deleted may be returned too, and
    with more versions a match may be lost. *)

From Stdlib Require Import ZArith Lia Bool List Strings.Byte Sorting.Sorted.
From stdpp Require Import base option list gmap.
From S2P Require Import Prelude ByteMap Keys Versioned MemTable Extern Wal Mvcc Bloom Zone Sst.
From S2P Require Import SstReader SstRead Layers SstBatch SstFilter Lsm LsmReads LsmCompact.

Local Open Scope Z_scope.
Local Open Scope bytes_scope.

(** ** The rows of one file *)

(** Entries in the order of their user keys. *)
Definition usorted (l : list entry) : Prop := StronglySorted (fun x y => euk x <=b euk y) l.

Lemma bsorted_usorted es : bsorted es -> wf_entries es -> prefix_free es -> usorted es.
Proof.
  intros Hs Hw Hf. induction Hs as [|e es Hs IH Hlt]; [constructor|].
  inversion Hw as [|? ? H8 Hw']; subst. constructor; [apply IH; [done|by eapply prefix_free_cons]|].
  rewrite List.Forall_forall in Hlt. apply List.Forall_forall. intros x Hx. apply ble_lteq.
  destruct (ik_order e x) as [|[? _]]; [done|by eapply wf_entries_in| |by apply Hlt|by left|by right].
  intros Hne. apply Hf; [by left|by right|done].
Qed.

Lemma usorted_app l l' :
  usorted (l ++ l') -> usorted l /\ usorted l' /\ forall x y, In x l -> In y l' -> euk x <=b euk y.
Proof.
  induction l as [|e l IH]; cbn; [by split; [constructor|]|]. intros H.
  apply StronglySorted_inv in H as [H Hf]. destruct (IH H) as (H1 & H2 & H3). rewrite List.Forall_forall in Hf.
  split_and!; [|done|].
  - constructor; [done|]. apply List.Forall_forall. intros x Hx. apply Hf, in_or_app. by left.
  - intros x y [->|Hx] Hy; [apply Hf, in_or_app; by right|by apply H3].
Qed.

Definition above (floor : option bytes) (k : bytes) : Prop := forall u, floor = Some u -> u <b k.

Lemma filter_entries_sorted p v last l :
  usorted l -> (forall u e, last = Some u -> In e l -> u <=b euk e) ->
  let '(rows, last', stop) := filter_entries p v last l in
  bsorted rows /\
  (forall k m, In (k, m) rows -> above last k /\ exists e, In e l /\ euk e = k) /\
  (rows = [] /\ last' = last \/
   exists k m, In (k, m) rows /\ last' = Some k /\ forall k' m', In (k', m') rows -> k' <=b k).
Proof.
  intros Hs. revert last. induction Hs as [|e l Hs IH Hf]; intros last Hl; cbn [filter_entries].
  { split_and!; [constructor|done|by left]. }
  rewrite List.Forall_forall in Hf.
  assert (Hskip : let '(rows, last', stop) := filter_entries p v last l in
    bsorted rows /\ (forall k m, In (k, m) rows -> above last k /\ exists x, In x (e :: l) /\ euk x = k) /\
    (rows = [] /\ last' = last \/
     exists k m, In (k, m) rows /\ last' = Some k /\ forall k' m', In (k', m') rows -> k' <=b k)).
  { specialize (IH last). destruct (filter_entries p v last l) as [[rows last'] stop].
    destruct IH as (H1 & H2 & H3); [intros u x Hu Hx; eapply Hl; [done|by right]|].
    split_and!; [done| |done]. intros k m Hin. destruct (H2 k m Hin) as [Ha (x & Hx & Hk)].
    split; [done|]. exists x. split; [by right|done]. }
  destruct (_ <? 8)%nat; [done|]. destruct (bltb _ _); [done|].
  destruct (starts_with _ _); cbn [negb]; [|split_and!; [constructor|done|by left]].
  destruct (v <? ever e); [done|].
  destruct (match last with Some _ => _ | None => _ end) eqn:Esame; [done|]. clear Hskip.
  specialize (IH (Some (euk e))). destruct (filter_entries p v (Some (euk e)) l) as [[rows last'] stop].
  destruct IH as (H1 & H2 & H3); [intros u x [= <-] Hx; by apply Hf|].
  assert (Hab : above last (euk e)).
  { intros u ->. destruct (beqb_spec u (euk e)) as [|Hne]; [done|].
    destruct (proj1 (ble_lteq _ _) (Hl u e eq_refl (or_introl eq_refl))); [done|done]. }
  assert (Hrows : forall k m, In (k, m) rows -> euk e <b k).
  { intros k m Hin. destruct (H2 k m Hin) as [Ha _]. by apply Ha. }
  split_and!.
  - constructor; [done|]. apply List.Forall_forall. intros [k m] Hin. by eapply Hrows.
  - intros k m [[= <- <-]|Hin]; [split; [done|exists e; split; [by left|done]]|].
    destruct (H2 k m Hin) as [Ha (x & Hx & Hk)]. split.
    + intros u Hu. eapply blt_trans; [by apply Hab|by eapply Hrows].
    + exists x. split; [by right|done].
  - right. destruct H3 as [[-> ->]|(k & m & Hin & -> & Hmax)].
    + exists (euk e), (snd e). split_and!; [by left|done|]. intros k' m' [[= <- <-]|[]]. apply ble_refl.
    + exists k, m. split_and!; [by right|done|]. intros k' m' [[= <- <-]|Hin']; [|by eapply Hmax].
      apply blt_ble. by eapply Hrows.
Qed.

(** No key has versions in two blocks with another block between them. *)
Definition narrow (bs : list (list entry)) : Prop :=
  forall i j b b' e e', bs !! i = Some b -> bs !! j = Some b' -> (S (S i) <= j)%nat ->
    In e b -> In e' b' -> euk e <> euk e'.

Lemma narrow_tail b bs : narrow (b :: bs) -> narrow bs.
Proof. intros H i j b1 b2 e e' Hi Hj Hij. apply (H (S i) (S j) b1 b2); [done|done|lia]. Qed.

Lemma narrow_head b bs e e' : narrow (b :: bs) -> In e b -> In e' (concat (tail bs)) -> euk e <> euk e'.
Proof.
  intros H He He'. apply in_concat in He' as (b' & Hb' & He').
  apply list_elem_of_In, list_elem_of_lookup in Hb' as [j Hj].
  apply (H 0%nat (S (S j)) b b'); [done| |lia|done|done]. cbn. by destruct bs.
Qed.

(** What the walk knows about the last key it emitted, [floor]: it is still
    remembered and does not come back after the next block, or every entry left
    is above it. *)
Definition walk_inv (last floor : option bytes) (bs : list (list entry)) : Prop :=
  (last = floor /\ forall u, floor = Some u ->
     (forall e, In e (concat bs) -> u <=b euk e) /\ forall e, In e (concat (tail bs)) -> u <> euk e) \/
  (last = None /\ forall e, In e (concat bs) -> above floor (euk e)).

Lemma concat_tail_in (bs : list (list entry)) e : In e (concat (tail bs)) -> In e (concat bs).
Proof. destruct bs; [done|]. intros H. cbn. apply in_or_app. by right. Qed.

(** Skipping a block. *)
Lemma walk_inv_skip last floor b bs : walk_inv last floor (b :: bs) -> walk_inv None floor bs.
Proof.
  intros [[-> H]|[-> H]]; right; (split; [done|]); intros e He.
  - intros u Hu. destruct (H u Hu) as [H1 H2]. cbn [tail concat] in *.
    destruct (proj1 (ble_lteq _ _) (H1 e (in_or_app _ _ _ (or_intror He)))) as [|Heq]; [done|].
    by apply H2 in He.
  - apply H. cbn. apply in_or_app. by right.
Qed.

(** Walking a block that emits nothing. *)
Lemma walk_inv_none last floor b bs : walk_inv last floor (b :: bs) -> walk_inv last floor bs.
Proof.
  intros [[-> H]|[-> H]]; [left|right]; (split; [done|]).
  - intros u Hu. destruct (H u Hu) as [H1 H2]. cbn [tail concat] in *. split.
    + intros e He. apply H1, in_or_app. by right.
    + intros e He. by apply H2, concat_tail_in.
  - intros e He. apply H. cbn. apply in_or_app. by right.
Qed.

Lemma walk_inv_last last floor bs u e :
  walk_inv last floor bs -> last = Some u -> In e (concat bs) -> u <=b euk e.
Proof. intros [[-> H]|[-> _]]; [|done]. intros Hu. by apply (H u Hu). Qed.

Lemma kept_rows_sorted keep p v b last floor bs :
  usorted (concat bs) -> narrow bs -> walk_inv last floor bs ->
  bsorted (kept_rows keep p v b last bs) /\
  forall k m, In (k, m) (kept_rows keep p v b last bs) -> above floor k.
Proof.
  revert b last floor. induction bs as [|blk bs IH]; intros b last floor Hs Hn Hi; cbn [kept_rows].
  { split; [constructor|done]. }
  pose proof (narrow_tail _ _ Hn) as Hn'. cbn [concat] in Hs.
  destruct (usorted_app _ _ Hs) as (Hs1 & Hs2 & Hs12).
  destruct (keep b); [|by apply IH; [done|done|eapply walk_inv_skip]].
  pose proof (filter_entries_sorted p v last blk Hs1) as Hf.
  destruct (filter_entries p v last blk) as [[rows last'] stop].
  destruct Hf as (Hb & Hr & Hl).
  { intros u e Hu He. eapply walk_inv_last; [exact Hi|exact Hu|]. cbn. apply in_or_app. by left. }
  assert (Hab : forall k m, In (k, m) rows -> above floor k).
  { intros k m Hin. destruct (Hr k m Hin) as [Ha (e & He & Hk)].
    destruct Hi as [[-> _]|[_ Hi]]; [done|]. rewrite <- Hk. apply Hi. cbn. apply in_or_app. by left. }
  destruct stop; [rewrite app_nil_r; by split|].
  destruct Hl as [[-> ->]|(k & m & Hin & -> & Hmax)].
  { apply IH; [done|done|by eapply walk_inv_none]. }
  destruct (Hr k m Hin) as [_ (e & He & Hk)].
  destruct (IH (S b) (Some k) (Some k) Hs2 Hn') as [H1 H2].
  { left. split; [done|]. intros u [= <-]. rewrite <- Hk. split; [intros x Hx; by apply Hs12|].
    intros x Hx. by eapply narrow_head. }
  split.
  - apply bsorted_app. split_and!; [done|done|]. intros [k1 m1] [k2 m2] Hx Hy. cbn.
    eapply ble_blt_trans; [by eapply Hmax|]. by apply (H2 k2 m2).
  - intros k' m' [Hx|Hx]%in_app_or; [by eapply Hab|]. intros u Hu.
    eapply blt_trans; [by eapply (Hab k m)|by apply (H2 k' m')].
Qed.

(** ** The layers *)

Section layers.
Context (sat : entry -> Prop) (p : bytes) (v : Z).

(** [r] is what a filtered scan of the entries [l] may return. *)
Record filtered_answer (l : list entry) (r : list (bytes * MemValue)) : Prop := {
  fa_sorted : bsorted r;
  fa_sound : forall u m, In (u, m) r ->
    exists e, In e l /\ euk e = u /\ snd e = m /\ ever e <= v /\ p `prefix_of` u;
  fa_complete : forall e, In e l -> p `prefix_of` euk e -> best l (euk e) v = Some (ever e, snd e) ->
    sat e -> In (euk e, snd e) r;
}.

Lemma scan_answer_filtered l r : scan_answer l p p v r -> filtered_answer l r.
Proof.
  intros [Hs Ha]. split; [done|..].
  - intros u m Hin. apply Ha in Hin as (Hp & _ & Hv). unfold visible in Hv.
    destruct (best l u v) as [[w m']|] eqn:Eb; [|done]. injection Hv as ->.
    apply best_some in Eb as ((e & He & Hk & Hw & Hm) & Hle & _). exists e. split_and!; [done..|lia|done].
  - intros e He Hp Hb _. apply Ha. split_and!; [done|by apply prefix_ble|]. unfold visible. by rewrite Hb.
Qed.

(** The newest version over the layers is in the first layer that sees the key. *)
Lemma newest_layer l ls e :
  layers_ok (l :: ls) -> In e (l ++ concat ls) ->
  best (l ++ concat ls) (euk e) v = Some (ever e, snd e) ->
  (In e l /\ best l (euk e) v = Some (ever e, snd e)) \/
  (best l (euk e) v = None /\ In e (concat ls) /\ best (concat ls) (euk e) v = Some (ever e, snd e)).
Proof.
  intros Hk He Hb. destruct (layers_ok_cons _ _ Hk) as [_ Ha].
  pose proof (best_some _ _ _ _ _ Hb) as (_ & Hv & Hmax).
  pose proof Hb as Hb'. rewrite best_app in Hb'. destruct (best l (euk e) v) as [[w m]|] eqn:El.
  - left. pose proof (best_some _ _ _ _ _ El) as ((x & Hx & Hxk & Hxw & Hxm) & Hw & Hlm).
    assert (Hwe : w <= ever e) by (subst w; apply Hmax; [apply in_or_app; by left|done|done]).
    assert (Hin : In e l).
    { apply in_app_or in He as [|He]; [done|]. destruct (Ha e He) as [|Hbelow]; [done|].
      specialize (Hbelow x Hx Hxk). lia. }
    split; [done|]. specialize (Hlm e Hin eq_refl Hv). assert (w = ever e) as -> by lia.
    destruct (best (concat ls) (euk e) v) as [[w2 m2]|]; [|done].
    destruct (Z.leb_spec w2 (ever e)) as [|Hlt]; [done|]. injection Hb' as -> ->. lia.
  - right. split_and!; [done| |done]. apply in_app_or in He as [He|]; [|done].
    pose proof (proj1 (best_none _ _ _) El e He eq_refl). lia.
Qed.

Lemma filtered_first_found ls rs e :
  layers_ok ls -> Forall2 filtered_answer ls rs -> In e (concat ls) -> p `prefix_of` euk e ->
  best (concat ls) (euk e) v = Some (ever e, snd e) -> sat e ->
  first_found rs (euk e) = Some (snd e).
Proof.
  intros Hk Hall. revert Hk. induction Hall as [|l r ls rs [Hs Hsound Hc] _ IH]; intros Hk He Hp Hb Hsat; [done|].
  cbn [concat first_found] in *. destruct (layers_ok_cons _ _ Hk) as [Hk' _].
  destruct (newest_layer l ls e Hk He Hb) as [[H1 H2]|(H1 & H2 & H3)].
  - by rewrite (proj2 (bm_get_in _ _ r Hs) (Hc e H1 Hp H2 Hsat)).
  - rewrite (proj2 (bm_get_none (euk e) r)); [by apply IH|]. intros m Hin.
    destruct (Hsound _ _ Hin) as (x & Hx & Hxk & _ & Hxv & _).
    pose proof (proj1 (best_none _ _ _) H1 x Hx Hxk). lia.
Qed.

Lemma merge_filtered ls rs :
  layers_ok ls -> Forall2 filtered_answer ls rs -> filtered_answer (concat ls) (merge (rev rs)).
Proof.
  intros Hk Hall. assert (Hsr : Forall bsorted rs).
  { clear Hk. induction Hall as [|l r ls rs H _ IH]; constructor; [apply H|done]. }
  assert (Hg : forall k, bm_get k (merge (rev rs)) = first_found rs k).
  { intros k. rewrite merge_get, rev_involutive; [done|]. by apply Forall_rev. }
  split; [apply merge_sorted|..].
  - intros u m Hin. apply bm_get_in in Hin; [|apply merge_sorted]. rewrite Hg in Hin.
    apply first_found_in in Hin as (r & Hr & Eg). clear Hg Hk.
    induction Hall as [|l r' ls rs [Hs Hsound _] _ IH]; [done|]. inversion Hsr as [|? ? Hr1 Hr2]; subst.
    cbn [concat]. destruct Hr as [->|Hr].
    + apply bm_get_in in Eg; [|done]. destruct (Hsound _ _ Eg) as (e & He & H'). exists e.
      split; [apply in_or_app; by left|done].
    + destruct (IH Hr2 Hr) as (e & He & H'). exists e. split; [apply in_or_app; by right|done].
  - intros e He Hp Hb Hsat. apply bm_get_in; [apply merge_sorted|]. rewrite Hg. by eapply filtered_first_found.
Qed.

End layers.

(** ** The tree *)

Section tree.
Context {E : Extern} {SM : SkipMap MemValue}.

Local Notation Tree := (LsmTree (SM := SM)).

Definition scan_prefix_filtered_at (t : Tree) (version : Z) (prefix : bytes) (predicate : FieldPredicate)
    : res (list (bytes * bytes)) :=
  rows ← layer_rows t (fun s => scan_prefix_filtered s prefix version predicate)
                      (fun m => mem_scan_prefix m prefix version);
  Ok (live_rows (merge rows)).

(** A file over the entries [es] whose zone map keeps every block with an entry
    that [sat] holds of, and which spreads no key over three blocks. *)
Definition sst_zoned (pred : FieldPredicate) (sat : entry -> Prop) (s : Z * SstReader) (es : list entry) : Prop :=
  exists bs, sst_repr (snd s) bs /\ concat bs = es /\ (exists c, laid_out (snd s) c bs) /\ narrow bs /\
    forall zm i b e, r_zone_map (snd s) = Some zm -> bs !! i = Some b -> In e b -> sat e ->
      could_match zm pred i = true.

Lemma sst_zoned_answer pred sat s es p v :
  sst_zoned pred sat s es -> prefix_free es ->
  exists rows, scan_prefix_filtered (snd s) p v pred = Ok rows /\ filtered_answer sat p v es rows.
Proof.
  intros (bs & Hr & <- & (c & Hl) & Hn & Hz) Hf. destruct (r_zone_map (snd s)) as [zm|] eqn:Ez.
  - eexists. split; [by eapply scan_prefix_filtered_rows|]. split.
    + apply (kept_rows_sorted _ p v 0 None None bs); [|done|by left].
      apply bsorted_usorted; [apply Hr|apply Hr|done].
    + intros u m. apply kept_rows_sound.
    + intros e He Hp Hb Hsat. apply in_concat in He as (b & Hb1 & He).
      apply list_elem_of_In, list_elem_of_lookup in Hb1 as [i Hi].
      eapply kept_rows_complete; [apply Hr|apply Hr|done|exact Hi|exact He|done|done|by eapply Hz].
  - destruct (sst_scan_prefix_answer (snd s) bs Hr p v Hf) as (rows & Er & Ha).
    exists rows. split; [|by apply scan_answer_filtered].
    unfold scan_prefix_filtered, scan_prefix_filtered_v6. rewrite Ez. by destruct (_ <=? _).
Qed.

Context {SML : SkipMapLaws SM}.

Lemma filtered_layer_rows (t : Tree) ess p v pred sat :
  tree_repr t ess -> prefix_free (contents t ess) -> no_strict_prefix p (contents t ess) ->
  Forall2 (sst_zoned pred sat) (sst_files t) ess ->
  exists rs, layer_rows t (fun s => scan_prefix_filtered s p v pred) (fun m => mem_scan_prefix m p v) = Ok rs /\
    Forall2 (filtered_answer sat p v) (layers t ess) (rev rs).
Proof.
  intros Ht Hf Hn Hz.
  assert (Hmem : forall mt, In (mem_iter mt) (layers t ess) ->
    filtered_answer sat p v (mem_iter mt) (mem_scan_prefix mt p v)).
  { intros mt Hl. apply scan_answer_filtered, mem_scan_prefix_answer;
      [by eapply mem_layer_wf|by eapply prefix_free_layer|].
    intros e He. apply Hn. by eapply layer_incl. }
  assert (Hssts : exists rs, ssts_rows (fun s => scan_prefix_filtered s p v pred) (sst_files t) = Ok rs /\
    Forall2 (filtered_answer sat p v) ess rs).
  { assert (Hfree : forall es, In es ess -> prefix_free es).
    { intros es Hes. by eapply prefix_free_layer, Hf; apply sst_layer. }
    clear Ht Hn Hmem Hf. induction Hz as [|[id s] es ssts ess Hs _ IH]; [by exists []|].
    destruct (sst_zoned_answer pred sat (id, s) es p v Hs) as (r & Er & Ha); [apply Hfree; by left|].
    destruct IH as (rs & Ers & Hrs); [intros es' Hes'; apply Hfree; by right|].
    exists (r :: rs). cbn [ssts_rows snd] in *. rewrite Er. cbn [mbind res_bind]. rewrite Ers.
    split; [done|by constructor]. }
  destruct Hssts as (rs & Ers & Hrs). unfold layer_rows. rewrite Ers. cbn [mbind res_bind].
  eexists. split; [done|]. unfold layers. rewrite !rev_app_distr. cbn [rev app].
  constructor; [apply Hmem, active_layer|]. apply Forall2_app; [|by apply Forall2_rev].
  rewrite map_rev. apply Forall2_rev. apply Forall2_fmap_l, Forall2_fmap_r, Forall_Forall2_diag.
  apply List.Forall_forall. intros mt Hmt. by apply Hmem, immutable_layer.
Qed.

Lemma filtered_rows (t : Tree) ess p v pred sat :
  tree_repr t ess -> prefix_free (contents t ess) -> no_strict_prefix p (contents t ess) ->
  Forall2 (sst_zoned pred sat) (sst_files t) ess ->
  exists rows, scan_prefix_filtered_at t v p pred = Ok rows /\ bsorted rows /\
    (forall e x, In e (contents t ess) -> p `prefix_of` euk e ->
       best (contents t ess) (euk e) v = Some (ever e, Some x) -> snd e = Some x -> sat e ->
       In (euk e, x) rows) /\
    (forall u x, In (u, x) rows -> exists e, In e (contents t ess) /\ euk e = u /\ snd e = Some x /\
       ever e <= v /\ p `prefix_of` u).
Proof.
  intros Ht Hf Hn Hz. destruct (filtered_layer_rows t ess p v pred sat Ht Hf Hn Hz) as (rs & Er & Hall).
  pose proof (merge_filtered sat p v _ _ (tr_layers t ess Ht) Hall) as [Hs Hsound Hc].
  rewrite rev_involutive in *. exists (live_rows (merge rs)). unfold scan_prefix_filtered_at. rewrite Er.
  cbn [mbind res_bind]. split_and!; [done|by apply live_rows_sorted|..].
  - intros e x He Hp Hb Hx Hsat. apply live_rows_in. rewrite <- Hx in *. by apply Hc.
  - intros u x Hin. by apply Hsound, live_rows_in.
Qed.

(** Filtered scans of the tree.  When no file spreads a key over three
    blocks, every row whose newest version at the snapshot is live and satisfies
    the predicate is returned, in key order, whatever blocks the zone maps
    skip; and every returned row is a stored version at or below the snapshot,
    possibly an overwritten or deleted one. *)
Theorem filtered_scan_finds_matches (t : Tree) ess p v pred sat :
  tree_repr t ess -> prefix_free (contents t ess) -> no_strict_prefix p (contents t ess) ->
  Forall2 (sst_zoned pred sat) (sst_files t) ess ->
  exists rows, scan_prefix_filtered_at t v p pred = Ok rows /\ bsorted rows /\
    (forall e x, In e (contents t ess) -> p `prefix_of` euk e ->
       best (contents t ess) (euk e) v = Some (ever e, Some x) -> snd e = Some x -> sat e ->
       In (euk e, x) rows) /\
    (forall u x, In (u, x) rows -> exists e, In e (contents t ess) /\ euk e = u /\ snd e = Some x /\
       ever e <= v /\ p `prefix_of` u).
Proof.
  apply filtered_rows.
Qed.

End tree.

(** ** Witness *)

(** The reader of a file with the zone values of [filter_ext]. *)
Definition zoned_reader (es : list entry) : SstReader :=
  match @sst_write toy_extern filter_ext CompressNone es with
  | Ok (file, _) => match @sst_open toy_extern file with Ok r => r | _ => reader_of (E := toy_extern) [] end
  | _ => reader_of (E := toy_extern) []
  end.

Lemma narrow_short bs : blocked bs -> (length (concat bs) <= 2 * ENTRIES_PER_BLOCK)%nat -> narrow bs.
Proof.
  intros Hb Hlen i j b b' e e' _ Hj Hij _ He'. exfalso.
  pose proof (blocked_start bs j Hb ltac:(by eapply lookup_lt_Some)) as Hst.
  rewrite (take_drop_concat bs j), length_app, (drop_S _ _ _ Hj) in Hlen. fold (start bs j) in Hlen.
  cbn [concat] in Hlen. rewrite length_app in Hlen. unfold ENTRIES_PER_BLOCK in *.
  destruct b'; [done|]. cbn [length] in Hlen. lia.
Qed.

Lemma zoned_reader_ok id es pred :
  table_ok es -> @sst_fits toy_extern filter_ext CompressNone es ->
  (length es <= 2 * ENTRIES_PER_BLOCK)%nat ->
  sst_holds (E := toy_extern) (id, zoned_reader es) es /\
  sst_zoned (E := toy_extern) pred (satisfies filter_ext pred) (id, zoned_reader es) es.
Proof.
  intros (Hs & Hw & Hok) Hf Hlen.
  destruct (sst_write_open (E := toy_extern) filter_ext CompressNone es toy_extern_laws Hs Hw Hok Hf)
    as (file & meta & r & bs & zb & zm & E1 & _ & E3 & Hr & Hl & Hc & Hb & Hz & Hzs & Hzr & Hrz).
  unfold zoned_reader. rewrite E1, E3. split; [exists bs; eauto|]. exists bs. split_and!; [done|done|by eauto|..].
  - apply narrow_short; [done|by rewrite Hc].
  - cbn [snd]. intros zm' i b e Hm Hi He Hsat. rewrite Hrz in Hm. injection Hm as <-.
    subst es. by eapply satisfying_block_kept.
Qed.

Ltac zoned_fits_tac := eexists _, _, _; split; [by vm_compute|]; split; [by vm_compute|];
  split; [by vm_compute|]; split; [by vm_compute|];
  split; [unfold zb_sized, is_u32, is_u64; cbn; repeat constructor; cbn; lia|done].

Lemma compact_old_zoned : @sst_fits toy_extern filter_ext CompressNone compact_old.
Proof. zoned_fits_tac. Qed.

Lemma compact_new_zoned : @sst_fits toy_extern filter_ext CompressNone compact_new.
Proof. zoned_fits_tac. Qed.

(** Key [a] overwritten and key [b] deleted in the newer of two files. *)
Definition zoned_ex : LsmTree (SM := list_skipmap MemValue) :=
  set_ssts compact_ex [(1, zoned_reader compact_old); (2, zoned_reader compact_new)].

Lemma zoned_ex_repr : tree_repr (E := toy_extern) zoned_ex [compact_old; compact_new].
Proof.
  split.
  - constructor; [|constructor; [|constructor]]; apply (zoned_reader_ok _ _ filter_pred);
      apply compact_old_ok || apply compact_new_ok || apply compact_old_zoned || apply compact_new_zoned || (cbn; lia).
  - exact (tr_layers _ _ compact_ex_repr).
Qed.

Lemma zoned_ex_contents : contents zoned_ex [compact_old; compact_new] = compact_ex_all.
Proof. by vm_compute. Qed.

Lemma zoned_ex_one_byte e : In e compact_ex_all -> length (euk e) = 1%nat.
Proof. intros He. by repeat (destruct He as [<-|He]; [by vm_compute|]). Qed.

Definition ten_pred : FieldPredicate := {| fp_field_id := 7; fp_op := OpEq; fp_target := 10 |}.

Lemma filtered_scan_finds_matches_witness :
  exists rows, scan_prefix_filtered_at (E := toy_extern) zoned_ex 3 [] ten_pred = Ok rows /\
    In ([x61], [x0a]) rows.
Proof.
  destruct (filtered_scan_finds_matches (E := toy_extern) zoned_ex [compact_old; compact_new] [] 3 ten_pred
    (satisfies filter_ext ten_pred) zoned_ex_repr) as (rows & Er & _ & H & _).
  - rewrite zoned_ex_contents. intros e e' He He' Hne. apply one_byte_keys; auto using zoned_ex_one_byte.
  - rewrite zoned_ex_contents. intros e He [z Hz]. apply zoned_ex_one_byte in He.
    destruct (euk e); [done|discriminate Hz].
  - constructor; [|constructor; [|constructor]]; apply zoned_reader_ok;
      apply compact_old_ok || apply compact_new_ok || apply compact_old_zoned || apply compact_new_zoned || (cbn; lia).
  - exists rows. split; [exact Er|]. apply (H (InternalKey.new [x61] 3, Some [x0a]) [x0a]).
    + rewrite zoned_ex_contents. by left.
    + by exists [x61].
    + by vm_compute.
    + done.
    + exists 10. split; [by left|done].
Defined.

(** ** Stale rows and lost rows *)

(** The newer file's only block cannot match value 1 and is skipped, with the
    new value of [a] and the tombstone of [b]; the older file's block is kept,
    and the overwritten [a] and the deleted [b] are returned. *)
Theorem filtered_scan_returns_stale_rows :
  scan_prefix_at (E := toy_extern) zoned_ex 3 [] = Ok [([x61], [x0a])] /\
  scan_prefix_filtered_at (E := toy_extern) zoned_ex 3 [] filter_pred
    = Ok [([x61], [x01]); ([x62], [x02])].
Proof. by vm_compute. Qed.

(** Key [a] with forty versions, of which the newest has value 1, and key [b]
    with value 1. *)
Definition many_versions : list entry :=
  (InternalKey.new [x61] 50, Some [x01]) ::
  map (fun n => (InternalKey.new [x61] (Z.of_nat n), Some [x00])) (rev (seq 2 39)) ++
  [(InternalKey.new [x62] 1, Some [x01])].

Definition many_ex : LsmTree (SM := list_skipmap MemValue) :=
  set_ssts compact_ex [(1, zoned_reader many_versions)].

(** The newest version of [a] matches, but the scan forgets the key when it
    skips the second block, emits an old version from the third, and the merge
    keeps that one: the row with the newest value is lost. *)
Theorem filtered_scan_loses_match :
  get_at (E := toy_extern) many_ex 50 [x61] = Ok (Some [x01]) /\
  scan_prefix_filtered_at (E := toy_extern) many_ex 50 [] filter_pred
    = Ok [([x61], [x00]); ([x62], [x01])].
Proof. by vm_compute. Qed.
