(* ===== verification/LsmRecovery.v ===== *)
(** * Recovery and crash safety of the tree

    The data directory as the durable state: the WAL of the transactions since
    the last flush and the SSTs.  Opening it gives a tree that reads the union
    of both, with the SSTs in age order; and at every crash boundary of a
    commit, a flush or a compaction the directory still holds the same
    readable contents. *)

From Stdlib Require Import ZArith Lia Bool List Strings.Byte Sorting.Sorted Sorting.Permutation.
From stdpp Require Import base option list gmap.
From S2P Require Import Prelude ByteMap Keys Versioned MemTable Extern Wal Mvcc Bloom Zone Sst SstReader SstRead Layers Lsm LsmReads LsmCompact.

Local Open Scope Z_scope.
Local Open Scope bytes_scope.

(** ** The log as entries *)

Definition txn_entries (t : txn) : list entry := map (fun w => (InternalKey.new w.1 t.2, w.2)) t.1.

(** What the memtable holds after the transactions [ts]. *)
Definition log_entries (ts : list txn) : list entry := bm_insert_all (concat (map txn_entries ts)) [].

Lemma log_entries_sorted ts : bsorted (log_entries ts).
Proof. apply bsorted_insert_all, bsorted_nil. Qed.

Lemma log_entries_snoc ts t : log_entries (ts ++ [t]) = bm_insert_all (txn_entries t) (log_entries ts).
Proof.
  unfold log_entries, bm_insert_all. rewrite map_app, concat_app. cbn [map concat].
  by rewrite app_nil_r, fold_left_app.
Qed.

Section mem.
Context {E : Extern} {SM : SkipMap MemValue} {SML : SkipMapLaws SM}.

Lemma apply_writes_iter (mt : MemTable SM) cv ws :
  mem_iter (apply_writes mt cv ws) = bm_insert_all (txn_entries (ws, cv)) (mem_iter mt).
Proof.
  unfold apply_writes, bm_insert_all, txn_entries. cbn [fst snd]. revert mt.
  induction ws as [|[k [x|]] ws IH]; intros mt; cbn [fold_left map fst snd]; [done|..];
    rewrite IH; by rewrite ?mem_iter_put, ?mem_iter_delete.
Qed.

Lemma replay_records_iter (mt : MemTable SM) t :
  mem_iter (fold_left replay_record (txn_records t) mt) = bm_insert_all (txn_entries t) (mem_iter mt).
Proof.
  destruct t as [ws cv]. rewrite <- apply_writes_iter. f_equal.
  unfold apply_writes, txn_records. cbn [fst snd]. revert mt.
  induction ws as [|[k [x|]] ws IH]; intros mt; cbn [fold_left map fst snd]; [done|..];
    rewrite IH; done.
Qed.

Lemma replay_log_iter (mt : MemTable SM) ts :
  mem_iter (fold_left replay_record (log_records ts) mt)
  = bm_insert_all (concat (map txn_entries ts)) (mem_iter mt).
Proof.
  revert mt. induction ts as [|t ts IH]; intros mt; [done|].
  unfold log_records. cbn [map concat]. fold (log_records ts).
  rewrite fold_left_app, IH, replay_records_iter. unfold bm_insert_all. by rewrite fold_left_app.
Qed.

Lemma replay_log_entries ts :
  mem_iter (fold_left replay_record (log_records ts) (mem_new : MemTable SM)) = log_entries ts.
Proof. rewrite replay_log_iter, mem_iter_new. done. Qed.

End mem.

(** ** Tables and their order *)

(** An SST of the directory: its file id and its entries. *)
Definition table : Type := Z * list entry.

Definition max_version_of (es : list entry) : Z :=
  fold_left (fun m e => if (8 <=? length (fst e))%nat then Z.max m (ever e) else m) es 0.

(** The order of [open]: by maximum version, then by file id. *)
Definition older_table (a b : table) : Prop :=
  max_version_of a.2 < max_version_of b.2 \/ (max_version_of a.2 = max_version_of b.2 /\ a.1 <= b.1).

(** What makes the contents of a directory readable after recovery: one value
    per internal key, distinct file ids, SSTs whose order by maximum version is
    their age order, and a log above them all. *)
Record store_ok (ts : list txn) (tabs : list table) : Prop := {
  so_wf : wf_entries (log_entries ts ++ concat (map snd tabs));
  so_functional : functional (log_entries ts ++ concat (map snd tabs));
  so_ids : NoDup (map fst tabs);
  so_id_range : Forall (fun a => 0 <= a.1 < u64_max - 1) tabs;
  so_order : forall a b, In a tabs -> In b tabs -> a <> b -> older_table a b -> age_ordered b.2 a.2;
  so_log : forall a, In a tabs -> age_ordered (log_entries ts) a.2;
}.

(** The WAL file of a directory: the batches of [ts], possibly followed by a
    torn batch; or no file, or an empty one. *)
Definition wal_holds {E : Extern} (f : option bytes) (ts : list txn) : Prop :=
  (ts = [] /\ (f = None \/ f = Some [])) \/
  exists tail, f = Some (wal_after ts ++ tail) /\
    (tail = [] \/ exists t s, txn_ok t /\ encode_txn t.1 t.2 = tail ++ s /\ s <> []).

Definition file_holds {E : Extern} (f : Z * bytes) (a : table) : Prop :=
  f.1 = a.1 /\ exists r, sst_open f.2 = Ok r /\ sst_holds (f.1, r) a.2.

Record disk_repr {E : Extern} (d : Disk) (ts : list txn) (tabs : list table) : Prop := {
  dr_ssts : Forall2 file_holds (d_ssts d) tabs;
  dr_wal : wal_holds (d_wal d) ts;
  dr_txns : Forall txn_ok ts;
  dr_ok : store_ok ts tabs;
}.

(** All that a directory holds. *)
Definition store_entries (ts : list txn) (tabs : list table) : list entry :=
  log_entries ts ++ concat (map snd tabs).

Lemma max_version_of_spec es :
  wf_entries es -> 0 <= max_version_of es /\ (forall e, In e es -> ever e <= max_version_of es) /\
    (max_version_of es = 0 \/ exists e, In e es /\ ever e = max_version_of es).
Proof. apply fold_max_version. Qed.

Lemma fop_app {A} (R : A -> A -> Prop) l1 l2 :
  ForallOrdPairs R l1 -> ForallOrdPairs R l2 -> (forall x y, In x l1 -> In y l2 -> R x y) ->
  ForallOrdPairs R (l1 ++ l2).
Proof.
  induction 1 as [|a l1 Ha _ IH]; intros H2 Hx; [done|]. cbn. constructor.
  - apply Forall_app. split; [done|]. apply List.Forall_forall. intros y Hy. apply Hx; [by left|done].
  - apply IH; [done|]. intros x y Hx' Hy. apply Hx; [by right|done].
Qed.

Lemma fop_rev {A} (R : A -> A -> Prop) l :
  ForallOrdPairs (fun x y => R y x) l -> ForallOrdPairs R (rev l).
Proof.
  induction 1 as [|a l Ha _ IH]; [constructor|]. cbn. apply fop_app; [done|by repeat constructor|].
  intros x y Hx [<-|[]]. apply in_rev in Hx. by apply (proj1 (List.Forall_forall _ _) Ha).
Qed.

Lemma fop_map {A B} (R : B -> B -> Prop) (f : A -> B) l :
  ForallOrdPairs (fun x y => R (f x) (f y)) l -> ForallOrdPairs R (map f l).
Proof.
  induction 1 as [|a l Ha _ IH]; [constructor|]. cbn. constructor; [|done].
  apply List.Forall_forall. intros y Hy. apply in_map_iff in Hy as (x & <- & Hx).
  by apply (proj1 (List.Forall_forall _ _) Ha).
Qed.

(** Tables in the order of [open] give layers in age order. *)
Lemma sorted_tables_ordered ts tabs tabs' :
  store_ok ts tabs -> Permutation tabs tabs' -> StronglySorted older_table tabs' ->
  layers_ordered (log_entries ts :: rev (map snd tabs')).
Proof.
  intros Hk Hp Hs. assert (Hin : forall a, In a tabs' -> In a tabs).
  { intros a Ha. by eapply Permutation_in; [symmetry|]. }
  assert (Hn : NoDup tabs').
  { apply NoDup_ListNoDup. eapply Permutation_NoDup; [exact Hp|]. apply NoDup_ListNoDup.
    eapply NoDup_fmap_1, Hk. }
  constructor.
  - apply List.Forall_forall. intros l Hl. apply in_rev in Hl.
    apply in_map_iff in Hl as (a & <- & Ha). by apply (so_log _ _ Hk), Hin.
  - apply fop_rev, fop_map. clear Hp. induction Hs as [|a l Hs IH Ha]; [constructor|].
    inversion Hn as [|? ? Hx Hn']; subst. constructor.
    + apply List.Forall_forall. intros b Hb. apply (so_order _ _ Hk); [apply Hin; by left|apply Hin; by right| |].
      * intros ->. apply Hx. by apply list_elem_of_In.
      * by apply (proj1 (List.Forall_forall _ _) Ha).
    + apply IH; [|done]. intros b Hb. apply Hin. by right.
Qed.

(** ** Opening the SSTs *)

Section recovery.
Context {E : Extern} {EL : ExternLaws E} {SM : SkipMap MemValue} {SML : SkipMapLaws SM}.

Local Notation Tree := (LsmTree (SM := SM)).

(** An opened SST with its id and maximum version. *)
Definition opened (s : Z * Z * SstReader) (a : table) : Prop :=
  s.1.1 = a.1 /\ s.1.2 = max_version_of a.2 /\ sst_holds (a.1, s.2) a.2.

Lemma open_ssts_all files tabs :
  Forall2 file_holds files tabs -> exists ss, open_ssts files = Ok ss /\ Forall2 opened ss tabs.
Proof.
  induction 1 as [|[id f] [i es] files tabs (Hid & r & Eo & bs & Hr & Hc & Hlo) _ (ss & IH & Hss)]; [by exists []|].
  cbn [fst snd] in *. subst i. cbn [open_ssts]. rewrite Eo. cbn [mbind res_bind].
  unfold max_version. rewrite (try_for_each_entry_all r bs Hr). cbn [mbind res_bind].
  rewrite IH. cbn [mbind res_bind]. eexists. split; [done|].
  constructor; [|done]. split; [done|]. rewrite Hc. split; [done|]. exists bs; eauto.
Qed.

Lemma sst_insert_perm s l : Permutation (s :: l) (sst_insert s l).
Proof.
  induction l as [|a l IH]; [done|]. cbn. destruct (older_sst s a); [done|].
  etransitivity; [apply perm_swap|]. by constructor.
Qed.

Lemma sort_ssts_perm l : Permutation l (sort_ssts l).
Proof.
  induction l as [|s l IH]; [done|]. cbn. etransitivity; [|apply sst_insert_perm]. by constructor.
Qed.

Lemma older_sst_total a b : older_sst a b = false -> older_sst b a = true.
Proof.
  unfold older_sst. rewrite orb_false_iff, andb_false_iff, orb_true_iff, andb_true_iff.
  rewrite Z.ltb_ge, Z.eqb_neq, Z.leb_gt, Z.ltb_lt, Z.eqb_eq, Z.leb_le. lia.
Qed.

Lemma older_sst_trans a b c : older_sst a b = true -> older_sst b c = true -> older_sst a c = true.
Proof.
  unfold older_sst. rewrite !orb_true_iff, !andb_true_iff, !Z.ltb_lt, !Z.eqb_eq, !Z.leb_le. lia.
Qed.

Lemma sst_insert_sorted s l :
  StronglySorted (fun a b => older_sst a b = true) l ->
  StronglySorted (fun a b => older_sst a b = true) (sst_insert s l).
Proof.
  induction 1 as [|a l Hs IH Ha]; [by repeat constructor|]. cbn. rewrite List.Forall_forall in Ha.
  destruct (older_sst s a) eqn:Es.
  - constructor; [constructor; [done|by apply List.Forall_forall]|].
    apply List.Forall_forall. intros b [<-|Hb]; [done|]. by eapply older_sst_trans; [|apply Ha].
  - constructor; [done|]. apply List.Forall_forall. intros b Hb.
    apply (Permutation_in _ (Permutation_sym (sst_insert_perm s l))) in Hb as [<-|Hb]; [|by apply Ha].
    by apply older_sst_total.
Qed.

Lemma sort_ssts_sorted l : StronglySorted (fun a b => older_sst a b = true) (sort_ssts l).
Proof. induction l as [|s l IH]; [constructor|]. by apply sst_insert_sorted. Qed.

Lemma opened_sorted ss tabs :
  Forall2 opened ss tabs -> StronglySorted (fun a b => older_sst a b = true) ss ->
  StronglySorted older_table tabs.
Proof.
  induction 1 as [|s a ss tabs (H1 & H2 & _) Hss IH]; intros Hs; [constructor|].
  apply StronglySorted_inv in Hs as [Hs Ha]. constructor; [by apply IH|].
  clear IH Hs. induction Hss as [|s' a' ss tabs (H1' & H2' & _) _ IH]; [constructor|].
  inversion Ha as [|? ? Ho Ha']; subst. constructor; [|by apply IH].
  unfold older_sst in Ho. unfold older_table.
  rewrite orb_true_iff, andb_true_iff, Z.ltb_lt, Z.eqb_eq, Z.leb_le in Ho. lia.
Qed.

(** The SSTs a recovered tree has, oldest first. *)
Lemma open_order ss tabs :
  Forall2 opened ss tabs ->
  exists tabs', Permutation tabs tabs' /\ StronglySorted older_table tabs' /\
    Forall2 sst_holds (map (fun s => (s.1.1, s.2)) (sort_ssts ss)) (map snd tabs').
Proof.
  intros H. destruct (Permutation_Forall2 (sort_ssts_perm ss) H) as (tabs' & Hp & Ho).
  exists tabs'. split; [done|]. split; [eapply opened_sorted; [exact Ho|apply sort_ssts_sorted]|].
  clear Hp. generalize dependent (sort_ssts ss). intros l Ho.
  induction Ho as [|s a l l' (H1 & _ & H2) _ IH]; [constructor|].
  cbn [map]. constructor; [|done]. by rewrite H1.
Qed.

Lemma wal_holds_replay f ts :
  Forall txn_ok ts -> wal_holds f ts ->
  exists n, wal_replay_with_valid_len f = Ok (log_records ts, n) /\ wal_file_is_legacy f = false /\
    wal_open (match f with
              | Some data => if negb false && (n <? len data) then Some (wal_truncate_to data n) else Some data
              | None => None end) = wal_after ts.
Proof.
  intros Hts [[-> [->| ->]]|(tail & -> & Ht)].
  - by exists 0.
  - by exists 0.
  - exists (len (wal_after ts)).
    assert (Er : wal_replay_with_valid_len (Some (wal_after ts ++ tail)) = Ok (log_records ts, len (wal_after ts))).
    { destruct Ht as [->|(t & s & Ht & He & Hs)]; [rewrite app_nil_r; by apply wal_after_replay|].
      by eapply wal_after_torn_replay. }
    split; [done|]. pose proof (wal_after_bytes ts Hts) as Hb.
    assert (Hc : wal_truncate_to (wal_after ts ++ tail) (len (wal_after ts)) = wal_after ts).
    { rewrite wal_truncate_take by (rewrite len_app; pose proof (len_nonneg tail);
        pose proof (len_nonneg (wal_after ts)); lia). apply take_mid. unfold len. lia. }
    assert (Ho : forall x, wal_open (Some (wal_after ts ++ x)) = wal_after ts ++ x).
    { intros x. by rewrite Hb. }
    split.
    + unfold wal_file_is_legacy. rewrite Hb, <- app_assoc. rewrite len_app.
      pose proof (len_nonneg (log_bytes ts ++ tail)).
      destruct (Z.leb_spec 8 (len WAL_MAGIC + len (log_bytes ts ++ tail))) as [|Hx]; [|change (len WAL_MAGIC) with 8 in Hx; lia].
      rewrite take_mid by done. done.
    + cbn [negb andb]. rewrite len_app.
      destruct (Z.ltb_spec (len (wal_after ts)) (len (wal_after ts) + len tail)) as [_|Hx].
      * rewrite Hc, <- (app_nil_r (wal_after ts)) at 1. by rewrite Ho, app_nil_r.
      * rewrite Ho. destruct tail; [by rewrite app_nil_r|]. rewrite len_cons in Hx.
        pose proof (len_nonneg tail). lia.
Qed.

Lemma fold_max {A} (f : A -> Z) l m :
  let x := fold_left (fun m a => Z.max m (f a)) l m in
  m <= x /\ (forall a, In a l -> f a <= x) /\ (x = m \/ exists a, In a l /\ f a = x).
Proof.
  revert m. induction l as [|a l IH]; intros m; cbn [fold_left]; [split_and!; [lia|done|by left]|].
  destruct (IH (Z.max m (f a))) as (H1 & H2 & H3). split_and!; [lia| |].
  - intros b [<-|Hb]; [lia|by apply H2].
  - destruct H3 as [H3|(b & Hb & H3)]; [|right; exists b; split; [by right|done]].
    destruct (Z.max_spec m (f a)) as [[_ Hm]|[_ Hm]]; rewrite Hm in *; [|by left].
    right. exists a. split; [by left|done].
Qed.

Lemma in_insert_all (es m : list entry) e :
  bsorted m -> In e (bm_insert_all es m) -> In e es \/ In e m.
Proof.
  unfold bm_insert_all. revert m. induction es as [|[k x] es IH]; intros m Hm He; [by right|].
  cbn [fold_left fst snd] in He. apply IH in He as [He|He]; [left; by right| |by apply bsorted_insert].
  destruct e as [k' x']. apply in_bm_insert in He as [[-> ->]|[_ He]]; [left; by left|by right|done].
Qed.

(** Every entry of the log is a write of a transaction, at its version. *)
Lemma in_log_entries ts e :
  In e (log_entries ts) -> exists t w, In t ts /\ In w t.1 /\ e = (InternalKey.new w.1 t.2, w.2).
Proof.
  intros He. apply in_insert_all in He as [He|[]]; [|apply bsorted_nil].
  apply in_concat in He as (l & Hl & He). apply in_map_iff in Hl as (t & <- & Ht).
  apply in_map_iff in He as (w & <- & Hw). by exists t, w.
Qed.

Lemma log_record_of t w ts : In t ts -> In w t.1 -> In (txn_record t.2 w) (log_records ts).
Proof.
  intros Ht Hw. apply in_concat. exists (txn_records t). split; [by apply in_map|].
  unfold txn_records. by apply in_map.
Qed.

Lemma txn_record_version v w : wr_version (txn_record v w) = v.
Proof. unfold txn_record. by destruct (snd w). Qed.

(** The version the manager restarts from is at least every stored version. *)
Lemma recovered_version ts tabs ss :
  Forall txn_ok ts -> wf_entries (concat (map snd tabs)) -> Forall2 opened ss tabs ->
  let mv := fold_left (fun m (s : Z * Z * SstReader) => Z.max m s.1.2) ss 0 in
  let mv := fold_left (fun m r => Z.max m (wr_version r)) (log_records ts) mv in
  forall e, In e (store_entries ts tabs) -> ever e <= mv.
Proof.
  intros Hts Hw Hss mv0 mv e He.
  destruct (fold_max wr_version (log_records ts) mv0) as (H1 & H2 & _).
  destruct (fold_max (fun s : Z * Z * SstReader => s.1.2) ss 0) as (_ & H3 & _).
  apply in_app_or in He as [He|He].
  - apply in_log_entries in He as (t & w & Ht & Hwt & ->).
    pose proof (proj1 (List.Forall_forall _ _) Hts t Ht) as (_ & Hv & _).
    rewrite ever_new by done. rewrite <- (txn_record_version t.2 w). apply H2. by apply log_record_of.
  - apply in_concat in He as (es & Hes & He). apply in_map_iff in Hes as (a & <- & Ha).
    assert (Hx : exists s, In s ss /\ s.1.2 = max_version_of a.2).
    { clear -Hss Ha. induction Hss as [|s b ss tabs (_ & H & _) _ IH]; [done|].
      destruct Ha as [->|Ha]; [exists s; split; [by left|done]|].
      destruct (IH Ha) as (s' & ? & ?). exists s'. split; [by right|done]. }
    destruct Hx as (s & Hs & Es). specialize (H3 s Hs). cbn beta in H3. rewrite Es in H3.
    assert (Hwa : wf_entries a.2).
    { eapply wf_entries_incl; [|exact Hw]. intros x Hx. apply in_concat. exists a.2.
      split; [by apply in_map|done]. }
    destruct (max_version_of_spec a.2 Hwa) as (_ & Hm & _). specialize (Hm e He).
    fold mv0 in H3. fold mv in H1. lia.
Qed.

Lemma store_wf ts tabs : store_ok ts tabs -> wf_entries (concat (map snd tabs)).
Proof. intros H. by apply (proj1 (wf_entries_app _ _) (so_wf _ _ H)). Qed.

(** A tree in step with its directory: the active memtable is the log, and
    every SST of the directory is open. *)
Record synced (t : Tree) (d : Disk) (ts : list txn) (tabs : list table) (ess : list (list entry)) : Prop := {
  sy_disk : disk_repr d ts tabs;
  sy_wal : d_wal d = Some (wal_after ts);
  sy_repr : tree_repr t ess;
  sy_memtable : mem_iter (active_memtable t) = log_entries ts;
  sy_immutables : immutable_memtables t = [];
  sy_tables : Permutation (map snd tabs) ess;
  sy_next_id : forall a, In a tabs -> a.1 < next_sst_id t;
  sy_file_ids : forall s, In s (sst_files t) -> s.1 < next_sst_id t;
  sy_id_range : 0 <= next_sst_id t < u64_max;
}.

Lemma in_concat_perm (l l' : list (list entry)) e : Permutation l l' -> In e (concat l) -> In e (concat l').
Proof.
  intros Hp He. apply in_concat in He as (x & Hx & He). apply in_concat. exists x.
  split; [by eapply Permutation_in|done].
Qed.

Lemma recovered_layers_ok ts tabs tabs' :
  store_ok ts tabs -> Permutation tabs tabs' -> StronglySorted older_table tabs' ->
  layers_ok (log_entries ts :: rev (map snd tabs')).
Proof.
  intros Hk Hp Hs.
  assert (Hin : forall e, In e (concat (log_entries ts :: rev (map snd tabs'))) -> In e (store_entries ts tabs)).
  { intros e. cbn [concat]. unfold store_entries. rewrite !in_app_iff. intros [?|He]; [by left|right].
    eapply in_concat_perm; [|exact He]. rewrite <- Permutation_rev. symmetry. by apply Permutation_map. }
  split; [eapply wf_entries_incl; [exact Hin|apply Hk]| |by eapply sorted_tables_ordered].
  intros k m m' H1 H2. eapply (so_functional _ _ Hk); by apply Hin.
Qed.

Lemma opened_ids ss tabs a :
  Forall2 opened ss tabs -> In a tabs -> exists s, In s ss /\ s.1.1 = a.1.
Proof.
  induction 1 as [|s b ss tabs (H & _) _ IH]; [done|]. intros [->|Ha]; [exists s; split; [by left|done]|].
  destruct (IH Ha) as (s' & ? & ?). exists s'. split; [by right|done].
Qed.

Lemma opened_id_range ss tabs :
  Forall2 opened ss tabs -> Forall (fun a => 0 <= a.1 < u64_max - 1) tabs ->
  forall s, In s ss -> 0 <= s.1.1 < u64_max - 1.
Proof.
  induction 1 as [|s b ss tabs (H & _) _ IH]; [done|]. intros Hr. inversion Hr; subst.
  intros s' [<-|Hs]; [by rewrite H|by apply IH].
Qed.

(** The ids of the opened SSTs are below the next one. *)
Lemma next_id_above ss tabs :
  Forall2 opened ss tabs -> Forall (fun a => 0 <= a.1 < u64_max - 1) tabs ->
  let next := as_u64 (fold_left (fun m (s : Z * Z * SstReader) => Z.max m s.1.1) ss 0 + 1) in
  (forall s, In s ss -> s.1.1 < next) /\ 0 <= next < u64_max.
Proof.
  intros Hss Hr next. pose proof (opened_id_range ss tabs Hss Hr) as Hs.
  destruct (fold_max (fun s : Z * Z * SstReader => s.1.1) ss 0) as (H1 & H2 & H3). subst next.
  assert (Hb : fold_left (fun m (s : Z * Z * SstReader) => Z.max m s.1.1) ss 0 < u64_max - 1).
  { destruct H3 as [->|(s' & Hs' & <-)]; [by vm_compute|]. by apply Hs. }
  rewrite as_u64_small by (unfold is_u64, u64_max in *; lia).
  split; [|lia]. intros s Hin. specialize (H2 s Hin). cbn beta in H2. lia.
Qed.

Lemma lsm_open_recovers cfg d ts tabs :
  disk_repr d ts tabs ->
  exists (t : Tree) d' ess, lsm_open cfg d = Ok (t, d') /\ synced t d' ts tabs ess /\
    (forall e, In e (store_entries ts tabs) -> ever e <= current_version (txn_manager t)) /\
    d' = {| d_wal := Some (wal_after ts); d_ssts := d_ssts d; d_tmps := [] |}.
Proof.
  intros [Hf Hw Hts Hk]. destruct (open_ssts_all _ _ Hf) as (ss & Es & Hss).
  destruct (open_order ss tabs Hss) as (tabs' & Hp & Hs & Hh).
  destruct (wal_holds_replay _ _ Hts Hw) as (n & Er & Hl & Ho).
  destruct (next_id_above ss tabs Hss (so_id_range _ _ Hk)) as [Hid Hrange].
  unfold lsm_open. cbn [d_wal d_ssts]. rewrite Es. cbn [mbind res_bind]. rewrite Hl, Er. cbn [mbind res_bind].
  eexists _, _, (map snd tabs'). split; [done|]. rewrite Ho.
  split; [|split; [apply (recovered_version ts tabs ss Hts (store_wf _ _ Hk) Hss)|done]].
  split; cbn [active_memtable immutable_memtables next_sst_id sst_files].
  - split; [done|right; exists []; by rewrite app_nil_r; split; [|left]|done..].
  - done.
  - split; [exact Hh|]. unfold layers. cbn [active_memtable immutable_memtables rev map app].
    rewrite replay_log_entries. by eapply recovered_layers_ok.
  - apply replay_log_entries.
  - done.
  - by apply Permutation_map.
  - intros a Ha. destruct (opened_ids ss tabs a Hss Ha) as (s & Hin & <-). by apply Hid.
  - intros s Hin. apply in_map_iff in Hin as (s' & <- & Hin). apply Hid.
    by eapply Permutation_in; [symmetry; apply sort_ssts_perm|].
  - exact Hrange.
Qed.

Lemma synced_layers t d ts tabs ess : synced t d ts tabs ess -> layers t ess = log_entries ts :: rev ess.
Proof. intros H. unfold layers. by rewrite (sy_memtable _ _ _ _ _ H), (sy_immutables _ _ _ _ _ H). Qed.

Lemma synced_contents t d ts tabs ess k v :
  synced t d ts tabs ess -> visible (contents t ess) k v = visible (store_entries ts tabs) k v.
Proof.
  intros H. symmetry. apply visible_ext; [apply (dr_ok _ _ _ (sy_disk _ _ _ _ _ H))..|]. intros e _. unfold contents.
  rewrite (synced_layers _ _ _ _ _ H). cbn [concat]. unfold store_entries. rewrite !in_app_iff, <- in_concat_rev.
  pose proof (sy_tables _ _ _ _ _ H).
  split; (intros [?|?]; [by left|right]); by eapply in_concat_perm.
Qed.

(** A directory reopens to the readable contents [es]. *)
Definition reopens_to (cfg : LsmConfig) (d : Disk) (P : Z -> Prop) (es : list entry) : Prop :=
  exists (t : Tree) d' ess, lsm_open cfg d = Ok (t, d') /\ tree_repr t ess /\
    forall k v, P v -> visible (contents t ess) k v = visible es k v.

Lemma disk_reopens cfg d ts tabs P es :
  disk_repr d ts tabs ->
  (forall k v, P v -> visible (store_entries ts tabs) k v = visible es k v) ->
  reopens_to cfg d P es.
Proof.
  intros Hd Hv. destruct (lsm_open_recovers cfg d ts tabs Hd) as (t & d' & ess & Eo & Hr & _).
  exists t, d', ess. split; [done|]. split; [apply Hr|]. intros k v Hp.
  rewrite (synced_contents _ _ _ _ _ k v Hr). by apply Hv.
Qed.

(** C18: recovery.  Opening a directory whose SSTs are readable and whose WAL
    holds the batches of [ts], possibly followed by a torn batch, gives a tree
    in step with the directory: its memtable is exactly the replay of [ts], its
    SSTs are in age order and its next file id is above theirs.  It reads every
    key at every version as the union of the log and the SSTs does, its version
    counter is at least every stored version, the torn batch is cut from the
    file and the temporary files are removed. *)
Theorem recovery_restores cfg d ts tabs :
  disk_repr d ts tabs ->
  exists (t : Tree) d' ess, lsm_open cfg d = Ok (t, d') /\ synced t d' ts tabs ess /\
    (forall k v, visible (contents t ess) k v = visible (store_entries ts tabs) k v) /\
    (forall e, In e (store_entries ts tabs) -> ever e <= current_version (txn_manager t)) /\
    d' = {| d_wal := Some (wal_after ts); d_ssts := d_ssts d; d_tmps := [] |}.
Proof.
  intros Hd. destruct (lsm_open_recovers cfg d ts tabs Hd) as (t & d' & ess & Eo & Hr & Hv & Hd').
  exists t, d', ess. split; [done|]. split; [done|]. split; [|done]. intros k v. by apply synced_contents with (1 := Hr).
Qed.

(** ** Flush *)

(** The log is above the tables: its newest version is at least theirs. *)
Definition log_newest (ts : list txn) (tabs : list table) : Prop :=
  forall a, In a tabs -> max_version_of a.2 <= max_version_of (log_entries ts).

Lemma age_ordered_refl l : age_ordered l l.
Proof. intros e He. by left. Qed.

Lemma age_ordered_nil l : age_ordered [] l.
Proof. intros e He. right. by intros ? []. Qed.

(** The flushed log as a new table. *)
Lemma store_ok_flushed ts tabs id ts' :
  store_ok ts tabs -> log_newest ts tabs -> (forall a, In a tabs -> a.1 < id) -> 0 <= id < u64_max - 1 ->
  (ts' = ts \/ ts' = []) -> store_ok ts' (tabs ++ [(id, log_entries ts)]).
Proof.
  intros Hk Hn Hid Hr Hts'.
  assert (Hin : forall e, In e (store_entries ts' (tabs ++ [(id, log_entries ts)])) -> In e (store_entries ts tabs)).
  { intros e. unfold store_entries. rewrite map_app, concat_app. cbn [map concat snd]. rewrite app_nil_r, !in_app_iff.
    destruct Hts' as [->| ->]; [tauto|]. intros [[]|[?|?]]; tauto. }
  split.
  - eapply wf_entries_incl; [exact Hin|apply Hk].
  - intros k m m' H1 H2. eapply (so_functional _ _ Hk); by apply Hin.
  - rewrite map_app. apply NoDup_app. split; [apply Hk|]. split; [|apply NoDup_singleton].
    intros x Hx. apply list_elem_of_In, in_map_iff in Hx as (a & <- & Ha). specialize (Hid a Ha).
    cbn. rewrite list_elem_of_singleton. lia.
  - apply Forall_app. split; [apply Hk|constructor; [exact Hr|constructor]].
  - intros a b Ha Hb Hne Ho. apply in_app_or in Ha as [Ha|[<-|[]]]; apply in_app_or in Hb as [Hb|[<-|[]]].
    + by apply (so_order _ _ Hk).
    + by apply (so_log _ _ Hk).
    + exfalso. specialize (Hn b Hb). specialize (Hid b Hb). destruct Ho as [?|[? ?]]; cbn [fst snd] in *; lia.
    + done.
  - intros a Ha. destruct Hts' as [->| ->]; [|apply age_ordered_nil].
    apply in_app_or in Ha as [Ha|[<-|[]]]; [by apply (so_log _ _ Hk)|apply age_ordered_refl].
Qed.

Lemma flushed_visible ts tabs id ts' k v :
  store_ok ts tabs -> (ts' = ts \/ ts' = []) ->
  visible (store_entries ts' (tabs ++ [(id, log_entries ts)])) k v = visible (store_entries ts tabs) k v.
Proof.
  intros Hk Hts'. symmetry. apply visible_ext; [apply Hk..|]. intros e _. unfold store_entries.
  rewrite map_app, concat_app. cbn [map concat snd]. rewrite app_nil_r, !in_app_iff.
  destruct Hts' as [->| ->]; [tauto|]. cbn. tauto.
Qed.

Lemma wal_holds_fresh : wal_holds (Some wal_create_fresh) [].
Proof. right. exists []. split; [by rewrite app_nil_r|by left]. Qed.

Lemma flush_disks_repr d ts tabs id file d' :
  disk_repr d ts tabs -> log_newest ts tabs -> (forall a, In a tabs -> a.1 < id) -> 0 <= id < u64_max - 1 ->
  file_holds (id, file) (id, log_entries ts) -> In d' (flush_crash_disks d id file) ->
  disk_repr d' ts tabs \/ exists ts', (ts' = ts \/ ts' = []) /\ disk_repr d' ts' (tabs ++ [(id, log_entries ts)]).
Proof.
  intros [Hf Hw Hts Hk] Hn Hid Hr Hfile [<-|[<-|[<-|[<-|[]]]]].
  - by left.
  - by left.
  - right. exists ts. split; [by left|]. split; [|done|done|].
    + cbn. apply Forall2_app; [done|constructor; [done|constructor]].
    + apply store_ok_flushed; auto.
  - right. exists []. split; [by right|]. split; [|exact wal_holds_fresh|constructor|].
    + cbn. apply Forall2_app; [done|constructor; [done|constructor]].
    + apply store_ok_flushed; auto.
Qed.

Lemma flush_layers ts ess :
  layers_ok (log_entries ts :: rev ess) -> layers_ok ([] :: rev (ess ++ [log_entries ts])).
Proof.
  intros [Hw Hf Ho]. rewrite rev_app_distr. cbn [rev app]. split; [done..|].
  constructor; [|done]. apply List.Forall_forall. intros l _. apply age_ordered_nil.
Qed.

(** What a flush of a synced tree does. *)
Lemma flush_locked_run t d ts tabs ess :
  synced t d ts tabs ess -> log_entries ts <> [] -> Forall entry_ok (log_entries ts) ->
  sst_fits (zone_extractor (config t)) (block_compression (config t)) (log_entries ts) ->
  exists file reader, file_holds (next_sst_id t, file) (next_sst_id t, log_entries ts) /\
    sst_holds (next_sst_id t, reader) (log_entries ts) /\
    flush_locked FlushOk t d =
      (set_memtables (set_ssts (take_sst_id t) (sst_files t ++ [(next_sst_id t, reader)])) mem_new [],
       set_wal (published d (next_sst_id t) file) (Some wal_create_fresh), Ok tt).
Proof.
  intros Hy Hne Hok Hfit. pose proof (sy_memtable _ _ _ _ _ Hy) as Hm.
  assert (Hwf : wf_entries (log_entries ts)).
  { rewrite <- Hm. eapply mem_layer_wf; [apply Hy|apply active_layer]. }
  destruct (sst_write_open _ _ _ EL (log_entries_sorted ts) Hwf Hok Hfit)
    as (file & meta & r & bs & _ & _ & Ew & _ & Eo & Hr & Hlo & Hc & _).
  exists file, r. split; [split; [done|exists r; split; [done|exists bs; eauto]]|]. split; [exists bs; eauto|].
  unfold flush_locked, mem_is_empty. fold (mem_iter (active_memtable t)). rewrite Hm.
  destruct (log_entries ts) as [|e es] eqn:El; [done|]. cbn [config take_sst_id set_memtables].
  rewrite Ew, Eo. cbn [set_ssts set_memtables immutable_memtables active_memtable].
  rewrite (sy_immutables _ _ _ _ _ Hy). done.
Qed.

(** C16: flush is crash safe.  Flushing a tree in step with its directory
    succeeds; afterwards the tree is in step with the new directory (an empty
    log and one more SST) and reads the same; and reopening the directory at
    any crash boundary of the flush, before or after the SST is published or
    the WAL is recreated, reads every key at every version as before. *)
Theorem flush_crash_safe t d ts tabs ess cfg :
  synced t d ts tabs ess -> log_newest ts tabs -> log_entries ts <> [] -> Forall entry_ok (log_entries ts) ->
  sst_fits (zone_extractor (config t)) (block_compression (config t)) (log_entries ts) ->
  next_sst_id t + 1 < u64_max ->
  exists t' d' file, flush_locked FlushOk t d = (t', d', Ok tt) /\
    synced t' d' [] (tabs ++ [(next_sst_id t, log_entries ts)]) (ess ++ [log_entries ts]) /\
    (forall k v, visible (contents t' (ess ++ [log_entries ts])) k v = visible (contents t ess) k v) /\
    last (flush_crash_disks d (next_sst_id t) file) = Some d' /\
    forall d'', In d'' (flush_crash_disks d (next_sst_id t) file) ->
      reopens_to cfg d'' (fun _ => True) (contents t ess).
Proof.
  intros Hy Hn Hne Hok Hfit Hid.
  destruct (flush_locked_run t d ts tabs ess Hy Hne Hok Hfit) as (file & r & Hfile & Hr & Ef).
  set (id := next_sst_id t) in *. pose proof (sy_disk _ _ _ _ _ Hy) as Hd. pose proof (dr_ok _ _ _ Hd) as Hk.
  assert (Hrange : 0 <= id < u64_max - 1) by (pose proof (sy_id_range _ _ _ _ _ Hy); lia).
  assert (Hnext : as_u64 (id + 1) = id + 1) by (apply as_u64_small; unfold is_u64, u64_max in *; lia).
  eexists _, _, file. split; [exact Ef|].
  match type of Ef with _ = (?t', _, _) => assert (Hy' : synced t'
    (set_wal (published d id file) (Some wal_create_fresh)) [] (tabs ++ [(id, log_entries ts)]) (ess ++ [log_entries ts])) end.
  { split.
    - split; [|exact wal_holds_fresh|constructor|by apply store_ok_flushed; auto; apply Hy].
      cbn. apply Forall2_app; [apply Hd|constructor; [done|constructor]].
    - done.
    - split; [apply Forall2_app; [apply Hy|constructor; [done|constructor]]|].
      unfold layers. cbn [active_memtable immutable_memtables set_memtables set_ssts rev map app]. rewrite mem_iter_new.
      apply flush_layers. rewrite <- (synced_layers _ _ _ _ _ Hy). apply Hy.
    - apply mem_iter_new.
    - done.
    - rewrite map_app. apply Permutation_app; [apply Hy|done].
    - cbn [next_sst_id set_memtables set_ssts take_sst_id]. fold id. rewrite Hnext.
      intros a Ha. apply in_app_or in Ha as [Ha|[<-|[]]]; [apply (sy_next_id _ _ _ _ _ Hy) in Ha; fold id in Ha; lia|cbn; lia].
    - cbn [next_sst_id set_memtables set_ssts take_sst_id sst_files]. fold id. rewrite Hnext.
      intros a Ha. apply in_app_or in Ha as [Ha|[<-|[]]]; [apply (sy_file_ids _ _ _ _ _ Hy) in Ha; fold id in Ha; lia|cbn; lia].
    - cbn [next_sst_id set_memtables set_ssts take_sst_id]. fold id. rewrite Hnext. lia. }
  split; [exact Hy'|]. split; [|split; [done|]].
  - intros k v. rewrite (synced_contents _ _ _ _ _ k v Hy'), (synced_contents _ _ _ _ _ k v Hy).
    by apply flushed_visible; [|right].
  - intros d'' Hd''. destruct (flush_disks_repr d ts tabs id file d'' Hd Hn (sy_next_id _ _ _ _ _ Hy) Hrange Hfile Hd'')
      as [Hd2|(ts' & Hts' & Hd2)]; eapply disk_reopens; try exact Hd2; intros k v _;
      rewrite (synced_contents _ _ _ _ _ k v Hy); [done|by apply flushed_visible].
Qed.

(** ** Compaction *)

(** The merged table is newer than its inputs: what it dropped is below what
    it kept. *)
Lemma merged_age t ess :
  wf_entries (concat ess) -> functional (concat ess) -> prefix_free (concat ess) ->
  forall es, (forall e, In e es -> In e (concat ess)) -> age_ordered (merged_entries t ess) es.
Proof.
  intros Hw Hf Hp es Hes e' He'. unfold merged_entries.
  set (ms := min_active_snapshot _). set (l := sort_by_key (concat ess)).
  assert (Hin : forall e, In e l <-> In e (concat ess)) by (intros e; apply in_sort_by_key).
  assert (Hwl : wf_entries l) by (eapply wf_entries_incl; [|exact Hw]; intros e; apply Hin).
  assert (Hfl : functional l) by (intros k m m' H1 H2; eapply Hf; by apply Hin).
  assert (Hpl : prefix_free l) by (eapply prefix_free_incl; [|exact Hp]; intros e; apply Hin).
  assert (Hsl : ksorted l) by apply ksorted_sort_by_key.
  apply Hes, Hin in He'.
  destruct (compact_keep_covers ms None false l e' Hsl Hwl He') as [H|[(e2 & H2 & Hk2 & Hv2)|[H _]]]; [by left| |done].
  destruct (decide (ever e' = ever e2)) as [Heq|Hne].
  - left. rewrite (same_version_entry l e' e2); auto. by eapply compact_keep_incl.
  - right. intros e He Hk. destruct (Z.leb_spec (ever e) ms) as [Hle|Hgt]; [|lia].
    rewrite (compact_keep_one_floor ms None false l e e2); auto; [lia|congruence|lia].
Qed.

(** ... and its maximum version is theirs. *)
Lemma merged_max t ess es :
  wf_entries (concat ess) -> (forall e, In e es -> In e (concat ess)) -> wf_entries (merged_entries t ess) ->
  max_version_of es <= max_version_of (merged_entries t ess).
Proof.
  intros Hw Hes Hwm. destruct (max_version_of_spec _ Hwm) as (H0 & Hm & _).
  assert (Hwe : wf_entries es) by by eapply wf_entries_incl.
  destruct (max_version_of_spec es Hwe) as (_ & _ & [->|(e & He & <-)]); [done|].
  set (l := sort_by_key (concat ess)).
  assert (Hin : forall e, In e l <-> In e (concat ess)) by (intros x; apply in_sort_by_key).
  assert (Hwl : wf_entries l) by (eapply wf_entries_incl; [|exact Hw]; intros x; apply Hin).
  apply Hes, Hin in He.
  destruct (compact_keep_covers (min_active_snapshot (txn_manager t)) None false l e
    (ksorted_sort_by_key _) Hwl He) as [H|[(e2 & H2 & _ & Hv2)|[H _]]]; [by apply Hm| |done].
  pose proof (Hm e2 H2). lia.
Qed.

Definition keep_tables (removed : list Z) (tabs : list table) : list table :=
  List.filter (fun a => negb (existsb (Z.eqb a.1) removed)) tabs.

Lemma removed_files removed files tabs :
  Forall2 file_holds files tabs ->
  Forall2 file_holds (List.filter (fun f => negb (existsb (Z.eqb f.1) removed)) files) (keep_tables removed tabs).
Proof.
  induction 1 as [|f a files tabs [Hid Hf] _ IH]; [constructor|]. cbn. rewrite Hid.
  destruct (negb _); [|done]. constructor; [by split|done].
Qed.

Lemma keep_tables_nodup removed tabs : NoDup (map fst tabs) -> NoDup (map fst (keep_tables removed tabs)).
Proof.
  induction tabs as [|a tabs IH]; intros Hn; [constructor|].
  cbn in Hn. inversion Hn as [|? ? Hx Hn']; subst. cbn. destruct (negb _); [|by apply IH]. cbn.
  constructor; [|by apply IH]. rewrite list_elem_of_In in *. intros Hy. apply Hx.
  apply in_map_iff in Hy as (b & <- & [Hb _]%filter_In). by apply in_map.
Qed.

Lemma in_tables_concat (a : table) (tabs : list table) ess e :
  Permutation (map snd tabs) ess -> In a tabs -> In e a.2 -> In e (concat ess).
Proof.
  intros Hp Ha He. eapply in_concat_perm; [exact Hp|]. apply in_concat. exists a.2.
  split; [by apply in_map|done].
Qed.

(** The merged table beside some of its inputs. *)
Lemma store_ok_merged t ts tabs ess id removed :
  store_ok ts tabs -> Permutation (map snd tabs) ess -> (forall a, In a tabs -> a.1 < id) ->
  0 <= id < u64_max - 1 -> prefix_free (concat ess) ->
  store_ok ts (keep_tables removed tabs ++ [(id, merged_entries t ess)]).
Proof.
  intros Hk Hp Hid Hr Hpf. set (M := merged_entries t ess).
  assert (HM : forall e, In e M -> In e (concat ess)).
  { intros e He. by apply in_sort_by_key, (compact_keep_incl _ _ _ _ _ He). }
  assert (Hback : forall e, In e (concat ess) -> In e (concat (map snd tabs))).
  { intros e. by eapply in_concat_perm. }
  assert (Hsub : forall a, In a (keep_tables removed tabs) -> In a tabs) by (intros a [? _]%filter_In; done).
  assert (Hin : forall e, In e (store_entries ts (keep_tables removed tabs ++ [(id, M)])) -> In e (store_entries ts tabs)).
  { intros e. unfold store_entries. rewrite map_app, concat_app. cbn [map concat snd].
    rewrite app_nil_r, !in_app_iff. intros [?|[He|He]]; [by left|right|right; by apply Hback, HM].
    apply in_concat in He as (es & Hes & He). apply in_map_iff in Hes as (a & <- & Ha).
    apply in_concat. exists a.2. split; [apply in_map, Hsub, Ha|done]. }
  assert (Hw : wf_entries (concat ess)).
  { eapply wf_entries_incl; [exact Hback|]. by eapply store_wf. }
  assert (Hf : functional (concat ess)).
  { intros k m m' H1 H2. eapply (so_functional _ _ Hk); apply in_or_app; right; by apply Hback. }
  split.
  - eapply wf_entries_incl; [exact Hin|apply Hk].
  - intros k m m' H1 H2. eapply (so_functional _ _ Hk); by apply Hin.
  - rewrite map_app. apply NoDup_app. split_and!; [|intros x Hx|apply NoDup_singleton].
    + apply keep_tables_nodup, Hk.
    + apply list_elem_of_In, in_map_iff in Hx as (a & <- & Ha). specialize (Hid a (Hsub a Ha)).
      cbn. rewrite list_elem_of_singleton. lia.
  - apply Forall_app. split; [|constructor; [exact Hr|constructor]]. apply List.Forall_forall. intros a Ha.
    apply (proj1 (List.Forall_forall _ _) (so_id_range _ _ Hk)). by apply Hsub.
  - intros a b Ha Hb Hne Ho. apply in_app_or in Ha as [Ha|[<-|[]]]; apply in_app_or in Hb as [Hb|[<-|[]]]; [..|done].
    + by apply (so_order _ _ Hk); auto.
    + apply merged_age; auto. intros e. by apply in_tables_concat with (1 := Hp), Hsub.
    + exfalso. pose proof (Hid b (Hsub b Hb)).
      assert (max_version_of b.2 <= max_version_of M).
      { apply merged_max; auto; [intros e; by apply in_tables_concat with (1 := Hp), Hsub|].
        by eapply wf_entries_incl. }
      destruct Ho as [?|[? ?]]; cbn [fst snd] in *; lia.
  - intros a Ha. apply in_app_or in Ha as [Ha|[<-|[]]]; [by apply (so_log _ _ Hk), Hsub|].
    intros e He. apply HM, Hback, in_concat in He as (es & Hes & He). apply in_map_iff in Hes as (a & <- & Ha).
    by apply (so_log _ _ Hk a Ha).
Qed.

(** Between the merged table and all of its inputs, reads are the same. *)
Lemma merged_visible t ts tabs ess id removed k v :
  store_ok ts tabs -> Permutation (map snd tabs) ess ->
  single_above (min_active_snapshot (txn_manager t)) (concat ess) ->
  preserved (min_active_snapshot (txn_manager t)) v (concat ess) ->
  visible (store_entries ts (keep_tables removed tabs ++ [(id, merged_entries t ess)])) k v
  = visible (store_entries ts tabs) k v.
Proof.
  intros Hk Hp Hn Hv.
  assert (Hback : forall e, In e (concat ess) -> In e (concat (map snd tabs))) by (intros e; by eapply in_concat_perm).
  assert (Hw : wf_entries (concat ess)) by (eapply wf_entries_incl; [exact Hback|by eapply store_wf]).
  assert (Hf : functional (concat ess)).
  { intros x m m' H1 H2. eapply (so_functional _ _ Hk); apply in_or_app; right; by apply Hback. }
  destruct (merged_entries_facts t ess Hw Hf Hn) as (_ & _ & Hmi & Hb).
  unfold store_entries, visible. f_equal. apply best_app_cong.
  apply best_sandwich; [by eapply store_wf| |..].
  - intros x m m' H1 H2. eapply (so_functional _ _ Hk); apply in_or_app; right; eauto.
  - intros e. rewrite map_app, concat_app. cbn [map concat snd]. rewrite app_nil_r, in_app_iff.
    intros [He|He]; [|by apply Hback, Hmi]. apply in_concat in He as (es & Hes & He).
    apply in_map_iff in Hes as (a & <- & [Ha _]%filter_In). apply in_concat. exists a.2. split; [by apply in_map|done].
  - intros e He Hke Hve. destruct (best (concat ess) k v) as [[w m]|] eqn:Eb.
    + rewrite <- (Hb k v Hv) in Eb. pose proof Eb as Eb'. rewrite (Hb k v Hv) in Eb'.
      apply best_some in Eb as ((e' & He' & Hk' & Hw' & _) & Hwv & _).
      apply best_some in Eb' as (_ & _ & Hmax).
      exists e'. rewrite map_app, concat_app. cbn [map concat snd]. rewrite app_nil_r, in_app_iff.
      split; [by right|]. split; [done|]. rewrite Hw'. split; [|done]. apply Hmax; [|done..].
      by eapply in_concat_perm.
    + exfalso. eapply best_none in Eb; [|by eapply in_concat_perm|exact Hke]. lia.
Qed.

Lemma merged_disk_repr t d ts tabs ess file removed :
  synced t d ts tabs ess -> next_sst_id t + 1 < u64_max -> prefix_free (concat ess) ->
  file_holds (next_sst_id t, file) (next_sst_id t, merged_entries t ess) -> ~ In (next_sst_id t) removed ->
  disk_repr (remove_sst_files removed (published d (next_sst_id t) file)) ts
    (keep_tables removed tabs ++ [(next_sst_id t, merged_entries t ess)]).
Proof.
  intros Hy Hid Hpf Hfile Hnr. pose proof (sy_disk _ _ _ _ _ Hy) as Hd. pose proof (sy_id_range _ _ _ _ _ Hy).
  split; [|apply Hd..|].
  - cbn. rewrite List.filter_app. apply Forall2_app; [by apply removed_files, Hd|]. cbn [List.filter fst].
    replace (existsb _ _) with false; [cbn; constructor; [done|constructor]|]. symmetry. apply not_true_iff_false.
    intros Hx. apply existsb_exists in Hx as (i & Hi & Heq%Z.eqb_eq).
    apply Hnr. by rewrite Heq.
  - apply store_ok_merged; [apply Hd|apply Hy|apply Hy|lia|done].
Qed.

Lemma remove_none d : remove_sst_files [] d = d.
Proof. destruct d. unfold remove_sst_files. cbn. by rewrite List.filter_true. Qed.

Lemma compact_crash_last d id file ids :
  (0 < length ids)%nat ->
  last (compact_crash_disks d id file ids) = Some (remove_sst_files ids (published d id file)).
Proof.
  intros Hl. unfold compact_crash_disks. destruct (length ids) as [|n] eqn:En; [lia|].
  rewrite seq_S, map_app, app_assoc. cbn [map]. rewrite last_snoc.
  replace (1 + n)%nat with (length ids) by lia. by rewrite take_ge by lia.
Qed.

(** C17: compaction is crash safe.  Compacting a tree in step with its directory
    publishes the merged SST before it unlinks any input; reopening the
    directory at any crash boundary (the temporary file, the merged SST beside
    all of its inputs, any of the inputs unlinked) gives a tree that reads
    every key as before at every snapshot the compaction preserves: although
    the merged SST has the newest file id, opening orders it by its maximum
    version. *)
Theorem compaction_crash_safe t d ts tabs ess cfg :
  synced t d ts tabs ess -> (2 <= length ess)%nat -> next_sst_id t + 1 < u64_max ->
  prefix_free (concat ess) -> merged_entries t ess <> [] ->
  single_above (min_active_snapshot (txn_manager t)) (concat ess) ->
  sst_fits (zone_extractor (config t)) (block_compression (config t)) (merged_entries t ess) ->
  let ids := map fst (sst_files t) in
  exists t' d' file, lsm_compact t d = (t', d', Ok tt) /\
    last (compact_crash_disks d (next_sst_id t) file ids) = Some d' /\
    forall d'', In d'' (compact_crash_disks d (next_sst_id t) file ids) ->
      reopens_to cfg d'' (fun v => preserved (min_active_snapshot (txn_manager t)) v (concat ess)) (contents t ess).
Proof.
  intros Hy H2 Hid Hpf Hne Hn Hfit ids. pose proof (sy_disk _ _ _ _ _ Hy) as Hd. pose proof (dr_ok _ _ _ Hd) as Hk.
  pose proof (sy_tables _ _ _ _ _ Hy) as Hp.
  assert (Hback : forall e, In e (concat ess) -> In e (concat (map snd tabs))) by (intros e; by eapply in_concat_perm).
  assert (Hw : wf_entries (concat ess)) by (eapply wf_entries_incl; [exact Hback|by eapply store_wf]).
  assert (Hf : functional (concat ess)).
  { intros x m m' Hx1 Hx2. eapply (so_functional _ _ Hk); apply in_or_app; right; by apply Hback. }
  destruct (merged_entries_facts t ess Hw Hf Hn) as (Hs & Hwm & Hmi & _).
  assert (Hids : forall s, In s ([] : list (Z * SstReader)) -> ~ In s.1 (map fst (sst_files t))) by done.
  destruct (compact_inner_run t d [] ess (tr_ssts _ _ (sy_repr _ _ _ _ _ Hy)) H2 Hids Hs Hwm Hmi Hfit)
    as [[Em _]|(file & r & Eo & Hr & Ec)]; [done|].
  assert (Hfile : file_holds (next_sst_id t, file) (next_sst_id t, merged_entries t ess)) by (split; [done|by exists r]).
  eexists _, _, file. split; [exact Ec|]. fold ids in Ec. split.
  { apply compact_crash_last. unfold ids. rewrite length_map, (Forall2_length _ _ _ (tr_ssts _ _ (sy_repr _ _ _ _ _ Hy))). lia. }
  assert (Hfresh : ~ In (next_sst_id t) ids).
  { intros Hx. apply in_map_iff in Hx as (s & Es & Hin). pose proof (sy_file_ids _ _ _ _ _ Hy s Hin). lia. }
  assert (Hdone : forall removed, (forall i, In i removed -> In i ids) ->
    reopens_to cfg (remove_sst_files removed (published d (next_sst_id t) file))
      (fun v => preserved (min_active_snapshot (txn_manager t)) v (concat ess)) (contents t ess)).
  { intros removed Hrm. eapply disk_reopens; [apply merged_disk_repr with (1 := Hy); auto|].
    intros k v Hv. rewrite (synced_contents _ _ _ _ _ k v Hy). by apply merged_visible. }
  intros d'' Hd''. apply in_app_or in Hd'' as [[<-|[<-|[<-|[]]]]|Hd''].
  - eapply disk_reopens; [exact Hd|]. intros k v _. by rewrite (synced_contents _ _ _ _ _ k v Hy).
  - eapply disk_reopens; [destruct Hd as [? ? ? ?]; by split|]. intros k v _.
    by rewrite (synced_contents _ _ _ _ _ k v Hy).
  - specialize (Hdone [] (fun i Hi => match Hi with end)). by rewrite remove_none in Hdone.
  - apply in_map_iff in Hd'' as (j & <- & _). apply Hdone. intros i. apply in_take.
Qed.

(** ** Commit *)

Lemma in_insert_all_old (es m : list entry) e :
  bsorted m -> In e m -> (forall e', In e' es -> fst e' <> fst e) -> In e (bm_insert_all es m).
Proof.
  unfold bm_insert_all. revert m. induction es as [|[k x] es IH]; intros m Hm He Hx; [done|].
  cbn [fold_left fst snd]. apply IH; [by apply bsorted_insert| |intros e' He'; apply Hx; by right].
  destruct e as [k' x']. apply in_bm_insert; [done|]. right. split; [|done].
  intros ->. by apply (Hx (k, x)); [left|].
Qed.

Lemma in_insert_all_new (es m : list entry) e :
  bsorted m -> NoDup (map fst es) -> In e es -> In e (bm_insert_all es m).
Proof.
  unfold bm_insert_all. revert m. induction es as [|[k x] es IH]; intros m Hm Hn He; [done|].
  cbn in Hn. inversion Hn as [|? ? Hx Hn']; subst. cbn [fold_left fst snd].
  destruct He as [<-|He]; [|apply IH; [by apply bsorted_insert|done..]].
  apply in_insert_all_old; [by apply bsorted_insert|apply in_bm_insert; [done|by left]|].
  intros e' He' Heq. apply Hx. apply list_elem_of_In. cbn in Heq. rewrite <- Heq. by apply in_map.
Qed.

Lemma txn_entries_version ws cv e : is_u64 cv -> In e (txn_entries (ws, cv)) -> ever e = cv.
Proof. intros Hu He. apply in_map_iff in He as (w & <- & _). by rewrite ever_new. Qed.

Lemma txn_entries_nodup ws cv : NoDup (map fst ws) -> NoDup (map fst (txn_entries (ws, cv))).
Proof.
  intros Hn. unfold txn_entries. cbn [fst snd]. rewrite map_map. cbn [fst].
  induction ws as [|w ws IH]; [constructor|]. cbn in *. inversion Hn as [|? ? Hx Hn']; subst.
  constructor; [|by apply IH]. rewrite list_elem_of_In in *. intros Hy. apply Hx.
  apply in_map_iff in Hy as (w' & E1 & Hw'). apply (f_equal InternalKey.user_key) in E1.
  rewrite !ik_user_key_new in E1. rewrite <- E1. by apply in_map.
Qed.

Section commit.
Variables (ts : list txn) (tabs : list table) (ws : list write) (cv : Z).
Hypotheses (Hk : store_ok ts tabs) (Hu : is_u64 cv) (Hn : NoDup (map fst ws))
  (Hcv : forall e, In e (store_entries ts tabs) -> ever e < cv).

Lemma in_committed e :
  In e (log_entries (ts ++ [(ws, cv)])) <-> In e (txn_entries (ws, cv)) \/ In e (log_entries ts).
Proof.
  rewrite log_entries_snoc. split; [apply in_insert_all, log_entries_sorted|]. intros [He|He].
  - apply in_insert_all_new; [apply log_entries_sorted|by apply txn_entries_nodup|done].
  - apply in_insert_all_old; [apply log_entries_sorted|done|]. intros e' He' Heq.
    apply txn_entries_version in He'; [|done]. assert (ever e < cv) by (apply Hcv, in_or_app; by left).
    unfold ever in *. rewrite Heq in He'. lia.
Qed.

Lemma in_committed_store e :
  In e (store_entries (ts ++ [(ws, cv)]) tabs) <-> In e (txn_entries (ws, cv)) \/ In e (store_entries ts tabs).
Proof. unfold store_entries. rewrite !in_app_iff, in_committed. tauto. Qed.

Lemma store_ok_committed : store_ok (ts ++ [(ws, cv)]) tabs.
Proof.
  split; [| |apply Hk|apply Hk|apply Hk|].
  - apply List.Forall_forall. intros e He. apply in_committed_store in He as [He|He].
    + apply in_map_iff in He as (w & <- & _). cbn. rewrite ik_length_new. lia.
    + by apply (wf_entries_in _ _ (so_wf _ _ Hk)).
  - intros k m m' H1 H2.
    assert (Hmix : forall x y, In (k, x) (txn_entries (ws, cv)) -> In (k, y) (store_entries ts tabs) -> False).
    { intros x y Hx Hy. apply txn_entries_version in Hx; [|done]. apply Hcv in Hy. unfold ever in *. cbn in *. lia. }
    apply in_committed_store in H1 as [H1|H1]; apply in_committed_store in H2 as [H2|H2].
    + by eapply (functional_nodup _ (txn_entries_nodup ws cv Hn)).
    + destruct (Hmix _ _ H1 H2).
    + destruct (Hmix _ _ H2 H1).
    + by eapply (so_functional _ _ Hk).
  - intros a Ha e' He'. destruct (so_log _ _ Hk a Ha e' He') as [Hin|Hb].
    + left. apply in_committed. by right.
    + right. intros e He Hke. apply in_committed in He as [He|He]; [|by apply Hb].
      rewrite (txn_entries_version ws cv e) by done. apply Hcv, in_or_app. right.
      apply in_concat. exists a.2. split; [by apply in_map|done].
Qed.

Lemma committed_below k v : v < cv ->
  visible (store_entries (ts ++ [(ws, cv)]) tabs) k v = visible (store_entries ts tabs) k v.
Proof.
  intros Hv. unfold visible. f_equal. symmetry. pose proof store_ok_committed as Hk'.
  apply best_sandwich; [apply Hk'|apply Hk'|intros e He; apply in_committed_store; by right|].
  intros e He Hke Hve. apply in_committed_store in He as [He|He].
  - apply txn_entries_version in He; [lia|done].
  - exists e. split_and!; [done..|lia|done].
Qed.

Lemma committed_at k x : In (k, x) ws -> visible (store_entries (ts ++ [(ws, cv)]) tabs) k cv = Some x.
Proof.
  intros Hin. pose proof store_ok_committed as Hk'. unfold visible.
  replace (best _ k cv) with (Some (cv, x)); [done|]. symmetry. apply best_spec; [apply Hk'..|].
  split_and!; [|apply Hu..|lia|].
  - apply in_committed_store. left. apply in_map_iff. by exists (k, x).
  - intros e He _ _. apply in_committed_store in He as [He|He]; [|apply Hcv in He; lia].
    apply txn_entries_version in He; [lia|done].
Qed.

(** The keys the transaction did not write. *)
Lemma committed_other k v : ~ In k (map fst ws) -> (forall e, In e (store_entries ts tabs) -> ever e <= v) ->
  visible (store_entries (ts ++ [(ws, cv)]) tabs) k cv = visible (store_entries ts tabs) k v.
Proof.
  intros Hno Hv. pose proof store_ok_committed as Hk'. transitivity (visible (store_entries ts tabs) k cv).
  - apply visible_ext; [apply Hk'..|]. intros e He. rewrite in_committed_store. split; [|by right].
    intros [Ht|Ht]; [|done]. exfalso. apply Hno. apply in_map_iff in Ht as (w & <- & Hw).
    unfold euk in He. cbn [fst snd] in He. rewrite ik_user_key_new in He. subst k. by apply in_map.
  - apply visible_bound. intros e He. specialize (Hcv e He). specialize (Hv e He). lia.
Qed.

End commit.

Lemma committed_layers ts tabs ess ws cv :
  store_ok (ts ++ [(ws, cv)]) tabs -> layers_ok (log_entries ts :: rev ess) -> Permutation (map snd tabs) ess ->
  layers_ok (log_entries (ts ++ [(ws, cv)]) :: rev ess).
Proof.
  intros Hk [_ _ Ho] Hp.
  assert (Hin : forall e, In e (concat (log_entries (ts ++ [(ws, cv)]) :: rev ess)) ->
            In e (store_entries (ts ++ [(ws, cv)]) tabs)).
  { intros e. cbn [concat]. unfold store_entries. rewrite !in_app_iff, <- in_concat_rev.
    intros [?|?]; [by left|right]. by eapply in_concat_perm. }
  split; [eapply wf_entries_incl; [exact Hin|apply Hk]| |].
  - intros k m m' H1 H2. eapply (so_functional _ _ Hk); by apply Hin.
  - inversion Ho as [|? ? _ Ho']; subst. constructor; [|done]. apply List.Forall_forall. intros es Hes.
    apply in_rev in Hes. apply (Permutation_in _ (Permutation_sym Hp)) in Hes.
    apply in_map_iff in Hes as (a & <- & Ha). by apply (so_log _ _ Hk).
Qed.

(** The append and the memtable writes of a commit keep the tree in step. *)
Lemma synced_committed t d ts tabs ess ws cv m :
  synced t d ts tabs ess -> txn_ok (ws, cv) -> NoDup (map fst ws) ->
  (forall e, In e (store_entries ts tabs) -> ever e < cv) ->
  synced (set_txn_manager (set_memtables t (apply_writes (active_memtable t) cv ws) (immutable_memtables t)) m)
    (set_wal d (Some (wal_after (ts ++ [(ws, cv)])))) (ts ++ [(ws, cv)]) tabs ess.
Proof.
  intros Hy Hok Hn Hcv. pose proof (sy_disk _ _ _ _ _ Hy) as Hd. destruct Hok as (Hne & Hu & Hok).
  assert (Hk : store_ok (ts ++ [(ws, cv)]) tabs) by (apply store_ok_committed; auto; apply Hd).
  assert (Hm : mem_iter (apply_writes (active_memtable t) cv ws) = log_entries (ts ++ [(ws, cv)])).
  { by rewrite apply_writes_iter, (sy_memtable _ _ _ _ _ Hy), log_entries_snoc. }
  split; try apply Hy; [|done| |exact Hm].
  - split; [apply Hd|right; exists []; by rewrite app_nil_r; split; [|left]| |done].
    apply Forall_app. split; [apply Hd|]. constructor; [done|constructor].
  - split; [apply Hy|]. unfold layers. cbn [active_memtable immutable_memtables set_txn_manager set_memtables].
    rewrite (sy_immutables _ _ _ _ _ Hy), Hm. eapply committed_layers; [done| |apply Hy].
    rewrite <- (synced_layers _ _ _ _ _ Hy). apply Hy.
Qed.

(** A torn append leaves a directory that holds the earlier transactions. *)
Lemma torn_append_repr t d ts tabs ess ws cv n :
  synced t d ts tabs ess -> txn_ok (ws, cv) -> (n < length (encode_txn ws cv))%nat ->
  disk_repr (set_wal d (Some (wal_after ts ++ take n (encode_txn ws cv)))) ts tabs.
Proof.
  intros Hy Hok Hlt. pose proof (sy_disk _ _ _ _ _ Hy) as [? ? ? ?]. split; [done| |done|done].
  right. exists (take n (encode_txn ws cv)). split; [done|]. right.
  exists (ws, cv), (drop n (encode_txn ws cv)). split; [done|]. split; [by rewrite take_drop|].
  intros Hx. apply (f_equal length) in Hx. rewrite length_drop in Hx. cbn in Hx. lia.
Qed.

(** A commit that does not conflict and stays below the flush threshold
    publishes the next version, and the tree stays in step. *)
Lemma commit_succeeds t d ts tabs ess txn :
  let ws := writes txn in let cv := next_version (txn_manager t) in
  synced t d ts tabs ess -> txn_ok (ws, cv) -> NoDup (map fst ws) ->
  (forall e, In e (store_entries ts tabs) -> ever e < cv) ->
  existsb (conflicts txn) (committed_log (txn_manager t)) = false ->
  mem_approximate_size (apply_writes (active_memtable t) cv ws) < memtable_flush_size (config t) ->
  exists t' d' txn', lsm_commit CommitOk t d txn = (t', d', txn', Ok cv) /\
    synced t' d' (ts ++ [(ws, cv)]) tabs ess /\ read_snapshot t' = cv.
Proof.
  intros ws cv Hy Hok Hn Hcv Hc Hsz. pose proof Hok as (Hne & Hu & _). cbn [fst snd] in Hne, Hu.
  assert (He : txn_is_empty txn = false) by (unfold txn_is_empty; by destruct (writes txn)).
  unfold lsm_commit, tm_commit. rewrite He, Hc. fold ws cv. unfold commit_apply. rewrite (sy_wal _ _ _ _ _ Hy).
  change (default [] (Some (wal_after ts))) with (wal_after ts).
  destruct (txn_release (active_snapshots (txn_manager t)) txn) as [act txn'].
  pose proof (wal_after_snoc ts (ws, cv)) as Ha. cbn [fst snd] in Ha. rewrite Ha. unfold maybe_flush. cbn [config set_txn_manager set_memtables active_memtable].
  destruct (Z.leb_spec (memtable_flush_size (config t)) (mem_approximate_size (apply_writes (active_memtable t) cv ws)));
    [lia|]. eexists _, _, _. split; [done|].
  match goal with |- synced (set_txn_manager _ ?m) _ _ _ _ /\ _ =>
    pose proof (synced_committed t d ts tabs ess ws cv m Hy Hok Hn Hcv) as Hy' end.
  by split.
Qed.

(** C15: commits are atomic and durable.  Committing a transaction that does not
    conflict, on a tree in step with its directory and below the flush
    threshold, succeeds at the next version: the tree stays in step, the new
    version is published, its keys read the written values from that version
    on, and every earlier snapshot reads as before.  Reopening after a crash
    gives all of it; and when only part of the WAL batch reached the file, the
    commit fails and reopening gives exactly the earlier contents. *)
Theorem commit_atomic_durable t d ts tabs ess cfg txn :
  let ws := writes txn in let cv := next_version (txn_manager t) in
  synced t d ts tabs ess -> txn_ok (ws, cv) -> NoDup (map fst ws) ->
  (forall e, In e (store_entries ts tabs) -> ever e < cv) ->
  existsb (conflicts txn) (committed_log (txn_manager t)) = false ->
  mem_approximate_size (apply_writes (active_memtable t) cv ws) < memtable_flush_size (config t) ->
  (exists t' d' txn', lsm_commit CommitOk t d txn = (t', d', txn', Ok cv) /\
     synced t' d' (ts ++ [(ws, cv)]) tabs ess /\ read_snapshot t' = cv /\
     (forall k x, In (k, x) ws -> visible (contents t' ess) k cv = Some x) /\
     (forall k v, v < cv -> visible (contents t' ess) k v = visible (contents t ess) k v) /\
     reopens_to cfg d' (fun _ => True) (contents t' ess)) /\
  (forall n, (n < length (encode_txn ws cv))%nat ->
     exists t' d', lsm_commit (AppendFails n) t d txn = (t', d', txn, Err Io) /\
       reopens_to cfg d' (fun _ => True) (contents t ess)).
Proof.
  intros ws cv Hy Hok Hn Hcv Hc Hsz. pose proof Hok as (Hne & Hu & _). cbn [fst snd] in Hne, Hu.
  pose proof (dr_ok _ _ _ (sy_disk _ _ _ _ _ Hy)) as Hk. split.
  - destruct (commit_succeeds t d ts tabs ess txn Hy Hok Hn Hcv Hc Hsz) as (t' & d' & txn' & E1 & Hy' & Hr).
    exists t', d', txn'. split; [done|]. split; [done|]. split; [done|]. split_and!.
    + intros k x Hin. rewrite (synced_contents _ _ _ _ _ k cv Hy'). by apply committed_at.
    + intros k v Hv. rewrite (synced_contents _ _ _ _ _ k v Hy'), (synced_contents _ _ _ _ _ k v Hy).
      by apply committed_below.
    + eapply disk_reopens; [apply Hy'|]. intros k v _. by rewrite (synced_contents _ _ _ _ _ k v Hy').
  - intros n Hlt. assert (He : txn_is_empty txn = false) by (unfold txn_is_empty; by destruct (writes txn)).
    unfold lsm_commit, tm_commit. rewrite He, Hc. fold ws cv. unfold commit_apply. rewrite (sy_wal _ _ _ _ _ Hy).
    change (default [] (Some (wal_after ts))) with (wal_after ts).
    eexists _, _. split; [done|]. eapply disk_reopens; [by eapply torn_append_repr|].
    intros k v _. by rewrite (synced_contents _ _ _ _ _ k v Hy).
Qed.

End recovery.

(** ** Snapshot reads *)

Lemma best_insert_newer key m l k w :
  w < InternalKey.version key -> best (bm_insert key m l) k w = best l k w.
Proof.
  intros Hw. assert (Hskip : forall l', best ((key, m) :: l') k w = best l' k w).
  { intros l'. apply best_cons_skip. by right. }
  induction l as [|[k' m'] l IH]; [exact (Hskip [])|]. cbn [bm_insert].
  destruct (bytes_cmp key k') eqn:Ec; [|by rewrite Hskip|].
  - apply bytes_cmp_eq in Ec as ->. rewrite Hskip. symmetry. apply best_cons_skip. by right.
  - cbn [best]. by rewrite IH.
Qed.

Lemma best_txn_newer ws v l k w :
  is_u64 v -> w < v -> best (bm_insert_all (txn_entries (ws, v)) l) k w = best l k w.
Proof.
  intros Hu Hw. unfold bm_insert_all, txn_entries. cbn [fst snd]. revert l.
  induction ws as [|[a x] ws IH]; intros l; [done|]. cbn [map fold_left fst snd].
  rewrite IH, best_insert_newer; [done|]. by rewrite ik_version_new.
Qed.

Section snapshots.
Context {E : Extern} {SM : SkipMap MemValue} {SML : SkipMapLaws SM}.
Variables (cfg : LsmConfig) (faults : Z -> commit_fault) (rest : list entry) (k : bytes).

(** The closure of [commit], with an arbitrary fault at each version; and what
    a reader sees of a key through the active memtable and the older layers. *)
Definition lsm_apply (st : MemTable SM * Disk) (v : Z) (ws : list write) : (MemTable SM * Disk) * res unit :=
  commit_apply cfg (faults v) st v ws.

Definition lsm_view (st : MemTable SM * Disk) (w : Z) : option MemValue :=
  visible (mem_iter st.1 ++ rest) k w.

Lemma lsm_apply_at_version : apply_at_version lsm_apply lsm_view.
Proof.
  intros [mt d] v ws w Hu Hw. unfold lsm_view, lsm_apply, commit_apply.
  assert (Hv : visible (mem_iter (apply_writes mt v ws) ++ rest) k w = visible (mem_iter mt ++ rest) k w).
  { unfold visible. f_equal. rewrite apply_writes_iter, !best_app, best_txn_newer by done. done. }
  destruct (faults v); [exact Hv|done|]. by destruct (sync_on_commit cfg).
Qed.

(** C19: snapshot isolation over the tree.  With the commits of the manager
    applied by the tree's own closure (the WAL append and the memtable
    writes), whatever begins, writes, commits, failed appends and syncs and
    aborts follow, a reader at a published version keeps seeing the same value
    of every key through the active memtable and any older layers. *)
Theorem lsm_snapshot_reads_stable v st s s' w :
  0 <= v < u64_max -> reachable lsm_apply v st s -> rtc (step lsm_apply) s s' ->
  w <= visible_version (mgr s) ->
  lsm_view (store s') w = lsm_view (store s) w /\ visible_version (mgr s) <= visible_version (mgr s').
Proof. apply reachable_view, lsm_apply_at_version. Qed.

End snapshots.

(** ** Witnesses *)

(** A directory with two SSTs, one committed batch in the WAL and a leftover
    temporary file, and the tree in step with it. *)
Definition rec_ts : list txn := [([([x61], Some [x07])], 5)].
Definition rec_tabs : list table := [(1, compact_old); (2, compact_new)].
Definition rec_disk : Disk :=
  {| d_wal := Some (@wal_after toy_extern rec_ts);
     d_ssts := [(1, @file_of toy_extern compact_old); (2, @file_of toy_extern compact_new)];
     d_tmps := [3] |}.
Definition rec_tree : LsmTree (SM := list_skipmap MemValue) :=
  {| config := config_new; active_memtable := lsm_mem [([x61], 5, Some [x07])]; immutable_memtables := [];
     sst_files := [(1, @reader_of toy_extern compact_old); (2, @reader_of toy_extern compact_new)];
     txn_manager := recover_at_version 5; next_sst_id := 3; compaction_pending := false |}.

Lemma rec_txns : Forall txn_ok rec_ts.
Proof.
  constructor; [|constructor]. unfold txn_ok, is_u64, is_u32, len.
  split; [done|split; [cbn; lia|split; [cbn; lia|]]]. repeat constructor; cbn; lia.
Qed.

Lemma rec_age : age_ordered compact_new compact_old.
Proof.
  intros e' He'. right. intros e He _. cut (ever e' = 1 /\ 1 < ever e); [lia|].
  split; [by destruct He' as [<-|[<-|[]]]|by destruct He as [<-|[<-|[]]]].
Qed.

Lemma rec_ok : store_ok rec_ts rec_tabs.
Proof.
  split.
  - repeat constructor; vm_compute; lia.
  - apply functional_nodup.
    apply (bool_decide_unpack (NoDup (map fst (log_entries rec_ts ++ concat (map snd rec_tabs))))). by vm_compute.
  - apply (bool_decide_unpack (NoDup (map fst rec_tabs))). by vm_compute.
  - repeat constructor; by vm_compute.
  - intros a b [<-|[<-|[]]] [<-|[<-|[]]] Hne Ho; [done|exact rec_age| |done].
    destruct Ho as [Ho|[Ho _]]; by vm_compute in Ho.
  - intros a [<-|[<-|[]]] e' He'; right; intros e He _; cut (ever e' <= 3 /\ ever e = 5); try lia;
      (split; [by destruct He' as [<-|[<-|[]]]|by destruct He as [<-|[]]]).
Qed.

Lemma rec_disk_repr : disk_repr (E := toy_extern) rec_disk rec_ts rec_tabs.
Proof.
  split; [| |exact rec_txns|exact rec_ok].
  - constructor; [|constructor; [|constructor]]; (split; [done|]); eexists;
      [apply (reader_of_holds (E := toy_extern) 1 compact_old)|apply (reader_of_holds (E := toy_extern) 2 compact_new)];
      apply compact_old_ok || apply compact_new_ok.
  - right. exists []. by rewrite app_nil_r; split; [|left].
Qed.

Lemma rec_synced : synced (E := toy_extern) rec_tree rec_disk rec_ts rec_tabs [compact_old; compact_new].
Proof.
  split.
  - exact rec_disk_repr.
  - done.
  - split; [constructor; [|constructor; [|constructor]]; apply reader_of_holds; apply compact_old_ok || apply compact_new_ok|].
    change (layers rec_tree [compact_old; compact_new]) with (log_entries rec_ts :: rev (map snd rec_tabs)).
    eapply recovered_layers_ok; [exact rec_ok|done|]. constructor; [by repeat constructor|].
    constructor; [left; by vm_compute|constructor].
  - done.
  - done.
  - done.
  - by intros a [<-|[<-|[]]].
  - by intros a [<-|[<-|[]]].
  - by vm_compute.
Qed.

Lemma recovery_restores_witness :
  exists t d' ess, lsm_open (E := toy_extern) (SM := list_skipmap MemValue) config_new rec_disk = Ok (t, d') /\
    visible (contents t ess) [x61] 5 = Some (Some [x07]) /\
    visible (contents t ess) [x62] 5 = Some None /\ d_tmps d' = [].
Proof.
  destruct (recovery_restores (E := toy_extern) config_new rec_disk rec_ts rec_tabs rec_disk_repr)
    as (t & d' & ess & H1 & _ & H2 & _ & ->).
  exists t. eexists. exists ess. split; [exact H1|].
  split; [rewrite H2; by vm_compute|]. split; [rewrite H2; by vm_compute|done].
Defined.

Lemma flush_crash_safe_witness :
  exists t' d' file, flush_locked (E := toy_extern) FlushOk rec_tree rec_disk = (t', d', Ok tt) /\
    forall d'', In d'' (flush_crash_disks rec_disk 3 file) ->
      reopens_to (E := toy_extern) (SM := list_skipmap MemValue) config_new d'' (fun _ => True)
        (contents rec_tree [compact_old; compact_new]).
Proof.
  destruct (flush_crash_safe (E := toy_extern) rec_tree rec_disk rec_ts rec_tabs _ config_new rec_synced)
    as (t' & d' & file & H1 & _ & _ & _ & H2).
  - intros a [<-|[<-|[]]]; by vm_compute.
  - by vm_compute.
  - repeat constructor; vm_compute; done.
  - fits_tac.
  - by vm_compute.
  - exists t', d', file. split; [exact H1|exact H2].
Defined.

Lemma compaction_crash_safe_witness :
  exists t' d' file, lsm_compact (E := toy_extern) rec_tree rec_disk = (t', d', Ok tt) /\
    forall d'', In d'' (compact_crash_disks rec_disk 3 file [1; 2]) ->
      reopens_to (E := toy_extern) (SM := list_skipmap MemValue) config_new d''
        (fun v => preserved u64_max v (compact_old ++ compact_new))
        (contents rec_tree [compact_old; compact_new]).
Proof.
  destruct (compaction_crash_safe (E := toy_extern) rec_tree rec_disk rec_ts rec_tabs _ config_new rec_synced)
    as (t' & d' & file & H1 & _ & H2).
  - cbn; lia.
  - by vm_compute.
  - intros e e' He He' Hne. apply one_byte_keys; [| |done].
    + by repeat (destruct He as [<-|He]; [by vm_compute|]).
    + by repeat (destruct He' as [<-|He']; [by vm_compute|]).
  - by vm_compute.
  - apply (bool_decide_unpack (single_above u64_max (compact_old ++ compact_new))). by vm_compute.
  - fits_tac.
  - exists t', d', file. split; [exact H1|exact H2].
Defined.

Definition rec_txn : Transaction :=
  {| snapshot := 5; writes := [([x63], Some [x01]); ([x61], None)]; index := ∅; hold := true |}.

Lemma commit_atomic_durable_witness :
  exists t' d' txn', lsm_commit (E := toy_extern) CommitOk rec_tree rec_disk rec_txn = (t', d', txn', Ok 6) /\
    visible (contents t' [compact_old; compact_new]) [x61] 6 = Some None.
Proof.
  destruct (commit_atomic_durable (E := toy_extern) rec_tree rec_disk rec_ts rec_tabs _ config_new rec_txn rec_synced)
    as [(t' & d' & txn' & H1 & _ & _ & H2 & _) _].
  - unfold txn_ok, is_u64, is_u32, len. split; [done|split; [by vm_compute|split; [cbn; lia|]]].
    repeat constructor; cbn; lia.
  - apply (bool_decide_unpack (NoDup (map fst (writes rec_txn)))). by vm_compute.
  - intros e He. by repeat (destruct He as [<-|He]; [by vm_compute|]).
  - done.
  - by vm_compute.
  - exists t', d', txn'. split; [exact H1|]. apply H2. right. by left.
Defined.

(** A key is put and committed at version 1; a second commit fails to append;
    a third succeeds. *)
Definition snap_faults (v : Z) : commit_fault := if v =? 2 then AppendFails 4 else CommitOk.
Definition snap_apply := lsm_apply (E := toy_extern) (SM := list_skipmap MemValue) config_new snap_faults.
Definition snap_init : sys := init 0 (mem_new, {| d_wal := Some WAL_MAGIC; d_ssts := []; d_tmps := [] |}).

Definition snap_run (l : list action) : sys := default snap_init (run snap_apply snap_init l).

Definition snap_ex : list action := [ABegin; AWrite 0 [x61] (Some [x01]); ACommit 0].
Definition snap_more : list action :=
  [ABegin; AWrite 0 [x61] (Some [x02]); ACommit 0; AAbort 0; ABegin; AWrite 0 [x61] None; ACommit 0].

Lemma lsm_snapshot_reads_stable_witness :
  lsm_view [] [x61] (store (snap_run (snap_ex ++ snap_more))) 1 = Some (Some [x01]).
Proof.
  assert (E1 : lsm_view [] [x61] (store (snap_run (snap_ex ++ snap_more))) 1
             = lsm_view [] [x61] (store (snap_run snap_ex)) 1); [|rewrite E1; by vm_compute].
  refine (proj1 (lsm_snapshot_reads_stable (E := toy_extern) config_new snap_faults [] [x61] 0
    (mem_new, {| d_wal := Some WAL_MAGIC; d_ssts := []; d_tmps := [] |}) (snap_run snap_ex)
    (snap_run (snap_ex ++ snap_more)) 1 _ _ _ _)).
  - unfold u64_max; lia.
  - apply (run_steps snap_apply snap_init snap_ex). reflexivity.
  - apply (run_steps snap_apply _ snap_more). reflexivity.
  - by vm_compute.
Defined.

(** * Fault histories of the tree

    Concrete histories, run through the operations of the tree, in which an
    acknowledged write or a version a reader needs is lost. *)

(** ** Histories *)

Section histories.

Local Notation Tree := (LsmTree (SM := list_skipmap MemValue)).

(** One transaction: begin, its puts, commit. *)
Definition commit_puts (t : Tree) (d : Disk) (kvs : list (bytes * bytes)) : res (Tree * Disk * Z) :=
  let '(t, txn) := begin_txn t in
  txn ← put_batch txn kvs;
  match lsm_commit (E := toy_extern) CommitOk t d txn with
  | (t, d, _, Ok v) => Ok (t, d, v)
  | (_, _, _, Err e) => Err e
  | (_, _, _, Panic) => Panic
  end.

Definition open_dir (d : Disk) : res (Tree * Disk) := lsm_open (E := toy_extern) config_new d.

Definition empty_dir : Disk := {| d_wal := None; d_ssts := []; d_tmps := [] |}.

Definition flush_with (f : flush_fault) (t : Tree) (d : Disk) : Tree * Disk * res unit :=
  flush_locked (E := toy_extern) f t d.

Definition get_now (t : Tree) (k : bytes) : res (option bytes) := get_at (E := toy_extern) t (read_snapshot t) k.

(** Key [a] is committed, the flush of its memtable fails, key [b] is
    committed and flushed. *)
Definition failed_flush_history : res (res (option bytes) * res (option bytes) * res (option bytes)) :=
  '(t, d) ← open_dir empty_dir;
  '(t, d, _) ← commit_puts t d [([x61], [x01])];
  let '(t, d, _) := flush_with SstWriteFails t d in
  '(t, d, _) ← commit_puts t d [([x62], [x02])];
  let '(t, d, _) := flush_with FlushOk t d in
  '(t', _) ← open_dir d;
  Ok (get_now t [x61], get_now t' [x61], get_now t' [x62]).

(** A failed flush loses data at the next restart.  When writing the SST
    fails, the memtable stays readable in the immutable list but is never
    flushed again; the next flush recreates the WAL, which held its only
    durable copy.  The committed key reads back until the restart and is gone
    after it. *)
Theorem failed_flush_loses_commit :
  failed_flush_history = Ok (Ok (Some [x01]), Ok None, Ok (Some [x02])).
Proof. by vm_compute. Qed.

(** A WAL with a torn header: opened, committed to, reopened. *)
Definition torn_header_history : res (option bytes * res (option bytes) * res (option bytes)) :=
  '(t, d) ← open_dir {| d_wal := Some (take 3 WAL_MAGIC); d_ssts := []; d_tmps := [] |};
  '(t, d, _) ← commit_puts t d [([x61], [x01])];
  '(t', _) ← open_dir d;
  Ok (take 3 <$> d_wal d, get_now t [x61], get_now t' [x61]).

(** A log without its magic is never converted.  A file shorter than the
    header (or a pre-framing file whose first record is torn) counts as legacy
    and replays nothing; the flush that should convert it finds an empty
    memtable and leaves the file as it is, so the framed batches committed
    after it cannot be replayed. *)
Theorem unconverted_log_loses_commit :
  torn_header_history = Ok (Some (take 3 WAL_MAGIC), Ok (Some [x01]), Ok None).
Proof. by vm_compute. Qed.

(** A reader takes a snapshot without a transaction; the key is updated; both
    versions are flushed and compacted. *)
Definition snapshot_reader_history : res (Z * res (option bytes) * res (option bytes)) :=
  '(t, d) ← open_dir empty_dir;
  '(t, d, _) ← commit_puts t d [([x61], [x01])];
  let snap := read_snapshot t in
  let '(t, d, _) := flush_with FlushOk t d in
  '(t, d, _) ← commit_puts t d [([x61], [x02])];
  let '(t, d, _) := flush_with FlushOk t d in
  let before := get_at (E := toy_extern) t snap [x61] in
  let '(t, d, _) := lsm_compact (E := toy_extern) t d in
  Ok (snap, before, get_at (E := toy_extern) t snap [x61]).

(** [read_snapshot] does not protect its version.  A reader that took its
    snapshot with [read_snapshot] is not in the registry of active snapshots:
    a compaction drops the version it reads, and the key reads as absent. *)
Theorem unregistered_snapshot_loses_version :
  snapshot_reader_history = Ok (1, Ok (Some [x01]), Ok None).
Proof. by vm_compute. Qed.

End histories.
