(* ===== verification/Store.v ===== *)
(** * The key-value store the engine sees

    The engine reads the storage at one snapshot and hands back a list of
    writes that a commit applies at once.  A snapshot is a sorted map: a point
    read is [bm_get], a prefix scan [rows_under]; [apply_ops] applies the writes
    of a transaction.

    The LSM tree implements it: its reads at a version are those of the map of
    its live entries ([live_map]), and a commit turns that map into the one with
    the writes applied. *)

From Stdlib Require Import ZArith Lia Bool List Strings.Byte.
From stdpp Require Import base tactics option list.
From S2P Require Import Prelude ByteMap Keys Versioned MemTable Extern Wal Mvcc.
From S2P Require Import Zone Sst SstReader SstRead Layers Lsm LsmReads LsmCompact LsmBatch LsmRecovery.

Local Open Scope Z_scope.
Local Open Scope bytes_scope.

(** ** Reads *)

(** The rows under a prefix. *)
Definition rows_under (p : bytes) (m : bmap bytes) : list (bytes * bytes) :=
  List.filter (fun e => starts_with (fst e) p) m.

(** ** Writes *)

(** A put or, with [None], a delete. *)
Abbreviation op := (bytes * option bytes)%type.

Definition apply_op (m : bmap bytes) (o : op) : bmap bytes :=
  match snd o with Some v => bm_insert (fst o) v m | None => bm_delete (fst o) m end.

Definition apply_ops (ops : list op) (m : bmap bytes) : bmap bytes := fold_left apply_op ops m.

(** The last write of a key. *)
Fixpoint last_op (k : bytes) (ops : list op) : option (option bytes) :=
  match ops with
  | [] => None
  | o :: ops => match last_op k ops with Some x => Some x | None => if beqb k (fst o) then Some (snd o) else None end
  end.

Lemma apply_op_sorted o m : bsorted m -> bsorted (apply_op m o).
Proof. intros H. unfold apply_op. case_match; [by apply bsorted_insert|by apply bsorted_delete]. Qed.

Lemma apply_ops_sorted ops m : bsorted m -> bsorted (apply_ops ops m).
Proof. revert m. induction ops as [|o ops IH]; intros m H; [done|]. by apply IH, apply_op_sorted. Qed.

Lemma bm_get_apply_op o m k :
  bsorted m -> bm_get k (apply_op m o) = if decide (k = fst o) then snd o else bm_get k m.
Proof.
  intros H. unfold apply_op. destruct o as [k' [v|]]; cbn [fst snd];
    [rewrite bm_get_insert by done|rewrite bm_get_delete]; by case_decide.
Qed.

(** A key reads its last write, or what it was before. *)
Lemma bm_get_apply_ops ops m k :
  bsorted m -> bm_get k (apply_ops ops m) = match last_op k ops with Some x => x | None => bm_get k m end.
Proof.
  revert m. induction ops as [|o ops IH]; intros m H; [done|]. cbn [last_op].
  change (apply_ops (o :: ops) m) with (apply_ops ops (apply_op m o)). rewrite IH by by apply apply_op_sorted.
  destruct (last_op k ops); [done|]. rewrite bm_get_apply_op by done.
  destruct (beqb_spec k (fst o)); [by rewrite decide_True|by rewrite decide_False].
Qed.

Lemma apply_ops_app a b m : apply_ops (a ++ b) m = apply_ops b (apply_ops a m).
Proof. unfold apply_ops. apply fold_left_app. Qed.

Lemma last_op_app k a b : last_op k (a ++ b) = match last_op k b with Some x => Some x | None => last_op k a end.
Proof. induction a as [|o a IH]; cbn [app last_op]; [by destruct (last_op k b)|]. rewrite IH. by destruct (last_op k b). Qed.

Lemma last_op_none k ops : last_op k ops = None <-> ~ In k (map fst ops).
Proof.
  induction ops as [|o ops IH]; cbn [last_op map In]; [tauto|].
  destruct (last_op k ops) as [x|] eqn:E.
  - split; [done|]. intros H. exfalso. apply H. right. destruct (in_dec (fun a b => decide (a = b)) k (map fst ops)); [done|].
    by apply IH in n.
  - destruct (beqb_spec k (fst o)) as [->|Hne]; split; try done; [intros H; exfalso; by apply H; left|].
    intros _ [<-|H]; [done|]. by apply IH in H.
Qed.

Lemma last_op_some k ops x : last_op k ops = Some x -> In (k, x) ops.
Proof.
  induction ops as [|o ops IH]; cbn [last_op]; [done|]. destruct (last_op k ops).
  - intros [= ->]. right. by apply IH.
  - destruct (beqb_spec k (fst o)) as [->|]; [|done]. intros [= <-]. left. by destruct o.
Qed.

(** With one write per key, the last write of a key is its write. *)
Lemma last_op_nodup k ops x : NoDup (map fst ops) -> In (k, x) ops -> last_op k ops = Some x.
Proof.
  induction ops as [|o ops IH]; cbn [map last_op]; [done|]. intros [Hn Hnd]%NoDup_cons [->|Hin].
  - cbn [fst snd] in *. rewrite list_elem_of_In in Hn. rewrite (proj2 (last_op_none k ops) Hn). by destruct (beqb_spec k k).
  - by rewrite (IH Hnd Hin).
Qed.

(** ** The LSM tree *)

(** The live entries at a version. *)
Definition live_map (es : list entry) (v : Z) : bmap bytes :=
  bm_insert_all (omap (fun e => match visible es (euk e) v with Some (Some x) => Some (euk e, x) | _ => None end) es) [].

Lemma live_map_sorted es v : bsorted (live_map es v).
Proof. apply bsorted_insert_all, bsorted_nil. Qed.

Lemma bm_insert_all_get {V} (es m : bmap V) k x :
  bsorted m -> (forall y, In (k, y) es -> y = x) -> In (k, x) es -> bm_get k (bm_insert_all es m) = Some x.
Proof.
  revert m. induction es as [|e es IH]; intros m Hs Hx Hin; [done|].
  change (bm_get k (bm_insert_all es (bm_insert (fst e) (snd e) m)) = Some x).
  destruct (in_dec (fun a b => decide (a = b)) k (map fst es)) as [Hk|Hk].
  - apply in_map_iff in Hk as ([k' y] & Ek & Hy). cbn in Ek. subst k'.
    apply IH; [by apply bsorted_insert|intros z Hz; apply Hx; by right|].
    by rewrite <- (Hx y) by by right.
  - rewrite bm_get_insert_all_notin by (try apply bsorted_insert; done).
    destruct Hin as [->|Hin]; [|exfalso; apply Hk; by apply (in_map fst) in Hin].
    cbn [fst snd]. by rewrite bm_get_insert, decide_True.
Qed.

Lemma live_map_get es v k : bm_get k (live_map es v) = default None (visible es k v).
Proof.
  unfold live_map. set (l := omap _ es).
  assert (Hl : forall y, In (k, y) l -> visible es k v = Some (Some y)).
  { intros y Hy. apply list_elem_of_In, list_elem_of_omap in Hy as (e & _ & He).
    destruct (visible es (euk e) v) as [[x|]|] eqn:E; try done. by injection He as <- <-. }
  destruct (visible es k v) as [[x|]|] eqn:E; cbn [default].
  - apply bm_insert_all_get; [apply bsorted_nil|intros y Hy; apply Hl in Hy; congruence|].
    apply visible_in in E as Hin. destruct Hin as (e & He & <-). apply list_elem_of_In, list_elem_of_omap.
    exists e. split; [by apply list_elem_of_In|]. by rewrite E.
  - rewrite bm_get_insert_all_notin; [done|apply bsorted_nil|]. rewrite in_map_iff. intros ([k' y] & Ek & Hy).
    cbn in Ek. subst. apply Hl in Hy. congruence.
  - rewrite bm_get_insert_all_notin; [done|apply bsorted_nil|]. rewrite in_map_iff. intros ([k' y] & Ek & Hy).
    cbn in Ek. subst. apply Hl in Hy. congruence.
Qed.

Section lsm.
Context {E : Extern} {EL : ExternLaws E} {SM : SkipMap MemValue} {SML : SkipMapLaws SM}.

Lemma lsm_scan_rows t ess p v :
  tree_repr t ess -> prefix_free (contents t ess) -> no_strict_prefix p (contents t ess) ->
  scan_prefix_at t v p = Ok (rows_under p (live_map (contents t ess) v)).
Proof.
  intros Ht Hf Hn. destruct (scan_prefix_rows t ess p v Ht Hf Hn) as (rs & E1 & [Hs Ha] & _).
  unfold scan_prefix_at. rewrite E1. cbn [mbind res_bind]. f_equal.
  apply bm_ext; [by apply live_rows_sorted|apply bsorted_filter, live_map_sorted|]. intros k.
  unfold rows_under. rewrite (bm_get_filter (fun u => starts_with u p)), live_map_get.
  destruct (bm_get k (live_rows (merge rs))) as [x|] eqn:Eg.
  - apply bm_get_in in Eg; [|by apply live_rows_sorted]. apply live_rows_in, Ha in Eg as (Hp & _ & ->).
    by rewrite (proj2 (starts_with_true k p) Hp).
  - destruct (starts_with k p) eqn:Ep; [|done]. apply starts_with_true in Ep.
    destruct (visible (contents t ess) k v) as [[x|]|] eqn:Ev; [|done..]. exfalso.
    apply (proj1 (bm_get_none k (live_rows (merge rs))) Eg x). apply live_rows_in, Ha. split_and!; [done|by apply prefix_ble|done].
Qed.

Lemma live_map_committed t d t' d' ts tabs ess ws cv v :
  synced t d ts tabs ess -> synced t' d' (ts ++ [(ws, cv)]) tabs ess -> txn_ok (ws, cv) -> NoDup (map fst ws) ->
  (forall e, In e (store_entries ts tabs) -> ever e < cv /\ ever e <= v) ->
  live_map (contents t' ess) cv = apply_ops ws (live_map (contents t ess) v).
Proof.
  intros Hy Hy' (_ & Hu & _) Hn Hcv. pose proof (dr_ok _ _ _ (sy_disk _ _ _ _ _ Hy)) as Hk. cbn [snd] in Hu.
  assert (Hcv1 : forall e, In e (store_entries ts tabs) -> ever e < cv) by (intros e He; by apply Hcv).
  apply bm_ext; [apply live_map_sorted|apply apply_ops_sorted, live_map_sorted|]. intros k.
  rewrite bm_get_apply_ops, !live_map_get by apply live_map_sorted.
  rewrite (synced_contents _ _ _ _ _ k cv Hy'), (synced_contents _ _ _ _ _ k v Hy).
  destruct (last_op k ws) as [x|] eqn:El.
  - apply last_op_some in El. by rewrite (committed_at ts tabs ws cv Hk Hu Hn Hcv1 k x El).
  - apply last_op_none in El. rewrite (committed_other ts tabs ws cv Hk Hu Hn Hcv1 k v El); [done|].
    intros e He. by apply Hcv.
Qed.

End lsm.

