(* ===== verification/Utf8.v ===== *)
(** * UTF-8

    What the code uses of Rust's [str] and [char]: validity of a byte string
    ([std::str::from_utf8]), the split of a string into characters ([chars]),
    each character being its UTF-8 bytes, and the character classes.  The
    classes beyond ASCII are the tables of the Unicode version the compiler
    ships; the alphabetic and alphanumeric ones are the class [CharClass]. *)

From Stdlib Require Import ZArith Lia Bool List Strings.Byte Strings.String.
From stdpp Require Import base tactics option list.
From S2P Require Import Prelude.

Local Open Scope Z_scope.

(** ** Validity *)

Definition in_range (lo hi : Z) (b : byte) : bool := (lo <=? b2z b) && (b2z b <=? hi).
Definition utf8_cont : byte -> bool := in_range 128 191.

Fixpoint utf8_valid (s : bytes) : bool :=
  match s with
  | [] => true
  | b0 :: s1 =>
      if b2z b0 <? 128 then utf8_valid s1
      else if in_range 194 223 b0 then
        match s1 with b1 :: s2 => utf8_cont b1 && utf8_valid s2 | _ => false end
      else if in_range 224 239 b0 then
        match s1 with
        | b1 :: b2 :: s3 =>
            (if b2z b0 =? 224 then in_range 160 191 b1
             else if b2z b0 =? 237 then in_range 128 159 b1 else utf8_cont b1)
            && utf8_cont b2 && utf8_valid s3
        | _ => false
        end
      else if in_range 240 244 b0 then
        match s1 with
        | b1 :: b2 :: b3 :: s4 =>
            (if b2z b0 =? 240 then in_range 144 191 b1
             else if b2z b0 =? 244 then in_range 128 143 b1 else utf8_cont b1)
            && utf8_cont b2 && utf8_cont b3 && utf8_valid s4
        | _ => false
        end
      else false
  end.

(** ** Characters *)

Definition char_len (b : byte) : nat :=
  if b2z b <? 128 then 1 else if b2z b <? 224 then 2 else if b2z b <? 240 then 3 else 4.

(** [s.chars().next()] and the rest of the string. *)
Definition next_char (s : bytes) : option (bytes * bytes) :=
  match s with
  | [] => None
  | b :: _ => Some (take (char_len b) s, drop (char_len b) s)
  end.

Class CharClass := {
  uni_alphabetic : bytes -> bool;
  uni_alphanumeric : bytes -> bool;
}.

(** Only ASCII letters and digits, to evaluate examples. *)
Definition ascii_only : CharClass := {|
  uni_alphabetic _ := false; uni_alphanumeric _ := false;
|}.

Definition ascii_digit (b : byte) : bool := in_range 48 57 b.
Definition ascii_alpha (b : byte) : bool := in_range 65 90 b || in_range 97 122 b.

Definition is_ascii_digit (c : bytes) : bool := match c with [b] => ascii_digit b | _ => false end.

Definition is_alphabetic {C : CharClass} (c : bytes) : bool :=
  match c with [b] => ascii_alpha b | _ => uni_alphabetic c end.

Definition is_alphanumeric {C : CharClass} (c : bytes) : bool :=
  match c with [b] => ascii_alpha b || ascii_digit b | _ => uni_alphanumeric c end.

(** The characters with the property White_Space. *)
Definition is_whitespace (c : bytes) : bool :=
  match c with
  | [b] => in_range 9 13 b || (b2z b =? 32)
  | [a; b] => (b2z a =? 194) && ((b2z b =? 133) || (b2z b =? 160))
  | [a; b; d] =>
      beqb c [xe1; x9a; x80]
      || (b2z a =? 226) && (b2z b =? 128) && (in_range 128 138 d || (b2z d =? 168) || (b2z d =? 169) || (b2z d =? 175))
      || beqb c [xe2; x81; x9f] || beqb c [xe3; x80; x80]
  | _ => false
  end.

(** String literals. *)
Definition bs (s : String.string) : bytes := list_byte_of_string s.
Arguments bs s%_string.

(** ** Lemmas *)

(** A character that is all there. *)
Definition whole (c : bytes) : Prop := exists b, head c = Some b /\ length c = char_len b.

Lemma next_char_app c r : whole c -> next_char (c ++ r) = Some (c, r).
Proof.
  intros (b & Hb & Hl). destruct c as [|b' c]; [done|]. injection Hb as ->.
  unfold next_char. cbn [app]. by rewrite app_comm_cons, take_mid, drop_mid.
Qed.

Lemma next_char_split s c r : next_char s = Some (c, r) -> s = c ++ r /\ (length r < length s)%nat.
Proof.
  destruct s as [|b s]; [done|]. unfold next_char. intros [= <- <-]. rewrite take_drop. split; [done|].
  rewrite length_drop. cbn [length]. unfold char_len. repeat case_match; lia.
Qed.

Lemma whole_ascii b : b2z b < 128 -> whole [b].
Proof. intros H. exists b. split; [done|]. unfold char_len. by rewrite (proj2 (Z.ltb_lt _ _)). Qed.

Lemma in_range_spec lo hi b : in_range lo hi b = true <-> lo <= b2z b <= hi.
Proof. unfold in_range. rewrite andb_true_iff, !Z.leb_le. done. Qed.

Lemma next_char_valid s c r :
  utf8_valid s = true -> next_char s = Some (c, r) -> whole c /\ utf8_valid r = true.
Proof.
  destruct s as [|b0 s1]; [done|]. unfold next_char. intros Hv [= <- <-]. cbn [utf8_valid] in Hv.
  assert (W : forall n x, char_len b0 = n -> length x = n -> head x = Some b0 -> whole x).
  { intros n x <- Hx Hh. by exists b0. }
  destruct (Z.ltb_spec (b2z b0) 128) as [H|H].
  { assert (E : char_len b0 = 1%nat) by (unfold char_len; by rewrite (proj2 (Z.ltb_lt _ _))).
    rewrite E. cbn [take drop]. rewrite take_0, drop_0. split; [by eapply W|done]. }
  destruct (in_range 194 223 b0) eqn:E2.
  { apply in_range_spec in E2. destruct s1 as [|b1 s2]; [done|]. apply andb_true_iff in Hv as [_ Hv].
    assert (E : char_len b0 = 2%nat) by (unfold char_len; rewrite (proj2 (Z.ltb_ge _ _)), (proj2 (Z.ltb_lt _ _)); lia).
    rewrite E. cbn [take drop]. rewrite take_0, drop_0. split; [by eapply W|done]. }
  destruct (in_range 224 239 b0) eqn:E3.
  { apply in_range_spec in E3. destruct s1 as [|b1 [|b2 s3]]; [done..|]. apply andb_true_iff in Hv as [_ Hv].
    assert (E : char_len b0 = 3%nat).
    { unfold char_len. by rewrite !(proj2 (Z.ltb_ge _ _)), (proj2 (Z.ltb_lt _ _)) by lia. }
    rewrite E. cbn [take drop]. rewrite take_0, drop_0. split; [by eapply W|done]. }
  destruct (in_range 240 244 b0) eqn:E4; [|done].
  apply in_range_spec in E4. destruct s1 as [|b1 [|b2 [|b3 s4]]]; [done..|]. apply andb_true_iff in Hv as [_ Hv].
  assert (E : char_len b0 = 4%nat) by (unfold char_len; by rewrite !(proj2 (Z.ltb_ge _ _)) by lia).
  rewrite E. cbn [take drop]. rewrite take_0, drop_0. split; [by eapply W|done].
Qed.
