(* ===== verification/Values.v ===== *)
(** * Values and the object encoding (crates/rhypedb-wire/src/object.rs)

    [Value], the field map of an object and its binary form: the writer
    ([serialize_fields] and its [_into] variant), the trusting reader of the
    storage path ([deserialize_fields], which panics on malformed bytes), the
    checked reader of the network path ([try_deserialize_fields]), and the
    readers that pick single fields out of the bytes ([extract_field],
    [find_u64_field_in_raw], [find_bytes_field_in_raw],
    [deserialize_fields_projected]).

    A Rust [String] is its UTF-8 bytes; [f32] and [f64] are their bits.  The
    JSON library is the class [Json].  A [HashMap] is the sorted association
    list of its entries; the writer iterates over it in an arbitrary order, so
    it takes the entries in that order. *)

From Stdlib Require Import ZArith Lia Bool List Strings.Byte Sorting.Permutation.
From stdpp Require Import base option list.
From S2P Require Import Prelude ByteMap Utf8.

Local Open Scope Z_scope.
Local Open Scope bytes_scope.

(** ** Machine integers *)

Definition is_u16 (x : Z) : Prop := 0 <= x < 2 ^ 16.
Definition is_i32 (x : Z) : Prop := - 2 ^ 31 <= x < 2 ^ 31.
Definition is_i64 (x : Z) : Prop := - 2 ^ 63 <= x < 2 ^ 63.

Definition as_u16 (x : Z) : Z := x mod 2 ^ 16.
Definition as_i32 (x : Z) : Z := let y := x mod 2 ^ 32 in if y <? 2 ^ 31 then y else y - 2 ^ 32.
Definition as_i64 (x : Z) : Z := let y := x mod 2 ^ 64 in if y <? 2 ^ 63 then y else y - 2 ^ 64.

Definition be16 : Z -> bytes := be 2.

#[global] Arguments be16 : simpl never.

(** ** JSON (serde_json) *)

Class Json := {
  json : Type;
  json_null : json;
  json_to_vec : json -> option bytes;
  json_from_slice : bytes -> option json;
}.

(** JSON as the integer byte it holds, to evaluate examples. *)
Definition toy_json : Json := {|
  json := byte; json_null := x00; json_to_vec j := Some [j];
  json_from_slice b := match b with [j] => Some j | _ => None end;
|}.

Section values.
Context {J : Json}.

Inductive Value :=
| VString (s : bytes)
| VU32 (v : Z)
| VU64 (v : Z)
| VI32 (v : Z)
| VI64 (v : Z)
| VF32 (bits : Z)
| VF64 (bits : Z)
| VBool (b : bool)
| VBytes (b : bytes)
| VDateTime (ms : Z)
| VJson (j : json)
| VNull.

Definition FieldMap : Type := bmap Value.

(** ** Writing *)

(** [serde_json::to_vec(j).unwrap_or_else(|_| b"null".to_vec())]. *)
Definition json_bytes (j : json) : bytes :=
  match json_to_vec j with Some b => b | None => [x6e; x75; x6c; x6c] end.

Definition write_value_into (value : Value) (out : bytes) : bytes :=
  match value with
  | VNull => out ++ [x00]
  | VString s => out ++ [x01] ++ be32 (as_u32 (len s)) ++ s
  | VU32 v => out ++ [x02] ++ be32 v
  | VU64 v => out ++ [x03] ++ be64 v
  | VI32 v => out ++ [x04] ++ be32 (as_u32 v)
  | VI64 v => out ++ [x05] ++ be64 (as_u64 v)
  | VF32 v => out ++ [x06] ++ be32 v
  | VF64 v => out ++ [x07] ++ be64 v
  | VBool v => out ++ [x08] ++ [if v then x01 else x00]
  | VBytes b => out ++ [x09] ++ be32 (as_u32 (len b)) ++ b
  | VDateTime ms => out ++ [x0a] ++ be64 (as_u64 ms)
  | VJson j => out ++ [x0b] ++ be32 (as_u32 (len (json_bytes j))) ++ json_bytes j
  end.

(** The loop of [serialize_fields_into] over the entries in the map's order. *)
Fixpoint write_fields_into (fields : list (bytes * Value)) (out : bytes) : bytes :=
  match fields with
  | [] => out
  | (name, value) :: fields =>
      write_fields_into fields (write_value_into value (out ++ be16 (as_u16 (len name)) ++ name))
  end.

Definition serialize_fields_into (fields : list (bytes * Value)) (out : bytes) : bytes :=
  write_fields_into fields (out ++ be16 (as_u16 (Z.of_nat (length fields)))).

(** The [BytesMut] variant writes each value with the [put_*] calls. *)
Definition put_value (buf : bytes) (value : Value) : bytes :=
  match value with
  | VNull => buf ++ [x00]
  | VString s => ((buf ++ [x01]) ++ be32 (as_u32 (len s))) ++ s
  | VU32 v => (buf ++ [x02]) ++ be32 v
  | VU64 v => (buf ++ [x03]) ++ be64 v
  | VI32 v => (buf ++ [x04]) ++ be32 (as_u32 v)
  | VI64 v => (buf ++ [x05]) ++ be64 (as_u64 v)
  | VF32 v => (buf ++ [x06]) ++ be32 v
  | VF64 v => (buf ++ [x07]) ++ be64 v
  | VBool v => (buf ++ [x08]) ++ [if v then x01 else x00]
  | VBytes b => ((buf ++ [x09]) ++ be32 (as_u32 (len b))) ++ b
  | VDateTime ms => (buf ++ [x0a]) ++ be64 (as_u64 ms)
  | VJson j =>
      let bytes := json_bytes j in
      ((buf ++ [x0b]) ++ be32 (as_u32 (len bytes))) ++ bytes
  end.

Fixpoint put_fields (buf : bytes) (fields : list (bytes * Value)) : bytes :=
  match fields with
  | [] => buf
  | (name, value) :: fields =>
      put_fields (put_value ((buf ++ be16 (as_u16 (len name))) ++ name) value) fields
  end.

Definition serialize_fields_into_bytesmut (fields : list (bytes * Value)) (buf : bytes) : bytes :=
  put_fields (buf ++ be16 (as_u16 (Z.of_nat (length fields)))) fields.

Definition serialize_fields (fields : list (bytes * Value)) : bytes :=
  serialize_fields_into_bytesmut fields [].

(** ** The trusting reader

    The position is the rest of the data; a read past the end panics. *)

Definition de_read (rest : bytes) (n : nat) : res (bytes * bytes) :=
  if (length rest <? n)%nat then Panic else Ok (take n rest, drop n rest).

Definition de_len (rest : bytes) (n : nat) : res (nat * bytes) :=
  '(b, rest) ← de_read rest n; Ok (Z.to_nat (from_be b), rest).

(** [from_utf8(..).unwrap()]. *)
Definition de_str (b : bytes) : res bytes := if utf8_valid b then Ok b else Panic.

Definition de_value (tag : Z) (rest : bytes) : res (Value * bytes) :=
  match tag with
  | 0 => Ok (VNull, rest)
  | 1 => '(n, rest) ← de_len rest 4; '(b, rest) ← de_read rest n; s ← de_str b; Ok (VString s, rest)
  | 2 => '(b, rest) ← de_read rest 4; Ok (VU32 (from_be b), rest)
  | 3 => '(b, rest) ← de_read rest 8; Ok (VU64 (from_be b), rest)
  | 4 => '(b, rest) ← de_read rest 4; Ok (VI32 (as_i32 (from_be b)), rest)
  | 5 => '(b, rest) ← de_read rest 8; Ok (VI64 (as_i64 (from_be b)), rest)
  | 6 => '(b, rest) ← de_read rest 4; Ok (VF32 (from_be b), rest)
  | 7 => '(b, rest) ← de_read rest 8; Ok (VF64 (from_be b), rest)
  | 8 => '(b, rest) ← de_read rest 1; Ok (VBool (negb (from_be b =? 0)), rest)
  | 9 => '(n, rest) ← de_len rest 4; '(b, rest) ← de_read rest n; Ok (VBytes b, rest)
  | 10 => '(b, rest) ← de_read rest 8; Ok (VDateTime (as_i64 (from_be b)), rest)
  | 11 =>
      '(n, rest) ← de_len rest 4; '(b, rest) ← de_read rest n;
      Ok (VJson (default json_null (json_from_slice b)), rest)
  | _ => Ok (VNull, rest)
  end.

Fixpoint de_fields (count : nat) (rest : bytes) (fields : FieldMap) : res FieldMap :=
  match count with
  | O => Ok fields
  | S count =>
      '(name_len, rest) ← de_len rest 2;
      '(nb, rest) ← de_read rest name_len;
      name ← de_str nb;
      '(tag, rest) ← de_read rest 1;
      '(value, rest) ← de_value (from_be tag) rest;
      de_fields count rest (bm_insert name value fields)
  end.

Definition deserialize_fields (data : bytes) : res FieldMap :=
  if (length data <? 2)%nat then Ok []
  else '(count, rest) ← de_len data 2; de_fields count rest [].

(** ** The checked reader

    [InvalidData] is an I/O error. *)

Definition need (rest : bytes) (n : nat) : res unit :=
  if (n <=? length rest)%nat then Ok () else Err Io.

Definition try_read (rest : bytes) (n : nat) : res (bytes * bytes) :=
  _ ← need rest n; de_read rest n.

Definition try_len (rest : bytes) (n : nat) : res (nat * bytes) :=
  '(b, rest) ← try_read rest n; Ok (Z.to_nat (from_be b), rest).

Definition try_str (b : bytes) : res bytes := if utf8_valid b then Ok b else Err Io.

Definition try_value (tag : Z) (rest : bytes) : res (Value * bytes) :=
  match tag with
  | 0 => Ok (VNull, rest)
  | 1 => '(n, rest) ← try_len rest 4; '(b, rest) ← try_read rest n; s ← try_str b; Ok (VString s, rest)
  | 2 => '(b, rest) ← try_read rest 4; Ok (VU32 (from_be b), rest)
  | 3 => '(b, rest) ← try_read rest 8; Ok (VU64 (from_be b), rest)
  | 4 => '(b, rest) ← try_read rest 4; Ok (VI32 (as_i32 (from_be b)), rest)
  | 5 => '(b, rest) ← try_read rest 8; Ok (VI64 (as_i64 (from_be b)), rest)
  | 6 => '(b, rest) ← try_read rest 4; Ok (VF32 (from_be b), rest)
  | 7 => '(b, rest) ← try_read rest 8; Ok (VF64 (from_be b), rest)
  | 8 => '(b, rest) ← try_read rest 1; Ok (VBool (negb (from_be b =? 0)), rest)
  | 9 => '(n, rest) ← try_len rest 4; '(b, rest) ← try_read rest n; Ok (VBytes b, rest)
  | 10 => '(b, rest) ← try_read rest 8; Ok (VDateTime (as_i64 (from_be b)), rest)
  | 11 =>
      '(n, rest) ← try_len rest 4; '(b, rest) ← try_read rest n;
      match json_from_slice b with Some j => Ok (VJson j, rest) | None => Err Io end
  | _ => Err Io
  end.

Fixpoint try_fields (count : nat) (rest : bytes) (fields : FieldMap) : res (FieldMap * bytes) :=
  match count with
  | O => Ok (fields, rest)
  | S count =>
      '(name_len, rest) ← try_len rest 2;
      '(nb, rest) ← try_read rest name_len;
      name ← try_str nb;
      '(tag, rest) ← try_read rest 1;
      '(value, rest) ← try_value (from_be tag) rest;
      try_fields count rest (bm_insert name value fields)
  end.

(** The map and the offset one past the last field. *)
Definition try_deserialize_fields (data : bytes) (start : Z) : res (FieldMap * Z) :=
  '(count, rest) ← try_len (drop (Z.to_nat start) data) 2;
  '(fields, rest) ← try_fields count rest [];
  Ok (fields, len data - len rest).

(** ** Readers of single fields *)

(** The value's length after the tag, with the length prefix consumed; [None]
    is the early return. *)
Definition value_span (tag : Z) (rest : bytes) : option (nat * bytes) :=
  match tag with
  | 0 => Some (0%nat, rest)
  | 2 | 4 | 6 => Some (4%nat, rest)
  | 3 | 5 | 7 | 10 => Some (8%nat, rest)
  | 8 => Some (1%nat, rest)
  | 1 | 9 | 11 =>
      if (length rest <? 4)%nat then None
      else Some (Z.to_nat (from_be (take 4 rest)), drop 4 rest)
  | _ => None
  end.

(** The field header: the name, the tag, the value's length and the bytes from
    the value on. *)
Definition field_header (rest : bytes) : option (bytes * Z * nat * bytes) :=
  if (length rest <? 2)%nat then None
  else
    let name_len := Z.to_nat (from_be (take 2 rest)) in
    let rest := drop 2 rest in
    if (length rest <? name_len + 1)%nat then None
    else
      let name := take name_len rest in
      let rest := drop name_len rest in
      let tag := from_be (take 1 rest) in
      '(n, rest) ← value_span tag (drop 1 rest);
      Some (name, tag, n, rest).

(** The walk of the three single-field readers: the tag and the payload of the
    first field with the name. *)
Fixpoint find_field (count : nat) (rest : bytes) (needle : bytes) : option (Z * bytes) :=
  match count with
  | O => None
  | S count =>
      '(name, tag, n, rest) ← field_header rest;
      if beqb name needle then
        if (length rest <? n)%nat then None else Some (tag, take n rest)
      else find_field count (drop n rest) needle
  end.

Definition find_in_raw (data : bytes) (field_name : bytes) : option (Z * bytes) :=
  if (length data <? 2)%nat then None
  else find_field (Z.to_nat (from_be (take 2 data))) (drop 2 data) field_name.

Definition find_bytes_field_in_raw (data field_name : bytes) : option bytes :=
  '(tag, payload) ← find_in_raw data field_name;
  if tag =? 9 then Some payload else None.

Definition find_u64_field_in_raw (data field_name : bytes) : option Z :=
  '(tag, payload) ← find_in_raw data field_name;
  match tag with
  | 2 => Some (from_be payload)
  | 3 => Some (from_be payload)
  | 4 => Some (as_u64 (as_i32 (from_be payload)))
  | 5 => Some (as_u64 (as_i64 (from_be payload)))
  | _ => None
  end.

(** The value of a payload of a known tag. *)
Definition extract_value (tag : Z) (payload : bytes) : option Value :=
  match tag with
  | 0 => Some VNull
  | 1 => if utf8_valid payload then Some (VString payload) else None
  | 2 => Some (VU32 (from_be payload))
  | 3 => Some (VU64 (from_be payload))
  | 4 => Some (VI32 (as_i32 (from_be payload)))
  | 5 => Some (VI64 (as_i64 (from_be payload)))
  | 6 => Some (VF32 (from_be payload))
  | 7 => Some (VF64 (from_be payload))
  | 8 => Some (VBool (negb (from_be payload =? 0)))
  | 9 => Some (VBytes payload)
  | 10 => Some (VDateTime (as_i64 (from_be payload)))
  | 11 => VJson <$> json_from_slice payload
  | _ => None
  end.

Definition extract_field (data field_name : bytes) : option Value :=
  '(tag, payload) ← find_in_raw data field_name; extract_value tag payload.

(** [deserialize_fields_projected]: an invalid string reads as empty and an
    invalid JSON text as null. *)
Definition projected_value (tag : Z) (payload : bytes) : Value :=
  match tag with
  | 1 => VString (if utf8_valid payload then payload else [])
  | 11 => VJson (default json_null (json_from_slice payload))
  | _ => default VNull (extract_value tag payload)
  end.

Fixpoint projected_fields (count : nat) (rest : bytes) (wanted : list bytes) (fields : FieldMap)
    : FieldMap :=
  match count with
  | O => fields
  | S count =>
      match field_header rest with
      | None => fields
      | Some (name, tag, n, rest) =>
          if (length rest <? n)%nat then fields
          else if existsb (fun w => beqb w name) wanted then
            if utf8_valid name then
              let fields := bm_insert name (projected_value tag (take n rest)) fields in
              if (length fields =? length wanted)%nat then fields
              else projected_fields count (drop n rest) wanted fields
            else projected_fields count (drop n rest) wanted fields
          else projected_fields count (drop n rest) wanted fields
      end
  end.

Definition deserialize_fields_projected (data : bytes) (wanted : list bytes) : FieldMap :=
  if (length data <? 2)%nat || bool_decide (wanted = []) then []
  else projected_fields (Z.to_nat (from_be (take 2 data))) (drop 2 data) wanted [].

(** ** The form of an encoded field *)

Definition value_tag (v : Value) : byte :=
  match v with
  | VNull => x00 | VString _ => x01 | VU32 _ => x02 | VU64 _ => x03 | VI32 _ => x04 | VI64 _ => x05
  | VF32 _ => x06 | VF64 _ => x07 | VBool _ => x08 | VBytes _ => x09 | VDateTime _ => x0a | VJson _ => x0b
  end.

Definition value_payload (v : Value) : bytes :=
  match v with
  | VNull => [] | VString s => s | VU32 v => be32 v | VU64 v => be64 v | VI32 v => be32 (as_u32 v)
  | VI64 v => be64 (as_u64 v) | VF32 v => be32 v | VF64 v => be64 v | VBool b => [if b then x01 else x00]
  | VBytes b => b | VDateTime v => be64 (as_u64 v) | VJson j => json_bytes j
  end.

Definition value_prefix (v : Value) : bytes :=
  match v with
  | VString _ | VBytes _ | VJson _ => be32 (as_u32 (len (value_payload v)))
  | _ => []
  end.

Definition enc_field (f : bytes * Value) : bytes :=
  be16 (as_u16 (len (fst f))) ++ fst f ++ [value_tag (snd f)] ++ value_prefix (snd f) ++ value_payload (snd f).

Definition enc_fields (l : list (bytes * Value)) : bytes := concat (map enc_field l).

(** The values the engine stores: in range for their type, strings valid UTF-8,
    payloads below 4 GiB, JSON that reads back as written. *)
Definition value_ok (v : Value) : Prop :=
  match v with
  | VNull | VBool _ => True
  | VString s => utf8_valid s = true /\ is_u32 (len s)
  | VU32 v | VF32 v => is_u32 v
  | VU64 v | VF64 v => is_u64 v
  | VI32 v => is_i32 v
  | VI64 v | VDateTime v => is_i64 v
  | VBytes b => is_u32 (len b)
  | VJson j => is_u32 (len (json_bytes j)) /\ json_from_slice (json_bytes j) = Some j
  end.

Definition field_ok (f : bytes * Value) : Prop :=
  utf8_valid (fst f) = true /\ is_u16 (len (fst f)) /\ value_ok (snd f).

Lemma write_fields_into_enc l out : write_fields_into l out = out ++ enc_fields l.
Proof.
  revert out. induction l as [|[n v] l IH]; intros out; cbn [write_fields_into]; [by rewrite app_nil_r|].
  rewrite IH. unfold enc_fields, enc_field. cbn [map concat fst snd].
  destruct v; cbn [write_value_into value_tag value_prefix value_payload]; app_solve.
Qed.

Lemma put_fields_enc l buf : put_fields buf l = buf ++ enc_fields l.
Proof.
  revert buf. induction l as [|[n v] l IH]; intros buf; cbn [put_fields]; [by rewrite app_nil_r|].
  rewrite IH. unfold enc_fields, enc_field. cbn [map concat fst snd].
  destruct v; cbn [put_value value_tag value_prefix value_payload]; app_solve.
Qed.

Lemma serialize_fields_enc l :
  serialize_fields l = be16 (as_u16 (Z.of_nat (length l))) ++ enc_fields l.
Proof. unfold serialize_fields, serialize_fields_into_bytesmut. by rewrite put_fields_enc. Qed.

Lemma as_i32_u32 v : is_i32 v -> as_i32 (as_u32 v) = v.
Proof.
  unfold is_i32, as_i32, as_u32. intros H. rewrite Z.mod_mod by lia.
  destruct (Z.ltb_spec (v mod 2 ^ 32) (2 ^ 31)); Z.div_mod_to_equations; lia.
Qed.

Lemma as_i64_u64 v : is_i64 v -> as_i64 (as_u64 v) = v.
Proof.
  unfold is_i64, as_i64, as_u64. intros H. rewrite Z.mod_mod by lia.
  destruct (Z.ltb_spec (v mod 2 ^ 64) (2 ^ 63)); Z.div_mod_to_equations; lia.
Qed.

Lemma as_u32_range v : is_u32 (as_u32 v).
Proof. by apply Z.mod_pos_bound. Qed.

Lemma as_u64_range v : is_u64 (as_u64 v).
Proof. by apply Z.mod_pos_bound. Qed.

Lemma from_be16 x : is_u16 x -> from_be (be16 x) = x.
Proof. intros H. unfold be16. by rewrite from_be_be. Qed.

Lemma as_u16_small x : is_u16 x -> as_u16 x = x.
Proof. apply Z.mod_small. Qed.

Lemma payload_len_u32 v : value_ok v -> value_prefix v <> [] -> is_u32 (len (value_payload v)).
Proof. destruct v; cbn; intros H Hp; try done; by destruct H. Qed.

Lemma len_to_nat (b : bytes) : Z.to_nat (len b) = length b.
Proof. unfold len. lia. Qed.

Lemma extract_value_payload v : value_ok v -> extract_value (b2z (value_tag v)) (value_payload v) = Some v.
Proof.
  intros H. destruct v; cbn [value_tag value_payload value_ok] in *;
    match goal with |- extract_value ?t _ = _ => let x := eval compute in t in change t with x end;
    cbn [extract_value].
  - by destruct H as [-> _].
  - by rewrite from_be32.
  - by rewrite from_be64.
  - rewrite from_be32 by apply as_u32_range. by rewrite as_i32_u32.
  - rewrite from_be64 by apply as_u64_range. by rewrite as_i64_u64.
  - by rewrite from_be32.
  - by rewrite from_be64.
  - by destruct b.
  - done.
  - rewrite from_be64 by apply as_u64_range. by rewrite as_i64_u64.
  - destruct H as [_ ->]. done.
  - done.
Qed.

Lemma value_span_enc v rest :
  value_ok v ->
  value_span (b2z (value_tag v)) (value_prefix v ++ value_payload v ++ rest)
    = Some (length (value_payload v), value_payload v ++ rest).
Proof.
  intros H. assert (Hp : forall b r, is_u32 (len b) ->
    (if (length (be32 (as_u32 (len b)) ++ r) <? 4)%nat then None
     else Some (Z.to_nat (from_be (take 4 (be32 (as_u32 (len b)) ++ r))), drop 4 (be32 (as_u32 (len b)) ++ r)))
    = Some (length b, r)).
  { intros b r Hb. rewrite length_app, length_be32. cbn [Nat.add Nat.ltb Nat.leb].
    rewrite take_mid, drop_mid by by rewrite length_be32.
    by rewrite as_u32_small, from_be32, len_to_nat by done. }
  destruct v; cbn [value_tag value_prefix value_payload value_ok] in *;
    match goal with |- value_span ?t _ = _ => let x := eval compute in t in change t with x end;
    cbn [value_span app]; rewrite ?length_be32, ?length_be64; try done; apply Hp; tauto.
Qed.
Lemma from_be_byte b : from_be [b] = b2z b.
Proof. reflexivity. Qed.

(** What the readers see at an encoded field followed by [rest]. *)
Lemma enc_field_app f rest :
  enc_field f ++ rest =
    be16 (as_u16 (len (fst f))) ++ fst f ++ [value_tag (snd f)] ++ value_prefix (snd f) ++ value_payload (snd f) ++ rest.
Proof. unfold enc_field. app_solve. Qed.

Lemma field_header_enc f rest :
  field_ok f ->
  field_header (enc_field f ++ rest)
    = Some (fst f, b2z (value_tag (snd f)), length (value_payload (snd f)), value_payload (snd f) ++ rest).
Proof.
  destruct f as [n v]. intros (_ & Hn & Hv). rewrite enc_field_app. cbn [fst snd] in *. unfold field_header.
  rewrite as_u16_small by done. rewrite take_mid, drop_mid by done.
  rewrite from_be16, len_to_nat by done.
  rewrite !length_app. cbn [length].
  rewrite take_mid, drop_mid by done. cbn [app take drop]. rewrite take_0, drop_0.
  rewrite from_be_byte, value_span_enc by done. unfold be16. rewrite length_be.
  by rewrite !(proj2 (Nat.ltb_ge _ _)) by lia.
Qed.

Lemma find_field_enc l c needle rest :
  Forall field_ok l -> (length l <= c)%nat ->
  find_field c (enc_fields l ++ rest) needle
    = match list_find (fun f => fst f = needle) l with
      | Some (_, f) => Some (b2z (value_tag (snd f)), value_payload (snd f))
      | None => find_field (c - length l) rest needle
      end.
Proof.
  intros H. revert c. induction H as [|f l Hf Hl IH]; intros c Hc; cbn [length] in *.
  { by rewrite Nat.sub_0_r. }
  destruct c as [|c]; [lia|]. unfold enc_fields. cbn [map concat find_field]. rewrite <- app_assoc.
  rewrite field_header_enc by done. cbn [mbind option_bind list_find].
  destruct (beqb_spec (fst f) needle) as [Hn|Hn].
  - rewrite decide_True by done. rewrite length_app.
    destruct (Nat.ltb_spec (length (value_payload (snd f)) + length (concat (map enc_field l) ++ rest)) (length (value_payload (snd f)))); [lia|].
    by rewrite take_mid.
  - rewrite decide_False by done. rewrite drop_mid by done. fold (enc_fields l). rewrite IH by lia.
    destruct (list_find _ l) as [[i g]|]; done.
Qed.

Lemma try_read_eq r n :
  try_read r n = if (length r <? n)%nat then Err Io else Ok (take n r, drop n r).
Proof.
  unfold try_read, need, de_read. destruct (Nat.ltb_spec (length r) n) as [H|H].
  - by rewrite (proj2 (Nat.leb_gt _ _)).
  - by rewrite (proj2 (Nat.leb_le _ _)).
Qed.

(** The checked reader of a value is its span and its payload's value. *)
Lemma try_value_span tag rest :
  try_value tag rest =
    match value_span tag rest with
    | Some (n, rest) =>
        if (length rest <? n)%nat then Err Io
        else match extract_value tag (take n rest) with Some v => Ok (v, drop n rest) | None => Err Io end
    | None => Err Io
    end.
Proof.
  unfold try_value, value_span, extract_value, try_len, try_str.
  repeat (match goal with |- context [match ?x with _ => _ end] => is_var x; destruct x end; try done);
  rewrite ?take_0, ?drop_0;
  repeat (rewrite ?try_read_eq; try done; case_match; cbn [mbind res_bind fmap option_fmap option_map]; try done).
Qed.

Lemma try_read_ok r n x : try_read r n = Ok x -> de_read r n = Ok x.
Proof. unfold try_read, need. by case_match. Qed.

Lemma try_len_ok r n x : try_len r n = Ok x -> de_len r n = Ok x.
Proof. unfold try_len, de_len. destruct (try_read r n) as [y| |] eqn:E; try done. by rewrite (try_read_ok _ _ _ E). Qed.

(** [bind] of two readers, the checked one first. *)
Lemma bind_ok_mono {A B} (m m' : res A) (k k' : A -> res B) y :
  (forall x, m = Ok x -> m' = Ok x) -> (forall x, k x = Ok y -> k' x = Ok y) ->
  (m ≫= k) = Ok y -> (m' ≫= k') = Ok y.
Proof. intros Hm Hk H. destruct m as [x| |]; try done. rewrite (Hm x eq_refl). by apply Hk. Qed.

Ltac reader_mono :=
  repeat first
    [ done
    | apply bind_ok_mono;
        [ intros ?; first [apply try_len_ok | apply try_read_ok | unfold try_str, de_str; by case_match]
        | intros [] || intros ? ] ].

Lemma try_value_ok tag r x : try_value tag r = Ok x -> de_value tag r = Ok x.
Proof.
  unfold try_value, de_value.
  repeat (match goal with |- context [match ?x with _ => _ end] => is_var x; destruct x end; try done); reader_mono.
  by case_match.
Qed.

Lemma try_fields_ok c r acc fm rest : try_fields c r acc = Ok (fm, rest) -> de_fields c r acc = Ok fm.
Proof.
  revert r acc. induction c as [|c IH]; intros r acc; cbn [try_fields de_fields]; [by intros [= <- _]|].
  intros H. destruct (try_len r 2) as [[n r1]| |] eqn:E1; try done. rewrite (try_len_ok _ _ _ E1). cbn [mbind res_bind] in *.
  destruct (try_read r1 n) as [[nb r2]| |] eqn:E2; try done. rewrite (try_read_ok _ _ _ E2). cbn [mbind res_bind] in *.
  unfold try_str, de_str in *. destruct (utf8_valid nb); cbn [mbind res_bind] in *; [|done].
  destruct (try_read r2 1) as [[tb r3]| |] eqn:E3; try done. rewrite (try_read_ok _ _ _ E3). cbn [mbind res_bind] in *.
  destruct (try_value (from_be tb) r3) as [[v r4]| |] eqn:E4; try done. rewrite (try_value_ok _ _ _ E4). cbn [mbind res_bind] in *.
  by apply IH.
Qed.

Definition not_panic {A} (m : res A) : Prop := m <> Panic.

Lemma bind_not_panic {A B} (m : res A) (k : A -> res B) :
  not_panic m -> (forall x, not_panic (k x)) -> not_panic (m ≫= k).
Proof. unfold not_panic. destruct m; cbn; intros; eauto. Qed.

Lemma try_read_total r n : not_panic (try_read r n).
Proof. rewrite try_read_eq. by case_match. Qed.

Lemma try_len_total r n : not_panic (try_len r n).
Proof. apply bind_not_panic; [apply try_read_total|by intros []]. Qed.

Lemma try_value_total tag r : not_panic (try_value tag r).
Proof. rewrite try_value_span. by repeat case_match. Qed.

Lemma try_fields_total c r acc : not_panic (try_fields c r acc).
Proof.
  revert r acc. induction c as [|c IH]; intros r acc; cbn [try_fields]; [done|].
  apply bind_not_panic; [apply try_len_total|intros [n r1]].
  apply bind_not_panic; [apply try_read_total|intros [nb r2]].
  apply bind_not_panic; [unfold try_str; by case_match|intros s].
  apply bind_not_panic; [apply try_read_total|intros [tb r3]].
  apply bind_not_panic; [apply try_value_total|intros [v r4]]. apply IH.
Qed.

Lemma try_read_shrinks r n b r' : try_read r n = Ok (b, r') -> (length r' + n = length r)%nat.
Proof.
  rewrite try_read_eq. destruct (Nat.ltb_spec (length r) n); [done|]. intros [= <- <-]. rewrite length_drop. lia.
Qed.

Lemma try_len_shrinks r n m r' : try_len r n = Ok (m, r') -> (length r' + n = length r)%nat.
Proof.
  unfold try_len. destruct (try_read r n) as [[b r1]| |] eqn:E; try done. cbn. intros [= _ <-].
  by eapply try_read_shrinks.
Qed.

Lemma value_span_shrinks tag r n r' : value_span tag r = Some (n, r') -> (length r' <= length r)%nat.
Proof. unfold value_span. repeat case_match; intros [= <- <-]; rewrite ?length_drop; lia. Qed.

Lemma try_value_shrinks tag r v r' : try_value tag r = Ok (v, r') -> (length r' <= length r)%nat.
Proof.
  rewrite try_value_span. destruct (value_span tag r) as [[n r1]|] eqn:E; [|done].
  apply value_span_shrinks in E. repeat case_match; try done. intros [= _ <-]. rewrite length_drop. lia.
Qed.

Lemma try_fields_shrinks c r acc fm rest : try_fields c r acc = Ok (fm, rest) -> (length rest <= length r)%nat.
Proof.
  revert r acc. induction c as [|c IH]; intros r acc; cbn [try_fields]; [by intros [= _ <-]|].
  destruct (try_len r 2) as [[n r1]| |] eqn:E1; try done. cbn [mbind res_bind].
  destruct (try_read r1 n) as [[nb r2]| |] eqn:E2; try done. cbn [mbind res_bind].
  destruct (try_str nb); try done. cbn [mbind res_bind].
  destruct (try_read r2 1) as [[tb r3]| |] eqn:E3; try done. cbn [mbind res_bind].
  destruct (try_value (from_be tb) r3) as [[v r4]| |] eqn:E4; try done. cbn [mbind res_bind].
  apply try_len_shrinks in E1. apply try_read_shrinks in E2, E3. apply try_value_shrinks in E4.
  intros H%IH. lia.
Qed.

(** ** Round trip *)

Lemma try_read_app n b r : length b = n -> try_read (b ++ r) n = Ok (b, r).
Proof.
  intros <-. rewrite try_read_eq, length_app, (proj2 (Nat.ltb_ge _ _)) by lia. by rewrite take_mid, drop_mid.
Qed.

Lemma try_len_app n b r : length b = n -> try_len (b ++ r) n = Ok (Z.to_nat (from_be b), r).
Proof. intros H. unfold try_len. by rewrite try_read_app. Qed.

Lemma try_value_enc v rest :
  value_ok v -> try_value (b2z (value_tag v)) (value_prefix v ++ value_payload v ++ rest) = Ok (v, rest).
Proof.
  intros H. rewrite try_value_span, value_span_enc by done. rewrite length_app, (proj2 (Nat.ltb_ge _ _)) by lia.
  rewrite take_mid, drop_mid by done. by rewrite extract_value_payload.
Qed.

Lemma try_fields_enc l rest acc :
  Forall field_ok l -> try_fields (length l) (enc_fields l ++ rest) acc = Ok (bm_insert_all l acc, rest).
Proof.
  intros H. revert acc. induction H as [|[n v] l (Hu & Hn & Hv) _ IH]; intros acc; cbn [length try_fields]; [done|].
  unfold enc_fields. cbn [map concat]. rewrite <- app_assoc, enc_field_app. cbn [fst snd] in *.
  rewrite as_u16_small, try_len_app, from_be16, len_to_nat by done. cbn [mbind res_bind].
  rewrite try_read_app by done. cbn [mbind res_bind]. unfold try_str. rewrite Hu. cbn [mbind res_bind].
  rewrite try_read_app by done. cbn [mbind res_bind]. rewrite from_be_byte, try_value_enc by done.
  cbn [mbind res_bind]. apply IH.
Qed.

Lemma try_deserialize_serialized l pre rest :
  Forall field_ok l -> is_u16 (Z.of_nat (length l)) ->
  try_deserialize_fields (pre ++ serialize_fields l ++ rest) (len pre)
    = Ok (bm_insert_all l [], len pre + len (serialize_fields l)).
Proof.
  intros H Hl. unfold try_deserialize_fields. rewrite len_to_nat, drop_mid by done.
  rewrite serialize_fields_enc, as_u16_small, <- app_assoc, try_len_app, from_be16, Nat2Z.id by done.
  cbn [mbind res_bind]. rewrite try_fields_enc by done. cbn [mbind res_bind]. do 2 f_equal.
  unfold len. rewrite !length_app. lia.
Qed.

Lemma deserialize_serialized l :
  Forall field_ok l -> is_u16 (Z.of_nat (length l)) ->
  deserialize_fields (serialize_fields l) = Ok (bm_insert_all l []).
Proof.
  intros H Hl. unfold deserialize_fields. rewrite serialize_fields_enc, as_u16_small by done.
  rewrite length_app. unfold be16 at 1. rewrite length_be, (proj2 (Nat.ltb_ge _ _)) by lia.
  rewrite (try_len_ok _ _ _ (try_len_app 2 (be16 (Z.of_nat (length l))) (enc_fields l) eq_refl)).
  cbn [mbind res_bind]. rewrite from_be16, Nat2Z.id by done.
  eapply try_fields_ok. rewrite <- (app_nil_r (enc_fields l)). by apply try_fields_enc.
Qed.

(** ** Reading back a map written in any order *)

Section any_order.
Context (fm : FieldMap) (l : list (bytes * Value)).
Hypothesis (Hs : bsorted fm) (Hl : l ≡ₚ fm).

Lemma order_in k v : In (k, v) l <-> bm_get k fm = Some v.
Proof. rewrite bm_get_in by done. split; apply Permutation_in; [done|by symmetry]. Qed.

Lemma order_nodup : NoDup (map fst l).
Proof. rewrite Hl. by apply bsorted_nodup. Qed.

Lemma insert_all_order : bm_insert_all l [] = fm.
Proof.
  apply bm_ext; [by apply bsorted_insert_all, bsorted_nil|done|]. intros k.
  destruct (bm_get k fm) as [v|] eqn:G.
  - apply bm_get_insert_all_in; [by apply bsorted_nil|by apply order_nodup|by apply order_in].
  - rewrite bm_get_insert_all_notin; [done|by apply bsorted_nil|]. rewrite in_map_iff. intros ([k' v] & Hk & Hin).
    cbn in Hk. subst. apply order_in in Hin. congruence.
Qed.

Lemma find_order k :
  match list_find (fun f => fst f = k) l with Some (_, f) => Some (snd f) | None => None end = bm_get k fm.
Proof.
  destruct (list_find _ l) as [[i [k' v]]|] eqn:E.
  - apply list_find_Some in E as (Hi & Hk & _). cbn in *. subst. symmetry. apply order_in.
    by eapply list_elem_of_In, list_elem_of_lookup_2.
  - apply list_find_None in E. destruct (bm_get k fm) as [v|] eqn:G; [|done]. exfalso.
    rewrite Forall_forall in E. apply (E (k, v)); [|done]. by apply list_elem_of_In, order_in.
Qed.

Lemma find_in_raw_order k :
  Forall field_ok l -> is_u16 (Z.of_nat (length l)) ->
  find_in_raw (serialize_fields l) k
    = (fun v => (b2z (value_tag v), value_payload v)) <$> bm_get k fm.
Proof.
  intros H Hn. unfold find_in_raw. rewrite serialize_fields_enc, as_u16_small by done.
  rewrite length_app. unfold be16 at 1. rewrite length_be, (proj2 (Nat.ltb_ge _ _)) by lia.
  rewrite take_mid, drop_mid, from_be16, Nat2Z.id by done.
  rewrite <- (app_nil_r (enc_fields l)), find_field_enc, <- find_order by done.
  destruct (list_find _ l) as [[i f]|]; [done|]. by rewrite Nat.sub_diag.
Qed.

Lemma extract_field_order k :
  Forall field_ok l -> is_u16 (Z.of_nat (length l)) ->
  extract_field (serialize_fields l) k = bm_get k fm.
Proof.
  intros H Hn. unfold extract_field. rewrite find_in_raw_order by done.
  destruct (bm_get k fm) as [v|] eqn:G; [|done]. cbn. apply extract_value_payload.
  apply order_in, list_elem_of_In in G. rewrite Forall_forall in H. by apply (H _ G).
Qed.
End any_order.

(** The projection of a map to the wanted names. *)
Definition projection (wanted : list bytes) (fm : FieldMap) : FieldMap :=
  List.filter (fun f => existsb (fun w => beqb w (fst f)) wanted) fm.

Lemma wanted_spec wanted n : existsb (fun w => beqb w n) wanted = true <-> In n wanted.
Proof.
  rewrite existsb_exists. split.
  - intros (w & Hw & E). by destruct (beqb_spec w n) as [<-|].
  - intros H. exists n. split; [done|]. by destruct (beqb_spec n n).
Qed.

(** Every wanted name is found once as many fields are found as are wanted. *)
Lemma all_found (fields : FieldMap) wanted :
  bsorted fields -> (forall k, In k (map fst fields) -> In k wanted) -> length fields = length wanted ->
  forall k, In k wanted -> In k (map fst fields).
Proof.
  intros Hs Hsub Hlen. apply NoDup_length_incl; [|by rewrite length_map, Hlen|exact Hsub].
  apply NoDup_ListNoDup. by apply bsorted_nodup.
Qed.

Lemma projected_value_payload v : value_ok v -> projected_value (b2z (value_tag v)) (value_payload v) = v.
Proof.
  intros H. pose proof (extract_value_payload v H) as E. unfold projected_value. rewrite E.
  destruct v; try done; cbn in *; destruct H as [H1 H2]; [by rewrite H1|by rewrite H2].
Qed.

Lemma projection_nil wanted l :
  (forall f, In f l -> ~ In (fst f) wanted) -> projection wanted l = [].
Proof.
  intros H. induction l as [|f l IH]; [done|]. cbn [projection List.filter].
  destruct (existsb _ wanted) eqn:E; [|by apply IH; intros; apply H; right].
  apply wanted_spec in E. by apply H in E; [|left].
Qed.

Lemma projected_fields_enc l rest wanted acc :
  Forall field_ok l -> NoDup (map fst l) -> bsorted acc ->
  (forall k, In k (map fst acc) -> In k wanted /\ ~ In k (map fst l)) ->
  projected_fields (length l) (enc_fields l ++ rest) wanted acc = bm_insert_all (projection wanted l) acc.
Proof.
  intros H. revert acc. induction H as [|f l Hf Hl IH]; intros acc Hn Hs Ha; [done|].
  cbn [length projected_fields]. unfold enc_fields. cbn [map concat]. rewrite <- app_assoc.
  rewrite field_header_enc by done. rewrite length_app, (proj2 (Nat.ltb_ge _ _)) by lia.
  rewrite take_mid, drop_mid by done. fold (enc_fields l).
  cbn [map] in Hn. apply NoDup_cons in Hn as [Hk Hn]. rewrite list_elem_of_In in Hk.
  cbn [projection List.filter]. destruct (existsb _ wanted) eqn:Ew.
  2:{ rewrite IH; try done. intros k Hin. apply Ha in Hin as [? Hin]. split; [done|]. contradict Hin. by right. }
  apply wanted_spec in Ew. destruct Hf as (Hu & _ & Hv). rewrite Hu, projected_value_payload by done.
  set (acc' := bm_insert (fst f) (snd f) acc).
  assert (Hs' : bsorted acc') by by apply bsorted_insert.
  assert (Ha' : forall k, In k (map fst acc') -> In k wanted /\ ~ In k (map fst l)).
  { intros k (e & <- & He)%in_map_iff. destruct e as [k' v']. apply in_bm_insert in He as [[-> ->]|[Hne He]]; [done| |done].
    apply (in_map fst) in He. apply Ha in He as [? He]. split; [done|]. contradict He. by right. }
  change (bm_insert_all (f :: List.filter _ l) acc) with (bm_insert_all (projection wanted l) acc').
  destruct (Nat.eqb_spec (length acc') (length wanted)) as [E|E]; [|by apply IH].
  rewrite projection_nil; [done|]. intros g Hg Eg.
  eapply (all_found acc' wanted) in Eg; [|done|intros; by apply Ha'|done].
  apply Ha' in Eg as [_ Eg]. apply Eg. by apply in_map.
Qed.

Lemma projection_perm wanted l fm : l ≡ₚ fm -> projection wanted l ≡ₚ projection wanted fm.
Proof.
  unfold projection. induction 1; cbn [List.filter]; repeat case_match; eauto using Permutation.
Qed.

(** The integer a field holds, sign-extended to 64 bits. *)
Definition value_u64 (v : Value) : option Z :=
  match v with
  | VU32 v | VU64 v => Some v
  | VI32 v | VI64 v => Some (as_u64 v)
  | _ => None
  end.

Definition value_bytes (v : Value) : option bytes := match v with VBytes b => Some b | _ => None end.

Lemma find_u64_payload v :
  value_ok v ->
  match b2z (value_tag v) with
  | 2 | 3 => Some (from_be (value_payload v))
  | 4 => Some (as_u64 (as_i32 (from_be (value_payload v))))
  | 5 => Some (as_u64 (as_i64 (from_be (value_payload v))))
  | _ => None
  end = value_u64 v.
Proof.
  intros H. destruct v; cbn [value_tag value_payload value_ok value_u64] in *;
    match goal with |- context [b2z ?t] => let x := eval compute in (b2z t) in change (b2z t) with x end; cbv iota; try done.
  - by rewrite from_be32.
  - by rewrite from_be64.
  - rewrite from_be32 by apply as_u32_range. by rewrite as_i32_u32.
  - rewrite from_be64 by apply as_u64_range. by rewrite as_i64_u64.
Qed.

(** ** The properties *)

(** C23: What the writer stores for a map of in-range fields, in whatever order
    it meets the entries and with either output buffer, both readers give back:
    the trusting one exactly the map, the checked one the map and the offset
    after it wherever the encoding lies in a larger buffer. *)
Theorem object_round_trip fm l :
  bsorted fm -> l ≡ₚ fm -> Forall field_ok l -> is_u16 (Z.of_nat (length l)) ->
  deserialize_fields (serialize_fields l) = Ok fm /\
  (forall pre rest,
     try_deserialize_fields (pre ++ serialize_fields l ++ rest) (len pre)
       = Ok (fm, len pre + len (serialize_fields l))) /\
  (forall out, serialize_fields_into l out = out ++ serialize_fields l).
Proof.
  intros Hs Hl H Hn. repeat split; intros.
  - by rewrite deserialize_serialized, (insert_all_order fm).
  - by rewrite try_deserialize_serialized, (insert_all_order fm).
  - unfold serialize_fields_into. rewrite write_fields_into_enc, serialize_fields_enc. app_solve.
Qed.

(** On stored bytes the readers of single fields agree with the map that was
    written: the typed value of any field, the integer and the byte fields, and
    the projection to any list of names (its early exit included). *)
Theorem field_readers_agree fm l :
  bsorted fm -> l ≡ₚ fm -> Forall field_ok l -> is_u16 (Z.of_nat (length l)) ->
  (forall k, extract_field (serialize_fields l) k = bm_get k fm) /\
  (forall k, find_u64_field_in_raw (serialize_fields l) k = bm_get k fm ≫= value_u64) /\
  (forall k, find_bytes_field_in_raw (serialize_fields l) k = bm_get k fm ≫= value_bytes) /\
  (forall wanted, deserialize_fields_projected (serialize_fields l) wanted = projection wanted fm).
Proof.
  intros Hs Hl H Hn.
  assert (Hok : forall k v, bm_get k fm = Some v -> value_ok v).
  { intros k v G. apply (order_in fm l), list_elem_of_In in G; [|done..]. rewrite Forall_forall in H. by apply (H _ G). }
  repeat split.
  - intros k. by apply extract_field_order.
  - intros k. unfold find_u64_field_in_raw. rewrite (find_in_raw_order fm) by done.
    destruct (bm_get k fm) as [v|] eqn:G; [|done]. cbn [fmap option_fmap option_map mbind option_bind].
    rewrite <- find_u64_payload by eauto. done.
  - intros k. unfold find_bytes_field_in_raw. rewrite (find_in_raw_order fm) by done.
    destruct (bm_get k fm) as [v|] eqn:G; [|done]. by destruct v.
  - intros wanted. unfold deserialize_fields_projected. rewrite serialize_fields_enc, as_u16_small by done.
    rewrite length_app. unfold be16 at 1. rewrite length_be, (proj2 (Nat.ltb_ge _ _)) by lia. cbn [orb].
    rewrite take_mid, drop_mid, from_be16, Nat2Z.id by done.
    case_bool_decide as Ew.
    { subst. symmetry. unfold projection. cbn. clear. by induction fm. }
    rewrite <- (app_nil_r (enc_fields l)), projected_fields_enc; try done.
    + apply insert_all_order; [by apply bsorted_filter|by apply projection_perm].
    + by apply (order_nodup fm).
    + apply bsorted_nil.
Qed.

(** The checked reader never panics on any bytes at any offset; when it
    accepts, the end offset it reports lies inside the data and at most the
    whole of it is consumed, and the trusting reader run from the same offset
    returns the same map instead of panicking. *)
Theorem checked_reader_total data start :
  0 <= start ->
  try_deserialize_fields data start <> Panic /\
  (forall fm stop, try_deserialize_fields data start = Ok (fm, stop) ->
     start + 2 <= stop <= len data /\ deserialize_fields (drop (Z.to_nat start) data) = Ok fm).
Proof.
  intros Hst. unfold try_deserialize_fields. split.
  { apply bind_not_panic; [apply try_len_total|intros [c r]].
    apply bind_not_panic; [apply try_fields_total|by intros []]. }
  intros fm stop. destruct (try_len _ 2) as [[c r]| |] eqn:E1; try done. cbn [mbind res_bind].
  destruct (try_fields c r []) as [[fm' rest]| |] eqn:E2; try done. cbn [mbind res_bind]. intros [= <- <-].
  pose proof (try_len_shrinks _ _ _ _ E1) as L1. pose proof (try_fields_shrinks _ _ _ _ _ E2) as L2.
  rewrite length_drop in L1. split; [unfold len; lia|].
  unfold deserialize_fields. rewrite length_drop, (proj2 (Nat.ltb_ge _ _)) by lia.
  rewrite (try_len_ok _ _ _ E1). by eapply try_fields_ok.
Qed.

End values.

(** ** Witnesses *)

Module Sample.
#[local] Existing Instance toy_json.

(** [{a: -7i32, b: "é", c: 0xff, j: json, n: null, t: true, u: 2^40}], met by the
    writer out of order. *)
Definition fm : FieldMap :=
  [([x61], VI32 (-7)); ([x62], VString [xc3; xa9]); ([x63], VBytes [xff]); ([x6a], VJson x2a);
   ([x6e], VNull); ([x74], VBool true); ([x75], VU64 (2 ^ 40))].

Definition order : list (bytes * Value) :=
  [([x62], VString [xc3; xa9]); ([x61], VI32 (-7)); ([x63], VBytes [xff]); ([x6a], VJson x2a);
   ([x6e], VNull); ([x74], VBool true); ([x75], VU64 (2 ^ 40))].

Lemma fm_sorted : bsorted fm.
Proof. repeat constructor. Defined.

Lemma order_perm : order ≡ₚ fm.
Proof. apply perm_swap. Defined.

Lemma order_ok : Forall field_ok order.
Proof. unfold order. repeat (apply Forall_cons_2; [repeat split; by vm_compute|]). by apply Forall_nil_2. Defined.

Lemma order_count : is_u16 (Z.of_nat (length order)).
Proof. split; cbn; lia. Defined.
End Sample.

Lemma object_round_trip_witness :
  let _ := toy_json in
  deserialize_fields (serialize_fields Sample.order) = Ok Sample.fm /\
  serialize_fields Sample.order <> serialize_fields Sample.fm.
Proof.
  cbv zeta. split; [|by vm_compute].
  by destruct (object_round_trip (J := toy_json) Sample.fm Sample.order Sample.fm_sorted Sample.order_perm
    Sample.order_ok Sample.order_count).
Defined.

Lemma field_readers_agree_witness :
  let _ := toy_json in
  find_u64_field_in_raw (serialize_fields Sample.order) [x61] = Some (2 ^ 64 - 7) /\
  deserialize_fields_projected (serialize_fields Sample.order) [[x75]; [x61]]
    = [([x61], VI32 (-7)); ([x75], VU64 (2 ^ 40))].
Proof.
  cbv zeta.
  destruct (field_readers_agree (J := toy_json) Sample.fm Sample.order Sample.fm_sorted Sample.order_perm
    Sample.order_ok Sample.order_count) as (_ & H1 & _ & H2).
  split; [by rewrite H1|by rewrite H2].
Defined.

Lemma checked_reader_total_witness :
  let _ := toy_json in
  let data := [x00; x01; x00; x01; x61; x01; x00; x00; x00; x09] in
  try_deserialize_fields data 0 <> Panic /\ deserialize_fields data = Panic.
Proof.
  cbv zeta. split; [|by vm_compute].
  by destruct (checked_reader_total (J := toy_json) [x00; x01; x00; x01; x61; x01; x00; x00; x00; x09] 0).
Defined.
