(* ===== verification/Ieee.v ===== *)
(** * IEEE-754 values of bit patterns

    Rust's [f64] and [f32] as their bits: the value of a pattern in the
    Standard Library's [spec_float], the comparisons of [PartialOrd], the
    conversions of [as f64], and the fact the sortable encoding of the index
    rests on: patterns without NaN order as sign and magnitude. *)

From Stdlib Require Import ZArith Lia Bool SpecFloat.
From stdpp Require Import base tactics option.
From S2P Require Import Prelude.

Local Open Scope Z_scope.

(** ** Values *)

(** The value of a sign and a 63-bit magnitude (exponent field and fraction). *)
Definition f64_parts (s : bool) (m : Z) : spec_float :=
  let e := m / 2 ^ 52 in
  let f := m mod 2 ^ 52 in
  if e =? 2047 then (if f =? 0 then S754_infinity s else S754_nan)
  else if e =? 0 then (if f =? 0 then S754_zero s else S754_finite s (Z.to_pos f) (-1074))
  else S754_finite s (Z.to_pos (f + 2 ^ 52)) (e - 1075).

Definition f64_sign (bits : Z) : bool := 2 ^ 63 <=? bits.
Definition f64_mag (bits : Z) : Z := bits mod 2 ^ 63.
Definition f64_of (bits : Z) : spec_float := f64_parts (f64_sign bits) (f64_mag bits).

(** [v as f64] for an [f32]: exact; a NaN is made quiet and keeps its payload. *)
Definition f32_to_f64 (bits : Z) : Z :=
  let s := if 2 ^ 31 <=? bits then 2 ^ 63 else 0 in
  let e := (bits / 2 ^ 23) mod 2 ^ 8 in
  let f := bits mod 2 ^ 23 in
  if e =? 255 then
    s + 2047 * 2 ^ 52 + (if f =? 0 then 0 else Z.lor (2 ^ 51) (f * 2 ^ 29))
  else if e =? 0 then
    if f =? 0 then s
    else
      let k := Z.log2 f in
      s + (k - 149 + 1023) * 2 ^ 52 + (f - 2 ^ k) * 2 ^ (52 - k)
  else s + (e + 896) * 2 ^ 52 + f * 2 ^ 29.

(** [n as f64] for an integer: rounded to nearest, ties to even. *)
Definition int_as_f64 (n : Z) : spec_float := binary_normalize 53 1024 n 0 false.

(** ** [PartialOrd] *)

Definition f_eq (a b : spec_float) : bool := match SFcompare a b with Some Eq => true | _ => false end.
Definition f_lt (a b : spec_float) : bool := match SFcompare a b with Some Lt => true | _ => false end.
Definition f_le (a b : spec_float) : bool := match SFcompare a b with Some (Lt | Eq) => true | _ => false end.
Definition f_gt (a b : spec_float) : bool := match SFcompare a b with Some Gt => true | _ => false end.
Definition f_ge (a b : spec_float) : bool := match SFcompare a b with Some (Gt | Eq) => true | _ => false end.

(** ** Order *)

Definition f64_inf : Z := 2047 * 2 ^ 52.
Definition is_nan (bits : Z) : bool := f64_inf <? f64_mag bits.

Lemma f64_parts_nan s m : 0 <= m < 2 ^ 63 -> f64_parts s m = S754_nan <-> f64_inf < m.
Proof.
  unfold f64_parts, f64_inf. intros H.
  destruct (Z.eqb_spec (m / 2 ^ 52) 2047); [destruct (Z.eqb_spec (m mod 2 ^ 52) 0)|
    destruct (Z.eqb_spec (m / 2 ^ 52) 0); [destruct (Z.eqb_spec (m mod 2 ^ 52) 0)|]];
    split; try done; Z.div_mod_to_equations; lia.
Qed.

Lemma is_nan_spec bits : is_nan bits = true <-> f64_of bits = S754_nan.
Proof.
  unfold is_nan, f64_of. rewrite f64_parts_nan by (apply Z.mod_pos_bound; lia). apply Z.ltb_lt.
Qed.

Lemma to_pos_compare a b : 0 < a -> 0 < b -> Pos.compare_cont Eq (Z.to_pos a) (Z.to_pos b) = (a ?= b).
Proof. intros Ha Hb. change (Pos.compare (Z.to_pos a) (Z.to_pos b) = (a ?= b)).
  rewrite <- (Z2Pos.id a), <- (Z2Pos.id b) at 2 by done. done. Qed.

Lemma compare_split (a b : Z) c :
  (a < b -> c = Lt) -> (a = b -> c = Eq) -> (b < a -> c = Gt) -> c = (a ?= b).
Proof. destruct (Z.compare_spec a b); auto. Qed.

(** Values of one sign order as their magnitudes. *)
Lemma f64_parts_compare_pos m1 m2 :
  0 <= m1 <= f64_inf -> 0 <= m2 <= f64_inf ->
  SFcompare (f64_parts false m1) (f64_parts false m2) = Some (m1 ?= m2).
Proof.
  unfold f64_parts, f64_inf. intros H1 H2.
  pose proof (Z.div_mod m1 (2 ^ 52) ltac:(lia)) as D1. pose proof (Z.div_mod m2 (2 ^ 52) ltac:(lia)) as D2.
  pose proof (Z.mod_pos_bound m1 (2 ^ 52) ltac:(lia)). pose proof (Z.mod_pos_bound m2 (2 ^ 52) ltac:(lia)).
  set (e1 := m1 / 2 ^ 52) in *. set (f1 := m1 mod 2 ^ 52) in *.
  set (e2 := m2 / 2 ^ 52) in *. set (f2 := m2 mod 2 ^ 52) in *. clearbody e1 f1 e2 f2.
  destruct (Z.eqb_spec e1 2047), (Z.eqb_spec e2 2047), (Z.eqb_spec e1 0), (Z.eqb_spec e2 0),
    (Z.eqb_spec f1 0), (Z.eqb_spec f2 0); try lia;
    cbn [SFcompare]; f_equal; apply compare_split; intros; try lia;
    try match goal with |- context [?a ?= ?b] => destruct (Z.compare_spec a b) end;
    rewrite ?to_pos_compare by lia; try lia; try reflexivity;
    first [apply Z.compare_lt_iff | apply Z.compare_eq_iff | apply Z.compare_gt_iff]; lia.
Qed.

Lemma SFcompare_opp a b : SFcompare (SFopp a) (SFopp b) = CompOpp <$> SFcompare a b.
Proof.
  destruct a as [[]|[]| |[] m1 e1], b as [[]|[]| |[] m2 e2]; try reflexivity; cbn;
    destruct (e1 ?= e2); try reflexivity. by rewrite CompOpp_involutive.
Qed.

Lemma f64_parts_opp m : f64_parts true m = SFopp (f64_parts false m).
Proof. unfold f64_parts. by repeat case_match. Qed.

Lemma f64_parts_compare_neg m1 m2 :
  0 <= m1 <= f64_inf -> 0 <= m2 <= f64_inf ->
  SFcompare (f64_parts true m1) (f64_parts true m2) = Some (m2 ?= m1).
Proof.
  intros H1 H2. rewrite !f64_parts_opp, SFcompare_opp, f64_parts_compare_pos by done.
  cbn. by rewrite <- Z.compare_antisym.
Qed.

Lemma f64_parts_compare_mixed m1 m2 :
  0 <= m1 <= f64_inf -> 0 <= m2 <= f64_inf ->
  SFcompare (f64_parts true m1) (f64_parts false m2) = Some (if (m1 =? 0) && (m2 =? 0) then Eq else Lt) /\
  SFcompare (f64_parts false m1) (f64_parts true m2) = Some (if (m1 =? 0) && (m2 =? 0) then Eq else Gt).
Proof.
  unfold f64_parts, f64_inf. intros H1 H2.
  pose proof (Z.div_mod m1 (2 ^ 52) ltac:(lia)) as D1. pose proof (Z.div_mod m2 (2 ^ 52) ltac:(lia)) as D2.
  pose proof (Z.mod_pos_bound m1 (2 ^ 52) ltac:(lia)). pose proof (Z.mod_pos_bound m2 (2 ^ 52) ltac:(lia)).
  set (e1 := m1 / 2 ^ 52) in *. set (f1 := m1 mod 2 ^ 52) in *.
  set (e2 := m2 / 2 ^ 52) in *. set (f2 := m2 mod 2 ^ 52) in *. clearbody e1 f1 e2 f2.
  destruct (Z.eqb_spec e1 2047), (Z.eqb_spec e2 2047), (Z.eqb_spec e1 0), (Z.eqb_spec e2 0),
    (Z.eqb_spec f1 0), (Z.eqb_spec f2 0), (Z.eqb_spec m1 0), (Z.eqb_spec m2 0); try lia; done.
Qed.

(** The position of a pattern in the order of values: patterns below [2^63]
    above the others, the others by descending magnitude. *)
Definition f64_rank (bits : Z) : Z := if f64_sign bits then - 1 - f64_mag bits else f64_mag bits.

(** Patterns without NaN order by rank, except that the two zeros are equal. *)
Lemma f64_compare_rank a b :
  is_u64 a -> is_u64 b -> is_nan a = false -> is_nan b = false ->
  SFcompare (f64_of a) (f64_of b)
    = Some (if (f64_mag a =? 0) && (f64_mag b =? 0) then Eq else f64_rank a ?= f64_rank b).
Proof.
  unfold is_nan, f64_of, f64_rank. rewrite !Z.ltb_ge. intros Ha Hb Na Nb.
  assert (Ma : 0 <= f64_mag a) by (unfold f64_mag; apply Z.mod_pos_bound; lia).
  assert (Mb : 0 <= f64_mag b) by (unfold f64_mag; apply Z.mod_pos_bound; lia).
  destruct (f64_parts_compare_mixed (f64_mag a) (f64_mag b)) as [X1 X2]; [lia..|].
  destruct (f64_sign a), (f64_sign b); rewrite ?X1, ?X2, ?f64_parts_compare_neg, ?f64_parts_compare_pos by lia;
    f_equal; destruct (Z.eqb_spec (f64_mag a) 0), (Z.eqb_spec (f64_mag b) 0); cbn [andb];
    first [reflexivity | apply compare_split | symmetry; apply compare_split]; intros; try lia;
    first [reflexivity | apply Z.compare_lt_iff | apply Z.compare_eq_iff | apply Z.compare_gt_iff]; lia.
Qed.

Lemma f64_nan_compare a b : is_nan a = true \/ is_nan b = true -> SFcompare (f64_of a) (f64_of b) = None.
Proof. rewrite !is_nan_spec. intros [->| ->]; [done|]. by destruct (f64_of a). Qed.

Lemma f32_to_f64_u64 x : is_u32 x -> is_u64 (f32_to_f64 x).
Proof.
  unfold is_u32, is_u64, f32_to_f64. intros H.
  assert (Hs : 0 <= (if 2 ^ 31 <=? x then 2 ^ 63 else 0) <= 2 ^ 63) by (case_match; lia).
  assert (Hf : 0 <= x mod 2 ^ 23 < 2 ^ 23) by (apply Z.mod_pos_bound; lia).
  assert (He : 0 <= (x / 2 ^ 23) mod 2 ^ 8 < 2 ^ 8) by (apply Z.mod_pos_bound; lia).
  set (f := x mod 2 ^ 23) in *. set (e := (x / 2 ^ 23) mod 2 ^ 8) in *. clearbody f e.
  destruct (Z.eqb_spec e 255); [|destruct (Z.eqb_spec e 0)]; [destruct (Z.eqb_spec f 0)..|]; [lia| |lia| |lia].
  - assert (0 <= Z.lor (2 ^ 51) (f * 2 ^ 29) < 2 ^ 52); [|lia]. split; [apply Z.lor_nonneg; lia|].
    apply Z.log2_lt_cancel. rewrite Z.log2_lor by lia. rewrite Z.log2_pow2 by lia.
    assert (Z.log2 (f * 2 ^ 29) < 52); [|rewrite Z.log2_pow2; lia]. apply Z.log2_lt_pow2; lia.
  - pose proof (Z.log2_spec f ltac:(lia)) as L. assert (0 <= Z.log2 f < 23).
    { split; [apply Z.log2_nonneg|]. apply Z.log2_lt_pow2; lia. }
    set (k := Z.log2 f) in *. clearbody k. rewrite Z.pow_succ_r in L by lia.
    assert (0 <= (f - 2 ^ k) * 2 ^ (52 - k) < 2 ^ 52); [|lia].
    assert (E : 2 ^ 52 = 2 ^ k * 2 ^ (52 - k)) by (rewrite <- Z.pow_add_r by lia; f_equal; lia).
    assert (0 < 2 ^ (52 - k)) by (apply Z.pow_pos_nonneg; lia). nia.
Qed.

(** The bit pattern of a canonical single float. *)
Definition f32_bits (x : spec_float) : Z :=
  let sign s := if (s : bool) then 2 ^ 31 else 0 in
  match x with
  | S754_zero s => sign s
  | S754_infinity s => sign s + 255 * 2 ^ 23
  | S754_nan => 255 * 2 ^ 23 + 2 ^ 22
  | S754_finite s m e =>
      if Zpos m <? 2 ^ 23 then sign s + Zpos m else sign s + (e + 150) * 2 ^ 23 + (Zpos m - 2 ^ 23)
  end.
