(* ===== verification/Schema.v ===== *)
(** * Schemas (crates/rhypedb-schema/src/types.rs)

    The data of a schema: types, fields, field types and directives, with the
    accessors the engine uses.  A Rust [String] is its UTF-8 bytes; the
    [HashMap] of types is a sorted association list. *)

From Stdlib Require Import ZArith Lia Bool List Strings.Byte.
From stdpp Require Import base option list.
From S2P Require Import Prelude ByteMap.

Local Open Scope Z_scope.

Inductive ScalarType :=
| TString | TU32 | TU64 | TI32 | TI64 | TF32 | TF64 | TBool | TDateTime | TBytes | TJson.

Record EdgeFieldDef := {
  ef_name : bytes;
  ef_scalar_type : ScalarType;
}.

Record RelationType := {
  target_type : bytes;
  is_many : bool;
  edge_fields : list EdgeFieldDef;
}.

Record VectorType := { dimensions : Z }.

Inductive FieldType :=
| Scalar (s : ScalarType)
| Relation (r : RelationType)
| VectorT (v : VectorType).

Inductive OnDeletePolicy := Remove | Cascade | Deny.

Record InverseDef := {
  inv_type_name : bytes;
  inv_field_name : bytes;
}.

Inductive IndexType := Hnsw.
Inductive DistanceMetric := Cosine | L2 | DotProduct.
Inductive QuantizationType := TurboQuant2Bit | TurboQuant3Bit | TurboQuant4Bit | QNone.

Record IndexDef := {
  index_type : IndexType;
  metric : option DistanceMetric;
  quantization : option QuantizationType;
  hnsw_m : option Z;
  ef_construction : option Z;
}.

Record VectorizeDef := {
  source_field : bytes;
  model : bytes;
}.

Record FulltextDef := {
  analyzer : bytes;
  positions : bool;
}.

Inductive Directive :=
| Unique
| Indexed
| OnDelete (p : OnDeletePolicy)
| Inverse (i : InverseDef)
| Index (i : IndexDef)
| Vectorize (v : VectorizeDef)
| FulltextD (f : FulltextDef).

Record FieldDef := {
  fd_name : bytes;
  field_type : FieldType;
  directives : list Directive;
}.

Record TypeDef := {
  td_name : bytes;
  fields : list FieldDef;
}.

Record Schema := { types : bmap TypeDef }.

#[global] Instance ScalarType_eq : EqDecision ScalarType.
Proof. solve_decision. Defined.
#[global] Instance EdgeFieldDef_eq : EqDecision EdgeFieldDef.
Proof. solve_decision. Defined.
(** ** Accessors *)

Definition get_type (s : Schema) (name : bytes) : option TypeDef := bm_get name (types s).

Definition get_field (t : TypeDef) (name : bytes) : option FieldDef :=
  List.find (fun f => beqb (fd_name f) name) (fields t).

Definition is_unique (f : FieldDef) : bool :=
  existsb (fun d => match d with Unique => true | _ => false end) (directives f).

Definition is_indexed (f : FieldDef) : bool :=
  existsb (fun d => match d with Indexed => true | _ => false end) (directives f).

Fixpoint find_map {A B} (f : A -> option B) (l : list A) : option B :=
  match l with
  | [] => None
  | x :: l => match f x with Some y => Some y | None => find_map f l end
  end.

Definition on_delete (f : FieldDef) : option OnDeletePolicy :=
  find_map (fun d => match d with OnDelete p => Some p | _ => None end) (directives f).

Definition inverse (f : FieldDef) : option InverseDef :=
  find_map (fun d => match d with Inverse i => Some i | _ => None end) (directives f).

Definition vectorize (f : FieldDef) : option VectorizeDef :=
  find_map (fun d => match d with Vectorize v => Some v | _ => None end) (directives f).

Definition fulltext (f : FieldDef) : option FulltextDef :=
  find_map (fun d => match d with FulltextD x => Some x | _ => None end) (directives f).

Definition index (f : FieldDef) : option IndexDef :=
  find_map (fun d => match d with Index i => Some i | _ => None end) (directives f).

Definition scalar_fields (t : TypeDef) : list FieldDef :=
  List.filter (fun f => match field_type f with Scalar _ => true | _ => false end) (fields t).

Definition relationship_fields (t : TypeDef) : list FieldDef :=
  List.filter (fun f => match field_type f with Relation _ => true | _ => false end) (fields t).

Definition vector_fields (t : TypeDef) : list FieldDef :=
  List.filter (fun f => match field_type f with VectorT _ => true | _ => false end) (fields t).
