(* ===== verification/SchemaParser.v ===== *)
(** * The schema language: parser (crates/rhypedb-schema/src/parser.rs)

    [parse_schema] and its recursive-descent parser.  The state is what is left
    of the input with the line and the column; [self.pos] is the position at
    which [rest] starts, so a slice [input[start..pos]] is what was consumed.
    Each loop takes the number of bytes left as fuel ([PFuel] when it runs
    out, which [SchemaSpec] shows never happens). *)

From Stdlib Require Import ZArith Lia Bool List Strings.Byte Strings.String.
From stdpp Require Import base tactics option list.
From S2P Require Import Prelude ByteMap Utf8 Schema.

Local Open Scope Z_scope.
Local Open Scope list_scope.

Inductive SchemaError :=
| ParseError (line col : Z) (message : bytes)
| UnknownType (name : bytes)
| DuplicateType (name : bytes)
| DuplicateField (type_name field : bytes)
| InvalidInverse (message : bytes)
| InvalidOnDelete (name : bytes)
| Validation (message : bytes).

Record Parser := {
  rest : bytes;
  line : Z;
  col : Z;
}.

Inductive pres (A : Type) :=
| POk (a : A) (p : Parser)
| PErr (e : SchemaError)
| PFuel.
Arguments POk {A} a p.
Arguments PErr {A} e.
Arguments PFuel {A}.

Definition M (A : Type) : Type := Parser -> pres A.

Definition ret {A} (a : A) : M A := fun p => POk a p.
Definition bind {A B} (m : M A) (k : A -> M B) : M B := fun p =>
  match m p with POk a p => k a p | PErr e => PErr e | PFuel => PFuel end.

Declare Scope parser_scope.
Delimit Scope parser_scope with parser.
Notation "x <- m ;; k" := (bind m (fun x => k))
  (at level 100, m at next level, right associativity) : parser_scope.
Local Open Scope parser_scope.

(** ** Lexing *)

Definition parser_new (input : bytes) : Parser := {| rest := input; line := 1; col := 1 |}.

Definition is_eof (p : Parser) : bool := match rest p with [] => true | _ => false end.

Definition peek (p : Parser) : option bytes := fst <$> next_char (rest p).

Definition advance (p : Parser) : option (bytes * Parser) :=
  '(ch, r) ← next_char (rest p);
  Some (ch,
    if beqb ch [x0a] then {| rest := r; line := line p + 1; col := 1 |}
    else {| rest := r; line := line p; col := col p + 1 |}).

(** [while let Some(c) = self.advance() { if c == '\n' { break; } }]. *)
Fixpoint skip_line (fuel : nat) (p : Parser) : Parser :=
  match fuel with
  | O => p
  | S fuel =>
      match advance p with
      | None => p
      | Some (c, p) => if beqb c [x0a] then p else skip_line fuel p
      end
  end.

Fixpoint skip_whitespace_loop (fuel : nat) (p : Parser) : Parser :=
  match fuel with
  | O => p
  | S fuel =>
      match advance p with
      | None => p
      | Some (ch, q) =>
          if is_whitespace ch then skip_whitespace_loop fuel q
          else if beqb ch (bs "/") && starts_with (rest p) (bs "//") then
            skip_whitespace_loop fuel (skip_line (length (rest p)) p)
          else p
      end
  end.

Definition skip_ws (p : Parser) : Parser := skip_whitespace_loop (length (rest p)) p.
Definition skip_whitespace : M () := fun p => POk () (skip_ws p).

Definition perror {A} (message : bytes) : M A := fun p => PErr (ParseError (line p) (col p) message).
Definition throw {A} (e : SchemaError) : M A := fun _ => PErr e.
Definition peek_is (c : bytes) : M bool :=
  fun p => POk (match peek p with Some ch => beqb ch c | None => false end) p.
Definition advance_m : M () := fun p => POk () (match advance p with Some (_, q) => q | None => p end).

Definition quoted (c : bytes) : bytes := bs "'" ++ c ++ bs "'".

Definition expect (expected : bytes) : M () :=
  _ <- skip_whitespace ;;
  fun p =>
    match advance p with
    | Some (ch, q) =>
        if beqb ch expected then POk () q
        else perror (bs "expected " ++ quoted expected ++ bs ", got " ++ quoted ch) q
    | None => perror (bs "expected " ++ quoted expected ++ bs ", got EOF") p
    end.

(** The loops that advance over the characters of a class: what was consumed
    and the state after it. *)
Fixpoint take_while (f : bytes -> bool) (fuel : nat) (p : Parser) : bytes * Parser :=
  match fuel with
  | O => ([], p)
  | S fuel =>
      match advance p with
      | Some (ch, q) =>
          if f ch then let '(s, q) := take_while f fuel q in (ch ++ s, q) else ([], p)
      | None => ([], p)
      end
  end.

Definition take_chars (f : bytes -> bool) (p : Parser) : bytes * Parser :=
  take_while f (length (rest p)) p.

(** [str::parse::<u32>] of a string of decimal digits. *)
Definition digits_value (s : bytes) : Z := fold_left (fun acc b => 10 * acc + (b2z b - 48)) s 0.
Definition parse_u32_str (s : bytes) : option Z :=
  let v := digits_value s in if v <? 2 ^ 32 then Some v else None.

Definition parse_u32 : M Z :=
  _ <- skip_whitespace ;;
  fun p =>
    let '(s, q) := take_chars is_ascii_digit p in
    match s with
    | [] => perror (bs "expected number") q
    | _ => match parse_u32_str s with Some v => POk v q | None => perror (bs "invalid number") q end
    end.

(** The string literal after its opening quote. *)
Definition string_char (ch : bytes) : bool := negb (beqb ch [x22]).
Definition string_chars : M bytes := fun p =>
  let '(s, q) := take_chars string_char p in
  match advance q with
  | Some (_, q) => POk s q
  | None => perror (bs "unterminated string") q
  end.

Definition parse_string_value : M bytes :=
  _ <- skip_whitespace ;; _ <- expect [x22] ;; string_chars.

Definition parse_scalar_type (name : bytes) : option ScalarType :=
  if beqb name (bs "String") then Some TString
  else if beqb name (bs "u32") then Some TU32
  else if beqb name (bs "u64") then Some TU64
  else if beqb name (bs "i32") then Some TI32
  else if beqb name (bs "i64") then Some TI64
  else if beqb name (bs "f32") then Some TF32
  else if beqb name (bs "f64") then Some TF64
  else if beqb name (bs "Bool") then Some TBool
  else if beqb name (bs "DateTime") then Some TDateTime
  else if beqb name (bs "Bytes") then Some TBytes
  else if beqb name (bs "Json") then Some TJson
  else None.

Definition DEFAULT_ANALYZER : bytes := bs "simple".
Definition KNOWN_ANALYZERS : list bytes := [bs "simple"; bs "english"].
Definition fulltext_default : FulltextDef := {| analyzer := DEFAULT_ANALYZER; positions := true |}.

Section parser.
Context {C : CharClass}.

Definition ident_char (ch : bytes) : bool := is_alphanumeric ch || beqb ch (bs "_").

Definition parse_ident : M bytes :=
  _ <- skip_whitespace ;;
  fun p =>
    let '(s, q) := take_chars ident_char p in
    match s with [] => perror (bs "expected identifier") q | _ => POk s q end.

Definition parse_bool_value : M bool :=
  _ <- skip_whitespace ;;
  fun p =>
    if match peek p with Some c => is_alphabetic c | None => false end then
      (word <- parse_ident ;;
       if beqb word (bs "true") then ret true
       else if beqb word (bs "false") then ret false
       else perror (bs "expected `true` or `false`, found `" ++ word ++ bs "`")) p
    else perror (bs "expected `true` or `false`, found `" ++ default [] (peek p) ++ bs "`") p.

(** ** Fields *)

Fixpoint edge_fields_loop (fuel : nat) (acc : list EdgeFieldDef) : M (list EdgeFieldDef) :=
  match fuel with
  | O => fun _ => PFuel
  | S fuel =>
      _ <- skip_whitespace ;;
      b <- peek_is (bs "}") ;;
      if b : bool then _ <- advance_m ;; ret acc
      else
        name <- parse_ident ;;
        _ <- expect (bs ":") ;;
        type_name <- parse_ident ;;
        match parse_scalar_type type_name with
        | None => perror (bs "edge field must be a scalar type, got " ++ quoted type_name)
        | Some scalar_type =>
            _ <- skip_whitespace ;;
            b <- peek_is (bs ",") ;;
            _ <- (if b : bool then advance_m else ret ()) ;;
            edge_fields_loop fuel (acc ++ [{| ef_name := name; ef_scalar_type := scalar_type |}])
        end
  end.

Definition parse_edge_fields : M (list EdgeFieldDef) :=
  _ <- expect (bs "{") ;; fun p => edge_fields_loop (S (length (rest p))) [] p.

Definition parse_field_type : M FieldType :=
  _ <- skip_whitespace ;;
  b <- peek_is (bs "[") ;;
  if b : bool then
    _ <- advance_m ;;
    inner <- parse_ident ;;
    _ <- expect (bs "]") ;;
    ret (Relation {| target_type := inner; is_many := true; edge_fields := [] |})
  else
    type_name <- parse_ident ;;
    if beqb type_name (bs "Vector") then
      _ <- expect (bs "<") ;;
      dims <- parse_u32 ;;
      _ <- expect (bs ">") ;;
      ret (VectorT {| dimensions := dims |})
    else
      match parse_scalar_type type_name with
      | Some scalar => ret (Scalar scalar)
      | None => ret (Relation {| target_type := type_name; is_many := false; edge_fields := [] |})
      end.

(** ** Directives *)

Definition on_delete_policy (name : bytes) : option OnDeletePolicy :=
  if beqb name (bs "remove") then Some Remove
  else if beqb name (bs "cascade") then Some Cascade
  else if beqb name (bs "deny") then Some Deny
  else None.

Definition distance_metric (val : bytes) : option DistanceMetric :=
  if beqb val (bs "cosine") then Some Cosine
  else if beqb val (bs "l2") then Some L2
  else if beqb val (bs "dot_product") then Some DotProduct
  else None.

Definition quantization_type (val : bytes) : option QuantizationType :=
  if beqb val (bs "turboquant_2bit") then Some TurboQuant2Bit
  else if beqb val (bs "turboquant_3bit") then Some TurboQuant3Bit
  else if beqb val (bs "turboquant_4bit") then Some TurboQuant4Bit
  else if beqb val (bs "none") then Some QNone
  else None.

Definition set_metric (d : IndexDef) (x : DistanceMetric) : IndexDef :=
  {| index_type := index_type d; metric := Some x; quantization := quantization d; hnsw_m := hnsw_m d;
     ef_construction := ef_construction d |}.
Definition set_quantization (d : IndexDef) (x : QuantizationType) : IndexDef :=
  {| index_type := index_type d; metric := metric d; quantization := Some x; hnsw_m := hnsw_m d;
     ef_construction := ef_construction d |}.
Definition set_m (d : IndexDef) (x : Z) : IndexDef :=
  {| index_type := index_type d; metric := metric d; quantization := quantization d; hnsw_m := Some x;
     ef_construction := ef_construction d |}.
Definition set_ef (d : IndexDef) (x : Z) : IndexDef :=
  {| index_type := index_type d; metric := metric d; quantization := quantization d; hnsw_m := hnsw_m d;
     ef_construction := Some x |}.

(** The parameters of [@index], one per round after a comma. *)
Definition index_param (d : IndexDef) (key : bytes) : M IndexDef :=
  if beqb key (bs "metric") then
    val <- parse_ident ;;
    match distance_metric val with
    | Some x => ret (set_metric d x)
    | None => perror (bs "unknown metric: " ++ val)
    end
  else if beqb key (bs "quantization") then
    val <- parse_ident ;;
    match quantization_type val with
    | Some x => ret (set_quantization d x)
    | None => perror (bs "unknown quantization: " ++ val)
    end
  else if beqb key (bs "m") then x <- parse_u32 ;; ret (set_m d x)
  else if beqb key (bs "ef_construction") then x <- parse_u32 ;; ret (set_ef d x)
  else perror (bs "unknown index parameter: " ++ key).

Fixpoint index_loop (fuel : nat) (d : IndexDef) : M IndexDef :=
  match fuel with
  | O => fun _ => PFuel
  | S fuel =>
      _ <- skip_whitespace ;;
      b <- peek_is (bs ")") ;;
      if b : bool then _ <- advance_m ;; ret d
      else
        _ <- expect (bs ",") ;;
        key <- parse_ident ;;
        _ <- expect (bs ":") ;;
        d <- index_param d key ;;
        index_loop fuel d
  end.

Definition vectorize_param (d : option bytes * option bytes) (key : bytes) : M (option bytes * option bytes) :=
  if beqb key (bs "source") then
    _ <- skip_whitespace ;; s <- parse_string_value ;; ret (Some s, snd d)
  else if beqb key (bs "model") then
    _ <- skip_whitespace ;; s <- parse_string_value ;; ret (fst d, Some s)
  else perror (bs "unknown @vectorize parameter: " ++ key).

Definition is_some {A} (o : option A) : bool := match o with Some _ => true | None => false end.

Fixpoint vectorize_loop (fuel : nat) (d : option bytes * option bytes) : M (option bytes * option bytes) :=
  match fuel with
  | O => fun _ => PFuel
  | S fuel =>
      _ <- skip_whitespace ;;
      b <- peek_is (bs ")") ;;
      if b : bool then _ <- advance_m ;; ret d
      else
        _ <- (if is_some (fst d) || is_some (snd d) then expect (bs ",") else ret ()) ;;
        key <- parse_ident ;;
        _ <- expect (bs ":") ;;
        d <- vectorize_param d key ;;
        vectorize_loop fuel d
  end.

(** The definition with the two flags of what was seen. *)
Definition fulltext_param (d : FulltextDef * bool * bool) (key : bytes) : M (FulltextDef * bool * bool) :=
  let '(def, seen_analyzer, seen_positions) := d in
  if beqb key (bs "analyzer") then
    if seen_analyzer : bool then perror (bs "duplicate @fulltext parameter: analyzer")
    else
      name <- parse_string_value ;;
      if existsb (beqb name) KNOWN_ANALYZERS then
        ret ({| analyzer := name; positions := positions def |}, true, seen_positions)
      else perror (bs "unknown @fulltext analyzer: " ++ [x22] ++ name ++ [x22] ++ bs " (known: simple, english)")
  else if beqb key (bs "positions") then
    if seen_positions : bool then perror (bs "duplicate @fulltext parameter: positions")
    else
      v <- parse_bool_value ;;
      ret ({| analyzer := analyzer def; positions := v |}, seen_analyzer, true)
  else perror (bs "unknown @fulltext parameter: " ++ key).

Fixpoint fulltext_loop (fuel : nat) (d : FulltextDef * bool * bool) : M FulltextDef :=
  match fuel with
  | O => fun _ => PFuel
  | S fuel =>
      _ <- skip_whitespace ;;
      b <- peek_is (bs ")") ;;
      if b : bool then _ <- advance_m ;; ret (fst (fst d))
      else
        _ <- (if snd (fst d) || snd d then expect (bs ",") else ret ()) ;;
        key <- parse_ident ;;
        _ <- expect (bs ":") ;;
        d <- fulltext_param d key ;;
        fulltext_loop fuel d
  end.

Definition directive_on_delete : M Directive :=
  _ <- expect (bs "(") ;;
  policy_name <- parse_ident ;;
  _ <- expect (bs ")") ;;
  match on_delete_policy policy_name with
  | Some policy => ret (OnDelete policy)
  | None => throw (InvalidOnDelete policy_name)
  end.

Definition directive_inverse : M Directive :=
  _ <- expect (bs "(") ;;
  type_name <- parse_ident ;;
  _ <- expect (bs ".") ;;
  field_name <- parse_ident ;;
  _ <- expect (bs ")") ;;
  ret (Inverse {| inv_type_name := type_name; inv_field_name := field_name |}).

Definition index_default : IndexDef :=
  {| index_type := Hnsw; metric := None; quantization := None; hnsw_m := None; ef_construction := None |}.

Definition directive_index : M Directive :=
  _ <- expect (bs "(") ;;
  index_type_name <- parse_ident ;;
  if beqb index_type_name (bs "hnsw") then
    d <- (fun p => index_loop (S (length (rest p))) index_default p) ;;
    ret (Index d)
  else perror (bs "unknown index type: " ++ index_type_name).

Definition directive_vectorize : M Directive :=
  _ <- expect (bs "(") ;;
  d <- (fun p => vectorize_loop (S (length (rest p))) (None, None) p) ;;
  match fst d with
  | None => perror (bs "@vectorize requires 'source' parameter")
  | Some source =>
      match snd d with
      | None => perror (bs "@vectorize requires 'model' parameter")
      | Some model => ret (Vectorize {| source_field := source; model := model |})
      end
  end.

Definition directive_fulltext : M Directive :=
  _ <- skip_whitespace ;;
  b <- peek_is (bs "(") ;;
  if b : bool then
    _ <- advance_m ;;
    d <- (fun p => fulltext_loop (S (length (rest p))) (fulltext_default, false, false) p) ;;
    ret (FulltextD d)
  else ret (FulltextD fulltext_default).

Definition parse_directive : M Directive :=
  name <- parse_ident ;;
  if beqb name (bs "unique") then ret Unique
  else if beqb name (bs "indexed") then ret Indexed
  else if beqb name (bs "on_delete") then directive_on_delete
  else if beqb name (bs "inverse") then directive_inverse
  else if beqb name (bs "index") then directive_index
  else if beqb name (bs "vectorize") then directive_vectorize
  else if beqb name (bs "fulltext") then directive_fulltext
  else perror (bs "unknown directive: @" ++ name).

(** ** Types *)

Fixpoint directives_loop (fuel : nat) (acc : list Directive) : M (list Directive) :=
  match fuel with
  | O => fun _ => PFuel
  | S fuel =>
      _ <- skip_whitespace ;;
      b <- peek_is (bs "@") ;;
      if b : bool then
        _ <- advance_m ;;
        d <- parse_directive ;;
        directives_loop fuel (acc ++ [d])
      else ret acc
  end.

Definition with_edge_fields (r : RelationType) (efs : list EdgeFieldDef) : RelationType :=
  {| target_type := target_type r; is_many := is_many r; edge_fields := efs |}.

(** The optional edge fields of a relation. *)
Definition parse_relation_edges (ft : FieldType) : M FieldType :=
  match ft with
  | Relation rel =>
      _ <- skip_whitespace ;;
      b <- peek_is (bs "{") ;;
      if b : bool then efs <- parse_edge_fields ;; ret (Relation (with_edge_fields rel efs))
      else ret (Relation rel)
  | _ => ret ft
  end.

Definition parse_field_def : M FieldDef :=
  name <- parse_ident ;;
  _ <- expect (bs ":") ;;
  ft <- parse_field_type ;;
  ft <- parse_relation_edges ft ;;
  ds <- (fun p => directives_loop (S (length (rest p))) [] p) ;;
  ret {| fd_name := name; field_type := ft; directives := ds |}.

Fixpoint fields_loop (fuel : nat) (acc : list FieldDef) : M (list FieldDef) :=
  match fuel with
  | O => fun _ => PFuel
  | S fuel =>
      _ <- skip_whitespace ;;
      b <- peek_is (bs "}") ;;
      if b : bool then _ <- advance_m ;; ret acc
      else f <- parse_field_def ;; fields_loop fuel (acc ++ [f])
  end.

Definition parse_type_def : M TypeDef :=
  _ <- skip_whitespace ;;
  keyword <- parse_ident ;;
  if beqb keyword (bs "type") then
    name <- parse_ident ;;
    _ <- expect (bs "{") ;;
    fs <- (fun p => fields_loop (S (length (rest p))) [] p) ;;
    ret {| td_name := name; fields := fs |}
  else perror (bs "expected 'type', got " ++ quoted keyword).

(** The loop of [parse_schema]. *)
Fixpoint types_loop (fuel : nat) (ts : bmap TypeDef) : M (bmap TypeDef) :=
  match fuel with
  | O => fun _ => PFuel
  | S fuel => fun p =>
      if is_eof p then POk ts p
      else
        (type_def <- parse_type_def ;;
         if is_some (bm_get (td_name type_def) ts) then throw (DuplicateType (td_name type_def))
         else
           _ <- skip_whitespace ;;
           types_loop fuel (bm_insert (td_name type_def) type_def ts)) p
  end.
End parser.

(** ** Validation *)

Fixpoint contains_dunder (s : bytes) : bool :=
  match s with
  | x5f :: ((x5f :: _) as r) => true
  | _ :: r => contains_dunder r
  | [] => false
  end.

Definition dotted (t f : bytes) : bytes := t ++ bs "." ++ f.

Inductive vres := VOk | VErr (e : SchemaError).
Definition vguard (ok : bool) (e : SchemaError) (k : vres) : vres := if ok then k else VErr e.

Definition is_vector (ft : FieldType) : bool := match ft with VectorT _ => true | _ => false end.
Definition is_scalar (ft : FieldType) : bool := match ft with Scalar _ => true | _ => false end.
Definition is_scalar_of (st : ScalarType) (ft : FieldType) : bool :=
  match ft with Scalar s => bool_decide (s = st) | _ => false end.
Definition is_fulltext_directive (d : Directive) : bool := match d with FulltextD _ => true | _ => false end.

(** The checks of one field, in order; [k] is what follows them. *)
Definition validate_relation (schema : Schema) (f : FieldDef) (k : vres) : vres :=
  match field_type f with
  | Relation rel => vguard (is_some (bm_get (target_type rel) (types schema))) (UnknownType (target_type rel)) k
  | _ => k
  end.

Definition validate_vectorize (t : TypeDef) (f : FieldDef) (k : vres) : vres :=
  match vectorize f with
  | Some v =>
      vguard (is_vector (field_type f))
        (Validation (bs "@vectorize on '" ++ dotted (td_name t) (fd_name f) ++ bs "' requires a Vector field type"))
        match get_field t (source_field v) with
        | None => VErr (Validation (bs "@vectorize source field '" ++ dotted (td_name t) (source_field v) ++ bs "' not found"))
        | Some source =>
            vguard (is_scalar_of TString (field_type source))
              (Validation (bs "@vectorize source field '" ++ dotted (td_name t) (source_field v) ++ bs "' must be a String")) k
        end
  | None => k
  end.

Definition validate_index (t : TypeDef) (f : FieldDef) (k : vres) : vres :=
  match index f with
  | Some idx =>
      vguard (is_vector (field_type f))
        (Validation (bs "@index on '" ++ dotted (td_name t) (fd_name f) ++ bs "' requires a Vector field type"))
     (vguard (negb (match quantization idx with Some QNone => true | _ => false end))
        (Validation (bs "@index on '" ++ dotted (td_name t) (fd_name f) ++
          bs "': `quantization: none` is not supported for HNSW vector indexes; omit it for the 4-bit default or use turboquant_2bit/3bit/4bit"))
     (vguard (negb (match hnsw_m idx with Some 0 => true | _ => false end))
        (Validation (bs "@index on '" ++ dotted (td_name t) (fd_name f) ++ bs "': `m` must be >= 1"))
     (vguard (negb (match ef_construction idx with Some 0 => true | _ => false end))
        (Validation (bs "@index on '" ++ dotted (td_name t) (fd_name f) ++ bs "': `ef_construction` must be >= 1")) k)))
  | None => k
  end.

Definition validate_inverse (schema : Schema) (f : FieldDef) (k : vres) : vres :=
  match inverse f with
  | Some inv =>
      match bm_get (inv_type_name inv) (types schema) with
      | None => VErr (InvalidInverse (bs "type '" ++ inv_type_name inv ++ bs "' not found"))
      | Some t =>
          vguard (is_some (get_field t (inv_field_name inv)))
            (InvalidInverse (bs "field '" ++ dotted (inv_type_name inv) (inv_field_name inv) ++ bs "' not found")) k
      end
  | None => k
  end.

Definition validate_field (schema : Schema) (t : TypeDef) (f : FieldDef) (k : vres) : vres :=
  let name := dotted (td_name t) (fd_name f) in
  vguard (negb (contains_dunder (fd_name f)))
    (Validation (bs "field '" ++ name ++ bs "': names containing `__` are reserved for internal use (engine sidecar keys: `<field>__cover`, `<field>__cover_v`, `<field>__shadow`)"))
 (validate_relation schema f
 (validate_vectorize t f
 (vguard (negb (is_indexed f && negb (is_scalar (field_type f))))
    (Validation (bs "@indexed on '" ++ name ++ bs "' requires a scalar field"))
 (vguard (negb (is_indexed f && is_scalar_of TJson (field_type f)))
    (Validation (bs "@indexed is not supported on '" ++ name ++ bs "' (Json has no total order); use @unique for an exact-match constraint, or filter without a secondary index"))
 (vguard (length (List.filter is_fulltext_directive (directives f)) <=? 1)%nat
    (Validation (bs "duplicate @fulltext directive on '" ++ name ++ bs "'"))
 (vguard (negb (is_some (fulltext f) && negb (is_scalar_of TString (field_type f))))
    (Validation (bs "@fulltext on '" ++ name ++ bs "' requires a String field"))
 (validate_index t f
 (validate_inverse schema f k)))))))).

Fixpoint validate_fields (schema : Schema) (t : TypeDef) (seen : list bytes) (fs : list FieldDef) (k : vres) : vres :=
  match fs with
  | [] => k
  | f :: fs =>
      vguard (negb (existsb (beqb (fd_name f)) seen)) (DuplicateField (td_name t) (fd_name f))
        (validate_field schema t f (validate_fields schema t (fd_name f :: seen) fs k))
  end.

Fixpoint validate_types (schema : Schema) (ts : list TypeDef) : vres :=
  match ts with
  | [] => VOk
  | t :: ts => validate_fields schema t [] (fields t) (validate_types schema ts)
  end.

Definition validate_schema (schema : Schema) : vres := validate_types schema (map snd (types schema)).

Inductive schema_result := SOk (s : Schema) | SErr (e : SchemaError) | SFuel.

Definition parse_schema {C : CharClass} (input : bytes) : schema_result :=
  match types_loop (S (length input)) [] (skip_ws (parser_new input)) with
  | POk ts _ =>
      let schema := {| types := ts |} in
      match validate_schema schema with VOk => SOk schema | VErr e => SErr e end
  | PErr e => SErr e
  | PFuel => SFuel
  end.
