(* ===== verification/SchemaEmit.v ===== *)
(** * The schema language: emitter (crates/rhypedb-schema/src/emit.rs)

    [emit_schema] renders a schema as text; the property its header promises,
    that parsing the text gives the schema back, is proved in [SchemaSpec]. *)

From Stdlib Require Import ZArith Lia Bool List Strings.Byte Strings.String.
From stdpp Require Import base tactics option list.
From S2P Require Import Prelude ByteMap Utf8 Schema.

Local Open Scope Z_scope.

(** [{n}] for a [u32]: decimal digits, most significant first. *)
Fixpoint digits_loop (fuel : nat) (n : Z) (acc : bytes) : bytes :=
  match fuel with
  | O => acc
  | S fuel =>
      let acc := z2b (48 + n mod 10) :: acc in
      if n <? 10 then acc else digits_loop fuel (n / 10) acc
  end.

(** Ten digits are enough for 32 bits. *)
Definition show_u32 (n : Z) : bytes := digits_loop 10 n [].

Definition show_bool (b : bool) : bytes := if b then bs "true" else bs "false".

Definition scalar_name (s : ScalarType) : bytes :=
  match s with
  | TString => bs "String" | TU32 => bs "u32" | TU64 => bs "u64" | TI32 => bs "i32" | TI64 => bs "i64"
  | TF32 => bs "f32" | TF64 => bs "f64" | TBool => bs "Bool" | TDateTime => bs "DateTime"
  | TBytes => bs "Bytes" | TJson => bs "Json"
  end.

(** The edge fields, a comma before each but the first. *)
Fixpoint emit_edge_fields (first : bool) (efs : list EdgeFieldDef) : bytes :=
  match efs with
  | [] => []
  | ef :: efs =>
      (if first then [] else bs ", ") ++ ef_name ef ++ bs ": " ++ scalar_name (ef_scalar_type ef)
        ++ emit_edge_fields false efs
  end.

Definition emit_field_type (ft : FieldType) : bytes :=
  match ft with
  | Scalar s => scalar_name s
  | VectorT v => bs "Vector<" ++ show_u32 (dimensions v) ++ bs ">"
  | Relation rel =>
      (if is_many rel then bs "[" ++ target_type rel ++ bs "]" else target_type rel)
      ++ match edge_fields rel with
         | [] => []
         | efs => bs " { " ++ emit_edge_fields true efs ++ bs " }"
         end
  end.

Definition policy_name (p : OnDeletePolicy) : bytes :=
  match p with Remove => bs "remove" | Cascade => bs "cascade" | Deny => bs "deny" end.

Definition metric_name (m : DistanceMetric) : bytes :=
  match m with Cosine => bs "cosine" | L2 => bs "l2" | DotProduct => bs "dot_product" end.

Definition quantization_name (q : QuantizationType) : bytes :=
  match q with
  | TurboQuant2Bit => bs "turboquant_2bit" | TurboQuant3Bit => bs "turboquant_3bit"
  | TurboQuant4Bit => bs "turboquant_4bit" | QNone => bs "none"
  end.

Definition emit_opt {A} (key : bytes) (show : A -> bytes) (o : option A) : bytes :=
  match o with Some x => bs ", " ++ key ++ bs ": " ++ show x | None => [] end.

Definition emit_index (idx : IndexDef) : bytes :=
  bs "@index(" ++ match index_type idx with Hnsw => bs "hnsw" end
  ++ emit_opt (bs "metric") metric_name (metric idx)
  ++ emit_opt (bs "quantization") quantization_name (quantization idx)
  ++ emit_opt (bs "m") show_u32 (hnsw_m idx)
  ++ emit_opt (bs "ef_construction") show_u32 (ef_construction idx)
  ++ bs ")".

Definition emit_directive (d : Directive) : bytes :=
  match d with
  | Unique => bs "@unique"
  | Indexed => bs "@indexed"
  | OnDelete policy => bs "@on_delete(" ++ policy_name policy ++ bs ")"
  | Inverse inv => bs "@inverse(" ++ inv_type_name inv ++ bs "." ++ inv_field_name inv ++ bs ")"
  | Index idx => emit_index idx
  | Vectorize v =>
      bs "@vectorize(source: " ++ [x22] ++ source_field v ++ [x22] ++ bs ", model: " ++ [x22] ++ model v ++ [x22] ++ bs ")"
  | FulltextD f =>
      bs "@fulltext(analyzer: " ++ [x22] ++ analyzer f ++ [x22] ++ bs ", positions: " ++ show_bool (positions f) ++ bs ")"
  end.

Definition emit_directives (ds : list Directive) : bytes := concat (map (fun d => bs " " ++ emit_directive d) ds).

Definition emit_field (f : FieldDef) : bytes :=
  fd_name f ++ bs ": " ++ emit_field_type (field_type f) ++ emit_directives (directives f).

Definition emit_fields (fs : list FieldDef) : bytes := concat (map (fun f => bs "    " ++ emit_field f ++ [x0a]) fs).

Definition emit_type (td : TypeDef) : bytes :=
  bs "type " ++ td_name td ++ bs " {" ++ [x0a] ++ emit_fields (fields td) ++ bs "}" ++ [x0a].

(** The types in the order of their names, an empty line between them. *)
Fixpoint emit_types (first : bool) (ts : list TypeDef) : bytes :=
  match ts with
  | [] => []
  | t :: ts => (if first then [] else [x0a]) ++ emit_type t ++ emit_types false ts
  end.

Definition emit_schema (schema : Schema) : bytes := emit_types true (map snd (types schema)).
