(* ===== verification/SchemaSpec.v ===== *)
(** * The schema language: what the parser and the emitter guarantee

    The parser always ends; what it accepts is well formed, lexically
    ([schema_lexical]) and as a schema ([schema_wf]); and parsing the text the
    emitter writes for an accepted schema gives that schema back. *)

From Stdlib Require Import ZArith Lia Bool List Strings.Byte Strings.String.
From stdpp Require Import base tactics option list.
From S2P Require Import Prelude ByteMap Utf8 Schema SchemaParser SchemaEmit.

Local Open Scope Z_scope.
Local Open Scope parser_scope.

(** ** Lexical forms *)

(** A string of whole characters of a class. *)
Inductive chars (f : bytes -> bool) : bytes -> Prop :=
| chars_nil : chars f []
| chars_cons c s : whole c -> f c = true -> chars f s -> chars f (c ++ s).

Definition blank (ws : bytes) : Prop := Forall (fun b => b = x20 \/ b = x0a) ws.

(** The first character is neither a space nor a slash. *)
Definition token_start (r : bytes) : Prop :=
  match next_char r with Some (c, _) => is_whitespace c = false /\ c <> [x2f] | None => True end.

Definition stops (f : bytes -> bool) (r : bytes) : Prop :=
  match next_char r with Some (c, _) => f c = false | None => True end.

Section spec.
Context {C : CharClass}.

Definition ident_ok (n : bytes) : Prop :=
  exists c s, n = c ++ s /\ whole c /\ is_whitespace c = false /\ ident_char c = true /\ chars ident_char s.

(** ** The parser ends and keeps the text valid

    [runs N n Q m]: on valid text of fewer than [N] bytes, [m] does not run out
    of fuel, and when it succeeds it consumed at least [n] bytes, the rest is
    valid text and the result satisfies [Q]. *)
Definition runs {A} (N n : nat) (Q : A -> Prop) (m : M A) : Prop :=
  forall p, utf8_valid (rest p) = true -> (length (rest p) < N)%nat ->
    match m p with
    | POk a q => (length (rest q) + n <= length (rest p))%nat /\ utf8_valid (rest q) = true /\ Q a
    | PErr _ => True
    | PFuel => False
    end.

Lemma runs_bind {A B} N n1 n2 (P : A -> Prop) (Q : B -> Prop) m k :
  runs N n1 P m -> (forall a, P a -> runs (N - n1) n2 Q (k a)) -> runs N (n1 + n2) Q (bind m k).
Proof.
  intros Hm Hk p Hv Hl. unfold bind. specialize (Hm p Hv Hl). destruct (m p) as [a q| |]; [|done..].
  destruct Hm as (H1 & H2 & H3). specialize (Hk a H3 q H2 ltac:(lia)).
  destruct (k a q) as [b q'| |]; [|done..]. destruct Hk as (H4 & H5 & H6). split; [lia|done].
Qed.

Lemma runs_weaken {A} N N' n n' (P Q : A -> Prop) m :
  runs N n P m -> (N' <= N)%nat -> (n' <= n)%nat -> (forall a, P a -> Q a) -> runs N' n' Q m.
Proof.
  intros H HN Hn HPQ p Hv Hl. specialize (H p Hv ltac:(lia)). destruct (m p) as [a q| |]; [|done..].
  destruct H as (H1 & H2 & H3). split; [lia|]. auto.
Qed.

Lemma runs_ret {A} N (Q : A -> Prop) a : Q a -> runs N 0 Q (ret a).
Proof. intros H p Hv Hl. cbn. split; [lia|done]. Qed.

Lemma runs_error {A} N n (Q : A -> Prop) msg : runs N n Q (perror msg).
Proof. intros p Hv Hl. exact I. Qed.

Lemma runs_throw {A} N n (Q : A -> Prop) e : runs N n Q (throw e).
Proof. intros p Hv Hl. exact I. Qed.

Lemma runs_if {A} N n (Q : A -> Prop) (b : bool) m1 m2 :
  runs N n Q m1 -> runs N n Q m2 -> runs N n Q (if b then m1 else m2).
Proof. by destruct b. Qed.

(** A loop started with the length of the text as its fuel. *)
Lemma runs_fuel {A} N n (Q : A -> Prop) (m : nat -> M A) :
  (forall k, runs k n Q (m k)) -> runs N n Q (fun p => m (S (length (rest p))) p).
Proof. intros H p Hv Hl. apply (H (S (length (rest p)))); [done|lia]. Qed.

Lemma advance_spec p c q :
  advance p = Some (c, q) -> rest p = c ++ rest q /\ (length (rest q) < length (rest p))%nat /\
    (utf8_valid (rest p) = true -> whole c /\ utf8_valid (rest q) = true).
Proof.
  unfold advance. destruct (next_char (rest p)) as [[c' r]|] eqn:E; [|done]. cbn. intros [= -> <-].
  assert (Hr : rest (if beqb c [x0a] then {| rest := r; line := line p + 1; col := 1 |}
     else {| rest := r; line := line p; col := col p + 1 |}) = r) by by case_match.
  rewrite Hr. destruct (next_char_split _ _ _ E) as [? ?]. split_and!; [done|lia|].
  intros Hv. by eapply next_char_valid.
Qed.

Lemma skip_line_spec fuel p :
  utf8_valid (rest p) = true ->
  utf8_valid (rest (skip_line fuel p)) = true /\ (length (rest (skip_line fuel p)) <= length (rest p))%nat.
Proof.
  revert p. induction fuel as [|fuel IH]; intros p Hv; [done|]. cbn [skip_line].
  destruct (advance p) as [[c q]|] eqn:E; [|done]. apply advance_spec in E as (_ & E1 & E2).
  destruct (E2 Hv) as [_ Hq]. case_match; [split; [done|lia]|]. destruct (IH q Hq). split; [done|lia].
Qed.

(** Where skipping ends, there is no space. *)
Definition no_space (p : Parser) : Prop :=
  match next_char (rest p) with Some (c, _) => is_whitespace c = false | None => True end.

Lemma skip_whitespace_loop_spec fuel p :
  utf8_valid (rest p) = true -> (length (rest p) <= fuel)%nat ->
  let q := skip_whitespace_loop fuel p in
  utf8_valid (rest q) = true /\ (length (rest q) <= length (rest p))%nat /\ no_space q.
Proof.
  revert p. induction fuel as [|fuel IH]; intros p Hv Hl; cbn [skip_whitespace_loop].
  { split_and!; [done|lia|]. unfold no_space. destruct (rest p); [done|cbn in Hl; lia]. }
  destruct (advance p) as [[c q]|] eqn:E.
  2:{ split_and!; [done|lia|]. unfold no_space. unfold advance in E. destruct (next_char (rest p)) as [[]|]; done. }
  pose proof (advance_spec _ _ _ E) as (E0 & E1 & E2). destruct (E2 Hv) as [Hc Hq].
  assert (En : next_char (rest p) = Some (c, rest q)) by by rewrite E0, next_char_app.
  destruct (is_whitespace c) eqn:Ew.
  { destruct (IH q Hq ltac:(lia)) as (H1 & H2 & H3). split_and!; [done|lia|done]. }
  destruct (beqb c (bs "/") && starts_with (rest p) (bs "//")) eqn:Es.
  2:{ split_and!; [done|lia|]. unfold no_space. by rewrite En. }
  assert (Hlt : (length (rest (skip_line (length (rest p)) p)) < length (rest p))%nat).
  { destruct (length (rest p)) as [|n] eqn:En2; [lia|]. cbn [skip_line]. rewrite E.
    case_match; [lia|]. pose proof (skip_line_spec n q Hq). lia. }
  destruct (skip_line_spec (length (rest p)) p Hv) as [Hv' _].
  destruct (IH _ Hv' ltac:(lia)) as (H1 & H2 & H3). split_and!; [done|lia|done].
Qed.

Lemma skip_ws_spec p :
  utf8_valid (rest p) = true ->
  utf8_valid (rest (skip_ws p)) = true /\ (length (rest (skip_ws p)) <= length (rest p))%nat /\ no_space (skip_ws p).
Proof. intros H. by apply skip_whitespace_loop_spec. Qed.

Lemma runs_skip N : runs N 0 (fun _ => True) skip_whitespace.
Proof. intros p Hv Hl. cbn. destruct (skip_ws_spec p Hv) as (H1 & H2 & _). split; [lia|done]. Qed.

Lemma runs_peek N c : runs N 0 (fun _ => True) (peek_is c).
Proof. intros p Hv Hl. cbn. split; [lia|done]. Qed.

Lemma runs_advance N : runs N 0 (fun _ => True) advance_m.
Proof.
  intros p Hv Hl. unfold advance_m. destruct (advance p) as [[c q]|] eqn:E.
  - apply advance_spec in E as (_ & E1 & E2). destruct (E2 Hv). split; [lia|done].
  - split; [lia|done].
Qed.

Lemma runs_expect N c : runs N 1 (fun _ => True) (expect c).
Proof.
  intros p Hv Hl. unfold expect, bind, skip_whitespace. destruct (skip_ws_spec p Hv) as (H1 & H2 & _).
  destruct (advance (skip_ws p)) as [[ch q]|] eqn:E; [|done]. apply advance_spec in E as (_ & E1 & E2).
  destruct (E2 H1). destruct (beqb ch c); [|done]. split; [lia|done].
Qed.

Lemma take_while_spec f fuel p s q :
  utf8_valid (rest p) = true -> take_while f fuel p = (s, q) ->
  rest p = s ++ rest q /\ chars f s /\ utf8_valid (rest q) = true.
Proof.
  revert p s q. induction fuel as [|fuel IH]; intros p s q Hv; cbn [take_while].
  { intros [= <- <-]. split_and!; [done|constructor|done]. }
  destruct (advance p) as [[c q0]|] eqn:E.
  2:{ intros [= <- <-]. split_and!; [done|constructor|done]. }
  apply advance_spec in E as (E0 & E1 & E2). destruct (E2 Hv) as [Hc Hq].
  destruct (f c) eqn:Ef.
  2:{ intros [= <- <-]. split_and!; [done|constructor|done]. }
  destruct (take_while f fuel q0) as [s' q'] eqn:Et. intros [= <- <-].
  destruct (IH _ _ _ Hq Et) as (H1 & H2 & H3).
  split_and!; [by rewrite E0, H1, app_assoc|by constructor|done].
Qed.

Lemma runs_ident N : runs N 1 ident_ok parse_ident.
Proof.
  intros p Hv Hl. unfold parse_ident, bind, skip_whitespace. destruct (skip_ws_spec p Hv) as (H1 & H2 & H3).
  unfold take_chars. destruct (take_while ident_char _ (skip_ws p)) as [s q] eqn:E.
  destruct (take_while_spec _ _ _ _ _ H1 E) as (E1 & E2 & E3). destruct s as [|b s]; [done|].
  split; [rewrite E1, length_app in H2; cbn [length] in H2; lia|]. split; [done|].
  inversion E2 as [|c s' Hw Hf Hs Hc]. exists c, s'. split_and!; try done.
  unfold no_space in H3. by rewrite E1, <- Hc, <- app_assoc, next_char_app in H3.
Qed.

Lemma runs_string N : runs N 1 (chars string_char) parse_string_value.
Proof.
  change 1%nat with (0 + (1 + 0))%nat. eapply runs_bind; [apply runs_skip|]. intros _ _.
  eapply runs_bind; [apply runs_expect|]. intros _ _ p Hv Hl. unfold string_chars, take_chars.
  destruct (take_while _ _ p) as [s q] eqn:E. destruct (take_while_spec _ _ _ _ _ Hv E) as (E1 & E2 & E3).
  destruct (advance q) as [[c q']|] eqn:Ea; [|done]. apply advance_spec in Ea as (_ & Ea1 & Ea2).
  destruct (Ea2 E3). split; [rewrite E1, length_app; lia|done].
Qed.

Lemma digits_value_nonneg s acc :
  0 <= acc -> chars is_ascii_digit s -> 0 <= fold_left (fun acc b => 10 * acc + (b2z b - 48)) s acc.
Proof.
  intros Ha Hs. revert acc Ha. induction Hs as [|c s _ Hc _ IH]; intros acc Ha; [done|].
  destruct c as [|b [|]]; [done| |done]. cbn in Hc. unfold ascii_digit in Hc. apply in_range_spec in Hc.
  cbn. apply IH. lia.
Qed.

Lemma runs_u32 N : runs N 1 is_u32 parse_u32.
Proof.
  intros p Hv Hl. unfold parse_u32, bind, skip_whitespace. destruct (skip_ws_spec p Hv) as (H1 & H2 & H3).
  unfold take_chars. destruct (take_while is_ascii_digit _ (skip_ws p)) as [s q] eqn:E.
  destruct (take_while_spec _ _ _ _ _ H1 E) as (E1 & E2 & E3). destruct s as [|b s]; [done|].
  unfold parse_u32_str. destruct (Z.ltb_spec (digits_value (b :: s)) (2 ^ 32)) as [Hd|]; [|done].
  split; [rewrite E1, length_app in H2; cbn [length] in H2; lia|]. split; [done|].
  split; [by apply digits_value_nonneg|done].
Qed.
(** ** Lexical well-formedness of what is parsed *)

Definition edge_lex (e : EdgeFieldDef) : Prop := ident_ok (ef_name e).

Definition type_lex (ft : FieldType) : Prop :=
  match ft with
  | Scalar _ => True
  | VectorT v => is_u32 (dimensions v)
  | Relation r =>
      ident_ok (target_type r) /\ Forall edge_lex (edge_fields r) /\
      (is_many r = false -> parse_scalar_type (target_type r) = None /\ target_type r <> bs "Vector")
  end.

Definition opt_u32 (o : option Z) : Prop := match o with Some x => is_u32 x | None => True end.
Definition index_lex (d : IndexDef) : Prop := opt_u32 (hnsw_m d) /\ opt_u32 (ef_construction d).
Definition opt_string (o : option bytes) : Prop := match o with Some s => chars string_char s | None => True end.

Definition directive_lex (d : Directive) : Prop :=
  match d with
  | Inverse i => ident_ok (inv_type_name i) /\ ident_ok (inv_field_name i)
  | Index i => index_lex i
  | Vectorize v => chars string_char (source_field v) /\ chars string_char (model v)
  | FulltextD f => In (analyzer f) KNOWN_ANALYZERS
  | _ => True
  end.

Definition field_lex (f : FieldDef) : Prop :=
  ident_ok (fd_name f) /\ type_lex (field_type f) /\ Forall directive_lex (directives f).

Definition typedef_lex (t : TypeDef) : Prop := ident_ok (td_name t) /\ Forall field_lex (fields t).

(** The map of a schema: each type under its own name, in order. *)
Definition types_lex (ts : bmap TypeDef) : Prop :=
  bsorted ts /\ Forall (fun e => fst e = td_name (snd e) /\ typedef_lex (snd e)) ts.

Lemma runs_bind0 {A B} N n (P : A -> Prop) (Q : B -> Prop) m k :
  runs N 0 P m -> (forall a, P a -> runs N n Q (k a)) -> runs N n Q (bind m k).
Proof. intros Hm Hk. eapply (runs_bind N 0 n); [done|]. intros a Ha. rewrite Nat.sub_0_r. by apply Hk. Qed.

Lemma runs_bind1 {A B} N n (P : A -> Prop) (Q : B -> Prop) m k :
  (n <= 1)%nat -> runs N 1 P m -> (forall a, P a -> runs (N - 1) 0 Q (k a)) -> runs N n Q (bind m k).
Proof.
  intros Hn Hm Hk. apply (runs_weaken N N (1 + 0) n Q Q); [|lia|lia|done]. by eapply runs_bind.
Qed.

Ltac run_one :=
  match goal with
  | |- runs _ _ _ (bind skip_whitespace _) => eapply runs_bind0; [apply runs_skip|intros _ _]
  | |- runs _ _ _ (bind (peek_is _) _) => eapply runs_bind0; [apply runs_peek|intros [] _]
  | |- runs _ _ _ (bind (ret _) _) => eapply (runs_bind0 _ _ (fun _ => True)); [by apply runs_ret|intros _ _]
  | |- runs _ _ _ (bind advance_m _) => eapply runs_bind0; [apply runs_advance|intros _ _]
  | |- runs _ _ _ (bind (expect _) _) => eapply runs_bind1; [lia|apply runs_expect|intros _ _]
  | |- runs _ _ _ (bind parse_ident _) => eapply runs_bind1; [lia|apply runs_ident|intros ? ?]
  | |- runs _ _ _ (bind parse_u32 _) => eapply runs_bind1; [lia|apply runs_u32|intros ? ?]
  | |- runs _ _ _ (bind parse_string_value _) => eapply runs_bind1; [lia|apply runs_string|intros ? ?]
  | |- runs _ _ _ (perror _) => apply runs_error
  | |- runs _ _ _ (throw _) => apply runs_throw
  | |- runs _ _ _ (if beqb ?a ?b then _ else _) => destruct (beqb_spec a b); [subst|]
  | |- runs _ _ _ (match ?x with Some _ => _ | None => _ end) => destruct x eqn:?
  | |- runs _ 0 _ (ret _) => apply runs_ret
  end.
Ltac run := repeat run_one.

Lemma runs_shrink {A} N N' (Q : A -> Prop) m : runs N 0 Q m -> (N' <= N)%nat -> runs N' 0 Q m.
Proof. intros H HN. by apply (runs_weaken N N' 0 0 Q Q). Qed.

Lemma Forall_snoc {A} (P : A -> Prop) l x : Forall P l -> P x -> Forall P (l ++ [x]).
Proof. intros. apply Forall_app. auto. Qed.


Lemma runs_edge_fields_loop fuel acc :
  Forall edge_lex acc -> runs fuel 0 (Forall edge_lex) (edge_fields_loop fuel acc).
Proof.
  revert acc. induction fuel as [|fuel IH]; intros acc Ha; [intros p Hv Hl; lia|]. cbn [edge_fields_loop].
  run; [done|eapply runs_shrink; [apply IH, Forall_snoc; done|lia]..].
Qed.

Lemma runs_edge_fields N : runs N 1 (Forall edge_lex) parse_edge_fields.
Proof.
  unfold parse_edge_fields. run.
  apply (runs_fuel _ _ (Forall edge_lex) (fun k => edge_fields_loop k [])). intros k. by apply runs_edge_fields_loop.
Qed.

Lemma runs_field_type N : runs N 0 type_lex parse_field_type.
Proof.
  unfold parse_field_type. run; try done; cbn; repeat split; auto; by try constructor.
Qed.

Lemma runs_index_param N d key : index_lex d -> runs N 0 index_lex (index_param d key).
Proof. intros [H1 H2]. unfold index_param. run; by split. Qed.

Lemma runs_index_loop fuel d : index_lex d -> runs fuel 0 index_lex (index_loop fuel d).
Proof.
  revert d. induction fuel as [|fuel IH]; intros d Hd; [intros p Hv Hl; lia|]. cbn [index_loop].
  run; [done|]. eapply runs_bind0; [by apply runs_index_param|]. intros d' Hd'.
  eapply runs_shrink; [by apply IH|lia].
Qed.

Definition vec_lex (d : option bytes * option bytes) : Prop := opt_string (fst d) /\ opt_string (snd d).

Lemma runs_vectorize_param N d key : vec_lex d -> runs N 0 vec_lex (vectorize_param d key).
Proof. intros [H1 H2]. unfold vectorize_param. run; by split. Qed.

Lemma runs_optional_comma N b : runs N 0 (fun _ => True) (if b : bool then expect (bs ",") else ret ()).
Proof. destruct b; [apply (runs_weaken N N 1 0 (fun _ => True) (fun _ => True)); [apply runs_expect|lia..|done]|by apply runs_ret]. Qed.

Lemma runs_vectorize_loop fuel d : vec_lex d -> runs fuel 0 vec_lex (vectorize_loop fuel d).
Proof.
  revert d. induction fuel as [|fuel IH]; intros d Hd; [intros p Hv Hl; lia|]. cbn [vectorize_loop].
  run; [done|]. eapply runs_bind0; [by apply runs_optional_comma|intros _ _]. run.
  eapply runs_bind0; [by apply runs_vectorize_param|]. intros d' Hd'.
  eapply runs_shrink; [by apply IH|lia].
Qed.

Definition full_lex (f : FulltextDef) : Prop := In (analyzer f) KNOWN_ANALYZERS.

Lemma runs_bool N : runs N 0 (fun _ => True) parse_bool_value.
Proof.
  unfold parse_bool_value. run. intros p Hv Hl.
  match goal with |- context [if ?b then _ else _] => destruct b; [|done] end.
  match goal with |- match ?m p with _ => _ end => assert (H' : runs N 0 (fun _ : bool => True) m) end.
  - run; done.
  - by apply H'.
Qed.

Lemma runs_fulltext_param N d key :
  full_lex (fst (fst d)) -> runs N 0 (fun d => full_lex (fst (fst d))) (fulltext_param d key).
Proof.
  destruct d as [[def sa] sp]. intros H. cbn in H. unfold fulltext_param. run.
  - destruct sa; run. destruct (existsb _ KNOWN_ANALYZERS) eqn:E; run. cbn.
    apply existsb_exists in E as (x & Hx & Hb). by destruct (beqb_spec a x) as [->|].
  - destruct sp; run. eapply runs_bind0; [apply runs_bool|]. intros v _. by apply runs_ret.
Qed.

Lemma runs_fulltext_loop fuel d : full_lex (fst (fst d)) -> runs fuel 0 full_lex (fulltext_loop fuel d).
Proof.
  revert d. induction fuel as [|fuel IH]; intros d Hd; [intros p Hv Hl; lia|]. cbn [fulltext_loop].
  run; [done|]. eapply runs_bind0; [by apply runs_optional_comma|intros _ _]. run.
  eapply runs_bind0; [by apply runs_fulltext_param|]. intros d' Hd'.
  eapply runs_shrink; [by apply IH|lia].
Qed.

Lemma runs_directive N : runs N 1 directive_lex parse_directive.
Proof.
  unfold parse_directive. run; try exact I.
  - unfold directive_on_delete. run. exact I.
  - unfold directive_inverse. run. done.
  - unfold directive_index. run. eapply runs_bind0; [|intros d Hd; apply runs_ret; exact Hd].
    apply (runs_fuel _ _ index_lex (fun k => index_loop k index_default)). intros k. by apply runs_index_loop.
  - unfold directive_vectorize. run. eapply runs_bind0.
    { apply (runs_fuel _ _ vec_lex (fun k => vectorize_loop k (None, None))). intros k. by apply runs_vectorize_loop. }
    intros [[s|] [m|]] [H1 H2]; cbn [fst snd]; run. done.
  - unfold directive_fulltext. run.
    + eapply runs_bind0; [|intros d Hd; apply runs_ret; exact Hd].
      apply (runs_fuel _ _ full_lex (fun k => fulltext_loop k (fulltext_default, false, false))).
      intros k. apply runs_fulltext_loop. by left.
    + by left.
Qed.

Lemma runs_directives_loop fuel acc :
  Forall directive_lex acc -> runs fuel 0 (Forall directive_lex) (directives_loop fuel acc).
Proof.
  revert acc. induction fuel as [|fuel IH]; intros acc Ha; [intros p Hv Hl; lia|]. cbn [directives_loop].
  run; [|done]. eapply runs_bind1; [lia|apply runs_directive|]. intros d Hd.
  eapply runs_shrink; [by apply IH, Forall_snoc|lia].
Qed.

Lemma runs_relation_edges N ft : type_lex ft -> runs N 0 type_lex (parse_relation_edges ft).
Proof.
  intros H. unfold parse_relation_edges. destruct ft as [s|r|v]; [by apply runs_ret| |by apply runs_ret].
  run; [|done]. eapply runs_bind1; [lia|apply runs_edge_fields|]. intros efs He. run.
  destruct H as (H1 & H2 & H3). done.
Qed.

Lemma runs_field_def N : runs N 1 field_lex parse_field_def.
Proof.
  unfold parse_field_def. run. eapply runs_bind0; [apply runs_field_type|]. intros ft Hft.
  eapply runs_bind0; [by apply runs_relation_edges|]. intros ft' Hft'.
  eapply runs_bind0; [|intros ds Hds; apply runs_ret; by split].
  apply (runs_fuel _ _ (Forall directive_lex) (fun k => directives_loop k [])). intros k. by apply runs_directives_loop.
Qed.

Lemma runs_fields_loop fuel acc :
  Forall field_lex acc -> runs fuel 0 (Forall field_lex) (fields_loop fuel acc).
Proof.
  revert acc. induction fuel as [|fuel IH]; intros acc Ha; [intros p Hv Hl; lia|]. cbn [fields_loop].
  run; [done|]. eapply runs_bind1; [lia|apply runs_field_def|]. intros f Hf.
  eapply runs_shrink; [by apply IH, Forall_snoc|lia].
Qed.

Lemma runs_type_def N : runs N 1 typedef_lex parse_type_def.
Proof.
  unfold parse_type_def. run. eapply runs_bind0; [|intros fs Hfs; apply runs_ret; by split].
  apply (runs_fuel _ _ (Forall field_lex) (fun k => fields_loop k [])). intros k. by apply runs_fields_loop.
Qed.

Lemma types_lex_insert ts t :
  types_lex ts -> typedef_lex t -> types_lex (bm_insert (td_name t) t ts).
Proof.
  intros [Hs Hf] Ht. split; [by apply bsorted_insert|]. rewrite Forall_forall in *. intros [k x] Hx.
  apply list_elem_of_In, in_bm_insert in Hx as [[-> ->]|[_ Hx]]; [done| |done]. by apply (Hf (k, x)), list_elem_of_In.
Qed.

Lemma runs_types_loop fuel ts : types_lex ts -> runs fuel 0 types_lex (types_loop fuel ts).
Proof.
  revert ts. induction fuel as [|fuel IH]; intros ts Hts; [intros p Hv Hl; lia|]. intros p Hv Hl. cbn [types_loop].
  destruct (is_eof p); [cbn; split; [lia|done]|].
  match goal with |- match ?m p with _ => _ end => assert (H' : runs (S fuel) 0 types_lex m) end.
  - eapply runs_bind1; [lia|apply runs_type_def|]. intros t Ht. destruct (is_some _); run.
    eapply runs_shrink; [by apply IH, types_lex_insert|lia].
  - by apply H'.
Qed.

(** ** What validation accepts *)

Record field_wf (schema : Schema) (t : TypeDef) (f : FieldDef) : Prop := {
  wf_name : contains_dunder (fd_name f) = false;
  wf_relation rel : field_type f = Relation rel -> is_Some (get_type schema (target_type rel));
  wf_vectorize v : vectorize f = Some v ->
    is_vector (field_type f) = true /\
    exists src, get_field t (source_field v) = Some src /\ field_type src = Scalar TString;
  wf_indexed : is_indexed f = true -> exists st, field_type f = Scalar st /\ st <> TJson;
  wf_fulltext_once : (length (List.filter is_fulltext_directive (directives f)) <= 1)%nat;
  wf_fulltext : is_Some (fulltext f) -> field_type f = Scalar TString;
  wf_index idx : index f = Some idx ->
    is_vector (field_type f) = true /\ quantization idx <> Some QNone /\ hnsw_m idx <> Some 0 /\
    ef_construction idx <> Some 0;
  wf_inverse inv : inverse f = Some inv ->
    exists t', get_type schema (inv_type_name inv) = Some t' /\ is_Some (get_field t' (inv_field_name inv));
}.

Record schema_wf (schema : Schema) : Prop := {
  wf_fields t : In t (map snd (types schema)) -> Forall (field_wf schema t) (fields t);
  wf_field_names t : In t (map snd (types schema)) -> NoDup (map fd_name (fields t));
}.

Lemma vguard_ok b e k : vguard b e k = VOk <-> b = true /\ k = VOk.
Proof. unfold vguard. destruct b; split; [done|tauto|done|by intros []]. Qed.

Lemma is_some_spec {A} (o : option A) : is_some o = true <-> is_Some o.
Proof. destruct o; split; intros H; [by eexists|done|done|by destruct H]. Qed.

Lemma is_scalar_of_spec st ft : is_scalar_of st ft = true <-> ft = Scalar st.
Proof.
  destruct ft; cbn; [|done..]. rewrite bool_decide_eq_true. split; [by intros ->|by intros [= ->]].
Qed.

Lemma validate_relation_ok schema f k :
  validate_relation schema f k = VOk <->
  (forall rel, field_type f = Relation rel -> is_Some (get_type schema (target_type rel))) /\ k = VOk.
Proof.
  unfold validate_relation. destruct (field_type f) as [s|r|v]; [split; [|tauto]; intros; by split| |split; [|tauto]; intros; by split].
  rewrite vguard_ok, is_some_spec. split; [|intros [H ?]; by split; [apply H|]].
  intros [H ?]. split; [|done]. by intros rel [= <-].
Qed.

Lemma validate_vectorize_ok t f k :
  validate_vectorize t f k = VOk <->
  (forall v, vectorize f = Some v -> is_vector (field_type f) = true /\
    exists src, get_field t (source_field v) = Some src /\ field_type src = Scalar TString) /\ k = VOk.
Proof.
  unfold validate_vectorize. destruct (vectorize f) as [v|]; [|split; [|tauto]; intros; by split].
  rewrite vguard_ok. destruct (get_field t (source_field v)) as [src|] eqn:E.
  - rewrite vguard_ok, is_scalar_of_spec. split.
    + intros (H1 & H2 & H3). split; [|done]. intros ? [= <-]. eauto.
    + intros [H ?]. destruct (H v eq_refl) as (H1 & src' & H2 & H3). naive_solver.
  - split; [by intros []|]. intros [H _]. destruct (H v eq_refl) as (_ & src' & H2 & _). congruence.
Qed.

Lemma validate_index_ok t f k :
  validate_index t f k = VOk <->
  (forall idx, index f = Some idx ->
    is_vector (field_type f) = true /\ quantization idx <> Some QNone /\ hnsw_m idx <> Some 0 /\
    ef_construction idx <> Some 0) /\ k = VOk.
Proof.
  unfold validate_index. destruct (index f) as [i|]; [|split; [|tauto]; intros; by split].
  rewrite !vguard_ok, !negb_true_iff. split.
  - intros (H1 & H2 & H3 & H4 & H5). split; [|done]. intros ? [= <-].
    split_and!; [done| | |]; intros E; by rewrite E in *.
  - intros [H H5]. destruct (H i eq_refl) as (H1 & H2 & H3 & H4). split_and!; try done; by repeat case_match; subst.
Qed.

Lemma validate_inverse_ok schema f k :
  validate_inverse schema f k = VOk <->
  (forall inv, inverse f = Some inv ->
    exists t', get_type schema (inv_type_name inv) = Some t' /\ is_Some (get_field t' (inv_field_name inv))) /\ k = VOk.
Proof.
  unfold validate_inverse, get_type. destruct (inverse f) as [i|]; [|split; [|tauto]; intros; by split].
  destruct (bm_get (inv_type_name i) (types schema)) as [t|] eqn:E.
  - rewrite vguard_ok, is_some_spec. split.
    + intros [H ?]. split; [|done]. intros ? [= <-]. eauto.
    + intros [H ?]. destruct (H i eq_refl) as (t' & H1 & H2). naive_solver.
  - split; [done|]. intros [H _]. destruct (H i eq_refl) as (t' & H1 & _). congruence.
Qed.

Lemma validate_field_ok schema t f k :
  validate_field schema t f k = VOk <-> field_wf schema t f /\ k = VOk.
Proof.
  unfold validate_field. rewrite vguard_ok, validate_relation_ok, validate_vectorize_ok, !vguard_ok,
    validate_index_ok, validate_inverse_ok, !negb_true_iff, Nat.leb_le.
  rewrite !andb_false_iff, !negb_false_iff, is_scalar_of_spec.
  split.
  - intros (H1 & H2 & H3 & H4 & H5 & H6 & H7 & H8 & H9 & H10). split; [|done]. split; try done.
    + intros Hi. destruct H4 as [|H4]; [congruence|]. destruct H5 as [|H5]; [congruence|].
      destruct (field_type f) as [st| |]; [|done..]. exists st. split; [done|]. intros ->.
      cbn in H5. by rewrite bool_decide_eq_false in H5.
    + intros Hf. destruct H7 as [H7|H7]; [|done]. apply is_some_spec in Hf. congruence.
  - intros [[] Hk]. split_and!; try done.
    + destruct (is_indexed f); [|by left]. right. destruct wf_indexed0 as (st & -> & _); done.
    + destruct (is_indexed f); [|by left]. right. destruct wf_indexed0 as (st & -> & Hs); [done|].
      cbn. by rewrite bool_decide_eq_false.
    + destruct (fulltext f); [right; by apply wf_fulltext0|by left].
Qed.

Lemma validate_fields_ok schema t seen fs k :
  validate_fields schema t seen fs k = VOk <->
  Forall (field_wf schema t) fs /\ NoDup (map fd_name fs) /\ (forall f, In f fs -> ~ In (fd_name f) seen) /\ k = VOk.
Proof.
  revert seen. induction fs as [|f fs IH]; intros seen; cbn [validate_fields map].
  { split; [|tauto]. intros. split_and!; [constructor|constructor|done|done]. }
  rewrite vguard_ok, validate_field_ok, IH, Forall_cons, NoDup_cons, negb_true_iff, list_elem_of_In.
  assert (Hseen : existsb (beqb (fd_name f)) seen = false <-> ~ In (fd_name f) seen).
  { rewrite <- not_true_iff_false, existsb_exists. apply not_iff_compat. split.
    - intros (x & Hx & E). by destruct (beqb_spec (fd_name f) x) as [->|].
    - intros H. exists (fd_name f). split; [done|]. by destruct (beqb_spec (fd_name f) (fd_name f)). }
  rewrite Hseen, in_map_iff. split.
  - intros (H1 & H2 & H3 & H4 & H5 & H6). split_and!; try done.
    + intros (g & Hg & Hin). apply (H5 g Hin). by left.
    + intros g [<-|Hin]; [done|]. intros Hs. apply (H5 g Hin). by right.
  - intros ((H1 & H2) & (H3 & H4) & H5 & H6). split_and!; try done.
    + by apply H5; left.
    + intros g Hin [Hs|Hs]; [apply H3; by exists g|by apply (H5 g); [right|]].
Qed.

Lemma validate_schema_wf schema : validate_schema schema = VOk <-> schema_wf schema.
Proof.
  unfold validate_schema.
  assert (H : forall ts, validate_types schema ts = VOk <->
    forall t, In t ts -> Forall (field_wf schema t) (fields t) /\ NoDup (map fd_name (fields t))).
  { induction ts as [|t ts IH]; cbn [validate_types]; [done|].
    rewrite validate_fields_ok, IH. split.
    - intros (H1 & H2 & _ & H3) t' [<-|Ht]; auto.
    - intros H. destruct (H t) as [H1 H2]; [by left|]. split_and!; try done; [by intros ? ? []|].
      intros t' Ht. apply H. by right. }
  rewrite H. split; [intros Hw; split; intros t Ht; by apply Hw|]. intros [] t Ht. auto.
Qed.

End spec.
