(* ===== verification/SchemaRoundTrip.v ===== *)
(** * The schema language: the round trip

    Parsing the text [emit_schema] writes for a schema the parser accepts gives
    the schema back (the contract in the header of
    crates/rhypedb-schema/src/emit.rs). *)

From Stdlib Require Import ZArith Lia Bool List Strings.Byte Strings.String.
From stdpp Require Import base tactics option list.
From S2P Require Import Prelude ByteMap Utf8 Schema SchemaParser SchemaEmit SchemaSpec.

Local Open Scope Z_scope.
Local Open Scope parser_scope.

Section round_trip.
Context {C : CharClass}.

(** [parses m i a r]: at [i], wherever the text stands, [m] returns [a] and
    stops at [r]. *)
Definition parses {A} (m : M A) (i : bytes) (a : A) (r : bytes) : Prop :=
  forall l c, exists l' c', m {| rest := i; line := l; col := c |} = POk a {| rest := r; line := l'; col := c' |}.

Lemma parses_bind {A B} (m : M A) (k : A -> M B) i a r b r' :
  parses m i a r -> parses (k a) r b r' -> parses (bind m k) i b r'.
Proof.
  intros Hm Hk l c. destruct (Hm l c) as (l1 & c1 & E1). destruct (Hk l1 c1) as (l2 & c2 & E2).
  exists l2, c2. unfold bind. by rewrite E1.
Qed.

Lemma parses_ret {A} (a : A) i : parses (ret a) i a i.
Proof. intros l c. by exists l, c. Qed.

Lemma parses_fuel {A} (m : nat -> M A) i a r :
  parses (m (S (length i))) i a r -> parses (fun p => m (S (length (rest p))) p) i a r.
Proof. intros H l c. apply H. Qed.

Lemma advance_app c r l n :
  whole c -> exists l' n', advance {| rest := c ++ r; line := l; col := n |}
    = Some (c, {| rest := r; line := l'; col := n' |}).
Proof.
  intros Hc. unfold advance. cbn [rest]. rewrite next_char_app by done. cbn. case_match; eauto.
Qed.

Lemma advance_none l n : advance {| rest := []; line := l; col := n |} = None.
Proof. done. Qed.

Lemma skip_ws_token fuel r l c :
  token_start r -> skip_whitespace_loop fuel {| rest := r; line := l; col := c |} = {| rest := r; line := l; col := c |}.
Proof.
  destruct fuel as [|fuel]; [done|]. cbn [skip_whitespace_loop]. unfold token_start, advance. cbn [rest].
  destruct (next_char r) as [[ch q]|]; [|done]. intros [H1 H2]. cbn [mbind option_bind]. rewrite H1.
  destruct (beqb_spec ch (bs "/")) as [->|]; [by destruct H2|done].
Qed.

Lemma skip_blank_loop ws r fuel l c :
  blank ws -> token_start r -> (length (ws ++ r) <= fuel)%nat ->
  exists l' c', skip_whitespace_loop fuel {| rest := ws ++ r; line := l; col := c |} = {| rest := r; line := l'; col := c' |}.
Proof.
  intros Hws Hr. revert fuel l c. induction Hws as [|b ws Hb Hws IH]; intros fuel l c Hf.
  { exists l, c. by apply skip_ws_token. }
  destruct fuel as [|fuel]; [cbn in Hf; lia|]. cbn [skip_whitespace_loop].
  destruct (advance_app [b] (ws ++ r) l c) as (l' & c' & E); [apply whole_ascii; by destruct Hb as [->| ->]|].
  cbn [app] in E |- *. rewrite E. destruct Hb as [->| ->]; cbn; apply IH; cbn in Hf; lia.
Qed.

Lemma parses_skip ws r : blank ws -> token_start r -> parses skip_whitespace (ws ++ r) () r.
Proof.
  intros Hws Hr l c. unfold skip_whitespace, skip_ws. cbn [rest].
  destruct (skip_blank_loop ws r (length (ws ++ r)) l c Hws Hr) as (l' & c' & ->); [done|]. eauto.
Qed.

Lemma parses_peek c r b :
  b = match next_char r with Some (ch, _) => beqb ch c | None => false end -> parses (peek_is c) r b r.
Proof.
  intros -> l n. exists l, n. unfold peek_is, peek. cbn [rest]. by destruct (next_char r) as [[]|].
Qed.

Lemma parses_advance c r : whole c -> parses advance_m (c ++ r) () r.
Proof. intros Hc l n. unfold advance_m. destruct (advance_app c r l n Hc) as (l' & n' & ->). eauto. Qed.

Lemma token_start_app c r : whole c -> is_whitespace c = false -> c <> [x2f] -> token_start (c ++ r).
Proof. intros Hc Hw Hs. unfold token_start. by rewrite next_char_app. Qed.

Lemma parses_expect ws c r :
  blank ws -> whole c -> is_whitespace c = false -> c <> [x2f] -> parses (expect c) (ws ++ c ++ r) () r.
Proof.
  intros Hws Hc Hw Hs. eapply parses_bind; [apply parses_skip; [done|by apply token_start_app]|].
  intros l n. destruct (advance_app c r l n Hc) as (l' & n' & ->). exists l', n'.
  by destruct (beqb_spec c c).
Qed.

Lemma take_while_app f s r fuel l c :
  chars f s -> stops f r -> (length (s ++ r) <= fuel)%nat ->
  exists l' c', take_while f fuel {| rest := s ++ r; line := l; col := c |} = (s, {| rest := r; line := l'; col := c' |}).
Proof.
  intros Hs Hr. revert fuel l c. induction Hs as [|ch s Hw Hf Hs IH]; intros fuel l c Hl.
  - exists l, c. destruct fuel as [|fuel]; [done|]. cbn [take_while app]. unfold stops in Hr. unfold advance. cbn [rest].
    destruct (next_char r) as [[ch q]|]; [|done]. cbn. by rewrite Hr.
  - destruct fuel as [|fuel]; [destruct Hw as (b & Hb & _); destruct ch; [done|cbn in Hl; lia]|]. cbn [take_while].
    rewrite <- app_assoc. destruct (advance_app ch (s ++ r) l c Hw) as (l1 & c1 & ->). rewrite Hf.
    destruct (IH fuel l1 c1) as (l2 & c2 & ->); [|by exists l2, c2].
    destruct Hw as (b & Hb & _). destruct ch; [done|]. rewrite <- app_assoc in Hl. cbn in Hl. rewrite length_app in Hl. lia.
Qed.

Lemma ident_chars n : ident_ok n -> chars ident_char n /\ n <> [].
Proof.
  intros (c & s & -> & Hw & _ & Hi & Hs). split; [by constructor|]. destruct Hw as (b & Hb & _). by destruct c.
Qed.

Lemma ident_token n r : ident_ok n -> token_start (n ++ r).
Proof.
  intros (c & s & -> & Hw & Hns & Hi & _). rewrite <- app_assoc. apply token_start_app; [done|done|]. by intros ->.
Qed.

Lemma parses_ident ws n r :
  blank ws -> ident_ok n -> stops ident_char r -> parses parse_ident (ws ++ n ++ r) n r.
Proof.
  intros Hws Hn Hr. eapply parses_bind; [apply parses_skip; [done|by apply ident_token]|].
  intros l c. unfold take_chars. cbn [rest]. destruct (ident_chars n Hn) as [Hc Hne].
  destruct (take_while_app ident_char n r (length (n ++ r)) l c Hc Hr) as (l' & c' & ->); [done|].
  exists l', c'. by destruct n.
Qed.

Lemma parses_string ws s r :
  blank ws -> chars string_char s -> parses parse_string_value (ws ++ [x22] ++ s ++ [x22] ++ r) s r.
Proof.
  intros Hws Hs. eapply parses_bind; [apply parses_skip; [done|by apply token_start_app; [apply whole_ascii|..]]|].
  eapply parses_bind; [apply (parses_expect [] [x22]); [constructor|by apply whole_ascii|done|done]|].
  intros l c. unfold string_chars, take_chars. cbn [rest].
  destruct (take_while_app string_char s ([x22] ++ r) (length (s ++ [x22] ++ r)) l c Hs) as (l' & c' & ->); [done|done|].
  destruct (advance_app [x22] r l' c') as (l2 & c2 & ->); [by apply whole_ascii|]. eauto.
Qed.

(** ** Numbers *)

Lemma digit_byte d : 0 <= d < 10 -> ascii_digit (z2b (48 + d)) = true /\ b2z (z2b (48 + d)) = 48 + d.
Proof.
  intros H. assert (E : b2z (z2b (48 + d)) = 48 + d) by (rewrite b2z_z2b; apply Z.mod_small; lia).
  split; [|done]. unfold ascii_digit. apply in_range_spec. rewrite E. lia.
Qed.

Lemma digit_whole d : 0 <= d < 10 -> whole [z2b (48 + d)].
Proof. intros H. apply whole_ascii. destruct (digit_byte d H) as [_ ->]. lia. Qed.

Definition from_digits (acc : Z) (s : bytes) : Z := fold_left (fun acc b => 10 * acc + (b2z b - 48)) s acc.

Lemma from_digits_app acc s t : from_digits acc (s ++ t) = from_digits (from_digits acc s) t.
Proof. unfold from_digits. by rewrite fold_left_app. Qed.

Lemma digits_loop_app fuel n acc : digits_loop fuel n acc = digits_loop fuel n [] ++ acc.
Proof.
  revert n acc. induction fuel as [|fuel IH]; intros n acc; [done|]. cbn [digits_loop].
  destruct (n <? 10); [done|]. rewrite IH, (IH _ [_]), <- app_assoc. done.
Qed.

Lemma digits_loop_spec fuel n :
  0 <= n < 10 ^ Z.of_nat fuel -> (0 < fuel)%nat ->
  chars is_ascii_digit (digits_loop fuel n []) /\ from_digits 0 (digits_loop fuel n []) = n /\ digits_loop fuel n [] <> [].
Proof.
  revert n. induction fuel as [|fuel IH]; intros n Hn Hf; [lia|]. cbn [digits_loop].
  assert (Hd : 0 <= n mod 10 < 10) by (apply Z.mod_pos_bound; lia).
  destruct (digit_byte _ Hd) as [D1 D2].
  destruct (Z.ltb_spec n 10) as [Hlt|Hge].
  - rewrite Z.mod_small in * by lia. split_and!; [|unfold from_digits; cbn [fold_left]; lia|done].
    apply (chars_cons _ [_] []); [by apply digit_whole|done|constructor].
  - assert (Hn' : 0 <= n / 10 < 10 ^ Z.of_nat fuel).
    { rewrite Nat2Z.inj_succ, Z.pow_succ_r in Hn by lia. split; [apply Z.div_pos; lia|].
      apply Z.div_lt_upper_bound; lia. }
    assert (0 < fuel)%nat by (destruct fuel; [cbn in Hn'; lia|lia]).
    destruct (IH _ Hn' ltac:(lia)) as (H1 & H2 & H3). rewrite digits_loop_app. split_and!.
    + clear - H1 D1 Hd. induction H1 as [|c s Hw Hc Hs IH]; cbn.
      * apply (chars_cons _ [_] []); [by apply digit_whole|done|constructor].
      * rewrite <- app_assoc. by constructor.
    + rewrite from_digits_app, H2. unfold from_digits. cbn [fold_left]. rewrite D2.
      pose proof (Z.div_mod n 10 ltac:(lia)). lia.
    + by destruct (digits_loop fuel (n / 10) []).
Qed.

Lemma digits_token d r : chars is_ascii_digit d -> d <> [] -> token_start (d ++ r).
Proof.
  intros Hd Hne. destruct Hd as [|c s Hw Hc _]; [done|]. rewrite <- app_assoc. destruct c as [|b [|]]; [done| |done].
  cbn in Hc. unfold ascii_digit in Hc. apply in_range_spec in Hc.
  apply token_start_app; [done| |intros [= ->]; change (b2z x2f) with 47 in Hc; lia]. cbn.
  rewrite !orb_false_iff. split; [|lia]. apply not_true_iff_false. rewrite in_range_spec. lia.
Qed.

Lemma parses_u32 ws n r :
  blank ws -> is_u32 n -> stops is_ascii_digit r -> parses parse_u32 (ws ++ show_u32 n ++ r) n r.
Proof.
  intros Hws Hn Hr. unfold is_u32 in Hn. unfold show_u32.
  destruct (digits_loop_spec 10 n) as (H1 & H2 & H3); [cbn; lia|lia|].
  set (d := digits_loop 10 n []) in *. clearbody d.
  eapply parses_bind; [apply parses_skip; [done|by apply digits_token]|].
  intros l c. unfold take_chars. cbn [rest].
  destruct (take_while_app is_ascii_digit d r (length (d ++ r)) l c H1 Hr) as (l' & c' & ->); [done|].
  exists l', c'. unfold parse_u32_str, digits_value. fold (from_digits 0 d). rewrite H2.
  rewrite (proj2 (Z.ltb_lt _ _)) by lia. by destruct d.
Qed.
(** ** Keywords and delimiters *)

Definition ascii_word (b : byte) : bool := ascii_alpha b || ascii_digit b || (b2z b =? 95).

Lemma ascii_word_spec b : ascii_word b = true -> whole [b] /\ ident_char [b] = true /\ is_whitespace [b] = false.
Proof.
  intros H. assert (Hr : 48 <= b2z b < 128).
  { unfold ascii_word, ascii_alpha, ascii_digit in H. rewrite !orb_true_iff, !in_range_spec, Z.eqb_eq in H. lia. }
  split_and!; [apply whole_ascii; lia| |].
  - unfold ident_char. cbn [is_alphanumeric]. unfold ascii_word in H. apply orb_true_iff in H as [->|H]; [done|].
    apply Z.eqb_eq in H. assert (b = x5f) as -> by by apply b2z_inj. by rewrite orb_true_r.
  - cbn. rewrite orb_false_iff. split; [|lia]. apply not_true_iff_false. rewrite in_range_spec. lia.
Qed.

Lemma ascii_ident n : negb (beqb n []) && forallb ascii_word n = true -> ident_ok n.
Proof.
  rewrite andb_true_iff. intros [Hne Hf]. destruct n as [|b n]; [done|]. cbn in Hf. apply andb_true_iff in Hf as [Hb Hf].
  apply ascii_word_spec in Hb as (H1 & H2 & H3). exists [b], n. split_and!; try done. clear - Hf.
  induction n as [|b n IH]; [constructor|]. cbn in Hf. apply andb_true_iff in Hf as [Hb Hf].
  apply ascii_word_spec in Hb as (H1 & H2 & _). apply (chars_cons _ [b]); auto.
Qed.

Lemma blank_nil : blank [].
Proof. constructor. Qed.

Lemma blank_space : blank [x20].
Proof. repeat constructor. Qed.

Hint Resolve blank_nil blank_space : core.

(** A delimiter follows: a comma or a closing parenthesis. *)
Definition delim (t : bytes) : Prop := exists b s, t = b :: s /\ (b = x2c \/ b = x29).

Lemma delim_ident t : delim t -> stops ident_char t.
Proof. by intros (b & s & -> & [->| ->]). Qed.

Lemma delim_digit t : delim t -> stops is_ascii_digit t.
Proof. by intros (b & s & -> & [->| ->]). Qed.

Lemma delim_comma s : delim (bs "," ++ s).
Proof. exists x2c, s. auto. Qed.

Lemma delim_close s : delim (bs ")" ++ s).
Proof. exists x29, s. auto. Qed.

(** Expecting an ASCII punctuation mark. *)
Lemma parses_punct ws b r :
  blank ws -> b2z b < 128 -> is_whitespace [b] = false -> b <> x2f -> parses (expect [b]) (ws ++ b :: r) () r.
Proof.
  intros Hws Hb Hw Hs. apply (parses_expect ws [b] r); [done|by apply whole_ascii|done|]. by intros [= ->].
Qed.

Ltac punct ws b r := eapply parses_bind; [exact (parses_punct ws b r ltac:(auto) ltac:(done) ltac:(done) ltac:(done))|].
Ltac keyword ws n r := eapply parses_bind; [refine (parses_ident ws n r _ _ _); [by auto|by apply ascii_ident|]|].
Ltac ident ws n r := eapply parses_bind; [refine (parses_ident ws n r _ _ _); [by auto|done|]|].

(** ** Directives *)

Definition index_loops (d : IndexDef) (i : bytes) (d' : IndexDef) (r : bytes) : Prop :=
  forall fuel, (length i < fuel)%nat -> parses (index_loop fuel d) i d' r.

Lemma index_params_end d r : index_loops d (bs ")" ++ r) d r.
Proof.
  intros [|fuel] Hf; [lia|]. cbn [index_loop].
  eapply parses_bind; [by apply (parses_skip [] (bs ")" ++ r))|].
  eapply parses_bind; [by apply (parses_peek _ _ true)|]. cbn iota.
  eapply parses_bind; [by apply (parses_advance [x29]), whole_ascii|]. apply parses_ret.
Qed.

Lemma index_step d d1 d2 key v t r :
  ident_ok key -> parses (index_param d key) (bs " " ++ v ++ t) d1 t -> index_loops d1 t d2 r ->
  index_loops d (bs ", " ++ key ++ bs ": " ++ v ++ t) d2 r.
Proof.
  intros Hk Hp Hl [|fuel] Hf; [lia|]. cbn [index_loop].
  eapply parses_bind; [by apply (parses_skip [] (bs ", " ++ key ++ bs ": " ++ v ++ t))|].
  eapply parses_bind; [by apply (parses_peek _ _ false)|]. cbn iota.
  punct (@nil byte) x2c (bs " " ++ key ++ bs ": " ++ v ++ t).
  ident [x20] key (bs ": " ++ v ++ t); [done|].
  punct (@nil byte) x3a (bs " " ++ v ++ t).
  eapply parses_bind; [exact Hp|]. apply Hl. rewrite !length_app in Hf. cbn in Hf. lia.
Qed.

Lemma index_opt {A} key show (set : IndexDef -> A -> IndexDef) o d t d2 r :
  ident_ok key -> (forall x, o = Some x -> parses (index_param d key) (bs " " ++ show x ++ t) (set d x) t) ->
  index_loops (match o with Some x => set d x | None => d end) t d2 r ->
  index_loops d (emit_opt key show o ++ t) d2 r.
Proof.
  intros Hk Hp Hl. destruct o as [x|]; [|done]. cbn [emit_opt].
  rewrite <- !app_assoc. eapply index_step; [done|by apply Hp|done].
Qed.

Lemma emit_opt_delim {A} key (show : A -> bytes) o t : delim t -> delim (emit_opt key show o ++ t).
Proof. intros H. destruct o; [|done]. cbn [emit_opt]. apply delim_comma. Qed.

Lemma parses_metric d m t : delim t -> parses (index_param d (bs "metric")) (bs " " ++ metric_name m ++ t) (set_metric d m) t.
Proof.
  intros Ht. assert (ident_ok (metric_name m)) by (apply ascii_ident; by destruct m).
  ident [x20] (metric_name m) t; [by apply delim_ident|]. destruct m; apply parses_ret.
Qed.

Lemma parses_quantization d q t :
  delim t -> parses (index_param d (bs "quantization")) (bs " " ++ quantization_name q ++ t) (set_quantization d q) t.
Proof.
  intros Ht. assert (ident_ok (quantization_name q)) by (apply ascii_ident; by destruct q).
  ident [x20] (quantization_name q) t; [by apply delim_ident|]. destruct q; apply parses_ret.
Qed.

Lemma parses_m d x t : is_u32 x -> delim t -> parses (index_param d (bs "m")) (bs " " ++ show_u32 x ++ t) (set_m d x) t.
Proof. intros Hx Ht. eapply parses_bind; [apply (parses_u32 [x20]); [auto|done|by apply delim_digit]|apply parses_ret]. Qed.

Lemma parses_ef d x t :
  is_u32 x -> delim t -> parses (index_param d (bs "ef_construction")) (bs " " ++ show_u32 x ++ t) (set_ef d x) t.
Proof. intros Hx Ht. eapply parses_bind; [apply (parses_u32 [x20]); [auto|done|by apply delim_digit]|apply parses_ret]. Qed.

Lemma parses_index i r : index_lex i -> parses directive_index (drop 6 (emit_index i) ++ r) (Index i) r.
Proof.
  intros [Hm He]. unfold directive_index.
  set (t4 := bs ")" ++ r).
  set (t3 := emit_opt (bs "ef_construction") show_u32 (ef_construction i) ++ t4).
  set (t2 := emit_opt (bs "m") show_u32 (hnsw_m i) ++ t3).
  set (t1 := emit_opt (bs "quantization") quantization_name (quantization i) ++ t2).
  set (t0 := emit_opt (bs "metric") metric_name (metric i) ++ t1).
  assert (D4 : delim t4) by apply delim_close. assert (D3 : delim t3) by by apply emit_opt_delim.
  assert (D2 : delim t2) by by apply emit_opt_delim. assert (D1 : delim t1) by by apply emit_opt_delim.
  assert (D0 : delim t0) by by apply emit_opt_delim.
  assert (E : drop 6 (emit_index i) ++ r = bs "(" ++ bs "hnsw" ++ t0).
  { unfold emit_index, t0, t1, t2, t3, t4. destruct (index_type i).
    match goal with |- context [bs "@index(" ++ ?x] => change (drop 6 (bs "@index(" ++ x)) with (bs "(" ++ x) end.
    by rewrite <- !app_assoc. }
  rewrite E. punct (@nil byte) x28 (bs "hnsw" ++ t0). keyword (@nil byte) (bs "hnsw") t0; [by apply delim_ident|].
  eapply parses_bind; [|apply parses_ret].
  apply (parses_fuel (fun k => index_loop k index_default)).
  cut (index_loops index_default t0 i r); [intros H; apply H; lia|].
  apply (index_opt (bs "metric") metric_name set_metric); [by apply ascii_ident|intros; by apply parses_metric|].
  apply (index_opt (bs "quantization") quantization_name set_quantization); [by apply ascii_ident|intros; by apply parses_quantization|].
  apply (index_opt (bs "m") show_u32 set_m); [by apply ascii_ident|intros x Ex; rewrite Ex in Hm; by apply parses_m|].
  apply (index_opt (bs "ef_construction") show_u32 set_ef); [by apply ascii_ident|intros x Ex; rewrite Ex in He; by apply parses_ef|].
  match goal with |- index_loops ?d _ _ _ => replace d with i; [apply index_params_end|] end.
  destruct i as [[] [] [] [] []]; reflexivity.
Qed.

(** The start of a round of a parameter loop: no closing parenthesis yet. *)
Ltac no_close i :=
  eapply parses_bind; [by apply (parses_skip [] i)|];
  eapply parses_bind; [by apply (parses_peek _ _ false)|]; cbn iota.

Ltac at_close r :=
  eapply parses_bind; [by apply (parses_skip [] (bs ")" ++ r))|];
  eapply parses_bind; [by apply (parses_peek _ _ true)|]; cbn iota;
  eapply parses_bind; [by apply (parses_advance [x29]), whole_ascii|].

Lemma parses_vectorize v r :
  directive_lex (Vectorize v) -> parses directive_vectorize (drop 10 (emit_directive (Vectorize v)) ++ r) (Vectorize v) r.
Proof.
  intros [Hs Hm]. destruct v as [s m]. cbn [source_field model] in *. unfold directive_vectorize.
  set (t2 := bs ")" ++ r). set (t1 := bs ", model: " ++ [x22] ++ m ++ [x22] ++ t2).
  assert (E : drop 10 (emit_directive (Vectorize {| source_field := s; model := m |})) ++ r
    = bs "(" ++ bs "source: " ++ [x22] ++ s ++ [x22] ++ t1).
  { cbn [emit_directive source_field model]. unfold t1, t2.
    match goal with |- context [bs "@vectorize(source: " ++ ?x] =>
      change (drop 10 (bs "@vectorize(source: " ++ x)) with (bs "(source: " ++ x) end.
    by rewrite <- !app_assoc. }
  rewrite E. punct (@nil byte) x28 (bs "source: " ++ [x22] ++ s ++ [x22] ++ t1).
  apply (parses_bind _ _ _ (Some s, Some m) r); [|apply parses_ret].
  apply (parses_fuel (fun k => vectorize_loop k (None, None))).
  set (n := length (bs "source: " ++ [x22] ++ s ++ [x22] ++ t1)). assert (3 <= n)%nat by (unfold n; rewrite length_app; cbn; lia).
  destruct n as [|[|[|n]]]; [lia..|]. cbn [vectorize_loop].
  no_close (bs "source: " ++ [x22] ++ s ++ [x22] ++ t1). cbn [fst snd is_some orb].
  eapply parses_bind; [apply parses_ret|].
  keyword (@nil byte) (bs "source") (bs ": " ++ [x22] ++ s ++ [x22] ++ t1); [done|].
  punct (@nil byte) x3a (bs " " ++ [x22] ++ s ++ [x22] ++ t1).
  eapply (parses_bind _ _ _ (Some s, None) t1).
  { eapply parses_bind; [by apply (parses_skip [x20])|].
    eapply parses_bind; [by apply (parses_string [] s t1)|apply parses_ret]. }
  no_close t1. cbn [fst snd is_some orb].
  punct (@nil byte) x2c (bs " model: " ++ [x22] ++ m ++ [x22] ++ t2).
  keyword [x20] (bs "model") (bs ": " ++ [x22] ++ m ++ [x22] ++ t2); [done|].
  punct (@nil byte) x3a (bs " " ++ [x22] ++ m ++ [x22] ++ t2).
  eapply (parses_bind _ _ _ (Some s, Some m) t2).
  { eapply parses_bind; [by apply (parses_skip [x20])|].
    eapply parses_bind; [by apply (parses_string [] m t2)|apply parses_ret]. }
  at_close r. apply parses_ret.
Qed.

Lemma parses_bool b t : delim t -> parses parse_bool_value (bs " " ++ show_bool b ++ t) b t.
Proof.
  intros Ht. assert (Hi : ident_ok (show_bool b)) by (apply ascii_ident; by destruct b).
  eapply parses_bind; [apply (parses_skip [x20]); [auto|by apply ident_token]|].
  intros l c. destruct (parses_ident [] (show_bool b) t blank_nil Hi (delim_ident t Ht) l c) as (l' & c' & E).
  exists l', c'. cbn [app] in E. destruct b; cbn [show_bool app peek rest] in *; unfold peek; cbn [rest];
    unfold bind; by rewrite E.
Qed.

Lemma known_string n : In n KNOWN_ANALYZERS -> chars string_char n /\ existsb (beqb n) KNOWN_ANALYZERS = true.
Proof.
  intros [<-|[<-|[]]]; (split; [|done]).
  all: repeat (apply (chars_cons _ [_]); [by apply whole_ascii|done|]); constructor.
Qed.

Lemma parses_fulltext f r :
  directive_lex (FulltextD f) -> parses directive_fulltext (drop 9 (emit_directive (FulltextD f)) ++ r) (FulltextD f) r.
Proof.
  intros Ha. destruct f as [a b]. cbn [directive_lex analyzer] in Ha. destruct (known_string a Ha) as [Hs Hk].
  unfold directive_fulltext.
  set (t2 := bs ")" ++ r). set (t1 := bs ", positions: " ++ show_bool b ++ t2).
  assert (E : drop 9 (emit_directive (FulltextD {| analyzer := a; positions := b |})) ++ r
    = bs "(" ++ bs "analyzer: " ++ [x22] ++ a ++ [x22] ++ t1).
  { cbn [emit_directive analyzer positions]. unfold t1, t2.
    match goal with |- context [bs "@fulltext(analyzer: " ++ ?x] =>
      change (drop 9 (bs "@fulltext(analyzer: " ++ x)) with (bs "(analyzer: " ++ x) end.
    by rewrite <- !app_assoc. }
  rewrite E. set (t0 := bs "analyzer: " ++ [x22] ++ a ++ [x22] ++ t1).
  eapply parses_bind; [by apply (parses_skip [] (bs "(" ++ t0))|].
  eapply parses_bind; [by apply (parses_peek _ _ true)|]. cbn iota.
  eapply parses_bind; [by apply (parses_advance [x28] t0), whole_ascii|].
  eapply parses_bind; [|apply parses_ret].
  apply (parses_fuel (fun k => fulltext_loop k (fulltext_default, false, false))).
  set (n := length t0). assert (3 <= n)%nat by (unfold n, t0; rewrite length_app; cbn; lia).
  destruct n as [|[|[|n]]]; [lia..|]. cbn [fulltext_loop].
  no_close t0. cbn [fst snd orb].
  eapply parses_bind; [apply parses_ret|].
  keyword (@nil byte) (bs "analyzer") (bs ": " ++ [x22] ++ a ++ [x22] ++ t1); [done|].
  punct (@nil byte) x3a (bs " " ++ [x22] ++ a ++ [x22] ++ t1).
  eapply (parses_bind _ _ _ ({| analyzer := a; positions := true |}, true, false) t1).
  { cbn [fulltext_param]. change (beqb (bs "analyzer") (bs "analyzer")) with true. cbn iota.
    eapply parses_bind; [by apply (parses_string [x20] a t1)|]. rewrite Hk. apply parses_ret. }
  no_close t1. cbn [fst snd orb].
  punct (@nil byte) x2c (bs " positions: " ++ show_bool b ++ t2).
  keyword [x20] (bs "positions") (bs ": " ++ show_bool b ++ t2); [done|].
  punct (@nil byte) x3a (bs " " ++ show_bool b ++ t2).
  eapply (parses_bind _ _ _ ({| analyzer := a; positions := b |}, true, true) t2).
  { cbn [fulltext_param]. change (beqb (bs "positions") (bs "analyzer")) with false.
    change (beqb (bs "positions") (bs "positions")) with true. cbn iota.
    eapply parses_bind; [apply parses_bool, delim_close|]. apply parses_ret. }
  at_close r. apply parses_ret.
Qed.

Lemma parses_on_delete p r : parses directive_on_delete (bs "(" ++ policy_name p ++ bs ")" ++ r) (OnDelete p) r.
Proof.
  assert (ident_ok (policy_name p)) by (apply ascii_ident; by destruct p). unfold directive_on_delete.
  punct (@nil byte) x28 (policy_name p ++ bs ")" ++ r). ident (@nil byte) (policy_name p) (bs ")" ++ r); [done|].
  punct (@nil byte) x29 r. destruct p; apply parses_ret.
Qed.

Lemma parses_inverse t f r :
  ident_ok t -> ident_ok f ->
  parses directive_inverse (bs "(" ++ t ++ bs "." ++ f ++ bs ")" ++ r) (Inverse {| inv_type_name := t; inv_field_name := f |}) r.
Proof.
  intros Ht Hf. unfold directive_inverse. punct (@nil byte) x28 (t ++ bs "." ++ f ++ bs ")" ++ r).
  ident (@nil byte) t (bs "." ++ f ++ bs ")" ++ r); [done|]. punct (@nil byte) x2e (f ++ bs ")" ++ r).
  ident (@nil byte) f (bs ")" ++ r); [done|]. punct (@nil byte) x29 r. apply parses_ret.
Qed.

(** A directive after its [@]. *)
Lemma parses_directive d r :
  directive_lex d -> stops ident_char r -> parses parse_directive (drop 1 (emit_directive d) ++ r) d r.
Proof.
  intros Hd Hr. unfold parse_directive. destruct d as [| |p|i|i|v|f].
  - keyword (@nil byte) (bs "unique") r; [done|]. apply parses_ret.
  - keyword (@nil byte) (bs "indexed") r; [done|]. apply parses_ret.
  - cbn [emit_directive]. replace (drop 1 (bs "@on_delete(" ++ policy_name p ++ bs ")") ++ r)
      with (bs "on_delete" ++ bs "(" ++ policy_name p ++ bs ")" ++ r) by (by rewrite (app_assoc (policy_name p))).
    keyword (@nil byte) (bs "on_delete") (bs "(" ++ policy_name p ++ bs ")" ++ r); [done|].
    apply parses_on_delete.
  - destruct i as [t f], Hd as [Ht Hf]. cbn [emit_directive inv_type_name inv_field_name] in *.
    replace (drop 1 (bs "@inverse(" ++ t ++ bs "." ++ f ++ bs ")") ++ r)
      with (bs "inverse" ++ bs "(" ++ t ++ bs "." ++ f ++ bs ")" ++ r)
      by (change (bs "inverse" ++ bs "(" ++ t ++ bs "." ++ f ++ bs ")" ++ r
            = bs "inverse" ++ bs "(" ++ (t ++ bs "." ++ f ++ bs ")") ++ r); by rewrite <- !app_assoc).
    keyword (@nil byte) (bs "inverse") (bs "(" ++ t ++ bs "." ++ f ++ bs ")" ++ r); [done|].
    by apply parses_inverse.
  - keyword (@nil byte) (bs "index") (drop 6 (emit_index i) ++ r); [done|]. by apply parses_index.
  - keyword (@nil byte) (bs "vectorize") (drop 10 (emit_directive (Vectorize v)) ++ r); [done|].
    by apply parses_vectorize.
  - keyword (@nil byte) (bs "fulltext") (drop 9 (emit_directive (FulltextD f)) ++ r); [done|].
    by apply parses_fulltext.
Qed.

(** ** Fields *)

Definition starts_not (c : byte) (t : bytes) : Prop :=
  match next_char t with Some (ch, _) => ch <> [c] | None => True end.

Lemma peek_not c t : starts_not c t -> parses (peek_is [c]) t false t.
Proof.
  intros H. apply parses_peek. unfold starts_not in H. destruct (next_char t) as [[ch q]|]; [|done].
  by destruct (beqb_spec ch [c]).
Qed.

(** What may follow a field: another field or the end of the type. *)
Definition field_follows (t : bytes) : Prop := token_start t /\ starts_not x40 t /\ starts_not x7b t.

Lemma emit_directive_at d : emit_directive d = x40 :: drop 1 (emit_directive d).
Proof. by destruct d. Qed.

(** The directives without the space before the first. *)
Definition directives_text (ds : list Directive) (ws t : bytes) : bytes :=
  match ds with [] => t | d :: ds => emit_directive d ++ emit_directives ds ++ ws ++ t end.

Lemma directives_text_eq ds ws t :
  emit_directives ds ++ ws ++ t = (match ds with [] => ws | _ => bs " " end) ++ directives_text ds ws t.
Proof. destruct ds as [|d ds]; [done|]. cbn [directives_text emit_directives map concat]. by rewrite <- !app_assoc. Qed.

Lemma directives_text_token ds ws t : token_start t -> token_start (directives_text ds ws t).
Proof.
  intros H. destruct ds as [|d ds]; [done|]. cbn [directives_text]. rewrite emit_directive_at.
  apply (token_start_app [x40]); [by apply whole_ascii|done|done].
Qed.

Lemma blank_before ds ws : blank ws -> blank (match (ds : list Directive) with [] => ws | _ => bs " " end).
Proof. intros H. destruct ds; [done|]. by repeat constructor. Qed.

(** The text after a directive or a type does not extend a word. *)
Lemma follow_stops ds ws t :
  blank ws -> ws <> [] -> stops ident_char (emit_directives ds ++ ws ++ t).
Proof.
  intros Hb Hne. destruct ds as [|d ds]; [|done]. destruct ws as [|b ws]; [done|].
  inversion Hb as [|? ? [->| ->]]; done.
Qed.

Lemma parses_directives_loop ds : forall fuel acc w ws t,
  Forall directive_lex ds -> blank w -> blank ws -> ws <> [] -> token_start t -> starts_not x40 t ->
  (length ds < fuel)%nat ->
  parses (directives_loop fuel acc) (w ++ directives_text ds ws t) (acc ++ ds) t.
Proof.
  induction ds as [|d ds IH]; intros fuel acc w ws t Hds Hw Hws Hne Ht Hat Hf;
    (destruct fuel as [|fuel]; [lia|]); cbn [directives_loop].
  - eapply parses_bind; [by apply parses_skip|]. eapply parses_bind; [by apply peek_not|]. cbn iota.
    rewrite app_nil_r. apply parses_ret.
  - apply Forall_cons in Hds as [Hd Hds].
    eapply parses_bind; [apply parses_skip; [done|by apply directives_text_token]|].
    cbn [directives_text]. rewrite emit_directive_at. cbn [app].
    eapply parses_bind; [by apply (parses_peek _ _ true)|]. cbn iota.
    eapply parses_bind; [apply (parses_advance [x40]), whole_ascii; done|].
    eapply parses_bind; [apply parses_directive; [done|by apply follow_stops]|].
    rewrite directives_text_eq. replace (acc ++ d :: ds) with ((acc ++ [d]) ++ ds) by by rewrite <- app_assoc.
    apply IH; try done; [by apply blank_before|cbn in Hf; lia].
Qed.

Lemma parse_scalar_name s : parse_scalar_type (scalar_name s) = Some s.
Proof. by destruct s. Qed.

(** The edge fields from the first name on. *)
Fixpoint edges_text (efs : list EdgeFieldDef) (r : bytes) : bytes :=
  match efs with
  | [] => bs "}" ++ r
  | ef :: efs =>
      ef_name ef ++ bs ": " ++ scalar_name (ef_scalar_type ef)
        ++ (match efs with [] => bs " " | _ => bs ", " end) ++ edges_text efs r
  end.

Lemma edges_text_rest efs r :
  emit_edge_fields false efs ++ bs " }" ++ r = (match efs with [] => bs " " | _ => bs ", " end) ++ edges_text efs r.
Proof.
  induction efs as [|ef efs IH]; [done|]. cbn [emit_edge_fields edges_text].
  rewrite <- !app_assoc. do 4 f_equal. exact IH.
Qed.

Lemma edges_text_eq efs r :
  efs <> [] -> emit_edge_fields true efs ++ bs " }" ++ r = edges_text efs r.
Proof.
  destruct efs as [|ef efs]; [done|]. intros _. cbn [emit_edge_fields edges_text].
  rewrite <- !app_assoc. cbn [app]. do 3 f_equal. apply edges_text_rest.
Qed.

Lemma scalar_ident s : ident_ok (scalar_name s).
Proof. apply ascii_ident. by destruct s. Qed.

Lemma edges_text_token efs r : Forall edge_lex efs -> token_start (edges_text efs r).
Proof. intros H. destruct H; [done|]. by apply ident_token. Qed.

Lemma ident_starts_not n r c : ident_ok n -> ident_char [c] = false -> starts_not c (n ++ r).
Proof.
  intros (ch & s & -> & Hw & _ & Hi & _) Hc. unfold starts_not. rewrite <- app_assoc, next_char_app by done.
  intros ->. congruence.
Qed.

Lemma parses_edges_loop efs : forall fuel acc w r,
  Forall edge_lex efs -> blank w -> (length efs < fuel)%nat ->
  parses (edge_fields_loop fuel acc) (w ++ edges_text efs r) (acc ++ efs) r.
Proof.
  induction efs as [|ef efs IH]; intros fuel acc w r He Hw Hf;
    (destruct fuel as [|fuel]; [lia|]); cbn [edge_fields_loop].
  - eapply parses_bind; [by apply parses_skip|]. eapply parses_bind; [by apply (parses_peek _ _ true)|]. cbn iota.
    eapply parses_bind; [by apply (parses_advance [x7d]), whole_ascii|]. rewrite app_nil_r. apply parses_ret.
  - apply Forall_cons in He as [Hn He].
    eapply parses_bind; [apply parses_skip; [done|by apply ident_token]|].
    eapply parses_bind; [by apply peek_not, ident_starts_not|]. cbn iota. cbn [edges_text].
    set (t := edges_text efs r). assert (Ht : token_start t) by by apply edges_text_token.
    set (sep := match efs with [] => bs " " | _ => bs ", " end).
    ident (@nil byte) (ef_name ef) (bs ": " ++ scalar_name (ef_scalar_type ef) ++ sep ++ t); [done|].
    punct (@nil byte) x3a (bs " " ++ scalar_name (ef_scalar_type ef) ++ sep ++ t).
    pose proof (scalar_ident (ef_scalar_type ef)).
    ident [x20] (scalar_name (ef_scalar_type ef)) (sep ++ t); [by unfold sep; destruct efs|].
    rewrite parse_scalar_name. replace (acc ++ ef :: efs) with ((acc ++ [ef]) ++ efs) by by rewrite <- app_assoc.
    destruct ef as [n s]. cbn [ef_name ef_scalar_type]. destruct efs as [|ef' efs].
    + eapply parses_bind; [by apply (parses_skip [x20] t)|].
      eapply parses_bind; [by apply peek_not|]. cbn iota. eapply parses_bind; [apply parses_ret|].
      apply (IH _ _ []); [done|done|cbn in *; lia].
    + eapply parses_bind; [by apply (parses_skip [] (bs ", " ++ t))|].
      eapply parses_bind; [by apply (parses_peek _ _ true)|]. cbn iota.
      eapply parses_bind; [by apply (parses_advance [x2c] (bs " " ++ t)), whole_ascii|].
      apply (IH _ _ [x20]); [done|done|cbn in *; lia].
Qed.

Lemma parses_scalar_field s r :
  stops ident_char r -> parses parse_field_type (bs " " ++ scalar_name s ++ r) (Scalar s) r.
Proof.
  intros Hr. pose proof (scalar_ident s) as Hs. unfold parse_field_type.
  eapply parses_bind; [apply (parses_skip [x20]); [auto|by apply ident_token]|].
  eapply parses_bind; [by apply peek_not, ident_starts_not|]. cbn iota.
  ident (@nil byte) (scalar_name s) r; [done|]. rewrite parse_scalar_name. destruct s; apply parses_ret.
Qed.

Lemma parses_vector_field n r :
  is_u32 n -> parses parse_field_type (bs " Vector<" ++ show_u32 n ++ bs ">" ++ r) (VectorT {| dimensions := n |}) r.
Proof.
  intros Hn. unfold parse_field_type. set (t := show_u32 n ++ bs ">" ++ r).
  eapply parses_bind; [by apply (parses_skip [x20] (bs "Vector<" ++ t))|].
  eapply parses_bind; [by apply (parses_peek _ _ false)|]. cbn iota.
  keyword (@nil byte) (bs "Vector") (bs "<" ++ t); [done|]. change (beqb (bs "Vector") (bs "Vector")) with true. cbn iota.
  punct (@nil byte) x3c t. eapply parses_bind; [by apply (parses_u32 [] n (bs ">" ++ r))|].
  punct (@nil byte) x3e r. apply parses_ret.
Qed.

Lemma parses_many_field n r :
  ident_ok n ->
  parses parse_field_type (bs " [" ++ n ++ bs "]" ++ r)
    (Relation {| target_type := n; is_many := true; edge_fields := [] |}) r.
Proof.
  intros Hn. unfold parse_field_type. set (t := n ++ bs "]" ++ r).
  eapply parses_bind; [by apply (parses_skip [x20] (bs "[" ++ t))|].
  eapply parses_bind; [by apply (parses_peek _ _ true)|]. cbn iota.
  eapply parses_bind; [by apply (parses_advance [x5b] t), whole_ascii|].
  ident (@nil byte) n (bs "]" ++ r); [done|]. punct (@nil byte) x5d r. apply parses_ret.
Qed.

Lemma parses_one_field n r :
  ident_ok n -> parse_scalar_type n = None -> n <> bs "Vector" -> stops ident_char r ->
  parses parse_field_type (bs " " ++ n ++ r) (Relation {| target_type := n; is_many := false; edge_fields := [] |}) r.
Proof.
  intros Hn Hs Hv Hr. unfold parse_field_type.
  eapply parses_bind; [apply (parses_skip [x20]); [auto|by apply ident_token]|].
  eapply parses_bind; [by apply peek_not, ident_starts_not|]. cbn iota.
  ident (@nil byte) n r; [done|]. destruct (beqb_spec n (bs "Vector")); [done|]. rewrite Hs. apply parses_ret.
Qed.

(** The edge fields of a relation, or none, up to the directives. *)
Lemma parses_relation_edges rel efs w x :
  Forall edge_lex efs -> blank w -> token_start x -> starts_not x7b x ->
  exists w', blank w' /\
    parses (parse_relation_edges (Relation rel))
      (match efs with [] => [] | _ => bs " { " ++ emit_edge_fields true efs ++ bs " }" end ++ w ++ x)
      (Relation (match efs with [] => rel | _ => with_edge_fields rel efs end)) (w' ++ x).
Proof.
  intros He Hw Hx Hb. cbn [parse_relation_edges]. destruct efs as [|ef efs].
  - exists []. split; [done|]. eapply parses_bind; [by apply (parses_skip w x)|].
    eapply parses_bind; [by apply peek_not|]. apply parses_ret.
  - exists w. split; [done|]. set (l := ef :: efs) in *. rewrite <- !app_assoc, edges_text_eq by done.
    set (e := edges_text l (w ++ x)).
    eapply parses_bind; [by apply (parses_skip [x20] (bs "{ " ++ e))|].
    eapply parses_bind; [by apply (parses_peek _ _ true)|]. cbn iota.
    eapply (parses_bind _ _ _ l (w ++ x)); [|apply parses_ret]. unfold parse_edge_fields.
    punct (@nil byte) x7b (bs " " ++ e). apply (parses_fuel (fun k => edge_fields_loop k [])).
    apply (parses_edges_loop l _ [] [x20]); [done|auto|].
    unfold e. clear. rewrite length_app. induction l as [|a l IH]; cbn [edges_text length]; rewrite ?length_app in *; cbn in *; lia.
Qed.

Lemma directives_text_not_brace ds ws t : starts_not x7b t -> starts_not x7b (directives_text ds ws t).
Proof. intros H. destruct ds; [done|]. cbn [directives_text]. by rewrite emit_directive_at. Qed.

Lemma relation_eta rel : rel = {| target_type := target_type rel; is_many := is_many rel; edge_fields := edge_fields rel |}.
Proof. by destruct rel. Qed.

Lemma parses_field_def f ws t :
  field_lex f -> blank ws -> ws <> [] -> field_follows t -> parses parse_field_def (emit_field f ++ ws ++ t) f t.
Proof.
  intros (Hn & Hft & Hds) Hws Hne (Ht & Hat & Hbr). destruct f as [n ft ds]. cbn [fd_name field_type directives] in *.
  unfold emit_field, parse_field_def. cbn [fd_name field_type directives]. rewrite <- !app_assoc.
  set (x := directives_text ds ws t). set (w := match ds with [] => ws | _ => bs " " end).
  assert (Hx : token_start x) by by apply directives_text_token.
  assert (Hxb : starts_not x7b x) by by apply directives_text_not_brace.
  assert (Hw : blank w) by by apply blank_before.
  pose proof (follow_stops ds ws t Hws Hne) as Hstop.
  ident (@nil byte) n (bs ": " ++ emit_field_type ft ++ emit_directives ds ++ ws ++ t); [done|].
  punct (@nil byte) x3a (bs " " ++ emit_field_type ft ++ emit_directives ds ++ ws ++ t).
  assert (H : exists ft0 r0 w', blank w' /\
    parses parse_field_type (bs " " ++ emit_field_type ft ++ emit_directives ds ++ ws ++ t) ft0 r0 /\
    parses (parse_relation_edges ft0) r0 ft (w' ++ x)).
  { rewrite directives_text_eq in Hstop |- *. fold w x in Hstop. fold w x. destruct ft as [s|rel|v].
    - exists (Scalar s), (w ++ x), w. split_and!; [done|by apply parses_scalar_field|apply parses_ret].
    - destruct rel as [tt many efs]. destruct Hft as (Htt & He & Hone). cbn [target_type is_many edge_fields] in *.
      set (rel0 := {| target_type := tt; is_many := many; edge_fields := [] |}).
      destruct (parses_relation_edges rel0 efs w x He Hw Hx Hxb) as (w' & Hw' & Hp).
      exists (Relation rel0), (match efs with [] => [] | _ => bs " { " ++ emit_edge_fields true efs ++ bs " }" end ++ w ++ x), w'.
      split; [done|]. split.
      + cbn [emit_field_type target_type is_many edge_fields]. rewrite <- app_assoc.
        set (et := match efs with [] => [] | _ => bs " { " ++ emit_edge_fields true efs ++ bs " }" end).
        replace (match efs with [] => [] | e :: l => bs " { " ++ emit_edge_fields true (e :: l) ++ bs " }" end)
          with et by by destruct efs.
        destruct many.
        * rewrite <- !app_assoc. by apply parses_many_field.
        * destruct Hone as [H1 H2]; [done|]. apply parses_one_field; [done..|]. by unfold et; destruct efs.
      + replace {| target_type := tt; is_many := many; edge_fields := efs |}
          with (match efs with [] => rel0 | _ => with_edge_fields rel0 efs end) by by destruct efs. exact Hp.
    - exists (VectorT v), (w ++ x), w. destruct v as [d]. cbn [emit_field_type dimensions]. rewrite <- !app_assoc.
      split_and!; [done|by apply parses_vector_field|apply parses_ret]. }
  destruct H as (ft0 & r0 & w' & Hw' & H1 & H2).
  eapply parses_bind; [exact H1|]. eapply parses_bind; [exact H2|].
  eapply (parses_bind _ _ _ ds t); [|apply parses_ret].
  apply (parses_fuel (fun k => directives_loop k [])). apply (parses_directives_loop ds _ []); try done.
  unfold x. clear. rewrite length_app. destruct ds as [|d ds]; [cbn; lia|]. cbn [directives_text length].
  rewrite emit_directive_at. cbn [app length]. rewrite !length_app.
  assert (length ds <= length (emit_directives ds))%nat; [|lia].
  induction ds as [|d' ds IH]; [cbn; lia|]. cbn [emit_directives map concat length].
  rewrite length_app. fold (emit_directives ds). cbn [bs app length] in *. cbn. lia.
Qed.

(** ** Types *)

(** The fields from the first name on, up to the closing brace. *)
Fixpoint fields_text (fs : list FieldDef) (r : bytes) : bytes :=
  match fs with
  | [] => bs "}" ++ r
  | f :: fs => emit_field f ++ ([x0a] ++ match fs with [] => [] | _ => bs "    " end) ++ fields_text fs r
  end.

Lemma fields_text_eq fs r :
  emit_fields fs ++ bs "}" ++ r = (match fs with [] => [] | _ => bs "    " end) ++ fields_text fs r.
Proof.
  induction fs as [|f fs IH]; [done|]. cbn [emit_fields map concat fields_text].
  change (concat (map (fun f => bs "    " ++ emit_field f ++ [x0a]) fs)) with (emit_fields fs).
  rewrite <- !app_assoc, IH. by destruct fs.
Qed.

Lemma fields_text_follows fs r : Forall field_lex fs -> field_follows (fields_text fs r).
Proof.
  intros H. destruct H as [|f fs (Hn & _) _]; [done|]. cbn [fields_text]. unfold emit_field. rewrite <- !app_assoc.
  split_and!; [by apply ident_token|by apply ident_starts_not..].
Qed.

Lemma parses_fields_loop fs : forall fuel acc w r,
  Forall field_lex fs -> blank w -> (length fs < fuel)%nat ->
  parses (fields_loop fuel acc) (w ++ fields_text fs r) (acc ++ fs) r.
Proof.
  induction fs as [|f fs IH]; intros fuel acc w r Hfs Hw Hf;
    (destruct fuel as [|fuel]; [lia|]); cbn [fields_loop].
  - eapply parses_bind; [by apply parses_skip|]. eapply parses_bind; [by apply (parses_peek _ _ true)|]. cbn iota.
    eapply parses_bind; [by apply (parses_advance [x7d]), whole_ascii|]. rewrite app_nil_r. apply parses_ret.
  - pose proof (fields_text_follows _ r Hfs) as (Ht & _). apply Forall_cons in Hfs as [Hf1 Hfs].
    eapply parses_bind; [by apply parses_skip|].
    assert (Hb : starts_not x7d (fields_text (f :: fs) r)).
    { cbn [fields_text]. unfold emit_field. rewrite <- !app_assoc. apply ident_starts_not; [apply Hf1|done]. }
    eapply parses_bind; [by apply peek_not|]. cbn iota. cbn [fields_text].
    eapply parses_bind; [apply parses_field_def; [done|..|by apply fields_text_follows]|].
    + apply Forall_app. split; [by repeat constructor|]. destruct fs; [constructor|by repeat constructor].
    + done.
    + replace (acc ++ f :: fs) with ((acc ++ [f]) ++ fs) by by rewrite <- app_assoc.
      apply (IH _ _ []); [done|auto|cbn in Hf; lia].
Qed.

Lemma fields_text_length fs r : (length fs <= length (fields_text fs r))%nat.
Proof.
  induction fs as [|f fs IH]; [cbn; lia|]. cbn [fields_text]. rewrite !length_app. cbn [length]. lia.
Qed.

Lemma parses_type_def t r : typedef_lex t -> parses parse_type_def (emit_type t ++ r) t ([x0a] ++ r).
Proof.
  intros [Hn Hfs]. destruct t as [n fs]. cbn [td_name fields] in *. unfold emit_type, parse_type_def. cbn [td_name fields].
  rewrite <- !app_assoc, fields_text_eq. set (w := match fs with [] => [] | _ => bs "    " end).
  set (x := fields_text fs ([x0a] ++ r)).
  assert (Hw : blank ([x0a] ++ w)) by (apply Forall_app; split; [by repeat constructor|]; unfold w; destruct fs; by repeat constructor).
  eapply parses_bind; [by apply (parses_skip [] (bs "type " ++ n ++ bs " {" ++ [x0a] ++ w ++ x))|].
  keyword (@nil byte) (bs "type") (bs " " ++ n ++ bs " {" ++ [x0a] ++ w ++ x); [done|].
  change (beqb (bs "type") (bs "type")) with true. cbn iota.
  ident [x20] n (bs " {" ++ [x0a] ++ w ++ x); [done|].
  punct [x20] x7b ([x0a] ++ w ++ x).
  eapply (parses_bind _ _ _ fs); [|apply parses_ret].
  apply (parses_fuel (fun k => fields_loop k [])). rewrite app_assoc. apply (parses_fields_loop fs _ []); [done|done|].
  rewrite length_app. pose proof (fields_text_length fs ([x0a] ++ r)). fold x in H. lia.
Qed.

(** The text of the types, with the blank line before the next. *)
Fixpoint types_text (ts : list TypeDef) : bytes :=
  match ts with
  | [] => []
  | t :: ts => emit_type t ++ (match ts with [] => [] | _ => [x0a] end) ++ types_text ts
  end.

Lemma types_text_eq first ts :
  emit_types first ts = (match ts with [] => [] | _ => if first then [] else [x0a] end) ++ types_text ts.
Proof.
  revert first. induction ts as [|t ts IH]; intros first; [done|]. cbn [emit_types types_text]. by rewrite IH.
Qed.

Lemma types_text_token ts : token_start (types_text ts).
Proof. by destruct ts. Qed.

Lemma bm_insert_last k (v : TypeDef) m :
  (forall e, In e m -> fst e <b k)%bytes -> bm_insert k v m = m ++ [(k, v)].
Proof.
  induction m as [|[k' v'] m IH]; intros H; [done|]. cbn [bm_insert app].
  assert (Hk : (k' <b k)%bytes) by (apply (H (k', v')); by left).
  rewrite bytes_cmp_antisym. unfold blt in Hk. rewrite Hk. cbn. rewrite IH; [done|]. intros e He. apply H. by right.
Qed.

Lemma parses_types_loop m : forall fuel acc,
  types_lex (acc ++ m) -> (length m < fuel)%nat ->
  parses (types_loop fuel acc) (types_text (map snd m)) (acc ++ m) [].
Proof.
  induction m as [|[k t] m IH]; intros fuel acc [Hs Hl] Hf; (destruct fuel as [|fuel]; [lia|]).
  - intros l c. exists l, c. cbn. by rewrite app_nil_r.
  - pose proof Hl as Hl'. apply Forall_app in Hl' as [_ Hl']. apply Forall_cons in Hl' as [[Hk Ht] _]. cbn in Hk, Ht. subst k.
    apply bsorted_app in Hs as Hs'. destruct Hs' as (_ & _ & Hlt).
    assert (Hnew : forall e, In e acc -> (fst e <b td_name t)%bytes) by (intros e He; apply (Hlt e (td_name t, t) He); by left).
    assert (Hnone : bm_get (td_name t) acc = None).
    { apply bm_get_none. intros v Hv. apply Hnew in Hv. by apply blt_irrefl in Hv. }
    cbn [map types_text]. set (tl := (match map snd m with [] => [] | _ => [x0a] end) ++ types_text (map snd m)).
    match goal with |- parses _ ?i _ _ => assert (E : i = emit_type t ++ tl) by done end.
    assert (Hp : parses (type_def <- parse_type_def;;
         if is_some (bm_get (td_name type_def) acc) then throw (DuplicateType (td_name type_def))
         else _ <- skip_whitespace;; types_loop fuel (bm_insert (td_name type_def) type_def acc))
       (emit_type t ++ tl) (acc ++ (td_name t, t) :: m) []).
    { eapply parses_bind; [by apply parses_type_def|]. rewrite Hnone. cbn [is_some].
      unfold tl. rewrite app_assoc. eapply parses_bind; [apply parses_skip; [|apply types_text_token]|].
      - apply Forall_app. split; [by repeat constructor|]. destruct (map snd m); by repeat constructor.
      - rewrite bm_insert_last by done. replace (acc ++ (td_name t, t) :: m) with ((acc ++ [(td_name t, t)]) ++ m) by by rewrite <- app_assoc.
        apply IH; [|cbn in Hf; lia]. rewrite <- app_assoc. by split. }
    intros l c. destruct (Hp l c) as (l' & c' & Hp'). exists l', c'. rewrite E. exact Hp'.
Qed.

Lemma types_text_length (m : bmap TypeDef) : (length m <= length (types_text (map snd m)))%nat.
Proof.
  induction m as [|[k t] m IH]; [done|]. cbn [map types_text length snd]. rewrite !length_app.
  assert (0 < length (emit_type t))%nat by (unfold emit_type; rewrite length_app; cbn; lia). lia.
Qed.

(** Parsing the emitted text of well-formed types. *)
Lemma parse_emitted schema : types_lex (types schema) -> schema_wf schema -> parse_schema (emit_schema schema) = SOk schema.
Proof.
  intros Hl Hw. unfold parse_schema, emit_schema. rewrite types_text_eq.
  replace (match map snd (types schema) with [] => [] | _ => [] end) with (@nil byte) by by destruct (map snd (types schema)).
  cbn [app]. set (i := types_text (map snd (types schema))).
  assert (E : skip_ws (parser_new i) = parser_new i) by (apply skip_ws_token, types_text_token). rewrite E.
  destruct (parses_types_loop (types schema) (S (length i)) []) with (l := 1) (c := 1) as (l & c & Hp); [done| |].
  { pose proof (types_text_length (types schema)). unfold i. lia. }
  fold i in Hp. unfold parser_new. rewrite Hp. cbn [app]. destruct schema as [ts]. cbn [types].
  by rewrite (proj2 (validate_schema_wf _) Hw).
Qed.

(** What the parser accepts is well formed. *)
Lemma parse_accepts src schema :
  utf8_valid src = true -> parse_schema src = SOk schema -> types_lex (types schema) /\ schema_wf schema.
Proof.
  intros Hv. unfold parse_schema. destruct (skip_ws_spec (parser_new src) Hv) as (H1 & H2 & _).
  pose proof (runs_types_loop (S (length src)) []) as Hr. specialize (Hr ltac:(split; [apply bsorted_nil|constructor])).
  specialize (Hr _ H1). change (rest (parser_new src)) with src in H2. specialize (Hr ltac:(lia)).
  destruct (types_loop _ [] _) as [ts q| |]; [|done..]. destruct Hr as (_ & _ & Hts).
  destruct (validate_schema _) eqn:Ev; [|done]. intros [= <-]. split; [done|]. by apply validate_schema_wf.
Qed.

Lemma parse_ends src : utf8_valid src = true -> parse_schema src <> SFuel.
Proof.
  intros Hv. unfold parse_schema. destruct (skip_ws_spec (parser_new src) Hv) as (H1 & H2 & _).
  pose proof (runs_types_loop (S (length src)) []) as Hr. specialize (Hr ltac:(split; [apply bsorted_nil|constructor])).
  specialize (Hr _ H1). change (rest (parser_new src)) with src in H2. specialize (Hr ltac:(lia)).
  destruct (types_loop _ [] _) as [ts q| |]; [|done..]. by destruct (validate_schema _).
Qed.

(** C24: The contract of the emitter.  Whatever text a schema was parsed from,
    parsing what [emit_schema] writes for it gives the schema back: every type,
    field, field type, edge field and directive, with their parameters. *)
Theorem schema_round_trip src schema :
  utf8_valid src = true -> parse_schema src = SOk schema -> parse_schema (emit_schema schema) = SOk schema.
Proof. intros Hv H. destruct (parse_accepts src schema Hv H). by apply parse_emitted. Qed.

(** C25: On every input the parser ends, and what it accepts is a schema the
    engine can rely on: each type under its own name, no two fields of a type
    with one name, relation and inverse targets that exist, indexes only on
    ordered scalar fields, full-text and vector directives only where they make
    sense; conversely such a schema passes validation. *)
Theorem parse_schema_sound src :
  utf8_valid src = true ->
  parse_schema src <> SFuel /\
  (forall schema, parse_schema src = SOk schema -> types_lex (types schema) /\ schema_wf schema) /\
  (forall schema, schema_wf schema -> validate_schema schema = VOk).
Proof.
  intros Hv. split_and!; [by apply parse_ends|intros; by eapply parse_accepts|].
  intros schema. apply validate_schema_wf.
Qed.

End round_trip.

(** ** Witnesses *)

(** The text the witnesses parse. *)
Definition sample_sdl : bytes :=
  bs "// people
type User { name: String @unique @fulltext
  posts: [Post] { rating: f32, at: DateTime } @on_delete(cascade)
  e: Vector<384> @index(hnsw, metric: cosine, m: 16) @vectorize(source: " ++ [x22] ++ bs "name" ++ [x22]
  ++ bs ", model: " ++ [x22] ++ bs "m" ++ [x22] ++ bs ") }
type Post { title: String @indexed  author: User @on_delete(deny) @inverse(User.posts) }".

Definition sample_schema : option Schema :=
  match parse_schema (C := ascii_only) sample_sdl with SOk s => Some s | _ => None end.

Lemma schema_round_trip_witness :
  exists schema, sample_schema = Some schema /\ length (types schema) = 2%nat /\
    parse_schema (C := ascii_only) (emit_schema schema) = SOk schema.
Proof.
  unfold sample_schema. destruct (parse_schema sample_sdl) as [s| |] eqn:E.
  - exists s. split; [done|]. split; [vm_compute in E; by injection E as <-|].
    apply (schema_round_trip (C := ascii_only) sample_sdl s); [by vm_compute|exact E].
  - exfalso. by vm_compute in E.
  - exfalso. by vm_compute in E.
Defined.

Lemma parse_schema_sound_witness :
  parse_schema (C := ascii_only) (bs "type A { b: B }") = SErr (UnknownType (bs "B")) /\
  parse_schema (C := ascii_only) (bs "type A { b: B }") <> SFuel.
Proof.
  split; [by vm_compute|]. by apply (parse_schema_sound (C := ascii_only) (bs "type A { b: B }")).
Defined.
