(* ===== verification/Serde.v ===== *)
(** * JSON documents and text forms of values (crates/rhypedb-wire/src/object.rs)

    [serde_json::Value] as the tree the source matches on; its numbers, its
    text form, the RFC 3339 and base64 codecs are library calls, the fields of
    the classes [SerdeJson] and [TextCodecs].  The values a query or a rule sees
    ([value_to_query_json]) are built on them. *)

From Stdlib Require Import ZArith Lia Bool List Strings.Byte Strings.String Floats.SpecFloat.
From stdpp Require Import base tactics option list.
From S2P Require Import Prelude ByteMap Utf8 Values Ieee SchemaParser SchemaEmit.

Local Open Scope Z_scope.

(** * Floats from decimal text and back to bits

    [str::parse::<f64>] of the standard library: the nearest float to the
    decimal number, ties to even; and the bit pattern of a value. *)

(** ** Bits of a value *)

Definition sign_bit (s : bool) : Z := if s then 2 ^ 63 else 0.

(** The pattern of a canonical value; of a NaN the quiet one without payload. *)
Definition f64_bits (x : spec_float) : Z :=
  match x with
  | S754_zero s => sign_bit s
  | S754_infinity s => sign_bit s + f64_inf
  | S754_nan => f64_inf + 2 ^ 51
  | S754_finite s m e =>
      if Zpos m <? 2 ^ 52 then sign_bit s + Zpos m else sign_bit s + (e + 1075) * 2 ^ 52 + (Zpos m - 2 ^ 52)
  end.

(** ** The nearest float to [m * 10 ^ e] *)

(** A negative exponent divides: the quotient keeps at least 62 bits and its
    last bit is set when the division is not exact, so rounding it is rounding
    the number. *)
Definition decimal_value (m e : Z) : spec_float :=
  if 0 <=? e then binary_normalize 53 1024 (m * 10 ^ e) 0 false
  else
    let d := 10 ^ (- e) in
    let k := Z.max 0 (Z.log2 d + 64 - Z.log2 m) in
    let q := m * 2 ^ k / d in
    let sticky := if m * 2 ^ k mod d =? 0 then 0 else 1 in
    binary_normalize 53 1024 (2 * q + sticky) (- k - 1) false.

Definition decimal_bits (neg : bool) (m e : Z) : Z :=
  sign_bit neg + (if m =? 0 then 0 else f64_bits (decimal_value m e)).

(** ** The grammar *)

Fixpoint span_digits (s : bytes) : bytes * bytes :=
  match s with
  | b :: s' => if ascii_digit b then let '(d, r) := span_digits s' in (b :: d, r) else ([], s)
  | [] => ([], [])
  end.

Definition split_sign (s : bytes) : bool * bytes :=
  match s with
  | b :: s' => if b2z b =? 45 then (true, s') else if b2z b =? 43 then (false, s') else (false, s)
  | [] => (false, [])
  end.

(** The exponent after the mantissa, all of the rest of the text. *)
Definition parse_exponent (s : bytes) : option Z :=
  match s with
  | [] => Some 0
  | b :: s' =>
      if (b2z b =? 101) || (b2z b =? 69) then
        let '(neg, s') := split_sign s' in
        match span_digits s' with
        | (d :: ds, []) => let v := digits_value (d :: ds) in Some (if neg then - v else v)
        | _ => None
        end
      else None
  end.

Definition lower (b : byte) : byte := if in_range 65 90 b then z2b (b2z b + 32) else b.

Definition parse_f64 (s : bytes) : option Z :=
  let '(neg, s) := split_sign s in
  let word := map lower s in
  if beqb word (bs "inf") || beqb word (bs "infinity") then Some (sign_bit neg + f64_inf)
  else if beqb word (bs "nan") then Some (sign_bit neg + f64_inf + 2 ^ 51)
  else
    let '(ip, s) := span_digits s in
    let '(fp, s) := match s with b :: s' => if b2z b =? 46 then span_digits s' else ([], s) | [] => ([], []) end in
    match ip ++ fp with
    | [] => None
    | ds => e ← parse_exponent s; Some (decimal_bits neg (digits_value ds) (e - Z.of_nat (length fp)))
    end.

(** Known values, the halfway cases included. *)
Example parse_f64_known :
  map parse_f64 [bs "0.1"; bs "-2.5e-3"; bs "1e23"; bs "9007199254740993"; bs "4.9e-324"; bs "1e400"; bs "-0"; bs "5."; bs "."; bs "1e"]
  = [Some 0x3fb999999999999a; Some 0xbf647ae147ae147b; Some 0x44b52d02c7e14af6; Some 0x4340000000000000; Some 1;
     Some 0x7ff0000000000000; Some 0x8000000000000000; Some 0x4014000000000000; None; None].
Proof. vm_compute. reflexivity. Qed.

(** * JSON documents and text forms of values *)

(** ** JSON *)

Inductive JsonTree (N : Type) :=
| JNull
| JBool (b : bool)
| JNumber (n : N)
| JString (s : bytes)
| JArray (l : list (JsonTree N))
| JObject (m : list (bytes * JsonTree N)).
Arguments JNull {N}.
Arguments JBool {N} b.
Arguments JNumber {N} n.
Arguments JString {N} s.
Arguments JArray {N} l.
Arguments JObject {N} m.

(** [serde_json::Number]: [as_f64] (the bits), the numbers of an integer and of
    a float (none when it is not finite), equality; and the text form of a
    document. *)
Class SerdeJson := {
  json_number : Type;
  number_as_f64 : json_number -> option Z;
  number_from_int : Z -> json_number;
  number_from_f64 : Z -> option json_number;
  json_tree_to_vec : JsonTree json_number -> option bytes;
  json_tree_from_slice : bytes -> option (JsonTree json_number);
}.

Abbreviation JsonValue := (JsonTree json_number).

#[global] Instance serde_json {S : SerdeJson} : Json := {|
  json := JsonValue; json_null := JNull;
  json_to_vec := json_tree_to_vec; json_from_slice := json_tree_from_slice;
|}.

(** [Value::get] with a string: the member of an object. *)
Definition json_get {S : SerdeJson} (j : JsonValue) (key : bytes) : option JsonValue :=
  match j with JObject m => bm_get key m | _ => None end.

(** [json!(f)] of a float: null when it is not finite. *)
Definition json_float {S : SerdeJson} (bits : Z) : JsonValue :=
  match number_from_f64 bits with Some n => JNumber n | None => JNull end.

(** Numbers as their bits and no text forms but that of null, to evaluate
    examples. *)
Definition plain_serde : SerdeJson := {|
  json_number := Z;
  number_as_f64 n := Some n;
  number_from_int n := n;
  number_from_f64 bits := Some bits;
  json_tree_to_vec j := match j with JNull => Some [] | _ => None end;
  json_tree_from_slice _ := Some JNull;
|}.

(** Equality of documents, members in their order, to evaluate examples. *)
Fixpoint json_tree_eqb {N} (neqb : N -> N -> bool) (a b : JsonTree N) : bool :=
  match a, b with
  | JNull, JNull => true
  | JBool x, JBool y => Bool.eqb x y
  | JNumber x, JNumber y => neqb x y
  | JString x, JString y => beqb x y
  | JArray x, JArray y =>
      (fix go x y := match x, y with [], [] => true | a :: x, b :: y => json_tree_eqb neqb a b && go x y | _, _ => false end) x y
  | JObject x, JObject y =>
      (fix go x y :=
         match x, y with
         | [], [] => true
         | (k, a) :: x, (k', b) :: y => beqb k k' && json_tree_eqb neqb a b && go x y
         | _, _ => false
         end) x y
  | _, _ => false
  end.

(** ** Text codecs *)

(** The nanoseconds of an RFC 3339 text and back (none when the text is
    malformed or the instant out of range), and base64. *)
Class TextCodecs := {
  parse_rfc3339 : bytes -> option Z;
  format_rfc3339 : Z -> option bytes;
  b64_encode : bytes -> bytes;
  b64_decode : bytes -> option bytes;
}.

(** [millis.to_string()]; twenty digits are enough for 64 bits. *)
Definition show_int (n : Z) : bytes := if n <? 0 then bs "-" ++ digits_loop 20 (- n) [] else digits_loop 20 n [].

Section values.
Context {S : SerdeJson} {C : TextCodecs}.

Definition datetime_millis_from_rfc3339 (s : bytes) : option Z :=
  nanos ← parse_rfc3339 s; Some (as_i64 (Z.quot nanos 1000000)).

Definition rfc3339_from_millis (millis : Z) : bytes :=
  default (show_int millis) (format_rfc3339 (millis * 1000000)).

Definition bytes_from_base64 (s : bytes) : option bytes := b64_decode s.

Definition value_to_query_json (v : Value) : JsonValue :=
  match v with
  | VString s => JString s
  | VU32 n | VU64 n | VI32 n | VI64 n => JNumber (number_from_int n)
  | VF32 bits => json_float (f32_to_f64 bits)
  | VF64 bits => json_float bits
  | VBool b => JBool b
  | VBytes b => JString (b64_encode b)
  | VDateTime ms => JString (rfc3339_from_millis ms)
  | VJson j => j
  | VNull => JNull
  end.

End values.
