(* ===== verification/IndexKeys.v ===== *)
(** * Index encodings and value checks (crates/rhypedb-engine/src/database.rs)

    The encodings under which the engine indexes field values, chosen so that
    the byte order of the keys is the order of the values: integers and dates,
    booleans, floats, strings and byte strings; the comparisons a filter makes
    without an index; and the checks of a value against its declared type. *)

From Stdlib Require Import ZArith Lia Bool List Strings.Byte SpecFloat.
From stdpp Require Import base tactics option list.
From S2P Require Import Prelude ByteMap Keys Zone Utf8 Values Ieee Schema.

Local Open Scope Z_scope.
Local Open Scope bytes_scope.

Inductive IndexedKind := KInteger | KBool | KFloat | KString | KBytes.

#[global] Instance IndexedKind_eq : EqDecision IndexedKind.
Proof. solve_decision. Defined.

Record IndexedField := {
  if_name : bytes;
  if_field_id : Z;
  if_kind : IndexedKind;
}.

(** The kind under which an [@indexed] field of a type is stored. *)
Definition indexed_kind (ft : FieldType) : IndexedKind :=
  match ft with
  | Scalar TString => KString
  | Scalar TBytes => KBytes
  | Scalar TBool => KBool
  | Scalar (TF32 | TF64) => KFloat
  | Scalar TDateTime => KInteger
  | _ => KInteger
  end.

(** ** Encodings *)

(** [0x00] becomes [0x00 0x01]; [0x00 0x00] ends the value. *)
Fixpoint escape (b : bytes) : bytes :=
  match b with
  | [] => []
  | x :: b => if b2z x =? 0 then [x00; x01] ++ escape b else [x] ++ escape b
  end.

Definition encode_bytes_for_index (b : bytes) : bytes := escape b ++ [x00; x00].

Definition encode_str_for_index (s : bytes) : bytes := encode_bytes_for_index s.

Definition encode_f64_for_index (bits : Z) : bytes :=
  let xform := if negb (Z.land bits (2 ^ 63) =? 0) then not64 bits else Z.lxor bits (2 ^ 63) in
  be64 xform.

Section index.
Context {J : Json}.

Definition encode_float_for_index (value : Value) : option bytes :=
  match value with
  | VF32 v => Some (encode_f64_for_index (f32_to_f64 v))
  | VF64 v => Some (encode_f64_for_index v)
  | _ => None
  end.

Definition encode_bool_for_index (value : Value) : option bytes :=
  match value with
  | VBool b => Some [x00; x00; x00; x00; x00; x00; x00; if b then x01 else x00]
  | _ => None
  end.

Definition encode_int_for_zone (value : Value) : option bytes :=
  match value with
  | VU32 v => Some (be64 v)
  | VU64 v => Some (be64 v)
  | VI32 v => Some (be64 (Z.lxor (as_u64 v) (2 ^ 63)))
  | VI64 v => Some (be64 (Z.lxor (as_u64 v) (2 ^ 63)))
  | VDateTime v => Some (be64 (Z.lxor (as_u64 v) (2 ^ 63)))
  | _ => None
  end.

Definition build_field_index_key (type_id field_id : Z) (kind : IndexedKind) (value : Value) (object_id : Z)
    : option bytes :=
  match kind with
  | KInteger =>
      encoded ← encode_int_for_zone value; Some (KeyBuilder.field_index type_id field_id encoded object_id)
  | KBool =>
      encoded ← encode_bool_for_index value; Some (KeyBuilder.field_index type_id field_id encoded object_id)
  | KFloat =>
      encoded ← encode_float_for_index value; Some (KeyBuilder.field_index type_id field_id encoded object_id)
  | KString =>
      match value with
      | VString s => Some (KeyBuilder.field_index_var type_id field_id (encode_str_for_index s) object_id)
      | _ => None
      end
  | KBytes =>
      match value with
      | VBytes b => Some (KeyBuilder.field_index_var type_id field_id (encode_bytes_for_index b) object_id)
      | _ => None
      end
  end.

(** The bytes of a value in a unique-index key. *)
Definition value_to_index_bytes (value : Value) : bytes :=
  match value with
  | VString s => s
  | VU32 v => be32 v
  | VU64 v => be64 v
  | VI32 v => be32 (as_u32 v)
  | VI64 v => be64 (as_u64 v)
  | VF32 v => be32 v
  | VF64 v => be64 v
  | VBool v => [if v then x01 else x00]
  | VBytes b => b
  | VDateTime ms => be64 (as_u64 ms)
  | VJson j => default [] (json_to_vec j)
  | VNull => []
  end.

(** ** Comparisons *)

Definition compare_ord_by (c : comparison) (op : CompareOp) : bool :=
  match op, c with
  | OpEq, Eq | OpLt, Lt | OpGt, Gt | OpLe, (Lt | Eq) | OpGe, (Gt | Eq) | OpNe, (Lt | Gt) => true
  | _, _ => false
  end.

(** [compare_ord] on byte strings and on integers. *)
Definition compare_ord (a : bytes) (op : CompareOp) (b : bytes) : bool := compare_ord_by (bytes_cmp a b) op.
Definition compare_int (a : Z) (op : CompareOp) (b : Z) : bool := compare_ord_by (a ?= b) op.

(** [compare_partial] on floats: NaN compares false with everything, except
    that it is unequal. *)
Definition compare_partial (a : spec_float) (op : CompareOp) (b : spec_float) : bool :=
  match op with
  | OpEq => f_eq a b
  | OpNe => negb (f_eq a b)
  | OpLt => f_lt a b
  | OpLe => f_le a b
  | OpGt => f_gt a b
  | OpGe => f_ge a b
  end.

Definition compare_bool (a : bool) (op : CompareOp) (b : bool) : bool :=
  compare_int (if a then 1 else 0) op (if b then 1 else 0).

Definition value_passes_int_predicate (value : Value) (op : CompareOp) (target_u64 : Z) : bool :=
  match encode_int_for_zone value with
  | None => false
  | Some bytes =>
      let entry := from_be bytes in
      match op with
      | OpEq => entry =? target_u64
      | OpNe => negb (entry =? target_u64)
      | OpLt => entry <? target_u64
      | OpLe => entry <=? target_u64
      | OpGt => target_u64 <? entry
      | OpGe => target_u64 <=? entry
      end
  end.

(** ** Checks against the declared type *)

Definition scalar_matches (scalar : ScalarType) (value : Value) : bool :=
  match scalar, value with
  | TString, VString _ | TU32, VU32 _ | TU64, VU64 _ | TI32, VI32 _ | TI64, VI64 _ | TF32, VF32 _ | TF64, VF64 _
  | TBool, VBool _ | TBytes, VBytes _ | TDateTime, VDateTime _ | TJson, VJson _ => true
  | _, _ => false
  end.

Definition is_null (value : Value) : bool := match value with VNull => true | _ => false end.

(** [true] is [Ok(())], [false] a type mismatch. *)
Definition validate_edge_value (edge_def : EdgeFieldDef) (value : Value) : bool :=
  if is_null value then true else scalar_matches (ef_scalar_type edge_def) value.

Definition validate_value (field_def : FieldDef) (value : Value) : bool :=
  if is_null value then true
  else
    match field_type field_def with
    | Scalar scalar => scalar_matches scalar value
    | Relation _ => match value with VU64 _ | VU32 _ | VI32 _ | VI64 _ => true | _ => false end
    | VectorT _ => false
    end.

(** ** Zone maps *)

Definition field_is_zone_eligible (field : FieldDef) : bool :=
  match field_type field with Scalar (TU32 | TU64 | TI32 | TI64 | TDateTime) => true | _ => false end.

Definition qualified (type_name field : bytes) : bytes := type_name ++ [x2e] ++ field.

(** [HashMap<u64, Vec<(String, u32)>>], the last insertion of a key winning. *)
Definition ZoneFieldIdLookup : Type := list (Z * list (bytes * Z)).

Definition zone_entries (type_name : bytes) (field_ids : bmap Z) (fs : list FieldDef) : list (bytes * Z) :=
  omap (fun field =>
    if field_is_zone_eligible field then
      fid ← bm_get (qualified type_name (fd_name field)) field_ids; Some (fd_name field, as_u32 fid)
    else None) fs.

Fixpoint lookup_insert (k : Z) (v : list (bytes * Z)) (m : ZoneFieldIdLookup) : ZoneFieldIdLookup :=
  match m with
  | [] => [(k, v)]
  | (k', v') :: m => if k =? k' then (k, v) :: m else (k', v') :: lookup_insert k v m
  end.

Fixpoint lookup_get (k : Z) (m : ZoneFieldIdLookup) : option (list (bytes * Z)) :=
  match m with
  | [] => None
  | (k', v) :: m => if k =? k' then Some v else lookup_get k m
  end.

Definition build_zone_field_id_lookup (schema : Schema) (type_ids field_ids : bmap Z) : ZoneFieldIdLookup :=
  fold_left (fun out nt =>
    match bm_get (fst nt) type_ids with
    | None => out
    | Some type_id =>
        match zone_entries (fst nt) field_ids (fields (snd nt)) with
        | [] => out
        | entries => lookup_insert type_id entries out
        end
    end) (types schema) [].

Definition do_extract_zone_fields (lookup : ZoneFieldIdLookup) (internal_key value : bytes) : res (list (Z * bytes)) :=
  match internal_key with
  | x6f :: x3a :: rest =>
      if (length rest <? 8)%nat then Ok []
      else
        match lookup_get (from_be (take 8 rest)) lookup with
        | None => Ok []
        | Some field_entries =>
            fields ← deserialize_fields value;
            Ok (omap (fun nf => v ← bm_get (fst nf) fields; e ← encode_int_for_zone v; Some (snd nf, e)) field_entries)
        end
  | _ => Ok []
  end.
(** ** The order of the encodings *)

Lemma testbit_top x : is_u64 x -> Z.testbit x 63 = (2 ^ 63 <=? x).
Proof.
  unfold is_u64. intros Hx. rewrite Z.testbit_eqb by lia.
  destruct (Z.leb_spec (2 ^ 63) x); [apply Z.eqb_eq|apply Z.eqb_neq]; Z.div_mod_to_equations; lia.
Qed.

Lemma land_top x : is_u64 x -> (Z.land x (2 ^ 63) =? 0) = (x <? 2 ^ 63).
Proof.
  intros Hx. pose proof (testbit_top x Hx) as Ht. rewrite Z.ltb_antisym, <- Ht.
  destruct (Z.eqb_spec (Z.land x (2 ^ 63)) 0) as [E|E].
  - assert (H : Z.testbit (Z.land x (2 ^ 63)) 63 = false) by (rewrite E; apply Z.bits_0).
    rewrite Z.land_spec, Z.pow2_bits_true, andb_true_r in H by lia. by rewrite H.
  - destruct (Z.testbit x 63) eqn:Eb; [done|]. exfalso. apply E. apply Z.bits_inj'. intros n Hn.
    rewrite Z.land_spec, Z.bits_0, Z.pow2_bits_eqb by lia.
    destruct (Z.eqb_spec 63 n) as [<-|]; [by rewrite Eb|apply andb_false_r].
Qed.

Lemma lxor_top x : is_u64 x -> Z.lxor x (2 ^ 63) = if x <? 2 ^ 63 then x + 2 ^ 63 else x - 2 ^ 63.
Proof.
  assert (Hlow : forall y, 0 <= y < 2 ^ 63 -> Z.lxor y (2 ^ 63) = y + 2 ^ 63).
  { intros y Hy. symmetry. apply Z.add_nocarry_lxor. apply Z.eqb_eq. rewrite land_top by (unfold is_u64; lia).
    apply Z.ltb_lt. lia. }
  unfold is_u64. intros Hx. destruct (Z.ltb_spec x (2 ^ 63)); [apply Hlow; lia|].
  assert (E : x = Z.lxor (x - 2 ^ 63) (2 ^ 63)) by (rewrite Hlow; lia).
  rewrite E at 1. by rewrite Z.lxor_assoc, Z.lxor_nilpotent, Z.lxor_0_r.
Qed.

Lemma signed_code v : is_i64 v -> Z.lxor (as_u64 v) (2 ^ 63) = v + 2 ^ 63.
Proof.
  unfold is_i64. intros Hv. rewrite lxor_top by apply as_u64_range. unfold as_u64.
  destruct (Z.ltb_spec (v mod 2 ^ 64) (2 ^ 63)); Z.div_mod_to_equations; lia.
Qed.

Lemma float_code bits :
  is_u64 bits -> encode_f64_for_index bits = be64 (f64_rank bits + 2 ^ 63) /\ is_u64 (f64_rank bits + 2 ^ 63).
Proof.
  intros Hb. unfold encode_f64_for_index, f64_rank, f64_sign, f64_mag. rewrite land_top, Z.ltb_antisym, negb_involutive by done.
  unfold is_u64 in *. destruct (Z.leb_spec (2 ^ 63) bits) as [H|H].
  - rewrite not64_sub by done. split; [f_equal; unfold u64_max|]; Z.div_mod_to_equations; lia.
  - rewrite lxor_top by done. rewrite (proj2 (Z.ltb_lt _ _)), Z.mod_small by lia. split; [done|lia].
Qed.

(** The escaped form orders as the bytes do, whatever follows. *)
Lemma encode_bytes_order a b x y :
  a <> b -> bytes_cmp (encode_bytes_for_index a ++ x) (encode_bytes_for_index b ++ y) = bytes_cmp a b.
Proof.
  unfold encode_bytes_for_index. rewrite <- !app_assoc.
  revert b. induction a as [|p a IH]; intros [|q b] Hne; [done| | |]; cbn [escape].
  - destruct (Z.eqb_spec (b2z q) 0) as [E|E]; [done|]. cbn [app bytes_cmp]. change (b2z x00) with 0.
    pose proof (b2z_range q). by rewrite (proj2 (Z.compare_lt_iff 0 (b2z q))) by lia.
  - destruct (Z.eqb_spec (b2z p) 0) as [E|E]; [done|]. cbn [app bytes_cmp]. change (b2z x00) with 0.
    pose proof (b2z_range p). by rewrite (proj2 (Z.compare_gt_iff (b2z p) 0)) by lia.
  - assert (Hb : bytes_cmp (escape a ++ [x00; x00] ++ x) (escape b ++ [x00; x00] ++ y)
      = bytes_cmp a b \/ p <> q).
    { destruct (Byte.byte_eq_dec p q) as [->|]; [left|by right]. apply IH. congruence. }
    destruct (Z.eqb_spec (b2z p) 0) as [Ep|Ep], (Z.eqb_spec (b2z q) 0) as [Eq|Eq];
      cbn [app bytes_cmp]; change (b2z x00) with 0; rewrite ?Ep, ?Eq.
    + cbn. destruct Hb as [Hb|[]]; [exact Hb|]. apply b2z_inj. congruence.
    + pose proof (b2z_range q). by rewrite (proj2 (Z.compare_lt_iff 0 (b2z q))) by lia.
    + pose proof (b2z_range p). by rewrite (proj2 (Z.compare_gt_iff (b2z p) 0)) by lia.
    + destruct (Z.compare_spec (b2z p) (b2z q)) as [E|E|E]; [|done..].
      destruct Hb as [Hb|[]]; [exact Hb|]. by apply b2z_inj.
Qed.

(** The order of two values of one scalar type; floats by rank. *)
Definition value_order (v1 v2 : Value) : comparison :=
  match v1, v2 with
  | VU32 a, VU32 b | VU64 a, VU64 b | VI32 a, VI32 b | VI64 a, VI64 b | VDateTime a, VDateTime b => a ?= b
  | VF32 a, VF32 b => f64_rank (f32_to_f64 a) ?= f64_rank (f32_to_f64 b)
  | VF64 a, VF64 b => f64_rank a ?= f64_rank b
  | VBool a, VBool b => (if a then 1 else 0) ?= (if b then 1 else 0)
  | VString a, VString b | VBytes a, VBytes b => bytes_cmp a b
  | _, _ => Eq
  end.

Lemma bytes_cmp_app_length a b x y :
  length a = length b ->
  bytes_cmp (a ++ x) (b ++ y) = match bytes_cmp a b with Eq => bytes_cmp x y | c => c end.
Proof.
  revert b. induction a as [|p a IH]; intros [|q b] Hl; try done. injection Hl as Hl. cbn [app bytes_cmp].
  rewrite IH by done. by destruct (Z.compare (b2z p) (b2z q)).
Qed.

(** The 64-bit code of a value in a fixed-width index. *)
Definition fixed_code (v : Value) : option Z :=
  match v with
  | VU32 v | VU64 v => Some v
  | VI32 v | VI64 v | VDateTime v => Some (v + 2 ^ 63)
  | VF32 v => Some (f64_rank (f32_to_f64 v) + 2 ^ 63)
  | VF64 v => Some (f64_rank v + 2 ^ 63)
  | VBool b => Some (if b then 1 else 0)
  | _ => None
  end.

Definition encode_fixed (kind : IndexedKind) (v : Value) : option bytes :=
  match kind with
  | KInteger => encode_int_for_zone v
  | KBool => encode_bool_for_index v
  | KFloat => encode_float_for_index v
  | _ => None
  end.

Lemma fixed_code_u64 v c : value_ok v -> fixed_code v = Some c -> is_u64 c.
Proof.
  destruct v; cbn [value_ok fixed_code]; intros H [= <-]; unfold is_u32, is_i32, is_i64, is_u64 in *; try lia.
  - apply float_code. by apply f32_to_f64_u64.
  - by apply float_code.
  - case_match; lia.
Qed.

Lemma encode_fixed_code kind v e :
  value_ok v -> encode_fixed kind v = Some e -> exists c, fixed_code v = Some c /\ e = be64 c.
Proof.
  intros H He. destruct kind, v; try done; cbn in He; injection He as <-; cbn [fixed_code value_ok] in *;
    (eexists; split; [reflexivity|]); try done.
  - rewrite signed_code; [done|]. unfold is_i32, is_i64 in *. lia.
  - by rewrite signed_code.
  - by rewrite signed_code.
  - by destruct b.
  - apply float_code. by apply f32_to_f64_u64.
  - by apply float_code.
Qed.

Lemma fixed_code_order st v1 v2 c1 c2 :
  scalar_matches st v1 = true -> scalar_matches st v2 = true ->
  fixed_code v1 = Some c1 -> fixed_code v2 = Some c2 -> value_order v1 v2 = (c1 ?= c2).
Proof.
  intros H1 H2 E1 E2. destruct st, v1, v2; try done; cbn in *; injection E1 as <-; injection E2 as <-;
    rewrite ?(Z.add_comm _ (2 ^ 63)), ?Z.add_compare_mono_l; done.
Qed.

(** ** Index keys *)

Lemma field_index_cmp t f e1 e2 o1 o2 :
  length e1 = length e2 -> is_u64 o1 -> is_u64 o2 ->
  bytes_cmp (KeyBuilder.field_index t f e1 o1) (KeyBuilder.field_index t f e2 o2)
    = match bytes_cmp e1 e2 with Eq => o1 ?= o2 | c => c end.
Proof.
  intros Hl H1 H2. unfold KeyBuilder.field_index. rewrite !bytes_cmp_app, bytes_cmp_app_length by done.
  by rewrite bytes_cmp_app, be64_compare.
Qed.

Lemma field_index_var_cmp t f b1 b2 o1 o2 :
  is_u64 o1 -> is_u64 o2 ->
  bytes_cmp (KeyBuilder.field_index_var t f (encode_bytes_for_index b1) o1)
            (KeyBuilder.field_index_var t f (encode_bytes_for_index b2) o2)
    = match bytes_cmp b1 b2 with Eq => o1 ?= o2 | c => c end.
Proof.
  intros H1 H2. unfold KeyBuilder.field_index_var. rewrite !bytes_cmp_app.
  destruct (decide (b1 = b2)) as [->|Hne].
  - rewrite bytes_cmp_app, bytes_cmp_refl. by apply be64_compare.
  - rewrite encode_bytes_order by done. destruct (bytes_cmp b1 b2) eqn:E; [|done..]. by apply bytes_cmp_eq in E.
Qed.

(** Keys of one field and kind order by value and then by object id. *)
Lemma build_key_order t f kind st v1 v2 o1 o2 k1 k2 :
  value_ok v1 -> value_ok v2 -> scalar_matches st v1 = true -> scalar_matches st v2 = true ->
  is_u64 o1 -> is_u64 o2 ->
  build_field_index_key t f kind v1 o1 = Some k1 -> build_field_index_key t f kind v2 o2 = Some k2 ->
  bytes_cmp k1 k2 = match value_order v1 v2 with Eq => o1 ?= o2 | c => c end.
Proof.
  intros Hv1 Hv2 Hs1 Hs2 Ho1 Ho2.
  assert (Hfix : forall e1 e2, encode_fixed kind v1 = Some e1 -> encode_fixed kind v2 = Some e2 ->
    bytes_cmp (KeyBuilder.field_index t f e1 o1) (KeyBuilder.field_index t f e2 o2)
      = match value_order v1 v2 with Eq => o1 ?= o2 | c => c end).
  { intros e1 e2 E1 E2. apply encode_fixed_code in E1 as (c1 & C1 & ->); [|done].
    apply encode_fixed_code in E2 as (c2 & C2 & ->); [|done].
    rewrite field_index_cmp by (done || by rewrite !length_be64).
    rewrite be64_compare by (eapply fixed_code_u64; [|eassumption]; done). by rewrite (fixed_code_order st v1 v2 c1 c2). }
  unfold build_field_index_key. destruct kind.
  1-3: cbn [encode_fixed] in Hfix; destruct (_ v1) as [e1|]; [|done]; destruct (_ v2) as [e2|]; [|done];
    intros [= <-] [= <-]; by apply Hfix.
  - destruct v1, v2; try done. intros [= <-] [= <-]. by apply field_index_var_cmp.
  - destruct v1, v2; try done. intros [= <-] [= <-]. by apply field_index_var_cmp.
Qed.

(** A float's index code against the comparison of its value. *)
Lemma float_code_compare a b :
  is_u64 a -> is_u64 b -> is_nan a = false -> is_nan b = false ->
  SFcompare (f64_of a) (f64_of b)
    = Some (if (f64_mag a =? 0) && (f64_mag b =? 0) then Eq
            else bytes_cmp (encode_f64_for_index a) (encode_f64_for_index b)).
Proof.
  intros Ha Hb Na Nb. rewrite f64_compare_rank by done.
  destruct (float_code a Ha) as [-> Ua], (float_code b Hb) as [-> Ub]. rewrite be64_compare by done.
  by rewrite !(Z.add_comm _ (2 ^ 63)), Z.add_compare_mono_l.
Qed.

(** The index encodings keep the order of the values.  The keys of one
    indexed field order by value (integers and dates numerically, booleans
    false before true, strings and byte strings bytewise, floats by sign and
    magnitude) and then by object id, so equal keys mean equal values and ids;
    and for floats that are not NaN the order of the codes is the numeric one,
    except that the two zeros have different codes. *)
Theorem index_keys_ordered t f kind st v1 v2 o1 o2 k1 k2 :
  value_ok v1 -> value_ok v2 -> scalar_matches st v1 = true -> scalar_matches st v2 = true ->
  is_u64 o1 -> is_u64 o2 ->
  build_field_index_key t f kind v1 o1 = Some k1 -> build_field_index_key t f kind v2 o2 = Some k2 ->
  bytes_cmp k1 k2 = match value_order v1 v2 with Eq => o1 ?= o2 | c => c end /\
  (forall a b, v1 = VF64 a -> v2 = VF64 b -> is_nan a = false -> is_nan b = false ->
     SFcompare (f64_of a) (f64_of b)
       = Some (if (f64_mag a =? 0) && (f64_mag b =? 0) then Eq else value_order v1 v2)).
Proof.
  intros Hv1 Hv2 Hs1 Hs2 Ho1 Ho2 E1 E2. split; [by eapply build_key_order|].
  intros a b -> -> Na Nb. cbn [value_order value_ok] in *. by apply f64_compare_rank.
Qed.

End index.

Lemma index_keys_ordered_witness :
  let _ := toy_json in
  exists k1 k2, build_field_index_key 1 2 KInteger (VI64 (-5)) 9 = Some k1 /\
    build_field_index_key 1 2 KInteger (VI64 3) 8 = Some k2 /\ k1 <b k2.
Proof.
  cbv zeta.
  set (k1 := KeyBuilder.field_index 1 2 (be64 (2 ^ 63 - 5)) 9).
  set (k2 := KeyBuilder.field_index 1 2 (be64 (2 ^ 63 + 3)) 8).
  exists k1, k2. split; [by vm_compute|]. split; [by vm_compute|]. unfold blt.
  destruct (index_keys_ordered (J := toy_json) 1 2 KInteger TI64 (VI64 (-5)) (VI64 3) 9 8 k1 k2) as [-> _];
    try (split; lia); by vm_compute.
Defined.
