(* ===== verification/Posting.v ===== *)
(** * Postings (crates/rhypedb-engine/src/fulltext/posting.rs)

    The payload of a row of the inverted index: variable-length integers, the
    posting codec and its checks. *)

From Stdlib Require Import ZArith Lia Bool List Strings.Byte.
From stdpp Require Import base tactics option list.
From S2P Require Import Prelude ByteMap Values.

Local Open Scope Z_scope.

Record Posting := {
  doc_len : Z;
  tf : Z;
  p_positions : list Z;
}.

Inductive PostingError := Truncated | Overflow | Inconsistent | TrailingBytes.

(** A decoding result with the rest of the bytes. *)
Inductive dec (A : Type) := DOk (a : A) | DErr (e : PostingError).
Arguments DOk {A} a.
Arguments DErr {A} e.

#[global] Instance dec_bind : MBind dec := fun A B f m =>
  match m with DOk a => f a | DErr e => DErr e end.

(** ** Variable-length integers (unsigned LEB128) *)

(** The loop of [put_varint]; five rounds are enough for 32 bits. *)
Fixpoint varint_loop (fuel : nat) (v : Z) : bytes :=
  match fuel with
  | O => []
  | S fuel =>
      if 128 <=? v then z2b (Z.lor (v mod 256) 128) :: varint_loop fuel (Z.shiftr v 7)
      else [z2b v]
  end.

Definition put_varint (out : bytes) (v : Z) : bytes := out ++ varint_loop 5 v.

(** The loop of [get_varint] at round [i] of five. *)
Fixpoint get_varint_loop (fuel : nat) (i : Z) (result : Z) (cur : bytes) : dec (Z * bytes) :=
  match fuel with
  | O => DErr Overflow
  | S fuel =>
      match cur with
      | [] => DErr Truncated
      | b :: cur =>
          let payload := Z.land (b2z b) 127 in
          if (i =? 4) && (15 <? payload) then DErr Overflow
          else
            let result := Z.lor result (Z.shiftl payload (7 * i)) in
            if Z.land (b2z b) 128 =? 0 then DOk (result, cur)
            else get_varint_loop fuel (i + 1) result cur
      end
  end.

Definition get_varint (cur : bytes) : dec (Z * bytes) := get_varint_loop 5 0 0 cur.

(** ** Postings *)

(** The deltas: the first position, then the differences ([u32], wrapping). *)
Fixpoint put_deltas (out : bytes) (prev : option Z) (positions : list Z) : bytes :=
  match positions with
  | [] => out
  | p :: ps =>
      let delta := match prev with None => p | Some q => as_u32 (p - q) end in
      put_deltas (put_varint out delta) (Some p) ps
  end.

Definition encode_posting (doc_len : Z) (positions : list Z) (store_positions : bool) : bytes :=
  let out := put_varint [] doc_len in
  let out := put_varint out (as_u32 (Z.of_nat (length positions))) in
  if store_positions then put_deltas out None positions else out.

Fixpoint get_deltas (n : nat) (prev : option Z) (cur : bytes) (positions : list Z) : dec (list Z * bytes) :=
  match n with
  | O => DOk (positions, cur)
  | S n =>
      '(delta, cur) ← get_varint cur;
      p ← match prev with
          | None => DOk delta
          | Some q =>
              if delta =? 0 then DErr Inconsistent
              else if q + delta <? 2 ^ 32 then DOk (q + delta) else DErr Overflow
          end;
      get_deltas n (Some p) cur (positions ++ [p])
  end.

Definition decode_posting_header (bytes : bytes) : dec (Z * Z) :=
  '(doc_len, cur) ← get_varint bytes;
  '(tf, cur) ← get_varint cur;
  if tf =? 0 then DErr Inconsistent else DOk (doc_len, tf).

Definition decode_posting (bytes : bytes) : dec Posting :=
  '(doc_len, cur) ← get_varint bytes;
  '(tf, cur) ← get_varint cur;
  if tf =? 0 then DErr Inconsistent
  else
    match cur with
    | [] => DOk {| doc_len := doc_len; tf := tf; p_positions := [] |}
    | _ =>
        '(positions, cur) ← get_deltas (Z.to_nat tf) None cur [];
        match cur with
        | [] => DOk {| doc_len := doc_len; tf := tf; p_positions := positions |}
        | _ => DErr TrailingBytes
        end
    end.

(** The row of a document: its token count. *)
Definition encode_doc_len (doc_len : Z) : bytes := put_varint [] doc_len.

Definition decode_doc_len (bytes : bytes) : dec Z :=
  '(v, cur) ← get_varint bytes;
  match cur with [] => DOk v | _ => DErr TrailingBytes end.

(** ** Round trips *)

Lemma byte_low b : Z.land (b2z b) 127 = b2z b mod 128.
Proof. change 127 with (Z.ones 7). by rewrite Z.land_ones by lia. Qed.

Lemma byte_high b : (Z.land (b2z b) 128 =? 0) = (b2z b <? 128).
Proof. by destruct b. Qed.

Lemma continuation_byte v : 0 <= v -> b2z (z2b (Z.lor (v mod 256) 128)) = 128 + v mod 128.
Proof.
  intros Hv. rewrite b2z_z2b. assert (Hm : 0 <= v mod 256 < 256) by (apply Z.mod_pos_bound; lia).
  replace (v mod 128) with ((v mod 256) mod 128) by (Z.div_mod_to_equations; lia).
  set (x := v mod 256) in *. clearbody x. clear v Hv.
  assert (E : forall n, (n < 256)%nat -> Z.lor (Z.of_nat n) 128 mod 256 = 128 + Z.of_nat n mod 128).
  { intros n Hn. do 256 (destruct n as [|n]; [reflexivity|]). lia. }
  rewrite <- (Z2Nat.id x) by lia. apply E. lia.
Qed.

(** At round [i] the integer so far is below [2^(7i)]. *)
Lemma get_varint_put n : forall i v acc rest,
  (n + i = 5)%nat -> 0 <= v < 2 ^ (32 - 7 * Z.of_nat i) -> 0 <= acc < 2 ^ (7 * Z.of_nat i) -> (0 < n)%nat ->
  get_varint_loop n (Z.of_nat i) acc (varint_loop n v ++ rest) = DOk (acc + v * 2 ^ (7 * Z.of_nat i), rest).
Proof.
  induction n as [|n IH]; intros i v acc rest Hn Hv Hacc Hpos; [lia|]. cbn [varint_loop].
  assert (Hlor : forall x, 0 <= x -> Z.lor acc (Z.shiftl x (7 * Z.of_nat i)) = acc + x * 2 ^ (7 * Z.of_nat i)).
  { intros x Hx. rewrite Z.shiftl_mul_pow2 by lia.
    assert (E : Z.land acc (x * 2 ^ (7 * Z.of_nat i)) = 0).
    { apply Z.bits_inj'. intros k Hk. rewrite Z.land_spec, Z.bits_0.
      destruct (Z.ltb_spec k (7 * Z.of_nat i)).
      - rewrite Z.mul_pow2_bits_low by lia. apply andb_false_r.
      - rewrite <- (Z.mod_small acc (2 ^ (7 * Z.of_nat i))), Z.mod_pow2_bits_high by lia. done. }
    by rewrite <- Z.lxor_lor, <- Z.add_nocarry_lxor. }
  assert (Hpow : 0 < 2 ^ (7 * Z.of_nat i)) by (apply Z.pow_pos_nonneg; lia).
  destruct (Z.leb_spec 128 v) as [Hge|Hlt]; cbn [app get_varint_loop]; rewrite byte_low, byte_high.
  - rewrite continuation_byte by lia. set (x := v mod 128).
    assert (Hx : 0 <= x < 128) by (apply Z.mod_pos_bound; lia).
    replace ((128 + x) mod 128) with x by (unfold x in *; clear -Hx; Z.div_mod_to_equations; lia).
    assert (Hi : (i < 4)%nat).
    { destruct (Nat.eq_dec i 4%nat) as [->|]; [cbn in Hv; lia|lia]. }
    rewrite (proj2 (Z.eqb_neq _ _)) by lia. cbn [andb].
    rewrite (proj2 (Z.ltb_ge (128 + x) 128)) by lia. rewrite Hlor by lia.
    rewrite Z.shiftr_div_pow2 by lia. change (2 ^ 7) with 128.
    replace (Z.of_nat i + 1) with (Z.of_nat (S i)) by lia.
    assert (E7 : 2 ^ (7 * Z.of_nat (S i)) = 128 * 2 ^ (7 * Z.of_nat i)).
    { change 128 with (2 ^ 7). rewrite <- Z.pow_add_r by lia. f_equal. lia. }
    assert (E32 : 2 ^ (32 - 7 * Z.of_nat i) = 128 * 2 ^ (32 - 7 * Z.of_nat (S i))).
    { change 128 with (2 ^ 7). rewrite <- Z.pow_add_r by lia. f_equal. lia. }
    rewrite IH; [|lia| |rewrite E7; nia|lia].
    + f_equal. f_equal. rewrite E7. pose proof (Z.div_mod v 128 ltac:(lia)). fold x in H. nia.
    + split; [apply Z.div_pos; lia|]. apply Z.div_lt_upper_bound; lia.
  - rewrite b2z_z2b, (Z.mod_small v 256) by lia. rewrite (Z.mod_small v 128) by lia.
    replace ((Z.of_nat i =? 4) && (15 <? v)) with false.
    + rewrite (proj2 (Z.ltb_lt v 128)), Hlor by lia. done.
    + symmetry. apply andb_false_iff. destruct (Z.eqb_spec (Z.of_nat i) 4) as [E|]; [right|by left].
      rewrite E in Hv. cbn in Hv. apply Z.ltb_ge. lia.
Qed.

Lemma varint_round_trip v rest : is_u32 v -> get_varint (varint_loop 5 v ++ rest) = DOk (v, rest).
Proof.
  intros Hv. unfold get_varint. change 0 with (Z.of_nat 0) at 1.
  rewrite (get_varint_put 5 0 v 0 rest); [|lia|done|done|lia]. do 2 f_equal. cbn. lia.
Qed.

Lemma varint_nonempty v : varint_loop 5 v <> [].
Proof. cbn. by case_match. Qed.

Lemma put_deltas_app out prev ps : put_deltas out prev ps = out ++ put_deltas [] prev ps.
Proof.
  revert out prev. induction ps as [|p ps IH]; intros out prev; cbn [put_deltas]; [by rewrite app_nil_r|].
  rewrite IH, (IH (put_varint [] _)). unfold put_varint. by rewrite <- !app_assoc.
Qed.

(** Strictly ascending 32-bit positions, above [prev]. *)
Fixpoint ascending (prev : option Z) (ps : list Z) : Prop :=
  match ps with
  | [] => True
  | p :: ps => is_u32 p /\ match prev with Some q => q < p | None => True end /\ ascending (Some p) ps
  end.

Lemma get_deltas_put ps : forall prev acc rest,
  ascending prev ps -> match prev with Some q => is_u32 q | None => True end ->
  get_deltas (length ps) prev (put_deltas [] prev ps ++ rest) acc = DOk (acc ++ ps, rest).
Proof.
  induction ps as [|p ps IH]; intros prev acc rest Ha Hp; cbn [length get_deltas put_deltas]; [by rewrite app_nil_r|].
  destruct Ha as (Hu & Hlt & Ha). rewrite put_deltas_app. unfold put_varint. cbn [app]. rewrite <- app_assoc.
  destruct prev as [q|].
  - assert (Hd : is_u32 (p - q)) by (unfold is_u32 in *; lia). rewrite as_u32_small by done.
    rewrite varint_round_trip by done. cbn [mbind dec_bind].
    rewrite (proj2 (Z.eqb_neq _ _)) by lia. replace (q + (p - q)) with p by lia.
    rewrite (proj2 (Z.ltb_lt p (2 ^ 32))) by (unfold is_u32 in Hu; lia). cbn [mbind dec_bind].
    rewrite IH by done. by rewrite <- app_assoc.
  - rewrite varint_round_trip by done. cbn [mbind dec_bind]. rewrite IH by done. by rewrite <- app_assoc.
Qed.

Lemma put_deltas_nonempty ps : ps <> [] -> put_deltas [] None ps <> [].
Proof.
  destruct ps as [|p ps]; [done|]. intros _. cbn [put_deltas]. rewrite put_deltas_app. unfold put_varint. cbn [app].
  intros E. apply app_eq_nil in E as [E _]. by apply varint_nonempty in E.
Qed.

Lemma encode_posting_parts dl ps store :
  is_u32 (Z.of_nat (length ps)) ->
  encode_posting dl ps store = varint_loop 5 dl ++ varint_loop 5 (Z.of_nat (length ps))
    ++ (if store then put_deltas [] None ps else []).
Proof.
  intros Hl. unfold encode_posting. rewrite as_u32_small by done. unfold put_varint. cbn [app].
  destruct store; [|by rewrite app_nil_r]. by rewrite put_deltas_app, <- app_assoc.
Qed.

Lemma decode_posting_encoded dl ps store :
  is_u32 dl -> ps <> [] -> is_u32 (Z.of_nat (length ps)) -> ascending None ps ->
  decode_posting (encode_posting dl ps store)
    = DOk {| doc_len := dl; tf := Z.of_nat (length ps); p_positions := if store then ps else [] |}.
Proof.
  intros Hd Hne Hl Ha.
  assert (Htf : (Z.of_nat (length ps) =? 0) = false) by (apply Z.eqb_neq; destruct ps; [done|cbn; lia]).
  unfold decode_posting. rewrite encode_posting_parts, varint_round_trip by done. cbn [mbind dec_bind].
  rewrite varint_round_trip by done. cbn [mbind dec_bind]. rewrite Htf. destruct store; [|done].
  destruct (put_deltas [] None ps) as [|b bs] eqn:E; [by apply put_deltas_nonempty in E|].
  rewrite <- E, Nat2Z.id, <- (app_nil_r (put_deltas [] None ps)), get_deltas_put by done. done.
Qed.

(** The posting codec.  A posting of a non-empty list of ascending positions
    decodes to its document length, its term frequency and, when the field
    stores them, its positions; the header decoder gives the same length and
    frequency without reading the positions; a document row gives back its
    length; and a 32-bit integer never takes more than five bytes. *)
Theorem posting_round_trip dl ps store :
  is_u32 dl -> ps <> [] -> is_u32 (Z.of_nat (length ps)) -> ascending None ps ->
  decode_posting (encode_posting dl ps store)
    = DOk {| doc_len := dl; tf := Z.of_nat (length ps); p_positions := if store then ps else [] |} /\
  decode_posting_header (encode_posting dl ps store) = DOk (dl, Z.of_nat (length ps)) /\
  decode_doc_len (encode_doc_len dl) = DOk dl /\
  (length (encode_doc_len dl) <= 5)%nat.
Proof.
  intros Hd Hne Hl Ha.
  assert (Htf : (Z.of_nat (length ps) =? 0) = false) by (apply Z.eqb_neq; destruct ps; [done|cbn; lia]).
  split_and!.
  - by apply decode_posting_encoded.
  - unfold decode_posting_header. rewrite encode_posting_parts, varint_round_trip by done. cbn [mbind dec_bind].
    rewrite varint_round_trip by done. cbn [mbind dec_bind]. by rewrite Htf.
  - unfold decode_doc_len, encode_doc_len, put_varint. cbn [app].
    rewrite <- (app_nil_r (varint_loop 5 dl)), varint_round_trip by done. done.
  - unfold encode_doc_len, put_varint. cbn [app varint_loop]. repeat case_match; cbn [length]; lia.
Qed.

Lemma posting_round_trip_witness :
  decode_posting (encode_posting 300 [0; 4; 70000] true)
    = DOk {| doc_len := 300; tf := 3; p_positions := [0; 4; 70000] |} /\
  decode_posting [x80] = DErr Truncated /\ decode_posting [x01; x00] = DErr Inconsistent.
Proof.
  split; [|split; by vm_compute].
  apply (posting_round_trip 300 [0; 4; 70000] true); cbn; unfold is_u32; try done; lia.
Defined.
