(* ===== verification/Fulltext.v ===== *)
(** * Full-text indexing (crates/rhypedb-engine/src/fulltext/)

    The analyzers (analyzer.rs), the term map (posting.rs), the index rows of a
    value and the corpus statistics (mod.rs), and the incremental update of the
    rows of one field (database.rs, [stage_fulltext_update]).  Word
    segmentation, lower-casing, NFKD and the stemmer are library code: the class
    [TextLib].  A character is its UTF-8 bytes. *)

From Stdlib Require Import ZArith Lia Bool List Strings.Byte Strings.String.
From stdpp Require Import base tactics option list gmap.
From S2P Require Import Prelude ByteMap Keys Values Schema IndexKeys Posting Store Utf8.

Local Open Scope Z_scope.
Local Open Scope bytes_scope.

(** ** The analyzers *)

Definition MAX_TERM_BYTES : Z := 255.
Definition MAX_ANALYZED_WORDS : Z := 65536.

Class TextLib := {
  unicode_words : bytes -> list bytes;
  to_lowercase : bytes -> bytes;
  nfkd : bytes -> list bytes;
  stem : bytes -> bytes;
}.

Record Token := { t_term : bytes; t_position : Z }.

Inductive Analyzer := Simple | English.
#[global] Instance Analyzer_eq_dec : EqDecision Analyzer.
Proof. solve_decision. Defined.

Definition ENGLISH_STOP_WORDS : list bytes :=
 [bs "a"; bs "about"; bs "above"; bs "after"; bs "again"; bs "against"; bs "all"; bs "am"; bs "an"; bs "and";
   bs "any"; bs "are"; bs "aren't"; bs "as"; bs "at"; bs "be"; bs "because"; bs "been"; bs "before";
   bs "being"; bs "below"; bs "between"; bs "both"; bs "but"; bs "by"; bs "can't"; bs "cannot"; bs "could";
   bs "couldn't"; bs "did"; bs "didn't"; bs "do"; bs "does"; bs "doesn't"; bs "doing"; bs "don't"; bs "down";
   bs "during"; bs "each"; bs "few"; bs "for"; bs "from"; bs "further"; bs "had"; bs "hadn't"; bs "has";
   bs "hasn't"; bs "have"; bs "haven't"; bs "having"; bs "he"; bs "he'd"; bs "he'll"; bs "he's"; bs "her";
   bs "here"; bs "here's"; bs "hers"; bs "herself"; bs "him"; bs "himself"; bs "his"; bs "how"; bs "how's";
   bs "i"; bs "i'd"; bs "i'll"; bs "i'm"; bs "i've"; bs "if"; bs "in"; bs "into"; bs "is"; bs "isn't";
   bs "it"; bs "it's"; bs "its"; bs "itself"; bs "let's"; bs "me"; bs "more"; bs "most"; bs "mustn't";
   bs "my"; bs "myself"; bs "no"; bs "nor"; bs "not"; bs "of"; bs "off"; bs "on"; bs "once"; bs "only";
   bs "or"; bs "other"; bs "ought"; bs "our"; bs "ours"; bs "ourselves"; bs "out"; bs "over"; bs "own";
   bs "same"; bs "shan't"; bs "she"; bs "she'd"; bs "she'll"; bs "she's"; bs "should"; bs "shouldn't";
   bs "so"; bs "some"; bs "such"; bs "than"; bs "that"; bs "that's"; bs "the"; bs "their"; bs "theirs";
   bs "them"; bs "themselves"; bs "then"; bs "there"; bs "there's"; bs "these"; bs "they"; bs "they'd";
   bs "they'll"; bs "they're"; bs "they've"; bs "this"; bs "those"; bs "through"; bs "to"; bs "too";
   bs "under"; bs "until"; bs "up"; bs "very"; bs "was"; bs "wasn't"; bs "we"; bs "we'd"; bs "we'll";
   bs "we're"; bs "we've"; bs "were"; bs "weren't"; bs "what"; bs "what's"; bs "when"; bs "when's";
   bs "where"; bs "where's"; bs "which"; bs "while"; bs "who"; bs "who's"; bs "whom"; bs "why"; bs "why's";
   bs "with"; bs "won't"; bs "would"; bs "wouldn't"; bs "you"; bs "you'd"; bs "you'll"; bs "you're";
   bs "you've"; bs "your"; bs "yours"; bs "yourself"; bs "yourselves"].

(** The list is sorted, so the binary search is membership. *)
Definition is_english_stop_word (word : bytes) : bool := existsb (beqb word) ENGLISH_STOP_WORDS.

Record Analyzed := { a_tokens : list Token; stop_words_dropped : Z }.

Definition from_name (name : bytes) : option Analyzer :=
  if beqb name (bs "simple") then Some Simple else if beqb name (bs "english") then Some English else None.

Definition analyzer_name (a : Analyzer) : bytes :=
  match a with Simple => bs "simple" | English => bs "english" end.

Definition definition (a : Analyzer) : bytes :=
  match a with Simple => bs "simple/2" | English => bs "english/3" end.

(** The code point of a character. *)
Definition char_code (c : bytes) : Z :=
  let cont b := Z.land (b2z b) 63 in
  match c with
  | [b0] => b2z b0
  | [b0; b1] => Z.land (b2z b0) 31 * 64 + cont b1
  | [b0; b1; b2] => Z.land (b2z b0) 15 * 4096 + cont b1 * 64 + cont b2
  | [b0; b1; b2; b3] => Z.land (b2z b0) 7 * 262144 + cont b1 * 4096 + cont b2 * 64 + cont b3
  | _ => 0
  end.

Definition in_ranges (rs : list (Z * Z)) (c : bytes) : bool :=
  existsb (fun r => (fst r <=? char_code c) && (char_code c <=? snd r)) rs.

Definition is_diacritic_mark : bytes -> bool :=
  in_ranges [(768, 879); (6832, 6911); (7616, 7679); (8400, 8447)].

Definition is_default_ignorable : bytes -> bool :=
  in_ranges
   [(173, 173); (847, 847); (1564, 1564); (4447, 4448); (6068, 6069); (6155, 6159); (8203, 8207); (8234, 8238);
   (8288, 8303); (12644, 12644); (65024, 65039); (65279, 65279); (65440, 65440); (65520, 65528);
   (113824, 113827); (119155, 119162); (917504, 921599)].

(** The characters of a string; a character takes at least a byte. *)
Fixpoint chars_loop (fuel : nat) (s : bytes) : list bytes :=
  match fuel, next_char s with
  | S fuel, Some (c, r) => c :: chars_loop fuel r
  | _, _ => []
  end.
Definition chars (s : bytes) : list bytes := chars_loop (List.length s) s.

Section analyzer.
Context {T : TextLib}.

Definition fold_simple (word : bytes) : bytes :=
  let lowered := to_lowercase word in
  List.concat (List.filter (fun c => negb (is_diacritic_mark c) && negb (is_default_ignorable c)) (nfkd lowered)).

Definition ascii_apostrophe (c : bytes) : bytes :=
  if (char_code c =? 8216) || (char_code c =? 8217) || (char_code c =? 700) then [x27] else c.

Definition fold_english (word : bytes) (keep_stop_words : bool) : option bytes :=
  let folded := List.concat (map ascii_apostrophe (chars (fold_simple word))) in
  match folded with
  | [] => Some folded
  | _ =>
      if negb keep_stop_words && is_english_stop_word folded then None
      else Some (stem folded)
  end.

(** The loop of [analyze_words] over the words, at a position. *)
Fixpoint analyze_loop (fold : bytes -> option bytes) (words : list bytes) (position : Z) (out : list Token) (dropped : Z)
    : Analyzed :=
  match words with
  | [] => {| a_tokens := out; stop_words_dropped := dropped |}
  | word :: words =>
      let next := Z.min (position + 1) u32_max in
      match fold word with
      | None => analyze_loop fold words next out (as_u32 (dropped + 1))
      | Some term =>
          if (len term =? 0) || (MAX_TERM_BYTES <? len term) then analyze_loop fold words next out dropped
          else analyze_loop fold words next (out ++ [{| t_term := term; t_position := position |}]) dropped
      end
  end.

Definition analyze_words (text : bytes) (fold : bytes -> option bytes) : Analyzed :=
  analyze_loop fold (take (Z.to_nat MAX_ANALYZED_WORDS) (unicode_words text)) 0 [] 0.

Definition analyze_opts (a : Analyzer) (text : bytes) (keep_stop_words : bool) : Analyzed :=
  match a with
  | Simple => analyze_words text (fun w => Some (fold_simple w))
  | English => analyze_words text (fun w => fold_english w keep_stop_words)
  end.

Definition analyze (a : Analyzer) (text : bytes) : list Token := a_tokens (analyze_opts a text false).

(** ** The rows of a value *)

(** Group the tokens by term; the positions of a term are in stream order. *)
Definition term_map_step (m : bmap (list Z)) (t : Token) : bmap (list Z) :=
  bm_insert (t_term t) (default [] (bm_get (t_term t) m) ++ [t_position t]) m.

Definition term_map (tokens : list Token) : bmap (list Z) := fold_left term_map_step tokens [].

(** The statistics and the build progress of a field are separate state. *)
Record FulltextField := {
  ff_name : bytes;
  ff_field_id : Z;
  ff_generation : Z;
  ff_analyzer : Analyzer;
  ff_positions : bool;
}.

Record IndexedDoc := { id_doc_len : Z; id_terms : list (bytes * list Z) }.

Definition tokenize_for_index (ff : FulltextField) (text : bytes) : IndexedDoc :=
  let tokens := analyze (ff_analyzer ff) text in
  {| id_doc_len := as_u32 (Z.of_nat (List.length tokens)); id_terms := term_map tokens |}.

Definition encode_term (term : bytes) : bytes := encode_str_for_index term.

Definition encode_term_prefix (prefix : bytes) : bytes :=
  let bytes := encode_term prefix in take (List.length bytes - 2) bytes.

Definition posting_key (type_id : Z) (ff : FulltextField) (object_id : Z) (term : bytes) : bytes :=
  KeyBuilder.fulltext_posting type_id (ff_field_id ff) (ff_generation ff) (encode_term term) object_id.

Definition doc_key (type_id : Z) (ff : FulltextField) (object_id : Z) : bytes :=
  KeyBuilder.fulltext_doc type_id (ff_field_id ff) (ff_generation ff) object_id.

Definition stage_doc_puts (type_id : Z) (ff : FulltextField) (object_id : Z) (doc : IndexedDoc)
    (puts : list (bytes * bytes)) : list (bytes * bytes) :=
  puts ++ map (fun '(term, positions) => (posting_key type_id ff object_id term,
      encode_posting (id_doc_len doc) positions (ff_positions ff))) (id_terms doc)
    ++ [(doc_key type_id ff object_id, encode_doc_len (id_doc_len doc))].

(** ** Corpus statistics *)

Record FulltextStats := { doc_count : Z; total_tokens : Z }.

(** [FulltextStats::apply]: each counter moves by a signed amount and stops at 0. *)
Definition stats_add (cur delta : Z) : Z := if delta =? 0 then cur else as_u64 (Z.max (cur + delta) 0).
Definition stats_apply (s : FulltextStats) (docs tokens : Z) : FulltextStats :=
  {| doc_count := stats_add (doc_count s) docs; total_tokens := stats_add (total_tokens s) tokens |}.

Definition StatsDelta : Type := gmap (Z * Z) (Z * Z).

Definition delta_add (d : StatsDelta) (type_id field_id docs tokens : Z) : StatsDelta :=
  if (docs =? 0) && (tokens =? 0) then d
  else
    let e := default (0, 0) (d !! (type_id, field_id)) in
    <[(type_id, field_id) := (as_i64 (fst e + docs), as_i64 (snd e + tokens))]> d.

(** ** The incremental update of a field *)

Definition opt_eqb (a b : option Z) : bool :=
  match a, b with Some x, Some y => x =? y | None, None => true | _, _ => false end.

Definition b2i (b : bool) : Z := if b then 1 else 0.

(** The parts of [stage_fulltext_update]: the postings of the terms that
    disappeared, those that are new or changed, and the document row. *)
Definition removed_terms (key : bytes -> bytes) (old_terms new_terms : bmap (list Z)) : list op :=
  map (fun e => (key (fst e), None))
    (List.filter (fun e => match bm_get (fst e) new_terms with Some _ => false | None => true end) old_terms).

Definition put_terms (key : bytes -> bytes) (ff : FulltextField) (old_terms : bmap (list Z)) (old_len : option Z)
    (new_doc : IndexedDoc) : list op :=
  let unchanged e :=
    bool_decide (bm_get (fst e) old_terms = Some (snd e)) && opt_eqb old_len (Some (id_doc_len new_doc)) in
  map (fun e => (key (fst e), Some (encode_posting (id_doc_len new_doc) (snd e) (ff_positions ff))))
    (List.filter (fun e => negb (unchanged e)) (id_terms new_doc)).

Definition doc_row_write (dk : bytes) (old_had_string : bool) (old_len new_len : option Z) : list op :=
  match new_len with
  | Some l => if opt_eqb old_len new_len then [] else [(dk, Some (encode_doc_len l))]
  | None => if old_had_string then [(dk, None)] else []
  end.

(** The old value counts as indexed only if its document row exists. *)
Definition indexed_text (m : bmap bytes) (dk : bytes) (old_text : option bytes) : option bytes :=
  match old_text, bm_get dk m with Some x, Some _ => Some x | _, _ => None end.

(** The writes of an update from [old_text] to [new_text] on the snapshot [m],
    in order, and the statistics. *)
Definition stage_fulltext_update (m : bmap bytes) (type_id : Z) (ff : FulltextField) (object_id : Z)
    (old_text new_text : option bytes) (ft_delta : StatsDelta) : list op * StatsDelta :=
  let dk := doc_key type_id ff object_id in
  let key := posting_key type_id ff object_id in
  let old_had_string := bool_decide (is_Some old_text) in
  let old_doc : option IndexedDoc := tokenize_for_index ff <$> indexed_text m dk old_text in
  let new_doc : option IndexedDoc := tokenize_for_index ff <$> new_text in
  let old_terms := default [] (id_terms <$> old_doc) in
  let new_terms := default [] (id_terms <$> new_doc) in
  let old_len : option Z := id_doc_len <$> old_doc in
  let new_len : option Z := id_doc_len <$> new_doc in
  (removed_terms key old_terms new_terms
     ++ match new_doc with Some d => put_terms key ff old_terms old_len d | None => [] end
     ++ doc_row_write dk old_had_string old_len new_len,
   delta_add ft_delta type_id (ff_field_id ff)
     (b2i (bool_decide (is_Some new_len)) - b2i (bool_decide (is_Some old_len)))
     (default 0 new_len - default 0 old_len)).
End analyzer.

(** ** Association lists with distinct keys *)

Section assoc.
Context {V : Type}.
Implicit Types l : list (bytes * V).

Lemma assoc_none k l : bm_get k l = None <-> ~ In k (map fst l).
Proof.
  induction l as [|[k' v] l IH]; cbn [bm_get map fst In]; [tauto|].
  destruct (beqb_spec k k') as [->|Hne]; [split; [done|tauto]|]. rewrite IH. intuition congruence.
Qed.

Lemma assoc_in k v l : bm_get k l = Some v -> In (k, v) l.
Proof.
  induction l as [|[k' v'] l IH]; cbn [bm_get]; [done|]. destruct (beqb_spec k k') as [->|]; [intros [= ->]; by left|].
  intros H. right. by apply IH.
Qed.

Lemma assoc_filter (f : bytes * V -> bool) k l :
  NoDup (map fst l) ->
  bm_get k (List.filter f l) = match bm_get k l with Some v => if f (k, v) then Some v else None | None => None end.
Proof.
  induction l as [|[k' v] l IH]; cbn [List.filter bm_get map fst]; [done|]. intros [Hn Hd]%NoDup_cons.
  destruct (beqb_spec k k') as [->|Hne].
  - destruct (f (k', v)); cbn [bm_get]; [by destruct (beqb_spec k' k')|]. rewrite IH by done.
    by rewrite (proj2 (assoc_none k' l)) by (by rewrite <- list_elem_of_In).
  - destruct (f (k', v)); cbn [bm_get]; [destruct (beqb_spec k k'); [done|]|]; by apply IH.
Qed.

(** A map under an injective change of keys. *)
Lemma assoc_map {W} (f : bytes -> bytes) (h : bytes * V -> W) k l :
  (forall a b, f a = f b -> a = b) ->
  bm_get (f k) (map (fun e => (f (fst e), h e)) l) = match bm_get k l with Some v => Some (h (k, v)) | None => None end.
Proof.
  intros Hf. induction l as [|[k' v] l IH]; cbn [map bm_get fst]; [done|].
  destruct (beqb_spec k k') as [->|Hne]; [by destruct (beqb_spec (f k') (f k'))|].
  destruct (beqb_spec (f k) (f k')) as [E|_]; [by apply Hf in E|done].
Qed.

Lemma filter_false (f : bytes * V -> bool) l : (forall e, In e l -> f e = false) -> List.filter f l = [].
Proof.
  induction l as [|e l IH]; intros H; cbn [List.filter]; [done|]. rewrite (H e) by (by left).
  apply IH. intros x Hx. apply H. by right.
Qed.

Lemma assoc_insert_all k l (m : bmap V) :
  bsorted m -> NoDup (map fst l) ->
  bm_get k (bm_insert_all l m) = match bm_get k l with Some v => Some v | None => bm_get k m end.
Proof.
  revert m. induction l as [|[k' v] l IH]; intros m Hs Hd; [done|]. apply NoDup_cons in Hd as [Hn Hd].
  rewrite list_elem_of_In in Hn.
  change (bm_insert_all ((k', v) :: l) m) with (bm_insert_all l (bm_insert k' v m)).
  rewrite IH by (try apply bsorted_insert; done). cbn [bm_get]. rewrite bm_get_insert by done.
  destruct (beqb_spec k k') as [->|Hne]; [|by rewrite decide_False].
  by rewrite (proj2 (assoc_none k' l) Hn), decide_True.
Qed.

Lemma NoDup_filter_keys (f : bytes * V -> bool) l : NoDup (map fst l) -> NoDup (map fst (List.filter f l)).
Proof.
  induction l as [|e l IH]; cbn [List.filter map]; [done|]. intros [Hn Hd]%NoDup_cons.
  destruct (f e); cbn [map]; [|by apply IH]. apply NoDup_cons. split; [|by apply IH].
  rewrite list_elem_of_In in *. intros Hin. apply Hn. apply in_map_iff in Hin as (x & <- & Hx).
  apply filter_In in Hx as [Hx _]. by apply in_map.
Qed.
End assoc.

(** The last write among writes of distinct keys is the only one. *)
Lemma last_op_assoc k (l : list op) : NoDup (map fst l) -> last_op k l = bm_get k l.
Proof.
  induction l as [|[k' x] l IH]; cbn [last_op bm_get map fst snd]; [done|]. intros [Hn Hd]%NoDup_cons.
  rewrite IH by done. destruct (beqb_spec k k') as [->|]; [|by destruct (bm_get k l)].
  by rewrite (proj2 (assoc_none k' l)) by (by rewrite <- list_elem_of_In).
Qed.

(** ** The token stream *)

(** Terms are short and not empty; positions ascend from [lo] and stay below
    [hi]. *)
Fixpoint tokens_ok (lo hi : Z) (ts : list Token) : Prop :=
  match ts with
  | [] => True
  | t :: ts => 0 < len (t_term t) <= MAX_TERM_BYTES /\ lo <= t_position t < hi /\ tokens_ok (t_position t + 1) hi ts
  end.

Lemma tokens_ok_weaken lo lo' hi ts : lo' <= lo -> tokens_ok lo hi ts -> tokens_ok lo' hi ts.
Proof. destruct ts; [done|]. intros H (H1 & H2 & H3). split; [done|]. split; [lia|done]. Qed.

Section tokens.
Context {T : TextLib}.

Lemma analyze_loop_tokens fold words : forall position out dropped,
  0 <= position -> position + Z.of_nat (List.length words) <= MAX_ANALYZED_WORDS ->
  exists ts, a_tokens (analyze_loop fold words position out dropped) = out ++ ts /\
    tokens_ok position MAX_ANALYZED_WORDS ts /\ (List.length ts <= List.length words)%nat.
Proof.
  induction words as [|w words IH]; intros position out dropped Hp Hl; cbn [analyze_loop List.length] in *.
  { exists []. cbn. rewrite app_nil_r. split_and!; [done..|lia]. }
  assert (Hm : Z.min (position + 1) u32_max = position + 1) by (unfold u32_max, MAX_ANALYZED_WORDS in *; lia).
  rewrite Hm. destruct (fold w) as [term|].
  - destruct ((len term =? 0) || (MAX_TERM_BYTES <? len term)) eqn:E.
    + destruct (IH (position + 1) out dropped) as (ts & -> & Ht & Hlen); [lia..|]. exists ts.
      split_and!; [done| |lia]. eapply tokens_ok_weaken; [|exact Ht]. lia.
    + destruct (IH (position + 1) (out ++ [{| t_term := term; t_position := position |}]) dropped)
        as (ts & -> & Ht & Hlen); [lia..|].
      exists ({| t_term := term; t_position := position |} :: ts). rewrite <- app_assoc. split_and!; [done| |cbn; lia].
      cbn [tokens_ok t_term t_position]. apply orb_false_iff in E as [E1 E2]. apply Z.eqb_neq in E1. apply Z.ltb_ge in E2.
      split; [unfold len in *; lia|]. split; [|done]. unfold MAX_ANALYZED_WORDS in *. lia.
  - destruct (IH (position + 1) out (as_u32 (dropped + 1))) as (ts & -> & Ht & Hlen); [lia..|]. exists ts.
    split_and!; [done| |lia]. eapply tokens_ok_weaken; [|exact Ht]. lia.
Qed.

Lemma analyze_tokens a text :
  tokens_ok 0 MAX_ANALYZED_WORDS (analyze a text) /\ Z.of_nat (List.length (analyze a text)) <= MAX_ANALYZED_WORDS.
Proof.
  assert (H : forall fold, let ts := a_tokens (analyze_words text fold) in
    tokens_ok 0 MAX_ANALYZED_WORDS ts /\ Z.of_nat (List.length ts) <= MAX_ANALYZED_WORDS).
  { intros fold ts. subst ts. unfold analyze_words. set (ws := take _ _).
    assert (Hl : Z.of_nat (List.length ws) <= MAX_ANALYZED_WORDS).
    { unfold ws. rewrite length_take. unfold MAX_ANALYZED_WORDS. lia. }
    clearbody ws. destruct (analyze_loop_tokens fold ws 0 [] 0) as (ts & -> & Ht & Hlen); [lia..|].
    cbn [app]. split; [done|lia]. }
  destruct a; apply H.
Qed.
End tokens.

(** The positions of a term in a stream. *)
Definition positions_of (term : bytes) (ts : list Token) : list Z :=
  map t_position (List.filter (fun t => beqb term (t_term t)) ts).

Lemma positions_ascending term ts : forall lo prev,
  tokens_ok lo MAX_ANALYZED_WORDS ts -> 0 <= lo -> match prev with Some q => q < lo | None => True end ->
  ascending prev (positions_of term ts).
Proof.
  unfold positions_of. induction ts as [|t ts IH]; intros lo prev Hok Hlo Hp; cbn [List.filter]; [done|].
  destruct Hok as (_ & Hr & Hok). destruct (beqb term (t_term t)); cbn [map ascending].
  - split; [unfold is_u32, MAX_ANALYZED_WORDS in *; lia|]. split; [destruct prev; [lia|done]|].
    apply (IH (t_position t + 1)); [done|lia|lia].
  - apply (IH (t_position t + 1)); [done|lia|]. destruct prev; [lia|done].
Qed.

Lemma term_map_sorted_from ts m : bsorted m -> bsorted (fold_left term_map_step ts m).
Proof. revert m. induction ts as [|t ts IH]; intros m H; [done|]. by apply IH, bsorted_insert. Qed.

Lemma term_map_get_from ts : forall m term, bsorted m ->
  bm_get term (fold_left term_map_step ts m) =
    match bm_get term m, positions_of term ts with
    | None, [] => None
    | o, ps => Some (default [] o ++ ps)
    end.
Proof.
  induction ts as [|t ts IH]; intros m term Hs; cbn [fold_left].
  { unfold positions_of. cbn. destruct (bm_get term m); cbn; by rewrite ?app_nil_r. }
  rewrite IH by by apply bsorted_insert. unfold term_map_step at 1. rewrite bm_get_insert by done.
  unfold positions_of. cbn [List.filter]. destruct (beqb_spec term (t_term t)) as [->|Hne].
  - rewrite decide_True by done. cbn [map]. destruct (bm_get (t_term t) m).
    + cbn. by rewrite <- (app_assoc l).
    + done.
  - by rewrite decide_False by done.
Qed.

Lemma term_map_get ts term :
  bm_get term (term_map ts) = match positions_of term ts with [] => None | ps => Some ps end.
Proof. unfold term_map. by rewrite (term_map_get_from ts [] term bsorted_nil). Qed.

Lemma term_map_sorted ts : bsorted (term_map ts).
Proof. by apply (term_map_sorted_from ts []), bsorted_nil. Qed.

Lemma term_map_nodup ts : NoDup (map fst (term_map ts)).
Proof. apply bsorted_nodup, term_map_sorted. Qed.

Lemma in_term_map ts term ps : In (term, ps) (term_map ts) -> ps = positions_of term ts /\ ps <> [].
Proof.
  intros Hin. apply bm_get_in in Hin; [|apply term_map_sorted]. rewrite term_map_get in Hin.
  destruct (positions_of term ts) eqn:E; [done|]. injection Hin as <-. by split.
Qed.

(** The positions of all the terms, together, are those of the tokens. *)
Fixpoint total_positions (m : bmap (list Z)) : nat :=
  match m with [] => 0 | e :: m => List.length (snd e) + total_positions m end.

Lemma total_positions_insert m term ps p :
  bsorted m -> default [] (bm_get term m) = ps ->
  total_positions (bm_insert term (ps ++ [p]) m) = S (total_positions m).
Proof.
  induction m as [|[k v] m IH]; intros Hs Hg; cbn [bm_insert].
  { cbn in Hg. subst ps. done. }
  apply bsorted_cons_inv in Hs as Hs'. destruct Hs' as [Hs' _]. cbn [bm_get] in Hg.
  destruct (bytes_cmp term k) eqn:E.
  - apply bytes_cmp_eq in E as ->. destruct (beqb_spec k k); [|done]. cbn in Hg. subst ps. cbn. rewrite length_app. cbn. lia.
  - assert (Hn : bm_get term m = None).
    { apply assoc_none. intros Hin. apply bsorted_cons_inv in Hs as [_ Hf]. rewrite List.Forall_forall in Hf.
      apply in_map_iff in Hin as (e & <- & He). specialize (Hf e He). cbn in Hf.
      apply (blt_irrefl (fst e)). by eapply blt_trans. }
    destruct (beqb_spec term k) as [->|]; [by rewrite bytes_cmp_refl in E|]. rewrite Hn in Hg. cbn in Hg. subst ps. cbn. lia.
  - destruct (beqb_spec term k) as [->|]; [by rewrite bytes_cmp_refl in E|]. cbn. rewrite IH by done. lia.
Qed.

Lemma total_positions_term_map ts : total_positions (term_map ts) = List.length ts.
Proof.
  assert (H : forall m, bsorted m -> total_positions (fold_left term_map_step ts m) = (total_positions m + List.length ts)%nat).
  { induction ts as [|t ts IH]; intros m Hs; cbn [fold_left List.length]; [lia|].
    rewrite IH by by apply bsorted_insert. unfold term_map_step. rewrite total_positions_insert by done. lia. }
  unfold term_map. rewrite H by apply bsorted_nil. cbn. lia.
Qed.

Lemma term_length lo hi ts term : tokens_ok lo hi ts -> positions_of term ts <> [] -> 0 < len term <= MAX_TERM_BYTES.
Proof.
  unfold positions_of. revert lo. induction ts as [|t ts IH]; intros lo Hok Hne; [done|].
  destruct Hok as (H1 & _ & Hok). cbn [List.filter] in Hne.
  destruct (beqb_spec term (t_term t)) as [->|]; [done|]. by eapply IH.
Qed.

(** ** Term keys *)

Lemma escape_prefix p t z : escape p `prefix_of` escape t ++ [x00; x00] ++ z -> p `prefix_of` t.
Proof.
  revert t. induction p as [|b p IH]; intros t H; [apply prefix_nil|].
  destruct t as [|c t]; cbn [escape app] in H.
  - destruct (Z.eqb_spec (b2z b) 0) as [E|E]; cbn [app] in H.
    + apply prefix_cons_inv_2, prefix_cons_inv_1 in H. done.
    + apply prefix_cons_inv_1 in H. by subst b.
  - destruct (Z.eqb_spec (b2z b) 0) as [E|E], (Z.eqb_spec (b2z c) 0) as [E'|E']; cbn [app] in H.
    + apply prefix_cons_inv_2, prefix_cons_inv_2 in H. assert (b = c) as -> by (apply b2z_inj; congruence).
      apply prefix_cons, IH, H.
    + apply prefix_cons_inv_1 in H. by subst c.
    + apply prefix_cons_inv_1 in H. by subst b.
    + pose proof (prefix_cons_inv_1 _ _ _ _ H) as ->. apply prefix_cons_inv_2 in H. apply prefix_cons, IH, H.
Qed.

Lemma escape_app a b : escape (a ++ b) = escape a ++ escape b.
Proof. induction a as [|x a IH]; cbn [app escape]; [done|]. rewrite IH. by case_match. Qed.

Lemma encode_term_prefix_escape p : encode_term_prefix p = escape p.
Proof.
  unfold encode_term_prefix, encode_term, encode_str_for_index, encode_bytes_for_index. rewrite length_app.
  cbn [List.length]. replace (_ + 2 - 2)%nat with (List.length (escape p)) by lia. by rewrite take_app_length.
Qed.

Lemma encode_term_inj a b : encode_term a = encode_term b -> a = b.
Proof.
  unfold encode_term, encode_str_for_index, encode_bytes_for_index. intros H.
  apply app_inj_2 in H as [H _]; [|done].
  assert (H1 : a `prefix_of` b) by (apply (escape_prefix a b []); rewrite H; by apply prefix_app_r).
  assert (H2 : b `prefix_of` a) by (apply (escape_prefix b a []); rewrite H; by apply prefix_app_r).
  by apply (anti_symm prefix).
Qed.

Lemma posting_key_inj t ff o a b : posting_key t ff o a = posting_key t ff o b -> a = b.
Proof.
  unfold posting_key, KeyBuilder.fulltext_posting. intros H. apply (inj _) in H.
  apply app_inj_2 in H as [H _]; [|done]. by apply encode_term_inj.
Qed.

Lemma posting_key_doc t ff o term : posting_key t ff o term <> doc_key t ff o.
Proof. unfold posting_key, doc_key, KeyBuilder.fulltext_posting, KeyBuilder.fulltext_doc, put_fulltext_prefix. done. Qed.

Lemma put_fulltext_prefix_length pre t f g : List.length (put_fulltext_prefix [] pre t f g) = 25%nat.
Proof. unfold put_fulltext_prefix. by rewrite !length_app, !length_be64, length_be32. Qed.

(** ** Theorems *)

Section theorems.
Context {T : TextLib}.

(** What the analyzers produce is indexable.  For any text and either
    analyzer, the terms are distinct, sorted, not empty and at most 255 bytes;
    the positions of a term are exactly where it occurs in the token stream; the
    document length is the number of all positions and at most the word cap; and
    every posting written for the text decodes to that length, the number of
    occurrences and, when the field stores them, the positions. *)
Theorem tokenized_postings_decode ff text :
  let d := tokenize_for_index ff text in
  bsorted (id_terms d) /\ id_doc_len d = Z.of_nat (total_positions (id_terms d)) /\
  id_doc_len d <= MAX_ANALYZED_WORDS /\
  forall term ps, In (term, ps) (id_terms d) ->
    0 < len term <= MAX_TERM_BYTES /\ ps = positions_of term (analyze (ff_analyzer ff) text) /\
    decode_posting (encode_posting (id_doc_len d) ps (ff_positions ff)) =
      DOk {| doc_len := id_doc_len d; tf := Z.of_nat (List.length ps); p_positions := if ff_positions ff then ps else [] |}.
Proof.
  intros d. subst d. unfold tokenize_for_index. cbn [id_terms id_doc_len].
  destruct (analyze_tokens (ff_analyzer ff) text) as [Hok Hn]. set (ts := analyze _ _) in *. clearbody ts.
  assert (Hu : is_u32 (Z.of_nat (List.length ts))) by (unfold is_u32, MAX_ANALYZED_WORDS in *; lia).
  rewrite as_u32_small by done. rewrite total_positions_term_map. split_and!; [apply term_map_sorted|done|done|].
  intros term ps Hin. apply in_term_map in Hin as [-> Hne].
  assert (Hle : (List.length (positions_of term ts) <= List.length ts)%nat).
  { unfold positions_of. rewrite length_map. apply List.filter_length_le. }
  split; [by eapply term_length|]. split; [done|]. apply decode_posting_encoded; [done|done|unfold is_u32 in *; lia|].
  apply (positions_ascending term ts 0); [done|lia|done].
Qed.

(** The rows of a value; none for a null. *)
Definition ft_rows (t : Z) (ff : FulltextField) (o : Z) (text : option bytes) : list (bytes * bytes) :=
  match text with Some x => stage_doc_puts t ff o (tokenize_for_index ff x) [] | None => [] end.

Definition ft_key (t : Z) (ff : FulltextField) (o : Z) (k : bytes) : Prop :=
  k = doc_key t ff o \/ exists term, k = posting_key t ff o term.

(** The store holds exactly the rows of a value, for this object and field. *)
Definition holds_rows (t : Z) (ff : FulltextField) (o : Z) (m : bmap bytes) (text : option bytes) : Prop :=
  forall k, ft_key t ff o k -> bm_get k m = bm_get k (ft_rows t ff o text).

Variables (t : Z) (ff : FulltextField) (o : Z).
Notation pk := (posting_key t ff o).
Notation dk := (doc_key t ff o).

Lemma assoc_app {V} k (a b : list (bytes * V)) :
  bm_get k (a ++ b) = match bm_get k a with Some v => Some v | None => bm_get k b end.
Proof. induction a as [|[k' v] a IH]; cbn [app bm_get]; [done|]. by destruct (beqb k k'). Qed.

Lemma map_pair_fst {V W} (f : bytes -> bytes) (h : bytes * V -> W) l :
  map (fun '(k, v) => (f k, h (k, v))) l = map (fun e => (f (fst e), h e)) l.
Proof. apply map_ext. by intros []. Qed.

Lemma doc_not_posting {V W} (h : bytes * V -> W) l : bm_get dk (map (fun e => (pk (fst e), h e)) l) = None.
Proof.
  apply assoc_none. rewrite map_map. intros (e & He & _)%in_map_iff. by apply posting_key_doc in He.
Qed.

Lemma ft_rows_doc text :
  bm_get dk (ft_rows t ff o text) = (fun x => encode_doc_len (id_doc_len (tokenize_for_index ff x))) <$> text.
Proof.
  destruct text as [x|]; [|done]. cbn [ft_rows fmap option_fmap option_map]. unfold stage_doc_puts. cbn [app].
  rewrite (map_pair_fst pk (fun e => encode_posting _ (snd e) _)), assoc_app, doc_not_posting. cbn [bm_get].
  by destruct (beqb_spec dk dk).
Qed.

Lemma ft_rows_posting text term :
  bm_get (pk term) (ft_rows t ff o text) =
    x ← text; let d := tokenize_for_index ff x in
    (fun ps => encode_posting (id_doc_len d) ps (ff_positions ff)) <$> bm_get term (id_terms d).
Proof.
  destruct text as [x|]; [|done]. cbn [ft_rows mbind option_bind]. unfold stage_doc_puts. cbn [app].
  rewrite (map_pair_fst pk (fun e => encode_posting _ (snd e) _)), assoc_app, assoc_map by apply posting_key_inj.
  destruct (bm_get term _); [done|]. cbn [bm_get fmap option_fmap option_map].
  destruct (beqb_spec (pk term) dk) as [E|]; [by apply posting_key_doc in E|done].
Qed.

Lemma id_terms_nodup x : NoDup (map fst (id_terms (tokenize_for_index ff x))).
Proof. apply term_map_nodup. Qed.

Lemma opt_eqb_spec a b : reflect (a = b) (opt_eqb a b).
Proof. destruct a, b; cbn; try (constructor; congruence). destruct (Z.eqb_spec z z0); constructor; congruence. Qed.

(** The writes of an update, by key. *)
Lemma last_op_keys_none {V} k (h : bytes * V -> option bytes) (l : list (bytes * V)) :
  (forall term, k <> pk term) -> last_op k (map (fun e => (pk (fst e), h e)) l) = None.
Proof.
  intros Hk. apply last_op_none. rewrite map_map. intros (e & He & _)%in_map_iff. by destruct (Hk (fst e)).
Qed.

Lemma last_op_map_keys {V} (f : bytes * V -> bool) (h : bytes * V -> option bytes) (l : list (bytes * V)) term :
  NoDup (map fst l) ->
  last_op (pk term) (map (fun e => (pk (fst e), h e)) (List.filter f l)) =
    match bm_get term l with Some v => if f (term, v) then Some (h (term, v)) else None | None => None end.
Proof.
  intros Hl. rewrite last_op_assoc.
  - rewrite assoc_map by apply posting_key_inj. rewrite assoc_filter by done. destruct (bm_get term l); [|done].
    by destruct (f (term, v)).
  - rewrite map_map. cbn [fst]. rewrite <- (map_map fst pk). apply NoDup_fmap_2; [intros ? ?; apply posting_key_inj|].
    by apply NoDup_filter_keys.
Qed.

Lemma last_op_doc_row k b ol nl : k <> dk -> last_op k (doc_row_write dk b ol nl) = None.
Proof.
  intros H. apply last_op_none. unfold doc_row_write. repeat case_match; cbn [map fst In]; intuition congruence.
Qed.

Definition ft_terms (text : option bytes) : bmap (list Z) := default [] (id_terms <$> (tokenize_for_index ff <$> text)).
Definition ft_len (text : option bytes) : option Z := id_doc_len <$> (tokenize_for_index ff <$> text).

Lemma ft_terms_nodup text : NoDup (map fst (ft_terms text)).
Proof. destruct text; [apply term_map_nodup|constructor]. Qed.

Lemma update_other_key m old new d k :
  ~ ft_key t ff o k -> last_op k (fst (stage_fulltext_update m t ff o old new d)) = None.
Proof.
  intros Hk. assert (Hp : forall term, k <> pk term) by (intros term ->; apply Hk; right; eauto).
  unfold stage_fulltext_update. cbn [fst]. rewrite !last_op_app.
  rewrite last_op_doc_row by (intros ->; apply Hk; by left).
  unfold removed_terms. rewrite last_op_keys_none by done. destruct new; cbn [fmap option_fmap option_map]; [|done].
  unfold put_terms. by rewrite last_op_keys_none.
Qed.

Lemma update_doc_row m old new d :
  last_op dk (fst (stage_fulltext_update m t ff o old new d)) =
    last_op dk (doc_row_write dk (bool_decide (is_Some old)) (ft_len (indexed_text m dk old)) (ft_len new)).
Proof.
  unfold stage_fulltext_update. cbn [fst]. rewrite !last_op_app.
  assert (Hp : forall term, dk <> pk term) by (intros term E; by symmetry in E; apply posting_key_doc in E).
  unfold removed_terms. rewrite last_op_keys_none by done. fold (ft_len (indexed_text m dk old)) (ft_len new).
  destruct (last_op dk (doc_row_write _ _ _ _)); [done|].
  destruct new; cbn [fmap option_fmap option_map]; [|done]. unfold put_terms. by rewrite last_op_keys_none.
Qed.

Lemma update_posting_row m old new d term :
  let was := indexed_text m dk old in
  last_op (pk term) (fst (stage_fulltext_update m t ff o old new d)) =
    match bm_get term (ft_terms new) with
    | Some ps =>
        if bool_decide (bm_get term (ft_terms was) = Some ps) && opt_eqb (ft_len was) (ft_len new) then None
        else Some ((fun l => encode_posting l ps (ff_positions ff)) <$> ft_len new)
    | None => if bm_get term (ft_terms was) then Some None else None
    end.
Proof.
  intros was. unfold stage_fulltext_update. cbn [fst]. rewrite !last_op_app, last_op_doc_row by apply posting_key_doc.
  fold was (ft_terms was) (ft_terms new) (ft_len was) (ft_len new).
  unfold removed_terms. rewrite last_op_map_keys by apply ft_terms_nodup. cbn [fst].
  destruct new as [x|]; cbn [fmap option_fmap option_map ft_len].
  - unfold put_terms. rewrite last_op_map_keys by apply id_terms_nodup. cbn [fst snd].
    change (ft_terms (Some x)) with (id_terms (tokenize_for_index ff x)).
    destruct (bm_get term (id_terms (tokenize_for_index ff x))) as [ps|]; [|by destruct (bm_get term (ft_terms was))].
    destruct (bool_decide _ && _); cbn [negb]; [by destruct (bm_get term (ft_terms was))|done].
  - cbn. by destruct (bm_get term (ft_terms was)).
Qed.

Lemma indexed_text_holds m old :
  holds_rows t ff o m old \/ holds_rows t ff o m None -> holds_rows t ff o m (indexed_text m dk old).
Proof.
  unfold indexed_text. intros [H|H]; pose proof (H dk (or_introl eq_refl)) as E; rewrite ft_rows_doc in E.
  - destruct old; [by rewrite E|done].
  - change (bm_get dk m = None) in E. rewrite E. by destruct old.
Qed.

Lemma ft_rows_posting' text term :
  bm_get (pk term) (ft_rows t ff o text) =
    match bm_get term (ft_terms text) with
    | Some ps => (fun l => encode_posting l ps (ff_positions ff)) <$> ft_len text
    | None => None
    end.
Proof. rewrite ft_rows_posting. destruct text as [x|]; [|done]. cbn. by case_match. Qed.

Lemma ft_rows_doc' text : bm_get dk (ft_rows t ff o text) = encode_doc_len <$> ft_len text.
Proof. rewrite ft_rows_doc. by destruct text. Qed.

(** C26: incremental full-text updates.  If the store holds exactly the rows of
    the old value of a field (or none, when the object was never indexed), the
    writes of an update leave it holding exactly the rows that indexing the new
    value from scratch writes, and touch no other key; updating a value to
    itself writes nothing; and the statistics move by the difference between
    what is indexed after and before. *)
Theorem fulltext_update_exact m old new d :
  bsorted m -> holds_rows t ff o m old \/ holds_rows t ff o m None ->
  let '(ws, d') := stage_fulltext_update m t ff o old new d in
  let was := indexed_text m dk old in
  holds_rows t ff o (apply_ops ws m) new /\
  (forall k, ~ ft_key t ff o k -> bm_get k (apply_ops ws m) = bm_get k m) /\
  (was = new -> is_Some new -> ws = []) /\
  d' = delta_add d t (ff_field_id ff)
    (b2i (bool_decide (is_Some (ft_len new))) - b2i (bool_decide (is_Some (ft_len was))))
    (default 0 (ft_len new) - default 0 (ft_len was)).
Proof.
  intros Hs Hold. apply indexed_text_holds in Hold as Hw. destruct (stage_fulltext_update m t ff o old new d) as [ws d'] eqn:Eu.
  intros was. assert (Ews : ws = fst (stage_fulltext_update m t ff o old new d)) by by rewrite Eu. split_and!.
  - intros k Hk. rewrite bm_get_apply_ops, Ews by done. destruct Hk as [->|(term & ->)].
    + rewrite update_doc_row, (Hw dk) by (by left). rewrite !ft_rows_doc'. fold was. unfold doc_row_write.
      destruct (ft_len new) as [l|] eqn:El.
      * destruct (opt_eqb_spec (ft_len was) (Some l)) as [E|]; [by rewrite E|]. cbn [last_op fst snd].
        by destruct (beqb_spec dk dk).
      * case_bool_decide as Ho; cbn [last_op fst snd]; [by destruct (beqb_spec dk dk)|].
        subst was. destruct old; [by destruct Ho|done].
    + rewrite update_posting_row, (Hw (pk term)) by (right; eauto). rewrite !ft_rows_posting'. fold was.
      destruct (bm_get term (ft_terms new)) as [ps|] eqn:E1; [|by destruct (bm_get term (ft_terms was))].
      case_bool_decide as E2; cbn [andb]; [|done]. rewrite E2.
      by destruct (opt_eqb_spec (ft_len was) (ft_len new)) as [->|].
  - intros k Hk. by rewrite bm_get_apply_ops, Ews, update_other_key.
  - intros Heq [x ->]. rewrite Ews. unfold stage_fulltext_update. cbn [fst]. fold was. rewrite Heq.
    unfold removed_terms, put_terms, doc_row_write. cbn [fmap option_fmap option_map from_option id opt_eqb].
    rewrite Z.eqb_refl, !filter_false; [done|..].
    + intros [k ps] Hin. cbn [fst snd]. apply bm_get_in in Hin; [|apply term_map_sorted].
      change (default [] (Some ?l)) with l. by rewrite bool_decide_true by done.
    + intros [k ps] Hin. cbn [fst]. apply bm_get_in in Hin; [|apply term_map_sorted].
      change (default [] (Some ?l)) with l. by rewrite Hin.
  - injection Eu as _ <-. done.
Qed.
End theorems.

(** Prefix clauses.  The rows under the scan prefix of a term prefix are
    exactly the postings of the terms that start with it; and a term's posting
    key gives back the encoded term and the object. *)
Theorem term_prefix_exact t f g o p term :
  (KeyBuilder.fulltext_term_prefix t f g (encode_term_prefix p)
     `prefix_of` KeyBuilder.fulltext_posting t f g (encode_term term) o <-> p `prefix_of` term) /\
  (is_u64 o -> KeyBuilder.fulltext_object_id (KeyBuilder.fulltext_posting t f g (encode_term term) o) = Some o) /\
  KeyBuilder.fulltext_posting_term (KeyBuilder.fulltext_posting t f g (encode_term term) o) = Some (encode_term term).
Proof.
  unfold KeyBuilder.fulltext_term_prefix, KeyBuilder.fulltext_posting. rewrite encode_term_prefix_escape. split_and!.
  - unfold encode_term, encode_str_for_index, encode_bytes_for_index. split.
    + intros H. apply prefix_app_inv in H. rewrite <- app_assoc in H. by eapply escape_prefix.
    + intros [z ->]. apply prefix_app. rewrite escape_app, <- !app_assoc. by apply prefix_app_r.
  - intros Ho. unfold KeyBuilder.fulltext_object_id, len. rewrite !length_app, put_fulltext_prefix_length, length_be64.
    destruct (Z.ltb_spec (Z.of_nat (25 + (List.length (encode_term term) + 8))) (FULLTEXT_PREFIX_LEN + 8));
      [unfold FULLTEXT_PREFIX_LEN in *; lia|].
    rewrite app_assoc, drop_app_length'; [by rewrite from_be64|]. rewrite length_app, put_fulltext_prefix_length. lia.
  - unfold KeyBuilder.fulltext_posting_term, len. rewrite !length_app, put_fulltext_prefix_length, length_be64.
    assert (H2 : (2 <= List.length (encode_term term))%nat)
      by (unfold encode_term, encode_str_for_index, encode_bytes_for_index; rewrite length_app; cbn; lia).
    destruct (Z.ltb_spec (Z.of_nat (25 + (List.length (encode_term term) + 8))) (FULLTEXT_PREFIX_LEN + 2 + 8));
      [unfold FULLTEXT_PREFIX_LEN in *; lia|].
    rewrite app_assoc, take_app_length' by (rewrite length_app, put_fulltext_prefix_length; lia).
    rewrite drop_app_length' by (rewrite put_fulltext_prefix_length; done).
    assert (Ed : drop (List.length (encode_term term) - 2) (encode_term term) = [x00; x00]).
    { unfold encode_term, encode_str_for_index, encode_bytes_for_index. apply drop_app_length'. rewrite length_app. cbn. lia. }
    by rewrite Ed.
Qed.

(** ** Witnesses *)

(** Words are separated by spaces; letters are lower-cased one byte at a time. *)
Definition toy_words (s : bytes) : list bytes :=
  List.filter (fun w => match w with [] => false | _ => true end)
    (fold_right (fun b ws => if b2z b =? 32 then [] :: ws else
       match ws with w :: ws => (b :: w) :: ws | [] => [[b]] end) [[]] s).

Definition toy_text : TextLib := {|
  unicode_words := toy_words;
  to_lowercase := map (fun b => if in_range 65 90 b then z2b (b2z b + 32) else b);
  nfkd := chars;
  stem := fun w => w;
|}.

Definition ff_ex : FulltextField := {|
  ff_name := bs "title"; ff_field_id := 3; ff_generation := 1; ff_analyzer := English; ff_positions := true |}.

Definition ft_old := bs "The state of the art art".
Definition ft_new := bs "state of the union".
Definition ft_store : bmap bytes := bm_insert_all (ft_rows (T := toy_text) 2 ff_ex 9 (Some ft_old)) [([x61], [x62])].

Example tokenize_example :
  id_terms (tokenize_for_index (T := toy_text) ff_ex ft_old) = [(bs "art", [4; 5]); (bs "state", [1])].
Proof. by vm_compute. Qed.

Lemma tokenized_postings_decode_witness :
  decode_posting (encode_posting 3 [4; 5] true) = DOk {| doc_len := 3; tf := 2; p_positions := [4; 5] |}.
Proof.
  destruct (tokenized_postings_decode (T := toy_text) ff_ex ft_old) as (_ & _ & _ & H).
  assert (E : id_doc_len (tokenize_for_index (T := toy_text) ff_ex ft_old) = 3) by by vm_compute.
  rewrite E in H. destruct (H (bs "art") [4; 5]) as (_ & _ & H'); [|exact H'].
  rewrite tokenize_example. by left.
Defined.

Definition ft_writes : list op :=
  Eval vm_compute in fst (stage_fulltext_update (T := toy_text) ft_store 2 ff_ex 9 (Some ft_old) (Some ft_new) ∅).

Lemma ft_store_sorted : bsorted ft_store.
Proof. apply bsorted_insert_all. repeat constructor. Qed.

Lemma ft_store_holds : holds_rows (T := toy_text) 2 ff_ex 9 ft_store (Some ft_old).
Proof.
  intros k [->|(term & ->)]; [by vm_compute|]. unfold ft_store.
  rewrite assoc_insert_all; [|repeat constructor|apply (bool_decide_unpack (NoDup _)); by vm_compute].
  by destruct (bm_get (posting_key 2 ff_ex 9 term) (ft_rows 2 ff_ex 9 (Some ft_old))).
Qed.

Lemma ft_stage : stage_fulltext_update (T := toy_text) ft_store 2 ff_ex 9 (Some ft_old) (Some ft_new) ∅
  = (ft_writes, {[ (2, 3) := (0, -1) ]}).
Proof. by vm_compute. Qed.

Lemma fulltext_update_exact_witness :
  holds_rows (T := toy_text) 2 ff_ex 9 (apply_ops ft_writes ft_store) (Some ft_new) /\ List.length ft_writes = 4%nat.
Proof.
  split; [|done].
  pose proof (fulltext_update_exact (T := toy_text) 2 ff_ex 9 ft_store (Some ft_old) (Some ft_new) ∅
    ft_store_sorted (or_introl ft_store_holds)) as H.
  rewrite ft_stage in H. apply H.
Defined.

Lemma term_prefix_exact_witness :
  KeyBuilder.fulltext_object_id (KeyBuilder.fulltext_posting 2 3 1 (encode_term (bs "art")) 9) = Some 9 /\
  KeyBuilder.fulltext_term_prefix 2 3 1 (encode_term_prefix (bs "ar"))
    `prefix_of` KeyBuilder.fulltext_posting 2 3 1 (encode_term (bs "art")) 9.
Proof.
  destruct (term_prefix_exact 2 3 1 9 (bs "ar") (bs "art")) as (H1 & H2 & _). split.
  - apply H2. by vm_compute.
  - apply H1. by exists [x74].
Defined.
