(* ===== verification/Engine.v ===== *)
(** * The object engine (crates/rhypedb-engine/src/database.rs)

    Objects, edges and indexes as rows of the storage.  An operation reads the
    snapshot its transaction began with, a sorted map [m] ([Store]), and stages
    a list of writes; reads never see the staged writes.  [version_counters] is
    the shared map of object generations, read and bumped outside the
    transaction.

    The caches built when a database is opened ([open_caches]) are fields of
    [Database].  Change events, statistics of the full-text index beyond their
    deltas, and field-type migrations in flight are outside the model. *)

From Stdlib Require Import ZArith Lia Bool List Strings.Byte Strings.String.
From stdpp Require Import base tactics option list gmap.
From S2P Require Import Prelude ByteMap Keys Values Ieee Schema IndexKeys Posting Store Utf8 Fulltext.

Local Open Scope Z_scope.
Local Open Scope bytes_scope.

(** ** Errors *)

Inductive EngineError :=
| TypeNotFound (name : bytes)
| ObjectNotFound (type_name : bytes) (object_id : Z)
| FieldNotFound (type_name field : bytes)
| TypeMismatch (field : bytes)
| UniqueViolation (type_name field : bytes)
| DeleteDenied (type_name : bytes) (object_id : Z) (referencing_type referencing_field : bytes)
| TypeRetired (name : bytes) (id : Z)
| FieldRetired (type_name field : bytes)
| RelationRetired (type_name relation : bytes) (relation_id : Z)
| FulltextNotEnabled (type_name field : bytes)
| FulltextQuery
| FulltextIndexBuilding (type_name field : bytes)
| FulltextScanBudgetExceeded (type_name field : bytes)
| FulltextDeadlineExceeded (type_name field : bytes)
| FulltextIndexCorrupt (type_name field : bytes).

(** Results; [EPanic] is a failed index or a corrupt blob, [EFuel] a recursion
    that ran out of fuel. *)
Inductive eres (A : Type) :=
| EOk (a : A)
| EErr (e : EngineError)
| EPanic
| EFuel.
Arguments EOk {A} a.
Arguments EErr {A} e.
Arguments EPanic {A}.
Arguments EFuel {A}.

#[global] Instance eres_bind : MBind eres := fun A B f m =>
  match m with EOk a => f a | EErr e => EErr e | EPanic => EPanic | EFuel => EFuel end.

Definition ok_or {A} (o : option A) (e : EngineError) : eres A :=
  match o with Some a => EOk a | None => EErr e end.

(** [map[&key]]: panics on a missing key. *)
Definition idx {A} (o : option A) : eres A := match o with Some a => EOk a | None => EPanic end.

Definition of_res {A} (r : res A) : eres A := match r with Ok a => EOk a | _ => EPanic end.

Lemma ebind_ok {A B} (m : eres A) (f : A -> eres B) b :
  m ≫= f = EOk b -> exists a, m = EOk a /\ f a = EOk b.
Proof. destruct m; cbn; try done. eauto. Qed.

(** ** The database *)

Record IncomingRelation := {
  source_type_id : Z;
  source_type : bytes;
  source_field : bytes;
  inc_rel_id : Z;
  inc_is_many : bool;
  policy : OnDeletePolicy;
}.

Record ForwardRelMeta := {
  fr_field_name : bytes;
  fr_rel_id : Z;
  fr_is_many : bool;
}.

Record CascadeMeta := {
  cm_type_name : bytes;
  has_unique : bool;
  has_indexed : bool;
  has_scalar : bool;
  forward_relations : list ForwardRelMeta;
}.

(** The incoming relations are listed with the id of their target type. *)
Record Database := {
  schema : Schema;
  type_ids : bmap Z;
  rel_ids : bmap Z;
  field_ids : bmap Z;
  tombstoned_type_ids : list Z;
  tombstoned_rel_ids : list Z;
  tombstoned_field_quals : list bytes;
  retired_field_names_by_type : bmap (list bytes);
  incoming_relations : list (Z * IncomingRelation);
  cascade_meta_by_id : list (Z * CascadeMeta);
  indexed_fields : bmap (list IndexedField);
  fulltext_fields : bmap (list FulltextField);
}.

Definition mem_z (x : Z) (l : list Z) : bool := existsb (Z.eqb x) l.

Fixpoint zget {V} (k : Z) (m : list (Z * V)) : option V :=
  match m with [] => None | (k', v) :: m => if k =? k' then Some v else zget k m end.

(** ** The caches of an open database *)

Section caches.
Variables (sch : Schema) (tids rids fids : bmap Z).

(** The default policy: remove the edges of a many-relation, refuse otherwise. *)
Definition default_policy (f : FieldDef) (rel : RelationType) : OnDeletePolicy :=
  default (if is_many rel then Remove else Deny) (on_delete f).

Fixpoint incoming_of_fields (name : bytes) (tid : Z) (fs : list FieldDef) : eres (list (Z * IncomingRelation)) :=
  match fs with
  | [] => EOk []
  | f :: fs =>
      match field_type f, inverse f with
      | Relation rel, None =>
          rid ← idx (bm_get (qualified name (fd_name f)) rids);
          target ← idx (bm_get (target_type rel) tids);
          rest ← incoming_of_fields name tid fs;
          EOk ((target, {| source_type_id := tid; source_type := name; source_field := fd_name f; inc_rel_id := rid;
                           inc_is_many := is_many rel; policy := default_policy f rel |}) :: rest)
      | _, _ => incoming_of_fields name tid fs
      end
  end.

Fixpoint build_incoming (ts : list (bytes * TypeDef)) : eres (list (Z * IncomingRelation)) :=
  match ts with
  | [] => EOk []
  | (name, td) :: ts =>
      tid ← idx (bm_get name tids);
      a ← incoming_of_fields name tid (fields td);
      b ← build_incoming ts;
      EOk (a ++ b)
  end.

Fixpoint forward_of_fields (name : bytes) (fs : list FieldDef) : eres (list ForwardRelMeta) :=
  match fs with
  | [] => EOk []
  | f :: fs =>
      match field_type f, inverse f with
      | Relation rel, None =>
          rid ← idx (bm_get (qualified name (fd_name f)) rids);
          rest ← forward_of_fields name fs;
          EOk ({| fr_field_name := fd_name f; fr_rel_id := rid; fr_is_many := is_many rel |} :: rest)
      | _, _ => forward_of_fields name fs
      end
  end.

Fixpoint build_cascade_meta (ts : list (bytes * TypeDef)) : eres (list (Z * CascadeMeta)) :=
  match ts with
  | [] => EOk []
  | (name, td) :: ts =>
      tid ← idx (bm_get name tids);
      fwd ← forward_of_fields name (fields td);
      rest ← build_cascade_meta ts;
      EOk ((tid, {| cm_type_name := name; has_unique := existsb is_unique (fields td);
                    has_indexed := existsb is_indexed (fields td);
                    has_scalar := existsb (fun f => match field_type f with Scalar _ => true | _ => false end) (fields td);
                    forward_relations := fwd |}) :: rest)
  end.

Fixpoint indexed_of_fields (name : bytes) (fs : list FieldDef) : eres (list IndexedField) :=
  match fs with
  | [] => EOk []
  | f :: fs =>
      if is_indexed f then
        fid ← idx (bm_get (qualified name (fd_name f)) fids);
        rest ← indexed_of_fields name fs;
        EOk ({| if_name := fd_name f; if_field_id := fid; if_kind := indexed_kind (field_type f) |} :: rest)
      else indexed_of_fields name fs
  end.

(** Types without indexed fields have no entry. *)
Fixpoint build_indexed (ts : list (bytes * TypeDef)) : eres (bmap (list IndexedField)) :=
  match ts with
  | [] => EOk []
  | (name, td) :: ts =>
      l ← indexed_of_fields name (fields td);
      rest ← build_indexed ts;
      EOk (match l with [] => rest | _ => (name, l) :: rest end)
  end.
End caches.

(** ** Helpers *)

(** The iteration order of a [HashMap]: some permutation of its entries.
    [json_eqb] is the equality of JSON documents. *)
Class EngineLib {J : Json} := {
  hash_order : FieldMap -> list (bytes * Value);
  json_eqb : json -> json -> bool;
}.

Class EngineLibLaws {J : Json} (L : EngineLib) : Prop := {
  hash_order_perm fm : hash_order fm ≡ₚ fm;
}.

Section engine.
Context {J : Json} {T : TextLib} {L : EngineLib}.

(** [PartialEq] of [Value]: floats by their numeric value. *)
Definition value_eqb (a b : Value) : bool :=
  match a, b with
  | VString x, VString y | VBytes x, VBytes y => beqb x y
  | VU32 x, VU32 y | VU64 x, VU64 y | VI32 x, VI32 y | VI64 x, VI64 y | VDateTime x, VDateTime y => x =? y
  | VF32 x, VF32 y => f_eq (f64_of (f32_to_f64 x)) (f64_of (f32_to_f64 y))
  | VF64 x, VF64 y => f_eq (f64_of x) (f64_of y)
  | VBool x, VBool y => Bool.eqb x y
  | VJson x, VJson y => json_eqb x y
  | VNull, VNull => true
  | _, _ => false
  end.

Definition opt_value_eqb (a b : option Value) : bool :=
  match a, b with Some x, Some y => value_eqb x y | None, None => true | _, _ => false end.

Definition ser (fm : FieldMap) : bytes := serialize_fields (hash_order fm).
Definition des (data : bytes) : eres FieldMap := of_res (deserialize_fields data).

Definition Counters : Type := gmap (Z * Z) Z.

Variable db : Database.

Definition resolve_type_id (type_name : bytes) : eres Z :=
  type_id ← ok_or (bm_get type_name (type_ids db)) (TypeNotFound type_name);
  if mem_z type_id (tombstoned_type_ids db) then EErr (TypeRetired type_name type_id) else EOk type_id.

Definition field_retired_error (type_name field : bytes) : option EngineError :=
  if existsb (beqb (qualified type_name field)) (tombstoned_field_quals db)
  then Some (FieldRetired type_name field) else None.

Definition schema_type (type_name : bytes) : eres TypeDef :=
  ok_or (get_type (schema db) type_name) (TypeNotFound type_name).

Definition ends_with (s suffix : bytes) : bool := beqb (drop (List.length s - List.length suffix) s) suffix.

Definition is_shadow_sibling_key (key : bytes) : bool :=
  ends_with key (bs "__shadow") || ends_with key (bs "__shadow_cv").

Definition strip_tombstoned_fields (type_name : bytes) (fm : FieldMap) : FieldMap :=
  let fm := match bm_get type_name (retired_field_names_by_type db) with
    | Some retired => List.filter (fun e => negb (existsb (beqb (fst e)) retired)) fm
    | None => fm
    end in
  List.filter (fun e => negb (is_shadow_sibling_key (fst e))) fm.

(** ** Generations *)

Definition object_version (vc : Counters) (type_name : bytes) (object_id : Z) : Z :=
  match bm_get type_name (type_ids db) with
  | None => 0
  | Some type_id => default 0 (vc !! (type_id, object_id))
  end.

Definition bump_version (vc : Counters) (type_id object_id : Z) : Z * Counters :=
  let v := as_u64 (default 0 (vc !! (type_id, object_id)) + 1) in
  (v, <[(type_id, object_id) := v]> vc).

Definition rollback_version (vc : Counters) (type_id object_id : Z) : Counters :=
  match vc !! (type_id, object_id) with
  | None => vc
  | Some v =>
      let v := if 0 <? v then v - 1 else v in
      if v =? 0 then delete (type_id, object_id) vc else <[(type_id, object_id) := v]> vc
  end.

Definition forget_version (vc : Counters) (type_id object_id : Z) : Counters := delete (type_id, object_id) vc.

(** ** Scans *)

(** The id at the end of a key. *)
Definition key_id (key : bytes) : Z := from_be (drop (List.length key - 8) key).

Definition scan_prefix_raw (m : bmap bytes) (prefix : bytes) : list (Z * bytes) :=
  map (fun e => (key_id (fst e), snd e))
    (List.filter (fun e => (8 <=? List.length (fst e))%nat) (rows_under prefix m)).

Fixpoint decode_edge_entries (entries : list (bytes * bytes)) : eres (list (Z * FieldMap)) :=
  match entries with
  | [] => EOk []
  | (key, value) :: entries =>
      if (List.length key <? 8)%nat then decode_edge_entries entries
      else
        edge_fields ← match value with [] => EOk [] | _ => des value end;
        rest ← decode_edge_entries entries;
        EOk ((key_id key, edge_fields) :: rest)
  end.

Definition scan_prefix (m : bmap bytes) (prefix : bytes) : eres (list (Z * FieldMap)) :=
  decode_edge_entries (rows_under prefix m).

(** ** Covers *)

(** A forward relation to one object, not the other side of an inverse. *)
Definition forward_1to1 (f : FieldDef) : bool :=
  match field_type f, inverse f with Relation rel, None => negb (is_many rel) | _, _ => false end.

Definition cover_name (name : bytes) : bytes := name ++ bs "__cover".
Definition cover_v_name (name : bytes) : bytes := name ++ bs "__cover_v".

(** The loop of [with_nested_forward_covers]. *)
Fixpoint nested_covers (m : bmap bytes) (vc : Counters) (type_name : bytes) (target_id : Z) (fs : list FieldDef)
    (effective : FieldMap) (wrote_any : bool) : eres (FieldMap * bool) :=
  match fs with
  | [] => EOk (effective, wrote_any)
  | f :: fs =>
      match field_type f with
      | Relation rel =>
          if is_many rel || bool_decide (is_Some (inverse f)) then
            nested_covers m vc type_name target_id fs effective wrote_any
          else
            match bm_get (qualified type_name (fd_name f)) (rel_ids db) with
            | None => nested_covers m vc type_name target_id fs effective wrote_any
            | Some rel_id =>
                entries ← scan_prefix m (KeyBuilder.edge_prefix target_id rel_id);
                match entries, bm_get (target_type rel) (type_ids db) with
                | (next_tid, _) :: _, Some next_type_id =>
                    match bm_get (KeyBuilder.object next_type_id next_tid) m with
                    | Some next_data =>
                        let effective := bm_insert (fd_name f) (VU64 next_tid) effective in
                        let effective := bm_insert (cover_name (fd_name f)) (VBytes next_data) effective in
                        let next_v := object_version vc (target_type rel) next_tid in
                        let effective := bm_insert (cover_v_name (fd_name f)) (VU64 next_v) effective in
                        nested_covers m vc type_name target_id fs effective true
                    | None => nested_covers m vc type_name target_id fs effective wrote_any
                    end
                | _, _ => nested_covers m vc type_name target_id fs effective wrote_any
                end
            end
      | _ => nested_covers m vc type_name target_id fs effective wrote_any
      end
  end.

Definition with_nested_forward_covers (m : bmap bytes) (vc : Counters) (type_name : bytes) (target_data : bytes)
    (target_id : Z) : eres bytes :=
  match get_type (schema db) type_name with
  | None => EOk target_data
  | Some type_def =>
      if negb (existsb forward_1to1 (fields type_def)) then EOk target_data
      else
        effective ← des target_data;
        '(effective, wrote_any) ← nested_covers m vc type_name target_id (fields type_def) effective false;
        EOk (if negb wrote_any then target_data else ser effective)
  end.

(** The other forward targets of an object, by field. *)
Fixpoint other_targets_of (m : bmap bytes) (src_type : bytes) (source_id : Z) (field_name : bytes) (fs : list FieldDef)
    : eres (list (bytes * Z)) :=
  match fs with
  | [] => EOk []
  | other :: fs =>
      if beqb (fd_name other) field_name || negb (forward_1to1 other) then
        other_targets_of m src_type source_id field_name fs
      else
        match bm_get (qualified src_type (fd_name other)) (rel_ids db) with
        | None => other_targets_of m src_type source_id field_name fs
        | Some other_rel_id =>
            entries ← scan_prefix m (KeyBuilder.edge_prefix source_id other_rel_id);
            rest ← other_targets_of m src_type source_id field_name fs;
            EOk (match entries with (existing, _) :: _ => (fd_name other, existing) :: rest | [] => rest end)
        end
  end.

(** Embed the data and the generation of each of them. *)
Fixpoint embed_covers (m : bmap bytes) (vc : Counters) (type_def : TypeDef) (others : list (bytes * Z)) (effective : FieldMap)
    : eres FieldMap :=
  match others with
  | [] => EOk effective
  | (name, tid) :: others =>
      match get_field type_def name with
      | Some {| field_type := Relation rel |} =>
          match bm_get (target_type rel) (type_ids db) with
          | None => embed_covers m vc type_def others effective
          | Some target_type_id =>
              match bm_get (KeyBuilder.object target_type_id tid) m with
              | None => embed_covers m vc type_def others effective
              | Some target_data =>
                  nested ← with_nested_forward_covers m vc (target_type rel) target_data tid;
                  let effective := bm_insert (cover_name name) (VBytes nested) effective in
                  let target_version := object_version vc (target_type rel) tid in
                  embed_covers m vc type_def others (bm_insert (cover_v_name name) (VU64 target_version) effective)
              end
          end
      | _ => embed_covers m vc type_def others effective
      end
  end.

Definition build_covering_rev_value (m : bmap bytes) (vc : Counters) (src_type : bytes) (source_id : Z)
    (source_data : option bytes) (field_name : bytes) (target_id : Z) : eres bytes :=
  match get_type (schema db) src_type with
  | None => EOk []
  | Some type_def =>
      other_targets ← other_targets_of m src_type source_id field_name (fields type_def);
      match other_targets with
      | [] => EOk []
      | _ =>
          effective ← match source_data with Some b => des b | None => EOk [] end;
          let effective := bm_insert field_name (VU64 target_id) effective in
          let effective := fold_left (fun e o => bm_insert (fst o) (VU64 (snd o)) e) other_targets effective in
          effective ← embed_covers m vc type_def other_targets effective;
          EOk (ser effective)
      end
  end.

(** ** Unique index *)

Definition id_bytes (b : bytes) : eres Z := if (8 <=? List.length b)%nat then EOk (from_be (take 8 b)) else EPanic.

(** The write of the unique row; [staged] are the rows this transaction has
    already claimed. *)
Definition check_unique_and_insert (m : bmap bytes) (type_name : bytes) (type_id : Z) (field_name : bytes) (value : Value)
    (object_id : Z) (staged : bmap Z) : eres (list op * bmap Z) :=
  field_id ← idx (bm_get (qualified type_name field_name) (field_ids db));
  let unique_key := KeyBuilder.unique_index type_id field_id (value_to_index_bytes value) in
  let insert := EOk ([(unique_key, Some (be64 object_id))], bm_insert unique_key object_id staged) in
  let claimed := match bm_get unique_key staged with Some id => negb (id =? object_id) | None => false end in
  if claimed then EErr (UniqueViolation type_name field_name)
  else
    match bm_get unique_key m with
    | Some existing =>
        existing_id ← id_bytes existing;
        if negb (existing_id =? object_id) then EErr (UniqueViolation type_name field_name) else insert
    | None => insert
    end.

Definition remove_unique_index (type_name : bytes) (type_id : Z) (field_name : bytes) (value : Value) : eres (list op) :=
  field_id ← idx (bm_get (qualified type_name field_name) (field_ids db));
  EOk [(KeyBuilder.unique_index type_id field_id (value_to_index_bytes value), None)].

(** ** Secondary indexes *)

Definition insert_field_index (type_id field_id : Z) (kind : IndexedKind) (value : Value) (object_id : Z) (covering : bytes)
    : list op :=
  match build_field_index_key type_id field_id kind value object_id with
  | Some key => [(key, Some covering)]
  | None => []
  end.

Definition remove_field_index (type_id field_id : Z) (kind : IndexedKind) (value : Value) (object_id : Z) : list op :=
  match build_field_index_key type_id field_id kind value object_id with
  | Some key => [(key, None)]
  | None => []
  end.

(** A field that is present and not null. *)
Definition non_null (o : option Value) : option Value :=
  match o with Some v => if is_null v then None else Some v | None => None end.

(** ** Create *)

Record Link := {
  l_field : bytes;
  l_target_id : Z;
  l_target_type : bytes;
  l_target_data : bytes;
  l_target_version : Z;
  l_rel_id : Z;
  l_is_1to1 : bool;
}.

Definition relation_target (value : Value) : option Z :=
  match value with
  | VU64 v | VU32 v => Some v
  | VI32 v | VI64 v => if 0 <=? v then Some v else None
  | _ => None
  end.

(** The first pass of [stage_create_writes]: scalar fields and links. *)
Fixpoint split_fields (m : bmap bytes) (vc : Counters) (type_name : bytes) (type_def : TypeDef)
    (fs : list (bytes * Value)) (scalars : FieldMap) (links : list Link) : eres (FieldMap * list Link) :=
  match fs with
  | [] => EOk (scalars, links)
  | (field_name, value) :: fs =>
      field_def ← ok_or (get_field type_def field_name) (FieldNotFound type_name field_name);
      if negb (validate_value field_def value) then EErr (TypeMismatch (fd_name field_def))
      else
        match field_type field_def with
        | Relation rel =>
            if bool_decide (is_Some (inverse field_def)) then EErr (TypeMismatch (fd_name field_def))
            else if is_null value then split_fields m vc type_name type_def fs scalars links
            else
              target_id ← ok_or (relation_target value) (TypeMismatch (fd_name field_def));
              target_type_id ← ok_or (bm_get (target_type rel) (type_ids db)) (TypeNotFound (target_type rel));
              target_data ← ok_or (bm_get (KeyBuilder.object target_type_id target_id) m)
                (ObjectNotFound (target_type rel) target_id);
              rel_id ← ok_or (bm_get (qualified type_name field_name) (rel_ids db)) (FieldNotFound type_name field_name);
              split_fields m vc type_name type_def fs scalars
                (links ++ [{| l_field := field_name; l_target_id := target_id; l_target_type := target_type rel;
                              l_target_data := target_data;
                              l_target_version := object_version vc (target_type rel) target_id;
                              l_rel_id := rel_id; l_is_1to1 := negb (is_many rel) |}])
        | Scalar _ => split_fields m vc type_name type_def fs (bm_insert field_name value scalars) links
        | VectorT _ => EErr (TypeMismatch (fd_name field_def))
        end
  end.

Fixpoint stage_unique (m : bmap bytes) (type_name : bytes) (type_def : TypeDef) (type_id object_id : Z)
    (fs : list (bytes * Value)) (staged : bmap Z) : eres (list op * bmap Z) :=
  match fs with
  | [] => EOk ([], staged)
  | (field_name, value) :: fs =>
      field_def ← idx (get_field type_def field_name);
      if is_unique field_def && negb (is_null value) then
        '(w, staged) ← check_unique_and_insert m type_name type_id field_name value object_id staged;
        '(ws, staged) ← stage_unique m type_name type_def type_id object_id fs staged;
        EOk (w ++ ws, staged)
      else stage_unique m type_name type_def type_id object_id fs staged
  end.

Definition index_puts (type_name : bytes) (type_id object_id : Z) (fm : FieldMap) (covering : bytes) : list op :=
  List.concat (map (fun ifd =>
    match non_null (bm_get (if_name ifd) fm) with
    | Some value => insert_field_index type_id (if_field_id ifd) (if_kind ifd) value object_id covering
    | None => []
    end) (default [] (bm_get type_name (indexed_fields db)))).

(** The full-text rows of a new object and their statistics. *)
Definition text_of (o : option Value) : option bytes := match o with Some (VString s) => Some s | _ => None end.

Definition fulltext_puts (type_name : bytes) (type_id object_id : Z) (fm : FieldMap) (d : StatsDelta)
    : list op * StatsDelta :=
  fold_left (fun '(ws, d) ff =>
    match text_of (bm_get (ff_name ff) fm) with
    | Some text =>
        let doc := tokenize_for_index ff text in
        (ws ++ map (fun e => (fst e, Some (snd e))) (stage_doc_puts type_id ff object_id doc []),
         delta_add d type_id (ff_field_id ff) 1 (id_doc_len doc))
    | None => (ws, d)
    end) (default [] (bm_get type_name (fulltext_fields db))) ([], d).

(** The links other than the one at position [i] that point to one object. *)
Definition peers (i : nat) (links : list Link) : list Link :=
  List.filter l_is_1to1 (take i links ++ drop (S i) links).

Fixpoint inflight_covers (m : bmap bytes) (vc : Counters) (others : list Link) (effective : FieldMap) : eres FieldMap :=
  match others with
  | [] => EOk effective
  | l :: others =>
      nested ← with_nested_forward_covers m vc (l_target_type l) (l_target_data l) (l_target_id l);
      let effective := bm_insert (cover_name (l_field l)) (VBytes nested) effective in
      inflight_covers m vc others (bm_insert (cover_v_name (l_field l)) (VU64 (l_target_version l)) effective)
  end.

Definition build_inflight_cover (m : bmap bytes) (vc : Counters) (scalars : FieldMap) (this_field : bytes)
    (this_target : Z) (links : list Link) (this_idx : nat) : eres bytes :=
  match peers this_idx links with
  | [] => EOk []
  | other_1to1 =>
      let effective := bm_insert this_field (VU64 this_target) scalars in
      let effective := fold_left (fun e l => bm_insert (l_field l) (VU64 (l_target_id l)) e) other_1to1 effective in
      effective ← inflight_covers m vc other_1to1 effective;
      EOk (ser effective)
  end.

Fixpoint edge_puts (m : bmap bytes) (vc : Counters) (scalars : FieldMap) (object_id : Z) (links : list Link)
    (i : nat) (todo : list Link) : eres (list op) :=
  match todo with
  | [] => EOk []
  | l :: todo =>
      rev_value ← build_inflight_cover m vc scalars (l_field l) (l_target_id l) links i;
      rest ← edge_puts m vc scalars object_id links (S i) todo;
      EOk ((KeyBuilder.edge object_id (l_rel_id l) (l_target_id l), Some [])
             :: (KeyBuilder.reverse_edge (l_target_id l) (l_rel_id l) object_id, Some rev_value) :: rest)
  end.

(** The writes of one new object, unique rows first: they are issued at once,
    the others are flushed by the caller. *)
Record Staged := {
  s_unique : list op;
  s_puts : list op;
  s_claimed : bmap Z;
  s_delta : StatsDelta;
  s_scalars : FieldMap;
  s_counters : Counters;
}.

Definition stage_create_writes (m : bmap bytes) (vc : Counters) (type_name : bytes) (type_def : TypeDef)
    (type_id object_id : Z) (fs : FieldMap) (claimed : bmap Z) (d : StatsDelta) : eres Staged :=
  '(scalars, links) ← split_fields m vc type_name type_def (hash_order fs) [] [];
  let serialized := ser scalars in
  '(unique, claimed) ← stage_unique m type_name type_def type_id object_id (hash_order scalars) claimed;
  let index := index_puts type_name type_id object_id scalars serialized in
  let '(ft, d) := fulltext_puts type_name type_id object_id scalars d in
  edges ← edge_puts m vc scalars object_id links 0 links;
  EOk {| s_unique := unique;
         s_puts := index ++ ft ++ [(KeyBuilder.object type_id object_id, Some serialized)] ++ edges;
         s_claimed := claimed; s_delta := d; s_scalars := scalars;
         s_counters := snd (bump_version vc type_id object_id) |}.

Record Obj := { obj_type : bytes; obj_id : Z; obj_fields : FieldMap }.

(** The staging of [create]: the writes, the object and the counters; the
    object id is fetched by the caller. *)
Definition create (m : bmap bytes) (vc : Counters) (type_name : bytes) (object_id : Z) (fs : FieldMap)
    : eres (list op * Obj * Counters * StatsDelta) :=
  type_id ← resolve_type_id type_name;
  type_def ← schema_type type_name;
  st ← stage_create_writes m vc type_name type_def type_id object_id fs [] ∅;
  EOk (s_unique st ++ s_puts st, {| obj_type := type_name; obj_id := object_id; obj_fields := s_scalars st |},
       s_counters st, s_delta st).

(** The rows of [create_batch], each with the id fetched for it.  When a row
    fails, the generations of the rows before it are rolled back. *)
Fixpoint stage_rows (m : bmap bytes) (vc : Counters) (type_name : bytes) (type_def : TypeDef) (type_id : Z)
    (rows : list (Z * FieldMap)) (claimed : bmap Z) (d : StatsDelta)
    : eres (list op * list op * list Obj * Counters * StatsDelta) :=
  match rows with
  | [] => EOk ([], [], [], vc, d)
  | (object_id, fs) :: rows =>
      st ← stage_create_writes m vc type_name type_def type_id object_id fs claimed d;
      '(unique, puts, objs, vc, d) ←
        stage_rows m (s_counters st) type_name type_def type_id rows (s_claimed st) (s_delta st);
      EOk (s_unique st ++ unique, s_puts st ++ puts,
           {| obj_type := type_name; obj_id := object_id; obj_fields := s_scalars st |} :: objs, vc, d)
  end.

Definition create_batch (m : bmap bytes) (vc : Counters) (type_name : bytes) (rows : list (Z * FieldMap))
    : eres (list op * list Obj * Counters * StatsDelta) :=
  match rows with
  | [] => EOk ([], [], vc, ∅)
  | _ =>
      type_id ← resolve_type_id type_name;
      type_def ← schema_type type_name;
      '(unique, puts, objs, vc, d) ← stage_rows m vc type_name type_def type_id rows [] ∅;
      EOk (unique ++ puts, objs, vc, d)
  end.

(** ** Update *)

Fixpoint validate_updates (type_name : bytes) (type_def : TypeDef) (updates : list (bytes * Value)) : eres unit :=
  match updates with
  | [] => EOk tt
  | (field_name, value) :: updates =>
      field_def ← ok_or (get_field type_def field_name)
        (default (FieldNotFound type_name field_name) (field_retired_error type_name field_name));
      if negb (validate_value field_def value) then EErr (TypeMismatch (fd_name field_def))
      else validate_updates type_name type_def updates
  end.

Fixpoint update_unique (m : bmap bytes) (type_name : bytes) (type_def : TypeDef) (type_id object_id : Z) (old : FieldMap)
    (updates : list (bytes * Value)) (staged : bmap Z) : eres (list op) :=
  match updates with
  | [] => EOk []
  | (field_name, value) :: updates =>
      field_def ← idx (get_field type_def field_name);
      if is_unique field_def then
        w1 ← match non_null (bm_get field_name old) with
             | Some old_value => remove_unique_index type_name type_id field_name old_value
             | None => EOk []
             end;
        '(w2, staged) ← (if is_null value then EOk ([], staged)
                         else check_unique_and_insert m type_name type_id field_name value object_id staged);
        ws ← update_unique m type_name type_def type_id object_id old updates staged;
        EOk (w1 ++ w2 ++ ws)
      else update_unique m type_name type_def type_id object_id old updates staged
  end.

Definition update_fulltext (m : bmap bytes) (type_name : bytes) (type_id object_id : Z) (old updates : FieldMap)
    : list op * StatsDelta :=
  fold_left (fun '(ws, d) ff =>
    match bm_get (ff_name ff) updates with
    | Some new_value =>
        let '(w, d) := stage_fulltext_update m type_id ff object_id (text_of (bm_get (ff_name ff) old))
          (text_of (Some new_value)) d in
        (ws ++ w, d)
    | None => (ws, d)
    end) (default [] (bm_get type_name (fulltext_fields db))) ([], ∅).

(** The index part of [rewrite_object_and_maintain_covers], for one field. *)
Definition rewrite_index (type_id object_id : Z) (old new : FieldMap) (serialized : bytes) (any_update : bool)
    (ifd : IndexedField) : list op :=
  let old_value := bm_get (if_name ifd) old in
  let new_value := bm_get (if_name ifd) new in
  let insert := match non_null new_value with
    | Some v => insert_field_index type_id (if_field_id ifd) (if_kind ifd) v object_id serialized
    | None => []
    end in
  if negb (opt_value_eqb old_value new_value) then
    match non_null old_value with
    | Some v => remove_field_index type_id (if_field_id ifd) (if_kind ifd) v object_id
    | None => []
    end ++ insert
  else if any_update then insert else [].

Fixpoint refresh_targets (m : bmap bytes) (vc : Counters) (type_name : bytes) (object_id : Z) (source_data : option bytes)
    (field_name : bytes) (rel_id : Z) (entries : list (Z * FieldMap)) : eres (list op) :=
  match entries with
  | [] => EOk []
  | (target_id, _) :: entries =>
      rev_value ← build_covering_rev_value m vc type_name object_id source_data field_name target_id;
      rest ← refresh_targets m vc type_name object_id source_data field_name rel_id entries;
      EOk ((KeyBuilder.reverse_edge target_id rel_id object_id, Some rev_value) :: rest)
  end.

Fixpoint refresh_fields (m : bmap bytes) (vc : Counters) (type_name : bytes) (object_id : Z) (source_data : option bytes)
    (fs : list FieldDef) : eres (list op) :=
  match fs with
  | [] => EOk []
  | f :: fs =>
      match field_type f, inverse f, bm_get (qualified type_name (fd_name f)) (rel_ids db) with
      | Relation _, None, Some rel_id =>
          entries ← scan_prefix m (KeyBuilder.edge_prefix object_id rel_id);
          ws ← refresh_targets m vc type_name object_id source_data (fd_name f) rel_id entries;
          rest ← refresh_fields m vc type_name object_id source_data fs;
          EOk (ws ++ rest)
      | _, _, _ => refresh_fields m vc type_name object_id source_data fs
      end
  end.

Definition refresh_outbound_rev_edges (m : bmap bytes) (vc : Counters) (type_name : bytes) (object_id : Z)
    (source_data : option bytes) : eres (list op) :=
  match get_type (schema db) type_name with
  | None => EOk []
  | Some type_def =>
      if negb (existsb forward_1to1 (fields type_def)) then EOk []
      else refresh_fields m vc type_name object_id source_data (fields type_def)
  end.

Definition rewrite_object_and_maintain_covers (m : bmap bytes) (vc : Counters) (type_name : bytes) (type_id object_id : Z)
    (old new : FieldMap) (serialized : bytes) (any_update : bool) : eres (list op * Counters) :=
  let index := List.concat (map (rewrite_index type_id object_id old new serialized any_update)
    (default [] (bm_get type_name (indexed_fields db)))) in
  edges ← refresh_outbound_rev_edges m vc type_name object_id (Some serialized);
  let '(new_version, vc) := bump_version vc type_id object_id in
  EOk (index ++ edges ++ [(KeyBuilder.object_version type_id object_id, Some (be64 new_version))], vc).

(** The staging of [update]; the caller rolls the generation back when the
    commit fails. *)
Definition update (m : bmap bytes) (vc : Counters) (type_name : bytes) (object_id : Z) (updates : FieldMap)
    : eres (list op * Obj * Counters * StatsDelta) :=
  type_id ← resolve_type_id type_name;
  type_def ← schema_type type_name;
  _ ← validate_updates type_name type_def (hash_order updates);
  let key := KeyBuilder.object type_id object_id in
  existing_data ← ok_or (bm_get key m) (ObjectNotFound type_name object_id);
  old ← des existing_data;
  unique ← update_unique m type_name type_def type_id object_id old (hash_order updates) [];
  let '(ft, d) := update_fulltext m type_name type_id object_id old updates in
  let any_update := negb (List.length updates =? 0)%nat in
  let new := bm_insert_all updates old in
  let serialized := ser new in
  '(ws, vc) ← rewrite_object_and_maintain_covers m vc type_name type_id object_id old new serialized any_update;
  EOk (unique ++ ft ++ ws ++ [(key, Some serialized)],
       {| obj_type := type_name; obj_id := object_id; obj_fields := new |}, vc, d).

(** ** Delete *)

(** The walk of a cascade: the objects reached, the keys to delete (the arena)
    and the statistics. *)
Record Walk := {
  w_deleted : list (Z * Z);
  w_arena : list bytes;
  w_delta : StatsDelta;
}.

Definition mem_zz (x : Z * Z) (l : list (Z * Z)) : bool := existsb (fun y => (fst x =? fst y) && (snd x =? snd y)) l.

Definition push (w : Walk) (keys : list bytes) (d : StatsDelta) : Walk :=
  {| w_deleted := w_deleted w; w_arena := w_arena w ++ keys; w_delta := d |}.

Fixpoint unique_tombstones (type_name : bytes) (type_id : Z) (fm : FieldMap) (fs : list FieldDef) : eres (list bytes) :=
  match fs with
  | [] => EOk []
  | f :: fs =>
      match (if is_unique f then non_null (bm_get (fd_name f) fm) else None) with
      | Some value =>
          field_id ← idx (bm_get (qualified type_name (fd_name f)) (field_ids db));
          rest ← unique_tombstones type_name type_id fm fs;
          EOk (KeyBuilder.unique_index type_id field_id (value_to_index_bytes value) :: rest)
      | None => unique_tombstones type_name type_id fm fs
      end
  end.

Definition index_tombstone (type_id object_id : Z) (ifd : IndexedField) (value : Value) : option bytes :=
  match if_kind ifd with
  | KInteger => (fun e => KeyBuilder.field_index type_id (if_field_id ifd) e object_id) <$> encode_int_for_zone value
  | KBool => (fun e => KeyBuilder.field_index type_id (if_field_id ifd) e object_id) <$> encode_bool_for_index value
  | KFloat => (fun e => KeyBuilder.field_index type_id (if_field_id ifd) e object_id) <$> encode_float_for_index value
  | KString =>
      match value with
      | VString s => Some (KeyBuilder.field_index_var type_id (if_field_id ifd) (encode_str_for_index s) object_id)
      | _ => None
      end
  | KBytes =>
      match value with
      | VBytes b => Some (KeyBuilder.field_index_var type_id (if_field_id ifd) (encode_bytes_for_index b) object_id)
      | _ => None
      end
  end.

Definition index_tombstones (type_name : bytes) (type_id object_id : Z) (fm : FieldMap) : list bytes :=
  omap (fun ifd => value ← non_null (bm_get (if_name ifd) fm); index_tombstone type_id object_id ifd value)
    (default [] (bm_get type_name (indexed_fields db))).

Definition fulltext_tombstones (m : bmap bytes) (type_name : bytes) (type_id object_id : Z) (fm : FieldMap) (d : StatsDelta)
    : list bytes * StatsDelta :=
  fold_left (fun '(ks, d) ff =>
    match text_of (bm_get (ff_name ff) fm) with
    | Some text =>
        let dk := doc_key type_id ff object_id in
        match bm_get dk m with
        | None => (ks ++ [dk], d)
        | Some _ =>
            let doc := tokenize_for_index ff text in
            (ks ++ map (fun e => posting_key type_id ff object_id (fst e)) (id_terms doc) ++ [dk],
             delta_add d type_id (ff_field_id ff) (-1) (- id_doc_len doc))
        end
    | None => (ks, d)
    end) (default [] (bm_get type_name (fulltext_fields db))) ([], d).

(** The index rows of the object, read from its blob when the type needs it. *)
Definition payload_tombstones (m : bmap bytes) (meta : CascadeMeta) (type_id object_id : Z) (verify_exists : bool)
    (d : StatsDelta) : eres (list bytes * StatsDelta) :=
  if has_unique meta || has_indexed meta || has_scalar meta || verify_exists then
    match bm_get (KeyBuilder.object type_id object_id) m with
    | None => if verify_exists then EErr (ObjectNotFound (cm_type_name meta) object_id) else EOk ([], d)
    | Some data =>
        fm ← des data;
        u ← match (if has_unique meta then get_type (schema db) (cm_type_name meta) else None) with
            | Some type_def => unique_tombstones (cm_type_name meta) type_id fm (fields type_def)
            | None => EOk []
            end;
        let '(ft, d) := fulltext_tombstones m (cm_type_name meta) type_id object_id fm d in
        EOk (u ++ index_tombstones (cm_type_name meta) type_id object_id fm ++ ft, d)
    end
  else EOk ([], d).

(** Both directions of an edge. *)
Definition edge_pair (source rel_id target : Z) : list bytes :=
  [KeyBuilder.edge source rel_id target; KeyBuilder.reverse_edge target rel_id source].

(** The inbound relations: the edges to delete and the objects to cascade to
    (with the relation and the cover that led there), or the relation that
    denies the delete. *)
Fixpoint inbound (m : bmap bytes) (object_id : Z) (incoming : list IncomingRelation)
    (keys : list bytes) (cascades : list (Z * Z * Z * bytes))
    : (bytes * bytes) + (list bytes * list (Z * Z * Z * bytes)) :=
  match incoming with
  | [] => inr (keys, cascades)
  | inc :: incoming =>
      let reverse_edges := scan_prefix_raw m (KeyBuilder.reverse_edge_prefix object_id (inc_rel_id inc)) in
      match reverse_edges with
      | [] => inbound m object_id incoming keys cascades
      | _ =>
          let pairs := List.concat (map (fun e => edge_pair (fst e) (inc_rel_id inc) object_id) reverse_edges) in
          match policy inc with
          | Deny => inl (source_type inc, source_field inc)
          | Remove => inbound m object_id incoming (keys ++ pairs) cascades
          | Cascade => inbound m object_id incoming (keys ++ pairs)
              (cascades ++ map (fun e => (source_type_id inc, fst e, inc_rel_id inc, snd e)) reverse_edges)
          end
      end
  end.

(** The peers found in the cover that led here: the edges and their relations. *)
Definition covered_edges (object_id : Z) (meta : CascadeMeta) (ctx : option (Z * bytes)) : list bytes * list Z :=
  match ctx with
  | None => ([], [])
  | Some (parent_rel_id, cover) =>
      let found := match cover with
        | [] => []
        | _ => omap (fun rel =>
            if fr_is_many rel || (fr_rel_id rel =? parent_rel_id) then None
            else (fun t => (fr_rel_id rel, t)) <$> find_u64_field_in_raw cover (fr_field_name rel)) (forward_relations meta)
        end in
      (List.concat (map (fun rt => edge_pair object_id (fst rt) (snd rt)) found), parent_rel_id :: map fst found)
  end.

Definition outbound_edges (m : bmap bytes) (object_id : Z) (meta : CascadeMeta) (covered : list Z) : list bytes :=
  List.concat (map (fun rel =>
    if mem_z (fr_rel_id rel) covered then []
    else List.concat (map (fun e => edge_pair object_id (fr_rel_id rel) (fst e))
           (scan_prefix_raw m (KeyBuilder.edge_prefix object_id (fr_rel_id rel))))) (forward_relations meta)).

(** The object's own rows; the generation row exists once it was updated. *)
Definition own_rows (vc : Counters) (type_id object_id : Z) : list bytes :=
  KeyBuilder.object type_id object_id
    :: match vc !! (type_id, object_id) with
       | Some v => if 1 <? v then [KeyBuilder.object_version type_id object_id] else []
       | None => []
       end.

(** The recursion over the objects to cascade to. *)
Definition cascade_loop (rec : Z -> Z -> Walk -> option (Z * bytes) -> eres Walk) :=
  fix go (l : list (Z * Z * Z * bytes)) (w : Walk) : eres Walk :=
    match l with
    | [] => EOk w
    | (t, o, r, cover) :: l => w ← rec t o w (Some (r, cover)); go l w
    end.

(** [delete_inner]; each level of the recursion takes one unit of fuel. *)
Fixpoint delete_inner (fuel : nat) (m : bmap bytes) (vc : Counters) (type_id object_id : Z) (verify_exists : bool)
    (w : Walk) (ctx : option (Z * bytes)) : eres Walk :=
  match fuel with
  | O => EFuel
  | S fuel =>
      if mem_zz (type_id, object_id) (w_deleted w) then EOk w
      else
        let w := {| w_deleted := (type_id, object_id) :: w_deleted w; w_arena := w_arena w; w_delta := w_delta w |} in
        meta ← ok_or (zget type_id (cascade_meta_by_id db)) (TypeNotFound []);
        '(keys, d) ← payload_tombstones m meta type_id object_id verify_exists (w_delta w);
        let incoming := map snd (List.filter (fun i => fst i =? type_id) (incoming_relations db)) in
        match inbound m object_id incoming [] [] with
        | inl (rt, rf) => EErr (DeleteDenied (cm_type_name meta) object_id rt rf)
        | inr (pairs, cascades) =>
            w ← cascade_loop (fun t o w ctx => delete_inner fuel m vc t o false w ctx) cascades (push w (keys ++ pairs) d);
            let '(found, covered) := covered_edges object_id meta ctx in
            EOk (push w (found ++ outbound_edges m object_id meta covered ++ own_rows vc type_id object_id) (w_delta w))
        end
  end.

(** The staging of [delete]; after the commit the generations of the deleted
    objects are forgotten. *)
Definition delete_object (fuel : nat) (m : bmap bytes) (vc : Counters) (type_name : bytes) (object_id : Z)
    : eres (list op * list (Z * Z) * StatsDelta) :=
  type_id ← resolve_type_id type_name;
  w ← delete_inner fuel m vc type_id object_id true {| w_deleted := []; w_arena := []; w_delta := ∅ |} None;
  EOk (map (fun k => (k, None)) (w_arena w), w_deleted w, w_delta w).

Definition forget_deleted (vc : Counters) (deleted : list (Z * Z)) : Counters :=
  fold_left (fun vc d => forget_version vc (fst d) (snd d)) deleted vc.

(** ** Links *)

Fixpoint validate_edge_fields (src_type field_name : bytes) (defs : list EdgeFieldDef) (ef : list (bytes * Value)) : eres unit :=
  match ef with
  | [] => EOk tt
  | (name, value) :: ef =>
      edge_def ← ok_or (List.find (fun e => beqb (ef_name e) name) defs) (FieldNotFound (qualified src_type field_name) name);
      if negb (validate_edge_value edge_def value) then EErr (TypeMismatch name)
      else validate_edge_fields src_type field_name defs ef
  end.

Definition link (m : bmap bytes) (vc : Counters) (src_type : bytes) (source_id : Z) (field_name : bytes) (target_id : Z)
    (edge_fs : option FieldMap) : eres (list op) :=
  src_type_id ← resolve_type_id src_type;
  type_def ← schema_type src_type;
  field ← ok_or (get_field type_def field_name)
    (default (FieldNotFound src_type field_name) (field_retired_error src_type field_name));
  rel ← match field_type field with Relation r => EOk r | _ => EErr (FieldNotFound src_type field_name) end;
  _ ← match edge_fs with
      | Some ef => validate_edge_fields src_type field_name (edge_fields rel) (hash_order ef)
      | None => EOk tt
      end;
  target_type_id ← resolve_type_id (target_type rel);
  source_data ← ok_or (bm_get (KeyBuilder.object src_type_id source_id) m) (ObjectNotFound src_type source_id);
  _ ← ok_or (bm_get (KeyBuilder.object target_type_id target_id) m) (ObjectNotFound (target_type rel) target_id);
  rel_id ← idx (bm_get (qualified src_type field_name) (rel_ids db));
  if mem_z rel_id (tombstoned_rel_ids db) then EErr (RelationRetired src_type field_name rel_id)
  else
    let edge_value := match edge_fs with Some ef => ser ef | None => [] end in
    rev_value ← build_covering_rev_value m vc src_type source_id (Some source_data) field_name target_id;
    EOk [(KeyBuilder.edge source_id rel_id target_id, Some edge_value);
         (KeyBuilder.reverse_edge target_id rel_id source_id, Some rev_value)].

Definition unlink (src_type : bytes) (source_id : Z) (field_name : bytes) (target_id : Z) : eres (list op) :=
  _ ← resolve_type_id src_type;
  rel_id ← ok_or (bm_get (qualified src_type field_name) (rel_ids db)) (FieldNotFound src_type field_name);
  if mem_z rel_id (tombstoned_rel_ids db) then EErr (RelationRetired src_type field_name rel_id)
  else EOk [(KeyBuilder.edge source_id rel_id target_id, None); (KeyBuilder.reverse_edge target_id rel_id source_id, None)].

Definition get_links (m : bmap bytes) (src_type : bytes) (source_id : Z) (field_name : bytes) : eres (list (Z * FieldMap)) :=
  _ ← resolve_type_id src_type;
  type_def ← schema_type src_type;
  field ← ok_or (get_field type_def field_name)
    (default (FieldNotFound src_type field_name) (field_retired_error src_type field_name));
  match inverse field with
  | Some inv =>
      inv_rel_id ← ok_or (bm_get (qualified (inv_type_name inv) (inv_field_name inv)) (rel_ids db))
        (FieldNotFound (inv_type_name inv) (inv_field_name inv));
      scan_prefix m (KeyBuilder.reverse_edge_prefix source_id inv_rel_id)
  | None =>
      rel_id ← ok_or (bm_get (qualified src_type field_name) (rel_ids db)) (FieldNotFound src_type field_name);
      scan_prefix m (KeyBuilder.edge_prefix source_id rel_id)
  end.

(** ** Renewing the covers of an updated object *)

(** [refresh_covers_for_target], run by the background worker: the sources are
    found at one snapshot and rewritten on another. *)
Definition cover_sources (m : bmap bytes) (target_type_id target_id : Z) : list (Z * Z) :=
  List.concat (map (fun i =>
    if inc_is_many (snd i) then []
    else map (fun e => (source_type_id (snd i), fst e))
           (scan_prefix_raw m (KeyBuilder.reverse_edge_prefix target_id (inc_rel_id (snd i)))))
    (List.filter (fun i => fst i =? target_type_id) (incoming_relations db))).

Definition type_name_by_id (type_id : Z) : option bytes :=
  fst <$> List.find (fun e => snd e =? type_id) (type_ids db).

Fixpoint refresh_sources (m : bmap bytes) (vc : Counters) (sources : list (Z * Z)) : eres (list op) :=
  match sources with
  | [] => EOk []
  | (s_type_id, s_id) :: sources =>
      match type_name_by_id s_type_id, bm_get (KeyBuilder.object s_type_id s_id) m with
      | Some s_type_name, Some s_bytes =>
          ws ← refresh_outbound_rev_edges m vc s_type_name s_id (Some s_bytes);
          rest ← refresh_sources m vc sources;
          EOk (ws ++ rest)
      | _, _ => refresh_sources m vc sources
      end
  end.

Definition refresh_covers_for_target (m_read m : bmap bytes) (vc : Counters) (target_type_id target_id : Z) : eres (list op) :=
  refresh_sources m vc (cover_sources m_read target_type_id target_id).

(** ** Reads *)

Definition decode_object (type_name : bytes) (object_id : Z) (data : bytes) : eres Obj :=
  fm ← des data;
  EOk {| obj_type := type_name; obj_id := object_id; obj_fields := strip_tombstoned_fields type_name fm |}.

Definition get (m : bmap bytes) (type_name : bytes) (object_id : Z) : eres Obj :=
  type_id ← resolve_type_id type_name;
  data ← ok_or (bm_get (KeyBuilder.object type_id object_id) m) (ObjectNotFound type_name object_id);
  decode_object type_name object_id data.

Definition find_by_unique_at (m : bmap bytes) (type_name field_name : bytes) (value : Value) : eres (option Obj) :=
  type_id ← resolve_type_id type_name;
  match bm_get (qualified type_name field_name) (field_ids db) with
  | None => EOk None
  | Some field_id =>
      match bm_get (KeyBuilder.unique_index type_id field_id (value_to_index_bytes value)) m with
      | None => EOk None
      | Some b =>
          if (List.length b <? 8)%nat then EOk None
          else
            let object_id := from_be (take 8 b) in
            match bm_get (KeyBuilder.object type_id object_id) m with
            | None => EOk None
            | Some data => o ← decode_object type_name object_id data; EOk (Some o)
            end
      end
  end.
End engine.
