(* ===== verification/EngineEdges.v ===== *)
(** * Edges and their reverses

    Every edge is stored twice, by source and by target.  The writes of every
    operation keep the two in step, under any interleaving of transactions. *)

From Stdlib Require Import ZArith Lia Bool List Strings.Byte Strings.String.
From stdpp Require Import base tactics option list gmap.
From S2P Require Import Prelude ByteMap Keys Store Values Schema IndexKeys Posting Fulltext Engine.

Local Open Scope Z_scope.
Local Open Scope bytes_scope.

(** * The rows of the engine

    The families of keys the engine writes, told apart by their first byte, and
    the injectivity of their constructors; and what the writes of a transaction
    do to one family. *)

Lemma be_mod n x : be n (x mod 256 ^ Z.of_nat n) = be n x.
Proof.
  apply from_be_inj; [by rewrite !length_be|]. rewrite !from_be_be_mod. apply Z.mod_mod. lia.
Qed.

Lemma be64_as_u64 x : be64 (as_u64 x) = be64 x.
Proof. apply (be_mod 8). Qed.

(** ** Families *)

Definition in_family (p : KeyPrefix) (k : bytes) : Prop := head k = Some (prefix_u8 p).

(** Every write is in the family. *)
Definition only (ps : list KeyPrefix) (ws : list op) : Prop :=
  Forall (fun o => exists p, In p ps /\ in_family p (fst o)) ws.

Lemma prefix_u8_inj p q : prefix_u8 p = prefix_u8 q -> p = q.
Proof. by destruct p, q. Qed.

Lemma only_nil ps : only ps [].
Proof. constructor. Qed.

Lemma only_app ps a b : only ps (a ++ b) <-> only ps a /\ only ps b.
Proof. unfold only. by rewrite Forall_app. Qed.

Lemma only_cons ps o ws : only ps (o :: ws) <-> (exists p, In p ps /\ in_family p (fst o)) /\ only ps ws.
Proof. unfold only. by rewrite Forall_cons. Qed.

Lemma only_mono ps qs ws : (forall p, In p ps -> In p qs) -> only ps ws -> only qs ws.
Proof. intros H Hw. eapply Forall_impl; [exact Hw|]. intros o (p & Hp & Ho). eauto. Qed.

Lemma only_concat ps (l : list (list op)) : Forall (only ps) l -> only ps (List.concat l).
Proof. induction 1; cbn [List.concat]; [apply only_nil|]. by apply only_app. Qed.

(** A key outside the families of the writes is not written. *)
Lemma last_op_only ps q k ws : only ps ws -> in_family q k -> ~ In q ps -> last_op k ws = None.
Proof.
  intros Ho Hk Hq. apply last_op_none. intros Hin. apply in_map_iff in Hin as (o & <- & Ho').
  unfold only in Ho. rewrite List.Forall_forall in Ho. destruct (Ho o Ho') as (p & Hp & Hf). unfold in_family in *.
  rewrite Hf in Hk. injection Hk as E. apply prefix_u8_inj in E. by subst.
Qed.

(** ** Injectivity *)

Lemma be64_app_inj a b x y : be64 a ++ x = be64 b ++ y -> be64 a = be64 b /\ x = y.
Proof. intros H. by apply app_inj_1 in H; [|rewrite !length_be64]. Qed.

Lemma cons_inj_1 {A} (x y : A) l k : x :: l = y :: k -> x = y /\ l = k.
Proof. by intros [= -> ->]. Qed.

(** Splits an equation between two keys into equations between their parts, up
    to truncation. *)
Ltac split_key H :=
  cbn [app] in H;
  repeat match type of H with
  | _ :: _ = _ :: _ => apply cons_tail_inj in H
  | be64 _ ++ _ = be64 _ ++ _ => let E := fresh "E" in apply be64_app_inj in H as [E H]; cbn [app] in H
  end.

Lemma object_inj t o t' o' : KeyBuilder.object t o = KeyBuilder.object t' o' -> be64 t = be64 t' /\ be64 o = be64 o'.
Proof. unfold KeyBuilder.object. intros H. split_key H. done. Qed.

Lemma edge_inj s r t s' r' t' :
  KeyBuilder.edge s r t = KeyBuilder.edge s' r' t' -> be64 s = be64 s' /\ be64 r = be64 r' /\ be64 t = be64 t'.
Proof. unfold KeyBuilder.edge. intros H. split_key H. done. Qed.

Lemma reverse_edge_inj s r t s' r' t' :
  KeyBuilder.reverse_edge s r t = KeyBuilder.reverse_edge s' r' t' ->
  be64 s = be64 s' /\ be64 r = be64 r' /\ be64 t = be64 t'.
Proof. unfold KeyBuilder.reverse_edge. intros H. split_key H. done. Qed.

(** An edge and its reverse determine each other. *)
Lemma edge_flip s r t s' r' t' :
  KeyBuilder.edge s r t = KeyBuilder.edge s' r' t' <-> KeyBuilder.reverse_edge t r s = KeyBuilder.reverse_edge t' r' s'.
Proof.
  split; intros H; [apply edge_inj in H as (H1 & H2 & H3)|apply reverse_edge_inj in H as (H1 & H2 & H3)];
    unfold KeyBuilder.edge, KeyBuilder.reverse_edge; by rewrite H1, H2, H3.
Qed.

Lemma unique_index_inj t f b t' f' b' :
  KeyBuilder.unique_index t f b = KeyBuilder.unique_index t' f' b' -> be64 t = be64 t' /\ be64 f = be64 f' /\ b = b'.
Proof. unfold KeyBuilder.unique_index. intros H. split_key H. done. Qed.

(** ** Scans of edges *)

Lemma key_id_edge s r t : key_id (KeyBuilder.edge s r t) = as_u64 t.
Proof.
  unfold key_id, KeyBuilder.edge. rewrite !app_assoc, drop_app_length' by (rewrite !length_app, !length_be64; cbn; lia).
  apply (from_be_be_mod 8).
Qed.

Lemma key_id_reverse_edge s r t : key_id (KeyBuilder.reverse_edge s r t) = as_u64 t.
Proof.
  unfold key_id, KeyBuilder.reverse_edge. rewrite !app_assoc, drop_app_length' by (rewrite !length_app, !length_be64; cbn; lia).
  apply (from_be_be_mod 8).
Qed.

Lemma edge_prefix_of s r s' r' t' :
  KeyBuilder.edge_prefix s r `prefix_of` KeyBuilder.edge s' r' t' -> be64 s = be64 s' /\ be64 r = be64 r'.
Proof. unfold KeyBuilder.edge_prefix, KeyBuilder.edge. intros [z H]. rewrite <- !app_assoc in H. symmetry in H. split_key H. done. Qed.

Lemma reverse_edge_prefix_of s r s' r' t' :
  KeyBuilder.reverse_edge_prefix s r `prefix_of` KeyBuilder.reverse_edge s' r' t' -> be64 s = be64 s' /\ be64 r = be64 r'.
Proof.
  unfold KeyBuilder.reverse_edge_prefix, KeyBuilder.reverse_edge. intros [z H]. rewrite <- !app_assoc in H. symmetry in H.
  split_key H. done.
Qed.

(** A row under the prefix of an edge is the edge to its id. *)
Lemma edge_row s r s' r' t' :
  KeyBuilder.edge_prefix s r `prefix_of` KeyBuilder.edge s' r' t' ->
  KeyBuilder.edge s' r' t' = KeyBuilder.edge s r (key_id (KeyBuilder.edge s' r' t')).
Proof.
  intros H. apply edge_prefix_of in H as [E1 E2]. rewrite key_id_edge. unfold KeyBuilder.edge.
  by rewrite be64_as_u64, E1, E2.
Qed.

Lemma reverse_edge_row s r s' r' t' :
  KeyBuilder.reverse_edge_prefix s r `prefix_of` KeyBuilder.reverse_edge s' r' t' ->
  KeyBuilder.reverse_edge s' r' t' = KeyBuilder.reverse_edge s r (key_id (KeyBuilder.reverse_edge s' r' t')).
Proof.
  intros H. apply reverse_edge_prefix_of in H as [E1 E2]. rewrite key_id_reverse_edge. unfold KeyBuilder.reverse_edge.
  by rewrite be64_as_u64, E1, E2.
Qed.

(** * Edges and their reverses *)

(** ** The invariant *)

Definition mirror (m : bmap bytes) : Prop :=
  forall s r t, is_Some (bm_get (KeyBuilder.edge s r t) m) <-> is_Some (bm_get (KeyBuilder.reverse_edge t r s) m).

(** The rows of the two families are edges. *)
Definition edges_shaped (m : bmap bytes) : Prop :=
  forall k, is_Some (bm_get k m) ->
    (in_family Keys.Edge k -> exists s r t, k = KeyBuilder.edge s r t) /\
    (in_family ReverseEdge k -> exists t r s, k = KeyBuilder.reverse_edge t r s).

(** Writes that keep the two directions in step on the snapshot [m]: both
    written, both deleted, or only the value of a reverse edge renewed. *)
Definition edge_writes (m : bmap bytes) (ws : list op) : Prop :=
  forall s r t, match last_op (KeyBuilder.edge s r t) ws, last_op (KeyBuilder.reverse_edge t r s) ws with
  | None, None => True
  | Some a, Some b => is_Some a <-> is_Some b
  | None, Some b => is_Some b /\ is_Some (bm_get (KeyBuilder.reverse_edge t r s) m)
  | Some _, None => False
  end.

Definition edge_keys_written (ws : list op) : Prop :=
  forall k x, last_op k ws = Some x ->
    (in_family Keys.Edge k -> exists s r t, k = KeyBuilder.edge s r t) /\
    (in_family ReverseEdge k -> exists t r s, k = KeyBuilder.reverse_edge t r s).

(** The commit condition: the written keys have not changed since. *)
Definition unchanged (ws : list op) (m m' : bmap bytes) : Prop :=
  forall k, In k (map fst ws) -> bm_get k m = bm_get k m'.

Lemma unchanged_last ws m m' k x : unchanged ws m m' -> last_op k ws = Some x -> bm_get k m = bm_get k m'.
Proof. intros H E. apply H. apply last_op_some in E. by apply (in_map fst) in E. Qed.

Lemma mirror_preserved m m' ws :
  bsorted m' -> mirror m' -> unchanged ws m m' -> edge_writes m ws -> mirror (apply_ops ws m').
Proof.
  intros Hs Hm Hu Hw s r t. rewrite !bm_get_apply_ops by done. specialize (Hw s r t).
  destruct (last_op (KeyBuilder.edge s r t) ws) as [a|] eqn:Ea, (last_op (KeyBuilder.reverse_edge t r s) ws) as [b|] eqn:Eb;
    [done|done| |by apply Hm].
  destruct Hw as [Hb Hp]. rewrite (unchanged_last _ _ _ _ _ Hu Eb) in Hp. apply Hm in Hp. by split.
Qed.

Lemma edges_shaped_preserved m ws : bsorted m -> edges_shaped m -> edge_keys_written ws -> edges_shaped (apply_ops ws m).
Proof.
  intros Hs Hm Hw k. rewrite bm_get_apply_ops by done. destruct (last_op k ws) as [x|] eqn:E; [|by apply Hm].
  intros _. by eapply Hw.
Qed.

(** ** Building blocks *)

Lemma edge_family s r t : in_family Keys.Edge (KeyBuilder.edge s r t).
Proof. done. Qed.
Lemma reverse_family t r s : in_family ReverseEdge (KeyBuilder.reverse_edge t r s).
Proof. done. Qed.

Definition no_edges (ps : list KeyPrefix) : Prop := ~ In Keys.Edge ps /\ ~ In ReverseEdge ps.

Lemma only_edges_none ps ws s r t : no_edges ps -> only ps ws ->
  last_op (KeyBuilder.edge s r t) ws = None /\ last_op (KeyBuilder.reverse_edge t r s) ws = None.
Proof. intros [H1 H2] Ho. split; eapply last_op_only; eauto using edge_family, reverse_family. Qed.

Lemma edge_writes_only ps m ws : no_edges ps -> only ps ws -> edge_writes m ws.
Proof. intros Hp Ho s r t. by destruct (only_edges_none ps ws s r t Hp Ho) as [-> ->]. Qed.

Lemma edge_writes_app_l ps m a b : no_edges ps -> only ps a -> edge_writes m b -> edge_writes m (a ++ b).
Proof.
  intros Hp Ho Hb s r t. rewrite !last_op_app. destruct (only_edges_none ps a s r t Hp Ho) as [-> ->].
  specialize (Hb s r t). revert Hb. by destruct (last_op (KeyBuilder.edge s r t) b), (last_op (KeyBuilder.reverse_edge t r s) b).
Qed.

Lemma edge_writes_app_r ps m a b : no_edges ps -> only ps b -> edge_writes m a -> edge_writes m (a ++ b).
Proof.
  intros Hp Ho Ha s r t. rewrite !last_op_app. destruct (only_edges_none ps b s r t Hp Ho) as [-> ->]. apply Ha.
Qed.

(** Edges put or deleted in both directions. *)
Inductive pairs : list op -> Prop :=
| pairs_nil : pairs []
| pairs_cons s r t a b ws : (is_Some a <-> is_Some b) -> pairs ws ->
    pairs ((KeyBuilder.edge s r t, a) :: (KeyBuilder.reverse_edge t r s, b) :: ws).

Lemma pairs_app a b : pairs a -> pairs b -> pairs (a ++ b).
Proof. induction 1; [done|]. intros. cbn [app]. constructor; auto. Qed.

Lemma edge_not_reverse s r t t' r' s' : KeyBuilder.edge s r t <> KeyBuilder.reverse_edge t' r' s'.
Proof. done. Qed.

Lemma pairs_last ws s r t : pairs ws ->
  match last_op (KeyBuilder.edge s r t) ws, last_op (KeyBuilder.reverse_edge t r s) ws with
  | None, None => True
  | Some a, Some b => is_Some a <-> is_Some b
  | _, _ => False
  end.
Proof.
  induction 1 as [|s' r' t' a b ws Hab _ IH]; [done|]. cbn [last_op fst snd].
  destruct (last_op (KeyBuilder.edge s r t) ws), (last_op (KeyBuilder.reverse_edge t r s) ws); try done.
  destruct (beqb_spec (KeyBuilder.edge s r t) (KeyBuilder.reverse_edge t' r' s')) as [E|_]; [by apply edge_not_reverse in E|].
  destruct (beqb_spec (KeyBuilder.reverse_edge t r s) (KeyBuilder.edge s' r' t')) as [E|_];
    [by symmetry in E; apply edge_not_reverse in E|].
  destruct (beqb_spec (KeyBuilder.edge s r t) (KeyBuilder.edge s' r' t')) as [E|E],
    (beqb_spec (KeyBuilder.reverse_edge t r s) (KeyBuilder.reverse_edge t' r' s')) as [F|F]; try done.
  - by apply edge_flip in E.
  - by apply edge_flip in F.
Qed.

Lemma edge_writes_pairs m ws : pairs ws -> edge_writes m ws.
Proof.
  intros Hp s r t. generalize (pairs_last ws s r t Hp).
  by destruct (last_op (KeyBuilder.edge s r t) ws), (last_op (KeyBuilder.reverse_edge t r s) ws).
Qed.

(** Writes that put or delete both directions together. *)
Definition balanced (ws : list op) : Prop :=
  forall s r t, match last_op (KeyBuilder.edge s r t) ws, last_op (KeyBuilder.reverse_edge t r s) ws with
  | None, None => True
  | Some a, Some b => is_Some a <-> is_Some b
  | _, _ => False
  end.

Lemma balanced_pairs ws : pairs ws -> balanced ws.
Proof. intros H s r t. by apply pairs_last. Qed.

Lemma balanced_only ps ws : no_edges ps -> only ps ws -> balanced ws.
Proof. intros Hp Ho s r t. by destruct (only_edges_none ps ws s r t Hp Ho) as [-> ->]. Qed.

Lemma balanced_app a b : balanced a -> balanced b -> balanced (a ++ b).
Proof.
  intros Ha Hb s r t. rewrite !last_op_app. generalize (Ha s r t) (Hb s r t).
  destruct (last_op (KeyBuilder.edge s r t) b), (last_op (KeyBuilder.reverse_edge t r s) b); done.
Qed.

Lemma edge_writes_balanced m ws : balanced ws -> edge_writes m ws.
Proof.
  intros Hb s r t. generalize (Hb s r t).
  by destruct (last_op (KeyBuilder.edge s r t) ws), (last_op (KeyBuilder.reverse_edge t r s) ws).
Qed.

(** Reverse edges renewed. *)
Definition renews (m : bmap bytes) (ws : list op) : Prop :=
  Forall (fun o => exists t r s, fst o = KeyBuilder.reverse_edge t r s /\ is_Some (snd o) /\ is_Some (bm_get (fst o) m)) ws.

Lemma edge_writes_renews m ws : renews m ws -> edge_writes m ws.
Proof.
  intros H s r t. unfold renews in H. rewrite List.Forall_forall in H.
  destruct (last_op (KeyBuilder.edge s r t) ws) as [a|] eqn:Ea.
  { apply last_op_some, H in Ea as (t' & r' & s' & E & _). cbn in E. by apply edge_not_reverse in E. }
  destruct (last_op (KeyBuilder.reverse_edge t r s) ws) as [b|] eqn:Eb; [|done].
  apply last_op_some, H in Eb as (? & ? & ? & _ & ? & ?). done.
Qed.

(** ** The shape of the keys *)

Definition shaped_key (k : bytes) : Prop :=
  (in_family Keys.Edge k -> exists s r t, k = KeyBuilder.edge s r t) /\
  (in_family ReverseEdge k -> exists t r s, k = KeyBuilder.reverse_edge t r s).

Lemma shaped_edge s r t : shaped_key (KeyBuilder.edge s r t).
Proof. split; [eauto|done]. Qed.

Lemma shaped_reverse t r s : shaped_key (KeyBuilder.reverse_edge t r s).
Proof. split; [done|eauto]. Qed.

Lemma shaped_other p k : in_family p k -> p <> Keys.Edge -> p <> ReverseEdge -> shaped_key k.
Proof.
  unfold shaped_key, in_family. intros H H1 H2. rewrite H. split; intros E; by destruct p.
Qed.

Lemma edge_keys_written_forall ws : Forall (fun o => shaped_key (fst o)) ws -> edge_keys_written ws.
Proof. intros H k x E. apply last_op_some in E. rewrite List.Forall_forall in H. by apply (H (k, x)). Qed.

Lemma shaped_only ps ws : no_edges ps -> only ps ws -> Forall (fun o => shaped_key (fst o)) ws.
Proof.
  intros [H1 H2] H. eapply Forall_impl; [exact H|]. intros o (p & Hp & Hf).
  eapply shaped_other; [exact Hf|..]; by intros ->.
Qed.

Lemma shaped_pairs ws : pairs ws -> Forall (fun o => shaped_key (fst o)) ws.
Proof. induction 1; [constructor|]. repeat constructor; cbn; auto using shaped_edge, shaped_reverse; eauto; done. Qed.

Lemma shaped_renews m ws : renews m ws -> Forall (fun o => shaped_key (fst o)) ws.
Proof. intros H. eapply Forall_impl; [exact H|]. intros o (t & r & s & -> & _). apply shaped_reverse. Qed.
