(* ===== verification/EngineOps.v ===== *)
(** * What the operations write

    The families of rows each part of an operation touches. *)

From Stdlib Require Import ZArith Lia Bool List Strings.Byte Strings.String.
From stdpp Require Import base tactics option list gmap.
From S2P Require Import Prelude ByteMap Keys Values Schema IndexKeys Posting Store Fulltext Engine EngineEdges.

Local Open Scope Z_scope.
Local Open Scope bytes_scope.

(** Inverts a successful run of the error monad. *)
Ltac ebind H :=
  let a := fresh "a" in let E := fresh "E" in
  apply ebind_ok in H as (a & E & H).

Lemma ok_or_ok {A} (o : option A) e a : ok_or o e = EOk a -> o = Some a.
Proof. destruct o; cbn; congruence. Qed.

Lemma idx_ok {A} (o : option A) a : idx o = EOk a -> o = Some a.
Proof. destruct o; cbn; congruence. Qed.

Lemma in_family_only p ps (k : bytes) x : in_family p k -> In p ps -> only ps [(k, x)].
Proof. intros H Hp. constructor; [eauto|constructor]. Qed.

Section ops.
Context {J : Json} {T : TextLib} {L : EngineLib}.
Variable db : Database.

Lemma resolve_ok tn tid : resolve_type_id db tn = EOk tid -> bm_get tn (type_ids db) = Some tid.
Proof. unfold resolve_type_id. intros H. ebind H. apply ok_or_ok in E. case_match; congruence. Qed.

Lemma schema_type_ok tn td : schema_type db tn = EOk td -> get_type (schema db) tn = Some td.
Proof. apply ok_or_ok. Qed.

(** ** Unique rows *)

(** A successful check: the row was free or the object's own. *)
Lemma check_unique_ok m tn tid f v o staged ws staged' :
  check_unique_and_insert db m tn tid f v o staged = EOk (ws, staged') ->
  exists fid, bm_get (qualified tn f) (field_ids db) = Some fid /\
    let k := KeyBuilder.unique_index tid fid (value_to_index_bytes v) in
    ws = [(k, Some (be64 o))] /\ staged' = bm_insert k o staged /\
    (forall o', bm_get k staged = Some o' -> o' = o) /\
    (forall x, bm_get k m = Some x -> from_be (take 8 x) = o).
Proof.
  unfold check_unique_and_insert. intros H. ebind H. apply idx_ok in E. exists a. split; [done|].
  set (k := KeyBuilder.unique_index tid a (value_to_index_bytes v)) in *. cbv zeta in H.
  assert (Hst : forall b, (if match bm_get k staged with Some id => negb (id =? o) | None => false end then EErr (UniqueViolation tn f)
      else b) = EOk (ws, staged') -> (forall o', bm_get k staged = Some o' -> o' = o) /\ b = EOk (ws, staged')).
  { intros b Hb. destruct (bm_get k staged) as [id|]; [|by split].
    destruct (Z.eqb_spec id o); cbn in Hb; [|done]. split; [congruence|done]. }
  apply Hst in H as [Hstaged H]. clear Hst. destruct (bm_get k m) as [x|] eqn:Em.
  - ebind H. unfold id_bytes in E0. destruct (8 <=? List.length x)%nat; [|done]. injection E0 as <-.
    destruct (Z.eqb_spec (from_be (take 8 x)) o) as [Eo|]; cbn in H; [|done]. injection H as <- <-.
    split_and!; [done..|]. congruence.
  - injection H as <- <-. split_and!; done.
Qed.

Lemma check_unique_only m tn tid f v o staged ws staged' :
  check_unique_and_insert db m tn tid f v o staged = EOk (ws, staged') -> only [Keys.Unique] ws.
Proof.
  intros H. apply check_unique_ok in H as (fid & _ & -> & _). eapply in_family_only; [done|by left].
Qed.

Lemma remove_unique_only tn tid f v ws : remove_unique_index db tn tid f v = EOk ws -> only [Keys.Unique] ws.
Proof.
  unfold remove_unique_index. intros H. ebind H. injection H as <-. eapply in_family_only; [done|by left].
Qed.

Lemma stage_unique_only m tn td tid o fs : forall staged ws staged',
  stage_unique db m tn td tid o fs staged = EOk (ws, staged') -> only [Keys.Unique] ws.
Proof.
  induction fs as [|[f v] fs IH]; intros staged ws staged' H; cbn [stage_unique] in H.
  { injection H as <- <-. apply only_nil. }
  ebind H. destruct (is_unique a && negb (is_null v)); [|by eapply IH].
  ebind H. destruct a0 as [w st]. ebind H. destruct a0 as [w' st']. injection H as <- <-.
  apply only_app. split; [by eapply check_unique_only|by eapply IH].
Qed.

Lemma update_unique_only m tn td tid o old us : forall staged ws,
  update_unique db m tn td tid o old us staged = EOk ws -> only [Keys.Unique] ws.
Proof.
  induction us as [|[f v] us IH]; intros staged ws H; cbn [update_unique] in H.
  { injection H as <-. apply only_nil. }
  ebind H. destruct (is_unique a); [|by eapply IH]. ebind H. ebind H. destruct a1 as [w2 st]. ebind H. injection H as <-.
  rewrite !only_app. split_and!; [| |by eapply IH].
  - destruct (non_null (bm_get f old)); [by eapply remove_unique_only|]. injection E0 as <-. apply only_nil.
  - destruct (is_null v); [injection E1 as <- <-; apply only_nil|by eapply check_unique_only].
Qed.

(** ** Index rows *)

Lemma build_key_family t f kind v o k : build_field_index_key t f kind v o = Some k -> in_family FieldIndex k.
Proof.
  unfold build_field_index_key. destruct kind, v; cbn; try done; intros H; try (by injection H as <-);
    repeat case_match; simplify_eq; done.
Qed.

Lemma insert_index_only t f kind v o c : only [FieldIndex] (insert_field_index t f kind v o c).
Proof.
  unfold insert_field_index. case_match eqn:E; [|apply only_nil]. apply build_key_family in E.
  eapply in_family_only; [done|by left].
Qed.

Lemma remove_index_only t f kind v o : only [FieldIndex] (remove_field_index t f kind v o).
Proof.
  unfold remove_field_index. case_match eqn:E; [|apply only_nil]. apply build_key_family in E.
  eapply in_family_only; [done|by left].
Qed.

Lemma index_puts_only tn tid o fm c : only [FieldIndex] (index_puts db tn tid o fm c).
Proof.
  apply only_concat, List.Forall_forall. intros x Hx. apply in_map_iff in Hx as (ifd & <- & _).
  case_match; [apply insert_index_only|apply only_nil].
Qed.

Lemma rewrite_index_only tid o old new s b ifd : only [FieldIndex] (rewrite_index tid o old new s b ifd).
Proof.
  unfold rewrite_index.
  assert (Hi : only [FieldIndex] (match non_null (bm_get (if_name ifd) new) with
    | Some v => insert_field_index tid (if_field_id ifd) (if_kind ifd) v o s | None => [] end))
    by (case_match; [apply insert_index_only|apply only_nil]).
  destruct (opt_value_eqb _ _); cbn [negb]; [destruct b; [exact Hi|apply only_nil]|].
  apply only_app. split; [|exact Hi]. destruct (non_null (bm_get _ old)); [apply remove_index_only|apply only_nil].
Qed.

(** ** Full-text rows *)

Definition ft_families := [Keys.Fulltext; FulltextDoc].

Lemma posting_key_family t ff o term : in_family Keys.Fulltext (posting_key t ff o term).
Proof. done. Qed.

Lemma doc_key_family t ff o : in_family FulltextDoc (doc_key t ff o).
Proof. done. Qed.

Lemma stage_doc_puts_only t ff o d :
  only ft_families (map (fun e => (fst e, Some (snd e))) (stage_doc_puts t ff o d [])).
Proof.
  unfold stage_doc_puts. cbn [app]. rewrite map_app, only_app. split.
  - apply List.Forall_forall. intros x Hx. rewrite map_map in Hx. apply in_map_iff in Hx as ([term ps] & <- & _).
    exists Keys.Fulltext. split; [by left|done].
  - eapply in_family_only; [apply doc_key_family|by right; left].
Qed.

Lemma fold_only {A} ps (f : list op * StatsDelta -> A -> list op * StatsDelta) l : forall acc,
  (forall ws d a, only ps ws -> only ps (fst (f (ws, d) a))) -> only ps (fst acc) -> only ps (fst (fold_left f l acc)).
Proof.
  induction l as [|a l IH]; intros [ws d] Hf H; cbn [fold_left]; [done|]. apply IH; [done|]. by apply Hf.
Qed.

Lemma fulltext_puts_only tn tid o fm d : only ft_families (fst (fulltext_puts db tn tid o fm d)).
Proof.
  apply fold_only; [|apply only_nil]. intros ws d' ff Hw. case_match; [|done]. cbn [fst].
  apply only_app. split; [done|apply stage_doc_puts_only].
Qed.

Lemma stage_fulltext_update_only m t ff o old new d :
  only ft_families (fst (stage_fulltext_update m t ff o old new d)).
Proof.
  unfold stage_fulltext_update. cbn [fst]. rewrite !only_app. split_and!.
  - apply List.Forall_forall. intros x Hx. apply in_map_iff in Hx as (e & <- & _).
    exists Keys.Fulltext. split; [by left|apply posting_key_family].
  - case_match; [|apply only_nil]. apply List.Forall_forall. intros x Hx. apply in_map_iff in Hx as (e & <- & _).
    exists Keys.Fulltext. split; [by left|apply posting_key_family].
  - unfold doc_row_write. repeat case_match; try apply only_nil; (eapply in_family_only; [apply doc_key_family|by right; left]).
Qed.

Lemma update_fulltext_only m tn tid o old us : only ft_families (fst (update_fulltext db m tn tid o old us)).
Proof.
  apply fold_only; [|apply only_nil]. intros ws d ff Hw. case_match; [|done].
  destruct (stage_fulltext_update _ _ _ _ _ _ _) as [w d'] eqn:E. cbn [fst]. apply only_app. split; [done|].
  change w with (fst (w, d')). rewrite <- E. apply stage_fulltext_update_only.
Qed.

(** ** Edges *)

Lemma edge_puts_pairs m vc sc o links todo : forall i ws,
  edge_puts db m vc sc o links i todo = EOk ws -> pairs ws.
Proof.
  induction todo as [|l todo IH]; intros i ws H; cbn [edge_puts] in H; [injection H as <-; constructor|].
  ebind H. ebind H. injection H as <-. constructor; [by split|by eapply IH].
Qed.

(** A scan of the edges of an object, on a store whose edges are shaped. *)
Lemma edge_scan_rows m p es : scan_prefix m p = EOk es ->
  forall id fm, In (id, fm) es -> exists k, is_Some (bm_get k m) /\ p `prefix_of` k /\ id = key_id k.
Proof.
  unfold scan_prefix. assert (Hr : forall k x, In (k, x) (rows_under p m) -> is_Some (bm_get k m) /\ p `prefix_of` k).
  { intros k x Hx. apply filter_In in Hx as [Hx Hp]. cbn in Hp. apply starts_with_true in Hp. split; [|done].
    destruct (bm_get k m) eqn:E; [done|]. apply assoc_none in E. exfalso. apply E. by apply (in_map fst) in Hx. }
  revert es Hr. generalize (rows_under p m). intros rows. induction rows as [|[k x] rows IH]; intros es Hr H id fm Hin; cbn [decode_edge_entries] in H.
  { by injection H as <-. }
  assert (Hr' : forall k x, In (k, x) rows -> is_Some (bm_get k m) /\ p `prefix_of` k) by (intros; eapply Hr; by right).
  destruct (List.length k <? 8)%nat; [by eapply IH|]. ebind H. ebind H. injection H as <-.
  destruct Hin as [[= <- <-]|Hin]; [|by eapply IH].
  destruct (Hr k x) as [H1 H2]; [by left|]. eauto.
Qed.

Lemma refresh_targets_renews m vc tn o sd f r es ws :
  mirror m ->
  (forall id fm, In (id, fm) es -> is_Some (bm_get (KeyBuilder.edge o r id) m)) ->
  refresh_targets db m vc tn o sd f r es = EOk ws -> renews m ws.
Proof.
  intros Hm. revert ws. induction es as [|[id fm] es IH]; intros ws He H; cbn [refresh_targets] in H.
  { injection H as <-. constructor. }
  ebind H. ebind H. injection H as <-. constructor.
  - cbn [fst snd]. eexists _, _, _. split_and!; [done|eauto|]. apply Hm. eapply He. by left.
  - eapply IH; [|done]. intros id' fm' Hin. eapply He. by right.
Qed.

Lemma edges_of_scan m o r es :
  edges_shaped m -> scan_prefix m (KeyBuilder.edge_prefix o r) = EOk es ->
  forall id fm, In (id, fm) es -> is_Some (bm_get (KeyBuilder.edge o r id) m).
Proof.
  intros Hs H id fm Hin. destruct (edge_scan_rows m _ es H id fm Hin) as (k & Hk & Hp & ->).
  destruct (Hs k Hk) as [Hsh _]. destruct Hsh as (s & r' & t & ->).
  { destruct Hp as [z ->]. done. }
  by rewrite <- (edge_row o r s r' t).
Qed.

Lemma refresh_fields_renews m vc tn o sd fs : mirror m -> edges_shaped m -> forall ws,
  refresh_fields db m vc tn o sd fs = EOk ws -> renews m ws.
Proof.
  intros Hm Hs. induction fs as [|f fs IH]; intros ws H; cbn [refresh_fields] in H; [injection H as <-; constructor|].
  destruct (field_type f); try by apply IH. destruct (inverse f); [by apply IH|].
  destruct (bm_get _ (rel_ids db)) as [rid|]; [|by apply IH]. ebind H. ebind H. ebind H. injection H as <-.
  apply Forall_app. split; [|by apply IH]. eapply refresh_targets_renews; [done| |done]. by apply edges_of_scan.
Qed.

Lemma refresh_renews m vc tn o sd ws : mirror m -> edges_shaped m ->
  refresh_outbound_rev_edges db m vc tn o sd = EOk ws -> renews m ws.
Proof.
  intros Hm Hs. unfold refresh_outbound_rev_edges. case_match; [|intros [= <-]; constructor].
  case_match; [intros [= <-]; constructor|]. by apply refresh_fields_renews.
Qed.
End ops.
