(* ===== verification/EngineDelete.v ===== *)
(** * The cascade of a delete

    The walk of [delete_inner] ends, and the keys it collects are exactly the
    rows of the objects it reached, with edges in both directions. *)

From Stdlib Require Import ZArith Lia Bool List Strings.Byte Strings.String.
From stdpp Require Import base tactics option list gmap.
From S2P Require Import Prelude ByteMap Keys Values Schema IndexKeys Posting Store Fulltext Engine EngineEdges EngineOps.

Local Open Scope Z_scope.
Local Open Scope bytes_scope.

(** ** Lists of keys *)

(** An edge is in the list with its reverse. *)
Definition kpaired (ks : list bytes) : Prop :=
  forall s r t, In (KeyBuilder.edge s r t) ks <-> In (KeyBuilder.reverse_edge t r s) ks.

Definition kshaped (ks : list bytes) : Prop := Forall shaped_key ks.

Definition konly (ps : list KeyPrefix) (ks : list bytes) : Prop := Forall (fun k => exists p, In p ps /\ in_family p k) ks.

Lemma kpaired_app a b : kpaired a -> kpaired b -> kpaired (a ++ b).
Proof. intros Ha Hb s r t. rewrite !in_app_iff, (Ha s r t), (Hb s r t). done. Qed.

Lemma kpaired_only ps ks : no_edges ps -> konly ps ks -> kpaired ks.
Proof.
  intros [H1 H2] Ho s r t. unfold konly in Ho. rewrite List.Forall_forall in Ho.
  split; intros Hin; apply Ho in Hin as (p & Hp & Hf); exfalso; destruct p; done.
Qed.

Lemma kshaped_only ps ks : no_edges ps -> konly ps ks -> kshaped ks.
Proof.
  intros [H1 H2] H. eapply Forall_impl; [exact H|]. intros k (p & Hp & Hf).
  eapply shaped_other; [exact Hf|..]; by intros ->.
Qed.

Lemma in_edge_pair k s r t : In k (edge_pair s r t) <-> k = KeyBuilder.edge s r t \/ k = KeyBuilder.reverse_edge t r s.
Proof. cbn. intuition. Qed.

Lemma kpaired_pairs {A} (f : A -> Z * Z * Z) l :
  kpaired (List.concat (map (fun a => let '(s, r, t) := f a in edge_pair s r t) l)).
Proof.
  induction l as [|a l IH]; cbn [map List.concat]; [by intros s r t|]. apply kpaired_app; [|done].
  destruct (f a) as [[s' r'] t']. intros s r t. rewrite !in_edge_pair. split; intros [E|E]; try done.
  - right. by apply edge_flip.
  - left. by apply edge_flip.
Qed.

Lemma kshaped_pairs {A} (f : A -> Z * Z * Z) l :
  kshaped (List.concat (map (fun a => let '(s, r, t) := f a in edge_pair s r t) l)).
Proof.
  induction l as [|a l IH]; cbn [map List.concat]; [constructor|]. apply Forall_app. split; [|done].
  destruct (f a) as [[s' r'] t']. repeat constructor; eauto using shaped_edge, shaped_reverse; done.
Qed.

(** Both directions of edges, or something else. *)
Definition edge_list (ks : list bytes) : Prop :=
  kpaired ks /\ kshaped ks /\ konly [Keys.Edge; ReverseEdge] ks.

Lemma edge_list_nil : edge_list [].
Proof. split_and!; [by intros s r t|constructor|constructor]. Qed.

Lemma edge_list_app a b : edge_list a -> edge_list b -> edge_list (a ++ b).
Proof.
  intros (A1 & A2 & A3) (B1 & B2 & B3). split_and!; [by apply kpaired_app|by apply Forall_app|by apply Forall_app].
Qed.

Lemma edge_list_pairs {A} (f : A -> Z * Z * Z) l :
  edge_list (List.concat (map (fun a => let '(s, r, t) := f a in edge_pair s r t) l)).
Proof.
  split_and!; [apply kpaired_pairs|apply kshaped_pairs|]. induction l as [|a l IH]; cbn [map List.concat]; [constructor|].
  apply Forall_app. split; [|done]. destruct (f a) as [[s' r'] t']. repeat constructor; eexists; (split; [|reflexivity]); cbn; auto.
Qed.

Section walk.
Context {J : Json} {T : TextLib} {L : EngineLib}.
Variables (db : Database) (m : bmap bytes) (vc : Counters).

(** ** The rows of an object *)

Definition payload_families := [Keys.Unique; FieldIndex; Keys.Fulltext; FulltextDoc].
Definition own_families := [Keys.Object; Generation].

Lemma index_tombstone_key t o ifd v :
  index_tombstone t o ifd v = build_field_index_key t (if_field_id ifd) (if_kind ifd) v o.
Proof. unfold index_tombstone, build_field_index_key. destruct (if_kind ifd), v; done. Qed.

Lemma unique_tombstones_only tn tid fm fs : forall ks,
  unique_tombstones db tn tid fm fs = EOk ks -> konly [Keys.Unique] ks.
Proof.
  induction fs as [|f fs IH]; intros ks H; cbn [unique_tombstones] in H; [injection H as <-; constructor|].
  case_match; [|by apply IH]. ebind H. ebind H. injection H as <-. constructor; [|by apply IH].
  eexists. split; [by left|done].
Qed.

Lemma index_tombstones_only tn tid o fm : konly [FieldIndex] (index_tombstones db tn tid o fm).
Proof.
  apply List.Forall_forall. intros k Hk. apply list_elem_of_In, list_elem_of_omap in Hk as (ifd & _ & Hk).
  destruct (non_null _); [|done]. cbn in Hk. rewrite index_tombstone_key in Hk. apply build_key_family in Hk.
  eexists. split; [by left|done].
Qed.

Lemma fulltext_tombstones_only tn tid o fm d : konly ft_families (fst (fulltext_tombstones db m tn tid o fm d)).
Proof.
  unfold fulltext_tombstones.
  assert (H : forall l acc, konly ft_families (fst acc) -> konly ft_families (fst (fold_left (fun '(ks, d) ff =>
    match text_of (bm_get (ff_name ff) fm) with
    | Some text =>
        match bm_get (doc_key tid ff o) m with
        | None => (ks ++ [doc_key tid ff o], d)
        | Some _ =>
            let doc := tokenize_for_index ff text in
            (ks ++ map (fun e => posting_key tid ff o (fst e)) (id_terms doc) ++ [doc_key tid ff o],
             delta_add d tid (ff_field_id ff) (-1) (- id_doc_len doc))
        end
    | None => (ks, d)
    end) l acc))); [|apply H; constructor].
  assert (Hd : forall ff, konly ft_families [doc_key tid ff o]).
  { intros ff. constructor; [|constructor]. exists FulltextDoc. split; [by right; left|apply doc_key_family]. }
  induction l as [|ff l IH]; intros [ks d'] Hk; cbn [fold_left]; [done|]. apply IH. cbn [fst] in Hk.
  destruct (text_of _) as [text|]; [|done]. destruct (bm_get _ m); cbn [fst]; [|apply Forall_app; split; [done|apply Hd]].
  apply Forall_app. split; [done|]. apply Forall_app. split; [|apply Hd]. apply List.Forall_forall.
  intros k Hin. apply in_map_iff in Hin as (e & <- & _). exists Keys.Fulltext. split; [by left|apply posting_key_family].
Qed.

Lemma payload_only meta t o b d ks d' :
  payload_tombstones db m meta t o b d = EOk (ks, d') -> konly payload_families ks.
Proof.
  unfold payload_tombstones. case_match; [|intros [= <- <-]; constructor].
  destruct (bm_get (KeyBuilder.object t o) m); [|destruct b; [done|intros [= <- <-]; constructor]]. intros H0. ebind H0. ebind H0.
  destruct (fulltext_tombstones _ _ _ _ _ _ _) as [ft d1] eqn:Ef. injection H0 as <- <-.
  assert (Hmono : forall ps ks', (forall p, In p ps -> In p payload_families) -> konly ps ks' -> konly payload_families ks').
  { intros ps ks' Hp Hk. eapply Forall_impl; [exact Hk|]. intros k (p & Hin & Hf). eauto. }
  apply Forall_app. split; [|apply Forall_app; split].
  - apply (Hmono [Keys.Unique]); [intros p; cbn; tauto|]. destruct (if has_unique meta then _ else None).
    + by eapply unique_tombstones_only.
    + injection E0 as <-. constructor.
  - apply (Hmono [FieldIndex]); [intros p; cbn; tauto|]. apply index_tombstones_only.
  - apply (Hmono ft_families); [intros p; cbn; tauto|]. change ft with (fst (ft, d1)). rewrite <- Ef.
    apply fulltext_tombstones_only.
Qed.

Lemma own_rows_only t o : konly own_families (own_rows vc t o).
Proof.
  unfold own_rows. constructor; [exists Keys.Object; split; [by left|done]|].
  repeat case_match; repeat constructor. exists Generation. split; [by right; left|done].
Qed.

(** The index rows collected for an object. *)
Definition payload (x : Z * Z) (pks : list bytes) : Prop :=
  exists meta b d d', zget (fst x) (cascade_meta_by_id db) = Some meta /\
    payload_tombstones db m meta (fst x) (snd x) b d = EOk (pks, d').

Definition is_edge_key (k : bytes) : Prop := exists p, In p [Keys.Edge; ReverseEdge] /\ in_family p k.

Lemma rows_only x pks : payload x pks ->
  konly (payload_families ++ own_families) (pks ++ own_rows vc (fst x) (snd x)).
Proof.
  intros (meta & b & d & d' & _ & H). apply payload_only in H. apply Forall_app. split.
  - eapply Forall_impl; [exact H|]. intros k (p & Hp & Hf). exists p. split; [apply in_or_app; by left|done].
  - eapply Forall_impl; [apply own_rows_only|]. intros k (p & Hp & Hf). exists p. split; [apply in_or_app; by right|done].
Qed.

Lemma rows_no_edges : no_edges (payload_families ++ own_families).
Proof. split; cbn; intuition congruence. Qed.

(** ** The walk *)

(** From [w] to [w'] the objects [new] were reached and the keys [ks] added:
    every row of those objects, edges in pairs, and nothing else. *)
Record grows (w w' : Walk) (new : list (Z * Z)) (ks : list bytes) : Prop := {
  gr_deleted : w_deleted w' = new ++ w_deleted w;
  gr_arena : w_arena w' = w_arena w ++ ks;
  gr_rows x : In x new -> exists pks, payload x pks /\ forall k, In k (pks ++ own_rows vc (fst x) (snd x)) -> In k ks;
  gr_keys k : In k ks -> is_edge_key k \/
    exists x pks, In x new /\ payload x pks /\ In k (pks ++ own_rows vc (fst x) (snd x));
  gr_paired : kpaired ks;
  gr_shaped : kshaped ks;
}.

Lemma grows_refl w : grows w w [] [].
Proof. split; try done; [by rewrite app_nil_r|constructor]. Qed.

Lemma grows_trans w1 w2 w3 n1 n2 k1 k2 :
  grows w1 w2 n1 k1 -> grows w2 w3 n2 k2 -> grows w1 w3 (n2 ++ n1) (k1 ++ k2).
Proof.
  intros [D1 A1 R1 K1 P1 S1] [D2 A2 R2 K2 P2 S2]. split.
  - by rewrite D2, D1, app_assoc.
  - by rewrite A2, A1, app_assoc.
  - intros x [Hx|Hx]%in_app_or.
    + destruct (R2 x Hx) as (pks & Hp & H). exists pks. split; [done|]. intros k Hk. apply in_or_app. right. auto.
    + destruct (R1 x Hx) as (pks & Hp & H). exists pks. split; [done|]. intros k Hk. apply in_or_app. left. auto.
  - intros k [Hk|Hk]%in_app_or.
    + destruct (K1 k Hk) as [He|(x & pks & Hx & H)]; [by left|right]. exists x, pks. split; [apply in_or_app; by right|done].
    + destruct (K2 k Hk) as [He|(x & pks & Hx & H)]; [by left|right]. exists x, pks. split; [apply in_or_app; by left|done].
  - by apply kpaired_app.
  - by apply Forall_app.
Qed.

(** One node of the walk: the object, its index rows and inbound edges, the
    cascade below it, its outbound edges and its own rows. *)
Lemma grows_node w x pks e1 d w2 new ks e2 d2 :
  payload x pks -> edge_list e1 -> edge_list e2 ->
  grows (push {| w_deleted := x :: w_deleted w; w_arena := w_arena w; w_delta := w_delta w |} (pks ++ e1) d) w2 new ks ->
  grows w (push w2 (e2 ++ own_rows vc (fst x) (snd x)) d2) (new ++ [x]) ((pks ++ e1) ++ ks ++ e2 ++ own_rows vc (fst x) (snd x)).
Proof.
  intros Hp (P1 & S1 & O1) (P2 & S2 & O2) [D A R K P S]. cbn [push w_deleted w_arena] in *.
  pose proof (rows_only x pks Hp) as Hr. apply Forall_app in Hr as [Hr1 Hr2]. split.
  - cbn [push w_deleted]. by rewrite D, <- app_assoc.
  - cbn [push w_arena]. by rewrite A, <- !app_assoc.
  - intros y [Hy|[<-|[]]]%in_app_or.
    + destruct (R y Hy) as (pks' & Hp' & H). exists pks'. split; [done|]. intros k Hk. rewrite !in_app_iff. auto.
    + exists pks. split; [done|]. intros k [Hk|Hk]%in_app_or; rewrite !in_app_iff; auto.
  - intros k Hk. rewrite !in_app_iff in Hk.
    assert (Hx : In k pks \/ In k (own_rows vc (fst x) (snd x)) ->
      is_edge_key k \/ exists x0 pks0, In x0 (new ++ [x]) /\ payload x0 pks0 /\ In k (pks0 ++ own_rows vc (fst x0) (snd x0))).
    { intros H. right. exists x, pks. split_and!; [apply in_or_app; right; by left|done|]. by apply in_or_app. }
    assert (He : forall l, konly [Keys.Edge; ReverseEdge] l -> In k l -> is_edge_key k).
    { intros l Hl Hin. unfold konly in Hl. rewrite List.Forall_forall in Hl. by apply Hl. }
    destruct Hk as [[Hk|Hk]|[Hk|[Hk|Hk]]]; [auto|left; eauto| |left; eauto|auto].
    destruct (K k Hk) as [H|(y & pks' & Hy & H)]; [by left|right]. exists y, pks'. split; [apply in_or_app; by left|done].
  - assert (kpaired pks) by (eapply kpaired_only; [apply rows_no_edges|exact Hr1]).
    assert (kpaired (own_rows vc (fst x) (snd x))) by (eapply kpaired_only; [apply rows_no_edges|exact Hr2]).
    by repeat apply kpaired_app.
  - assert (kshaped pks) by (eapply kshaped_only; [apply rows_no_edges|exact Hr1]).
    assert (kshaped (own_rows vc (fst x) (snd x))) by (eapply kshaped_only; [apply rows_no_edges|exact Hr2]).
    unfold kshaped. rewrite !Forall_app. done.
Qed.

Lemma pairs_of_scan (es : list (Z * bytes)) r o :
  edge_list (List.concat (map (fun e => edge_pair (fst e) r o) es)).
Proof. apply (edge_list_pairs (fun e => (fst e, r, o)) es). Qed.

Lemma inbound_edges o incs : forall keys cs keys' cs',
  edge_list keys -> inbound m o incs keys cs = inr (keys', cs') -> edge_list keys'.
Proof.
  induction incs as [|inc incs IH]; intros keys cs keys' cs' Hk H; cbn [inbound] in H; [by injection H as <- <-|].
  destruct (scan_prefix_raw m _) as [|e es] eqn:Es; [by eapply IH|].
  destruct (policy inc); [| |done]; (eapply IH; [|exact H]);
    (apply edge_list_app; [done|]; rewrite <- Es; apply pairs_of_scan).
Qed.

Lemma covered_edges_pairs o meta ctx ks covered : covered_edges o meta ctx = (ks, covered) -> edge_list ks.
Proof.
  unfold covered_edges. destruct ctx as [[pr cover]|]; [|intros [= <- <-]; apply edge_list_nil].
  intros [= <- _]. apply (edge_list_pairs (fun rt => (o, fst rt, snd rt))).
Qed.

Lemma outbound_edges_pairs o meta covered : edge_list (outbound_edges m o meta covered).
Proof.
  unfold outbound_edges. induction (forward_relations meta) as [|rel rels IH]; cbn [map List.concat]; [apply edge_list_nil|].
  apply edge_list_app; [|exact IH]. case_match; [apply edge_list_nil|].
  apply (edge_list_pairs (fun e => (o, fr_rel_id rel, fst e))).
Qed.

Lemma delete_inner_grows fuel : forall t o b w ctx w',
  delete_inner db fuel m vc t o b w ctx = EOk w' -> exists new ks, grows w w' new ks.
Proof.
  induction fuel as [|fuel IH]; intros t o b w ctx w' H; cbn [delete_inner] in H; [done|].
  destruct (mem_zz (t, o) (w_deleted w)); [injection H as <-; eauto using grows_refl|].
  ebind H. apply ok_or_ok in E. rename a into meta. ebind H. destruct a as [pks d].
  destruct (inbound _ _ _ _ _) as [[rt rf]|[e1 cs]] eqn:Ei; [done|]. ebind H. rename a into w2.
  destruct (covered_edges o meta ctx) as [found covered] eqn:Ec. injection H as <-.
  assert (Hloop : forall cs w w', cascade_loop (fun t o w ctx => delete_inner db fuel m vc t o false w ctx) cs w = EOk w' ->
    exists new ks, grows w w' new ks).
  { clear -IH. induction cs as [|[[[t o] r] cover] cs IHc]; intros w w' H; cbn [cascade_loop] in H;
      [injection H as <-; eauto using grows_refl|].
    ebind H. apply IH in E as (n1 & k1 & G1). apply IHc in H as (n2 & k2 & G2). eauto using grows_trans. }
  apply Hloop in E1 as (new & ks & G). eexists _, _. rewrite (app_assoc found).
  eapply (grows_node w (t, o) pks e1 d w2 new ks (found ++ outbound_edges m o meta covered)); [| | |exact G].
  - exists meta, b, (w_delta w), d. done.
  - by eapply inbound_edges; [apply edge_list_nil|].
  - apply edge_list_app; [by eapply covered_edges_pairs|apply outbound_edges_pairs].
Qed.

(** ** Termination *)

(** The objects a cascade can reach: the ends of the stored keys, as objects of
    the source types. *)
Definition reachable : list (Z * Z) :=
  List.concat (map (fun i => map (fun e => (source_type_id (snd i), key_id (fst e))) m) (incoming_relations db)).

Lemma in_scan_raw p id x : In (id, x) (scan_prefix_raw m p) -> exists k, In (k, x) m /\ id = key_id k /\ p `prefix_of` k.
Proof.
  unfold scan_prefix_raw. intros H. apply in_map_iff in H as ([k y] & [= <- <-] & H). apply filter_In in H as [H _].
  apply filter_In in H as [H Hp]. apply starts_with_true in Hp. eauto.
Qed.

Lemma inbound_reachable o incs : forall keys cs keys' cs',
  (forall inc, In inc incs -> exists t, In (t, inc) (incoming_relations db)) ->
  (forall c, In c cs -> In (fst (fst (fst c)), snd (fst (fst c))) reachable) ->
  inbound m o incs keys cs = inr (keys', cs') ->
  forall c, In c cs' -> In (fst (fst (fst c)), snd (fst (fst c))) reachable.
Proof.
  induction incs as [|inc incs IH]; intros keys cs keys' cs' Hi Hc H; cbn [inbound] in H; [by injection H as <- <-|].
  assert (Hi' : forall i, In i incs -> exists t, In (t, i) (incoming_relations db)) by (intros i Hin; apply Hi; by right).
  destruct (scan_prefix_raw m _) as [|e es] eqn:Es; [by eapply IH|].
  destruct (policy inc); [by eapply IH| |done].
  eapply IH; [exact Hi'| |exact H]. intros c [Hin|Hin]%in_app_or; [by apply Hc|].
  apply in_map_iff in Hin as ([id x] & <- & Hin). rewrite <- Es in Hin. apply in_scan_raw in Hin as (k & Hk & -> & _).
  cbn [fst snd]. destruct (Hi inc) as (t & Ht); [by left|]. unfold reachable. apply in_concat.
  eexists. split; [apply in_map_iff; exists (t, inc); split; [reflexivity|done]|].
  apply in_map_iff. exists (k, x). done.
Qed.

(** How many of the candidates the walk has not reached. *)
Definition left_over (deleted : list (Z * Z)) : nat :=
  List.length (List.filter (fun x => negb (mem_zz x deleted)) reachable).

Lemma mem_zz_in x l : mem_zz x l = true <-> In x l.
Proof.
  unfold mem_zz. rewrite existsb_exists. split.
  - intros (y & Hy & E). apply andb_true_iff in E as [E1%Z.eqb_eq E2%Z.eqb_eq]. destruct x, y. cbn in *. by subst.
  - intros H. exists x. split; [done|]. by rewrite !Z.eqb_refl.
Qed.

Lemma filter_length_mono {A} (f g : A -> bool) l :
  (forall x, In x l -> f x = true -> g x = true) -> (List.length (List.filter f l) <= List.length (List.filter g l))%nat.
Proof.
  induction l as [|a l IH]; intros H; cbn [List.filter]; [lia|].
  assert (IH' : (List.length (List.filter f l) <= List.length (List.filter g l))%nat) by (apply IH; intros x Hx; apply H; by right).
  destruct (f a) eqn:E; [rewrite (H a) by (by left || done); cbn; lia|]. destruct (g a); cbn; lia.
Qed.

Lemma filter_length_lt {A} (f g : A -> bool) l a :
  (forall x, In x l -> f x = true -> g x = true) -> In a l -> f a = false -> g a = true ->
  (List.length (List.filter f l) < List.length (List.filter g l))%nat.
Proof.
  induction l as [|b l IH]; intros H Hin Ef Eg; [done|]. cbn [List.filter].
  assert (Hl : forall x, In x l -> f x = true -> g x = true) by (intros x Hx; apply H; by right).
  pose proof (filter_length_mono f g l Hl). destruct Hin as [->|Hin].
  - rewrite Ef, Eg. cbn. lia.
  - specialize (IH Hl Hin Ef Eg). destruct (f b) eqn:E; [rewrite (H b) by (by left || done); cbn; lia|]. destruct (g b); cbn; lia.
Qed.

Lemma left_over_mono d new : (left_over (new ++ d) <= left_over d)%nat.
Proof.
  apply filter_length_mono. intros x _ H. apply negb_true_iff in H. apply negb_true_iff.
  destruct (mem_zz x d) eqn:E; [|done]. apply mem_zz_in in E. rewrite <- H. symmetry. apply mem_zz_in, in_or_app. by right.
Qed.

Lemma left_over_cons d x : In x reachable -> mem_zz x d = false -> (left_over (x :: d) < left_over d)%nat.
Proof.
  intros Hx Hd. apply (filter_length_lt _ _ _ x); [|done|..].
  - intros y _ H. apply negb_true_iff in H. apply negb_true_iff. destruct (mem_zz y d) eqn:E; [|done].
    apply mem_zz_in in E. rewrite <- H. symmetry. apply mem_zz_in. by right.
  - apply negb_false_iff, mem_zz_in. by left.
  - by rewrite Hd.
Qed.

Lemma payload_no_fuel meta t o b d : payload_tombstones db m meta t o b d <> EFuel.
Proof.
  unfold payload_tombstones. case_match; [|done]. case_match; [|by case_match].
  assert (Hd : forall x, des x <> EFuel) by (intros x; unfold des, of_res; by case_match).
  assert (Hu : forall fm fs, unique_tombstones db (cm_type_name meta) t fm fs <> EFuel).
  { intros fm. induction fs as [|f fs IH]; cbn [unique_tombstones]; [done|]. case_match; [|done].
    destruct (bm_get _ (field_ids db)); cbn; [|done]. by destruct (unique_tombstones _ _ _ _ fs). }
  destruct (des _) eqn:E; cbn; try done; [|by apply Hd in E].
  destruct (if has_unique meta then _ else None).
  - specialize (Hu a (fields t0)). destruct (unique_tombstones _ _ _ _ _); cbn; try done.
    by destruct (fulltext_tombstones _ _ _ _ _ _ _).
  - cbn. by destruct (fulltext_tombstones _ _ _ _ _ _ _).
Qed.

(** A node ends when the calls below it end. *)
Lemma delete_inner_step fuel t o b w ctx :
  (forall t' o' w' ctx', In (t', o') reachable -> (exists new, w_deleted w' = new ++ (t, o) :: w_deleted w) ->
     delete_inner db fuel m vc t' o' false w' ctx' <> EFuel) ->
  delete_inner db (S fuel) m vc t o b w ctx <> EFuel.
Proof.
  intros Hrec. cbn [delete_inner]. destruct (mem_zz (t, o) (w_deleted w)); [done|].
  destruct (zget t (cascade_meta_by_id db)) as [meta|]; cbn [ok_or mbind eres_bind]; [|done].
  destruct (payload_tombstones db m meta t o b _) as [[pks d]|e| |] eqn:Ep; try done; [|by apply payload_no_fuel in Ep].
  cbn [mbind eres_bind]. set (incs := map snd _).
  destruct (inbound m o incs [] []) as [[rt rf]|[e1 cs]] eqn:Ei; [done|].
  assert (Hc : forall c, In c cs -> In (fst (fst (fst c)), snd (fst (fst c))) reachable).
  { apply (inbound_reachable o incs [] [] e1 cs); [|by intros c []|exact Ei]. intros inc Hin. apply in_map_iff in Hin as ([t' i] & <- & Hin).
    apply filter_In in Hin as [Hin _]. eauto. }
  set (w0 := push _ _ _).
  assert (Hl : forall cs w, (forall c, In c cs -> In (fst (fst (fst c)), snd (fst (fst c))) reachable) ->
    (exists new, w_deleted w = new ++ w_deleted w0) ->
    cascade_loop (fun t o w ctx => delete_inner db fuel m vc t o false w ctx) cs w <> EFuel).
  { clear Hc Ei cs. intros cs. induction cs as [|[[[t' o'] r'] cover] cs IHc]; intros w1 Hc Hw1; cbn [cascade_loop]; [done|].
    assert (Hr : delete_inner db fuel m vc t' o' false w1 (Some (r', cover)) <> EFuel).
    { apply Hrec; [apply (Hc (t', o', r', cover)); by left|exact Hw1]. }
    destruct (delete_inner db fuel m vc t' o' false w1 _) as [w2| | |] eqn:E2; try done. cbn [mbind eres_bind].
    apply IHc; [intros c Hin; apply Hc; by right|]. apply delete_inner_grows in E2 as (n2 & k2 & G).
    rewrite (gr_deleted _ _ _ _ G). destruct Hw1 as (n1 & ->).
    exists (n2 ++ n1). by rewrite <- app_assoc. }
  specialize (Hl cs w0 Hc). destruct (cascade_loop _ cs w0) eqn:E; cbn [mbind eres_bind]; try done.
  - by destruct (covered_edges o meta ctx).
  - exfalso. apply Hl; [by exists []|done].
Qed.

Lemma delete_inner_fuel fuel : forall t o b w ctx,
  In (t, o) reachable -> (left_over (w_deleted w) < fuel)%nat -> delete_inner db fuel m vc t o b w ctx <> EFuel.
Proof.
  induction fuel as [|fuel IH]; intros t o b w ctx Hin Hlt; [lia|].
  destruct (mem_zz (t, o) (w_deleted w)) eqn:Ed; [cbn [delete_inner]; by rewrite Ed|].
  apply delete_inner_step. intros t' o' w' ctx' Hin' (new & Hw'). apply IH; [done|]. rewrite Hw'.
  pose proof (left_over_mono ((t, o) :: w_deleted w) new). pose proof (left_over_cons _ _ Hin Ed). lia.
Qed.

Definition delete_fuel : nat := List.length (incoming_relations db) * List.length m + 2.

Lemma delete_ends t o b w ctx : delete_inner db delete_fuel m vc t o b w ctx <> EFuel.
Proof.
  unfold delete_fuel. replace (_ + 2)%nat with (S (List.length (incoming_relations db) * List.length m + 1)) by lia.
  apply delete_inner_step. intros t' o' w' ctx' Hin (new & Hw'). apply delete_inner_fuel; [done|].
  enough (left_over (w_deleted w') <= List.length (incoming_relations db) * List.length m)%nat by lia.
  unfold left_over. etransitivity; [apply List.filter_length_le|]. unfold reachable.
  induction (incoming_relations db) as [|i incs IH]; cbn [map List.concat List.length]; [lia|].
  rewrite length_app, length_map. cbn. lia.
Qed.
End walk.
