(* ===== verification/EngineInv.v ===== *)
(** * The invariant of the engine's store

    What holds of the rows of the engine at every snapshot: blobs decode to
    objects of their type, the unique index and the secondary indexes are exact,
    edges and their reverses mirror each other; and which writes preserve it when
    they are applied to a store in which the written keys have not changed. *)

From Stdlib Require Import ZArith Lia Bool List Strings.Byte Strings.String.
From stdpp Require Import base tactics option list gmap.
From S2P Require Import Prelude ByteMap Keys Utf8 Values Schema IndexKeys Posting Store Fulltext Engine EngineEdges EngineOps.

Local Open Scope Z_scope.
Local Open Scope bytes_scope.

Section inv.
Context {J : Json} {T : TextLib} {L : EngineLib}.
Variable db : Database.

(** ** The open database *)

Record db_ok : Prop := {
  ok_type_inj n n' i : bm_get n (type_ids db) = Some i -> bm_get n' (type_ids db) = Some i -> n = n';
  ok_type_u64 n i : bm_get n (type_ids db) = Some i -> is_u64 i;
  ok_field_inj q q' i : bm_get q (field_ids db) = Some i -> bm_get q' (field_ids db) = Some i -> q = q';
  ok_field_u64 q i : bm_get q (field_ids db) = Some i -> is_u64 i;
  ok_types_sorted : bsorted (types (schema db));
  ok_fields tn td : get_type (schema db) tn = Some td ->
    NoDup (map fd_name (fields td)) /\ is_u16 (Z.of_nat (List.length (fields td))) /\
    Forall (fun f => utf8_valid (fd_name f) = true /\ is_u16 (len (fd_name f))) (fields td);
  ok_incoming : build_incoming (type_ids db) (rel_ids db) (types (schema db)) = EOk (incoming_relations db);
  ok_cascade : build_cascade_meta (type_ids db) (rel_ids db) (types (schema db)) = EOk (cascade_meta_by_id db);
  ok_indexed : build_indexed (field_ids db) (types (schema db)) = EOk (indexed_fields db);
}.

(** A type of the schema and its id. *)
Definition type_of (tn : bytes) (td : TypeDef) (tid : Z) : Prop :=
  get_type (schema db) tn = Some td /\ bm_get tn (type_ids db) = Some tid.

Lemma type_of_inj tn td tid tn' td' : db_ok -> type_of tn td tid -> type_of tn' td' tid -> tn = tn' /\ td = td'.
Proof.
  intros Hdb [H1 H2] [H3 H4]. assert (tn = tn') as -> by (by eapply ok_type_inj). split; [done|congruence].
Qed.

(** ** Objects *)

Definition decoded (data : bytes) : option FieldMap := match des data with EOk fm => Some fm | _ => None end.

(** The object at a key, decoded. *)
Definition obj (m : bmap bytes) (tid o : Z) : option FieldMap := bm_get (KeyBuilder.object tid o) m ≫= decoded.

(** A field the type declares, with a value of its type. *)
Definition typed (td : TypeDef) (k : bytes) (v : Value) : Prop :=
  exists fd, get_field td k = Some fd /\ validate_value fd v = true.

(** The fields of an object of a type: well typed and within their ranges. *)
Definition obj_ok (td : TypeDef) (fm : FieldMap) : Prop :=
  bsorted fm /\ forall k v, bm_get k fm = Some v -> value_ok v /\ typed td k v.

Definition blobs_ok (m : bmap bytes) : Prop :=
  forall tn td tid o data, type_of tn td tid -> bm_get (KeyBuilder.object tid o) m = Some data ->
    exists fm, des data = EOk fm /\ obj_ok td fm.

(** The bytes of an object, its fields written in some order. *)
Definition stored (data : bytes) : Prop := exists fm l, bsorted fm /\ l ≡ₚ fm /\ data = serialize_fields l /\
  Forall field_ok l /\ is_u16 (Z.of_nat (List.length l)).

Definition blobs_stored (m : bmap bytes) : Prop :=
  forall tn td tid o data, type_of tn td tid -> bm_get (KeyBuilder.object tid o) m = Some data -> stored data.

Lemma get_field_name td k f : get_field td k = Some f -> fd_name f = k /\ In f (fields td).
Proof.
  unfold get_field. intros H. apply find_some in H as [H1 H2]. destruct (beqb_spec (fd_name f) k); [|done]. by split.
Qed.

Lemma obj_ok_fields tn td fm : db_ok -> get_type (schema db) tn = Some td -> obj_ok td fm ->
  Forall field_ok fm /\ is_u16 (Z.of_nat (List.length fm)).
Proof.
  intros Hdb Ht [Hs Hf]. destruct (ok_fields Hdb tn td Ht) as (Hn & Hl & Ha). split.
  - apply List.Forall_forall. intros [k v] Hin. apply bm_get_in in Hin; [|done]. apply Hf in Hin as [Hv (f & Hk & _)].
    apply get_field_name in Hk as [<- Hk]. rewrite List.Forall_forall in Ha. apply Ha in Hk as [H1 H2]. by split_and!.
  - assert (Hle : (List.length (map fst fm) <= List.length (map fd_name (fields td)))%nat).
    { apply NoDup_incl_length; [apply NoDup_ListNoDup; by apply bsorted_nodup|]. intros k Hk.
      apply in_map_iff in Hk as ([k' v] & <- & Hin). apply bm_get_in in Hin; [|done]. apply Hf in Hin as [_ (f & Hk & _)].
      apply get_field_name in Hk as [<- Hk]. cbn [fst]. by apply in_map. }
    rewrite !length_map in Hle. unfold is_u16 in *. lia.
Qed.

Lemma ser_stored {LL : EngineLibLaws L} tn td fm :
  db_ok -> get_type (schema db) tn = Some td -> obj_ok td fm -> stored (ser fm).
Proof.
  intros Hdb Ht Hok. destruct (obj_ok_fields tn td fm Hdb Ht Hok) as [Hf Hl]. destruct Hok as [Hs _].
  pose proof (hash_order_perm fm) as Hp. exists fm, (hash_order fm). split_and!; [done..| |]; by rewrite Hp.
Qed.

(** A blob of an object decodes to it, whatever the order of its fields. *)
Lemma des_ser {LL : EngineLibLaws L} tn td fm :
  db_ok -> get_type (schema db) tn = Some td -> obj_ok td fm -> des (ser fm) = EOk fm.
Proof.
  intros Hdb Ht Hok. destruct (obj_ok_fields tn td fm Hdb Ht Hok) as [Hf Hl]. destruct Hok as [Hs _].
  pose proof (hash_order_perm fm) as Hp. unfold des, ser.
  rewrite deserialize_serialized.
  - cbn. f_equal. by apply insert_all_order.
  - by rewrite Hp.
  - by rewrite Hp.
Qed.

Lemma decoded_ser {LL : EngineLibLaws L} tn td fm :
  db_ok -> get_type (schema db) tn = Some td -> obj_ok td fm -> decoded (ser fm) = Some fm.
Proof. intros. unfold decoded. by erewrite des_ser. Qed.

(** ** The unique index *)

(** A unique field of a type, with its id. *)
Definition ufield (tn : bytes) (tid : Z) (f : bytes) (fid : Z) : Prop :=
  exists td fd, type_of tn td tid /\ get_field td f = Some fd /\ is_unique fd = true /\
    bm_get (qualified tn f) (field_ids db) = Some fid.

(** The value of a unique field that has a row. *)
Definition uval (f : bytes) (fm : option FieldMap) : option bytes :=
  fm ← fm; value_to_index_bytes <$> non_null (bm_get f fm).

Record unique_exact (m : bmap bytes) : Prop := {
  ue_row tn tid f fid o b : ufield tn tid f fid -> is_u64 o -> uval f (obj m tid o) = Some b ->
    bm_get (KeyBuilder.unique_index tid fid b) m = Some (be64 o);
  ue_object tn tid f fid b x : ufield tn tid f fid -> bm_get (KeyBuilder.unique_index tid fid b) m = Some x ->
    exists o, is_u64 o /\ x = be64 o /\ uval f (obj m tid o) = Some b;
}.

(** What a written object becomes. *)
Definition new_obj (y : option bytes) : option FieldMap := y ≫= decoded.

(** Writes that keep the unique index exact on the snapshot [m]. *)
Record unique_writes (m : bmap bytes) (ws : list op) : Prop := {
  uw_new tn tid f fid o y b : ufield tn tid f fid -> is_u64 o ->
    last_op (KeyBuilder.object tid o) ws = Some y -> uval f (new_obj y) = Some b ->
    last_op (KeyBuilder.unique_index tid fid b) ws = Some (Some (be64 o)) \/
    (last_op (KeyBuilder.unique_index tid fid b) ws = None /\ uval f (obj m tid o) = Some b);
  uw_old tn tid f fid o y b : ufield tn tid f fid -> is_u64 o ->
    last_op (KeyBuilder.object tid o) ws = Some y -> uval f (obj m tid o) = Some b ->
    uval f (new_obj y) = Some b \/ is_Some (last_op (KeyBuilder.unique_index tid fid b) ws);
  uw_put tn tid f fid b x : ufield tn tid f fid -> last_op (KeyBuilder.unique_index tid fid b) ws = Some (Some x) ->
    exists o y, is_u64 o /\ x = be64 o /\ last_op (KeyBuilder.object tid o) ws = Some y /\ uval f (new_obj y) = Some b /\
      forall z, bm_get (KeyBuilder.unique_index tid fid b) m = Some z -> z = be64 o;
  uw_del tn tid f fid b : ufield tn tid f fid -> last_op (KeyBuilder.unique_index tid fid b) ws = Some None ->
    exists o y, is_u64 o /\ last_op (KeyBuilder.object tid o) ws = Some y /\ uval f (obj m tid o) = Some b;
}.

Lemma obj_unchanged ws m m' tid o y :
  unchanged ws m m' -> last_op (KeyBuilder.object tid o) ws = Some y -> obj m tid o = obj m' tid o.
Proof. intros H E. unfold obj. by rewrite (unchanged_last _ _ _ _ _ H E). Qed.

Lemma obj_apply ws m tid o : bsorted m ->
  obj (apply_ops ws m) tid o = match last_op (KeyBuilder.object tid o) ws with Some y => new_obj y | None => obj m tid o end.
Proof. intros Hs. unfold obj. rewrite bm_get_apply_ops by done. by destruct (last_op _ ws). Qed.

Lemma unique_preserved m m' ws :
  bsorted m' -> unique_exact m -> unique_exact m' -> unchanged ws m m' -> unique_writes m ws ->
  unique_exact (apply_ops ws m').
Proof.
  intros Hs [Hr Ho] [Hr' Ho'] Hu [Wn Wo Wp Wd]. split.
  - intros tn tid f fid o b Hf Hu64 Hb. rewrite obj_apply in Hb by done. rewrite bm_get_apply_ops by done.
    destruct (last_op (KeyBuilder.object tid o) ws) as [y|] eqn:Ey.
    + destruct (Wn tn tid f fid o y b Hf Hu64 Ey Hb) as [->|[-> Hold]]; [done|].
      eapply Hr'; [done|done|]. by rewrite <- (obj_unchanged ws m m' tid o y).
    + pose proof (Hr' tn tid f fid o b Hf Hu64 Hb) as Hrow.
      destruct (last_op (KeyBuilder.unique_index tid fid b) ws) as [x|] eqn:Ex; [|done]. exfalso.
      pose proof (unchanged_last _ _ _ _ _ Hu Ex) as Eu. rewrite Hrow in Eu. destruct x as [x|].
      * destruct (Wp tn tid f fid b x Hf Ex) as (o' & y & Hu' & -> & Ey' & _ & Hz). apply Hz in Eu.
        apply be64_inj in Eu; [|done..]. subst. congruence.
      * destruct (Wd tn tid f fid b Hf Ex) as (o' & y & Hu' & Ey' & Hb').
        rewrite (Hr tn tid f fid o' b Hf Hu' Hb') in Eu. apply (inj Some) in Eu.
        apply be64_inj in Eu; [|done..]. subst. congruence.
  - intros tn tid f fid b x Hf Hx. rewrite bm_get_apply_ops in Hx by done.
    destruct (last_op (KeyBuilder.unique_index tid fid b) ws) as [z|] eqn:Ez.
    + subst z. destruct (Wp tn tid f fid b x Hf Ez) as (o & y & Hu' & -> & Ey & Hb & _). exists o.
      split_and!; [done..|]. rewrite obj_apply by done. by rewrite Ey.
    + destruct (Ho' tn tid f fid b x Hf Hx) as (o & Hu' & -> & Hb). exists o. split; [done|]. split; [done|].
      rewrite obj_apply by done. destruct (last_op (KeyBuilder.object tid o) ws) as [y|] eqn:Ey; [|done].
      destruct (Wo tn tid f fid o y b Hf Hu' Ey) as [H|[z H]]; [|done|congruence].
      by rewrite (obj_unchanged ws m m' tid o y).
Qed.

(** Two objects never share a unique value. *)
Lemma unique_exact_inj m tn tid f fid o o' b :
  unique_exact m -> ufield tn tid f fid -> is_u64 o -> is_u64 o' ->
  uval f (obj m tid o) = Some b -> uval f (obj m tid o') = Some b -> o = o'.
Proof.
  intros [Hr _] Hf H1 H2 E1 E2. pose proof (Hr _ _ _ _ _ _ Hf H1 E1) as R1.
  rewrite (Hr _ _ _ _ _ _ Hf H2 E2) in R1. apply (inj Some) in R1. symmetry. by apply be64_inj in R1.
Qed.

(** ** The caches *)

Lemma types_get tn td : bm_get tn (types (schema db)) = Some td <-> get_type (schema db) tn = Some td.
Proof. done. Qed.

Lemma in_types tn td : db_ok -> In (tn, td) (types (schema db)) -> get_type (schema db) tn = Some td.
Proof. intros Hdb H. apply bm_get_in in H; [done|apply (ok_types_sorted Hdb)]. Qed.

Lemma cascade_meta_built tids rids ts metas t meta :
  build_cascade_meta tids rids ts = EOk metas -> zget t metas = Some meta ->
  exists td, In (cm_type_name meta, td) ts /\ bm_get (cm_type_name meta) tids = Some t /\
    has_unique meta = existsb is_unique (fields td) /\ has_indexed meta = existsb is_indexed (fields td) /\
    forward_of_fields rids (cm_type_name meta) (fields td) = EOk (forward_relations meta).
Proof.
  revert metas. induction ts as [|[tn td] ts IH]; intros metas H Hz; cbn [build_cascade_meta] in H.
  { injection H as <-. done. }
  ebind H. apply idx_ok in E. ebind H. ebind H. injection H as <-. cbn [zget] in Hz.
  destruct (Z.eqb_spec t a) as [->|Hne].
  - injection Hz as <-. cbn. exists td. split_and!; [by left|done..].
  - destruct (IH _ E1 Hz) as (td' & Hin & H'). exists td'. split; [by right|done].
Qed.

Lemma cascade_meta_type t meta : db_ok -> zget t (cascade_meta_by_id db) = Some meta ->
  exists td, type_of (cm_type_name meta) td t /\
    has_unique meta = existsb is_unique (fields td) /\ has_indexed meta = existsb is_indexed (fields td) /\
    forward_of_fields (rel_ids db) (cm_type_name meta) (fields td) = EOk (forward_relations meta).
Proof.
  intros Hdb Hz. destruct (cascade_meta_built _ _ _ _ _ _ (ok_cascade Hdb) Hz) as (td & Hin & Ht & H).
  exists td. split; [|done]. split; [by apply in_types|done].
Qed.

Lemma indexed_of_fields_spec fids tn fs : forall l, indexed_of_fields fids tn fs = EOk l ->
  forall ifd, In ifd l -> exists f, In f fs /\ is_indexed f = true /\ if_name ifd = fd_name f /\
    if_kind ifd = indexed_kind (field_type f) /\ bm_get (qualified tn (fd_name f)) fids = Some (if_field_id ifd).
Proof.
  induction fs as [|f fs IH]; intros l H ifd Hin; cbn [indexed_of_fields] in H; [by injection H as <-|].
  assert (Hrec : forall l', indexed_of_fields fids tn fs = EOk l' -> In ifd l' -> exists f0, In f0 (f :: fs) /\ is_indexed f0 = true /\
    if_name ifd = fd_name f0 /\ if_kind ifd = indexed_kind (field_type f0) /\
    bm_get (qualified tn (fd_name f0)) fids = Some (if_field_id ifd)).
  { intros l' Hl' Hin'. destruct (IH l' Hl' ifd Hin') as (f0 & H0 & H1). exists f0. split; [by right|done]. }
  destruct (is_indexed f) eqn:Ei; [|by eapply Hrec]. ebind H. apply idx_ok in E. ebind H. injection H as <-.
  destruct Hin as [<-|Hin]; [|by eapply Hrec]. exists f. split_and!; [by left|done..].
Qed.

Lemma build_indexed_get fids ts : forall m tn l, build_indexed fids ts = EOk m -> bm_get tn m = Some l ->
  exists td, In (tn, td) ts /\ indexed_of_fields fids tn (fields td) = EOk l.
Proof.
  induction ts as [|[tn' td] ts IH]; intros m tn l H Hg; cbn [build_indexed] in H; [by injection H as <-|].
  ebind H. ebind H. injection H as <-.
  assert (Hrec : bm_get tn a0 = Some l -> exists td0, In (tn, td0) ((tn', td) :: ts) /\ indexed_of_fields fids tn (fields td0) = EOk l).
  { intros Hg'. destruct (IH _ tn l E0 Hg') as (td' & Hin & H'). exists td'. split; [by right|done]. }
  destruct a as [|i a]; [by apply Hrec|]. cbn [bm_get] in Hg. destruct (beqb_spec tn tn') as [->|]; [|by apply Hrec].
  injection Hg as <-. exists td. split; [by left|done].
Qed.

(** ** The secondary indexes *)

Definition ifields (tn : bytes) : list IndexedField := default [] (bm_get tn (indexed_fields db)).

Lemma ifields_spec tn td ifd : db_ok -> get_type (schema db) tn = Some td -> In ifd (ifields tn) ->
  exists f, In f (fields td) /\ is_indexed f = true /\ if_name ifd = fd_name f /\
    if_kind ifd = indexed_kind (field_type f) /\ bm_get (qualified tn (fd_name f)) (field_ids db) = Some (if_field_id ifd).
Proof.
  intros Hdb Ht Hin. unfold ifields in Hin. destruct (bm_get tn (indexed_fields db)) as [l|] eqn:El; [|done].
  destruct (build_indexed_get _ _ _ tn l (ok_indexed Hdb) El) as (td' & Hin' & Hb). apply in_types in Hin'; [|done].
  assert (td' = td) as -> by congruence. by eapply indexed_of_fields_spec.
Qed.

(** The index row of a field of an object. *)
Definition ikey (tid o : Z) (fm : FieldMap) (ifd : IndexedField) : option bytes :=
  v ← non_null (bm_get (if_name ifd) fm); build_field_index_key tid (if_field_id ifd) (if_kind ifd) v o.

Record index_exact (m : bmap bytes) : Prop := {
  ie_row tn td tid o ifd fm k : type_of tn td tid -> is_u64 o -> In ifd (ifields tn) -> obj m tid o = Some fm ->
    ikey tid o fm ifd = Some k -> exists c, bm_get k m = Some c /\ decoded c = Some fm;
  ie_object k c : in_family FieldIndex k -> bm_get k m = Some c ->
    exists tn td tid o ifd fm, type_of tn td tid /\ is_u64 o /\ In ifd (ifields tn) /\ obj m tid o = Some fm /\
      ikey tid o fm ifd = Some k;
}.

(** The row determines the type and the object. *)
Lemma index_key_inj t f kd v o t' f' kd' v' o' k :
  build_field_index_key t f kd v o = Some k -> build_field_index_key t' f' kd' v' o' = Some k ->
  be64 t = be64 t' /\ be64 o = be64 o'.
Proof.
  assert (H : forall t f kd v o, build_field_index_key t f kd v o = Some k -> exists e,
    k = [prefix_u8 FieldIndex] ++ [SEPARATOR] ++ be64 t ++ e ++ be64 o).
  { clear. intros t f kd v o H. unfold build_field_index_key in H.
    assert (H' : (exists e, k = KeyBuilder.field_index t f e o) \/ exists e, k = KeyBuilder.field_index_var t f e o).
    { destruct kd;
        [destruct (encode_int_for_zone v)|destruct (encode_bool_for_index v)|destruct (encode_float_for_index v)|destruct v|destruct v];
        cbn [mbind option_bind] in H; try done; apply (inj Some) in H; subst k;
        [left; eexists; reflexivity..|right; eexists; reflexivity|right; eexists; reflexivity]. }
    unfold KeyBuilder.field_index, KeyBuilder.field_index_var in H'. destruct H' as [[e ->]|[e ->]].
    - exists ([SEPARATOR] ++ be64 f ++ [SEPARATOR] ++ e ++ [SEPARATOR]). by rewrite <- !app_assoc.
    - exists ([SEPARATOR] ++ be64 f ++ [SEPARATOR] ++ e). by rewrite <- !app_assoc. }
  intros H1 H2. apply H in H1 as (e & ->). apply H in H2 as (e' & E). split_key E. split; [done|].
  by apply app_inj_2 in E as [_ E]; [|rewrite !length_be64].
Qed.

Record index_writes (m : bmap bytes) (ws : list op) : Prop := {
  iw_new tn td tid o ifd y fm k : type_of tn td tid -> is_u64 o -> In ifd (ifields tn) ->
    last_op (KeyBuilder.object tid o) ws = Some y -> new_obj y = Some fm -> ikey tid o fm ifd = Some k ->
    (exists c, last_op k ws = Some (Some c) /\ decoded c = Some fm) \/ (last_op k ws = None /\ obj m tid o = Some fm);
  iw_old tn td tid o ifd y fm k : type_of tn td tid -> is_u64 o -> In ifd (ifields tn) ->
    last_op (KeyBuilder.object tid o) ws = Some y -> obj m tid o = Some fm -> ikey tid o fm ifd = Some k ->
    (exists fm', new_obj y = Some fm' /\ ikey tid o fm' ifd = Some k) \/ is_Some (last_op k ws);
  iw_put k c : in_family FieldIndex k -> last_op k ws = Some (Some c) ->
    exists tn td tid o ifd fm y, type_of tn td tid /\ is_u64 o /\ In ifd (ifields tn) /\
      last_op (KeyBuilder.object tid o) ws = Some y /\ new_obj y = Some fm /\ ikey tid o fm ifd = Some k;
  iw_del k : in_family FieldIndex k -> last_op k ws = Some None ->
    exists tid o f kd v y, build_field_index_key tid f kd v o = Some k /\
      last_op (KeyBuilder.object tid o) ws = Some y;
}.

Lemma ikey_build tid o fm ifd k : ikey tid o fm ifd = Some k ->
  exists v, build_field_index_key tid (if_field_id ifd) (if_kind ifd) v o = Some k.
Proof. unfold ikey. destruct (non_null _); [|done]. cbn. eauto. Qed.

Lemma object_be64 t o t' o' : be64 t = be64 t' -> be64 o = be64 o' -> KeyBuilder.object t o = KeyBuilder.object t' o'.
Proof. intros E1 E2. unfold KeyBuilder.object. by rewrite E1, E2. Qed.

Lemma index_preserved m m' ws :
  bsorted m' -> index_exact m' -> unchanged ws m m' -> index_writes m ws -> index_exact (apply_ops ws m').
Proof.
  intros Hs [Hr Ho] Hu [Wn Wo Wp Wd]. split.
  - intros tn td tid o ifd fm k Ht Hu64 Hi Hob Hk. rewrite obj_apply in Hob by done. rewrite bm_get_apply_ops by done.
    destruct (last_op (KeyBuilder.object tid o) ws) as [y|] eqn:Ey.
    + destruct (Wn tn td tid o ifd y fm k) as [(c & -> & Hc)|[-> Hold]]; [done..|by exists c|].
      eapply Hr; [done..| |done]. by rewrite <- (obj_unchanged ws m m' tid o y).
    + destruct (Hr tn td tid o ifd fm k Ht Hu64 Hi Hob Hk) as (c & Hc & Hd).
      destruct (last_op k ws) as [x|] eqn:Ex; [|by exists c]. exfalso.
      apply ikey_build in Hk as (v & Hb). pose proof (build_key_family _ _ _ _ _ _ Hb) as Hfam. destruct x as [x|].
      * destruct (Wp k x Hfam Ex) as (tn' & td' & tid' & o' & ifd' & fm' & y & _ & _ & _ & Ey' & _ & Hk').
        apply ikey_build in Hk' as (v' & Hb'). destruct (index_key_inj _ _ _ _ _ _ _ _ _ _ _ Hb Hb') as [E1 E2].
        rewrite (object_be64 tid o tid' o') in Ey by done. congruence.
      * destruct (Wd k Hfam Ex) as (tid' & o' & f' & kd' & v' & y & Hb' & Ey').
        destruct (index_key_inj _ _ _ _ _ _ _ _ _ _ _ Hb Hb') as [E1 E2].
        rewrite (object_be64 tid o tid' o') in Ey by done. congruence.
  - intros k c Hfam Hc. rewrite bm_get_apply_ops in Hc by done. destruct (last_op k ws) as [z|] eqn:Ez.
    + subst z. destruct (Wp k c Hfam Ez) as (tn & td & tid & o & ifd & fm & y & Ht & Hu64 & Hi & Ey & Hn & Hk).
      exists tn, td, tid, o, ifd, fm. split_and!; try done. rewrite obj_apply by done. by rewrite Ey.
    + destruct (Ho k c Hfam Hc) as (tn & td & tid & o & ifd & fm & Ht & Hu64 & Hi & Hob & Hk).
      destruct (last_op (KeyBuilder.object tid o) ws) as [y|] eqn:Ey.
      * assert (Hob' : obj m tid o = Some fm) by (by rewrite (obj_unchanged ws m m' tid o y)).
        destruct (Wo tn td tid o ifd y fm k Ht Hu64 Hi Ey Hob' Hk) as [(fm' & Hn & Hk')|[z Hz]]; [|congruence].
        exists tn, td, tid, o, ifd, fm'. split_and!; try done. rewrite obj_apply by done. by rewrite Ey.
      * exists tn, td, tid, o, ifd, fm. split_and!; try done. rewrite obj_apply by done. by rewrite Ey.
Qed.

(** ** Blobs and object ids *)

(** The object rows carry ids handed out, those of [n]. *)
Definition ids_used (n : list Z) (m : bmap bytes) : Prop :=
  forall k, in_family Keys.Object k -> is_Some (bm_get k m) -> exists t o, k = KeyBuilder.object t o /\ is_u64 o /\ In o n.

Record blob_writes (n : list Z) (ws : list op) : Prop := {
  bw_ok tn td tid o data : type_of tn td tid -> last_op (KeyBuilder.object tid o) ws = Some (Some data) ->
    exists fm, des data = EOk fm /\ obj_ok td fm;
  bw_stored tn td tid o data : type_of tn td tid -> last_op (KeyBuilder.object tid o) ws = Some (Some data) -> stored data;
  bw_id k x : in_family Keys.Object k -> last_op k ws = Some (Some x) -> exists t o, k = KeyBuilder.object t o /\ is_u64 o /\ In o n;
}.

Lemma blobs_preserved n m ws : bsorted m -> blobs_ok m -> blob_writes n ws -> blobs_ok (apply_ops ws m).
Proof.
  intros Hs Hm [Wb _ _] tn td tid o data Ht. rewrite bm_get_apply_ops by done.
  destruct (last_op _ ws) as [x|] eqn:E; [intros ->; by eapply Wb|by eapply Hm].
Qed.

Lemma stored_preserved n m ws : bsorted m -> blobs_stored m -> blob_writes n ws -> blobs_stored (apply_ops ws m).
Proof.
  intros Hs Hm [_ Wb _] tn td tid o data Ht. rewrite bm_get_apply_ops by done.
  destruct (last_op _ ws) as [x|] eqn:E; [intros ->; by eapply Wb|by eapply Hm].
Qed.

Lemma ids_preserved n m ws : bsorted m -> ids_used n m -> blob_writes n ws -> ids_used n (apply_ops ws m).
Proof.
  intros Hs Hm [_ _ Wi] k Hf. rewrite bm_get_apply_ops by done. destruct (last_op k ws) as [[x|]|] eqn:E; [|by intros []|by apply Hm].
  intros _. by eapply Wi.
Qed.

Lemma ids_used_mono n n' m : incl n n' -> ids_used n m -> ids_used n' m.
Proof. intros Hn H k Hf Hk. destruct (H k Hf Hk) as (t & o & -> & Hu & Ho). exists t, o. split_and!; [done..|]. by apply Hn. Qed.

(** ** The whole invariant *)

Record store_ok (n : list Z) (m : bmap bytes) : Prop := {
  so_sorted : bsorted m;
  so_blobs : blobs_ok m;
  so_stored : blobs_stored m;
  so_ids : ids_used n m;
  so_unique : unique_exact m;
  so_index : index_exact m;
  so_mirror : mirror m;
  so_shaped : edges_shaped m;
}.

(** Writes staged on the snapshot [m] that keep it, at object ids of [n]. *)
Record good_writes (n : list Z) (m : bmap bytes) (ws : list op) : Prop := {
  gw_blobs : blob_writes n ws;
  gw_unique : unique_writes m ws;
  gw_index : index_writes m ws;
  gw_edges : edge_writes m ws;
  gw_shaped : edge_keys_written ws;
}.

Lemma store_preserved n m m' ws :
  store_ok n m -> store_ok n m' -> unchanged ws m m' -> good_writes n m ws -> store_ok n (apply_ops ws m').
Proof.
  intros H H' Hu [Hb Hq Hi He Hk]. pose proof (so_sorted n m' H') as Hs. split.
  - by apply apply_ops_sorted.
  - by apply (blobs_preserved n); [|apply H'|].
  - by apply (stored_preserved n); [|apply H'|].
  - by apply ids_preserved; [|apply H'|].
  - by apply (unique_preserved m); [|apply H|apply H'| |].
  - by apply (index_preserved m); [|apply H'| |].
  - by apply (mirror_preserved m); [|apply H'| |].
  - by apply edges_shaped_preserved; [|apply H'|].
Qed.

Lemma store_ok_mono n n' m : incl n n' -> store_ok n m -> store_ok n' m.
Proof. intros Hn [? ? ? Hi ? ? ? ?]. split; [done..| |done|done|done|done]. by eapply ids_used_mono. Qed.

Lemma good_writes_mono n n' m ws : incl n n' -> good_writes n m ws -> good_writes n' m ws.
Proof.
  intros Hn [[Hb Hbs Hi] ? ? ? ?]. split; try done. split; [done|done|]. intros k x Hf E.
  destruct (Hi k x Hf E) as (t & o & -> & Hu & Ho). exists t, o. split_and!; [done..|]. by apply Hn.
Qed.

(** Writes of edges only. *)
Lemma good_writes_edges n m ws :
  only [Keys.Edge; ReverseEdge] ws -> edge_writes m ws -> edge_keys_written ws -> good_writes n m ws.
Proof.
  intros Ho He Hs.
  assert (Hn : forall p k, in_family p k -> p <> Keys.Edge -> p <> ReverseEdge -> last_op k ws = None).
  { intros p k Hf H1 H2. eapply last_op_only; [exact Ho|exact Hf|]. cbn. intuition congruence. }
  assert (Ho' : forall t o, last_op (KeyBuilder.object t o) ws = None) by (intros; by apply (Hn Keys.Object)).
  assert (Hu' : forall t f b, last_op (KeyBuilder.unique_index t f b) ws = None) by (intros; by apply (Hn Keys.Unique)).
  assert (Hi' : forall k, in_family FieldIndex k -> last_op k ws = None) by (intros; by apply (Hn FieldIndex)).
  assert (Hob : forall k, in_family Keys.Object k -> last_op k ws = None) by (intros; by apply (Hn Keys.Object)).
  split; [..|done|done].
  - split; [intros tn td tid o data _; by rewrite Ho'|intros tn td tid o data _; by rewrite Ho'|]. intros k x Hf. by rewrite Hob.
  - split; intros *; rewrite ?Ho', ?Hu'; try done; intros; congruence.
  - split; try (intros *; rewrite Ho'; intros; congruence); intros *; intros Hf; by rewrite Hi'.
Qed.
End inv.
