(* ===== verification/EngineTxn.v ===== *)
(** * The operations keep the invariant

    Every operation of the engine, staged on a snapshot that satisfies the
    invariant, produces writes that preserve it ([good_writes]). *)

From Stdlib Require Import ZArith Lia Bool List Strings.Byte Strings.String.
From stdpp Require Import base tactics option list gmap.
From S2P Require Import Prelude ByteMap Keys Utf8 Values Ieee Schema IndexKeys Posting Store Fulltext.
From S2P Require Import Engine EngineEdges EngineOps EngineDelete EngineInv.

Local Open Scope Z_scope.
Local Open Scope bytes_scope.

Section txn.
Context {J : Json} {T : TextLib} {L : EngineLib}.
Variable db : Database.
Hypothesis Hdb : db_ok db.

(** ** Links *)

Lemma pair_good n m ws : pairs ws -> good_writes db n m ws.
Proof.
  intros Hp. apply good_writes_edges; [|by apply edge_writes_pairs|by apply edge_keys_written_forall, shaped_pairs].
  induction Hp as [|s r t a b ws _ _ IH]; [apply only_nil|]. rewrite !only_cons. split_and!; [| |done].
  - exists Keys.Edge. split; [by left|done].
  - exists ReverseEdge. split; [by right; left|done].
Qed.

Lemma link_good n m vc st sid f tid ef ws : link db m vc st sid f tid ef = EOk ws -> good_writes db n m ws.
Proof.
  unfold link. intros H. repeat (ebind H; try (rename a into a')). destruct (mem_z _ _); [done|]. ebind H. injection H as <-.
  apply pair_good. constructor; [by split|constructor].
Qed.

Lemma unlink_good n m st sid f tid ws : unlink db st sid f tid = EOk ws -> good_writes db n m ws.
Proof.
  unfold unlink. intros H. ebind H. ebind H. destruct (mem_z _ _); [done|]. injection H as <-.
  apply pair_good. constructor; [by split; intros []|constructor].
Qed.

Lemma renews_good n m ws : renews m ws -> good_writes db n m ws.
Proof.
  intros H. apply good_writes_edges; [|by apply edge_writes_renews|by eapply edge_keys_written_forall, shaped_renews].
  eapply Forall_impl; [exact H|]. intros o (t & r & s & -> & _). exists ReverseEdge. split; [by right; left|done].
Qed.

Lemma refresh_good n m_read m vc t o ws :
  mirror m -> edges_shaped m -> refresh_covers_for_target db m_read m vc t o = EOk ws -> good_writes db n m ws.
Proof.
  intros Hm Hs H. apply renews_good. unfold refresh_covers_for_target in H. revert ws H.
  generalize (cover_sources db m_read t o). intros l. induction l as [|[st sid] l IH]; intros ws H; cbn [refresh_sources] in H.
  { injection H as <-. constructor. }
  destruct (type_name_by_id db st); [|by apply IH]. destruct (bm_get _ m); [|by apply IH].
  ebind H. ebind H. injection H as <-. apply Forall_app. split; [by eapply refresh_renews|by apply IH].
Qed.

(** ** Delete *)

Definition tombstones (ks : list bytes) : list op := map (fun k => (k, None)) ks.

Lemma last_op_tombstones_some k ks x : last_op k (tombstones ks) = Some x <-> x = None /\ In k ks.
Proof.
  split.
  - intros E. apply last_op_some in E. by apply in_map_iff in E as (k' & [= -> <-] & Hin).
  - intros [-> Hin]. destruct (last_op k (tombstones ks)) as [x|] eqn:E.
    + apply last_op_some in E. by apply in_map_iff in E as (k' & [= -> <-] & _).
    + apply last_op_none in E. exfalso. apply E. unfold tombstones. rewrite map_map. apply in_map_iff. by exists k.
Qed.

Lemma unique_tombstones_spec tn tid fm fs : forall ks, unique_tombstones db tn tid fm fs = EOk ks ->
  forall k, In k ks <-> exists f v fid, In f fs /\ is_unique f = true /\ non_null (bm_get (fd_name f) fm) = Some v /\
    bm_get (qualified tn (fd_name f)) (field_ids db) = Some fid /\ k = KeyBuilder.unique_index tid fid (value_to_index_bytes v).
Proof.
  induction fs as [|f fs IH]; intros ks H k; cbn [unique_tombstones] in H.
  { injection H as <-. split; [done|]. by intros (? & ? & ? & [] & _). }
  destruct (is_unique f) eqn:Eu; [destruct (non_null (bm_get (fd_name f) fm)) as [v|] eqn:Ev|].
  - ebind H. apply idx_ok in E. ebind H. injection H as <-. cbn [In]. rewrite (IH _ E0). split.
    + intros [<-|(f' & v' & fid & Hf & H)]; [exists f, v, a; by split_and!; [left|..]|].
      exists f', v', fid. split; [by right|done].
    + intros (f' & v' & fid & [<-|Hf] & H1 & H2 & H3 & ->); [left; congruence|right].
      exists f', v', fid. done.
  - rewrite (IH _ H). split; [intros (f' & v' & fid & Hf & H'); exists f', v', fid; split; [by right|done]|].
    intros (f' & v' & fid & [<-|Hf] & H1 & H2 & H'); [congruence|]. exists f', v', fid. done.
  - rewrite (IH _ H). split; [intros (f' & v' & fid & Hf & H'); exists f', v', fid; split; [by right|done]|].
    intros (f' & v' & fid & [<-|Hf] & H1 & H2 & H'); [congruence|]. exists f', v', fid. done.
Qed.

Lemma konly_not_in ps p k ks : konly ps ks -> in_family p k -> ~ In p ps -> ~ In k ks.
Proof.
  intros Ho Hf Hn Hin. unfold konly in Ho. rewrite List.Forall_forall in Ho. apply Ho in Hin as (q & Hq & Hf').
  unfold in_family in *. rewrite Hf in Hf'. injection Hf' as E. apply prefix_u8_inj in E. by subst.
Qed.

(** What the index rows of an object are, when its type has an index. *)
Lemma payload_unique m x pks td tn : payload db m x pks -> type_of db tn td (fst x) ->
  forall k, in_family Keys.Unique k -> In k pks <-> exists fm f v fid, obj m (fst x) (snd x) = Some fm /\ In f (fields td) /\
    is_unique f = true /\ non_null (bm_get (fd_name f) fm) = Some v /\
    bm_get (qualified tn (fd_name f)) (field_ids db) = Some fid /\
    k = KeyBuilder.unique_index (fst x) fid (value_to_index_bytes v).
Proof.
  intros (meta & b & d & d' & Hz & Hp) Ht k Hk. destruct (cascade_meta_type db _ _ Hdb Hz) as (td' & Ht' & Hu & _).
  destruct (type_of_inj db _ _ _ _ _ Hdb Ht Ht') as [-> <-]. clear Ht'.
  assert (Hnu : has_unique meta = false -> forall f, In f (fields td) -> is_unique f = true -> False).
  { intros Hm f Hf Hq. rewrite Hu in Hm. assert (existsb is_unique (fields td) = true); [|congruence]. apply existsb_exists. eauto. }
  unfold payload_tombstones in Hp. unfold obj.
  destruct (has_unique meta || has_indexed meta || has_scalar meta || b) eqn:Eg.
  2:{ injection Hp as <- <-. split; [done|]. intros (fm & f & v & fid & _ & Hf & Hq & _).
      destruct (Hnu ltac:(by destruct (has_unique meta)) f Hf Hq). }
  destruct (bm_get (KeyBuilder.object (fst x) (snd x)) m) as [data|]; cbn [mbind option_bind].
  2:{ destruct b; [done|]. injection Hp as <- <-. split; [done|]. by intros (fm & f & v & fid & ? & _). }
  unfold decoded. ebind Hp. rewrite E. ebind Hp. destruct (fulltext_tombstones _ _ _ _ _ _ _) as [ft d1] eqn:Ef.
  injection Hp as <- <-. rewrite !in_app_iff.
  assert (Hi : ~ In k (index_tombstones db (cm_type_name meta) (fst x) (snd x) a)).
  { eapply konly_not_in; [apply index_tombstones_only|exact Hk|]. cbn. intuition congruence. }
  assert (Hft : ~ In k ft).
  { change ft with (fst (ft, d1)). rewrite <- Ef. eapply konly_not_in; [apply fulltext_tombstones_only|exact Hk|]. cbn. intuition congruence. }
  assert (Hu' : In k a0 <-> exists f v fid, In f (fields td) /\ is_unique f = true /\ non_null (bm_get (fd_name f) a) = Some v /\
    bm_get (qualified (cm_type_name meta) (fd_name f)) (field_ids db) = Some fid /\
    k = KeyBuilder.unique_index (fst x) fid (value_to_index_bytes v)).
  { destruct (has_unique meta) eqn:Em.
    - destruct Ht as [Ht _]. rewrite Ht in E0. by apply unique_tombstones_spec.
    - injection E0 as <-. split; [done|]. intros (f & v & fid & Hf & Hq & _). by eapply Hnu. }
  rewrite Hu'. split.
  - intros [(f & v & fid & H)|[?|?]]; [|done..]. by exists a, f, v, fid.
  - intros (fm & f & v & fid & [= <-] & H). left. by exists f, v, fid.
Qed.

Lemma payload_index m x pks td tn : payload db m x pks -> type_of db tn td (fst x) ->
  forall k, in_family FieldIndex k -> In k pks <-> exists fm ifd, obj m (fst x) (snd x) = Some fm /\ In ifd (ifields db tn) /\
    ikey (fst x) (snd x) fm ifd = Some k.
Proof.
  intros (meta & b & d & d' & Hz & Hp) Ht k Hk. destruct (cascade_meta_type db _ _ Hdb Hz) as (td' & Ht' & _ & Hi & _).
  destruct (type_of_inj db _ _ _ _ _ Hdb Ht Ht') as [-> <-]. clear Ht'. destruct Ht as [Ht _].
  assert (Hni : has_indexed meta = false -> forall ifd, In ifd (ifields db (cm_type_name meta)) -> False).
  { intros Hm ifd Hin. destruct (ifields_spec db _ td ifd Hdb Ht Hin) as (f & Hf & Hq & _). rewrite Hi in Hm.
    assert (existsb is_indexed (fields td) = true); [|congruence]. apply existsb_exists. eauto. }
  unfold payload_tombstones in Hp. unfold obj.
  destruct (has_unique meta || has_indexed meta || has_scalar meta || b) eqn:Eg.
  2:{ injection Hp as <- <-. split; [done|]. intros (fm & ifd & _ & Hin & _).
      destruct (Hni ltac:(by destruct (has_unique meta), (has_indexed meta)) ifd Hin). }
  destruct (bm_get (KeyBuilder.object (fst x) (snd x)) m) as [data|]; cbn [mbind option_bind].
  2:{ destruct b; [done|]. injection Hp as <- <-. split; [done|]. by intros (fm & ifd & ? & _). }
  unfold decoded. ebind Hp. rewrite E. ebind Hp. destruct (fulltext_tombstones _ _ _ _ _ _ _) as [ft d1] eqn:Ef.
  injection Hp as <- <-. rewrite !in_app_iff.
  assert (Hu : ~ In k a0).
  { destruct (if has_unique meta then _ else None); [|injection E0 as <-; intros []].
    eapply konly_not_in; [by eapply unique_tombstones_only|exact Hk|]. cbn. intuition congruence. }
  assert (Hft : ~ In k ft).
  { change ft with (fst (ft, d1)). rewrite <- Ef. eapply konly_not_in; [apply fulltext_tombstones_only|exact Hk|]. cbn. intuition congruence. }
  assert (Hin : In k (index_tombstones db (cm_type_name meta) (fst x) (snd x) a) <->
    exists ifd, In ifd (ifields db (cm_type_name meta)) /\ ikey (fst x) (snd x) a ifd = Some k).
  { unfold index_tombstones, ifields, ikey. rewrite <- list_elem_of_In, list_elem_of_omap. split; intros (ifd & Hd & Hv); exists ifd.
    - rewrite <- list_elem_of_In. split; [done|]. destruct (non_null _); [|done]. cbn in *. by rewrite <- index_tombstone_key.
    - rewrite list_elem_of_In. split; [done|]. destruct (non_null _); [|done]. cbn in *. by rewrite index_tombstone_key. }
  rewrite Hin. split.
  - intros [?|[(ifd & H1 & H2)|?]]; [done| |done]. by exists a, ifd.
  - intros (fm & ifd & [= <-] & H1 & H2). right. left. by exists ifd.
Qed.

Section walk_writes.
Variables (m : bmap bytes) (vc : Counters) (w w' : Walk) (new : list (Z * Z)) (ks : list bytes).
Hypothesis G : grows db m vc w w' new ks.

Lemma own_row_object k x : In k (own_rows vc (fst x) (snd x)) -> in_family Keys.Object k ->
  k = KeyBuilder.object (fst x) (snd x).
Proof. unfold own_rows. intros [<-|H] Hf; [done|]. repeat case_match; try done. by destruct H as [<-|[]]. Qed.

Lemma walk_key_source p k : in_family p k -> In p (payload_families ++ own_families) -> In k ks ->
  exists x pks, In x new /\ payload db m x pks /\ In k (pks ++ own_rows vc (fst x) (snd x)).
Proof.
  intros Hf Hp Hk. destruct (gr_keys _ _ _ _ _ _ _ G k Hk) as [(q & Hq & Hf')|H]; [|done].
  exfalso. unfold in_family in *. rewrite Hf in Hf'. injection Hf' as E. apply prefix_u8_inj in E. subst q.
  cbn in Hp, Hq. intuition congruence.
Qed.

(** An object row that is deleted is that of an object reached, whose other
    rows are deleted too. *)
Lemma walk_object tid o : In (KeyBuilder.object tid o) ks -> exists x pks, In x new /\
  KeyBuilder.object (fst x) (snd x) = KeyBuilder.object tid o /\ payload db m x pks /\ forall k, In k pks -> In k ks.
Proof.
  intros Hk. destruct (walk_key_source Keys.Object (KeyBuilder.object tid o) eq_refl ltac:(cbn; tauto) Hk) as (x & pks & Hx & Hp & Hin).
  destruct (gr_rows _ _ _ _ _ _ _ G x Hx) as (pks' & Hp' & Hr).
  exists x, pks'. split_and!; [done| |done|intros k Hk'; apply Hr, in_or_app; by left].
  apply in_app_or in Hin as [Hin|Hin]; [|by apply own_row_object in Hin].
  exfalso. destruct Hp as (meta & b & d & d' & _ & Hp). apply payload_only in Hp.
  revert Hin. eapply konly_not_in; [exact Hp|done|]. cbn. intuition congruence.
Qed.

(** An index row that is deleted comes from an object reached, which is deleted. *)
Lemma walk_index_source p k : in_family p k -> In p [Keys.Unique; FieldIndex] -> In k ks ->
  exists x pks, payload db m x pks /\ In k pks /\ In (KeyBuilder.object (fst x) (snd x)) ks.
Proof.
  intros Hf Hp Hk. destruct (walk_key_source p k Hf ltac:(cbn in *; tauto) Hk) as (x & pks & Hx & Hpl & Hin).
  exists x, pks. split_and!; [done| |].
  - apply in_app_or in Hin as [Hin|Hin]; [done|]. exfalso. revert Hin. eapply konly_not_in; [apply own_rows_only|exact Hf|].
    cbn in *. intuition congruence.
  - destruct (gr_rows _ _ _ _ _ _ _ G x Hx) as (pks' & _ & Hr). apply Hr, in_or_app. right. by left.
Qed.

Lemma payload_type x pks : payload db m x pks -> exists tn td, type_of db tn td (fst x).
Proof. intros (meta & ? & ? & ? & Hz & _). destruct (cascade_meta_type db _ _ Hdb Hz) as (td & Ht & _). eauto. Qed.

(** The object of a known type at a key. *)
Lemma walk_typed x pks tn td tid o : payload db m x pks -> type_of db tn td tid ->
  KeyBuilder.object (fst x) (snd x) = KeyBuilder.object tid o ->
  fst x = tid /\ be64 (snd x) = be64 o /\ obj m (fst x) (snd x) = obj m tid o.
Proof.
  intros Hp [_ Ht] E. destruct (payload_type x pks Hp) as (tn' & td' & _ & Ht'). pose proof (object_inj _ _ _ _ E) as [E1 E2].
  apply be64_inj in E1; [|by eapply ok_type_u64..]. split_and!; [done..|]. unfold obj. by rewrite E.
Qed.

Lemma walk_unique_writes : unique_writes db m (tombstones ks).
Proof.
  split.
  - intros tn tid f fid o y b _ _ [-> _]%last_op_tombstones_some. done.
  - intros tn tid f fid o y b (td & fd & Ht & Hfd & Hu & Hfid) _ [-> Hk]%last_op_tombstones_some Hb. right.
    apply walk_object in Hk as (x & pks & Hx & E & Hp & Hr). destruct (walk_typed x pks tn td tid o Hp Ht E) as (<- & _ & Eo).
    rewrite <- Eo in Hb. unfold uval in Hb. destruct (obj m (fst x) (snd x)) as [fm|] eqn:Eob; [|done]. cbn in Hb.
    destruct (non_null (bm_get f fm)) as [v|] eqn:Ev; [|done]. injection Hb as <-.
    apply get_field_name in Hfd as [<- Hfd]. eexists. apply last_op_tombstones_some. split; [done|]. apply Hr.
    apply (payload_unique m x pks td tn Hp Ht); [done|]. exists fm, fd, v, fid. done.
  - intros tn tid f fid b x _ [H _]%last_op_tombstones_some. done.
  - intros tn tid f fid b (td & fd & Ht & Hfd & Hu & Hfid) [_ Hk]%last_op_tombstones_some.
    destruct (walk_index_source Keys.Unique (KeyBuilder.unique_index tid fid b) eq_refl ltac:(by left) Hk) as (x & pks & Hp & Hin & Ho).
    destruct (payload_type x pks Hp) as (tn' & td' & Ht').
    apply (payload_unique m x pks td' tn' Hp Ht') in Hin as (fm & f' & v & fid' & Eob & Hf' & Hu' & Ev & Hfid' & Ek); [|done].
    apply unique_index_inj in Ek as (E1 & E2 & ->).
    apply be64_inj in E1; [|by eapply ok_type_u64; [|apply Ht]|by eapply ok_type_u64; [|apply Ht']]. subst tid.
    destruct (type_of_inj db _ _ _ _ _ Hdb Ht Ht') as [<- <-].
    apply be64_inj in E2; [|by eapply ok_field_u64..]. subst fid'.
    pose proof (ok_field_inj db Hdb _ _ _ Hfid Hfid') as Eq. unfold qualified in Eq. apply app_inv_head in Eq.
    cbn [app] in Eq. injection Eq as ->.
    assert (Eo : KeyBuilder.object (fst x) (as_u64 (snd x)) = KeyBuilder.object (fst x) (snd x))
      by (unfold KeyBuilder.object; by rewrite be64_as_u64).
    exists (as_u64 (snd x)), None. split_and!; [apply as_u64_range|by apply last_op_tombstones_some; rewrite Eo|].
    unfold uval, obj. rewrite Eo. fold (obj m (fst x) (snd x)). rewrite Eob. cbn. by rewrite Ev.
Qed.

Lemma ikey_be64 t o t' o' fm ifd : be64 t = be64 t' -> be64 o = be64 o' -> ikey t o fm ifd = ikey t' o' fm ifd.
Proof.
  intros E1 E2. unfold ikey. destruct (non_null _) as [v|]; [|done]. cbn. unfold build_field_index_key, KeyBuilder.field_index,
    KeyBuilder.field_index_var. by rewrite E1, E2.
Qed.

Lemma walk_index_writes : index_writes db m (tombstones ks).
Proof.
  split.
  - intros tn td tid o ifd y fm k _ _ _ [-> _]%last_op_tombstones_some. done.
  - intros tn td tid o ifd y fm k Ht _ Hi [-> Hk]%last_op_tombstones_some Hob Hik. right.
    apply walk_object in Hk as (x & pks & Hx & E & Hp & Hr). destruct (walk_typed x pks tn td tid o Hp Ht E) as (<- & Eo & Eob).
    eexists. apply last_op_tombstones_some. split; [done|]. apply Hr.
    apply (payload_index m x pks td tn Hp Ht).
    + apply ikey_build in Hik as (v & Hb). by eapply build_key_family.
    + exists fm, ifd. split_and!; [by rewrite Eob|done|]. by rewrite <- Hik; apply ikey_be64.
  - intros k c _ [H _]%last_op_tombstones_some. done.
  - intros k Hf [_ Hk]%last_op_tombstones_some.
    destruct (walk_index_source FieldIndex k Hf ltac:(by right; left) Hk) as (x & pks & Hp & Hin & Ho).
    destruct (payload_type x pks Hp) as (tn' & td' & Ht').
    apply (payload_index m x pks td' tn' Hp Ht') in Hin as (fm & ifd & _ & _ & Hik); [|done].
    apply ikey_build in Hik as (v & Hb). exists (fst x), (snd x), (if_field_id ifd), (if_kind ifd), v, None.
    split; [done|]. by apply last_op_tombstones_some.
Qed.

Lemma walk_good n : good_writes db n m (tombstones ks).
Proof.
  split.
  - split; [intros tn td tid o data _ [H _]%last_op_tombstones_some; done|intros tn td tid o data _ [H _]%last_op_tombstones_some; done|].
    intros k x _ [H _]%last_op_tombstones_some. done.
  - apply walk_unique_writes.
  - apply walk_index_writes.
  - intros s r t. pose proof (gr_paired _ _ _ _ _ _ _ G s r t) as Hp.
    destruct (last_op (KeyBuilder.edge s r t) (tombstones ks)) as [a|] eqn:Ea.
    + apply last_op_tombstones_some in Ea as [-> Ha]. apply Hp in Ha.
      by rewrite (proj2 (last_op_tombstones_some _ _ None) (conj eq_refl Ha)).
    + destruct (last_op (KeyBuilder.reverse_edge t r s) (tombstones ks)) as [b|] eqn:Eb; [|done].
      apply last_op_tombstones_some in Eb as [-> Hb]. apply Hp in Hb.
      by rewrite (proj2 (last_op_tombstones_some _ _ None) (conj eq_refl Hb)) in Ea.
  - intros k x [_ Hk]%last_op_tombstones_some. pose proof (gr_shaped _ _ _ _ _ _ _ G) as Hs. unfold kshaped in Hs.
    rewrite List.Forall_forall in Hs. by apply Hs.
Qed.
End walk_writes.

Lemma delete_good n m vc fuel tn o ws dl d :
  delete_object db fuel m vc tn o = EOk (ws, dl, d) -> good_writes db n m ws.
Proof.
  unfold delete_object. intros H. ebind H. ebind H. injection H as <- _ _. apply delete_inner_grows in E0 as (new & ks & G).
  pose proof (gr_arena _ _ _ _ _ _ _ G) as Ea. cbn in Ea. rewrite Ea. by eapply walk_good.
Qed.
End txn.
