(* ===== verification/EngineCreate.v ===== *)
(** * Creating objects keeps the invariant *)

From Stdlib Require Import ZArith Lia Bool List Strings.Byte Strings.String.
From stdpp Require Import base tactics option list gmap.
From S2P Require Import Prelude ByteMap Keys Utf8 Values Ieee Schema IndexKeys Posting Store Fulltext.
From S2P Require Import Engine EngineEdges EngineOps EngineInv.

Local Open Scope Z_scope.
Local Open Scope bytes_scope.

(** When all the writes of a key agree, the last one is any of them. *)
Lemma last_op_agree k (ws : list op) x :
  (forall y, In (k, y) ws -> y = x) -> In (k, x) ws -> last_op k ws = Some x.
Proof.
  intros H Hin. destruct (last_op k ws) as [y|] eqn:E.
  - apply last_op_some in E. by rewrite (H y).
  - apply last_op_none in E. exfalso. apply E. by apply (in_map fst) in Hin.
Qed.

Lemma only_in ps p k x ws : only ps ws -> in_family p k -> In (k, x) ws -> In p ps.
Proof.
  intros Ho Hf Hin. unfold only in Ho. rewrite List.Forall_forall in Ho. apply Ho in Hin as (q & Hq & Hf').
  unfold in_family in *. cbn in Hf'. rewrite Hf in Hf'. injection Hf' as E. apply prefix_u8_inj in E. by subst.
Qed.

Section create.
Context {J : Json} {T : TextLib} {L : EngineLib} {LL : EngineLibLaws L}.
Variable db : Database.
Hypothesis Hdb : db_ok db.

(** ** One row *)

Lemma split_fields_ok m vc tn td fs : forall sc ls sc' ls',
  split_fields db m vc tn td fs sc ls = EOk (sc', ls') -> Forall (fun e => value_ok (snd e)) fs -> obj_ok td sc -> obj_ok td sc'.
Proof.
  induction fs as [|[f v] fs IH]; intros sc ls sc' ls' H Hv Hok; cbn [split_fields] in H; [by injection H as <- <-|].
  apply Forall_cons in Hv as [Hv Hvs]. cbn [snd] in Hv. ebind H. apply ok_or_ok in E.
  destruct (validate_value a v) eqn:Ev; [|done]. cbn [negb] in H. destruct (field_type a).
  - eapply IH; [exact H|done|]. destruct Hok as [Hs Hf]. split; [by apply bsorted_insert|]. intros k w.
    rewrite bm_get_insert by done. case_decide as Ek; [|apply Hf]. intros [= <-]. subst. split; [done|by exists a].
  - destruct (bool_decide _); [done|]. destruct (is_null v); [by eapply IH|].
    ebind H. ebind H. ebind H. ebind H. by eapply IH.
  - done.
Qed.

Section row.
Variables (m : bmap bytes) (tn : bytes) (td : TypeDef) (tid o : Z).

(** The unique rows of the fields [fs] of an object. *)
Definition unique_row (fs : list (bytes * Value)) (k : bytes) : Prop :=
  exists f v fd fid, In (f, v) fs /\ get_field td f = Some fd /\ is_unique fd = true /\ is_null v = false /\
    bm_get (qualified tn f) (field_ids db) = Some fid /\ k = KeyBuilder.unique_index tid fid (value_to_index_bytes v).

Lemma stage_unique_spec fs : forall c ws c', bsorted c -> stage_unique db m tn td tid o fs c = EOk (ws, c') ->
  bsorted c' /\
  (forall k x, In (k, x) ws <-> unique_row fs k /\ x = Some (be64 o)) /\
  (forall k, unique_row fs k -> (forall z, bm_get k m = Some z -> from_be (take 8 z) = o) /\
     (forall o', bm_get k c = Some o' -> o' = o) /\ bm_get k c' = Some o) /\
  (forall k o', bm_get k c = Some o' -> bm_get k c' = Some o').
Proof.
  induction fs as [|[f v] fs IH]; intros c ws c' Hc H; cbn [stage_unique] in H.
  { injection H as <- <-. split_and!; [done| | |done].
    - intros k x. split; [done|]. by intros [(? & ? & ? & ? & [] & _) _].
    - by intros k (? & ? & ? & ? & [] & _). }
  ebind H. apply idx_ok in E. rename a into fd.
  assert (Hcons : forall k, unique_row ((f, v) :: fs) k <->
    (is_unique fd && negb (is_null v) = true /\ exists fid, bm_get (qualified tn f) (field_ids db) = Some fid /\
       k = KeyBuilder.unique_index tid fid (value_to_index_bytes v)) \/ unique_row fs k).
  { intros k. split.
    - intros (f' & v' & fd' & fid & [[= <- <-]|Hin] & H1 & H2 & H3 & H4 & ->); [left|right; by exists f', v', fd', fid].
      assert (fd' = fd) as -> by congruence. rewrite H2, H3. split; [done|]. by exists fid.
    - intros [(Hb & fid & H4 & ->)|(f' & v' & fd' & fid & Hin & H')].
      + apply andb_true_iff in Hb as [H2 H3%negb_true_iff]. exists f, v, fd, fid. split_and!; [by left|done..].
      + exists f', v', fd', fid. split; [by right|done]. }
  destruct (is_unique fd && negb (is_null v)) eqn:Eb.
  - ebind H. destruct a as [w1 c1]. ebind H. destruct a as [w2 c2]. injection H as <- <-.
    apply check_unique_ok in E0 as (fid & Hfid & -> & -> & Hst & Hm).
    set (k0 := KeyBuilder.unique_index tid fid (value_to_index_bytes v)) in *.
    destruct (IH _ _ _ (bsorted_insert _ _ _ Hc) E1) as (Hs2 & Hw & Hk & Hmono).
    assert (H0 : forall k, (exists fid', bm_get (qualified tn f) (field_ids db) = Some fid' /\
      k = KeyBuilder.unique_index tid fid' (value_to_index_bytes v)) <-> k = k0).
    { intros k. split; [intros (fid' & Hf' & ->); by assert (fid' = fid) as -> by congruence|intros ->; by exists fid]. }
    split_and!; [done|..].
    + intros k x. cbn [app In]. rewrite Hw, Hcons, H0. split.
      * intros [[= <- <-]|[Hr ->]]; split; try done; [left; done|by right].
      * intros [[[_ ->]|Hr] ->]; [by left|by right].
    + intros k. rewrite Hcons, H0. intros [[_ ->]|Hr].
      * split_and!; [done|done|]. apply Hmono. by rewrite bm_get_insert, decide_True.
      * destruct (Hk k Hr) as (H1 & H2 & H3). split_and!; [done| |done]. intros o' Ho'. apply H2.
        rewrite bm_get_insert by done. case_decide; [|done]. subst k. f_equal. symmetry. by apply Hst.
    + intros k o' Ho'. apply Hmono. rewrite bm_get_insert by done. case_decide; [|done]. subst k. f_equal. symmetry. by apply Hst.
  - destruct (IH _ _ _ Hc H) as (Hs2 & Hw & Hk & Hmono).
    assert (Hc' : forall k, unique_row ((f, v) :: fs) k <-> unique_row fs k).
    { intros k. rewrite Hcons. split; [intros [[? _]|?]; done|by right]. }
    split_and!; [done| | |done].
    + intros k x. rewrite Hc'. apply Hw.
    + intros k. rewrite Hc'. apply Hk.
Qed.

Lemma index_puts_in fm c k x :
  In (k, x) (index_puts db tn tid o fm c) <-> (exists ifd, In ifd (ifields db tn) /\ ikey tid o fm ifd = Some k) /\ x = Some c.
Proof.
  unfold index_puts. rewrite in_concat. fold (ifields db tn). unfold ikey. split.
  - intros (l & Hl & Hin). apply in_map_iff in Hl as (ifd & <- & Hi). destruct (non_null _) as [v|] eqn:Ev; [|done].
    unfold insert_field_index in Hin. destruct (build_field_index_key _ _ _ v o) as [k'|] eqn:Ek; [|done].
    destruct Hin as [[= <- <-]|[]]. split; [|done]. exists ifd. split; [done|]. by rewrite Ev.
  - intros [(ifd & Hi & Hk) ->]. destruct (non_null _) as [v|] eqn:Ev; [|done]. cbn in Hk.
    eexists. split; [apply in_map_iff; exists ifd; split; [reflexivity|done]|]. rewrite Ev. unfold insert_field_index.
    rewrite Hk. by left.
Qed.

(** The rows one object adds. *)
Record row_staged (fs : FieldMap) (c : bmap Z) (st : Staged) : Prop := {
  rs_ok : obj_ok td (s_scalars st);
  rs_sorted : bsorted (s_claimed st);
  rs_unique k x : In (k, x) (s_unique st) <-> unique_row (s_scalars st) k /\ x = Some (be64 o);
  rs_check k : unique_row (s_scalars st) k -> (forall z, bm_get k m = Some z -> from_be (take 8 z) = o) /\
    (forall o', bm_get k c = Some o' -> o' = o) /\ bm_get k (s_claimed st) = Some o;
  rs_mono k o' : bm_get k c = Some o' -> bm_get k (s_claimed st) = Some o';
  rs_object k x : in_family Keys.Object k -> In (k, x) (s_puts st) <-> k = KeyBuilder.object tid o /\ x = Some (ser (s_scalars st));
  rs_index k x : in_family FieldIndex k -> In (k, x) (s_puts st) <->
    (exists ifd, In ifd (ifields db tn) /\ ikey tid o (s_scalars st) ifd = Some k) /\ x = Some (ser (s_scalars st));
  rs_no_unique k x : in_family Keys.Unique k -> ~ In (k, x) (s_puts st);
  rs_balanced : balanced (s_puts st);
  rs_shaped : Forall (fun w => shaped_key (fst w)) (s_puts st);
}.

Lemma pairs_only ws : pairs ws -> only [Keys.Edge; ReverseEdge] ws.
Proof.
  induction 1 as [|s r t a b ws _ _ IH]; [apply only_nil|]. rewrite !only_cons. split_and!; [| |done].
  - exists Keys.Edge. split; [by left|done].
  - exists ReverseEdge. split; [by right; left|done].
Qed.

Lemma in_hash_order fm k v : bsorted fm -> In (k, v) (hash_order fm) <-> bm_get k fm = Some v.
Proof. intros Hs. apply order_in; [done|apply hash_order_perm]. Qed.

Lemma unique_row_order fm k : bsorted fm -> unique_row (hash_order fm) k <-> unique_row fm k.
Proof.
  intros Hs. split; intros (f & v & fd & fid & Hin & H); exists f, v, fd, fid; (split; [|done]).
  - apply bm_get_in; [done|]. by apply in_hash_order.
  - apply in_hash_order; [done|]. by apply bm_get_in.
Qed.

Lemma stage_create_spec vc fs c d st :
  bsorted c -> Forall (fun e => value_ok (snd e)) fs ->
  stage_create_writes db m vc tn td tid o fs c d = EOk st -> row_staged fs c st.
Proof.
  intros Hc Hv H. unfold stage_create_writes in H. ebind H. destruct a as [sc ls]. ebind H. destruct a as [us c'].
  destruct (fulltext_puts db tn tid o sc d) as [ft d'] eqn:Ef. ebind H. rename a into edges. injection H as <-.
  assert (Hok : obj_ok td sc).
  { eapply split_fields_ok; [exact E| |by split; [apply bsorted_nil|]]. by rewrite (hash_order_perm fs). }
  destruct (stage_unique_spec (hash_order sc) c us c' Hc E0) as (Hs & Hu & Hk & Hm).
  assert (Hft : only ft_families ft) by (change ft with (fst (ft, d')); rewrite <- Ef; apply fulltext_puts_only).
  pose proof (edge_puts_pairs _ _ _ _ _ _ _ _ _ E1) as Hp.
  pose proof (index_puts_only db tn tid o sc (ser sc)) as Hi.
  assert (Hob : only [Keys.Object] [(KeyBuilder.object tid o, Some (ser sc))]) by (by eapply in_family_only; [|left]).
  assert (Hnot : forall p k x l ps, only ps l -> in_family p k -> ~ In p ps -> In (k, x) l -> False)
    by (intros p k x l ps Ho Hf Hn Hin; apply Hn; by eapply only_in).
  pose proof (pairs_only _ Hp) as Hpo. destruct Hok as [Hss Hfs].
  split; try done; cbn [s_scalars s_claimed s_unique s_puts].
  - intros k x. rewrite Hu. by rewrite unique_row_order.
  - intros k Hr. apply Hk. by apply unique_row_order.
  - intros k x Hf. rewrite !in_app_iff. split.
    + intros [H|[H|[H|H]]]; [exfalso|exfalso|by apply pair_equal_spec in H as [<- <-]|exfalso].
      * eapply (Hnot _ _ _ _ _ Hi Hf); [|done]. cbn. intuition congruence.
      * eapply (Hnot _ _ _ _ _ Hft Hf); [|done]. cbn. intuition congruence.
      * eapply (Hnot _ _ _ _ _ Hpo Hf); [|done]. cbn. intuition congruence.
    + intros [-> ->]. right. right. by left.
  - intros k x Hf. rewrite !in_app_iff, index_puts_in. split; [|by left].
    intros [H|[H|[H|H]]]; [done|exfalso..].
    + eapply (Hnot _ _ _ _ _ Hft Hf); [|done]. cbn. intuition congruence.
    + eapply (Hnot _ _ _ _ _ Hob Hf); [|by left]. cbn. intuition congruence.
    + eapply (Hnot _ _ _ _ _ Hpo Hf); [|done]. cbn. intuition congruence.
  - intros k x Hf. rewrite !in_app_iff. intros [H|[H|[H|H]]].
    + eapply (Hnot _ _ _ _ _ Hi Hf); [|done]. cbn. intuition congruence.
    + eapply (Hnot _ _ _ _ _ Hft Hf); [|done]. cbn. intuition congruence.
    + eapply (Hnot _ _ _ _ _ Hob Hf); [|by left]. cbn. intuition congruence.
    + eapply (Hnot _ _ _ _ _ Hpo Hf); [|done]. cbn. intuition congruence.
  - change ((KeyBuilder.object tid o, Some (ser sc)) :: edges) with ([(KeyBuilder.object tid o, Some (ser sc))] ++ edges).
    repeat apply balanced_app; [| | |by apply balanced_pairs]; (eapply balanced_only; [|done]); split; cbn; intuition congruence.
  - change ((KeyBuilder.object tid o, Some (ser sc)) :: edges) with ([(KeyBuilder.object tid o, Some (ser sc))] ++ edges).
    rewrite !Forall_app. split_and!; [| | |by apply shaped_pairs]; (eapply shaped_only; [|done]); split; cbn; intuition congruence.
Qed.
End row.

(** ** A batch *)

Section batch.
Variables (m : bmap bytes) (tn : bytes) (td : TypeDef) (tid : Z).

Notation urow ob := (unique_row tn td tid (obj_fields ob)).

Record batch_staged (c : bmap Z) (rows : list (Z * FieldMap)) (us ps : list op) (objs : list Obj) : Prop := {
  bs_ids : map obj_id objs = map fst rows;
  bs_ok ob : In ob objs -> obj_ok td (obj_fields ob);
  bs_unique k x : In (k, x) us <-> exists ob, In ob objs /\ urow ob k /\ x = Some (be64 (obj_id ob));
  bs_check ob k : In ob objs -> urow ob k -> forall z, bm_get k m = Some z -> from_be (take 8 z) = obj_id ob;
  bs_claimed ob k o' : In ob objs -> urow ob k -> bm_get k c = Some o' -> o' = obj_id ob;
  bs_distinct ob ob' k : In ob objs -> In ob' objs -> urow ob k -> urow ob' k -> obj_id ob = obj_id ob';
  bs_object k x : in_family Keys.Object k -> In (k, x) ps <->
    exists ob, In ob objs /\ k = KeyBuilder.object tid (obj_id ob) /\ x = Some (ser (obj_fields ob));
  bs_index k x : in_family FieldIndex k -> In (k, x) ps <->
    exists ob ifd, In ob objs /\ In ifd (ifields db tn) /\ ikey tid (obj_id ob) (obj_fields ob) ifd = Some k /\
      x = Some (ser (obj_fields ob));
  bs_no_unique k x : in_family Keys.Unique k -> ~ In (k, x) ps;
  bs_balanced : balanced ps;
  bs_shaped : Forall (fun w => shaped_key (fst w)) ps;
}.

Lemma stage_rows_spec rows : forall vc c d us ps objs vc' d',
  bsorted c -> Forall (fun r => Forall (fun e => value_ok (snd e)) (snd r)) rows ->
  stage_rows db m vc tn td tid rows c d = EOk (us, ps, objs, vc', d') -> batch_staged c rows us ps objs.
Proof.
  induction rows as [|[o fs] rows IH]; intros vc c d us ps objs vc' d' Hc Hv H; cbn [stage_rows] in H.
  { injection H as <- <- <- _ _. split; try done; try (by intros []).
    - intros k x. split; [done|]. by intros (? & [] & _).
    - intros k x _. split; [done|]. by intros (? & [] & _).
    - intros k x _. split; [done|]. by intros (? & ? & [] & _).
    - by intros k x _ []. }
  apply Forall_cons in Hv as [Hv Hvs]. cbn [snd] in Hv. ebind H. rename a into st. ebind H.
  destruct a as [[[[us' ps'] objs'] vc1] d1]. injection H as <- <- <- _ _.
  apply stage_create_spec in E as R; [|done..]. apply IH in E0 as B; [|by destruct R|done].
  set (ob0 := {| obj_type := tn; obj_id := o; obj_fields := s_scalars st |}).
  destruct R, B. split.
  - cbn. by rewrite bs_ids0.
  - intros ob [<-|Hob]; [done|by apply bs_ok0].
  - intros k x. rewrite in_app_iff, rs_unique0, bs_unique0. split.
    + intros [[Hr ->]|(ob & Hob & H)]; [exists ob0; split; [by left|done]|exists ob; split; [by right|done]].
    + intros (ob & [<-|Hob] & Hr & ->); [by left|right; by exists ob].
  - intros ob k [<-|Hob] Hr; [by apply rs_check0|by eapply bs_check0].
  - intros ob k o' [<-|Hob] Hr Ho'; [by apply (rs_check0 k Hr)|]. eapply bs_claimed0; [done..|]. by apply rs_mono0.
  - intros ob ob' k [<-|Hob] [<-|Hob'] Hr Hr'; [done| | |by eapply bs_distinct0].
    + eapply bs_claimed0; [done..|]. by apply rs_check0.
    + symmetry. eapply bs_claimed0; [done..|]. by apply rs_check0.
  - intros k x Hf. rewrite in_app_iff, rs_object0, bs_object0 by done. split.
    + intros [[-> ->]|(ob & Hob & H)]; [exists ob0; split; [by left|done]|exists ob; split; [by right|done]].
    + intros (ob & [<-|Hob] & -> & ->); [by left|right; by exists ob].
  - intros k x Hf. rewrite in_app_iff, rs_index0, bs_index0 by done. split.
    + intros [[(ifd & Hi & Hk) ->]|(ob & ifd & Hob & H)]; [exists ob0, ifd; split; [by left|done]|exists ob, ifd; split; [by right|done]].
    + intros (ob & ifd & [<-|Hob] & Hi & Hk & ->); [left; split; [by exists ifd|done]|right; by exists ob, ifd].
  - intros k x Hf. rewrite in_app_iff. intros [H|H]; [by eapply rs_no_unique0|by eapply bs_no_unique0].
  - by apply balanced_app.
  - by apply Forall_app.
Qed.

Section good.
Variables (n0 n : list Z) (rows : list (Z * FieldMap)) (us ps : list op) (objs : list Obj).
Hypotheses (Ht : type_of db tn td tid) (Hst : store_ok db n0 m) (B : batch_staged [] rows us ps objs)
  (Hnd : NoDup (map fst rows)) (Hids : forall o, In o (map fst rows) -> is_u64 o /\ ~ In o n0 /\ In o n)
  (Hus : only [Keys.Unique] us).

Lemma batch_id ob : In ob objs -> is_u64 (obj_id ob) /\ ~ In (obj_id ob) n0 /\ In (obj_id ob) n.
Proof. intros H. apply Hids. rewrite <- (bs_ids _ _ _ _ _ B). by apply in_map. Qed.

Lemma batch_same ob ob' : In ob objs -> In ob' objs -> obj_id ob = obj_id ob' -> ob = ob'.
Proof.
  intros H H' E. rewrite <- (bs_ids _ _ _ _ _ B) in Hnd. clear -Hnd H H' E. induction objs as [|a l IH]; [done|].
  cbn [map] in Hnd. apply NoDup_cons in Hnd as [Hn Hd]. rewrite list_elem_of_In in Hn.
  destruct H as [->|H], H' as [->|H']; [done| | |by apply IH].
  - exfalso. apply Hn. rewrite E. by apply in_map.
  - exfalso. apply Hn. rewrite <- E. by apply in_map.
Qed.

Lemma batch_fresh ob : In ob objs -> bm_get (KeyBuilder.object tid (obj_id ob)) m = None.
Proof.
  intros H. destruct (bm_get _ m) eqn:E; [|done]. exfalso. destruct (batch_id ob H) as [Hu Hr].
  destruct (so_ids _ _ _ Hst (KeyBuilder.object tid (obj_id ob)) eq_refl) as (t & o & Ek & Hu' & Ho); [by rewrite E|].
  apply object_inj in Ek as [_ Ek]. apply be64_inj in Ek; [|done..]. subst. tauto.
Qed.

Lemma in_writes_unique k x : in_family Keys.Unique k -> In (k, x) (us ++ ps) <-> In (k, x) us.
Proof.
  intros Hf. rewrite in_app_iff. split; [|by left]. intros [H|H]; [done|]. by destruct (bs_no_unique _ _ _ _ _ B k x Hf).
Qed.

Lemma in_writes_puts p k x : in_family p k -> p <> Keys.Unique -> In (k, x) (us ++ ps) <-> In (k, x) ps.
Proof.
  intros Hf Hp. rewrite in_app_iff. split; [|by right]. intros [H|H]; [|done].
  destruct (only_in _ _ _ _ _ Hus Hf H) as [E|[]]. congruence.
Qed.

Lemma in_object_writes k x : in_family Keys.Object k -> In (k, x) (us ++ ps) <->
  exists ob, In ob objs /\ k = KeyBuilder.object tid (obj_id ob) /\ x = Some (ser (obj_fields ob)).
Proof. intros Hf. rewrite (in_writes_puts Keys.Object) by done. by apply (bs_object _ _ _ _ _ B). Qed.

Lemma last_object ob : In ob objs ->
  last_op (KeyBuilder.object tid (obj_id ob)) (us ++ ps) = Some (Some (ser (obj_fields ob))).
Proof.
  intros H. apply last_op_agree; [|apply in_object_writes; [done|]; by exists ob].
  intros y Hy. apply in_object_writes in Hy as (ob' & H' & E & ->); [|done]. apply object_inj in E as [_ E].
  apply be64_inj in E; [|by apply batch_id..]. by rewrite (batch_same ob ob').
Qed.

(** An object written is one of the batch. *)
Lemma last_object_inv tn' td' tid' o y : type_of db tn' td' tid' -> is_u64 o ->
  last_op (KeyBuilder.object tid' o) (us ++ ps) = Some y ->
  exists ob, In ob objs /\ tn' = tn /\ td' = td /\ tid' = tid /\ o = obj_id ob /\ y = Some (ser (obj_fields ob)) /\
    new_obj y = Some (obj_fields ob) /\ obj m tid' o = None.
Proof.
  intros Ht' Ho E. apply last_op_some in E. apply in_object_writes in E as (ob & H & E & ->); [|done].
  apply object_inj in E as [E1 E2]. apply be64_inj in E2; [|done|by apply batch_id].
  apply be64_inj in E1; [|by eapply ok_type_u64; [|apply Ht']|by eapply ok_type_u64; [|apply Ht]]. subst.
  destruct (type_of_inj db _ _ _ _ _ Hdb Ht' Ht) as [-> ->]. exists ob. split_and!; try done.
  - cbn. apply (decoded_ser db tn td); [done|apply Ht|by apply (bs_ok _ _ _ _ _ B)].
  - unfold obj. by rewrite batch_fresh.
Qed.

Lemma uval_row ob f fid fd b : get_field td f = Some fd -> is_unique fd = true ->
  bm_get (qualified tn f) (field_ids db) = Some fid -> uval f (Some (obj_fields ob)) = Some b -> In ob objs ->
  urow ob (KeyBuilder.unique_index tid fid b).
Proof.
  intros Hfd Hu Hfid Hb Hob. unfold uval, non_null in Hb. cbn in Hb. destruct (bm_get f (obj_fields ob)) as [v|] eqn:Ev; [|done].
  destruct (is_null v) eqn:En; [done|]. injection Hb as <-. exists f, v, fd, fid. split_and!; try done.
  apply bm_get_in; [|done]. by apply (bs_ok _ _ _ _ _ B).
Qed.

Lemma row_uval ob f fid b tid' : ufield db tn tid' f fid -> In ob objs ->
  urow ob (KeyBuilder.unique_index tid' fid b) -> uval f (Some (obj_fields ob)) = Some b.
Proof.
  intros (td' & fd & Ht' & Hfd & Hu & Hfid) Hob (f' & v & fd' & fid' & Hin & Hfd' & Hu' & Hn & Hfid' & E).
  apply unique_index_inj in E as (_ & E & ->). apply be64_inj in E; [|by eapply ok_field_u64..]. subst fid'.
  pose proof (ok_field_inj db Hdb _ _ _ Hfid Hfid') as Eq. unfold qualified in Eq. apply app_inv_head in Eq.
  cbn [app] in Eq. injection Eq as ->. unfold uval. cbn.
  apply bm_get_in in Hin; [|by apply (bs_ok _ _ _ _ _ B)]. rewrite Hin. cbn. by rewrite Hn.
Qed.

Lemma last_unique ob k : In ob objs -> urow ob k -> last_op k (us ++ ps) = Some (Some (be64 (obj_id ob))).
Proof.
  intros Hob Hr. assert (Hf : in_family Keys.Unique k) by (by destruct Hr as (? & ? & ? & ? & _ & _ & _ & _ & _ & ->)).
  apply last_op_agree.
  - intros y Hy. apply in_writes_unique in Hy; [|done]. apply (bs_unique _ _ _ _ _ B) in Hy as (ob' & Hob' & Hr' & ->).
    by rewrite (bs_distinct _ _ _ _ _ B ob ob' k).
  - apply in_writes_unique; [done|]. apply (bs_unique _ _ _ _ _ B). by exists ob.
Qed.

Lemma batch_unique_writes : unique_writes db m (us ++ ps).
Proof.
  split.
  - intros tn' tid' f fid o y b Hf Ho E Hb. pose proof Hf as (td' & fd & Ht' & Hfd & Hu & Hfid).
    destruct (last_object_inv tn' td' tid' o y Ht' Ho E) as (ob & Hob & -> & -> & -> & -> & _ & En & _).
    rewrite En in Hb. left. apply last_unique; [done|]. by eapply uval_row.
  - intros tn' tid' f fid o y b (td' & fd & Ht' & _) Ho E Hb.
    destruct (last_object_inv tn' td' tid' o y Ht' Ho E) as (ob & _ & _ & _ & _ & _ & _ & _ & En). by rewrite En in Hb.
  - intros tn' tid' f fid b x Hf E. apply last_op_some, in_writes_unique in E; [|done].
    apply (bs_unique _ _ _ _ _ B) in E as (ob & Hob & Hr & E). injection E as ->. pose proof Hr as Hr'.
    destruct Hr' as (f' & v & fd' & fid' & _ & _ & _ & _ & _ & E). apply unique_index_inj in E as (E & _).
    pose proof Hf as (td' & fd & Ht' & _). apply be64_inj in E; [|by eapply ok_type_u64; [|apply Ht']|by eapply ok_type_u64; [|apply Ht]].
    subst tid'. destruct (type_of_inj db _ _ _ _ _ Hdb Ht' Ht) as [-> ->].
    exists (obj_id ob), (Some (ser (obj_fields ob))). split_and!; [by apply batch_id|done|by apply last_object| |].
    + assert (En : new_obj (Some (ser (obj_fields ob))) = Some (obj_fields ob)).
      { apply (decoded_ser db tn td); [done|apply Ht|by apply (bs_ok _ _ _ _ _ B)]. }
      rewrite En. by eapply row_uval.
    + intros z Hz. destruct (ue_object _ _ (so_unique _ _ _ Hst) tn tid f fid b z Hf Hz) as (o & Ho & -> & _).
      pose proof (bs_check _ _ _ _ _ B ob _ Hob Hr _ Hz) as E'. rewrite take_ge, from_be64 in E' by (rewrite ?length_be64; done || lia).
      by subst.
  - intros tn' tid' f fid b Hf E. apply last_op_some, in_writes_unique in E; [|done].
    apply (bs_unique _ _ _ _ _ B) in E as (ob & _ & _ & E). done.
Qed.

Lemma in_index_writes k x : in_family FieldIndex k -> In (k, x) (us ++ ps) <->
  exists ob ifd, In ob objs /\ In ifd (ifields db tn) /\ ikey tid (obj_id ob) (obj_fields ob) ifd = Some k /\
    x = Some (ser (obj_fields ob)).
Proof. intros Hf. rewrite (in_writes_puts FieldIndex) by done. by apply (bs_index _ _ _ _ _ B). Qed.

Lemma last_index ob ifd k : In ob objs -> In ifd (ifields db tn) -> ikey tid (obj_id ob) (obj_fields ob) ifd = Some k ->
  last_op k (us ++ ps) = Some (Some (ser (obj_fields ob))).
Proof.
  intros Hob Hi Hk. pose proof Hk as Hk'. apply ikey_build in Hk' as (v & Hb). pose proof (build_key_family _ _ _ _ _ _ Hb) as Hf.
  apply last_op_agree; [|apply in_index_writes; [done|]; by exists ob, ifd].
  intros y Hy. apply in_index_writes in Hy as (ob' & ifd' & Hob' & _ & Hk' & ->); [|done].
  apply ikey_build in Hk' as (v' & Hb'). destruct (index_key_inj _ _ _ _ _ _ _ _ _ _ _ Hb Hb') as [_ E].
  apply be64_inj in E; [|by apply batch_id..]. by rewrite (batch_same ob ob').
Qed.

Lemma batch_index_writes : index_writes db m (us ++ ps).
Proof.
  split.
  - intros tn' td' tid' o ifd y fm k Ht' Ho Hi E En Hk.
    destruct (last_object_inv tn' td' tid' o y Ht' Ho E) as (ob & Hob & -> & -> & -> & -> & -> & En' & _).
    rewrite En' in En. injection En as <-. left. eexists. split; [by eapply last_index|exact En'].
  - intros tn' td' tid' o ifd y fm k Ht' Ho Hi E Hob.
    destruct (last_object_inv tn' td' tid' o y Ht' Ho E) as (ob & _ & _ & _ & _ & _ & _ & _ & En). congruence.
  - intros k c Hf E. apply last_op_some, in_index_writes in E as (ob & ifd & Hob & Hi & Hk & E); [|done].
    exists tn, td, tid, (obj_id ob), ifd, (obj_fields ob), (Some (ser (obj_fields ob))).
    split; [done|]. split; [by apply batch_id|]. split; [done|]. split; [by apply last_object|]. split; [|done].
    apply (decoded_ser db tn td); [done|apply Ht|by apply (bs_ok _ _ _ _ _ B)].
  - intros k Hf E. apply last_op_some, in_index_writes in E as (ob & ifd & _ & _ & _ & E); [|done]. done.
Qed.

Lemma batch_writes_good : good_writes db n m (us ++ ps).
Proof.
  split.
  - split.
    + intros tn' td' tid' o data Ht' E. apply last_op_some, in_object_writes in E as (ob & Hob & E & [= ->]); [|done].
      apply object_inj in E as [E _]. apply be64_inj in E; [|by eapply ok_type_u64; [|apply Ht']|by eapply ok_type_u64; [|apply Ht]].
      subst tid'. destruct (type_of_inj db _ _ _ _ _ Hdb Ht' Ht) as [-> ->]. exists (obj_fields ob).
      split; [|by apply (bs_ok _ _ _ _ _ B)]. apply (des_ser db tn td); [done|apply Ht|by apply (bs_ok _ _ _ _ _ B)].
    + intros tn' td' tid' o data Ht' E. apply last_op_some, in_object_writes in E as (ob & Hob & E & [= ->]); [|done].
      apply (ser_stored db tn td); [done|apply Ht|by apply (bs_ok _ _ _ _ _ B)].
    + intros k x Hf E. apply last_op_some, in_object_writes in E as (ob & Hob & -> & _); [|done].
      exists tid, (obj_id ob). split; [done|]. split; [by apply batch_id|]. by apply batch_id.
  - apply batch_unique_writes.
  - apply batch_index_writes.
  - apply edge_writes_balanced, balanced_app; [|apply (bs_balanced _ _ _ _ _ B)].
    eapply balanced_only; [|exact Hus]. split; cbn; intuition congruence.
  - apply edge_keys_written_forall, Forall_app. split; [|apply (bs_shaped _ _ _ _ _ B)].
    eapply shaped_only; [|exact Hus]. split; cbn; intuition congruence.
Qed.
End good.
End batch.

Lemma stage_rows_only m vc tn td tid rows : forall c d us ps objs vc' d',
  stage_rows db m vc tn td tid rows c d = EOk (us, ps, objs, vc', d') -> only [Keys.Unique] us.
Proof.
  revert vc. induction rows as [|[o fs] rows IH]; intros vc c d us ps objs vc' d' H; cbn [stage_rows] in H.
  { injection H as <- _ _ _ _. apply only_nil. }
  ebind H. ebind H. destruct a0 as [[[[us' ps'] objs'] vc1] d1]. injection H as <- _ _ _ _. apply only_app.
  split; [|by eapply IH]. unfold stage_create_writes in E. ebind E. destruct a0 as [sc ls]. ebind E. destruct a0 as [u c'].
  destruct (fulltext_puts _ _ _ _ _ _). ebind E. injection E as <-. by eapply stage_unique_only.
Qed.

Lemma create_batch_good n0 n m vc tn rows ws objs vc' d :
  store_ok db n0 m -> create_batch db m vc tn rows = EOk (ws, objs, vc', d) ->
  NoDup (map fst rows) -> (forall o, In o (map fst rows) -> is_u64 o /\ ~ In o n0 /\ In o n) ->
  Forall (fun r => Forall (fun e => value_ok (snd e)) (snd r)) rows -> good_writes db n m ws.
Proof.
  intros Hst H Hnd Hids Hv. unfold create_batch in H.
  destruct rows as [|r rows].
  { injection H as <- _ _ _. apply good_writes_edges; [apply only_nil|by intros s r t|]. by intros k x. }
  ebind H. ebind H. ebind H. destruct a1 as [[[[us ps] objs'] vc1] d1]. injection H as <- _ _ _.
  apply resolve_ok in E. apply schema_type_ok in E0.
  eapply batch_writes_good; [by split|done| |done|done|by eapply stage_rows_only].
  eapply stage_rows_spec; [apply bsorted_nil|done|done].
Qed.

Lemma create_as_batch m vc tn o fs ws ob vc' d :
  create db m vc tn o fs = EOk (ws, ob, vc', d) -> create_batch db m vc tn [(o, fs)] = EOk (ws, [ob], vc', d).
Proof.
  unfold create, create_batch. intros H. ebind H. ebind H. ebind H. injection H as <- <- <- <-.
  rewrite E. cbn [mbind eres_bind]. rewrite E0. cbn [mbind eres_bind stage_rows]. rewrite E1. cbn [mbind eres_bind].
  by rewrite !app_nil_r.
Qed.
End create.
