(* ===== verification/EngineUpdate.v ===== *)
(** * Updating an object keeps the invariant *)

From Stdlib Require Import ZArith Lia Bool List Strings.Byte Strings.String Floats.SpecFloat.
From stdpp Require Import base tactics option list gmap.
From S2P Require Import Prelude ByteMap Keys Utf8 Values Ieee Schema IndexKeys Posting Store Fulltext.
From S2P Require Import Engine EngineEdges EngineOps EngineInv EngineCreate.

Local Open Scope Z_scope.
Local Open Scope bytes_scope.

(** ** Lists of writes *)

Lemma last_op_concat_some k (ls : list (list op)) x :
  last_op k (List.concat ls) = Some x -> exists l, In l ls /\ last_op k l = Some x.
Proof.
  induction ls as [|l ls IH]; cbn [List.concat]; [done|]. rewrite last_op_app.
  destruct (last_op k (List.concat ls)) as [y|]; [|intros H; exists l; by split; [left|]].
  intros [= ->]. destruct (IH eq_refl) as (l' & Hl & E). exists l'. by split; [right|].
Qed.

Lemma last_op_concat_none k (ls : list (list op)) l :
  last_op k (List.concat ls) = None -> In l ls -> last_op k l = None.
Proof.
  induction ls as [|l' ls IH]; cbn [List.concat]; [done|]. rewrite last_op_app.
  destruct (last_op k (List.concat ls)); [done|]. intros H [->|Hin]; [done|by apply IH].
Qed.

Section update.
Context {J : Json} {T : TextLib} {L : EngineLib} {LL : EngineLibLaws L}.
Variable db : Database.
Hypothesis Hdb : db_ok db.

(** ** Equal values have equal index rows *)

Definition float_bits (v : Value) : option Z :=
  match v with VF32 x => Some (f32_to_f64 x) | VF64 x => Some x | _ => None end.

(** The two zeros, one for the other: equal as numbers, different as rows. *)
Definition flips_zero (a b : Value) : bool :=
  match float_bits a, float_bits b with
  | Some x, Some y => (f64_mag x =? 0) && (f64_mag y =? 0) && negb (x =? y)
  | _, _ => false
  end.

Lemma float_code_eq x y : is_u64 x -> is_u64 y -> f_eq (f64_of x) (f64_of y) = true ->
  (f64_mag x =? 0) && (f64_mag y =? 0) && negb (x =? y) = false -> encode_f64_for_index x = encode_f64_for_index y.
Proof.
  intros Hx Hy He Hz. unfold f_eq in He.
  destruct (is_nan x) eqn:Nx; [by rewrite f64_nan_compare in He by auto|].
  destruct (is_nan y) eqn:Ny; [by rewrite f64_nan_compare in He by auto|].
  rewrite float_code_compare in He by done. destruct ((f64_mag x =? 0) && (f64_mag y =? 0)).
  - cbn in Hz. apply negb_false_iff, Z.eqb_eq in Hz. by subst.
  - destruct (bytes_cmp _ _) eqn:E; [|done..]. by apply bytes_cmp_eq in E.
Qed.

Lemma same_key a b tid fid kd o : value_ok a -> value_ok b -> value_eqb a b = true -> flips_zero a b = false ->
  build_field_index_key tid fid kd a o = build_field_index_key tid fid kd b o.
Proof.
  intros Ha Hb He Hz. unfold build_field_index_key.
  destruct a, b; cbn in He, Hz, Ha, Hb; try done;
    try (apply Z.eqb_eq in He; by subst);
    try (match type of He with beqb ?x ?y = true => destruct (beqb_spec x y); [by subst|done] end).
  - destruct kd; try done. cbn. by rewrite (float_code_eq (f32_to_f64 bits) (f32_to_f64 bits0)) by auto using f32_to_f64_u64.
  - destruct kd; try done. cbn. by rewrite (float_code_eq bits bits0).
  - apply eqb_prop in He. by subst.
Qed.

(** ** The unique rows of an update *)

Lemma qualified_inj tn f f' fid : bm_get (qualified tn f) (field_ids db) = Some fid ->
  bm_get (qualified tn f') (field_ids db) = Some fid -> f = f'.
Proof.
  intros H H'. pose proof (ok_field_inj db Hdb _ _ _ H H') as Eq. unfold qualified in Eq. apply app_inv_head in Eq.
  cbn [app] in Eq. by injection Eq.
Qed.

Section unique.
Variables (m : bmap bytes) (tn : bytes) (td : TypeDef) (tid o : Z) (old : FieldMap).

(** The last write of a row of field [f]. *)
Definition unique_change (f : bytes) (v : option Value) (b : bytes) : option (option bytes) :=
  match v with
  | None => None
  | Some v =>
      if bool_decide (value_to_index_bytes <$> non_null (Some v) = Some b) then Some (Some (be64 o))
      else if bool_decide (value_to_index_bytes <$> non_null (bm_get f old) = Some b) then Some None
      else None
  end.

Lemma update_unique_spec us f fd fid b : get_field td f = Some fd -> is_unique fd = true ->
  bm_get (qualified tn f) (field_ids db) = Some fid -> NoDup (map fst us) -> forall staged ws,
  update_unique db m tn td tid o old us staged = EOk ws ->
  last_op (KeyBuilder.unique_index tid fid b) ws = unique_change f (bm_get f us) b /\
  (forall v, bm_get f us = Some v -> value_to_index_bytes <$> non_null (Some v) = Some b ->
     forall z, bm_get (KeyBuilder.unique_index tid fid b) m = Some z -> from_be (take 8 z) = o).
Proof.
  intros Hfd Hu Hfid. induction us as [|[f' v] us IH]; intros Hnd staged ws H; cbn [update_unique] in H.
  { injection H as <-. done. }
  cbn [map fst] in Hnd. apply NoDup_cons in Hnd as [Hn Hnd]. rewrite list_elem_of_In in Hn. ebind H. apply idx_ok in E.
  rename a into fd'. cbn [bm_get]. destruct (beqb_spec f f') as [->|Hne].
  - assert (fd' = fd) as -> by congruence. rewrite Hu in H. ebind H. rename a into w1. ebind H. destruct a as [w2 st]. ebind H.
    rename a into w3. injection H as <-. destruct (IH Hnd _ _ E2) as [IH1 _].
    rewrite (proj2 (assoc_none f' us) Hn) in IH1. cbn [unique_change] in IH1.
    assert (Hb : forall x, beqb (KeyBuilder.unique_index tid fid b) (KeyBuilder.unique_index tid fid x) = bool_decide (Some x = Some b)).
    { intros x. destruct (beqb_spec (KeyBuilder.unique_index tid fid b) (KeyBuilder.unique_index tid fid x)) as [Ek|Ek].
      - apply unique_index_inj in Ek as (_ & _ & ->). by rewrite bool_decide_true.
      - rewrite bool_decide_false; [done|]. intros [= ->]. done. }
    rewrite !last_op_app, IH1. cbn [unique_change non_null].
    assert (H1 : last_op (KeyBuilder.unique_index tid fid b) w1 =
      if bool_decide (value_to_index_bytes <$> non_null (bm_get f' old) = Some b) then Some None else None).
    { destruct (non_null (bm_get f' old)) as [ov|]; cbn [fmap option_fmap option_map].
      - unfold remove_unique_index in E0. rewrite Hfid in E0. cbn [idx mbind eres_bind] in E0. injection E0 as <-. cbn [last_op fst snd]. rewrite Hb. done.
      - injection E0 as <-. by rewrite bool_decide_false. }
    rewrite H1. destruct (is_null v) eqn:Ev; cbn [fmap option_fmap option_map].
    + injection E1 as <- _. cbn [last_op]. rewrite (bool_decide_false (None = Some b)) by done. split; [done|]. intros v' [= <-]. rewrite Ev. done.
    + apply check_unique_ok in E1 as (fid' & Hfid' & -> & _ & _ & Hm). assert (fid' = fid) as -> by congruence.
      cbn [last_op fst snd]. rewrite Hb. split; [by destruct (bool_decide (Some (value_to_index_bytes v) = Some b))|].
      intros v' [= <-] Ez. rewrite Ev in Ez. cbn in Ez. injection Ez as <-. exact Hm.
  - destruct (is_unique fd') eqn:Eu'; [|by eapply IH]. ebind H. rename a into w1. ebind H. destruct a as [w2 st]. ebind H.
    rename a into w3. injection H as <-. destruct (IH Hnd _ _ E2) as [IH1 IH2]. split; [|done].
    assert (Hk : forall fid' x, bm_get (qualified tn f') (field_ids db) = Some fid' ->
      beqb (KeyBuilder.unique_index tid fid b) (KeyBuilder.unique_index tid fid' x) = false).
    { intros fid' x Hf'. destruct (beqb_spec (KeyBuilder.unique_index tid fid b) (KeyBuilder.unique_index tid fid' x)) as [Ek|]; [|done].
      exfalso. apply Hne. apply unique_index_inj in Ek as (_ & Ek & _). apply be64_inj in Ek; [|by eapply ok_field_u64..]. subst.
      by eapply qualified_inj. }
    rewrite !last_op_app.
    assert (H1 : last_op (KeyBuilder.unique_index tid fid b) w1 = None).
    { destruct (non_null (bm_get f' old)); [|by injection E0 as <-]. unfold remove_unique_index in E0. ebind E0. apply idx_ok in E3.
      injection E0 as <-. cbn [last_op fst snd]. by rewrite Hk. }
    assert (H2 : last_op (KeyBuilder.unique_index tid fid b) w2 = None).
    { destruct (is_null v); [by injection E1 as <- _|]. apply check_unique_ok in E1 as (fid' & Hfid' & -> & _).
      cbn [last_op fst snd]. by rewrite Hk. }
    rewrite IH1, H2, H1. by destruct (unique_change f (bm_get f us) b).
Qed.
End unique.

(** ** The index rows of an update *)

Lemma last_op_one k k' x : last_op k [(k', x)] = if beqb k k' then Some x else None.
Proof. done. Qed.

Definition opt_is (o : option bytes) (k : bytes) : bool := match o with Some k' => beqb k k' | None => false end.

Lemma opt_is_true o k : opt_is o k = true <-> o = Some k.
Proof. destruct o as [k'|]; cbn; [|done]. destruct (beqb_spec k k'); [by subst|]. split; [done|congruence]. Qed.

Lemma rewrite_index_last tid o old new c any ifd k :
  let changed := negb (opt_value_eqb (bm_get (if_name ifd) old) (bm_get (if_name ifd) new)) in
  last_op k (rewrite_index tid o old new c any ifd) =
    if (changed || any) && opt_is (ikey tid o new ifd) k then Some (Some c)
    else if changed && opt_is (ikey tid o old ifd) k then Some None else None.
Proof.
  intros changed. unfold rewrite_index. fold changed.
  assert (Hi : last_op k (match non_null (bm_get (if_name ifd) new) with
    | Some v => insert_field_index tid (if_field_id ifd) (if_kind ifd) v o c | None => [] end)
    = if opt_is (ikey tid o new ifd) k then Some (Some c) else None).
  { unfold ikey, insert_field_index. destruct (non_null _) as [v|]; [|done]. cbn [mbind option_bind].
    by destruct (build_field_index_key _ _ _ v o). }
  assert (Hr : last_op k (match non_null (bm_get (if_name ifd) old) with
    | Some v => remove_field_index tid (if_field_id ifd) (if_kind ifd) v o | None => [] end)
    = if opt_is (ikey tid o old ifd) k then Some None else None).
  { unfold ikey, remove_field_index. destruct (non_null (bm_get (if_name ifd) old)) as [v|]; [|done]. cbn [mbind option_bind].
    by destruct (build_field_index_key _ _ _ v o). }
  destruct changed; cbn [orb andb].
  - rewrite last_op_app, Hi, Hr. by destruct (opt_is (ikey tid o new ifd) k).
  - destruct any; cbn [andb]; [|done]. rewrite Hi. by destruct (opt_is (ikey tid o new ifd) k).
Qed.

(** Fields of one type with one id are the same field. *)
Lemma ifield_by_id tn td ifd ifd' : get_type (schema db) tn = Some td -> In ifd (ifields db tn) -> In ifd' (ifields db tn) ->
  if_field_id ifd = if_field_id ifd' -> ifd = ifd'.
Proof.
  intros Ht H1 H2 Hid. destruct (ifields_spec db tn td ifd Hdb Ht H1) as (f1 & Hf1 & _ & N1 & D1 & Q1).
  destruct (ifields_spec db tn td ifd' Hdb Ht H2) as (f2 & Hf2 & _ & N2 & D2 & Q2).
  rewrite <- Hid in Q2. pose proof (qualified_inj tn _ _ _ Q1 Q2) as En.
  assert (f1 = f2) as ->.
  { destruct (ok_fields db Hdb tn td Ht) as (Hnd & _). clear -Hnd Hf1 Hf2 En. induction (fields td) as [|a l IH]; [done|].
    cbn [map] in Hnd. apply NoDup_cons in Hnd as [Hn Hd]. rewrite list_elem_of_In in Hn.
    destruct Hf1 as [->|Hf1], Hf2 as [->|Hf2]; [done| | |by apply IH].
    - exfalso. apply Hn. rewrite En. by apply in_map.
    - exfalso. apply Hn. rewrite <- En. by apply in_map. }
  destruct ifd, ifd'. cbn in *. congruence.
Qed.

Lemma ifield_u64 tn td ifd : get_type (schema db) tn = Some td -> In ifd (ifields db tn) -> is_u64 (if_field_id ifd).
Proof. intros Ht Hi. destruct (ifields_spec db tn td ifd Hdb Ht Hi) as (f & _ & _ & _ & _ & Q). by eapply ok_field_u64. Qed.

(** A row starts with the ids of its type and its field. *)
Lemma build_key_ids t f kd v o k : build_field_index_key t f kd v o = Some k -> exists e,
  k = [prefix_u8 FieldIndex] ++ [SEPARATOR] ++ be64 t ++ [SEPARATOR] ++ be64 f ++ e.
Proof.
  intros H. unfold build_field_index_key in H.
  destruct kd; [destruct (encode_int_for_zone v)|destruct (encode_bool_for_index v)|destruct (encode_float_for_index v)|destruct v|destruct v];
    cbn [mbind option_bind] in H; try done; apply (inj Some) in H; subst k; eexists; reflexivity.
Qed.

(** Fields of one type that share a row are the same field. *)
Lemma ifield_same tn td tid o fm fm' ifd ifd' k : type_of db tn td tid -> In ifd (ifields db tn) -> In ifd' (ifields db tn) ->
  ikey tid o fm ifd = Some k -> ikey tid o fm' ifd' = Some k -> ifd = ifd'.
Proof.
  intros [Ht _] H1 H2 K1 K2. apply (ifield_by_id tn td); [done..|].
  apply ikey_build in K1 as (v1 & B1). apply ikey_build in K2 as (v2 & B2).
  apply build_key_ids in B1 as (e1 & ->). apply build_key_ids in B2 as (e2 & Ek). split_key Ek.
  apply be64_inj in E0; [done|by eapply ifield_u64..].
Qed.

Section index.
Variables (tn : bytes) (td : TypeDef) (tid o : Z) (old new : FieldMap) (c : bytes) (any : bool).
Hypotheses (Ht : type_of db tn td tid).

Definition index_ops : list op := List.concat (map (rewrite_index tid o old new c any) (ifields db tn)).

Lemma index_ops_some k x : last_op k index_ops = Some x -> exists ifd, In ifd (ifields db tn) /\
  (x = Some c /\ ikey tid o new ifd = Some k \/ x = None /\ ikey tid o old ifd = Some k /\ ikey tid o new ifd <> Some k).
Proof.
  intros E. apply last_op_concat_some in E as (l & Hl & E). apply in_map_iff in Hl as (ifd & <- & Hi). exists ifd. split; [done|].
  rewrite rewrite_index_last in E. set (ch := negb (opt_value_eqb _ _)) in E.
  destruct (opt_is (ikey tid o new ifd) k) eqn:En.
  - apply opt_is_true in En. destruct ch; cbn in E; [left; by injection E as <-|].
    destruct any; cbn in E; [left; by injection E as <-|done].
  - rewrite andb_false_r in E. destruct (ch && opt_is (ikey tid o old ifd) k) eqn:Eo; [|done]. injection E as <-. right.
    apply andb_true_iff in Eo as [_ Eo]. apply opt_is_true in Eo. split_and!; [done..|]. intros Hk. apply opt_is_true in Hk. congruence.
Qed.

(** A row of the new object is put, unless nothing was updated. *)
Lemma index_ops_new ifd k : In ifd (ifields db tn) -> ikey tid o new ifd = Some k ->
  last_op k index_ops = Some (Some c) \/ (last_op k index_ops = None /\ any = false).
Proof.
  intros Hi Hk. destruct (last_op k index_ops) as [x|] eqn:E.
  - left. apply index_ops_some in E as (ifd' & Hi' & [[-> _]|(_ & Ho & Hn)]); [done|].
    destruct (ifield_same tn td tid o new old ifd ifd' k Ht Hi Hi' Hk Ho). by destruct Hn.
  - right. split; [done|]. unfold index_ops in E. eapply last_op_concat_none in E; [|by apply in_map].
    rewrite rewrite_index_last in E. rewrite (proj2 (opt_is_true _ _) Hk), andb_true_r in E.
    destruct any; [by rewrite orb_true_r in E|done].
Qed.

(** A row of the old object stays with the new one or is written. *)
Lemma index_ops_old ifd k : In ifd (ifields db tn) -> ikey tid o old ifd = Some k ->
  (opt_value_eqb (bm_get (if_name ifd) old) (bm_get (if_name ifd) new) = true -> ikey tid o old ifd = ikey tid o new ifd) ->
  ikey tid o new ifd = Some k \/ is_Some (last_op k index_ops).
Proof.
  intros Hi Hk Hz. destruct (last_op k index_ops) as [x|] eqn:E; [by right|left].
  unfold index_ops in E. eapply last_op_concat_none in E; [|by apply in_map].
  rewrite rewrite_index_last, (proj2 (opt_is_true _ _) Hk) in E.
  destruct (opt_value_eqb _ _) eqn:Ev; cbn in E; [by rewrite <- Hz|].
  destruct (opt_is (ikey tid o new ifd) k) eqn:En; [by apply opt_is_true|done].
Qed.
End index.

(** ** The whole update *)

Lemma validate_updates_ok tn td us f v : validate_updates db tn td us = EOk tt -> In (f, v) us -> typed td f v.
Proof.
  induction us as [|[f' v'] us IH]; intros H Hin; [done|]. cbn [validate_updates] in H. ebind H. apply ok_or_ok in E.
  destruct (validate_value a v') eqn:Ev; [|done]. destruct Hin as [[= <- <-]|Hin]; [by exists a|by apply IH].
Qed.

(** The zeros of an indexed float field are not exchanged. *)
Definition keeps_zeros (m : bmap bytes) (tn : bytes) (o : Z) (updates : FieldMap) : Prop :=
  forall td tid old ifd a b, type_of db tn td tid -> obj m tid o = Some old -> In ifd (ifields db tn) ->
    bm_get (if_name ifd) old = Some a -> bm_get (if_name ifd) updates = Some b -> flips_zero a b = false.

Section parts.
Variables (n : list Z) (m : bmap bytes) (tn : bytes) (td : TypeDef) (tid o : Z) (old updates : FieldMap) (any : bool)
  (unique ft edges : list op) (gen : op).
Let new : FieldMap := bm_insert_all updates old.
Let c : bytes := ser new.
Let key : bytes := KeyBuilder.object tid o.
Let ws : list op := unique ++ ft ++ (index_ops tn tid o old new c any ++ edges ++ [gen]) ++ [(key, Some c)].

Hypotheses (Hst : store_ok db n m) (Ht : type_of db tn td tid) (Ho : is_u64 o) (Hobj : obj m tid o = Some old)
  (Hold : obj_ok td old) (Hus : bsorted updates) (Hvs : Forall (fun e => value_ok (snd e)) updates)
  (Hfs : forall f v, bm_get f updates = Some v -> typed td f v)
  (Hu : only [Keys.Unique] unique) (Hft : only ft_families ft) (Hed : renews m edges) (Hg : only [Generation] [gen])
  (Hany : any = false -> updates = [])
  (Hz : keeps_zeros m tn o updates)
  (Huq : forall f fd fid b, get_field td f = Some fd -> is_unique fd = true ->
    bm_get (qualified tn f) (field_ids db) = Some fid ->
    last_op (KeyBuilder.unique_index tid fid b) unique = unique_change o old f (bm_get f updates) b /\
    (forall v, bm_get f updates = Some v -> value_to_index_bytes <$> non_null (Some v) = Some b ->
       forall z, bm_get (KeyBuilder.unique_index tid fid b) m = Some z -> from_be (take 8 z) = o))
  (Huk : forall k x, In (k, x) unique -> exists fid b, k = KeyBuilder.unique_index tid fid b).

Lemma new_get f : bm_get f new = match bm_get f updates with Some v => Some v | None => bm_get f old end.
Proof. apply assoc_insert_all; [apply Hold|by apply bsorted_nodup]. Qed.

Lemma new_ok : obj_ok td new.
Proof.
  destruct Hold as [Hs Hf]. split; [by apply bsorted_insert_all|]. intros k v. rewrite new_get.
  destruct (bm_get k updates) as [v'|] eqn:E; [|by apply Hf]. intros [= <-]. split; [|by eapply Hfs].
  apply bm_get_in in E; [|done]. rewrite List.Forall_forall in Hvs. by apply (Hvs (k, v')).
Qed.

Lemma new_decoded : decoded c = Some new.
Proof. apply (decoded_ser db tn td); [done|apply Ht|apply new_ok]. Qed.

Lemma edges_only : only [ReverseEdge] edges.
Proof. eapply Forall_impl; [exact Hed|]. intros w (t & r & s & -> & _). exists ReverseEdge. split; [by left|done]. Qed.

Lemma index_ops_only : only [FieldIndex] (index_ops tn tid o old new c any).
Proof.
  apply only_concat, List.Forall_forall. intros l Hl. apply in_map_iff in Hl as (ifd & <- & _). apply rewrite_index_only.
Qed.

Lemma key_only : only [Keys.Object] [(key, Some c)].
Proof. by eapply in_family_only; [|left]. Qed.

(** The parts that do not touch a row of a family. *)
Ltac off_family Hf := rewrite !last_op_app;
  rewrite ?(last_op_only _ _ _ _ key_only Hf), ?(last_op_only _ _ _ _ Hg Hf), ?(last_op_only _ _ _ _ edges_only Hf),
    ?(last_op_only _ _ _ _ index_ops_only Hf), ?(last_op_only _ _ _ _ Hft Hf), ?(last_op_only _ _ _ _ Hu Hf)
    by (cbn; intuition congruence).

Lemma last_object_key k : in_family Keys.Object k -> last_op k ws = if beqb k key then Some (Some c) else None.
Proof. intros Hf. unfold ws. off_family Hf. rewrite last_op_one. by destruct (beqb k key). Qed.

Lemma last_unique_key k : in_family Keys.Unique k -> last_op k ws = last_op k unique.
Proof. intros Hf. unfold ws. off_family Hf. done. Qed.

Lemma last_index_key k : in_family FieldIndex k -> last_op k ws = last_op k (index_ops tn tid o old new c any).
Proof. intros Hf. unfold ws. off_family Hf. by destruct (last_op k (index_ops tn tid o old new c any)). Qed.

(** The object written. *)
Lemma written_object tn' td' tid' o' y : type_of db tn' td' tid' -> is_u64 o' ->
  last_op (KeyBuilder.object tid' o') ws = Some y -> tn' = tn /\ td' = td /\ tid' = tid /\ o' = o /\ y = Some c /\ new_obj y = Some new.
Proof.
  intros Ht' Ho' E. rewrite last_object_key in E by done. destruct (beqb_spec (KeyBuilder.object tid' o') key) as [Ek|]; [|done].
  injection E as <-. apply object_inj in Ek as [E1 E2]. apply be64_inj in E2; [|done..].
  apply be64_inj in E1; [|by eapply ok_type_u64; [|apply Ht']|by eapply ok_type_u64; [|apply Ht]]. subst.
  destruct (type_of_inj db _ _ _ _ _ Hdb Ht' Ht) as [-> ->]. split_and!; try done. apply new_decoded.
Qed.

Lemma last_own : last_op key ws = Some (Some c).
Proof. rewrite last_object_key by done. by destruct (beqb_spec key key). Qed.

Lemma uval_new f : uval f (Some new) = match bm_get f updates with
  | Some v => value_to_index_bytes <$> non_null (Some v) | None => uval f (Some old) end.
Proof. unfold uval. cbn [mbind option_bind]. rewrite new_get. by destruct (bm_get f updates). Qed.

(** The unique rows written are of the updated type. *)
Lemma own_unique tn' tid' f fid b x : ufield db tn' tid' f fid -> last_op (KeyBuilder.unique_index tid' fid b) ws = Some x ->
  exists fd, tn' = tn /\ tid' = tid /\ get_field td f = Some fd /\ is_unique fd = true /\
    bm_get (qualified tn f) (field_ids db) = Some fid /\ last_op (KeyBuilder.unique_index tid fid b) unique = Some x.
Proof.
  intros (td' & fd & Ht' & Hfd & Hq & Hfid) E. rewrite last_unique_key in E by done. pose proof E as E'.
  apply last_op_some, Huk in E as (fid' & b' & Ek). apply unique_index_inj in Ek as (E1 & _).
  apply be64_inj in E1; [|by eapply ok_type_u64; [|apply Ht']|by eapply ok_type_u64; [|apply Ht]]. subst tid'.
  destruct (type_of_inj db _ _ _ _ _ Hdb Ht' Ht) as [-> ->]. by exists fd.
Qed.

Lemma update_unique_writes : unique_writes db m ws.
Proof.
  split.
  - intros tn' tid' f fid o' y b (td' & fd & Ht' & Hfd & Hq & Hfid) Ho' E Hb.
    destruct (written_object tn' td' tid' o' y Ht' Ho' E) as (-> & -> & -> & -> & -> & En). rewrite En in Hb.
    rewrite last_unique_key by done. destruct (Huq f fd fid b Hfd Hq Hfid) as [-> _]. rewrite uval_new in Hb.
    destruct (bm_get f updates) as [v|]; cbn [unique_change].
    + left. by rewrite bool_decide_true.
    + right. by rewrite Hobj.
  - intros tn' tid' f fid o' y b (td' & fd & Ht' & Hfd & Hq & Hfid) Ho' E Hb.
    destruct (written_object tn' td' tid' o' y Ht' Ho' E) as (-> & -> & -> & -> & -> & En). rewrite En. rewrite Hobj in Hb.
    rewrite last_unique_key by done. destruct (Huq f fd fid b Hfd Hq Hfid) as [-> _]. rewrite uval_new.
    destruct (bm_get f updates) as [v|]; cbn [unique_change]; [|by left]. case_bool_decide; [by left|right].
    by rewrite bool_decide_true.
  - intros tn' tid' f fid b x Hf E. destruct (own_unique tn' tid' f fid b (Some x) Hf E) as (fd & -> & -> & Hfd & Hq & Hfid & E').
    destruct (Huq f fd fid b Hfd Hq Hfid) as [Eq Hck]. rewrite Eq in E'. destruct (bm_get f updates) as [v|] eqn:Ev; [|done].
    unfold unique_change in E'. case_bool_decide as Hb; [|by case_bool_decide]. injection E' as <-.
    exists o, (Some c). split_and!; [done|done|apply last_own| |].
    + unfold new_obj. cbn [mbind option_bind]. rewrite new_decoded, uval_new, Ev. done.
    + intros z Hzr. destruct (ue_object _ _ (so_unique _ _ _ Hst) tn tid f fid b z Hf Hzr) as (o' & Ho' & -> & _).
      pose proof (Hck v eq_refl Hb _ Hzr) as E'. rewrite take_ge, from_be64 in E' by (rewrite ?length_be64; done || lia). by subst.
  - intros tn' tid' f fid b Hf E. destruct (own_unique tn' tid' f fid b None Hf E) as (fd & -> & -> & Hfd & Hq & Hfid & E').
    destruct (Huq f fd fid b Hfd Hq Hfid) as [Eq _]. rewrite Eq in E'. destruct (bm_get f updates) as [v|]; [|done].
    unfold unique_change in E'. case_bool_decide; [done|]. case_bool_decide as Hb; [|done].
    exists o, (Some c). split_and!; [done|apply last_own|]. by rewrite Hobj.
Qed.

(** A field compared equal keeps its row. *)
Lemma equal_key ifd : In ifd (ifields db tn) ->
  opt_value_eqb (bm_get (if_name ifd) old) (bm_get (if_name ifd) new) = true -> ikey tid o old ifd = ikey tid o new ifd.
Proof.
  intros Hi He. unfold ikey. rewrite new_get in *. destruct (bm_get (if_name ifd) updates) as [b|] eqn:Eb; [|done].
  destruct (bm_get (if_name ifd) old) as [a|] eqn:Ea; [|done]. cbn in He.
  pose proof (Hz td tid old ifd a b Ht Hobj Hi Ea Eb) as Hf. destruct Hold as [_ Hok]. destruct (Hok _ _ Ea) as [Hva _].
  assert (Hvb : value_ok b).
  { apply bm_get_in in Eb; [|done]. rewrite List.Forall_forall in Hvs. by apply (Hvs (if_name ifd, b)). }
  pose proof (same_key a b tid (if_field_id ifd) (if_kind ifd) o Hva Hvb He Hf) as Hk.
  destruct a, b; try done.
Qed.

Lemma update_index_writes : index_writes db m ws.
Proof.
  split.
  - intros tn' td' tid' o' ifd y fm k Ht' Ho' Hi E En Hk.
    destruct (written_object tn' td' tid' o' y Ht' Ho' E) as (-> & -> & -> & -> & -> & En'). rewrite En' in En. injection En as <-.
    pose proof Hk as (v & Hb)%ikey_build. rewrite last_index_key by (by eapply build_key_family).
    destruct (index_ops_new tn td tid o old new c any Ht ifd k Hi Hk) as [->|[-> Ha]]; [left; exists c; by rewrite new_decoded|].
    right. split; [done|]. rewrite Hobj. unfold new. by rewrite (Hany Ha).
  - intros tn' td' tid' o' ifd y fm k Ht' Ho' Hi E Hob Hk.
    destruct (written_object tn' td' tid' o' y Ht' Ho' E) as (-> & -> & -> & -> & -> & En').
    assert (fm = old) as -> by congruence. pose proof Hk as (v & Hb)%ikey_build.
    rewrite last_index_key by (by eapply build_key_family).
    destruct (index_ops_old tn tid o old new c any ifd k Hi Hk) as [Hk'|Hs]; [by apply equal_key|left|by right].
    exists new. by rewrite En'.
  - intros k x Hf E. rewrite last_index_key in E by done. apply index_ops_some in E as (ifd & Hi & [[E Hk]|[E _]]); [|done].
    exists tn, td, tid, o, ifd, new, (Some c). split; [done|]. split; [done|]. split; [done|]. split; [apply last_own|].
    split; [exact new_decoded|done].
  - intros k Hf E. rewrite last_index_key in E by done. apply index_ops_some in E as (ifd & Hi & [[E _]|(_ & Hk & _)]); [done|].
    apply ikey_build in Hk as (v & Hb). exists tid, o, (if_field_id ifd), (if_kind ifd), v, (Some c).
    split; [done|apply last_own].
Qed.

Lemma update_writes_good : good_writes db n m ws.
Proof.
  split.
  - split.
    + intros tn' td' tid' o' data Ht' E. rewrite last_object_key in E by done.
      destruct (beqb_spec (KeyBuilder.object tid' o') key) as [Ek|]; [|done]. injection E as <-. apply object_inj in Ek as [E1 _].
      apply be64_inj in E1; [|by eapply ok_type_u64; [|apply Ht']|by eapply ok_type_u64; [|apply Ht]]. subst.
      destruct (type_of_inj db _ _ _ _ _ Hdb Ht' Ht) as [-> ->]. exists new. split; [|apply new_ok].
      apply (des_ser db tn td); [done|apply Ht|apply new_ok].
    + intros tn' td' tid' o' data Ht' E. rewrite last_object_key in E by done.
      destruct (beqb_spec (KeyBuilder.object tid' o') key) as [Ek|]; [|done]. injection E as <-.
      apply (ser_stored db tn td); [done|apply Ht|apply new_ok].
    + intros k x Hf E. rewrite last_object_key in E by done. destruct (beqb_spec k key) as [->|]; [|done].
      assert (Hk : is_Some (bm_get key m)). { unfold obj, key in *. by destruct (bm_get (KeyBuilder.object tid o) m). }
      destruct (so_ids _ _ _ Hst key eq_refl Hk) as (t & o' & Ek & Hu' & Hlt). by exists t, o'.
  - apply update_unique_writes.
  - apply update_index_writes.
  - assert (Hn : no_edges [Keys.Unique; FieldIndex; Keys.Object; Generation; Keys.Fulltext; FulltextDoc])
      by (split; cbn; intuition congruence).
    unfold ws. eapply edge_writes_app_l; [|exact Hu|]; [split; cbn; intuition congruence|].
    eapply edge_writes_app_l; [|exact Hft|]; [split; cbn; intuition congruence|].
    eapply edge_writes_app_r; [|exact key_only|]; [split; cbn; intuition congruence|].
    eapply edge_writes_app_l; [|exact index_ops_only|]; [split; cbn; intuition congruence|].
    eapply edge_writes_app_r; [|exact Hg|]; [split; cbn; intuition congruence|]. by apply edge_writes_renews.
  - apply edge_keys_written_forall. unfold ws. rewrite !Forall_app. split_and!.
    + eapply shaped_only; [|exact Hu]. split; cbn; intuition congruence.
    + eapply shaped_only; [|exact Hft]. split; cbn; intuition congruence.
    + eapply shaped_only; [|exact index_ops_only]. split; cbn; intuition congruence.
    + by eapply shaped_renews.
    + eapply shaped_only; [|exact Hg]. split; cbn; intuition congruence.
    + eapply shaped_only; [|exact key_only]. split; cbn; intuition congruence.
Qed.
End parts.

Lemma update_unique_keys m tn td tid o old us : forall staged ws, update_unique db m tn td tid o old us staged = EOk ws ->
  forall k x, In (k, x) ws -> exists fid b, k = KeyBuilder.unique_index tid fid b.
Proof.
  induction us as [|[f v] us IH]; intros staged ws H k x Hin; cbn [update_unique] in H; [by injection H as <-|].
  ebind H. destruct (is_unique a); [|by eapply IH]. ebind H. ebind H. destruct a1 as [w2 st]. ebind H. injection H as <-.
  rewrite !in_app_iff in Hin. destruct Hin as [Hin|[Hin|Hin]]; [| |by eapply IH].
  - destruct (non_null (bm_get f old)); [|by injection E0 as <-]. unfold remove_unique_index in E0. ebind E0. injection E0 as <-.
    destruct Hin as [Hin|[]]. apply pair_equal_spec in Hin as [<- _]. eauto.
  - destruct (is_null v); [by injection E1 as <- _|]. apply check_unique_ok in E1 as (fid & _ & -> & _).
    destruct Hin as [Hin|[]]. apply pair_equal_spec in Hin as [<- _]. eauto.
Qed.

Lemma hash_order_get fm f : bsorted fm -> bm_get f (hash_order fm) = bm_get f fm.
Proof.
  intros Hs. pose proof (hash_order_perm fm) as Hp. destruct (bm_get f fm) as [v|] eqn:E.
  - destruct (bm_get f (hash_order fm)) as [v'|] eqn:E'.
    + apply assoc_in, in_hash_order in E'; [congruence|done].
    + apply assoc_none in E'. exfalso. apply E'. apply in_hash_order in E; [|done]. by apply (in_map fst) in E.
  - apply assoc_none. apply assoc_none in E. intros Hin. apply E. eapply Permutation_in; [|exact Hin]. by apply Permutation_map.
Qed.

(** The updates are a [HashMap] given by its sorted entries. *)
Lemma update_good n m vc tn o us ws ob vc' d :
  store_ok db n m -> is_u64 o -> bsorted us -> Forall (fun e => value_ok (snd e)) us -> keeps_zeros m tn o us ->
  update db m vc tn o us = EOk (ws, ob, vc', d) -> good_writes db n m ws.
Proof.
  intros Hst Ho Hs Hv Hz H. unfold update in H. ebind H. apply resolve_ok in E. ebind H. apply schema_type_ok in E0.
  ebind H. destruct a1 as []. rename E1 into Ev. ebind H. apply ok_or_ok in E1. rename a1 into data. ebind H. rename a1 into old. ebind H. rename a1 into us'. destruct (update_fulltext _ _ _ _ _ _ _) as [ft d'] eqn:Eft.
  ebind H. destruct a1 as [w vc1]. unfold rewrite_object_and_maintain_covers in E4. ebind E4.
  destruct (bump_version _ _ _) as [nv vc2]. injection E4 as <- _. injection H as <- _ _ _.
  assert (Ht : type_of db tn a0 a) by done.
  destruct (so_blobs _ _ _ Hst tn a0 a o data Ht E1) as (fm & Hd & Hok). assert (fm = old) as -> by congruence.
  pose proof (hash_order_perm us) as Hp.
  assert (Hnd : NoDup (map fst (hash_order us))) by (rewrite Hp; by apply bsorted_nodup).
  eapply update_writes_good; try done.
  - unfold obj. rewrite E1. cbn [mbind option_bind]. unfold decoded. by rewrite Hd.
  - intros f v Hf. eapply validate_updates_ok; [done|]. by apply in_hash_order.
  - by eapply update_unique_only.
  - change ft with (fst (ft, d')). rewrite <- Eft. apply update_fulltext_only.
  - eapply refresh_renews; [apply Hst|apply Hst|done].
  - eapply in_family_only; [|by left]. done.
  - by destruct us.
  - intros f fd fid b Hfd Hq Hfid. rewrite <- hash_order_get by done. by eapply update_unique_spec.
  - by eapply update_unique_keys.
Qed.
End update.
