(* ===== verification/EngineSystem.v ===== *)
(** * The engine under concurrent transactions

    Sessions begin a transaction, stage one operation of the engine on the
    snapshot they read, and commit through the transaction manager ([Mvcc]),
    which refuses a commit whose keys were written since the snapshot.  Any
    number of them interleave, with the worker that renews covers among them.
    The store read at every version satisfies the invariant of [EngineInv].

    The map read at a version is that of the committed writes up to it, which
    the LSM tree implements ([Store]). *)

From Stdlib Require Import ZArith Lia Bool List Strings.Byte Strings.String.
From stdpp Require Import base tactics option list gmap relations.
From S2P Require Import Prelude ByteMap Keys Mvcc Utf8 Values Ieee Schema IndexKeys Posting Store Fulltext.
From S2P Require Import Engine EngineEdges EngineOps EngineDelete EngineInv EngineTxn EngineCreate EngineUpdate.

Local Open Scope Z_scope.
Local Open Scope bytes_scope.

(** ** Buffered writes *)

Lemma last_op_buffer k ws : NoDup (map fst ws) -> last_op k ws = buffer_map ws !! k.
Proof.
  intros Hn. unfold buffer_map. induction ws as [|[k' x] ws IH]; [done|]. apply NoDup_cons in Hn as [Hk Hn].
  rewrite list_elem_of_In in Hk. cbn [last_op fst snd list_to_map foldr uncurry]. rewrite IH by done.
  destruct (beqb_spec k k') as [->|Hne].
  - rewrite lookup_insert_eq. rewrite <- IH by done. by rewrite (proj2 (last_op_none k' ws) Hk).
  - rewrite lookup_insert_ne by done. by destruct (list_to_map ws !! k).
Qed.

Lemma fold_inserts (k : bytes) (ws : list op) (b : gmap bytes (option bytes)) :
  fold_left (fun m w => <[w.1 := w.2]> m) ws b !! k = match last_op k ws with Some x => Some x | None => b !! k end.
Proof.
  revert b. induction ws as [|[k' x] ws IH]; intros b; cbn [fold_left last_op fst snd]; [done|]. rewrite IH.
  destruct (last_op k ws); [done|]. destruct (beqb_spec k k') as [->|]; [by rewrite lookup_insert_eq|by rewrite lookup_insert_ne].
Qed.

(** A transaction buffers a list of writes as their last writes. *)
Lemma upserts_last t ws t' k : txn_wf t -> upserts t ws = Ok t' -> writes t = [] ->
  last_op k (writes t') = last_op k ws.
Proof.
  intros Hw E He. destruct (upserts_wf t ws Hw) as (t1 & E1 & Hw1 & Hm). assert (t1 = t') as -> by congruence.
  rewrite last_op_buffer by (by apply txn_wf_nodup). rewrite Hm, fold_inserts, He. by destruct (last_op k ws).
Qed.

(** ** The map of the committed writes *)

Definition map_at (base : bmap bytes) (hs : list (Z * list write)) (v : Z) : bmap bytes :=
  apply_ops (List.concat (map snd (filter (fun h => h.1 <= v) hs))) base.

Lemma map_at_sorted base hs v : bsorted base -> bsorted (map_at base hs v).
Proof. apply apply_ops_sorted. Qed.

Lemma map_at_snoc base hs cv ws v : map_at base (hs ++ [(cv, ws)]) v =
  if decide (cv <= v) then apply_ops ws (map_at base hs v) else map_at base hs v.
Proof.
  unfold map_at. rewrite filter_app, filter_cons. cbn [fst]. destruct (decide (cv <= v)) as [H|H]; cbn [filter list_filter].
  - rewrite map_app, concat_app, apply_ops_app. cbn [map List.concat snd]. by rewrite app_nil_r.
  - by rewrite app_nil_r.
Qed.

(** A key that no commit after [v] wrote reads the same at both. *)
Lemma map_at_unwritten base hs v v' k : bsorted base -> v <= v' ->
  (forall h, h ∈ hs -> v < h.1 -> ~ In k (map fst h.2)) ->
  bm_get k (map_at base hs v) = bm_get k (map_at base hs v').
Proof.
  intros Hb Hv Hh. unfold map_at. rewrite !bm_get_apply_ops by done.
  assert (E : last_op k (List.concat (map snd (filter (fun h => h.1 <= v) hs))) =
              last_op k (List.concat (map snd (filter (fun h => h.1 <= v') hs)))); [|by rewrite E].
  induction hs as [|h hs IH]; [done|]. rewrite !filter_cons.
  assert (IH' := IH (fun h' H => Hh h' (list_elem_of_further _ _ _ H))). clear IH.
  destruct (decide (h.1 <= v)), (decide (h.1 <= v')); cbn [map List.concat]; rewrite ?last_op_app, ?IH'; try done; [lia|].
  destruct (last_op k (List.concat (map snd (filter (fun h => h.1 <= v') hs)))); [done|]. symmetry. apply last_op_none. apply Hh; [by left|lia].
Qed.

Section system.
Context {J : Json} {T : TextLib} {L : EngineLib} {LL : EngineLibLaws L}.
Variable db : Database.
Hypothesis Hdb : db_ok db.

(** ** Writes up to their order *)

Lemma good_writes_ext n m ws ws' : (forall k, last_op k ws' = last_op k ws) -> good_writes db n m ws -> good_writes db n m ws'.
Proof.
  intros E [[B1 B2 B3] [U1 U2 U3 U4] [I1 I2 I3 I4] He Hk]. split; [split|split|split|..].
  - intros *. rewrite E. apply B1.
  - intros *. rewrite E. apply B2.
  - intros *. rewrite E. apply B3.
  - intros *. rewrite !E. apply U1.
  - intros *. rewrite !E. apply U2.
  - intros tn tid f fid b x Hf. rewrite E. intros H. destruct (U3 tn tid f fid b x Hf H) as (o & y & H').
    exists o, y. by rewrite E.
  - intros tn tid f fid b Hf. rewrite E. intros H. destruct (U4 tn tid f fid b Hf H) as (o & y & H'). exists o, y. by rewrite E.
  - intros *. rewrite !E. apply I1.
  - intros *. rewrite !E. apply I2.
  - intros k c Hf. rewrite E. intros H. destruct (I3 k c Hf H) as (tn & td & tid & o & ifd & fm & y & H').
    exists tn, td, tid, o, ifd, fm, y. by rewrite E.
  - intros k Hf. rewrite E. intros H. destruct (I4 k Hf H) as (tid & o & f & kd & v & y & H'). exists tid, o, f, kd, v, y. by rewrite E.
  - intros s r t. rewrite !E. apply He.
  - intros k x. rewrite E. apply Hk.
Qed.

Lemma good_writes_nil n m : good_writes db n m [].
Proof. apply good_writes_edges; [apply only_nil|by intros s r t|by intros k x]. Qed.

(** ** Requests *)

(** A request, with the generations it reads; rows carry the ids fetched for
    them. *)
Inductive request :=
| RCreate (vc : Counters) (type_name : bytes) (rows : list (Z * FieldMap))
| RUpdate (vc : Counters) (type_name : bytes) (object_id : Z) (updates : FieldMap)
| RDelete (vc : Counters) (type_name : bytes) (object_id : Z)
| RLink (vc : Counters) (src_type : bytes) (source_id : Z) (field : bytes) (target_id : Z) (edge_fs : option FieldMap)
| RUnlink (src_type : bytes) (source_id : Z) (field : bytes) (target_id : Z)
| RRefresh (m_read : bmap bytes) (vc : Counters) (target_type_id target_id : Z).

(** The writes staged, and the object ids used by them. *)
Definition stage (m : bmap bytes) (r : request) : eres (list Z * list op) :=
  match r with
  | RCreate vc tn rows => '(ws, _, _, _) ← create_batch db m vc tn rows; EOk (map fst rows, ws)
  | RUpdate vc tn o us => '(ws, _, _, _) ← update db m vc tn o us; EOk ([], ws)
  | RDelete vc tn o => '(ws, _, _) ← delete_object db (delete_fuel db m) m vc tn o; EOk ([], ws)
  | RLink vc st s f t ef => ws ← link db m vc st s f t ef; EOk ([], ws)
  | RUnlink st s f t => ws ← unlink db st s f t; EOk ([], ws)
  | RRefresh mr vc ty t => ws ← refresh_covers_for_target db mr m vc ty t; EOk ([], ws)
  end.

(** Ids are fresh, values are in their ranges, and an update does not exchange
    the zeros of an indexed float. *)
Definition request_ok (used : list Z) (m : bmap bytes) (r : request) : Prop :=
  match r with
  | RCreate _ _ rows => NoDup (map fst rows) /\ (forall o, In o (map fst rows) -> is_u64 o /\ ~ In o used) /\
      Forall (fun r => Forall (fun e => value_ok (snd e)) (snd r)) rows
  | RUpdate _ tn o us => is_u64 o /\ bsorted us /\ Forall (fun e => value_ok (snd e)) us /\ keeps_zeros db m tn o us
  | _ => True
  end.

Lemma stage_good used m r ids ws : store_ok db used m -> request_ok used m r -> stage m r = EOk (ids, ws) ->
  good_writes db (ids ++ used) m ws.
Proof.
  intros Hst Hr H. destruct r; cbn [stage request_ok] in *; ebind H.
  - destruct a as [[[ws' objs] vc'] d]. injection H as <- <-. destruct Hr as (Hn & Hi & Hv).
    eapply create_batch_good; [done|done|done|done| |done]. intros o Ho. destruct (Hi o Ho). split_and!; [done..|]. apply in_or_app. by left.
  - destruct a as [[[ws' ob] vc'] d]. injection H as <- <-. destruct Hr as (Ho & Hs & Hv & Hz). by eapply update_good.
  - destruct a as [[ws' dl] d]. injection H as <- <-. by eapply delete_good.
  - injection H as <- <-. by eapply link_good.
  - injection H as <- <-. by eapply unlink_good.
  - injection H as <- <-. eapply refresh_good; [apply Hst|apply Hst|done].
Qed.

(** ** The system *)

Section transactions.
Context {St : Type} (apply : St -> Z -> list write -> St * res unit).
Variables (base : bmap bytes) (used0 : list Z).
Hypothesis Hbase : store_ok db used0 base.

Record engine_sys := {
  txns : @sys St;
  used_ids : list Z;
}.

(** A commit is checked against the log, which holds the commits made since the
    snapshot when there are at most [max_committed_log_size] of them. *)
Inductive estep : engine_sys -> engine_sys -> Prop :=
| es_begin s m' t :
    tm_begin (mgr (txns s)) = (m', t) ->
    estep s {| txns := {| mgr := m'; store := store (txns s); live := t :: live (txns s); hist := hist (txns s) |};
               used_ids := used_ids s |}
| es_stage s i t t' r ids ws :
    live (txns s) !! i = Some t -> writes t = [] ->
    let m := map_at base (hist (txns s)) (snapshot t) in
    request_ok (used_ids s) m r -> stage m r = EOk (ids, ws) -> upserts t ws = Ok t' ->
    estep s {| txns := {| mgr := mgr (txns s); store := store (txns s); live := <[i := t']> (live (txns s));
                          hist := hist (txns s) |};
               used_ids := ids ++ used_ids s |}
| es_commit s i t m' t' st' v :
    next_version (mgr (txns s)) < u64_max ->
    live (txns s) !! i = Some t ->
    (List.length (newer (snapshot t) (hist (txns s))) <= max_committed_log_size (mgr (txns s)))%nat ->
    tm_commit apply (mgr (txns s)) t (store (txns s)) = (m', t', st', Ok v) ->
    estep s {| txns := {| mgr := m'; store := st'; live := delete i (live (txns s));
                          hist := if txn_is_empty t then hist (txns s) else hist (txns s) ++ [(v, writes t)] |};
               used_ids := used_ids s |}
| es_fail s i t m' t' st' e :
    next_version (mgr (txns s)) < u64_max ->
    live (txns s) !! i = Some t -> tm_commit apply (mgr (txns s)) t (store (txns s)) = (m', t', st', Err e) ->
    estep s {| txns := {| mgr := m'; store := st'; live := <[i := t']> (live (txns s)); hist := hist (txns s) |};
               used_ids := used_ids s |}
| es_abort s i t m' t' :
    live (txns s) !! i = Some t -> tm_abort (mgr (txns s)) t = (m', t') ->
    estep s {| txns := {| mgr := m'; store := store (txns s); live := delete i (live (txns s)); hist := hist (txns s) |};
               used_ids := used_ids s |}.

Definition einit (v : Z) (st : St) : engine_sys := {| txns := init v st; used_ids := used0 |}.
Definition ereachable (v : Z) (st : St) (s : engine_sys) : Prop := rtc estep (einit v st) s.

(** What a reader at a version sees. *)
Definition view (s : engine_sys) (v : Z) : bmap bytes := map_at base (hist (txns s)) v.

Record einv (s : engine_sys) : Prop := {
  ei_sys : sys_inv (txns s);
  ei_store v : store_ok db (used_ids s) (view s v);
  ei_staged t : t ∈ live (txns s) -> good_writes db (used_ids s) (view s (snapshot t)) (writes t);
}.

Lemma upserts_steps (s : @sys St) i t t' ws : live s !! i = Some t -> upserts t ws = Ok t' ->
  rtc (step apply) s {| mgr := mgr s; store := store s; live := <[i := t']> (live s); hist := hist s |}.
Proof.
  revert s t. induction ws as [|[k x] ws IH]; intros s t Hi H; cbn [upserts] in H.
  { injection H as <-. rewrite list_insert_id by done. destruct s. apply rtc_refl. }
  destruct (upsert t k x) as [t1|e|] eqn:E; [|done..]. cbn [mbind res_bind] in H.
  eapply rtc_l; [by eapply step_write|]. etransitivity.
  - apply (IH _ t1); [|done]. cbn [live]. apply list_lookup_insert_eq. by eapply lookup_lt_Some.
  - cbn [mgr store live hist]. rewrite list_insert_insert_eq. apply rtc_refl.
Qed.

Lemma steps_inv s s' : sys_inv s -> rtc (step apply) s s' -> sys_inv s'.
Proof. intros Hi H. induction H as [|a b c H _ IH]; [done|]. apply IH. by eapply step_inv. Qed.

Lemma upserts_snapshot ws : forall t t', txn_wf t -> upserts t ws = Ok t' -> snapshot t' = snapshot t.
Proof.
  induction ws as [|[k x] ws IH]; intros t t' Hw H; cbn [upserts] in H; [by injection H as <-|].
  destruct (upsert_wf t k x Hw) as (t1 & E & Hw1 & _ & Hs & _). rewrite E in H. cbn [mbind res_bind] in H.
  rewrite (IH t1 t') by done. done.
Qed.

Lemma base_sorted : bsorted base.
Proof. apply Hbase. Qed.

(** The live transactions after a change of one. *)
Lemma live_insert_in (ts : list Transaction) i t' t : t ∈ <[i := t']> ts -> t = t' \/ t ∈ ts.
Proof.
  intros (j & Hj)%list_elem_of_lookup. apply list_lookup_insert_Some in Hj as [(_ & -> & _)|[_ Hj]]; [by left|right].
  by eapply list_elem_of_lookup_2.
Qed.

(** A commit that was accepted: no newer commit wrote its keys. *)
Lemma accepted_unchanged s t v : einv s -> t ∈ live (txns s) ->
  (List.length (newer (snapshot t) (hist (txns s))) <= max_committed_log_size (mgr (txns s)))%nat ->
  existsb (conflicts t) (committed_log (mgr (txns s))) = false -> snapshot t <= v ->
  unchanged (writes t) (view s (snapshot t)) (view s v).
Proof.
  intros Hi Ht Hlen Hc Hv k Hk. apply map_at_unwritten; [apply base_sorted|done|]. intros h Hh Hlt Hin.
  assert (existsb (conflicts t) (committed_log (mgr (txns s))) = true); [|congruence].
  apply (log_check_exact (txns s) t (ei_sys s Hi) Ht Hlen). exists h. split_and!; [done..|].
  exists k. by rewrite !list_elem_of_In.
Qed.

Lemma einv_same s s' : sys_inv (txns s') -> hist (txns s') = hist (txns s) -> used_ids s' = used_ids s ->
  (forall t, t ∈ live (txns s') -> writes t = [] \/ t ∈ live (txns s)) -> einv s -> einv s'.
Proof.
  intros Hs Hh Hu Hl Hi. split; [done|..]; unfold view; rewrite Hh, Hu; [apply (ei_store s Hi)|].
  intros t Ht. destruct (Hl t Ht) as [->|Ht']; [apply good_writes_nil|by apply (ei_staged s Hi)].
Qed.

Lemma commit_inv s i t m' t' st' v :
  einv s -> sys_inv {| mgr := m'; store := st'; live := delete i (live (txns s));
    hist := if txn_is_empty t then hist (txns s) else hist (txns s) ++ [(v, writes t)] |} ->
  live (txns s) !! i = Some t ->
  (List.length (newer (snapshot t) (hist (txns s))) <= max_committed_log_size (mgr (txns s)))%nat ->
  tm_commit apply (mgr (txns s)) t (store (txns s)) = (m', t', st', Ok v) ->
  einv {| txns := {| mgr := m'; store := st'; live := delete i (live (txns s));
                     hist := if txn_is_empty t then hist (txns s) else hist (txns s) ++ [(v, writes t)] |};
          used_ids := used_ids s |}.
Proof.
  intros Hi Hs Ht Hlen E. pose proof (list_elem_of_lookup_2 _ _ _ Ht) as Hin.
  destruct (txn_is_empty t) eqn:Ee.
  { apply (einv_same s); [done|done|done| |done]. cbn. intros t0 Ht0%elem_of_delete. by right. }
  destruct (tm_commit_cases _ _ _ _ _ _ _ _ E) as [(H & _)|[(_ & _ & [=] & _)|[(_ & Hc & _ & [= ->] & _)|(_ & _ & _ & H & _)]]];
    [congruence| |by destruct (H v)].
  destruct (inv_live _ (ei_sys s Hi) t Hin) as (_ & _ & Hsn). pose proof (inv_versions _ (ei_sys s Hi)) as Hv.
  set (cv := next_version (mgr (txns s))) in *.
  assert (Hst : forall w, store_ok db (used_ids s) (map_at base (hist (txns s) ++ [(cv, writes t)]) w)).
  { intros w. rewrite map_at_snoc. destruct (decide _) as [Hw|_]; [|apply (ei_store s Hi)].
    eapply store_preserved; [apply (ei_store s Hi (snapshot t))|apply (ei_store s Hi)| |by apply (ei_staged s Hi)].
    apply accepted_unchanged; [done..|lia]. }
  split; [done|done|]. cbn [txns live hist used_ids]. unfold view. cbn [txns hist]. intros t0 Ht0%elem_of_delete.
  destruct (inv_live _ (ei_sys s Hi) t0 Ht0) as (_ & _ & Hsn0). rewrite map_at_snoc, decide_False by lia.
  by apply (ei_staged s Hi).
Qed.

Lemma stage_inv s i t t' r ids ws : einv s ->
  live (txns s) !! i = Some t -> writes t = [] -> request_ok (used_ids s) (view s (snapshot t)) r ->
  stage (view s (snapshot t)) r = EOk (ids, ws) -> upserts t ws = Ok t' ->
  einv {| txns := {| mgr := mgr (txns s); store := store (txns s); live := <[i := t']> (live (txns s)); hist := hist (txns s) |};
          used_ids := ids ++ used_ids s |}.
Proof.
  intros Hi Ht Hw Hr Hg Hu. pose proof (list_elem_of_lookup_2 _ _ _ Ht) as Hin.
  destruct (inv_live _ (ei_sys s Hi) t Hin) as (_ & Hwf & _).
  assert (Hincl : incl (used_ids s) (ids ++ used_ids s)) by (intros x Hx; apply in_or_app; by right).
  split.
  - eapply steps_inv; [apply (ei_sys s Hi)|]. by eapply upserts_steps.
  - intros v. eapply store_ok_mono; [exact Hincl|]. apply (ei_store s Hi).
  - intros t0 [->|Ht0]%live_insert_in.
    + eapply good_writes_ext; [intros k; by eapply upserts_last|]. rewrite (upserts_snapshot ws t t') by done.
      eapply stage_good; [apply (ei_store s Hi)|exact Hr|done].
    + eapply good_writes_mono; [exact Hincl|]. by apply (ei_staged s Hi).
Qed.

Lemma estep_inv s s' : einv s -> estep s s' -> einv s'.
Proof.
  intros Hi Hst. pose proof (ei_sys s Hi) as Hs.
  destruct Hst as [s m' t E|s i t t' r ids ws Ht Hw m Hr Hg Hu|s i t m' t' st' v Hn Ht Hlen E|s i t m' t' st' e Hn Ht E|s i t m' t' Ht E].
  - apply (einv_same s); [apply (step_inv apply (txns s)); [exact Hs|by eapply step_begin]|done|done| |done].
    cbn. injection E as <- <-. intros t0 [->|H]%elem_of_cons; [by left|by right].
  - by eapply stage_inv.
  - eapply commit_inv; [done| |done|done|exact E]. apply (step_inv apply (txns s)); [exact Hs|by eapply step_commit].
  - apply (einv_same s); [apply (step_inv apply (txns s)); [exact Hs|by eapply step_fail]|done|done| |done].
    cbn. intros t0 [->|H]%live_insert_in; [right|by right].
    destruct (tm_commit_cases _ _ _ _ _ _ _ _ E) as [(_ & [=] & _)|[(_ & _ & _ & _ & -> & _)|[(_ & _ & _ & [=] & _)|(_ & _ & _ & _ & -> & _)]]];
      by eapply list_elem_of_lookup_2.
  - apply (einv_same s); [apply (step_inv apply (txns s)); [exact Hs|by eapply step_abort]|done|done| |done].
    cbn. intros t0 H%elem_of_delete. by right.
Qed.

Lemma ereachable_inv v st s : 0 <= v < u64_max -> ereachable v st s -> einv s.
Proof.
  intros Hv H. unfold ereachable in H. apply (rtc_ind_r einv (einit v st)) in H; [done| |].
  - split; [by apply (reachable_inv apply v st); [|apply rtc_refl]|intros w; exact Hbase|]. cbn. by intros t []%elem_of_nil.
  - intros y z _ Hyz Hy. by eapply estep_inv.
Qed.
End transactions.
End system.
