(* ===== verification/EngineDemo.v ===== *)
(** * A small database

    Users and their posts: a schema in the schema language, the ids of a catalog
    and the caches built from them, on which the theorems about the engine are
    evaluated. *)

From Stdlib Require Import ZArith Lia Bool List Strings.Byte Strings.String.
From stdpp Require Import base tactics option list gmap relations.
From S2P Require Import Prelude ByteMap Keys Mvcc Utf8 Values Ieee Schema SchemaParser SchemaSpec SchemaRoundTrip.
From S2P Require Import Serde IndexKeys Posting Store Fulltext.
From S2P Require Import Engine EngineEdges EngineOps EngineDelete EngineInv EngineTxn EngineCreate EngineUpdate.
From S2P Require Import EngineSystem.

Local Open Scope Z_scope.
Local Open Scope bytes_scope.

#[export] Existing Instance plain_serde.
#[export] Existing Instance toy_text.

(** Maps are walked from their last entry. *)
Definition demo_lib : EngineLib := {| hash_order fm := rev fm; json_eqb := json_tree_eqb Z.eqb |}.
#[export] Existing Instance demo_lib.

#[export] Instance demo_lib_laws : EngineLibLaws demo_lib.
Proof. split. intros fm. symmetry. apply Permutation_rev. Qed.

Definition demo_sdl : bytes := bs "
type User { email: String @unique  age: i64 @indexed  score: f64 @indexed  posts: [Post] @inverse(Post.author) }
type Post { title: String  author: User @on_delete(cascade)  editor: User  tags: [Tag] @on_delete(remove) }
type Tag { name: String @unique }".

Definition demo_schema : Schema :=
  Eval vm_compute in match parse_schema (C := ascii_only) demo_sdl with SOk s => s | _ => {| types := [] |} end.

Lemma demo_schema_parsed : parse_schema (C := ascii_only) demo_sdl = SOk demo_schema.
Proof. by vm_compute. Qed.

Definition demo_type_ids : bmap Z := [(bs "Post", 2); (bs "Tag", 3); (bs "User", 1)].
Definition demo_rel_ids : bmap Z :=
  [(bs "Post.author", 11); (bs "Post.editor", 12); (bs "Post.tags", 14); (bs "User.posts", 13)].
Definition demo_field_ids : bmap Z :=
  [(bs "Post.title", 21); (bs "Tag.name", 25); (bs "User.age", 22); (bs "User.email", 23); (bs "User.score", 24)].

Definition built {A} (d : A) (r : eres A) : A := match r with EOk a => a | _ => d end.

(** A database opened on a schema with the ids of its catalog. *)
Definition open_db (sch : Schema) (tids rids fids : bmap Z) : Database := {|
  schema := sch; type_ids := tids; rel_ids := rids; field_ids := fids;
  tombstoned_type_ids := []; tombstoned_rel_ids := []; tombstoned_field_quals := []; retired_field_names_by_type := [];
  incoming_relations := built [] (build_incoming tids rids (types sch));
  cascade_meta_by_id := built [] (build_cascade_meta tids rids (types sch));
  indexed_fields := built [] (build_indexed fids (types sch));
  fulltext_fields := [] |}.

Definition demo_db : Database := Eval vm_compute in open_db demo_schema demo_type_ids demo_rel_ids demo_field_ids.

(** Ids handed out once are injective. *)
Lemma ids_once (ids : bmap Z) n n' i : NoDup (map snd ids) -> bm_get n ids = Some i -> bm_get n' ids = Some i -> n = n'.
Proof.
  intros Hn H H'. apply assoc_in in H. apply assoc_in in H'. induction ids as [|[k z] ids IH]; [done|].
  cbn [map snd] in Hn. apply NoDup_cons in Hn as [Hk Hn]. rewrite list_elem_of_In in Hk.
  destruct H as [[= -> ->]|H], H' as [[= ->]|H']; [done| | |by apply IH].
  - exfalso. apply Hk. by apply (in_map snd) in H'.
  - subst. exfalso. apply Hk. by apply (in_map snd) in H.
Qed.

Lemma ids_u64 (ids : bmap Z) n i : forallb (fun e => (0 <=? snd e) && (snd e <=? u64_max)) ids = true ->
  bm_get n ids = Some i -> is_u64 i.
Proof.
  intros Hf H. apply assoc_in in H. rewrite forallb_forall in Hf. apply Hf in H. cbn in H. unfold is_u64, u64_max in *. lia.
Qed.

Ltac by_cases := repeat match goal with
  | H : In _ (_ :: _) |- _ => destruct H as [H|H]
  | H : In _ [] |- _ => destruct H
  end.

Lemma demo_db_ok : db_ok demo_db.
Proof.
  split.
  - intros n n' i. apply ids_once. apply (bool_decide_unpack _). by vm_compute.
  - intros n i. apply ids_u64. by vm_compute.
  - intros q q' i. apply ids_once. apply (bool_decide_unpack _). by vm_compute.
  - intros q i. apply ids_u64. by vm_compute.
  - repeat constructor.
  - intros tn td H. apply assoc_in in H. cbv [demo_db schema types] in H. by_cases; apply pair_equal_spec in H as [<- <-];
      (split; [apply (bool_decide_unpack _); by vm_compute|split; [by vm_compute|repeat constructor; by vm_compute]]).
  - by vm_compute.
  - by vm_compute.
  - by vm_compute.
Qed.

(** ** Runs *)

Definition in_range_z (lo hi x : Z) : bool := (lo <=? x) && (x <? hi).

Definition value_okb (v : Value) : bool :=
  match v with
  | VNull | VBool _ => true
  | VString s => utf8_valid s && in_range_z 0 (2 ^ 32) (len s)
  | VU32 v | VF32 v => in_range_z 0 (2 ^ 32) v
  | VU64 v | VF64 v => in_range_z 0 (2 ^ 64) v
  | VI32 v => in_range_z (- 2 ^ 31) (2 ^ 31) v
  | VI64 v | VDateTime v => in_range_z (- 2 ^ 63) (2 ^ 63) v
  | _ => false
  end.

Lemma value_okb_ok v : value_okb v = true -> value_ok v.
Proof.
  destruct v; cbn; try done; unfold in_range_z, is_u32, is_u64, is_i32, is_i64; try lia.
  intros [H1 H2]%andb_true_iff. split; [done|lia].
Qed.

Definition values_okb (fm : FieldMap) : bool := forallb (fun e => value_okb (snd e)) fm.

Lemma values_okb_ok fm : values_okb fm = true -> Forall (fun e => value_ok (snd e)) fm.
Proof. intros H. apply List.Forall_forall. intros e He. apply value_okb_ok. by apply (proj1 (forallb_forall _ _) H). Qed.

Fixpoint sortedb {V} (m : bmap V) : bool :=
  match m with
  | [] => true
  | e :: m => forallb (fun x => match bytes_cmp (fst e) (fst x) with Lt => true | _ => false end) m && sortedb m
  end.

Lemma sortedb_ok {V} (m : bmap V) : sortedb m = true -> bsorted m.
Proof.
  induction m as [|e m IH]; cbn [sortedb]; [intros _; apply bsorted_nil|]. intros [H1 H2]%andb_true_iff.
  constructor; [by apply IH|]. apply List.Forall_forall. intros x Hx. apply (proj1 (forallb_forall _ _) H1) in Hx.
  unfold blt. by destruct (bytes_cmp (fst e) (fst x)).
Qed.

(** A request whose side conditions are checked by evaluation; an update of
    floats is left out. *)
Definition fine (used : list Z) (r : request) : bool :=
  match r with
  | RCreate _ _ rows => bool_decide (NoDup (map fst rows)) && forallb (fun o => in_range_z 0 (2 ^ 64) o && negb (mem_z o used)) (map fst rows)
      && forallb (fun r => values_okb (snd r)) rows
  | RUpdate _ _ o us => in_range_z 0 (2 ^ 64) o && sortedb us && values_okb us
      && forallb (fun e => match float_bits (snd e) with None => true | Some _ => false end) us
  | _ => true
  end.

Lemma fine_ok db used m r : fine used r = true -> request_ok db used m r.
Proof.
  destruct r; cbn [fine request_ok]; try done.
  - intros [[H1%bool_decide_eq_true H2]%andb_true_iff H3]%andb_true_iff. split_and!; [done| |].
    + intros o Ho. apply (proj1 (forallb_forall _ _) H2) in Ho. apply andb_true_iff in Ho as [Ho Hn%negb_true_iff].
      unfold in_range_z in Ho. split; [unfold is_u64; lia|]. intros Hin. assert (mem_z o used = true); [|congruence].
      apply existsb_exists. exists o. by rewrite Z.eqb_refl.
    + apply List.Forall_forall. intros x Hx. apply values_okb_ok. by apply (proj1 (forallb_forall _ _) H3).
  - intros [[[H1 H2]%andb_true_iff H3]%andb_true_iff H4]%andb_true_iff. unfold in_range_z in H1.
    split_and!; [unfold is_u64; lia|by apply sortedb_ok|by apply values_okb_ok|].
    intros td tid old ifd a b _ _ _ _ Hb. apply assoc_in in Hb. apply (proj1 (forallb_forall _ _) H4) in Hb. cbn in Hb.
    unfold flips_zero. destruct (float_bits b); [done|]. by destruct (float_bits a).
Qed.

Inductive eaction := EBegin | EStage (i : nat) (r : request) | ECommit (i : nat) | EAbort (i : nat).

Section run.
Context {St : Type} (apply : St -> Z -> list write -> St * res unit) (base : bmap bytes) (db : Database).

Definition eact (s : @engine_sys St) (a : eaction) : option engine_sys :=
  let x := txns s in
  match a with
  | EBegin =>
      let '(m', t) := tm_begin (mgr x) in
      Some {| txns := {| mgr := m'; store := store x; live := t :: live x; hist := hist x |}; used_ids := used_ids s |}
  | EStage i r =>
      match live x !! i with
      | Some t =>
          match writes t, fine (used_ids s) r, stage db (map_at base (hist x) (snapshot t)) r with
          | [], true, EOk (ids, ws) =>
              match upserts t ws with
              | Ok t' => Some {| txns := {| mgr := mgr x; store := store x; live := <[i := t']> (live x); hist := hist x |};
                                 used_ids := ids ++ used_ids s |}
              | _ => None
              end
          | _, _, _ => None
          end
      | None => None
      end
  | ECommit i =>
      match live x !! i with
      | Some t =>
          if (next_version (mgr x) <? u64_max) && (List.length (newer (snapshot t) (hist x)) <=? max_committed_log_size (mgr x))%nat then
            match tm_commit apply (mgr x) t (store x) with
            | (m', _, st', Ok v) =>
                Some {| txns := {| mgr := m'; store := st'; live := delete i (live x);
                          hist := if txn_is_empty t then hist x else hist x ++ [(v, writes t)] |}; used_ids := used_ids s |}
            | (m', t', st', Err _) =>
                Some {| txns := {| mgr := m'; store := st'; live := <[i := t']> (live x); hist := hist x |}; used_ids := used_ids s |}
            | _ => None
            end
          else None
      | None => None
      end
  | EAbort i =>
      match live x !! i with
      | Some t =>
          let '(m', _) := tm_abort (mgr x) t in
          Some {| txns := {| mgr := m'; store := store x; live := delete i (live x); hist := hist x |}; used_ids := used_ids s |}
      | None => None
      end
  end.

Lemma eact_step s a s' : eact s a = Some s' -> estep db apply base s s'.
Proof.
  destruct a as [|i r|i|i]; cbn -[tm_commit stage fine].
  - intros [= <-]. by eapply es_begin.
  - destruct (live (txns s) !! i) as [t|] eqn:Ei; [|done]. destruct (writes t) eqn:Ew; [|done].
    destruct (fine _ _) eqn:Ef; [|done]. destruct (stage _ _ _) as [[ids ws]| | |] eqn:Es; [|done..].
    destruct (upserts _ _) as [t'| |] eqn:Eu; [|done..]. intros [= <-]. eapply es_stage; [done|done| |exact Es|done]. by apply fine_ok.
  - destruct (live (txns s) !! i) as [t|] eqn:Ei; [|done].
    destruct (_ && _) eqn:Eg; [|done]. apply andb_true_iff in Eg as [E1%Z.ltb_lt E2%Nat.leb_le].
    destruct (tm_commit _ _ _ _) as [[[m' t'] st'] r] eqn:Ec. destruct r; [..|done]; intros [= <-].
    + by eapply es_commit.
    + by eapply es_fail.
  - destruct (live (txns s) !! i) eqn:Ei; [|done]. destruct (tm_abort _ _) eqn:Ea. intros [= <-]. by eapply es_abort.
Qed.

Fixpoint erun (s : @engine_sys St) (l : list eaction) : option engine_sys :=
  match l with
  | [] => Some s
  | a :: l => match eact s a with Some s' => erun s' l | None => None end
  end.

Lemma erun_steps s l s' : erun s l = Some s' -> rtc (estep db apply base) s s'.
Proof.
  revert s. induction l as [|a l IH]; intros s; cbn [erun]; [by intros [= <-]|].
  destruct (eact s a) eqn:E; [|done]. intros H. eapply rtc_l; [by eapply eact_step|by apply IH].
Qed.
End run.

Lemma empty_ok : store_ok demo_db [] [].
Proof.
  split; [apply bsorted_nil|done|done|by intros k _ []|split; done|split; [done|by intros]|by intros s r t; split; intros []|by intros k []].
Qed.

(** Two sessions race to register one address, then the winner writes posts. *)
Definition ann := bs "ann@x".
Definition user (age : Z) : FieldMap := [(bs "age", VI64 age); (bs "email", VString ann)].

Definition demo_actions : list eaction :=
  [EBegin; EBegin;
   EStage 0 (RCreate ∅ (bs "User") [(1, user 30)]); EStage 1 (RCreate ∅ (bs "User") [(2, user 40)]);
   ECommit 1; ECommit 0; EAbort 0;
   EBegin; EStage 0 (RCreate {[(1, 2) := 1]} (bs "Post") [(3, [(bs "author", VU64 2); (bs "title", VString (bs "hi"))])]); ECommit 0;
   EBegin; EStage 0 (RUpdate {[(1, 2) := 1; (2, 3) := 1]} (bs "User") 2 [(bs "age", VI64 41)]); ECommit 0].

Definition demo_final : option (@engine_sys unit) :=
  Eval vm_compute in erun no_store [] demo_db (einit [] 0 tt) demo_actions.

Definition demo_sys : @engine_sys unit := Eval vm_compute in default (einit [] 0 tt) demo_final.
