(* ===== verification/EngineProps.v ===== *)
(** * What clients of the engine rely on

    The invariant under concurrent transactions, lookups by unique value, the
    symmetry of links, and what create, update and delete leave to be read. *)

From Stdlib Require Import ZArith Lia Bool List Strings.Byte Strings.String.
From stdpp Require Import base tactics option list gmap relations.
From S2P Require Import Prelude ByteMap Keys Mvcc Store Utf8 Values Ieee Schema SchemaParser SchemaSpec SchemaRoundTrip IndexKeys Posting Fulltext.
From S2P Require Import Engine EngineEdges EngineOps EngineDelete EngineInv EngineTxn EngineCreate EngineUpdate EngineSystem EngineDemo.

Local Open Scope Z_scope.
Local Open Scope bytes_scope.

Section props.
Context {J : Json} {T : TextLib} {L : EngineLib} {LL : EngineLibLaws L}.
Variable db : Database.
Hypothesis Hdb : db_ok db.

(** ** Lookups by unique value *)

(** What [find_by_unique_at] must return for a value. *)
Definition unique_answer (m : bmap bytes) (tn : bytes) (tid : Z) (f b : bytes) (r : option Obj) : Prop :=
  match r with
  | Some ob => is_u64 (obj_id ob) /\ exists fm, obj m tid (obj_id ob) = Some fm /\ uval f (Some fm) = Some b /\
      ob = {| obj_type := tn; obj_id := obj_id ob; obj_fields := strip_tombstoned_fields db tn fm |} /\
      forall o, is_u64 o -> uval f (obj m tid o) = Some b -> o = obj_id ob
  | None => forall o, is_u64 o -> uval f (obj m tid o) <> Some b
  end.

Lemma find_by_unique_spec n m tn tid f fid v : store_ok db n m -> resolve_type_id db tn = EOk tid -> ufield db tn tid f fid ->
  exists r, find_by_unique_at db m tn f v = EOk r /\ unique_answer m tn tid f (value_to_index_bytes v) r.
Proof.
  intros Hst Hr Hf. pose proof (so_unique _ _ _ Hst) as Hue. unfold find_by_unique_at. rewrite Hr. cbn [mbind eres_bind].
  pose proof Hf as (td & fd & Ht & _ & _ & ->). set (b := value_to_index_bytes v).
  destruct (bm_get (KeyBuilder.unique_index tid fid b) m) as [x|] eqn:Ex.
  - destruct (ue_object _ _ Hue tn tid f fid b x Hf Ex) as (o & Ho & -> & Hb). rewrite length_be64.
    change (8 <? 8)%nat with false. cbv iota. rewrite take_ge, from_be64 by (rewrite ?length_be64; done || lia).
    assert (Hou : forall o', is_u64 o' -> uval f (obj m tid o') = Some b -> o' = o).
    { intros o' Ho' Hb'. by eapply unique_exact_inj. }
    unfold obj in Hb at 1. destruct (bm_get (KeyBuilder.object tid o) m) as [data|] eqn:Ed; [|done].
    destruct (so_blobs _ _ _ Hst tn td tid o data Ht Ed) as (fm & Hd & _). unfold decode_object. rewrite Hd.
    cbn [mbind eres_bind]. eexists. split; [done|]. cbn [unique_answer obj_id]. split; [done|]. exists fm.
    assert (Eo : obj m tid o = Some fm) by (unfold obj; rewrite Ed; cbn [mbind option_bind]; unfold decoded; by rewrite Hd).
    split_and!; [done| |done|done]. cbn [mbind option_bind] in Hb. unfold decoded in Hb. by rewrite Hd in Hb.
  - exists None. split; [done|]. intros o Ho Hb. pose proof (ue_row _ _ Hue tn tid f fid o b Hf Ho Hb). congruence.
Qed.

(** ** Links *)

(** The rows of a scan are returned, when it succeeds. *)
Lemma scan_prefix_complete m p es : scan_prefix m p = EOk es ->
  forall k, is_Some (bm_get k m) -> p `prefix_of` k -> (8 <= List.length k)%nat -> exists fm, In (key_id k, fm) es.
Proof.
  unfold scan_prefix. intros H k [x Hx] Hp Hl. assert (Hin : In (k, x) (rows_under p m)).
  { apply filter_In. split; [by apply assoc_in|]. by apply starts_with_true. }
  revert es H Hin. generalize (rows_under p m). intros rows. induction rows as [|[k' x'] rows IH]; intros es H Hin; [done|].
  cbn [decode_edge_entries] in H. destruct (Nat.ltb_spec (List.length k') 8).
  - destruct Hin as [Hk|Hin]; [|by apply IH]. apply pair_equal_spec in Hk as [-> _]. lia.
  - ebind H. ebind H. injection H as <-. destruct Hin as [Hk|Hin].
    + apply pair_equal_spec in Hk as [-> _]. eexists. by left.
    + destruct (IH _ E0 Hin) as (fm & H'). exists fm. by right.
Qed.

Lemma edge_scan_iff m a r b es : edges_shaped m -> is_u64 b -> scan_prefix m (KeyBuilder.edge_prefix a r) = EOk es ->
  (exists ef, In (b, ef) es) <-> is_Some (bm_get (KeyBuilder.edge a r b) m).
Proof.
  intros Hs Hb H. split.
  - intros (ef & Hin). by eapply edges_of_scan.
  - intros Hx. destruct (scan_prefix_complete m _ es H _ Hx) as (fm & Hin).
    + unfold KeyBuilder.edge_prefix, KeyBuilder.edge. eexists (be64 b). by rewrite <- !app_assoc.
    + unfold KeyBuilder.edge. rewrite !length_app, !length_be64. cbn. lia.
    + rewrite key_id_edge, as_u64_small in Hin by done. by exists fm.
Qed.

Lemma reverse_scan_iff m b r a es : edges_shaped m -> is_u64 a -> scan_prefix m (KeyBuilder.reverse_edge_prefix b r) = EOk es ->
  (exists ef, In (a, ef) es) <-> is_Some (bm_get (KeyBuilder.reverse_edge b r a) m).
Proof.
  intros Hs Ha H. split.
  - intros (ef & Hin). destruct (edge_scan_rows m _ es H a ef Hin) as (k & Hk & Hp & ->).
    destruct (Hs k Hk) as [_ Hsh]. destruct Hsh as (s & r' & t & ->).
    { destruct Hp as [z ->]. done. }
    by rewrite <- (reverse_edge_row b r s r' t).
  - intros Hx. destruct (scan_prefix_complete m _ es H _ Hx) as (fm & Hin).
    + unfold KeyBuilder.reverse_edge_prefix, KeyBuilder.reverse_edge. eexists (be64 a). by rewrite <- !app_assoc.
    + unfold KeyBuilder.reverse_edge. rewrite !length_app, !length_be64. cbn. lia.
    + rewrite key_id_reverse_edge, as_u64_small in Hin by done. by exists fm.
Qed.

(** A forward relation and the field that is its inverse. *)
Definition inverse_fields (ta fa tb fb : bytes) : Prop :=
  exists tda tdb da dbf inv, get_type (schema db) ta = Some tda /\ get_type (schema db) tb = Some tdb /\
    get_field tda fa = Some da /\ get_field tdb fb = Some dbf /\ inverse da = None /\ inverse dbf = Some inv /\
    inv_type_name inv = ta /\ inv_field_name inv = fa.

Lemma get_links_inverse n m ta fa tb fb a b la lb : store_ok db n m -> inverse_fields ta fa tb fb -> is_u64 a -> is_u64 b ->
  get_links db m ta a fa = EOk la -> get_links db m tb b fb = EOk lb ->
  (exists ef, In (b, ef) la) <-> (exists ef, In (a, ef) lb).
Proof.
  intros Hst (tda & tdb & da & dbf & inv & Ha & Hb & Hfa & Hfb & Hia & Hib & <- & <-) Hua Hub H1 H2.
  unfold get_links in H1, H2. unfold schema_type in H1, H2. rewrite Ha in H1. rewrite Hb in H2.
  ebind H1. cbn [ok_or mbind eres_bind] in H1. rewrite Hfa in H1. cbn [ok_or mbind eres_bind] in H1. rewrite Hia in H1.
  ebind H1. apply ok_or_ok in E0.
  ebind H2. cbn [ok_or mbind eres_bind] in H2. rewrite Hfb in H2. cbn [ok_or mbind eres_bind] in H2. rewrite Hib in H2.
  rewrite E0 in H2. cbn [ok_or mbind eres_bind] in H2.
  rewrite (edge_scan_iff m a a1 b la), (reverse_scan_iff m b a1 a lb) by (done || apply Hst). apply (so_mirror _ _ _ Hst).
Qed.

(** ** Reading back *)

Lemma get_stored m tn tid td fm o : resolve_type_id db tn = EOk tid -> get_type (schema db) tn = Some td -> obj_ok td fm ->
  bm_get (KeyBuilder.object tid o) m = Some (ser fm) ->
  get db m tn o = EOk {| obj_type := tn; obj_id := o; obj_fields := strip_tombstoned_fields db tn fm |}.
Proof.
  intros Hr Ht Hok Hm. unfold get. rewrite Hr. cbn [mbind eres_bind]. rewrite Hm. cbn [ok_or mbind eres_bind].
  unfold decode_object. by rewrite (des_ser db tn td).
Qed.

Lemma create_read_back m m' vc tn o fs ws ob vc' d : bsorted m' -> Forall (fun e => value_ok (snd e)) fs ->
  create db m vc tn o fs = EOk (ws, ob, vc', d) ->
  get db (apply_ops ws m') tn o = EOk {| obj_type := tn; obj_id := o; obj_fields := strip_tombstoned_fields db tn (obj_fields ob) |}.
Proof.
  intros Hs Hv H. unfold create in H. ebind H. pose proof E as Er. apply resolve_ok in E. ebind H. apply schema_type_ok in E0.
  ebind H. rename a1 into st. injection H as <- <- _ _.
  assert (R : row_staged db m tn a0 a o fs [] st) by (eapply stage_create_spec; [apply bsorted_nil|done|done]).
  eapply get_stored; [done|done|apply (rs_ok _ _ _ _ _ _ _ _ _ R)|]. cbn [obj_fields]. rewrite bm_get_apply_ops by done.
  erewrite last_op_agree; [done| |apply in_or_app; right; by apply (rs_object _ _ _ _ _ _ _ _ _ R)].
  intros y [Hy|Hy]%in_app_or; [|by apply (rs_object _ _ _ _ _ _ _ _ _ R) in Hy as [_ ->]].
  apply (rs_unique _ _ _ _ _ _ _ _ _ R) in Hy as [(? & ? & ? & ? & _ & _ & _ & _ & _ & E2) _]. done.
Qed.

(** The scalars stored are those of the request. *)
Lemma split_fields_scalars m vc tn td fs : forall sc ls sc' ls', bsorted sc -> NoDup (map fst fs) ->
  split_fields db m vc tn td fs sc ls = EOk (sc', ls') ->
  forall f, bm_get f sc' = match bm_get f fs, get_field td f with
    | Some v, Some {| field_type := Scalar _ |} => Some v
    | _, _ => bm_get f sc
    end.
Proof.
  induction fs as [|[f0 v0] fs IH]; intros sc ls sc' ls' Hs Hn H f; cbn [split_fields] in H; [by injection H as <- _|].
  cbn [map fst] in Hn. apply NoDup_cons in Hn as [Hk Hn]. rewrite list_elem_of_In in Hk. ebind H. apply ok_or_ok in E.
  destruct (negb _); [done|]. cbn [bm_get].
  assert (Hno : f = f0 -> bm_get f fs = None) by (intros ->; by apply assoc_none).
  destruct (field_type a) eqn:Ety; [| |done].
  - rewrite (IH _ _ _ _ (bsorted_insert _ _ _ Hs) Hn H f). rewrite bm_get_insert by done.
    destruct (beqb_spec f f0) as [->|Hne]; [|by rewrite decide_False].
    rewrite (Hno eq_refl), decide_True, E by done. destruct a. cbn in Ety. by subst.
  - destruct (bool_decide _); [done|].
    assert (Hrest : (exists ls1, split_fields db m vc tn td fs sc ls1 = EOk (sc', ls')) ->
      bm_get f sc' = match (if beqb f f0 then Some v0 else bm_get f fs), get_field td f with
        | Some v, Some {| field_type := Scalar _ |} => Some v
        | _, _ => bm_get f sc
        end).
    { intros (ls1 & H1). rewrite (IH _ _ _ _ Hs Hn H1 f). destruct (beqb_spec f f0) as [->|]; [|done].
      rewrite (Hno eq_refl), E. destruct a. cbn in Ety. by subst. }
    destruct (is_null v0); [apply Hrest; eauto|]. ebind H. ebind H. ebind H. ebind H. apply Hrest. eauto.
Qed.

Lemma create_scalars m vc tn o fs ws ob vc' d : bsorted fs -> create db m vc tn o fs = EOk (ws, ob, vc', d) ->
  exists td, get_type (schema db) tn = Some td /\ forall f, bm_get f (obj_fields ob) =
    match bm_get f fs, get_field td f with Some v, Some {| field_type := Scalar _ |} => Some v | _, _ => None end.
Proof.
  intros Hs H. unfold create in H. ebind H. ebind H. apply schema_type_ok in E0. ebind H. injection H as _ <- _ _.
  exists a0. split; [done|]. intros f. unfold stage_create_writes in E1. ebind E1. destruct a2 as [sc ls]. ebind E1.
  destruct a2 as [us c]. destruct (fulltext_puts _ _ _ _ _ _) as [ft d']. ebind E1. injection E1 as <-. cbn [obj_fields s_scalars].
  rewrite (split_fields_scalars m vc tn a0 (hash_order fs) [] [] sc ls (bsorted_nil) ltac:(rewrite hash_order_perm; by apply bsorted_nodup) E2 f).
  by rewrite hash_order_get.
Qed.

Lemma update_read_back n m m' vc tn o us ws ob vc' d : store_ok db n m -> bsorted m' -> bsorted us ->
  Forall (fun e => value_ok (snd e)) us -> update db m vc tn o us = EOk (ws, ob, vc', d) ->
  exists tid old, resolve_type_id db tn = EOk tid /\ obj m tid o = Some old /\ obj_fields ob = bm_insert_all us old /\
    get db (apply_ops ws m') tn o = EOk {| obj_type := tn; obj_id := o; obj_fields := strip_tombstoned_fields db tn (obj_fields ob) |}.
Proof.
  intros Hst Hs Hus Hv H. unfold update in H. ebind H. rename a into tid. pose proof E as Er. ebind H. rename a into td.
  ebind H. destruct a as []. ebind H. rename a into data. ebind H. rename a into old. ebind H. rename a into us'.
  destruct (update_fulltext _ _ _ _ _ _ _) as [ft d'] eqn:Eft. ebind H. destruct a as [w vc1]. injection H as <- <- _ _.
  apply resolve_ok in E. apply schema_type_ok in E0. apply ok_or_ok in E2.
  destruct (so_blobs _ _ _ Hst tn td tid o data (conj E0 E) E2) as (fm & Hd & Hok). assert (fm = old) as -> by congruence.
  exists tid, old. split_and!; [done| |done|].
  { unfold obj. rewrite E2. cbn [mbind option_bind]. unfold decoded. by rewrite Hd. }
  cbn [obj_fields]. eapply get_stored; [done|done| |].
  - eapply new_ok; try done. intros f v Hf. eapply validate_updates_ok; [done|]. by apply in_hash_order.
  - rewrite bm_get_apply_ops by done. rewrite !last_op_app, last_op_one. by destruct (beqb_spec (KeyBuilder.object tid o) (KeyBuilder.object tid o)).
Qed.
(** ** Deleting *)

Lemma in_scan_raw_complete m p k x : bm_get k m = Some x -> p `prefix_of` k -> (8 <= List.length k)%nat ->
  In (key_id k, x) (scan_prefix_raw m p).
Proof.
  intros Hx Hp Hl. unfold scan_prefix_raw. apply in_map_iff. exists (k, x). split; [done|]. apply filter_In.
  split; [|by apply Nat.leb_le]. apply filter_In. split; [by apply assoc_in|by apply starts_with_true].
Qed.

Lemma reverse_scan_raw m o r s x : is_u64 s -> bm_get (KeyBuilder.reverse_edge o r s) m = Some x ->
  In (s, x) (scan_prefix_raw m (KeyBuilder.reverse_edge_prefix o r)).
Proof.
  intros Hs Hx. rewrite <- (as_u64_small s Hs) at 1. rewrite <- (key_id_reverse_edge o r s). apply in_scan_raw_complete; [done|..].
  - unfold KeyBuilder.reverse_edge_prefix, KeyBuilder.reverse_edge. eexists (be64 s). by rewrite <- !app_assoc.
  - unfold KeyBuilder.reverse_edge. rewrite !length_app, !length_be64. cbn. lia.
Qed.

Lemma edge_scan_raw m o r t x : is_u64 t -> bm_get (KeyBuilder.edge o r t) m = Some x ->
  In (t, x) (scan_prefix_raw m (KeyBuilder.edge_prefix o r)).
Proof.
  intros Ht Hx. rewrite <- (as_u64_small t Ht) at 1. rewrite <- (key_id_edge o r t). apply in_scan_raw_complete; [done|..].
  - unfold KeyBuilder.edge_prefix, KeyBuilder.edge. eexists (be64 t). by rewrite <- !app_assoc.
  - unfold KeyBuilder.edge. rewrite !length_app, !length_be64. cbn. lia.
Qed.

(** Every inbound edge is deleted, and its source reached when the policy says so. *)
Lemma inbound_complete m o incs : forall keys cs keys' cs', inbound m o incs keys cs = inr (keys', cs') ->
  incl keys keys' /\ incl cs cs' /\ forall inc s x, In inc incs ->
    In (s, x) (scan_prefix_raw m (KeyBuilder.reverse_edge_prefix o (inc_rel_id inc))) ->
    policy inc <> Deny /\ incl (edge_pair s (inc_rel_id inc) o) keys' /\
    (policy inc = Cascade -> In (source_type_id inc, s, inc_rel_id inc, x) cs').
Proof.
  induction incs as [|inc incs IH]; intros keys cs keys' cs' H; cbn [inbound] in H.
  { injection H as <- <-. split; [apply incl_refl|]. split; [apply incl_refl|]. intros ? ? ? []. }
  set (es := scan_prefix_raw m (KeyBuilder.reverse_edge_prefix o (inc_rel_id inc))) in H.
  set (ps := List.concat (map (fun e => edge_pair (fst e) (inc_rel_id inc) o) es)) in H.
  assert (Hps : forall s x, In (s, x) es -> incl (edge_pair s (inc_rel_id inc) o) ps).
  { intros s x Hin k Hk. apply in_concat. exists (edge_pair s (inc_rel_id inc) o). split; [|done]. apply in_map_iff. by exists (s, x). }
  destruct es as [|e es'] eqn:Ees.
  - destruct (IH _ _ _ _ H) as (H1 & H2 & H3). split_and!; [done|done|]. intros inc' s x [<-|Hin] Hs; [|by eapply H3].
    fold es in Hs. by rewrite Ees in Hs.
  - rewrite <- Ees in *. destruct (policy inc) eqn:Ep; [| |done].
    + destruct (IH _ _ _ _ H) as (H1 & H2 & H3). split_and!; [intros k Hk; apply H1, in_or_app; by left|done|].
      intros inc' s x [<-|Hin] Hs; [|by eapply H3]. rewrite Ep. split_and!; [done| |done].
      intros k Hk. apply H1, in_or_app. right. by eapply Hps.
    + destruct (IH _ _ _ _ H) as (H1 & H2 & H3).
      split_and!; [intros k Hk; apply H1, in_or_app; by left|intros k Hk; apply H2, in_or_app; by left|].
      intros inc' s x [<-|Hin] Hs; [|by eapply H3]. rewrite Ep. split_and!; [done| |intros _].
      * intros k Hk. apply H1, in_or_app. right. by eapply Hps.
      * apply H2, in_or_app. right. apply in_map_iff. by exists (s, x).
Qed.

Section walk.
Variables (m : bmap bytes) (vc : Counters).

Lemma delete_inner_mono fuel t o b w ctx w' : delete_inner db fuel m vc t o b w ctx = EOk w' ->
  incl (w_deleted w) (w_deleted w') /\ incl (w_arena w) (w_arena w').
Proof.
  intros H. apply delete_inner_grows in H as (new & ks & G). rewrite (gr_deleted _ _ _ _ _ _ _ G), (gr_arena _ _ _ _ _ _ _ G).
  split; intros x Hx; apply in_or_app; [by right|by left].
Qed.

Lemma cascade_loop_mono fuel cs : forall w w',
  cascade_loop (fun t o w ctx => delete_inner db fuel m vc t o false w ctx) cs w = EOk w' ->
  incl (w_deleted w) (w_deleted w') /\ incl (w_arena w) (w_arena w').
Proof.
  induction cs as [|[[[t o] r] c] cs IH]; intros w w' H; cbn [cascade_loop] in H.
  { injection H as <-. split; apply incl_refl. }
  ebind H. apply delete_inner_mono in E as [H1 H2]. apply IH in H as [H3 H4]. split; by eapply incl_tran.
Qed.

(** A walk reaches the object it is called on. *)
Lemma delete_inner_in fuel t o b w ctx w' : delete_inner db fuel m vc t o b w ctx = EOk w' -> In (t, o) (w_deleted w').
Proof.
  destruct fuel as [|fuel]; cbn [delete_inner]; [done|]. destruct (mem_zz (t, o) (w_deleted w)) eqn:Em.
  { intros [= <-]. by apply mem_zz_in. }
  intros H. ebind H. ebind H. destruct a0 as [keys d]. destruct (inbound _ _ _ _ _) as [[rt rf]|[ps cs]]; [done|]. ebind H.
  destruct (covered_edges _ _ _) as [found covered]. injection H as <-. cbn [push w_deleted].
  apply cascade_loop_mono in E1 as [H1 _]. apply H1. by left.
Qed.

Lemma cascade_loop_in fuel cs : forall w w',
  cascade_loop (fun t o w ctx => delete_inner db fuel m vc t o false w ctx) cs w = EOk w' ->
  forall t o r c, In (t, o, r, c) cs -> In (t, o) (w_deleted w').
Proof.
  induction cs as [|[[[t0 o0] r0] c0] cs IH]; intros w w' H t o r c Hin; cbn [cascade_loop] in H; [done|].
  ebind H. destruct Hin as [[= <- <- <- <-]|Hin]; [|by eapply IH].
  apply delete_inner_in in E. apply cascade_loop_mono in H as [H _]. by apply H.
Qed.

(** The walk from its root. *)
Lemma delete_root fuel t o w' : delete_inner db fuel m vc t o true {| w_deleted := []; w_arena := []; w_delta := ∅ |} None = EOk w' ->
  exists meta, zget t (cascade_meta_by_id db) = Some meta /\
    (forall inc s x, In (t, inc) (incoming_relations db) ->
       In (s, x) (scan_prefix_raw m (KeyBuilder.reverse_edge_prefix o (inc_rel_id inc))) ->
       policy inc <> Deny /\ incl (edge_pair s (inc_rel_id inc) o) (w_arena w') /\
       (policy inc = Cascade -> In (source_type_id inc, s) (w_deleted w'))) /\
    (forall rel x, In rel (forward_relations meta) -> In x (scan_prefix_raw m (KeyBuilder.edge_prefix o (fr_rel_id rel))) ->
       incl (edge_pair o (fr_rel_id rel) (fst x)) (w_arena w')).
Proof.
  destruct fuel as [|fuel]; cbn [delete_inner]; [done|]. cbn [mem_zz existsb w_deleted w_arena w_delta]. intros H. ebind H.
  apply ok_or_ok in E. rename a into meta. ebind H. destruct a as [keys d].
  destruct (inbound _ _ _ _ _) as [[rt rf]|[ps cs]] eqn:Ei; [done|]. ebind H. cbn [covered_edges] in H. injection H as <-.
  rename a into w2. exists meta. split; [done|]. pose proof (cascade_loop_in _ _ _ _ E1) as Hin.
  apply cascade_loop_mono in E1 as [_ Ha]. cbn [push w_arena app] in Ha. split.
  - intros inc s x Hinc Hs. apply inbound_complete in Ei as (_ & _ & Hc).
    assert (Hf : In inc (map snd (List.filter (fun i => fst i =? t) (incoming_relations db)))).
    { apply in_map_iff. exists (t, inc). split; [done|]. apply filter_In. split; [done|]. cbn. apply Z.eqb_refl. }
    destruct (Hc inc s x Hf Hs) as (H1 & H2 & H3). cbn [push w_arena w_deleted]. split_and!; [done| |].
    + intros k Hk. apply in_or_app. left. apply Ha, in_or_app. right. by apply H2.
    + intros Hp. eapply Hin, H3, Hp.
  - intros rel x Hrel Hx k Hk. cbn [push w_arena]. apply in_or_app. right. cbn [app]. apply in_or_app. left.
    unfold outbound_edges. apply in_concat. eexists. split; [apply in_map_iff; exists rel; split; [reflexivity|done]|].
    cbn [mem_z existsb]. apply in_concat. exists (edge_pair o (fr_rel_id rel) (fst x)). split; [|done].
    apply in_map_iff. by exists x.
Qed.
End walk.

(** ** Properties *)

Section reachable.
Context {St : Type} (apply : St -> Z -> list write -> St * res unit).
Variables (base : bmap bytes) (used0 : list Z) (v0 : Z) (st0 : St) (s : @engine_sys St) (w : Z).
Hypotheses (Hbase : store_ok db used0 base) (Hv0 : 0 <= v0 < u64_max) (Hr : ereachable db apply base used0 v0 st0 s).

Lemma view_ok : store_ok db (used_ids s) (view base s w).
Proof. eapply (ei_store db base s), ereachable_inv; eauto. Qed.
End reachable.




(** C4: what was written is read.  An object created is stored with exactly the
    scalar fields of the request; an object updated has the updates over the
    fields it had in the snapshot; either is what [get] returns once the writes
    are applied, whatever else was committed in between, its retired fields
    left out. *)
Theorem writes_read_back n m m' vc tn o fs ws ob vc' d :
  store_ok db n m -> bsorted m' -> bsorted fs -> Forall (fun e => value_ok (snd e)) fs ->
  let read := get db (apply_ops ws m') tn o =
    EOk {| obj_type := tn; obj_id := o; obj_fields := strip_tombstoned_fields db tn (obj_fields ob) |} in
  (create db m vc tn o fs = EOk (ws, ob, vc', d) -> read /\
   exists td, get_type (schema db) tn = Some td /\ forall f, bm_get f (obj_fields ob) =
     match bm_get f fs, get_field td f with Some v, Some {| field_type := Scalar _ |} => Some v | _, _ => None end) /\
  (update db m vc tn o fs = EOk (ws, ob, vc', d) -> read /\
   exists tid old, resolve_type_id db tn = EOk tid /\ obj m tid o = Some old /\ forall f, bm_get f (obj_fields ob) =
     match bm_get f fs with Some v => Some v | None => bm_get f old end).
Proof.
  intros Hst Hs Hf Hv read. split; intros H.
  - split; [by eapply create_read_back|by eapply create_scalars].
  - destruct (update_read_back n m m' vc tn o fs ws ob vc' d Hst Hs Hf Hv H) as (tid & old & Hr & Ho & Hn & Hg).
    split; [done|]. exists tid, old. split_and!; [done..|]. intros f. rewrite Hn. apply assoc_insert_all; [|by apply bsorted_nodup].
    unfold obj in Ho. destruct (bm_get _ m) as [data|] eqn:Ed; [|done]. cbn [mbind option_bind] in Ho.
    pose proof Hr as Hr'. apply resolve_ok in Hr'. unfold update in H. ebind H. ebind H. apply schema_type_ok in E0.
    destruct (so_blobs _ _ _ Hst tn a0 tid o data (conj E0 Hr') Ed) as (fm & Hd & Hok).
    unfold decoded in Ho. rewrite Hd in Ho. injection Ho as <-. apply Hok.
Qed.

End props.

(** ** Witnesses *)

Definition demo_view : bmap bytes := Eval vm_compute in view [] demo_sys 3.

Lemma demo_reached : ereachable demo_db no_store [] [] 0 tt demo_sys.
Proof. apply (erun_steps no_store [] demo_db (einit [] 0 tt) demo_actions). by vm_compute. Qed.


Lemma demo_email : ufield demo_db (bs "User") 1 (bs "email") 23.
Proof. eexists _, _. split_and!; [split; by vm_compute|by vm_compute|by vm_compute|by vm_compute]. Qed.



Definition demo_update : list op * Obj * Counters * StatsDelta :=
  Eval vm_compute in built ([], {| obj_type := []; obj_id := 0; obj_fields := [] |}, ∅, ∅)
    (update demo_db demo_view ∅ (bs "User") 2 [(bs "age", VI64 50)]).

Lemma writes_read_back_witness :
  get demo_db (apply_ops demo_update.1.1.1 demo_view) (bs "User") 2
  = EOk {| obj_type := bs "User"; obj_id := 2; obj_fields := [(bs "age", VI64 50); (bs "email", VString ann)] |}.
Proof.
  pose proof (writes_read_back demo_db demo_db_ok (used_ids demo_sys) demo_view demo_view ∅ (bs "User") 2 [(bs "age", VI64 50)]
    demo_update.1.1.1 demo_update.1.1.2 demo_update.1.2 demo_update.2) as H.
  destruct H as [_ H].
  - apply (view_ok demo_db demo_db_ok no_store [] [] 0 tt demo_sys 3 empty_ok); [by vm_compute|exact demo_reached].
  - by apply sortedb_ok; vm_compute.
  - by apply sortedb_ok; vm_compute.
  - by apply values_okb_ok; vm_compute.
  - destruct H as [H _]; [by vm_compute|]. exact H.
Defined.

Definition demo_delete : list op * list (Z * Z) * StatsDelta :=
  Eval vm_compute in built ([], [], ∅) (delete_object demo_db (delete_fuel demo_db demo_view) demo_view ∅ (bs "User") 2).


(** * Behaviours of the engine worth knowing

    Runs of the engine that end in a state a client would not expect, each
    evaluated on a small database. *)

(** Staging and applying requests one after another; [None] when one fails. *)
Fixpoint serial (db : Database) (m : bmap bytes) (rs : list request) : option (bmap bytes) :=
  match rs with
  | [] => Some m
  | r :: rs => match stage db m r with EOk (_, ws) => serial db (apply_ops ws m) rs | _ => None end
  end.

(** The rows of a family. *)
Definition family (p : KeyPrefix) (m : bmap bytes) : list bytes :=
  List.filter (fun k => match k with b :: _ => Byte.eqb b (prefix_u8 p) | [] => false end) (map fst m).

Definition count_rows (p : KeyPrefix) (r : option (bmap bytes)) : option nat := (fun m => List.length (family p m)) <$> r.

(** An indexed float updated from zero to the other zero keeps its old index
    row beside the new one: the values compare equal, so the row is not removed. *)
Example zero_flip_leaves_index_row :
  count_rows FieldIndex (serial demo_db [] [RCreate ∅ (bs "User") [(1, [(bs "score", VF64 0)])]]) = Some 1%nat /\
  count_rows FieldIndex (serial demo_db [] [RCreate ∅ (bs "User") [(1, [(bs "score", VF64 0)])];
    RUpdate ∅ (bs "User") 1 [(bs "score", VF64 (2 ^ 63))]]) = Some 2%nat.
Proof. by vm_compute. Qed.

(** A relation that points to many objects and cascades. *)
Definition albums_sdl : bytes := bs "type Album { songs: [Song] @on_delete(cascade) } type Song { title: String }".

Definition albums_db : Database := Eval vm_compute in
  open_db (match parse_schema (C := ascii_only) albums_sdl with SOk s => s | _ => {| types := [] |} end)
    [(bs "Album", 1); (bs "Song", 2)] [(bs "Album.songs", 11)] [(bs "Song.title", 21)].

(** Deleting a song cascades to its album, whose edge to the other song stays:
    the relation that led to the album is taken to have no other edge. *)
Example cascade_leaves_edge :
  let m := serial albums_db [] [RCreate ∅ (bs "Song") [(1, []); (2, [])]; RCreate ∅ (bs "Album") [(3, [])];
    RLink ∅ (bs "Album") 3 (bs "songs") 1 None; RLink ∅ (bs "Album") 3 (bs "songs") 2 None; RDelete ∅ (bs "Song") 1] in
  match m with
  | Some m => get albums_db m (bs "Album") 3 = EErr (ObjectNotFound (bs "Album") 3) /\
      get_links albums_db m (bs "Album") 3 (bs "songs") = EOk [(2, [])]
  | None => False
  end.
Proof. by vm_compute. Qed.

(** A relation to one object that is linked twice has two targets. *)
Definition editors : option (bmap bytes) :=
  serial demo_db [] [RCreate ∅ (bs "User") [(1, []); (2, [])]; RCreate ∅ (bs "Post") [(3, [])];
    RLink ∅ (bs "Post") 3 (bs "editor") 1 None; RLink ∅ (bs "Post") 3 (bs "editor") 2 None].

Example to_one_has_two : (fun m => get_links demo_db m (bs "Post") 3 (bs "editor")) <$> editors = Some (EOk [(1, []); (2, [])]).
Proof. by vm_compute. Qed.

(** A field that is the inverse of another can be linked: the edge is stored
    under its own relation, which no read follows and no delete removes. *)
Example inverse_link_unread :
  let m := serial demo_db [] [RCreate ∅ (bs "User") [(1, [])]; RCreate ∅ (bs "Post") [(3, [])];
    RLink ∅ (bs "User") 1 (bs "posts") 3 None] in
  match m with
  | Some m => get_links demo_db m (bs "User") 1 (bs "posts") = EOk [] /\ List.length (family Keys.Edge m) = 1%nat /\
      count_rows Keys.Edge (serial demo_db m [RDelete ∅ (bs "User") 1; RDelete ∅ (bs "Post") 3]) = Some 1%nat
  | None => False
  end.
Proof. by vm_compute. Qed.

(** An update of a relation is stored with the scalars and makes no edge. *)
Example update_stores_relation :
  let m := serial demo_db [] [RCreate ∅ (bs "User") [(1, []); (2, [])]; RCreate ∅ (bs "Post") [(3, [(bs "author", VU64 1)])];
    RUpdate ∅ (bs "Post") 3 [(bs "author", VU64 2)]] in
  match m with
  | Some m => get_links demo_db m (bs "Post") 3 (bs "author") = EOk [(1, [])] /\
      get demo_db m (bs "Post") 3 = EOk {| obj_type := bs "Post"; obj_id := 3; obj_fields := [(bs "author", VU64 2)] |}
  | None => False
  end.
Proof. by vm_compute. Qed.

(** A link and the delete of its target write different keys: both commit, and
    the edge points to nothing. *)
Definition race : option (@engine_sys unit) :=
  erun no_store [] demo_db (einit [] 0 tt)
    [EBegin; EStage 0 (RCreate ∅ (bs "User") [(1, [])]); ECommit 0;
     EBegin; EStage 0 (RCreate ∅ (bs "Post") [(3, [])]); ECommit 0;
     EBegin; EBegin; EStage 0 (RDelete ∅ (bs "User") 1); EStage 1 (RLink ∅ (bs "Post") 3 (bs "editor") 1 None);
     ECommit 0; ECommit 0].

Example link_races_delete :
  match race with
  | Some s => let m := view [] s 9 in List.length (hist (txns s)) = 4%nat /\
      get demo_db m (bs "User") 1 = EErr (ObjectNotFound (bs "User") 1) /\
      get_links demo_db m (bs "Post") 3 (bs "editor") = EOk [(1, [])]
  | None => False
  end.
Proof. by vm_compute. Qed.

(** The cover on the reverse edge that a cascade follows names the old target of
    a relation that was changed since: the new edge stays. *)
Example stale_cover_leaves_edge :
  let m := serial demo_db [] [RCreate ∅ (bs "User") [(1, []); (2, []); (4, [])];
    RCreate ∅ (bs "Post") [(3, [(bs "author", VU64 1); (bs "editor", VU64 2)])];
    RUnlink (bs "Post") 3 (bs "editor") 2; RLink ∅ (bs "Post") 3 (bs "editor") 4 None; RDelete ∅ (bs "User") 1] in
  match m with
  | Some m => get demo_db m (bs "Post") 3 = EErr (ObjectNotFound (bs "Post") 3) /\
      get_links demo_db m (bs "Post") 3 (bs "editor") = EOk [(4, [])]
  | None => False
  end.
Proof. by vm_compute. Qed.
