(* ===== verification/FilterScan.v ===== *)
(** * Scans and filters (crates/rhypedb-engine/src/database.rs)

    Reading the objects of a type: by ids, whole, in chunks, projected on some
    columns, and filtered by a comparison on one field, with the index of the
    field when it has one and a walk of the objects otherwise.  The storage is
    seen through a [Reader]: the rows of a snapshot and the scans the storage
    cuts short. *)

From Stdlib Require Import ZArith Lia Bool List Strings.Byte Strings.String Floats.SpecFloat.
From stdpp Require Import base tactics option list sorting gmap.
From S2P Require Import Prelude ByteMap Keys Zone Lsm Utf8 Values Ieee Schema IndexKeys Posting Store Fulltext Engine.

Local Open Scope Z_scope.
Local Open Scope bytes_scope.

(** ** The storage at a snapshot *)

(** [rd_map] answers [get_at], [multi_get_at] and [scan_prefix_at]; the others
    are [scan_prefix_at_limited], [scan_from_at_limited],
    [scan_prefix_filtered_at] and [scan_chunk_raw]. *)
Record Reader := {
  rd_map : bmap bytes;
  rd_limited : bytes -> Z -> list (bytes * bytes);
  rd_from : bytes -> bytes -> Z -> list (bytes * bytes);
  rd_filtered : bytes -> FieldPredicate -> list (bytes * bytes);
  rd_chunk : bytes -> bytes -> Z -> ChunkScan;
}.

(** [limit.unwrap_or(usize::MAX)]. *)
Definition cap (limit : option Z) : Z := default u64_max limit.

(** What a scan does with a row: pass over it, end, or take the object. *)
Inductive verdict := Skip | Stop | Take (object_id : Z).

(** [dedup]: adjacent repetitions. *)
Fixpoint dedup (l : list Z) : list Z :=
  match l with
  | x :: ((y :: _) as l') => if x =? y then dedup l' else x :: dedup l'
  | _ => l
  end.

Section scans.
Context {J : Json} {T : TextLib} {L : EngineLib}.
Variable db : Database.

(** ** Objects by id *)

Fixpoint decode_found (type_name : bytes) (found : list (Z * option bytes)) : eres (list Obj) :=
  match found with
  | [] => EOk []
  | (_, None) :: found => decode_found type_name found
  | (id, Some data) :: found =>
      o ← decode_object db type_name id data; out ← decode_found type_name found; EOk (o :: out)
  end.

Definition get_many_at (m : bmap bytes) (type_name : bytes) (ids : list Z) : eres (list Obj) :=
  type_id ← resolve_type_id db type_name;
  let sorted := dedup (merge_sort Z.le ids) in
  decode_found type_name (map (fun id => (id, bm_get (KeyBuilder.object type_id id) m)) sorted).

(** ** Whole types *)

Fixpoint decode_rows (decode : Z -> bytes -> eres Obj) (entries : list (bytes * bytes)) : eres (list Obj) :=
  match entries with
  | [] => EOk []
  | (key, data) :: entries =>
      if (List.length key <? 8)%nat then decode_rows decode entries
      else o ← decode (key_id key) data; out ← decode_rows decode entries; EOk (o :: out)
  end.

Definition scan_type (m : bmap bytes) (type_name : bytes) : eres (list Obj) :=
  type_id ← resolve_type_id db type_name;
  decode_rows (decode_object db type_name) (rows_under (KeyBuilder.object_prefix type_id) m).

Definition count_type (m : bmap bytes) (type_name : bytes) : eres Z :=
  type_id ← resolve_type_id db type_name;
  EOk (Z.of_nat (List.length (rows_under (KeyBuilder.object_prefix type_id) m))).

Definition project_object (type_name : bytes) (wanted : list bytes) (object_id : Z) (data : bytes) : eres Obj :=
  EOk {| obj_type := type_name; obj_id := object_id;
         obj_fields := strip_tombstoned_fields db type_name (deserialize_fields_projected data wanted) |}.

Definition get_projected (m : bmap bytes) (type_name : bytes) (object_id : Z) (wanted : list bytes) : eres Obj :=
  type_id ← resolve_type_id db type_name;
  data ← ok_or (bm_get (KeyBuilder.object type_id object_id) m) (ObjectNotFound type_name object_id);
  project_object type_name wanted object_id data.

Definition scan_type_projected (m : bmap bytes) (type_name : bytes) (wanted : list bytes) : eres (list Obj) :=
  type_id ← resolve_type_id db type_name;
  decode_rows (project_object type_name wanted) (rows_under (KeyBuilder.object_prefix type_id) m).

(** ** Chunks *)

Record ObjectChunk := {
  oc_objects : list Obj;
  oc_next_cursor : option Z;
  oc_more : bool;
}.

Definition scan_chunk (r : Reader) (type_name : bytes) (cursor max_distinct : Z) : eres ObjectChunk :=
  type_id ← resolve_type_id db type_name;
  let prefix := KeyBuilder.object_prefix type_id in
  if cursor =? u64_max then EOk {| oc_objects := []; oc_next_cursor := None; oc_more := false |}
  else
    let start := if cursor =? 0 then prefix else KeyBuilder.object type_id (cursor + 1) in
    let chunk := rd_chunk r prefix start max_distinct in
    objects ← decode_rows (decode_object db type_name) (cs_live chunk);
    EOk {| oc_objects := objects; oc_next_cursor := key_id <$> cs_high_water chunk; oc_more := cs_more chunk |}.

(** The loop over the chunks of a type, as the logical export writes its
    objects. *)
Fixpoint export_objects (fuel : nat) (r : Reader) (type_name : bytes) (cursor chunk_size : Z) : eres (list Obj) :=
  match fuel with
  | O => EFuel
  | S fuel =>
      chunk ← scan_chunk r type_name cursor chunk_size;
      match oc_next_cursor chunk, oc_more chunk with
      | Some next, true => rest ← export_objects fuel r type_name next chunk_size; EOk (oc_objects chunk ++ rest)
      | _, _ => EOk (oc_objects chunk)
      end
  end.

(** ** Which access path *)

Definition find_indexed (type_name field_name : bytes) : option IndexedField :=
  l ← bm_get type_name (indexed_fields db); find (fun f => beqb (if_name f) field_name) l.

Definition is_field_indexed (type_name field_name : bytes) : bool :=
  match bm_get type_name (indexed_fields db) with
  | Some l => existsb (fun f => beqb (if_name f) field_name) l
  | None => false
  end.

Definition is_field_unique (type_name field_name : bytes) : bool :=
  match td ← get_type (schema db) type_name; get_field td field_name with Some fd => is_unique fd | None => false end.

(** The field, or an error that it was retired or never existed. *)
Definition filter_field (type_name field_name : bytes) : eres FieldDef :=
  type_def ← schema_type db type_name;
  ok_or (get_field type_def field_name)
    (default (FieldNotFound type_name field_name) (field_retired_error db type_name field_name)).

(** ** Walking the objects *)

(** The walk over object rows, [n] objects taken so far. *)
Fixpoint filter_rows (type_name field_name : bytes) (limit : option Z) (predicate : Value -> bool)
    (entries : list (bytes * bytes)) (n : Z) : eres (list Obj) :=
  match entries with
  | [] => EOk []
  | (key, data) :: entries =>
      if cap limit <=? n then EOk []
      else if (List.length key <? 8)%nat then filter_rows type_name field_name limit predicate entries n
      else
        let passes := match extract_field data field_name with Some v => predicate v | None => false end in
        if passes then
          o ← decode_object db type_name (key_id key) data;
          out ← filter_rows type_name field_name limit predicate entries (n + 1);
          EOk (o :: out)
        else filter_rows type_name field_name limit predicate entries n
  end.

Definition filter_scan_fallback (r : Reader) (type_name field_name : bytes) (limit : option Z) (predicate : Value -> bool)
    : eres (list Obj) :=
  type_id ← resolve_type_id db type_name;
  filter_rows type_name field_name limit predicate (rows_under (KeyBuilder.object_prefix type_id) (rd_map r)) 0.

(** ** Walking an index *)

(** The walk over index rows: objects from the covering values, and the ids of
    rows without one, [n] rows taken so far. *)
Fixpoint collect (type_name : bytes) (limit : option Z) (judge : bytes -> verdict) (entries : list (bytes * bytes)) (n : Z)
    : eres (list Obj * list Z) :=
  match entries with
  | [] => EOk ([], [])
  | (key, value) :: entries =>
      if cap limit <=? n then EOk ([], [])
      else
        match judge key with
        | Skip => collect type_name limit judge entries n
        | Stop => EOk ([], [])
        | Take object_id =>
            match value with
            | [] =>
                rest ← collect type_name limit judge entries (n + 1);
                EOk (fst rest, object_id :: snd rest)
            | _ =>
                o ← decode_object db type_name object_id value;
                rest ← collect type_name limit judge entries (n + 1);
                EOk (o :: fst rest, snd rest)
            end
        end
  end.

Definition collect_objects (r : Reader) (type_name : bytes) (limit : option Z) (judge : bytes -> verdict)
    (entries : list (bytes * bytes)) : eres (list Obj) :=
  found ← collect type_name limit judge entries 0;
  match snd found with
  | [] => EOk (fst found)
  | fallback_ids => more ← get_many_at (rd_map r) type_name fallback_ids; EOk (fst found ++ more)
  end.

(** A row of the value prefix of [Eq] is a match. *)
Definition judge_eq (key : bytes) : verdict := if (List.length key <? 8)%nat then Skip else Take (key_id key).

Definition range_verdict (op : CompareOp) (pass : bool) (object_id : Z) : verdict :=
  if pass then Take object_id else match op with OpLt | OpLe => Stop | _ => Skip end.

Definition judge_fixed (plen : nat) (op : CompareOp) (target_u64 : Z) (key : bytes) : verdict :=
  if (List.length key =? plen + 8 + 1 + 8)%nat then
    range_verdict op (compare_int (from_be (take 8 (drop plen key))) op target_u64)
      (from_be (take 8 (drop (plen + 9) key)))
  else Skip.

(** The scan of the rows under a value prefix. *)
Definition eq_entries (r : Reader) (prefix : bytes) (limit : option Z) : list (bytes * bytes) :=
  match limit with Some n => rd_limited r prefix n | None => rows_under prefix (rd_map r) end.

Definition filter_scan_via_index (r : Reader) (type_name : bytes) (type_id field_id : Z) (op : CompareOp)
    (target_bytes : bytes) (limit : option Z) : eres (list Obj) :=
  let target_u64 := from_be target_bytes in
  match op with
  | OpEq =>
      collect_objects r type_name limit judge_eq
        (eq_entries r (KeyBuilder.field_index_value_prefix type_id field_id target_bytes) limit)
  | _ =>
      let prefix := KeyBuilder.field_index_prefix type_id field_id in
      let walk := collect_objects r type_name limit (judge_fixed (List.length prefix) op target_u64) in
      match op, limit with
      | OpGt, Some n =>
          if target_u64 =? u64_max then EOk [] else walk (rd_from r prefix (prefix ++ be64 (target_u64 + 1)) n)
      | OpGe, Some n => walk (rd_from r prefix (prefix ++ target_bytes) n)
      | OpLt, Some n | OpLe, Some n => walk (rd_limited r prefix n)
      | _, _ => walk (rows_under prefix (rd_map r))
      end
  end.

(** The position of the first [0x00 0x00] from [i], the pair before [stop]. *)
Fixpoint find_term (key : bytes) (i stop : nat) : option nat :=
  match key with
  | a :: ((b :: _) as rest) =>
      if (S i <? stop)%nat then
        if (b2z a =? 0) && (b2z b =? 0) then Some i else find_term rest (S i) stop
      else None
  | _ => None
  end.

Definition judge_var (plen : nat) (op : CompareOp) (target_encoded key : bytes) : verdict :=
  if (List.length key <? plen + 2 + 8)%nat then Skip
  else
    match find_term (drop plen key) plen (List.length key - 8) with
    | None => Skip
    | Some term =>
        range_verdict op (compare_ord (take (term + 2 - plen) (drop plen key)) op target_encoded)
          (from_be (take 8 (drop (term + 2) key)))
    end.

Definition filter_scan_via_index_var (r : Reader) (type_name : bytes) (type_id field_id : Z) (op : CompareOp)
    (target_encoded : bytes) (limit : option Z) : eres (list Obj) :=
  match op with
  | OpEq =>
      collect_objects r type_name limit judge_eq
        (eq_entries r (KeyBuilder.field_index_var_value_prefix type_id field_id target_encoded) limit)
  | _ =>
      let prefix := KeyBuilder.field_index_prefix type_id field_id in
      collect_objects r type_name limit (judge_var (List.length prefix) op target_encoded)
        (rows_under prefix (rd_map r))
  end.

(** ** The filters *)

(** The target in the field's declared integer type, if it has one that can
    represent it. *)
Definition typed_target (ft : FieldType) (target : Z) : option Value :=
  match ft with
  | Scalar TU32 => if (0 <=? target) && (target <? 2 ^ 32) then Some (VU32 target) else None
  | Scalar TU64 => if 0 <=? target then Some (VU64 target) else None
  | Scalar TI32 => if (- 2 ^ 31 <=? target) && (target <? 2 ^ 31) then Some (VI32 target) else None
  | Scalar TI64 => Some (VI64 target)
  | Scalar TDateTime => Some (VDateTime target)
  | _ => None
  end.

(** The comparison of a value with an integer. *)
Definition passes_int (op : CompareOp) (target : Z) (v : Value) : bool :=
  match v with
  | VU32 n | VU64 n | VI32 n | VI64 n | VDateTime n => compare_int n op target
  | VF64 f => compare_partial (f64_of f) op (int_as_f64 target)
  | VF32 f => compare_partial (f64_of (f32_to_f64 f)) op (int_as_f64 target)
  | _ => false
  end.

Definition zone_field_id (type_id : Z) (field_name : bytes) : Z :=
  let lookup := build_zone_field_id_lookup (schema db) (type_ids db) (field_ids db) in
  default u32_max (entries ← lookup_get type_id lookup; snd <$> find (fun e => beqb (fst e) field_name) entries).

Definition filter_scan_at (r : Reader) (type_name field_name : bytes) (op : CompareOp) (target : Z) (limit : option Z)
    : eres (list Obj) :=
  type_id ← resolve_type_id db type_name;
  field_def ← filter_field type_name field_name;
  match typed_target (field_type field_def) target with
  | None => filter_scan_fallback r type_name field_name limit (passes_int op target)
  | Some target_value =>
      target_bytes ← idx (encode_int_for_zone target_value);
      let target_u64 := from_be target_bytes in
      match find_indexed type_name field_name with
      | Some ifd => filter_scan_via_index r type_name type_id (if_field_id ifd) op target_bytes limit
      | None =>
          let predicate := {| fp_field_id := zone_field_id type_id field_name; fp_op := op; fp_target := target_u64 |} in
          filter_rows type_name field_name limit (fun v => value_passes_int_predicate v op target_u64)
            (rd_filtered r (KeyBuilder.object_prefix type_id) predicate) 0
      end
  end.

(** The index of the field when it is of the kind. *)
Definition find_kind (type_name field_name : bytes) (kind : IndexedKind) : option IndexedField :=
  ifd ← find_indexed type_name field_name; if decide (if_kind ifd = kind) then Some ifd else None.

Definition passes_bool (op : CompareOp) (target : bool) (v : Value) : bool :=
  match v with VBool b => compare_bool b op target | _ => false end.

Definition filter_scan_bool_at (r : Reader) (type_name field_name : bytes) (op : CompareOp) (target : bool)
    (limit : option Z) : eres (list Obj) :=
  type_id ← resolve_type_id db type_name;
  _ ← filter_field type_name field_name;
  match find_kind type_name field_name KBool with
  | Some ifd =>
      encoded ← idx (encode_bool_for_index (VBool target));
      filter_scan_via_index r type_name type_id (if_field_id ifd) op encoded limit
  | None => filter_scan_fallback r type_name field_name limit (passes_bool op target)
  end.

(** The comparison of a value with a float, given by its bits. *)
Definition passes_float (op : CompareOp) (target : Z) (v : Value) : bool :=
  match v with
  | VF64 f => compare_partial (f64_of f) op (f64_of target)
  | VF32 f => compare_partial (f64_of (f32_to_f64 f)) op (f64_of target)
  | VU32 n | VU64 n | VI32 n | VI64 n => compare_partial (int_as_f64 n) op (f64_of target)
  | _ => false
  end.

Definition is_float (ft : FieldType) : bool := match ft with Scalar (TF32 | TF64) => true | _ => false end.

Definition filter_scan_float_at (r : Reader) (type_name field_name : bytes) (op : CompareOp) (target : Z)
    (limit : option Z) : eres (list Obj) :=
  type_id ← resolve_type_id db type_name;
  field_def ← filter_field type_name field_name;
  match (if is_float (field_type field_def) then find_kind type_name field_name KFloat else None) with
  | Some ifd =>
      filter_scan_via_index r type_name type_id (if_field_id ifd) op (encode_f64_for_index target) limit
  | None => filter_scan_fallback r type_name field_name limit (passes_float op target)
  end.

Definition passes_bytes (op : CompareOp) (target : bytes) (v : Value) : bool :=
  match v with VBytes b => compare_ord b op target | _ => false end.

Definition filter_scan_bytes (r : Reader) (type_name field_name : bytes) (op : CompareOp) (target : bytes)
    (limit : option Z) : eres (list Obj) :=
  type_id ← resolve_type_id db type_name;
  _ ← filter_field type_name field_name;
  match find_kind type_name field_name KBytes with
  | Some ifd =>
      filter_scan_via_index_var r type_name type_id (if_field_id ifd) op (encode_bytes_for_index target) limit
  | None => filter_scan_fallback r type_name field_name limit (passes_bytes op target)
  end.

Definition passes_str (op : CompareOp) (target : bytes) (v : Value) : bool :=
  match v with VString s => compare_ord s op target | _ => false end.

Definition filter_scan_str_at (r : Reader) (type_name field_name : bytes) (op : CompareOp) (target : bytes)
    (limit : option Z) : eres (list Obj) :=
  type_id ← resolve_type_id db type_name;
  _ ← filter_field type_name field_name;
  match find_kind type_name field_name KString with
  | Some ifd =>
      filter_scan_via_index_var r type_name type_id (if_field_id ifd) op (encode_str_for_index target) limit
  | None => filter_scan_fallback r type_name field_name limit (passes_str op target)
  end.

End scans.
