(* ===== verification/FilterSpec.v ===== *)
(** * The filters against the objects they filter

    What the scans of FilterScan return on a store that satisfies the engine's
    invariant: an index walk returns the objects that pass the comparison, in
    the order of the index, and a limit returns the first of them. *)

From Stdlib Require Import ZArith Lia Bool List Strings.Byte Strings.String Sorting.Sorted.
From stdpp Require Import base tactics option list sorting gmap.
From S2P Require Import Prelude ByteMap Keys Layers Zone Lsm Utf8 Values Ieee Schema IndexKeys Posting Store Fulltext.
From S2P Require Import Engine EngineEdges EngineOps EngineInv EngineUpdate FilterScan.

Local Open Scope Z_scope.
Local Open Scope bytes_scope.

(** ** Lists cut short *)

(** [P] holds of a first part of the list and of nothing after it. *)
Definition leading {A} (P : A -> bool) : list A -> Prop := StronglySorted (fun a b => P b = true -> P a = true).

Lemma leading_head {A} (P : A -> bool) a l : leading P (a :: l) -> P a = false -> List.filter P l = [].
Proof.
  intros H Ha. apply StronglySorted_inv in H as [_ H]. rewrite List.Forall_forall in H.
  induction l as [|b l IH]; [done|]. cbn [List.filter]. destruct (P b) eqn:Eb.
  - exfalso. rewrite (H b (or_introl eq_refl) Eb) in Ha. done.
  - apply IH. intros x Hx. apply H. by right.
Qed.

Lemma leading_take {A} (P : A -> bool) k l :
  leading P l -> take k (List.filter P (take k l)) = take k (List.filter P l).
Proof.
  revert k. induction l as [|a l IH]; intros [|k] H; [done..|]. cbn [firstn List.filter]. destruct (P a) eqn:Ea.
  - cbn [firstn]. f_equal. apply IH. by apply StronglySorted_inv in H as [H _].
  - rewrite (leading_head P a l H Ea). assert (Hn : List.filter P (take k l) = []).
    { pose proof (leading_head P a l H Ea) as Hn. clear -Hn. revert k Hn. induction l as [|b l IH]; intros [|k]; [done..|].
      cbn [firstn List.filter]. destruct (P b); [done|]. apply IH. }
    by rewrite Hn.
Qed.

Lemma leading_take_all {A} (P : A -> bool) l k : leading P l -> leading P (take k l).
Proof.
  revert k. induction l as [|a l IH]; intros [|k] H; try by constructor. apply StronglySorted_inv in H as [H1 H2]. cbn [firstn].
  constructor; [by apply IH|]. rewrite List.Forall_forall in *. intros x Hx. apply H2. by eapply in_take.
Qed.

Lemma filter_all_true {A} (P : A -> bool) l : (forall x, In x l -> P x = true) -> List.filter P l = l.
Proof.
  induction l as [|a l IH]; intros H; [done|]. cbn [List.filter]. rewrite (H a) by (by left). f_equal. apply IH. intros x Hx. apply H. by right.
Qed.

Lemma filter_filter {A} (P Q : A -> bool) l : List.filter P (List.filter Q l) = List.filter (fun x => Q x && P x) l.
Proof.
  induction l as [|a l IH]; [done|]. cbn [List.filter]. destruct (Q a); cbn [List.filter andb]; [|done]. by destruct (P a); rewrite IH.
Qed.

Lemma filter_none {A} (l : list A) : List.filter (fun _ => false) l = [].
Proof. by induction l. Qed.

(** ** Escaped values *)

Lemma find_term_escape b rest : forall i stop, stop = (i + List.length (escape b) + 2)%nat ->
  find_term (escape b ++ x00 :: x00 :: rest) i stop = Some (i + List.length (escape b))%nat.
Proof.
  assert (Hstep : forall (x : byte) l i stop, l <> [] -> (S i < stop)%nat -> (b2z x =? 0) && (b2z (List.hd x00 l) =? 0) = false ->
    find_term (x :: l) i stop = find_term l (S i) stop).
  { intros x [|y l] i stop Hl Hs Hx; [done|]. cbn [find_term List.hd] in *. by rewrite (proj2 (Nat.ltb_lt _ _) Hs), Hx. }
  assert (Hne : forall b (y z : byte) l, escape b ++ y :: z :: l <> []) by (intros [|? ?] ? ? ?; cbn; [done|by case_match]).
  induction b as [|x b IH]; intros i stop ->; cbn [escape app List.length].
  - rewrite Nat.add_0_r. cbn [find_term]. rewrite (proj2 (Nat.ltb_lt _ _)) by lia. done.
  - destruct (b2z x =? 0) eqn:Ex; cbn [app List.length].
    + rewrite !Hstep; [rewrite (IH (S (S i))); [f_equal; lia|lia]|..]; done || lia || apply Hne.
    + rewrite Hstep; [rewrite (IH (S i)); [f_equal; lia|lia]|apply Hne|lia|by rewrite Ex].
Qed.

Lemma find_term_encoded b rest i stop : stop = (i + List.length (encode_bytes_for_index b))%nat ->
  find_term (encode_bytes_for_index b ++ rest) i stop = Some (i + List.length (escape b))%nat.
Proof.
  unfold encode_bytes_for_index. rewrite length_app. intros ->. rewrite <- app_assoc. apply find_term_escape. cbn. lia.
Qed.

Lemma compare_encoded a op b : compare_ord (encode_bytes_for_index a) op (encode_bytes_for_index b) = compare_ord a op b.
Proof.
  unfold compare_ord. f_equal. destruct (decide (a = b)) as [->|Hne]; [by rewrite !bytes_cmp_refl|].
  rewrite <- (app_nil_r (encode_bytes_for_index a)), <- (app_nil_r (encode_bytes_for_index b)). by apply encode_bytes_order.
Qed.

(** ** Exact scans *)

Definition fixed_kind (kind : IndexedKind) : bool := match kind with KInteger | KBool | KFloat => true | _ => false end.

(** The prefixes the filters scan: objects, an index, and a value of an index of
    its kind. *)
Inductive filter_prefix (db : Database) : bytes -> Prop :=
| FpObjects t : filter_prefix db (KeyBuilder.object_prefix t)
| FpField t f : filter_prefix db (KeyBuilder.field_index_prefix t f)
| FpValue tn t ifd c : bm_get tn (type_ids db) = Some t -> In ifd (ifields db tn) -> fixed_kind (if_kind ifd) = true ->
    filter_prefix db (KeyBuilder.field_index_value_prefix t (if_field_id ifd) (be64 c))
| FpVar tn t ifd b : bm_get tn (type_ids db) = Some t -> In ifd (ifields db tn) -> fixed_kind (if_kind ifd) = false ->
    filter_prefix db (KeyBuilder.field_index_var_value_prefix t (if_field_id ifd) (encode_bytes_for_index b)).

(** A row one of whose zone values satisfies the predicate. *)
Definition zone_satisfies (extract : bytes -> bytes -> list (Z * bytes)) (pred : FieldPredicate) (e : bytes * bytes) : Prop :=
  exists w, In (fp_field_id pred, w) (extract (fst e) (snd e)) /\ compare_int (from_be w) (fp_op pred) (fp_target pred) = true.

(** A reader whose limits cut the rows of its snapshot, whose zone filter
    leaves out only rows that fail, and whose chunks are cut from the rows. *)
Record reader_ok (db : Database) (extract : bytes -> bytes -> list (Z * bytes)) (r : Reader) : Prop := {
  ro_limited p k : filter_prefix db p -> 0 <= k -> rd_limited r p k = take (Z.to_nat k) (rows_under p (rd_map r));
  ro_from p s k : filter_prefix db p -> p `prefix_of` s -> 0 <= k ->
    rd_from r p s k = take (Z.to_nat k) (bm_range s (rows_under p (rd_map r)));
  ro_filtered p pred : filter_prefix db p -> exists keep,
    rd_filtered r p pred = List.filter keep (rows_under p (rd_map r)) /\
    forall e, In e (rows_under p (rd_map r)) -> zone_satisfies extract pred e -> keep e = true;
}.

(** ** Rows and objects *)

Section spec.
Context {J : Json} {T : TextLib} {L : EngineLib}.
Variable db : Database.

(** The fields and the object a row of a type stands for. *)
Definition row_fields (e : bytes * bytes) : FieldMap := default [] (decoded (snd e)).

Definition row_obj (tn : bytes) (e : bytes * bytes) : Obj :=
  {| obj_type := tn; obj_id := key_id (fst e); obj_fields := strip_tombstoned_fields db tn (row_fields e) |}.

(** A row whose field passes the comparison. *)
Definition row_passes (f : bytes) (P : Value -> bool) (e : bytes * bytes) : bool :=
  match bm_get f (row_fields e) with Some v => P v | None => false end.

Definition decodes (e : bytes * bytes) : Prop := exists fm, decoded (snd e) = Some fm.

Lemma decode_row tn e : decodes e -> decode_object db tn (key_id (fst e)) (snd e) = EOk (row_obj tn e).
Proof.
  intros (fm & H). unfold decode_object, row_obj, row_fields. unfold decoded in *. by destruct (des (snd e)) as [x| | |].
Qed.

Lemma cap_step limit k : cap limit <=? k = false -> Z.to_nat (cap limit - k) = S (Z.to_nat (cap limit - (k + 1))).
Proof. intros H%Z.leb_gt. lia. Qed.

(** The walk over an index takes the rows its test accepts. *)
Lemma collect_filter tn limit judge (pass : bytes * bytes -> bool) (stop : bool) entries : forall k,
  (forall e, In e entries -> snd e <> [] /\ decodes e) ->
  (forall e, In e entries ->
     judge (fst e) = if pass e then Take (key_id (fst e)) else if stop then Stop else Skip) ->
  (stop = true -> leading pass entries) ->
  collect db tn limit judge entries k
    = EOk (map (row_obj tn) (take (Z.to_nat (cap limit - k)) (List.filter pass entries)), []).
Proof.
  induction entries as [|[key value] es IH]; intros k Hd Hj Hs; cbn [collect List.filter]; [by rewrite take_nil|].
  destruct (cap limit <=? k) eqn:Ec.
  { replace (Z.to_nat (cap limit - k)) with 0%nat by (apply Z.leb_le in Ec; lia). done. }
  destruct (Hd (key, value) (or_introl eq_refl)) as [Hv Hdec]. rewrite (Hj (key, value) (or_introl eq_refl) : judge key = _).
  assert (Hd' : forall e, In e es -> snd e <> [] /\ decodes e) by (intros; apply Hd; by right).
  assert (Hj' : forall e, In e es -> judge (fst e) = if pass e then Take (key_id (fst e)) else if stop then Stop else Skip)
    by (intros; apply Hj; by right).
  assert (Hs' : stop = true -> leading pass es) by (intros Es; by apply Hs, StronglySorted_inv in Es as [? _]).
  destruct (pass (key, value)) eqn:Ep.
  - pose proof (decode_row tn _ Hdec) as Er. cbn [fst snd] in Er |- *. cbn [snd] in Hv. destruct value as [|b value]; [done|].
    rewrite Er. cbn [mbind eres_bind]. rewrite IH by done. cbn [mbind eres_bind fst snd]. by rewrite (cap_step limit k).
  - destruct stop; [|by apply IH]. by rewrite (leading_head pass (key, value) es (Hs eq_refl) Ep), take_nil.
Qed.

Lemma collect_objects_filter r tn limit judge (pass : bytes * bytes -> bool) (stop : bool) (entries : list (bytes * bytes)) :
  (forall e, In e entries -> snd e <> [] /\ decodes e) ->
  (forall e, In e entries ->
     judge (fst e) = if pass e then Take (key_id (fst e)) else if stop then Stop else Skip) ->
  (stop = true -> leading pass entries) ->
  collect_objects db r tn limit judge entries
    = EOk (map (row_obj tn) (take (Z.to_nat (cap limit)) (List.filter pass entries))).
Proof.
  intros H1 H2 H3. unfold collect_objects. rewrite (collect_filter tn limit judge pass stop) by done.
  cbn [mbind eres_bind fst snd]. by rewrite Z.sub_0_r.
Qed.

(** The walk over objects takes those whose field passes. *)
Lemma filter_rows_spec tn f limit P (entries : list (bytes * bytes)) : forall k,
  (forall e, In e entries -> (8 <= List.length (fst e))%nat /\ decodes e /\ extract_field (snd e) f = bm_get f (row_fields e)) ->
  filter_rows db tn f limit P entries k
    = EOk (map (row_obj tn) (take (Z.to_nat (cap limit - k)) (List.filter (row_passes f P) entries))).
Proof.
  induction entries as [|[key data] es IH]; intros k H; cbn [filter_rows List.filter]; [by rewrite take_nil|].
  destruct (cap limit <=? k) eqn:Ec.
  { replace (Z.to_nat (cap limit - k)) with 0%nat by (apply Z.leb_le in Ec; lia). done. }
  destruct (H (key, data) (or_introl eq_refl)) as (Hl & Hd & He). cbn [fst snd] in Hl, He.
  rewrite (proj2 (Nat.ltb_ge _ _) Hl), He. fold (row_passes f P (key, data)).
  assert (H' : forall e, In e es -> (8 <= List.length (fst e))%nat /\ decodes e /\ extract_field (snd e) f = bm_get f (row_fields e))
    by (intros; apply H; by right).
  destruct (row_passes f P (key, data)); [|by apply IH].
  pose proof (decode_row tn _ Hd) as Er. cbn [fst snd] in Er. rewrite Er. cbn [mbind eres_bind]. rewrite IH by done.
  cbn [mbind eres_bind]. by rewrite (cap_step limit k).
Qed.

Lemma decode_rows_spec tn (entries : list (bytes * bytes)) :
  (forall e, In e entries -> (8 <= List.length (fst e))%nat /\ decodes e) ->
  decode_rows (decode_object db tn) entries = EOk (map (row_obj tn) entries).
Proof.
  induction entries as [|[key data] es IH]; intros H; [done|]. cbn [decode_rows map].
  destruct (H (key, data) (or_introl eq_refl)) as (Hl & Hd). cbn [fst] in Hl. rewrite (proj2 (Nat.ltb_ge _ _) Hl).
  pose proof (decode_row tn _ Hd) as Er. cbn [fst snd] in Er. rewrite Er. cbn [mbind eres_bind].
  rewrite IH by (intros; apply H; by right). done.
Qed.

(** ** The rows of an index *)

(** What the key of an index row has between its prefix and the object id. *)
Definition ibody (kind : IndexedKind) (v : Value) : option bytes :=
  match kind, v with
  | KString, VString s => Some (encode_str_for_index s)
  | KBytes, VBytes b => Some (encode_bytes_for_index b)
  | (KString | KBytes), _ => None
  | _, _ => (fun e => e ++ [SEPARATOR]) <$> encode_fixed kind v
  end.

Lemma build_key_body t f kind v o :
  build_field_index_key t f kind v o = (fun b => KeyBuilder.field_index_prefix t f ++ b ++ be64 o) <$> ibody kind v.
Proof.
  unfold build_field_index_key, KeyBuilder.field_index, KeyBuilder.field_index_var, KeyBuilder.field_index_prefix, ibody.
  destruct kind; cbn [encode_fixed].
  - destruct (encode_int_for_zone v); cbn [mbind option_bind fmap option_fmap option_map]; [by rewrite <- !app_assoc|done].
  - destruct (encode_bool_for_index v); cbn [mbind option_bind fmap option_fmap option_map]; [by rewrite <- !app_assoc|done].
  - destruct (encode_float_for_index v); cbn [mbind option_bind fmap option_fmap option_map]; [by rewrite <- !app_assoc|done].
  - by destruct v.
  - by destruct v.
Qed.

Lemma key_id_app k o : is_u64 o -> key_id (k ++ be64 o) = o.
Proof.
  intros Ho. unfold key_id. rewrite length_app, length_be64, Nat.add_sub, drop_app_length. by apply from_be64.
Qed.

Section store.
Context {LL : EngineLibLaws L}.
Hypothesis Hdb : db_ok db.
Variables (n : list Z) (m : bmap bytes).
Hypothesis Hst : store_ok db n m.
Variables (tn : bytes) (td : TypeDef) (tid : Z).
Hypothesis Ht : type_of db tn td tid.

Definition object_rows : list (bytes * bytes) := rows_under (KeyBuilder.object_prefix tid) m.

Lemma in_rows_under p k c : In (k, c) (rows_under p m) <-> bm_get k m = Some c /\ p `prefix_of` k.
Proof.
  unfold rows_under. rewrite filter_In, starts_with_true. cbn [fst]. rewrite (bm_get_in k c m) by apply Hst. done.
Qed.

(** A row of the type's objects and its object. *)
Lemma object_row k c : In (k, c) object_rows -> exists o fm, is_u64 o /\ k = KeyBuilder.object tid o /\
  bm_get k m = Some c /\ obj m tid o = Some fm /\ decoded c = Some fm /\ obj_ok td fm /\
  forall f, extract_field c f = bm_get f fm.
Proof.
  unfold object_rows. rewrite in_rows_under. intros [Hk Hp].
  destruct (so_ids _ _ _ Hst k) as (t & o & -> & Ho & _); [by destruct Hp as [z ->]|by exists c|].
  assert (E : KeyBuilder.object t o = KeyBuilder.object tid o).
  { apply object_be64; [|done]. destruct Hp as [z E]. unfold KeyBuilder.object, KeyBuilder.object_prefix in E.
    rewrite <- !app_assoc in E. by split_key E. }
  rewrite E in *. destruct (so_blobs _ _ _ Hst tn td tid o c Ht Hk) as (fm & Hd & Hok).
  assert (Hdc : decoded c = Some fm) by (unfold decoded; by rewrite Hd).
  exists o, fm. split_and!; try done.
  - unfold obj. rewrite Hk. done.
  - intros f. destruct (so_stored _ _ _ Hst tn td tid o c Ht Hk) as (fm' & l & Hs & Hp' & -> & Hf & Hl).
    rewrite (extract_field_order fm' l) by done. f_equal. unfold des in Hd. rewrite deserialize_serialized in Hd by done.
    cbn in Hd. injection Hd as <-. symmetry. by apply insert_all_order.
Qed.

Lemma object_row_in o fm : obj m tid o = Some fm -> exists c, In (KeyBuilder.object tid o, c) object_rows /\ decoded c = Some fm.
Proof.
  unfold obj. destruct (bm_get (KeyBuilder.object tid o) m) as [c|] eqn:E; [|done]. cbn. intros Hd. exists c. split; [|done].
  apply in_rows_under. split; [done|]. unfold KeyBuilder.object, KeyBuilder.object_prefix. exists (be64 o). by rewrite <- !app_assoc.
Qed.

(** A row of an index of the type, its object and the value it is filed under. *)
Lemma index_row ifd k c : In ifd (ifields db tn) ->
  In (k, c) (rows_under (KeyBuilder.field_index_prefix tid (if_field_id ifd)) m) ->
  exists o fm v b, is_u64 o /\ obj m tid o = Some fm /\ decoded c = Some fm /\ bm_get (if_name ifd) fm = Some v /\
    is_null v = false /\ ibody (if_kind ifd) v = Some b /\
    k = KeyBuilder.field_index_prefix tid (if_field_id ifd) ++ b ++ be64 o.
Proof.
  intros Hi [Hk Hp]%in_rows_under.
  destruct (ie_object _ _ (so_index _ _ _ Hst) k c) as (tn' & td' & tid' & o & ifd' & fm & Ht' & Ho & Hi' & Hob & Hik);
    [by destruct Hp as [z ->]|done|].
  assert (Hid : tid' = tid /\ if_field_id ifd' = if_field_id ifd).
  { pose proof Hik as (v & Hb)%ikey_build. apply build_key_ids in Hb as (e & E). destruct Hp as [z Ez]. rewrite Ez in E.
    unfold KeyBuilder.field_index_prefix in E. rewrite <- !app_assoc in E. split_key E.
    apply be64_inj in E0; [|apply (ok_type_u64 db Hdb tn), Ht|apply (ok_type_u64 db Hdb tn'), Ht'].
    apply be64_inj in E1; [done|eapply ifield_u64; [done|apply Ht|done]|eapply ifield_u64; [done|apply Ht'|done]]. }
  destruct Hid as [-> Hid]. destruct (type_of_inj db tn td tid tn' td' Hdb Ht Ht') as [<- <-].
  assert (ifd' = ifd) as -> by (eapply ifield_by_id; [done|apply Ht|done..]).
  destruct (ie_row _ _ (so_index _ _ _ Hst) tn td tid o ifd fm k Ht Ho Hi Hob Hik) as (c' & Hc' & Hd).
  assert (c' = c) as -> by congruence.
  unfold ikey in Hik. destruct (bm_get (if_name ifd) fm) as [v|] eqn:Ev; [|done].
  destruct (is_null v) eqn:En; [by destruct v|].
  assert (En' : non_null (Some v) = Some v) by (by destruct v). rewrite En' in Hik. cbn [mbind option_bind] in Hik.
  rewrite build_key_body in Hik. destruct (ibody (if_kind ifd) v) as [b|] eqn:Eb; [|done].
  cbn [fmap option_fmap option_map] in Hik. apply (inj Some) in Hik. by exists o, fm, v, b.
Qed.

Lemma index_row_in ifd o fm v b : In ifd (ifields db tn) -> is_u64 o -> obj m tid o = Some fm ->
  bm_get (if_name ifd) fm = Some v -> is_null v = false -> ibody (if_kind ifd) v = Some b ->
  exists c, In (KeyBuilder.field_index_prefix tid (if_field_id ifd) ++ b ++ be64 o, c)
    (rows_under (KeyBuilder.field_index_prefix tid (if_field_id ifd)) m) /\ decoded c = Some fm.
Proof.
  intros Hi Ho Hob Hv Hn Hb.
  destruct (ie_row _ _ (so_index _ _ _ Hst) tn td tid o ifd fm
    (KeyBuilder.field_index_prefix tid (if_field_id ifd) ++ b ++ be64 o) Ht Ho Hi Hob) as (c & Hc & Hd).
  - unfold ikey. rewrite Hv. assert (En : non_null (Some v) = Some v) by (by destruct v). rewrite En.
    cbn [mbind option_bind]. by rewrite build_key_body, Hb.
  - exists c. split; [|done]. apply in_rows_under. split; [done|]. by eexists.
Qed.

Section field.
Variable ifd : IndexedField.
Hypothesis Hi : In ifd (ifields db tn).

Definition index_rows : list (bytes * bytes) := rows_under (KeyBuilder.field_index_prefix tid (if_field_id ifd)) m.

Lemma index_row_decodes e : In e index_rows -> snd e <> [] /\ decodes e.
Proof.
  destruct e as [k c]. intros H. apply index_row in H as (o & fm & v & b & _ & _ & Hd & Hv & _); [|done]. split; [|by exists fm].
  cbn [snd]. intros ->. unfold decoded, des in Hd. cbn in Hd. by injection Hd as <-.
Qed.

(** An object has one row. *)
Lemma index_row_key k c k' c' : In (k, c) index_rows -> In (k', c') index_rows -> key_id k = key_id k' -> (k, c) = (k', c').
Proof.
  intros H1 H2 E. pose proof (proj1 (proj1 (in_rows_under _ _ _) H1)) as G1. pose proof (proj1 (proj1 (in_rows_under _ _ _) H2)) as G2.
  apply index_row in H1 as (o & fm & v & b & Ho & Hob & _ & Hv & _ & Hb & ->); [|done].
  apply index_row in H2 as (o' & fm' & v' & b' & Ho' & Hob' & _ & Hv' & _ & Hb' & ->); [|done].
  rewrite !app_assoc, !key_id_app in E by done. subst o'. assert (fm' = fm) as -> by congruence.
  assert (v' = v) as -> by congruence. assert (b' = b) as -> by congruence. congruence.
Qed.

(** The index holds the objects with a value the index can file, once each. *)
Lemma index_rows_objects P :
  (forall o fm v, obj m tid o = Some fm -> bm_get (if_name ifd) fm = Some v -> P v = true ->
     is_null v = false /\ is_Some (ibody (if_kind ifd) v)) ->
  map (row_obj tn) (List.filter (row_passes (if_name ifd) P) index_rows)
    ≡ₚ map (row_obj tn) (List.filter (row_passes (if_name ifd) P) object_rows).
Proof.
  intros HP. assert (Hnd : forall p, NoDup (rows_under p m)).
  { intros p. apply (NoDup_fmap_1 fst), bsorted_nodup, bsorted_filter, Hst. }
  assert (Hnf : forall p Q, NoDup (List.filter Q (rows_under p m))) by (intros p Q; apply NoDup_ListNoDup, List.NoDup_filter, NoDup_ListNoDup, Hnd).
  apply NoDup_Permutation.
  - apply NoDup_fmap_2_strong; [|apply Hnf]. intros [k c] [k' c'] H1 H2 E.
    apply list_elem_of_In, filter_In in H1 as [H1 _]. apply list_elem_of_In, filter_In in H2 as [H2 _].
    exact (index_row_key k c k' c' H1 H2 (f_equal obj_id E)).
  - apply NoDup_fmap_2_strong; [|apply Hnf]. intros [k c] [k' c'] H1 H2 E.
    apply list_elem_of_In, filter_In in H1 as [H1 _]. apply list_elem_of_In, filter_In in H2 as [H2 _].
    apply object_row in H1 as (o & fm & Ho & -> & H1 & _). apply object_row in H2 as (o' & fm' & Ho' & -> & H2 & _).
    assert (o = o') as ->; [|congruence]. assert (E' := f_equal obj_id E). cbn [row_obj obj_id fst] in E'.
    unfold KeyBuilder.object in E'. rewrite !app_assoc, !key_id_app in E' by done. done.
  - intros ob. rewrite !list_elem_of_In, !in_map_iff. split.
    + intros ([k c] & <- & [H Hp]%filter_In). apply index_row in H as (o & fm & v & b & Ho & Hob & Hd & Hv & Hn & Hb & ->); [|done].
      destruct (object_row_in o fm Hob) as (c' & Hc' & Hd'). exists (KeyBuilder.object tid o, c'). split.
      * unfold row_obj, row_fields. cbn [fst snd]. rewrite Hd, Hd'. unfold KeyBuilder.object. by rewrite !app_assoc, !key_id_app.
      * apply filter_In. split; [done|]. unfold row_passes, row_fields in *. cbn [fst snd] in *. by rewrite Hd' in *; rewrite Hd in Hp.
    + intros ([k c] & <- & [H Hp]%filter_In). apply object_row in H as (o & fm & Ho & -> & H & Hob & Hd & _).
      unfold row_passes, row_fields in Hp. cbn [snd] in Hp. rewrite Hd in Hp. cbn [default id] in Hp.
      destruct (bm_get (if_name ifd) fm) as [v|] eqn:Ev; [|done]. destruct (HP o fm v Hob Ev Hp) as [Hn [b Hb]].
      destruct (index_row_in ifd o fm v b Hi Ho Hob Ev Hn Hb) as (c' & Hin & Hd').
      exists (KeyBuilder.field_index_prefix tid (if_field_id ifd) ++ b ++ be64 o, c'). split.
      * unfold row_obj, row_fields. cbn [fst snd]. rewrite Hd, Hd'. unfold KeyBuilder.object. by rewrite !app_assoc, !key_id_app.
      * apply filter_In. split; [done|]. unfold row_passes, row_fields. cbn [snd]. rewrite Hd'. cbn [default id]. by rewrite Ev.
Qed.
Lemma index_row_long e : In e index_rows -> (8 <= List.length (fst e))%nat.
Proof.
  destruct e as [k x]. intros H. apply index_row in H as (o & fm & v & b & _ & _ & _ & _ & _ & _ & ->); [|done].
  cbn [fst]. rewrite !length_app, length_be64. lia.
Qed.

Lemma index_rows_sorted : bsorted index_rows.
Proof. apply bsorted_filter, Hst. Qed.

Context (extract : bytes -> bytes -> list (Z * bytes)) (r : Reader).
Hypothesis Hr : reader_ok db extract r.
Hypothesis Hm : rd_map r = m.

(** The rows under the prefix of one value. *)
Lemma walk_eq limit p V : filter_prefix db p -> rows_under p m = V -> incl V index_rows -> (forall k, limit = Some k -> 0 <= k) ->
  collect_objects db r tn limit judge_eq (eq_entries r p limit) = EOk (map (row_obj tn) (take (Z.to_nat (cap limit)) V)).
Proof.
  intros Hp <- Hin Hlim.
  assert (Hw : forall l, incl l (rows_under p m) ->
    collect_objects db r tn limit judge_eq l = EOk (map (row_obj tn) (take (Z.to_nat (cap limit)) l))).
  { intros l Hl. rewrite (collect_objects_filter r tn limit judge_eq (fun _ => true) false); [by rewrite (filter_all_true (fun _ => true))|..|done].
    - intros e He. by apply index_row_decodes, Hin, Hl.
    - intros e He. unfold judge_eq. by rewrite (proj2 (Nat.ltb_ge _ _) (index_row_long e (Hin e (Hl e He)))). }
  unfold eq_entries. destruct limit as [k|]; [|rewrite Hm; apply Hw, incl_refl].
  rewrite (ro_limited _ _ _ Hr) by (done || by apply Hlim). rewrite Hm, Hw by (intros e; apply in_take).
  cbn [cap default id]. by rewrite take_take, Nat.min_id.
Qed.

(** *** Fixed-width values *)

(** The code in the key of a row. *)
Definition key_code (k : bytes) : Z :=
  from_be (take 8 (drop (List.length (KeyBuilder.field_index_prefix tid (if_field_id ifd))) k)).

Definition fixed_key (c o : Z) : bytes := KeyBuilder.field_index_prefix tid (if_field_id ifd) ++ (be64 c ++ [SEPARATOR]) ++ be64 o.

Lemma key_code_fixed c o : is_u64 c -> key_code (fixed_key c o) = c.
Proof.
  intros Hc. unfold key_code, fixed_key. rewrite drop_app_length, <- !app_assoc, take_app_length' by (by rewrite length_be64).
  by apply from_be64.
Qed.

Lemma fixed_key_cmp c o c' o' : is_u64 c -> is_u64 c' -> is_u64 o -> is_u64 o' ->
  bytes_cmp (fixed_key c o) (fixed_key c' o') = match c ?= c' with Eq => o ?= o' | x => x end.
Proof.
  intros Hc Hc' Ho Ho'. unfold fixed_key. rewrite bytes_cmp_app, <- !app_assoc, bytes_cmp_app_length by (by rewrite !length_be64).
  by rewrite be64_compare, bytes_cmp_app, be64_compare.
Qed.

(** A row of a fixed-width index. *)
Lemma fixed_row e : fixed_kind (if_kind ifd) = true -> In e index_rows ->
  exists o v c, is_u64 o /\ is_u64 c /\ bm_get (if_name ifd) (row_fields e) = Some v /\ value_ok v /\ typed td (if_name ifd) v /\
    is_null v = false /\ fixed_code v = Some c /\ fst e = fixed_key c o.
Proof.
  destruct e as [k x]. intros Hk H. apply index_row in H as (o & fm & v & b & Ho & Hob & Hd & Hv & Hn & Hb & ->); [|done].
  destruct (object_row_in o fm Hob) as (x' & Hin & Hd'). apply object_row in Hin as (o1 & fm1 & Ho1 & E1 & _ & Hob1 & Hd1 & Hok & _).
  assert (fm1 = fm) as -> by congruence. destruct (proj2 Hok _ _ Hv) as [Hvo Hty].
  assert (He : exists e, encode_fixed (if_kind ifd) v = Some e /\ b = e ++ [SEPARATOR]).
  { unfold ibody in Hb. destruct (if_kind ifd); try done; destruct (encode_fixed _ v) as [e|]; try done; cbn in Hb;
      injection Hb as <-; by exists e. }
  destruct He as (e & He & ->). apply encode_fixed_code in He as (c & Hc & ->); [|done].
  exists o, v, c. split_and!; try done; [by eapply fixed_code_u64|]. unfold row_fields. cbn [snd]. by rewrite Hd.
Qed.

Section fixed.
Hypothesis Hfixed : fixed_kind (if_kind ifd) = true.
Variables (op : CompareOp) (t : Z).
Hypothesis Hu : is_u64 t.

Definition code_passes (e : bytes * bytes) : bool := compare_int (key_code (fst e)) op t.

Lemma judge_fixed_row e : In e index_rows ->
  judge_fixed (List.length (KeyBuilder.field_index_prefix tid (if_field_id ifd))) op t (fst e)
    = if code_passes e then Take (key_id (fst e)) else if match op with OpLt | OpLe => true | _ => false end then Stop else Skip.
Proof.
  intros He. destruct (fixed_row e Hfixed He) as (o & v & c & Ho & Hc & _ & _ & _ & _ & _ & E). unfold judge_fixed, code_passes.
  rewrite E. fold (key_code (fixed_key c o)). rewrite key_code_fixed by done.
  set (p := KeyBuilder.field_index_prefix tid (if_field_id ifd)).
  assert (El : List.length (fixed_key c o) = (List.length p + 8 + 1 + 8)%nat).
  { unfold fixed_key. fold p. rewrite !length_app, !length_be64. cbn. lia. }
  rewrite El, Nat.eqb_refl.
  assert (Ei : take 8 (drop (List.length p + 9) (fixed_key c o)) = be64 o).
  { unfold fixed_key. fold p. rewrite app_assoc, drop_app_length' by (rewrite !length_app, length_be64; cbn; lia).
    apply take_ge. by rewrite length_be64. }
  rewrite Ei, from_be64 by done. unfold fixed_key. rewrite app_assoc, key_id_app by done.
  unfold range_verdict. destruct (compare_int c op t); [done|]. by destruct op.
Qed.

(** Smaller codes come first. *)
Lemma fixed_leading (P : Z -> bool) l : (forall a b, a <= b -> P b = true -> P a = true) -> bsorted l -> incl l index_rows ->
  leading (fun e => P (key_code (fst e))) l.
Proof.
  intros HP Hs. induction Hs as [|e l Hs IH Hall]; intros Hin; [constructor|].
  assert (Hin' : incl l index_rows) by (intros x Hx; apply Hin; by right).
  constructor; [by apply IH|]. rewrite List.Forall_forall in *. intros x Hx. apply HP.
  destruct (fixed_row e Hfixed (Hin e (or_introl eq_refl))) as (o & v & c & Ho & Hc & _ & _ & _ & _ & _ & E).
  destruct (fixed_row x Hfixed (Hin' x Hx)) as (o' & v' & c' & Ho' & Hc' & _ & _ & _ & _ & _ & E').
  specialize (Hall x Hx). unfold blt in Hall. rewrite E, E', fixed_key_cmp in Hall by done.
  rewrite E, E', !key_code_fixed by done. destruct (Z.compare_spec c c'); [lia|lia|done].
Qed.

(** The rows from a code on. *)
Lemma fixed_range s : is_u64 s ->
  bm_range (KeyBuilder.field_index_prefix tid (if_field_id ifd) ++ be64 s) index_rows
    = List.filter (fun e => s <=? key_code (fst e)) index_rows.
Proof.
  intros Hs. apply filter_ext_in. intros e He.
  destruct (fixed_row e Hfixed He) as (o & v & c & Ho & Hc & _ & _ & _ & _ & _ & E). rewrite E, key_code_fixed by done.
  unfold bleb, fixed_key. rewrite bytes_cmp_app, <- (app_nil_r (be64 s)), <- !app_assoc.
  rewrite bytes_cmp_app_length, be64_compare by (done || by rewrite !length_be64).
  destruct (Z.compare_spec s c); destruct (Z.leb_spec s c); try lia; done.
Qed.

(** The rows of one code. *)
Lemma fixed_eq_rows :
  rows_under (KeyBuilder.field_index_value_prefix tid (if_field_id ifd) (be64 t)) m
    = List.filter (fun e => key_code (fst e) =? t) index_rows.
Proof.
  assert (Ep : KeyBuilder.field_index_value_prefix tid (if_field_id ifd) (be64 t)
    = KeyBuilder.field_index_prefix tid (if_field_id ifd) ++ be64 t ++ [SEPARATOR]).
  { unfold KeyBuilder.field_index_value_prefix, KeyBuilder.field_index_prefix. by rewrite <- !app_assoc. }
  rewrite Ep. unfold index_rows. unfold rows_under. rewrite filter_filter. apply filter_ext_in. intros [k x] Hin. cbn [fst].
  set (p := KeyBuilder.field_index_prefix tid (if_field_id ifd)) in *.
  destruct (starts_with k p) eqn:Es; cbn [andb].
  - assert (He : In (k, x) index_rows) by (by apply filter_In).
    destruct (fixed_row _ Hfixed He) as (o & v & c & Ho & Hc & _ & _ & _ & _ & _ & E). cbn [fst] in E. rewrite E, key_code_fixed by done.
    apply eq_true_iff_eq. rewrite starts_with_true, Z.eqb_eq. unfold fixed_key. fold p. split.
    + intros [z Hz]. rewrite <- !app_assoc in Hz. apply app_inv_head in Hz. apply be64_app_inj in Hz as [Hz _]. by apply be64_inj in Hz.
    + intros ->. apply prefix_app, prefix_app_r. done.
  - destruct (starts_with k (p ++ be64 t ++ [SEPARATOR])) eqn:E2; [|done]. exfalso.
    apply starts_with_true in E2 as [z ->]. rewrite <- app_assoc in Es.
    assert (starts_with (p ++ (be64 t ++ [SEPARATOR]) ++ z) p = true); [|congruence]. apply starts_with_true. by eexists.
Qed.

(** A walk over rows of the index that include every passing one within the
    limit. *)
Lemma walk_fixed limit entries : incl entries index_rows ->
  (match op with OpLt | OpLe => true | _ => false end = true -> leading code_passes entries) ->
  take (Z.to_nat (cap limit)) (List.filter code_passes entries) = take (Z.to_nat (cap limit)) (List.filter code_passes index_rows) ->
  collect_objects db r tn limit (judge_fixed (List.length (KeyBuilder.field_index_prefix tid (if_field_id ifd))) op t) entries
    = EOk (map (row_obj tn) (take (Z.to_nat (cap limit)) (List.filter code_passes index_rows))).
Proof.
  intros Hin Hl E. rewrite (collect_objects_filter r tn limit _ code_passes (match op with OpLt | OpLe => true | _ => false end));
    [by rewrite E|..|done].
  - intros e He. by apply index_row_decodes, Hin.
  - intros e He. by apply judge_fixed_row, Hin.
Qed.

Lemma code_passes_leading l : match op with OpLt | OpLe => true | _ => false end = true ->
  bsorted l -> incl l index_rows -> leading code_passes l.
Proof.
  intros Hop. apply (fixed_leading (fun c => compare_int c op t)). intros a b Hab. unfold compare_int, compare_ord_by.
  destruct op; try done; destruct (Z.compare_spec a t), (Z.compare_spec b t); done || lia.
Qed.

(** A walk that starts at the first passing code. *)
Lemma walk_from limit k s : limit = Some k -> 0 <= k -> is_u64 s ->
  (forall c, compare_int c op t = (s <=? c)) ->
  match op with OpLt | OpLe => true | _ => false end = false ->
  collect_objects db r tn limit (judge_fixed (List.length (KeyBuilder.field_index_prefix tid (if_field_id ifd))) op t)
      (rd_from r (KeyBuilder.field_index_prefix tid (if_field_id ifd))
        (KeyBuilder.field_index_prefix tid (if_field_id ifd) ++ be64 s) k)
    = EOk (map (row_obj tn) (take (Z.to_nat (cap limit)) (List.filter code_passes index_rows))).
Proof.
  intros -> Hk Hs Hc Hop. rewrite (ro_from _ _ _ Hr) by (done || constructor || by eexists). rewrite Hm. fold index_rows.
  rewrite fixed_range by done.
  assert (E : List.filter (fun e => s <=? key_code (fst e)) index_rows = List.filter code_passes index_rows).
  { apply filter_ext_in. intros e _. unfold code_passes. by rewrite Hc. }
  rewrite E. apply walk_fixed.
  - intros e He%in_take. by apply filter_In in He as [He _].
  - by rewrite Hop.
  - cbn [cap default id]. rewrite (filter_all_true code_passes); [by rewrite take_take, Nat.min_id|].
    intros e He%in_take. by apply filter_In in He as [_ He].
Qed.

Lemma via_index_rows limit : (forall k, limit = Some k -> 0 <= k) ->
  filter_scan_via_index db r tn tid (if_field_id ifd) op (be64 t) limit
    = EOk (map (row_obj tn) (take (Z.to_nat (cap limit)) (List.filter code_passes index_rows))).
Proof.
  intros Hlim. unfold filter_scan_via_index. rewrite from_be64, Hm by done. fold index_rows. cbv zeta.
  assert (Hfull : collect_objects db r tn limit (judge_fixed (List.length (KeyBuilder.field_index_prefix tid (if_field_id ifd))) op t) index_rows
    = EOk (map (row_obj tn) (take (Z.to_nat (cap limit)) (List.filter code_passes index_rows)))).
  { apply walk_fixed; [apply incl_refl|intros; apply code_passes_leading; [done|apply index_rows_sorted|apply incl_refl]|done]. }
  assert (Hlead : match op with OpLt | OpLe => true | _ => false end = true -> forall k, limit = Some k ->
    collect_objects db r tn limit (judge_fixed (List.length (KeyBuilder.field_index_prefix tid (if_field_id ifd))) op t)
      (rd_limited r (KeyBuilder.field_index_prefix tid (if_field_id ifd)) k)
    = EOk (map (row_obj tn) (take (Z.to_nat (cap limit)) (List.filter code_passes index_rows)))).
  { intros Hop k ->. rewrite (ro_limited _ _ _ Hr) by (constructor || by apply Hlim). rewrite Hm. fold index_rows.
    assert (Hl : leading code_passes index_rows) by (apply code_passes_leading; [done|apply index_rows_sorted|apply incl_refl]).
    apply walk_fixed; [intros e He; by eapply in_take|intros _; by apply leading_take_all|by apply leading_take]. }
  destruct op eqn:Eop.
  - set (V := List.filter (fun e => key_code (fst e) =? t) index_rows).
    assert (EV : List.filter code_passes index_rows = V).
    { apply filter_ext_in. intros e _. unfold code_passes, compare_int, compare_ord_by. rewrite Eop.
      by destruct (Z.compare_spec (key_code (fst e)) t), (Z.eqb_spec (key_code (fst e)) t); try lia. }
    rewrite EV.
    apply (walk_eq limit _ V); [by eapply FpValue; [apply Ht|..]|by apply fixed_eq_rows|intros e He; by apply filter_In in He as [He _]|done].
  - done.
  - destruct limit as [k|]; [by apply Hlead|done].
  - destruct limit as [k|]; [by apply Hlead|done].
  - destruct limit as [k|]; [|done]. destruct (Z.eqb_spec t u64_max) as [E|E].
    + assert (EF : List.filter code_passes index_rows = []); [|by rewrite EF, take_nil].
      rewrite <- (filter_all_true (fun _ => true) index_rows), filter_filter by done.
      erewrite filter_ext_in; [apply (filter_none index_rows)|]. intros e He. cbn [andb].
      destruct (fixed_row e Hfixed He) as (o & v & c & _ & Hc & _ & _ & _ & _ & _ & Ek). unfold code_passes. rewrite Ek, key_code_fixed by done.
      unfold compare_int, compare_ord_by. rewrite Eop. unfold is_u64, u64_max in *. by destruct (Z.compare_spec c t); try lia.
    + rewrite <- Eop. apply walk_from; [done|by apply Hlim| | |by rewrite Eop].
      * unfold is_u64, u64_max in *. lia.
      * intros c. unfold compare_int, compare_ord_by. rewrite Eop. by destruct (Z.compare_spec c t), (Z.leb_spec (t + 1) c); try lia.
  - destruct limit as [k|]; [|done]. rewrite <- Eop. apply walk_from; [done|by apply Hlim|done| |by rewrite Eop].
    intros c. unfold compare_int, compare_ord_by. rewrite Eop. by destruct (Z.compare_spec c t), (Z.leb_spec t c); try lia.
Qed.

End fixed.

(** *** Strings and byte strings *)

Section var.
Hypothesis Hvar : fixed_kind (if_kind ifd) = false.

Definition var_key (b : bytes) (o : Z) : bytes :=
  KeyBuilder.field_index_prefix tid (if_field_id ifd) ++ encode_bytes_for_index b ++ be64 o.

(** The bytes of a string or byte string. *)
Definition var_bytes (v : Value) : option bytes := match v with VString s => Some s | VBytes b => Some b | _ => None end.

Lemma var_row e : In e index_rows -> exists o v b, is_u64 o /\ bm_get (if_name ifd) (row_fields e) = Some v /\
  var_bytes v = Some b /\ ibody (if_kind ifd) v = Some (encode_bytes_for_index b) /\ fst e = var_key b o.
Proof.
  destruct e as [k x]. intros H. apply index_row in H as (o & fm & v & b & Ho & Hob & Hd & Hv & Hn & Hb & ->); [|done].
  assert (He : exists b', var_bytes v = Some b' /\ b = encode_bytes_for_index b').
  { unfold ibody in Hb. destruct (if_kind ifd); try done; destruct v; try done; injection Hb as <-; eexists; by split. }
  destruct He as (b' & Hb' & ->). exists o, v, b'. split_and!; try done. unfold row_fields. cbn [snd]. by rewrite Hd.
Qed.

(** The value in the key of a row, encoded. *)
Definition key_enc (k : bytes) : bytes :=
  let p := List.length (KeyBuilder.field_index_prefix tid (if_field_id ifd)) in take (List.length k - 8 - p) (drop p k).

Lemma key_enc_var b o : key_enc (var_key b o) = encode_bytes_for_index b.
Proof.
  unfold key_enc, var_key. cbv zeta. rewrite drop_app_length. apply take_app_length'.
  rewrite !length_app, length_be64. lia.
Qed.

Variables (op : CompareOp) (t : bytes).

Definition enc_passes (e : bytes * bytes) : bool := compare_ord (key_enc (fst e)) op (encode_bytes_for_index t).

Lemma judge_var_row e : In e index_rows ->
  judge_var (List.length (KeyBuilder.field_index_prefix tid (if_field_id ifd))) op (encode_bytes_for_index t) (fst e)
    = if enc_passes e then Take (key_id (fst e)) else if match op with OpLt | OpLe => true | _ => false end then Stop else Skip.
Proof.
  intros He. destruct (var_row e He) as (o & v & b & Ho & _ & _ & _ & E). unfold judge_var, enc_passes. rewrite E, key_enc_var.
  unfold var_key. set (p := KeyBuilder.field_index_prefix tid (if_field_id ifd)). rewrite drop_app_length.
  assert (El : List.length (encode_bytes_for_index b) = (List.length (escape b) + 2)%nat)
    by (unfold encode_bytes_for_index; by rewrite length_app).
  rewrite (proj2 (Nat.ltb_ge _ _)) by (rewrite !length_app, length_be64; lia).
  rewrite find_term_encoded by (rewrite !length_app, length_be64; lia).
  rewrite take_app_length' by lia. rewrite !app_assoc, key_id_app by done.
  rewrite drop_app_length', take_ge, from_be64 by (done || rewrite ?length_app, ?length_be64; lia).
  unfold range_verdict. destruct (compare_ord _ op _); [done|]. by destruct op.
Qed.

Lemma enc_passes_leading : match op with OpLt | OpLe => true | _ => false end = true -> leading enc_passes index_rows.
Proof.
  intros Hop. pose proof index_rows_sorted as Hs. pose proof (incl_refl index_rows) as Hin. revert Hs Hin. generalize index_rows at 1 2 4.
  intros l Hs. induction Hs as [|e l Hs IH Hall]; intros Hin; [constructor|].
  assert (Hin' : incl l index_rows) by (intros x Hx; apply Hin; by right).
  constructor; [by apply IH|]. rewrite List.Forall_forall in *. intros x Hx.
  destruct (var_row e (Hin e (or_introl eq_refl))) as (o & v & b & Ho & _ & _ & _ & E).
  destruct (var_row x (Hin' x Hx)) as (o' & v' & b' & Ho' & _ & _ & _ & E').
  specialize (Hall x Hx). unfold enc_passes. rewrite E, E', !key_enc_var, !compare_encoded in *.
  assert (Hb : b <=b b').
  { unfold blt, var_key in Hall. rewrite bytes_cmp_app in Hall. destruct (decide (b = b')) as [->|Hne]; [apply ble_refl|].
    rewrite encode_bytes_order in Hall by done. by apply blt_ble. }
  unfold compare_ord, compare_ord_by. destruct op; try done.
  - destruct (bytes_cmp b' t) eqn:E1; try done. by rewrite (ble_blt_trans b b' t Hb E1 : bytes_cmp b t = Lt).
  - intros H1. assert (Hle : b <=b t) by (eapply ble_trans; [exact Hb|]; unfold ble; by destruct (bytes_cmp b' t)).
    unfold ble in Hle. by destruct (bytes_cmp b t).
Qed.

Lemma var_eq_rows :
  rows_under (KeyBuilder.field_index_var_value_prefix tid (if_field_id ifd) (encode_bytes_for_index t)) m
    = List.filter (fun e => bool_decide (key_enc (fst e) = encode_bytes_for_index t)) index_rows.
Proof.
  assert (Ep : KeyBuilder.field_index_var_value_prefix tid (if_field_id ifd) (encode_bytes_for_index t)
    = KeyBuilder.field_index_prefix tid (if_field_id ifd) ++ encode_bytes_for_index t).
  { unfold KeyBuilder.field_index_var_value_prefix, KeyBuilder.field_index_prefix. by rewrite <- !app_assoc. }
  rewrite Ep. unfold index_rows. unfold rows_under. rewrite filter_filter. apply filter_ext_in. intros [k x] Hin. cbn [fst].
  set (p := KeyBuilder.field_index_prefix tid (if_field_id ifd)) in *.
  destruct (starts_with k p) eqn:Es; cbn [andb].
  - assert (He : In (k, x) index_rows) by (by apply filter_In).
    destruct (var_row _ He) as (o & v & b & Ho & _ & _ & _ & E). cbn [fst] in E. rewrite E, key_enc_var.
    apply eq_true_iff_eq. rewrite starts_with_true, bool_decide_eq_true. unfold var_key. fold p. split.
    + intros [z Hz]. rewrite <- !app_assoc in Hz. apply app_inv_head in Hz. destruct (decide (b = t)) as [->|Hne]; [done|].
      pose proof (encode_bytes_order b t (be64 o) z Hne) as Ho'. rewrite Hz, bytes_cmp_refl in Ho'. by symmetry in Ho'; apply bytes_cmp_eq in Ho'.
    + intros ->. apply prefix_app, prefix_app_r. done.
  - destruct (starts_with k (p ++ encode_bytes_for_index t)) eqn:E2; [|done]. exfalso.
    apply starts_with_true in E2 as [z ->]. rewrite <- app_assoc in Es.
    assert (starts_with (p ++ encode_bytes_for_index t ++ z) p = true); [|congruence]. apply starts_with_true. by eexists.
Qed.

Lemma via_index_var_rows limit : (forall k, limit = Some k -> 0 <= k) ->
  filter_scan_via_index_var db r tn tid (if_field_id ifd) op (encode_bytes_for_index t) limit
    = EOk (map (row_obj tn) (take (Z.to_nat (cap limit)) (List.filter enc_passes index_rows))).
Proof.
  intros Hlim. unfold filter_scan_via_index_var. rewrite Hm. fold index_rows. cbv zeta.
  assert (Hfull : collect_objects db r tn limit
      (judge_var (List.length (KeyBuilder.field_index_prefix tid (if_field_id ifd))) op (encode_bytes_for_index t)) index_rows
    = EOk (map (row_obj tn) (take (Z.to_nat (cap limit)) (List.filter enc_passes index_rows)))).
  { apply (collect_objects_filter r tn limit _ enc_passes (match op with OpLt | OpLe => true | _ => false end));
      [apply index_row_decodes|apply judge_var_row|apply enc_passes_leading]. }
  destruct op eqn:Eop; try exact Hfull.
  assert (EV : List.filter enc_passes index_rows
    = List.filter (fun e => bool_decide (key_enc (fst e) = encode_bytes_for_index t)) index_rows).
  { apply filter_ext_in. intros e _. unfold enc_passes, compare_ord, compare_ord_by. rewrite Eop.
    case_bool_decide as E; [by rewrite E, bytes_cmp_refl|]. rewrite <- bytes_cmp_eq in E. by destruct (bytes_cmp _ _). }
  rewrite EV. apply walk_eq; [by eapply FpVar; [apply Ht|..]|by apply var_eq_rows|intros e He; by apply filter_In in He as [He _]|done].
Qed.

End var.
End field.
End store.
End spec.
