(* ===== verification/FilterProps.v ===== *)
(** * Filters return the objects that pass *)

From Stdlib Require Import ZArith Lia Bool List Strings.Byte Strings.String Sorting.Sorted.
From stdpp Require Import base tactics option list sorting gmap.
From S2P Require Import Prelude ByteMap Keys Mvcc Zone Lsm Utf8 Values Ieee Schema IndexKeys Posting Store Fulltext.
From S2P Require Import Engine EngineEdges EngineOps EngineInv EngineUpdate EngineSystem EngineDemo EngineProps.
From S2P Require Import FilterScan FilterSpec.

Local Open Scope Z_scope.
Local Open Scope bytes_scope.

(** ** Zone ids *)

Lemma lookup_get_insert k v m k' : lookup_get k' (lookup_insert k v m) = if k' =? k then Some v else lookup_get k' m.
Proof.
  induction m as [|[k0 v0] m IH]; cbn [lookup_insert lookup_get]; [done|].
  destruct (Z.eqb_spec k k0) as [->|Hne]; cbn [lookup_get]; [by destruct (k' =? k0)|].
  destruct (Z.eqb_spec k' k0) as [->|]; [|done]. by destruct (Z.eqb_spec k0 k); [congruence|].
Qed.

Section zones.
Context (tids fids : bmap Z).

Definition zone_step (out : ZoneFieldIdLookup) (nt : bytes * TypeDef) : ZoneFieldIdLookup :=
  match bm_get (fst nt) tids with
  | None => out
  | Some type_id =>
      match zone_entries (fst nt) fids (fields (snd nt)) with [] => out | entries => lookup_insert type_id entries out end
  end.

Lemma zone_step_get out nt tid : lookup_get tid (zone_step out nt)
  = match bm_get (fst nt) tids, zone_entries (fst nt) fids (fields (snd nt)) with
    | Some t, (_ :: _) as es => if tid =? t then Some es else lookup_get tid out
    | _, _ => lookup_get tid out
    end.
Proof.
  unfold zone_step. destruct (bm_get (fst nt) tids) as [t|]; [|done]. destruct (zone_entries _ _ _); [done|]. by rewrite lookup_get_insert.
Qed.

Lemma zone_fold_other tid ts : forall out, (forall nt, In nt ts -> bm_get (fst nt) tids <> Some tid) ->
  lookup_get tid (fold_left zone_step ts out) = lookup_get tid out.
Proof.
  induction ts as [|nt ts IH]; intros out H; [done|]. cbn [fold_left]. rewrite IH by (intros; apply H; by right). rewrite zone_step_get.
  pose proof (H nt (or_introl eq_refl)) as Hn. destruct (bm_get (fst nt) tids) as [t|]; [|done]. destruct (zone_entries _ _ _); [done|].
  destruct (Z.eqb_spec tid t); [congruence|done].
Qed.

Lemma zone_fold_get tn td tid ts : forall out, bsorted ts -> In (tn, td) ts -> bm_get tn tids = Some tid ->
  (forall n, bm_get n tids = Some tid -> n = tn) -> zone_entries tn fids (fields td) <> [] ->
  lookup_get tid (fold_left zone_step ts out) = Some (zone_entries tn fids (fields td)).
Proof.
  induction ts as [|nt ts IH]; intros out Hs Hin Ht Hinj Hne; [done|]. cbn [fold_left]. apply StronglySorted_inv in Hs as [Hs Hall].
  destruct Hin as [->|Hin]; [|by apply IH]. rewrite zone_fold_other.
  - rewrite zone_step_get. cbn [fst snd]. rewrite Ht. destruct (zone_entries _ _ _); [done|]. by rewrite Z.eqb_refl.
  - intros nt Hnt E. apply Hinj in E. rewrite List.Forall_forall in Hall. apply Hall in Hnt. cbn [fst] in Hnt. rewrite E in Hnt. by apply blt_irrefl in Hnt.
Qed.
End zones.

Section props.
Context {J : Json} {T : TextLib} {L : EngineLib} {LL : EngineLibLaws L}.
Variable db : Database.

(** The zone values the engine registers for a row. *)
Definition zone_extract (key value : bytes) : list (Z * bytes) :=
  match do_extract_zone_fields (build_zone_field_id_lookup (schema db) (type_ids db) (field_ids db)) key value with
  | Ok l => l
  | _ => []
  end.

(** A field reads do not hide. *)
Definition shown (tn f : bytes) : bool :=
  match bm_get tn (retired_field_names_by_type db) with Some retired => negb (existsb (beqb f) retired) | None => true end
  && negb (is_shadow_sibling_key f).

Lemma get_filter_fst {V} (P : bytes -> bool) (m : bmap V) f : P f = true ->
  bm_get f (List.filter (fun e => P (fst e)) m) = bm_get f m.
Proof. intros HP. rewrite (bm_get_filter P). by rewrite HP. Qed.

Lemma shown_get tn f fm : shown tn f = true -> bm_get f (strip_tombstoned_fields db tn fm) = bm_get f fm.
Proof.
  unfold shown, strip_tombstoned_fields. intros [H1 H2]%andb_true_iff.
  rewrite (get_filter_fst (fun k => negb (is_shadow_sibling_key k))) by done.
  destruct (bm_get tn (retired_field_names_by_type db)) as [l|]; [|done].
  by rewrite (get_filter_fst (fun k => negb (existsb (beqb k) l))).
Qed.

(** An object whose field passes the comparison. *)
Definition obj_passes (f : bytes) (P : Value -> bool) (ob : Obj) : bool :=
  match bm_get f (obj_fields ob) with Some v => P v | None => false end.

(** The scan returns the objects of the type that pass, all of them without a
    limit and the first ones with a limit. *)
Definition filters (m : bmap bytes) (tn f : bytes) (P : Value -> bool) (run : option Z -> eres (list Obj)) : Prop :=
  exists objs all, scan_type db m tn = EOk objs /\ all ≡ₚ List.filter (obj_passes f P) objs /\
    forall limit, (forall k, limit = Some k -> 0 <= k) -> run limit = EOk (take (Z.to_nat (cap limit)) all).

Section store.
Hypothesis Hdb : db_ok db.
Variables (n : list Z) (r : Reader).
Hypothesis Hst : store_ok db n (rd_map r).
Hypothesis Hr : reader_ok db zone_extract r.
Variables (tn : bytes) (td : TypeDef) (tid : Z) (f : bytes) (fd : FieldDef).
Hypothesis Htid : resolve_type_id db tn = EOk tid.
Hypothesis Htd : get_type (schema db) tn = Some td.
Hypothesis Hfd : get_field td f = Some fd.
Hypothesis Hshown : shown tn f = true.

Lemma Ht : type_of db tn td tid.
Proof. split; [done|by apply resolve_ok]. Qed.

Notation rows := (object_rows (rd_map r) tid).

Lemma filter_field_ok : filter_field db tn f = EOk fd.
Proof. unfold filter_field, schema_type. rewrite Htd. cbn [ok_or mbind eres_bind]. by rewrite Hfd. Qed.

Lemma object_rows_ok e : In e rows ->
  (8 <= List.length (fst e))%nat /\ decodes e /\ extract_field (snd e) f = bm_get f (row_fields e).
Proof.
  destruct e as [k c]. intros H. destruct (object_row db n (rd_map r) Hst tn td tid Ht k c H) as (o & fm & _ & -> & _ & _ & Hd & _ & Hx).
  cbn [fst snd]. split_and!; [|by exists fm|].
  - unfold KeyBuilder.object. rewrite !length_app, length_be64. cbn. lia.
  - rewrite Hx. unfold row_fields. cbn [snd]. by rewrite Hd.
Qed.

Lemma scan_type_rows : scan_type db (rd_map r) tn = EOk (map (row_obj db tn) rows).
Proof.
  unfold scan_type. rewrite Htid. cbn [mbind eres_bind]. apply decode_rows_spec. intros e He. by apply object_rows_ok in He as (? & ? & _).
Qed.

Lemma passing_objects P :
  List.filter (obj_passes f P) (map (row_obj db tn) rows) = map (row_obj db tn) (List.filter (row_passes f P) rows).
Proof.
  induction rows as [|e l IH]; [done|]. cbn [map List.filter].
  assert (E : obj_passes f P (row_obj db tn e) = row_passes f P e) by (unfold obj_passes, row_passes; cbn [obj_fields row_obj]; by rewrite shown_get).
  rewrite E. destruct (row_passes f P e); cbn [map]; by rewrite IH.
Qed.

(** A scan is right when it returns passing rows of the objects or of an index
    of them. *)
Lemma filters_rows P l (run : option Z -> eres (list Obj)) :
  map (row_obj db tn) l ≡ₚ map (row_obj db tn) (List.filter (row_passes f P) rows) ->
  (forall limit, (forall k, limit = Some k -> 0 <= k) -> run limit = EOk (map (row_obj db tn) (take (Z.to_nat (cap limit)) l))) ->
  filters (rd_map r) tn f P run.
Proof.
  intros Hp Hrun. exists (map (row_obj db tn) rows), (map (row_obj db tn) l). split; [apply scan_type_rows|]. split.
  - by rewrite passing_objects.
  - intros limit Hl. rewrite Hrun by done. f_equal. symmetry. apply firstn_map.
Qed.

Lemma fallback_filters P : filters (rd_map r) tn f P (fun limit => filter_scan_fallback db r tn f limit P).
Proof.
  eapply filters_rows; [reflexivity|]. intros limit _. unfold filter_scan_fallback. rewrite Htid. cbn [mbind eres_bind].
  rewrite filter_rows_spec by apply object_rows_ok. by rewrite Z.sub_0_r.
Qed.

Lemma filters_ext m P P' run run' : (forall limit, run limit = run' limit) -> 
  filters m tn f P run -> (forall v, P v = P' v) -> filters m tn f P' run'.
Proof.
  intros Hrun (objs & all & H1 & H2 & H3) HP. exists objs, all. split_and!; [done| |intros; rewrite <- Hrun; by apply H3].
  rewrite H2. erewrite filter_ext; [reflexivity|]. intros ob. unfold obj_passes. by case_match.
Qed.

(** *** Index walks *)

Lemma field_unique fd' : In fd' (fields td) -> fd_name fd' = f -> fd' = fd.
Proof.
  intros Hin Hn. destruct (ok_fields db Hdb tn td Htd) as (Hnd & _). apply get_field_name in Hfd as [Hf Hin'].
  rewrite <- Hn in Hf. clear -Hnd Hin Hin' Hf. induction (fields td) as [|a l IH]; [done|].
  cbn [map] in Hnd. apply NoDup_cons in Hnd as [Hx Hd]. rewrite list_elem_of_In in Hx.
  destruct Hin as [->|Hin], Hin' as [->|Hin']; [done| | |by apply IH].
  - exfalso. apply Hx. rewrite <- Hf. by apply in_map.
  - exfalso. apply Hx. rewrite Hf. by apply in_map.
Qed.

Lemma find_indexed_spec ifd : find_indexed db tn f = Some ifd ->
  In ifd (ifields db tn) /\ if_name ifd = f /\ if_kind ifd = indexed_kind (field_type fd).
Proof.
  unfold find_indexed. destruct (bm_get tn (indexed_fields db)) as [l|] eqn:El; [|done]. cbn [mbind option_bind]. intros H.
  apply find_some in H as [H1 H2]. destruct (beqb_spec (if_name ifd) f) as [Hn|]; [|done].
  assert (Hin : In ifd (ifields db tn)) by (unfold ifields; by rewrite El). split_and!; [done..|].
  destruct (ifields_spec db tn td ifd Hdb Htd Hin) as (fd' & Hfd' & _ & E1 & E2 & _). rewrite E2. f_equal. f_equal.
  apply field_unique; congruence.
Qed.

(** A value some object of the type has in the field. *)
Definition held (v : Value) : Prop := exists o fm, obj (rd_map r) tid o = Some fm /\ bm_get f fm = Some v.

Lemma held_typed v : held v -> value_ok v /\ validate_value fd v = true.
Proof.
  intros (o & fm & Hob & Hv). destruct (object_row_in db n (rd_map r) Hst tid o fm Hob) as (c & Hin & Hd).
  destruct (object_row db n (rd_map r) Hst tn td tid Ht _ _ Hin) as (o' & fm' & _ & _ & _ & _ & Hd' & Hok & _).
  assert (fm' = fm) as -> by congruence. destruct (proj2 Hok _ _ Hv) as [Hv1 (fd' & Hf' & Hv2)]. split; [done|congruence].
Qed.

Lemma object_row_held e v : In e rows -> bm_get f (row_fields e) = Some v -> held v.
Proof.
  destruct e as [k c]. intros He Hv. destruct (object_row db n (rd_map r) Hst tn td tid Ht k c He) as (o & fm & _ & _ & _ & Hob & Hd & _).
  unfold row_fields in Hv. cbn [snd] in Hv. rewrite Hd in Hv. by exists o, fm.
Qed.

Lemma index_row_held ifd e v : In ifd (ifields db tn) -> In e (index_rows (rd_map r) tid ifd) -> bm_get f (row_fields e) = Some v -> held v.
Proof.
  destruct e as [k c]. intros Hi He Hv.
  destruct (index_row db Hdb n (rd_map r) Hst tn td tid Ht ifd k c Hi He) as (o & fm & _ & _ & _ & Hob & Hd & _).
  unfold row_fields in Hv. cbn [snd] in Hv. rewrite Hd in Hv. by exists o, fm.
Qed.

(** The rows that pass a test on their keys are those whose value passes. *)
Lemma index_filters ifd P (pass : bytes * bytes -> bool) (run : option Z -> eres (list Obj)) : find_indexed db tn f = Some ifd ->
  (forall v, held v -> P v = true -> is_null v = false /\ is_Some (ibody (if_kind ifd) v)) ->
  (forall e, In e (index_rows (rd_map r) tid ifd) -> pass e = row_passes f P e) ->
  (forall limit, (forall k, limit = Some k -> 0 <= k) -> run limit
     = EOk (map (row_obj db tn) (take (Z.to_nat (cap limit)) (List.filter pass (index_rows (rd_map r) tid ifd))))) ->
  filters (rd_map r) tn f P run.
Proof.
  intros Hf HP Hpass Hrun. apply find_indexed_spec in Hf as (Hi & Hn & _).
  eapply filters_rows; [|exact Hrun]. rewrite (filter_ext_in pass (row_passes f P)) by done. rewrite <- Hn.
  apply (index_rows_objects db Hdb n (rd_map r) Hst tn td tid Ht ifd Hi P). intros o fm v Hob Hv. apply HP. rewrite Hn in Hv. by exists o, fm.
Qed.

Lemma fixed_filters ifd op t P : find_indexed db tn f = Some ifd -> fixed_kind (if_kind ifd) = true -> is_u64 t ->
  (forall v, held v -> P v = true -> is_null v = false /\ is_Some (ibody (if_kind ifd) v)) ->
  (forall v c, held v -> fixed_code v = Some c -> compare_int c op t = P v) ->
  filters (rd_map r) tn f P (filter_scan_via_index db r tn tid (if_field_id ifd) op (be64 t)).
Proof.
  intros Hf Hk Hu HP Hc. pose proof Hf as (Hi & Hn & _)%find_indexed_spec.
  apply (index_filters ifd P (code_passes tid ifd op t)); [done|done| |].
  - intros e He. destruct (fixed_row db Hdb n (rd_map r) Hst tn td tid Ht ifd Hi e Hk He) as (o & v & c & _ & Huc & Hv & _ & _ & _ & Ec & E).
    unfold code_passes, row_passes. rewrite Hn in Hv. rewrite E, key_code_fixed, Hv by done. apply Hc; [|done]. by eapply index_row_held.
  - intros limit Hl. by apply (via_index_rows db Hdb n (rd_map r) Hst tn td tid Ht ifd Hi zone_extract r Hr eq_refl Hk op t Hu).
Qed.

Lemma var_filters ifd op t P : find_indexed db tn f = Some ifd -> fixed_kind (if_kind ifd) = false ->
  (forall v, held v -> P v = true -> is_null v = false /\ is_Some (ibody (if_kind ifd) v)) ->
  (forall v b, held v -> is_Some (ibody (if_kind ifd) v) -> var_bytes v = Some b -> compare_ord b op t = P v) ->
  filters (rd_map r) tn f P (filter_scan_via_index_var db r tn tid (if_field_id ifd) op (encode_bytes_for_index t)).
Proof.
  intros Hf Hk HP Hc. pose proof Hf as (Hi & Hn & _)%find_indexed_spec.
  apply (index_filters ifd P (enc_passes tid ifd op t)); [done|done| |].
  - intros e He. destruct (var_row db Hdb n (rd_map r) Hst tn td tid Ht ifd Hi Hk e He) as (o & v & b & _ & Hv & Hb & Hbody & E).
    unfold enc_passes, row_passes. rewrite Hn in Hv. rewrite E, key_enc_var, Hv, compare_encoded. apply Hc; [|by rewrite Hbody|done].
    by eapply index_row_held.
  - intros limit Hl. by apply (via_index_var_rows db Hdb n (rd_map r) Hst tn td tid Ht ifd Hi zone_extract r Hr eq_refl Hk op t).
Qed.

(** *** Integers *)

Lemma value_passes_compare v op t e : encode_int_for_zone v = Some e -> value_passes_int_predicate v op t = compare_int (from_be e) op t.
Proof.
  unfold value_passes_int_predicate, compare_int, compare_ord_by. intros ->.
  destruct op; destruct (Z.compare_spec (from_be e) t); lia.
Qed.

(** An integer field's values and a target in its range have codes that compare
    as they do. *)
Lemma int_codes target tv : is_i64 target -> typed_target (field_type fd) target = Some tv ->
  exists t, is_u64 t /\ encode_int_for_zone tv = Some (be64 t) /\ fixed_kind (indexed_kind (field_type fd)) = true /\
    forall v op, value_ok v -> validate_value fd v = true ->
      if is_null v then passes_int op target v = false /\ encode_int_for_zone v = None
      else exists c, is_u64 c /\ fixed_code v = Some c /\ encode_int_for_zone v = Some (be64 c) /\
        ibody (indexed_kind (field_type fd)) v = Some (be64 c ++ [SEPARATOR]) /\ compare_int c op t = passes_int op target v.
Proof.
  intros Ht64 Htt. unfold is_i64, validate_value in *.
  assert (Hs : forall a b op, compare_int (a + 2 ^ 63) op (b + 2 ^ 63) = compare_int a op b).
  { intros a b op. unfold compare_int. by rewrite !(Z.add_comm _ (2 ^ 63)), Z.add_compare_mono_l. }
  destruct (field_type fd) as [st| |]; [|done..].
  assert (Hcase : (exists k, (k = 0 \/ k = 2 ^ 63) /\ is_u64 (target + k) /\ encode_int_for_zone tv = Some (be64 (target + k)) /\
    indexed_kind (Scalar st) = KInteger /\
    forall v, value_ok v -> scalar_matches st v = true -> exists z, fixed_code v = Some (z + k) /\ is_u64 (z + k) /\
      encode_int_for_zone v = Some (be64 (z + k)) /\ forall op, passes_int op target v = compare_int z op target)).
  { destruct st; cbn [typed_target] in Htt; try done;
      repeat match type of Htt with (if ?b then _ else _) = _ => destruct b eqn:?; [|done] end; injection Htt as <-;
      [exists 0|exists 0|exists (2 ^ 63)|exists (2 ^ 63)|exists (2 ^ 63)];
      (split; [auto|split; [unfold is_u64; lia|]]); cbn [encode_int_for_zone];
      rewrite ?Z.add_0_r, ?signed_code by (unfold is_i64; lia);
      (split; [done|split; [done|]]); intros v Hv Hm; destruct v; try done; cbn [value_ok] in Hv; unfold is_u32, is_u64, is_i32, is_i64 in *;
      eexists; (split; [cbn [fixed_code]; f_equal; by rewrite ?Z.add_0_r|split; [lia|split; [|done]]]); cbn [encode_int_for_zone];
      rewrite ?Z.add_0_r, ?signed_code by (unfold is_i64; lia); done. }
  destruct Hcase as (k & Hk & Hu & He & Hkind & Hv). exists (target + k). rewrite Hkind. split_and!; try done.
  intros v op Hvo Hval. destruct (is_null v) eqn:En; [by destruct v|].
  destruct (Hv v Hvo Hval) as (z & Hc & Huc & Hez & Hp). exists (z + k). split_and!; try done.
  - unfold ibody. cbn [encode_fixed]. rewrite Hez. by destruct v.
  - rewrite Hp. destruct Hk as [->| ->]; [by rewrite !Z.add_0_r|apply Hs].
Qed.

(** The zone filter keeps the rows that pass. *)
Lemma zone_row e v op t w : is_Some (bm_get (qualified tn f) (field_ids db)) -> field_is_zone_eligible fd = true -> In e rows ->
  bm_get f (row_fields e) = Some v -> encode_int_for_zone v = Some w -> compare_int (from_be w) op t = true ->
  zone_satisfies zone_extract {| fp_field_id := zone_field_id db tid f; fp_op := op; fp_target := t |} e.
Proof.
  intros [fid Hfid] Hel He Hv Hw Hc. destruct e as [k c].
  destruct (object_row db n (rd_map r) Hst tn td tid Ht k c He) as (o & fm & _ & -> & _ & _ & Hd & _).
  set (entries := zone_entries tn (field_ids db) (fields td)).
  assert (Hin : In (f, as_u32 fid) entries).
  { apply list_elem_of_In, list_elem_of_omap. exists fd. pose proof Hfd as [Hn Hin]%get_field_name. split; [by apply list_elem_of_In|].
    rewrite Hel, Hn, Hfid. done. }
  assert (Hget : lookup_get tid (build_zone_field_id_lookup (schema db) (type_ids db) (field_ids db)) = Some entries).
  { apply (zone_fold_get (type_ids db) (field_ids db) tn td tid).
    - apply Hdb.
    - apply bm_get_in; [apply Hdb|]. by apply types_get.
    - apply Ht.
    - intros n' Hn'. eapply ok_type_inj; [done|done|apply Ht].
    - intros E. change (entries = []) in E. by rewrite E in Hin. }
  assert (Hz : exists z, zone_field_id db tid f = z /\ In (f, z) entries).
  { unfold zone_field_id. rewrite Hget. cbn [mbind option_bind].
    destruct (find (fun e => beqb (fst e) f) entries) as [[g z]|] eqn:Ef.
    - exists z. split; [done|]. apply find_some in Ef as [H1 H2]. cbn [fst] in H2. by destruct (beqb_spec g f); subst.
    - exfalso. apply (find_none _ _ Ef) in Hin. cbn [fst] in Hin. by destruct (beqb_spec f f). }
  destruct Hz as (z & Ez & Hz). exists w. cbn [fp_field_id fp_op fp_target fst snd]. split; [|done]. rewrite Ez. unfold zone_extract.
  assert (Ed : deserialize_fields c = Ok fm).
  { unfold decoded, des in Hd. destruct (deserialize_fields c); try done. cbn in Hd. congruence. }
  assert (Ex : do_extract_zone_fields (build_zone_field_id_lookup (schema db) (type_ids db) (field_ids db)) (KeyBuilder.object tid o) c
    = Ok (omap (fun nf => v ← bm_get (fst nf) fm; e ← encode_int_for_zone v; Some (snd nf, e)) entries)).
  { change (KeyBuilder.object tid o) with (x6f :: x3a :: be64 tid ++ [SEPARATOR] ++ be64 o). unfold do_extract_zone_fields.
    rewrite (proj2 (Nat.ltb_ge _ _)) by (rewrite length_app, length_be64; lia).
    rewrite take_app_length' by (by rewrite length_be64). rewrite from_be64 by (eapply ok_type_u64; [done|apply Ht]).
    rewrite Hget, Ed. done. }
  rewrite Ex. apply list_elem_of_In, list_elem_of_omap. exists (f, z). split; [by apply list_elem_of_In|]. cbn [fst snd].
  unfold row_fields in Hv. cbn [snd] in Hv. rewrite Hd in Hv. cbn [default id] in Hv. rewrite Hv. cbn [mbind option_bind]. by rewrite Hw.
Qed.

Hypothesis Hid : is_Some (bm_get (qualified tn f) (field_ids db)).

Lemma typed_target_eligible target tv : typed_target (field_type fd) target = Some tv -> field_is_zone_eligible fd = true.
Proof. unfold field_is_zone_eligible. destruct (field_type fd) as [st| |]; try done. by destruct st. Qed.

Lemma zone_filters op target tv t : typed_target (field_type fd) target = Some tv ->
  (forall v, held v -> value_passes_int_predicate v op t = passes_int op target v) ->
  filters (rd_map r) tn f (passes_int op target) (fun limit =>
    filter_rows db tn f limit (fun v => value_passes_int_predicate v op t)
      (rd_filtered r (KeyBuilder.object_prefix tid) {| fp_field_id := zone_field_id db tid f; fp_op := op; fp_target := t |}) 0).
Proof.
  intros Htt Hp. destruct (ro_filtered _ _ _ Hr (KeyBuilder.object_prefix tid)
    {| fp_field_id := zone_field_id db tid f; fp_op := op; fp_target := t |}) as (keep & Ek & Hkeep); [constructor|].
  fold rows in Ek, Hkeep. eapply filters_rows; [reflexivity|]. intros limit _. rewrite Ek.
  rewrite filter_rows_spec by (intros e [He _]%filter_In; by apply object_rows_ok). rewrite Z.sub_0_r, filter_filter.
  do 3 f_equal. apply filter_ext_in. intros e He. unfold row_passes. destruct (bm_get f (row_fields e)) as [v|] eqn:Ev; [|apply andb_false_r].
  rewrite Hp by (by eapply object_row_held). destruct (passes_int op target v) eqn:Epass; [|apply andb_false_r]. rewrite andb_true_r.
  apply Hkeep; [done|]. rewrite <- Hp in Epass by (by eapply object_row_held).
  destruct (encode_int_for_zone v) as [w|] eqn:Ew; [|unfold value_passes_int_predicate in Epass; by rewrite Ew in Epass].
  eapply zone_row; [done|by eapply typed_target_eligible|done|done|done|]. by rewrite <- (value_passes_compare v op t w).
Qed.

Lemma int_filters op target : is_i64 target ->
  filters (rd_map r) tn f (passes_int op target) (filter_scan_at db r tn f op target).
Proof.
  intros H64. unfold filter_scan_at. rewrite Htid. cbn [mbind eres_bind]. rewrite filter_field_ok. cbn [mbind eres_bind].
  destruct (typed_target (field_type fd) target) as [tv|] eqn:Ett; [|apply fallback_filters].
  destruct (int_codes target tv H64 Ett) as (t & Hu & He & Hk & Hc). rewrite He. cbn [idx mbind eres_bind]. rewrite from_be64 by done.
  assert (Hv : forall v, held v -> value_passes_int_predicate v op t = passes_int op target v).
  { intros v [Hvo Hval]%held_typed. specialize (Hc v op Hvo Hval). destruct (is_null v).
    - destruct Hc as [-> Hn]. unfold value_passes_int_predicate. by rewrite Hn.
    - destruct Hc as (c & Huc & _ & Hn & _ & <-). by rewrite (value_passes_compare v op t _ Hn), from_be64. }
  destruct (find_indexed db tn f) as [ifd|] eqn:Ei; [|by eapply zone_filters].
  pose proof (find_indexed_spec ifd Ei) as (_ & _ & Hkind). apply fixed_filters; [done|by rewrite Hkind|done|..].
  - intros v [Hvo Hval]%held_typed Hpass. specialize (Hc v op Hvo Hval). destruct (is_null v); [by destruct Hc; congruence|].
    destruct Hc as (c & _ & _ & _ & Hb & _). rewrite Hkind, Hb. done.
  - intros v c [Hvo Hval]%held_typed Hfc. specialize (Hc v op Hvo Hval). destruct (is_null v) eqn:En; [by destruct v|].
    destruct Hc as (c' & _ & Hfc' & _ & _ & <-). by assert (c' = c) as -> by congruence.
Qed.

(** The other comparisons use an index only of their own kind. *)
Lemma find_kind_spec kind ifd : find_kind db tn f kind = Some ifd -> find_indexed db tn f = Some ifd /\ if_kind ifd = kind.
Proof.
  unfold find_kind. destruct (find_indexed db tn f) as [i|]; [|done]. cbn [mbind option_bind]. case_decide; [|done]. by intros [= <-].
Qed.

Lemma bool_filters op target : filters (rd_map r) tn f (passes_bool op target) (filter_scan_bool_at db r tn f op target).
Proof.
  unfold filter_scan_bool_at. rewrite Htid. cbn [mbind eres_bind]. rewrite filter_field_ok. cbn [mbind eres_bind].
  destruct (find_kind db tn f KBool) as [ifd|] eqn:Ei; [|apply fallback_filters]. apply find_kind_spec in Ei as [Ei Hk].
  assert (Et : encode_bool_for_index (VBool target) = Some (be64 (if target then 1 else 0))) by (by destruct target).
  rewrite Et. cbn [idx mbind eres_bind]. apply fixed_filters; [done|by rewrite Hk|unfold is_u64; case_match; lia|..].
  - intros v _ Hp. rewrite Hk. by destruct v.
  - intros v c Hh Hc. apply held_typed in Hh as [_ Hval]. apply find_indexed_spec in Ei as (_ & _ & Hkind). rewrite Hk in Hkind.
    unfold validate_value in Hval. destruct (is_null v) eqn:En; [by destruct v|]. destruct (field_type fd) as [st| |]; try done.
    destruct st; try done; destruct v; try done. cbn [fixed_code] in Hc. injection Hc as <-. done.
Qed.

Lemma str_filters op target : filters (rd_map r) tn f (passes_str op target) (filter_scan_str_at db r tn f op target).
Proof.
  unfold filter_scan_str_at. rewrite Htid. cbn [mbind eres_bind]. rewrite filter_field_ok. cbn [mbind eres_bind].
  destruct (find_kind db tn f KString) as [ifd|] eqn:Ei; [|apply fallback_filters]. apply find_kind_spec in Ei as [Ei Hk].
  apply var_filters; [done|by rewrite Hk|..]; rewrite Hk.
  - intros v _ Hp. by destruct v.
  - intros v b _ [x Hx] Hb. destruct v; try done. cbn [var_bytes] in Hb. by injection Hb as ->.
Qed.

Lemma bytes_filters op target : filters (rd_map r) tn f (passes_bytes op target) (filter_scan_bytes db r tn f op target).
Proof.
  unfold filter_scan_bytes. rewrite Htid. cbn [mbind eres_bind]. rewrite filter_field_ok. cbn [mbind eres_bind].
  destruct (find_kind db tn f KBytes) as [ifd|] eqn:Ei; [|apply fallback_filters]. apply find_kind_spec in Ei as [Ei Hk].
  apply var_filters; [done|by rewrite Hk|..]; rewrite Hk.
  - intros v _ Hp. by destruct v.
  - intros v b _ [x Hx] Hb. destruct v; try done. cbn [var_bytes] in Hb. by injection Hb as ->.
Qed.

(** The index of a float field files NaN above all numbers and the two zeros
    apart: a value it compares as the numbers do. *)
Definition float_plain (target : Z) (v : Value) : Prop :=
  forall a, float_bits v = Some a -> is_nan a = false /\ (f64_mag a = 0 -> f64_mag target = 0 -> a = target).

Lemma float_filters op target : is_u64 target -> is_nan target = false -> (forall v, held v -> float_plain target v) ->
  filters (rd_map r) tn f (passes_float op target) (filter_scan_float_at db r tn f op target).
Proof.
  intros Hu Hnan Hplain. unfold filter_scan_float_at. rewrite Htid. cbn [mbind eres_bind]. rewrite filter_field_ok. cbn [mbind eres_bind].
  destruct (is_float (field_type fd)) eqn:Ef; [|apply fallback_filters].
  destruct (find_kind db tn f KFloat) as [ifd|] eqn:Ei; [|apply fallback_filters]. apply find_kind_spec in Ei as [Ei Hk].
  destruct (float_code target Hu) as [-> Hut]. apply fixed_filters; [done|by rewrite Hk|done|..].
  - intros v Hh Hp. apply held_typed in Hh as [_ Hval]. unfold validate_value in Hval. rewrite Hk.
    destruct (is_null v) eqn:En; [by destruct v|]. destruct (field_type fd) as [st| |]; try done. split; [done|].
    destruct st; try done; destruct v; try done; by eexists.
  - intros v c Hh Hc. pose proof (Hplain v Hh) as Hpl. apply held_typed in Hh as [Hvo Hval].
    assert (Hb : exists a, float_bits v = Some a /\ is_u64 a /\ c = f64_rank a + 2 ^ 63 /\
      passes_float op target v = compare_partial (f64_of a) op (f64_of target)).
    { unfold validate_value in Hval. destruct (is_null v) eqn:En; [by destruct v|]. destruct (field_type fd) as [st| |]; try done.
      destruct st; try done; destruct v; try done; cbn [fixed_code] in Hc; injection Hc as <-; cbn [value_ok] in Hvo; eexists; split_and!; try done.
      by apply f32_to_f64_u64. }
    destruct Hb as (a & Ha & Hua & -> & ->). destruct (Hpl a Ha) as [Hna Hz].
    unfold compare_partial, f_eq, f_lt, f_le, f_gt, f_ge, compare_int. rewrite !(f64_compare_rank a target) by done.
    rewrite !(Z.add_comm _ (2 ^ 63)), Z.add_compare_mono_l.
    destruct ((f64_mag a =? 0) && (f64_mag target =? 0)) eqn:Ez; [|by destruct op, (f64_rank a ?= f64_rank target)].
    apply andb_true_iff in Ez as [E1%Z.eqb_eq E2%Z.eqb_eq]. rewrite (Hz E1 E2), Z.compare_refl. by destruct op.
Qed.

End store.


End props.

(** ** Witness *)

(** A reader of a map: full scans cut by the limit. *)
Definition map_reader (m : bmap bytes) : Reader := {|
  rd_map := m;
  rd_limited p k := take (Z.to_nat k) (rows_under p m);
  rd_from p s k := take (Z.to_nat k) (bm_range s (rows_under p m));
  rd_filtered p pred := rows_under p m;
  rd_chunk p s k :=
    let rows := bm_range s (rows_under p m) in let w := take (Z.to_nat k) rows in
    {| cs_live := w; cs_high_water := fst <$> last w; cs_more := (List.length w <? List.length rows)%nat; cs_visited := List.length w |} |}.

Lemma map_reader_ok db extract m : reader_ok db extract (map_reader m).
Proof.
  split; [done|done|]. intros p pred _. exists (fun _ => true). split; [|done]. cbn [rd_filtered map_reader rd_map]. by rewrite filter_all_true.
Qed.

(** Three users, two of whom are over thirty. *)
Definition person (age : Z) (email : bytes) : FieldMap := [(bs "age", VI64 age); (bs "email", VString email)].

Definition filter_actions : list eaction :=
  [EBegin; EStage 0 (RCreate ∅ (bs "User") [(1, person 40 (bs "a@x")); (2, person (-3) (bs "b@x")); (3, person 31 (bs "c@x"))]); ECommit 0].

Definition filter_sys : @engine_sys unit :=
  Eval vm_compute in default (einit [] 0 tt) (erun no_store [] demo_db (einit [] 0 tt) filter_actions).

Lemma filter_sys_ok : store_ok demo_db (used_ids filter_sys) (view [] filter_sys 1).
Proof.
  apply (view_ok demo_db demo_db_ok no_store [] [] 0 tt filter_sys 1 empty_ok ltac:(by vm_compute)).
  apply (erun_steps no_store [] demo_db _ filter_actions). by vm_compute.
Qed.

