(* ===== verification/ScanChunks.v ===== *)
(** * Chunked scans visit a type once

    The loop over [scan_chunk] that the export and the bulk passes run, on a
    reader whose chunks are windows of the raw rows, tombstones included. *)

From Stdlib Require Import ZArith Lia Bool List Strings.Byte Strings.String Sorting.Sorted.
From stdpp Require Import base tactics option list sorting gmap.
From S2P Require Import Prelude ByteMap Keys Versioned MemTable Layers Lsm Utf8 Values Schema IndexKeys Posting Store Fulltext.
From S2P Require Import Engine EngineEdges EngineOps EngineInv EngineSystem EngineDemo FilterScan FilterSpec FilterProps.

Local Open Scope Z_scope.
Local Open Scope bytes_scope.

Definition raw_under (p : bytes) (raw : bmap MemValue) : bmap MemValue := List.filter (fun e => starts_with (fst e) p) raw.

(** The chunks of the reader are windows of [raw], the keys of the snapshot with
    the deleted ones. *)
Record chunks_ok (r : Reader) (raw : bmap MemValue) : Prop := {
  co_sorted : bsorted raw;
  co_live p : live_rows (raw_under p raw) = rows_under p (rd_map r);
  co_chunk p s k : p `prefix_of` s -> 0 < k ->
    let w := take (Z.to_nat k) (bm_range s (raw_under p raw)) in
    cs_live (rd_chunk r p s k) = live_rows w /\ cs_high_water (rd_chunk r p s k) = fst <$> last w /\
    cs_visited (rd_chunk r p s k) = List.length w /\
    (cs_more (rd_chunk r p s k) = false -> w = bm_range s (raw_under p raw));
}.

Lemma live_rows_app a b : live_rows (a ++ b) = live_rows a ++ live_rows b.
Proof. induction a as [|[k [x|]] a IH]; cbn [app live_rows]; [done|by rewrite IH|done]. Qed.

Section chunks.
Context {J : Json} {T : TextLib} {L : EngineLib} {LL : EngineLibLaws L}.
Variable db : Database.
Hypothesis Hdb : db_ok db.
Variables (n : list Z) (r : Reader) (raw : bmap MemValue).
Hypothesis Hst : store_ok db n (rd_map r).
Hypothesis Hc : chunks_ok r raw.
Variables (tn : bytes) (td : TypeDef) (tid : Z).
Hypothesis Htid : resolve_type_id db tn = EOk tid.
Hypothesis Htd : get_type (schema db) tn = Some td.

Notation rows := (raw_under (KeyBuilder.object_prefix tid) raw).

(** Every key of the type, deleted ones included, has an id above zero. *)
Hypothesis Hids : forall k x, In (k, x) rows -> exists o, 0 < o /\ is_u64 o /\ k = KeyBuilder.object tid o.

Lemma key_id_object o : is_u64 o -> key_id (KeyBuilder.object tid o) = o.
Proof. intros Ho. unfold KeyBuilder.object. by rewrite !app_assoc, key_id_app. Qed.

Lemma object_cmp o o' : is_u64 o -> is_u64 o' -> bytes_cmp (KeyBuilder.object tid o) (KeyBuilder.object tid o') = (o ?= o').
Proof. intros Ho Ho'. unfold KeyBuilder.object. by rewrite !bytes_cmp_app, be64_compare. Qed.

(** The rows split at a cursor. *)
Definition split_at (cursor : Z) (pre rem : bmap MemValue) : Prop :=
  rows = pre ++ rem /\ Forall (fun e => key_id (fst e) <= cursor) pre /\ Forall (fun e => cursor < key_id (fst e)) rem.

Lemma split_range cursor pre rem s : split_at cursor pre rem ->
  (forall o, 0 < o -> is_u64 o -> bleb s (KeyBuilder.object tid o) = (cursor <? o)) -> bm_range s rows = rem.
Proof.
  intros (E & Hp & Hr) Hs. unfold bm_range. rewrite E, List.filter_app.
  assert (Hin : forall e, In e (pre ++ rem) -> bleb s (fst e) = (cursor <? key_id (fst e))).
  { intros [k x] He. rewrite <- E in He. destruct (Hids k x He) as (o & Ho & Hu & ->). cbn [fst]. rewrite key_id_object by done. by apply Hs. }
  rewrite List.Forall_forall in Hp, Hr.
  rewrite (filter_ext_in _ (fun _ => false) pre), filter_none.
  - apply filter_all_true. intros e He. rewrite Hin by (apply in_or_app; by right). apply Z.ltb_lt. by apply Hr.
  - intros e He. rewrite Hin by (apply in_or_app; by left). apply Z.ltb_ge. by apply Hp.
Qed.

Lemma rows_sorted : bsorted rows.
Proof. apply bsorted_filter, Hc. Qed.

(** The next split, after a window. *)
Lemma split_next cursor pre rem w rest k x : split_at cursor pre rem -> rem = (w ++ [(k, x)]) ++ rest ->
  split_at (key_id k) (pre ++ w ++ [(k, x)]) rest.
Proof.
  intros (E & Hp & Hr) ->. rewrite List.Forall_forall in Hp, Hr. pose proof rows_sorted as Hs. rewrite E in Hs.
  assert (Hin : forall e, In e (pre ++ (w ++ [(k, x)]) ++ rest) -> exists o, is_u64 o /\ fst e = KeyBuilder.object tid o).
  { intros [k' x'] He. rewrite <- E in He. destruct (Hids k' x' He) as (o & _ & Hu & ->). by exists o. }
  assert (Hk : In (k, x) ((w ++ [(k, x)]) ++ rest)) by (apply in_or_app; left; apply in_or_app; right; by left).
  assert (Hlt : forall a b, In a (pre ++ (w ++ [(k, x)]) ++ rest) -> In b (pre ++ (w ++ [(k, x)]) ++ rest) -> fst a <b fst b ->
    key_id (fst a) < key_id (fst b)).
  { intros a b Ha Hb. destruct (Hin a Ha) as (o & Ho & ->), (Hin b Hb) as (o' & Ho' & ->). unfold blt. rewrite object_cmp, !key_id_object by done.
    by intros ?%Z.compare_lt_iff. }
  split; [by rewrite E, <- !app_assoc|]. split; apply List.Forall_forall; intros e He.
  - apply in_app_or in He as [He|He].
    + specialize (Hp e He). specialize (Hr _ Hk). cbn [fst] in Hr. lia.
    + apply in_app_or in He as [He|[<-|[]]]; [|done]. apply Z.lt_le_incl, (Hlt e (k, x)).
      * apply in_or_app; right; apply in_or_app; left; apply in_or_app; by left.
      * apply in_or_app; by right.
      * apply bsorted_app in Hs as (_ & Hs & _). apply bsorted_app in Hs as (Hs & _ & _). apply bsorted_app in Hs as (_ & _ & Hs).
        apply (Hs e (k, x)); [done|by left].
  - apply (Hlt (k, x) e).
    + apply in_or_app; by right.
    + apply in_or_app; right; apply in_or_app; by right.
    + apply bsorted_app in Hs as (_ & Hs & _). apply bsorted_app in Hs as (_ & _ & Hs). apply Hs; [apply in_or_app; right; by left|done].
Qed.

(** What a chunk holds and where the next one starts. *)
Lemma scan_chunk_step cursor pre rem size : 0 <= cursor -> is_u64 cursor -> 0 < size -> split_at cursor pre rem ->
  exists chunk, scan_chunk db r tn cursor size = EOk chunk /\
    oc_objects chunk = map (row_obj db tn) (live_rows (take (Z.to_nat size) rem)) /\
    match oc_next_cursor chunk, oc_more chunk with
    | Some next, true => exists pre' rem', rem = take (Z.to_nat size) rem ++ rem' /\ is_u64 next /\ 0 <= next /\
        split_at next pre' rem' /\ (List.length rem' < List.length rem)%nat
    | _, _ => take (Z.to_nat size) rem = rem
    end.
Proof.
  intros H0 Hu Hsz Hsp. unfold scan_chunk. rewrite Htid. cbn [mbind eres_bind].
  set (p := KeyBuilder.object_prefix tid). destruct (Z.eqb_spec cursor u64_max) as [->|Hmax].
  { assert (rem = []) as ->.
    { destruct rem as [|[k x] rem]; [done|]. exfalso. destruct Hsp as (E & _ & Hr). apply Forall_cons in Hr as [Hr _]. cbn [fst] in Hr.
      destruct (Hids k x) as (o & _ & Ho & ->); [rewrite E; apply in_or_app; right; by left|].
      rewrite key_id_object in Hr by done. unfold is_u64, u64_max in *. lia. }
    eexists. split; [done|]. rewrite take_nil. done. }
  set (start := if cursor =? 0 then p else KeyBuilder.object tid (cursor + 1)).
  assert (Hrange : bm_range start rows = rem).
  { apply (split_range cursor pre rem start Hsp). intros o Ho Huo. subst start. destruct (Z.eqb_spec cursor 0) as [->|Hne].
    - rewrite (proj2 (Z.ltb_lt 0 o)) by done. destruct (bleb_spec p (KeyBuilder.object tid o)) as [|Hn]; [done|]. exfalso. apply Hn.
      apply prefix_ble. unfold p, KeyBuilder.object_prefix, KeyBuilder.object. exists (be64 o). by rewrite <- !app_assoc.
    - unfold bleb. rewrite object_cmp by (unfold is_u64, u64_max in *; lia).
      destruct (Z.compare_spec (cursor + 1) o), (Z.ltb_spec cursor o); lia. }
  assert (Hps : p `prefix_of` start).
  { subst start. case_match; [done|]. unfold p, KeyBuilder.object_prefix, KeyBuilder.object. eexists. by rewrite <- !app_assoc. }
  destruct (co_chunk _ _ Hc p start size Hps Hsz) as (E1 & E2 & _ & E3). fold p in Hrange. rewrite Hrange in *.
  assert (Hin : incl (live_rows (take (Z.to_nat size) rem)) (object_rows (rd_map r) tid)).
  { intros [k x] Hx. unfold object_rows. rewrite <- (co_live _ _ Hc). apply live_rows_in. apply live_rows_in in Hx.
    destruct Hsp as (E & _). rewrite E. apply in_or_app. right. by eapply in_take. }
  rewrite E1, decode_rows_spec.
  2:{ intros e He. apply Hin in He. by eapply (object_rows_ok db n r Hst tn td tid []) in He as (? & ? & _). }
  cbn [mbind eres_bind]. eexists. split; [done|]. cbn [oc_objects oc_next_cursor oc_more]. split; [done|]. rewrite E2.
  destruct (last (take (Z.to_nat size) rem)) as [[k x]|] eqn:El; cbn [fmap option_fmap option_map fst].
  2:{ apply last_None in El. destruct rem as [|e rem]; [done|]. destruct (Z.to_nat size) eqn:Ez; [lia|done]. }
  destruct (cs_more _) eqn:Em; [|by apply E3].
  apply last_Some in El as [w Ew]. exists (pre ++ w ++ [(k, x)]), (drop (Z.to_nat size) rem).
  assert (Erem : rem = (w ++ [(k, x)]) ++ drop (Z.to_nat size) rem) by (by rewrite <- Ew, take_drop).
  split; [by rewrite take_drop|]. destruct (Hids k x) as (o & Ho & Huo & ->).
  { destruct Hsp as (E & _). rewrite E, Erem. apply in_or_app. right. apply in_or_app. left. apply in_or_app. right. by left. }
  rewrite key_id_object by done. split_and!; [done|lia| |].
  - pose proof (split_next cursor pre rem w _ _ x Hsp Erem) as Hnext. by rewrite key_id_object in Hnext.
  - rewrite length_drop. assert (List.length rem <> 0)%nat by (rewrite Erem, !length_app; cbn; lia). lia.
Qed.

Lemma export_objects_rows fuel : forall cursor pre rem size, 0 <= cursor -> is_u64 cursor -> 0 < size -> split_at cursor pre rem ->
  (List.length rem < fuel)%nat -> export_objects db fuel r tn cursor size = EOk (map (row_obj db tn) (live_rows rem)).
Proof.
  induction fuel as [|fuel IH]; intros cursor pre rem size H0 Hu Hsz Hsp Hlen; [lia|]. cbn [export_objects].
  destruct (scan_chunk_step cursor pre rem size H0 Hu Hsz Hsp) as (chunk & -> & Eo & Hn). cbn [mbind eres_bind]. rewrite Eo.
  destruct (oc_next_cursor chunk) as [next|]; [|by rewrite Hn]. destruct (oc_more chunk); [|by rewrite Hn].
  destruct Hn as (pre' & rem' & Er & Hu' & H0' & Hsp' & Hl). rewrite (IH next pre' rem' size) by (done || lia). cbn [mbind eres_bind].
  rewrite Er at 2. by rewrite live_rows_app, map_app.
Qed.

Lemma start_split : split_at 0 [] rows.
Proof.
  split; [done|]. split; [constructor|]. apply List.Forall_forall. intros [k x] He. destruct (Hids k x He) as (o & Ho & Hu & ->).
  cbn [fst]. by rewrite key_id_object.
Qed.

(** C21: chunked scans visit every object once.  On a store that satisfies the
    invariant, whose chunks are windows of the raw keys of the snapshot and whose
    object ids are above zero, the loop that reads a type in chunks of any
    positive size and resumes after the highest id visited ends within one more
    chunk than there are raw keys, and returns exactly the objects of the whole
    scan, in id order, whatever runs of deleted ids the chunks straddle. *)
Theorem chunks_visit_all size fuel : 0 < size -> (List.length rows < fuel)%nat ->
  export_objects db fuel r tn 0 size = scan_type db (rd_map r) tn.
Proof.
  intros Hsz Hf. rewrite (export_objects_rows fuel 0 [] rows size ltac:(done) ltac:(unfold is_u64; lia) Hsz start_split Hf).
  rewrite (scan_type_rows db n r Hst tn td tid [] Htid Htd). by rewrite (co_live _ _ Hc).
Qed.

End chunks.

(** ** Witness *)

Definition all_live (m : bmap bytes) : bmap MemValue := map (fun e => (fst e, Some (snd e))) m.

Lemma live_all m : live_rows (all_live m) = m.
Proof. unfold all_live. induction m as [|[k x] m IH]; [done|]. cbn [map live_rows fst snd]. by rewrite IH. Qed.

Lemma filter_all_live (P : bytes -> bool) m :
  List.filter (fun e => P (fst e)) (all_live m) = all_live (List.filter (fun e => P (fst e)) m).
Proof. unfold all_live. induction m as [|[k x] m IH]; [done|]. cbn [map List.filter fst snd]. destruct (P k); cbn [map fst snd]; by rewrite IH. Qed.

Lemma map_reader_chunks m : bsorted m -> chunks_ok (map_reader m) (all_live m).
Proof.
  intros Hs. assert (Hrange : forall p s, bm_range s (raw_under p (all_live m)) = all_live (bm_range s (rows_under p m))).
  { intros p s. unfold raw_under, rows_under, bm_range. rewrite (filter_all_live (fun u => starts_with u p)).
    by rewrite (filter_all_live (fun u => bleb s u)). }
  split.
  - clear Hrange. induction Hs as [|e m Hs IH Hall]; [constructor|]. constructor; [done|]. rewrite List.Forall_forall in *. intros x Hx.
    apply in_map_iff in Hx as (y & <- & Hy). by apply Hall.
  - intros p. unfold raw_under. rewrite (filter_all_live (fun u => starts_with u p)). apply live_all.
  - intros p s k _ Hk w. subst w. rewrite Hrange. cbn [rd_chunk map_reader cs_live cs_high_water cs_more]. unfold all_live. rewrite firstn_map.
    fold (all_live (take (Z.to_nat k) (bm_range s (rows_under p m)))). rewrite live_all. cbn [cs_visited]. split_and!; [done| |by unfold all_live; rewrite length_map|].
    + destruct (last (take (Z.to_nat k) (bm_range s (rows_under p m)))) as [e|] eqn:El.
      * apply last_Some in El as [l ->]. unfold all_live. rewrite map_app. cbn [map]. by rewrite last_snoc.
      * apply last_None in El. by rewrite El.
    + intros Hm%Nat.ltb_ge. rewrite length_take in Hm. unfold all_live. rewrite take_ge by lia. done.
Qed.

Lemma chunks_visit_all_witness :
  export_objects demo_db 4 (map_reader (view [] filter_sys 1)) (bs "User") 0 2 = scan_type demo_db (view [] filter_sys 1) (bs "User").
Proof.
  destruct (get_type demo_schema (bs "User")) as [td|] eqn:Etd; [|by vm_compute in Etd].
  apply (chunks_visit_all demo_db (used_ids filter_sys) (map_reader (view [] filter_sys 1)) (all_live (view [] filter_sys 1)) filter_sys_ok
    (map_reader_chunks _ (so_sorted _ _ _ filter_sys_ok)) (bs "User") td 1).
  - by vm_compute.
  - exact Etd.
  - intros k x Hin. assert (Hk : In k [KeyBuilder.object 1 1; KeyBuilder.object 1 2; KeyBuilder.object 1 3]).
    { apply (in_map fst) in Hin. vm_compute in Hin. vm_compute. exact Hin. }
    destruct Hk as [<-|[<-|[<-|[]]]]; eexists; (split; [|split; [|reflexivity]]); unfold is_u64; lia.
  - lia.
  - vm_compute. lia.
Defined.
