(* ===== verification/FilterStore.v ===== *)
(** * The storage behind the filters

    The [Reader] of FilterScan on an LSM tree at a version.  Its full scans are
    always those of the live rows; its limited scans are prefixes of them when no
    tombstone is visible, and its filtered scans keep every match when each key
    has one version: what the filters rely on holds of a store that was only
    inserted into, and of one that was compacted. *)

From Stdlib Require Import ZArith Lia Bool List Strings.Byte Strings.String Sorting.Sorted.
From stdpp Require Import base tactics option list gmap.
From S2P Require Import Prelude ByteMap Keys Versioned MemTable Extern Wal Mvcc Zone Sst SstReader SstRead Layers SstFilter.
From S2P Require Import Lsm LsmReads LsmCompact LsmFilter Utf8 Values Schema IndexKeys Posting Store Fulltext.
From S2P Require Import Engine EngineEdges EngineInv EngineUpdate EngineDemo FilterScan FilterSpec FilterProps ScanChunks.

Local Open Scope Z_scope.
Local Open Scope bytes_scope.

Definition ok_or_else {A} (d : A) (x : res A) : A := match x with Ok a => a | _ => d end.

Definition no_chunk : ChunkScan := {| cs_live := []; cs_high_water := None; cs_more := false; cs_visited := 0 |}.

(** ** Windows of live rows *)

Lemma take_live_rows k (l : list (bytes * MemValue)) :
  (forall u, ~ In (u, None) (take k l)) -> take k (live_rows l) = live_rows (take k l).
Proof.
  revert k. induction l as [|[u [x|]] l IH]; intros [|k] H; [done..|done| |done|].
  - cbn [live_rows firstn]. f_equal. apply IH. intros u' Hu. apply (H u'). by right.
  - exfalso. apply (H u). by left.
Qed.

Lemma limited_window k rs : Forall bsorted rs -> (forall u, ~ In (u, None) (merge rs)) ->
  take k (live_rows (merge (map (take k) rs))) = take k (live_rows (merge rs)).
Proof.
  intros Hs Hn. rewrite !take_live_rows; [by rewrite merge_window|..].
  - intros u Hu%in_take. by apply (Hn u).
  - rewrite merge_window by done. intros u Hu%in_take. by apply (Hn u).
Qed.

(** ** The keys of the engine *)

Lemma encode_fixed_length {J : Json} kind v e : encode_fixed kind v = Some e -> List.length e = 8%nat.
Proof.
  destruct kind; cbn [encode_fixed]; try done; destruct v; cbn; try done; intros [= <-]; try apply length_be64; try (by destruct b);
    unfold encode_f64_for_index; case_match; apply length_be64.
Qed.

(** Object rows and index rows are those the engine builds; no key is empty. *)
Definition engine_rows {J : Json} (db : Database) (es : list entry) : Prop := forall e, In e es ->
  euk e <> [] /\
  (in_family Keys.Object (euk e) -> exists t o, euk e = KeyBuilder.object t o) /\
  (in_family FieldIndex (euk e) -> exists tn td tid ifd v o, type_of db tn td tid /\ In ifd (ifields db tn) /\
     build_field_index_key tid (if_field_id ifd) (if_kind ifd) v o = Some (euk e)).

Lemma prefix_head (k p : bytes) : k <> [] -> k `prefix_of` p -> head k = head p.
Proof. intros Hk [z ->]. by destruct k. Qed.

Section keys.
Context {J : Json} {T : TextLib} {L : EngineLib}.
Variable db : Database.
Hypothesis Hdb : db_ok db.

(** An index key that starts a longer key of a field is a key of that field. *)
Lemma index_key_field tn td tid ifd v o k t f z : type_of db tn td tid -> In ifd (ifields db tn) ->
  build_field_index_key tid (if_field_id ifd) (if_kind ifd) v o = Some k ->
  k `prefix_of` KeyBuilder.field_index_prefix t f ++ z -> is_u64 t -> is_u64 f ->
  exists b, ibody (if_kind ifd) v = Some b /\ tid = t /\ if_field_id ifd = f /\ (b ++ be64 o) `prefix_of` z.
Proof.
  intros Ht Hi Hk [y Hy] Hut Huf. rewrite build_key_body in Hk. destruct (ibody _ v) as [b|]; [|done].
  cbn [fmap option_fmap option_map] in Hk. apply (inj Some) in Hk. subst k. exists b. split; [done|].
  unfold KeyBuilder.field_index_prefix in Hy. rewrite <- !app_assoc in Hy. symmetry in Hy. split_key Hy.
  apply be64_inj in E; [|by eapply (ok_type_u64 db Hdb), Ht|done].
  apply be64_inj in E0; [|by eapply ifield_u64; [..|apply Ht|]|done]. split_and!; [done..|]. exists y. by rewrite <- Hy, <- app_assoc.
Qed.

Lemma ifields_type tn ifd : In ifd (ifields db tn) -> exists td, get_type (schema db) tn = Some td.
Proof.
  unfold ifields. destruct (bm_get tn (indexed_fields db)) as [l|] eqn:El; [|done]. intros _.
  destruct (build_indexed_get _ _ _ tn l (ok_indexed db Hdb) El) as (td & Hin & _). exists td. by apply in_types.
Qed.

Lemma same_ifield tn td t ifd tn' ifd' : type_of db tn td t -> bm_get tn' (type_ids db) = Some t ->
  In ifd (ifields db tn) -> In ifd' (ifields db tn') -> if_field_id ifd = if_field_id ifd' -> ifd = ifd'.
Proof.
  intros Ht Ht' Hi Hi' E. assert (tn' = tn) as -> by (eapply ok_type_inj; [done|done|apply Ht]).
  eapply ifield_by_id; [done|apply Ht|done..].
Qed.

Lemma fixed_body kind v b : fixed_kind kind = true -> ibody kind v = Some b -> exists e, encode_fixed kind v = Some e /\ b = e ++ [SEPARATOR].
Proof.
  intros Hk Hb. unfold ibody in Hb. destruct kind; try done; destruct (encode_fixed _ v) as [e|]; try done; cbn in Hb;
    injection Hb as <-; by exists e.
Qed.

Lemma var_body kind v b : fixed_kind kind = false -> ibody kind v = Some b -> exists x, b = encode_bytes_for_index x.
Proof. intros Hk Hb. unfold ibody in Hb. destruct kind; try done; destruct v; try done; injection Hb as <-; by eexists. Qed.

Lemma engine_rows_prefix es p : engine_rows db es -> filter_prefix db p -> no_strict_prefix p es.
Proof.
  intros Hes Hp e He Hpre. exfalso. destruct (Hes e He) as (Hne & Ho & Hx). pose proof (prefix_head _ _ Hne Hpre) as Hh.
  destruct Hp as [t|t f|tn t ifd c Ht Hi Hk|tn t ifd b Ht Hi Hk].
  - destruct Ho as (t' & o & E); [exact Hh|]. apply prefix_length in Hpre. rewrite E in Hpre.
    unfold KeyBuilder.object, KeyBuilder.object_prefix in Hpre. rewrite !length_app, !length_be64 in Hpre. cbn in Hpre. lia.
  - destruct Hx as (tn & td & tid & ifd & v & o & _ & _ & Hk); [exact Hh|]. rewrite build_key_body in Hk.
    destruct (ibody _ v) as [b|]; [|done]. cbn [fmap option_fmap option_map] in Hk. apply (inj Some) in Hk.
    apply prefix_length in Hpre. rewrite <- Hk in Hpre. unfold KeyBuilder.field_index_prefix in Hpre.
    rewrite !length_app, !length_be64 in Hpre. cbn in Hpre. lia.
  - destruct Hx as (tn' & td & tid & ifd' & v & o & Ht' & Hi' & Hk'); [exact Hh|].
    assert (Hpre' : euk e `prefix_of` KeyBuilder.field_index_prefix t (if_field_id ifd) ++ be64 c ++ [SEPARATOR])
      by (unfold KeyBuilder.field_index_value_prefix, KeyBuilder.field_index_prefix in *; by rewrite <- !app_assoc).
    destruct (ifields_type tn ifd Hi) as (td0 & Ht0).
    destruct (index_key_field tn' td tid ifd' v o _ t (if_field_id ifd) _ Ht' Hi' Hk' Hpre') as (b & Hb & -> & Hf & Hlen);
      [by eapply (ok_type_u64 db Hdb)|by eapply ifield_u64|].
    assert (ifd' = ifd) as -> by (eapply same_ifield; done).
    apply prefix_length in Hlen. apply fixed_body in Hb as (x & Hb & ->); [|done]. apply encode_fixed_length in Hb.
    rewrite !length_app, !length_be64, Hb in Hlen. cbn in Hlen. lia.
  - destruct Hx as (tn' & td & tid & ifd' & v & o & Ht' & Hi' & Hk'); [exact Hh|].
    assert (Hpre' : euk e `prefix_of` KeyBuilder.field_index_prefix t (if_field_id ifd) ++ encode_bytes_for_index b)
      by (unfold KeyBuilder.field_index_var_value_prefix, KeyBuilder.field_index_prefix in *; by rewrite <- !app_assoc).
    destruct (ifields_type tn ifd Hi) as (td0 & Ht0).
    destruct (index_key_field tn' td tid ifd' v o _ t (if_field_id ifd) _ Ht' Hi' Hk' Hpre') as (b' & Hb & -> & Hf & Hlen);
      [by eapply (ok_type_u64 db Hdb)|by eapply ifield_u64|].
    assert (ifd' = ifd) as -> by (eapply same_ifield; done).
    apply var_body in Hb as (x & ->); [|done]. destruct Hlen as [z Hz]. rewrite <- app_assoc in Hz.
    destruct (decide (b = x)) as [->|Hn].
    + apply (f_equal List.length) in Hz. rewrite !length_app, length_be64 in Hz. lia.
    + pose proof (encode_bytes_order b x [] (be64 o ++ z) Hn) as Hc. rewrite app_nil_r, Hz, bytes_cmp_refl in Hc.
      by symmetry in Hc; apply bytes_cmp_eq in Hc.
Qed.
End keys.

Section lsm.
Context {E : Extern} {EL : ExternLaws E} {SM : SkipMap MemValue} {SML : SkipMapLaws SM}.

Definition lsm_reader (t : LsmTree) (v : Z) : Reader := {|
  rd_map := ok_or_else [] (scan_prefix_at t v []);
  rd_limited p k := ok_or_else [] (scan_prefix_at_limited t v p k);
  rd_from p s k := ok_or_else [] (scan_from_at_limited t v p s k);
  rd_filtered p pred := ok_or_else [] (scan_prefix_filtered_at t v p pred);
  rd_chunk p s k := ok_or_else no_chunk (scan_chunk_raw t v p s k) |}.

(** At the version no tombstone is visible, and no key has two versions. *)
Definition no_tombstones (es : list entry) (v : Z) : Prop := forall k, visible es k v <> Some None.

Definition one_version (es : list entry) (v : Z) : Prop :=
  forall e e', In e es -> In e' es -> euk e = euk e' -> ever e <= v -> ever e' <= v -> e = e'.

Section reader.
Context (db : Database).
Variables (t : LsmTree) (ess : list (list entry)) (v : Z).
Hypothesis Ht : tree_repr t ess.
Hypothesis Hf : prefix_free (contents t ess).
Hypothesis Hp : forall p, filter_prefix db p -> no_strict_prefix p (contents t ess).

Notation es := (contents t ess).
Notation live := (live_map es v).

Lemma lsm_reader_map : rd_map (lsm_reader t v) = live.
Proof.
  cbn [rd_map lsm_reader]. rewrite (lsm_scan_rows t ess) by (done || intros e _ He; by apply prefix_nil_inv in He).
  cbn [ok_or_else]. unfold rows_under. apply filter_all_true. intros e _. apply starts_with_true. apply prefix_nil.
Qed.

(** A scan's raw rows and the live map. *)
Lemma answer_live p s raw : scan_answer es p s v raw -> live_rows raw = bm_range s (rows_under p live).
Proof.
  intros [Hs Ha]. apply bm_ext; [by apply live_rows_sorted|apply bsorted_filter, bsorted_filter, live_map_sorted|]. intros k.
  unfold bm_range. rewrite (bm_get_filter (fun u => bleb s u)). unfold rows_under. rewrite (bm_get_filter (fun u => starts_with u p)), live_map_get.
  destruct (bm_get k (live_rows raw)) as [x|] eqn:Eg.
  - apply bm_get_in in Eg; [|by apply live_rows_sorted]. apply live_rows_in, Ha in Eg as (H1 & H2 & ->).
    rewrite (proj2 (starts_with_true k p) H1). by destruct (bleb_spec s k).
  - destruct (bleb_spec s k) as [Hle|]; [|done]. destruct (starts_with k p) eqn:Ep; [|done]. apply starts_with_true in Ep.
    destruct (visible es k v) as [[x|]|] eqn:Ev; [|done..]. exfalso.
    apply (proj1 (bm_get_none k (live_rows raw)) Eg x). by apply live_rows_in, Ha.
Qed.

Lemma range_prefix p : bm_range p (rows_under p live) = rows_under p live.
Proof. apply filter_all_true. intros e He. apply filter_In in He as [_ He%starts_with_true]. destruct (bleb_spec p (fst e)) as [|Hn]; [done|]. by destruct Hn; apply prefix_ble. Qed.

Lemma prefix_max_rows p k : filter_prefix db p -> 0 <= k ->
  exists rs, layer_rows t (fun s => sst_scan_prefix_max s p v k) (fun m => mem_scan_prefix_max m p v k) = Ok (map (take (Z.to_nat k)) rs) /\
    scan_answer es p p v (merge rs) /\ Forall bsorted rs.
Proof.
  intros Hfp Hk. apply layer_rows_answer; [done|..].
  - intros s bs Hr Hl. destruct (sst_scan_prefix_answer s bs Hr p v) as (r & E1 & H1); [by eapply prefix_free_layer|].
    exists r. split; [|done]. by apply sst_scan_prefix_max_take.
  - intros mt Hl. eexists. split; [by apply mem_scan_prefix_max_take|]. apply mem_scan_prefix_answer.
    + by eapply mem_layer_wf.
    + by eapply prefix_free_layer.
    + intros e He. apply (Hp p Hfp). by eapply layer_incl.
Qed.

Hypothesis Hnt : no_tombstones es v.

Lemma answer_no_tombstones p s raw u : scan_answer es p s v raw -> ~ In (u, None) raw.
Proof. intros [_ Ha] Hin. apply Ha in Hin as (_ & _ & Hv). by apply (Hnt u). Qed.

Lemma lsm_limited p k : filter_prefix db p -> 0 <= k ->
  rd_limited (lsm_reader t v) p k = take (Z.to_nat k) (rows_under p live).
Proof.
  intros Hfp Hk. cbn [rd_limited lsm_reader]. unfold scan_prefix_at_limited. destruct (Z.eqb_spec k 0) as [->|Hne]; [done|].
  destruct (prefix_max_rows p k Hfp Hk) as (rs & -> & Ha & Hs). cbn [mbind res_bind ok_or_else].
  rewrite limited_window; [|done|intros u; by eapply answer_no_tombstones]. by rewrite (answer_live p p), range_prefix.
Qed.

Lemma lsm_from p s k : p `prefix_of` s -> 0 <= k ->
  rd_from (lsm_reader t v) p s k = take (Z.to_nat k) (bm_range s (rows_under p live)).
Proof.
  intros Hps Hk. cbn [rd_from lsm_reader]. unfold scan_from_at_limited. destruct (Z.eqb_spec k 0) as [->|Hne]; [done|].
  destruct (scan_from_rows t ess p s v k Ht Hf Hps ltac:(lia)) as (rs & -> & Ha & Hs). cbn [mbind res_bind ok_or_else].
  rewrite limited_window; [|done|intros u; by eapply answer_no_tombstones]. by rewrite (answer_live p s).
Qed.

(** *** Filtered scans *)

Hypothesis Hone : one_version es v.

Lemma one_version_visible e : In e es -> ever e <= v -> best es (euk e) v = Some (ever e, snd e).
Proof.
  intros He Hv. destruct (best es (euk e) v) as [[w m]|] eqn:Eb.
  - apply best_some in Eb as ((e' & He' & Hk & Hw & Hm) & Hle & _). assert (e' = e) as -> by (apply Hone; done || lia). by subst.
  - apply (proj1 (best_none es (euk e) v)) with (e := e) in Eb; [lia|done|done].
Qed.

Lemma op_holds_compare op a b : op_holds op a b = compare_int a op b.
Proof. unfold op_holds, compare_int, compare_ord_by. destruct op; destruct (Z.compare_spec a b); lia. Qed.

Variable extract : ZoneFieldExtractor.
(** Every file was written with the extractor, and spreads no key over three blocks. *)
Hypothesis Hzones : forall pred, Forall2 (sst_zoned pred (satisfies (Some extract) pred)) (sst_files t) ess.
(** The extractor reads the user key of an internal key. *)
Hypothesis Hext : forall e x, In e es -> incl (extract (euk e) x) (extract (fst e) x).

Lemma zone_satisfies_entry pred e x : In e es -> snd e = Some x -> zone_satisfies extract pred (euk e, x) -> satisfies (Some extract) pred e.
Proof.
  intros He Hx (w & Hw & Hc). exists (from_be w). rewrite op_holds_compare. split; [|done].
  unfold zone_values. rewrite Hx. apply in_map_iff. exists (fp_field_id pred, w). split; [done|].
  apply list_elem_of_In, list_elem_of_filter. split; [done|]. apply list_elem_of_In. by apply Hext.
Qed.

Lemma lsm_filtered p pred : filter_prefix db p -> exists keep,
  rd_filtered (lsm_reader t v) p pred = List.filter keep (rows_under p live) /\
  forall e, In e (rows_under p live) -> zone_satisfies extract pred e -> keep e = true.
Proof.
  intros Hfp.
  destruct (filtered_rows t ess p v pred (satisfies (Some extract) pred) Ht Hf (Hp p Hfp) (Hzones pred)) as (rows & Er & Hs & Hc & Hsound).
  cbn [rd_filtered lsm_reader]. rewrite Er. cbn [ok_or_else].
  assert (Hlive : forall u x, In (u, x) (rows_under p live) <-> p `prefix_of` u /\ visible es u v = Some (Some x)).
  { intros u x. unfold rows_under. rewrite filter_In, starts_with_true, <- bm_get_in by apply live_map_sorted. cbn [fst].
    rewrite live_map_get. destruct (visible es u v) as [[y|]|]; cbn [default]; naive_solver. }
  exists (fun e => bool_decide (bm_get (fst e) rows = Some (snd e))). split.
  - apply bm_ext; [done|apply bsorted_filter, bsorted_filter, live_map_sorted|]. intros k.
    set (F := List.filter _ _). assert (HF : forall x, In (k, x) F <-> In (k, x) rows).
    { intros x. unfold F. rewrite filter_In, bool_decide_eq_true, bm_get_in by done. split; [tauto|]. intros Hin. split; [|done].
      apply Hlive. destruct (Hsound k x Hin) as (e & He & <- & Hx & Hv & Hpre). split; [done|]. unfold visible.
      rewrite one_version_visible by done. cbn. by rewrite Hx. }
    assert (HFs : bsorted F) by apply bsorted_filter, bsorted_filter, live_map_sorted.
    apply option_eq. intros x. by rewrite !bm_get_in, HF by done.
  - intros [u x] Hin Hz. apply bool_decide_eq_true. apply bm_get_in; [done|]. cbn [fst snd].
    apply Hlive in Hin as [Hpre Hv]. unfold visible in Hv. destruct (best es u v) as [[w m]|] eqn:Eb; [|done]. cbn in Hv. injection Hv as ->.
    pose proof Eb as ((e & He & <- & <- & Hx) & _)%best_some. apply (Hc e x); [done..|]. by eapply zone_satisfies_entry.
Qed.

Lemma lsm_reader_exact : reader_ok db extract (lsm_reader t v).
Proof.
  split.
  - intros p k Hfp Hk. rewrite lsm_reader_map. by apply lsm_limited.
  - intros p s k _ Hps Hk. rewrite lsm_reader_map. by apply lsm_from.
  - intros p pred Hfp. rewrite lsm_reader_map. by apply lsm_filtered.
Qed.
End reader.

(** *** Chunks *)

Lemma lsm_chunks_ok t ess v : tree_repr t ess -> prefix_free (contents t ess) ->
  exists raw, scan_answer (contents t ess) [] [] v raw /\ chunks_ok (lsm_reader t v) raw.
Proof.
  intros Ht Hf. destruct (scan_prefix_rows t ess [] v Ht Hf) as (rs & _ & Ha & _).
  { intros e _ He. by apply prefix_nil_inv in He. }
  exists (merge rs). split; [done|].
  assert (Hsub : forall p s, scan_answer (contents t ess) p s v (bm_range s (raw_under p (merge rs)))).
  { intros p s. destruct Ha as [Hs Ha]. split; [apply bsorted_filter, bsorted_filter, Hs|]. intros u m. unfold bm_range, raw_under.
    rewrite !filter_In, starts_with_true, Ha. cbn [fst]. destruct (bleb_spec s u); split; try tauto.
    - intros (H1 & _ & H3). split_and!; try done; [apply prefix_nil|apply ble_nil].
    - by intros [_ ?]. }
  assert (Hpre : forall p, bm_range p (raw_under p (merge rs)) = raw_under p (merge rs)).
  { intros p. apply filter_all_true. intros e He. apply filter_In in He as [_ He%starts_with_true].
    destruct (bleb_spec p (fst e)) as [|Hn]; [done|]. by destruct Hn; apply prefix_ble. }
  split; [apply Ha|..].
  - intros p. rewrite (lsm_reader_map t ess v Ht Hf). rewrite <- Hpre, (answer_live t ess v _ _ _ (Hsub _ _)). apply range_prefix.
  - intros p s k Hps Hk w. destruct (chunk_rows t ess p s v k Ht Hf Hps Hk) as (raw & chunk & Hr & Ec & E1 & E2 & Ev & E3).
    subst w. cbn [rd_chunk lsm_reader]. rewrite Ec. cbn [ok_or_else].
    rewrite (scan_answer_unique _ _ _ _ _ _ (Hsub p s) Hr). by split_and!.
Qed.

End lsm.

(** ** Witness *)

(** A memtable with an object and the index row of its field. *)
Definition tree_object : bytes := KeyBuilder.object 1 7.
Definition tree_index : bytes := KeyBuilder.field_index 1 22 (be64 (2 ^ 63 + 5)) 7.

Definition filter_tree : LsmTree (SM := list_skipmap MemValue) :=
  {| config := config_new; active_memtable := lsm_mem [(tree_object, 1, Some [x01]); (tree_index, 1, Some [x02])];
     immutable_memtables := []; sst_files := []; txn_manager := tm_new; next_sst_id := 1; compaction_pending := false |}.

Definition filter_tree_entries : list entry :=
  [(InternalKey.new tree_index 1, Some [x02]); (InternalKey.new tree_object 1, Some [x01])].

Lemma filter_tree_contents : contents filter_tree [] = filter_tree_entries.
Proof. by vm_compute. Qed.

Lemma filter_tree_key e : In e filter_tree_entries -> euk e = tree_index \/ euk e = tree_object.
Proof. intros [<-|[<-|[]]]; [left|right]; by vm_compute. Qed.

Lemma filter_tree_repr : tree_repr (E := toy_extern) filter_tree [].
Proof.
  split; [constructor|]. split.
  - change (wf_entries (contents filter_tree [])). rewrite filter_tree_contents. repeat constructor; vm_compute; lia.
  - change (functional (contents filter_tree [])). rewrite filter_tree_contents. apply functional_nodup.
    apply (bool_decide_unpack (NoDup (map fst filter_tree_entries))). by vm_compute.
  - constructor; [constructor|constructor].
Qed.

Lemma filter_tree_free : prefix_free (contents filter_tree []).
Proof.
  rewrite filter_tree_contents. intros e e' [E1|E1]%filter_tree_key [E2|E2]%filter_tree_key Hne; rewrite E1, E2 in *; try done;
    split; intros [z Hz]; vm_compute in Hz; discriminate Hz.
Qed.

Lemma filter_tree_engine : engine_rows demo_db (contents filter_tree []).
Proof.
  rewrite filter_tree_contents. intros e He. apply filter_tree_key in He as [->| ->]; (split; [by vm_compute|]).
  - split; [done|]. intros _. destruct (get_type demo_schema (bs "User")) as [td|] eqn:Etd; [|by vm_compute in Etd].
    exists (bs "User"), td, 1, {| if_name := bs "age"; if_field_id := 22; if_kind := KInteger |}, (VI64 5), 7.
    split; [split; [exact Etd|by vm_compute]|]. split; [vm_compute; by left|by vm_compute].
  - split; [intros _; by exists 1, 7|done].
Qed.

(** The extractor reads the first bytes of a key. *)
Lemma zone_extract_app {J : Json} db k s x : incl (zone_extract db k x) (zone_extract db (k ++ s) x).
Proof.
  unfold zone_extract, do_extract_zone_fields. destruct k as [|a k]; [apply incl_nil_l|]. cbn [app]. destruct a; try apply incl_nil_l.
  destruct k as [|b k]; [apply incl_nil_l|]. cbn [app]. destruct b; try apply incl_nil_l.
  destruct (Nat.ltb_spec (List.length k) 8) as [|Hl]; [apply incl_nil_l|].
  rewrite (proj2 (Nat.ltb_ge _ _)) by (rewrite length_app; lia). rewrite take_app_le by lia. apply incl_refl.
Qed.

