(* ===== verification/Rules.v ===== *)
(** * Security rules (crates/rhypedb-authz/src/rules/mod.rs, rules/eval.rs, principal.rs)

    A rules program maps a type and an operation to clauses; an operation is
    allowed when one of its clauses evaluates to true for the principal and the
    object.  The evaluator reads the object through an accessor that may
    withhold data and may spend a budget while it looks: [reads R S] is the
    trait [ResourceAccessor] with the state [S] its methods change.

    The main fact is [eval_tri_below]: an accessor that answers less than the
    full facts about the object never turns a clause that is not true into a
    true one. *)

From Stdlib Require Import ZArith Lia Bool List Strings.Byte Strings.String Floats.SpecFloat.
From stdpp Require Import base tactics option list.
From S2P Require Import Prelude ByteMap Utf8 Values Ieee Serde.

Local Open Scope Z_scope.

(** ** Computations with a state that may panic *)

Definition St (S A : Type) : Type := S -> option (A * S).
#[global] Instance St_ret S : MRet (St S) := fun A a s => Some (a, s).
#[global] Instance St_bind S : MBind (St S) := fun A B f m s =>
  match m s with Some (a, s) => f a s | None => None end.

Lemma St_bind_inv {S A B} (m : St S A) (f : A -> St S B) s b s' :
  (m ≫= f) s = Some (b, s') -> exists a s1, m s = Some (a, s1) /\ f a s1 = Some (b, s').
Proof. unfold mbind, St_bind. destruct (m s) as [[a s1]|]; [eauto|done]. Qed.

(** ** The program *)

Inductive Op := ORead | OCreate | OUpdate | ODelete | OSubscribe.
#[global] Instance Op_eq_dec : EqDecision Op.
Proof. solve_decision. Defined.

Inductive Decision := DAllow | DDeny.
Definition is_allow (d : Decision) : bool := match d with DAllow => true | DDeny => false end.

Inductive CmpOp := CEq | CNe | CLt | CLe | CGt | CGe | CIn.
#[global] Instance CmpOp_eq_dec : EqDecision CmpOp.
Proof. solve_decision. Defined.

(** Numbers are the bits of an [f64]. *)
Inductive Lit := LNull | LBool (b : bool) | LNum (bits : Z) | LStr (s : bytes).

Inductive Operand :=
| Auth
| AuthUid
| AuthClaim (path : list bytes)
| ResourceScalar (field : bytes)
| ResourceRelationOne (rel target_field : bytes)
| ResourceRelationMany (rel target_field : bytes)
| RequestField (field : bytes).

Inductive Expr :=
| ELit (l : Lit)
| EOperand (o : Operand)
| ENot (x : Expr)
| EAnd (a b : Expr)
| EOr (a b : Expr)
| ECmp (lhs : Expr) (op : CmpOp) (rhs : Expr).

(** The clauses of a type by operation. *)
Definition OpClauses : Type := list (Op * list Expr).

Fixpoint op_get (op : Op) (m : OpClauses) : option (list Expr) :=
  match m with [] => None | (o, l) :: m => if decide (op = o) then Some l else op_get op m end.

Record RulesProgram := { rp_types : bmap OpClauses }.

(** ** Evaluation *)

(** [RNull] is the literal null, [RAbsent] a datum that is missing. *)
Inductive RVal := RNull | RAbsent | RPresent | RBool (b : bool) | RNum (bits : Z) | RStr (s : bytes) | RSet (l : list RVal).

Inductive Tri := TTrue | TFalse | TUnknown.
#[global] Instance Tri_eq_dec : EqDecision Tri.
Proof. solve_decision. Defined.

Definition tri_from_bool (b : bool) : Tri := if b then TTrue else TFalse.
Definition tri_not (t : Tri) : Tri := match t with TTrue => TFalse | TFalse => TTrue | TUnknown => TUnknown end.

Section rules.
Context {SJ : SerdeJson}.

Record Principal := { authenticated : bool; uid : option bytes; claims : JsonValue }.

Definition anonymous : Principal := {| authenticated := false; uid := None; claims := JNull |}.

(** Of the [sub] and the custom claims of a verified token. *)
Definition from_verified (sub : bytes) (custom : option JsonValue) : Principal :=
  {| authenticated := true; uid := Some sub; claims := default JNull custom |}.

(** The trait through which rules read the object and the write. *)
Class reads (R S : Type) := {
  resource_scalar : R -> bytes -> St S (option JsonValue);
  resource_relation_one : R -> bytes -> bytes -> St S (option JsonValue);
  resource_relation_many : R -> bytes -> bytes -> St S (option (list JsonValue));
  request_field : R -> bytes -> St S (option JsonValue);
}.

(** No data at all. *)
Inductive EmptyResource := emptyResource.
Definition empty_reads S : reads EmptyResource S := {|
  resource_scalar _ _ := mret None;
  resource_relation_one _ _ _ := mret None;
  resource_relation_many _ _ _ := mret None;
  request_field _ _ := mret None;
|}.
#[global] Existing Instance empty_reads.

Fixpoint json_to_rval (v : JsonValue) : RVal :=
  match v with
  | JNull => RAbsent
  | JBool b => RBool b
  | JNumber n => match number_as_f64 n with Some bits => RNum bits | None => RAbsent end
  | JString s => RStr s
  | JArray a => RSet (map json_to_rval a)
  | JObject _ => RPresent
  end.

Definition lit_to_rval (l : Lit) : RVal :=
  match l with LNull => RNull | LBool b => RBool b | LNum n => RNum n | LStr s => RStr s end.

Definition rval_eq (a b : RVal) : bool :=
  match a, b with
  | RNull, RNull | RPresent, RPresent => true
  | RBool x, RBool y => Bool.eqb x y
  | RNum x, RNum y => f_eq (f64_of x) (f64_of y)
  | RStr x, RStr y => beqb x y
  | _, _ => false
  end.

Definition rval_ord (a b : RVal) : option comparison :=
  match a, b with
  | RNum x, RNum y => SFcompare (f64_of x) (f64_of y)
  | RStr x, RStr y => Some (bytes_cmp x y)
  | _, _ => None
  end.

(** The claim at a path. *)
Fixpoint claim_at (cur : JsonValue) (path : list bytes) : RVal :=
  match path with
  | [] => json_to_rval cur
  | seg :: path => match json_get cur seg with Some v => claim_at v path | None => RAbsent end
  end.

Definition opt_rval (o : option JsonValue) : RVal := match o with Some v => json_to_rval v | None => RAbsent end.

Section eval.
Context {R S : Type} {A : reads R S}.
Variables (p : Principal) (r : R).

Definition resolve (o : Operand) : St S RVal :=
  match o with
  | Auth => mret (if authenticated p then RPresent else RNull)
  | AuthUid => mret (match uid p with Some s => RStr s | None => RAbsent end)
  | AuthClaim path => mret (claim_at (claims p) path)
  | ResourceScalar f => v ← resource_scalar r f; mret (opt_rval v)
  | ResourceRelationOne rel f => v ← resource_relation_one r rel f; mret (opt_rval v)
  | ResourceRelationMany rel f =>
      v ← resource_relation_many r rel f;
      mret (match v with Some items => RSet (map json_to_rval items) | None => RAbsent end)
  | RequestField f => v ← request_field r f; mret (opt_rval v)
  end.

(** The value of [e], whose truth is [tri] when it is not a leaf. *)
Definition value_of (tri : St S Tri) (e : Expr) : St S RVal :=
  match e with
  | ELit l => mret (lit_to_rval l)
  | EOperand o => resolve o
  | _ => t ← tri; mret (match t with TTrue => RBool true | TFalse => RBool false | TUnknown => RAbsent end)
  end.

Definition is_absent (v : RVal) : bool := match v with RAbsent => true | _ => false end.

Definition ord_is (o : option comparison) (f : comparison -> bool) : bool :=
  match o with Some c => f c | None => false end.

(** The comparison of two values. *)
Definition cmp_values (lv : RVal) (op : CmpOp) (rv : RVal) : Tri :=
  if is_absent lv || is_absent rv then TUnknown
  else
    tri_from_bool
      match op with
      | CEq => rval_eq lv rv
      | CNe => negb (rval_eq lv rv)
      | CLt => ord_is (rval_ord lv rv) (fun c => match c with Lt => true | _ => false end)
      | CLe => ord_is (rval_ord lv rv) (fun c => match c with Gt => false | _ => true end)
      | CGt => ord_is (rval_ord lv rv) (fun c => match c with Gt => true | _ => false end)
      | CGe => ord_is (rval_ord lv rv) (fun c => match c with Lt => false | _ => true end)
      | CIn => match rv with RSet items => existsb (rval_eq lv) items | _ => false end
      end.

(** A bare operand as a truth value. *)
Definition tri_of_rval (v : RVal) : Tri :=
  match v with
  | RBool b => tri_from_bool b
  | RPresent => TTrue
  | RNull => TFalse
  | _ => TUnknown
  end.

Fixpoint eval_tri (e : Expr) : St S Tri :=
  match e with
  | ELit (LBool b) => mret (tri_from_bool b)
  | ELit LNull => mret TFalse
  | ELit _ => mret TUnknown
  | ENot x => t ← eval_tri x; mret (tri_not t)
  | EAnd a b =>
      av ← eval_tri a;
      if decide (av = TFalse) then mret TFalse
      else
        bv ← eval_tri b;
        mret (if decide (av = TTrue /\ bv = TTrue) then TTrue else if decide (bv = TFalse) then TFalse else TUnknown)
  | EOr a b =>
      av ← eval_tri a;
      if decide (av = TTrue) then mret TTrue
      else
        bv ← eval_tri b;
        mret (if decide (bv = TTrue) then TTrue
              else if decide (av = TFalse /\ bv = TFalse) then TFalse else TUnknown)
  | ECmp lhs op rhs =>
      lv ← value_of (eval_tri lhs) lhs;
      rv ← value_of (eval_tri rhs) rhs;
      mret (cmp_values lv op rv)
  | EOperand o => v ← resolve o; mret (tri_of_rval v)
  end.

Definition eval_bool (e : Expr) : St S bool := t ← eval_tri e; mret (bool_decide (t = TTrue)).

(** The first clause that is true allows. *)
Fixpoint eval_clauses (clauses : list Expr) : St S Decision :=
  match clauses with
  | [] => mret DDeny
  | clause :: clauses => b ← eval_bool clause; if (b : bool) then mret DAllow else eval_clauses clauses
  end.

Definition clauses_of (prog : RulesProgram) (op : Op) (type_name : bytes) : option (list Expr) :=
  t ← bm_get type_name (rp_types prog); op_get op t.

Definition evaluate (prog : RulesProgram) (op : Op) (type_name : bytes) : St S Decision :=
  match clauses_of prog op type_name with
  | None => mret DDeny
  | Some clauses => eval_clauses clauses
  end.
End eval.

Definition has_clause (prog : RulesProgram) (op : Op) (type_name : bytes) : bool :=
  match clauses_of prog op type_name with Some (_ :: _) => true | _ => false end.

(** ** Withholding data *)

(** What there is to know about an object and a write, with nothing withheld. *)
Record Facts := {
  f_scalar : bytes -> option JsonValue;
  f_one : bytes -> bytes -> option JsonValue;
  f_many : bytes -> bytes -> option (list JsonValue);
  f_request : bytes -> option JsonValue;
}.

#[global] Instance facts_reads : reads Facts unit := {|
  resource_scalar F f := mret (f_scalar F f);
  resource_relation_one F rel f := mret (f_one F rel f);
  resource_relation_many F rel f := mret (f_many F rel f);
  request_field F f := mret (f_request F f);
|}.

(** The truth of an expression given the facts. *)
Definition holds (p : Principal) (F : Facts) (e : Expr) : Prop := eval_tri p F e tt = Some (TTrue, tt).

(** An answer is either withheld or the fact. *)
Definition partial {A} (answer fact : option A) : Prop := answer = None \/ answer = fact.

(** In the states of [I] the accessor answers a part of the facts. *)
Class approximates {R S} {A : reads R S} (r : R) (I : S -> Prop) (F : Facts) : Prop := {
  approx_scalar f s v s' : I s -> resource_scalar r f s = Some (v, s') -> I s' /\ partial v (f_scalar F f);
  approx_one rel f s v s' : I s -> resource_relation_one r rel f s = Some (v, s') -> I s' /\ partial v (f_one F rel f);
  approx_many rel f s v s' : I s -> resource_relation_many r rel f s = Some (v, s') -> I s' /\ partial v (f_many F rel f);
  approx_request f s v s' : I s -> request_field r f s = Some (v, s') -> I s' /\ partial v (f_request F f);
}.

(** Less known: unknown, or the same. *)
Definition tri_below (a b : Tri) : Prop := a = TUnknown \/ a = b.
Definition rval_below (a b : RVal) : Prop := a = RAbsent \/ a = b.

Lemma facts_total (p : Principal) (F : Facts) o : exists v, resolve p F o tt = Some (v, tt).
Proof. destruct o; cbn; eauto. Qed.

Lemma eval_facts_total (p : Principal) (F : Facts) e : exists t, eval_tri p F e tt = Some (t, tt).
Proof.
  assert (forall e t, eval_tri p F e tt = Some (t, tt) ->
    exists v, value_of p F (eval_tri p F e) e tt = Some (v, tt)) as Hv.
  { intros [] t H; cbn [value_of]; try (eexists; reflexivity); try apply facts_total;
      unfold mbind, St_bind; rewrite H; eexists; reflexivity. }
  induction e as [[]|o|x [t IH]|a [ta IHa] b [tb IHb]|a [ta IHa] b [tb IHb]|a [ta IHa] op b [tb IHb]];
    cbn [eval_tri]; try (eexists; reflexivity); unfold mbind, St_bind.
  - destruct (facts_total p F o) as [v ->]. by eexists.
  - rewrite IH. by eexists.
  - rewrite IHa. case_decide; [by eexists|]. rewrite IHb. by eexists.
  - rewrite IHa. case_decide; [by eexists|]. rewrite IHb. by eexists.
  - destruct (Hv a ta IHa) as [va ->], (Hv b tb IHb) as [vb ->]. by eexists.
Qed.

(** Kleene's conjunction and disjunction. *)
Definition tri_and (a b : Tri) : Tri :=
  match a, b with TFalse, _ | _, TFalse => TFalse | TTrue, TTrue => TTrue | _, _ => TUnknown end.
Definition tri_or (a b : Tri) : Tri := tri_not (tri_and (tri_not a) (tri_not b)).

Lemma eval_and_facts (p : Principal) (F : Facts) a b av bv :
  eval_tri p F a tt = Some (av, tt) -> eval_tri p F b tt = Some (bv, tt) ->
  eval_tri p F (EAnd a b) tt = Some (tri_and av bv, tt).
Proof.
  intros Ha Hb. cbn [eval_tri]. unfold mbind at 1; unfold St_bind at 1. rewrite Ha.
  case_decide; [by subst|]. unfold mbind, St_bind. rewrite Hb. by destruct av, bv.
Qed.

Lemma eval_or_facts (p : Principal) (F : Facts) a b av bv :
  eval_tri p F a tt = Some (av, tt) -> eval_tri p F b tt = Some (bv, tt) ->
  eval_tri p F (EOr a b) tt = Some (tri_or av bv, tt).
Proof.
  intros Ha Hb. cbn [eval_tri]. unfold mbind at 1; unfold St_bind at 1. rewrite Ha.
  case_decide; [by subst|]. unfold mbind, St_bind. rewrite Hb. by destruct av, bv.
Qed.

Lemma cmp_values_below lv lv' op rv rv' :
  rval_below lv lv' -> rval_below rv rv' -> tri_below (cmp_values lv op rv) (cmp_values lv' op rv').
Proof.
  intros [->| ->] [->| ->]; [by left|by left| |by right].
  left. unfold cmp_values. by rewrite orb_true_r.
Qed.

Section below.
Context {R S : Type} {A : reads R S} (r : R) (I : S -> Prop) (F : Facts) {H : approximates r I F}.
Variable p : Principal.

Lemma opt_rval_below v v' : partial v v' -> rval_below (opt_rval v) (opt_rval v').
Proof. intros [->| ->]; [by left|by right]. Qed.

Lemma resolve_below o s v s' : I s -> resolve p r o s = Some (v, s') ->
  I s' /\ exists v', resolve p F o tt = Some (v', tt) /\ rval_below v v'.
Proof.
  intros HI E. destruct o as [| |path|f|rel f|rel f|f]; cbn [resolve] in E |- *;
    try (injection E as <- <-; split; [done|]; eexists; split; [reflexivity|by right]);
    apply St_bind_inv in E as (x & s1 & E1 & E2); injection E2 as <- <-.
  - eapply approx_scalar in E1 as [? Hp]; [|done]. split; [done|]. eexists. split; [reflexivity|].
    by apply opt_rval_below.
  - eapply approx_one in E1 as [? Hp]; [|done]. split; [done|]. eexists. split; [reflexivity|].
    by apply opt_rval_below.
  - eapply approx_many in E1 as [? Hp]; [|done]. split; [done|]. eexists. split; [reflexivity|].
    destruct Hp as [->| ->]; [by left|by right].
  - eapply approx_request in E1 as [? Hp]; [|done]. split; [done|]. eexists. split; [reflexivity|].
    by apply opt_rval_below.
Qed.

(** The cases of two operands known in part. *)
Ltac kleene Ha av bv :=
  destruct av, bv; destruct Ha as [Ha|Ha]; subst; try discriminate; try done;
  first [left; reflexivity | right; reflexivity].

Definition below (e : Expr) : Prop := forall s t s', I s -> eval_tri p r e s = Some (t, s') ->
  I s' /\ exists t', eval_tri p F e tt = Some (t', tt) /\ tri_below t t'.

Lemma value_of_below e s v s' : below e -> I s -> value_of p r (eval_tri p r e) e s = Some (v, s') ->
  I s' /\ exists v', value_of p F (eval_tri p F e) e tt = Some (v', tt) /\ rval_below v v'.
Proof.
  intros Hb HI E. destruct e; cbn [value_of] in E |- *;
    try (injection E as <- <-; split; [done|]; eexists; split; [reflexivity|by right]);
    try (by eapply resolve_below); apply St_bind_inv in E as (t & s1 & E1 & E2); injection E2 as <- <-;
    destruct (Hb _ _ _ HI E1) as (HI1 & t' & E' & Ht); split; try done;
    unfold mbind at 1; unfold St_bind at 1; rewrite E'; eexists; (split; [reflexivity|]);
    destruct Ht as [->| ->]; solve [by left|by right].
Qed.

Lemma eval_tri_below e : below e.
Proof.
  induction e as [l|o|x IH|a IHa b IHb|a IHa b IHb|a IHa op b IHb]; intros s t s' HI E; cbn [eval_tri] in E.
  - destruct l; injection E as <- <-; (split; [done|]; eexists; split; [reflexivity|by right]).
  - apply St_bind_inv in E as (v & s1 & E1 & E2). injection E2 as <- <-.
    destruct (resolve_below _ _ _ _ HI E1) as (HI1 & v' & E' & Hv). split; [done|].
    cbn [eval_tri]. unfold mbind, St_bind. rewrite E'. eexists. split; [reflexivity|].
    destruct Hv as [->| ->]; [by left|by right].
  - apply St_bind_inv in E as (v & s1 & E1 & E2). injection E2 as <- <-.
    destruct (IH _ _ _ HI E1) as (HI1 & v' & E' & Hv). split; [done|].
    cbn [eval_tri]. unfold mbind, St_bind. rewrite E'. eexists. split; [reflexivity|].
    destruct Hv as [->| ->]; [by left|by right].
  - apply St_bind_inv in E as (av & s1 & E1 & E2). destruct (IHa _ _ _ HI E1) as (HI1 & av' & Ea & Ha).
    destruct (eval_facts_total p F b) as [bv' Eb]. pose proof (eval_and_facts p F a b _ _ Ea Eb) as Eab.
    case_decide as Da; [|apply St_bind_inv in E2 as (bv & s2 & E2 & E3)].
    + injection E2 as <- <-. split; [done|]. eexists. split; [exact Eab|]. subst av. by kleene Ha av' bv'.
    + injection E3 as <- <-. destruct (IHb _ _ _ HI1 E2) as (HI2 & bv1 & Eb1 & Hb).
      rewrite Eb in Eb1. injection Eb1 as <-. split; [done|]. eexists. split; [exact Eab|].
      destruct Hb as [->| ->]; by kleene Ha av' bv'.
  - apply St_bind_inv in E as (av & s1 & E1 & E2). destruct (IHa _ _ _ HI E1) as (HI1 & av' & Ea & Ha).
    destruct (eval_facts_total p F b) as [bv' Eb]. pose proof (eval_or_facts p F a b _ _ Ea Eb) as Eab.
    case_decide as Da; [|apply St_bind_inv in E2 as (bv & s2 & E2 & E3)].
    + injection E2 as <- <-. split; [done|]. eexists. split; [exact Eab|]. subst av. by kleene Ha av' bv'.
    + injection E3 as <- <-. destruct (IHb _ _ _ HI1 E2) as (HI2 & bv1 & Eb1 & Hb).
      rewrite Eb in Eb1. injection Eb1 as <-. split; [done|]. eexists. split; [exact Eab|].
      destruct Hb as [->| ->]; by kleene Ha av' bv'.
  - apply St_bind_inv in E as (lv & s1 & E1 & E2). apply St_bind_inv in E2 as (rv & s2 & E2 & E3).
    injection E3 as <- <-.
    destruct (value_of_below _ _ _ _ IHa HI E1) as (HI1 & lv' & El & Hl).
    destruct (value_of_below _ _ _ _ IHb HI1 E2) as (HI2 & rv' & Er & Hr). split; [done|].
    cbn [eval_tri]. unfold mbind, St_bind. rewrite El, Er. eexists. split; [reflexivity|]. by apply cmp_values_below.
Qed.

Lemma eval_clauses_below clauses s d s' : I s -> eval_clauses p r clauses s = Some (d, s') ->
  I s' /\ (d = DAllow -> exists e, In e clauses /\ holds p F e).
Proof.
  revert s. induction clauses as [|e clauses IH]; intros s HI E; cbn [eval_clauses] in E.
  - by injection E as <- <-.
  - apply St_bind_inv in E as (b & s1 & E1 & E2). apply St_bind_inv in E1 as (t & s2 & E1 & E3).
    injection E3 as <- <-. destruct (eval_tri_below e _ _ _ HI E1) as (HI1 & t' & Et & Ht).
    destruct (bool_decide_reflect (t = TTrue)) as [->|].
    + injection E2 as <- <-. split; [done|]. intros _. exists e. split; [by left|].
      destruct Ht as [?|<-]; [done|exact Et].
    + destruct (IH _ HI1 E2) as [? Hd]. split; [done|]. intros Ha. destruct (Hd Ha) as (e' & ? & ?).
      exists e'. split; [by right|done].
Qed.

Lemma evaluate_below prog op type_name s d s' : I s -> evaluate p r prog op type_name s = Some (d, s') ->
  I s' /\ (d = DAllow -> exists clauses e, clauses_of prog op type_name = Some clauses /\ In e clauses /\ holds p F e).
Proof.
  unfold evaluate. intros HI E. destruct (clauses_of prog op type_name) as [clauses|] eqn:C.
  - destruct (eval_clauses_below _ _ _ _ HI E) as [? Hd]. split; [done|]. intros Ha.
    destruct (Hd Ha) as (e & ? & ?). by exists clauses, e.
  - by injection E as <- <-.
Qed.

End below.
End rules.
