(* ===== verification/RulesParser.v ===== *)
(** * The text of security rules (crates/rhypedb-authz/src/rules/parse.rs)

    The lexer on the bytes of the text, the recursive-descent parser on the
    tokens, and the compiler that resolves every path against the schema.
    Errors keep their position ([usize::MAX] at the end of the input); the
    wording is left out.  Loops and the recursion of expressions run on fuel;
    [RFuel] is an exhausted one, which never happens ([compile_total]). *)

From Stdlib Require Import ZArith Lia Bool List Strings.Byte Strings.String.
From stdpp Require Import base tactics option list.
From S2P Require Import Prelude ByteMap Utf8 Schema Serde Rules.

Local Open Scope Z_scope.

(** ** Results *)

Inductive RulesError := RParse (pos : Z) | RSchema.

Inductive rres (A : Type) := ROk (a : A) | RErr (e : RulesError) | RFuel.
Arguments ROk {A} a.
Arguments RErr {A} e.
Arguments RFuel {A}.

#[global] Instance rres_ret : MRet rres := @ROk.
#[global] Instance rres_bind : MBind rres := fun A B f m =>
  match m with ROk a => f a | RErr e => RErr e | RFuel => RFuel end.

(** ** Lexer *)

Inductive Tok :=
| KMatch | KAllow | KIf | KIn | KLBrace | KRBrace | KLParen | KRParen | KColon | KSemi | KComma | KDot
| KOrOr | KAndAnd | KBang | KEqEq | KNotEq | KLt | KLe | KGt | KGe
| KIdent (s : bytes) | KStr (s : bytes) | KNum (bits : Z) | KBool (b : bool) | KNull.
#[global] Instance Tok_eq_dec : EqDecision Tok.
Proof. solve_decision. Defined.

Record Spanned := { tok : Tok; pos : Z }.

(** [u8::is_ascii_whitespace]: without the vertical tab. *)
Definition ascii_space (b : byte) : bool :=
  in_range 9 10 b || in_range 12 13 b || (b2z b =? 32).

Fixpoint skip_comment (s : bytes) (i : Z) : bytes * Z :=
  match s with
  | [] => ([], i)
  | b :: s' => if b2z b =? 10 then (s, i) else skip_comment s' (i + 1)
  end.

(** The longest prefix of bytes that satisfy [f]. *)
Fixpoint span (f : byte -> bool) (s : bytes) : bytes * bytes :=
  match s with
  | b :: s' => if f b then let '(a, r) := span f s' in (b :: a, r) else ([], s)
  | [] => ([], [])
  end.

Definition two (a b : Z) (s : bytes) : bool :=
  match s with x :: y :: _ => (b2z x =? a) && (b2z y =? b) | _ => false end.

(** Operators of two characters. *)
Definition double_tok (s : bytes) : option Tok :=
  if two 124 124 s then Some KOrOr
  else if two 38 38 s then Some KAndAnd
  else if two 61 61 s then Some KEqEq
  else if two 33 61 s then Some KNotEq
  else if two 60 61 s then Some KLe
  else if two 62 61 s then Some KGe
  else None.

Definition single_tok (c : Z) : option Tok :=
  if c =? 123 then Some KLBrace else if c =? 125 then Some KRBrace
  else if c =? 40 then Some KLParen else if c =? 41 then Some KRParen
  else if c =? 58 then Some KColon else if c =? 59 then Some KSemi
  else if c =? 44 then Some KComma else if c =? 46 then Some KDot
  else if c =? 33 then Some KBang else if c =? 60 then Some KLt
  else if c =? 62 then Some KGt else None.

(** The end of a string literal, from after its opening quote at [start]. *)
Fixpoint string_end (fuel : nat) (start : Z) (s : bytes) (i : Z) : rres (bytes * Z) :=
  match fuel with
  | O => RFuel
  | S fuel =>
      match s with
      | [] => RErr (RParse start)
      | ch :: s' =>
          if b2z ch =? 34 then ROk (s', i + 1)
          else if b2z ch =? 92 then
            match s' with
            | [] => RErr (RParse i)
            | _ :: s'' => string_end fuel start s'' (i + 2)
            end
          else string_end fuel start s' (i + 1)
      end
  end.

Definition unescape (ch : bytes) : option bytes :=
  if beqb ch (bs "n") then Some [x0a]
  else if beqb ch (bs "t") then Some [x09]
  else if beqb ch [x22] || beqb ch [x5c] then Some ch
  else None.

(** [decode_str_span], after the opening quote at [start]. *)
Fixpoint decode_str (fuel : nat) (start : Z) (s : bytes) (escaped : bool) : rres bytes :=
  match fuel with
  | O => RFuel
  | S fuel =>
      match next_char s with
      | None => RErr (RParse start)
      | Some (ch, s') =>
          if escaped then
            match unescape ch with
            | Some c => r ← decode_str fuel start s' false; ROk (c ++ r)
            | None => RErr (RParse start)
            end
          else if beqb ch [x5c] then decode_str fuel start s' true
          else if beqb ch [x22] then ROk []
          else r ← decode_str fuel start s' false; ROk (ch ++ r)
      end
  end.

Definition number_char (b : byte) : bool :=
  ascii_digit b || (b2z b =? 46) || (b2z b =? 101) || (b2z b =? 69) || (b2z b =? 43) || (b2z b =? 45).

Definition word_char (b : byte) : bool := (b2z b =? 95) || ascii_alpha b || ascii_digit b.

Definition starts_number (s : bytes) : bool :=
  match s with
  | c :: s' => ascii_digit c || ((b2z c =? 45) && match s' with d :: _ => ascii_digit d | [] => false end)
  | [] => false
  end.

Definition keyword (word : bytes) : Tok :=
  if beqb word (bs "match") then KMatch
  else if beqb word (bs "allow") then KAllow
  else if beqb word (bs "if") then KIf
  else if beqb word (bs "in") then KIn
  else if beqb word (bs "true") then KBool true
  else if beqb word (bs "false") then KBool false
  else if beqb word (bs "null") then KNull
  else KIdent word.

(** One step of the lexer at a byte that is neither space nor a comment. *)
Definition lex_token (s : bytes) (i : Z) : rres (Tok * bytes * Z) :=
  match s with
  | [] => RErr (RParse i)
  | c :: s' =>
      match double_tok s with
      | Some t => ROk (t, drop 2 s, i + 2)
      | None =>
          match single_tok (b2z c) with
          | Some t => ROk (t, s', i + 1)
          | None =>
              if b2z c =? 34 then
                '(r, j) ← string_end (S (length s')) i s' (i + 1);
                text ← decode_str (S (length s')) i s' false;
                ROk (KStr text, r, j)
              else if starts_number s then
                let '(sign, digits) := if b2z c =? 45 then ([c], s') else ([], s) in
                let '(body, r) := span number_char digits in
                match parse_f64 (sign ++ body) with
                | Some bits => ROk (KNum bits, r, i + Z.of_nat (length (sign ++ body)))
                | None => RErr (RParse i)
                end
              else if (b2z c =? 95) || ascii_alpha c then
                let '(word, r) := span word_char s in ROk (keyword word, r, i + Z.of_nat (length word))
              else RErr (RParse i)
          end
      end
  end.

Fixpoint lex (fuel : nat) (s : bytes) (i : Z) : rres (list Spanned) :=
  match fuel with
  | O => RFuel
  | S fuel =>
      match s with
      | [] => ROk []
      | c :: s' =>
          if ascii_space c then lex fuel s' (i + 1)
          else if (b2z c =? 35) || two 47 47 s then let '(r, j) := skip_comment s i in lex fuel r j
          else
            '(t, r, j) ← lex_token s i;
            toks ← lex fuel r j;
            ROk ({| tok := t; pos := i |} :: toks)
      end
  end.

(** ** Parser *)

Inductive RawExpr :=
| RawLit (l : Lit)
| RawPath (segs : list bytes) (pos : Z)
| RawNot (x : RawExpr)
| RawAnd (a b : RawExpr)
| RawOr (a b : RawExpr)
| RawCmp (a : RawExpr) (op : CmpOp) (b : RawExpr).

Record RawAllow := { ra_ops : list Op; ra_expr : RawExpr }.
Record RawStmt := { rs_type_name : bytes; rs_type_pos : Z; rs_allows : list RawAllow }.

(** A parser consumes tokens. *)
Definition P (A : Type) : Type := list Spanned -> rres (A * list Spanned).
#[global] Instance P_ret : MRet P := fun A a ts => ROk (a, ts).
#[global] Instance P_bind : MBind P := fun A B f m ts =>
  match m ts with ROk (a, ts) => f a ts | RErr e => RErr e | RFuel => RFuel end.

Definition peek_tok (ts : list Spanned) : option Tok := tok <$> head ts.
Definition peek_pos (ts : list Spanned) : Z := match ts with s :: _ => pos s | [] => u64_max end.

Definition expect (want : Tok) : P unit := fun ts =>
  match ts with
  | s :: ts => if decide (tok s = want) then ROk (tt, ts) else RErr (RParse (pos s))
  | [] => RErr (RParse u64_max)
  end.

Definition ident : P (bytes * Z) := fun ts =>
  match ts with
  | s :: ts => match tok s with KIdent x => ROk ((x, pos s), ts) | _ => RErr (RParse (pos s)) end
  | [] => RErr (RParse u64_max)
  end.

(** ["." ident]*. *)
Fixpoint path_loop (fuel : nat) : P (list bytes) := fun ts =>
  match fuel with
  | O => RFuel
  | S fuel =>
      if decide (peek_tok ts = Some KDot) then
        ('(seg, _) ← ident; segs ← path_loop fuel; mret (seg :: segs)) (drop 1 ts)
      else ROk ([], ts)
  end.

Definition cmp_tok (t : option Tok) : option CmpOp :=
  match t with
  | Some KEqEq => Some CEq | Some KNotEq => Some CNe | Some KLt => Some CLt | Some KLe => Some CLe
  | Some KGt => Some CGt | Some KGe => Some CGe | Some KIn => Some CIn | _ => None
  end.

Section expressions.
Variable u : P RawExpr.

Definition cmp : P RawExpr := fun ts =>
  '(lhs, ts) ← u ts;
  match cmp_tok (peek_tok ts) with
  | Some op => (rhs ← u; mret (RawCmp lhs op rhs)) (drop 1 ts)
  | None => ROk (lhs, ts)
  end.

(** Operands of a left-associative operator. *)
Fixpoint infix_loop (fuel : nat) (sep : Tok) (sub : P RawExpr) (join : RawExpr -> RawExpr -> RawExpr) (lhs : RawExpr)
    : P RawExpr := fun ts =>
  match fuel with
  | O => RFuel
  | S fuel =>
      if decide (peek_tok ts = Some sep) then
        (rhs ← sub; infix_loop fuel sep sub join (join lhs rhs)) (drop 1 ts)
      else ROk (lhs, ts)
  end.

Definition and : P RawExpr := fun ts =>
  '(lhs, ts) ← cmp ts; infix_loop (S (length ts)) KAndAnd cmp RawAnd lhs ts.

Definition or : P RawExpr := fun ts =>
  '(lhs, ts) ← and ts; infix_loop (S (length ts)) KOrOr and RawOr lhs ts.

Definition primary : P RawExpr := fun ts =>
  match peek_tok ts with
  | Some KLParen => (e ← or; _ ← expect KRParen; mret e) (drop 1 ts)
  | Some KNull => ROk (RawLit LNull, drop 1 ts)
  | Some (KBool b) => ROk (RawLit (LBool b), drop 1 ts)
  | Some (KNum n) => ROk (RawLit (LNum n), drop 1 ts)
  | Some (KStr s) => ROk (RawLit (LStr s), drop 1 ts)
  | Some (KIdent _) =>
      ('(first, _) ← ident; segs ← path_loop (length ts); mret (RawPath (first :: segs) (peek_pos ts))) ts
  | _ => RErr (RParse (peek_pos ts))
  end.
End expressions.

Fixpoint unary (fuel : nat) : P RawExpr := fun ts =>
  match fuel with
  | O => RFuel
  | S fuel =>
      if decide (peek_tok ts = Some KBang) then (inner ← unary fuel; mret (RawNot inner)) (drop 1 ts)
      else primary (unary fuel) ts
  end.

Definition expr : P RawExpr := fun ts => or (unary (S (length ts))) ts.

Definition op_of_name (name : bytes) : option (list Op) :=
  if beqb name (bs "read") then Some [ORead]
  else if beqb name (bs "create") then Some [OCreate]
  else if beqb name (bs "update") then Some [OUpdate]
  else if beqb name (bs "delete") then Some [ODelete]
  else if beqb name (bs "subscribe") then Some [OSubscribe]
  else if beqb name (bs "write") then Some [OCreate; OUpdate; ODelete]
  else None.

(** The operations of a clause, separated by commas. *)
Fixpoint ops_loop (fuel : nat) : P (list Op) := fun ts =>
  match fuel with
  | O => RFuel
  | S fuel =>
      '((name, p), ts) ← ident ts;
      match op_of_name name with
      | None => RErr (RParse p)
      | Some ops =>
          if decide (peek_tok ts = Some KComma) then (rest ← ops_loop fuel; mret (ops ++ rest)) (drop 1 ts)
          else ROk (ops, ts)
      end
  end.

Definition allow : P RawAllow := fun ts =>
  (_ ← expect KAllow;
   ops ← ops_loop (length ts);
   _ ← expect KColon;
   _ ← expect KIf;
   e ← expr;
   _ ← expect KSemi;
   mret {| ra_ops := ops; ra_expr := e |}) ts.

Fixpoint allows_loop (fuel : nat) : P (list RawAllow) := fun ts =>
  match fuel with
  | O => RFuel
  | S fuel =>
      match peek_tok ts with
      | Some KRBrace => ROk ([], ts)
      | None => RErr (RParse u64_max)
      | _ => (a ← allow; rest ← allows_loop fuel; mret (a :: rest)) ts
      end
  end.

Definition stmt : P RawStmt := fun ts =>
  (_ ← expect KMatch;
   '(type_name, type_pos) ← ident;
   _ ← expect KLBrace;
   allows ← allows_loop (length ts);
   _ ← expect KRBrace;
   mret {| rs_type_name := type_name; rs_type_pos := type_pos; rs_allows := allows |}) ts.

Fixpoint program (fuel : nat) : P (list RawStmt) := fun ts =>
  match fuel with
  | O => RFuel
  | S fuel =>
      match ts with
      | [] => ROk ([], [])
      | _ => (s ← stmt; rest ← program fuel; mret (s :: rest)) ts
      end
  end.

(** ** Compiler *)

Section compile.
Variable schema : Schema.

Definition path_err {A} (p : Z) : rres A := RErr (RParse p).

Definition some_or {A} (o : option A) (e : RulesError) : rres A := match o with Some a => ROk a | None => RErr e end.

Definition compile_request_field (td : TypeDef) (p : Z) (field : bytes) : rres Operand :=
  fd ← some_or (get_field td field) (RParse p);
  match field_type fd with
  | Scalar _ | Relation _ => ROk (RequestField field)
  | VectorT _ => path_err p
  end.

Definition compile_resource_field (td : TypeDef) (p : Z) (field : bytes) : rres Operand :=
  fd ← some_or (get_field td field) (RParse p);
  match field_type fd with
  | Scalar _ => ROk (ResourceScalar field)
  | Relation _ | VectorT _ => path_err p
  end.

Definition compile_projection (td : TypeDef) (p : Z) (rel target_field : bytes) : rres Operand :=
  fd ← some_or (get_field td rel) (RParse p);
  match field_type fd with
  | Relation relation =>
      target ← some_or (get_type schema (target_type relation)) RSchema;
      tf ← some_or (get_field target target_field) (RParse p);
      match field_type tf with
      | Scalar _ =>
          ROk (if is_many relation then ResourceRelationMany rel target_field else ResourceRelationOne rel target_field)
      | _ => path_err p
      end
  | _ => path_err p
  end.

Definition is_word (w : bytes) (lit : String.string) : bool := beqb w (bs lit).

Definition compile_path (td : TypeDef) (segs : list bytes) (p : Z) : rres Operand :=
  match segs with
  | [root] => path_err p
  | [r; a] =>
      if is_word r "request" && is_word a "auth" then ROk Auth
      else if is_word r "request" then compile_request_field td p a
      else if is_word r "resource" then compile_resource_field td p a
      else path_err p
  | r :: a :: c :: rest =>
      if is_word r "request" && is_word a "auth" then
        match rest with
        | [] => if is_word c "uid" then ROk AuthUid else if is_word c "claims" then ROk (AuthClaim []) else path_err p
        | _ => if is_word c "claims" then ROk (AuthClaim rest) else path_err p
        end
      else
        match rest with
        | [] => if is_word r "resource" then compile_projection td p a c else path_err p
        | _ => path_err p
        end
  | [] => path_err p
  end.

Definition is_auth (e : Expr) : bool := match e with EOperand Auth => true | _ => false end.
Definition is_null_lit (e : Expr) : bool := match e with ELit LNull => true | _ => false end.
Definition is_many_operand (e : Expr) : bool := match e with EOperand (ResourceRelationMany _ _) => true | _ => false end.

(** Which comparisons are refused. *)
Definition auth_misused (lhs : Expr) (op : CmpOp) (rhs : Expr) : bool :=
  (is_auth lhs || is_auth rhs)
  && ((is_auth lhs && is_auth rhs) || negb (bool_decide (op = CEq \/ op = CNe))
      || negb (if is_auth lhs then is_null_lit rhs else is_null_lit lhs)).

Definition many_misused (lhs : Expr) (op : CmpOp) (rhs : Expr) : bool :=
  is_many_operand lhs || (is_many_operand rhs && negb (bool_decide (op = CIn))).

Fixpoint compile_expr (td : TypeDef) (e : RawExpr) : rres Expr :=
  match e with
  | RawLit l => ROk (ELit l)
  | RawNot x => x ← compile_expr td x; ROk (ENot x)
  | RawAnd a b => a ← compile_expr td a; b ← compile_expr td b; ROk (EAnd a b)
  | RawOr a b => a ← compile_expr td a; b ← compile_expr td b; ROk (EOr a b)
  | RawCmp a op b =>
      lhs ← compile_expr td a;
      rhs ← compile_expr td b;
      if auth_misused lhs op rhs then RErr RSchema
      else if many_misused lhs op rhs then RErr RSchema
      else ROk (ECmp lhs op rhs)
  | RawPath segs p => o ← compile_path td segs p; ROk (EOperand o)
  end.

(** [entry(op).or_default().push(e)]. *)
Fixpoint op_push (op : Op) (e : Expr) (m : OpClauses) : OpClauses :=
  match m with
  | [] => [(op, [e])]
  | (o, l) :: m => if decide (op = o) then (o, l ++ [e]) :: m else (o, l) :: op_push op e m
  end.

Fixpoint compile_allows (td : TypeDef) (allows : list RawAllow) (entry : OpClauses) : rres OpClauses :=
  match allows with
  | [] => ROk entry
  | a :: allows =>
      compiled ← compile_expr td (ra_expr a);
      compile_allows td allows (fold_left (fun m op => op_push op compiled m) (ra_ops a) entry)
  end.

Fixpoint compile_stmts (stmts : list RawStmt) (types : bmap OpClauses) : rres (bmap OpClauses) :=
  match stmts with
  | [] => ROk types
  | s :: stmts =>
      td ← some_or (get_type schema (rs_type_name s)) (RParse (rs_type_pos s));
      entry ← compile_allows td (rs_allows s) (default [] (bm_get (rs_type_name s) types));
      compile_stmts stmts (bm_insert (rs_type_name s) entry types)
  end.

Definition compile (src : bytes) : rres RulesProgram :=
  toks ← lex (S (length src)) src 0;
  '(stmts, _) ← program (S (length toks)) toks;
  types ← compile_stmts stmts [];
  ROk {| rp_types := types |}.
End compile.
