(* ===== verification/RulesProps.v ===== *)
(** * Properties of security rules

    The parser and the compiler end on every input; a compiled program is well
    scoped and holds exactly the clauses of the text; and what an accessor
    withholds never grants. *)

From Stdlib Require Import ZArith Lia Bool List Strings.Byte Strings.String.
From stdpp Require Import base tactics option list.
From S2P Require Import Prelude ByteMap Utf8 Values Schema Serde Rules RulesParser.

Local Open Scope Z_scope.

(** ** Termination *)

(** [p] ends on [ts] and consumes at least [k] tokens when it succeeds. *)
Definition runs {A} (p : P A) (ts : list Spanned) (k : nat) : Prop :=
  match p ts with ROk (_, ts') => (length ts' + k <= length ts)%nat | RErr _ => True | RFuel => False end.

Lemma rules_ret_runs {A} (a : A) ts : runs (mret a) ts 0.
Proof. unfold runs; cbn. lia. Qed.

Lemma rules_err_runs {A} e ts k : @runs A (fun _ => RErr e) ts k.
Proof. done. Qed.

Lemma rules_weaken_runs {A} (p : P A) ts k j : (j <= k)%nat -> runs p ts k -> runs p ts j.
Proof. unfold runs. destruct (p ts) as [[a ts']| |]; lia. Qed.

Lemma rules_bind_runs {A B} (p : P A) (f : A -> P B) ts k j :
  runs p ts k -> (forall a ts', (length ts' + k <= length ts)%nat -> runs (f a) ts' j) -> runs (p ≫= f) ts (k + j).
Proof.
  unfold runs, mbind, P_bind. destruct (p ts) as [[a ts']| |]; try done.
  intros Hk Hf. specialize (Hf a ts' Hk). destruct (f a ts') as [[b ts'']| |]; try done. lia.
Qed.

(** The bind of results, as some parsers destructure it. *)
Lemma rules_step_runs {A B} (p : P A) (f : A * list Spanned -> rres (B * list Spanned)) ts k j :
  runs p ts k -> (forall a ts', (length ts' + k <= length ts)%nat -> runs (fun ts => f (a, ts)) ts' j) ->
  runs (fun ts => p ts ≫= f) ts (k + j).
Proof.
  unfold runs, mbind, rres_bind. destruct (p ts) as [[a ts']| |]; try done.
  intros Hk Hf. specialize (Hf a ts' Hk). destruct (f (a, ts')) as [[b ts'']| |]; try done. lia.
Qed.

(** A parser run after the token that was looked at. *)
Lemma rules_drop_runs {A} (q : P A) ts k : ts <> [] -> runs q (drop 1 ts) k -> runs (fun ts => q (drop 1 ts)) ts (S k).
Proof.
  unfold runs. destruct ts as [|s ts]; [done|]. intros _. change (drop 1 (s :: ts)) with ts; cbn [length].
  destruct (q ts) as [[a ts']| |]; intros; try done. lia.
Qed.

Lemma peek_cons ts t : peek_tok ts = Some t -> ts <> [].
Proof. by destruct ts. Qed.

Lemma rules_expect_runs w ts : runs (expect w) ts 1.
Proof. unfold runs, expect. destruct ts as [|s ts]; [done|]. case_decide; cbn; [lia|done]. Qed.

Lemma rules_ident_runs ts : runs ident ts 1.
Proof. unfold runs, ident. destruct ts as [|[[] ?] ts]; cbn; try done. lia. Qed.

Lemma runs_path_loop fuel ts : (length ts < fuel)%nat -> runs (path_loop fuel) ts 0.
Proof.
  revert ts. induction fuel as [|fuel IH]; intros ts Hf; [lia|].
  unfold runs. cbn [path_loop]. case_decide as Hp; [|cbn; lia]. apply peek_cons in Hp.
  refine (rules_weaken_runs _ _ 2 _ _ (rules_drop_runs _ ts (1 + (0 + 0)) Hp _)); [lia|].
  apply rules_bind_runs; [apply rules_ident_runs|]. intros [seg ?] ts' Hl. rewrite length_drop in Hl.
  apply rules_bind_runs; [apply IH; lia|]. intros; apply rules_ret_runs.
Qed.

Section expressions.
Variables (u : P RawExpr) (n : nat).
Hypothesis Hu : forall ts, (length ts <= n)%nat -> runs u ts 1.

Lemma rules_cmp_runs ts : (length ts <= n)%nat -> runs (cmp u) ts 1.
Proof.
  intros Hn. unfold cmp. apply (rules_weaken_runs _ _ (1 + 0)); [lia|]. apply rules_step_runs; [auto|]. intros lhs ts' Hl.
  unfold runs. destruct (cmp_tok (peek_tok ts')) as [op|] eqn:E; [|cbn; lia].
  assert (ts' <> []) as Hp by (by intros ->).
  refine (rules_weaken_runs _ _ 2 _ _ (rules_drop_runs _ ts' (1 + 0) Hp _)); [lia|].
  apply rules_bind_runs; [apply Hu; rewrite length_drop; lia|intros; apply rules_ret_runs].
Qed.

Lemma rules_infix_runs fuel sep sub join lhs ts : (length ts < fuel)%nat -> (length ts <= n)%nat ->
  (forall ts, (length ts <= n)%nat -> runs sub ts 1) -> runs (infix_loop fuel sep sub join lhs) ts 0.
Proof.
  intros Hf Hn Hsub. revert lhs ts Hf Hn. induction fuel as [|fuel IH]; intros lhs ts Hf Hn; [lia|].
  unfold runs. cbn [infix_loop]. case_decide as Hp; [|cbn; lia]. apply peek_cons in Hp.
  refine (rules_weaken_runs _ _ 2 _ _ (rules_drop_runs _ ts (1 + 0) Hp _)); [lia|].
  apply rules_bind_runs; [apply Hsub; rewrite length_drop; lia|].
  intros a ts' Hl. rewrite length_drop in Hl. apply IH; lia.
Qed.

Lemma rules_and_runs ts : (length ts <= n)%nat -> runs (and u) ts 1.
Proof.
  intros Hn. unfold and. apply (rules_weaken_runs _ _ (1 + 0)); [lia|]. apply rules_step_runs; [by apply rules_cmp_runs|].
  intros lhs ts' Hl. apply (rules_infix_runs (S (length ts'))); [lia|lia|apply rules_cmp_runs].
Qed.

Lemma rules_or_runs ts : (length ts <= n)%nat -> runs (or u) ts 1.
Proof.
  intros Hn. unfold or. apply (rules_weaken_runs _ _ (1 + 0)); [lia|]. apply rules_step_runs; [by apply rules_and_runs|].
  intros lhs ts' Hl. apply (rules_infix_runs (S (length ts'))); [lia|lia|apply rules_and_runs].
Qed.

Lemma rules_primary_runs ts : (length ts <= S n)%nat -> runs (primary u) ts 1.
Proof.
  intros Hn. destruct ts as [|s ts]; [done|]. unfold runs, primary. cbn [peek_tok head fmap option_fmap option_map length] in *.
  destruct (tok s) as [| | | | | | | | | | | | | | | | | | | | |x| | | |] eqn:E; try done;
    try (rewrite length_drop; cbn [length]; lia).
  - refine (rules_weaken_runs _ _ 3 _ _ (rules_drop_runs _ (s :: ts) (1 + (1 + 0)) _ _)); [lia|done|].
    apply rules_bind_runs; [apply rules_or_runs; rewrite length_drop; cbn [length]; lia|]. intros e ts' _.
    apply rules_bind_runs; [apply rules_expect_runs|]. intros; apply rules_ret_runs.
  - assert (runs ('(first, _) ← ident; segs ← path_loop (S (length ts)); mret (RawPath (first :: segs) (peek_pos (s :: ts))))
      (s :: ts) (1 + (0 + 0))) as H.
    { apply rules_bind_runs; [apply rules_ident_runs|]. intros [f ?] ts' Hl. cbn [length] in Hl.
      apply rules_bind_runs; [apply runs_path_loop; lia|]. intros; apply rules_ret_runs. }
    exact H.
Qed.
End expressions.

Lemma rules_unary_runs fuel ts : (length ts < fuel)%nat -> runs (unary fuel) ts 1.
Proof.
  revert ts. induction fuel as [|fuel IH]; intros ts Hf; [lia|].
  unfold runs. cbn [unary]. case_decide as Hp.
  - apply peek_cons in Hp. assert (length ts <> 0)%nat by (by destruct ts).
    refine (rules_weaken_runs _ _ 2 _ _ (rules_drop_runs _ ts (1 + 0) Hp _)); [lia|].
    apply rules_bind_runs; [apply IH; rewrite length_drop; lia|intros; apply rules_ret_runs].
  - destruct ts as [|s ts]; [done|]. cbn [length] in Hf.
    exact (rules_primary_runs (unary fuel) (length ts) (fun ts' Hl => IH ts' ltac:(lia)) (s :: ts) ltac:(cbn; lia)).
Qed.

Lemma rules_expr_runs ts : runs expr ts 1.
Proof. apply (rules_or_runs _ (length ts)); [|lia]. intros ts' Hl. apply rules_unary_runs. lia. Qed.

Lemma rules_ops_runs fuel ts : (length ts < fuel)%nat -> runs (ops_loop fuel) ts 1.
Proof.
  revert ts. induction fuel as [|fuel IH]; intros ts Hf; [lia|]. cbn [ops_loop].
  apply (rules_weaken_runs _ _ (1 + 0)); [lia|].
  apply (rules_step_runs ident (fun x => let '((name, p), ts) := x in _)); [apply rules_ident_runs|]. intros [name p] ts' Hl.
  unfold runs. destruct (op_of_name name) as [ops|]; [|done]. case_decide as Hp; [|cbn; lia]. apply peek_cons in Hp.
  refine (rules_weaken_runs _ _ 2 _ _ (rules_drop_runs _ ts' (1 + 0) Hp _)); [lia|].
  apply rules_bind_runs; [apply IH; rewrite length_drop; lia|intros; apply rules_ret_runs].
Qed.

Lemma rules_allow_runs ts : runs allow ts 6.
Proof.
  unfold allow. apply (rules_bind_runs _ _ _ 1 5); [apply rules_expect_runs|]. intros _ ts1 H1.
  apply (rules_bind_runs _ _ _ 1 4); [apply rules_ops_runs; lia|]. intros ops ts2 H2.
  apply (rules_bind_runs _ _ _ 1 3); [apply rules_expect_runs|]. intros _ ts3 _.
  apply (rules_bind_runs _ _ _ 1 2); [apply rules_expect_runs|]. intros _ ts4 _.
  apply (rules_bind_runs _ _ _ 1 1); [apply rules_expr_runs|]. intros e ts5 _.
  apply (rules_bind_runs _ _ _ 1 0); [apply rules_expect_runs|]. intros; apply rules_ret_runs.
Qed.

Lemma rules_allows_runs fuel ts : (length ts < fuel)%nat -> runs (allows_loop fuel) ts 0.
Proof.
  revert ts. induction fuel as [|fuel IH]; intros ts Hf; [lia|]. unfold runs. cbn [allows_loop].
  destruct (peek_tok ts) as [t|]; [|done].
  assert (runs (a ← allow; rest ← allows_loop fuel; mret (a :: rest)) ts (6 + (0 + 0))) as H.
  { apply rules_bind_runs; [apply rules_allow_runs|]. intros a ts' Hl. apply rules_bind_runs; [apply IH; lia|]. intros; apply rules_ret_runs. }
  apply (rules_weaken_runs _ _ _ 0) in H; [|lia]. destruct t; first [exact H|cbn; lia].
Qed.

Lemma rules_stmt_runs ts : runs stmt ts 4.
Proof.
  unfold stmt. apply (rules_bind_runs _ _ _ 1 3); [apply rules_expect_runs|]. intros _ ts1 H1.
  apply (rules_bind_runs _ _ _ 1 2); [apply rules_ident_runs|]. intros [name p] ts2 H2.
  apply (rules_bind_runs _ _ _ 1 1); [apply rules_expect_runs|]. intros _ ts3 H3.
  apply (rules_bind_runs _ _ _ 0 1); [apply rules_allows_runs; lia|]. intros allows ts4 _.
  apply (rules_bind_runs _ _ _ 1 0); [apply rules_expect_runs|]. intros; apply rules_ret_runs.
Qed.

Lemma rules_program_runs fuel ts : (length ts < fuel)%nat -> runs (program fuel) ts 0.
Proof.
  revert ts. induction fuel as [|fuel IH]; intros ts Hf; [lia|]. unfold runs. cbn [program].
  destruct ts as [|s ts]; [cbn; lia|].
  assert (runs (a ← stmt; rest ← program fuel; mret (a :: rest)) (s :: ts) (4 + (0 + 0))) as H.
  { apply rules_bind_runs; [apply rules_stmt_runs|]. intros a ts' Hl. apply rules_bind_runs; [apply IH; lia|]. intros; apply rules_ret_runs. }
  exact (rules_weaken_runs _ _ _ 0 ltac:(lia) H).
Qed.

Lemma program_consumes fuel ts stmts r : program fuel ts = ROk (stmts, r) -> r = [].
Proof.
  revert ts stmts. induction fuel as [|fuel IH]; intros ts stmts E; [done|]. cbn [program] in E.
  destruct ts as [|s ts]; [by injection E as _ <-|]. unfold mbind, P_bind in E.
  destruct (stmt (s :: ts)) as [[a ts']| |]; try done.
  destruct (program fuel ts') as [[rest ts'']| |] eqn:Er; try done. injection E as _ <-. by eapply IH.
Qed.

(** ** The lexer ends *)

Lemma string_end_runs fuel start s i : (length s < fuel)%nat ->
  match string_end fuel start s i with ROk (r, _) => (length r < length s)%nat | RErr _ => True | RFuel => False end.
Proof.
  revert s i. induction fuel as [|fuel IH]; intros s i Hf; [lia|]. cbn [string_end].
  destruct s as [|ch s]; [done|]. cbn [length] in *.
  destruct (b2z ch =? 34); [cbn; lia|]. destruct (b2z ch =? 92).
  - destruct s as [|x s]; [done|]. cbn [length] in *. specialize (IH s (i + 2) ltac:(lia)).
    destruct (string_end _ _ _ _) as [[r j]| |]; try done. lia.
  - specialize (IH s (i + 1) ltac:(lia)). destruct (string_end _ _ _ _) as [[r j]| |]; try done. lia.
Qed.

Lemma decode_str_runs fuel start s escaped : (length s < fuel)%nat -> decode_str fuel start s escaped <> RFuel.
Proof.
  revert s escaped. induction fuel as [|fuel IH]; intros s escaped Hf; [lia|]. cbn [decode_str].
  destruct (next_char s) as [[ch s']|] eqn:E; [|done]. apply next_char_split in E as [_ E].
  assert (forall c b, (r ← decode_str fuel start s' b; ROk (c ++ r)) <> RFuel) as Hr.
  { intros c b. specialize (IH s' b ltac:(lia)). by destruct (decode_str fuel start s' b). }
  destruct escaped; [destruct (unescape ch); [apply Hr|done]|]. case_match; [apply IH; lia|]. case_match; [done|apply Hr].
Qed.

Lemma span_length f s : let '(a, r) := span f s in length s = (length a + length r)%nat.
Proof.
  induction s as [|b s IH]; [done|]. cbn [span]. destruct (f b); [|done]. destruct (span f s) as [a r].
  cbn [length]. lia.
Qed.

Lemma span_head f b s : f b = true -> exists a r, span f (b :: s) = (b :: a, r) /\ (length r <= length s)%nat.
Proof.
  intros Hb. cbn [span]. rewrite Hb. pose proof (span_length f s). destruct (span f s) as [a r].
  eexists _, _. split; [done|lia].
Qed.

Lemma lex_token_runs s i :
  match lex_token s i with ROk (_, r, _) => (length r < length s)%nat | RErr _ => True | RFuel => False end.
Proof.
  unfold lex_token. destruct s as [|c s]; [done|].
  destruct (double_tok (c :: s)) as [t|]; [rewrite length_drop; cbn [length]; lia|].
  destruct (single_tok (b2z c)) as [t|]; [cbn [length]; lia|].
  destruct (b2z c =? 34); [|destruct (starts_number (c :: s)) eqn:En; [|destruct ((b2z c =? 95) || ascii_alpha c) eqn:Ei]].
  - pose proof (string_end_runs (S (length s)) i s (i + 1) ltac:(lia)) as H1.
    destruct (string_end _ i s _) as [[r j]| |]; try done. unfold mbind at 1; unfold rres_bind at 1.
    pose proof (decode_str_runs (S (length s)) i s false ltac:(lia)) as H2.
    destruct (decode_str _ i s false); try done. cbn. lia.
  - destruct (b2z c =? 45) eqn:Em.
    + pose proof (span_length number_char s) as Hl. destruct (span number_char s) as [body r].
      destruct (parse_f64 _); [cbn [length]; lia|done].
    + cbn [starts_number] in En. rewrite Em in En. cbn [andb] in En. rewrite orb_false_r in En.
      destruct (span_head number_char c s) as (a & r & -> & Hl); [unfold number_char; by rewrite En|].
      destruct (parse_f64 _); [cbn [length]; lia|done].
  - destruct (span_head word_char c s) as (a & r & -> & Hl); [|cbn [length]; lia].
    unfold word_char. apply orb_true_iff in Ei as [->| ->]; [done|]. by rewrite orb_true_r.
  - done.
Qed.

Lemma skip_line_length s i : (length (fst (skip_comment s i)) <= length s)%nat.
Proof.
  revert i. induction s as [|b s IH]; intros i; [done|]. cbn [skip_comment]. case_match; [done|]. cbn [length].
  specialize (IH (i + 1)). lia.
Qed.

Lemma skip_line_comment c s i : b2z c <> 10 -> (length (fst (skip_comment (c :: s) i)) <= length s)%nat.
Proof. intros Hc. cbn [skip_comment]. apply Z.eqb_neq in Hc. rewrite Hc. apply skip_line_length. Qed.

Lemma lex_runs fuel s i : (length s < fuel)%nat -> lex fuel s i <> RFuel.
Proof.
  revert s i. induction fuel as [|fuel IH]; intros s i Hf; [lia|]. cbn [lex]. destruct s as [|c s]; [done|].
  cbn [length] in Hf. destruct (ascii_space c); [apply IH; lia|]. destruct ((b2z c =? 35) || two 47 47 (c :: s)) eqn:Ec.
  - pose proof (skip_line_comment c s i) as Hs. destruct (skip_comment (c :: s) i) as [r j]. apply IH.
    cbn [fst] in Hs. enough (b2z c <> 10) by (specialize (Hs ltac:(done)); lia).
    intros E. unfold two in Ec. destruct s; rewrite E in Ec; done.
  - pose proof (lex_token_runs (c :: s) i) as Ht. destruct (lex_token (c :: s) i) as [[[t r] j]| |]; cbn; try done.
    cbn [length] in Ht. specialize (IH r j ltac:(lia)). by destruct (lex fuel r j).
Qed.

Section compile.
Variable schema : Schema.

Lemma some_or_ok {A} (o : option A) e a : some_or o e = ROk a -> o = Some a.
Proof. by destruct o; intros [= ->]. Qed.

Lemma rbind_ok {A B} (m : rres A) (f : A -> rres B) b : m ≫= f = ROk b -> exists a, m = ROk a /\ f a = ROk b.
Proof. destruct m; cbn; try done. eauto. Qed.

Lemma compile_expr_total td e : compile_expr schema td e <> RFuel.
Proof.
  induction e as [l|segs p|x IH|a IHa b IHb|a IHa b IHb|a IHa op b IHb]; cbn [compile_expr]; try done.
  - unfold compile_path, compile_request_field, compile_resource_field, compile_projection, path_err, some_or.
    repeat (case_match; cbn; try done).
  - by destruct (compile_expr schema td x).
  - destruct (compile_expr schema td a); try done. by destruct (compile_expr schema td b).
  - destruct (compile_expr schema td a); try done. by destruct (compile_expr schema td b).
  - destruct (compile_expr schema td a); try done. destruct (compile_expr schema td b); try done. cbn.
    by repeat case_match.
Qed.

Lemma compile_stmts_total stmts types : compile_stmts schema stmts types <> RFuel.
Proof.
  assert (forall td allows entry, compile_allows schema td allows entry <> RFuel) as Ha.
  { intros td allows. induction allows as [|a allows IH]; intros entry; [done|]. cbn [compile_allows].
    pose proof (compile_expr_total td (ra_expr a)). destruct (compile_expr schema td (ra_expr a)); try done. apply IH. }
  revert types. induction stmts as [|s stmts IH]; intros types; [done|]. cbn [compile_stmts].
  destruct (get_type schema (rs_type_name s)) as [td|]; [|done]. cbn [some_or mbind rres_bind].
  specialize (Ha td (rs_allows s) (default [] (bm_get (rs_type_name s) types))).
  unfold mbind at 1, rres_bind at 1. destruct (compile_allows _ _ _ _); try apply IH; done.
Qed.

Lemma compile_never_runs_out src : compile schema src <> RFuel.
Proof.
  unfold compile. pose proof (lex_runs (S (length src)) src 0 ltac:(lia)) as Hl.
  destruct (lex _ src 0) as [toks| |]; try done. unfold mbind at 1, rres_bind at 1.
  pose proof (rules_program_runs (S (length toks)) toks ltac:(lia)) as Hp. unfold runs in Hp.
  destruct (program _ toks) as [[stmts r]| |]; try done. unfold mbind at 1, rres_bind at 1.
  pose proof (compile_stmts_total stmts []). by destruct (compile_stmts schema stmts []).
Qed.

(** ** Scoping *)

(** A projection of a scalar field through a relation of the given kind. *)
Definition projects (td : TypeDef) (rel field : bytes) (many : bool) : Prop :=
  exists fd r target tf s, get_field td rel = Some fd /\ field_type fd = Relation r /\ is_many r = many /\
    get_type schema (target_type r) = Some target /\ get_field target field = Some tf /\ field_type tf = Scalar s.

Definition operand_ok (td : TypeDef) (o : Operand) : Prop :=
  match o with
  | Auth | AuthUid | AuthClaim _ => True
  | ResourceScalar f => exists fd s, get_field td f = Some fd /\ field_type fd = Scalar s
  | ResourceRelationOne rel f => projects td rel f false
  | ResourceRelationMany rel f => projects td rel f true
  | RequestField f => exists fd, get_field td f = Some fd /\ forall v, field_type fd <> VectorT v
  end.

(** Every path resolves; the principal as a whole is only compared with null;
    a set is only the right side of [in]. *)
Fixpoint expr_ok (td : TypeDef) (e : Expr) : Prop :=
  match e with
  | ELit _ => True
  | EOperand o => operand_ok td o
  | ENot x => expr_ok td x
  | EAnd a b | EOr a b => expr_ok td a /\ expr_ok td b
  | ECmp l op r =>
      expr_ok td l /\ expr_ok td r /\
      (l = EOperand Auth -> (op = CEq \/ op = CNe) /\ r = ELit LNull) /\
      (r = EOperand Auth -> (op = CEq \/ op = CNe) /\ l = ELit LNull) /\
      (forall rel f, l <> EOperand (ResourceRelationMany rel f)) /\
      (forall rel f, r = EOperand (ResourceRelationMany rel f) -> op = CIn)
  end.

Lemma compile_path_ok td segs p o : compile_path schema td segs p = ROk o -> operand_ok td o.
Proof.
  unfold compile_path, path_err. intros E.
  repeat (case_match; try done); try (by injection E as <-).
  - apply rbind_ok in E as (fd & Hf & E). apply some_or_ok in Hf.
    destruct (field_type fd) eqn:Ht; try done; injection E as <-; exists fd; (split; [done|]); congruence.
  - apply rbind_ok in E as (fd & Hf & E). apply some_or_ok in Hf.
    destruct (field_type fd) eqn:Ht; try done; injection E as <-. by exists fd, s.
  - apply rbind_ok in E as (fd & Hf & E). apply some_or_ok in Hf.
    destruct (field_type fd) as [|rel|] eqn:Ht; try done.
    apply rbind_ok in E as (target & Hg & E). apply some_or_ok in Hg.
    apply rbind_ok in E as (tf & Htf & E). apply some_or_ok in Htf.
    destruct (field_type tf) as [s'| |] eqn:Hs; try done. injection E as <-.
    destruct (is_many rel) eqn:Hm; by exists fd, rel, target, tf, s'.
Qed.

Lemma misuse_ok lhs op rhs : auth_misused lhs op rhs = false -> many_misused lhs op rhs = false ->
  (lhs = EOperand Auth -> (op = CEq \/ op = CNe) /\ rhs = ELit LNull) /\
  (rhs = EOperand Auth -> (op = CEq \/ op = CNe) /\ lhs = ELit LNull) /\
  (forall rel f, lhs <> EOperand (ResourceRelationMany rel f)) /\
  (forall rel f, rhs = EOperand (ResourceRelationMany rel f) -> op = CIn).
Proof.
  unfold auth_misused, many_misused. intros Ha Hm. split_and!.
  - intros ->. destruct op, rhs as [[]|[]| | | |]; try done; auto.
  - intros ->. destruct op, lhs as [[]|[]| | | |]; try done; auto.
  - intros rel f ->. done.
  - intros rel f ->. destruct op; try done; by destruct (is_many_operand lhs).
Qed.

Lemma compile_expr_ok td e e' : compile_expr schema td e = ROk e' -> expr_ok td e'.
Proof.
  revert e'. induction e as [l|segs p|x IH|a IHa b IHb|a IHa b IHb|a IHa op b IHb]; intros e' E; cbn [compile_expr] in E.
  - by injection E as <-.
  - apply rbind_ok in E as (o & Ho & E). injection E as <-. by eapply compile_path_ok.
  - apply rbind_ok in E as (x' & Hx & E). injection E as <-. exact (IH _ Hx).
  - apply rbind_ok in E as (a' & Ha & E). apply rbind_ok in E as (b' & Hb & E). injection E as <-. cbn. auto.
  - apply rbind_ok in E as (a' & Ha & E). apply rbind_ok in E as (b' & Hb & E). injection E as <-. cbn. auto.
  - apply rbind_ok in E as (a' & Ha & E). apply rbind_ok in E as (b' & Hb & E).
    destruct (auth_misused a' op b') eqn:Hau; [done|]. destruct (many_misused a' op b') eqn:Hmu; [done|].
    injection E as <-. split; [exact (IHa _ Ha)|]. split; [exact (IHb _ Hb)|]. by apply misuse_ok.
Qed.

(** ** The clauses of a program *)

(** The clauses a text gives for an operation, in its order. *)
Definition allow_clauses (td : TypeDef) (op : Op) (a : RawAllow) : list Expr :=
  match compile_expr schema td (ra_expr a) with
  | ROk e => map (fun _ => e) (List.filter (fun o => bool_decide (op = o)) (ra_ops a))
  | _ => []
  end.

Definition stmt_clauses (type_name : bytes) (op : Op) (s : RawStmt) : list Expr :=
  match get_type schema type_name with
  | Some td => if beqb type_name (rs_type_name s) then flat_map (allow_clauses td op) (rs_allows s) else []
  | None => []
  end.

Lemma op_get_push op o e m :
  default [] (op_get op (op_push o e m)) = default [] (op_get op m) ++ (if decide (op = o) then [e] else []).
Proof.
  induction m as [|[o' l] m IH]; cbn [op_push op_get].
  - by destruct (decide (op = o)).
  - destruct (decide (o = o')) as [->|]; cbn [op_get].
    + destruct (decide (op = o')); [done|]. by rewrite app_nil_r.
    + destruct (decide (op = o')) as [->|]; [|done]. destruct (decide (o' = o)); [congruence|]. by rewrite app_nil_r.
Qed.

Lemma op_get_push_all op e ops m :
  default [] (op_get op (fold_left (fun m o => op_push o e m) ops m)) =
  default [] (op_get op m) ++ map (fun _ => e) (List.filter (fun o => bool_decide (op = o)) ops).
Proof.
  revert m. induction ops as [|o ops IH]; intros m; [by rewrite app_nil_r|]. cbn [fold_left List.filter].
  rewrite IH, op_get_push, <- app_assoc. f_equal. by case_bool_decide; case_decide.
Qed.

Lemma compile_allows_clauses td allows entry entry' op : compile_allows schema td allows entry = ROk entry' ->
  default [] (op_get op entry') = default [] (op_get op entry) ++ flat_map (allow_clauses td op) allows.
Proof.
  revert entry. induction allows as [|a allows IH]; intros entry E; cbn [compile_allows flat_map] in *.
  - injection E as <-. by rewrite app_nil_r.
  - apply rbind_ok in E as (e & He & E). rewrite (IH _ E), op_get_push_all, <- app_assoc. f_equal.
    unfold allow_clauses. by rewrite He.
Qed.

Definition clauses_in (types : bmap OpClauses) (op : Op) (type_name : bytes) : list Expr :=
  default [] (t ← bm_get type_name types; op_get op t).

Lemma compile_stmts_clauses stmts types types' op type_name : compile_stmts schema stmts types = ROk types' ->
  bsorted types -> clauses_in types' op type_name = clauses_in types op type_name ++ flat_map (stmt_clauses type_name op) stmts.
Proof.
  revert types. induction stmts as [|s stmts IH]; intros types E Hs; cbn [compile_stmts flat_map] in *.
  - injection E as <-. by rewrite app_nil_r.
  - apply rbind_ok in E as (td & Ht & E). apply some_or_ok in Ht. apply rbind_ok in E as (entry & He & E).
    rewrite (IH _ E) by (by apply bsorted_insert). rewrite app_assoc. f_equal.
    apply (compile_allows_clauses _ _ _ _ op) in He. unfold clauses_in, stmt_clauses.
    rewrite bm_get_insert by done. case_decide as Hn; [subst type_name|].
    + rewrite Ht. destruct (beqb_spec (rs_type_name s) (rs_type_name s)); [|done]. cbn. rewrite He. f_equal. by destruct (bm_get (rs_type_name s) types).
    + destruct (get_type schema type_name); [|by rewrite app_nil_r].
      destruct (beqb_spec type_name (rs_type_name s)); [done|by rewrite app_nil_r].
Qed.

End compile.

(** ** Claims *)

(** C27: compiling the text of a rules program always ends.  When it succeeds, the
    program has for every type and operation exactly the clauses of the text,
    in its order and over all the blocks of the type; every type it names is in
    the schema; and every clause is well scoped: its paths name existing
    fields of the right kind, the principal as a whole is only compared with
    null, and a to-many projection is only the right side of [in]. *)
Theorem rules_compile_sound schema src :
  compile schema src <> RFuel /\
  forall prog, compile schema src = ROk prog -> exists toks stmts,
    lex (S (length src)) src 0 = ROk toks /\ program (S (length toks)) toks = ROk (stmts, []) /\
    forall op type_name,
      default [] (clauses_of prog op type_name) = flat_map (stmt_clauses schema type_name op) stmts /\
      forall e, In e (default [] (clauses_of prog op type_name)) ->
        exists td, get_type schema type_name = Some td /\ expr_ok schema td e.
Proof.
  split; [apply compile_never_runs_out|]. intros prog E. unfold compile in E.
  apply rbind_ok in E as (toks & Hl & E). apply rbind_ok in E as ([stmts r] & Hp & E).
  apply rbind_ok in E as (types & Hc & E). injection E as <-. exists toks, stmts.
  split; [done|]. split; [by rewrite Hp, (program_consumes _ _ _ _ Hp)|]. intros op type_name.
  pose proof (compile_stmts_clauses schema stmts [] types op type_name Hc bsorted_nil) as Hcl.
  change (clauses_in [] op type_name ++ ?l) with l in Hcl. split; [exact Hcl|].
  intros e He. change (In e (clauses_in types op type_name)) in He. rewrite Hcl in He.
  apply in_flat_map in He as (s & _ & He). unfold stmt_clauses in He.
  destruct (get_type schema type_name) as [td|]; [|done]. exists td. split; [done|].
  destruct (beqb type_name (rs_type_name s)); [|done]. apply in_flat_map in He as (a & _ & He).
  unfold allow_clauses in He. destruct (compile_expr schema td (ra_expr a)) eqn:Ee; try done.
  apply in_map_iff in He as (? & <- & _). by eapply compile_expr_ok.
Qed.

(** C28: what an accessor withholds never grants.  If every answer of the accessor,
    in every state its budget can reach, is either no answer or the fact, and
    the evaluation allows an operation, then the program has a clause for the
    type and the operation that is true of the full facts; in particular a type
    or operation without clauses is denied. *)
Theorem withheld_data_never_grants {SJ : SerdeJson} {R S} {A : reads R S} (r : R) (I : S -> Prop) (F : Facts)
    (p : Principal) prog op type_name s s' :
  approximates r I F -> I s -> evaluate p r prog op type_name s = Some (DAllow, s') ->
  has_clause prog op type_name = true /\
  exists clauses e, clauses_of prog op type_name = Some clauses /\ In e clauses /\ holds p F e.
Proof.
  intros Ha HI E. destruct (evaluate_below r I F p prog op type_name s DAllow s' HI E) as [_ Hd].
  destruct (Hd eq_refl) as (clauses & e & Hc & He & Hh). split; [|by exists clauses, e].
  unfold has_clause. rewrite Hc. by destruct clauses.
Qed.

(** ** Examples *)

Definition demo_schema_text : bytes := bs
"type User {
  uid: String
}
type Post {
  title: String
  published: Bool
  ownerUid: String
  author: User
  editors: [User]
}".

Definition demo_schema : Schema :=
  match @SchemaParser.parse_schema ascii_only demo_schema_text with
  | SchemaParser.SOk s => s
  | _ => {| types := [] |}
  end.

Definition demo_rules_text : bytes := bs
"# posts
match Post {
  allow read: if resource.published || request.auth.uid == resource.ownerUid;
  allow update, delete: if request.auth.uid in resource.editors.uid && !(resource.published);
}
match Post { allow create: if request.auth != null; allow update: if 1 < 2; }".

Definition demo_prog : RulesProgram :=
  match compile demo_schema demo_rules_text with ROk p => p | _ => {| rp_types := [] |} end.

Lemma rules_compile_sound_witness :
  compile demo_schema demo_rules_text = ROk demo_prog /\
  default [] (clauses_of demo_prog OUpdate (bs "Post")) =
    [EAnd (ECmp (EOperand AuthUid) CIn (EOperand (ResourceRelationMany (bs "editors") (bs "uid"))))
       (ENot (EOperand (ResourceScalar (bs "published"))));
     ECmp (ELit (LNum 0x3ff0000000000000)) CLt (ELit (LNum 0x4000000000000000))] /\
  forall e, In e (default [] (clauses_of demo_prog OUpdate (bs "Post"))) ->
    exists td, get_type demo_schema (bs "Post") = Some td /\ expr_ok demo_schema td e.
Proof.
  assert (compile demo_schema demo_rules_text = ROk demo_prog) as E by (vm_compute; reflexivity).
  split; [exact E|]. split; [vm_compute; reflexivity|].
  destruct (rules_compile_sound demo_schema demo_rules_text) as [_ H].
  destruct (H demo_prog E) as (toks & stmts & _ & _ & Hc). exact (proj2 (Hc OUpdate (bs "Post"))).
Defined.

(** A reader whose budget is the number of answers it still gives. *)
#[local] Existing Instance plain_serde.

Record Budgeted := { bd_facts : Facts }.

Definition spend {A} (answer : option A) : St nat (option A) := fun n =>
  match n with O => Some (None, O) | S n => Some (answer, n) end.

#[global] Instance budgeted_reads : reads Budgeted nat := {|
  resource_scalar r f := spend (f_scalar (bd_facts r) f);
  resource_relation_one r rel f := spend (f_one (bd_facts r) rel f);
  resource_relation_many r rel f := spend (f_many (bd_facts r) rel f);
  request_field r f := spend (f_request (bd_facts r) f);
|}.

#[global] Instance budgeted_approximates r : approximates r (fun _ => True) (bd_facts r).
Proof.
  assert (forall A (o : option A) n v n', spend o n = Some (v, n') -> True /\ partial v o) as H.
  { intros A o [|n] v n' [= <- <-]; (split; [done|]); [by left|by right]. }
  split; [intros f s v s' _ E|intros rel f s v s' _ E|intros rel f s v s' _ E|intros f s v s' _ E]; exact (H _ _ _ _ _ E).
Qed.

Definition post_facts : Facts := {|
  f_scalar f := if beqb f (bs "published") then Some (JBool false) else if beqb f (bs "ownerUid") then Some (JString (bs "ann")) else None;
  f_one _ _ := None;
  f_many _ _ := Some [JString (bs "bob"); JString (bs "ann")];
  f_request _ := None;
|}.

Definition ann : Principal := from_verified (bs "ann") None.

Lemma withheld_data_never_grants_witness :
  evaluate ann {| bd_facts := post_facts |} demo_prog ORead (bs "Post") 2%nat = Some (DAllow, O) /\
  evaluate ann {| bd_facts := post_facts |} demo_prog ORead (bs "Post") 1%nat = Some (DDeny, O) /\
  has_clause demo_prog ORead (bs "Post") = true.
Proof.
  assert (evaluate ann {| bd_facts := post_facts |} demo_prog ORead (bs "Post") 2%nat = Some (DAllow, O)) as E
    by (vm_compute; reflexivity).
  split; [exact E|]. split; [vm_compute; reflexivity|].
  exact (proj1 (withheld_data_never_grants {| bd_facts := post_facts |} (fun _ => True) post_facts ann demo_prog
    ORead (bs "Post") 2%nat O (budgeted_approximates _) Logic.I E)).
Defined.

(** Comparing values of different types with [!=] is true, so such a clause
    grants. *)
Example type_mismatch_grants :
  holds anonymous post_facts (ECmp (EOperand (ResourceScalar (bs "ownerUid"))) CNe (ELit (LNum 0x4014000000000000))) /\
  holds anonymous post_facts (ECmp (EOperand (ResourceScalar (bs "ownerUid"))) CNe (ELit LNull)).
Proof. by vm_compute. Qed.
