(* ===== verification/QueryPlan.v ===== *)
(** * Filters of a query (crates/rhypedb-query/src/executor.rs)

    Predicates on objects, the literals of a query as values, and the planner
    that serves a filter from unique and secondary indexes: a point lookup, the
    intersection of two equalities, the best single index, or a union; each
    narrowed by the whole predicate and put in the order of the ids. *)

From Stdlib Require Import ZArith Bool List Lia Strings.Byte Strings.String Floats.SpecFloat.
From stdpp Require Import base tactics option list sorting.
From S2P Require Import Prelude ByteMap Keys Zone Store Utf8 Values Ieee Schema Serde IndexKeys Posting Fulltext Engine FilterScan.

Local Open Scope Z_scope.

(** * The query language: syntax (crates/rhypedb-query/src/ast.rs)

    A query is a source followed by steps.  Floats are given by their bits. *)

Inductive QueryOp := QEq | QNe | QLt | QLe | QGt | QGe.
#[global] Instance QueryOp_eq_dec : EqDecision QueryOp.
Proof. solve_decision. Defined.

Inductive SimilarQuery := SimText (s : bytes) | SimVector (v : list Z).

Section ast.
Context {SJ : SerdeJson}.

Inductive Literal :=
| LitString (s : bytes)
| LitInt (i : Z)
| LitFloat (bits : Z)
| LitBool (b : bool)
| LitJson (j : JsonValue)
| LitNull.

Abbreviation LiteralMap := (bmap Literal).

Inductive Predicate :=
| PCompare (field_path : bytes) (op : QueryOp) (value : Literal)
| PContains (field_path needle : bytes)
| PAnd (a b : Predicate)
| POr (a b : Predicate).

Inductive Source :=
| SrcGet (type_name : bytes) (id : Z)
| SrcFilter (type_name : bytes) (predicate : Predicate)
| SrcCreate (type_name : bytes) (fields : LiteralMap)
| SrcCreateBatch (type_name : bytes) (rows : list LiteralMap)
| SrcAll (type_name : bytes).

Inductive Step :=
| Traverse (field_name : bytes)
| StepFilter (predicate : Predicate)
| Similar (field_name : bytes) (query : SimilarQuery) (k : Z) (ef rerank : option Z)
| Matches (field_name query : bytes) (k : Z)
| StepUpdate (fields : LiteralMap)
| StepDelete
| StepLink (target_type : bytes) (target_id : Z) (edge_fields : LiteralMap)
| StepUnlink (target_type : bytes) (target_id : Z)
| Limit (count : Z)
| Offset (count : Z).

Record Query := { q_source : Source; q_steps : list Step }.

Definition is_write (s : Step) : bool :=
  match s with StepUpdate _ | StepDelete | StepLink _ _ _ | StepUnlink _ _ => true | _ => false end.

End ast.

Abbreviation LiteralMap := (bmap Literal).

(** * Filters of a query *)

(** ** Results *)

Inductive QueryError :=
| QParse (pos : Z)
| QUnknownFunction (name : bytes)
| QEngine (e : EngineError)
| QType
| QInvalidArgument
| QResourceLimitExceeded
| QPermissionDenied.

(** [QPanic] and [QFuel] come from the engine. *)
Inductive qres (A : Type) := QOk (a : A) | QErr (e : QueryError) | QPanic | QFuel.
Arguments QOk {A} a.
Arguments QErr {A} e.
Arguments QPanic {A}.
Arguments QFuel {A}.

#[global] Instance qres_ret : MRet qres := @QOk.
#[global] Instance qres_bind : MBind qres := fun A B f m =>
  match m with QOk a => f a | QErr e => QErr e | QPanic => QPanic | QFuel => QFuel end.

(** [?] on an engine result. *)
Definition engine {A} (m : eres A) : qres A :=
  match m with EOk a => QOk a | EErr e => QErr (QEngine e) | EPanic => QPanic | EFuel => QFuel end.

(** ** Comparisons *)

Definition storage_op (op : QueryOp) : CompareOp :=
  match op with QEq => OpEq | QNe => OpNe | QLt => OpLt | QLe => OpLe | QGt => OpGt | QGe => OpGe end.

(** [compare_ord] at the types it is used with: integers, floats and strings. *)
Definition cmp_int (a : Z) (op : QueryOp) (b : Z) : bool := compare_int a (storage_op op) b.
Definition cmp_float (a : spec_float) (op : QueryOp) (b : spec_float) : bool := compare_partial a (storage_op op) b.
Definition cmp_str (a : bytes) (op : QueryOp) (b : bytes) : bool := compare_ord a (storage_op op) b.

(** [str::contains]. *)
Fixpoint str_contains (s needle : bytes) : bool :=
  starts_with s needle || match s with [] => false | _ :: s' => str_contains s' needle end.

(** Whether a field path is dotted, and its first segment. *)
Definition descends (path : bytes) : bool := existsb (fun b => b2z b =? 46) path.
Fixpoint head_segment (path : bytes) : bytes :=
  match path with [] => [] | b :: path' => if b2z b =? 46 then [] else b :: head_segment path' end.

(** ** Floats of 32 bits *)

(** [f as f32]: rounded to nearest; a NaN is made quiet and keeps the top of its payload. *)
Definition f64_as_f32 (bits : Z) : Z :=
  let sign := if f64_sign bits then 2 ^ 31 else 0 in
  if is_nan bits then sign + 255 * 2 ^ 23 + Z.lor (2 ^ 22) ((bits mod 2 ^ 52) / 2 ^ 29)
  else
    match f64_of bits with
    | S754_finite s m e => f32_bits (binary_normalize 24 128 (cond_Zopp s (Zpos m)) e s)
    | x => f32_bits x
    end.

Definition int_as_f32 (i : Z) : Z := f32_bits (binary_normalize 24 128 i 0 false).
Definition int_as_f64_bits (i : Z) : Z := f64_bits (int_as_f64 i).

Section plan.
Context {SJ : SerdeJson} {C : TextCodecs} {T : TextLib} {L : EngineLib}.

Definition json_eq (a b : JsonValue) (op : QueryOp) : bool :=
  match op with QEq => json_eqb a b | QNe => negb (json_eqb a b) | _ => false end.

Definition is_null_value (v : Value) : bool := match v with VNull => true | _ => false end.

Definition compare_values (field_val : Value) (op : QueryOp) (literal : Literal) : bool :=
  match field_val, literal with
  | VString a, LitString b => cmp_str a op b
  | VU32 a, LitInt b | VU64 a, LitInt b | VI32 a, LitInt b | VI64 a, LitInt b => cmp_int a op b
  | VF32 a, LitFloat b => cmp_float (f64_of (f32_to_f64 a)) op (f64_of b)
  | VF64 a, LitFloat b => cmp_float (f64_of a) op (f64_of b)
  | VF32 a, LitInt b => cmp_float (f64_of (f32_to_f64 a)) op (int_as_f64 b)
  | VF64 a, LitInt b => cmp_float (f64_of a) op (int_as_f64 b)
  | VU32 a, LitFloat b | VU64 a, LitFloat b | VI32 a, LitFloat b | VI64 a, LitFloat b =>
      cmp_float (int_as_f64 a) op (f64_of b)
  | VBool a, LitBool b => match op with QEq => Bool.eqb a b | QNe => negb (Bool.eqb a b) | _ => false end
  | VDateTime a, LitInt b => cmp_int a op b
  | VDateTime a, LitString b =>
      match datetime_millis_from_rfc3339 b with Some bms => cmp_int a op bms | None => false end
  | VJson a, LitJson b => json_eq a b op
  | VJson a, LitString b => json_eq a (JString b) op
  | VJson a, LitInt b => json_eq a (JNumber (number_from_int b)) op
  | VJson a, LitFloat b => json_eq a (json_float b) op
  | VJson a, LitBool b => json_eq a (JBool b) op
  | v, LitNull => match op with QEq => is_null_value v | QNe => negb (is_null_value v) | _ => false end
  | _, _ => false
  end.

Fixpoint evaluate_predicate (p : Predicate) (fs : FieldMap) : bool :=
  match p with
  | PCompare field_path op value =>
      match bm_get field_path fs with Some fv => compare_values fv op value | None => false end
  | PContains field_path needle =>
      match bm_get field_path fs with Some (VString s) => str_contains s needle | _ => false end
  | PAnd a b => evaluate_predicate a fs && evaluate_predicate b fs
  | POr a b => evaluate_predicate a fs || evaluate_predicate b fs
  end.

(** ** Literals as values *)

Definition fits_u32 (i : Z) : bool := (0 <=? i) && (i <? 2 ^ 32).
Definition fits_i32 (i : Z) : bool := (- 2 ^ 31 <=? i) && (i <? 2 ^ 31).

Definition literal_untyped (lit : Literal) : Value :=
  match lit with
  | LitString s => VString s
  | LitInt i => if fits_u32 i then VU32 i else VI64 i
  | LitFloat f => VF32 (f64_as_f32 f)
  | LitBool b => VBool b
  | LitJson v => VJson v
  | LitNull => VNull
  end.

Definition type_or {A} (o : option A) : qres A := match o with Some a => QOk a | None => QErr QType end.

Definition literal_to_value (lit : Literal) (target : option ScalarType) : qres Value :=
  match lit, target with
  | LitNull, _ => QOk VNull
  | _, None => QOk (literal_untyped lit)
  | LitString s, Some TString => QOk (VString s)
  | LitBool b, Some TBool => QOk (VBool b)
  | LitInt i, Some TU32 => if fits_u32 i then QOk (VU32 i) else QErr QType
  | LitInt i, Some TU64 => if 0 <=? i then QOk (VU64 i) else QErr QType
  | LitInt i, Some TI32 => if fits_i32 i then QOk (VI32 i) else QErr QType
  | LitInt i, Some TI64 => QOk (VI64 i)
  | LitFloat f, Some TF32 => QOk (VF32 (f64_as_f32 f))
  | LitFloat f, Some TF64 => QOk (VF64 f)
  | LitInt i, Some TF32 => QOk (VF32 (int_as_f32 i))
  | LitInt i, Some TF64 => QOk (VF64 (int_as_f64_bits i))
  | LitString s, Some TBytes => b ← type_or (bytes_from_base64 s); QOk (VBytes b)
  | LitString s, Some TDateTime => ms ← type_or (datetime_millis_from_rfc3339 s); QOk (VDateTime ms)
  | LitInt i, Some TDateTime => QOk (VDateTime i)
  | LitJson v, Some TJson => QOk (VJson v)
  | LitString s, Some TJson => QOk (VJson (JString s))
  | LitInt i, Some TJson => QOk (VJson (JNumber (number_from_int i)))
  | LitFloat f, Some TJson => QOk (VJson (json_float f))
  | LitBool b, Some TJson => QOk (VJson (JBool b))
  | _, Some _ => QErr QType
  end.

Variable db : Database.

Definition field_scalar_type (type_name field : bytes) : option ScalarType :=
  td ← get_type (schema db) type_name;
  f ← get_field td field;
  match field_type f with Scalar s => Some s | _ => None end.

Fixpoint coerce_all (target : bytes -> option ScalarType) (literals : LiteralMap) : qres FieldMap :=
  match literals with
  | [] => QOk []
  | (name, lit) :: literals =>
      v ← literal_to_value lit (target name);
      fs ← coerce_all target literals;
      QOk (bm_insert name v fs)
  end.

Definition literal_map_to_field_map (type_name : bytes) (literals : LiteralMap) : qres FieldMap :=
  coerce_all (field_scalar_type type_name) literals.

Definition edge_types (source_type field_name : bytes) : list EdgeFieldDef :=
  match td ← get_type (schema db) source_type; get_field td field_name with
  | Some fd => match field_type fd with Relation rel => edge_fields rel | _ => [] end
  | None => []
  end.

(** Among fields of one name the last, as they are collected in a map. *)
Definition edge_literal_map_to_field_map (source_type field_name : bytes) (literals : LiteralMap) : qres FieldMap :=
  coerce_all (fun name => ef_scalar_type <$> find (fun ef => beqb (ef_name ef) name) (rev (edge_types source_type field_name)))
    literals.

(** ** Checking a predicate against the schema *)

Fixpoint validate_predicate_for_type (type_name : bytes) (p : Predicate) : qres unit :=
  match p with
  | PCompare field_path op value =>
      match field_scalar_type type_name (head_segment field_path) with
      | Some TJson =>
          if descends field_path then QErr QType
          else match op with QLt | QLe | QGt | QGe => QErr QType | _ => QOk tt end
      | Some TBytes =>
          match value, op with
          | LitNull, (QEq | QNe) => if descends field_path then QErr QType else QOk tt
          | _, _ => QErr QType
          end
      | _ => QOk tt
      end
  | PContains field_path _ =>
      match field_scalar_type type_name (head_segment field_path) with
      | Some TString => if descends field_path then QErr QType else QOk tt
      | _ => QErr QType
      end
  | PAnd a b | POr a b =>
      _ ← validate_predicate_for_type type_name a; validate_predicate_for_type type_name b
  end.

(** ** Access paths *)

Variable r : Reader.

Definition some_objects (m : eres (list Obj)) : qres (option (list Obj)) := objs ← engine m; QOk (Some objs).

Definition try_filter_scan (type_name : bytes) (p : Predicate) (limit : option Z) : qres (option (list Obj)) :=
  match p with
  | PCompare field_path op value =>
      if descends field_path then QOk None
      else
        let sop := storage_op op in
        match field_scalar_type type_name field_path, value with
        | Some TJson, _ => QOk None
        | Some TDateTime, LitInt i => some_objects (filter_scan_at db r type_name field_path sop i limit)
        | Some TDateTime, LitString s =>
            match datetime_millis_from_rfc3339 s with
            | Some ms => some_objects (filter_scan_at db r type_name field_path sop ms limit)
            | None => QOk None
            end
        | Some TDateTime, _ => QOk None
        | _, LitInt i => some_objects (filter_scan_at db r type_name field_path sop i limit)
        | _, LitString s => some_objects (filter_scan_str_at db r type_name field_path sop s limit)
        | _, LitBool b => some_objects (filter_scan_bool_at db r type_name field_path sop b limit)
        | _, LitFloat f => some_objects (filter_scan_float_at db r type_name field_path sop f limit)
        | _, LitJson _ | _, LitNull => QOk None
        end
  | _ => QOk None
  end.

Definition unique_kind (st : ScalarType) : bool :=
  match st with TString | TU32 | TU64 | TI32 | TI64 | TDateTime | TBool => true | _ => false end.

Definition unique_eq_probe (type_name : bytes) (compare : Predicate) : qres (option (list Obj)) :=
  match compare with
  | PCompare field_path QEq value =>
      if descends field_path || negb (is_field_unique db type_name field_path) then QOk None
      else
        match field_scalar_type type_name field_path with
        | None => QOk None
        | Some st =>
            if unique_kind st then
              match literal_to_value value (Some st) with
              | QOk VNull => QOk None
              | QOk coerced =>
                  found ← engine (find_by_unique_at db (rd_map r) type_name field_path coerced);
                  QOk (Some (match found with Some o => [o] | None => [] end))
              | _ => QOk None
              end
            else QOk None
        end
  | _ => QOk None
  end.

(** Sorting by id, stable; and dropping adjacent objects of one id. *)
Definition id_le (a b : Obj) : Prop := obj_id a <= obj_id b.
#[global] Instance id_le_decision a b : Decision (id_le a b).
Proof. unfold id_le. apply _. Defined.

Fixpoint dedup_by_id (l : list Obj) : list Obj :=
  match l with
  | [] => []
  | o :: l =>
      match dedup_by_id l with
      | o' :: l' => if obj_id o =? obj_id o' then o :: l' else o :: o' :: l'
      | [] => [o]
      end
  end.

Definition refilter_and_sort (p : Predicate) (candidates : list Obj) : list Obj :=
  dedup_by_id (merge_sort id_le (List.filter (fun o => evaluate_predicate p (obj_fields o)) candidates)).

Definition has_id (objs : list Obj) (id : Z) : bool := existsb (fun o => obj_id o =? id) objs.

(** Two sets: the smaller, the first on a tie, cut to the ids of the other. *)
Definition intersect_by_id (a b : list Obj) : list Obj :=
  if (length a <=? length b)%nat then List.filter (fun o => has_id b (obj_id o)) a
  else List.filter (fun o => has_id a (obj_id o)) b.

Fixpoint flatten_and (p : Predicate) : list Predicate :=
  match p with PAnd a b => flatten_and a ++ flatten_and b | _ => [p] end.

Fixpoint flatten_or (p : Predicate) : list Predicate :=
  match p with POr a b => flatten_or a ++ flatten_or b | _ => [p] end.

(** Whether the comparison of a field of the type with the literal walks the
    index. *)
Definition hits_index (st : ScalarType) (op : QueryOp) (value : Literal) : bool :=
  match st, value with
  | TU32, LitInt i => fits_u32 i
  | TU64, LitInt i => 0 <=? i
  | TI32, LitInt i => fits_i32 i
  | TI64, LitInt _ => true
  | TDateTime, (LitInt _ | LitString _) => true
  | TString, LitString _ => true
  | TBool, LitBool _ => true
  | (TF32 | TF64), LitFloat _ => negb (bool_decide (op = QEq))
  | _, _ => false
  end.

Definition conjunct_index_generator (type_name : bytes) (conjunct : Predicate) : option Z :=
  match conjunct with
  | PCompare field_path op value =>
      if descends field_path || bool_decide (op = QNe) || negb (is_field_indexed db type_name field_path) then None
      else
        st ← field_scalar_type type_name field_path;
        if hits_index st op value then
          Some (match op, st with QEq, TBool => 2 | QEq, _ => 0 | _, _ => 1 end)
        else None
  | _ => None
  end.

(** [min_by_key]: the first of least rank. *)
Fixpoint best_generator (type_name : bytes) (conjuncts : list Predicate) : option (Z * Predicate) :=
  match conjuncts with
  | [] => None
  | c :: conjuncts =>
      match conjunct_index_generator type_name c, best_generator type_name conjuncts with
      | Some rank, Some (rank', c') => if rank <=? rank' then Some (rank, c) else Some (rank', c')
      | Some rank, None => Some (rank, c)
      | None, best => best
      end
  end.

(** The first conjunct that is a usable unique lookup. *)
Fixpoint first_probe (type_name : bytes) (conjuncts : list Predicate) : qres (option (list Obj)) :=
  match conjuncts with
  | [] => QOk None
  | c :: conjuncts =>
      found ← unique_eq_probe type_name c;
      match found with Some objs => QOk (Some objs) | None => first_probe type_name conjuncts end
  end.

Definition eq_generators (type_name : bytes) (conjuncts : list Predicate) : list Predicate :=
  take 2 (List.filter (fun c => bool_decide (conjunct_index_generator type_name c = Some 0)) conjuncts).

(** The best index, without a limit. *)
Definition plan_single (type_name : bytes) (p : Predicate) (conjuncts : list Predicate) : qres (option (list Obj)) :=
  match best_generator type_name conjuncts with
  | None => QOk None
  | Some (_, generator) =>
      candidates ← try_filter_scan type_name generator None;
      QOk (option_map (refilter_and_sort p) candidates)
  end.

Definition plan_and (type_name : bytes) (p : Predicate) (conjuncts : list Predicate) : qres (option (list Obj)) :=
  probe ← first_probe type_name conjuncts;
  match probe with
  | Some objs => QOk (Some (refilter_and_sort p objs))
  | None =>
      match eq_generators type_name conjuncts with
      | [g1; g2] =>
          s1 ← try_filter_scan type_name g1 None;
          s2 ← try_filter_scan type_name g2 None;
          match s1, s2 with
          | Some a, Some b => QOk (Some (refilter_and_sort p (intersect_by_id a b)))
          | _, _ => plan_single type_name p conjuncts
          end
      | _ => plan_single type_name p conjuncts
      end
  end.

(** The union of the scans of the disjuncts, if each has an index. *)
Fixpoint union_scan (type_name : bytes) (disjuncts : list Predicate) : qres (option (list Obj)) :=
  match disjuncts with
  | [] => QOk (Some [])
  | d :: disjuncts =>
      probe ← unique_eq_probe type_name d;
      found ←
        match probe with
        | Some objs => QOk (Some objs)
        | None =>
            match conjunct_index_generator type_name d with
            | Some _ => try_filter_scan type_name d None
            | None => QOk None
            end
        end;
      match found with
      | None => QOk None
      | Some objs => rest ← union_scan type_name disjuncts; QOk (option_map (app objs) rest)
      end
  end.

Definition plan_or_union (type_name : bytes) (p : Predicate) (disjuncts : list Predicate) : qres (option (list Obj)) :=
  if (length disjuncts <? 2)%nat then QOk None
  else unioned ← union_scan type_name disjuncts; QOk (option_map (refilter_and_sort p) unioned).

Definition plan_filter_scan (type_name : bytes) (p : Predicate) (pushed_limit : option Z) : qres (option (list Obj)) :=
  match p with
  | PCompare _ _ _ =>
      probe ← unique_eq_probe type_name p;
      match probe with
      | Some objs => QOk (Some (refilter_and_sort p objs))
      | None => try_filter_scan type_name p pushed_limit
      end
  | PAnd _ _ => plan_and type_name p (flatten_and p)
  | POr _ _ => plan_or_union type_name p (flatten_or p)
  | PContains _ _ => QOk None
  end.

End plan.
