(* ===== verification/QueryPlanProps.v ===== *)
(** * The planner returns what a scan and the predicate would *)

From Stdlib Require Import ZArith Lia Bool List Strings.Byte Strings.String Sorting.Sorted Sorting.Permutation.
From stdpp Require Import base tactics option list sorting gmap.
From S2P Require Import Prelude ByteMap Keys Layers Zone Utf8 Values Ieee Schema IndexKeys Posting Store Fulltext.
From S2P Require Import Engine EngineEdges EngineOps EngineInv EngineProps FilterScan FilterSpec FilterProps ScanChunks.
From S2P Require Import Serde QueryPlan.

Local Open Scope Z_scope.
Local Open Scope bytes_scope.

(** ** Lists of objects in the order of their ids *)

Lemma as_i64_range x : is_i64 (as_i64 x).
Proof. unfold is_i64, as_i64. pose proof (Z.mod_pos_bound x (2 ^ 64) ltac:(lia)). cbn zeta. case_match eqn:E; lia. Qed.

Section ordered.
Context {SJ : SerdeJson}.
Implicit Types l : list Obj.

Definition by_id (a b : Obj) : Prop := obj_id a < obj_id b.
Definition ordered l : Prop := StronglySorted by_id l.

Lemma ordered_ext l1 l2 : ordered l1 -> ordered l2 -> (forall o, In o l1 <-> In o l2) -> l1 = l2.
Proof.
  revert l2. induction l1 as [|a l1 IH]; intros [|b l2] H1 H2 Hin; [done| | |].
  - exfalso. by apply (Hin b); left.
  - exfalso. by apply (Hin a); left.
  - apply StronglySorted_inv in H1 as [H1 Ha], H2 as [H2 Hb]. rewrite List.Forall_forall in Ha, Hb.
    assert (a = b) as ->.
    { destruct (proj1 (Hin a) ltac:(by left)) as [->|Hab]; [done|]. destruct (proj2 (Hin b) ltac:(by left)) as [->|Hba]; [done|].
      apply Hb in Hab. apply Ha in Hba. unfold by_id in *. lia. }
    f_equal. apply IH; [done|done|]. intros o. split; intros Ho.
    + destruct (proj1 (Hin o) ltac:(by right)) as [->|]; [|done]. apply Ha in Ho. unfold by_id in Ho. lia.
    + destruct (proj2 (Hin o) ltac:(by right)) as [->|]; [|done]. apply Hb in Ho. unfold by_id in Ho. lia.
Qed.

Lemma ordered_filter P l : ordered l -> ordered (List.filter P l).
Proof.
  unfold ordered. induction l as [|a l IH]; intros Hs; [done|]. apply StronglySorted_inv in Hs as [Hs Ha]. cbn [List.filter].
  destruct (P a); [|auto]. constructor; [auto|]. rewrite List.Forall_forall in *. intros x [Hx _]%filter_In. auto.
Qed.

Lemma ordered_inj l a b : ordered l -> In a l -> In b l -> obj_id a = obj_id b -> a = b.
Proof.
  induction l as [|c l IH]; [done|]. intros Hs Ha Hb E. apply StronglySorted_inv in Hs as [Hs Hc].
  rewrite List.Forall_forall in Hc. destruct Ha as [->|Ha], Hb as [->|Hb]; [done| | |by apply IH].
  - apply Hc in Hb. unfold by_id in Hb. lia.
  - apply Hc in Ha. unfold by_id in Ha. lia.
Qed.

Lemma dedup_head l : hd_error (map obj_id (dedup_by_id l)) = hd_error (map obj_id l).
Proof.
  destruct l as [|o l]; [done|]. cbn [dedup_by_id]. destruct (dedup_by_id l) as [|o' l']; [done|]. by case_match.
Qed.

Lemma dedup_in o l : In o (dedup_by_id l) -> In o l.
Proof.
  induction l as [|a l IH]; [done|]. cbn [dedup_by_id]. destruct (dedup_by_id l) as [|o' l'].
  - intros [->|[]]. by left.
  - case_match; intros [->|Ho]; [by left|right; apply IH; by right|by left|right; by apply IH].
Qed.

Lemma dedup_ids o l : In o l -> exists o', In o' (dedup_by_id l) /\ obj_id o' = obj_id o.
Proof.
  induction l as [|a l IH]; [done|]. cbn [dedup_by_id]. intros [->|Ho].
  - exists o. split; [|done]. destruct (dedup_by_id l); [by left|]. case_match; by left.
  - destruct (IH Ho) as (o' & Hin & E). destruct (dedup_by_id l) as [|b l']; [done|].
    destruct (Z.eqb_spec (obj_id a) (obj_id b)) as [Hab|_]; [|exists o'; split; [by right|done]].
    destruct Hin as [->|Hin]; [exists a; split; [by left|lia]|exists o'; split; [by right|done]].
Qed.

Lemma dedup_ordered l : StronglySorted id_le l -> ordered (dedup_by_id l).
Proof.
  unfold ordered. induction l as [|a l IH]; intros Hs; [constructor|]. apply StronglySorted_inv in Hs as [Hs Ha].
  specialize (IH Hs). cbn [dedup_by_id]. pose proof (fun o => dedup_in o l) as Hin.
  destruct (dedup_by_id l) as [|b l']; [by repeat constructor|].
  apply StronglySorted_inv in IH as [Hl Hb]. rewrite List.Forall_forall in Ha.
  assert (obj_id a <= obj_id b) as Hab by (apply Ha, Hin; by left).
  destruct (Z.eqb_spec (obj_id a) (obj_id b)) as [E|E].
  - constructor; [done|]. eapply List.Forall_impl; [|exact Hb]. unfold by_id. intros. lia.
  - constructor; [by constructor|]. constructor; [unfold by_id; lia|]. eapply List.Forall_impl; [|exact Hb].
    unfold by_id. intros. lia.
Qed.

#[local] Instance id_le_total : Total id_le.
Proof. intros a b. unfold id_le. lia. Qed.
#[local] Instance id_le_trans : Transitive id_le.
Proof. intros a b c. unfold id_le. lia. Qed.

Lemma refilter_exact {C : TextCodecs} {L : EngineLib} p all cs : ordered all ->
  (forall o, In o cs -> In o all) -> (forall o, In o all -> evaluate_predicate p (obj_fields o) = true -> In o cs) ->
  refilter_and_sort p cs = List.filter (fun o => evaluate_predicate p (obj_fields o)) all.
Proof.
  intros Hall Hsub Hcov. unfold refilter_and_sort.
  set (ev := fun o => evaluate_predicate p (obj_fields o)) in *. set (l := merge_sort id_le (List.filter ev cs)).
  assert (Hl : forall o, In o l <-> In o cs /\ ev o = true).
  { intros o. unfold l. rewrite <- filter_In, <- !list_elem_of_In. by rewrite (merge_sort_Permutation id_le). }
  apply ordered_ext; [apply dedup_ordered, (StronglySorted_merge_sort id_le)|by apply ordered_filter|].
  intros o. rewrite filter_In. split.
  - intros Ho. apply dedup_in, Hl in Ho as [Ho He]. auto.
  - intros [Ho He]. assert (In o l) as Hol by (apply Hl; auto). destruct (dedup_ids o l Hol) as (o' & Ho' & E).
    assert (o' = o) as <-; [|done]. apply (ordered_inj all); [done| |done|done].
    apply dedup_in, Hl in Ho' as [Ho' _]. auto.
Qed.

End ordered.

Section plan.
Context {SJ : SerdeJson} {C : TextCodecs} {T : TextLib} {L : EngineLib} {LL : EngineLibLaws L}.
Variables (db : Database) (n : list Z) (r : Reader) (tn : bytes) (td : TypeDef) (tid : Z).
Hypothesis Hdb : db_ok db.
Hypothesis Hst : store_ok db n (rd_map r).
Hypothesis Hr : reader_ok db (zone_extract db) r.
Hypothesis Htid : resolve_type_id db tn = EOk tid.
Hypothesis Htd : get_type (schema db) tn = Some td.
(** Scalar fields of the type. *)
Definition scalar_fd (f : bytes) (fd : FieldDef) : Prop := get_field td f = Some fd /\ exists st, field_type fd = Scalar st.

(** They are not hidden from reads and have an id. *)
Hypothesis Hfields : forall f fd, scalar_fd f fd ->
  shown db tn f = true /\ is_Some (bm_get (qualified tn f) (field_ids db)).

(** The objects of the type. *)
Definition type_objects : list Obj := map (row_obj db tn) (object_rows (rd_map r) tid).

Lemma Hty : type_of db tn td tid.
Proof. split; [done|by apply resolve_ok]. Qed.

Lemma scan_type_objects : scan_type db (rd_map r) tn = EOk type_objects.
Proof. exact (scan_type_rows db n r Hst tn td tid [] Htid Htd). Qed.

(** An object of the type as its row decodes. *)
Definition shows (o : Obj) (fm : FieldMap) : Prop :=
  is_u64 (obj_id o) /\ obj (rd_map r) tid (obj_id o) = Some fm /\
  o = {| obj_type := tn; obj_id := obj_id o; obj_fields := strip_tombstoned_fields db tn fm |}.

Lemma in_type_objects o : In o type_objects <-> exists fm, shows o fm.
Proof.
  unfold type_objects. rewrite in_map_iff. split.
  - intros ([k c] & <- & He). destruct (object_row db n (rd_map r) Hst tn td tid Hty k c He) as (id & fm & Hu & -> & _ & Ho & Hd & _).
    exists fm. unfold shows, row_obj. cbn [obj_id fst]. rewrite key_id_object by done. unfold row_fields. cbn [snd]. by rewrite Hd.
  - intros (fm & Hu & Ho & E). destruct (object_row_in db n (rd_map r) Hst tid (obj_id o) fm Ho) as (c & Hin & Hd).
    exists (KeyBuilder.object tid (obj_id o), c). split; [|done]. rewrite E. unfold row_obj, row_fields. cbn [fst snd obj_id].
    rewrite key_id_object by done. by rewrite Hd.
Qed.

Lemma type_objects_ordered : ordered type_objects.
Proof.
  unfold ordered, type_objects.
  assert (bsorted (object_rows (rd_map r) tid)) as Hs by apply bsorted_filter, Hst.
  pose proof (fun k c => object_row db n (rd_map r) Hst tn td tid Hty k c) as Hrow.
  induction (object_rows (rd_map r) tid) as [|[k c] l IH]; [constructor|]. apply StronglySorted_inv in Hs as [Hs Hk].
  cbn [map]. constructor; [apply IH; [done|]; intros; apply Hrow; by right|].
  rewrite List.Forall_forall in Hk |- *. intros o (e & <- & He)%in_map_iff. destruct e as [k' c'].
  destruct (Hrow k c ltac:(by left)) as (i & _ & Hi & -> & _), (Hrow k' c' ltac:(by right)) as (j & _ & Hj & -> & _).
  apply Hk in He. cbn [fst] in He. unfold blt in He. rewrite object_cmp in He by done.
  unfold by_id, row_obj. cbn [obj_id fst]. rewrite !key_id_object by done. by apply Z.compare_lt_iff.
Qed.

(** ** One comparison *)

(** Literals in their range; a float compared with a float field is no NaN and
    no zero of the other sign than a stored one. *)
Definition leaf_ok (f : bytes) (lit : Literal) : Prop :=
  match lit with
  | LitInt i => is_i64 i
  | LitFloat b => is_u64 b /\ forall fd, get_field td f = Some fd -> is_float (field_type fd) = true ->
      is_nan b = false /\ forall v, held r tid f v -> float_plain b v
  | _ => True
  end.

Section leaf.
Variables (f : bytes) (fd : FieldDef) (op : QueryOp) (lit : Literal).
Hypothesis Hsc : scalar_fd f fd.
Hypothesis Hlit : leaf_ok f lit.

Lemma leaf_field : get_field td f = Some fd.
Proof. apply Hsc. Qed.

Lemma scalar_of : field_scalar_type db tn f = match field_type fd with Scalar s => Some s | _ => None end.
Proof. unfold field_scalar_type. rewrite Htd. cbn [mbind option_bind]. by rewrite leaf_field. Qed.

Lemma float_leaf sop b : lit = LitFloat b ->
  filters db (rd_map r) tn f (passes_float sop b) (filter_scan_float_at db r tn f sop b).
Proof.
  intros ->. destruct (Hfields f fd Hsc) as [Hsh Hid], Hlit as [Hu Hf].
  destruct (is_float (field_type fd)) eqn:Ef.
  - destruct (Hf fd leaf_field Ef) as [Hnan Hplain].
    by apply (float_filters db Hdb n r Hst Hr tn td tid f fd Htid Htd leaf_field Hsh).
  - unfold filter_scan_float_at. rewrite Htid. cbn [mbind eres_bind].
    rewrite (filter_field_ok db tn td f fd Htd leaf_field). cbn [mbind eres_bind]. rewrite Ef. by apply (fallback_filters db n r Hst tn td tid f Htid Htd Hsh).
Qed.

(** A scan that tests the field with [P] instead of the comparison. *)
Definition leaf_scan (P : Value -> bool) (run : option Z -> eres (list Obj)) : Prop :=
  filters db (rd_map r) tn f P run /\
  (forall limit, try_filter_scan db r tn (PCompare f op lit) limit = some_objects (run limit)) /\
  (forall v, held r tid f v -> compare_values v op lit = true -> P v = true) /\
  ((forall b, lit = LitBool b -> op = QEq \/ op = QNe) -> forall v, held r tid f v -> P v = compare_values v op lit).

Lemma leaf_scan_intro P run : filters db (rd_map r) tn f P run ->
  (forall limit, try_filter_scan db r tn (PCompare f op lit) limit = some_objects (run limit)) ->
  (forall v, held r tid f v -> P v = compare_values v op lit) -> leaf_scan P run.
Proof. intros H1 H2 H3. split_and!; [done|done| |by intros _]. intros v Hv Hc. by rewrite H3. Qed.

Lemma held_valid v : held r tid f v -> validate_value fd v = true.
Proof.
  destruct (Hfields f fd Hsc) as [Hsh _]. intros Hv.
  by apply (held_typed db n r Hst tn td tid f fd Htid Htd leaf_field Hsh v Hv).
Qed.

Definition is_json_value (v : Value) : bool := match v with VJson _ => true | _ => false end.
Definition is_time_value (v : Value) : bool := match v with VDateTime _ => true | _ => false end.

Lemma held_not_json v : field_type fd <> Scalar TJson -> held r tid f v -> is_json_value v = false.
Proof.
  intros Hn Hv%held_valid. destruct v; try done. unfold validate_value in Hv. cbn [is_null] in Hv.
  by destruct (field_type fd) as [[]| |].
Qed.

Lemma held_not_time v : field_type fd <> Scalar TDateTime -> held r tid f v -> is_time_value v = false.
Proof.
  intros Hn Hv%held_valid. destruct v; try done. unfold validate_value in Hv. cbn [is_null] in Hv.
  by destruct (field_type fd) as [[]| |].
Qed.

Lemma held_time v : field_type fd = Scalar TDateTime -> held r tid f v -> v = VNull \/ exists ms, v = VDateTime ms.
Proof.
  intros Hn Hv%held_valid. unfold validate_value in Hv. rewrite Hn in Hv. destruct v; try done; eauto.
Qed.

Lemma int_agrees i v : is_json_value v = false -> passes_int (storage_op op) i v = compare_values v op (LitInt i).
Proof. by destruct v. Qed.

Lemma str_agrees t v : is_json_value v = false -> is_time_value v = false ->
  passes_str (storage_op op) t v = compare_values v op (LitString t).
Proof. by destruct v. Qed.

Lemma float_agrees b v : is_json_value v = false -> passes_float (storage_op op) b v = compare_values v op (LitFloat b).
Proof. by destruct v. Qed.

Lemma bool_agrees b v : op = QEq \/ op = QNe -> is_json_value v = false ->
  passes_bool (storage_op op) b v = compare_values v op (LitBool b).
Proof. intros [->| ->]; destruct v as [| | | | | | |[]| | | |]; by destruct b. Qed.

Lemma bool_superset b v : is_json_value v = false -> compare_values v op (LitBool b) = true ->
  passes_bool (storage_op op) b v = true.
Proof. destruct v as [| | | | | | |[]| | | |]; try done; by destruct op, b. Qed.

Lemma try_leaf : descends f = false ->
  (forall limit, try_filter_scan db r tn (PCompare f op lit) limit = QOk None) \/ exists P run, leaf_scan P run.
Proof.
  intros Hd. destruct (Hfields f fd Hsc) as [Hsh Hid].
  pose proof (int_filters db Hdb n r Hst Hr tn td tid f fd Htid Htd leaf_field Hsh Hid) as Fint.
  pose proof (bool_filters db Hdb n r Hst Hr tn td tid f fd Htid Htd leaf_field Hsh) as Fbool.
  pose proof (str_filters db Hdb n r Hst Hr tn td tid f fd Htid Htd leaf_field Hsh) as Fstr.
  pose proof float_leaf as Ffloat.
  assert (forall st, {field_type fd = Scalar st} + {field_type fd <> Scalar st}) as Hst_dec.
  { intros st. destruct (field_type fd) as [st'| |]; [|by right..]. destruct st, st'; first [by left|by right]. }
  destruct (Hst_dec TJson) as [Ej|Ej]; [left; intros limit; cbn [try_filter_scan]; by rewrite Hd, scalar_of, Ej|].
  pose proof (fun v => held_not_json v Ej) as Hj.
  destruct (Hst_dec TDateTime) as [Edt|Edt].
  - assert (Et : forall limit, try_filter_scan db r tn (PCompare f op lit) limit =
      match lit with
      | LitInt i => some_objects (filter_scan_at db r tn f (storage_op op) i limit)
      | LitString s =>
          match datetime_millis_from_rfc3339 s with
          | Some ms => some_objects (filter_scan_at db r tn f (storage_op op) ms limit)
          | None => QOk None
          end
      | _ => QOk None
      end) by (intros limit; cbn [try_filter_scan]; by rewrite Hd, scalar_of, Edt).
    destruct lit as [s|i| | | |] eqn:El; try (by left).
    + destruct (datetime_millis_from_rfc3339 s) as [ms|] eqn:Ems; [|by left].
      right. eexists _, _. apply leaf_scan_intro; [apply (Fint (storage_op op) ms)|intros; by rewrite El, Et|].
      * unfold datetime_millis_from_rfc3339 in Ems. destruct (parse_rfc3339 s); [|done]. injection Ems as <-. apply as_i64_range.
      * intros v Hv. rewrite El. destruct (held_time v Edt Hv) as [->|[x ->]]; cbn; [done|]. by rewrite Ems.
    + right. eexists _, _. apply leaf_scan_intro; [apply (Fint (storage_op op) i Hlit)|intros; by rewrite El, Et|].
      intros v Hv. rewrite El. by apply int_agrees, Hj.
  - assert (Et : forall limit, try_filter_scan db r tn (PCompare f op lit) limit =
      match lit with
      | LitInt i => some_objects (filter_scan_at db r tn f (storage_op op) i limit)
      | LitString s => some_objects (filter_scan_str_at db r tn f (storage_op op) s limit)
      | LitBool b => some_objects (filter_scan_bool_at db r tn f (storage_op op) b limit)
      | LitFloat b => some_objects (filter_scan_float_at db r tn f (storage_op op) b limit)
      | _ => QOk None
      end) by (intros limit; cbn [try_filter_scan]; rewrite Hd, scalar_of; by destruct (field_type fd) as [[]| |], lit).
    destruct lit as [s|i|b|b| |] eqn:El; try (by left).
    + right. eexists _, _. apply leaf_scan_intro; [apply (Fstr (storage_op op) s)|intros; by rewrite El, Et|].
      intros v Hv. rewrite El. apply str_agrees; [by apply Hj|by apply held_not_time].
    + right. eexists _, _. apply leaf_scan_intro; [apply (Fint (storage_op op) i Hlit)|intros; by rewrite El, Et|].
      intros v Hv. rewrite El. by apply int_agrees, Hj.
    + right. eexists _, _. apply leaf_scan_intro; [apply (Ffloat (storage_op op) b eq_refl)|intros; by rewrite El, Et|].
      intros v Hv. rewrite El. by apply float_agrees, Hj.
    + right. exists (passes_bool (storage_op op) b), (filter_scan_bool_at db r tn f (storage_op op) b).
      split_and!; [apply Fbool|intros; by rewrite El, Et| |].
      * intros v Hv. rewrite El. by apply bool_superset, Hj.
      * intros Hop v Hv. rewrite El. apply bool_agrees; [by apply (Hop b)|by apply Hj].
Qed.
End leaf.

(** ** Candidates *)

(** A [Vec] holds at most [usize::MAX] objects. *)
Hypothesis Hlen : Z.of_nat (length type_objects) <= u64_max.

Definition ev (p : Predicate) (o : Obj) : bool := evaluate_predicate p (obj_fields o).

(** The candidates are objects of the type and hold all that satisfy [p]. *)
Definition covers (p : Predicate) (cs : list Obj) : Prop :=
  (forall o, In o cs -> In o type_objects) /\ (forall o, In o type_objects -> ev p o = true -> In o cs).

(** The scan succeeds; what it returns covers [p]. *)
Definition sound (p : Predicate) (m : qres (option (list Obj))) : Prop :=
  exists res, m = QOk res /\ forall cs, res = Some cs -> covers p cs.

Lemma refilter_covers p cs : covers p cs -> refilter_and_sort p cs = List.filter (ev p) type_objects.
Proof. intros [H1 H2]. apply refilter_exact; [apply type_objects_ordered|done|done]. Qed.

Lemma object_held f fd o v : scalar_fd f fd -> In o type_objects -> bm_get f (obj_fields o) = Some v -> held r tid f v.
Proof.
  intros Hsc Ho Hv. destruct (Hfields f fd Hsc) as [Hsh _]. apply in_type_objects in Ho as (fm & _ & Ho & E).
  rewrite E in Hv. cbn [obj_fields] in Hv. rewrite shown_get in Hv by done. by exists (obj_id o), fm.
Qed.

Lemma leaf_passes f fd op lit P o : scalar_fd f fd -> In o type_objects ->
  (forall v, held r tid f v -> P v = compare_values v op lit) -> obj_passes f P o = ev (PCompare f op lit) o.
Proof.
  intros Hsc Ho HP. unfold obj_passes, ev. cbn [evaluate_predicate].
  destruct (bm_get f (obj_fields o)) as [v|] eqn:Ev; [|done]. eapply HP, object_held; eauto.
Qed.

(** A filter without a limit returns a permutation of what passes. *)
Lemma filters_all f P run limit : filters db (rd_map r) tn f P run -> (forall k, limit = Some k -> 0 <= k) ->
  exists all, all ≡ₚ List.filter (obj_passes f P) type_objects /\ run limit = EOk (take (Z.to_nat (cap limit)) all) /\
    (limit = None -> run limit = EOk all).
Proof.
  intros (objs & all & Hs & Hp & Hrun) Hl. rewrite scan_type_objects in Hs. injection Hs as <-. exists all.
  split; [done|]. split; [by apply Hrun|]. intros ->. rewrite Hrun by done. f_equal. apply take_ge.
  apply Permutation_length in Hp. rewrite Hp. etrans; [apply List.filter_length_le|]. cbn [cap default]. lia.
Qed.

Lemma leaf_sound f fd op lit : scalar_fd f fd -> leaf_ok f lit -> descends f = false ->
  sound (PCompare f op lit) (try_filter_scan db r tn (PCompare f op lit) None).
Proof.
  intros Hsc Hlit Hd. destruct (try_leaf f fd op lit Hsc Hlit Hd) as [Hn|(P & run & Hf & Ht & Hsup & _)].
  - exists None. split; [apply Hn|done].
  - destruct (filters_all f P run None Hf) as (all & Hp & _ & Hall); [done|].
    exists (Some all). rewrite Ht, Hall by done. split; [done|]. intros cs [= <-].
    assert (Hin : forall o, In o all <-> In o type_objects /\ obj_passes f P o = true).
    { intros o. rewrite <- filter_In, <- !list_elem_of_In. by rewrite Hp. }
    split; intros o; [by intros [? _]%Hin|]. intros Ho He. apply Hin. split; [done|].
    unfold ev in He. cbn [evaluate_predicate] in He. unfold obj_passes.
    destruct (bm_get f (obj_fields o)) as [v|] eqn:Ev; [|done]. apply Hsup; [|done]. by eapply object_held.
Qed.

(** ** Unique lookups *)

Lemma eq_coerced st value coerced fv : unique_kind st = true -> literal_to_value value (Some st) = QOk coerced ->
  scalar_matches st fv = true -> compare_values fv QEq value = true -> fv = coerced.
Proof.
  intros Hk Hc Hm He.
  destruct st; try done; destruct value as [s|i| |b| |]; try done; destruct fv; try done; cbn in Hc, He;
    repeat (case_match; try done); injection Hc as <-; f_equal;
    first [by apply bytes_cmp_eq | by apply Z.compare_eq | by apply Bool.eqb_prop | idtac].
Qed.

Lemma scalar_field f st : field_scalar_type db tn f = Some st -> exists fd, scalar_fd f fd /\ field_type fd = Scalar st.
Proof.
  unfold field_scalar_type. rewrite Htd. cbn [mbind option_bind]. destruct (get_field td f) as [fd|] eqn:Hfd; [|done].
  cbn [mbind option_bind]. destruct (field_type fd) eqn:E; try done. intros [= ->]. exists fd. split; [|done]. split; [done|by exists st].
Qed.

Lemma unique_field f fd : scalar_fd f fd -> is_field_unique db tn f = true -> exists fid, ufield db tn tid f fid.
Proof.
  unfold is_field_unique. rewrite Htd. cbn [mbind option_bind]. intros Hsc. pose proof (proj1 Hsc) as Hfd. rewrite Hfd. intros Hu.
  destruct (Hfields f fd Hsc) as [_ [fid Hid]]. exists fid, td, fd. split_and!; [exact Hty|done..].
Qed.

Lemma probe_found f fd st value coerced : scalar_fd f fd -> field_type fd = Scalar st ->
  is_field_unique db tn f = true -> unique_kind st = true -> literal_to_value value (Some st) = QOk coerced ->
  is_null coerced = false ->
  exists found, find_by_unique_at db (rd_map r) tn f coerced = EOk found /\
    covers (PCompare f QEq value) (match found with Some o => [o] | None => [] end).
Proof.
  intros Hsc Hst' Hu Hk Hc Hnn. destruct (unique_field f fd Hsc Hu) as [fid Huf]. destruct (Hfields f fd Hsc) as [Hsh _].
  destruct (find_by_unique_spec db n (rd_map r) tn tid f fid coerced Hst Htid Huf) as (found & Hf & Ha).
  exists found. split; [done|].
  assert (Hcov : forall o, In o type_objects -> ev (PCompare f QEq value) o = true ->
    is_u64 (obj_id o) /\ uval f (obj (rd_map r) tid (obj_id o)) = Some (value_to_index_bytes coerced)).
  { intros o Ho He. unfold ev in He. cbn [evaluate_predicate] in He.
    destruct (bm_get f (obj_fields o)) as [fv|] eqn:Ev; [|done].
    assert (Hh : held r tid f fv) by (by eapply object_held).
    apply (held_valid f fd Hsc) in Hh. unfold validate_value in Hh. rewrite Hst' in Hh.
    assert (fv = coerced) as ->.
    { destruct (is_null fv) eqn:En; [|by eapply eq_coerced]. destruct fv; try done. destruct value; try done. injection Hc as <-. done. }
    apply in_type_objects in Ho as (fm & Hu64 & Ho & E). split; [done|]. rewrite E in Ev. cbn [obj_fields] in Ev.
    rewrite shown_get in Ev by done. rewrite Ho. unfold uval. cbn [mbind option_bind]. rewrite Ev.
    by destruct coerced. }
  destruct found as [o|]; cbn [unique_answer] in Ha.
  - destruct Ha as (Hu64 & fm & Ho & _ & E & Huniq). split.
    + intros o' [<-|[]]. apply in_type_objects. by exists fm.
    + intros o' Ho' He. left. destruct (Hcov o' Ho' He) as [Hu' Hv]. symmetry.
      apply (ordered_inj type_objects); [apply type_objects_ordered|done| |by apply Huniq].
      apply in_type_objects. by exists fm.
  - split; [by intros o []|]. intros o Ho He. destruct (Hcov o Ho He) as [Hu' Hv]. by destruct (Ha _ Hu').
Qed.

Lemma probe_sound c : sound c (unique_eq_probe db r tn c).
Proof.
  assert (sound c (QOk None)) as Hnone by (by exists None). unfold unique_eq_probe.
  destruct c as [f [] value| | |]; try done. destruct (descends f || negb (is_field_unique db tn f)) eqn:Ed; [done|].
  apply orb_false_iff in Ed as [_ Eu%negb_false_iff].
  destruct (field_scalar_type db tn f) as [st|] eqn:Est; [|done]. destruct (unique_kind st) eqn:Ek; [|done].
  destruct (scalar_field f st Est) as (fd & Hfd & Hft).
  destruct (literal_to_value value (Some st)) as [coerced| | |] eqn:Ec; try done.
  destruct (is_null coerced) eqn:En; [by destruct coerced|].
  destruct (probe_found f fd st value coerced Hfd Hft Eu Ek Ec En) as (found & Hf & Hcov).
  exists (Some (match found with Some o => [o] | None => [] end)). split; [|by intros cs [= <-]].
  by destruct coerced; try done; rewrite Hf.
Qed.

(** ** Whole predicates *)

Fixpoint pred_ok (p : Predicate) : Prop :=
  match p with
  | PCompare f _ lit => leaf_ok f lit
  | PContains _ _ => True
  | PAnd a b | POr a b => pred_ok a /\ pred_ok b
  end.

Lemma flatten_and_ok p c : pred_ok p -> In c (flatten_and p) -> pred_ok c.
Proof.
  induction p as [f op lit|f needle|a IHa b IHb|a IHa b IHb]; cbn [flatten_and]; try (by intros ? [<-|[]]).
  intros [Ha Hb] [H|H]%in_app_or; auto.
Qed.

Lemma flatten_or_ok p c : pred_ok p -> In c (flatten_or p) -> pred_ok c.
Proof.
  induction p as [f op lit|f needle|a IHa b IHb|a IHa b IHb]; cbn [flatten_or]; try (by intros ? [<-|[]]).
  intros [Ha Hb] [H|H]%in_app_or; auto.
Qed.

(** Every conjunct is necessary; some disjunct holds. *)
Lemma flatten_and_ev p c o : ev p o = true -> In c (flatten_and p) -> ev c o = true.
Proof.
  unfold ev. induction p as [f op lit|f needle|a IHa b IHb|a IHa b IHb]; cbn [flatten_and]; try (by intros ? [<-|[]]).
  cbn [evaluate_predicate]. intros [Ha Hb]%andb_true_iff [H|H]%in_app_or; auto.
Qed.

Lemma flatten_or_ev p o : ev p o = true -> exists d, In d (flatten_or p) /\ ev d o = true.
Proof.
  unfold ev. induction p as [f op lit|f needle|a IHa b IHb|a IHa b IHb]; cbn [flatten_or];
    try (intros H; eexists; split; [by left|done]).
  cbn [evaluate_predicate]. intros [Ha|Hb]%orb_true_iff;
    [destruct (IHa Ha) as (d & ? & ?)|destruct (IHb Hb) as (d & ? & ?)]; exists d; (split; [|done]); apply in_or_app; auto.
Qed.

Lemma covers_necessary p c cs : (forall o, ev p o = true -> ev c o = true) -> covers c cs -> covers p cs.
Proof. intros H [H1 H2]. split; [done|]. intros o Ho He. auto. Qed.

Lemma covers_intersect p a b : covers p a -> covers p b -> covers p (intersect_by_id a b).
Proof.
  assert (forall x y, covers p x -> covers p y -> covers p (List.filter (fun o => has_id y (obj_id o)) x)) as H.
  { intros x y [Hx1 Hx2] [Hy1 Hy2]. split.
    - intros o [Ho _]%filter_In. auto.
    - intros o Ho He. apply filter_In. split; [by apply Hx2|]. unfold has_id. apply existsb_exists. exists o.
      split; [by apply Hy2|apply Z.eqb_refl]. }
  unfold intersect_by_id. case_match; auto.
Qed.

Lemma generator_sound c rank : pred_ok c -> conjunct_index_generator db tn c = Some rank ->
  sound c (try_filter_scan db r tn c None).
Proof.
  destruct c as [f op lit| | |]; try done. cbn [conjunct_index_generator pred_ok]. intros Hok H.
  destruct (descends f) eqn:Ed; [done|]. destruct (_ || _); [done|].
  destruct (field_scalar_type db tn f) as [st|] eqn:Est; [|done]. destruct (scalar_field f st Est) as (fd & Hfd & _).
  by apply (leaf_sound f fd).
Qed.

(** The result of a plan: none, or exactly the objects of the predicate. *)
Definition exact (p : Predicate) (m : qres (option (list Obj))) : Prop :=
  m = QOk None \/ m = QOk (Some (List.filter (ev p) type_objects)).

Lemma exact_refilter p c m : (forall o, ev p o = true -> ev c o = true) -> sound c m ->
  exact p (candidates ← m; QOk (option_map (refilter_and_sort p) candidates)).
Proof.
  intros Hpc (res & -> & Hres). cbn [mbind qres_bind]. destruct res as [cs|]; [right|by left].
  cbn [option_map]. rewrite refilter_covers; [done|]. by apply (covers_necessary _ c), Hres.
Qed.

Lemma best_generator_in conjuncts rank c : best_generator db tn conjuncts = Some (rank, c) ->
  In c conjuncts /\ conjunct_index_generator db tn c = Some rank.
Proof.
  revert rank c. induction conjuncts as [|c0 cs IH]; intros rank c E; [done|]. cbn [best_generator] in E.
  destruct (conjunct_index_generator db tn c0) as [rank0|] eqn:E0.
  - destruct (best_generator db tn cs) as [[rank' c']|]; [destruct (rank0 <=? rank')|]; injection E as <- <-.
    + split; [by left|done].
    + destruct (IH rank' c' eq_refl). split; [by right|done].
    + split; [by left|done].
  - destruct (IH rank c E). split; [by right|done].
Qed.

Section conjunction.
Variables (p : Predicate) (cs : list Predicate).
Hypothesis Hok : forall c, In c cs -> pred_ok c.
Hypothesis Hev : forall c o, In c cs -> ev p o = true -> ev c o = true.

Lemma single_exact : exact p (plan_single db r tn p cs).
Proof.
  unfold plan_single. destruct (best_generator db tn cs) as [[rank g]|] eqn:E; [|by left].
  apply best_generator_in in E as [Hg Hrank]. apply (exact_refilter p g); [by auto|]. eapply generator_sound; eauto.
Qed.

Lemma first_probe_sound : exists res, first_probe db r tn cs = QOk res /\
  forall objs, res = Some objs -> exists c, In c cs /\ covers c objs.
Proof.
  clear Hok Hev. induction cs as [|c l IH]; [by exists None|]. cbn [first_probe].
  destruct (probe_sound c) as (res & -> & Hres). cbn [mbind qres_bind]. destruct res as [objs|].
  - exists (Some objs). split; [done|]. intros objs' [= <-]. exists c. split; [by left|auto].
  - destruct IH as (res & -> & Hr'). exists res. split; [done|]. intros objs Ho. destruct (Hr' objs Ho) as (c' & ? & ?).
    exists c'. split; [by right|done].
Qed.

Lemma eq_generators_in g : In g (eq_generators db tn cs) -> In g cs /\ conjunct_index_generator db tn g = Some 0.
Proof.
  unfold eq_generators. intros Hg. apply in_take in Hg. apply filter_In in Hg as [Hg He]. by apply bool_decide_eq_true in He.
Qed.

Lemma and_exact : exact p (plan_and db r tn p cs).
Proof.
  unfold plan_and. destruct first_probe_sound as (res & -> & Hres). cbn [mbind qres_bind]. destruct res as [objs|].
  { destruct (Hres objs eq_refl) as (c & Hc & Hcov). right. rewrite refilter_covers; [done|].
    apply (covers_necessary _ c); auto. }
  pose proof eq_generators_in as Hg. destruct (eq_generators db tn cs) as [|g1 [|g2 [|? ?]]]; try apply single_exact.
  destruct (Hg g1 ltac:(by left)) as [Hg1 Hr1], (Hg g2 ltac:(right; by left)) as [Hg2 Hr2].
  destruct (generator_sound g1 0 (Hok g1 Hg1) Hr1) as (s1 & -> & H1).
  destruct (generator_sound g2 0 (Hok g2 Hg2) Hr2) as (s2 & E2 & H2).
  cbn [mbind qres_bind]. rewrite E2. cbn [mbind qres_bind].
  destruct s1 as [a|]; [|apply single_exact]. destruct s2 as [b|]; [|apply single_exact].
  right. rewrite refilter_covers; [done|].
  apply covers_intersect; [apply (covers_necessary _ g1)|apply (covers_necessary _ g2)]; auto.
Qed.
End conjunction.

(** The union covers every disjunct. *)
Lemma union_sound ds : (forall d, In d ds -> pred_ok d) -> exists res, union_scan db r tn ds = QOk res /\
  forall cs, res = Some cs -> (forall o, In o cs -> In o type_objects) /\
    forall d o, In d ds -> In o type_objects -> ev d o = true -> In o cs.
Proof.
  induction ds as [|d ds IH]; intros Hok; cbn [union_scan].
  { exists (Some []). split; [done|]. by intros cs [= <-]. }
  destruct (probe_sound d) as (probe & -> & Hp). cbn [mbind qres_bind].
  assert (sound d (match probe with
    | Some objs => QOk (Some objs)
    | None => match conjunct_index_generator db tn d with Some _ => try_filter_scan db r tn d None | None => QOk None end
    end)) as (found & -> & Hf).
  { destruct probe as [objs|]; [exists (Some objs); by split|].
    destruct (conjunct_index_generator db tn d) as [rank|] eqn:Eg; [|by exists None].
    apply (generator_sound d rank); [apply Hok; by left|done]. }
  cbn [mbind qres_bind]. destruct found as [objs|]; [|by exists None].
  destruct IH as (res & -> & Hres); [intros; apply Hok; by right|]. cbn [mbind qres_bind].
  exists (option_map (app objs) res). split; [done|]. destruct res as [rest|]; [|done]. intros cs [= <-].
  destruct (Hf objs eq_refl) as [Hf1 Hf2], (Hres rest eq_refl) as [Hr1 Hr2]. split.
  - intros o [Ho|Ho]%in_app_or; auto.
  - intros d' o [<-|Hd] Ho He; apply in_or_app; eauto.
Qed.

Lemma or_exact p : pred_ok p -> exact p (plan_or_union db r tn p (flatten_or p)).
Proof.
  intros Hok. unfold plan_or_union. case_match; [by left|].
  destruct (union_sound (flatten_or p)) as (res & -> & Hres); [intros d Hd; by eapply flatten_or_ok|].
  cbn [mbind qres_bind]. destruct res as [cs|]; [right|by left]. cbn [option_map]. rewrite refilter_covers; [done|].
  destruct (Hres cs eq_refl) as [H1 H2]. split; [done|]. intros o Ho He.
  destruct (flatten_or_ev p o He) as (d & Hd & Hde). eauto.
Qed.

(** A plan of a compound predicate is none, for a full scan, or exact. *)
Lemma compound_exact a b limit p : p = PAnd a b \/ p = POr a b -> pred_ok p ->
  exact p (plan_filter_scan db r tn p limit).
Proof.
  intros [->| ->] Hok; cbn [plan_filter_scan].
  - apply and_exact; [intros c Hc; by eapply flatten_and_ok|intros c o Hc He; by eapply flatten_and_ev].
  - by apply or_exact.
Qed.

(** A plan of one comparison of a declared field returns the objects that
    satisfy it in some order, all of them or the first ones. *)
Lemma compare_exact f fd op lit limit : scalar_fd f fd -> leaf_ok f lit ->
  (forall b, lit = LitBool b -> op = QEq \/ op = QNe) -> (forall k, limit = Some k -> 0 <= k) ->
  plan_filter_scan db r tn (PCompare f op lit) limit = QOk None \/
  exists all objs, plan_filter_scan db r tn (PCompare f op lit) limit = QOk (Some objs) /\
    all ≡ₚ List.filter (ev (PCompare f op lit)) type_objects /\ (objs = all \/ objs = take (Z.to_nat (cap limit)) all).
Proof.
  intros Hsc Hlit Hop Hl. cbn [plan_filter_scan].
  destruct (probe_sound (PCompare f op lit)) as (probe & -> & Hp). cbn [mbind qres_bind]. destruct probe as [objs|].
  { right. eexists _, _. split; [done|]. rewrite (refilter_covers _ objs) by auto. split; [reflexivity|by left]. }
  destruct (descends f) eqn:Ed; [left; cbn [try_filter_scan]; by rewrite Ed|].
  destruct (try_leaf f fd op lit Hsc Hlit Ed) as [Hn|(P & run & Hf & Ht & _ & HP)]; [by left|right].
  destruct (filters_all f P run limit Hf Hl) as (all & Hperm & Hrun & _).
  exists all, (take (Z.to_nat (cap limit)) all). split; [by rewrite Ht, Hrun|]. split; [|by right].
  rewrite Hperm. apply Permutation_refl'. apply filter_ext_in. intros o Ho.
  apply (leaf_passes f fd); [done|done|by apply HP].
Qed.

(** The planner of filters is behaviour-preserving.  On a consistent store, for a
    predicate whose float literals are compared with no NaN and no zero of the
    other sign: a conjunction or disjunction is never refused, and when the
    planner answers it from indexes (a unique lookup, an intersection of two
    equalities, one index or a union) the answer is exactly the objects of a
    full scan that satisfy the predicate, in the order of their ids, and the
    limit is not applied; a comparison of a scalar field (booleans only for
    equality) returns the objects that satisfy it in the order of the index, or
    the first ones up to the limit. *)
Theorem planner_exact p limit : pred_ok p -> (forall k, limit = Some k -> 0 <= k) ->
  scan_type db (rd_map r) tn = EOk type_objects /\
  match p with
  | PCompare f op lit => forall fd, scalar_fd f fd -> (forall b, lit = LitBool b -> op = QEq \/ op = QNe) ->
      plan_filter_scan db r tn p limit = QOk None \/
      exists all objs, plan_filter_scan db r tn p limit = QOk (Some objs) /\ all ≡ₚ List.filter (ev p) type_objects /\
        (objs = all \/ objs = take (Z.to_nat (cap limit)) all)
  | _ =>
      plan_filter_scan db r tn p limit = QOk None \/
      plan_filter_scan db r tn p limit = QOk (Some (List.filter (ev p) type_objects))
  end.
Proof.
  intros Hok Hl. split; [apply scan_type_objects|]. destruct p as [f op lit|f needle|a b|a b].
  - intros fd Hfd Hb. by eapply compare_exact.
  - by left.
  - apply (compound_exact a b limit); [by left|done].
  - apply (compound_exact a b limit); [by right|done].
Qed.

End plan.
