(* ===== verification/QueryReads.v ===== *)
(** * What queries read from the engine (crates/rhypedb-engine/src/database.rs)

    Objects whose fields are still encoded, the links of many objects at once,
    and the words of full-text fields that a write would index or remove. *)

From Stdlib Require Import ZArith Lia Bool List Strings.Byte Strings.String.
From stdpp Require Import base tactics option list sorting.
From S2P Require Import Prelude ByteMap Keys Store Utf8 Values Schema IndexKeys Posting Fulltext Engine FilterScan QueryPlan.

Local Open Scope Z_scope.
Local Open Scope bytes_scope.

Section reads.
Context {J : Json} {T : TextLib} {L : EngineLib}.

(** [Object] with its optional encoded fields. *)
Record Object := { o_type : bytes; o_id : Z; o_fields : FieldMap; o_raw : option bytes }.

Definition of_obj (o : Obj) : Object :=
  {| o_type := obj_type o; o_id := obj_id o; o_fields := obj_fields o; o_raw := None |}.

Definition from_raw (type_name : bytes) (id : Z) (raw : bytes) : Object :=
  {| o_type := type_name; o_id := id; o_fields := []; o_raw := Some raw |}.

Definition ensure_fields_deserialized (o : Object) : eres Object :=
  match o_fields o, o_raw o with
  | [], Some raw =>
      fs ← des raw; EOk {| o_type := o_type o; o_id := o_id o; o_fields := fs; o_raw := Some raw |}
  | _, _ => EOk o
  end.

Fixpoint ensure_all (os : list Object) : eres (list Object) :=
  match os with
  | [] => EOk []
  | o :: os => o ← ensure_fields_deserialized o; os ← ensure_all os; EOk (o :: os)
  end.

Variable db : Database.

(** Whether the type has fields a schema change retired. *)
Definition has_retired (type_name : bytes) : bool :=
  match bm_get type_name (retired_field_names_by_type db) with Some (_ :: _) => true | _ => false end.

(** Objects of the rows found, decoded only to drop retired fields. *)
Fixpoint lazy_found (type_name : bytes) (found : list (Z * option bytes)) : eres (list Object) :=
  match found with
  | [] => EOk []
  | (_, None) :: found => lazy_found type_name found
  | (id, Some data) :: found =>
      o ← (if has_retired type_name then o ← decode_object db type_name id data; EOk (of_obj o)
           else EOk (from_raw type_name id data));
      out ← lazy_found type_name found;
      EOk (o :: out)
  end.

Definition get_many_lazy (m : bmap bytes) (type_name : bytes) (ids : list Z) : eres (list Object) :=
  type_id ← resolve_type_id db type_name;
  let sorted := dedup (merge_sort Z.le ids) in
  lazy_found type_name (map (fun id => (id, bm_get (KeyBuilder.object type_id id) m)) sorted).

(** The ids and values of edge rows. *)
Definition edge_entries (entries : list (bytes * bytes)) : list (Z * bytes) :=
  map (fun e => (key_id (fst e), snd e)) (List.filter (fun e => (8 <=? List.length (fst e))%nat) entries).

Definition get_links_many (m : bmap bytes) (source_type : bytes) (source_ids : list Z) (field_name : bytes)
    : eres (list (list (Z * bytes))) :=
  match source_ids with
  | [] => EOk []
  | _ =>
      type_def ← schema_type db source_type;
      field ← ok_or (get_field type_def field_name) (FieldNotFound source_type field_name);
      prefix ←
        match inverse field with
        | Some inv =>
            id ← ok_or (bm_get (qualified (inv_type_name inv) (inv_field_name inv)) (rel_ids db))
              (FieldNotFound (inv_type_name inv) (inv_field_name inv));
            EOk (fun sid => KeyBuilder.reverse_edge_prefix sid id)
        | None =>
            id ← ok_or (bm_get (qualified source_type field_name) (rel_ids db)) (FieldNotFound source_type field_name);
            EOk (fun sid => KeyBuilder.edge_prefix sid id)
        end;
      EOk (map (fun sid => edge_entries (rows_under (prefix sid) m)) source_ids)
  end.

(** ** Words *)

Definition sum_z (l : list Z) : Z := fold_right Z.add 0 l.

Definition fulltext_index_words (type_name : bytes) (fs : FieldMap) : Z :=
  match bm_get type_name (fulltext_fields db) with
  | None => 0
  | Some ffs =>
      sum_z (omap (fun ff =>
        match bm_get (ff_name ff) fs with
        | Some (VString text) => Some (Z.of_nat (length (take (Z.to_nat MAX_ANALYZED_WORDS) (unicode_words text))))
        | _ => None
        end) ffs)
  end.

Definition sat_add (a b : Z) : Z := Z.min u64_max (a + b).
Definition sat_mul (a b : Z) : Z := Z.min u64_max (a * b).

Definition stored_words (m : bmap bytes) (type_id : Z) (ffs : list FulltextField) (total id : Z) : Z :=
  fold_left (fun total ff =>
    match bm_get (KeyBuilder.fulltext_doc type_id (ff_field_id ff) (ff_generation ff) id) m with
    | Some v => sat_add total (match decode_doc_len v with DOk n => n | _ => 0 end)
    | None => total
    end) ffs total.

Definition fulltext_stored_words (m : bmap bytes) (type_name : bytes) (ids : list Z) (fs : option FieldMap) : eres Z :=
  match bm_get type_name (fulltext_fields db) with
  | None => EOk 0
  | Some ffs =>
      match List.filter (fun ff => match fs with Some fm => match bm_get (ff_name ff) fm with Some _ => true | None => false end | None => true end) ffs with
      | [] => EOk 0
      | ffs =>
          type_id ← resolve_type_id db type_name;
          EOk (fold_left (stored_words m type_id ffs) ids 0)
      end
  end.
End reads.

(** * The query governor (crates/rhypedb-query/src/governor.rs)

    Caps on the rows a query examines and returns, on its depth and on its time.
    The tally of rows and the readings of the clock are the state; a limit of
    zero is no limit. *)

(** Durations and instants in nanoseconds. *)
Record GovernorLimits := {
  max_limit : Z;
  max_rows_scanned : Z;
  max_depth : Z;
  max_result_rows : Z;
  max_duration : Z;
}.

Definition DEFAULT_LIMITS : GovernorLimits := {|
  max_limit := 100000; max_rows_scanned := 1000000; max_depth := 64; max_result_rows := 100000;
  max_duration := 30 * 1000000000 |}.

Definition UNLIMITED : GovernorLimits := {|
  max_limit := 0; max_rows_scanned := 0; max_depth := 0; max_result_rows := 0; max_duration := 0 |}.

Record Governor := { g_limits : GovernorLimits; g_deadline : option Z; g_enabled : bool }.

(** What changes while a query runs: the rows examined, and how often the clock
    was read. *)
Record Tally := { rows_examined : Z; clock_reads : nat }.

Definition governor_disabled : Governor := {| g_limits := UNLIMITED; g_deadline := None; g_enabled := false |}.

Definition governor_new (limits : GovernorLimits) (now : Z) : Governor := {|
  g_limits := limits;
  g_deadline := if max_duration limits =? 0 then None else Some (now + max_duration limits);
  g_enabled := true |}.

Section governor.
(** The instant of each reading of the clock. *)
Variables (clock : nat -> Z) (g : Governor).

Definition clamp_limit (requested : Z) : Z :=
  if g_enabled g && negb (max_limit (g_limits g) =? 0) then Z.min requested (max_limit (g_limits g)) else requested.

Definition scan_cap : option Z :=
  if g_enabled g && negb (max_rows_scanned (g_limits g) =? 0) then Some (max_rows_scanned (g_limits g)) else None.

Definition remaining_scan_budget (t : Tally) : option Z :=
  cap ← scan_cap; Some (Z.max 0 (cap - rows_examined t)).

Definition check_deadline (t : Tally) : qres unit * Tally :=
  match g_deadline g with
  | None => (QOk tt, t)
  | Some deadline =>
      let t' := {| rows_examined := rows_examined t; clock_reads := S (clock_reads t) |} in
      (if deadline <=? clock (clock_reads t) then QErr QResourceLimitExceeded else QOk tt, t')
  end.

Definition over_budget (rows : Z) : bool :=
  negb (max_rows_scanned (g_limits g) =? 0) && (max_rows_scanned (g_limits g) <? rows).

Definition check_exhausted (t : Tally) : qres unit * Tally :=
  if g_enabled g && over_budget (rows_examined t) then (QErr QResourceLimitExceeded, t) else check_deadline t.

Definition charge (n : Z) (t : Tally) : qres unit * Tally :=
  if negb (g_enabled g) then (QOk tt, t)
  else
    let t := {| rows_examined := sat_add (rows_examined t) n; clock_reads := clock_reads t |} in
    if over_budget (rows_examined t) then (QErr QResourceLimitExceeded, t) else check_deadline t.

Definition check_depth (depth : Z) : qres unit :=
  if g_enabled g && negb (max_depth (g_limits g) =? 0) && (max_depth (g_limits g) <? depth)
  then QErr QResourceLimitExceeded else QOk tt.

Definition check_result_rows (rows : Z) : qres unit :=
  if g_enabled g && negb (max_result_rows (g_limits g) =? 0) && (max_result_rows (g_limits g) <? rows)
  then QErr QResourceLimitExceeded else QOk tt.

(** ** What a successful check tells *)

Definition within_budget (t : Tally) : Prop :=
  g_enabled g = true -> max_rows_scanned (g_limits g) <> 0 -> rows_examined t <= max_rows_scanned (g_limits g).

Lemma check_deadline_rows t r t' : check_deadline t = (r, t') -> rows_examined t' = rows_examined t.
Proof. unfold check_deadline. destruct (g_deadline g); intros [= <- <-]; done. Qed.

Lemma over_budget_spec rows : over_budget rows = true <-> max_rows_scanned (g_limits g) <> 0 /\ max_rows_scanned (g_limits g) < rows.
Proof. unfold over_budget. rewrite andb_true_iff, negb_true_iff, Z.eqb_neq, Z.ltb_lt. done. Qed.

Lemma check_exhausted_ok t u t' : check_exhausted t = (QOk u, t') -> within_budget t'.
Proof.
  unfold check_exhausted, within_budget. intros H He Hm. rewrite He in H. cbn [andb] in H.
  destruct (over_budget (rows_examined t)) eqn:Eo; [done|]. apply check_deadline_rows in H. rewrite H.
  destruct (Z.le_gt_cases (rows_examined t) (max_rows_scanned (g_limits g))); [done|].
  exfalso. enough (over_budget (rows_examined t) = true) by congruence. apply over_budget_spec. lia.
Qed.

Lemma charge_ok n t u t' : charge n t = (QOk u, t') -> within_budget t'.
Proof.
  unfold charge, within_budget. intros H He Hm. rewrite He in H. cbn [negb] in H.
  destruct (over_budget _) eqn:Eo; [done|]. apply check_deadline_rows in H. rewrite H. cbn [rows_examined].
  destruct (Z.le_gt_cases (sat_add (rows_examined t) n) (max_rows_scanned (g_limits g))); [done|].
  exfalso. cbn [rows_examined] in Eo. enough (over_budget (sat_add (rows_examined t) n) = true) by congruence.
  apply over_budget_spec. lia.
Qed.

(** The tally only grows. *)
Lemma charge_grows n t r t' : 0 <= n -> rows_examined t <= u64_max -> charge n t = (r, t') ->
  rows_examined t <= rows_examined t' <= u64_max.
Proof.
  unfold charge. intros Hn Ht H. destruct (g_enabled g); cbn [negb] in H; [|injection H as <- <-; lia].
  assert (rows_examined t <= sat_add (rows_examined t) n <= u64_max) as Hs by (unfold sat_add; lia).
  destruct (over_budget _); [by injection H as <- <-|]. apply check_deadline_rows in H. by rewrite H.
Qed.

End governor.
