(* ===== verification/Executor.v ===== *)
(** * Query execution and its authorization
    (crates/rhypedb-query/src/executor.rs, authz.rs)

    A query runs its source and then its steps over the engine.  The state
    ([World]) is the committed map of the store with the generations and the next
    object id, and the tally of the governor; every engine call is a transaction
    of its own that commits at once, no other session commits in between.  When
    a rules program is configured, rows the principal may not read are dropped
    from the result of every stage and writes are refused unless every object
    they touch passes its rule as it was before the write.

    Vector search and the scoring of full-text candidates are the class
    [SearchLib]: any functions of the same types. *)

From Stdlib Require Import ZArith Lia Bool List Strings.Byte Strings.String.
From stdpp Require Import base tactics option list sorting gmap.
From S2P Require Import Prelude ByteMap Keys Zone Utf8 Values Ieee Schema IndexKeys Posting Store Fulltext Engine EngineDelete.
From S2P Require Import FilterScan Serde QueryPlan QueryReads Rules.

Local Open Scope Z_scope.
Local Open Scope bytes_scope.

(** ** Search *)

(** A result of a vector search; scores are the bits of floats. *)
Record Hit := { h_object_id : Z; h_distance : Z; h_rerank_score : option Z }.

Record RowScore := { score : Z; rerank_score : option Z }.

(** The first argument of a search is how often the clock was read before it. *)
Class SearchLib := {
  vectorizer :
    option (nat -> bmap bytes -> bytes -> bytes -> SimilarQuery -> Z -> Z -> bool -> option (list Z) -> eres (list Hit));
  candidates : Type;
  fulltext_candidates : nat -> bmap bytes -> bytes -> bytes -> bytes -> option Z -> option Z -> bool -> eres candidates;
  postings_scanned : candidates -> Z;
  scoring_work : candidates -> Z;
  candidate_ids : candidates -> list Z;
  score_candidates : nat -> candidates -> option (list Z) -> Z -> option Z -> eres (list (Z * Z));
  score_visible : nat -> candidates -> list Z -> Z -> option Z -> eres (list (Z * Z));
}.

Section executor.
Context {SJ : SerdeJson} {C : TextCodecs} {T : TextLib} {L : EngineLib} {SL : SearchLib}.

(** ** State and results *)

Record World := { w_map : bmap bytes; w_vc : Counters; w_next : Z; w_tally : Tally }.

Inductive QueryOutput :=
| OObjects (os : list Object)
| OSingle (o : Object)
| ODone
| OScored (rows : list (Object * RowScore))
| OIdSet (type_name : bytes) (ids : list Z)
| OIdSetWithFields (type_name : bytes) (items : list (Z * bytes)).

Record ExecContext := {
  x_governor : Governor;
  x_principal : Principal;
  x_rules : option RulesProgram;
  x_default_ef : option Z;
  x_default_rerank : option Z;
}.

(** A computation that fails keeps what it changed. *)
Definition X (A : Type) : Type := World -> qres A * World.
#[global] Instance X_ret : MRet X := fun A a w => (QOk a, w).
#[global] Instance X_bind : MBind X := fun A B f m w =>
  match m w with
  | (QOk a, w) => f a w
  | (QErr e, w) => (QErr e, w)
  | (QPanic, w) => (QPanic, w)
  | (QFuel, w) => (QFuel, w)
  end.

Definition lift {A} (m : qres A) : X A := fun w => (m, w).
Definition fail {A} (e : QueryError) : X A := lift (QErr e).

(** A read of the current state; [db_ok] is [.ok()], errors dropped. *)
Definition db_read {A} (f : bmap bytes -> eres A) : X A := fun w => (engine (f (w_map w)), w).
Definition db_read_ok {A} (f : bmap bytes -> eres A) : X (option A) := fun w =>
  match f (w_map w) with
  | EOk a => (QOk (Some a), w) | EErr _ => (QOk None, w) | EPanic => (QPanic, w) | EFuel => (QFuel, w)
  end.

(** A part of the state. *)
Definition gets {A} (f : World -> A) : X A := fun w => (QOk (f w), w).

Definition set_tally (w : World) (t : Tally) : World :=
  {| w_map := w_map w; w_vc := w_vc w; w_next := w_next w; w_tally := t |}.

Definition governed {A} (f : Tally -> qres A * Tally) : X A := fun w =>
  let '(r, t) := f (w_tally w) in (r, set_tally w t).

(** A computation over each element, in order. *)
Fixpoint each {A B} (f : A -> X B) (l : list A) : X (list B) :=
  match l with
  | [] => mret []
  | a :: l => b ← f a; bs ← each f l; mret (b :: bs)
  end.

Variables (db : Database) (reader : bmap bytes -> Reader) (clock : nat -> Z).

(** ** Engine calls *)

Definition type_known (type_name : bytes) : bool :=
  match resolve_type_id db type_name, schema_type db type_name with EOk _, EOk _ => true | _, _ => false end.

(** [db.create]: the id is taken once the type is known. *)
Definition db_create (type_name : bytes) (fs : FieldMap) : X Obj := fun w =>
  let next := if type_known type_name then w_next w + 1 else w_next w in
  match create db (w_map w) (w_vc w) type_name (w_next w) fs with
  | EOk (ops, o, vc, _) => (QOk o, {| w_map := apply_ops ops (w_map w); w_vc := vc; w_next := next; w_tally := w_tally w |})
  | r => (_ ← engine r; QPanic, {| w_map := w_map w; w_vc := w_vc w; w_next := next; w_tally := w_tally w |})
  end.

(** [db.create_batch]: ids are taken row by row, up to the row that fails. *)
Definition db_create_batch (type_name : bytes) (rows : list FieldMap) : X (list Obj) := fun w =>
  let numbered := zip (map (fun i => w_next w + Z.of_nat i) (seq 0 (length rows))) rows in
  let staged n := match create_batch db (w_map w) (w_vc w) type_name (take n numbered) with EOk _ => true | _ => false end in
  match create_batch db (w_map w) (w_vc w) type_name numbered with
  | EOk (ops, os, vc, _) =>
      (QOk os, {| w_map := apply_ops ops (w_map w); w_vc := vc; w_next := w_next w + Z.of_nat (length rows);
                  w_tally := w_tally w |})
  | r =>
      let burned := if type_known type_name then S (length (List.filter staged (seq 1 (length rows)))) else O in
      (_ ← engine r; QPanic,
       {| w_map := w_map w; w_vc := w_vc w; w_next := w_next w + Z.of_nat burned; w_tally := w_tally w |})
  end.

Definition db_update (type_name : bytes) (id : Z) (fs : FieldMap) : X Obj := fun w =>
  match update db (w_map w) (w_vc w) type_name id fs with
  | EOk (ops, o, vc, _) =>
      (QOk o, {| w_map := apply_ops ops (w_map w); w_vc := vc; w_next := w_next w; w_tally := w_tally w |})
  | r => (_ ← engine r; QPanic, w)
  end.

Definition db_delete (type_name : bytes) (id : Z) : X unit := fun w =>
  match delete_object db (delete_fuel db (w_map w)) (w_map w) (w_vc w) type_name id with
  | EOk (ops, deleted, _) =>
      (QOk tt, {| w_map := apply_ops ops (w_map w); w_vc := forget_deleted (w_vc w) deleted; w_next := w_next w;
                  w_tally := w_tally w |})
  | r => (_ ← engine r; QPanic, w)
  end.

Definition db_ops (f : World -> eres (list op)) : X unit := fun w =>
  match f w with
  | EOk ops => (QOk tt, {| w_map := apply_ops ops (w_map w); w_vc := w_vc w; w_next := w_next w; w_tally := w_tally w |})
  | r => (_ ← engine r; QPanic, w)
  end.

Definition db_link (type_name : bytes) (id : Z) (field : bytes) (target : Z) (edge_fs : option FieldMap) : X unit :=
  db_ops (fun w => link db (w_map w) (w_vc w) type_name id field target edge_fs).

Definition db_unlink (type_name : bytes) (id : Z) (field : bytes) (target : Z) : X unit :=
  db_ops (fun _ => unlink db type_name id field target).

Definition ensure (o : Object) : X Object := lift (engine (ensure_fields_deserialized o)).

Variable ctx : ExecContext.
Notation g := (x_governor ctx).

Definition x_charge (n : Z) : X unit := governed (charge clock g n).
Definition x_check_deadline : X unit := governed (check_deadline clock g).
Definition x_check_exhausted : X unit := governed (check_exhausted clock g).

Definition count {A} (l : list A) : Z := Z.of_nat (length l).

(** ** What a rule reads *)

Definition MAX_RULE_RELATION_TARGETS : Z := 1024.

Record EngineResource := { er_type : bytes; er_object : option Object; er_request : option FieldMap }.

Definition relation_target_type (type_name rel : bytes) : option bytes :=
  td ← get_type (schema db) type_name;
  fd ← get_field td rel;
  match field_type fd with Relation r => Some (target_type r) | _ => None end.

(** [f(..).ok()] on the current state, as a rule reads it. *)
Definition st_read_ok {A} (f : bmap bytes -> eres A) : St World (option A) := fun w =>
  match f (w_map w) with EOk a => Some (Some a, w) | EErr _ => Some (None, w) | _ => None end.

(** Charging, [true] when within the budget. *)
Definition st_charge (n : Z) : St World bool := fun w =>
  let '(r, t) := charge clock g n (w_tally w) in
  Some (match r with QOk _ => true | _ => false end, set_tally w t).

Definition linked_ids (res : EngineResource) (rel : bytes) : St World (option (list Z)) :=
  match er_object res with
  | None => mret None
  | Some o =>
      groups ← st_read_ok (fun m => get_links_many db m (er_type res) [o_id o] rel);
      match groups with
      | None => mret None
      | Some groups =>
          let examined := sum_z (map count groups) in
          within ← st_charge examined;
          mret (if negb within || (MAX_RULE_RELATION_TARGETS <? examined) then None
                else Some (map fst (List.concat groups)))
      end
  end.

Definition target_scalar (target : bytes) (id : Z) (field : bytes) : St World (option JsonValue) :=
  o ← st_read_ok (fun m => get db m target id);
  mret (o ← o; value_to_query_json <$> bm_get field (obj_fields o)).

(** [filter_map]. *)
Fixpoint target_scalars (target : bytes) (ids : list Z) (field : bytes) : St World (list JsonValue) :=
  match ids with
  | [] => mret []
  | id :: ids =>
      v ← target_scalar target id field;
      vs ← target_scalars target ids field;
      mret (match v with Some v => v :: vs | None => vs end)
  end.

Definition engine_resource_reads : reads EngineResource World := {|
  resource_scalar res field :=
    mret (o ← er_object res; value_to_query_json <$> bm_get field (o_fields o));
  resource_relation_one res rel field :=
    match relation_target_type (er_type res) rel with
    | None => mret None
    | Some target =>
        ids ← linked_ids res rel;
        match ids with Some (id :: _) => target_scalar target id field | _ => mret None end
    end;
  resource_relation_many res rel field :=
    match relation_target_type (er_type res) rel with
    | None => mret None
    | Some target =>
        ids ← linked_ids res rel;
        match ids with Some ids => vs ← target_scalars target ids field; mret (Some vs) | None => mret None end
    end;
  request_field res field := mret (fm ← er_request res; value_to_query_json <$> bm_get field fm);
|}.
#[global] Existing Instance engine_resource_reads.

(** ** Gates and read filters *)

Definition decision (rules : RulesProgram) (op : Op) (res : EngineResource) : X Decision := fun w =>
  match evaluate (x_principal ctx) res rules op (er_type res) w with
  | Some (d, w) => (QOk d, w)
  | None => (QPanic, w)
  end.

Definition decide_op (rules : RulesProgram) (op : Op) (res : EngineResource) : X unit :=
  d ← decision rules op res; match d with DAllow => mret tt | DDeny => fail QPermissionDenied end.

Definition gate_create (type_name : bytes) (fs : FieldMap) : X unit :=
  match x_rules ctx with
  | None => mret tt
  | Some rules => decide_op rules OCreate {| er_type := type_name; er_object := None; er_request := Some fs |}
  end.

Fixpoint gate_ids (rules : RulesProgram) (op : Op) (type_name : bytes) (ids : list Z) (request : option FieldMap) : X unit :=
  match ids with
  | [] => mret tt
  | id :: ids =>
      o ← db_read_ok (fun m => get db m type_name id);
      _ ← match o with
          | None => mret tt
          | Some o => decide_op rules op {| er_type := type_name; er_object := Some (of_obj o); er_request := request |}
          end;
      gate_ids rules op type_name ids request
  end.

Definition gate_write (op : Op) (type_name : bytes) (ids : list Z) (request : option FieldMap) : X unit :=
  match x_rules ctx with None => mret tt | Some rules => gate_ids rules op type_name ids request end.

Definition readable (rules : RulesProgram) (o : Object) : X bool :=
  d ← decision rules ORead {| er_type := o_type o; er_object := Some o; er_request := None |}; mret (is_allow d).

(** [retain_mut]: the kept objects have their fields decoded. *)
Fixpoint retain_readable (rules : RulesProgram) (os : list Object) : X (list Object) :=
  match os with
  | [] => mret []
  | o :: os =>
      o ← ensure o;
      keep ← readable rules o;
      os ← retain_readable rules os;
      mret (if (keep : bool) then o :: os else os)
  end.

Definition filter_read (os : list Object) : X (list Object) :=
  match x_rules ctx with None => mret os | Some rules => retain_readable rules os end.

(** The score of an id, the last one given. *)
Fixpoint score_of (rows : list (Object * RowScore)) (id : Z) : option RowScore :=
  match rows with
  | [] => None
  | (o, s) :: rows => match score_of rows id with Some s' => Some s' | None => if o_id o =? id then Some s else None end
  end.

Fixpoint rescore (rows : list (Object * RowScore)) (os : list Object) : X (list (Object * RowScore)) :=
  match os with
  | [] => mret []
  | o :: os =>
      s ← lift (match score_of rows (o_id o) with Some s => QOk s | None => QPanic end);
      rest ← rescore rows os;
      mret ((o, s) :: rest)
  end.

Definition apply_read_filter (result : QueryOutput) : X QueryOutput :=
  match x_rules ctx, result with
  | None, _ => mret result
  | Some _, OObjects os => os ← filter_read os; mret (OObjects os)
  | Some _, OScored rows => os ← filter_read (map fst rows); rows ← rescore rows os; mret (OScored rows)
  | Some rules, OSingle o => o ← ensure o; keep ← readable rules o; mret (if (keep : bool) then OSingle o else ODone)
  | Some _, other => mret other
  end.

Definition READ_CHECK_BATCH : nat := 1024.

Fixpoint chunks {A} (fuel : nat) (n : nat) (l : list A) : list (list A) :=
  match fuel, l with
  | S fuel, _ :: _ => take n l :: chunks fuel n (drop n l)
  | _, _ => []
  end.

Fixpoint readable_batches (type_name : bytes) (batches : list (list Z)) : X (list Z) :=
  match batches with
  | [] => mret []
  | batch :: batches =>
      os ← db_read_ok (fun m => get_many_lazy db m type_name batch);
      os ← filter_read (default [] os);
      _ ← x_check_deadline;
      rest ← readable_batches type_name batches;
      mret (map o_id os ++ rest)
  end.

Definition readable_ids (type_name : bytes) (ids : list Z) : X (list Z) :=
  _ ← x_charge (count ids);
  readable_batches type_name (chunks (length ids) READ_CHECK_BATCH ids).

Definition read_filter_stage (result : QueryOutput) : X QueryOutput :=
  match x_rules ctx with
  | None => mret result
  | Some _ =>
      filtered ←
        match result with
        | OIdSet type_name ids =>
            keep ← readable_ids type_name ids; mret (OIdSet type_name (List.filter (fun id => mem_z id keep) ids))
        | OIdSetWithFields type_name items =>
            keep ← readable_ids type_name (map fst items);
            mret (OIdSetWithFields type_name (List.filter (fun i => mem_z (fst i) keep) items))
        | other =>
            _ ← x_charge (match other with OObjects os => count os | OScored rows => count rows | _ => 0 end);
            apply_read_filter other
        end;
      _ ← x_check_exhausted;
      mret filtered
  end.

(** ** Searches *)

Definition MAX_VECTOR_SEARCH_POOL : Z := 10000.

Definition resolve_similar_defaults (ef rerank default_ef default_rerank : option Z) : option Z * option Z :=
  (match ef with Some _ => ef | None => default_ef end, match rerank with Some _ => rerank | None => default_rerank end).

Record ResolvedSearch := { search_k : Z; rs_ef : Z; exact_rescore : bool }.

Definition resolve_search (ef rerank default_ef default_rerank : option Z) (k : Z) (restricted : bool) : ResolvedSearch :=
  let '(ef, rerank) := resolve_similar_defaults ef rerank default_ef default_rerank in
  let rerank := match rerank with Some r => if 0 <? r then Some r else None | None => None end in
  let base_k := if restricted then Z.max (sat_mul k 4) k else k in
  let sk := Z.min (match rerank with Some r => Z.max r base_k | None => base_k end) MAX_VECTOR_SEARCH_POOL in
  let heuristic_ef := if restricted then Z.max (sat_mul sk 2) 64 else Z.max k 50 in
  {| search_k := sk;
     rs_ef := Z.min (Z.max (default heuristic_ef ef) sk) MAX_VECTOR_SEARCH_POOL;
     exact_rescore := match rerank with Some _ => true | None => false end |}.

(** A search of the current state. *)
Definition search {A} (f : nat -> bmap bytes -> qres A) : X A := fun w => (f (clock_reads (w_tally w)) (w_map w), w).

(** The objects of hits with their scores, without those that cannot be read. *)
Fixpoint load_hits (type_name : bytes) (hits : list (Z * RowScore)) : X (list (Object * RowScore)) :=
  match hits with
  | [] => mret []
  | (id, s) :: hits =>
      o ← db_read_ok (fun m => get db m type_name id);
      rest ← load_hits type_name hits;
      mret (match o with Some o => (of_obj o, s) :: rest | None => rest end)
  end.

Definition empty_restriction (restrict : option (list Z)) : bool := match restrict with Some [] => true | _ => false end.
Definition admits (restrict : option (list Z)) (id : Z) : bool :=
  match restrict with Some ids => mem_z id ids | None => true end.

Definition run_similar (type_name field_name : bytes) (query : SimilarQuery) (k : Z) (restrict : option (list Z))
    (ef rerank : option Z) : X QueryOutput :=
  if empty_restriction restrict then mret (OScored [])
  else
    let k := clamp_limit g k in
    _ ← x_check_deadline;
    match vectorizer with
    | None => fail QType
    | Some vec =>
        let rs := resolve_search ef rerank (x_default_ef ctx) (x_default_rerank ctx) k
          (match restrict with Some _ => true | None => false end) in
        results ← search (fun n m => engine (vec n m type_name field_name query (search_k rs) (rs_ef rs) (exact_rescore rs) restrict));
        let hits := take (Z.to_nat k) (List.filter (fun h => admits restrict (h_object_id h)) results) in
        rows ← load_hits type_name
          (map (fun h => (h_object_id h, {| score := h_distance h; rerank_score := h_rerank_score h |})) hits);
        mret (OScored rows)
    end.

Definition fulltext_error (e : EngineError) : QueryError :=
  match e with
  | FulltextScanBudgetExceeded _ _ => QResourceLimitExceeded
  | FulltextDeadlineExceeded _ _ => QResourceLimitExceeded
  | FulltextIndexBuilding _ _ => match x_rules ctx with Some _ => QInvalidArgument | None => QEngine e end
  | other => QEngine other
  end.

(** [map_err]. *)
Definition fulltext_result {A} (m : eres A) : qres A :=
  match m with EErr e => QErr (fulltext_error e) | r => engine r end.

Definition run_matches (type_name field_name query_text : bytes) (k : Z) (restrict : option (list Z)) : X QueryOutput :=
  if empty_restriction restrict then mret (OScored [])
  else
    let k := clamp_limit g k in
    _ ← x_check_deadline;
    budget ← gets (fun w => remaining_scan_budget g (w_tally w));
    cands ← search (fun n m => fulltext_result (fulltext_candidates n m type_name field_name query_text budget (g_deadline g)
      (match x_rules ctx with Some _ => true | None => false end)));
    _ ← x_charge (postings_scanned cands);
    _ ← x_charge (scoring_work cands);
    hits ←
      match x_rules ctx with
      | Some _ =>
          visible ← readable_ids type_name (List.filter (admits restrict) (candidate_ids cands));
          _ ← x_check_exhausted;
          search (fun n _ => fulltext_result (score_visible n cands visible k (g_deadline g)))
      | None => search (fun n _ => fulltext_result (score_candidates n cands restrict k (g_deadline g)))
      end;
    rows ← load_hits type_name (map (fun h => (fst h, {| score := snd h; rerank_score := None |})) hits);
    mret (OScored rows).

(** ** Shapes of a result *)

Definition source_type_name (s : Source) : bytes :=
  match s with
  | SrcGet type_name _ | SrcFilter type_name _ | SrcCreate type_name _ | SrcCreateBatch type_name _ | SrcAll type_name =>
      type_name
  end.

Definition output_type_name (output : QueryOutput) (source : Source) : bytes :=
  match output with
  | OIdSet type_name _ | OIdSetWithFields type_name _ => type_name
  | OSingle o => o_type o
  | OObjects (o :: _) => o_type o
  | OScored ((o, _) :: _) => o_type o
  | OObjects [] | OScored [] | ODone => source_type_name source
  end.

Definition ids_from_output (output : QueryOutput) (source : Source) : bytes * list Z :=
  match output with
  | OIdSet type_name ids => (type_name, ids)
  | OIdSetWithFields type_name items => (type_name, map fst items)
  | OSingle o => (o_type o, [o_id o])
  | OObjects [] | OScored [] | ODone => (source_type_name source, [])
  | OObjects ((o :: _) as os) => (o_type o, map o_id os)
  | OScored (((o, _) :: _) as rows) => (o_type o, map (fun r => o_id (fst r)) rows)
  end.

Definition materialize_ids (type_name : bytes) (ids : list Z) : X (list Object) :=
  os ← db_read_ok (fun m => get_many_lazy db m type_name ids); mret (default [] os).

Definition extract_objects (output : QueryOutput) : qres (list Object) :=
  match output with
  | OObjects os => QOk os
  | OScored rows => QOk (map fst rows)
  | OSingle o => QOk [o]
  | ODone => QOk []
  | OIdSet _ _ | OIdSetWithFields _ _ => QErr QType
  end.

Definition resolve_relation_field (source_type target : bytes) : qres bytes :=
  match get_type (schema db) source_type with
  | None => QErr QType
  | Some td =>
      match omap (fun f => match field_type f with
                           | Relation rel => if beqb (target_type rel) target then Some (fd_name f) else None
                           | _ => None
                           end) (fields td) with
      | [single] => QOk single
      | _ => QErr QInvalidArgument
      end
  end.

Definition scan_all_objects (type_name : bytes) : X (list Object) :=
  if negb (g_enabled g) then os ← db_read (fun m => scan_type db m type_name); mret (map of_obj os)
  else
    _ ← match scan_cap g with
        | None => mret tt
        | Some cap =>
            live ← db_read (fun m => count_type db m type_name);
            if cap <? live then fail QResourceLimitExceeded else mret tt
        end;
    os ← db_read (fun m => scan_type db m type_name);
    _ ← x_charge (count os);
    mret (map of_obj os).

Definition leading_limit (steps : list Step) : option Z :=
  match steps with Limit n :: _ => Some n | _ => None end.

(** ** Traversals *)

(** The relation a traversal follows: its target type, whether it is the inverse
    side, whether it is a forward link to one object. *)
Definition traversed (source_type field_name : bytes) : option (bytes * bool * bool) :=
  td ← get_type (schema db) source_type;
  fd ← get_field td field_name;
  match field_type fd with
  | Relation rel =>
      let is_inverse := match inverse fd with Some _ => true | None => false end in
      Some (target_type rel, is_inverse, negb (is_many rel) && negb is_inverse)
  | _ => None
  end.

Definition carries (raw field_name : bytes) : bool :=
  match find_u64_field_in_raw raw field_name with Some _ => true | None => false end.

(** The rows that carry the fields of the hop before, when one of them names its target. *)
Definition fusion_input (forward_one : bool) (current : QueryOutput) (field_name : bytes) : option (list (Z * bytes)) :=
  if forward_one then
    match current with
    | OIdSetWithFields _ items => if existsb (fun i => carries (snd i) field_name) items then Some items else None
    | OObjects os =>
        if existsb (fun o => match o_raw o with Some b => carries b field_name | None => false end) os
        then Some (omap (fun o => (fun b => (o_id o, b)) <$> o_raw o) os) else None
    | _ => None
    end
  else None.

(** The targets named by the rows, each once: those whose copied fields are
    current, and the ids of the others. *)
Fixpoint fuse (vc : Counters) (target field_name : bytes) (items : list (Z * bytes)) (seen : list Z)
    : list (Z * bytes) * list Z :=
  match items with
  | [] => ([], [])
  | (_, raw) :: items =>
      match find_u64_field_in_raw raw field_name with
      | None => fuse vc target field_name items seen
      | Some tid =>
          if mem_z tid seen then fuse vc target field_name items seen
          else
            let '(covered, id_only) := fuse vc target field_name items (tid :: seen) in
            let embedded_v := default 0 (find_u64_field_in_raw raw (field_name ++ bs "__cover_v")) in
            let live_v := object_version db vc target tid in
            match find_bytes_field_in_raw raw (field_name ++ bs "__cover") with
            | Some c =>
                if (embedded_v =? live_v) && negb (live_v =? 0) then ((tid, c) :: covered, id_only)
                else (covered, tid :: id_only)
            | None => (covered, tid :: id_only)
            end
      end
  end.

(** The first entry of each id. *)
Fixpoint first_entries (entries : list (Z * bytes)) (seen : list Z) : list (Z * bytes) :=
  match entries with
  | [] => []
  | e :: entries =>
      if mem_z (fst e) seen then first_entries entries seen else e :: first_entries entries (fst e :: seen)
  end.

Definition traverse (current : QueryOutput) (field_name : bytes) (source : Source) : X QueryOutput :=
  match traversed (output_type_name current source) field_name with
  | None => fail QInvalidArgument
  | Some (target, is_inverse, forward_one) =>
      match fusion_input forward_one current field_name with
      | Some items =>
          _ ← x_charge (count items);
          vc ← gets w_vc;
          let '(covered, id_only) := fuse vc target field_name items [] in
          let objects := map (fun c => from_raw target (fst c) (snd c)) covered in
          match covered, id_only with
          | _ :: _, [] => mret (OObjects objects)
          | _ :: _, _ =>
              m ← gets w_map;
              probed ← lift (match get_many_lazy db m target id_only with
                             | EErr _ => QErr QInvalidArgument | r => engine r end);
              mret (OObjects (objects ++ probed))
          | [], _ => mret (OIdSet target (map fst covered ++ id_only))
          end
      | None =>
          let '(source_type, source_ids) := ids_from_output current source in
          groups ← db_read (fun m => get_links_many db m source_type source_ids field_name);
          _ ← x_charge (sum_z (map count groups));
          let entries := first_entries (List.concat groups) [] in
          mret (if (is_inverse : bool) then OIdSetWithFields target entries else OIdSet target (map fst entries))
      end
  end.

(** ** Steps *)

Fixpoint filter_scored (p : Predicate) (rows : list (Object * RowScore)) : X (list (Object * RowScore)) :=
  match rows with
  | [] => mret []
  | (o, s) :: rows =>
      o ← ensure o;
      rest ← filter_scored p rows;
      mret (if evaluate_predicate p (o_fields o) then (o, s) :: rest else rest)
  end.

Definition filter_objects (p : Predicate) (os : list Object) : X (list Object) :=
  os ← lift (engine (ensure_all os)); mret (List.filter (fun o => evaluate_predicate p (o_fields o)) os).

Definition filter_step (current : QueryOutput) (p : Predicate) (source : Source) : X QueryOutput :=
  _ ← lift (validate_predicate_for_type db (output_type_name current source) p);
  match current with
  | OScored rows => rows ← filter_scored p rows; mret (OScored rows)
  | _ =>
      os ← match current with
           | OIdSet type_name ids => materialize_ids type_name ids
           | OIdSetWithFields type_name items => materialize_ids type_name (map fst items)
           | other => lift (extract_objects other)
           end;
      os ← filter_objects p os;
      mret (OObjects os)
  end.

(** Work that a write adds, charged when rows are budgeted. *)
Definition when_capped (m : X unit) : X unit := match scan_cap g with Some _ => m | None => mret tt end.

Definition update_step (current : QueryOutput) (fs : LiteralMap) (source : Source) : X QueryOutput :=
  let '(type_name, ids) := ids_from_output current source in
  _ ← x_charge (count ids);
  field_map ← lift (literal_map_to_field_map db type_name fs);
  _ ← when_capped (
    _ ← x_charge (sat_mul (fulltext_index_words db type_name field_map) (count ids));
    stored ← db_read (fun m => fulltext_stored_words db m type_name ids (Some field_map));
    x_charge stored);
  _ ← gate_write OUpdate type_name ids (Some field_map);
  updated ← each (fun id => _ ← x_check_deadline; db_update type_name id field_map) ids;
  mret (match updated with [o] => OSingle (of_obj o) | _ => OObjects (map of_obj updated) end).

Definition delete_step (current : QueryOutput) (source : Source) : X QueryOutput :=
  let '(type_name, ids) := ids_from_output current source in
  _ ← x_charge (count ids);
  _ ← when_capped (stored ← db_read (fun m => fulltext_stored_words db m type_name ids None); x_charge stored);
  _ ← gate_write ODelete type_name ids None;
  _ ← each (fun id => _ ← x_check_deadline; db_delete type_name id) ids;
  mret ODone.

Definition link_step (current : QueryOutput) (target : bytes) (target_id : Z) (edge_fs : LiteralMap) (source : Source)
    : X QueryOutput :=
  let '(source_type, ids) := ids_from_output current source in
  _ ← x_charge (count ids);
  _ ← gate_write OUpdate source_type ids None;
  field_name ← lift (resolve_relation_field source_type target);
  edge_map ← match edge_fs with
             | [] => mret None
             | _ => fm ← lift (edge_literal_map_to_field_map db source_type field_name edge_fs); mret (Some fm)
             end;
  _ ← each (fun id => db_link source_type id field_name target_id edge_map) ids;
  mret ODone.

Definition unlink_step (current : QueryOutput) (target : bytes) (target_id : Z) (source : Source) : X QueryOutput :=
  let '(source_type, ids) := ids_from_output current source in
  _ ← x_charge (count ids);
  _ ← gate_write OUpdate source_type ids None;
  field_name ← lift (resolve_relation_field source_type target);
  _ ← each (fun id => db_unlink source_type id field_name target_id) ids;
  mret ODone.

(** A limit and an offset on any shape. *)
Definition cut_step (cut : forall A, list A -> list A) (current : QueryOutput) : X QueryOutput :=
  match current with
  | OIdSet type_name ids => mret (OIdSet type_name (cut _ ids))
  | OIdSetWithFields type_name items => mret (OIdSetWithFields type_name (cut _ items))
  | OScored rows => mret (OScored (cut _ rows))
  | other => os ← lift (extract_objects other); mret (OObjects (cut _ os))
  end.

Definition execute_step (current : QueryOutput) (step : Step) (source : Source) : X QueryOutput :=
  match step with
  | Traverse field_name => traverse current field_name source
  | StepFilter p => filter_step current p source
  | StepUpdate fs => update_step current fs source
  | StepDelete => delete_step current source
  | StepLink target target_id edge_fs => link_step current target target_id edge_fs source
  | StepUnlink target target_id => unlink_step current target target_id source
  | Similar field_name query k ef rerank =>
      let '(type_name, ids) := ids_from_output current source in
      run_similar type_name field_name query k (Some ids) ef rerank
  | Matches field_name query k =>
      let '(type_name, ids) := ids_from_output current source in
      run_matches type_name field_name query k (Some ids)
  | Limit n => cut_step (fun _ => take (Z.to_nat (clamp_limit g n))) current
  | Offset n => cut_step (fun _ => drop (Z.to_nat n)) current
  end.

(** ** Sources *)

Definition execute_source (source : Source) (steps : list Step) : X QueryOutput :=
  match source with
  | SrcGet type_name id => o ← db_read (fun m => get db m type_name id); mret (OObjects [of_obj o])
  | SrcFilter type_name p =>
      _ ← lift (validate_predicate_for_type db type_name p);
      let pushed_limit := match x_rules ctx with None => clamp_limit g <$> leading_limit steps | Some _ => None end in
      m ← gets w_map;
      planned ← lift (plan_filter_scan db (reader m) type_name p pushed_limit);
      match planned with
      | Some os => _ ← x_charge (count os); mret (OObjects (map of_obj os))
      | None => all ← scan_all_objects type_name; os ← filter_objects p all; mret (OObjects os)
      end
  | SrcCreate type_name fs =>
      field_map ← lift (literal_map_to_field_map db type_name fs);
      _ ← when_capped (x_charge (fulltext_index_words db type_name field_map));
      _ ← gate_create type_name field_map;
      o ← db_create type_name field_map;
      mret (OSingle (of_obj o))
  | SrcCreateBatch type_name rows =>
      _ ← x_charge (count rows);
      field_maps ← each (fun r => lift (literal_map_to_field_map db type_name r)) rows;
      _ ← when_capped (x_charge (fold_left sat_add (map (fulltext_index_words db type_name) field_maps) 0));
      _ ← each (gate_create type_name) field_maps;
      os ← db_create_batch type_name field_maps;
      mret (OObjects (map of_obj os))
  | SrcAll type_name => all ← scan_all_objects type_name; mret (OObjects all)
  end.

(** ** Queries *)

Definition point_source (s : Source) : bool :=
  match s with SrcGet _ _ | SrcCreate _ _ | SrcCreateBatch _ _ => true | _ => false end.

(** Steps whose rows are among those they are given. *)
Definition keeps_rows (s : Step) : bool :=
  match s with StepFilter _ | Limit _ | Offset _ | Matches _ _ _ | Similar _ _ _ _ _ => true | _ => false end.

Definition under_rules : bool := match x_rules ctx with Some _ => true | None => false end.

(** The steps from the [i]-th on. *)
Fixpoint run_steps (source : Source) (i : nat) (depth : Z) (unfiltered : bool) (steps : list Step) (result : QueryOutput)
    : X QueryOutput :=
  match steps with
  | [] => mret result
  | step :: steps =>
      _ ← x_check_deadline;
      let depth := match step with Traverse _ => depth + 1 | _ => depth end in
      _ ← match step with Traverse _ => lift (check_depth g depth) | _ => mret tt end;
      let stage := under_rules && unfiltered && negb ((i =? 0)%nat && point_source source && is_write step) in
      result ← (if (stage : bool) then read_filter_stage result else mret result);
      result ← execute_step result step source;
      run_steps source (S i) depth (negb (keeps_rows step) || (unfiltered && negb stage)) steps result
  end.

(** Rows of ids become objects. *)
Definition materialize (result : QueryOutput) : X QueryOutput :=
  let load type_name ids :=
    _ ← lift (check_result_rows g (count ids));
    _ ← x_charge (count ids);
    os ← materialize_ids type_name ids;
    mret (OObjects os) in
  match result with
  | OIdSet type_name ids => load type_name ids
  | OIdSetWithFields type_name items => load type_name (map fst items)
  | other => mret other
  end.

Definition result_rows (result : QueryOutput) : option Z :=
  match result with OObjects os => Some (count os) | OScored rows => Some (count rows) | _ => None end.

Definition final_filter (result : QueryOutput) : X QueryOutput :=
  if under_rules then
    _ ← match result_rows result with Some n => x_charge n | None => mret tt end;
    result ← apply_read_filter result;
    _ ← x_check_exhausted;
    mret result
  else mret result.

Definition first_stage (q : Query) : X (QueryOutput * nat) :=
  match q_source q, q_steps q, x_rules ctx with
  | SrcAll type_name, Similar field_name sq k ef rerank :: _, None =>
      r ← run_similar type_name field_name sq k None ef rerank; mret (r, 1%nat)
  | SrcAll type_name, Matches field_name text k :: _, _ =>
      r ← run_matches type_name field_name text k None; mret (r, 1%nat)
  | _, _, _ => r ← execute_source (q_source q) (q_steps q); mret (r, O)
  end.

Definition execute (q : Query) : X QueryOutput :=
  '(result, first_step) ← first_stage q;
  result ← run_steps (q_source q) first_step 0 (first_step =? 0)%nat (drop first_step (q_steps q)) result;
  result ← materialize result;
  result ← final_filter result;
  _ ← lift (match result_rows result with Some n => check_result_rows g n | None => QOk tt end);
  mret result.

(** ** Change events *)

(** The fields of an event, without the relations of its object. *)
Record JsonSnapshot := { js_fields : option (bmap JsonValue) }.

Definition snapshot_reads : reads JsonSnapshot unit := {|
  resource_scalar s field := mret (fs ← js_fields s; bm_get field fs);
  resource_relation_one _ _ _ := mret None;
  resource_relation_many _ _ _ := mret None;
  request_field _ _ := mret None;
|}.
#[global] Existing Instance snapshot_reads.

Definition event_read_allowed (rules : RulesProgram) (p : Principal) (type_name : bytes) (snapshot : option (bmap JsonValue)) : bool :=
  match evaluate p {| js_fields := snapshot |} rules ORead type_name tt with
  | Some (d, _) => is_allow d
  | None => false
  end.

End executor.
