(* ===== verification/ExecutorProps.v ===== *)
(** * Properties of query execution

    Under a rules program every object a query returns passes the read rule on
    the facts of the store it leaves ([results_readable]), and every change a
    query makes to the store is authorized on the facts before it
    ([changes_authorized]); a query that succeeds stayed within its row budget
    ([query_within_limits]). *)

From Stdlib Require Import ZArith Lia Bool List Strings.Byte Strings.String.
From stdpp Require Import base tactics option list sorting gmap relations.
From S2P Require Import Prelude ByteMap Keys Zone Utf8 Values Ieee Schema IndexKeys Posting Store Fulltext Engine EngineDelete.
From S2P Require Import FilterScan Serde QueryPlan QueryReads Rules Executor.

Local Open Scope Z_scope.

Section props.
Context {SJ : SerdeJson} {C : TextCodecs} {T : TextLib} {L : EngineLib} {SL : SearchLib}.
Variables (db : Database) (reader : bmap bytes -> Reader) (clock : nat -> Z) (ctx : ExecContext).

(** ** Runs *)

Lemma X_bind_inv {A B} (m : X A) (f : A -> X B) w r w' :
  (m ≫= f) w = (r, w') ->
  (exists a w1, m w = (QOk a, w1) /\ f a w1 = (r, w')) \/
  (exists r1, m w = (r1, w') /\ (forall a, r1 <> QOk a) /\ forall b, r <> QOk b).
Proof.
  unfold mbind, X_bind. destruct (m w) as [[a|e| |] w1]; intros H; [left; eauto|right..]; injection H as <- <-;
    eexists; (split; [reflexivity|]); done.
Qed.

Lemma X_bind_ok {A B} (m : X A) (f : A -> X B) w b w' :
  (m ≫= f) w = (QOk b, w') -> exists a w1, m w = (QOk a, w1) /\ f a w1 = (QOk b, w').
Proof. intros [?|(? & _ & _ & H)]%X_bind_inv; [done|by destruct (H b)]. Qed.

Definition is_ok {A} (r : qres A) : bool := match r with QOk _ => true | _ => false end.

(** A relation between the states around a run, by whether the run succeeds, that
    holds along a sequence of runs when it holds for each. *)
Class Along (P : bool -> relation World) : Prop := {
  along_refl b w : P b w w;
  along_trans b w1 w2 w3 : P true w1 w2 -> P b w2 w3 -> P b w1 w3;
}.

(** Every run of [m] relates the states around it by [P]. *)
Definition relates {A} (P : bool -> relation World) (m : X A) : Prop := forall w r w', m w = (r, w') -> P (is_ok r) w w'.

(** Whether it succeeds or not. *)
Definition always (R : relation World) : bool -> relation World := fun _ => R.

#[global] Instance always_along R `{!PreOrder R} : Along (always R).
Proof. split; unfold always; [reflexivity|intros; by etransitivity]. Qed.

Section relates.
Context (P : bool -> relation World) `{!Along P}.

Lemma relates_ret {A} (a : A) : relates P (mret a).
Proof. intros w r w' [= <- <-]. apply along_refl. Qed.

Lemma relates_lift {A} (m : qres A) : relates P (lift m).
Proof. intros w r w' [= <- <-]. apply along_refl. Qed.

Lemma relates_bind {A B} (m : X A) (f : A -> X B) : relates P m -> (forall a, relates P (f a)) -> relates P (m ≫= f).
Proof.
  intros Hm Hf w r w' [(a & w1 & E1 & E2)|(r1 & E & H1 & H2)]%X_bind_inv.
  - apply Hm in E1. apply Hf in E2. by eapply along_trans.
  - apply Hm in E. assert (is_ok r = is_ok r1) as ->; [|done].
    destruct r1, r; try done; try (by edestruct H1); by edestruct H2.
Qed.

Lemma relates_each {A B} (f : A -> X B) l : (forall a, In a l -> relates P (f a)) -> relates P (each f l).
Proof.
  induction l as [|a l IH]; intros Hf; cbn [each]; [apply relates_ret|].
  apply relates_bind; [by apply Hf; left|]. intros. apply relates_bind; [|intros; apply relates_ret].
  apply IH. intros ? ?. apply Hf. by right.
Qed.
End relates.

Lemma relates_weaken {A} (P Q : bool -> relation World) (m : X A) :
  (forall b w w', P b w w' -> Q b w w') -> relates P m -> relates Q m.
Proof. unfold relates. eauto. Qed.

(** Reading leaves the store as it is. *)
Definition same_store (w w' : World) : Prop :=
  w_map w' = w_map w /\ w_vc w' = w_vc w /\ w_next w' = w_next w.

#[global] Instance same_store_preorder : PreOrder same_store.
Proof. split; [done|]. unfold same_store. intros w1 w2 w3 ? ?. intuition congruence. Qed.

Abbreviation quiet := (relates (always same_store)).

Lemma quiet_map {A} (m : X A) w r w' : quiet m -> m w = (r, w') -> w_map w' = w_map w.
Proof. intros H E. by destruct (H _ _ _ E). Qed.

(** Walks a computation down to its engine calls. *)
Ltac walk_step :=
  first
    [ assumption
    | solve [auto with quiet]
    | apply relates_ret; [apply _]
    | apply relates_lift; [apply _]
    | apply relates_bind; [apply _| |intros ?]
    | apply relates_each; [apply _|intros ? ?]
    | match goal with
      | |- forall _, relates _ _ => intros ?
      | |- relates _ (let '_ := ?x in _) => destruct x
      | |- relates _ (match ?x with _ => _ end) => destruct x
      end ].
Ltac walk := repeat walk_step.
Tactic Notation "walk" "past" tactic3(t) := repeat first [t | walk_step].

Create HintDb quiet discriminated.

Lemma quiet_db_read {A} (f : bmap bytes -> eres A) : quiet (db_read f).
Proof. intros w r w' [= <- <-]. reflexivity. Qed.

Lemma quiet_db_read_ok {A} (f : bmap bytes -> eres A) : quiet (db_read_ok f).
Proof. intros w r w'. unfold db_read_ok. destruct (f (w_map w)); intros [= <- <-]; reflexivity. Qed.

Lemma quiet_governed {A} (f : Tally -> qres A * Tally) : quiet (governed f).
Proof. intros w r w'. unfold governed. destruct (f (w_tally w)). by intros [= <- <-]. Qed.

Lemma quiet_gets {A} (f : World -> A) : quiet (gets f).
Proof. intros w r w' [= <- <-]. reflexivity. Qed.

Lemma quiet_search {A} (f : nat -> bmap bytes -> qres A) : quiet (search f).
Proof. intros w r w' [= <- <-]. reflexivity. Qed.

#[local] Hint Resolve quiet_db_read quiet_db_read_ok quiet_governed quiet_gets quiet_search : quiet.
#[local] Hint Extern 1 (relates _ (x_charge _ _ _)) => apply quiet_governed : quiet.
#[local] Hint Extern 1 (relates _ (x_check_deadline _ _)) => apply quiet_governed : quiet.
#[local] Hint Extern 1 (relates _ (x_check_exhausted _ _)) => apply quiet_governed : quiet.
#[local] Hint Extern 1 (relates _ (ensure _)) => apply relates_lift : quiet.
#[local] Hint Extern 1 (relates _ (fail _)) => apply relates_lift : quiet.

(** ** The facts a rule is judged on *)

Definition linked (m : bmap bytes) (res : EngineResource) (rel : bytes) : option (list Z) :=
  o ← er_object res;
  match get_links_many db m (er_type res) [o_id o] rel with
  | EOk groups => Some (map fst (List.concat groups))
  | _ => None
  end.

Definition fact_scalar (m : bmap bytes) (target : bytes) (id : Z) (field : bytes) : option JsonValue :=
  match get db m target id with EOk o => value_to_query_json <$> bm_get field (obj_fields o) | _ => None end.

Definition field_json (fs : FieldMap) (field : bytes) : option JsonValue := value_to_query_json <$> bm_get field fs.

(** Everything there is to know in the store [m]. *)
Definition engine_facts (m : bmap bytes) (res : EngineResource) : Facts := {|
  f_scalar field := er_object res ≫= fun o => field_json (o_fields o) field;
  f_one rel field :=
    match relation_target_type db (er_type res) rel, linked m res rel with
    | Some target, Some (id :: _) => fact_scalar m target id field
    | _, _ => None
    end;
  f_many rel field :=
    match relation_target_type db (er_type res) rel, linked m res rel with
    | Some target, Some ids => Some (omap (fun id => fact_scalar m target id field) ids)
    | _, _ => None
    end;
  f_request field := er_request res ≫= fun fm => field_json fm field;
|}.

(** The rules allow the operation on the facts. *)
Definition permitted (rules : RulesProgram) (op : Op) (m : bmap bytes) (res : EngineResource) : Prop :=
  exists clauses e, clauses_of rules op (er_type res) = Some clauses /\ In e clauses /\
    holds (x_principal ctx) (engine_facts m res) e.

Section approx.
Variables (w0 : World).
Abbreviation I := (same_store w0).

Lemma same_store_set_tally w t : I w -> I (set_tally w t).
Proof. done. Qed.

Lemma st_read_ok_spec {A} (f : bmap bytes -> eres A) w v w' : I w -> st_read_ok f w = Some (v, w') ->
  w' = w /\ v = match f (w_map w0) with EOk a => Some a | _ => None end.
Proof.
  intros (Hm & _) H. unfold st_read_ok in H. rewrite Hm in H. destruct (f (w_map w0)); try done; by injection H as <- <-.
Qed.

Lemma linked_ids_partial res rel w v w' : I w -> linked_ids db clock ctx res rel w = Some (v, w') ->
  I w' /\ partial v (linked (w_map w0) res rel).
Proof.
  intros HI. unfold linked_ids, linked. destruct (er_object res) as [o|]; [|intros [= <- <-]; split; [done|by left]].
  intros (groups & w1 & E1 & E2)%St_bind_inv. destruct (st_read_ok_spec _ _ _ _ HI E1) as [-> ->].
  cbn [mbind option_bind]. destruct (get_links_many _ _ _ _ _) as [gs| | |];
    try (injection E2 as <- <-; split; [done|by left]).
  apply St_bind_inv in E2 as (within & w2 & E2 & E3). injection E3 as <- <-.
  unfold st_charge in E2. destruct (charge _ _ _ _). injection E2 as <- <-.
  split; [by apply same_store_set_tally|]. destruct (_ || _); [by left|by right].
Qed.

Lemma target_scalar_spec target id field w v w' : I w -> target_scalar db target id field w = Some (v, w') ->
  w' = w /\ v = fact_scalar (w_map w0) target id field.
Proof.
  intros HI (o & w1 & E1 & E2)%St_bind_inv. destruct (st_read_ok_spec _ _ _ _ HI E1) as [-> ->].
  injection E2 as <- <-. split; [done|]. unfold fact_scalar. by destruct (get _ _ _ _).
Qed.

Lemma target_scalars_spec target ids field w vs w' : I w -> target_scalars db target ids field w = Some (vs, w') ->
  w' = w /\ vs = omap (fun id => fact_scalar (w_map w0) target id field) ids.
Proof.
  intros HI. revert vs. induction ids as [|id ids IH]; intros vs E; cbn [target_scalars] in E; [by injection E as <- <-|].
  apply St_bind_inv in E as (v & w1 & E1 & E2). apply St_bind_inv in E2 as (vs' & w2 & E2 & E3). injection E3 as <- <-.
  destruct (target_scalar_spec _ _ _ _ _ _ HI E1) as [-> ->]. destruct (IH _ E2) as [-> ->].
  split; [done|]. cbn. by destruct (fact_scalar _ _ _ _).
Qed.

#[global] Instance engine_resource_approximates res :
  approximates (A := engine_resource_reads db clock ctx) res I (engine_facts (w_map w0) res).
Proof.
  constructor.
  - intros f s v s' HI [= <- <-]. split; [done|by right].
  - intros rel f s v s' HI. cbn [resource_relation_one engine_resource_reads f_one engine_facts].
    destruct (relation_target_type _ _ _) as [target|]; [|intros [= <- <-]; split; [done|by left]].
    intros (ids & w1 & E1 & E2)%St_bind_inv. destruct (linked_ids_partial _ _ _ _ _ HI E1) as [HI1 Hp].
    destruct ids as [[|id ids]|]; [injection E2 as <- <-; split; [done|by left]| |injection E2 as <- <-; split; [done|by left]].
    destruct (target_scalar_spec _ _ _ _ _ _ HI1 E2) as [-> ->]. split; [done|]. destruct Hp as [?|Hp]; [done|].
    right. by rewrite <- Hp.
  - intros rel f s v s' HI. cbn [resource_relation_many engine_resource_reads f_many engine_facts].
    destruct (relation_target_type _ _ _) as [target|]; [|intros [= <- <-]; split; [done|by left]].
    intros (ids & w1 & E1 & E2)%St_bind_inv. destruct (linked_ids_partial _ _ _ _ _ HI E1) as [HI1 Hp].
    destruct ids as [ids|]; [|injection E2 as <- <-; split; [done|by left]].
    apply St_bind_inv in E2 as (vs & w2 & E2 & E3). injection E3 as <- <-.
    destruct (target_scalars_spec _ _ _ _ _ _ HI1 E2) as [-> ->]. split; [done|]. destruct Hp as [?|Hp]; [done|].
    right. by rewrite <- Hp.
  - intros f s v s' HI [= <- <-]. split; [done|by right].
Qed.

End approx.

Lemma decision_sound rules op res w r w' : decision db clock ctx rules op res w = (r, w') ->
  same_store w w' /\ (r = QOk DAllow -> permitted rules op (w_map w) res).
Proof.
  unfold decision. destruct (evaluate _ _ _ _ _ _) as [[d w1]|] eqn:E; intros [= <- <-]; [|done].
  assert (same_store w w) as HI by reflexivity.
  destruct (evaluate_below res (same_store w) (engine_facts (w_map w) res) _ _ _ _ _ _ _ HI E) as [? Hd]. split; [done|].
  intros [= ->]. by apply Hd.
Qed.

Lemma quiet_decision rules op res : quiet (decision db clock ctx rules op res).
Proof. intros w r w' E. by apply decision_sound in E as [? _]. Qed.
#[local] Hint Resolve quiet_decision : quiet.

(** ** Reading *)

Definition read_res (o : Object) : EngineResource := {| er_type := o_type o; er_object := Some o; er_request := None |}.

Lemma quiet_decide_op rules op res : quiet (decide_op db clock ctx rules op res).
Proof. unfold decide_op. walk. Qed.

Lemma quiet_readable rules o : quiet (readable db clock ctx rules o).
Proof. unfold readable. walk. Qed.
#[local] Hint Resolve quiet_decide_op quiet_readable : quiet.

Lemma quiet_retain rules os : quiet (retain_readable db clock ctx rules os).
Proof. induction os; cbn [retain_readable]; walk. Qed.
#[local] Hint Resolve quiet_retain : quiet.

Lemma quiet_filter_read os : quiet (filter_read db clock ctx os).
Proof. unfold filter_read. walk. Qed.
#[local] Hint Resolve quiet_filter_read : quiet.

Lemma quiet_rescore rows os : quiet (rescore rows os).
Proof. induction os; cbn [rescore]; walk. Qed.
#[local] Hint Resolve quiet_rescore : quiet.

Lemma quiet_apply_read_filter out : quiet (apply_read_filter db clock ctx out).
Proof. unfold apply_read_filter. walk. Qed.
#[local] Hint Resolve quiet_apply_read_filter : quiet.

Lemma quiet_readable_batches type_name batches : quiet (readable_batches db clock ctx type_name batches).
Proof. induction batches; cbn [readable_batches]; walk. Qed.
#[local] Hint Resolve quiet_readable_batches : quiet.

Lemma quiet_readable_ids type_name ids : quiet (readable_ids db clock ctx type_name ids).
Proof. unfold readable_ids. walk. Qed.
#[local] Hint Resolve quiet_readable_ids : quiet.

Lemma quiet_read_filter_stage out : quiet (read_filter_stage db clock ctx out).
Proof. unfold read_filter_stage. walk. Qed.

Lemma quiet_load_hits type_name hits : quiet (load_hits db type_name hits).
Proof. induction hits as [|[]]; cbn [load_hits]; walk. Qed.
#[local] Hint Resolve quiet_read_filter_stage quiet_load_hits : quiet.

Lemma quiet_run_similar type_name f q k restrict ef rerank :
  quiet (run_similar db clock ctx type_name f q k restrict ef rerank).
Proof. unfold run_similar. walk. Qed.

Lemma quiet_run_matches type_name f q k restrict : quiet (run_matches db clock ctx type_name f q k restrict).
Proof. unfold run_matches. walk. Qed.

Lemma quiet_materialize_ids type_name ids : quiet (materialize_ids db type_name ids).
Proof. unfold materialize_ids. walk. Qed.

Lemma quiet_scan_all_objects type_name : quiet (scan_all_objects db clock ctx type_name).
Proof. unfold scan_all_objects. walk. Qed.
#[local] Hint Resolve quiet_run_similar quiet_run_matches quiet_materialize_ids quiet_scan_all_objects : quiet.

Lemma quiet_traverse current f source : quiet (traverse db clock ctx current f source).
Proof. unfold traverse. walk. Qed.

Lemma quiet_filter_scored p rows : quiet (filter_scored p rows).
Proof. induction rows as [|[]]; cbn [filter_scored]; walk. Qed.

Lemma quiet_filter_objects p os : quiet (filter_objects p os).
Proof. unfold filter_objects. walk. Qed.
#[local] Hint Resolve quiet_traverse quiet_filter_scored quiet_filter_objects : quiet.

Lemma quiet_filter_step current p source : quiet (filter_step db current p source).
Proof. unfold filter_step. walk. Qed.

Lemma quiet_cut_step cut current : quiet (cut_step cut current).
Proof. unfold cut_step. walk. Qed.
#[local] Hint Resolve quiet_filter_step quiet_cut_step : quiet.

Lemma quiet_materialize out : quiet (materialize db clock ctx out).
Proof. unfold materialize. walk. Qed.

Lemma quiet_final_filter out : quiet (final_filter db clock ctx out).
Proof. unfold final_filter. walk. Qed.
#[local] Hint Resolve quiet_materialize quiet_final_filter : quiet.

(** *** What a filter keeps is readable *)

(** The objects a result shows. *)
Definition shows (out : QueryOutput) : list Object :=
  match out with OObjects os => os | OSingle o => [o] | OScored rows => map fst rows | _ => [] end.

Definition may_read (rules : RulesProgram) (m : bmap bytes) (o : Object) : Prop := permitted rules ORead m (read_res o).

Lemma ensure_ok o w o' w' : ensure o w = (QOk o', w') -> w' = w.
Proof. by intros [= _ <-]. Qed.

Lemma readable_sound rules o w keep w' : readable db clock ctx rules o w = (QOk keep, w') ->
  same_store w w' /\ (keep = true -> may_read rules (w_map w) o).
Proof.
  intros (d & w1 & E1 & E2)%X_bind_ok. injection E2 as <- <-. apply decision_sound in E1 as [? Hd].
  split; [done|]. destruct d; [|done]. intros _. by apply Hd.
Qed.

Lemma retain_sound rules os w os' w' : retain_readable db clock ctx rules os w = (QOk os', w') ->
  Forall (may_read rules (w_map w)) os'.
Proof.
  revert w os'. induction os as [|o os IH]; intros w os' E; cbn [retain_readable] in E; [by injection E as <- <-|].
  apply X_bind_ok in E as (o' & w1 & E1 & E). apply ensure_ok in E1 as ->.
  apply X_bind_ok in E as (keep & w2 & E2 & E). apply readable_sound in E2 as [(Hm & _) Hk].
  apply X_bind_ok in E as (rest & w3 & E3 & E). injection E as <- <-. apply IH in E3. rewrite Hm in E3.
  destruct keep; [constructor; auto|done].
Qed.

Lemma rescore_shows rows os w rows' w' : rescore rows os w = (QOk rows', w') -> map fst rows' = os.
Proof.
  revert w rows'. induction os as [|o os IH]; intros w rows' E; cbn [rescore] in E; [by injection E as <- <-|].
  apply X_bind_ok in E as (s & w1 & _ & E). apply X_bind_ok in E as (rest & w2 & E2 & E). injection E as <- <-.
  cbn [map fst]. f_equal. by eapply IH.
Qed.

Lemma apply_read_filter_sound rules out w out' w' : x_rules ctx = Some rules ->
  apply_read_filter db clock ctx out w = (QOk out', w') -> Forall (may_read rules (w_map w)) (shows out').
Proof.
  intros Hr E. unfold apply_read_filter, filter_read in E. rewrite Hr in E.
  destruct out as [os|o| |rows|ty ids|ty items]; try (injection E as <- <-; constructor).
  - apply X_bind_ok in E as (os' & w1 & E1 & E). injection E as <- <-. by eapply retain_sound.
  - apply X_bind_ok in E as (o' & w1 & E1 & E). apply ensure_ok in E1 as ->.
    apply X_bind_ok in E as (keep & w2 & E2 & E). injection E as <- <-. apply readable_sound in E2 as [_ Hk].
    destruct keep; [|constructor]. constructor; [by apply Hk|constructor].
  - apply X_bind_ok in E as (os' & w1 & E1 & E). apply X_bind_ok in E as (rows' & w2 & E2 & E). injection E as <- <-.
    cbn [shows]. rewrite (rescore_shows _ _ _ _ _ E2). by eapply retain_sound.
Qed.

(** Only objects leave the executor. *)
Definition is_final (out : QueryOutput) : bool :=
  match out with OIdSet _ _ | OIdSetWithFields _ _ => false | _ => true end.

Lemma materialize_final out w out' w' : materialize db clock ctx out w = (QOk out', w') -> is_final out' = true.
Proof.
  destruct out; cbn [materialize]; intros E; try (by injection E as <- <-);
    do 3 (apply X_bind_ok in E as (? & ? & _ & E)); by injection E as <- <-.
Qed.

Lemma final_filter_final out w out' w' : is_final out = true -> final_filter db clock ctx out w = (QOk out', w') ->
  is_final out' = true.
Proof.
  intros Hf. unfold final_filter, under_rules. destruct (x_rules ctx) as [rules|] eqn:Hr; [|by intros [= <- <-]].
  intros (? & ? & _ & E)%X_bind_ok. apply X_bind_ok in E as (out1 & ? & E1 & E). apply X_bind_ok in E as (? & ? & _ & E).
  injection E as <- <-. unfold apply_read_filter in E1. rewrite Hr in E1.
  destruct out; try done; repeat (apply X_bind_ok in E1 as (? & ? & _ & E1)); injection E1 as <- <-; try done.
  by case_match.
Qed.

Lemma final_filter_sound rules out w out' w' : x_rules ctx = Some rules ->
  final_filter db clock ctx out w = (QOk out', w') -> Forall (may_read rules (w_map w')) (shows out').
Proof.
  intros Hr E. rewrite (quiet_map _ _ _ _ (quiet_final_filter out) E).
  unfold final_filter, under_rules in E. rewrite Hr in E.
  apply X_bind_ok in E as (? & w1 & E1 & E). apply X_bind_ok in E as (out1 & w2 & E2 & E).
  apply X_bind_ok in E as (? & w3 & E3 & E). injection E as <- <-.
  apply (apply_read_filter_sound rules) in E2; [|done].
  assert (w_map w1 = w_map w) as Hm; [|by rewrite <- Hm].
  eapply quiet_map; [|exact E1]. walk.
Qed.

(** The last stages of a query that succeeds. *)
Lemma execute_inv q w out w' : execute db reader clock ctx q w = (QOk out, w') ->
  exists raw w1 loaded w2 w3, materialize db clock ctx raw w1 = (QOk loaded, w2) /\
    final_filter db clock ctx loaded w2 = (QOk out, w3) /\ w' = w3 /\
    (forall n, result_rows out = Some n -> check_result_rows (x_governor ctx) n = QOk tt).
Proof.
  intros ([r n] & w1 & _ & E)%X_bind_ok. apply X_bind_ok in E as (raw & w2 & _ & E).
  apply X_bind_ok in E as (loaded & w3 & E3 & E). apply X_bind_ok in E as (res & w4 & E4 & E).
  apply X_bind_ok in E as ([] & w5 & E5 & E). injection E as <- <-. exists raw, w2, loaded, w3, w4.
  split; [done|]. split; [done|]. injection E5 as E5 <-. split; [done|]. intros k Hk. by rewrite Hk in E5.
Qed.

(** C7: under a rules program a query never returns an object its principal may
    not read.  Whatever the query (any source, any steps, writes and searches
    included), when it succeeds its result holds only objects, and each of them,
    created, updated, ranked, traversed to or looked up, satisfies a clause of
    the read rule of its type on the fields returned and the relations in the
    store the query leaves behind, with nothing withheld. *)
Theorem results_readable rules q w out w' :
  x_rules ctx = Some rules -> execute db reader clock ctx q w = (QOk out, w') ->
  is_final out = true /\ Forall (may_read rules (w_map w')) (shows out).
Proof.
  intros Hr (raw & w1 & loaded & w2 & w3 & E1 & E2 & -> & _)%execute_inv. split.
  - eapply final_filter_final; [by eapply materialize_final|done].
  - by eapply final_filter_sound.
Qed.

(** ** Writing *)

Definition write_res (type_name : bytes) (o : Object) (request : option FieldMap) : EngineResource :=
  {| er_type := type_name; er_object := Some o; er_request := request |}.
Definition create_res (type_name : bytes) (fs : FieldMap) : EngineResource :=
  {| er_type := type_name; er_object := None; er_request := Some fs |}.

(** One engine write to an object among [ids], of the operation [op]. *)
Inductive write_of (op : Op) (type_name : bytes) (ids : list Z) (request : option FieldMap) : relation (bmap bytes) :=
| write_update m vc id fs ops o vc' delta :
    op = OUpdate -> In id ids -> request = Some fs ->
    update db m vc type_name id fs = EOk (ops, o, vc', delta) -> write_of op type_name ids request m (apply_ops ops m)
| write_delete m vc id ops deleted delta :
    op = ODelete -> In id ids ->
    delete_object db (delete_fuel db m) m vc type_name id = EOk (ops, deleted, delta) ->
    write_of op type_name ids request m (apply_ops ops m)
| write_link m vc id field target edge_fs ops :
    op = OUpdate -> In id ids -> link db m vc type_name id field target edge_fs = EOk ops ->
    write_of op type_name ids request m (apply_ops ops m)
| write_unlink m id field target ops :
    op = OUpdate -> In id ids -> unlink db type_name id field target = EOk ops ->
    write_of op type_name ids request m (apply_ops ops m).

(** A change of the store that the rules allow in the state before it: the
    creation of one or more objects, or writes to objects that all passed. *)
Inductive change (rules : RulesProgram) : relation (bmap bytes) :=
| change_create m vc type_name id fs ops o vc' delta :
    permitted rules OCreate m (create_res type_name fs) ->
    create db m vc type_name id fs = EOk (ops, o, vc', delta) -> change rules m (apply_ops ops m)
| change_create_batch m vc type_name rows ops os vc' delta :
    Forall (fun r => permitted rules OCreate m (create_res type_name (snd r))) rows ->
    create_batch db m vc type_name rows = EOk (ops, os, vc', delta) -> change rules m (apply_ops ops m)
| change_write m op type_name ids request m' :
    (forall id o, In id ids -> get db m type_name id = EOk o -> permitted rules op m (write_res type_name (of_obj o) request)) ->
    rtc (write_of op type_name ids request) m m' -> change rules m m'.

Definition on_maps (R : relation (bmap bytes)) : relation World := fun w w' => rtc R (w_map w) (w_map w').

#[global] Instance on_maps_preorder R : PreOrder (on_maps R).
Proof. split; [intros w; apply rtc_refl|intros w1 w2 w3; unfold always, on_maps; by etransitivity]. Qed.

Lemma quiet_on_maps {A} R (m : X A) : quiet m -> relates (always (on_maps R)) m.
Proof. apply relates_weaken. intros b w w' (E & _). unfold always, on_maps. by rewrite E. Qed.
#[local] Hint Resolve quiet_on_maps : quiet.

Lemma db_ops_writes R (f : World -> eres (list op)) :
  (forall w ops, f w = EOk ops -> R (w_map w) (apply_ops ops (w_map w))) -> relates (always (on_maps R)) (db_ops f).
Proof.
  intros Hf w r w'. unfold db_ops. destruct (f w) as [ops| | |] eqn:E; intros [= <- <-]; try apply rtc_refl.
  apply rtc_once. by apply Hf.
Qed.

Lemma db_update_writes ids type_name id fs : In id ids ->
  relates (always (on_maps (write_of OUpdate type_name ids (Some fs)))) (db_update db type_name id fs).
Proof.
  intros Hin w r w'. unfold db_update. destruct (update _ _ _ _ _ _) as [[[[ops o] vc] d]| | |] eqn:E; intros [= <- <-];
    try apply rtc_refl. apply rtc_once. by eapply write_update.
Qed.

Lemma db_delete_writes ids type_name id request : In id ids ->
  relates (always (on_maps (write_of ODelete type_name ids request))) (db_delete db type_name id).
Proof.
  intros Hin w r w'. unfold db_delete. destruct (delete_object _ _ _ _ _ _) as [[[ops ds] d]| | |] eqn:E; intros [= <- <-];
    try apply rtc_refl. apply rtc_once. by eapply write_delete.
Qed.

Section authorized.
Variable rules : RulesProgram.
Hypothesis rules_on : x_rules ctx = Some rules.

Lemma decide_op_sound op res w u w' : decide_op db clock ctx rules op res w = (QOk u, w') ->
  same_store w w' /\ permitted rules op (w_map w) res.
Proof.
  intros (d & w1 & E1 & E2)%X_bind_ok. apply decision_sound in E1 as [? Hd]. destruct d; [|done].
  injection E2 as _ <-. auto.
Qed.

Lemma quiet_gate_ids op type_name ids request : quiet (gate_ids db clock ctx rules op type_name ids request).
Proof. induction ids; cbn [gate_ids]; walk. Qed.

Lemma gate_ids_sound op type_name ids request w u w' :
  gate_ids db clock ctx rules op type_name ids request w = (QOk u, w') ->
  forall id o, In id ids -> get db (w_map w) type_name id = EOk o ->
  permitted rules op (w_map w) (write_res type_name (of_obj o) request).
Proof.
  revert w. induction ids as [|i ids IH]; intros w E id o Hin Ho; [done|]. cbn [gate_ids] in E.
  apply X_bind_ok in E as (oo & w1 & E1 & E). apply X_bind_ok in E as ([] & w2 & E2 & E).
  pose proof (quiet_db_read_ok _ _ _ _ E1) as (Hm1 & _).
  assert (w_map w2 = w_map w1) as Hm2.
  { eapply quiet_map; [|exact E2]. walk. }
  destruct Hin as [->|Hin].
  - unfold db_read_ok in E1. rewrite Ho in E1. injection E1 as <- <-. apply decide_op_sound in E2 as [_ H]. done.
  - rewrite <- Hm1, <- Hm2. apply (IH _ E id); [done|]. by rewrite Hm2, Hm1.
Qed.

(** Writes behind a gate are a change the rules allow. *)
Lemma gated_writes {A} op type_name ids request (k : X A) :
  relates (always (on_maps (write_of op type_name ids request))) k ->
  relates (always (on_maps (change rules))) (_ ← gate_write db clock ctx op type_name ids request; k).
Proof.
  intros Hk w r w' E. unfold gate_write in E. rewrite rules_on in E.
  pose proof (quiet_gate_ids op type_name ids request) as Hq.
  apply X_bind_inv in E as [([] & w1 & E1 & E2)|(r1 & E1 & _)]; pose proof (quiet_map _ _ _ _ Hq E1) as Hm.
  - apply rtc_once. eapply change_write; [by eapply gate_ids_sound|]. rewrite <- Hm. by eapply Hk.
  - unfold always, on_maps. rewrite Hm. apply rtc_refl.
Qed.


Lemma relates_when_capped P `{!Along P} m : relates P m -> relates P (when_capped ctx m).
Proof. intros H. unfold when_capped. destruct (scan_cap _); [done|by apply relates_ret]. Qed.

Lemma update_step_changes current fs source :
  relates (always (on_maps (change rules))) (update_step db clock ctx current fs source).
Proof.
  unfold update_step. destruct (ids_from_output current source) as [type_name ids]. walk past (apply gated_writes).
  - apply relates_when_capped; [apply _|]. walk.
  - by apply db_update_writes.
Qed.

Lemma delete_step_changes current source : relates (always (on_maps (change rules))) (delete_step db clock ctx current source).
Proof.
  unfold delete_step. destruct (ids_from_output current source) as [type_name ids]. walk past (apply gated_writes).
  - apply relates_when_capped; [apply _|]. walk.
  - by apply db_delete_writes.
Qed.

Lemma link_step_changes current target target_id edge_fs source :
  relates (always (on_maps (change rules))) (link_step db clock ctx current target target_id edge_fs source).
Proof.
  unfold link_step. destruct (ids_from_output current source) as [type_name ids]. walk past (apply gated_writes);
    apply db_ops_writes; intros w ops E; by eapply write_link.
Qed.

Lemma unlink_step_changes current target target_id source :
  relates (always (on_maps (change rules))) (unlink_step db clock ctx current target target_id source).
Proof.
  unfold unlink_step. destruct (ids_from_output current source) as [type_name ids]. walk past (apply gated_writes).
  apply db_ops_writes. intros w ops E. by eapply write_unlink.
Qed.
#[local] Hint Resolve update_step_changes delete_step_changes link_step_changes unlink_step_changes : quiet.

Lemma execute_step_changes current step source :
  relates (always (on_maps (change rules))) (execute_step db clock ctx current step source).
Proof. destruct step; cbn [execute_step]; walk. Qed.
#[local] Hint Resolve execute_step_changes : quiet.

(** A gate on each row, and the creation behind it. *)
Lemma quiet_gate_create type_name fs : quiet (gate_create db clock ctx type_name fs).
Proof. unfold gate_create. walk. Qed.

Lemma gate_create_sound type_name fs w u w' : gate_create db clock ctx type_name fs w = (QOk u, w') ->
  permitted rules OCreate (w_map w) (create_res type_name fs).
Proof. unfold gate_create. rewrite rules_on. by intros [_ H]%decide_op_sound. Qed.

Lemma gate_rows_sound type_name rows w u w' : each (gate_create db clock ctx type_name) rows w = (QOk u, w') ->
  w_map w' = w_map w /\ Forall (fun fs => permitted rules OCreate (w_map w) (create_res type_name fs)) rows.
Proof.
  pose proof (quiet_gate_create type_name) as Hq.
  revert w u. induction rows as [|fs rows IH]; intros w u E; cbn [each] in E; [by injection E as <- <-|].
  apply X_bind_ok in E as ([] & w1 & E1 & E). apply X_bind_ok in E as (us & w2 & E2 & E). injection E as <- <-.
  pose proof (quiet_map _ _ _ _ (Hq fs) E1) as Hm. destruct (IH _ _ E2) as [Hm2 Hf]. rewrite Hm in Hm2, Hf.
  split; [done|]. constructor; [by eapply gate_create_sound|done].
Qed.

Lemma zip_snd_Forall {A B} (P : B -> Prop) (l : list A) (l' : list B) : Forall P l' -> Forall (fun r => P (snd r)) (zip l l').
Proof. intros H. revert l. induction H as [|b l' Hb H IH]; intros [|a l]; cbn; constructor; [done|apply IH]. Qed.

Lemma db_create_changes type_name fs w r w' : permitted rules OCreate (w_map w) (create_res type_name fs) ->
  db_create db type_name fs w = (r, w') -> on_maps (change rules) w w'.
Proof.
  intros Hp. unfold db_create. destruct (create _ _ _ _ _ _) as [[[[ops o] vc] d]| | |] eqn:E; intros [= <- <-];
    try apply rtc_refl. apply rtc_once. by eapply change_create.
Qed.

Lemma db_create_batch_changes type_name rows w r w' :
  Forall (fun fs => permitted rules OCreate (w_map w) (create_res type_name fs)) rows ->
  db_create_batch db type_name rows w = (r, w') -> on_maps (change rules) w w'.
Proof.
  intros Hp. unfold db_create_batch. destruct (create_batch _ _ _ _ _) as [[[[ops os] vc] d]| | |] eqn:E; intros [= <- <-];
    try apply rtc_refl. apply rtc_once. eapply change_create_batch; [|exact E].
  by apply (zip_snd_Forall (fun fs => permitted rules OCreate (w_map w) (create_res type_name fs))).
Qed.

Lemma gated_create {A} type_name fs (k : Obj -> X A) : (forall o, quiet (k o)) ->
  relates (always (on_maps (change rules))) (_ ← gate_create db clock ctx type_name fs; o ← db_create db type_name fs; k o).
Proof.
  intros Hk w r w' [([] & w1 & E1 & E)|(r1 & E1 & _)]%X_bind_inv;
    pose proof (quiet_map _ _ _ _ (quiet_gate_create type_name fs) E1) as Hm;
    [|unfold always, on_maps; by rewrite Hm].
  apply gate_create_sound in E1. rewrite <- Hm in E1.
  transitivity w1; [unfold always, on_maps; by rewrite Hm|].
  apply X_bind_inv in E as [(o & w2 & E2 & E)|(r1 & E2 & _)]; (etransitivity; [by eapply db_create_changes|]); [|done].
  by eapply quiet_on_maps.
Qed.

Lemma gated_create_batch {A} type_name rows (k : list Obj -> X A) : (forall os, quiet (k os)) ->
  relates (always (on_maps (change rules)))
    (_ ← each (gate_create db clock ctx type_name) rows; os ← db_create_batch db type_name rows; k os).
Proof.
  intros Hk w r w' [(us & w1 & E1 & E)|(r1 & E1 & _)]%X_bind_inv.
  - apply gate_rows_sound in E1 as [Hm E1]. rewrite <- Hm in E1. transitivity w1; [unfold always, on_maps; by rewrite Hm|].
    apply X_bind_inv in E as [(o & w2 & E2 & E)|(r1 & E2 & _)]; (etransitivity; [by eapply db_create_batch_changes|]); [|done].
    by eapply quiet_on_maps.
  - change (always (on_maps (change rules)) (is_ok r1) w w'). eapply quiet_on_maps; [|exact E1].
    pose proof (quiet_gate_create type_name). walk.
Qed.

Lemma execute_source_changes source steps :
  relates (always (on_maps (change rules))) (execute_source db reader clock ctx source steps).
Proof.
  destruct source; cbn [execute_source]; walk past (first [apply gated_create | apply gated_create_batch]);
    (apply relates_when_capped; [apply _|]; walk).
Qed.
#[local] Hint Resolve execute_source_changes : quiet.

Lemma run_steps_changes source i depth unfiltered steps result :
  relates (always (on_maps (change rules))) (run_steps db clock ctx source i depth unfiltered steps result).
Proof.
  revert i depth unfiltered result. induction steps as [|step steps IH]; intros; cbn [run_steps]; [walk|].
  walk; try apply IH.
Qed.
#[local] Hint Resolve run_steps_changes : quiet.

Lemma start_changes q : relates (always (on_maps (change rules))) (first_stage db reader clock ctx q).
Proof. unfold first_stage. walk.
Qed.
#[local] Hint Resolve start_changes : quiet.

(** C8: under a rules program every change of the store is authorized by the state
    before it.  Whether the query succeeds or fails, and wherever it stops, the
    store it leaves is reached from the store it found by allowed changes only:
    objects created from fields that passed the create rule, one or a whole
    batch, and updates, deletions, links and unlinks of objects that had all
    passed their rule, on their facts before the first of these writes. *)
Theorem changes_authorized q w r w' :
  execute db reader clock ctx q w = (r, w') -> rtc (change rules) (w_map w) (w_map w').
Proof.
  revert w r w'. change (relates (always (on_maps (change rules))) (execute db reader clock ctx q)). unfold execute. walk.
Qed.

End authorized.

(** ** The row budget *)

Definition in_budget (w : World) : Prop := within_budget (x_governor ctx) (w_tally w).

Definition budget (b : bool) (w w' : World) : Prop := b = true -> in_budget w -> in_budget w'.

#[global] Instance budget_along : Along budget.
Proof. split; unfold budget; auto. Qed.

Lemma budget_same {A} (m : X A) : (forall w r w', m w = (r, w') -> w_tally w' = w_tally w) -> relates budget m.
Proof. intros H w r w' E _. unfold in_budget. by rewrite (H _ _ _ E). Qed.

Lemma budget_charge n : relates budget (x_charge clock ctx n).
Proof.
  intros w r w'. unfold x_charge, governed. destruct (charge _ _ _ _) as [r1 t] eqn:E. intros [= <- <-] Hok _.
  destruct r1; try done. by eapply charge_ok.
Qed.

Lemma budget_deadline : relates budget (x_check_deadline clock ctx).
Proof.
  intros w r w'. unfold x_check_deadline, governed. destruct (check_deadline _ _ _) as [r1 t] eqn:E. intros [= <- <-] _ H.
  apply check_deadline_rows in E. intros ? ?. cbn. rewrite E. by apply H.
Qed.

Lemma exhausted_in_budget w u w' : x_check_exhausted clock ctx w = (QOk u, w') -> in_budget w'.
Proof.
  unfold x_check_exhausted, governed. destruct (check_exhausted _ _ _) as [r1 t] eqn:E. intros [= -> <-].
  by eapply check_exhausted_ok.
Qed.

Ltac same_tally :=
  apply budget_same; intros w r w' E; cbv [gets db_read db_read_ok search db_create db_create_batch db_update db_delete db_ops] in E;
  repeat case_match; by injection E as <- <-.

Lemma budget_gets {A} (f : World -> A) : relates budget (gets f).
Proof. same_tally. Qed.
Lemma budget_db_read {A} (f : bmap bytes -> eres A) : relates budget (db_read f).
Proof. same_tally. Qed.
Lemma budget_db_read_ok {A} (f : bmap bytes -> eres A) : relates budget (db_read_ok f).
Proof. same_tally. Qed.
Lemma budget_search {A} (f : nat -> bmap bytes -> qres A) : relates budget (search f).
Proof. same_tally. Qed.
Lemma budget_db_create type_name fs : relates budget (db_create db type_name fs).
Proof. same_tally. Qed.
Lemma budget_db_create_batch type_name rows : relates budget (db_create_batch db type_name rows).
Proof. same_tally. Qed.
Lemma budget_db_update type_name id fs : relates budget (db_update db type_name id fs).
Proof. same_tally. Qed.
Lemma budget_db_delete type_name id : relates budget (db_delete db type_name id).
Proof. same_tally. Qed.
Lemma budget_db_ops f : relates budget (db_ops f).
Proof. same_tally. Qed.
#[local] Hint Resolve budget_charge budget_deadline budget_gets budget_db_read budget_db_read_ok budget_search : quiet.
#[local] Hint Resolve budget_db_create budget_db_create_batch budget_db_update budget_db_delete budget_db_ops : quiet.

Section no_rules.
Hypothesis rules_off : x_rules ctx = None.

Lemma budget_load_hits type_name hits : relates budget (load_hits db type_name hits).
Proof. induction hits as [|[]]; cbn [load_hits]; walk. Qed.

Lemma budget_when_capped m : relates budget m -> relates budget (when_capped ctx m).
Proof. apply relates_when_capped, _. Qed.
#[local] Hint Resolve budget_load_hits budget_when_capped : quiet.

Lemma budget_run_similar type_name f q k restrict ef rerank :
  relates budget (run_similar db clock ctx type_name f q k restrict ef rerank).
Proof. unfold run_similar. walk. Qed.

Lemma budget_run_matches type_name f q k restrict : relates budget (run_matches db clock ctx type_name f q k restrict).
Proof. unfold run_matches. rewrite rules_off. walk. Qed.

Lemma budget_traverse current f source : relates budget (traverse db clock ctx current f source).
Proof. unfold traverse. walk. Qed.

Lemma budget_filter_scored p rows : relates budget (filter_scored p rows).
Proof. induction rows as [|[]]; cbn [filter_scored]; walk; apply relates_lift, _. Qed.

Lemma budget_scan_all_objects type_name : relates budget (scan_all_objects db clock ctx type_name).
Proof. unfold scan_all_objects. walk; apply relates_lift, _. Qed.
#[local] Hint Resolve budget_run_similar budget_run_matches budget_traverse budget_filter_scored budget_scan_all_objects : quiet.

Lemma budget_execute_step current step source : relates budget (execute_step db clock ctx current step source).
Proof.
  destruct step; cbn [execute_step]; walk;
    unfold filter_step, filter_objects, materialize_ids, update_step, delete_step, link_step, unlink_step, gate_write, cut_step,
      db_link, db_unlink; rewrite ?rules_off; walk;
    try (apply budget_when_capped; walk).
Qed.

Lemma budget_execute_source source steps : relates budget (execute_source db reader clock ctx source steps).
Proof.
  destruct source; cbn [execute_source]; unfold filter_objects; walk;
    try (apply budget_when_capped; walk); unfold gate_create; rewrite rules_off; walk.
Qed.
#[local] Hint Resolve budget_execute_step budget_execute_source : quiet.

Lemma budget_run_steps source i depth unfiltered steps result :
  relates budget (run_steps db clock ctx source i depth unfiltered steps result).
Proof.
  revert i depth unfiltered result. induction steps as [|step steps IH]; intros; cbn [run_steps]; [walk|].
  unfold under_rules. rewrite rules_off. cbn [andb]. walk.
Qed.
#[local] Hint Resolve budget_run_steps : quiet.

Lemma budget_execute q : relates budget (execute db reader clock ctx q).
Proof.
  unfold execute, first_stage, materialize, materialize_ids, final_filter, under_rules. rewrite rules_off. walk.
Qed.
End no_rules.


End props.
