(* ===== verification/ExecutorFilter.v ===== *)
(** * Filter queries end to end

    A filter query without rules and limits returns exactly what a scan of the
    type and the predicate give, whichever access path the planner chose and
    whether or not a limit was pushed into it. *)

From Stdlib Require Import ZArith Lia Bool List Strings.Byte Strings.String.
From stdpp Require Import base tactics option list sorting gmap.
From S2P Require Import Prelude ByteMap Keys Zone Utf8 Values Ieee Schema IndexKeys Posting Store Fulltext Engine EngineInv.
From S2P Require Import FilterScan FilterSpec FilterProps Serde QueryPlan QueryPlanProps QueryReads Rules Executor.

Local Open Scope Z_scope.

Section filter.
Context {SJ : SerdeJson} {C : TextCodecs} {T : TextLib} {L : EngineLib} {LL : EngineLibLaws L} {SL : SearchLib}.
Variables (db : Database) (n : list Z) (reader : bmap bytes -> Reader) (clock : nat -> Z) (ctx : ExecContext).
Variables (tn : bytes) (td : TypeDef) (tid : Z) (w : World).
Let r := reader (w_map w).
Hypothesis Hdb : db_ok db.
Hypothesis Hmap : rd_map r = w_map w.
Hypothesis Hst : store_ok db n (rd_map r).
Hypothesis Hr : reader_ok db (zone_extract db) r.
Hypothesis Htid : resolve_type_id db tn = EOk tid.
Hypothesis Htd : get_type (schema db) tn = Some td.
Hypothesis Hfields : forall f fd, scalar_fd td f fd ->
  shown db tn f = true /\ is_Some (bm_get (qualified tn f) (field_ids db)).
(** Fewer objects than a 64-bit count. *)
Hypothesis Hsize : Z.of_nat (length (type_objects db r tn tid)) <= cap None.

Hypothesis rules_off : x_rules ctx = None.
Hypothesis governor_off : x_governor ctx = governor_disabled.

Lemma ensure_all_of_obj os : ensure_all (map of_obj os) = EOk (map of_obj os).
Proof.
  induction os as [|o os IH]; [done|]. cbn [ensure_all map].
  assert (ensure_fields_deserialized (of_obj o) = EOk (of_obj o)) as -> by (by destruct o as [? ? []]).
  cbn [mbind eres_bind]. by rewrite IH.
Qed.

Lemma filter_of_obj p os :
  List.filter (fun o => evaluate_predicate p (o_fields o)) (map of_obj os) = map of_obj (List.filter (ev p) os).
Proof.
  induction os as [|o os IH]; [done|]. cbn [map List.filter]. rewrite IH. unfold ev.
  change (o_fields (of_obj o)) with (obj_fields o). by destruct (evaluate_predicate p (obj_fields o)).
Qed.

(** A comparison is of a scalar field, one of booleans an equality. *)
Definition plain_shape (p : Predicate) : Prop :=
  match p with
  | PCompare f op lit => (exists fd, scalar_fd td f fd) /\ forall b, lit = LitBool b -> op = QEq \/ op = QNe
  | _ => True
  end.

Abbreviation matching p := (List.filter (ev p) (type_objects db r tn tid)).

Lemma planned p limit : pred_ok r td tid p -> plain_shape p -> (forall k, limit = Some k -> 0 <= k) ->
  plan_filter_scan db r tn p limit = QOk None \/
  exists all objs, plan_filter_scan db r tn p limit = QOk (Some objs) /\ all ≡ₚ matching p /\
    (objs = all \/ objs = take (Z.to_nat (cap limit)) all).
Proof.
  intros Hok Hs Hl. destruct p as [f op lit|f needle|a b|a b]; [|by left| |].
  - destruct Hs as [[fd Hfd] Hb].
    exact (compare_exact db n r tn td tid Hdb Hst Hr Htid Htd Hfields Hsize f fd op lit limit Hfd Hok Hb Hl).
  - destruct (compound_exact db n r tn td tid Hdb Hst Hr Htid Htd Hfields Hsize a b limit (PAnd a b) (or_introl eq_refl) Hok) as [H|H];
      [by left|right; eexists _, _; split; [exact H|]; split; [reflexivity|by left]].
  - destruct (compound_exact db n r tn td tid Hdb Hst Hr Htid Htd Hfields Hsize a b limit (POr a b) (or_intror eq_refl) Hok) as [H|H];
      [by left|right; eexists _, _; split; [exact H|]; split; [reflexivity|by left]].
Qed.

(** The pipeline of a filter and perhaps a limit. *)
Definition filter_query (p : Predicate) (limit : option Z) : Query :=
  {| q_source := SrcFilter tn p; q_steps := match limit with Some k => [Limit k] | None => [] end |}.

Lemma pushed_limit limit :
  match x_rules ctx with
  | None => clamp_limit (x_governor ctx) <$> leading_limit (q_steps (filter_query (PContains [] []) limit))
  | Some _ => None
  end = limit.
Proof. rewrite rules_off, governor_off. by destruct limit. Qed.

Lemma source_exact p limit : pred_ok r td tid p -> plain_shape p -> (forall k, limit = Some k -> 0 <= k) ->
  validate_predicate_for_type db tn p = QOk tt ->
  exists all objs, execute_source db reader clock ctx (SrcFilter tn p) (q_steps (filter_query p limit)) w
    = (QOk (OObjects (map of_obj objs)), w) /\ all ≡ₚ matching p /\
    (objs = all \/ objs = take (Z.to_nat (cap limit)) all).
Proof.
  intros Hok Hs Hl Hv. cbn [execute_source]. pose proof (pushed_limit limit) as Hp. cbn [filter_query q_steps] in Hp |- *.
  unfold lift, gets. cbv beta iota delta [mbind X_bind]. rewrite Hv. cbn beta iota. rewrite Hp. fold r.
  destruct (planned p limit Hok Hs Hl) as [->|(all & objs & -> & Hall & Ho)].
  - exists (matching p), (matching p). split; [|split; [done|by left]].
    unfold scan_all_objects, filter_objects, db_read, lift, mret, X_ret. cbv beta iota delta [mbind X_bind].
    rewrite governor_off. cbn [g_enabled governor_disabled negb].
    rewrite <- Hmap, (scan_type_objects db n r tn td tid Hst Htid Htd). cbn [engine].
    rewrite ensure_all_of_obj. cbn [engine]. by rewrite filter_of_obj.
  - exists all, objs. split; [|done]. unfold x_charge, governed. rewrite governor_off. cbn. by destruct w.
Qed.

Lemma X_bind_run {A B} (m : X A) (f : A -> X B) w0 a w1 : m w0 = (QOk a, w1) -> (m ≫= f) w0 = f a w1.
Proof. intros E. unfold mbind, X_bind. by rewrite E. Qed.

(** Objects pass the last stages as they are. *)
Lemma finish os w0 :
  (result ← materialize db clock ctx (OObjects os);
   result ← final_filter db clock ctx result;
   _ ← lift (match result_rows result with Some n => check_result_rows (x_governor ctx) n | None => QOk tt end);
   mret result) w0 = (QOk (OObjects os), w0).
Proof. unfold final_filter, under_rules. rewrite rules_off, governor_off. by destruct w0. Qed.

Lemma run_limit p k os w0 :
  run_steps db clock ctx (SrcFilter tn p) 0 0 true [Limit k] (OObjects os) w0
  = (QOk (OObjects (take (Z.to_nat k) os)), w0).
Proof.
  cbn [run_steps execute_step]. unfold under_rules, x_check_deadline, governed. rewrite rules_off, governor_off. by destruct w0.
Qed.

End filter.
