(* ===== verification/ExecutorDemo.v ===== *)
(** * Queries on small databases

    Runs of the executor: the theorems about it at concrete queries, and a
    traversal whose result carries the copy of an object the principal may not
    read. *)

From Stdlib Require Import ZArith Lia Bool List Strings.Byte Strings.String.
From stdpp Require Import base tactics option list gmap relations.
From S2P Require Import Prelude ByteMap Keys Mvcc Zone Store Utf8 Values Ieee Schema SchemaParser Serde IndexKeys Posting Fulltext Engine EngineEdges.
From S2P Require Import EngineOps EngineInv EngineSystem EngineDemo EngineProps FilterScan FilterSpec FilterProps Rules RulesParser QueryPlan.
From S2P Require Import QueryPlanProps QueryReads Executor ExecutorProps ExecutorFilter.

Local Open Scope Z_scope.
Local Open Scope bytes_scope.

(** * The planner on small databases

    A run of the planner on a store the engine built, and filters whose answer
    depends on the access path. *)

(** No text is a time; base64 is the identity. *)
Definition no_codecs : TextCodecs := {|
  parse_rfc3339 _ := None; format_rfc3339 _ := None; b64_encode b := b; b64_decode b := Some b;
|}.
#[export] Existing Instance no_codecs.

Definition user_td : TypeDef :=
  Eval vm_compute in match get_type demo_schema (bs "User") with Some td => td | None => {| td_name := []; fields := [] |} end.

Lemma user_fields f fd : scalar_fd user_td f fd ->
  shown demo_db (bs "User") f = true /\ is_Some (bm_get (qualified (bs "User") f) (field_ids demo_db)).
Proof.
  intros [[Hn Hin]%get_field_name [st Hst]]. cbv [user_td fields] in Hin.
  by_cases; subst fd; try done; rewrite <- Hn; (split; [by vm_compute|eexists; by vm_compute]).
Qed.

Definition user_reader : Reader := map_reader (view [] filter_sys 1).

(** [.age > 30 AND .age < 35]. *)
Definition middle_aged : Predicate :=
  PAnd (PCompare (bs "age") QGt (LitInt 30)) (PCompare (bs "age") QLt (LitInt 35)).

Lemma planner_exact_witness :
  exists objs, plan_filter_scan demo_db user_reader (bs "User") middle_aged None = QOk (Some objs) /\
    map obj_id objs = [3] /\
    objs = List.filter (ev middle_aged) (type_objects demo_db user_reader (bs "User") 1).
Proof.
  destruct (planner_exact demo_db (used_ids filter_sys) user_reader (bs "User") user_td 1 demo_db_ok filter_sys_ok
    (map_reader_ok _ _ _) ltac:(by vm_compute) ltac:(by vm_compute) user_fields ltac:(by vm_compute) middle_aged None)
    as [_ [H|H]].
  - split; cbn; unfold is_i64; lia.
  - done.
  - exfalso. assert (match plan_filter_scan demo_db user_reader (bs "User") middle_aged None with QOk None => true | _ => false end = false)
      as E by (by vm_compute). by rewrite H in E.
  - eexists. split; [exact H|]. split; [by vm_compute|done].
Defined.

(** ** Answers that depend on the access path *)

Definition gauge_sdl : bytes := bs "type Gauge { hot: Bool @indexed  level: f64 @indexed  name: String }".

Definition gauge_schema : Schema :=
  Eval vm_compute in match parse_schema (C := ascii_only) gauge_sdl with SOk s => s | _ => {| types := [] |} end.

Definition gauge_db : Database := Eval vm_compute in
  open_db gauge_schema [(bs "Gauge", 1)] [] [(bs "Gauge.hot", 21); (bs "Gauge.level", 22); (bs "Gauge.name", 23)].

(** The bits of [-0.0], [5.0] and a NaN. *)
Definition minus_zero : Z := 0x8000000000000000.
Definition five : Z := 0x4014000000000000.
Definition a_nan : Z := 0x7ff8000000000000.

Definition gauge (hot : bool) (level : Z) : FieldMap := [(bs "hot", VBool hot); (bs "level", VF64 level); (bs "name", VString (bs "g"))].

Definition gauge_view : bmap bytes := Eval vm_compute in
  view [] (default (einit [] 0 tt) (erun no_store [] gauge_db (einit [] 0 tt)
    [EBegin; EStage 0 (RCreate ∅ (bs "Gauge") [(1, gauge false minus_zero); (2, gauge true five); (3, gauge true a_nan)]); ECommit 0])) 1.

(** The ids a plan returns, and those of the objects that satisfy the predicate. *)
Definition planned (p : Predicate) : option (list Z) :=
  match plan_filter_scan gauge_db (map_reader gauge_view) (bs "Gauge") p None with
  | QOk (Some objs) => Some (map obj_id objs) | _ => None
  end.

Definition scanned (p : Predicate) : option (list Z) :=
  match scan_type gauge_db gauge_view (bs "Gauge") with
  | EOk objs => Some (map obj_id (List.filter (ev p) objs)) | _ => None
  end.

Definition cold : Predicate := PCompare (bs "hot") QLt (LitBool true).
Definition named : Predicate := PCompare (bs "name") QEq (LitString (bs "g")).

(** An order comparison of booleans holds of nothing, but alone it is served as
    an order; the same comparison in a conjunction is not. *)
Example bool_order_by_path :
  planned cold = Some [1] /\ scanned cold = Some [] /\ planned (PAnd cold named) = Some [].
Proof. by vm_compute. Qed.

(** A float range in a conjunction misses a stored zero of the other sign. *)
Example float_zero_missed :
  let p := PAnd (PCompare (bs "level") QGe (LitFloat 0)) named in
  planned p = Some [2] /\ scanned p = Some [1; 2].
Proof. by vm_compute. Qed.

(** A single float comparison is answered by the keys of the index: equality
    misses the other zero, and a range returns NaN. *)
Example float_single_by_key :
  planned (PCompare (bs "level") QEq (LitFloat 0)) = Some [] /\
  scanned (PCompare (bs "level") QEq (LitFloat 0)) = Some [1] /\
  planned (PCompare (bs "level") QGt (LitFloat 0)) = Some [2; 3] /\
  scanned (PCompare (bs "level") QGt (LitFloat 0)) = Some [2].
Proof. by vm_compute. Qed.

(** * Queries on small databases *)

(** No vectorizer; no full-text field. *)
Definition no_search : SearchLib := {|
  vectorizer := None;
  candidates := unit;
  fulltext_candidates _ _ type_name field _ _ _ _ := EErr (FulltextNotEnabled type_name field);
  postings_scanned _ := 0;
  scoring_work _ := 0;
  candidate_ids _ := [];
  score_candidates _ _ _ _ _ := EOk [];
  score_visible _ _ _ _ _ := EOk [];
|}.
#[export] Existing Instance no_search.

Definition news_sdl : bytes := bs "
type Author { name: String  posts: [Post] @inverse(Post.author) }
type Post { title: String  author: Author  category: Category }
type Category { label: String  keeper: Keeper }
type Keeper { ssn: String }".

Definition news_schema : Schema :=
  Eval vm_compute in match parse_schema (C := ascii_only) news_sdl with SOk s => s | _ => {| types := [] |} end.

Definition news_db : Database := Eval vm_compute in
  open_db news_schema [(bs "Author", 1); (bs "Category", 2); (bs "Keeper", 3); (bs "Post", 4)]
    [(bs "Author.posts", 11); (bs "Category.keeper", 12); (bs "Post.author", 13); (bs "Post.category", 14)]
    [(bs "Author.name", 21); (bs "Category.label", 22); (bs "Keeper.ssn", 23); (bs "Post.title", 24)].

Definition empty_world : World :=
  {| w_map := []; w_vc := ∅; w_next := 1; w_tally := {| rows_examined := 0; clock_reads := 0 |} |}.

(** Embedded use: no rules, no limits. *)
Definition open_ctx : ExecContext := {|
  x_governor := governor_disabled; x_principal := anonymous; x_rules := None; x_default_ef := None; x_default_rerank := None |}.

Definition ruled_ctx (rules : RulesProgram) (p : Principal) : ExecContext := {|
  x_governor := governor_new DEFAULT_LIMITS 0; x_principal := p; x_rules := Some rules; x_default_ef := None;
  x_default_rerank := None |}.

Definition run (db : Database) (ctx : ExecContext) (q : Query) : X QueryOutput := execute db map_reader (fun _ => 0) ctx q.

Definition create_q (type_name field text : bytes) : Query := {| q_source := SrcCreate type_name [(field, LitString text)]; q_steps := [] |}.
Definition link_q (type_name : bytes) (id : Z) (target : bytes) (target_id : Z) : Query :=
  {| q_source := SrcGet type_name id; q_steps := [StepLink target target_id []] |}.

(** An author (1) with a post (4) in a category (3) with a keeper (2). *)
Definition news_world : World := Eval vm_compute in
  snd (each (run news_db open_ctx)
    [create_q (bs "Author") (bs "name") (bs "ann"); create_q (bs "Keeper") (bs "ssn") (bs "123");
     create_q (bs "Category") (bs "label") (bs "art"); link_q (bs "Category") 3 (bs "Keeper") 2;
     create_q (bs "Post") (bs "title") (bs "x"); link_q (bs "Post") 4 (bs "Category") 3; link_q (bs "Post") 4 (bs "Author") 1]
    empty_world).

(** [Author.get(1).posts.category]. *)
Definition via_posts : Query := {| q_source := SrcGet (bs "Author") 1; q_steps := [Traverse (bs "posts"); Traverse (bs "category")] |}.

Definition news_rules_text : bytes := bs
"match Author { allow read: if true; }
match Post { allow read: if true; }
match Category { allow read: if true; allow update: if resource.label == " ++ [x22] ++ bs "art" ++ [x22] ++ bs "; }".

Definition news_rules : RulesProgram := Eval vm_compute in
  match compile news_schema news_rules_text with ROk p => p | _ => {| rp_types := [] |} end.

Definition reader_ctx : ExecContext := ruled_ctx news_rules anonymous.

(** What a result shows of its objects. *)
Definition shown_fields (r : qres QueryOutput * World) : option (list (bytes * Z * FieldMap)) :=
  match fst r with
  | QOk out => Some (map (fun o => (o_type o, o_id o, o_fields o)) (shows out))
  | _ => None
  end.

(** The keeper may not be read. *)
Example keeper_hidden :
  shown_fields (run news_db reader_ctx {| q_source := SrcGet (bs "Keeper") 2; q_steps := [] |} news_world) = Some [] /\
  shown_fields (run news_db reader_ctx {| q_source := SrcGet (bs "Category") 3; q_steps := [Traverse (bs "keeper")] |} news_world)
    = Some [].
Proof. by vm_compute. Qed.

(** A category reached through the posts carries the fields the store keeps beside
    its link, and among them a copy of all the fields of its keeper. *)
Example cover_leaks_hidden_object :
  shown_fields (run news_db reader_ctx {| q_source := SrcGet (bs "Category") 3; q_steps := [] |} news_world)
    = Some [(bs "Category", 3, [(bs "label", VString (bs "art"))])] /\
  shown_fields (run news_db reader_ctx via_posts news_world)
    = Some [(bs "Category", 3,
        [(bs "keeper", VU64 2); (bs "keeper__cover", VBytes (ser [(bs "ssn", VString (bs "123"))]));
         (bs "keeper__cover_v", VU64 1); (bs "label", VString (bs "art"))])].
Proof. by vm_compute. Qed.

(** ** The theorems at these queries *)

Definition succeeds (r : qres QueryOutput * World) : bool := match fst r with QOk _ => true | _ => false end.
Definition output (r : qres QueryOutput * World) : QueryOutput := match fst r with QOk out => out | _ => ODone end.

Lemma ran r : succeeds r = true -> r = (QOk (output r), snd r).
Proof. destruct r as [[]]; done. Qed.

Lemma results_readable_witness :
  map o_id (shows (output (run news_db reader_ctx via_posts news_world))) = [3] /\
  Forall (may_read news_db reader_ctx news_rules (w_map (snd (run news_db reader_ctx via_posts news_world))))
    (shows (output (run news_db reader_ctx via_posts news_world))).
Proof.
  split; [by vm_compute|].
  apply (results_readable news_db map_reader (fun _ => 0) reader_ctx news_rules via_posts news_world _ _ eq_refl).
  apply ran. by vm_compute.
Defined.

(** [Category.get(3).update(label: 'new')], which its own rule then refuses to repeat. *)
Definition relabel : Query :=
  {| q_source := SrcGet (bs "Category") 3; q_steps := [StepUpdate [(bs "label", LitString (bs "new"))]] |}.

Definition relabelled : World := snd (run news_db reader_ctx relabel news_world).

Lemma changes_authorized_witness :
  shown_fields (run news_db reader_ctx relabel news_world) = Some [(bs "Category", 3, [(bs "label", VString (bs "new"))])] /\
  fst (run news_db reader_ctx relabel relabelled) = QErr QPermissionDenied /\
  rtc (change news_db reader_ctx news_rules) (w_map news_world) (w_map relabelled).
Proof.
  split; [by vm_compute|]. split; [by vm_compute|].
  apply (changes_authorized news_db map_reader (fun _ => 0) reader_ctx news_rules eq_refl relabel news_world
    (fst (run news_db reader_ctx relabel news_world))).
  apply surjective_pairing.
Defined.


(** The users of the filter examples. *)
Definition users_world : World :=
  {| w_map := view [] filter_sys 1; w_vc := ∅; w_next := 100; w_tally := {| rows_examined := 0; clock_reads := 0 |} |}.

