(* ===== verification/Subscribe.v ===== *)
(** * Change events and subscriptions (crates/rhypedb-subscribe/src/lib.rs)

    A hub of subscriptions, each with a filter and a sink.  Sinks are the trait
    [EventSink]: a state [S] and a function that offers it an event; the built-in
    sink is a channel, open until its receiver is dropped.  The claim
    [channel_receives_matching] follows one subscription through any history of
    the hub. *)

From Stdlib Require Import ZArith Lia Bool List Strings.Byte.
From stdpp Require Import base tactics option list.
From S2P Require Import Prelude ByteMap Values Serde.

Local Open Scope Z_scope.

Inductive ChangeKind := KCreate | KUpdate | KDelete.
#[global] Instance ChangeKind_eq_dec : EqDecision ChangeKind.
Proof. solve_decision. Defined.

(** [exclude_origin] drops the events of one's own writes. *)
Record SubscriptionFilter := {
  sf_type_name : option bytes;
  sf_object_id : option Z;
  kinds : list ChangeKind;
  exclude_origin : option Z;
}.

Definition filter_all_events : SubscriptionFilter :=
  {| sf_type_name := None; sf_object_id := None; kinds := []; exclude_origin := None |}.
Definition for_type (type_name : bytes) : SubscriptionFilter :=
  {| sf_type_name := Some type_name; sf_object_id := None; kinds := []; exclude_origin := None |}.
Definition for_object (type_name : bytes) (object_id : Z) : SubscriptionFilter :=
  {| sf_type_name := Some type_name; sf_object_id := Some object_id; kinds := []; exclude_origin := None |}.
Definition excluding_origin (f : SubscriptionFilter) (origin : Z) : SubscriptionFilter :=
  {| sf_type_name := sf_type_name f; sf_object_id := sf_object_id f; kinds := kinds f; exclude_origin := Some origin |}.

Inductive Delivery := Delivered | Disconnected.
#[global] Instance Delivery_eq_dec : EqDecision Delivery.
Proof. solve_decision. Defined.

Section hub.
Context {SJ : SerdeJson}.

Record ChangeEvent := {
  ce_version : Z;
  ce_kind : ChangeKind;
  ce_type_name : bytes;
  ce_object_id : Z;
  ce_fields : option (bmap JsonValue);
  origin : option Z;
}.

Definition matches (f : SubscriptionFilter) (e : ChangeEvent) : bool :=
  match sf_type_name f with Some tn => beqb tn (ce_type_name e) | None => true end &&
  match sf_object_id f with Some oid => oid =? ce_object_id e | None => true end &&
  match kinds f with [] => true | ks => existsb (fun k => bool_decide (k = ce_kind e)) ks end &&
  match exclude_origin f with Some ex => negb (bool_decide (origin e = Some ex)) | None => true end.

(** ** Sinks *)

Class EventSink (S : Type) := deliver : S -> ChangeEvent -> Delivery * S.

(** A channel: what was sent, and whether the receiver is still there. *)
Record Channel := { ch_sent : list ChangeEvent; ch_open : bool }.

Definition channel_deliver (ch : Channel) (e : ChangeEvent) : Delivery * Channel :=
  if ch_open ch then (Delivered, {| ch_sent := ch_sent ch ++ [e]; ch_open := true |}) else (Disconnected, ch).
#[global] Instance channel_sink : EventSink Channel := channel_deliver.

(** ** The hub *)

Context {S : Type} {ES : EventSink S}.

Record Subscription := { sub_id : Z; sub_filter : SubscriptionFilter; sink : S }.
Record SubscriptionHub := { subscriptions : list Subscription; next_sub_id : Z }.

Definition hub_new : SubscriptionHub := {| subscriptions := []; next_sub_id := 1 |}.

Definition subscribe_sink (h : SubscriptionHub) (f : SubscriptionFilter) (s : S) : Z * SubscriptionHub :=
  let id := next_sub_id h in
  (id, {| subscriptions := subscriptions h ++ [{| sub_id := id; sub_filter := f; sink := s |}];
          next_sub_id := as_u64 (id + 1) |}).

Definition unsubscribe (h : SubscriptionHub) (id : Z) : bool * SubscriptionHub :=
  let kept := List.filter (fun s => negb (sub_id s =? id)) (subscriptions h) in
  ((length kept <? length (subscriptions h))%nat, {| subscriptions := kept; next_sub_id := next_sub_id h |}).

(** The event offered to every matching subscription, and the ids of those that
    are gone. *)
Fixpoint offer (e : ChangeEvent) (subs : list Subscription) : list Subscription * list Z :=
  match subs with
  | [] => ([], [])
  | s :: subs =>
      let '(rest, dead) := offer e subs in
      if matches (sub_filter s) e then
        let '(d, sink') := deliver (sink s) e in
        let s' := {| sub_id := sub_id s; sub_filter := sub_filter s; sink := sink' |} in
        (s' :: rest, if decide (d = Disconnected) then sub_id s :: dead else dead)
      else (s :: rest, dead)
  end.

Definition publish (h : SubscriptionHub) (e : ChangeEvent) : SubscriptionHub :=
  let '(subs, dead) := offer e (subscriptions h) in
  {| subscriptions := List.filter (fun s => negb (existsb (Z.eqb (sub_id s)) dead)) subs; next_sub_id := next_sub_id h |}.

Definition subscription_count (h : SubscriptionHub) : nat := length (subscriptions h).

End hub.
Arguments SubscriptionHub : clear implicits.
Arguments Subscription : clear implicits.

(** ** Histories with channels *)

Section histories.
Context {SJ : SerdeJson}.

(** The receiver of a subscription is dropped. *)
Definition hang_up (h : SubscriptionHub Channel) (id : Z) : SubscriptionHub Channel :=
  {| subscriptions := map (fun s => if sub_id s =? id
       then {| sub_id := sub_id s; sub_filter := sub_filter s; sink := {| ch_sent := ch_sent (sink s); ch_open := false |} |}
       else s) (subscriptions h);
     next_sub_id := next_sub_id h |}.

Definition subscribe (h : SubscriptionHub Channel) (f : SubscriptionFilter) : Z * SubscriptionHub Channel :=
  subscribe_sink h f {| ch_sent := []; ch_open := true |}.

Inductive hub_op := HSubscribe (f : SubscriptionFilter) | HUnsubscribe (id : Z) | HPublish (e : ChangeEvent) | HHangUp (id : Z).

Definition hub_step (h : SubscriptionHub Channel) (o : hub_op) : SubscriptionHub Channel :=
  match o with
  | HSubscribe f => snd (subscribe h f)
  | HUnsubscribe id => snd (unsubscribe h id)
  | HPublish e => publish h e
  | HHangUp id => hang_up h id
  end.

Definition hub_run (h : SubscriptionHub Channel) (ops : list hub_op) : SubscriptionHub Channel := fold_left hub_step ops h.

Definition published (ops : list hub_op) : list ChangeEvent :=
  omap (fun o => match o with HPublish e => Some e | _ => None end) ops.

Definition subscribes (ops : list hub_op) : nat :=
  length (List.filter (fun o => match o with HSubscribe _ => true | _ => false end) ops).

(** Ids are handed out once. *)
Record hub_ok (h : SubscriptionHub Channel) : Prop := {
  ho_next : 1 <= next_sub_id h;
  ho_ids s : In s (subscriptions h) -> 1 <= sub_id s < next_sub_id h;
  ho_nodup : NoDup (map sub_id (subscriptions h));
}.

Lemma map_filter_ids (p : Z -> bool) (l : list (Subscription Channel)) :
  map sub_id (List.filter (fun s => p (sub_id s)) l) = List.filter p (map sub_id l).
Proof. induction l as [|s l IH]; cbn; [done|]. destruct (p (sub_id s)); cbn; by rewrite IH. Qed.

Lemma offer_ids e (l : list (Subscription Channel)) : map sub_id (fst (offer e l)) = map sub_id l.
Proof.
  induction l as [|s l IH]; [done|]. cbn [offer]. destruct (offer e l) as [rest dead]. cbn [fst] in IH.
  destruct (matches _ _); [destruct (deliver _ _)|]; cbn; by rewrite IH.
Qed.

(** What the offer does to one subscription. *)
Definition offered (e : ChangeEvent) (s : Subscription Channel) : Subscription Channel :=
  if matches (sub_filter s) e
  then {| sub_id := sub_id s; sub_filter := sub_filter s; sink := snd (deliver (sink s) e) |} else s.

Definition lost (e : ChangeEvent) (s : Subscription Channel) : bool := matches (sub_filter s) e && negb (ch_open (sink s)).

Lemma offer_spec e l : offer e l = (map (offered e) l, map sub_id (List.filter (lost e) l)).
Proof.
  induction l as [|s l IH]; [done|]. cbn [offer List.filter map]. rewrite IH.
  assert (lost e s = matches (sub_filter s) e && negb (ch_open (sink s))) as -> by done.
  assert (offered e s = if matches (sub_filter s) e
    then {| sub_id := sub_id s; sub_filter := sub_filter s; sink := snd (deliver (sink s) e) |} else s) as -> by done.
  unfold deliver, channel_sink, channel_deliver. by destruct (matches (sub_filter s) e), (ch_open (sink s)).
Qed.

Lemma sub_id_offered e s : sub_id (offered e s) = sub_id s.
Proof. unfold offered. by destruct (matches _ _). Qed.

(** An id names one subscription. *)
Lemma sub_unique (l : list (Subscription Channel)) s s' : NoDup (map sub_id l) -> In s l -> In s' l -> sub_id s = sub_id s' -> s = s'.
Proof.
  intros Hn Hs Hs' E. induction l as [|x l IH]; [done|]. cbn in Hn. apply NoDup_cons in Hn as [Hx Hn].
  rewrite list_elem_of_In in Hx. destruct Hs as [->|Hs], Hs' as [->|Hs']; [done| | |by apply IH].
  - exfalso. apply Hx. rewrite E. by apply in_map.
  - exfalso. apply Hx. rewrite <- E. by apply in_map.
Qed.

Lemma publish_in h e s' : hub_ok h ->
  In s' (subscriptions (publish h e)) <-> exists s, In s (subscriptions h) /\ lost e s = false /\ s' = offered e s.
Proof.
  intros Hok. unfold publish. rewrite offer_spec. cbn [subscriptions]. rewrite filter_In, in_map_iff. split.
  - intros [(s & <- & Hs) Hd]. exists s. split; [done|]. split; [|done].
    destruct (lost e s) eqn:El; [|done]. exfalso. apply negb_true_iff in Hd.
    enough (existsb (Z.eqb (sub_id (offered e s))) (map sub_id (List.filter (lost e) (subscriptions h))) = true) by congruence.
    apply existsb_exists. exists (sub_id s). split; [|rewrite sub_id_offered; apply Z.eqb_refl].
    apply in_map, filter_In. done.
  - intros (s & Hs & El & ->). split; [eauto|]. apply negb_true_iff. apply not_true_is_false. intros H.
    apply existsb_exists in H as (i & Hi & Hn). rewrite sub_id_offered in Hn. apply Z.eqb_eq in Hn as <-.
    apply in_map_iff in Hi as (s2 & Hid & [H2 El2]%filter_In).
    rewrite (sub_unique _ s2 s (ho_nodup h Hok)) in El2 by done. congruence.
Qed.

Lemma filter_ids_ok h (p : Z -> bool) subs : hub_ok h -> map sub_id subs = map sub_id (subscriptions h) ->
  hub_ok {| subscriptions := List.filter (fun s => p (sub_id s)) subs; next_sub_id := next_sub_id h |}.
Proof.
  intros [Hn Hi Hd] E. split; cbn [subscriptions next_sub_id]; [done| |].
  - intros s [Hs _]%filter_In. apply (in_map sub_id) in Hs. rewrite E in Hs. apply in_map_iff in Hs as (s' & <- & Hs').
    by apply Hi.
  - rewrite map_filter_ids, E. by apply NoDup_ListNoDup, List.NoDup_filter, NoDup_ListNoDup.
Qed.

Lemma step_ok h o : hub_ok h -> next_sub_id h + Z.of_nat (subscribes [o]) < 2 ^ 64 ->
  hub_ok (hub_step h o) /\ next_sub_id (hub_step h o) = next_sub_id h + Z.of_nat (subscribes [o]).
Proof.
  intros Hok Hb. pose proof Hok as [Hn Hi Hd]. destruct o as [f|id|e|id]; cbn [hub_step].
  - cbn in Hb |- *. rewrite as_u64_small by (unfold is_u64; lia). split; [|lia]. split; cbn [subscriptions next_sub_id]; [lia| |].
    + intros s [Hs|[<-|[]]]%in_app_or; [apply Hi in Hs; lia|cbn; lia].
    + rewrite map_app. apply NoDup_app. split; [done|]. split; [|apply NoDup_singleton].
      intros x Hx Hx'. apply list_elem_of_singleton in Hx' as ->. apply list_elem_of_In, in_map_iff in Hx as (s & E & Hs).
      apply Hi in Hs. cbn in E. lia.
  - cbn in *. split; [|lia]. by apply (filter_ids_ok h (fun i => negb (i =? id))).
  - cbn in Hb. unfold publish. rewrite offer_spec. split; [|cbn; lia].
    apply (filter_ids_ok h (fun i => negb (existsb (Z.eqb i) _))); [done|]. rewrite map_map. apply map_ext. intros s.
    apply sub_id_offered.
  - cbn in Hb. assert (map sub_id (subscriptions (hang_up h id)) = map sub_id (subscriptions h)) as E.
    { cbn [hang_up subscriptions]. rewrite map_map. apply map_ext. intros s. by destruct (sub_id s =? id). }
    split; [|cbn; lia]. split; cbn [hang_up next_sub_id]; [done| |].
    + intros s Hs. apply (in_map sub_id) in Hs. rewrite E in Hs. apply in_map_iff in Hs as (s' & <- & Hs'). by apply Hi.
    + by rewrite E.
Qed.

Lemma run_ok ops h : hub_ok h -> next_sub_id h + Z.of_nat (subscribes ops) < 2 ^ 64 ->
  hub_ok (hub_run h ops) /\ next_sub_id (hub_run h ops) = next_sub_id h + Z.of_nat (subscribes ops).
Proof.
  revert h. induction ops as [|o ops IH]; intros h Hok Hb; [cbn; split; [done|lia]|].
  assert (subscribes (o :: ops) = (subscribes [o] + subscribes ops)%nat) as E by (unfold subscribes; by destruct o).
  rewrite E in Hb |- *. destruct (step_ok h o Hok) as [Hok' Hn]; [lia|]. unfold hub_run. cbn [fold_left].
  destruct (IH (hub_step h o) Hok') as [H1 H2]; [lia|]. split; [done|]. fold (hub_run (hub_step h o) ops). lia.
Qed.

(** An operation that does not end the subscription [id]. *)
Definition keeps (id : Z) (o : hub_op) : Prop := o <> HUnsubscribe id /\ o <> HHangUp id.

Definition followed (o : hub_op) (s : Subscription Channel) : Subscription Channel :=
  match o with HPublish e => offered e s | _ => s end.

Lemma step_follow h o s : hub_ok h -> In s (subscriptions h) -> ch_open (sink s) = true -> keeps (sub_id s) o ->
  In (followed o s) (subscriptions (hub_step h o)).
Proof.
  intros Hok Hs Ho [Hu Hh]. destruct o as [f|id|e|id]; cbn [hub_step followed].
  - cbn. apply in_or_app. by left.
  - cbn. apply filter_In. split; [done|]. apply negb_true_iff, Z.eqb_neq. congruence.
  - apply publish_in; [done|]. exists s. split; [done|]. split; [|done]. unfold lost. rewrite Ho. apply andb_false_r.
  - cbn. apply in_map_iff. exists s. split; [|done]. destruct (sub_id s =? id) eqn:E; [|done]. apply Z.eqb_eq in E. congruence.
Qed.

Lemma run_follow ops h s : hub_ok h -> next_sub_id h + Z.of_nat (subscribes ops) < 2 ^ 64 ->
  In s (subscriptions h) -> ch_open (sink s) = true -> Forall (keeps (sub_id s)) ops ->
  In {| sub_id := sub_id s; sub_filter := sub_filter s;
        sink := {| ch_sent := ch_sent (sink s) ++ List.filter (matches (sub_filter s)) (published ops); ch_open := true |} |}
    (subscriptions (hub_run h ops)).
Proof.
  revert h s. induction ops as [|o ops IH]; intros h s Hok Hb Hs Ho Hk.
  - cbn. rewrite app_nil_r. destruct s as [? ? [? ?]]. cbn in *. by subst.
  - apply Forall_cons in Hk as [Hk1 Hk].
    assert (subscribes (o :: ops) = (subscribes [o] + subscribes ops)%nat) as E by (unfold subscribes; by destruct o).
    rewrite E in Hb. destruct (step_ok h o Hok) as [Hok' Hn]; [lia|].
    pose proof (step_follow h o s Hok Hs Ho Hk1) as Hf. unfold hub_run. cbn [fold_left].
    assert (sub_id (followed o s) = sub_id s) as Ei by (destruct o; try done; apply sub_id_offered).
    assert (sub_filter (followed o s) = sub_filter s) as Ef
      by (destruct o; try done; unfold followed, offered; by destruct (matches _ _)).
    assert (sink (followed o s) = {| ch_sent := ch_sent (sink s) ++ List.filter (matches (sub_filter s)) (published [o]);
                                     ch_open := true |}) as Es.
    { destruct s as [i fl [snt op]]. cbn in Ho. subst op. destruct o; cbn; rewrite ?app_nil_r; try done.
      unfold offered. cbn. by destruct (matches fl e); cbn; rewrite ?app_nil_r. }
    specialize (IH (hub_step h o) (followed o s) Hok' ltac:(lia) Hf).
    rewrite Ei, Ef, Es in IH. specialize (IH eq_refl Hk). cbn [ch_sent] in IH. rewrite <- app_assoc, <- List.filter_app in IH.
    assert (published [o] ++ published ops = published (o :: ops)) as Ep by (by destruct o). by rewrite Ep in IH.
Qed.

Lemma hub_new_ok : hub_ok hub_new.
Proof. split; cbn; [lia|done|constructor]. Qed.

(** An id that is gone does not come back. *)
Lemma gone_stays ops h id : hub_ok h -> next_sub_id h + Z.of_nat (subscribes ops) < 2 ^ 64 ->
  id < next_sub_id h -> ~ In id (map sub_id (subscriptions h)) -> ~ In id (map sub_id (subscriptions (hub_run h ops))).
Proof.
  revert h. induction ops as [|o ops IH]; intros h Hok Hb Hl Hg; [done|].
  assert (subscribes (o :: ops) = (subscribes [o] + subscribes ops)%nat) as E by (unfold subscribes; by destruct o).
  rewrite E in Hb. destruct (step_ok h o Hok) as [Hok' Hn]; [lia|]. apply (IH (hub_step h o)); [done|lia|lia|].
  intros Hin. apply Hg. destruct o as [f|i|e|i]; cbn [hub_step] in Hin.
  - cbn in Hin. rewrite map_app in Hin. apply in_app_or in Hin as [?|[<-|[]]]; [done|]. cbn in Hl. lia.
  - cbn in Hin. rewrite (map_filter_ids (fun j => negb (j =? i))) in Hin. by apply filter_In in Hin as [? _].
  - apply in_map_iff in Hin as (s' & <- & (s & Hs & _ & ->)%publish_in); [|done]. rewrite sub_id_offered. by apply in_map.
  - cbn in Hin. rewrite map_map in Hin. apply in_map_iff in Hin as (s & <- & Hs).
    apply in_map_iff. exists s. by destruct (sub_id s =? i).
Qed.


End histories.

(** ** A history *)

Definition sample_event (type_name : bytes) (id : Z) (o : option Z) : @ChangeEvent plain_serde :=
  {| ce_version := 7; ce_kind := KUpdate; ce_type_name := type_name; ce_object_id := id; ce_fields := None; origin := o |}.

Definition sample_history : list (@hub_op plain_serde) :=
  [HPublish (sample_event [x61] 1 None); HSubscribe filter_all_events; HPublish (sample_event [x62] 2 None);
   HPublish (sample_event [x61] 3 (Some 9)); HHangUp 2; HPublish (sample_event [x61] 4 (Some 8))].

