(* ===== verification/Protocol.v ===== *)
(** * The wire protocol (crates/rhypedb-wire/src/protocol.rs)

    Frames, the reader that reassembles them from whatever the connection
    delivers, and the payloads of requests and responses.  A reader of a payload
    holds the rest of its bytes in place of a position; floats are their bits. *)

From Stdlib Require Import ZArith Lia Bool List Strings.Byte Strings.String.
From stdpp Require Import base tactics option list.
From S2P Require Import Prelude ByteMap Utf8 Values Ieee Serde Store Engine QueryReads Subscribe.

Local Open Scope Z_scope.
Local Open Scope bytes_scope.

Definition MAX_FRAME_PAYLOAD : Z := 16 * 1024 * 1024.

Record Frame := { req_id : Z; kind : byte; payload : bytes }.

(** ** Frames *)

(** The bytes of [write_frame], [write_frame_buffered] and their blocking form. *)
Definition write_frame (f : Frame) : bytes :=
  be32 (as_u32 (5 + len (payload f))) ++ be32 (req_id f) ++ [kind f] ++ payload f.

(** The header is reserved, the payload built behind it, and the header filled in. *)
Definition write_frame_buffered (req_id : Z) (kind : byte) (payload_builder : bytes -> bytes) : bytes :=
  let buf := payload_builder (repeat x00 9) in
  let total_len := as_u32 (5 + (len buf - 9)) in
  be32 total_len ++ be32 req_id ++ [kind] ++ drop 9 buf.

(** The length of a frame, or its rejection. *)
Definition frame_len (n : Z) : res Z :=
  if n <? 5 then Err Io else if MAX_FRAME_PAYLOAD + 5 <? n then Err Io else Ok n.

(** The body of a frame. *)
Definition frame_of (body : bytes) : res Frame :=
  '(id, rest) ← de_read body 4;
  '(k, rest) ← de_read rest 1;
  match k with [k] => Ok {| req_id := from_be id; kind := k; payload := rest |} | _ => Panic end.

(** A blocking read of a frame from the bytes of a connection that then closes. *)
Definition read_frame (stream : bytes) : res (Frame * bytes) :=
  '(len_buf, rest) ← try_read stream 4;
  n ← frame_len (from_be len_buf);
  '(body, rest) ← try_read rest (Z.to_nat n);
  f ← frame_of body;
  Ok (f, rest).

(** ** The reader that keeps its bytes *)

Record FrameReader := { buf : bytes; start : nat }.

Definition frame_reader_new : FrameReader := {| buf := []; start := O |}.

Definition try_parse (r : FrameReader) : res (option Frame) * FrameReader :=
  let rest := drop (start r) (buf r) in
  if (length rest <? 4)%nat then (Ok None, r)
  else
    match frame_len (from_be (take 4 rest)) with
    | Ok n =>
        if (length rest <? 4 + Z.to_nat n)%nat then (Ok None, r)
        else
          match frame_of (take (Z.to_nat n) (drop 4 rest)) with
          | Ok f =>
              let start' := (start r + (4 + Z.to_nat n))%nat in
              (Ok (Some f), if (start' =? length (buf r))%nat then {| buf := []; start := O |} else {| buf := buf r; start := start' |})
          | Err e => (Err e, r)
          | Panic => (Panic, r)
          end
    | Err e => (Err e, r)
    | Panic => (Panic, r)
    end.

Definition compact (r : FrameReader) : FrameReader :=
  if (0 <? start r)%nat then {| buf := drop (start r) (buf r); start := O |} else r.

(** What a poll returns. *)
Inductive poll := Ready (r : res Frame) | Pending.

(** The next frame.  [reads] are the bytes the connection delivers, read by read;
    no bytes is its end, and when no read is ready the call is pending and may
    be dropped. *)
Fixpoint next_frame (r : FrameReader) (reads : list bytes) : poll * FrameReader * list bytes :=
  match try_parse r with
  | (Ok (Some f), r) => (Ready (Ok f), r, reads)
  | (Ok None, r) =>
      let r := compact r in
      match reads with
      | [] => (Pending, r, [])
      | [] :: reads => (Ready (Err Io), r, reads)
      | c :: reads => next_frame {| buf := buf r ++ c; start := start r |} reads
      end
  | (Err e, r) => (Ready (Err e), r, reads)
  | (Panic, r) => (Ready Panic, r, reads)
  end.

(** ** Length-prefixed text *)

Definition enc_text (s : bytes) : bytes := be32 (as_u32 (len s)) ++ s.

Definition dec_text (data : bytes) : res bytes :=
  '(n, rest) ← try_len data 4;
  '(b, _) ← try_read rest n;
  try_str b.

Definition encode_query_payload (query : bytes) : bytes := enc_text query.
Definition decode_query_payload (data : bytes) : res bytes := dec_text data.
Definition encode_prepare_payload (query : bytes) : bytes := encode_query_payload query.
Definition encode_error_payload_into (msg out : bytes) : bytes := out ++ enc_text msg.
Definition encode_error_payload (msg : bytes) : bytes := encode_error_payload_into msg [].
Definition decode_error_payload (data : bytes) : res bytes := dec_text data.

(** ** Numbers *)

Definition dec_number (n : nat) (data : bytes) : res Z := '(b, _) ← try_read data n; Ok (from_be b).

Definition encode_execute_payload (stmt_id : Z) : bytes := be64 stmt_id.
Definition decode_execute_payload (data : bytes) : res Z := dec_number 8 data.
Definition encode_prepared_payload_into (stmt_id : Z) (out : bytes) : bytes := out ++ be64 stmt_id.
Definition encode_prepared_payload (stmt_id : Z) : bytes := be64 stmt_id.
Definition decode_prepared_payload (data : bytes) : res Z := dec_number 8 data.
Definition encode_unsubscribe_payload (sub_req_id : Z) : bytes := be32 sub_req_id.
Definition decode_unsubscribe_payload (data : bytes) : res Z := dec_number 4 data.

(** ** Batches of vectors *)

Record VectorBatch := { vb_type_name : bytes; vb_field_name : bytes; vb_rows : list (Z * list Z) }.

Definition le32 (x : Z) : bytes := rev (be32 x).

Definition enc_name (s : bytes) : bytes := be16 (as_u16 (len s)) ++ s.

Definition enc_vector_row (r : Z * list Z) : bytes :=
  be64 (fst r) ++ be32 (as_u32 (Z.of_nat (length (snd r)))) ++ flat_map le32 (snd r).

Definition encode_vector_batch_payload (type_name field_name : bytes) (rows : list (Z * list Z)) : bytes :=
  enc_name type_name ++ enc_name field_name ++ be32 (as_u32 (Z.of_nat (length rows))) ++ flat_map enc_vector_row rows.

Definition dec_name (data : bytes) : res (bytes * bytes) :=
  '(n, rest) ← try_len data 2; '(b, rest) ← try_read rest n; s ← try_str b; Ok (s, rest).

(** [chunks_exact(4)]. *)
Fixpoint le_floats (dim : nat) (b : bytes) : list Z :=
  match dim with O => [] | S dim => from_be (rev (take 4 b)) :: le_floats dim (drop 4 b) end.

Fixpoint dec_vector_rows (count : nat) (data : bytes) : res (list (Z * list Z)) :=
  match count with
  | O => Ok []
  | S count =>
      _ ← need data 12;
      '(id, rest) ← de_read data 8;
      '(dim, rest) ← de_len rest 4;
      '(v, rest) ← try_read rest (dim * 4);
      rows ← dec_vector_rows count rest;
      Ok ((from_be id, le_floats dim v) :: rows)
  end.

Definition decode_vector_batch_payload (data : bytes) : res VectorBatch :=
  '(type_name, rest) ← dec_name data;
  '(field_name, rest) ← dec_name rest;
  '(count, rest) ← try_len rest 4;
  rows ← dec_vector_rows count rest;
  Ok {| vb_type_name := type_name; vb_field_name := field_name; vb_rows := rows |}.

(** ** Subscription filters *)

Definition FILTER_FLAG_TYPE : Z := 1.
Definition FILTER_FLAG_OBJECT : Z := 2.
Definition KIND_BITS : Z := 7.

Definition kind_bit (k : ChangeKind) : Z := match k with KCreate => 1 | KUpdate => 2 | KDelete => 4 end.

Definition encode_subscribe_filter (f : SubscriptionFilter) : bytes :=
  let type_name := match sf_type_name f with Some (b :: s) => Some (b :: s) | _ => None end in
  let flags := Z.lor (match type_name with Some _ => FILTER_FLAG_TYPE | None => 0 end)
                     (match sf_object_id f with Some _ => FILTER_FLAG_OBJECT | None => 0 end) in
  [z2b flags] ++ match type_name with Some tn => enc_name tn | None => [] end ++
  match sf_object_id f with Some oid => be64 oid | None => [] end ++
  [z2b (fold_left (fun ks k => Z.lor ks (kind_bit k)) (kinds f) 0)].

Definition has_bit (flags bit : Z) : bool := negb (Z.land flags bit =? 0).

Definition decode_subscribe_filter (data : bytes) : res SubscriptionFilter :=
  '(fb, rest) ← try_read data 1;
  let flags := from_be fb in
  if negb (Z.land flags (255 - Z.lor FILTER_FLAG_TYPE FILTER_FLAG_OBJECT) =? 0) then Err Io
  else
    '(type_name, rest) ←
      (if has_bit flags FILTER_FLAG_TYPE then
         '(n, rest) ← try_len rest 2;
         if (n =? 0)%nat then Err Io
         else '(b, rest) ← try_read rest n; s ← try_str b; Ok (Some s, rest)
       else Ok (None, rest));
    '(object_id, rest) ←
      (if has_bit flags FILTER_FLAG_OBJECT then '(b, rest) ← try_read rest 8; Ok (Some (from_be b), rest) else Ok (None, rest));
    '(kb, rest) ← try_read rest 1;
    let ks := from_be kb in
    if negb (Z.land ks (255 - KIND_BITS) =? 0) then Err Io
    else
      match rest with
      | _ :: _ => Err Io
      | [] =>
          Ok {| sf_type_name := type_name; sf_object_id := object_id;
                kinds := List.filter (fun k => has_bit ks (kind_bit k)) [KCreate; KUpdate; KDelete];
                exclude_origin := None |}
      end.

(** ** Objects *)

Section objects.
Context {J : Json} {L : EngineLib}.

Definition encode_object (o : Object) (out : bytes) : bytes :=
  let out := out ++ enc_name (o_type o) ++ be64 (o_id o) in
  match o_raw o with Some raw => out ++ raw | None => serialize_fields_into (hash_order (o_fields o)) out end.

Definition decode_object (data : bytes) : res (Object * bytes) :=
  '(n, rest) ← try_len data 2;
  '(b, rest) ← try_read rest n;
  type_name ← try_str b;
  '(id, rest) ← try_read rest 8;
  '(fields, stop) ← try_deserialize_fields rest 0;
  Ok ({| o_type := type_name; o_id := from_be id; o_fields := fields; o_raw := None |}, drop (Z.to_nat stop) rest).

(** Rows of [row], each its own head before the object. *)
Definition encode_rows {A} (head : A -> bytes) (object : A -> Object) (rows : list A) (out : bytes) : bytes :=
  fold_left (fun out r => encode_object (object r) (out ++ head r)) rows (out ++ be32 (as_u32 (Z.of_nat (length rows)))).

Fixpoint dec_rows {H A} (head : bytes -> res (H * bytes)) (row : H -> Object -> A) (count : nat) (data : bytes) : res (list A) :=
  match count with
  | O => Ok []
  | S count =>
      '(h, rest) ← head data;
      '(o, rest) ← decode_object rest;
      rows ← dec_rows head row count rest;
      Ok (row h o :: rows)
  end.

Definition decode_rows_payload {H A} (head : bytes -> res (H * bytes)) (row : H -> Object -> A) (data : bytes) : res (list A) :=
  '(count, rest) ← try_len data 4; dec_rows head row count rest.

Definition encode_objects_payload_into (objects : list Object) (out : bytes) : bytes := encode_rows (fun _ => []) id objects out.
Definition encode_objects_payload (objects : list Object) : bytes := encode_objects_payload_into objects [].
Definition decode_objects_payload (data : bytes) : res (list Object) :=
  decode_rows_payload (fun data => Ok (tt, data)) (fun _ o => o) data.

Definition encode_scored_payload_into (rows : list (Object * Z)) (out : bytes) : bytes := encode_rows (fun r => be32 (snd r)) fst rows out.
Definition encode_scored_payload (rows : list (Object * Z)) : bytes := encode_scored_payload_into rows [].
Definition decode_scored_payload (data : bytes) : res (list (Object * Z)) :=
  decode_rows_payload (fun data => '(b, rest) ← try_read data 4; Ok (from_be b, rest)) (fun score o => (o, score)) data.

(** [f32::NAN]. *)
Definition F32_NAN : Z := 0x7fc00000.
Definition is_nan32 (bits : Z) : bool := ((bits / 2 ^ 23) mod 256 =? 255) && negb (bits mod 2 ^ 23 =? 0).

Definition encode_reranked_payload_into (rows : list (Object * Z * option Z)) (out : bytes) : bytes :=
  encode_rows (fun r => be32 (snd (fst r)) ++ be32 (default F32_NAN (snd r))) (fun r => fst (fst r)) rows out.
Definition encode_reranked_payload (rows : list (Object * Z * option Z)) : bytes := encode_reranked_payload_into rows [].
Definition decode_reranked_payload (data : bytes) : res (list (Object * Z * option Z)) :=
  decode_rows_payload
    (fun data => _ ← need data 8; '(s, rest) ← de_read data 4; '(r, rest) ← de_read rest 4; Ok ((from_be s, from_be r), rest))
    (fun '(score, rerank) o => (o, score, if is_nan32 rerank then None else Some rerank)) data.

Definition encode_single_payload (object : Object) : bytes := encode_object object [].
Definition decode_single_payload (data : bytes) : res Object := '(o, _) ← decode_object data; Ok o.

End objects.

(** ** Events *)

Definition EVENT_FORMAT_TAG : bytes := bs "rhypedb-event-v1".

Record WireEvent `{SerdeJson} := {
  we_v : bytes;
  we_kind : bytes;
  we_type_name : bytes;
  we_id : bytes;
  we_version : bytes;
  we_fields : option (bmap JsonValue);
  we_origin : option bytes;
}.

Definition from_change_event `{SerdeJson} (ev : ChangeEvent) : WireEvent := {|
  we_v := EVENT_FORMAT_TAG;
  we_kind := match ce_kind ev with KCreate => bs "create" | KUpdate => bs "update" | KDelete => bs "delete" end;
  we_type_name := ce_type_name ev;
  we_id := show_int (ce_object_id ev);
  we_version := show_int (ce_version ev);
  we_fields := ce_fields ev;
  we_origin := show_int <$> origin ev;
|}.
