(* ===== verification/ProtocolProps.v ===== *)
(** * Properties of the wire protocol

    Frames arrive whole and in order however the connection splits them
    ([frames_arrive]); payloads are read back as they were written
    ([payload_round_trips]) and no payload makes a reader panic
    ([payload_readers_total]). *)

From Stdlib Require Import ZArith Lia Bool List Strings.Byte Strings.String.
From stdpp Require Import base tactics option list.
From S2P Require Import Prelude ByteMap Utf8 Values Ieee Serde Store Engine EngineDemo QueryReads Subscribe Protocol.

Local Open Scope Z_scope.

(** ** Frames *)

Definition frame_ok (f : Frame) : Prop := is_u32 (req_id f) /\ len (payload f) <= MAX_FRAME_PAYLOAD.

Definition body_of (f : Frame) : bytes := be32 (req_id f) ++ [kind f] ++ payload f.

Lemma len_body f : len (body_of f) = 5 + len (payload f).
Proof. unfold body_of, len. rewrite !length_app, length_be32. cbn [length]. lia. Qed.

Lemma write_frame_body f : frame_ok f -> write_frame f = be32 (len (body_of f)) ++ body_of f.
Proof.
  intros [_ H]. unfold write_frame. rewrite len_body, as_u32_small; [done|]. unfold is_u32, MAX_FRAME_PAYLOAD in *.
  pose proof (len_nonneg (payload f)). lia.
Qed.

Lemma body_len_ok f : frame_ok f -> is_u32 (len (body_of f)) /\ frame_len (len (body_of f)) = Ok (len (body_of f)).
Proof.
  intros [_ H]. rewrite len_body. pose proof (len_nonneg (payload f)). unfold frame_len, is_u32, MAX_FRAME_PAYLOAD in *.
  split; [lia|]. rewrite (proj2 (Z.ltb_ge _ _)), (proj2 (Z.ltb_ge _ _)) by lia. done.
Qed.

Lemma frame_of_body f : frame_ok f -> frame_of (body_of f) = Ok f.
Proof.
  intros [H _]. unfold frame_of, body_of, de_read. rewrite length_app, length_be32, (proj2 (Nat.ltb_ge _ _)) by lia.
  cbn [mbind res_bind]. rewrite take_mid, drop_mid by (by rewrite length_be32). cbn. rewrite from_be32 by done. by destruct f.
Qed.

Lemma length_frame f : frame_ok f -> length (write_frame f) = (4 + length (body_of f))%nat.
Proof. intros H. rewrite write_frame_body by done. by rewrite length_app, length_be32. Qed.

(** The buffered writer's bytes are the same. *)
Lemma buffered_frame f builder : (forall b, builder b = b ++ payload f) ->
  write_frame_buffered (req_id f) (kind f) builder = write_frame f.
Proof.
  intros H. unfold write_frame_buffered, write_frame. rewrite H, drop_mid by done. unfold len. rewrite length_app, repeat_length.
  do 3 f_equal. lia.
Qed.

(** The bytes a reader has not returned yet. *)
Definition unread (r : FrameReader) : bytes := drop (start r) (buf r).

Definition reader_wf (r : FrameReader) : Prop := (start r <= length (buf r))%nat.

Lemma compact_unread r : unread (compact r) = unread r /\ reader_wf (compact r) /\ start (compact r) = O.
Proof.
  unfold compact, unread, reader_wf. destruct (0 <? start r)%nat eqn:E; cbn [buf start]; [by rewrite drop_0; auto with lia|].
  apply Nat.ltb_ge in E. replace (start r) with O by lia. split; [done|split; lia].
Qed.

(** A whole frame is parsed. *)
Lemma try_parse_frame r f rest : reader_wf r -> frame_ok f -> unread r = write_frame f ++ rest ->
  exists r', try_parse r = (Ok (Some f), r') /\ unread r' = rest /\ reader_wf r'.
Proof.
  intros Hw Hf Hu. destruct (body_len_ok f Hf) as [H32 Hl]. unfold try_parse. fold (unread r). rewrite Hu.
  rewrite write_frame_body, <- app_assoc by done.
  rewrite length_app, length_be32, (proj2 (Nat.ltb_ge _ _)), take_mid, from_be32, Hl by (done || (by rewrite length_be32) || lia).
  rewrite drop_mid by (by rewrite length_be32). unfold len. rewrite Nat2Z.id.
  rewrite length_app, (proj2 (Nat.ltb_ge _ _)), take_mid, frame_of_body by (done || lia).
  assert (length (buf r) = start r + (4 + length (body_of f)) + length rest)%nat as Hlen.
  { pose proof (f_equal length Hu) as E. unfold unread in E. rewrite length_drop, length_app, length_frame in E by done.
    unfold reader_wf in Hw. lia. }
  eexists. split; [reflexivity|]. destruct (_ =? _)%nat eqn:E; cbn [unread buf start reader_wf].
  - apply Nat.eqb_eq in E. destruct rest; [|cbn in Hlen; lia]. unfold unread, reader_wf. cbn. by split.
  - unfold unread, reader_wf. cbn [buf start]. split; [|lia]. rewrite <- drop_drop. change (drop (start r) (buf r)) with (unread r).
    rewrite Hu. apply drop_mid. by rewrite length_frame.
Qed.

(** Less than a whole frame is kept. *)
Lemma try_parse_part r f rest : frame_ok f -> unread r ++ rest = write_frame f -> (length (unread r) < length (write_frame f))%nat ->
  try_parse r = (Ok None, r).
Proof.
  intros Hf Hu Hlt. destruct (body_len_ok f Hf) as [H32 Hl]. unfold try_parse. fold (unread r).
  destruct (length (unread r) <? 4)%nat eqn:E; [done|]. apply Nat.ltb_ge in E.
  rewrite length_frame in Hlt by done. rewrite write_frame_body in Hu by done.
  assert (take 4 (unread r) = be32 (len (body_of f))) as ->.
  { apply (f_equal (take 4)) in Hu. rewrite take_app_le in Hu by lia. by rewrite take_mid in Hu by (by rewrite length_be32). }
  rewrite from_be32, Hl by done. unfold len. rewrite Nat2Z.id. by rewrite (proj2 (Nat.ltb_lt _ _)) by lia.
Qed.

Lemma app_split_le {A} (a b c d : list A) : a ++ b = c ++ d -> (length c <= length a)%nat -> exists l, a = c ++ l /\ d = l ++ b.
Proof.
  intros E Hl. apply app_eq_inv in E as [(k & -> & ->)|(k & -> & ->)]; [by exists k|].
  rewrite length_app in Hl. destruct k; [|cbn in Hl; lia]. exists []. by rewrite !app_nil_r.
Qed.

Lemma app_split_lt {A} (a b c d : list A) : a ++ b = c ++ d -> (length a <= length c)%nat -> exists l, c = a ++ l.
Proof.
  intros E Hl. apply app_eq_inv in E as [(k & -> & ->)|(k & -> & ->)]; [|by exists k].
  rewrite length_app in Hl. destruct k; [|cbn in Hl; lia]. exists []. by rewrite !app_nil_r.
Qed.

(** Bytes at hand that are the start of a sequence of frames: the next one is
    whole, or is still incomplete. *)
Lemma next_frame_spec reads : forall r frames future,
  reader_wf r -> Forall frame_ok frames -> Forall (fun c => c <> []) reads ->
  unread r ++ List.concat reads ++ future = flat_map write_frame frames ->
  (exists f rest r' reads', frames = f :: rest /\ next_frame r reads = (Ready (Ok f), r', reads') /\ reader_wf r' /\
     Forall (fun c => c <> []) reads' /\ unread r' ++ List.concat reads' ++ future = flat_map write_frame rest) \/
  (exists r', next_frame r reads = (Pending, r', []) /\ reader_wf r' /\ unread r' = unread r ++ List.concat reads /\
     forall f rest, frames = f :: rest -> (length (unread r') < length (write_frame f))%nat).
Proof.
  induction reads as [|c reads IH]; intros r frames future Hw Hf Hc E.
  - destruct frames as [|f rest].
    + right. destruct (app_eq_nil _ _ E) as [Hu _]. exists (compact r). destruct (compact_unread r) as (Eu & Hw' & _).
      split; [|split; [done|]; rewrite Eu, Hu; done]. cbn [next_frame]. unfold try_parse. fold (unread r). by rewrite Hu.
    + apply Forall_cons in Hf as [Hf Hr]. cbn [flat_map List.concat app] in E.
      destruct (decide (length (write_frame f) <= length (unread r))%nat) as [Hle|Hgt].
      * left. destruct (app_split_le _ _ _ _ E Hle) as (l & Hu & El).
        destruct (try_parse_frame r f l Hw Hf Hu) as (r' & Ep & Hu' & Hw'). exists f, rest, r', []. cbn [next_frame].
        rewrite Ep. do 4 (split; [done|]). by rewrite Hu'.
      * right. exists (compact r). destruct (compact_unread r) as (Eu & Hw' & _). cbn [next_frame List.concat].
        destruct (app_split_lt _ _ _ _ E) as (l & Hl); [lia|]. rewrite (try_parse_part r f l Hf (eq_sym Hl)) by lia.
        split; [done|]. split; [done|]. rewrite Eu. split; [by rewrite app_nil_r|]. intros ? ? [= <- <-]. lia.
  - apply Forall_cons in Hc as [Hc0 Hc]. destruct frames as [|f rest].
    + destruct (app_eq_nil _ _ E) as [_ Hu]. apply app_eq_nil in Hu as [Hu _]. cbn in Hu. by apply app_eq_nil in Hu as [-> _].
    + apply Forall_cons in Hf as [Hf Hr].
      destruct (decide (length (write_frame f) <= length (unread r))%nat) as [Hle|Hgt].
      * left. cbn [flat_map] in E. destruct (app_split_le _ _ _ _ E Hle) as (l & Hu & El).
        destruct (try_parse_frame r f l Hw Hf Hu) as (r' & Ep & Hu' & Hw'). exists f, rest, r', (c :: reads). cbn [next_frame].
        rewrite Ep. do 3 (split; [done|]). split; [by constructor|]. by rewrite Hu'.
      * destruct (compact_unread r) as (Eu & Hw' & Hs').
        assert (next_frame r (c :: reads) = next_frame {| buf := buf (compact r) ++ c; start := start (compact r) |} reads) as En.
        { cbn [flat_map] in E. destruct (app_split_lt _ _ _ _ E) as (l & Hl); [lia|]. cbn [next_frame].
          rewrite (try_parse_part r f l Hf (eq_sym Hl)) by lia. by destruct c. }
        rewrite En. set (r1 := {| buf := buf (compact r) ++ c; start := start (compact r) |}).
        assert (unread r1 = unread r ++ c) as Hu1.
        { rewrite <- Eu. unfold unread, r1. cbn [buf start]. by rewrite Hs', !drop_0. }
        assert (reader_wf r1) as Hw1 by (unfold reader_wf, r1; cbn [buf start]; lia).
        destruct (IH r1 (f :: rest) future Hw1) as [H|H]; [by constructor|done| |by left|right].
        { rewrite Hu1. cbn [List.concat] in E. by rewrite <- !app_assoc in *. }
        destruct H as (r' & ? & ? & Hu & ?). exists r'. do 2 (split; [done|]). split; [|done].
        rewrite Hu, Hu1. cbn [List.concat]. by rewrite app_assoc.
Qed.

(** A task that calls [next_frame] again and again.  Each batch is what became
    ready to read since the call before; a pending call is dropped, its reader kept. *)
Fixpoint calls (r : FrameReader) (reads : list bytes) (batches : list (list bytes)) : list Frame * FrameReader * list bytes :=
  match batches with
  | [] => ([], r, reads)
  | b :: batches =>
      match next_frame r (reads ++ b) with
      | (Ready (Ok f), r, reads) => let '(fs, r, reads) := calls r reads batches in (f :: fs, r, reads)
      | (Pending, r, reads) => calls r reads batches
      | (_, r, reads) => ([], r, reads)
      end
  end.

Notation whole_reads := (Forall (fun c : bytes => c <> [])).

(** The bytes at hand do not hold the next of [frames]. *)
Definition incomplete (r : FrameReader) (frames : list Frame) : Prop :=
  forall f rest, frames = f :: rest -> (length (unread r) < length (write_frame f))%nat.

(** Calls with nothing new to read deliver what is whole. *)
Lemma calls_idle n : forall r reads frames future,
  reader_wf r -> Forall frame_ok frames -> whole_reads reads ->
  unread r ++ List.concat reads ++ future = flat_map write_frame frames ->
  (length frames < n)%nat \/ (reads = [] /\ incomplete r frames) ->
  exists fs rest r', calls r reads (repeat [] n) = (fs, r', []) /\ frames = fs ++ rest /\
    unread r' ++ future = flat_map write_frame rest /\ incomplete r' rest.
Proof.
  induction n as [|n IH]; intros r reads frames future Hw Hf Hr E Hn; cbn [calls repeat].
  - destruct Hn as [?|[-> Hi]]; [lia|]. by exists [], frames, r.
  - rewrite app_nil_r. destruct (next_frame_spec reads r frames future Hw Hf Hr E) as [H|H].
    + destruct H as (f & rest & r' & reads' & -> & -> & Hw' & Hr' & E'). apply Forall_cons in Hf as [_ Hf].
      destruct Hn as [Hn|[-> Hi]].
      * destruct (IH r' reads' rest future) as (fs & rest' & r'' & -> & -> & ?); [done..|left; cbn in Hn; lia|].
        by exists (f :: fs), rest', r''.
      * specialize (Hi f rest eq_refl). cbn [flat_map List.concat] in E. rewrite <- E' in E.
        apply (f_equal length) in E. rewrite !length_app in E. cbn [length] in E. lia.
    + destruct H as (r' & -> & Hw' & Hu & Hi). apply IH; try done; [|by right]. by rewrite Hu, <- app_assoc.
Qed.

(** Calls while bytes arrive, then calls with nothing new to read. *)
Lemma calls_all batches : forall r reads frames future n,
  reader_wf r -> Forall frame_ok frames -> whole_reads reads -> Forall whole_reads batches ->
  unread r ++ List.concat reads ++ List.concat (List.concat batches) ++ future = flat_map write_frame frames -> (length frames < n)%nat ->
  exists fs rest r', calls r reads (batches ++ repeat [] n) = (fs, r', []) /\ frames = fs ++ rest /\
    unread r' ++ future = flat_map write_frame rest /\ incomplete r' rest.
Proof.
  induction batches as [|b batches IH]; intros r reads frames future n Hw Hf Hr Hb E Hn; cbn [calls app].
  - apply calls_idle; auto.
  - apply Forall_cons in Hb as [Hb Hbs]. cbn [List.concat] in E. rewrite List.concat_app in E.
    destruct (next_frame_spec (reads ++ b) r frames (List.concat (List.concat batches) ++ future) Hw Hf) as [H|H].
    { by apply Forall_app. }
    { rewrite List.concat_app. by rewrite <- !app_assoc in *. }
    + destruct H as (f & rest & r' & reads' & -> & -> & Hw' & Hr' & E'). apply Forall_cons in Hf as [_ Hf]. cbn in Hn.
      destruct (IH r' reads' rest future n) as (fs & rest' & r'' & -> & -> & ?); [done..|lia|]. by exists (f :: fs), rest', r''.
    + destruct H as (r' & -> & Hw' & Hu & _). apply IH; try done. rewrite Hu, List.concat_app. by rewrite <- !app_assoc in *.
Qed.

(** C29: frames cross a connection that splits and delays their bytes at will.
    Let [frames] be written one after the other, every payload within
    [MAX_FRAME_PAYLOAD], and let the connection deliver their bytes, up to some
    not yet sent ones, in any non-empty reads, any number of them ready at each
    call of [next_frame], calls that find nothing ready being dropped and made
    again.  Then the calls made so far, with one more call than there are frames
    once nothing new arrives, deliver without an error the frames in the order
    they were written: all those whose bytes have arrived, the bytes kept by the
    reader being the incomplete part of the next one; and all of them when
    everything has been sent. *)
Theorem frames_arrive frames batches future :
  Forall frame_ok frames -> Forall whole_reads batches ->
  List.concat (List.concat batches) ++ future = flat_map write_frame frames ->
  exists delivered rest r,
    calls frame_reader_new [] (batches ++ repeat [] (S (length frames))) = (delivered, r, []) /\
    frames = delivered ++ rest /\
    List.concat (List.concat batches) = flat_map write_frame delivered ++ unread r /\
    (forall f rest', rest = f :: rest' -> (length (unread r) < length (write_frame f))%nat) /\
    (future = [] -> delivered = frames).
Proof.
  intros Hf Hb E. destruct (calls_all batches frame_reader_new [] frames future (S (length frames))) as (fs & rest & r & Ec & -> & Eu & Hi);
    [unfold reader_wf; cbn; lia|done..|cbn; lia|]. exists fs, rest, r. do 2 (split; [done|]).
  rewrite flat_map_app, <- Eu, app_assoc in E. apply app_inv_tail in E. split; [done|split; [done|]].
  intros ->. destruct rest as [|f rest]; [by rewrite app_nil_r|]. exfalso. specialize (Hi f rest eq_refl).
  apply (f_equal length) in Eu. cbn [flat_map] in Eu. rewrite !length_app in Eu. cbn [length] in Eu. lia.
Qed.

(** ** Payloads *)

Definition text_ok (s : bytes) : Prop := utf8_valid s = true /\ is_u32 (len s).
Definition name_ok (s : bytes) : Prop := utf8_valid s = true /\ is_u16 (len s).

Lemma dec_enc_text s rest : text_ok s -> dec_text (enc_text s ++ rest) = Ok s.
Proof.
  intros [Hv Hl]. unfold dec_text, enc_text. rewrite as_u32_small, <- app_assoc by done.
  rewrite try_len_app, from_be32, len_to_nat by (done || apply length_be32). cbn [mbind res_bind].
  rewrite try_read_app by done. cbn [mbind res_bind]. unfold try_str. by rewrite Hv.
Qed.

Lemma try_len_name s rest : name_ok s -> try_len (enc_name s ++ rest) 2 = Ok (length s, s ++ rest).
Proof.
  intros [_ Hl]. unfold enc_name. rewrite as_u16_small, <- app_assoc by done.
  by rewrite try_len_app, from_be16, len_to_nat by (done || apply length_be).
Qed.

Lemma dec_enc_name s rest : name_ok s -> dec_name (enc_name s ++ rest) = Ok (s, rest).
Proof.
  intros H. unfold dec_name. rewrite try_len_name by done. cbn [mbind res_bind].
  rewrite try_read_app by done. cbn [mbind res_bind]. unfold try_str. by rewrite (proj1 H).
Qed.

Lemma dec_number64 x rest : is_u64 x -> dec_number 8 (be64 x ++ rest) = Ok x.
Proof.
  intros H. unfold dec_number. rewrite try_read_app by apply length_be64. cbn [mbind res_bind]. by rewrite from_be64.
Qed.

Lemma dec_number32 x rest : is_u32 x -> dec_number 4 (be32 x ++ rest) = Ok x.
Proof.
  intros H. unfold dec_number. rewrite try_read_app by apply length_be32. cbn [mbind res_bind]. by rewrite from_be32.
Qed.

(** *** Batches of vectors *)

Definition vector_row_ok (r : Z * list Z) : Prop :=
  is_u64 (fst r) /\ is_u32 (Z.of_nat (length (snd r))) /\ Forall is_u32 (snd r).

Lemma length_le32 v : length (flat_map le32 v) = (4 * length v)%nat.
Proof. induction v as [|x v IH]; [done|]. cbn [flat_map length]. rewrite length_app, IH. unfold le32. rewrite length_rev, length_be32. lia. Qed.

Lemma le_floats_le32 v : Forall is_u32 v -> le_floats (length v) (flat_map le32 v) = v.
Proof.
  induction 1 as [|x v Hx _ IH]; [done|]. cbn [flat_map length le_floats].
  assert (length (le32 x) = 4%nat) as Hl by (unfold le32; by rewrite length_rev, length_be32).
  rewrite take_mid, drop_mid by done. unfold le32 at 1. by rewrite rev_involutive, from_be32, IH.
Qed.

Lemma dec_enc_vector_rows rows rest : Forall vector_row_ok rows ->
  dec_vector_rows (length rows) (flat_map enc_vector_row rows ++ rest) = Ok rows.
Proof.
  induction 1 as [|[id v] rows (Hid & Hd & Hv) _ IH]; [done|]. cbn [fst snd] in *.
  change (flat_map enc_vector_row ((id, v) :: rows)) with (enc_vector_row (id, v) ++ flat_map enc_vector_row rows).
  cbn [length dec_vector_rows]. assert (enc_vector_row (id, v) = be64 id ++ be32 (Z.of_nat (length v)) ++ flat_map le32 v) as ->.
  { unfold enc_vector_row. cbn [fst snd]. by rewrite as_u32_small. }
  rewrite <- !app_assoc. unfold need. rewrite (proj2 (Nat.leb_le _ _)).
  2:{ rewrite !length_app, length_be64, length_be32. lia. }
  cbn [mbind res_bind]. erewrite try_read_ok by (apply try_read_app, length_be64). cbn [mbind res_bind].
  erewrite try_len_ok by (apply try_len_app, length_be32). cbn [mbind res_bind].
  rewrite from_be32, from_be64, Nat2Z.id by done. rewrite try_read_app by (rewrite length_le32; lia). cbn [mbind res_bind].
  by rewrite IH, le_floats_le32.
Qed.

Lemma vector_batch_round_trip tn fn rows : name_ok tn -> name_ok fn -> Forall vector_row_ok rows -> is_u32 (Z.of_nat (length rows)) ->
  decode_vector_batch_payload (encode_vector_batch_payload tn fn rows) = Ok {| vb_type_name := tn; vb_field_name := fn; vb_rows := rows |}.
Proof.
  intros Ht Hf Hr Hc. unfold decode_vector_batch_payload, encode_vector_batch_payload.
  rewrite dec_enc_name by done. cbn [mbind res_bind]. rewrite dec_enc_name by done. cbn [mbind res_bind].
  rewrite try_len_app by apply length_be32. cbn [mbind res_bind]. rewrite as_u32_small, from_be32, Nat2Z.id by done.
  rewrite <- (app_nil_r (flat_map _ _)). by rewrite dec_enc_vector_rows.
Qed.

(** *** Subscription filters *)

Definition kind_set (l : list ChangeKind) : Z := fold_left (fun ks k => Z.lor ks (kind_bit k)) l 0.

Lemma kind_bits_step acc k : 0 <= acc < 8 ->
  0 <= Z.lor acc (kind_bit k) < 8 /\ forall k', has_bit (Z.lor acc (kind_bit k)) (kind_bit k') = has_bit acc (kind_bit k') || bool_decide (k' = k).
Proof.
  intros H. assert (acc = 0 \/ acc = 1 \/ acc = 2 \/ acc = 3 \/ acc = 4 \/ acc = 5 \/ acc = 6 \/ acc = 7) as Hc by lia.
  repeat destruct Hc as [->|Hc]; [..|subst]; (split; [destruct k; split; by vm_compute|by intros []; destruct k]).
Qed.

Lemma kind_set_spec l acc : 0 <= acc < 8 ->
  0 <= fold_left (fun ks k => Z.lor ks (kind_bit k)) l acc < 8 /\
  forall k, has_bit (fold_left (fun ks k => Z.lor ks (kind_bit k)) l acc) (kind_bit k) = has_bit acc (kind_bit k) || existsb (fun k' => bool_decide (k = k')) l.
Proof.
  revert acc. induction l as [|k l IH]; intros acc H; cbn [fold_left existsb]; [by split; [|intros; rewrite orb_false_r]|].
  destruct (kind_bits_step acc k H) as [H1 H2]. destruct (IH _ H1) as [H3 H4]. split; [done|]. intros k'.
  by rewrite H4, H2, orb_assoc.
Qed.

(** The kinds read back. *)
Definition kinds_read (l : list ChangeKind) : list ChangeKind :=
  List.filter (fun k => existsb (fun k' => bool_decide (k = k')) l) [KCreate; KUpdate; KDelete].

Lemma kinds_read_in l k : In k (kinds_read l) <-> In k l.
Proof.
  unfold kinds_read. rewrite filter_In, existsb_exists. split.
  - intros (_ & k' & H & E). apply bool_decide_eq_true in E. by subst.
  - intros H. split; [destruct k; cbn; tauto|]. exists k. by rewrite bool_decide_true.
Qed.

(** The filter that arrives: [exclude_origin] is not sent, nor is an empty type name. *)
Definition filter_arrived (f : SubscriptionFilter) : SubscriptionFilter :=
  {| sf_type_name := match sf_type_name f with Some (b :: s) => Some (b :: s) | _ => None end;
     sf_object_id := sf_object_id f; kinds := kinds_read (kinds f); exclude_origin := None |}.

Definition filter_ok (f : SubscriptionFilter) : Prop :=
  (forall tn, sf_type_name f = Some tn -> name_ok tn) /\ (forall id, sf_object_id f = Some id -> is_u64 id).

(** The end of a filter: its kinds. *)
Lemma dec_kinds l tn oid :
  ('(kb, rest) ← try_read [z2b (kind_set l)] 1;
   if negb (Z.land (from_be kb) (255 - KIND_BITS) =? 0) then Err Io
   else match rest with
        | _ :: _ => Err Io
        | [] => Ok {| sf_type_name := tn; sf_object_id := oid;
                      kinds := List.filter (fun k => has_bit (from_be kb) (kind_bit k)) [KCreate; KUpdate; KDelete]; exclude_origin := None |}
        end) = Ok {| sf_type_name := tn; sf_object_id := oid; kinds := kinds_read l; exclude_origin := None |}.
Proof.
  destruct (kind_set_spec l 0) as [Hk Hb]; [lia|]. fold (kind_set l) in *. set (ks := kind_set l) in *.
  change ([z2b ks]) with ([z2b ks] ++ []). rewrite try_read_app by done. cbn [mbind res_bind].
  assert (from_be [z2b ks] = ks) as -> by (rewrite from_be_byte, b2z_z2b; apply Z.mod_small; lia).
  assert (Z.land ks (255 - KIND_BITS) = 0) as ->.
  { assert (ks = 0 \/ ks = 1 \/ ks = 2 \/ ks = 3 \/ ks = 4 \/ ks = 5 \/ ks = 6 \/ ks = 7) as Hc by lia. clearbody ks.
    repeat destruct Hc as [->|Hc]; [done..|by rewrite Hc]. }
  cbn [negb Z.eqb]. do 2 f_equal. unfold kinds_read. apply filter_ext. intros k. rewrite Hb. by destruct k.
Qed.

Lemma filter_round_trip f : filter_ok f -> decode_subscribe_filter (encode_subscribe_filter f) = Ok (filter_arrived f).
Proof.
  intros [Ht Ho]. unfold decode_subscribe_filter, encode_subscribe_filter, filter_arrived. fold (kind_set (kinds f)).
  rewrite try_read_app by done. cbn [mbind res_bind].
  assert (match sf_type_name f with Some (b :: s) => Some (b :: s) | _ => None end = None \/
    exists b s, match sf_type_name f with Some (b :: s) => Some (b :: s) | _ => None end = Some (b :: s) /\ name_ok (b :: s)) as [->|(b & s & -> & Hn)].
  { destruct (sf_type_name f) as [[|b s]|]; eauto. right. exists b, s. auto. }
  - destruct (sf_object_id f) as [id|] eqn:Eo.
    + set (fl := from_be [z2b (Z.lor _ _)]). assert (fl = 2) as -> by done. change (negb (Z.land 2 _ =? 0)) with false.
      change (has_bit 2 FILTER_FLAG_TYPE) with false. change (has_bit 2 FILTER_FLAG_OBJECT) with true. cbn [mbind res_bind].
      rewrite app_nil_l, try_read_app by apply length_be64. cbn [mbind res_bind]. rewrite from_be64 by auto. apply dec_kinds.
    + set (fl := from_be [z2b (Z.lor _ _)]). assert (fl = 0) as -> by done. change (negb (Z.land 0 _ =? 0)) with false.
      change (has_bit 0 FILTER_FLAG_TYPE) with false. change (has_bit 0 FILTER_FLAG_OBJECT) with false. apply dec_kinds.
  - destruct (sf_object_id f) as [id|] eqn:Eo.
    + set (fl := from_be [z2b (Z.lor _ _)]). assert (fl = 3) as -> by done. change (negb (Z.land 3 _ =? 0)) with false.
      change (has_bit 3 FILTER_FLAG_TYPE) with true. change (has_bit 3 FILTER_FLAG_OBJECT) with true. cbv iota.
      rewrite try_len_name by done. cbn [mbind res_bind]. change (length (b :: s) =? 0)%nat with false. cbv iota.
      rewrite try_read_app by done. cbn [mbind res_bind]. unfold try_str. rewrite (proj1 Hn). cbn [mbind res_bind].
      rewrite try_read_app by apply length_be64. cbn [mbind res_bind]. rewrite from_be64 by auto. apply dec_kinds.
    + set (fl := from_be [z2b (Z.lor _ _)]). assert (fl = 1) as -> by done. change (negb (Z.land 1 _ =? 0)) with false.
      change (has_bit 1 FILTER_FLAG_TYPE) with true. change (has_bit 1 FILTER_FLAG_OBJECT) with false. cbv iota.
      rewrite try_len_name by done. cbn [mbind res_bind]. change (length (b :: s) =? 0)%nat with false. cbv iota.
      rewrite try_read_app by done. cbn [mbind res_bind]. unfold try_str. rewrite (proj1 Hn). apply dec_kinds.
Qed.

Lemma kinds_read_matches l k :
  match kinds_read l with [] => true | ks => existsb (fun k' => bool_decide (k' = k)) ks end
  = match l with [] => true | ks => existsb (fun k' => bool_decide (k' = k)) ks end.
Proof.
  assert (existsb (fun k' => bool_decide (k' = k)) (kinds_read l) = existsb (fun k' => bool_decide (k' = k)) l) as E.
  { apply eq_true_iff_eq. rewrite !existsb_exists. split; intros (k' & H & ?); exists k'; (split; [by apply kinds_read_in|done]). }
  destruct l as [|a l]; [done|]. destruct (kinds_read (a :: l)) as [|b l'] eqn:Er; [|done].
  exfalso. assert (In a (kinds_read (a :: l))) as H by (apply kinds_read_in; by left). by rewrite Er in H.
Qed.

Lemma filter_arrived_matches {SJ : SerdeJson} f e :
  sf_type_name f <> Some [] -> exclude_origin f = None -> matches (filter_arrived f) e = matches f e.
Proof.
  intros Hn Ho. unfold matches, filter_arrived. cbn [sf_type_name sf_object_id kinds exclude_origin]. rewrite kinds_read_matches, Ho.
  destruct (sf_type_name f) as [[|b s]|]; [by destruct Hn|by destruct (kinds f)..].
Qed.

(** *** Objects *)

Section object_codec.
Context {J : Json} {L : EngineLib} {LL : EngineLibLaws L}.

(** An object whose fields, decoded or raw, are [fm]. *)
Record sendable (o : Object) (fm : FieldMap) : Prop := {
  send_name : name_ok (o_type o);
  send_id : is_u64 (o_id o);
  send_sorted : bsorted fm;
  send_fields : Forall field_ok fm;
  send_count : is_u16 (Z.of_nat (length fm));
  send_holds : match o_raw o with Some raw => exists l, l ≡ₚ fm /\ raw = serialize_fields l | None => o_fields o = fm end;
}.

(** What the other side holds. *)
Definition received (o : Object) (fm : FieldMap) : Object :=
  {| o_type := o_type o; o_id := o_id o; o_fields := fm; o_raw := None |}.

Lemma encode_object_app o out : encode_object o out = out ++ encode_object o [].
Proof.
  unfold encode_object. destruct (o_raw o); [by rewrite app_nil_l, <- app_assoc|].
  unfold serialize_fields_into. rewrite !write_fields_into_enc. by rewrite app_nil_l, <- !app_assoc.
Qed.

Lemma encode_object_bytes o fm : sendable o fm ->
  exists l, l ≡ₚ fm /\ encode_object o [] = enc_name (o_type o) ++ be64 (o_id o) ++ serialize_fields l.
Proof.
  intros [_ _ _ _ _ H]. unfold encode_object. rewrite app_nil_l. destruct (o_raw o) as [raw|].
  - destruct H as (l & Hl & ->). exists l. by rewrite <- app_assoc.
  - subst. exists (hash_order (o_fields o)). split; [apply hash_order_perm|].
    unfold serialize_fields_into. rewrite write_fields_into_enc, serialize_fields_enc. app_solve.
Qed.

Lemma decode_encode_object o fm rest : sendable o fm -> decode_object (encode_object o [] ++ rest) = Ok (received o fm, rest).
Proof.
  intros H. destruct (encode_object_bytes o fm H) as (l & Hl & ->). destruct H as [Hn Hi Hs Hf Hc _].
  unfold decode_object. rewrite <- !app_assoc, try_len_name by done. cbn [mbind res_bind].
  rewrite try_read_app by done. cbn [mbind res_bind]. unfold try_str. rewrite (proj1 Hn). cbn [mbind res_bind].
  rewrite try_read_app by apply length_be64. cbn [mbind res_bind].
  pose proof (try_deserialize_serialized l [] rest) as E. cbn [app] in E. change (len []) with 0 in E.
  rewrite E by (by rewrite Hl). cbn [mbind res_bind]. rewrite (insert_all_order fm), from_be64 by done.
  rewrite Z.add_0_l, len_to_nat, drop_mid by done. done.
Qed.

(** *** Rows *)

Section rows.
Context {H A : Type} (head : A -> bytes) (object : A -> Object) (dec_head : bytes -> res (H * bytes)) (row : H -> Object -> A).
Context (hd : A -> H) (fields : A -> FieldMap).

Lemma encode_rows_bytes rows out :
  encode_rows head object rows out
    = out ++ be32 (as_u32 (Z.of_nat (length rows))) ++ flat_map (fun r => head r ++ encode_object (object r) []) rows.
Proof.
  unfold encode_rows. rewrite app_assoc. generalize (out ++ be32 (as_u32 (Z.of_nat (length rows)))). clear out.
  induction rows as [|r rows IH]; intros out; cbn [fold_left flat_map]; [by rewrite app_nil_r|].
  rewrite IH, encode_object_app, <- !app_assoc. done.
Qed.

Lemma dec_rows_round_trip rows :
  Forall (fun r => sendable (object r) (fields r) /\ forall rest, dec_head (head r ++ rest) = Ok (hd r, rest)) rows ->
  dec_rows dec_head row (length rows) (flat_map (fun r => head r ++ encode_object (object r) []) rows)
    = Ok (map (fun r => row (hd r) (received (object r) (fields r))) rows).
Proof.
  induction 1 as [|r rows [Hs Hh] _ IH]; [done|]. cbn [flat_map length dec_rows map].
  rewrite <- app_assoc, Hh. cbn [mbind res_bind]. rewrite (decode_encode_object _ _ _ Hs). cbn [mbind res_bind]. by rewrite IH.
Qed.

Lemma rows_round_trip rows : is_u32 (Z.of_nat (length rows)) ->
  Forall (fun r => sendable (object r) (fields r) /\ forall rest, dec_head (head r ++ rest) = Ok (hd r, rest)) rows ->
  decode_rows_payload dec_head row (encode_rows head object rows [])
    = Ok (map (fun r => row (hd r) (received (object r) (fields r))) rows).
Proof.
  intros Hc Hr. unfold decode_rows_payload. rewrite encode_rows_bytes, app_nil_l, try_len_app by apply length_be32.
  cbn [mbind res_bind]. rewrite as_u32_small, from_be32, Nat2Z.id by done. by apply dec_rows_round_trip.
Qed.
End rows.

(** C30: what a client receives of a query's results is what the server sent.  For
    objects whose names and fields fit their length prefixes, held decoded or as
    raw bytes in any field order, with scores and rerank scores (not NaN where
    present): the object, scored, reranked and single-object payloads decode to
    the same objects with the fields decoded, the same scores in the same order. *)
Theorem results_round_trip (fields : Object -> FieldMap) (rows : list (Object * Z * option Z)) :
  is_u32 (Z.of_nat (length rows)) ->
  Forall (fun r => sendable (fst (fst r)) (fields (fst (fst r))) /\ is_u32 (snd (fst r)) /\
                   match snd r with Some rr => is_u32 rr /\ is_nan32 rr = false | None => True end) rows ->
  let recv o := received o (fields o) in
  decode_objects_payload (encode_objects_payload (map (fun r => fst (fst r)) rows)) = Ok (map (fun r => recv (fst (fst r))) rows) /\
  decode_scored_payload (encode_scored_payload (map fst rows)) = Ok (map (fun r => (recv (fst (fst r)), snd (fst r))) rows) /\
  decode_reranked_payload (encode_reranked_payload rows) = Ok (map (fun r => (recv (fst (fst r)), snd (fst r), snd r)) rows) /\
  Forall (fun r => decode_single_payload (encode_single_payload (fst (fst r))) = Ok (recv (fst (fst r)))) rows.
Proof.
  intros Hc Hr recv. split_and!.
  - unfold decode_objects_payload, encode_objects_payload, encode_objects_payload_into.
    rewrite (rows_round_trip _ _ _ _ (fun _ => tt) fields), map_map; [done|by rewrite length_map|].
    apply Forall_map. eapply Forall_impl; [exact Hr|]. cbn. tauto.
  - unfold decode_scored_payload, encode_scored_payload, encode_scored_payload_into.
    rewrite (rows_round_trip _ _ _ _ snd (fun r => fields (fst r))), map_map; [done|by rewrite length_map|].
    apply Forall_map. eapply Forall_impl; [exact Hr|]. intros r (Hs & Hu & _). split; [done|]. intros rest. cbn [fst snd].
    rewrite try_read_app by apply length_be32. cbn [mbind res_bind]. by rewrite from_be32.
  - unfold decode_reranked_payload, encode_reranked_payload, encode_reranked_payload_into.
    rewrite (rows_round_trip _ _ _ _ (fun r => (snd (fst r), default F32_NAN (snd r))) (fun r => fields (fst (fst r)))); [|done|].
    + f_equal. apply map_ext_in. intros r Hin%list_elem_of_In. rewrite Forall_forall in Hr. destruct (Hr r Hin) as (_ & _ & Hn).
      destruct r as [[o sc] [rr|]]; cbn in *; [by rewrite (proj2 Hn)|done].
    + eapply Forall_impl; [exact Hr|]. intros r (Hs & Hu & Hn). split; [done|]. intros rest.
      unfold need. rewrite (proj2 (Nat.leb_le _ _)) by (rewrite !length_app, !length_be32; lia). cbn [mbind res_bind].
      rewrite <- app_assoc. erewrite try_read_ok by (apply try_read_app, length_be32). cbn [mbind res_bind].
      erewrite try_read_ok by (apply try_read_app, length_be32). cbn [mbind res_bind]. rewrite !from_be32; [done| |done].
      destruct (snd r); [by destruct Hn|done].
  - eapply Forall_impl; [exact Hr|]. intros r (Hs & _). unfold decode_single_payload, encode_single_payload.
    rewrite <- (app_nil_r (encode_object _ _)). by rewrite (decode_encode_object _ _ _ Hs).
Qed.

End object_codec.

(** What the server reads of a request is what the client sent: query,
    prepare and error texts, statement and subscription ids (each also with
    bytes after it), batches of vectors with their floats bit for bit, and
    subscription filters: the filter that arrives lets through the same events
    when it names a type (not the empty name) and asks for no exclusion of the
    sender's own writes, which is not part of the message. *)
Theorem requests_round_trip {SJ : SerdeJson} :
  (forall q rest, text_ok q ->
     decode_query_payload (encode_query_payload q ++ rest) = Ok q /\
     decode_query_payload (encode_prepare_payload q ++ rest) = Ok q /\
     decode_error_payload (encode_error_payload q ++ rest) = Ok q) /\
  (forall id rest, is_u64 id ->
     decode_execute_payload (encode_execute_payload id ++ rest) = Ok id /\
     decode_prepared_payload (encode_prepared_payload id ++ rest) = Ok id) /\
  (forall id rest, is_u32 id -> decode_unsubscribe_payload (encode_unsubscribe_payload id ++ rest) = Ok id) /\
  (forall tn fn rows, name_ok tn -> name_ok fn -> Forall vector_row_ok rows -> is_u32 (Z.of_nat (length rows)) ->
     decode_vector_batch_payload (encode_vector_batch_payload tn fn rows)
       = Ok {| vb_type_name := tn; vb_field_name := fn; vb_rows := rows |}) /\
  (forall f, filter_ok f -> exists g, decode_subscribe_filter (encode_subscribe_filter f) = Ok g /\ exclude_origin g = None /\
     (sf_type_name f <> Some [] -> exclude_origin f = None -> forall e, matches g e = matches f e)).
Proof.
  split_and!.
  - intros q rest H. split_and!; by apply dec_enc_text.
  - intros id rest H. split; by apply dec_number64.
  - intros id rest H. by apply dec_number32.
  - apply vector_batch_round_trip.
  - intros f Hf. exists (filter_arrived f). split; [by apply filter_round_trip|]. split; [done|]. intros. by apply filter_arrived_matches.
Qed.

(** ** No bytes make a reader panic *)

#[local] Hint Resolve try_read_total try_len_total try_fields_total : readers.

Lemma try_str_total b : not_panic (try_str b).
Proof. unfold try_str. by case_match. Qed.
#[local] Hint Resolve try_str_total : readers.

(** A reader is its parts in sequence. *)
Ltac reader_total :=
  repeat first
    [ apply bind_not_panic; [solve [auto with readers]|let x := fresh in intros x; try destruct x]
    | done
    | case_match ].

Lemma frame_of_total body : (5 <= length body)%nat -> not_panic (frame_of body).
Proof.
  intros H. unfold frame_of, de_read. rewrite (proj2 (Nat.ltb_ge _ _)) by lia. cbn [mbind res_bind].
  rewrite length_drop, (proj2 (Nat.ltb_ge _ _)) by lia. cbn [mbind res_bind].
  destruct (take 1 (drop 4 body)) as [|k [|k2 l]] eqn:E; [|done|]; apply (f_equal length) in E;
    rewrite length_take, length_drop in E; cbn [length] in E; lia.
Qed.

Lemma frame_len_ok n m : frame_len n = Ok m -> m = n /\ 5 <= n <= MAX_FRAME_PAYLOAD + 5.
Proof. unfold frame_len. destruct (n <? 5) eqn:E1, (MAX_FRAME_PAYLOAD + 5 <? n) eqn:E2; try done. intros [= <-]. lia. Qed.

Lemma frame_len_total n : not_panic (frame_len n).
Proof. unfold frame_len. by repeat case_match. Qed.
#[local] Hint Resolve frame_len_total : readers.

Lemma try_parse_total r : fst (try_parse r) <> Panic.
Proof.
  unfold try_parse. set (rest := drop (start r) (buf r)). destruct (length rest <? 4)%nat; [done|].
  destruct (frame_len _) as [n| |] eqn:E; [|done|by apply frame_len_total in E].
  apply frame_len_ok in E as [-> E]. destruct (_ <? _)%nat eqn:El; [done|]. apply Nat.ltb_ge in El.
  set (n := from_be _) in *. destruct (frame_of _) eqn:Ef; [done|done|]. exfalso. revert Ef. apply frame_of_total.
  rewrite length_take, length_drop. lia.
Qed.

Lemma next_frame_total reads : forall r, fst (fst (next_frame r reads)) <> Ready Panic.
Proof.
  induction reads as [|c reads IH]; intros r; cbn [next_frame]; pose proof (try_parse_total r) as H;
    destruct (try_parse r) as [[[f|]| |] r']; try done. destruct c; [done|apply IH].
Qed.

Lemma read_frame_total stream : not_panic (read_frame stream).
Proof.
  unfold read_frame. apply bind_not_panic; [apply try_read_total|intros [b rest]].
  destruct (frame_len _) as [n| |] eqn:E; [|done|by apply frame_len_total in E]. apply frame_len_ok in E as [-> E].
  cbn [mbind res_bind]. destruct (try_read rest _) as [[body rest']| |] eqn:Er; [|done|by apply try_read_total in Er].
  cbn [mbind res_bind]. apply bind_not_panic; [|done]. apply frame_of_total. rewrite try_read_eq in Er.
  destruct (_ <? _)%nat eqn:El; [done|]. injection Er as <- _. apply Nat.ltb_ge in El. set (n := from_be b) in *.
  assert (5 <= Z.to_nat n)%nat by lia. rewrite length_take. lia.
Qed.

Lemma dec_text_total data : not_panic (dec_text data).
Proof. unfold dec_text. by reader_total; auto with readers. Qed.

Lemma dec_number_total n data : not_panic (dec_number n data).
Proof. unfold dec_number. by reader_total. Qed.

Lemma dec_name_total data : not_panic (dec_name data).
Proof. unfold dec_name. by reader_total. Qed.
#[local] Hint Resolve dec_text_total dec_number_total dec_name_total : readers.

Lemma needed_total {A} data n (k : unit -> res A) : ((n <= length data)%nat -> not_panic (k ())) -> not_panic (need data n ≫= k).
Proof. intros H. unfold need. destruct (n <=? length data)%nat eqn:E; [|done]. apply H. by apply Nat.leb_le. Qed.

(** A read that was checked for. *)
Lemma de_read_total {A} data n (k : bytes * bytes -> res A) : (n <= length data)%nat ->
  (forall b rest, (length rest + n = length data)%nat -> not_panic (k (b, rest))) -> not_panic (de_read data n ≫= k).
Proof.
  intros H Hk. unfold de_read. rewrite (proj2 (Nat.ltb_ge _ _)) by lia. apply Hk. rewrite length_drop. lia.
Qed.

Lemma dec_vector_rows_total n : forall data, not_panic (dec_vector_rows n data).
Proof.
  induction n as [|n IH]; intros data; cbn [dec_vector_rows]; [done|]. apply needed_total. intros H.
  apply de_read_total; [lia|intros b rest Hl]. unfold de_len, de_read at 1. rewrite (proj2 (Nat.ltb_ge _ _)) by lia. cbn [mbind res_bind].
  apply bind_not_panic; [auto with readers|intros [v rest']]. apply bind_not_panic; [apply IH|done].
Qed.
#[local] Hint Resolve dec_vector_rows_total : readers.

Section total.
Context {J : Json} {L : EngineLib}.

Lemma try_deserialize_total data start : not_panic (try_deserialize_fields data start).
Proof. unfold try_deserialize_fields. by reader_total. Qed.
#[local] Hint Resolve try_deserialize_total : readers.

Lemma decode_object_total data : not_panic (decode_object data).
Proof. unfold decode_object. by reader_total. Qed.

Lemma dec_rows_total {H A} (head : bytes -> res (H * bytes)) (row : H -> Object -> A) n :
  (forall data, not_panic (head data)) -> forall data, not_panic (dec_rows head row n data).
Proof.
  intros Hh. induction n as [|n IH]; intros data; cbn [dec_rows]; [done|].
  apply bind_not_panic; [apply Hh|intros [h rest]]. apply bind_not_panic; [apply decode_object_total|intros [o rest']].
  apply bind_not_panic; [apply IH|done].
Qed.

Lemma decode_rows_total {H A} (head : bytes -> res (H * bytes)) (row : H -> Object -> A) data :
  (forall data, not_panic (head data)) -> not_panic (decode_rows_payload head row data).
Proof. intros Hh. apply bind_not_panic; [auto with readers|]. intros [n rest]. by apply dec_rows_total. Qed.

Lemma filter_reader_total data : not_panic (decode_subscribe_filter data).
Proof.
  unfold decode_subscribe_filter. apply bind_not_panic; [auto with readers|intros [fb rest]]. case_match; [done|].
  apply bind_not_panic; [by reader_total|intros [tn rest']]. apply bind_not_panic; [by reader_total|intros [oid rest'']].
  by reader_total.
Qed.

(** C31: no bytes from the network make a reader of the protocol panic: a frame
    read from any stream, the buffering reader in any state with any reads, and
    the decoder of every payload answer with a value or an error, never past the
    end of what they hold. *)
Theorem readers_never_panic :
  (forall stream, read_frame stream <> Panic) /\
  (forall r reads, fst (fst (next_frame r reads)) <> Ready Panic) /\
  (forall data,
     decode_query_payload data <> Panic /\ decode_error_payload data <> Panic /\ decode_execute_payload data <> Panic /\
     decode_prepared_payload data <> Panic /\ decode_unsubscribe_payload data <> Panic /\
     decode_vector_batch_payload data <> Panic /\ decode_subscribe_filter data <> Panic /\
     decode_objects_payload data <> Panic /\ decode_scored_payload data <> Panic /\
     decode_reranked_payload data <> Panic /\ decode_single_payload data <> Panic).
Proof.
  split; [apply read_frame_total|]. split; [intros; apply next_frame_total|]. intros data.
  split_and!; try apply dec_text_total; try apply dec_number_total.
  - unfold decode_vector_batch_payload. by reader_total.
  - apply filter_reader_total.
  - by apply decode_rows_total.
  - apply decode_rows_total. intros d. by reader_total.
  - apply decode_rows_total. intros d. apply needed_total. intros Hd. apply de_read_total; [lia|]. intros b rest Hl.
    apply de_read_total; [lia|done].
  - apply bind_not_panic; [apply decode_object_total|by intros []].
Qed.
End total.

(** A payload over [MAX_FRAME_PAYLOAD] is written all the same, and refused by
    whoever reads it. *)
Lemma oversized_frame_refused f rest : MAX_FRAME_PAYLOAD < len (payload f) -> is_u32 (5 + len (payload f)) ->
  read_frame (write_frame f ++ rest) = Err Io.
Proof.
  intros Hm Hu. unfold read_frame, write_frame. rewrite <- app_assoc, as_u32_small by done.
  rewrite try_read_app by apply length_be32. cbn [mbind res_bind]. rewrite from_be32 by done.
  unfold frame_len. rewrite (proj2 (Z.ltb_ge _ _)), (proj2 (Z.ltb_lt _ _)); [done|lia|]. unfold MAX_FRAME_PAYLOAD in Hm. lia.
Qed.

(** ** Examples *)

Definition ping : Frame := {| req_id := 7; kind := x01; payload := [x61; x62; x63] |}.
Definition pong : Frame := {| req_id := 8; kind := x80; payload := [] |}.

Lemma frames_arrive_witness :
  let wire := flat_map write_frame [ping; pong; ping] in
  exists r, calls frame_reader_new [] ([[take 3 wire]; []; [take 6 (drop 3 wire); take 10 (drop 9 wire)]] ++ repeat [] 4) = ([ping], r, []) /\
    unread r = take 7 (write_frame pong).
Proof.
  cbv zeta.
  destruct (frames_arrive [ping; pong; ping] [[take 3 (flat_map write_frame [ping; pong; ping])]; [];
      [take 6 (drop 3 (flat_map write_frame [ping; pong; ping])); take 10 (drop 9 (flat_map write_frame [ping; pong; ping]))]]
      (drop 19 (flat_map write_frame [ping; pong; ping]))) as (d & rest & r & Hc & Ef & Eb & Hi & _).
  - repeat constructor; by vm_compute.
  - repeat constructor; by vm_compute.
  - by vm_compute.
  - exists r. cbn [length] in Hc. rewrite Hc. assert (d = [ping]) as ->; [|split; [done|]].
    + apply (f_equal (fun x => fst (fst x))) in Hc. by vm_compute in Hc.
    + apply (app_inv_head (flat_map write_frame [ping])). rewrite <- Eb. by vm_compute.
Defined.

Definition sent_fields : FieldMap := [([x61], VI32 (-7)); ([x62], VString [xc3; xa9])].
Definition sent_rows : list (Object * Z * option Z) :=
  [({| o_type := [x55]; o_id := 1; o_fields := sent_fields; o_raw := None |}, 0x3f800000, Some 0x40000000);
   ({| o_type := [x55]; o_id := 2; o_fields := []; o_raw := Some (serialize_fields (rev sent_fields)) |}, 0x3f000000, None)].

Lemma results_round_trip_witness :
  decode_reranked_payload (encode_reranked_payload sent_rows)
    = Ok (map (fun r => (received (fst (fst r)) sent_fields, snd (fst r), snd r)) sent_rows) /\
  encode_reranked_payload sent_rows <> [].
Proof.
  split; [|by vm_compute]. apply (results_round_trip (fun _ => sent_fields) sent_rows).
  - split; by vm_compute.
  - assert (Hf : Forall field_ok sent_fields).
    { apply Forall_cons_2; [|apply Forall_cons_2; [|by apply Forall_nil_2]]; repeat split; by vm_compute. }
    assert (Hs : bsorted sent_fields) by (repeat constructor).
    apply Forall_cons_2; [|apply Forall_cons_2; [|by apply Forall_nil_2]];
      (split; [|split; [split; by vm_compute|]]); [|split; [split|]; by vm_compute| |done].
    + split; [split; [done|split; by vm_compute]|split; by vm_compute|done|done|split; by vm_compute|done].
    + split; [split; [done|split; by vm_compute]|split; by vm_compute|done|done|split; by vm_compute|].
      exists (rev sent_fields). split; [symmetry; apply Permutation_rev|done].
Defined.
