(* ===== verification/QueryParser.v ===== *)
(** * The query language: parser (crates/rhypedb-query/src/parser.rs)

    A recursive-descent parser.  Its state is what is left of the input and the
    position at which that starts, so a slice [input[start..pos]] is what was
    consumed.  Loops and the recursion through parentheses take the number of
    bytes left as fuel ([QFuel] when it runs out, which [QueryParserProps] shows
    never happens).  Errors keep their position; their messages are left out. *)

From Stdlib Require Import ZArith Lia Bool List Strings.Byte Strings.String.
From stdpp Require Import base tactics option list.
From S2P Require Import Prelude ByteMap Utf8 SchemaParser Serde QueryPlan.

Local Open Scope Z_scope.
Local Open Scope list_scope.

Record QParser := { q_rest : bytes; q_pos : Z }.

Definition QP (A : Type) : Type := QParser -> qres (A * QParser).
Definition q_ret {A} (a : A) : QP A := fun p => QOk (a, p).
Definition q_bind {A B} (m : QP A) (k : A -> QP B) : QP B := fun p =>
  match m p with QOk (a, p) => k a p | QErr e => QErr e | QPanic => QPanic | QFuel => QFuel end.

Declare Scope query_parser_scope.
Delimit Scope query_parser_scope with query_parser.
Notation "x <- m ;; k" := (q_bind m (fun x => k))
  (at level 100, m at next level, right associativity) : query_parser_scope.
Local Open Scope query_parser_scope.

(** ** Lexing *)

Definition q_new (input : bytes) : QParser := {| q_rest := input; q_pos := 0 |}.
Definition q_is_eof (p : QParser) : bool := match q_rest p with [] => true | _ => false end.
Definition q_peek (p : QParser) : option bytes := fst <$> next_char (q_rest p).

Definition q_advance (p : QParser) : option (bytes * QParser) :=
  '(ch, r) ← next_char (q_rest p); Some (ch, {| q_rest := r; q_pos := q_pos p + len ch |}).

(** [self.pos += n] over text that was looked at. *)
Definition q_move (n : nat) (p : QParser) : QParser := {| q_rest := drop n (q_rest p); q_pos := q_pos p + Z.of_nat n |}.

Definition q_error {A} : QP A := fun p => QErr (QParse (q_pos p)).

Definition q_peek_is (c : bytes) (p : QParser) : bool := match q_peek p with Some ch => beqb ch c | None => false end.
Definition at_char (c : bytes) : QP bool := fun p => QOk (q_peek_is c p, p).
Definition q_next (p : QParser) : QParser := match q_advance p with Some (_, q) => q | None => p end.
Definition adv : QP () := fun p => QOk ((), q_next p).

Fixpoint q_skip_loop (fuel : nat) (p : QParser) : QParser :=
  match fuel with
  | O => p
  | S fuel => match q_advance p with Some (ch, q) => if is_whitespace ch then q_skip_loop fuel q else p | None => p end
  end.

Definition q_skip (p : QParser) : QParser := q_skip_loop (length (q_rest p)) p.
Definition q_skip_ws : QP () := fun p => QOk ((), q_skip p).

Definition expect_char (expected : bytes) : QP () :=
  _ <- q_skip_ws ;;
  fun p => match q_advance p with Some (ch, q) => if beqb ch expected then QOk ((), q) else q_error q | None => q_error p end.

Definition expect_str (s : bytes) : QP () :=
  _ <- q_skip_ws ;; fun p => if starts_with (q_rest p) s then QOk ((), q_move (length s) p) else q_error p.

(** The loops that advance over the characters of a class. *)
Fixpoint q_take (f : bytes -> bool) (fuel : nat) (p : QParser) : bytes * QParser :=
  match fuel with
  | O => ([], p)
  | S fuel =>
      match q_advance p with
      | Some (ch, q) => if f ch then let '(s, q) := q_take f fuel q in (ch ++ s, q) else ([], p)
      | None => ([], p)
      end
  end.

Definition q_chars (f : bytes -> bool) (p : QParser) : bytes * QParser := q_take f (length (q_rest p)) p.

(** One optional character. *)
Definition q_optional (f : bytes -> bool) (p : QParser) : bytes * QParser :=
  match q_advance p with Some (ch, q) => if f ch then (ch, q) else ([], p) | None => ([], p) end.

Definition is_minus (c : bytes) : bool := beqb c (bs "-").

(** [str::parse::<i64>] of an optional minus and digits. *)
Definition parse_i64 (sign digits : bytes) : option Z :=
  match digits with
  | [] => None
  | _ =>
      let v := if is_minus sign then - digits_value digits else digits_value digits in
      if (- 2 ^ 63 <=? v) && (v <? 2 ^ 63) then Some v else None
  end.

Section parser.
Context {C : CharClass} {SJ : SerdeJson}.

Definition q_parse_ident : QP bytes :=
  _ <- q_skip_ws ;;
  fun p => let '(s, q) := q_chars ident_char p in match s with [] => q_error q | _ => QOk (s, q) end.

Definition parse_int : QP Z :=
  _ <- q_skip_ws ;;
  fun p =>
    let '(sign, q) := q_optional is_minus p in
    let '(digits, q) := q_chars is_ascii_digit q in
    match digits with [] => q_error q | _ => match parse_i64 sign digits with Some v => QOk (v, q) | None => q_error q end end.

Definition parse_count : QP Z := n <- parse_int ;; if n <? 0 then q_error else q_ret n.

(** The fraction and the exponent of a number, each with whether it was there. *)
Definition q_fraction (p : QParser) : bytes * bool * QParser :=
  if q_peek_is (bs ".") p then let '(ds, q) := q_chars is_ascii_digit (q_next p) in (bs "." ++ ds, true, q) else ([], false, p).

Definition q_exponent (p : QParser) : bytes * bool * QParser :=
  let '(e, q) := q_optional (fun c => beqb c (bs "e") || beqb c (bs "E")) p in
  match e with
  | [] => ([], false, p)
  | _ =>
      let '(sign, q) := q_optional (fun c => beqb c (bs "+") || beqb c (bs "-")) q in
      let '(ds, q) := q_chars is_ascii_digit q in
      match ds with [] => ([], false, p) | _ => (e ++ sign ++ ds, true, q) end
  end.

Definition parse_number : QP Literal :=
  _ <- q_skip_ws ;;
  fun p =>
    let '(sign, q) := q_optional is_minus p in
    let '(digits, q) := q_chars is_ascii_digit q in
    let '(frac, has_frac, q) := q_fraction q in
    let '(exp, has_exp, q) := q_exponent q in
    if has_frac || has_exp then
      match parse_f64 (sign ++ digits ++ frac ++ exp) with Some bits => QOk (LitFloat bits, q) | None => q_error q end
    else
      match parse_i64 sign digits with Some v => QOk (LitInt v, q) | None => q_error q end.

(** ** Literals *)

(** An escaped character: a known escape, or itself behind its backslash. *)
Definition unescape (e : bytes) : bytes :=
  if beqb e [x22] then [x22]
  else if beqb e [x5c] then [x5c]
  else if beqb e (bs "n") then [x0a]
  else if beqb e (bs "t") then [x09]
  else if beqb e (bs "r") then [x0d]
  else [x5c] ++ e.

Fixpoint q_string_loop (fuel : nat) (out : bytes) : QP bytes := fun p =>
  match fuel with
  | O => QFuel
  | S fuel =>
      match q_advance p with
      | None => q_error p
      | Some (ch, q) =>
          if beqb ch [x22] then QOk (out, q)
          else if beqb ch [x5c] then
            match q_advance q with Some (e, q) => q_string_loop fuel (out ++ unescape e) q | None => q_error q end
          else q_string_loop fuel (out ++ ch) q
      end
  end.

Definition parse_string_literal : QP bytes :=
  _ <- q_skip_ws ;; _ <- expect_char [x22] ;; fun p => q_string_loop (S (length (q_rest p))) [] p.

(** The balanced span of a container. *)
Fixpoint json_span (fuel : nat) (depth : nat) (in_string escaped : bool) (text : bytes) : QP bytes := fun p =>
  match fuel with
  | O => QFuel
  | S fuel =>
      match q_advance p with
      | None => q_error p
      | Some (ch, q) =>
          let text := text ++ ch in
          if in_string then
            if escaped then json_span fuel depth true false text q
            else if beqb ch [x5c] then json_span fuel depth true true text q
            else if beqb ch [x22] then json_span fuel depth false false text q
            else json_span fuel depth true false text q
          else if beqb ch [x22] then json_span fuel depth true escaped text q
          else if beqb ch (bs "{") || beqb ch (bs "[") then json_span fuel (S depth) false escaped text q
          else if beqb ch (bs "}") || beqb ch (bs "]") then
            match depth with
            | O => QPanic
            | S O => QOk (text, q)
            | S depth => json_span fuel depth false escaped text q
            end
          else json_span fuel depth false escaped text q
      end
  end.

Definition parse_json_container : QP JsonValue :=
  _ <- q_skip_ws ;;
  text <- (fun p => json_span (S (length (q_rest p))) 0 false false [] p) ;;
  match json_tree_from_slice text with Some j => q_ret j | None => q_error end.

Definition parse_literal : QP Literal :=
  _ <- q_skip_ws ;;
  fun p =>
    match q_peek p with
    | Some ch =>
        if beqb ch [x22] then (s <- parse_string_literal ;; q_ret (LitString s)) p
        else if beqb ch (bs "{") || beqb ch (bs "[") then (j <- parse_json_container ;; q_ret (LitJson j)) p
        else if is_ascii_digit ch || beqb ch (bs "-") then parse_number p
        else if beqb ch (bs "t") then (_ <- expect_str (bs "true") ;; q_ret (LitBool true)) p
        else if beqb ch (bs "f") then (_ <- expect_str (bs "false") ;; q_ret (LitBool false)) p
        else if beqb ch (bs "n") then (_ <- expect_str (bs "null") ;; q_ret LitNull) p
        else q_error p
    | None => q_error p
    end.

(** [if self.peek() == Some(',') { self.advance(); }]. *)
Definition optional_comma : QP () := _ <- q_skip_ws ;; c <- at_char (bs ",") ;; if c : bool then adv else q_ret tt.

Fixpoint object_loop (fuel : nat) (fields : LiteralMap) : QP LiteralMap :=
  match fuel with
  | O => fun _ => QFuel
  | S fuel =>
      _ <- q_skip_ws ;;
      close <- at_char (bs "}") ;;
      if close : bool then _ <- adv ;; q_ret fields
      else
        name <- q_parse_ident ;;
        _ <- expect_char (bs ":") ;;
        value <- parse_literal ;;
        _ <- optional_comma ;;
        object_loop fuel (bm_insert name value fields)
  end.

Definition parse_object : QP LiteralMap :=
  _ <- expect_char (bs "{") ;; fun p => object_loop (S (length (q_rest p))) [] p.

(** ** Predicates *)

Definition parse_compare_op : QP QueryOp :=
  _ <- q_skip_ws ;;
  fun p =>
    let ahead := starts_with (q_rest p) in
    if ahead (bs "==") then QOk (QEq, q_move 2 p)
    else if ahead (bs "!=") then QOk (QNe, q_move 2 p)
    else if ahead (bs "<=") then QOk (QLe, q_move 2 p)
    else if ahead (bs ">=") then QOk (QGe, q_move 2 p)
    else if ahead (bs "<") then QOk (QLt, q_move 1 p)
    else if ahead (bs ">") then QOk (QGt, q_move 1 p)
    else q_error p.

(** What may follow a segment of a path. *)
Definition path_ends (p : QParser) : bool :=
  let ahead := starts_with (q_rest p) in
  ahead (bs "==") || ahead (bs "!=") || ahead (bs "<=") || ahead (bs ">=") || ahead (bs "<") || ahead (bs ">") || ahead (bs ".contains(").

(** The segments after the first. *)
Fixpoint path_loop (fuel : nat) (path : bytes) : QP bytes := fun p =>
  match fuel with
  | O => QFuel
  | S fuel =>
      if q_peek_is (bs ".") p then
        match q_peek (q_next p) with
        | Some ch =>
            if is_alphabetic ch || beqb ch (bs "_") then
              match q_parse_ident (q_next p) with
              | QOk (next, q) =>
                  if beqb next (bs "contains") && q_peek_is (bs "(") q then QOk (path, p)
                  else if path_ends (q_skip q) then path_loop fuel (path ++ bs "." ++ next) (q_skip q)
                  else QOk (path, p)
              | QErr e => QErr e
              | QPanic => QPanic
              | QFuel => QFuel
              end
            else QOk (path, p)
        | None => QOk (path, p)
        end
      else QOk (path, p)
  end.

Definition contains_call : QP bytes :=
  _ <- q_skip_ws ;;
  quote <- at_char [x22] ;;
  if quote : bool then needle <- parse_string_literal ;; _ <- q_skip_ws ;; _ <- expect_char (bs ")") ;; q_ret needle else q_error.

Definition parse_predicate_atom : QP Predicate :=
  _ <- expect_char (bs ".") ;;
  first <- q_parse_ident ;;
  path <- (fun p => path_loop (S (length (q_rest p))) first p) ;;
  _ <- q_skip_ws ;;
  fun p =>
    if starts_with (q_rest p) (bs ".contains(") then
      (needle <- contains_call ;; q_ret (PContains path needle)) (q_move (length (bs ".contains(")) p)
    else (op <- parse_compare_op ;; value <- parse_literal ;; q_ret (PCompare path op value)) p.

(** Operands separated by an operator, written in one of two ways. *)
Fixpoint operand_loop (join : Predicate -> Predicate -> Predicate) (sym word : bytes) (operand : QP Predicate)
    (fuel : nat) (left : Predicate) : QP Predicate := fun p =>
  match fuel with
  | O => QFuel
  | S fuel =>
      let p := q_skip p in
      let go n := (right <- operand ;; operand_loop join sym word operand fuel (join left right)) (q_move n p) in
      if starts_with (q_rest p) sym then go (length sym)
      else if starts_with (q_rest p) word then go (length word)
      else QOk (left, p)
  end.

Definition operands (join : Predicate -> Predicate -> Predicate) (sym word : bytes) (operand : QP Predicate) : QP Predicate :=
  left <- operand ;; fun p => operand_loop join sym word operand (S (length (q_rest p))) left p.

Definition parse_and_term (factor : QP Predicate) : QP Predicate := operands PAnd (bs "&&") (bs "and ") factor.

Fixpoint parse_predicate (fuel : nat) : QP Predicate :=
  match fuel with
  | O => fun _ => QFuel
  | S fuel =>
      let parse_predicate_factor :=
        _ <- q_skip_ws ;;
        group <- at_char (bs "(") ;;
        if group : bool then _ <- adv ;; inner <- parse_predicate fuel ;; _ <- expect_char (bs ")") ;; q_ret inner
        else parse_predicate_atom in
      operands POr (bs "||") (bs "or ") (parse_and_term parse_predicate_factor)
  end.

Definition predicate : QP Predicate := fun p => parse_predicate (S (length (q_rest p))) p.

(** ** Vectors *)

Fixpoint vector_loop (fuel : nat) (values : list Z) : QP (list Z) :=
  match fuel with
  | O => fun _ => QFuel
  | S fuel =>
      _ <- q_skip_ws ;;
      close <- at_char (bs "]") ;;
      if close : bool then _ <- adv ;; q_ret values
      else
        lit <- parse_number ;;
        val <- match lit with LitFloat f => q_ret (f64_as_f32 f) | LitInt i => q_ret (int_as_f32 i) | _ => q_error end ;;
        _ <- optional_comma ;;
        vector_loop fuel (values ++ [val])
  end.

Definition parse_vector_literal : QP (list Z) := _ <- expect_char (bs "[") ;; fun p => vector_loop (S (length (q_rest p))) [] p.

(** ** Sources and steps *)

Definition in_parens {A} (m : QP A) : QP A := _ <- expect_char (bs "(") ;; a <- m ;; _ <- expect_char (bs ")") ;; q_ret a.

(** [id] of [Type.get(id)]: an [i64] as [u64]. *)
Definition parse_id : QP Z := n <- parse_int ;; q_ret (as_u64 n).

Fixpoint rows_loop (fuel : nat) (rows : list LiteralMap) : QP (list LiteralMap) :=
  match fuel with
  | O => fun _ => QFuel
  | S fuel =>
      comma <- at_char (bs ",") ;;
      if comma : bool then
        _ <- adv ;;
        _ <- q_skip_ws ;;
        close <- at_char (bs "]") ;;
        if close : bool then q_ret rows
        else row <- parse_object ;; _ <- q_skip_ws ;; rows_loop fuel (rows ++ [row])
      else q_ret rows
  end.

Definition parse_rows : QP (list LiteralMap) :=
  _ <- q_skip_ws ;;
  _ <- expect_char (bs "[") ;;
  _ <- q_skip_ws ;;
  close <- at_char (bs "]") ;;
  rows <- (if close : bool then q_ret []
          else row <- parse_object ;; _ <- q_skip_ws ;; fun p => rows_loop (S (length (q_rest p))) [row] p) ;;
  _ <- expect_char (bs "]") ;;
  _ <- q_skip_ws ;;
  q_ret rows.

Definition parse_source : QP Source :=
  type_name <- q_parse_ident ;;
  _ <- q_skip_ws ;;
  dot <- at_char (bs ".") ;;
  if negb dot then q_ret (SrcAll type_name)
  else
    fun saved =>
      (_ <- adv ;;
       method <- q_parse_ident ;;
       _ <- q_skip_ws ;;
       if beqb method (bs "get") then id <- in_parens parse_id ;; q_ret (SrcGet type_name id)
       else if beqb method (bs "filter") then pr <- in_parens predicate ;; q_ret (SrcFilter type_name pr)
       else if beqb method (bs "create") then fields <- in_parens parse_object ;; q_ret (SrcCreate type_name fields)
       else if beqb method (bs "create_batch") then rows <- in_parens parse_rows ;; q_ret (SrcCreateBatch type_name rows)
       else fun _ => QOk (SrcAll type_name, saved)) saved.

(** The parameters of [similar] after [k]. *)
Fixpoint similar_params (fuel : nat) (ef rerank : option Z) : QP (option Z * option Z) :=
  match fuel with
  | O => fun _ => QFuel
  | S fuel =>
      _ <- q_skip_ws ;;
      comma <- at_char (bs ",") ;;
      if negb comma then q_ret (ef, rerank)
      else
        _ <- adv ;;
        _ <- q_skip_ws ;;
        close <- at_char (bs ")") ;;
        if close : bool then q_ret (ef, rerank)
        else
          name <- q_parse_ident ;;
          _ <- q_skip_ws ;;
          _ <- expect_char (bs ":") ;;
          n <- parse_count ;;
          if beqb name (bs "ef") then
            if is_some ef then q_error else if n =? 0 then q_error else similar_params fuel (Some n) rerank
          else if beqb name (bs "rerank") then
            if is_some rerank then q_error else similar_params fuel ef (Some n)
          else q_error
  end.

Definition similar_query : QP SimilarQuery :=
  _ <- q_skip_ws ;;
  text <- at_char [x22] ;;
  if text : bool then s <- parse_string_literal ;; q_ret (SimText s) else v <- parse_vector_literal ;; q_ret (SimVector v).

Definition similar_args : QP Step :=
  _ <- expect_char (bs ".") ;;
  field_name <- q_parse_ident ;;
  _ <- expect_char (bs ",") ;;
  query <- similar_query ;;
  _ <- expect_char (bs ",") ;;
  _ <- q_skip_ws ;;
  _ <- expect_str (bs "k:") ;;
  k <- parse_count ;;
  params <- (fun p => similar_params (S (length (q_rest p))) None None p) ;;
  q_ret (Similar field_name query k (fst params) (snd params)).

(** A comma at the end of [matches], and nothing behind it. *)
Definition matches_end : QP () :=
  _ <- q_skip_ws ;;
  comma <- at_char (bs ",") ;;
  if comma : bool then
    _ <- adv ;;
    _ <- q_skip_ws ;;
    close <- at_char (bs ")") ;;
    if close : bool then q_ret tt else _ <- q_parse_ident ;; q_error
  else q_ret tt.

Definition matches_args : QP Step :=
  _ <- q_skip_ws ;;
  _ <- expect_char (bs ".") ;;
  field_name <- q_parse_ident ;;
  _ <- q_skip_ws ;;
  _ <- expect_char (bs ",") ;;
  _ <- q_skip_ws ;;
  quote <- at_char [x22] ;;
  if negb quote then q_error
  else
    query <- parse_string_literal ;;
    _ <- q_skip_ws ;;
    _ <- expect_char (bs ",") ;;
    _ <- q_skip_ws ;;
    _ <- expect_str (bs "k:") ;;
    k <- parse_count ;;
    _ <- matches_end ;;
    q_ret (Matches field_name query k).

(** [Type.get(id)] as the target of a link. *)
Definition parse_target : QP (bytes * Z) :=
  target_type <- q_parse_ident ;;
  _ <- expect_char (bs ".") ;;
  _ <- expect_str (bs "get") ;;
  target_id <- in_parens parse_id ;;
  q_ret (target_type, target_id).

Definition link_args : QP Step :=
  target <- parse_target ;;
  _ <- q_skip_ws ;;
  comma <- at_char (bs ",") ;;
  edge_fields <- (if comma : bool then _ <- adv ;; parse_object else q_ret []) ;;
  q_ret (StepLink (fst target) (snd target) edge_fields).

Definition parse_function_step (name : bytes) : QP Step :=
  if beqb name (bs "filter") then pr <- in_parens predicate ;; q_ret (StepFilter pr)
  else if beqb name (bs "similar") then in_parens similar_args
  else if beqb name (bs "matches") then in_parens matches_args
  else if beqb name (bs "update") then fields <- in_parens parse_object ;; q_ret (StepUpdate fields)
  else if beqb name (bs "delete") then in_parens (q_ret StepDelete)
  else if beqb name (bs "link") then in_parens link_args
  else if beqb name (bs "unlink") then target <- in_parens parse_target ;; q_ret (StepUnlink (fst target) (snd target))
  else if beqb name (bs "limit") then count <- in_parens parse_count ;; q_ret (Limit count)
  else if beqb name (bs "offset") then count <- in_parens parse_count ;; q_ret (Offset count)
  else fun _ => QErr (QUnknownFunction name).

(** Whether a limit was seen on the collection at hand; [None] rejects the step. *)
Definition limit_after (saw_limit : bool) (s : Step) : option bool :=
  match s with
  | Limit _ => Some true
  | Traverse _ | Similar _ _ _ _ _ | Matches _ _ _ => Some false
  | Offset _ => if saw_limit then None else Some saw_limit
  | _ => Some saw_limit
  end.

Fixpoint steps_loop (fuel : nat) (saw_limit : bool) (steps : list Step) : QP (list Step) :=
  match fuel with
  | O => fun _ => QFuel
  | S fuel =>
      _ <- q_skip_ws ;;
      dot <- at_char (bs ".") ;;
      if negb dot then q_ret steps
      else
        _ <- adv ;;
        _ <- q_skip_ws ;;
        ident <- q_parse_ident ;;
        _ <- q_skip_ws ;;
        call <- at_char (bs "(") ;;
        step <- (if call : bool then parse_function_step ident else q_ret (Traverse ident)) ;;
        match limit_after saw_limit step with
        | Some saw_limit => steps_loop fuel saw_limit (steps ++ [step])
        | None => q_error
        end
  end.

Definition parse_query_body : QP Query :=
  source <- parse_source ;;
  steps <- (fun p => steps_loop (S (length (q_rest p))) false [] p) ;;
  q_ret {| q_source := source; q_steps := steps |}.

Definition parse_query (input : bytes) : qres Query :=
  '(query, p) ← parse_query_body (q_new input);
  let p := q_skip p in
  if q_is_eof p then QOk query else QErr (QParse (q_pos p)).

End parser.
