(* ===== verification/QueryParserProps.v ===== *)
(** * The query language: the parser ends

    On any text the parser ends without a panic, with a query that keeps the
    rules of the language or with an error at a position of the text
    ([parse_query_sound]). *)

From Stdlib Require Import ZArith Lia Bool List Strings.Byte Strings.String.
From stdpp Require Import base tactics option list.
From S2P Require Import Prelude ByteMap Utf8 Values SchemaParser SchemaSpec Serde QueryPlan QueryParser.

Local Open Scope Z_scope.
Local Open Scope query_parser_scope.

(** ** What a parser does to the text

    [qruns N n Q m]: on valid text of fewer than [N] bytes, [m] does not run out
    of fuel nor panics; when it succeeds it consumed at least [n] bytes, the rest
    is valid text and the result satisfies [Q]; when it fails the error is at a
    position of the text or names an unknown function. *)

(** [q] is where [p] is after [n] or more bytes. *)
Definition later (n : nat) (p q : QParser) : Prop :=
  (length (q_rest q) + n <= length (q_rest p))%nat /\ utf8_valid (q_rest q) = true /\
  q_pos q + len (q_rest q) = q_pos p + len (q_rest p).

Definition error_in (p : QParser) (e : QueryError) : Prop :=
  match e with
  | QParse pos => q_pos p <= pos <= q_pos p + len (q_rest p)
  | QUnknownFunction _ => True
  | _ => False
  end.

Definition qends {A} (n : nat) (Q : A -> Prop) (p : QParser) (r : qres (A * QParser)) : Prop :=
  match r with
  | QOk (a, q) => later n p q /\ Q a
  | QErr e => error_in p e
  | QPanic | QFuel => False
  end.

Definition qruns {A} (N n : nat) (Q : A -> Prop) (m : QP A) : Prop :=
  forall p, utf8_valid (q_rest p) = true -> (length (q_rest p) < N)%nat -> qends n Q p (m p).

Lemma later_refl p : utf8_valid (q_rest p) = true -> later 0 p p.
Proof. split; [lia|done]. Qed.

Lemma later_trans n m p q r : later n p q -> later m q r -> later (n + m) p r.
Proof. intros (A1 & _ & A2) (B1 & B2 & B3). split_and!; [lia|done|lia]. Qed.

Lemma later_weaken n m p q : (m <= n)%nat -> later n p q -> later m p q.
Proof. intros H (A & B & C). split_and!; [lia|done|done]. Qed.

Lemma later_any n p q : later n p q -> later 0 p q.
Proof. apply later_weaken. lia. Qed.

Lemma error_later n p q e : later n p q -> error_in q e -> error_in p e.
Proof.
  intros (A & _ & B). unfold error_in. destruct e; try done. pose proof (len_nonneg (q_rest q)). unfold len in *. lia.
Qed.

Lemma error_here p : error_in p (QParse (q_pos p)).
Proof. cbn. pose proof (len_nonneg (q_rest p)). lia. Qed.

Lemma qends_after {A} n m k (Q : A -> Prop) p q r : later n p q -> (k <= n + m)%nat -> qends m Q q r -> qends k Q p r.
Proof.
  intros Hq Hk. destruct r as [[a q']| | |]; cbn; [|by apply error_later with n|done..]. intros [H ?]. split; [|done].
  eapply later_weaken; [exact Hk|]. by eapply later_trans.
Qed.

Section runs.
Context {A B : Type}.

Lemma qruns_bind N n1 n2 (P : A -> Prop) (Q : B -> Prop) m k :
  qruns N n1 P m -> (forall a, P a -> qruns (N - n1) n2 Q (k a)) -> qruns N (n1 + n2) Q (q_bind m k).
Proof.
  intros Hm Hk p Hv Hl. unfold q_bind. specialize (Hm p Hv Hl). destruct (m p) as [[a q]| | |]; [|done..].
  destruct Hm as [Hq Ha]. specialize (Hk a Ha q (proj1 (proj2 Hq)) ltac:(destruct Hq; lia)).
  destruct (k a q) as [[b q']|e| |]; [|by eapply error_later|done..]. destruct Hk as [Hq' Hb]. split; [by eapply later_trans|done].
Qed.

Lemma qruns_weaken N N' n n' (P Q : A -> Prop) m :
  qruns N n P m -> (N' <= N)%nat -> (n' <= n)%nat -> (forall a, P a -> Q a) -> qruns N' n' Q m.
Proof.
  intros H HN Hn HPQ p Hv Hl. specialize (H p Hv ltac:(lia)). destruct (m p) as [[a q]| | |]; [|done..].
  destruct H as [H1 H2]. split; [by eapply later_weaken|auto].
Qed.

Lemma qruns_ret N (Q : A -> Prop) a : Q a -> qruns N 0 Q (q_ret a).
Proof. intros H p Hv Hl. cbn. split; [by apply later_refl|done]. Qed.

Lemma qruns_error N n (Q : A -> Prop) : qruns N n Q q_error.
Proof. intros p Hv Hl. apply error_here. Qed.

Lemma qruns_if N n (Q : A -> Prop) (b : bool) m1 m2 :
  qruns N n Q m1 -> qruns N n Q m2 -> qruns N n Q (if b then m1 else m2).
Proof. by destruct b. Qed.

(** A loop started with the length of the text as its fuel. *)
Lemma qruns_fuel N n (Q : A -> Prop) (m : nat -> QP A) :
  (forall k, qruns k n Q (m k)) -> qruns N n Q (fun p => m (S (length (q_rest p))) p).
Proof. intros H p Hv Hl. apply (H (S (length (q_rest p)))); [done|lia]. Qed.

End runs.

Lemma qruns_bind0 {A B} N n (P : A -> Prop) (Q : B -> Prop) m k :
  qruns N 0 P m -> (forall a, P a -> qruns N n Q (k a)) -> qruns N n Q (q_bind m k).
Proof. intros Hm Hk. eapply (qruns_bind N 0 n); [done|]. intros a Ha. rewrite Nat.sub_0_r. by apply Hk. Qed.

Lemma qruns_bind1 {A B} N n (P : A -> Prop) (Q : B -> Prop) m k :
  (n <= 1)%nat -> qruns N 1 P m -> (forall a, P a -> qruns (N - 1) 0 Q (k a)) -> qruns N n Q (q_bind m k).
Proof.
  intros Hn Hm Hk. apply (qruns_weaken N N (1 + 0) n Q Q); [|lia|lia|done]. by eapply qruns_bind.
Qed.

(** ** Lexing *)

Lemma q_advance_spec p c q : q_advance p = Some (c, q) ->
  q_rest p = c ++ q_rest q /\ (length (q_rest q) < length (q_rest p))%nat /\
  (utf8_valid (q_rest p) = true -> whole c /\ later 1 p q).
Proof.
  unfold q_advance. destruct (next_char (q_rest p)) as [[c' r]|] eqn:E; [|done]. cbn. intros [= -> <-]. cbn [q_rest].
  destruct (next_char_split _ _ _ E) as [Es Hl]. split_and!; [done|done|]. intros Hv.
  destruct (next_char_valid _ _ _ Hv E) as [Hw Hv']. split; [done|]. split_and!; cbn [q_rest q_pos]; [lia|done|].
  rewrite Es. unfold len. rewrite length_app. lia.
Qed.

(** No space comes next. *)
Definition no_blank (p : QParser) : Prop :=
  match next_char (q_rest p) with Some (c, _) => is_whitespace c = false | None => True end.

Lemma q_skip_loop_spec fuel p : utf8_valid (q_rest p) = true -> (length (q_rest p) <= fuel)%nat ->
  later 0 p (q_skip_loop fuel p) /\ no_blank (q_skip_loop fuel p).
Proof.
  revert p. induction fuel as [|fuel IH]; intros p Hv Hl; cbn [q_skip_loop].
  { split; [by apply later_refl|]. unfold no_blank. destruct (q_rest p); [done|cbn in Hl; lia]. }
  destruct (q_advance p) as [[c q]|] eqn:E.
  2:{ split; [by apply later_refl|]. unfold no_blank, q_advance in *. by destruct (next_char (q_rest p)) as [[]|]. }
  destruct (q_advance_spec _ _ _ E) as (E0 & E1 & E2). destruct (E2 Hv) as [Hw Hq].
  destruct (is_whitespace c) eqn:Ew.
  - destruct (IH q (proj1 (proj2 Hq)) ltac:(lia)) as [H1 H2]. split; [|done]. change 0%nat with (0 + 0)%nat.
    eapply later_trans; [by eapply later_any|done].
  - split; [by apply later_refl|]. unfold no_blank. by rewrite E0, next_char_app.
Qed.

Lemma q_skip_spec p : utf8_valid (q_rest p) = true -> later 0 p (q_skip p) /\ no_blank (q_skip p).
Proof. intros H. by apply q_skip_loop_spec. Qed.

Lemma q_skip_id p : no_blank p -> q_skip p = p.
Proof.
  unfold q_skip, no_blank. destruct (q_rest p) as [|b r] eqn:Er; [done|]. cbn [length q_skip_loop]. unfold q_advance. rewrite Er.
  destruct (next_char (b :: r)) as [[c s]|]; cbn; [by intros ->|done].
Qed.

Lemma qruns_skip N : qruns N 0 (fun _ => True) q_skip_ws.
Proof. intros p Hv Hl. cbn. split; [|done]. by apply q_skip_spec. Qed.

Lemma qruns_at N c : qruns N 0 (fun _ => True) (at_char c).
Proof. intros p Hv Hl. cbn. split; [by apply later_refl|done]. Qed.

Lemma later_next p : utf8_valid (q_rest p) = true -> later 0 p (q_next p).
Proof.
  intros Hv. unfold q_next. destruct (q_advance p) as [[c q]|] eqn:E; [|by apply later_refl].
  apply q_advance_spec in E as (_ & _ & E). destruct (E Hv). by eapply later_any.
Qed.

Lemma qruns_adv N : qruns N 0 (fun _ => True) adv.
Proof. intros p Hv Hl. cbn. split; [by apply later_next|done]. Qed.

Lemma later_next1 p c : utf8_valid (q_rest p) = true -> q_peek_is c p = true -> later 1 p (q_next p).
Proof.
  intros Hv. unfold q_next, q_peek_is, q_peek. destruct (next_char (q_rest p)) as [[ch r]|] eqn:E; [|done]. intros _.
  destruct (q_advance p) as [[c' q']|] eqn:Ea; [|unfold q_advance in Ea; by rewrite E in Ea].
  apply q_advance_spec in Ea as (_ & _ & Ea). by destruct (Ea Hv).
Qed.

(** A character that is taken when it is next. *)
Lemma qruns_taken {A} N n (Q : A -> Prop) c (m1 : () -> QP A) m2 :
  qruns (N - 1) 0 Q (m1 ()) -> qruns N n Q m2 -> (n <= 1)%nat ->
  qruns N n Q (b <- at_char c ;; if b : bool then (x <- adv ;; m1 x) else m2).
Proof.
  intros H1 H2 Hn p Hv Hl. unfold q_bind at 1, at_char. destruct (q_peek_is c p) eqn:E; [|by apply H2].
  pose proof (later_next1 p c Hv E) as Hq. unfold q_bind, adv. eapply (qends_after 1 0); [exact Hq|lia|].
  apply H1; [apply Hq|destruct Hq; lia].
Qed.

Lemma qruns_expect_char N c : qruns N 1 (fun _ => True) (expect_char c).
Proof.
  change 1%nat with (0 + 1)%nat. eapply qruns_bind; [apply qruns_skip|]. intros _ _ p Hv Hl.
  destruct (q_advance p) as [[ch q]|] eqn:E; [|apply error_here]. apply q_advance_spec in E as (_ & _ & E).
  destruct (E Hv) as [_ Hq]. destruct (beqb ch c); [done|]. eapply error_later; [done|apply error_here].
Qed.

(** Text that was looked at is ASCII, so what follows it is text. *)
Lemma later_move p s : utf8_valid (q_rest p) = true -> starts_with (q_rest p) s = true -> forallb (fun b => b2z b <? 128) s = true ->
  later (length s) p (q_move (length s) p).
Proof.
  intros Hv Hs Ha. apply starts_with_true in Hs as [r Hr]. unfold q_move. rewrite Hr in *. rewrite drop_mid by done.
  unfold later. cbn [q_rest q_pos]. rewrite Hr. split_and!; [rewrite length_app; lia| |unfold len; rewrite length_app; lia].
  clear Hr. revert Ha Hv. induction s as [|b s IH]; [done|]. cbn [forallb app utf8_valid]. intros [Hb Ha]%andb_true_iff. rewrite Hb. auto.
Qed.

Lemma qruns_expect_str N s : forallb (fun b => b2z b <? 128) s = true -> qruns N (length s) (fun _ => True) (expect_str s).
Proof.
  intros Ha. change (length s) with (0 + length s)%nat. eapply qruns_bind; [apply qruns_skip|]. intros _ _ p Hv Hl.
  destruct (starts_with (q_rest p) s) eqn:E; [|apply error_here]. split; [|done]. by apply later_move.
Qed.

Lemma q_take_spec f fuel p s q : utf8_valid (q_rest p) = true -> q_take f fuel p = (s, q) ->
  chars f s /\ q_rest p = s ++ q_rest q /\ later (length s) p q.
Proof.
  revert p s q. induction fuel as [|fuel IH]; intros p s q Hv; cbn [q_take].
  { intros [= <- <-]. split_and!; [constructor|done|by apply later_refl]. }
  destruct (q_advance p) as [[c q0]|] eqn:E.
  2:{ intros [= <- <-]. split_and!; [constructor|done|by apply later_refl]. }
  apply q_advance_spec in E as (E0 & E1 & E2). destruct (E2 Hv) as [Hc Hq]. destruct (f c) eqn:Ef.
  2:{ intros [= <- <-]. split_and!; [constructor|done|by apply later_refl]. }
  destruct (q_take f fuel q0) as [s' q'] eqn:Et. intros [= <- <-].
  destruct (IH _ _ _ (proj1 (proj2 Hq)) Et) as (H1 & H2 & H3). split_and!; [by constructor|by rewrite E0, H2, app_assoc|].
  destruct Hq as (Q1 & Q2 & Q3), H3 as (R1 & R2 & R3). split_and!; [|done|lia].
  rewrite E0, H2, !length_app. lia.
Qed.

Lemma q_chars_spec f p s q : utf8_valid (q_rest p) = true -> q_chars f p = (s, q) ->
  chars f s /\ q_rest p = s ++ q_rest q /\ later (length s) p q.
Proof. apply q_take_spec. Qed.

Lemma q_optional_spec f p s q : utf8_valid (q_rest p) = true -> q_optional f p = (s, q) ->
  later (length s) p q /\ (s = [] \/ (f s = true /\ whole s)).
Proof.
  intros Hv. unfold q_optional. destruct (q_advance p) as [[c q0]|] eqn:E.
  2:{ intros [= <- <-]. split; [by apply later_refl|auto]. }
  apply q_advance_spec in E as (E0 & E1 & E2). destruct (E2 Hv) as [Hc Hq]. destruct (f c) eqn:Ef.
  - intros [= <- <-]. split; [|auto]. destruct Hq as (Q1 & Q2 & Q3). split_and!; [rewrite E0, length_app; lia|done|lia].
  - intros [= <- <-]. split; [by apply later_refl|auto].
Qed.

(** ** What is parsed *)

Section spec.
Context {C : CharClass} {SJ : SerdeJson}.

Definition lit_wf (l : Literal) : Prop := match l with LitInt i => is_i64 i | _ => True end.

Definition fields_wf (m : LiteralMap) : Prop := bsorted m /\ Forall (fun e => ident_ok (fst e) /\ lit_wf (snd e)) m.

Inductive path_wf : bytes -> Prop :=
| path_one n : ident_ok n -> path_wf n
| path_dot p n : path_wf p -> ident_ok n -> path_wf (p ++ bs "." ++ n).

Fixpoint pred_wf (p : Predicate) : Prop :=
  match p with
  | PCompare path _ value => path_wf path /\ lit_wf value
  | PContains path _ => path_wf path
  | PAnd a b | POr a b => pred_wf a /\ pred_wf b
  end.

(** A count is a [usize] that came from an [i64]. *)
Definition is_count (n : Z) : Prop := 0 <= n < 2 ^ 63.

Definition source_wf (s : Source) : Prop :=
  match s with
  | SrcGet t id => ident_ok t /\ is_u64 id
  | SrcFilter t p => ident_ok t /\ pred_wf p
  | SrcCreate t fs => ident_ok t /\ fields_wf fs
  | SrcCreateBatch t rows => ident_ok t /\ Forall fields_wf rows
  | SrcAll t => ident_ok t
  end.

Definition opt_is (P : Z -> Prop) (o : option Z) : Prop := match o with Some n => P n | None => True end.

Definition step_wf (s : Step) : Prop :=
  match s with
  | Traverse f => ident_ok f
  | StepFilter p => pred_wf p
  | Similar f _ k ef rerank => ident_ok f /\ is_count k /\ opt_is (fun n => 1 <= n < 2 ^ 63) ef /\ opt_is is_count rerank
  | Matches f _ k => ident_ok f /\ is_count k
  | StepUpdate fs => fields_wf fs
  | StepDelete => True
  | StepLink t id fs => ident_ok t /\ is_u64 id /\ fields_wf fs
  | StepUnlink t id => ident_ok t /\ is_u64 id
  | Limit n | Offset n => is_count n
  end.

(** No offset after a limit on the same collection. *)
Fixpoint pages_ok (saw_limit : bool) (steps : list Step) : Prop :=
  match steps with
  | [] => True
  | s :: steps => match limit_after saw_limit s with Some saw => pages_ok saw steps | None => False end
  end.

Definition query_wf (q : Query) : Prop := source_wf (q_source q) /\ Forall step_wf (q_steps q) /\ pages_ok false (q_steps q).

(** ** Numbers *)

Lemma qruns_ident N : qruns N 1 ident_ok q_parse_ident.
Proof.
  change 1%nat with (0 + 1)%nat. unfold q_parse_ident.
  intros p Hv Hl. unfold q_bind, q_skip_ws. destruct (q_skip_spec p Hv) as [Hs Hb].
  destruct (q_chars ident_char (q_skip p)) as [s q] eqn:E. destruct (q_chars_spec _ _ _ _ (proj1 (proj2 Hs)) E) as (E1 & E2 & E3).
  destruct s as [|b s]; [by eapply error_later, error_here; eapply (later_trans 0 0)|].
  split.
  { eapply later_trans; [exact Hs|]. eapply later_weaken; [|exact E3]. cbn. lia. }
  inversion E1 as [|c s' Hw Hf Hc Heq]. exists c, s'. split_and!; try done.
  unfold no_blank in Hb. by rewrite E2, <- Heq, <- app_assoc, next_char_app in Hb.
Qed.

Lemma parse_i64_range sign ds v : parse_i64 sign ds = Some v -> is_i64 v.
Proof.
  unfold parse_i64. destruct ds; [done|]. cbv zeta. destruct (_ && _) eqn:E; [|done]. intros [= <-].
  apply andb_true_iff in E as [E1 E2]. split; lia.
Qed.

Lemma qruns_int N : qruns N 1 is_i64 parse_int.
Proof.
  intros p Hv Hl. unfold parse_int, q_bind, q_skip_ws. destruct (q_skip_spec p Hv) as [Hs _].
  destruct (q_optional is_minus (q_skip p)) as [sg q1] eqn:E1. destruct (q_optional_spec _ _ _ _ (proj1 (proj2 Hs)) E1) as [H1 _].
  destruct (q_chars is_ascii_digit q1) as [ds q2] eqn:E2. destruct (q_chars_spec _ _ _ _ (proj1 (proj2 H1)) E2) as (_ & _ & H2).
  assert (H0 : later (length ds) p q2).
  { eapply later_weaken; [|eapply later_trans; [exact Hs|]; eapply later_trans; [exact H1|exact H2]]. lia. }
  destruct ds as [|d ds]; [by eapply error_later, error_here|].
  destruct (parse_i64 sg (d :: ds)) as [v|] eqn:Ev; [|by eapply error_later, error_here].
  split; [eapply later_weaken; [|exact H0]; cbn; lia|by eapply parse_i64_range].
Qed.

Lemma qruns_count N : qruns N 1 is_count parse_count.
Proof.
  apply (qruns_weaken N N (1 + 0) 1 is_count is_count); [|lia..|done]. eapply qruns_bind; [apply qruns_int|].
  intros n [H1 H2]. destruct (Z.ltb_spec n 0); [apply qruns_error|]. apply qruns_ret. by split.
Qed.

Lemma qruns_id N : qruns N 1 is_u64 parse_id.
Proof.
  apply (qruns_weaken N N (1 + 0) 1 is_u64 is_u64); [|lia..|done]. eapply qruns_bind; [apply qruns_int|].
  intros n _. apply qruns_ret. apply Z.mod_pos_bound. lia.
Qed.

Lemma q_fraction_spec p s b q : utf8_valid (q_rest p) = true -> q_fraction p = (s, b, q) ->
  later (if b then 1 else 0) p q.
Proof.
  intros Hv. unfold q_fraction. destruct (q_peek_is (bs ".") p) eqn:Ep.
  2:{ intros [= <- <- <-]. by apply later_refl. }
  pose proof (later_next1 p _ Hv Ep) as Hn.
  destruct (q_chars _ (q_next p)) as [ds q'] eqn:E. destruct (q_chars_spec _ _ _ _ (proj1 (proj2 Hn)) E) as (_ & _ & H).
  intros [= <- <- <-]. eapply later_weaken; [|by eapply later_trans]. lia.
Qed.

Lemma q_exponent_spec p s b q : utf8_valid (q_rest p) = true -> q_exponent p = (s, b, q) -> later (if b then 1 else 0) p q.
Proof.
  intros Hv. unfold q_exponent. destruct (q_optional _ p) as [e q1] eqn:E1. destruct (q_optional_spec _ _ _ _ Hv E1) as [H1 _].
  destruct e as [|e0 e]; [intros [= <- <- <-]; by apply later_refl|].
  destruct (q_optional _ q1) as [sg q2] eqn:E2. destruct (q_optional_spec _ _ _ _ (proj1 (proj2 H1)) E2) as [H2 _].
  destruct (q_chars _ q2) as [ds q3] eqn:E3. destruct (q_chars_spec _ _ _ _ (proj1 (proj2 H2)) E3) as (_ & _ & H3).
  destruct ds; [intros [= <- <- <-]; by apply later_refl|]. intros [= <- <- <-].
  eapply later_weaken; [|eapply later_trans; [exact H1|]; eapply later_trans; [exact H2|exact H3]]. cbn. lia.
Qed.

Lemma qruns_number N : qruns N 1 lit_wf parse_number.
Proof.
  intros p Hv Hl. unfold parse_number, q_bind, q_skip_ws. destruct (q_skip_spec p Hv) as [Hs _].
  destruct (q_optional is_minus (q_skip p)) as [sg q1] eqn:E1. destruct (q_optional_spec _ _ _ _ (proj1 (proj2 Hs)) E1) as [H1 _].
  destruct (q_chars is_ascii_digit q1) as [ds q2] eqn:E2. destruct (q_chars_spec _ _ _ _ (proj1 (proj2 H1)) E2) as (_ & _ & H2).
  destruct (q_fraction q2) as [[fr hf] q3] eqn:E3. pose proof (q_fraction_spec _ _ _ _ (proj1 (proj2 H2)) E3) as H3.
  destruct (q_exponent q3) as [[ex he] q4] eqn:E4. pose proof (q_exponent_spec _ _ _ _ (proj1 (proj2 H3)) E4) as H4.
  pose proof (later_trans _ _ _ _ _ (later_trans _ _ _ _ _ (later_trans _ _ _ _ _ (later_trans _ _ _ _ _ Hs H1) H2) H3) H4) as H.
  assert (error_in p (QParse (q_pos q4))) as He by (eapply error_later; [exact H|apply error_here]).
  destruct (hf || he) eqn:Eb.
  - destruct (parse_f64 _); [|done]. split; [|done]. eapply later_weaken; [|exact H]. destruct hf, he; done || lia.
  - destruct (parse_i64 sg ds) as [v|] eqn:Ev; [|done]. split; [|by eapply parse_i64_range].
    eapply later_weaken; [|exact H]. destruct ds; [done|]. cbn [length]. lia.
Qed.

(** ** Strings and documents *)

Lemma qruns_string_loop fuel : forall out, qruns fuel 1 (fun _ => True) (q_string_loop fuel out).
Proof.
  induction fuel as [|fuel IH]; intros out p Hv Hl; [lia|]. cbn [q_string_loop].
  destruct (q_advance p) as [[ch q]|] eqn:E; [|apply error_here]. apply q_advance_spec in E as (_ & El & E). destruct (E Hv) as [_ Hq].
  destruct (beqb ch [x22]); [done|]. destruct (beqb ch [x5c]).
  - destruct (q_advance q) as [[e q2]|] eqn:E2; [|by eapply error_later, error_here].
    apply q_advance_spec in E2 as (_ & El2 & E2). destruct (E2 (proj1 (proj2 Hq))) as [_ Hq2].
    pose proof (later_trans _ _ _ _ _ Hq Hq2) as Ht. specialize (IH (out ++ unescape e) q2 (proj1 (proj2 Hq2)) ltac:(lia)).
    destruct (q_string_loop fuel _ q2) as [[s q3]| | |]; [|by eapply error_later|done..]. split; [|done].
    eapply later_weaken; [|eapply later_trans; [exact Ht|apply IH]]. lia.
  - specialize (IH (out ++ ch) q (proj1 (proj2 Hq)) ltac:(lia)).
    destruct (q_string_loop fuel _ q) as [[s q3]| | |]; [|by eapply error_later|done..]. split; [|done].
    eapply later_weaken; [|eapply later_trans; [exact Hq|apply IH]]. lia.
Qed.

Lemma qruns_string N : qruns N 1 (fun _ => True) parse_string_literal.
Proof.
  unfold parse_string_literal. eapply qruns_bind0; [apply qruns_skip|intros _ _].
  eapply qruns_bind1; [lia|apply qruns_expect_char|intros _ _].
  apply (qruns_weaken (N - 1) (N - 1) 1 0 (fun _ => True) (fun _ => True)); [|lia..|done].
  apply (qruns_fuel _ _ _ (fun k => q_string_loop k [])). intros k. apply qruns_string_loop.
Qed.

Lemma qruns_json_span fuel : forall depth in_string escaped text,
  qruns fuel 1 (fun _ => True) (json_span fuel (S depth) in_string escaped text).
Proof.
  induction fuel as [|fuel IH]; intros depth ins esc text p Hv Hl; [lia|]. cbn [json_span].
  destruct (q_advance p) as [[ch q]|] eqn:E; [|apply error_here]. apply q_advance_spec in E as (_ & El & E). destruct (E Hv) as [_ Hq].
  assert (forall d i e t, qends 1 (fun _ => True) p (json_span fuel (S d) i e t q)) as Hgo.
  { intros d i e t. eapply qends_after; [exact Hq|lia|]. by apply IH; [apply Hq|lia]. }
  clear IH. repeat first [apply Hgo|by split|case_match].
Qed.

(** A container is parsed where one opens. *)
Lemma json_container_ends p ch : utf8_valid (q_rest p) = true -> no_blank p -> q_peek p = Some ch ->
  beqb ch (bs "{") || beqb ch (bs "[") = true -> qends 1 (fun _ => True) p (parse_json_container p).
Proof.
  intros Hv Hb Hp Hc. unfold parse_json_container, q_bind, q_skip_ws. rewrite (q_skip_id p Hb). cbv beta.
  assert (qends 1 (fun _ => True) p (json_span (S (length (q_rest p))) 0 false false [] p)) as H.
  { cbn [json_span]. unfold q_peek in Hp. destruct (q_advance p) as [[ch' q]|] eqn:E; [|unfold q_advance in E; by destruct (next_char (q_rest p)) as [[]|]].
    assert (ch' = ch) as -> by (unfold q_advance in E; destruct (next_char (q_rest p)) as [[]|]; simplify_eq/=; done).
    apply q_advance_spec in E as (_ & El & E). destruct (E Hv) as [_ Hq].
    assert (beqb ch [x22] = false) as -> by (destruct (beqb_spec ch [x22]) as [->|]; done). rewrite Hc.
    eapply qends_after; [exact Hq| |apply qruns_json_span; [apply Hq|done]]. lia. }
  destruct (json_span _ 0 false false [] p) as [[text q]| | |]; [|done..]. destruct H as [H _]. cbn.
  destruct (json_tree_from_slice text); [by split|]. eapply error_later; [exact H|apply error_here].
Qed.

Lemma qends_bind {A B} n p (P : A -> Prop) (Q : B -> Prop) (m : QP A) k :
  (forall q, utf8_valid (q_rest q) = true -> forall a, P a -> qends 0 Q q (k a q)) -> qends n P p (m p) -> qends n Q p (q_bind m k p).
Proof.
  intros Hk Hm. unfold q_bind. destruct (m p) as [[a q]| | |]; [|done..]. destruct Hm as [Hq Ha].
  eapply qends_after; [exact Hq| |by apply Hk; [apply Hq|]]. lia.
Qed.

Lemma qends_ret {A} (Q : A -> Prop) q a : utf8_valid (q_rest q) = true -> Q a -> qends 0 Q q (q_ret a q).
Proof. intros Hv Ha. split; [by apply later_refl|done]. Qed.

Lemma qruns_literal N : qruns N 1 lit_wf parse_literal.
Proof.
  intros p Hv Hl. unfold parse_literal, q_bind at 1, q_skip_ws. destruct (q_skip_spec p Hv) as [Hs Hb].
  eapply qends_after; [exact Hs|apply le_n|]. set (q := q_skip p) in *. assert (Hvq : utf8_valid (q_rest q) = true) by apply Hs.
  assert (Hlq : (length (q_rest q) < N)%nat) by (destruct Hs; lia).
  destruct (q_peek q) as [ch|] eqn:Ep; [|apply error_here].
  destruct (beqb ch [x22]).
  { eapply (qends_bind _ _ (fun _ => True)); [|by apply (qruns_string N q)]. intros. by apply qends_ret. }
  destruct (beqb ch (bs "{") || beqb ch (bs "[")) eqn:Ec.
  { eapply (qends_bind _ _ (fun _ => True)); [|by eapply json_container_ends]. intros. by apply qends_ret. }
  destruct (is_ascii_digit ch || beqb ch (bs "-")); [by apply (qruns_number N q)|].
  assert (forall s v, lit_wf v -> forallb (fun b => b2z b <? 128) s = true -> (1 <= length s)%nat -> qends 1 lit_wf q ((_ <- expect_str s ;; q_ret v) q)) as He.
  { intros s v Hw Ha H1. eapply (qends_bind _ _ (fun _ => True)); [intros; by apply qends_ret|].
    eapply qends_after; [by apply (later_refl q)| |by apply (qruns_expect_str N s Ha q)]. lia. }
  destruct (beqb ch (bs "t")); [by apply He; [|done|cbn; lia]|].
  destruct (beqb ch (bs "f")); [by apply He; [|done|cbn; lia]|].
  destruct (beqb ch (bs "n")); [by apply He; [|done|cbn; lia]|]. apply error_here.
Qed.

(** ** Automation *)

Ltac qrun_one :=
  match goal with
  | |- qruns _ _ _ (q_bind q_skip_ws _) => eapply qruns_bind0; [apply qruns_skip|intros _ _]
  | |- qruns _ _ _ (q_bind (at_char _) _) => eapply qruns_bind0; [apply qruns_at|intros [] _]
  | |- qruns _ _ _ (q_bind adv _) => eapply qruns_bind0; [apply qruns_adv|intros _ _]
  | |- qruns _ _ _ (q_bind (expect_char _) _) => eapply qruns_bind1; [lia|apply qruns_expect_char|intros _ _]
  | |- qruns _ _ _ (q_bind (expect_str _) _) =>
      eapply qruns_bind1; [lia|eapply qruns_weaken; [by apply qruns_expect_str|apply le_n|cbn; lia|done]|intros _ _]
  | |- qruns _ _ _ (q_bind q_parse_ident _) => eapply qruns_bind1; [lia|apply qruns_ident|intros ? ?]
  | |- qruns _ _ _ (q_bind parse_literal _) => eapply qruns_bind1; [lia|apply qruns_literal|intros ? ?]
  | |- qruns _ _ _ (q_bind parse_number _) => eapply qruns_bind1; [lia|apply qruns_number|intros ? ?]
  | |- qruns _ _ _ (q_bind parse_count _) => eapply qruns_bind1; [lia|apply qruns_count|intros ? ?]
  | |- qruns _ _ _ (q_bind parse_string_literal _) => eapply qruns_bind1; [lia|apply qruns_string|intros ? ?]
  | |- qruns _ _ _ q_error => apply qruns_error
  | |- qruns _ _ _ (if _ then _ else _) => case_match
  end.
Ltac qrun := repeat qrun_one.

Lemma qruns_shrink {A} N N' (Q : A -> Prop) m : qruns N 0 Q m -> (N' <= N)%nat -> qruns N' 0 Q m.
Proof. intros H HN. by eapply qruns_weaken. Qed.

Lemma qruns_comma N : qruns N 0 (fun _ => True) optional_comma.
Proof. unfold optional_comma. qrun; [apply qruns_adv|by apply qruns_ret]. Qed.

Lemma fields_wf_insert m n v : fields_wf m -> ident_ok n -> lit_wf v -> fields_wf (bm_insert n v m).
Proof.
  intros [Hs Hf] Hn Hv. split; [by apply bsorted_insert|]. rewrite Forall_forall in *. intros [k x] Hin%list_elem_of_In.
  apply in_bm_insert in Hin as [[-> ->]|[_ Hin]]; [done| |done]. by apply (Hf (k, x)), list_elem_of_In.
Qed.

Lemma fields_wf_nil : fields_wf [].
Proof. split; [apply bsorted_nil|constructor]. Qed.

(** A loop: no fuel, no text. *)
Ltac qloop fuel IH := induction fuel as [|fuel IH]; intros; [intros ? ? ?; lia|].

Lemma qruns_object_loop fuel : forall m, fields_wf m -> qruns fuel 0 fields_wf (object_loop fuel m).
Proof.
  qloop fuel IH. cbn [object_loop]. qrun; [by apply qruns_ret|]. eapply qruns_bind0; [apply qruns_comma|intros _ _].
  eapply qruns_shrink; [apply IH; by apply fields_wf_insert|lia].
Qed.

Lemma qruns_object N : qruns N 1 fields_wf parse_object.
Proof.
  unfold parse_object. qrun. apply (qruns_fuel _ _ _ (fun k => object_loop k [])). intros k. apply qruns_object_loop, fields_wf_nil.
Qed.

(** ** Predicates *)

Lemma qruns_op N : qruns N 1 (fun _ => True) parse_compare_op.
Proof.
  unfold parse_compare_op. qrun. intros p Hv Hl.
  assert (forall s n (op : QueryOp), forallb (fun b => b2z b <? 128) s = true -> length s = S n -> starts_with (q_rest p) s = true ->
    qends 1 (fun _ => True) p (QOk (op, q_move (S n) p))) as H.
  { intros s n op Ha Hn Hs. split; [|done]. eapply later_weaken; [|rewrite <- Hn; by apply later_move]. lia. }
  destruct (starts_with (q_rest p) (bs "==")) eqn:E1; [by apply (H (bs "=="))|].
  destruct (starts_with (q_rest p) (bs "!=")) eqn:E2; [by apply (H (bs "!="))|].
  destruct (starts_with (q_rest p) (bs "<=")) eqn:E3; [by apply (H (bs "<="))|].
  destruct (starts_with (q_rest p) (bs ">=")) eqn:E4; [by apply (H (bs ">="))|].
  destruct (starts_with (q_rest p) (bs "<")) eqn:E5; [by apply (H (bs "<"))|].
  destruct (starts_with (q_rest p) (bs ">")) eqn:E6; [by apply (H (bs ">"))|]. apply error_here.
Qed.

Lemma qruns_path_loop fuel : forall path, path_wf path -> qruns fuel 0 path_wf (path_loop fuel path).
Proof.
  qloop fuel IH. intros p Hv Hl. cbn [path_loop].
  assert (qends 0 path_wf p (QOk (path, p))) as Hend by (split; [by apply later_refl|done]).
  destruct (q_peek_is (bs ".") p) eqn:Ep; [|done]. destruct (q_peek (q_next p)) as [ch|]; [|done].
  destruct (is_alphabetic ch || beqb ch (bs "_")); [|done]. pose proof (later_next p Hv) as Hn.
  pose proof (qruns_ident (S (length (q_rest (q_next p)))) (q_next p) (proj1 (proj2 Hn)) ltac:(lia)) as Hi.
  destruct (q_parse_ident (q_next p)) as [[next q]| | |]; [|by eapply error_later|done..]. destruct Hi as [Hq Hi].
  destruct (beqb next (bs "contains") && q_peek_is (bs "(") q); [done|]. destruct (path_ends (q_skip q)); [|done].
  destruct (q_skip_spec q (proj1 (proj2 Hq))) as [Hs _]. pose proof (later_trans _ _ _ _ _ Hn (later_trans _ _ _ _ _ Hq Hs)) as Ht.
  eapply qends_after; [exact Ht| |apply IH; [by constructor|apply Ht|destruct Ht; lia]]. lia.
Qed.

Lemma qruns_contains N : qruns N 1 (fun _ => True) contains_call.
Proof. unfold contains_call. qrun; by apply qruns_ret. Qed.

Lemma qruns_atom N : qruns N 1 pred_wf parse_predicate_atom.
Proof.
  unfold parse_predicate_atom. qrun.
  eapply (qruns_bind0 _ _ path_wf).
  { apply (qruns_fuel _ _ _ (fun k => path_loop k a)). intros k. apply qruns_path_loop. by constructor. }
  intros path Hp. qrun. intros p Hv Hl. destruct (starts_with (q_rest p) (bs ".contains(")) eqn:E.
  - pose proof (later_move p _ Hv E eq_refl) as Hm. eapply qends_after; [exact Hm|apply le_0_n|].
    set (q := q_move _ p) in *. eapply (qends_bind _ _ (fun _ => True)); [intros; by apply qends_ret|].
    apply (qruns_contains (S (length (q_rest q)))); [apply Hm|lia].
  - assert (qruns (S (length (q_rest p))) 0 pred_wf (op <- parse_compare_op ;; value <- parse_literal ;; q_ret (PCompare path op value))) as Hc.
    { eapply qruns_bind1; [lia|apply qruns_op|intros ? _]. qrun. by apply qruns_ret. }
    apply Hc; [done|lia].
Qed.

Section operators.
Context (join : Predicate -> Predicate -> Predicate) (sym word : bytes) (operand : QP Predicate) (N : nat).
Hypothesis (Hj : forall a b, pred_wf a -> pred_wf b -> pred_wf (join a b)).
Hypothesis (Hs : forallb (fun b => b2z b <? 128) sym = true) (Hw : forallb (fun b => b2z b <? 128) word = true).
Hypothesis (Ho : qruns N 1 pred_wf operand).

Lemma qruns_operand_loop fuel : forall left, pred_wf left -> (fuel <= N)%nat -> qruns fuel 0 pred_wf (operand_loop join sym word operand fuel left).
Proof.
  qloop fuel IH. intros p Hv Hl. cbn [operand_loop]. destruct (q_skip_spec p Hv) as [Hq _].
  eapply qends_after; [exact Hq|apply le_n|]. set (q := q_skip p) in *.
  assert (forall s, forallb (fun b => b2z b <? 128) s = true -> starts_with (q_rest q) s = true ->
    qends 0 pred_wf q ((right <- operand ;; operand_loop join sym word operand fuel (join left right)) (q_move (length s) q))) as Hgo.
  { intros s Ha E. pose proof (later_move q s (proj1 (proj2 Hq)) E Ha) as Hm. apply (qends_after _ 0 0 _ _ _ _ Hm (le_0_n _)).
    unfold q_bind. pose proof (Ho (q_move (length s) q) (proj1 (proj2 Hm)) ltac:(destruct Hm, Hq; lia)) as Hr.
    destruct (operand (q_move (length s) q)) as [[right q']| | |]; [|done..]. destruct Hr as [Hr Hw'].
    apply (qends_after _ 0 0 _ _ _ _ Hr (le_0_n _)). apply IH; [by apply Hj|lia|apply Hr|destruct Hm, Hq, Hr; lia]. }
  destruct (starts_with (q_rest q) sym) eqn:E1; [by apply Hgo|]. destruct (starts_with (q_rest q) word) eqn:E2; [by apply Hgo|].
  split; [apply later_refl, Hq|done].
Qed.

Lemma qruns_operands : qruns N 1 pred_wf (operands join sym word operand).
Proof.
  unfold operands. eapply qruns_bind1; [lia|exact Ho|intros left Hl]. intros p Hv Hlen.
  apply (qruns_operand_loop (S (length (q_rest p)))); [done|lia|done|lia].
Qed.
End operators.

Lemma qruns_predicate fuel : qruns fuel 1 pred_wf (parse_predicate fuel).
Proof.
  induction fuel as [|fuel IH]; [intros p Hv Hl; lia|]. cbn [parse_predicate].
  apply qruns_operands; [done..|]. apply qruns_operands; [done..|]. qrun_one.
  apply qruns_taken; [|apply qruns_atom|lia]. eapply qruns_bind1; [lia|eapply qruns_weaken; [exact IH|lia..|done]|].
  intros inner Hi. qrun. by apply qruns_ret.
Qed.

Lemma qruns_pred N : qruns N 1 pred_wf predicate.
Proof. apply (qruns_fuel _ _ _ parse_predicate). apply qruns_predicate. Qed.

(** ** Sources and steps *)

Lemma qruns_vector_loop fuel : forall vs, qruns fuel 0 (fun _ => True) (vector_loop fuel vs).
Proof.
  qloop fuel IH. cbn [vector_loop]. qrun; [by apply qruns_ret|]. eapply (qruns_bind0 _ _ (fun _ => True)).
  { destruct a; try apply qruns_error; by apply qruns_ret. }
  intros v _. eapply qruns_bind0; [apply qruns_comma|intros _ _]. eapply qruns_shrink; [apply IH|lia].
Qed.

Lemma qruns_vector N : qruns N 1 (fun _ => True) parse_vector_literal.
Proof. unfold parse_vector_literal. qrun. apply (qruns_fuel _ _ _ (fun k => vector_loop k [])). intros k. apply qruns_vector_loop. Qed.

Lemma qruns_parens {A} N (Q : A -> Prop) m : (forall N, qruns N 0 Q m) -> qruns N 1 Q (in_parens m).
Proof. intros H. unfold in_parens. qrun. eapply qruns_bind0; [apply H|]. intros a Ha. qrun. by apply qruns_ret. Qed.

(** What is consumed does not matter. *)
Lemma qruns_any {A} N (Q : A -> Prop) m : qruns N 1 Q m -> qruns N 0 Q m.
Proof. intros H. eapply qruns_weaken; [exact H|lia..|done]. Qed.

Lemma qruns_rows_loop fuel : forall rows, Forall fields_wf rows -> qruns fuel 0 (Forall fields_wf) (rows_loop fuel rows).
Proof.
  qloop fuel IH. cbn [rows_loop]. qrun; [by apply qruns_ret| |by apply qruns_ret].
  eapply qruns_bind1; [lia|apply qruns_object|intros row Hr]. qrun. eapply qruns_shrink; [apply IH; by apply Forall_snoc|lia].
Qed.

Lemma qruns_rows N : qruns N 0 (Forall fields_wf) parse_rows.
Proof.
  unfold parse_rows. qrun.
  - eapply (qruns_bind0 _ _ (Forall fields_wf)); [by apply qruns_ret|]. intros rows Hr. qrun. by apply qruns_ret.
  - eapply (qruns_bind0 _ _ (Forall fields_wf)).
    { eapply qruns_bind1; [lia|apply qruns_object|intros row Hr]. qrun.
      apply (qruns_fuel _ _ _ (fun k => rows_loop k [row])). intros k. apply qruns_rows_loop. by constructor. }
    intros rows Hr. qrun. by apply qruns_ret.
Qed.

Lemma qruns_method {A B} N n (P : A -> Prop) (Q : B -> Prop) m f : (n <= 1)%nat ->
  (forall N, qruns N 0 P m) -> (forall a, P a -> Q (f a)) -> qruns N n Q (a <- in_parens m ;; q_ret (f a)).
Proof. intros Hn Hm Hf. eapply qruns_bind1; [done|by apply qruns_parens|]. intros a Ha. apply qruns_ret. auto. Qed.

Lemma qruns_source N : qruns N 1 source_wf parse_source.
Proof.
  unfold parse_source. qrun; try done; [|by apply qruns_ret]. intros saved Hv Hl.
  unfold q_bind at 1, adv. pose proof (later_next saved Hv) as Hn. unfold q_bind at 1.
  pose proof (qruns_ident (S (length (q_rest (q_next saved)))) (q_next saved) (proj1 (proj2 Hn)) ltac:(lia)) as Hi.
  destruct (q_parse_ident (q_next saved)) as [[method q]| | |]; [|by eapply error_later|done..]. destruct Hi as [Hq _].
  unfold q_bind at 1, q_skip_ws. destruct (q_skip_spec q (proj1 (proj2 Hq))) as [Hs _].
  pose proof (later_trans _ _ _ _ _ Hn (later_trans _ _ _ _ _ Hq Hs)) as Ht. clear Hn Hq Hs. set (q1 := q_skip q) in *.
  assert (forall B (P : B -> Prop) m f, (forall N, qruns N 0 P m) -> (forall b, P b -> source_wf (f b)) ->
    qends 0 source_wf saved ((b <- in_parens m ;; q_ret (f b)) q1)) as Hgo.
  { intros B P m f Hm Hf. apply (qends_after _ 0 0 _ _ _ _ Ht (le_0_n _)).
    apply (qruns_method (S (length (q_rest q1))) 0 P source_wf m f ltac:(lia) Hm Hf q1); [apply Ht|lia]. }
  case_match; [apply (Hgo _ is_u64); [intros; apply qruns_any, qruns_id|done]|].
  case_match; [apply (Hgo _ pred_wf); [intros; apply qruns_any, qruns_pred|done]|].
  case_match; [apply (Hgo _ fields_wf); [intros; apply qruns_any, qruns_object|done]|].
  case_match; [apply (Hgo _ (Forall fields_wf)); [intros; apply qruns_rows|done]|].
  split; [by apply later_refl|done].
Qed.

Lemma qruns_similar_params fuel : forall ef rerank,
  opt_is (fun n => 1 <= n < 2 ^ 63) ef -> opt_is is_count rerank ->
  qruns fuel 0 (fun p => opt_is (fun n => 1 <= n < 2 ^ 63) (fst p) /\ opt_is is_count (snd p)) (similar_params fuel ef rerank).
Proof.
  qloop fuel IH. cbn [similar_params]. qrun; try done; try (by apply qruns_ret).
  - eapply qruns_shrink; [apply IH; [|done]|lia]. cbn. unfold is_count in *. lia.
  - eapply qruns_shrink; [by apply IH|lia].
Qed.

Lemma qruns_similar N : qruns N 0 step_wf similar_args.
Proof.
  unfold similar_args. qrun. eapply (qruns_bind0 _ _ (fun _ => True)).
  { unfold similar_query. qrun; [by apply qruns_ret|]. eapply qruns_bind1; [lia|apply qruns_vector|]. intros v _. by apply qruns_ret. }
  intros query _. qrun. eapply qruns_bind0.
  { apply (qruns_fuel _ _ _ (fun k => similar_params k None None)). intros k. by apply qruns_similar_params. }
  intros [ef rr] [He Hr]. by apply qruns_ret.
Qed.

Lemma qruns_matches N : qruns N 0 step_wf matches_args.
Proof.
  unfold matches_args. qrun; try done. eapply (qruns_bind0 _ _ (fun _ => True)).
  { unfold matches_end. qrun; by apply qruns_ret. }
  intros _ _. by apply qruns_ret.
Qed.

Lemma qruns_target N : qruns N 0 (fun t => ident_ok (fst t) /\ is_u64 (snd t)) parse_target.
Proof. unfold parse_target. qrun. eapply qruns_method; [lia|intros; apply qruns_any, qruns_id|done]. Qed.

Lemma qruns_link N : qruns N 0 step_wf link_args.
Proof.
  unfold link_args. eapply qruns_bind0; [apply qruns_target|]. intros [t id] [Ht Hid]. qrun.
  - eapply (qruns_bind0 _ _ fields_wf); [qrun; apply qruns_any, qruns_object|]. intros fs Hf. by apply qruns_ret.
  - eapply (qruns_bind0 _ _ fields_wf); [apply qruns_ret, fields_wf_nil|]. intros fs Hf. by apply qruns_ret.
Qed.

Lemma qruns_step N name : qruns N 1 step_wf (parse_function_step name).
Proof.
  unfold parse_function_step.
  case_match; [eapply qruns_method; [lia|intros; apply qruns_any, qruns_pred|done]|].
  case_match; [apply qruns_parens; intros; apply qruns_similar|].
  case_match; [apply qruns_parens; intros; apply qruns_matches|].
  case_match; [eapply qruns_method; [lia|intros; apply qruns_any, qruns_object|done]|].
  case_match; [apply qruns_parens; intros; by apply qruns_ret|].
  case_match; [apply qruns_parens; intros; apply qruns_link|].
  case_match; [eapply qruns_method; [lia|intros; apply qruns_target|done]|].
  case_match; [eapply qruns_method; [lia|intros; apply qruns_any, qruns_count|done]|].
  case_match; [eapply qruns_method; [lia|intros; apply qruns_any, qruns_count|done]|].
  intros p Hv Hl. exact I.
Qed.

(** The limit seen after some steps. *)
Fixpoint limit_seen (saw : bool) (steps : list Step) : option bool :=
  match steps with [] => Some saw | s :: steps => saw ← limit_after saw s; limit_seen saw steps end.

Lemma limit_seen_snoc steps s : forall saw, limit_seen saw (steps ++ [s]) = limit_seen saw steps ≫= fun saw => limit_after saw s.
Proof.
  induction steps as [|s0 steps IH]; intros saw; cbn [app limit_seen mbind option_bind]; [by destruct (limit_after saw s)|].
  destruct (limit_after saw s0); [apply IH|done].
Qed.

Lemma pages_seen steps : forall saw, pages_ok saw steps <-> is_Some (limit_seen saw steps).
Proof.
  induction steps as [|s steps IH]; intros saw; cbn [pages_ok limit_seen]; [split; eauto|].
  destruct (limit_after saw s); [apply IH|]. split; [done|by intros []].
Qed.

Lemma qruns_steps_loop fuel : forall saw steps,
  Forall step_wf steps -> limit_seen false steps = Some saw ->
  qruns fuel 0 (fun steps => Forall step_wf steps /\ pages_ok false steps) (steps_loop fuel saw steps).
Proof.
  qloop fuel IH. cbn [steps_loop].
  assert (Forall step_wf steps /\ pages_ok false steps) as Hend by (split; [done|apply pages_seen; eauto]).
  assert (forall s, step_wf s -> qruns (S fuel - 1) 0 (fun steps => Forall step_wf steps /\ pages_ok false steps)
    match limit_after saw s with Some saw => steps_loop fuel saw (steps ++ [s]) | None => q_error end) as Hgo.
  { intros s Hs. destruct (limit_after saw s) as [saw'|] eqn:E; [|apply qruns_error].
    eapply qruns_shrink; [apply IH; [by apply Forall_snoc|]|lia]. rewrite limit_seen_snoc, H0. cbn. by rewrite E. }
  qrun; try done; [..|by apply qruns_ret].
  - eapply qruns_bind1; [lia|apply qruns_step|]. intros s Hs. eapply qruns_shrink; [by apply Hgo|lia].
  - eapply (qruns_bind0 _ _ step_wf); [by apply qruns_ret|]. intros s Hs. by apply Hgo.
Qed.

Lemma qruns_body N : qruns N 1 query_wf parse_query_body.
Proof.
  unfold parse_query_body. eapply qruns_bind1; [lia|apply qruns_source|]. intros src Hsrc. eapply qruns_bind0.
  { apply (qruns_fuel _ _ _ (fun k => steps_loop k false [])). intros k. by apply qruns_steps_loop. }
  intros steps [Hs Hp]. by apply qruns_ret.
Qed.

(** C35: parsing the text of a query ends, on every text: it gives a query, or an
    error at a position of the text, or the name of a function that does not
    exist, and never panics.  A query it gives has identifiers for all its
    names, integers of 64 bits, ids of 64 bits, counts that are not negative, an
    [ef] of at least one, literal maps without repeated names, and no offset
    after a limit of the same collection. *)
Theorem parse_query_sound input : utf8_valid input = true ->
  match parse_query input with
  | QOk q => query_wf q
  | QErr (QParse pos) => 0 <= pos <= len input
  | QErr (QUnknownFunction _) => True
  | _ => False
  end.
Proof.
  intros Hv. unfold parse_query. pose proof (qruns_body (S (length input)) (q_new input) Hv ltac:(cbn; lia)) as H.
  destruct (parse_query_body (q_new input)) as [[q p]|e| |]; cbn [mbind qres_bind]; [| |done..].
  - destruct H as [Hp Hq]. destruct (q_skip_spec p (proj1 (proj2 Hp))) as [Hs _].
    destruct (q_is_eof (q_skip p)); [done|]. pose proof (error_later _ _ _ _ (later_trans _ _ _ _ _ Hp Hs) (error_here _)) as He.
    cbn in He. lia.
  - by destruct e.
Qed.

End spec.

Lemma parse_query_sound_witness :
  let _ := ascii_only in let _ := plain_serde in
  parse_query (bs "User.limit(3).offset(2)") = QErr (QParse 23) /\
  match parse_query (bs "User.get(-1).posts.offset(2).limit(3)") with QOk q => query_wf q | _ => False end.
Proof.
  cbv zeta. split; [by vm_compute|].
  pose proof (parse_query_sound (C := ascii_only) (SJ := plain_serde) (bs "User.get(-1).posts.offset(2).limit(3)") eq_refl) as H.
  by destruct (parse_query (bs "User.get(-1).posts.offset(2).limit(3)")) as [q|[]| |] eqn:E; vm_compute in E.
Defined.
