(* ===== verification/QueryTextProps.v ===== *)
(** * The query language: the text of queries is read back

    What the printer writes is parsed to the query it was given
    ([query_text_round_trip]), and what the client's builder writes to the query
    that was built ([client_query_parsed]): no argument changes its structure. *)

From Stdlib Require Import ZArith Lia Bool List Strings.Byte Strings.String.
From stdpp Require Import base tactics option list.
From S2P Require Import Prelude ByteMap Utf8 Values SchemaParser SchemaEmit SchemaSpec SchemaRoundTrip Serde QueryPlan QueryParser QueryParserProps.

Local Open Scope Z_scope.
Local Open Scope list_scope.

(** * The query language: the text of queries

    The query builder of the client (crates/rhypedb-client/src/query.rs), and a
    printer of all queries that extends its forms; [QueryTextProps] shows that
    the parser reads back what they write. *)

(** ** The client's builder *)

Definition ql_escape (c : bytes) : bytes :=
  if beqb c [x22] then [x5c; x22] else if beqb c [x5c] then [x5c; x5c] else c.

Fixpoint ql_chars (fuel : nat) (s : bytes) : bytes :=
  match fuel with
  | O => []
  | S fuel => match next_char s with Some (c, s) => ql_escape c ++ ql_chars fuel s | None => [] end
  end.

Definition ql_string_literal (s : bytes) : bytes := [x22] ++ ql_chars (length s) s ++ [x22].

Definition client_all (type_name : bytes) : bytes := type_name.
Definition client_get (type_name : bytes) (id : Z) : bytes := type_name ++ bs ".get(" ++ show_int id ++ bs ")".
Definition client_filter_on (type_name predicate : bytes) : bytes := type_name ++ bs ".filter(" ++ predicate ++ bs ")".
Definition client_filter (text predicate : bytes) : bytes := text ++ bs ".filter(" ++ predicate ++ bs ")".
Definition client_limit (text : bytes) (n : Z) : bytes := text ++ bs ".limit(" ++ show_int n ++ bs ")".
Definition client_matches (text field q : bytes) (k : Z) : bytes :=
  text ++ bs ".matches(." ++ field ++ bs ", " ++ ql_string_literal q ++ bs ", k: " ++ show_int k ++ bs ")".

(** ** A printer of queries *)

Section show.
Context {SJ : SerdeJson} (show_f64 show_f32 : Z -> bytes) (show_json : JsonValue -> bytes).

Definition show_lit (l : Literal) : bytes :=
  match l with
  | LitString s => ql_string_literal s
  | LitInt i => show_int i
  | LitFloat b => show_f64 b
  | LitBool true => bs "true"
  | LitBool false => bs "false"
  | LitJson j => show_json j
  | LitNull => bs "null"
  end.

Definition show_op (op : QueryOp) : bytes :=
  match op with QEq => bs "==" | QNe => bs "!=" | QLt => bs "<" | QLe => bs "<=" | QGt => bs ">" | QGe => bs ">=" end.

Definition parens (b : bool) (s : bytes) : bytes := if b then bs "(" ++ s ++ bs ")" else s.

(** At level 0 an or may stand bare, at level 1 an and. *)
Fixpoint show_pred (level : nat) (p : Predicate) : bytes :=
  match p with
  | PCompare path op value => bs "." ++ path ++ bs " " ++ show_op op ++ bs " " ++ show_lit value
  | PContains path needle => bs "." ++ path ++ bs ".contains(" ++ ql_string_literal needle ++ bs ")"
  | PAnd a b => parens (1 <? level)%nat (show_pred 1 a ++ bs " && " ++ show_pred 2 b)
  | POr a b => parens (0 <? level)%nat (show_pred 0 a ++ bs " || " ++ show_pred 1 b)
  end.

Definition show_field (e : bytes * Literal) : bytes := fst e ++ bs ": " ++ show_lit (snd e) ++ bs ", ".
Definition show_object (m : LiteralMap) : bytes := bs "{" ++ flat_map show_field m ++ bs "}".

(** Ids are read as [i64]. *)
Definition show_id (id : Z) : bytes := show_int (as_i64 id).

Definition show_source (s : Source) : bytes :=
  match s with
  | SrcGet t id => t ++ bs ".get(" ++ show_id id ++ bs ")"
  | SrcFilter t p => t ++ bs ".filter(" ++ show_pred 0 p ++ bs ")"
  | SrcCreate t fs => t ++ bs ".create(" ++ show_object fs ++ bs ")"
  | SrcCreateBatch t rows => t ++ bs ".create_batch([" ++ flat_map (fun r => show_object r ++ bs ",") rows ++ bs "])"
  | SrcAll t => t
  end.

Definition show_opt (name : bytes) (o : option Z) : bytes :=
  match o with Some n => bs ", " ++ name ++ bs ": " ++ show_int n | None => [] end.

Definition show_similar (q : SimilarQuery) : bytes :=
  match q with
  | SimText s => ql_string_literal s
  | SimVector v => bs "[" ++ flat_map (fun x => show_f32 x ++ bs ", ") v ++ bs "]"
  end.

Definition show_target (t : bytes) (id : Z) : bytes := t ++ bs ".get(" ++ show_id id ++ bs ")".

Definition show_step (s : Step) : bytes :=
  match s with
  | Traverse f => bs "." ++ f
  | StepFilter p => bs ".filter(" ++ show_pred 0 p ++ bs ")"
  | Similar f q k ef rerank =>
      bs ".similar(." ++ f ++ bs ", " ++ show_similar q ++ bs ", k: " ++ show_int k ++ show_opt (bs "ef") ef ++
      show_opt (bs "rerank") rerank ++ bs ")"
  | Matches f q k => bs ".matches(." ++ f ++ bs ", " ++ ql_string_literal q ++ bs ", k: " ++ show_int k ++ bs ")"
  | StepUpdate fs => bs ".update(" ++ show_object fs ++ bs ")"
  | StepDelete => bs ".delete()"
  | StepLink t id fs => bs ".link(" ++ show_target t id ++ bs ", " ++ show_object fs ++ bs ")"
  | StepUnlink t id => bs ".unlink(" ++ show_target t id ++ bs ")"
  | Limit n => bs ".limit(" ++ show_int n ++ bs ")"
  | Offset n => bs ".offset(" ++ show_int n ++ bs ")"
  end.

Definition show_query (q : Query) : bytes := show_source (q_source q) ++ flat_map show_step (q_steps q).

End show.

(** * The query language: the text of queries is read back *)

Local Open Scope query_parser_scope.

(** [reads m i a r]: at [i], wherever the text stands, [m] returns [a] and stops
    at [r]. *)
Definition qreads {A} (m : QP A) (i : bytes) (a : A) (r : bytes) : Prop :=
  forall pos, exists pos', m {| q_rest := i; q_pos := pos |} = QOk (a, {| q_rest := r; q_pos := pos' |}).

Lemma qreads_bind {A B} (m : QP A) (k : A -> QP B) i a r b r' : qreads m i a r -> qreads (k a) r b r' -> qreads (q_bind m k) i b r'.
Proof.
  intros Hm Hk pos. destruct (Hm pos) as (pos1 & E1). destruct (Hk pos1) as (pos2 & E2). exists pos2. unfold q_bind. by rewrite E1.
Qed.

Lemma qreads_ret {A} (a : A) i : qreads (q_ret a) i a i.
Proof. intros pos. by exists pos. Qed.

Lemma qreads_fuel {A} (m : nat -> QP A) i a r :
  qreads (m (S (length i))) i a r -> qreads (fun p => m (S (length (q_rest p))) p) i a r.
Proof. intros H pos. apply H. Qed.

Lemma q_advance_app c r pos : whole c ->
  q_advance {| q_rest := c ++ r; q_pos := pos |} = Some (c, {| q_rest := r; q_pos := pos + len c |}).
Proof. intros H. unfold q_advance. cbn [q_rest]. by rewrite next_char_app. Qed.

(** Lengths of texts. *)
Ltac lens :=
  repeat rewrite length_app in *;
  repeat match goal with
  | |- context [length (bs ?s)] => let n := eval vm_compute in (length (bs s)) in change (length (bs s)) with n
  | H : context [length (bs ?s)] |- _ => let n := eval vm_compute in (length (bs s)) in change (length (bs s)) with n in H
  end;
  cbn [length] in *; lia.

(** ** Spaces *)

Definition spaces (ws : bytes) : Prop := Forall (fun b => b = x20) ws.

(** The text goes on with something that is not a space. *)
Definition solid (r : bytes) : Prop := match next_char r with Some (c, _) => is_whitespace c = false | None => True end.

Lemma spaces_nil : spaces [].
Proof. constructor. Qed.
Lemma spaces_one : spaces [x20].
Proof. by repeat constructor. Qed.
#[local] Hint Resolve spaces_nil spaces_one : core.

Lemma q_skip_loop_spaces ws r : spaces ws -> solid r -> forall fuel pos, (length (ws ++ r) <= fuel)%nat ->
  exists pos', q_skip_loop fuel {| q_rest := ws ++ r; q_pos := pos |} = {| q_rest := r; q_pos := pos' |}.
Proof.
  intros Hws Hr. induction Hws as [|b ws -> Hws IH]; intros fuel pos Hf.
  - exists pos. destruct fuel as [|fuel]; [done|]. cbn [q_skip_loop app]. unfold solid in Hr. unfold q_advance. cbn [q_rest].
    destruct (next_char r) as [[c s]|]; [|done]. cbn. by rewrite Hr.
  - destruct fuel as [|fuel]; [cbn in Hf; lia|]. cbn [q_skip_loop].
    change ((x20 :: ws) ++ r) with ([x20] ++ ws ++ r). rewrite q_advance_app by (by apply whole_ascii). cbn [is_whitespace].
    change (in_range 9 13 x20 || (b2z x20 =? 32)) with true. cbv iota. apply IH. cbn in Hf. lia.
Qed.

Lemma q_skip_spaces ws r pos : spaces ws -> solid r ->
  exists pos', q_skip {| q_rest := ws ++ r; q_pos := pos |} = {| q_rest := r; q_pos := pos' |}.
Proof. intros Hws Hr. unfold q_skip. cbn [q_rest]. by apply q_skip_loop_spaces. Qed.

Lemma qreads_skip ws r : spaces ws -> solid r -> qreads q_skip_ws (ws ++ r) () r.
Proof. intros Hws Hr pos. unfold q_skip_ws. destruct (q_skip_spaces ws r pos Hws Hr) as (pos' & ->). eauto. Qed.

(** ** Characters *)

(** An ASCII character that is not a space. *)
Definition visible_char (b : byte) : bool := (32 <? b2z b) && (b2z b <? 128).

Lemma visible_spec b : visible_char b = true -> b2z b < 128 /\ is_whitespace [b] = false.
Proof.
  unfold visible_char. intros [H1 H2]%andb_true_iff. split; [lia|]. cbn. apply orb_false_iff.
  split; [|lia]. apply not_true_iff_false. rewrite in_range_spec. lia.
Qed.

Lemma next_char_ascii b r : b2z b < 128 -> next_char (b :: r) = Some ([b], r).
Proof. intros H. apply (next_char_app [b] r). by apply whole_ascii. Qed.

Lemma solid_visible b r : visible_char b = true -> solid (b :: r).
Proof. intros H. destruct (visible_spec b H). unfold solid. by rewrite next_char_ascii. Qed.

(** The next character is an ASCII one. *)
Lemma q_peek_is_ascii c i pos : b2z c < 128 ->
  q_peek_is [c] {| q_rest := i; q_pos := pos |} = match i with b :: _ => bool_decide (b = c) | [] => false end.
Proof.
  intros Hc. unfold q_peek_is, q_peek. cbn [q_rest]. destruct i as [|b i]; [done|]. unfold next_char. cbn [fmap option_fmap option_map fst].
  destruct (decide (b = c)) as [->|Hn].
  - rewrite bool_decide_true by done. assert (char_len c = 1%nat) as -> by (unfold char_len; by rewrite (proj2 (Z.ltb_lt _ _))).
    cbn [take]. rewrite take_0. by destruct (beqb_spec [c] [c]).
  - rewrite bool_decide_false by done. destruct (beqb_spec (take (char_len b) (b :: i)) [c]) as [E|]; [|done].
    exfalso. apply Hn. destruct (char_len b) eqn:El; [done|]. cbn in E. congruence.
Qed.

Lemma qreads_at c i : b2z c < 128 -> qreads (at_char [c]) i (match i with b :: _ => bool_decide (b = c) | [] => false end) i.
Proof. intros Hc pos. exists pos. unfold at_char. by rewrite q_peek_is_ascii. Qed.

Lemma qreads_at_yes c r : b2z c < 128 -> qreads (at_char [c]) (c :: r) true (c :: r).
Proof. intros Hc. pose proof (qreads_at c (c :: r) Hc) as H. cbv iota beta in H. by rewrite bool_decide_true in H. Qed.

Lemma qreads_at_no c i : b2z c < 128 -> head i <> Some c -> qreads (at_char [c]) i false i.
Proof. intros Hc Hn. pose proof (qreads_at c i Hc) as H. destruct i; [done|]. cbv iota beta in H. rewrite bool_decide_false in H; [done|]. by intros ->. Qed.

Lemma qreads_adv b r : b2z b < 128 -> qreads adv (b :: r) () r.
Proof.
  intros Hb pos. unfold adv, q_next. change (b :: r) with ([b] ++ r). rewrite q_advance_app by (by apply whole_ascii). eauto.
Qed.

Lemma qreads_char ws b r : spaces ws -> visible_char b = true -> qreads (expect_char [b]) (ws ++ b :: r) () r.
Proof.
  intros Hws Hb. destruct (visible_spec b Hb) as [Ha _]. eapply qreads_bind; [apply qreads_skip; [done|by apply solid_visible]|].
  intros pos. change (b :: r) with ([b] ++ r). rewrite q_advance_app by (by apply whole_ascii). destruct (beqb_spec [b] [b]); [eauto|done].
Qed.

Lemma qreads_str ws b s r : spaces ws -> visible_char b = true -> qreads (expect_str (b :: s)) (ws ++ (b :: s) ++ r) () r.
Proof.
  intros Hws Hb. eapply qreads_bind; [apply qreads_skip; [done|by apply solid_visible]|]. intros pos. cbn [q_rest].
  assert (starts_with ((b :: s) ++ r) (b :: s) = true) as -> by (apply starts_with_true; by exists r).
  unfold q_move. cbn [q_rest q_pos]. rewrite drop_mid by done. eauto.
Qed.

(** ** Words and numbers *)

Lemma q_take_app f s r : chars f s -> stops f r -> forall fuel pos, (length (s ++ r) <= fuel)%nat ->
  exists pos', q_take f fuel {| q_rest := s ++ r; q_pos := pos |} = (s, {| q_rest := r; q_pos := pos' |}).
Proof.
  intros Hs Hr. induction Hs as [|ch s Hw Hf Hs IH]; intros fuel pos Hl.
  - exists pos. destruct fuel as [|fuel]; [done|]. cbn [q_take app]. unfold stops in Hr. unfold q_advance. cbn [q_rest].
    destruct (next_char r) as [[ch q]|]; [|done]. cbn. by rewrite Hr.
  - destruct fuel as [|fuel]; [destruct Hw as (b & Hb & _); destruct ch; [done|cbn in Hl; lia]|]. cbn [q_take].
    rewrite <- app_assoc, q_advance_app by done. rewrite Hf. destruct (IH fuel (pos + len ch)) as (pos' & ->); [|by exists pos'].
    destruct Hw as (b & Hb & _). destruct ch; [done|]. rewrite <- app_assoc in Hl. cbn in Hl. rewrite length_app in Hl. lia.
Qed.

Lemma q_chars_app f s r pos : chars f s -> stops f r ->
  exists pos', q_chars f {| q_rest := s ++ r; q_pos := pos |} = (s, {| q_rest := r; q_pos := pos' |}).
Proof. intros Hs Hr. by apply q_take_app. Qed.

Lemma stops_ascii f b r : b2z b < 128 -> f [b] = false -> stops f (b :: r).
Proof. intros Hb Hf. unfold stops. by rewrite next_char_ascii. Qed.

Section words.
Context {C : CharClass}.

Lemma solid_ident n r : ident_ok n -> solid (n ++ r).
Proof. intros (c & s & -> & Hw & Hns & _ & _). rewrite <- app_assoc. unfold solid. by rewrite next_char_app. Qed.

Lemma qreads_ident ws n r : spaces ws -> ident_ok n -> stops ident_char r -> qreads q_parse_ident (ws ++ n ++ r) n r.
Proof.
  intros Hws Hn Hr. eapply qreads_bind; [apply qreads_skip; [done|by apply solid_ident]|]. intros pos.
  destruct (ident_chars n Hn) as [Hc Hne]. destruct (q_chars_app ident_char n r pos Hc Hr) as (pos' & ->). exists pos'. by destruct n.
Qed.
End words.

(** *** Integers *)

(** The digits of a number and its sign. *)
Definition int_sign (n : Z) : bytes := if n <? 0 then bs "-" else [].
Definition int_digits (n : Z) : bytes := digits_loop 20 (Z.abs n) [].

Lemma show_int_parts n : show_int n = int_sign n ++ int_digits n.
Proof. unfold show_int, int_sign, int_digits. destruct (Z.ltb_spec n 0); [by rewrite Z.abs_neq by lia|by rewrite Z.abs_eq by lia]. Qed.

Lemma int_digits_spec n : is_i64 n ->
  chars is_ascii_digit (int_digits n) /\ digits_value (int_digits n) = Z.abs n /\ int_digits n <> [].
Proof.
  intros [H1 H2]. destruct (digits_loop_spec 20 (Z.abs n)) as (D1 & D2 & D3); [|lia|by split_and!].
  split; [lia|]. apply Z.le_lt_trans with (2 ^ 63); [lia|by vm_compute].
Qed.

Lemma parse_i64_show n : is_i64 n -> parse_i64 (int_sign n) (int_digits n) = Some n.
Proof.
  intros Hn. destruct (int_digits_spec n Hn) as (_ & Hv & Hne). unfold parse_i64. destruct (int_digits n) as [|d ds] eqn:E; [done|].
  rewrite <- E in *. clear E. rewrite Hv. unfold int_sign.
  assert ((if is_minus (if n <? 0 then bs "-" else []) then - Z.abs n else Z.abs n) = n) as ->.
  { destruct (Z.ltb_spec n 0); [change (is_minus (bs "-")) with true|change (is_minus []) with false]; cbv iota; lia. }
  destruct Hn. by rewrite (proj2 (Z.leb_le _ _)), (proj2 (Z.ltb_lt _ _)) by lia.
Qed.

Lemma chars_head f s : chars f s -> s <> [] -> exists c s', s = c ++ s' /\ whole c /\ f c = true.
Proof. destruct 1 as [|c s Hw Hf _]; [done|]. intros _. by exists c, s. Qed.

Lemma digit_char c : is_ascii_digit c = true -> exists b, c = [b] /\ 48 <= b2z b <= 57.
Proof. destruct c as [|b [|]]; [done| |done]. intros H. exists b. split; [done|]. by apply in_range_spec. Qed.

(** After an optional sign come digits. *)
Lemma q_optional_sign n r pos : is_i64 n -> exists pos',
  q_optional is_minus {| q_rest := show_int n ++ r; q_pos := pos |} = (int_sign n, {| q_rest := int_digits n ++ r; q_pos := pos' |}).
Proof.
  intros Hn. rewrite show_int_parts, <- app_assoc. unfold int_sign, q_optional. destruct (n <? 0).
  - rewrite q_advance_app by (by apply whole_ascii). cbn. eauto.
  - destruct (int_digits_spec n Hn) as (Hd & _ & Hne). destruct (chars_head _ _ Hd Hne) as (c & s & -> & Hw & Hc).
    rewrite <- app_assoc. cbn [app]. rewrite q_advance_app by done. apply digit_char in Hc as (b & -> & Hb).
    unfold is_minus. destruct (beqb_spec [b] (bs "-")) as [E|]; [injection E as ->; by change (b2z x2d) with 45 in Hb; lia|eauto].
Qed.

(** A digit or a minus is not a space. *)
Lemma solid_int n r : is_i64 n -> exists b s, show_int n ++ r = b :: s /\ visible_char b = true /\ is_ascii_digit [b] || beqb [b] (bs "-") = true.
Proof.
  intros Hn. rewrite show_int_parts, <- app_assoc. unfold int_sign. destruct (n <? 0); [by eexists _, _|].
  destruct (int_digits_spec n Hn) as (Hd & _ & Hne). destruct (chars_head _ _ Hd Hne) as (c & s & -> & Hw & Hc).
  pose proof Hc as Hc'. apply digit_char in Hc' as (b & -> & Hb). exists b, (s ++ r). rewrite <- app_assoc. cbn [app].
  split_and!; [done|unfold visible_char; lia|by rewrite Hc].
Qed.

Lemma qreads_int ws n r : spaces ws -> is_i64 n -> stops is_ascii_digit r -> qreads parse_int (ws ++ show_int n ++ r) n r.
Proof.
  intros Hws Hn Hr. destruct (solid_int n r Hn) as (b & s & E & Hb & _).
  eapply qreads_bind; [apply qreads_skip; [done|rewrite E; by apply solid_visible]|]. intros pos.
  destruct (q_optional_sign n r pos Hn) as (pos1 & ->). destruct (int_digits_spec n Hn) as (Hd & _ & Hne).
  destruct (q_chars_app is_ascii_digit (int_digits n) r pos1 Hd Hr) as (pos2 & ->). rewrite parse_i64_show by done.
  exists pos2. by destruct (int_digits n).
Qed.

(** The end of a literal: a comma, a bracket or a space. *)
Definition lit_end (r : bytes) : Prop := exists b s, r = b :: s /\ In b [x20; x2c; x29; x7d; x5d].

Lemma lit_end_stops f r : lit_end r -> (forall b, In b [x20; x2c; x29; x7d; x5d] -> f [b] = false) -> stops f r.
Proof.
  intros (b & s & -> & Hb) Hf. apply stops_ascii; [|by apply Hf]. cbn in Hb. by destruct_or! Hb; subst.
Qed.

Lemma lit_end_digit r : lit_end r -> stops is_ascii_digit r.
Proof. intros H. apply lit_end_stops; [done|]. intros b Hb. cbn in Hb. by destruct_or! Hb; subst. Qed.

Lemma qreads_count ws n r : spaces ws -> is_count n -> lit_end r -> qreads parse_count (ws ++ show_int n ++ r) n r.
Proof.
  intros Hws [H0 H1] Hr. eapply qreads_bind; [apply qreads_int; [done|split; lia|by apply lit_end_digit]|].
  rewrite (proj2 (Z.ltb_ge _ _)) by lia. apply qreads_ret.
Qed.

Lemma qreads_id ws id r : spaces ws -> is_u64 id -> lit_end r -> qreads parse_id (ws ++ show_id id ++ r) id r.
Proof.
  intros Hws Hid Hr. assert (as_u64 (as_i64 id) = id /\ is_i64 (as_i64 id)) as [E Hi].
  { unfold as_i64, as_u64, is_i64, is_u64 in *. rewrite (Z.mod_small id) by lia.
    destruct (Z.ltb_spec id (2 ^ 63)); [split; [apply Z.mod_small; lia|lia]|].
    split; [|lia]. replace (id - 2 ^ 64) with (id + -1 * 2 ^ 64) by lia. rewrite Z_mod_plus_full. apply Z.mod_small. lia. }
  eapply qreads_bind; [apply qreads_int; [done|exact Hi|by apply lit_end_digit]|]. rewrite <- E at 2. apply qreads_ret.
Qed.

(** *** Numbers *)

(** The text of a float: a sign, digits, a point and digits. *)
Definition float_text (t : bytes) (bits : Z) : Prop :=
  exists sign ip fp, t = sign ++ ip ++ bs "." ++ fp /\ (sign = [] \/ sign = bs "-") /\
    chars is_ascii_digit ip /\ ip <> [] /\ chars is_ascii_digit fp /\ parse_f64 t = Some bits.

(** What [parse_number] and [parse_literal] look at first. *)
Definition number_start (t : bytes) : Prop :=
  exists b s, t = b :: s /\ visible_char b = true /\ is_ascii_digit [b] || beqb [b] (bs "-") = true.

Lemma number_start_app t r : number_start t -> number_start (t ++ r).
Proof. intros (b & s & -> & ? & ?). by exists b, (s ++ r). Qed.

Lemma signed_digits_start sign ip r : sign = [] \/ sign = bs "-" -> chars is_ascii_digit ip -> ip <> [] -> number_start (sign ++ ip ++ r).
Proof.
  intros Hs Hd Hne. destruct Hs as [->| ->]; [|by eexists _, _].
  destruct (chars_head _ _ Hd Hne) as (c & s & -> & Hw & Hc). pose proof Hc as Hc'. apply digit_char in Hc' as (b & -> & Hb).
  exists b, (s ++ r). rewrite <- app_assoc. cbn [app]. split_and!; [done|unfold visible_char; lia|by rewrite Hc].
Qed.

Lemma q_optional_signed sign ip r pos : sign = [] \/ sign = bs "-" -> chars is_ascii_digit ip -> ip <> [] -> exists pos',
  q_optional is_minus {| q_rest := sign ++ ip ++ r; q_pos := pos |} = (sign, {| q_rest := ip ++ r; q_pos := pos' |}).
Proof.
  intros Hs Hd Hne. unfold q_optional. destruct Hs as [->| ->].
  - destruct (chars_head _ _ Hd Hne) as (c & s & -> & Hw & Hc). rewrite <- app_assoc. cbn [app].
    rewrite q_advance_app by done. apply digit_char in Hc as (b & -> & Hb).
    unfold is_minus. destruct (beqb_spec [b] (bs "-")) as [E|]; [injection E as ->; by change (b2z x2d) with 45 in Hb; lia|eauto].
  - rewrite q_advance_app by (by apply whole_ascii). cbn. eauto.
Qed.

(** No exponent at the end of a literal. *)
Lemma q_exponent_end r pos : lit_end r -> q_exponent {| q_rest := r; q_pos := pos |} = ([], false, {| q_rest := r; q_pos := pos |}).
Proof.
  intros (b & s & -> & Hb). unfold q_exponent, q_optional. change (b :: s) with ([b] ++ s).
  cbn in Hb. destruct_or! Hb; subst; by rewrite q_advance_app by (by apply whole_ascii).
Qed.

Lemma q_fraction_end r pos : lit_end r -> q_fraction {| q_rest := r; q_pos := pos |} = ([], false, {| q_rest := r; q_pos := pos |}).
Proof.
  intros (b & s & -> & Hb). unfold q_fraction. change (bs ".") with [x2e]. rewrite q_peek_is_ascii by done. rewrite bool_decide_false; [done|].
  cbn in Hb. by destruct_or! Hb; subst.
Qed.

Lemma solid_number i : number_start i -> solid i.
Proof. intros (b & s & -> & Hb & _). by apply solid_visible. Qed.

Section numbers.
Context {SJ : SerdeJson}.

Lemma qreads_number_int ws n r : spaces ws -> is_i64 n -> lit_end r -> qreads parse_number (ws ++ show_int n ++ r) (LitInt n) r.
Proof.
  intros Hws Hn Hr. eapply qreads_bind; [apply qreads_skip; [done|]; apply solid_number; by apply solid_int|]. intros pos.
  destruct (q_optional_sign n r pos Hn) as (pos1 & ->). destruct (int_digits_spec n Hn) as (Hd & _ & Hne).
  destruct (q_chars_app is_ascii_digit (int_digits n) r pos1 Hd (lit_end_digit r Hr)) as (pos2 & ->).
  rewrite q_fraction_end, q_exponent_end, parse_i64_show by done. by exists pos2.
Qed.

Lemma qreads_number_float ws t bits r : spaces ws -> float_text t bits -> lit_end r -> qreads parse_number (ws ++ t ++ r) (LitFloat bits) r.
Proof.
  intros Hws (sign & ip & fp & -> & Hs & Hi & Hne & Hf & Hp) Hr.
  eapply qreads_bind; [apply qreads_skip; [done|]; apply solid_number; rewrite <- !app_assoc; by apply signed_digits_start|]. intros pos.
  rewrite <- !app_assoc. destruct (q_optional_signed sign ip (bs "." ++ fp ++ r) pos Hs Hi Hne) as (pos1 & ->).
  destruct (q_chars_app is_ascii_digit ip (bs "." ++ fp ++ r) pos1 Hi) as (pos2 & ->); [by apply stops_ascii|].
  unfold q_fraction. change (bs ".") with [x2e] in *. change ([x2e] ++ fp ++ r) with (x2e :: fp ++ r). rewrite q_peek_is_ascii by done. rewrite bool_decide_true by done.
  unfold q_next. change (x2e :: fp ++ r) with ([x2e] ++ fp ++ r). rewrite q_advance_app by (by apply whole_ascii).
  destruct (q_chars_app is_ascii_digit fp r (pos2 + len [x2e]) Hf (lit_end_digit r Hr)) as (pos3 & ->).
  rewrite q_exponent_end by done. cbn [orb]. rewrite app_nil_r, Hp. by exists pos3.
Qed.
End numbers.

(** *** Strings *)

Lemma ql_chars_read k : forall s, (length s <= k)%nat -> utf8_valid s = true -> forall fuel out r pos,
  (length (ql_chars k s ++ [x22] ++ r) < fuel)%nat ->
  exists pos', q_string_loop fuel out {| q_rest := ql_chars k s ++ [x22] ++ r; q_pos := pos |}
    = QOk (out ++ s, {| q_rest := r; q_pos := pos' |}).
Proof.
  assert (forall fuel out r pos, exists pos', q_string_loop (S fuel) out {| q_rest := [x22] ++ r; q_pos := pos |}
    = QOk (out ++ [], {| q_rest := r; q_pos := pos' |})) as Hend.
  { intros fuel out r pos. cbn [q_string_loop]. rewrite q_advance_app by (by apply whole_ascii). cbn. rewrite app_nil_r. eauto. }
  induction k as [|k IH]; intros s Hl Hv fuel out r pos Hf; (destruct fuel as [|fuel]; [lia|]).
  { destruct s; [|cbn in Hl; lia]. apply Hend. }
  cbn [ql_chars]. destruct (next_char s) as [[c s']|] eqn:E.
  2:{ destruct s; [|done]. apply Hend. }
  destruct (next_char_split _ _ _ E) as [-> Hlt]. destruct (next_char_valid _ _ _ Hv E) as [Hw Hv'].
  cbn [ql_chars] in Hf. rewrite E in Hf. assert (length s' <= k)%nat as Hl' by lia. rewrite <- app_assoc in Hf |- *.
  rewrite (app_assoc out). unfold ql_escape in *.
  assert (forall c', whole c' -> (1 <= length c')%nat) as H1 by (intros c' (b & Hb & _); destruct c'; [done|cbn; lia]).
  destruct (beqb_spec c [x22]) as [->|N1]; [|destruct (beqb_spec c [x5c]) as [->|N2]].
  - cbn [q_string_loop]. change ([x5c; x22] ++ ?x) with ([x5c] ++ [x22] ++ x).
    rewrite q_advance_app by (by apply whole_ascii). cbn [beqb]. change (beqb [x5c] [x22]) with false. change (beqb [x5c] [x5c]) with true. cbv iota.
    rewrite q_advance_app by (by apply whole_ascii). change (unescape [x22]) with [x22]. apply IH; [done|done|]. cbn in Hf |- *. lia.
  - cbn [q_string_loop]. change ([x5c; x5c] ++ ?x) with ([x5c] ++ [x5c] ++ x).
    rewrite q_advance_app by (by apply whole_ascii). change (beqb [x5c] [x22]) with false. change (beqb [x5c] [x5c]) with true. cbv iota.
    rewrite q_advance_app by (by apply whole_ascii). change (unescape [x5c]) with [x5c]. apply IH; [done|done|]. cbn in Hf |- *. lia.
  - cbn [q_string_loop]. rewrite q_advance_app by done. destruct (beqb_spec c [x22]); [done|]. destruct (beqb_spec c [x5c]); [done|].
    apply IH; [done|done|]. specialize (H1 c Hw). rewrite length_app in Hf. lia.
Qed.

Lemma qreads_string ws s r : spaces ws -> utf8_valid s = true -> qreads parse_string_literal (ws ++ ql_string_literal s ++ r) s r.
Proof.
  intros Hws Hv. unfold ql_string_literal. rewrite <- !app_assoc. unfold parse_string_literal.
  eapply qreads_bind; [apply qreads_skip; [done|by apply (solid_visible x22)]|].
  eapply qreads_bind; [by apply (qreads_char [] x22)|]. apply (qreads_fuel (fun k => q_string_loop k [])). intros pos.
  apply (ql_chars_read (length s) s); [done|done|lia].
Qed.

(** *** Documents *)

(** The text of a document is one container. *)
Definition json_text {SJ : SerdeJson} (t : bytes) (j : JsonValue) : Prop :=
  utf8_valid t = true /\ json_tree_from_slice t = Some j /\
  (exists s, t = bs "{" ++ s \/ t = bs "[" ++ s) /\
  exists pos, json_span (S (length t)) 0 false false [] {| q_rest := t; q_pos := 0 |} = QOk (t, {| q_rest := []; q_pos := pos |}).

(** A span is the same with more text behind it. *)
Lemma json_span_app fuel : forall fuel' depth ins esc acc t x pos pos' pos1 r, (fuel <= fuel')%nat -> utf8_valid t = true ->
  json_span fuel depth ins esc acc {| q_rest := t; q_pos := pos |} = QOk (x, {| q_rest := []; q_pos := pos' |}) ->
  exists pos2, json_span fuel' depth ins esc acc {| q_rest := t ++ r; q_pos := pos1 |} = QOk (x, {| q_rest := r; q_pos := pos2 |}).
Proof.
  induction fuel as [|fuel IH]; intros fuel' depth ins esc acc t x pos pos' pos1 r Hf Hv; [done|].
  destruct fuel' as [|fuel']; [lia|]. cbn [json_span]. destruct (q_advance _) as [[ch q]|] eqn:E; [|done].
  unfold q_advance in E. cbn [q_rest] in E. destruct (next_char t) as [[ch' t']|] eqn:En; [|done]. cbn in E. injection E as -> <-.
  destruct (next_char_split _ _ _ En) as [-> _]. destruct (next_char_valid _ _ _ Hv En) as [Hw Hv'].
  rewrite <- app_assoc, q_advance_app by done.
  assert (forall d i e a p0 p1, json_span fuel d i e a {| q_rest := t'; q_pos := p0 |} = QOk (x, {| q_rest := []; q_pos := pos' |}) ->
    exists pos2, json_span fuel' d i e a {| q_rest := t' ++ r; q_pos := p1 |} = QOk (x, {| q_rest := r; q_pos := pos2 |})) as Hgo.
  { intros d i e a p0 p1 H. eapply IH; [lia|done|exact H]. }
  repeat first [apply Hgo|case_match; try done].
  intros ?. simplify_eq. eauto.
Qed.

Lemma qreads_json {SJ : SerdeJson} ws t j r : spaces ws -> json_text t j -> qreads parse_json_container (ws ++ t ++ r) j r.
Proof.
  intros Hws (Hv & Hj & (s & Hs) & pos0 & Hspan). unfold parse_json_container.
  eapply qreads_bind; [apply qreads_skip; [done|]; destruct Hs as [->| ->]; [by apply (solid_visible x7b)|by apply (solid_visible x5b)]|].
  eapply (qreads_bind _ _ _ t).
  - intros pos. eapply json_span_app; [|done|exact Hspan]. cbn [q_rest]. rewrite length_app. lia.
  - rewrite Hj. apply qreads_ret.
Qed.

(** ** Literals and objects *)

Section round_trip.
Context {C : CharClass} {SJ : SerdeJson} (show_f64 show_f32 : Z -> bytes) (show_json : JsonValue -> bytes).

Definition lit_ok (l : Literal) : Prop :=
  match l with
  | LitString s => utf8_valid s = true
  | LitInt i => is_i64 i
  | LitFloat b => float_text (show_f64 b) b
  | LitJson j => json_text (show_json j) j
  | LitBool _ | LitNull => True
  end.

(** [parse_literal] branches on the first character. *)
Lemma parse_literal_at ws b s : spaces ws -> visible_char b = true -> forall l r,
  qreads (fun p =>
    if beqb [b] [x22] then (s <- parse_string_literal ;; q_ret (LitString s)) p
    else if beqb [b] (bs "{") || beqb [b] (bs "[") then (j <- parse_json_container ;; q_ret (LitJson j)) p
    else if is_ascii_digit [b] || beqb [b] (bs "-") then parse_number p
    else if beqb [b] (bs "t") then (_ <- expect_str (bs "true") ;; q_ret (LitBool true)) p
    else if beqb [b] (bs "f") then (_ <- expect_str (bs "false") ;; q_ret (LitBool false)) p
    else if beqb [b] (bs "n") then (_ <- expect_str (bs "null") ;; q_ret LitNull) p
    else q_error p) (b :: s) l r ->
  qreads parse_literal (ws ++ b :: s) l r.
Proof.
  intros Hws Hb l r H. destruct (visible_spec b Hb) as [Ha _]. eapply qreads_bind; [apply qreads_skip; [done|by apply solid_visible]|].
  intros pos. unfold q_peek. cbn [q_rest]. rewrite next_char_ascii by done. apply H.
Qed.

Lemma number_branch b : is_ascii_digit [b] || beqb [b] (bs "-") = true ->
  beqb [b] [x22] = false /\ beqb [b] (bs "{") || beqb [b] (bs "[") = false.
Proof.
  intros H. destruct (beqb_spec [b] [x22]) as [[= ->]|]; [done|]. split; [done|].
  destruct (beqb_spec [b] (bs "{")) as [E|]; [injection E as ->; done|]. destruct (beqb_spec [b] (bs "[")) as [E|]; [injection E as ->; done|done].
Qed.

Lemma qreads_literal_number ws i l r : spaces ws -> number_start i -> qreads parse_number i l r -> qreads parse_literal (ws ++ i) l r.
Proof.
  intros Hws (b & s & -> & Hb & Hd) H. apply parse_literal_at; [done|done|]. destruct (number_branch b Hd) as [E1 E2].
  intros pos. rewrite E1, E2, Hd. apply H.
Qed.

Lemma float_text_start t bits r : float_text t bits -> number_start (t ++ r).
Proof. intros (sign & ip & fp & -> & Hs & Hi & Hne & _ & _). rewrite <- !app_assoc. by apply signed_digits_start. Qed.

Lemma qreads_literal ws l r : spaces ws -> lit_ok l -> lit_end r -> qreads parse_literal (ws ++ show_lit show_f64 show_json l ++ r) l r.
Proof.
  intros Hws Hl Hr. destruct l as [s|i|b|b|j|]; cbn [show_lit lit_ok] in *.
  - pose proof (qreads_string [] s r spaces_nil Hl) as H. unfold ql_string_literal in *. cbn [app] in H |- *.
    apply parse_literal_at; [done|done|]. change (beqb [x22] [x22]) with true. cbv iota. eapply qreads_bind; [exact H|apply qreads_ret].
  - apply qreads_literal_number; [done|by apply solid_int|by apply (qreads_number_int [])].
  - apply qreads_literal_number; [done|by eapply float_text_start|by apply (qreads_number_float [])].
  - destruct b; apply parse_literal_at; try done.
    + eapply qreads_bind; [by apply (qreads_str [] x74 (bs "rue"))|apply qreads_ret].
    + eapply qreads_bind; [by apply (qreads_str [] x66 (bs "alse"))|apply qreads_ret].
  - pose proof (qreads_json [] _ _ r spaces_nil Hl) as H. destruct Hl as (_ & _ & (s & Hs) & _). cbn [app] in H.
    destruct Hs as [Hs|Hs]; rewrite Hs in *; apply parse_literal_at; try done; (eapply qreads_bind; [exact H|apply qreads_ret]).
  - apply parse_literal_at; try done. eapply qreads_bind; [by apply (qreads_str [] x6e (bs "ull"))|apply qreads_ret].
Qed.

(** The end of a literal that goes on with a comma. *)
Lemma lit_end_comma s : lit_end (bs "," ++ s).
Proof. exists x2c, s. split; [done|]. cbn. tauto. Qed.
Lemma lit_end_paren s : lit_end (bs ")" ++ s).
Proof. exists x29, s. split; [done|]. cbn. tauto. Qed.

Definition fields_ok (m : LiteralMap) : Prop := bsorted m /\ Forall (fun e => ident_ok (fst e) /\ lit_ok (snd e)) m.

(** A word is not a bracket. *)
Lemma ident_head n r c : ident_ok n -> b2z c < 128 -> ident_char [c] = false -> head (n ++ r) <> Some c.
Proof.
  intros (ch & s & -> & Hw & _ & Hi & _) Ha Hc. rewrite <- app_assoc. destruct Hw as (b & Hb & Hl). destruct ch as [|b' ch]; [done|].
  cbn in Hb |- *. injection Hb as ->. intros [= ->]. unfold char_len in Hl. rewrite (proj2 (Z.ltb_lt _ _)) in Hl by lia.
  destruct ch; [congruence|done].
Qed.

Lemma insert_all_sorted (m : LiteralMap) : bsorted m -> bm_insert_all m [] = m.
Proof.
  intros Hs. apply bm_ext; [by apply bsorted_insert_all, bsorted_nil|done|]. intros k. destruct (bm_get k m) as [v|] eqn:E.
  - apply bm_get_insert_all_in; [by apply bsorted_nil|by apply bsorted_nodup|by apply bm_get_in].
  - rewrite bm_get_insert_all_notin; [done|by apply bsorted_nil|]. rewrite in_map_iff. intros ([k' v] & <- & Hin).
    apply bm_get_in in Hin; [|done]. cbn in E. congruence.
Qed.

Lemma qreads_comma ws r : spaces ws -> qreads optional_comma (ws ++ bs "," ++ r) () r.
Proof.
  intros Hws. unfold optional_comma. eapply qreads_bind; [apply qreads_skip; [done|by apply (solid_visible x2c)]|].
  eapply qreads_bind; [by apply (qreads_at_yes x2c)|]. by apply qreads_adv.
Qed.

Lemma qreads_object_loop m : Forall (fun e => ident_ok (fst e) /\ lit_ok (snd e)) m -> forall fuel acc ws r, spaces ws ->
  (length (ws ++ flat_map (show_field show_f64 show_json) m ++ bs "}" ++ r) < fuel)%nat ->
  qreads (object_loop fuel acc) (ws ++ flat_map (show_field show_f64 show_json) m ++ bs "}" ++ r) (bm_insert_all m acc) r.
Proof.
  induction 1 as [|[n v] m [Hn Hv] Hm IH]; intros fuel acc ws r Hws Hf; (destruct fuel as [|fuel]; [lia|]); cbn [object_loop].
  - eapply qreads_bind; [apply qreads_skip; [done|by apply (solid_visible x7d)]|].
    eapply qreads_bind; [by apply (qreads_at_yes x7d)|]. eapply qreads_bind; [by apply (qreads_adv x7d)|apply qreads_ret].
  - cbn [flat_map] in Hf |- *. unfold show_field at 1. unfold show_field at 1 in Hf. cbn [fst snd] in *. rewrite <- !app_assoc in *.
    eapply qreads_bind; [apply qreads_skip; [done|by apply solid_ident]|].
    eapply qreads_bind; [apply (qreads_at_no x7d); [done|by apply ident_head]|].
    eapply qreads_bind; [apply (qreads_ident []); [done|done|by apply stops_ascii]|].
    eapply qreads_bind; [by apply (qreads_char [] x3a)|].
    eapply qreads_bind; [apply (qreads_literal [x20]); [done|done|apply lit_end_comma]|].
    eapply qreads_bind; [by apply (qreads_comma [])|].
    apply (IH fuel (bm_insert n v acc) [x20]); [done|lens].
Qed.

Lemma qreads_object ws m r : spaces ws -> fields_ok m -> qreads parse_object (ws ++ show_object show_f64 show_json m ++ r) m r.
Proof.
  intros Hws [Hs Hm]. unfold parse_object, show_object. rewrite <- !app_assoc. eapply qreads_bind; [by apply (qreads_char ws x7b)|].
  apply (qreads_fuel (fun k => object_loop k [])).
  pose proof (qreads_object_loop m Hm (S (length (flat_map (show_field show_f64 show_json) m ++ bs "}" ++ r))) [] [] r spaces_nil) as H.
  rewrite insert_all_sorted in H by done. apply H. cbn [app]. lia.
Qed.

(** ** Predicates *)

(** A path of one or two segments; the second begins as a word. *)
Definition path_ok (path : bytes) : Prop :=
  ident_ok path \/
  exists a b, path = a ++ bs "." ++ b /\ ident_ok a /\ ident_ok b /\
    exists c s, b = c ++ s /\ whole c /\ is_alphabetic c || beqb c (bs "_") = true.

Fixpoint pred_ok (p : Predicate) : Prop :=
  match p with
  | PCompare path _ value => path_ok path /\ lit_ok value
  | PContains path needle => path_ok path /\ utf8_valid needle = true
  | PAnd a b | POr a b => pred_ok a /\ pred_ok b
  end.

(** What follows a path: an operator behind a space, or a call. *)
Definition path_end (r : bytes) : Prop :=
  (exists op s, r = bs " " ++ show_op op ++ bs " " ++ s) \/ (exists s, r = bs ".contains(" ++ s).

Lemma op_solid op s : solid (show_op op ++ s).
Proof. destruct op; by apply solid_visible. Qed.

Lemma op_ends op s pos : path_ends {| q_rest := show_op op ++ bs " " ++ s; q_pos := pos |} = true.
Proof. by destruct op. Qed.

Lemma path_end_stops r : path_end r -> stops ident_char r.
Proof. intros [(op & s & ->)|(s & ->)]; by apply stops_ascii. Qed.

(** The loop stops where the path ends. *)
Lemma path_loop_stop fuel path r pos : path_end r ->
  path_loop (S fuel) path {| q_rest := r; q_pos := pos |} = QOk (path, {| q_rest := r; q_pos := pos |}).
Proof.
  intros [(op & s & ->)|(s & ->)]; cbn [path_loop].
  - change (bs ".") with [x2e]. by rewrite q_peek_is_ascii by done.
  - change (bs ".contains(" ++ s) with (x2e :: bs "contains" ++ bs "(" ++ s). change (bs ".") with [x2e].
    rewrite q_peek_is_ascii by done. rewrite bool_decide_true by done. unfold q_next. change (x2e :: ?l) with ([x2e] ++ l).
    rewrite q_advance_app by (by apply whole_ascii). 
    assert (forall l p, q_peek {| q_rest := bs "contains" ++ l; q_pos := p |} = Some [x63]) as -> by done.
    change (is_alphabetic [x63] || beqb [x63] (bs "_")) with true. cbv iota.
    destruct (qreads_ident [] (bs "contains") (bs "(" ++ s) spaces_nil) with (pos := pos + len [x2e]) as (pos' & E);
      [by apply ascii_ident|by apply stops_ascii|]. cbn [app] in E. cbn [app]. rewrite E.
    change (beqb (bs "contains") (bs "contains")) with true. change (bs "(") with [x28]. by rewrite q_peek_is_ascii by done.
Qed.

(** The path ends at [r], the rest of the predicate at [r0]. *)
Definition path_stop (r r0 : bytes) : Prop :=
  (exists ws, spaces ws /\ r = ws ++ r0) /\ path_end r /\ solid r0 /\ head r <> Some x28 /\
  (forall pos, path_ends {| q_rest := r0; q_pos := pos |} = true) /\
  forall fuel path pos, path_loop (S fuel) path {| q_rest := r0; q_pos := pos |} = QOk (path, {| q_rest := r0; q_pos := pos |}).

Lemma path_stop_op op s : path_stop (bs " " ++ show_op op ++ bs " " ++ s) (show_op op ++ bs " " ++ s).
Proof.
  split_and!; [by exists [x20]|left; eauto|apply op_solid|done|intros; apply op_ends|]. intros. cbn [path_loop].
  change (bs ".") with [x2e]. rewrite q_peek_is_ascii by done. by destruct op.
Qed.

Lemma path_stop_contains s : path_stop (bs ".contains(" ++ s) (bs ".contains(" ++ s).
Proof.
  split_and!; [by exists []|right; eauto|by apply (solid_visible x2e)|done|done|]. intros. apply path_loop_stop. right. eauto.
Qed.

Lemma path_loop_second a b r r0 fuel pos : ident_ok b -> (exists c s, b = c ++ s /\ whole c /\ is_alphabetic c || beqb c (bs "_") = true) ->
  path_stop r r0 -> exists pos',
  path_loop (S (S fuel)) a {| q_rest := bs "." ++ b ++ r; q_pos := pos |} = QOk (a ++ bs "." ++ b, {| q_rest := r0; q_pos := pos' |}).
Proof.
  intros Hb (c & s & Ec & Hw & Hc) ((ws & Hws & Er) & Hend & Hs0 & Hp & Hends & Hstop). remember (S fuel) as k eqn:Ek. cbn [path_loop].
  change (bs "." ++ b ++ r) with (x2e :: b ++ r). change (bs ".") with [x2e]. rewrite q_peek_is_ascii by done. rewrite bool_decide_true by done.
  unfold q_next. change (x2e :: b ++ r) with ([x2e] ++ b ++ r). rewrite q_advance_app by (by apply whole_ascii).
  assert (forall p, q_peek {| q_rest := b ++ r; q_pos := p |} = Some c) as ->.
  { intros p. unfold q_peek. cbn [q_rest]. by rewrite Ec, <- app_assoc, next_char_app. }
  rewrite Hc. destruct (qreads_ident [] b r spaces_nil Hb (path_end_stops r Hend) (pos + len [x2e])) as (pos1 & E). cbn [app] in E. rewrite E.
  change (bs "(") with [x28]. rewrite q_peek_is_ascii by done.
  assert (beqb b (bs "contains") && match r with b0 :: _ => bool_decide (b0 = x28) | [] => false end = false) as ->.
  { destruct r; [by rewrite andb_false_r|]. rewrite bool_decide_false; [by rewrite andb_false_r|]. by intros ->. }
  rewrite Er. destruct (q_skip_spaces ws r0 pos1 Hws Hs0) as (pos2 & ->). rewrite Hends, Ek, Hstop. eauto.
Qed.

(** A path and what is read behind it. *)
Lemma qreads_path {A} path r r0 (k : bytes -> QP A) x y : path_ok path -> path_stop r r0 -> qreads (k path) r0 x y ->
  qreads (first <- q_parse_ident ;; path <- (fun p => path_loop (S (length (q_rest p))) first p) ;; _ <- q_skip_ws ;; k path) (path ++ r) x y.
Proof.
  intros Hp Hs Hk. pose proof Hs as ((ws & Hws & Er) & Hend & Hs0 & _). destruct Hp as [Hp|(a & b & -> & Ha & Hb & Hc)].
  - eapply qreads_bind; [apply (qreads_ident []); [done|done|by apply path_end_stops]|].
    eapply (qreads_bind _ _ _ path r).
    { intros pos. exists pos. by apply path_loop_stop. }
    eapply qreads_bind; [rewrite Er; by apply qreads_skip|done].
  - rewrite <- !app_assoc. eapply qreads_bind; [apply (qreads_ident []); [done|done|by apply stops_ascii]|].
    eapply (qreads_bind _ _ _ (a ++ bs "." ++ b) r0).
    { intros pos. cbn [q_rest]. assert (exists n, length (bs "." ++ b ++ r) = S n) as (n & ->) by (by eexists).
      by apply path_loop_second. }
    eapply qreads_bind; [by apply (qreads_skip [])|done].
Qed.

Lemma qreads_op op s : qreads parse_compare_op (show_op op ++ bs " " ++ s) op (bs " " ++ s).
Proof.
  unfold parse_compare_op. eapply qreads_bind; [apply (qreads_skip []); [done|apply op_solid]|].
  intros pos. destruct op; by eexists.
Qed.

(** The literal of a comparison ends as a predicate does. *)
Definition follow (r : bytes) : Prop := exists s, r = bs ")" ++ s \/ r = bs " || " ++ s \/ r = bs " && " ++ s.

Lemma follow_lit r : follow r -> lit_end r.
Proof. intros (s & [->|[->| ->]]); eexists _, _; (split; [reflexivity|cbn; tauto]). Qed.

Lemma qreads_atom ws p r : spaces ws -> pred_ok p -> follow r ->
  match p with PCompare _ _ _ | PContains _ _ => True | _ => False end ->
  qreads parse_predicate_atom (ws ++ show_pred show_f64 show_json 2 p ++ r) p r.
Proof.
  intros Hws Hp Hr Ha. unfold parse_predicate_atom. destruct p as [path op v|path needle| |]; [| |done..]; destruct Hp as [Hpath Hv]; cbn [show_pred].
  - rewrite <- !app_assoc. eapply qreads_bind; [by apply (qreads_char ws x2e)|].
    eapply (qreads_path path); [done|apply path_stop_op|].
    assert (qreads (op0 <- parse_compare_op ;; value <- parse_literal ;; q_ret (PCompare path op0 value))
      (show_op op ++ bs " " ++ show_lit show_f64 show_json v ++ r) (PCompare path op v) r) as H.
    { eapply qreads_bind; [apply qreads_op|]. eapply qreads_bind; [apply (qreads_literal [x20]); [done|done|by apply follow_lit]|apply qreads_ret]. }
    intros pos. cbn [q_rest]. assert (starts_with (show_op op ++ bs " " ++ show_lit show_f64 show_json v ++ r) (bs ".contains(") = false) as -> by (by destruct op).
    apply H.
  - rewrite <- !app_assoc. eapply qreads_bind; [by apply (qreads_char ws x2e)|].
    eapply (qreads_path path); [done|apply path_stop_contains|].
    assert (qreads (needle <- contains_call ;; q_ret (PContains path needle)) (ql_string_literal needle ++ bs ")" ++ r) (PContains path needle) r) as H.
    { eapply qreads_bind; [|apply qreads_ret]. unfold contains_call.
      eapply qreads_bind; [apply (qreads_skip []); [done|by apply (solid_visible x22)]|].
      eapply qreads_bind; [by apply (qreads_at_yes x22)|]. eapply qreads_bind; [by apply (qreads_string [])|].
      eapply qreads_bind; [apply (qreads_skip []); [done|by apply (solid_visible x29)]|].
      eapply qreads_bind; [by apply (qreads_char [] x29)|apply qreads_ret]. }
    intros pos. cbn [q_rest]. assert (starts_with (bs ".contains(" ++ ql_string_literal needle ++ bs ")" ++ r) (bs ".contains(") = true) as -> by done.
    unfold q_move. cbn [q_rest q_pos]. rewrite drop_mid by done. apply H.
Qed.

(** *** Operators *)

Section spine.
Context (join : Predicate -> Predicate -> Predicate) (sym0 : byte) (sym1 word : bytes) (operand : QP Predicate).
Notation sym := (sym0 :: sym1).
Hypothesis (Hsym : visible_char sym0 = true).

(** [loops left i res r]: with [left] parsed, the loop reads [i] up to [r]. *)
Definition loops (left : Predicate) (i : bytes) (res : Predicate) (r : bytes) : Prop :=
  forall fuel pos, (length i < fuel)%nat ->
    exists pos', operand_loop join sym word operand fuel left {| q_rest := i; q_pos := pos |} = QOk (res, {| q_rest := r; q_pos := pos' |}).

Lemma loops_end left ws r : spaces ws -> solid r -> starts_with r sym = false -> starts_with r word = false -> loops left (ws ++ r) left r.
Proof.
  intros Hws Hr H1 H2 fuel pos Hf. destruct fuel as [|fuel]; [lia|]. cbn [operand_loop].
  destruct (q_skip_spaces ws r pos Hws Hr) as (pos' & ->). cbn [q_rest]. rewrite H1, H2. eauto.
Qed.

Lemma loops_step left ws i b r2 res r : spaces ws -> qreads operand i b r2 -> (length r2 <= length i)%nat ->
  loops (join left b) r2 res r -> loops left (ws ++ sym ++ i) res r.
Proof.
  intros Hws Ho Hl Hn fuel pos Hf. destruct fuel as [|fuel]; [lia|]. cbn [operand_loop].
  destruct (q_skip_spaces ws (sym ++ i) pos Hws) as (pos' & ->); [by apply solid_visible|]. cbn [q_rest].
  assert (starts_with (sym ++ i) sym = true) as -> by (apply starts_with_true; by exists i).
  unfold q_move. cbn [q_rest q_pos]. rewrite drop_mid by done. unfold q_bind.
  destruct (Ho (pos' + Z.of_nat (length sym))) as (pos2 & ->). apply Hn. rewrite !length_app in Hf. cbn [length] in Hf. lia.
Qed.

Lemma operands_read i a r1 res r : qreads operand i a r1 -> loops a r1 res r -> qreads (operands join sym word operand) i res r.
Proof.
  intros Ho Hl. unfold operands. eapply qreads_bind; [exact Ho|]. intros pos. apply Hl. cbn [q_rest]. lia.
Qed.
End spine.

(** [parse_predicate_factor], its parentheses with [fuel]. *)
Definition factor_at (fuel : nat) : QP Predicate :=
  _ <- q_skip_ws ;;
  group <- at_char (bs "(") ;;
  if group : bool then _ <- adv ;; inner <- parse_predicate fuel ;; _ <- expect_char (bs ")") ;; q_ret inner
  else parse_predicate_atom.

Notation sp := (show_pred show_f64 show_json).
Notation and_loops f := (loops PAnd x26 [x26] (bs "and ") (factor_at f)).
Notation or_loops f := (loops POr x7c [x7c] (bs "or ") (parse_and_term (factor_at f))).

(** A conjunction ends at a parenthesis or at an or. *)
Definition follow_and (r : bytes) : Prop := exists s, r = bs ")" ++ s \/ r = bs " || " ++ s.

Definition trim (r : bytes) : bytes := match r with x20 :: r => r | _ => r end.

Lemma follow_and_follow r : follow_and r -> follow r.
Proof. intros (s & [->| ->]); exists s; tauto. Qed.

Lemma and_loops_end f p r : follow_and r -> and_loops f p r p (trim r).
Proof. intros (s & [->| ->]); [by apply (loops_end _ _ _ _ _ p [])|by apply (loops_end _ _ _ _ _ p [x20])]. Qed.

(** What is read of a predicate printed at each level. *)
Definition reads_factor (p : Predicate) : Prop := forall f ws r, spaces ws -> follow r -> (length (ws ++ sp 2 p ++ r) <= f)%nat ->
  qreads (factor_at f) (ws ++ sp 2 p ++ r) p r.

Definition reads_and (p : Predicate) : Prop := forall f ws r res r', spaces ws -> follow r -> and_loops f p r res r' ->
  (length (ws ++ sp 1 p ++ r) <= f)%nat -> qreads (parse_and_term (factor_at f)) (ws ++ sp 1 p ++ r) res r'.

Definition reads_or (p : Predicate) : Prop := forall f ws r res r', spaces ws -> follow_and r -> or_loops f p (trim r) res r' ->
  (length (ws ++ sp 0 p ++ r) <= f)%nat -> qreads (parse_predicate (S f)) (ws ++ sp 0 p ++ r) res r'.

Lemma reads_and_term p f ws r : reads_and p -> spaces ws -> follow_and r -> (length (ws ++ sp 1 p ++ r) <= f)%nat ->
  qreads (parse_and_term (factor_at f)) (ws ++ sp 1 p ++ r) p (trim r).
Proof. intros Hp Hws Hr Hl. apply Hp; [done|by apply follow_and_follow|by apply and_loops_end|done]. Qed.

Lemma reads_and_of p : sp 1 p = sp 2 p -> reads_factor p -> reads_and p.
Proof. intros E Hp f ws r res r' Hws Hr Hl Hf. rewrite E in *. eapply operands_read; [|exact Hl]. by apply Hp. Qed.

Lemma reads_or_of p : sp 0 p = sp 1 p -> reads_and p -> reads_or p.
Proof. intros E Hp f ws r res r' Hws Hr Hl Hf. rewrite E in *. eapply operands_read; [|exact Hl]. by apply reads_and_term. Qed.

(** A whole predicate before a parenthesis. *)
Lemma reads_predicate p f ws s : reads_or p -> spaces ws -> (length (ws ++ sp 0 p ++ bs ")" ++ s) < f)%nat ->
  qreads (parse_predicate f) (ws ++ sp 0 p ++ bs ")" ++ s) p (bs ")" ++ s).
Proof.
  intros Hp Hws Hf. destruct f as [|f]; [lia|]. apply Hp; [done|exists s; tauto| |lia].
  apply (loops_end _ _ _ _ _ p [] (bs ")" ++ s)); [done|by apply (solid_visible x29)|done|done].
Qed.

Lemma reads_group p : sp 2 p = bs "(" ++ sp 0 p ++ bs ")" -> reads_or p -> reads_factor p.
Proof.
  intros E Hp f ws r Hws Hr Hf. rewrite E in *. rewrite <- !app_assoc in *. unfold factor_at.
  eapply qreads_bind; [apply qreads_skip; [done|by apply (solid_visible x28)]|].
  eapply qreads_bind; [by apply (qreads_at_yes x28)|]. eapply qreads_bind; [by apply (qreads_adv x28)|].
  eapply qreads_bind; [apply (reads_predicate p f []); [done|done|lens]|].
  eapply qreads_bind; [by apply (qreads_char [] x29)|apply qreads_ret].
Qed.

Lemma reads_atom p : pred_ok p -> match p with PCompare _ _ _ | PContains _ _ => True | _ => False end -> reads_factor p.
Proof.
  intros Hp Ha f ws r Hws Hr Hf. unfold factor_at.
  assert (exists s, sp 2 p ++ r = x2e :: s) as (s & Es) by (destruct p; try done; by eexists).
  eapply qreads_bind; [apply qreads_skip; [done|rewrite Es; by apply solid_visible]|].
  eapply qreads_bind; [rewrite Es; by apply (qreads_at_no x28)|]. rewrite <- Es. by apply (qreads_atom []).
Qed.

Lemma reads_pred p : pred_ok p -> reads_factor p /\ reads_and p /\ reads_or p.
Proof.
  induction p as [path op v|path needle|a IHa b IHb|a IHa b IHb]; intros Hp.
  - pose proof (reads_atom _ Hp I) as HF. split_and!; [done|by apply reads_and_of|by apply reads_or_of, reads_and_of].
  - pose proof (reads_atom _ Hp I) as HF. split_and!; [done|by apply reads_and_of|by apply reads_or_of, reads_and_of].
  - destruct Hp as [Ha Hb]. destruct (IHa Ha) as (_ & Aa & _). destruct (IHb Hb) as (Fb & _ & _). clear IHa IHb.
    assert (reads_and (PAnd a b)) as HA.
    { intros f ws r res r' Hws Hr Hl Hf. cbn [show_pred parens Nat.ltb Nat.leb] in *. rewrite <- !app_assoc in *.
      apply Aa; [done|eexists; eauto| |done].
      apply (loops_step _ x26 [x26] _ _ eq_refl a [x20] ([x20] ++ sp 2 b ++ r) b r); [done|apply Fb; [done|done|lens]|lens|done]. }
    assert (reads_or (PAnd a b)) as HO by (by apply reads_or_of). split_and!; [by apply reads_group|done|done].
  - destruct Hp as [Ha Hb]. destruct (IHa Ha) as (_ & _ & Oa). destruct (IHb Hb) as (_ & Ab & _). clear IHa IHb.
    assert (reads_or (POr a b)) as HO.
    { intros f ws r res r' Hws Hr Hl Hf. cbn [show_pred parens Nat.ltb Nat.leb] in *. rewrite <- !app_assoc in *.
      apply Oa; [done|eexists; eauto| |done].
      apply (loops_step _ x7c [x7c] _ _ eq_refl a [] ([x20] ++ sp 1 b ++ r) b (trim r)); [done|apply reads_and_term; [done..|lens]| |done].
      rewrite !length_app. destruct Hr as (s & [->| ->]); cbn; lia. }
    assert (reads_factor (POr a b)) as HF by (by apply reads_group). split_and!; [done|by apply reads_and_of|done].
Qed.

Lemma qreads_predicate ws p s : spaces ws -> pred_ok p -> qreads predicate (ws ++ sp 0 p ++ bs ")" ++ s) p (bs ")" ++ s).
Proof.
  intros Hws Hp. apply (qreads_fuel parse_predicate). apply reads_predicate; [by apply reads_pred|done|lia].
Qed.

(** ** Sources and steps *)

Notation so := (show_object show_f64 show_json).

Definition vector_ok (x : Z) : Prop := exists bits, float_text (show_f32 x) bits /\ f64_as_f32 bits = x.

Definition similar_ok (q : SimilarQuery) : Prop :=
  match q with SimText s => utf8_valid s = true | SimVector v => Forall vector_ok v end.

Definition source_ok (s : Source) : Prop :=
  match s with
  | SrcGet t id => ident_ok t /\ is_u64 id
  | SrcFilter t p => ident_ok t /\ pred_ok p
  | SrcCreate t fs => ident_ok t /\ fields_ok fs
  | SrcCreateBatch t rows => ident_ok t /\ Forall fields_ok rows
  | SrcAll t => ident_ok t
  end.

Definition step_ok (s : Step) : Prop :=
  match s with
  | Traverse f => ident_ok f
  | StepFilter p => pred_ok p
  | Similar f q k ef rerank =>
      ident_ok f /\ similar_ok q /\ is_count k /\ opt_is (fun n => 1 <= n < 2 ^ 63) ef /\ opt_is is_count rerank
  | Matches f q k => ident_ok f /\ utf8_valid q = true /\ is_count k
  | StepUpdate fs => fields_ok fs
  | StepDelete => True
  | StepLink t id fs => ident_ok t /\ is_u64 id /\ fields_ok fs
  | StepUnlink t id => ident_ok t /\ is_u64 id
  | Limit n | Offset n => is_count n
  end.

(** A bare type followed by a step that reads as a source is that source. *)
Definition source_methods : list bytes := [bs "get"; bs "filter"; bs "create"; bs "create_batch"].

Definition first_ok (src : Source) (steps : list Step) : Prop :=
  match src, steps with
  | SrcAll _, StepFilter _ :: _ => False
  | SrcAll _, Traverse f :: _ => ~ In f source_methods
  | _, _ => True
  end.

Definition query_ok (q : Query) : Prop :=
  source_ok (q_source q) /\ Forall step_ok (q_steps q) /\ pages_ok false (q_steps q) /\ first_ok (q_source q) (q_steps q).

Lemma qreads_parens {A} (m : QP A) i a r : qreads m i a (bs ")" ++ r) -> qreads (in_parens m) (bs "(" ++ i) a r.
Proof.
  intros Hm. unfold in_parens. eapply qreads_bind; [by apply (qreads_char [] x28)|]. eapply qreads_bind; [exact Hm|].
  eapply qreads_bind; [by apply (qreads_char [] x29)|apply qreads_ret].
Qed.

Lemma qreads_then {A B} (m : QP A) (f : A -> B) i a r : qreads m i a r -> qreads (x <- m ;; q_ret (f x)) i (f a) r.
Proof. intros H. eapply qreads_bind; [exact H|apply qreads_ret]. Qed.

Lemma qreads_vector_loop v : Forall vector_ok v -> forall fuel acc ws r, spaces ws ->
  (length (ws ++ flat_map (fun x => show_f32 x ++ bs ", ") v ++ bs "]" ++ r) < fuel)%nat ->
  qreads (vector_loop fuel acc) (ws ++ flat_map (fun x => show_f32 x ++ bs ", ") v ++ bs "]" ++ r) (acc ++ v) r.
Proof.
  induction 1 as [|x v (bits & Ht & Hx) Hv IH]; intros fuel acc ws r Hws Hf; (destruct fuel as [|fuel]; [lia|]); cbn [vector_loop].
  - eapply qreads_bind; [apply qreads_skip; [done|by apply (solid_visible x5d)]|]. rewrite app_nil_r.
    eapply qreads_bind; [by apply (qreads_at_yes x5d)|]. eapply qreads_bind; [by apply (qreads_adv x5d)|apply qreads_ret].
  - cbn [flat_map] in Hf |- *. rewrite <- !app_assoc in *. pose proof (float_text_start _ _ (bs ", " ++ flat_map (fun x => show_f32 x ++ bs ", ") v ++ bs "]" ++ r) Ht) as Hs.
    eapply qreads_bind; [apply qreads_skip; [done|by apply solid_number]|].
    eapply qreads_bind; [apply (qreads_at_no x5d); [done|]; destruct Hs as (b & s & -> & _ & Hd); cbn; intros [= ->]; done|].
    eapply qreads_bind; [apply (qreads_number_float []); [done|exact Ht|apply lit_end_comma]|]. cbn match.
    eapply qreads_bind; [apply qreads_ret|]. eapply qreads_bind; [by apply (qreads_comma [])|]. rewrite Hx.
    replace (acc ++ x :: v) with ((acc ++ [x]) ++ v) by (by rewrite <- app_assoc). apply (IH fuel (acc ++ [x]) [x20]); [done|lens].
Qed.

Lemma qreads_similar_query ws q r : spaces ws -> similar_ok q -> qreads similar_query (ws ++ show_similar show_f32 q ++ r) q r.
Proof.
  intros Hws Hq. unfold similar_query. destruct q as [s|v]; cbn [show_similar similar_ok] in *.
  - eapply qreads_bind; [apply qreads_skip; [done|by apply (solid_visible x22)]|].
    eapply qreads_bind; [by apply (qreads_at_yes x22)|]. apply qreads_then. by apply (qreads_string []).
  - rewrite <- !app_assoc. eapply qreads_bind; [apply qreads_skip; [done|by apply (solid_visible x5b)]|].
    eapply qreads_bind; [by apply (qreads_at_no x22)|]. apply (qreads_then _ SimVector). unfold parse_vector_literal.
    eapply qreads_bind; [by apply (qreads_char [] x5b)|]. apply (qreads_fuel (fun k => vector_loop k [])).
    apply (qreads_vector_loop v Hq _ [] []); [done|]. cbn [app]. lia.
Qed.

Lemma qreads_rows_loop rows : Forall fields_ok rows -> forall fuel acc r,
  (length (flat_map (fun m => bs "," ++ so m) rows ++ bs ",]" ++ r) < fuel)%nat ->
  qreads (rows_loop fuel acc) (flat_map (fun m => bs "," ++ so m) rows ++ bs ",]" ++ r) (acc ++ rows) (bs "]" ++ r).
Proof.
  induction 1 as [|m rows Hm Hr IH]; intros fuel acc r Hf; (destruct fuel as [|fuel]; [lia|]); cbn [rows_loop].
  - rewrite app_nil_r. eapply qreads_bind; [by apply (qreads_at_yes x2c)|]. eapply qreads_bind; [by apply (qreads_adv x2c)|].
    eapply qreads_bind; [apply (qreads_skip []); [done|by apply (solid_visible x5d)]|].
    eapply qreads_bind; [by apply (qreads_at_yes x5d)|apply qreads_ret].
  - cbn [flat_map] in *. rewrite <- !app_assoc in *. eapply qreads_bind; [by apply (qreads_at_yes x2c)|]. eapply qreads_bind; [by apply (qreads_adv x2c)|].
    eapply qreads_bind; [apply (qreads_skip []); [done|by apply (solid_visible x7b)]|].
    eapply qreads_bind; [by apply (qreads_at_no x5d)|]. eapply qreads_bind; [by apply (qreads_object [])|].
    eapply qreads_bind; [apply (qreads_skip []); [done|by destruct rows; apply (solid_visible x2c)]|].
    replace (acc ++ m :: rows) with ((acc ++ [m]) ++ rows) by (by rewrite <- app_assoc). apply IH. lens.
Qed.

Lemma rows_text m rows r : flat_map (fun m => so m ++ bs ",") (m :: rows) ++ r = so m ++ flat_map (fun m => bs "," ++ so m) rows ++ bs "," ++ r.
Proof.
  cbn [flat_map]. rewrite <- !app_assoc. f_equal. induction rows as [|m' rows IH]; [done|]. cbn [flat_map]. rewrite <- !app_assoc, IH. done.
Qed.

Lemma qreads_rows rows r : Forall fields_ok rows ->
  qreads parse_rows (bs "[" ++ flat_map (fun m => so m ++ bs ",") rows ++ bs "]" ++ bs ")" ++ r) rows (bs ")" ++ r).
Proof.
  intros Hr. unfold parse_rows. eapply qreads_bind; [apply (qreads_skip []); [done|by apply (solid_visible x5b)]|].
  eapply qreads_bind; [by apply (qreads_char [] x5b)|]. destruct rows as [|m rows].
  - eapply qreads_bind; [apply (qreads_skip []); [done|by apply (solid_visible x5d)]|].
    eapply qreads_bind; [by apply (qreads_at_yes x5d)|]. eapply qreads_bind; [apply qreads_ret|].
    eapply qreads_bind; [by apply (qreads_char [] x5d)|]. eapply qreads_bind; [apply (qreads_skip []); [done|by apply (solid_visible x29)]|apply qreads_ret].
  - rewrite rows_text. apply Forall_cons in Hr as [Hm Hr].
    eapply qreads_bind; [apply (qreads_skip []); [done|by apply (solid_visible x7b)]|].
    eapply qreads_bind; [by apply (qreads_at_no x5d)|].
    eapply (qreads_bind _ _ _ (m :: rows) (bs "]" ++ bs ")" ++ r)).
    { eapply qreads_bind; [by apply (qreads_object [])|].
      eapply qreads_bind; [apply (qreads_skip []); [done|by destruct rows; apply (solid_visible x2c)]|].
      change (bs "," ++ bs "]" ++ bs ")" ++ r) with (bs ",]" ++ bs ")" ++ r).
      apply (qreads_fuel (fun k => rows_loop k [m])). apply (qreads_rows_loop rows Hr _ [m]). apply Nat.lt_succ_diag_r. }
    eapply qreads_bind; [by apply (qreads_char [] x5d)|]. eapply qreads_bind; [apply (qreads_skip []); [done|by apply (solid_visible x29)]|apply qreads_ret].
Qed.

(** One more parameter of [similar]. *)
Lemma qreads_similar_step fuel ef rr name n r res r' : ident_ok name -> is_count n -> lit_end r ->
  qreads (if beqb name (bs "ef") then
            if is_some ef then q_error else if n =? 0 then q_error else similar_params fuel (Some n) rr
          else if beqb name (bs "rerank") then if is_some rr then q_error else similar_params fuel ef (Some n)
          else q_error) r res r' ->
  qreads (similar_params (S fuel) ef rr) (show_opt name (Some n) ++ r) res r'.
Proof.
  intros Hn Hc Hr Hk. cbn [similar_params show_opt]. rewrite <- !app_assoc.
  eapply qreads_bind; [apply (qreads_skip []); [done|by apply (solid_visible x2c)]|].
  eapply qreads_bind; [by apply (qreads_at_yes x2c)|]. cbn [negb]. eapply qreads_bind; [by apply (qreads_adv x2c)|].
  eapply qreads_bind; [apply (qreads_skip [x20]); [done|by apply solid_ident]|].
  eapply qreads_bind; [apply (qreads_at_no x29); [done|by apply ident_head]|].
  eapply qreads_bind; [apply (qreads_ident []); [done|done|by apply stops_ascii]|].
  eapply qreads_bind; [apply (qreads_skip []); [done|by apply (solid_visible x3a)]|].
  eapply qreads_bind; [by apply (qreads_char [] x3a)|].
  eapply qreads_bind; [by apply (qreads_count [x20])|]. exact Hk.
Qed.

Lemma qreads_similar_end fuel ef rr r : qreads (similar_params (S fuel) ef rr) (bs ")" ++ r) (ef, rr) (bs ")" ++ r).
Proof.
  cbn [similar_params]. eapply qreads_bind; [apply (qreads_skip []); [done|by apply (solid_visible x29)]|].
  eapply qreads_bind; [by apply (qreads_at_no x2c)|apply qreads_ret].
Qed.

Lemma show_opt_length name o r : (length r + match o with Some _ => 2 | None => 0 end <= length (show_opt name o ++ r))%nat.
Proof. destruct o; cbn [show_opt]; lens. Qed.

Lemma qreads_similar_rerank fuel ef rr r : opt_is is_count rr -> (length (show_opt (bs "rerank") rr ++ bs ")" ++ r) < fuel)%nat ->
  qreads (similar_params fuel ef None) (show_opt (bs "rerank") rr ++ bs ")" ++ r) (ef, rr) (bs ")" ++ r).
Proof.
  intros Hr Hf. pose proof (show_opt_length (bs "rerank") rr (bs ")" ++ r)) as Hl. destruct fuel as [|fuel]; [lia|].
  destruct rr as [n|]; [|apply qreads_similar_end].
  apply qreads_similar_step; [by apply ascii_ident|done|apply lit_end_paren|]. cbv iota in Hl. destruct fuel; [lia|]. apply qreads_similar_end.
Qed.

Lemma qreads_similar_params fuel ef rr r : opt_is (fun n => 1 <= n < 2 ^ 63) ef -> opt_is is_count rr ->
  (length (show_opt (bs "ef") ef ++ show_opt (bs "rerank") rr ++ bs ")" ++ r) < fuel)%nat ->
  qreads (similar_params fuel None None) (show_opt (bs "ef") ef ++ show_opt (bs "rerank") rr ++ bs ")" ++ r) (ef, rr) (bs ")" ++ r).
Proof.
  intros He Hr Hf. destruct ef as [n|]; [|by apply qreads_similar_rerank].
  pose proof (show_opt_length (bs "ef") (Some n) (show_opt (bs "rerank") rr ++ bs ")" ++ r)) as Hl. cbv iota in Hl. destruct fuel as [|fuel]; [lia|].
  assert (length (show_opt (bs "rerank") rr ++ bs ")" ++ r) < fuel)%nat as Hf' by lia.
  apply qreads_similar_step; [by apply ascii_ident|unfold is_count; cbn in He; lia| |].
  { destruct rr; [apply lit_end_comma|apply lit_end_paren]. }
  change (beqb (bs "ef") (bs "ef")) with true. cbn [is_some]. cbn in He. rewrite (proj2 (Z.eqb_neq _ _)) by lia.
  by apply qreads_similar_rerank.
Qed.

(** The arguments of each call. *)
Definition step_call (s : Step) : option (bytes * bytes) :=
  match s with
  | Traverse _ => None
  | StepFilter p => Some (bs "filter", sp 0 p)
  | Similar f q k ef rerank =>
      Some (bs "similar", bs "." ++ f ++ bs ", " ++ show_similar show_f32 q ++ bs ", k: " ++ show_int k ++ show_opt (bs "ef") ef ++ show_opt (bs "rerank") rerank)
  | Matches f q k => Some (bs "matches", bs "." ++ f ++ bs ", " ++ ql_string_literal q ++ bs ", k: " ++ show_int k)
  | StepUpdate fs => Some (bs "update", so fs)
  | StepDelete => Some (bs "delete", [])
  | StepLink t id fs => Some (bs "link", show_target t id ++ bs ", " ++ so fs)
  | StepUnlink t id => Some (bs "unlink", show_target t id)
  | Limit n => Some (bs "limit", show_int n)
  | Offset n => Some (bs "offset", show_int n)
  end.

Lemma show_step_call s : show_step show_f64 show_f32 show_json s =
  bs "." ++ match step_call s with Some (name, args) => name ++ bs "(" ++ args ++ bs ")" | None => match s with Traverse f => f | _ => [] end end.
Proof. destruct s; cbn [show_step step_call]; rewrite <- ?app_assoc; reflexivity. Qed.

Lemma qreads_target ws t id r : spaces ws -> ident_ok t -> is_u64 id -> qreads parse_target (ws ++ show_target t id ++ r) (t, id) r.
Proof.
  intros Hws Ht Hid. unfold parse_target, show_target. rewrite <- !app_assoc.
  eapply qreads_bind; [apply qreads_ident; [done|done|by apply stops_ascii]|].
  eapply qreads_bind; [by apply (qreads_char [] x2e)|]. eapply qreads_bind; [by apply (qreads_str [] x67 (bs "et"))|].
  eapply qreads_bind; [|apply qreads_ret]. apply qreads_parens. apply (qreads_id []); [done|done|apply lit_end_paren].
Qed.

Lemma qreads_similar_args f q k ef rr r : ident_ok f -> similar_ok q -> is_count k -> opt_is (fun n => 1 <= n < 2 ^ 63) ef -> opt_is is_count rr ->
  qreads similar_args (bs "." ++ f ++ bs ", " ++ show_similar show_f32 q ++ bs ", k: " ++ show_int k ++ show_opt (bs "ef") ef ++ show_opt (bs "rerank") rr ++ bs ")" ++ r)
    (Similar f q k ef rr) (bs ")" ++ r).
Proof.
  intros Hf Hq Hk He Hr. unfold similar_args. eapply qreads_bind; [by apply (qreads_char [] x2e)|].
  eapply qreads_bind; [apply (qreads_ident []); [done|done|by apply stops_ascii]|]. eapply qreads_bind; [by apply (qreads_char [] x2c)|].
  eapply qreads_bind; [by apply (qreads_similar_query [x20])|]. eapply qreads_bind; [by apply (qreads_char [] x2c)|].
  eapply qreads_bind; [apply (qreads_skip [x20]); [done|by apply (solid_visible x6b)]|].
  eapply qreads_bind; [by apply (qreads_str [] x6b (bs ":"))|].
  eapply qreads_bind; [apply (qreads_count [x20]); [done|done|]; destruct ef; [apply lit_end_comma|]; destruct rr; [apply lit_end_comma|apply lit_end_paren]|].
  eapply (qreads_bind _ _ _ (ef, rr)); [|apply qreads_ret]. apply (qreads_fuel (fun k => similar_params k None None)).
  apply qreads_similar_params; [done|done|lia].
Qed.

Lemma qreads_matches_args f q k r : ident_ok f -> utf8_valid q = true -> is_count k ->
  qreads matches_args (bs "." ++ f ++ bs ", " ++ ql_string_literal q ++ bs ", k: " ++ show_int k ++ bs ")" ++ r) (Matches f q k) (bs ")" ++ r).
Proof.
  intros Hf Hq Hk. unfold matches_args.
  eapply qreads_bind; [apply (qreads_skip []); [done|by apply (solid_visible x2e)]|]. eapply qreads_bind; [by apply (qreads_char [] x2e)|].
  eapply qreads_bind; [apply (qreads_ident []); [done|done|by apply stops_ascii]|].
  eapply qreads_bind; [apply (qreads_skip []); [done|by apply (solid_visible x2c)]|]. eapply qreads_bind; [by apply (qreads_char [] x2c)|].
  eapply qreads_bind; [apply (qreads_skip [x20]); [done|by apply (solid_visible x22)]|].
  eapply qreads_bind; [by apply (qreads_at_yes x22)|]. cbn [negb]. eapply qreads_bind; [by apply (qreads_string [])|].
  eapply qreads_bind; [apply (qreads_skip []); [done|by apply (solid_visible x2c)]|]. eapply qreads_bind; [by apply (qreads_char [] x2c)|].
  eapply qreads_bind; [apply (qreads_skip [x20]); [done|by apply (solid_visible x6b)]|].
  eapply qreads_bind; [by apply (qreads_str [] x6b (bs ":"))|].
  eapply qreads_bind; [apply (qreads_count [x20]); [done|done|apply lit_end_paren]|].
  eapply qreads_bind; [|apply qreads_ret]. unfold matches_end.
  eapply qreads_bind; [apply (qreads_skip []); [done|by apply (solid_visible x29)]|].
  eapply qreads_bind; [by apply (qreads_at_no x2c)|apply qreads_ret].
Qed.

Lemma qreads_link_args t id fs r : ident_ok t -> is_u64 id -> fields_ok fs ->
  qreads link_args (show_target t id ++ bs ", " ++ so fs ++ bs ")" ++ r) (StepLink t id fs) (bs ")" ++ r).
Proof.
  intros Ht Hid Hf. unfold link_args. eapply qreads_bind; [by apply (qreads_target [])|].
  eapply qreads_bind; [apply (qreads_skip []); [done|by apply (solid_visible x2c)]|].
  eapply qreads_bind; [by apply (qreads_at_yes x2c)|].
  eapply (qreads_bind _ _ _ fs); [|apply qreads_ret]. eapply qreads_bind; [by apply (qreads_adv x2c)|]. by apply (qreads_object [x20]).
Qed.

Lemma function_step_reads s r : step_ok s ->
  match step_call s with
  | Some (name, args) => ident_ok name /\ qreads (parse_function_step name) (bs "(" ++ args ++ bs ")" ++ r) s r
  | None => True
  end.
Proof.
  intros Hs. destruct s as [f|p|f q k ef rr|f q k|fs| |t id fs|t id|n|n]; cbn [step_call step_ok] in *; [done|..]; (split; [by apply ascii_ident|]); unfold parse_function_step;
    repeat match goal with |- context [beqb (bs ?a) (bs ?b)] => let v := eval vm_compute in (beqb (bs a) (bs b)) in change (beqb (bs a) (bs b)) with v; cbv iota end;
    rewrite <- ?app_assoc.
  - apply (qreads_then _ StepFilter), qreads_parens. by apply (qreads_predicate []).
  - destruct Hs as (? & ? & ? & ? & ?). apply qreads_parens. by apply qreads_similar_args.
  - destruct Hs as (? & ? & ?). apply qreads_parens. by apply qreads_matches_args.
  - apply (qreads_then _ StepUpdate), qreads_parens. by apply (qreads_object []).
  - apply qreads_parens. apply qreads_ret.
  - destruct Hs as (? & ? & ?). apply qreads_parens. by apply qreads_link_args.
  - destruct Hs as [? ?]. apply (qreads_then _ (fun t => StepUnlink (fst t) (snd t)) _ (t, id)), qreads_parens. by apply (qreads_target []).
  - apply (qreads_then _ Limit), qreads_parens. apply (qreads_count []); [done|done|apply lit_end_paren].
  - apply (qreads_then _ Offset), qreads_parens. apply (qreads_count []); [done|done|apply lit_end_paren].
Qed.

Notation ss := (flat_map (show_step show_f64 show_f32 show_json)).

(** The text of steps begins with a point. *)
Lemma steps_text steps : ss steps = [] \/ exists s, ss steps = x2e :: s.
Proof. destruct steps as [|s steps]; [by left|]. right. cbn [flat_map]. rewrite show_step_call. by eexists. Qed.

Lemma steps_solid steps : solid (ss steps) /\ stops ident_char (ss steps) /\ head (ss steps) <> Some x28.
Proof. destruct (steps_text steps) as [->|(s & ->)]; [done|]. split_and!; [by apply solid_visible|by apply stops_ascii|done]. Qed.

(** A step and what is read behind it. *)
Lemma qreads_step {A} s r (k : Step -> QP A) x y : step_ok s -> solid r -> stops ident_char r -> head r <> Some x28 -> qreads (k s) r x y ->
  qreads (_ <- adv ;; _ <- q_skip_ws ;; ident <- q_parse_ident ;; _ <- q_skip_ws ;; call <- at_char (bs "(") ;;
    step <- (if call : bool then parse_function_step ident else q_ret (Traverse ident)) ;; k step) (show_step show_f64 show_f32 show_json s ++ r) x y.
Proof.
  intros Hs Hr1 Hr2 Hr3 Hk. rewrite show_step_call, <- !app_assoc. eapply qreads_bind; [by apply (qreads_adv x2e)|].
  pose proof (function_step_reads s r Hs) as Hf. destruct (step_call s) as [[name args]|] eqn:E.
  - destruct Hf as [Hn Hf]. rewrite <- !app_assoc.
    eapply qreads_bind; [apply (qreads_skip []); [done|by apply solid_ident]|].
    eapply qreads_bind; [apply (qreads_ident []); [done|done|by apply stops_ascii]|].
    eapply qreads_bind; [apply (qreads_skip []); [done|by apply (solid_visible x28)]|].
    eapply qreads_bind; [by apply (qreads_at_yes x28)|]. eapply qreads_bind; [exact Hf|done].
  - destruct s; try done. cbn [step_ok] in Hs. eapply qreads_bind; [apply (qreads_skip []); [done|by apply solid_ident]|].
    eapply qreads_bind; [by apply (qreads_ident [])|]. eapply qreads_bind; [by apply (qreads_skip [])|].
    eapply qreads_bind; [by apply (qreads_at_no x28)|]. eapply qreads_bind; [apply qreads_ret|done].
Qed.

Lemma qreads_steps_loop steps : Forall step_ok steps -> forall fuel saw acc, pages_ok saw steps -> (length (ss steps) < fuel)%nat ->
  qreads (steps_loop fuel saw acc) (ss steps) (acc ++ steps) [].
Proof.
  induction 1 as [|s steps Hs Hss IH]; intros fuel saw acc Hp Hf; (destruct fuel as [|fuel]; [lia|]); cbn [steps_loop].
  - rewrite app_nil_r. eapply qreads_bind; [by apply (qreads_skip [])|]. eapply qreads_bind; [by apply (qreads_at_no x2e)|apply qreads_ret].
  - cbn [flat_map pages_ok] in *. destruct (steps_solid steps) as (S1 & S2 & S3).
    destruct (limit_after saw s) as [saw'|] eqn:El; [|done].
    assert (exists t, show_step show_f64 show_f32 show_json s = x2e :: t) as (t & Et) by (rewrite show_step_call; by eexists).
    eapply (qreads_bind _ _ _ _ (show_step show_f64 show_f32 show_json s ++ ss steps));
      [apply (qreads_skip []); [done|rewrite Et; by apply solid_visible]|].
    eapply (qreads_bind _ _ _ true (show_step show_f64 show_f32 show_json s ++ ss steps)); [rewrite Et; by apply (qreads_at_yes x2e)|]. cbn [negb].
    apply qreads_step; [done..|]. rewrite El.
    replace (acc ++ s :: steps) with ((acc ++ [s]) ++ steps) by (by rewrite <- app_assoc). apply IH; [done|].
    rewrite length_app, Et in Hf. cbn [length] in Hf. lia.
Qed.

(** What follows the point of a source; [saved] is where the point is. *)
Definition source_rest (t : bytes) (saved : QParser) : QP Source :=
  _ <- adv ;;
  method <- q_parse_ident ;;
  _ <- q_skip_ws ;;
  if beqb method (bs "get") then id <- in_parens parse_id ;; q_ret (SrcGet t id)
  else if beqb method (bs "filter") then pr <- in_parens predicate ;; q_ret (SrcFilter t pr)
  else if beqb method (bs "create") then fields <- in_parens parse_object ;; q_ret (SrcCreate t fields)
  else if beqb method (bs "create_batch") then rows <- in_parens parse_rows ;; q_ret (SrcCreateBatch t rows)
  else fun _ => QOk (SrcAll t, saved).

Lemma qreads_source_start t i src r : ident_ok t -> qreads (fun saved => source_rest t saved saved) (bs "." ++ i) src r ->
  qreads parse_source (t ++ bs "." ++ i) src r.
Proof.
  intros Ht Hk. unfold parse_source. eapply qreads_bind; [apply (qreads_ident []); [done|done|by apply stops_ascii]|].
  eapply qreads_bind; [apply (qreads_skip []); [done|by apply (solid_visible x2e)]|].
  eapply qreads_bind; [by apply (qreads_at_yes x2e)|]. exact Hk.
Qed.

Lemma qreads_source_call t method args src r : ident_ok method ->
  (forall saved, qreads (if beqb method (bs "get") then id <- in_parens parse_id ;; q_ret (SrcGet t id)
  else if beqb method (bs "filter") then pr <- in_parens predicate ;; q_ret (SrcFilter t pr)
  else if beqb method (bs "create") then fields <- in_parens parse_object ;; q_ret (SrcCreate t fields)
  else if beqb method (bs "create_batch") then rows <- in_parens parse_rows ;; q_ret (SrcCreateBatch t rows)
  else fun _ => QOk (SrcAll t, saved)) (bs "(" ++ args) src r) ->
  qreads (fun saved => source_rest t saved saved) (bs "." ++ method ++ bs "(" ++ args) src r.
Proof.
  intros Hm Hk pos. set (saved := {| q_rest := _ |}). revert pos saved.
  assert (forall saved, qreads (source_rest t saved) (bs "." ++ method ++ bs "(" ++ args) src r) as H; [|intros pos; apply H].
  intros saved. unfold source_rest. eapply qreads_bind; [by apply (qreads_adv x2e)|].
  eapply qreads_bind; [apply (qreads_ident []); [done|done|by apply stops_ascii]|].
  eapply qreads_bind; [apply (qreads_skip []); [done|by apply (solid_visible x28)]|]. apply Hk.
Qed.

(** A step that is not a source leaves the type alone. *)
Lemma qreads_source_all t name r : ident_ok name -> ~ In name source_methods -> stops ident_char r ->
  qreads (fun saved => source_rest t saved saved) (bs "." ++ name ++ r) (SrcAll t) (bs "." ++ name ++ r).
Proof.
  intros Hn Hin Hr pos. exists pos. unfold source_rest, q_bind.
  destruct (qreads_adv x2e (name ++ r) eq_refl pos) as (pos1 & E1). change (x2e :: name ++ r) with (bs "." ++ name ++ r) in E1. rewrite E1.
  destruct (qreads_ident [] name r spaces_nil Hn Hr pos1) as (pos2 & E2). cbn [app] in E2. rewrite E2. unfold q_skip_ws.
  destruct (beqb_spec name (bs "get")) as [->|]; [by destruct Hin; left|].
  destruct (beqb_spec name (bs "filter")) as [->|]; [by destruct Hin; right; left|].
  destruct (beqb_spec name (bs "create")) as [->|]; [by destruct Hin; do 2 right; left|].
  destruct (beqb_spec name (bs "create_batch")) as [->|]; [by destruct Hin; do 3 right; left|done].
Qed.

Ltac eval_beqb := repeat match goal with |- context [beqb (bs ?a) (bs ?b)] =>
  let v := eval vm_compute in (beqb (bs a) (bs b)) in change (beqb (bs a) (bs b)) with v; cbv iota end.

Lemma qreads_source src steps : source_ok src -> Forall step_ok steps -> first_ok src steps ->
  qreads parse_source (show_source show_f64 show_json src ++ ss steps) src (ss steps).
Proof.
  intros Hs Hss Hf. destruct src as [t id|t p|t fs|t rows|t]; cbn [show_source source_ok] in *; [destruct Hs as [Ht Hs]..|]; rewrite <- ?app_assoc.
  - apply (qreads_source_start t (bs "get" ++ bs "(" ++ show_id id ++ bs ")" ++ ss steps)); [done|].
    apply qreads_source_call; [by apply ascii_ident|]. intros saved. eval_beqb.
    apply qreads_then, qreads_parens. apply (qreads_id []); [done|done|apply lit_end_paren].
  - apply (qreads_source_start t (bs "filter" ++ bs "(" ++ sp 0 p ++ bs ")" ++ ss steps)); [done|].
    apply qreads_source_call; [by apply ascii_ident|]. intros saved. eval_beqb.
    apply qreads_then, qreads_parens. by apply (qreads_predicate []).
  - apply (qreads_source_start t (bs "create" ++ bs "(" ++ so fs ++ bs ")" ++ ss steps)); [done|].
    apply qreads_source_call; [by apply ascii_ident|]. intros saved. eval_beqb.
    apply qreads_then, qreads_parens. by apply (qreads_object []).
  - apply (qreads_source_start t (bs "create_batch" ++ bs "(" ++ bs "[" ++ flat_map (fun m => so m ++ bs ",") rows ++ bs "]" ++ bs ")" ++ ss steps)); [done|].
    apply qreads_source_call; [by apply ascii_ident|]. intros saved. eval_beqb.
    apply qreads_then, qreads_parens. by apply qreads_rows.
  - destruct steps as [|s steps].
    { cbn [flat_map]. rewrite app_nil_r. unfold parse_source.
      eapply (qreads_bind _ _ _ t []); [pose proof (qreads_ident [] t [] spaces_nil Hs I) as H; by rewrite app_nil_r in H|]. eapply qreads_bind; [by apply (qreads_skip [])|].
      eapply qreads_bind; [by apply (qreads_at_no x2e)|apply qreads_ret]. }
    apply Forall_cons in Hss as [H1 _]. cbn [flat_map]. rewrite show_step_call, <- !app_assoc. apply qreads_source_start; [done|].
    pose proof (function_step_reads s [] H1) as Hc. destruct (steps_solid steps) as (_ & S2 & _).
    destruct (step_call s) as [[name args]|] eqn:E.
    + rewrite <- !app_assoc. apply qreads_source_all; [apply Hc| |by apply stops_ascii].
      destruct s; cbn [step_call] in E; try done; injection E as <- _; cbn; intuition congruence.
    + destruct s; try done. by apply qreads_source_all.
Qed.

Lemma query_printed q : query_ok q -> parse_query (show_query show_f64 show_f32 show_json q) = QOk q.
Proof.
  destruct q as [src steps]. intros (Hs & Hss & Hp & Hf). cbn [q_source q_steps] in *. unfold show_query, parse_query. cbn [q_source q_steps].
  assert (qreads parse_query_body (show_source show_f64 show_json src ++ ss steps) {| q_source := src; q_steps := steps |} []) as H.
  { unfold parse_query_body. eapply qreads_bind; [by apply qreads_source|]. eapply (qreads_bind _ _ _ steps); [|apply qreads_ret].
    apply (qreads_fuel (fun k => steps_loop k false [])). apply (qreads_steps_loop steps Hss _ false []); [done|lia]. }
  destruct (H 0) as (pos & E). unfold q_new. rewrite E. done.
Qed.

(** C34: the text of a query is read back as the query.  For every query whose
    names are identifiers (paths of one or two), whose numbers, ids and counts
    are in range and whose steps keep the rules of the language, with floats
    written as decimals and documents as containers that read back: parsing its
    printed text gives the same query, its predicates with the same operators
    and grouping, its strings with their quotes and backslashes, its steps in
    order. *)
Theorem query_text_round_trip q : query_ok q -> parse_query (show_query show_f64 show_f32 show_json q) = QOk q.
Proof. apply query_printed. Qed.

(** ** The client's builder *)

Inductive client_base := CAll (t : bytes) | CGet (t : bytes) (id : Z) | CFilterOn (t : bytes) (p : Predicate).
Inductive client_call := CFilter (p : Predicate) | CLimit (n : Z) | CMatches (field text : bytes) (k : Z).

(** The text of a chain of calls; predicates are given as text. *)
Definition client_start (b : client_base) : bytes :=
  match b with
  | CAll t => client_all t
  | CGet t id => client_get t id
  | CFilterOn t p => client_filter_on t (sp 0 p)
  end.

Definition client_text (b : client_base) (calls : list client_call) : bytes :=
  fold_left (fun text c =>
    match c with
    | CFilter p => client_filter text (sp 0 p)
    | CLimit n => client_limit text n
    | CMatches f q k => client_matches text f q k
    end) calls (client_start b).

(** The query that is meant: a filter right behind the type is its source. *)
Definition client_step (c : client_call) : Step :=
  match c with CFilter p => StepFilter p | CLimit n => Limit n | CMatches f q k => Matches f q k end.

Definition client_query (b : client_base) (calls : list client_call) : Query :=
  match b, calls with
  | CAll t, CFilter p :: calls => {| q_source := SrcFilter t p; q_steps := map client_step calls |}
  | CAll t, calls => {| q_source := SrcAll t; q_steps := map client_step calls |}
  | CGet t id, calls => {| q_source := SrcGet t id; q_steps := map client_step calls |}
  | CFilterOn t p, calls => {| q_source := SrcFilter t p; q_steps := map client_step calls |}
  end.

Definition client_base_ok (b : client_base) : Prop :=
  match b with
  | CAll t => ident_ok t
  | CGet t id => ident_ok t /\ is_count id
  | CFilterOn t p => ident_ok t /\ pred_ok p
  end.

Definition client_call_ok (c : client_call) : Prop :=
  match c with
  | CFilter p => pred_ok p
  | CLimit n => is_count n
  | CMatches f q k => ident_ok f /\ utf8_valid q = true /\ is_count k
  end.

Lemma client_text_steps calls : forall text,
  fold_left (fun text c => match c with CFilter p => client_filter text (sp 0 p) | CLimit n => client_limit text n | CMatches f q k => client_matches text f q k end) calls text
  = text ++ ss (map client_step calls).
Proof.
  induction calls as [|c calls IH]; intros text; cbn [fold_left map flat_map]; [by rewrite app_nil_r|]. rewrite IH.
  destruct c; cbn [client_step show_step]; unfold client_filter, client_limit, client_matches; by rewrite <- !app_assoc.
Qed.

Lemma client_pages calls : forall saw, pages_ok saw (map client_step calls).
Proof. induction calls as [|c calls IH]; intros saw; [done|]. destruct c; cbn; apply IH. Qed.

Lemma client_start_source b src : client_base_ok b ->
  src = match b with CAll t => SrcAll t | CGet t id => SrcGet t id | CFilterOn t p => SrcFilter t p end ->
  client_start b = show_source show_f64 show_json src /\ source_ok src.
Proof.
  intros Hb ->. destruct b as [t|t id|t p]; cbn in *; [done| |done]. destruct Hb as [Ht [H0 H1]].
  unfold client_get, show_id, as_i64. rewrite (Z.mod_small id) by lia. rewrite (proj2 (Z.ltb_lt _ _)) by lia.
  split; [done|]. split; [done|]. unfold is_u64. lia.
Qed.


End round_trip.

(** ** Examples *)

#[local] Existing Instance ascii_only.
#[local] Existing Instance plain_serde.

(** Floats of the examples, and no documents. *)
Definition demo_f64 (bits : Z) : bytes := if bits =? 0xbff8000000000000 then bs "-1.5" else bs "0.25".
Definition demo_f32 (bits : Z) : bytes := if bits =? 0x3f800000 then bs "1.0" else bs "0.25".
Definition no_json (j : JsonTree Z) : bytes := [].

Definition demo_pred : Predicate :=
  PAnd (POr (PCompare (bs "age") QGe (LitInt (-3))) (PContains (bs "name.first") [x22; x5c; xc3; xa9]))
       (PAnd (PCompare (bs "w") QLt (LitFloat 0xbff8000000000000)) (PCompare (bs "b") QNe LitNull)).

Definition demo_query : Query :=
  {| q_source := SrcCreateBatch (bs "User") [[(bs "a", LitInt 1); (bs "b", LitString [x22])]; []];
     q_steps := [Traverse (bs "posts"); StepFilter demo_pred; Similar (bs "v") (SimVector [0x3f800000; 0x3e800000]) 3 (Some 4) None;
                 Offset 2; Limit 5; StepLink (bs "Tag") (2 ^ 64 - 1) [(bs "w", LitBool false)]] |}.

Lemma query_text_round_trip_witness : parse_query (show_query demo_f64 demo_f32 no_json demo_query) = QOk demo_query.
Proof.
  assert (Hid : forall n, negb (beqb n []) && forallb ascii_word n = true -> ident_ok n) by apply ascii_ident.
  assert (Hd : forall d, forallb ascii_digit d = true -> chars is_ascii_digit d).
  { induction d as [|b d IH]; cbn [forallb]; [constructor|]. intros [Hb Hf]%andb_true_iff. apply (chars_cons _ [b] d); [|done|by apply IH].
    apply whole_ascii. unfold ascii_digit in Hb. apply in_range_spec in Hb. lia. }
  apply query_text_round_trip. split_and!; [split; [by apply Hid|]|..|done|done].
  - apply Forall_cons_2; [|apply Forall_cons_2; [|by apply Forall_nil_2]]; (split; [repeat constructor|]); [|by apply Forall_nil_2].
    apply Forall_cons_2; [|apply Forall_cons_2; [|by apply Forall_nil_2]]; (split; [by apply Hid|]); [split; by vm_compute|done].
  - assert (Hp : pred_ok demo_f64 no_json demo_pred).
    { refine (conj (conj (conj _ _) (conj _ _)) (conj (conj _ _) (conj _ _))); [left; by apply Hid|split; by vm_compute| |done|left; by apply Hid| |left; by apply Hid|done].
      - right. exists (bs "name"), (bs "first"). split_and!; [done|by apply Hid|by apply Hid|].
        exists (bs "f"), (bs "irst"). split_and!; [done|by apply whole_ascii|done].
      - exists (bs "-"), (bs "1"), (bs "5"). split_and!; [done|by right|by apply Hd|done|by apply Hd|by vm_compute]. }
    repeat apply Forall_cons_2; [by apply Hid|done| |split; by vm_compute|split; by vm_compute| |by apply Forall_nil_2].
    + split_and!; [by apply Hid| |split; by vm_compute|split; by vm_compute|done].
      apply Forall_cons_2; [|apply Forall_cons_2; [|by apply Forall_nil_2]].
      * exists 0x3ff0000000000000. split; [|by vm_compute]. exists [], (bs "1"), (bs "0"). split_and!; [done|by left|by apply Hd|done|by apply Hd|by vm_compute].
      * exists 0x3fd0000000000000. split; [|by vm_compute]. exists [], (bs "0"), (bs "25"). split_and!; [done|by left|by apply Hd|done|by apply Hd|by vm_compute].
    + split_and!; [by apply Hid|split; by vm_compute|]. split; [repeat constructor|]. apply Forall_cons_2; [|by apply Forall_nil_2]. split; [by apply Hid|done].
Defined.


(** An id from two to the 63rd on is written by the client and refused by the server. *)
Example client_id_refused : parse_query (client_get (bs "User") (2 ^ 63)) = QErr (QParse 28).
Proof. by vm_compute. Qed.
