(* ===== verification/FulltextQuery.v ===== *)
(** * Full-text query text (crates/rhypedb-engine/src/fulltext/query.rs)

    The small language of [.matches]: bare words, [+required] clauses, quoted
    phrases and [prefix*] clauses.  The parser reads the characters of the text
    and analyzes each clause with the analyzer of the field.  The messages of
    the errors are not modelled, their payloads are. *)

From Stdlib Require Import ZArith Lia Bool List Strings.Byte Strings.String.
From stdpp Require Import base tactics option list.
From S2P Require Import Prelude ByteMap Values Utf8 Fulltext.

Local Open Scope Z_scope.
Local Open Scope bytes_scope.

Definition MIN_PREFIX_CHARS : Z := 2.
Definition MAX_QUERY_BYTES : Z := 16 * 1024.
Definition MAX_QUERY_TERMS : Z := 256.
Definition MAX_PHRASE_TERMS : Z := 32.

(** ** Clauses *)

Record Clause := {
  c_required : bool;
  c_terms : list bytes;
  c_prefix : bool;
  c_offsets : list Z;
}.

Definition is_phrase (c : Clause) : bool := (1 <? List.length (c_terms c))%nat.

Definition clause_term (term : bytes) (required : bool) : Clause :=
  {| c_required := required; c_terms := [term]; c_prefix := false; c_offsets := [] |}.

Definition clause_phrase (terms : list bytes) (required : bool) : Clause :=
  {| c_required := required; c_terms := terms; c_prefix := false;
     c_offsets := map Z.of_nat (seq 0 (List.length terms)) |}.

Definition clause_offset (c : Clause) (i : nat) : Z := default (Z.of_nat i) (c_offsets c !! i).

(** [strip_suffix('*')]. *)
Definition strip_star (s : bytes) : option bytes :=
  match last s with Some x2a => Some (take (List.length s - 1) s) | _ => None end.

(** Every clause has a term. *)
Definition prefix_text (c : Clause) : option bytes :=
  if c_prefix c then head (c_terms c) ≫= strip_star else None.

Record ParsedQuery := { pq_clauses : list Clause }.

Definition pq_is_empty (q : ParsedQuery) : bool := match pq_clauses q with [] => true | _ => false end.
Definition has_required (q : ParsedQuery) : bool := existsb c_required (pq_clauses q).
Definition needs_positions (q : ParsedQuery) : bool := existsb is_phrase (pq_clauses q).
Definition has_prefix (q : ParsedQuery) : bool := existsb c_prefix (pq_clauses q).

(** Keep the first of each term. *)
Fixpoint first_seen (seen l : list bytes) : list bytes :=
  match l with
  | [] => []
  | t :: l => if existsb (beqb t) seen then first_seen seen l else t :: first_seen (t :: seen) l
  end.

Definition distinct_terms (q : ParsedQuery) : list bytes := first_seen [] (List.concat (map c_terms (pq_clauses q))).

(** ** Errors *)

Inductive QuerySyntaxError :=
| UnterminatedPhrase
| NoSearchableTerms
| PrefixTooShort (raw prefix : bytes)
| PrefixInPhrase (phrase : bytes)
| QueryTooLong (n : Z)
| TooManyTerms
| PhraseTooLong.

(** [SFuel]: the loop ran out of rounds. *)
Inductive sres (A : Type) := SOk (a : A) | SErr (e : QuerySyntaxError) | SFuel.
Arguments SOk {A} a.
Arguments SErr {A} e.
Arguments SFuel {A}.

#[global] Instance sres_bind : MBind sres := fun A B f m =>
  match m with SOk a => f a | SErr e => SErr e | SFuel => SFuel end.

(** ** The parser *)

Record QueryState := { qs_clauses : list Clause; qs_term_count : Z; qs_dropped : Z }.

Definition push (st : QueryState) (c : Clause) : sres QueryState :=
  let n := qs_term_count st + Z.of_nat (List.length (c_terms c)) in
  if MAX_QUERY_TERMS <? n then SErr TooManyTerms
  else SOk {| qs_clauses := qs_clauses st ++ [c]; qs_term_count := n; qs_dropped := qs_dropped st |}.

Fixpoint push_all (st : QueryState) (cs : list Clause) : sres QueryState :=
  match cs with [] => SOk st | c :: cs => st ← push st c; push_all st cs end.

Definition add_dropped (st : QueryState) (n : Z) : QueryState :=
  {| qs_clauses := qs_clauses st; qs_term_count := qs_term_count st; qs_dropped := as_u32 (qs_dropped st + n) |}.

(** The text up to the closing quote, and the characters after it. *)
Fixpoint quoted (text : bytes) (cs : list bytes) : option (bytes * list bytes) :=
  match cs with
  | [] => None
  | c :: cs => if beqb c [x22] then Some (text, cs) else quoted (text ++ c) cs
  end.

(** The text up to a space or a quote, which is left to be read. *)
Fixpoint bare (text : bytes) (cs : list bytes) : bytes * list bytes :=
  match cs with
  | [] => (text, [])
  | c :: cs' => if is_whitespace c || beqb c [x22] then (text, cs) else bare (text ++ c) cs'
  end.

(** [trim_end_matches('*')]. *)
Fixpoint trim_stars (s : bytes) : bytes :=
  match s with
  | [] => []
  | b :: s => match b, trim_stars s with x2a, [] => [] | _, r => b :: r end
  end.

Section parser.
Context {T : TextLib}.
Variable analyzer : Analyzer.

Definition parse_phrase (st : QueryState) (required : bool) (text : bytes) : sres QueryState :=
  if existsb (fun b => match b with x2a => true | _ => false end) text then SErr (PrefixInPhrase text)
  else
    let analyzed := analyze_opts analyzer text false in
    let st := add_dropped st (stop_words_dropped analyzed) in
    let tokens := a_tokens analyzed in
    if MAX_PHRASE_TERMS <? Z.of_nat (List.length tokens) then SErr PhraseTooLong
    else
      match tokens with
      | [] => SOk st
      | first :: _ =>
          let base := t_position first in
          let offsets := map (fun t => as_u32 (t_position t - base)) tokens in
          push st {| c_required := required; c_terms := map t_term tokens; c_prefix := false;
                     c_offsets := if (1 <? List.length offsets)%nat then offsets else [] |}
      end.

(** The plain tokens of a word and the token before its star. *)
Definition prefix_token (stem : bytes) (tokens : list Token) : sres (list Token * option bytes) :=
  let kept := a_tokens (analyze_opts analyzer stem true) in
  match last kept with
  | Some t =>
      if negb (existsb (fun d => t_position d =? t_position t) tokens) then SOk (tokens, None)
      else if MIN_PREFIX_CHARS <=? Z.of_nat (List.length (chars (t_term t)))
      then SOk (take (List.length tokens - 1) tokens, Some (t_term t))
      else SErr (PrefixTooShort stem (t_term t))
  | None => SErr (PrefixTooShort stem [])
  end.

Definition parse_word (st : QueryState) (required : bool) (word : bytes) : sres QueryState :=
  let stem := trim_stars word in
  let is_prefix := negb (List.length stem =? List.length word)%nat in
  let analyzed := analyze_opts analyzer stem false in
  let st := add_dropped st (stop_words_dropped analyzed) in
  '(tokens, prefix) ← if (is_prefix : bool) then prefix_token stem (a_tokens analyzed) else SOk (a_tokens analyzed, None);
  st ← push_all st (map (fun t => clause_term (t_term t) required) tokens);
  match prefix with
  | Some p => push st {| c_required := required; c_terms := [p ++ [x2a]]; c_prefix := true; c_offsets := [] |}
  | None => SOk st
  end.

(** A clause at a character that is not a space. *)
Definition parse_clause (st : QueryState) (required : bool) (cs : list bytes) : sres (QueryState * list bytes) :=
  match cs with
  | [x22] :: cs =>
      match quoted [] cs with
      | None => SErr UnterminatedPhrase
      | Some (text, cs) => st ← parse_phrase st required text; SOk (st, cs)
      end
  | _ =>
      let '(word, cs) := bare [] cs in
      st ← parse_word st required word; SOk (st, cs)
  end.

Fixpoint query_loop (fuel : nat) (st : QueryState) (cs : list bytes) : sres QueryState :=
  match fuel with
  | O => SFuel
  | S fuel =>
      match cs with
      | [] => SOk st
      | c :: cs' =>
          if is_whitespace c then query_loop fuel st cs'
          else if beqb c [x2b] then
            match cs' with
            | c' :: _ =>
                if is_whitespace c' then query_loop fuel st cs'
                else '(st, cs) ← parse_clause st true cs'; query_loop fuel st cs
            | [] => query_loop fuel st []
            end
          else '(st, cs) ← parse_clause st false cs; query_loop fuel st cs
      end
  end.

Definition parse_query (raw : bytes) : sres ParsedQuery :=
  if MAX_QUERY_BYTES <? len raw then SErr (QueryTooLong (len raw))
  else
    let cs := chars raw in
    st ← query_loop (S (List.length cs)) {| qs_clauses := []; qs_term_count := 0; qs_dropped := 0 |} cs;
    match qs_clauses st with
    | [] => if qs_dropped st =? 0 then SErr NoSearchableTerms else SOk {| pq_clauses := [] |}
    | cs => SOk {| pq_clauses := cs |}
    end.

End parser.

(** ** What the parser promises *)

(** Offsets from [lo] up, each above the one before. *)
Fixpoint increasing (lo : Z) (os : list Z) : Prop :=
  match os with [] => True | o :: os => lo <= o < MAX_ANALYZED_WORDS /\ increasing (o + 1) os end.

Section well_formed.
(** What is known of the terms of the analyzer. *)
Variable P : bytes -> Prop.

Definition term_ok (t : bytes) : Prop := 0 < len t <= MAX_TERM_BYTES /\ P t.

(** A term, a prefix of at least two characters with its star, or a phrase of at
    most 32 words whose relative positions ascend from zero. *)
Definition clause_ok (c : Clause) : Prop :=
  if c_prefix c then
    exists p, c_terms c = [p ++ [x2a]] /\ prefix_text c = Some p /\ term_ok p /\
      MIN_PREFIX_CHARS <= Z.of_nat (List.length (chars p)) /\ c_offsets c = []
  else
    c_terms c <> [] /\ Forall term_ok (c_terms c) /\ Z.of_nat (List.length (c_terms c)) <= MAX_PHRASE_TERMS /\
    if is_phrase c then List.length (c_offsets c) = List.length (c_terms c) /\ c_offsets c !! 0%nat = Some 0 /\ increasing 0 (c_offsets c)
    else c_offsets c = [].

Definition count_terms (cs : list Clause) : Z := Z.of_nat (List.length (List.concat (map c_terms cs))).

Record query_ok (q : ParsedQuery) : Prop := {
  qo_clauses : Forall clause_ok (pq_clauses q);
  qo_terms : count_terms (pq_clauses q) <= MAX_QUERY_TERMS;
}.

Lemma clause_ok_terms c : clause_ok c -> c_terms c <> [].
Proof. unfold clause_ok. case_match; [by intros (p & -> & _)|]. by intros [? _]. Qed.

(** Every clause has a term, so there are no more clauses than terms. *)
Lemma clauses_bound q : query_ok q -> Z.of_nat (List.length (pq_clauses q)) <= MAX_QUERY_TERMS.
Proof.
  intros [Hf Hn]. etrans; [|exact Hn]. unfold count_terms. clear Hn. induction (pq_clauses q) as [|c cs IH]; [done|].
  apply Forall_cons in Hf as [Hc Hf]. apply clause_ok_terms in Hc. specialize (IH Hf). cbn [map List.concat List.length]. rewrite length_app.
  destruct (c_terms c); [done|]. cbn [List.length]. lia.
Qed.

Definition state_ok (st : QueryState) : Prop :=
  Forall clause_ok (qs_clauses st) /\ qs_term_count st = count_terms (qs_clauses st) /\ qs_term_count st <= MAX_QUERY_TERMS.

Lemma count_terms_snoc cs c : count_terms (cs ++ [c]) = count_terms cs + Z.of_nat (List.length (c_terms c)).
Proof. unfold count_terms. rewrite map_app, concat_app, length_app. cbn. rewrite app_nil_r. lia. Qed.

Lemma push_ok st c : state_ok st -> clause_ok c -> match push st c with SOk st' => state_ok st' | SErr _ => True | SFuel => False end.
Proof.
  intros (Hf & Hn & Hm) Hc. unfold push. destruct (MAX_QUERY_TERMS <? _) eqn:E; [done|]. apply Z.ltb_ge in E. unfold state_ok. cbn [qs_clauses qs_term_count].
  rewrite count_terms_snoc, <- Hn. split_and!; [|done..]. apply Forall_app. split; [done|]. by constructor.
Qed.

Lemma push_all_ok cs : forall st, state_ok st -> Forall clause_ok cs ->
  match push_all st cs with SOk st' => state_ok st' | SErr _ => True | SFuel => False end.
Proof.
  induction cs as [|c cs IH]; intros st Hst Hc; [done|]. apply Forall_cons in Hc as [Hc Hcs]. cbn [push_all].
  pose proof (push_ok st c Hst Hc) as H. destruct (push st c) as [st'| |]; cbn [mbind sres_bind]; [|done..]. by apply IH.
Qed.

Context {T : TextLib}.
Variable a : Analyzer.
Hypothesis HP : forall text keep t, In t (a_tokens (analyze_opts a text keep)) -> P (t_term t).

Lemma analyze_opts_tokens text keep : tokens_ok 0 MAX_ANALYZED_WORDS (a_tokens (analyze_opts a text keep)).
Proof.
  assert (H : forall fold, tokens_ok 0 MAX_ANALYZED_WORDS (a_tokens (analyze_words text fold))).
  { intros fold. unfold analyze_words. set (ws := take _ _).
    assert (Hl : Z.of_nat (List.length ws) <= MAX_ANALYZED_WORDS).
    { unfold ws. rewrite length_take. unfold MAX_ANALYZED_WORDS. lia. }
    clearbody ws. by destruct (analyze_loop_tokens fold ws 0 [] 0) as (ts & -> & Ht & _); [lia..|]. }
  destruct a; apply H.
Qed.

(** Tokens whose terms are as the analyzer makes them. *)
Definition tokens_wf (ts : list Token) : Prop := tokens_ok 0 MAX_ANALYZED_WORDS ts /\ forall t, In t ts -> P (t_term t).

Lemma analyze_opts_wf text keep : tokens_wf (a_tokens (analyze_opts a text keep)).
Proof. split; [apply analyze_opts_tokens|]. intros t. apply HP. Qed.

Lemma tokens_in lo hi ts t : tokens_ok lo hi ts -> In t ts -> 0 < len (t_term t) <= MAX_TERM_BYTES.
Proof. revert lo. induction ts as [|u ts IH]; intros lo; [done|]. intros (H & _ & Hts) [->|Hin]; [done|by eapply IH]. Qed.

Lemma token_ok ts t : tokens_wf ts -> In t ts -> term_ok (t_term t).
Proof. intros [H1 H2] Hin. split; [by eapply tokens_in|by apply H2]. Qed.

Lemma tokens_terms ts : tokens_wf ts -> Forall term_ok (map t_term ts).
Proof. intros H. apply List.Forall_forall. intros x Hx. apply in_map_iff in Hx as (t & <- & Ht). by eapply token_ok. Qed.

Lemma tokens_offsets base lo ts : 0 <= base <= lo -> tokens_ok lo MAX_ANALYZED_WORDS ts ->
  increasing (lo - base) (map (fun t => as_u32 (t_position t - base)) ts).
Proof.
  revert lo. induction ts as [|t ts IH]; intros lo Hb Hts; [done|]. destruct Hts as (_ & Hp & Hts). cbn [map increasing].
  rewrite as_u32_small by (unfold is_u32, MAX_ANALYZED_WORDS in *; lia). split; [lia|].
  replace (t_position t - base + 1) with (t_position t + 1 - base) by lia. apply IH; [lia|done].
Qed.

Lemma parse_phrase_ok st required text : state_ok st ->
  match parse_phrase a st required text with SOk st' => state_ok st' | SErr _ => True | SFuel => False end.
Proof.
  intros Hst. unfold parse_phrase. destruct (existsb _ text); [done|]. set (an := analyze_opts a text false).
  assert (Hst' : state_ok (add_dropped st (stop_words_dropped an))) by done.
  assert (Hts : tokens_wf (a_tokens an)) by apply analyze_opts_wf.
  clearbody an. destruct (MAX_PHRASE_TERMS <? _) eqn:El; [done|]. apply Z.ltb_ge in El. destruct (a_tokens an) as [|t ts] eqn:Et; [done|]. apply push_ok; [done|].
  unfold clause_ok, is_phrase. cbn [c_prefix c_terms c_offsets]. rewrite !length_map. split; [done|].
  split; [by apply tokens_terms|]. split; [done|]. destruct (1 <? List.length (t :: ts))%nat eqn:E; [|done]. rewrite length_map. split; [done|].
  destruct Hts as [(Ht & Hp & Hts) _]. split.
  - cbn. by rewrite Z.sub_diag.
  - rewrite <- (Z.sub_diag (t_position t)). apply tokens_offsets; [lia|]. split; [done|]. split; [lia|done].
Qed.

Lemma tokens_wf_last ts t : tokens_wf ts -> last ts = Some t -> term_ok (t_term t).
Proof. intros H Hl. eapply token_ok; [done|]. apply last_Some in Hl as (ts' & ->). apply in_or_app. right. by left. Qed.

Lemma tokens_ok_take n : forall lo hi ts, tokens_ok lo hi ts -> tokens_ok lo hi (take n ts).
Proof.
  induction n as [|n IH]; intros lo hi [|t ts] H; [done..|]. destruct H as (H & Hp & Hts). cbn [take tokens_ok].
  split; [done|]. split; [done|]. by apply IH.
Qed.

Lemma tokens_wf_take n ts : tokens_wf ts -> tokens_wf (take n ts).
Proof. intros [H1 H2]. split; [by apply tokens_ok_take|]. intros t Ht. apply H2. rewrite <- (take_drop n ts). apply in_or_app. by left. Qed.

Lemma strip_star_app p : strip_star (p ++ [x2a]) = Some p.
Proof. unfold strip_star. rewrite last_snoc, length_app. cbn [List.length]. rewrite Nat.add_sub. by rewrite take_app_length. Qed.

Lemma term_clauses_ok required ts : tokens_wf ts -> Forall clause_ok (map (fun t => clause_term (t_term t) required) ts).
Proof.
  intros H. apply List.Forall_forall. intros c Hc. apply in_map_iff in Hc as (t & <- & Ht). unfold clause_ok.
  cbn [clause_term c_prefix c_terms c_offsets is_phrase List.length]. split; [done|]. split; [|done]. apply Forall_singleton. by eapply token_ok.
Qed.

Lemma parse_word_ok st required word : state_ok st ->
  match parse_word a st required word with SOk st' => state_ok st' | SErr _ => True | SFuel => False end.
Proof.
  intros Hst. unfold parse_word. set (stem := trim_stars word). set (an := analyze_opts a stem false).
  assert (Hst' : state_ok (add_dropped st (stop_words_dropped an))) by done.
  assert (Hts : tokens_wf (a_tokens an)) by apply analyze_opts_wf.
  assert (Hk : tokens_wf (a_tokens (analyze_opts a stem true))) by apply analyze_opts_wf.
  clearbody stem an. match goal with |- context [ if ?b then ?x else ?y ] => set (m := if b then x else y) end.
  assert (Hm : match m with
    | SOk (tokens, p) => tokens_wf tokens /\
        match p with Some p => term_ok p /\ MIN_PREFIX_CHARS <= Z.of_nat (List.length (chars p)) | None => True end
    | SErr _ => True | SFuel => False end).
  { subst m. destruct (negb _); [|done]. unfold prefix_token. destruct (last _) as [t|] eqn:El; [|done].
    destruct (negb _); [done|]. destruct (MIN_PREFIX_CHARS <=? _) eqn:Em; [|done]. split; [by apply tokens_wf_take|].
    split; [by eapply tokens_wf_last|]. by apply Z.leb_le. }
  destruct m as [[tokens p]| |]; cbn [mbind sres_bind]; [|done..]. destruct Hm as [Htok Hp].
  pose proof (push_all_ok (map (fun t => clause_term (t_term t) required) tokens) _ Hst' (term_clauses_ok _ _ Htok)) as H.
  destruct (push_all _ _) as [st''| |]; cbn [mbind sres_bind]; [|done..]. destruct p as [p|]; [|done]. destruct Hp as [Hp Hm].
  apply push_ok; [done|]. unfold clause_ok, prefix_text. cbn [c_prefix c_terms c_offsets head mbind option_bind].
  exists p. by rewrite strip_star_app.
Qed.

Lemma quoted_shorter cs : forall text text' cs', quoted text cs = Some (text', cs') -> (List.length cs' < List.length cs)%nat.
Proof.
  induction cs as [|c cs IH]; intros text text' cs'; cbn [quoted]; [done|]. case_match.
  - intros [= _ <-]. cbn. lia.
  - intros H'. apply IH in H'. cbn. lia.
Qed.

Lemma bare_shorter cs : forall text, (List.length (bare text cs).2 <= List.length cs)%nat.
Proof. induction cs as [|c cs IH]; intros text; cbn [bare]; [done|]. case_match; cbn [snd]; [done|]. cbn. etrans; [apply IH|lia]. Qed.

Lemma bare_progress c cs text : is_whitespace c = false -> c <> [x22] -> (List.length (bare text (c :: cs)).2 <= List.length cs)%nat.
Proof.
  intros Hw Hq. cbn [bare]. rewrite Hw. destruct (beqb_spec c [x22]); [done|]. apply bare_shorter.
Qed.

(** A clause at a character that is not a space consumes it. *)
Lemma parse_clause_ok st required c cs : state_ok st -> is_whitespace c = false ->
  match parse_clause a st required (c :: cs) with
  | SOk (st', cs') => state_ok st' /\ (List.length cs' <= List.length cs)%nat | SErr _ => True | SFuel => False end.
Proof.
  intros Hst Hw. destruct (decide (c = [x22])) as [->|Hq].
  - cbn [parse_clause]. destruct (quoted [] cs) as [[text cs']|] eqn:Eq; [|done]. apply quoted_shorter in Eq.
    pose proof (parse_phrase_ok st required text Hst) as H. destruct (parse_phrase _ _ _ _); cbn [mbind sres_bind]; [|done..]. split; [done|lia].
  - assert (E : parse_clause a st required (c :: cs) = (let '(word, cs) := bare [] (c :: cs) in st ← parse_word a st required word; SOk (st, cs))).
    { destruct c as [|b [|b' c]]; [done| |by destruct b]. by destruct b. }
    rewrite E. pose proof (bare_progress c cs [] Hw Hq) as Hb. destruct (bare [] (c :: cs)) as [word cs']. cbn [snd] in Hb.
    pose proof (parse_word_ok st required word Hst) as H. destruct (parse_word _ _ _ _); cbn [mbind sres_bind]; [|done..]. done.
Qed.

Lemma query_loop_ok fuel : forall st cs, state_ok st -> (List.length cs < fuel)%nat ->
  match query_loop a fuel st cs with SOk st' => state_ok st' | SErr _ => True | SFuel => False end.
Proof.
  induction fuel as [|fuel IH]; intros st cs Hst Hf; [lia|]. destruct cs as [|c cs]; cbn [query_loop]; [done|]. cbn [List.length] in Hf.
  destruct (is_whitespace c) eqn:Ew; [apply IH; [done|lia]|].
  assert (Hgo : forall required c' cs', is_whitespace c' = false -> (List.length (c' :: cs') <= List.length (c :: cs))%nat ->
    match ('(st, cs) ← parse_clause a st required (c' :: cs'); query_loop a fuel st cs) with SOk st' => state_ok st' | SErr _ => True | SFuel => False end).
  { intros required c' cs' Hw Hl. cbn [List.length] in Hl. pose proof (parse_clause_ok st required c' cs' Hst Hw) as H.
    destruct (parse_clause _ _ _ _) as [[st' cs'']| |]; cbn [mbind sres_bind]; [|done..]. destruct H as [H1 H2]. apply IH; [done|lia]. }
  destruct (beqb c [x2b]); [|apply Hgo; [done|cbn; lia]]. destruct cs as [|c' cs]; [apply IH; [done|cbn; lia]|].
  destruct (is_whitespace c') eqn:Ew'; [apply IH; [done|lia]|]. apply Hgo; [done|cbn; lia].
Qed.

Lemma parse_query_wf raw :
  parse_query a raw <> SFuel /\ forall q, parse_query a raw = SOk q -> len raw <= MAX_QUERY_BYTES /\ query_ok q.
Proof.
  unfold parse_query. case_match eqn:El; [done|]. apply Z.ltb_ge in El.
  pose proof (query_loop_ok (S (List.length (chars raw))) {| qs_clauses := []; qs_term_count := 0; qs_dropped := 0 |} (chars raw)) as H.
  destruct (query_loop _ _ _ _) as [st| |]; cbn [mbind sres_bind]; [|done|by destruct H; [|lia]].
  destruct H as (Hf & Hn & Hm); [split_and!; [by constructor|done..]|lia|].
  destruct (qs_clauses st) as [|c cs] eqn:Ec.
  - case_match; [done|]. split; [done|]. intros q [= <-]. split; [done|]. split; [by constructor|done].
  - split; [done|]. intros q [= <-]. split; [done|]. split; cbn [pq_clauses]; [done|lia].
Qed.

End well_formed.

(** ** Examples *)


(** A word that stems to several tokens, a phrase with a dropped word in it, a
    required prefix, and stop words that constrain nothing. *)
Example query_example :
  parse_query (T := toy_text) English ([x2b] ++ bs "State of " ++ [x22] ++ bs "the state of art" ++ [x22] ++ bs " the* +cam**") =
    SOk {| pq_clauses := [
      clause_term (bs "state") true;
      {| c_required := false; c_terms := [bs "state"; bs "art"]; c_prefix := false; c_offsets := [0; 2] |};
      {| c_required := true; c_terms := [bs "cam*"]; c_prefix := true; c_offsets := [] |}] |} /\
  parse_query (T := toy_text) English (bs "of the") = SOk {| pq_clauses := [] |} /\
  parse_query (T := toy_text) Simple (bs " + ") = SErr NoSearchableTerms /\
  parse_query (T := toy_text) Simple (bs "c*") = SErr (PrefixTooShort (bs "c") (bs "c")) /\
  parse_query (T := toy_text) Simple ([x22] ++ bs "a b") = SErr UnterminatedPhrase /\
  parse_query (T := toy_text) Simple (List.concat (repeat (bs "a ") 257)) = SErr TooManyTerms.
Proof. by vm_compute. Qed.
