(* ===== verification/FulltextSearch.v ===== *)
(** * Full-text search (crates/rhypedb-engine/src/fulltext/search.rs,
    candidates.rs)

    BM25 scoring over decoded postings, and the two phases of a search: the
    candidates a scan collected, and their ranking over the whole field
    ([score]) or over the documents the caller may read ([score_visible]).
    Scores are IEEE-754 single floats computed with the Standard Library's
    [spec_float]; the logarithm of the platform is the class [MathLib].

    A hash map from strings is a sorted map, one from ids a [gmap]; the order in
    which the code walks one is not specified, here it is that of the model.
    The clock is read at every 1024th document, if there is a deadline. *)

From Stdlib Require Import ZArith Lia Bool List Strings.Byte Strings.String SpecFloat.
From stdpp Require Import base tactics option list sorting gmap.
From S2P Require Import Prelude ByteMap Values Utf8 Ieee Posting Fulltext Engine FilterScan QueryReads FulltextQuery.

Local Open Scope Z_scope.

(** ** Single floats *)

Abbreviation f32 := spec_float.

Definition f32_add : f32 -> f32 -> f32 := SFadd 24 128.
Definition f32_sub : f32 -> f32 -> f32 := SFsub 24 128.
Definition f32_mul : f32 -> f32 -> f32 := SFmul 24 128.
Definition f32_div : f32 -> f32 -> f32 := SFdiv 24 128.

(** [n as f32] for an integer, and [x as f32] for an [f64]. *)
Definition u64_as_f32 (n : Z) : f32 := binary_normalize 24 128 n 0 false.
Definition narrow_f32 (x : spec_float) : f32 :=
  match x with
  | S754_finite s m e => binary_normalize 24 128 (if s then Zneg m else Zpos m) e s
  | _ => x
  end.

(** [total_cmp] orders patterns by this number. *)
Definition f32_rank (bits : Z) : Z := if 2 ^ 31 <=? bits then - 1 - bits mod 2 ^ 31 else bits mod 2 ^ 31.

Class MathLib := { f64_ln : spec_float -> spec_float }.

(** ** Scoring *)

(** The nearest floats to 1.2 and 0.75. *)
Definition BM25_K1 : f32 := S754_finite false 10066330 (-23).
Definition BM25_B : f32 := S754_finite false 12582912 (-24).
Definition f32_one : f32 := u64_as_f32 1.

(** The score is its bits. *)
Record FulltextHit := { hit_id : Z; hit_score : Z }.

(** The statistics a scan read. *)
Abbreviation CorpusStats := FulltextStats.

Abbreviation PostingList := (list (Z * Posting)).

Inductive RestrictScope := RankOnly | Corpus.

Definition DEADLINE_CHECK_EVERY : Z := 1024.

(** Documents visited, and readings of the clock. *)
Record Tick := { visited : Z; reads : nat }.

Record Acc := { acc_score : f32; required_hits : Z }.

(** Descending scores, then ascending ids. *)
Definition hit_le (a b : FulltextHit) : Prop :=
  f32_rank (hit_score b) < f32_rank (hit_score a) \/
  f32_rank (hit_score b) = f32_rank (hit_score a) /\ hit_id a <= hit_id b.
#[global] Instance hit_le_dec : RelDecision hit_le.
Proof. intros a b. unfold hit_le. apply _. Defined.

(** The last posting of an id, as [collect] into a map leaves it. *)
Definition posting_map (l : PostingList) : gmap Z Posting := fold_left (fun m e => <[ e.1 := e.2 ]> m) l ∅.

(** [min_by_key] of the lengths: the first of the shortest. *)
Fixpoint shortest (m : gmap Z Posting) (ms : list (gmap Z Posting)) : gmap Z Posting :=
  match ms with
  | [] => m
  | m' :: ms => shortest (if (size m' <? size m)%nat then m' else m) ms
  end.

(** Positions ascend, so the binary search is membership. *)
Definition has_position (p : Posting) (want : Z) : bool := existsb (Z.eqb want) (p_positions p).

(** [p.checked_add(offset)] in [u32]. *)
Definition checked_add_u32 (a b : Z) : option Z := if a + b <=? u32_max then Some (a + b) else None.

Fixpoint later_match (c : Clause) (p : Z) (i : nat) (posts : list Posting) : bool :=
  match posts with
  | [] => true
  | post :: posts =>
      match checked_add_u32 p (clause_offset c i) with Some want => has_position post want | None => false end
      && later_match c p (S i) posts
  end.

Definition phrase_matched (c : Clause) (per_term : list Posting) : bool :=
  match per_term with
  | [] => false
  | post :: posts => existsb (fun p => later_match c p 1 posts) (p_positions post)
  end.

(** The terms not seen before, with their postings. *)
Fixpoint distinct_pairs (seen : list bytes) (l : list (bytes * Posting)) : list (bytes * Posting) :=
  match l with
  | [] => []
  | (t, p) :: l => if existsb (beqb t) seen then distinct_pairs seen l else (t, p) :: distinct_pairs (t :: seen) l
  end.

Section scoring.
Context {M : MathLib}.

(** [idf] of a term in [df] of [n] documents; [n] is at least [df]. *)
Definition idf_of (n df : Z) : f32 :=
  let add := SFadd 53 1024 in
  let half := S754_finite false 4503599627370496 (-53) in
  let df := int_as_f64 df in
  let docs := int_as_f64 n in
  let n := if f_lt docs df then df else docs in
  let ratio := SFdiv 53 1024 (add (SFsub 53 1024 n df) half) (add df half) in
  narrow_f32 (f64_ln (add (int_as_f64 1) ratio)).

Section query.
Variables (query : ParsedQuery) (postings : bmap PostingList) (stats : CorpusStats) (restrict : option (gset Z)).
Variables (scope : RestrictScope) (clock : nat -> Z) (deadline : option Z).

Definition allowed (id : Z) : bool := match restrict with None => true | Some set => bool_decide (id ∈ set) end.

(** [None] is [DeadlineExceeded]. *)
Definition tick (s : Tick) : option Tick :=
  let v := visited s + 1 in
  match deadline with
  | Some d =>
      if v mod DEADLINE_CHECK_EVERY =? 0 then
        if d <=? clock (reads s) then None else Some {| visited := v; reads := S (reads s) |}
      else Some {| visited := v; reads := reads s |}
  | None => Some {| visited := v; reads := reads s |}
  end.

Definition required_count : Z := as_u32 (Z.of_nat (List.length (List.filter c_required (pq_clauses query)))).

Definition term_df (t : bytes) : Z :=
  match bm_get t postings with
  | None => 0
  | Some l =>
      match scope with
      | RankOnly => Z.of_nat (List.length l)
      | Corpus => Z.of_nat (List.length (List.filter (fun e => allowed e.1) l))
      end
  end.

(** The code keeps these in a map over the terms of the query. *)
Definition idf (t : bytes) : f32 := idf_of (doc_count stats) (term_df t).

Definition avgdl : f32 :=
  if total_tokens stats =? 0 then f32_one else f32_div (u64_as_f32 (total_tokens stats)) (u64_as_f32 (doc_count stats)).

Definition tfnorm (p : Posting) : f32 :=
  let tf := u64_as_f32 (tf p) in
  let dl := u64_as_f32 (doc_len p) in
  f32_div (f32_mul tf (f32_add BM25_K1 f32_one))
    (f32_add tf (f32_mul BM25_K1 (f32_add (f32_sub f32_one BM25_B) (f32_div (f32_mul BM25_B dl) avgdl)))).

Definition add (acc : gmap Z Acc) (id : Z) (contribution : f32) (c : Clause) : gmap Z Acc :=
  let a := default {| acc_score := S754_zero false; required_hits := 0 |} (acc !! id) in
  <[ id := {| acc_score := f32_add (acc_score a) contribution;
              required_hits := if c_required c then as_u32 (required_hits a + 1) else required_hits a |} ]> acc.

(** The lookups of the words of the phrases. *)
Definition phrase_maps : bmap (gmap Z Posting) :=
  fold_left (fun maps t =>
      match bm_get t postings with
      | None => maps
      | Some l => match bm_get t maps with Some _ => maps | None => bm_insert t (posting_map l) maps end
      end)
    (List.concat (map c_terms (List.filter is_phrase (pq_clauses query)))) [].

(** What a document adds for a phrase it matches. *)
Definition phrase_contribution (idf : bytes -> f32) (c : Clause) (per_term : list Posting) : f32 :=
  fold_left f32_add (map (fun e => f32_mul (idf e.1) (tfnorm e.2)) (distinct_pairs [] (combine (c_terms c) per_term)))
    (S754_zero true).

Definition phrase_doc (c : Clause) (maps : list (gmap Z Posting)) (id : Z) : option f32 :=
  if allowed id then
    per_term ← mapM (fun m : gmap Z Posting => m !! id) maps;
    if phrase_matched c per_term then Some (phrase_contribution idf c per_term) else None
  else None.

Fixpoint phrase_loop (c : Clause) (maps : list (gmap Z Posting)) (ids : list Z) (s : Tick) (acc : gmap Z Acc)
    : option (Tick * gmap Z Acc) :=
  match ids with
  | [] => Some (s, acc)
  | id :: ids =>
      s ← tick s;
      phrase_loop c maps ids s (match phrase_doc c maps id with Some x => add acc id x c | None => acc end)
  end.

Definition score_phrase (c : Clause) (s : Tick) (acc : gmap Z Acc) : option (Tick * gmap Z Acc) :=
  match mapM (fun t => bm_get t phrase_maps) (c_terms c) with
  | Some ((m :: ms) as maps) => phrase_loop c maps (map fst (map_to_list (shortest m ms))) s acc
  | _ => Some (s, acc)
  end.

Fixpoint term_loop (c : Clause) (w : f32) (l : PostingList) (s : Tick) (acc : gmap Z Acc) : option (Tick * gmap Z Acc) :=
  match l with
  | [] => Some (s, acc)
  | (id, p) :: l =>
      s ← tick s;
      term_loop c w l s (if allowed id then add acc id (f32_mul w (tfnorm p)) c else acc)
  end.

Definition score_clause (c : Clause) (s : Tick) (acc : gmap Z Acc) : option (Tick * gmap Z Acc) :=
  if is_phrase c then score_phrase c s acc
  else
    let term := default [] (head (c_terms c)) in
    term_loop c (idf term) (default [] (bm_get term postings)) s acc.

Fixpoint score_clauses (cs : list Clause) (s : Tick) (acc : gmap Z Acc) : option (Tick * gmap Z Acc) :=
  match cs with
  | [] => Some (s, acc)
  | c :: cs => '(s, acc) ← score_clause c s acc; score_clauses cs s acc
  end.

Definition is_hit (a : Acc) : bool := (required_hits a =? required_count) && f_gt (acc_score a) (S754_zero false).

Definition hits_of (acc : gmap Z Acc) : list FulltextHit :=
  map (fun e => {| hit_id := e.1; hit_score := f32_bits (acc_score e.2) |})
    (List.filter (fun e => is_hit e.2) (map_to_list acc)).

Definition score_query_with (n : nat) (k : Z) : option (list FulltextHit) :=
  if (k =? 0) || (doc_count stats =? 0) then Some []
  else
    '(_, acc) ← score_clauses (pq_clauses query) {| visited := 0; reads := n |} ∅;
    Some (take (Z.to_nat k) (merge_sort hit_le (hits_of acc))).

End query.

Definition score_query (query : ParsedQuery) (postings : bmap PostingList) (stats : CorpusStats) (restrict : option (gset Z)) (k : Z)
    : option (list FulltextHit) :=
  score_query_with query postings stats restrict RankOnly (fun _ => 0) None 0 k.

(** ** Candidates *)

Definition MAX_PREFIX_EXPANSION : Z := 64.

Record FulltextCandidates := {
  fc_type_name : bytes;
  fc_field_name : bytes;
  fc_parsed : ParsedQuery;
  fc_postings : bmap PostingList;
  fc_prefix_terms : bmap (list PostingList);
  fc_stats : CorpusStats;
  fc_postings_scanned : Z;
}.

Definition candidate_ids (fc : FulltextCandidates) : list Z :=
  dedup (merge_sort Z.le
    (map fst (List.concat (map snd (fc_postings fc) ++ List.concat (map snd (fc_prefix_terms fc)))))).

Definition key_len (fc : FulltextCandidates) (key : bytes) : Z :=
  match bm_get key (fc_postings fc) with
  | Some l => Z.of_nat (List.length l)
  | None =>
      match bm_get key (fc_prefix_terms fc) with
      | Some ls => fold_left (fun n l => as_u64 (n + Z.of_nat (List.length l))) ls 0
      | None => 0
      end
  end.

Definition clause_work (fc : FulltextCandidates) (c : Clause) : Z :=
  let walks := fold_left sat_add (map (key_len fc) (c_terms c)) 0 in
  let positions :=
    if is_phrase c then
      let tf0 := match bm_get (default [] (head (c_terms c))) (fc_postings fc) with
                 | Some l => fold_left (fun n e => as_u64 (n + tf e.2)) l 0 | None => 0 end in
      sat_mul tf0 (Z.of_nat (List.length (c_terms c)) - 1)
    else 0 in
  sat_add walks positions.

Definition scoring_work (fc : FulltextCandidates) : Z :=
  fold_left sat_add (map (clause_work fc) (pq_clauses (fc_parsed fc))) 0.

Definition deadline_error {A} (fc : FulltextCandidates) : eres A :=
  EErr (FulltextDeadlineExceeded (fc_type_name fc) (fc_field_name fc)).

(** ** Prefixes *)

Definition seen_by (visible : option (gset Z)) (id : Z) : bool :=
  match visible with None => true | Some v => bool_decide (id ∈ v) end.

(** A posting joins the expansion: the occurrences add up. *)
Definition merge_posting (fc : FulltextCandidates) (merged : gmap Z Posting) (id : Z) (p : Posting) : eres (gmap Z Posting) :=
  match merged !! id with
  | None => EOk (<[ id := {| doc_len := doc_len p; tf := tf p; p_positions := [] |} ]> merged)
  | Some o =>
      if negb (doc_len o =? doc_len p) then EErr (FulltextIndexCorrupt (fc_type_name fc) (fc_field_name fc))
      else EOk (<[ id := {| doc_len := doc_len o; tf := Z.min u32_max (tf o + tf p); p_positions := p_positions o |} ]> merged)
  end.

(** The postings of one term, [counted] once it has one that is visible. *)
Fixpoint merge_list (fc : FulltextCandidates) (visible : option (gset Z)) (counted : bool) (terms : Z) (merged : gmap Z Posting)
    (l : PostingList) : eres (Z * gmap Z Posting) :=
  match l with
  | [] => EOk (terms, merged)
  | (id, p) :: l =>
      if seen_by visible id then
        let terms := if counted then terms else terms + 1 in
        if negb counted && (MAX_PREFIX_EXPANSION <? terms) then EErr FulltextQuery
        else merged ← merge_posting fc merged id p; merge_list fc visible true terms merged l
      else merge_list fc visible counted terms merged l
  end.

Fixpoint merge_lists (fc : FulltextCandidates) (visible : option (gset Z)) (terms : Z) (merged : gmap Z Posting) (ls : list PostingList)
    : eres (gmap Z Posting) :=
  match ls with
  | [] => EOk merged
  | l :: ls => '(terms, merged) ← merge_list fc visible false terms merged l; merge_lists fc visible terms merged ls
  end.

Fixpoint merge_prefixes_from (fc : FulltextCandidates) (visible : option (gset Z)) (prefixes : bmap (list PostingList)) (out : bmap PostingList)
    : eres (bmap PostingList) :=
  match prefixes with
  | [] => EOk out
  | (key, ls) :: prefixes =>
      merged ← merge_lists fc visible 0 ∅ ls;
      merge_prefixes_from fc visible prefixes (bm_insert key (map_to_list merged) out)
  end.

Definition merge_prefixes (fc : FulltextCandidates) (visible : option (gset Z)) : eres (bmap PostingList) :=
  merge_prefixes_from fc visible (fc_prefix_terms fc) [].

(** Every list by its key; a merged prefix comes after the terms. *)
Definition lists (fc : FulltextCandidates) (merged : bmap PostingList) : bmap PostingList := bm_insert_all merged (fc_postings fc).

(** ** Ranking *)

Definition score (clock : nat -> Z) (n : nat) (fc : FulltextCandidates) (restrict : option (gset Z)) (k : Z) (deadline : option Z)
    : eres (list FulltextHit) :=
  merged ← merge_prefixes fc None;
  match score_query_with (fc_parsed fc) (lists fc merged) (fc_stats fc) restrict RankOnly clock deadline n k with
  | Some hits => EOk hits
  | None => deadline_error fc
  end.

(** The length of each visible document, from the first posting met. *)
Definition doc_lens (visible : gset Z) (ls : bmap PostingList) : gmap Z Z :=
  fold_left (fun m e => if bool_decide (e.1 ∈ visible) then match m !! e.1 with Some _ => m | None => <[ e.1 := doc_len e.2 ]> m end else m)
    (List.concat (map snd ls)) ∅.

Definition visible_stats (lens : gmap Z Z) : CorpusStats :=
  {| doc_count := Z.of_nat (size lens); total_tokens := fold_left (fun n l => as_u64 (n + l)) (map snd (map_to_list lens)) 0 |}.

Definition score_visible (clock : nat -> Z) (n : nat) (fc : FulltextCandidates) (visible : gset Z) (k : Z) (deadline : option Z)
    : eres (list FulltextHit) :=
  merged ← merge_prefixes fc (Some visible);
  let postings := lists fc merged in
  let stats := visible_stats (doc_lens visible postings) in
  match score_query_with (fc_parsed fc) postings stats (Some visible) Corpus clock deadline n k with
  | Some hits => EOk hits
  | None => deadline_error fc
  end.

End scoring.
