(* ===== verification/FulltextSearchProps.v ===== *)
(** * Full-text search ranks exactly the matching documents

    The accumulators of the scoring loops against a definition by document:
    what each clause contributes to a document, and which documents are hits.
    Ranking over the visible documents depends on them alone. *)

From Stdlib Require Import ZArith Lia Bool List Strings.Byte Strings.String SpecFloat Sorting.Sorted.
From stdpp Require Import base tactics option list sorting gmap.
From S2P Require Import Prelude ByteMap Utf8 Values Ieee Posting Fulltext Engine FilterScan QueryReads FulltextQuery FulltextSearch.

Local Open Scope Z_scope.

(** ** The order of hits *)

#[global] Instance hit_le_trans : Transitive hit_le.
Proof. intros a b c. unfold hit_le. lia. Qed.

#[global] Instance hit_le_total : Total hit_le.
Proof. intros a b. unfold hit_le. lia. Qed.

(** One hit per document. *)
Definition one_per_doc (l : list FulltextHit) : Prop := forall a b, a ∈ l -> b ∈ l -> hit_id a = hit_id b -> a = b.

Lemma sorted_hits_unique l1 l2 :
  NoDup l1 -> NoDup l2 -> (forall h, h ∈ l1 <-> h ∈ l2) -> one_per_doc l1 ->
  StronglySorted hit_le l1 -> StronglySorted hit_le l2 -> l1 = l2.
Proof.
  intros Hn1 Hn2 He Hu Hs1 Hs2. eapply StronglySorted_unique_strong; [|exact Hs1|exact Hs2|by apply NoDup_Permutation].
  intros a b Ha Hb Hab Hba. apply Hu; [done|by apply He|]. unfold hit_le in *. lia.
Qed.

(** ** Postings by document *)

Lemma posting_map_from l : forall m id, NoDup (map fst l) ->
  fold_left (fun (m : gmap Z Posting) e => <[ e.1 := e.2 ]> m) l m !! id = match zget id l with Some p => Some p | None => m !! id end.
Proof.
  induction l as [|[i p] l IH]; intros m id Hn; [done|]. cbn [map fst] in Hn. apply NoDup_cons in Hn as [Hi Hn]. cbn [fold_left fst snd zget].
  rewrite IH by done. destruct (Z.eqb_spec id i) as [->|Hne].
  - rewrite lookup_insert_eq. destruct (zget i l) eqn:E; [|done]. exfalso. apply Hi. clear -E.
    induction l as [|[j q] l IH]; [done|]. cbn [zget] in E. cbn [map fst]. apply elem_of_cons.
    destruct (Z.eqb_spec i j); [by left|right; by apply IH].
  - by rewrite lookup_insert_ne by done.
Qed.

Lemma posting_map_get l id : NoDup (map fst l) -> posting_map l !! id = zget id l.
Proof. intros Hn. unfold posting_map. rewrite posting_map_from by done. by destruct (zget id l). Qed.

Lemma zget_filter {V} (f : Z -> bool) (l : list (Z * V)) id : f id = true -> zget id (List.filter (fun e => f e.1) l) = zget id l.
Proof.
  intros Hf. induction l as [|[i p] l IH]; cbn [List.filter zget fst]; [done|]. destruct (f i) eqn:E; cbn [zget].
  - by rewrite IH.
  - destruct (Z.eqb_spec id i); [congruence|done].
Qed.

Lemma nodup_filter_fst {V} (f : Z * V -> bool) (l : list (Z * V)) : NoDup (map fst l) -> NoDup (map fst (List.filter f l)).
Proof.
  induction l as [|e l IH]; [done|]. cbn [map List.filter]. intros [Hn Hd]%NoDup_cons. destruct (f e); [|by apply IH]. cbn [map].
  apply NoDup_cons. split; [|by apply IH]. rewrite list_elem_of_In in *. intros Hin. apply Hn. apply in_map_iff in Hin as (x & <- & Hx).
  apply filter_In in Hx as [Hx _]. by apply in_map.
Qed.

(** ** The reference *)

(** Ranking by document, from the number of documents with a term and the
    posting of a term in a document. *)
Section reference.
Context {M : MathLib}.
Variables (query : ParsedQuery) (stats : CorpusStats) (restrict : option (gset Z)).
Variables (df : bytes -> Z) (post : Z -> bytes -> option Posting).

Notation idf := (fun t => idf_of (doc_count stats) (df t)).

(** What a clause contributes to a document, if the document matches it. *)
Definition clause_doc (id : Z) (c : Clause) : option f32 :=
  if allowed restrict id then
    if is_phrase c then
      per_term ← mapM (post id) (c_terms c);
      if phrase_matched c per_term then Some (phrase_contribution stats idf c per_term) else None
    else
      let t := default [] (head (c_terms c)) in
      p ← post id t; Some (f32_mul (idf t) (tfnorm stats p))
  else None.

(** The score of a document: the contributions in the order of the clauses. *)
Definition doc_score (id : Z) : f32 := fold_left f32_add (omap (clause_doc id) (pq_clauses query)) (S754_zero false).

Definition meets_required (id : Z) : Prop :=
  forall c, In c (pq_clauses query) -> c_required c = true -> clause_doc id c <> None.

Record hit_spec (h : FulltextHit) : Prop := {
  hs_required : meets_required (hit_id h);
  hs_positive : f_gt (doc_score (hit_id h)) (S754_zero false) = true;
  hs_score : hit_score h = f32_bits (doc_score (hit_id h));
}.

Lemma hit_spec_unique a b : hit_spec a -> hit_spec b -> hit_id a = hit_id b -> a = b.
Proof. destruct a as [i s], b as [i' s']. intros [_ _ Ha] [_ _ Hb]. cbn in *. intros ->. by rewrite Ha, Hb. Qed.

End reference.

Lemma mapM_ext_in {A B} (f g : A -> option B) l : (forall a, In a l -> f a = g a) -> mapM f l = mapM g l.
Proof.
  induction l as [|a l IH]; intros H; [done|]. cbn. rewrite (H a) by by left. rewrite IH; [done|]. intros b Hb. apply H. by right.
Qed.

(** The reference reads the frequencies and postings of the terms of the query
    at the allowed documents. *)
Section extensional.
Context {M : MathLib}.
Variables (query : ParsedQuery) (stats : CorpusStats) (restrict : option (gset Z)).
Variables (df1 df2 : bytes -> Z) (post1 post2 : Z -> bytes -> option Posting).
Hypothesis Hterms : forall c, In c (pq_clauses query) -> c_terms c <> [].
Hypothesis Hdf : forall t, In t (List.concat (map c_terms (pq_clauses query))) -> df1 t = df2 t.
Hypothesis Hpost : forall id t, In t (List.concat (map c_terms (pq_clauses query))) -> allowed restrict id = true -> post1 id t = post2 id t.

Lemma distinct_pairs_in l : forall seen e, In e (distinct_pairs seen l) -> In e l.
Proof.
  induction l as [|[t p] l IH]; intros seen e; cbn [distinct_pairs]; [done|]. case_match; [intros H'; right; by eapply IH|].
  intros [<-|H']; [by left|right; by eapply IH].
Qed.

Lemma phrase_contribution_ext idf1 idf2 c per : (forall t, In t (c_terms c) -> idf1 t = idf2 t) ->
  phrase_contribution stats idf1 c per = phrase_contribution stats idf2 c per.
Proof.
  intros H. unfold phrase_contribution. f_equal. apply List.map_ext_in. intros [t p] He. apply distinct_pairs_in, in_combine_l in He.
  cbn [fst snd]. by rewrite H.
Qed.

Lemma clause_doc_ext id c : In c (pq_clauses query) -> clause_doc stats restrict df1 post1 id c = clause_doc stats restrict df2 post2 id c.
Proof.
  intros Hc. unfold clause_doc. destruct (allowed restrict id) eqn:Ea; [|done].
  assert (Hin : forall t, In t (c_terms c) -> In t (List.concat (map c_terms (pq_clauses query)))).
  { intros t Ht. apply in_concat. exists (c_terms c). split; [by apply in_map|done]. }
  destruct (is_phrase c).
  - rewrite (mapM_ext_in (post1 id) (post2 id)) by auto. destruct (mapM _ _) as [per|]; [|done]. cbn [mbind option_bind].
    case_match; [|done]. f_equal. apply phrase_contribution_ext. intros t Ht. by rewrite Hdf by auto.
  - pose proof (Hterms c Hc) as Hne. destruct (c_terms c) as [|t ts]; [done|]. cbn [head default from_option Datatypes.id].
    rewrite Hpost, Hdf by (try done; apply Hin; by left). done.
Qed.

Lemma hit_spec_ext h : hit_spec query stats restrict df1 post1 h <-> hit_spec query stats restrict df2 post2 h.
Proof.
  assert (Hs : forall id, doc_score query stats restrict df1 post1 id = doc_score query stats restrict df2 post2 id).
  { intros id. unfold doc_score. f_equal. assert (Hc := clause_doc_ext id). clear -Hc. induction (pq_clauses query) as [|c cs IH]; [done|].
    unfold omap in *. cbn. rewrite (Hc c) by by left. rewrite IH; [done|]. intros d Hd. apply Hc. by right. }
  split; intros [H1 H2 H3]; [rewrite Hs in H2, H3|rewrite <- Hs in H2, H3]; (split; [|done|done]); intros c Hc Hr;
    [rewrite <- clause_doc_ext|rewrite clause_doc_ext]; by auto.
Qed.
End extensional.

Section spec.
Context {M : MathLib}.
Variables (query : ParsedQuery) (postings : bmap PostingList) (stats : CorpusStats) (restrict : option (gset Z)).
Variable scope : RestrictScope.

Notation allowed := (allowed restrict).
Notation idf := (idf postings stats restrict scope).
Notation tfnorm := (tfnorm stats).

(** The posting of a term in a document. *)
Definition posting_of (id : Z) (t : bytes) : option Posting := bm_get t postings ≫= zget id.

Notation clause_doc := (clause_doc stats restrict (term_df postings restrict scope) posting_of).
Notation doc_score := (doc_score query stats restrict (term_df postings restrict scope) posting_of).
Notation meets_required := (meets_required query stats restrict (term_df postings restrict scope) posting_of).
Notation hit_spec := (hit_spec query stats restrict (term_df postings restrict scope) posting_of).

(** *** The loops *)

Variables (clock : nat -> Z) (deadline : option Z).

Notation tick := (tick clock deadline).
Notation phrase_doc := (phrase_doc postings stats restrict scope).
Notation phrase_loop := (phrase_loop postings stats restrict scope clock deadline).
Notation term_loop := (term_loop stats restrict clock deadline).
Notation score_clause := (score_clause query postings stats restrict scope clock deadline).
Notation score_clauses := (score_clauses query postings stats restrict scope clock deadline).

Definition bump (o : option Acc) (x : f32) (c : Clause) : Acc :=
  let a := default {| acc_score := S754_zero false; required_hits := 0 |} o in
  {| acc_score := f32_add (acc_score a) x; required_hits := if c_required c then as_u32 (required_hits a + 1) else required_hits a |}.

Definition bump_opt (o : option Acc) (x : option f32) (c : Clause) : option Acc :=
  match x with Some x => Some (bump o x c) | None => o end.

Lemma add_lookup acc id x c i : add acc id x c !! i = if decide (i = id) then Some (bump (acc !! id) x c) else acc !! i.
Proof. unfold add. case_decide; subst; [by rewrite lookup_insert_eq|by rewrite lookup_insert_ne]. Qed.

Lemma tick_none s : deadline = None -> tick s <> None.
Proof. unfold FulltextSearch.tick. by intros ->. Qed.

Lemma term_loop_get c w l : forall s acc s' acc', NoDup (map fst l) -> term_loop c w l s acc = Some (s', acc') ->
  forall id, acc' !! id = bump_opt (acc !! id) (if allowed id then p ← zget id l; Some (f32_mul w (tfnorm p)) else None) c.
Proof.
  induction l as [|[i p] l IH]; intros s acc s' acc' Hn; cbn [FulltextSearch.term_loop].
  { intros [= <- <-] id. by destruct (allowed id). }
  intros H id. cbn [map fst] in Hn. apply NoDup_cons in Hn as [Hi Hn]. destruct (tick s) as [s1|]; [|done]. cbn [mbind option_bind] in H.
  rewrite (IH _ _ _ _ Hn H id). cbn [zget]. destruct (Z.eqb_spec id i) as [->|Hne].
  - assert (E : zget i l = None).
    { clear -Hi. induction l as [|[j q] l IH]; [done|]. cbn [map fst] in Hi. apply not_elem_of_cons in Hi as [H1 H2]. cbn [zget].
      destruct (Z.eqb_spec i j); [done|by apply IH]. }
    rewrite E. cbn [mbind option_bind]. destruct (allowed i); cbn [bump_opt]; [|done]. by rewrite add_lookup, decide_True.
  - destruct (allowed i); [|done]. by rewrite add_lookup, decide_False.
Qed.

Lemma term_loop_total c w l : forall s acc, deadline = None -> term_loop c w l s acc <> None.
Proof.
  induction l as [|[i p] l IH]; intros s acc Hd; cbn [FulltextSearch.term_loop]; [done|].
  destruct (tick s) eqn:E; [by apply IH|by apply tick_none in E].
Qed.

Lemma phrase_loop_get c maps ids : forall s acc s' acc', NoDup ids -> phrase_loop c maps ids s acc = Some (s', acc') ->
  forall id, acc' !! id = if decide (id ∈ ids) then bump_opt (acc !! id) (phrase_doc c maps id) c else acc !! id.
Proof.
  induction ids as [|i ids IH]; intros s acc s' acc' Hn; cbn [FulltextSearch.phrase_loop].
  { intros [= <- <-] id. by rewrite decide_False by apply not_elem_of_nil. }
  intros H id. apply NoDup_cons in Hn as [Hi Hn]. destruct (tick s) as [s1|]; [|done]. cbn [mbind option_bind] in H.
  rewrite (IH _ _ _ _ Hn H id). destruct (decide (id = i)) as [->|Hne].
  - rewrite decide_False by done. rewrite (decide_True (P := i ∈ i :: ids)) by (apply elem_of_cons; by left).
    destruct (phrase_doc c maps i); cbn [bump_opt]; [|done]. by rewrite add_lookup, decide_True.
  - assert (E : match phrase_doc c maps i with Some x => add acc i x c | None => acc end !! id = acc !! id).
    { destruct (phrase_doc c maps i); [|done]. by rewrite add_lookup, decide_False. }
    rewrite E. destruct (decide (id ∈ ids)); [rewrite decide_True|rewrite decide_False]; rewrite ?elem_of_cons; by auto || (intros [?|?]).
Qed.

Lemma phrase_loop_total c maps ids : forall s acc, deadline = None -> phrase_loop c maps ids s acc <> None.
Proof.
  induction ids as [|i ids IH]; intros s acc Hd; cbn [FulltextSearch.phrase_loop]; [done|].
  destruct (tick s) eqn:E; [by apply IH|by apply tick_none in E].
Qed.

(** *** Phrases *)

(** A lookup is missing or that of the postings; each word met gets its own. *)
Lemma phrase_maps_fold ts : forall m,
  let f := fun maps t => match bm_get t postings with
    | None => maps
    | Some l => match bm_get t maps with Some _ => maps | None => bm_insert t (posting_map l) maps end
    end in
  let done m t := bm_get t m = posting_map <$> bm_get t postings in
  bsorted m -> (forall u, bm_get u m = None \/ done m u) -> forall t, done m t \/ In t ts -> done (fold_left f ts m) t.
Proof.
  induction ts as [|u ts IH]; intros m f don Hs Hm t Ht; cbn [fold_left]; [by destruct Ht|].
  assert (Hg : forall v, bm_get v (f m u) = if decide (v = u) then posting_map <$> bm_get u postings else bm_get v m).
  { intros v. unfold f. destruct (bm_get u postings) as [l|] eqn:El.
    - destruct (bm_get u m) eqn:Eu; [|by rewrite bm_get_insert by done]. case_decide; [subst v|done].
      destruct (Hm u) as [H|H]; [congruence|]. unfold don in H. by rewrite H, El.
    - case_decide; [subst v|done]. destruct (Hm u) as [H|H]; [done|]. unfold don in H. by rewrite H, El. }
  apply IH.
  - unfold f. destruct (bm_get u postings); [|done]. destruct (bm_get u m); [done|by apply bsorted_insert].
  - intros v. unfold don. rewrite !Hg. case_decide; [subst; by right|apply Hm].
  - unfold don in *. rewrite !Hg. case_decide; [subst; by left|]. destruct Ht as [Ht|[->|Ht]]; [by left|done|by right].
Qed.

Lemma phrase_maps_get c t : In c (pq_clauses query) -> is_phrase c = true -> In t (c_terms c) ->
  bm_get t (phrase_maps query postings) = posting_map <$> bm_get t postings.
Proof.
  intros Hc Hp Ht. apply phrase_maps_fold; [apply bsorted_nil|by left|]. right. apply in_concat. exists (c_terms c).
  split; [|done]. apply in_map. by apply filter_In.
Qed.

Lemma shortest_in ms : forall m, In (shortest m ms) (m :: ms).
Proof.
  induction ms as [|m' ms IH]; intros m; cbn [shortest]; [by left|]. destruct (IH (if (size m' <? size m)%nat then m' else m)) as [H|H].
  - rewrite <- H. case_match; [right; by left|by left].
  - right. by right.
Qed.

Lemma mapM_bind {A B C} (f : A -> option B) (g : B -> option C) l : mapM f l ≫= mapM g = mapM (fun a => f a ≫= g) l.
Proof.
  induction l as [|a l IH]; [done|]. cbn. destruct (f a) as [b|]; cbn; [|done]. rewrite <- IH.
  destruct (mapM f l) as [bs|]; cbn; [done|]. by destruct (g b).
Qed.

Hypothesis Hnodup : forall t l, bm_get t postings = Some l -> NoDup (map fst l).

Lemma phrase_doc_spec c maps id : In c (pq_clauses query) -> is_phrase c = true ->
  mapM (fun t => bm_get t (phrase_maps query postings)) (c_terms c) = Some maps ->
  phrase_doc c maps id = clause_doc id c.
Proof.
  intros Hc Hp Hm. unfold FulltextSearch.phrase_doc, FulltextSearchProps.clause_doc. rewrite Hp. destruct (allowed id); [|done].
  assert (E : mapM (fun m : gmap Z Posting => m !! id) maps = mapM (posting_of id) (c_terms c)).
  { change (mapM (fun m : gmap Z Posting => m !! id) maps) with (Some maps ≫= mapM (fun m : gmap Z Posting => m !! id)). rewrite <- Hm, mapM_bind.
    apply mapM_ext_in. intros t Ht. rewrite (phrase_maps_get c t) by done. unfold posting_of.
    destruct (bm_get t postings) as [l|] eqn:El; [|done]. cbn. apply posting_map_get. by eapply Hnodup. }
  by rewrite E.
Qed.

Lemma mapM_none_in {A B} (f : A -> option B) l b : mapM f l = Some b -> forall a, In a l -> f a <> None.
Proof.
  revert b. induction l as [|a l IH]; intros b H x Hx; [done|]. cbn in H. destruct (f a) eqn:E; [|done]. cbn in H.
  destruct (mapM f l) eqn:El; [|done]. destruct Hx as [->|Hx]; [by rewrite E|]. by eapply IH.
Qed.

Lemma score_clause_get c s acc s' acc' : In c (pq_clauses query) -> score_clause c s acc = Some (s', acc') ->
  forall id, acc' !! id = bump_opt (acc !! id) (clause_doc id c) c.
Proof.
  intros Hc H id. unfold FulltextSearch.score_clause in H. destruct (is_phrase c) eqn:Ep.
  - unfold score_phrase in H. destruct (mapM _ (c_terms c)) as [maps|] eqn:Em.
    + assert (Hd := phrase_doc_spec c maps id Hc Ep Em). destruct maps as [|m ms].
      { injection H as <- <-. rewrite <- Hd. unfold FulltextSearch.phrase_doc. by destruct (allowed id). }
      eapply phrase_loop_get in H; [|apply NoDup_fst_map_to_list]. rewrite H, <- Hd. case_decide as Hin; [done|].
      destruct (phrase_doc c (m :: ms) id) as [x|] eqn:Ex; [|done]. exfalso. apply Hin. unfold FulltextSearch.phrase_doc in Ex.
      destruct (allowed id); [|done]. destruct (mapM (fun m : gmap Z Posting => m !! id) (m :: ms)) as [per|] eqn:Eper; [|done].
      pose proof (mapM_none_in _ _ _ Eper _ (shortest_in ms m)) as Hs. destruct (shortest m ms !! id) as [p|] eqn:El; [|done].
      apply list_elem_of_fmap. exists (id, p). split; [done|]. by apply elem_of_map_to_list.
    + injection H as <- <-. unfold FulltextSearchProps.clause_doc. rewrite Ep. destruct (allowed id); [|done].
      assert (E : mapM (posting_of id) (c_terms c) = None); [|by rewrite E].
      assert (E : mapM (posting_of id) (c_terms c) = mapM (fun t => bm_get t (phrase_maps query postings) ≫= fun m : gmap Z Posting => m !! id) (c_terms c)).
      { apply mapM_ext_in. intros t Ht. rewrite (phrase_maps_get c t) by done. unfold posting_of. destruct (bm_get t postings) eqn:El; [|done]. cbn.
        symmetry. apply posting_map_get. by eapply Hnodup. }
      by rewrite E, <- mapM_bind, Em.
  - unfold FulltextSearchProps.clause_doc. rewrite Ep. set (t := default [] (head (c_terms c))) in *. unfold posting_of.
    destruct (bm_get t postings) as [l|] eqn:El; cbn [default] in H.
    + eapply term_loop_get in H; [|by eapply Hnodup]. by rewrite H.
    + injection H as <- <-. by destruct (allowed id).
Qed.

Lemma score_clause_total c s acc : deadline = None -> score_clause c s acc <> None.
Proof.
  intros Hd. unfold FulltextSearch.score_clause, score_phrase. case_match; [|by apply term_loop_total].
  repeat case_match; try done. by apply phrase_loop_total.
Qed.

Lemma score_clauses_get cs : forall s acc s' acc', (forall c, In c cs -> In c (pq_clauses query)) ->
  score_clauses cs s acc = Some (s', acc') ->
  forall id, acc' !! id = fold_left (fun o c => bump_opt o (clause_doc id c) c) cs (acc !! id).
Proof.
  induction cs as [|c cs IH]; intros s acc s' acc' Hcs H id; cbn [FulltextSearch.score_clauses fold_left] in *; [by injection H as <- <-|].
  destruct (score_clause c s acc) as [[s1 acc1]|] eqn:E; [|done]. cbn [mbind option_bind] in H.
  rewrite <- (score_clause_get c s acc s1 acc1 (Hcs c (or_introl eq_refl)) E). eapply IH; [|done]. intros d Hd. apply Hcs. by right.
Qed.

Lemma score_clauses_total cs : forall s acc, deadline = None -> score_clauses cs s acc <> None.
Proof.
  induction cs as [|c cs IH]; intros s acc Hd; cbn [FulltextSearch.score_clauses]; [done|].
  destruct (score_clause c s acc) as [[s1 acc1]|] eqn:E; [by apply IH|by apply score_clause_total in E].
Qed.

(** *** Hits *)

Definition counted (id : Z) (c : Clause) : bool := c_required c && match clause_doc id c with Some _ => true | None => false end.

Definition acc_of (o : option Acc) : Acc := default {| acc_score := S754_zero false; required_hits := 0 |} o.

Lemma bumps_get id cs : forall o, 0 <= required_hits (acc_of o) -> required_hits (acc_of o) + Z.of_nat (List.length cs) <= u32_max ->
  let o' := fold_left (fun o c => bump_opt o (clause_doc id c) c) cs o in
  acc_score (acc_of o') = fold_left f32_add (omap (clause_doc id) cs) (acc_score (acc_of o)) /\
  required_hits (acc_of o') = required_hits (acc_of o) + Z.of_nat (List.length (List.filter (counted id) cs)).
Proof.
  induction cs as [|c cs IH]; intros o H0 Hl; cbn [fold_left omap List.filter List.length] in *; [by rewrite Z.add_0_r|].
  set (o1 := bump_opt o (clause_doc id c) c).
  assert (Hs : acc_score (acc_of o1) = match clause_doc id c with Some x => f32_add (acc_score (acc_of o)) x | None => acc_score (acc_of o) end)
    by (unfold o1; by destruct (clause_doc id c)).
  assert (Hr : required_hits (acc_of o1) = required_hits (acc_of o) + if counted id c then 1 else 0).
  { unfold o1, counted. destruct (clause_doc id c); cbn [bump_opt acc_of default]; rewrite ?andb_false_r, ?andb_true_r; [|by rewrite Z.add_0_r].
    unfold bump. cbn [required_hits]. destruct (c_required c); [|by rewrite Z.add_0_r]. unfold acc_of in *. apply as_u32_small. unfold is_u32, u32_max in *. lia. }
  destruct (IH o1) as [E1 E2]; [rewrite Hr; case_match; lia|rewrite Hr; case_match; lia|]. cbv zeta. split.
  - rewrite E1, Hs. unfold omap. cbn. by destruct (clause_doc id c).
  - rewrite E2, Hr. destruct (counted id c); cbn [List.length]; lia.
Qed.

Lemma filter_and_length {A} (p q : A -> bool) l :
  (List.length (List.filter (fun a => p a && q a) l) <= List.length (List.filter p l))%nat /\
  (List.length (List.filter (fun a => p a && q a) l) = List.length (List.filter p l) <-> forall a, In a l -> p a = true -> q a = true).
Proof.
  induction l as [|a l [Hle IH]]; [by split; [|split]|]. cbn [List.filter]. destruct (p a) eqn:Ep, (q a) eqn:Eq; cbn [andb List.length].
  - split; [lia|]. split; [intros H b [<-|Hb] Hp; [done|apply IH; [lia|done..]]|]. intros H. f_equal. apply IH. intros b Hb. apply H. by right.
  - split; [lia|]. split; [lia|]. intros H. specialize (H a (or_introl eq_refl) Ep). congruence.
  - split; [lia|]. split; [intros H b [<-|Hb] Hp; [congruence|apply IH; [lia|done..]]|]. intros H. apply IH. intros b Hb. apply H. by right.
  - split; [lia|]. split; [intros H b [<-|Hb] Hp; [congruence|apply IH; [lia|done..]]|]. intros H. apply IH. intros b Hb. apply H. by right.
Qed.

Hypothesis Hsize : Z.of_nat (List.length (pq_clauses query)) <= u32_max.

Lemma hits_of_spec s s' acc : score_clauses (pq_clauses query) s ∅ = Some (s', acc) ->
  NoDup (map hit_id (hits_of query acc)) /\ forall h, h ∈ hits_of query acc <-> hit_spec h.
Proof.
  intros H. assert (Hg : forall id, acc_score (acc_of (acc !! id)) = doc_score id /\
    required_hits (acc_of (acc !! id)) = Z.of_nat (List.length (List.filter (counted id) (pq_clauses query)))).
  { intros id. rewrite (score_clauses_get (pq_clauses query) s ∅ s' acc (fun c Hc => Hc) H id), lookup_empty.
    destruct (bumps_get id (pq_clauses query) None) as [E1 E2]; [done|done|]. by rewrite E1, E2. }
  assert (Hreq : forall id, (required_hits (acc_of (acc !! id)) =? required_count query) = true <-> meets_required id).
  { intros id. destruct (Hg id) as [_ ->]. unfold required_count, counted.
    destruct (filter_and_length c_required (fun c => match clause_doc id c with Some _ => true | None => false end) (pq_clauses query)) as [Hle Hiff].
    assert (Hl : (List.length (List.filter c_required (pq_clauses query)) <= List.length (pq_clauses query))%nat) by apply List.filter_length_le.
    rewrite as_u32_small by (unfold is_u32, u32_max in *; lia). rewrite Z.eqb_eq, Nat2Z.inj_iff, Hiff. unfold meets_required.
    split; intros Hx c Hc Hr; specialize (Hx c Hc Hr); by destruct (clause_doc id c). }
  unfold hits_of. split.
  - rewrite map_map. cbn [hit_id]. apply nodup_filter_fst, NoDup_fst_map_to_list.
  - intros [id sc]. rewrite list_elem_of_In, in_map_iff. split.
    + intros ([i a] & [= <- <-] & Hin). apply filter_In in Hin as [Hin Hh]. apply list_elem_of_In, elem_of_map_to_list in Hin. cbn [fst snd] in *.
      specialize (Hreq i). destruct (Hg i) as [Hs _]. rewrite Hin in Hreq, Hs. change (acc_of (Some a)) with a in *. unfold is_hit in Hh.
      apply andb_true_iff in Hh as [H1 H2]. split; cbn [hit_id hit_score]; [by apply Hreq|by rewrite <- Hs|by rewrite <- Hs].
    + intros [Hm Hp Hsc]. cbn [hit_id hit_score] in *. destruct (Hg id) as [Hs _]. specialize (Hreq id). destruct (acc !! id) as [a|] eqn:Ea.
      * change (acc_of (Some a)) with a in *. exists (id, a). cbn [fst snd]. rewrite Hs, Hsc. split; [done|]. apply filter_In. split.
        -- by apply list_elem_of_In, elem_of_map_to_list.
        -- unfold is_hit. cbn [snd]. by rewrite (proj2 Hreq Hm), Hs.
      * rewrite <- Hs in Hp. done.
Qed.

(** The search answers with the [k] best of exactly the documents that match. *)
Lemma score_query_exact n k hits : k <> 0 -> doc_count stats <> 0 ->
  score_query_with query postings stats restrict scope clock deadline n k = Some hits ->
  exists ranked, hits = take (Z.to_nat k) ranked /\ StronglySorted hit_le ranked /\ NoDup (map hit_id ranked) /\
    forall h, h ∈ ranked <-> hit_spec h.
Proof.
  unfold score_query_with. intros Hk Hd. rewrite (proj2 (Z.eqb_neq k 0)), (proj2 (Z.eqb_neq (doc_count stats) 0)) by done. cbn [orb].
  destruct (score_clauses _ _ _) as [[s' acc]|] eqn:E; [|done]. cbn [mbind option_bind]. intros [= <-].
  destruct (hits_of_spec _ _ _ E) as [Hn Hspec]. exists (merge_sort hit_le (hits_of query acc)).
  pose proof (merge_sort_Permutation hit_le (hits_of query acc)) as Hp. split_and!; [done|by apply StronglySorted_merge_sort; apply _| |].
  - by rewrite Hp.
  - intros h. by rewrite Hp.
Qed.

Lemma score_query_total n k : deadline = None -> score_query_with query postings stats restrict scope clock deadline n k <> None.
Proof.
  intros Hd. unfold score_query_with. case_match; [done|]. destruct (score_clauses _ _ _) as [[s acc]|] eqn:E; [done|].
  by apply score_clauses_total in E.
Qed.

End spec.

(** * Ranking over visible documents

    [score_visible] (crates/rhypedb-engine/src/fulltext/candidates.rs) is what a
    search runs under security rules.  Its result, scores and errors included,
    is a function of the postings of the visible documents: hidden documents
    change neither the statistics nor the expansion of a prefix nor the order. *)

(** ** What is visible of the candidates *)

Section view.
Variable v : gset Z.

Definition visible_list (l : PostingList) : PostingList := List.filter (fun e => bool_decide (e.1 ∈ v)) l.

Definition nonempty (l : PostingList) : bool := match l with [] => false | _ => true end.

(** The visible postings of each term of an expansion that has some. *)
Definition visible_terms (ls : list PostingList) : list PostingList := List.filter nonempty (map visible_list ls).

Definition visible_map (ls : bmap PostingList) : bmap PostingList :=
  List.filter (fun e => nonempty e.2) (map (fun e => (e.1, visible_list e.2)) ls).

Record same_view (a b : FulltextCandidates) : Prop := {
  sv_type : fc_type_name a = fc_type_name b;
  sv_field : fc_field_name a = fc_field_name b;
  sv_parsed : fc_parsed a = fc_parsed b;
  sv_terms : forall key, visible_list (default [] (bm_get key (fc_postings a))) = visible_list (default [] (bm_get key (fc_postings b)));
  sv_prefixes : Forall2 (fun x y => x.1 = y.1 /\ visible_terms x.2 = visible_terms y.2) (fc_prefix_terms a) (fc_prefix_terms b);
}.

End view.

(** Lists as a scan leaves them: a posting per document. *)
Record candidates_ok (fc : FulltextCandidates) : Prop := {
  ca_sorted : bsorted (fc_postings fc);
  ca_postings : forall key l, bm_get key (fc_postings fc) = Some l -> NoDup (map fst l);
  ca_query : query_ok (fun _ => True) (fc_parsed fc);
}.

Section visible.
Context {M : MathLib}.
Variable v : gset Z.

(** ** Prefixes *)

Lemma merge_list_view a b l : fc_type_name a = fc_type_name b -> fc_field_name a = fc_field_name b ->
  forall counted terms merged, merge_list a (Some v) counted terms merged l = merge_list b (Some v) counted terms merged (visible_list v l).
Proof.
  intros Ht Hf. induction l as [|[id p] l IH]; intros counted terms merged; [done|]. cbn [merge_list visible_list List.filter fst seen_by].
  destruct (bool_decide (id ∈ v)) eqn:E; [|apply IH]. cbn [merge_list seen_by]. rewrite E. case_match; [done|].
  unfold merge_posting. rewrite Ht, Hf. repeat case_match; cbn [mbind eres_bind]; done || apply IH.
Qed.

Lemma merge_lists_view a b ls : fc_type_name a = fc_type_name b -> fc_field_name a = fc_field_name b ->
  forall terms merged, merge_lists a (Some v) terms merged ls = merge_lists b (Some v) terms merged (visible_terms v ls).
Proof.
  intros Ht Hf. induction ls as [|l ls IH]; intros terms merged; [done|]. cbn [merge_lists]. rewrite (merge_list_view a b) by done.
  unfold visible_terms. cbn [map List.filter]. destruct (visible_list v l) as [|e l'] eqn:E; cbn [nonempty].
  - cbn [merge_list mbind eres_bind]. apply IH.
  - cbn [merge_lists]. rewrite <- E, (merge_list_view b b (visible_list v l)) by done.
    assert (Ev : visible_list v (visible_list v l) = visible_list v l).
    { unfold visible_list. apply List.forallb_filter_id, forallb_forall. intros x Hx. by apply filter_In in Hx as [_ Hx]. }
    rewrite Ev. destruct (merge_list b _ _ _ _ _) as [[t m]| | |]; cbn [mbind eres_bind]; [apply IH|done..].
Qed.

Lemma merge_lists_same a b ls ls' terms merged : fc_type_name a = fc_type_name b -> fc_field_name a = fc_field_name b ->
  visible_terms v ls = visible_terms v ls' -> merge_lists a (Some v) terms merged ls = merge_lists b (Some v) terms merged ls'.
Proof. intros Ht Hf E. by rewrite (merge_lists_view a b), (merge_lists_view b b ls'), E. Qed.

Lemma merge_prefixes_same a b : same_view v a b -> merge_prefixes a (Some v) = merge_prefixes b (Some v).
Proof.
  intros [Ht Hf _ _ Hp]. unfold merge_prefixes. generalize ([] : bmap PostingList).
  induction Hp as [|[k ls] [k' ls'] pa pb [Hk Hl] Hp IH]; intros out; [done|]. cbn [fst snd merge_prefixes_from] in *. subst k'.
  rewrite (merge_lists_same a b ls ls') by done. destruct (merge_lists b _ _ _ _); cbn [mbind eres_bind]; [apply IH|done..].
Qed.

(** What the merge leaves: sorted, a posting per document. *)
Definition lists_ok (ls : bmap PostingList) : Prop := bsorted ls /\ forall key l, bm_get key ls = Some l -> NoDup (map fst l).

Lemma merge_prefixes_from_ok fc vis prefixes : forall out merged, lists_ok out ->
  merge_prefixes_from fc vis prefixes out = EOk merged -> lists_ok merged.
Proof.
  induction prefixes as [|[k ls] prefixes IH]; intros out merged Ho; cbn [merge_prefixes_from]; [by intros [= <-]|].
  intros H. apply ebind_ok in H as (m & _ & H). eapply IH; [|exact H]. destruct Ho as [Hs Hn]. split; [by apply bsorted_insert|].
  intros key l. rewrite bm_get_insert by done. case_decide; [|apply Hn]. intros [= <-]. apply NoDup_fst_map_to_list.
Qed.

Lemma lists_get fc merged key : bsorted (fc_postings fc) -> lists_ok merged ->
  bm_get key (lists fc merged) = match bm_get key merged with Some l => Some l | None => bm_get key (fc_postings fc) end.
Proof.
  intros Hs [Hm _]. unfold lists. destruct (bm_get key merged) as [l|] eqn:E.
  - apply bm_get_in in E; [|done]. apply bm_get_insert_all_in; [done|by apply bsorted_nodup|done].
  - apply bm_get_insert_all_notin; [done|]. intros Hin. apply in_map_iff in Hin as ([k l] & <- & Hl). by eapply bm_get_none in E.
Qed.

Lemma lists_are_ok fc merged : candidates_ok fc -> lists_ok merged -> lists_ok (lists fc merged).
Proof.
  intros [Hs Hn _] Hm. split; [by apply bsorted_insert_all|]. intros key l. rewrite lists_get by done.
  destruct (bm_get key merged) eqn:E; [|apply Hn]. intros [= <-]. by eapply Hm.
Qed.

(** ** Two stores with the same visible postings *)

Section same.
Variables (query : ParsedQuery) (ls1 ls2 : bmap PostingList).
Hypothesis Hok1 : lists_ok ls1.
Hypothesis Hok2 : lists_ok ls2.
Hypothesis Hsame : forall key, visible_list v (default [] (bm_get key ls1)) = visible_list v (default [] (bm_get key ls2)).

Lemma visible_map_get ls key : lists_ok ls ->
  bm_get key (visible_map v ls) = let l := visible_list v (default [] (bm_get key ls)) in if nonempty l then Some l else None.
Proof.
  intros [Hs _]. unfold visible_map. induction ls as [|[k l] ls IH]; [done|]. apply bsorted_cons_inv in Hs as [Hs Hf]. cbn [map List.filter fst snd].
  destruct (beqb_spec key k) as [->|Hne].
  - assert (E : bm_get k ls = None).
    { apply bm_get_none. intros x Hx. rewrite List.Forall_forall in Hf. specialize (Hf _ Hx). by apply blt_irrefl in Hf. }
    cbn [bm_get]. destruct (beqb_spec k k); [|done]. cbn [default]. destruct (nonempty (visible_list v l)) eqn:En.
    + cbn [bm_get]. destruct (beqb_spec k k); [|done]. cbn zeta. unfold id. by rewrite En.
    + rewrite IH by done. rewrite E. cbn zeta. unfold id. by rewrite En.
  - cbn [bm_get]. destruct (beqb_spec key k); [done|]. destruct (nonempty (visible_list v l)); [|by apply IH].
    cbn [bm_get]. destruct (beqb_spec key k); [done|]. by apply IH.
Qed.

Lemma visible_map_sorted ls : bsorted ls -> bsorted (visible_map v ls).
Proof.
  intros Hs. apply bsorted_filter. induction Hs as [|e l Hs IH Hf]; [apply bsorted_nil|]. cbn [map]. constructor; [done|].
  apply Forall_fmap. by apply (Forall_impl _ _ _ Hf).
Qed.

Lemma visible_map_same : visible_map v ls1 = visible_map v ls2.
Proof.
  apply bm_ext; [apply visible_map_sorted, Hok1|apply visible_map_sorted, Hok2|]. intros key. rewrite !visible_map_get by done. by rewrite Hsame.
Qed.

Lemma concat_visible ls : visible_list v (List.concat (map snd ls)) = List.concat (map snd (visible_map v ls)).
Proof.
  unfold visible_map. induction ls as [|[k l] ls IH]; [done|]. cbn [map List.concat List.filter fst snd]. unfold visible_list at 1.
  rewrite List.filter_app. fold (visible_list v l). fold (visible_list v (List.concat (map snd ls))). rewrite IH.
  destruct (visible_list v l) as [|e l'] eqn:E; cbn [nonempty map List.concat snd]; [done|]. reflexivity.
Qed.

Lemma doc_lens_fold (l : PostingList) : forall m : gmap Z Z,
  let f := fun (m : gmap Z Z) (e : Z * Posting) =>
    if bool_decide (e.1 ∈ v) then match m !! e.1 with Some _ => m | None => <[ e.1 := doc_len e.2 ]> m end else m in
  fold_left f l m = fold_left f (visible_list v l) m.
Proof.
  induction l as [|[id p] l IH]; intros m f; [done|]. cbn [visible_list List.filter fold_left fst].
  unfold f at 2. cbn [fst]. destruct (bool_decide (id ∈ v)) eqn:E; cbn [fold_left]; [unfold f at 3; cbn [fst]; rewrite E|]; apply IH.
Qed.

Lemma doc_lens_visible ls : doc_lens v ls = doc_lens v (visible_map v ls).
Proof. unfold doc_lens. rewrite <- concat_visible. apply doc_lens_fold. Qed.

Lemma doc_lens_same : doc_lens v ls1 = doc_lens v ls2.
Proof. by rewrite (doc_lens_visible ls1), (doc_lens_visible ls2), visible_map_same. Qed.

Variable stats : CorpusStats.

Lemma term_df_visible ls t : term_df ls (Some v) Corpus t = Z.of_nat (List.length (visible_list v (default [] (bm_get t ls)))).
Proof. unfold term_df. by destruct (bm_get t ls). Qed.

Lemma posting_of_visible ls id t : id ∈ v -> posting_of ls id t = zget id (visible_list v (default [] (bm_get t ls))).
Proof.
  intros Hid. unfold posting_of, visible_list. transitivity (zget id (default [] (bm_get t ls))); [by destruct (bm_get t ls)|].
  symmetry. apply (zget_filter (allowed (Some v))). by apply bool_decide_eq_true.
Qed.

(** The two rankings are equal. *)
Lemma score_query_same n1 n2 clock1 clock2 k : Z.of_nat (List.length (pq_clauses query)) <= u32_max ->
  (forall c, In c (pq_clauses query) -> c_terms c <> []) ->
  score_query_with query ls1 stats (Some v) Corpus clock1 None n1 k = score_query_with query ls2 stats (Some v) Corpus clock2 None n2 k.
Proof.
  intros Hsz Hne. destruct (decide (k = 0)) as [->|Hk]; [done|]. destruct (decide (doc_count stats = 0)) as [Hd|Hd].
  { unfold score_query_with. by rewrite Hd, orb_true_r. }
  destruct (score_query_with query ls1 _ _ _ _ _ _ _) as [hits1|] eqn:E1; [|by apply score_query_total in E1].
  destruct (score_query_with query ls2 _ _ _ _ _ _ _) as [hits2|] eqn:E2; [|by apply score_query_total in E2].
  apply score_query_exact in E1 as (r1 & -> & Hs1 & Hn1 & Hr1); [|apply Hok1|done..].
  apply score_query_exact in E2 as (r2 & -> & Hs2 & Hn2 & Hr2); [|apply Hok2|done..].
  rewrite (sorted_hits_unique r1 r2); [done|by eapply NoDup_fmap_1|by eapply NoDup_fmap_1| | |done|done].
  - intros h. rewrite Hr1, Hr2. apply hit_spec_ext.
    + done.
    + intros t _. by rewrite !term_df_visible, Hsame.
    + intros id t _ Hid%bool_decide_eq_true. by rewrite !posting_of_visible, Hsame.
  - intros a b Ha Hb. apply Hr1 in Ha, Hb. by eapply hit_spec_unique.
Qed.
End same.

(** ** The theorem *)

(** With the same visible postings the rankings are the same, errors included. *)
Lemma score_visible_same clock1 clock2 n1 n2 a b k :
  candidates_ok a -> candidates_ok b -> same_view v a b ->
  score_visible clock1 n1 a v k None = score_visible clock2 n2 b v k None.
Proof.
  intros Ha Hb Hv. unfold score_visible. rewrite (merge_prefixes_same a b Hv).
  destruct (merge_prefixes b (Some v)) as [merged| | |] eqn:Em; cbn [mbind eres_bind]; [|done..].
  assert (Hm : lists_ok merged).
  { eapply merge_prefixes_from_ok; [|exact Em]. split; [apply bsorted_nil|done]. }
  assert (Hsame : forall key, visible_list v (default [] (bm_get key (lists a merged))) = visible_list v (default [] (bm_get key (lists b merged)))).
  { intros key. rewrite !lists_get by (apply Ha || apply Hb || done). destruct (bm_get key merged); [done|]. apply Hv. }
  pose proof (lists_are_ok a merged Ha Hm) as H1. pose proof (lists_are_ok b merged Hb Hm) as H2.
  rewrite (sv_parsed v a b Hv), (doc_lens_same (lists a merged) (lists b merged)) by done.
  rewrite (score_query_same (fc_parsed b) (lists a merged) (lists b merged) H1 H2 Hsame _ n1 n2 clock1 clock2 k).
  - case_match; [done|]. unfold deadline_error. by rewrite (sv_type v a b Hv), (sv_field v a b Hv).
  - pose proof (clauses_bound _ _ (ca_query b Hb)). unfold u32_max, MAX_QUERY_TERMS in *. lia.
  - intros c Hc. eapply clause_ok_terms. pose proof (qo_clauses _ _ (ca_query b Hb)) as Hf. rewrite List.Forall_forall in Hf. by apply Hf.
Qed.

End visible.
