(* ===== verification/FulltextScan.v ===== *)
(** * Collecting the postings of a query (crates/rhypedb-engine/src/database.rs,
    [fulltext_candidates], [scan_fulltext_postings], [fulltext_search])

    One scan per distinct term of the query, in bounded chunks of the raw keys
    of a snapshot, under a cap on the rows examined and a deadline that is
    checked before every chunk.  The statistics and the build state of a field
    are an argument; the clock is read at most once per chunk. *)

From Stdlib Require Import ZArith Lia Bool List Strings.Byte Strings.String Sorting.Sorted.
From stdpp Require Import base tactics option list sorting gmap.
From S2P Require Import Prelude ByteMap Keys Versioned MemTable Layers Lsm Store Utf8 Values Schema IndexKeys Posting Fulltext Engine FilterScan.
From S2P Require Import FilterSpec FilterProps ScanChunks FulltextQuery FulltextSearch FulltextSearchProps.

Local Open Scope Z_scope.

Definition MAX_PREFIX_EXPANSION_SCAN : Z := 1024.
Definition POSTING_SCAN_CHUNK : Z := 4096.

Record FulltextLimits := { max_postings : option Z; fl_deadline : option Z; defer_prefix_cap : bool }.

Definition no_limits : FulltextLimits := {| max_postings := None; fl_deadline := None; defer_prefix_cap := false |}.

Record FulltextSearchResult := { sr_hits : list FulltextHit; sr_postings_scanned : Z }.

(** The statistics of a field and whether its index is built. *)
Record FieldState := { fs_stats : FulltextStats; fs_built : bool }.

Section scan.
Context {T : TextLib} {M : MathLib}.
Variables (db : Database) (state : FulltextField -> FieldState) (r : Reader) (clock : nat -> Z).

Definition fulltext_field (type_name field_name : bytes) : option FulltextField :=
  ffs ← bm_get type_name (fulltext_fields db); find (fun f => beqb (ff_name f) field_name) ffs.

Section field.
Variables (type_name field_name : bytes) (limits : FulltextLimits).

Definition over_limit (scanned : Z) : bool := match max_postings limits with Some limit => limit <? scanned | None => false end.

Definition corrupt {A} : eres A := EErr (FulltextIndexCorrupt type_name field_name).

(** ** The chunks of a scan *)

(** What a visit is given: the state of the visitor, a row, and the rows charged. *)
Definition visitor (V : Type) : Type := V -> bytes * bytes -> Z -> eres (V * Z).

Fixpoint visit_rows {V} (visit : visitor V) (rows : list (bytes * bytes)) (st : V) (scanned : Z) : eres (V * Z) :=
  match rows with
  | [] => EOk (st, scanned)
  | row :: rows => '(st, scanned) ← visit st row scanned; visit_rows visit rows st scanned
  end.

(** The size of the next chunk: one more than the rows left, to see an overrun. *)
Definition chunk_want (scanned : Z) : Z :=
  match max_postings limits with
  | Some limit => Z.min (Z.min u64_max (Z.max 0 (limit - scanned) + 1)) POSTING_SCAN_CHUNK
  | None => POSTING_SCAN_CHUNK
  end.

Fixpoint scan_fulltext_postings {V} (fuel : nat) (visit : visitor V) (prefix start : bytes) (n : nat) (scanned : Z) (st : V)
    : eres (V * Z * nat) :=
  match fuel with
  | O => EFuel
  | S fuel =>
      n ← match fl_deadline limits with
          | Some d => if d <=? clock n then EErr (FulltextDeadlineExceeded type_name field_name) else EOk (S n)
          | None => EOk n
          end;
      let chunk := rd_chunk r prefix start (chunk_want scanned) in
      let scanned := as_u64 (scanned + Z.of_nat (cs_visited chunk)) in
      if over_limit scanned then EErr (FulltextScanBudgetExceeded type_name field_name)
      else
        '(st, scanned) ← visit_rows visit (cs_live chunk) st scanned;
        match cs_high_water chunk, cs_more chunk with
        | Some hw, true => scan_fulltext_postings fuel visit prefix (hw ++ [x00]) n scanned st
        | _, _ => EOk (st, scanned, n)
        end
  end.

(** ** What is done with a row *)

Definition header_posting (value : bytes) : eres Posting :=
  match decode_posting_header value with
  | DOk (doc_len, tf) => EOk {| doc_len := doc_len; tf := tf; p_positions := [] |}
  | DErr _ => corrupt
  end.

(** Add a posting to the last list. *)
Definition push_last (per_term : list PostingList) (e : Z * Posting) : list PostingList :=
  alter (fun l => l ++ [e]) (List.length per_term - 1)%nat per_term.

(** The rows of a prefix, grouped by term. *)
Definition visit_prefix : visitor (list PostingList * option bytes) := fun st row scanned =>
  let '(per_term, current_term) := st in
  term ← match KeyBuilder.fulltext_posting_term (fst row) with Some t => EOk t | None => corrupt end;
  '(per_term, current_term) ←
    if match current_term with Some t => beqb t term | None => false end then EOk (per_term, current_term)
    else
      let cap := if defer_prefix_cap limits then MAX_PREFIX_EXPANSION_SCAN else MAX_PREFIX_EXPANSION in
      if cap <=? Z.of_nat (List.length per_term) then EErr FulltextQuery else EOk (per_term ++ [[]], Some term);
  object_id ← match KeyBuilder.fulltext_object_id (fst row) with Some o => EOk o | None => corrupt end;
  p ← header_posting (snd row);
  EOk (push_last per_term (object_id, p), current_term, scanned).

(** The rows of a term; the positions of a word of a phrase are charged before
    they are decoded. *)
Definition visit_term (with_positions : bool) : visitor PostingList := fun l row scanned =>
  object_id ← match KeyBuilder.fulltext_object_id (fst row) with Some o => EOk o | None => corrupt end;
  if with_positions then
    match decode_posting_header (snd row) with
    | DErr _ => corrupt
    | DOk (_, tf) =>
        let scanned := Z.min u64_max (scanned + tf) in
        if over_limit scanned then EErr (FulltextScanBudgetExceeded type_name field_name)
        else match decode_posting (snd row) with DOk p => EOk (l ++ [(object_id, p)], scanned) | DErr _ => corrupt end
    end
  else p ← header_posting (snd row); EOk (l ++ [(object_id, p)], scanned).

(** ** The terms of a query *)

Definition phrase_terms (parsed : ParsedQuery) : list bytes :=
  List.concat (map c_terms (List.filter is_phrase (pq_clauses parsed))).

Definition prefix_keys (parsed : ParsedQuery) : bmap bytes :=
  fold_left (fun m c => match prefix_text c with Some p => bm_insert (default [] (head (c_terms c))) p m | None => m end)
    (pq_clauses parsed) [].

(** The lists collected, the rows charged, and the readings of the clock. *)
Record Collected := {
  co_postings : bmap PostingList;
  co_prefix_terms : bmap (list PostingList);
  co_scanned : Z;
  co_reads : nat;
}.

Definition collect_key (fuel : nat) (type_id : Z) (ff : FulltextField) (parsed : ParsedQuery) (co : Collected) (key : bytes) : eres Collected :=
  match bm_get key (prefix_keys parsed) with
  | Some prefix =>
      let range := KeyBuilder.fulltext_term_prefix type_id (ff_field_id ff) (ff_generation ff) (encode_term_prefix prefix) in
      '(per_term, _, scanned, n) ← scan_fulltext_postings fuel visit_prefix range range (co_reads co) (co_scanned co) ([], None);
      EOk {| co_postings := co_postings co; co_prefix_terms := bm_insert key per_term (co_prefix_terms co);
             co_scanned := scanned; co_reads := n |}
  | None =>
      let prefix := KeyBuilder.fulltext_term_prefix type_id (ff_field_id ff) (ff_generation ff) (encode_term key) in
      let with_positions := existsb (beqb key) (phrase_terms parsed) in
      '(l, scanned, n) ← scan_fulltext_postings fuel (visit_term with_positions) prefix prefix (co_reads co) (co_scanned co) [];
      EOk {| co_postings := bm_insert key l (co_postings co); co_prefix_terms := co_prefix_terms co;
             co_scanned := scanned; co_reads := n |}
  end.

Fixpoint collect_keys (fuel : nat) (type_id : Z) (ff : FulltextField) (parsed : ParsedQuery) (keys : list bytes) (co : Collected) : eres Collected :=
  match keys with
  | [] => EOk co
  | key :: keys => co ← collect_key fuel type_id ff parsed co key; collect_keys fuel type_id ff parsed keys co
  end.

(** Why a field cannot be searched. *)
Definition not_searchable : eres FulltextField :=
  type_def ← schema_type db type_name;
  match field_retired_error db type_name field_name with
  | Some e => EErr e
  | None =>
      match get_field type_def field_name with
      | None => EErr (FieldNotFound type_name field_name)
      | Some _ => EErr (FulltextNotEnabled type_name field_name)
      end
  end.

Definition fulltext_candidates (fuel n : nat) (query_text : bytes) : eres FulltextCandidates :=
  type_id ← resolve_type_id db type_name;
  ff ← match fulltext_field type_name field_name with Some ff => EOk ff | None => not_searchable end;
  if negb (fs_built (state ff)) then EErr (FulltextIndexBuilding type_name field_name)
  else
    parsed ← match parse_query (ff_analyzer ff) query_text with SOk q => EOk q | SErr _ => EErr FulltextQuery | SFuel => EFuel end;
    if needs_positions parsed && negb (ff_positions ff) then EErr FulltextQuery
    else
      co ← collect_keys fuel type_id ff parsed (distinct_terms parsed)
             {| co_postings := []; co_prefix_terms := []; co_scanned := 0; co_reads := n |};
      EOk {| fc_type_name := type_name; fc_field_name := field_name; fc_parsed := parsed; fc_postings := co_postings co;
             fc_prefix_terms := co_prefix_terms co; fc_stats := fs_stats (state ff); fc_postings_scanned := co_scanned co |}.

End field.

Definition fulltext_search (fuel : nat) (type_name field_name query_text : bytes) (k : Z) (restrict : option (gset Z)) (max_postings : option Z)
    : eres FulltextSearchResult :=
  let limits := {| max_postings := max_postings; fl_deadline := None; defer_prefix_cap := false |} in
  fc ← fulltext_candidates type_name field_name limits fuel 0 query_text;
  hits ← score clock 0 fc restrict k None;
  EOk {| sr_hits := hits; sr_postings_scanned := fc_postings_scanned fc |}.

End scan.

(** * What a search collects

    The chunked scan of a term visits its rows once, in order; the rows of an
    index that holds the documents decode to their postings; so a search ranks
    the documents by their text. *)

(** ** Chunks *)

(** The key after [h]. *)
Lemma ble_after (h : bytes) : forall k, (h ++ [x00] <=b k)%bytes <-> (h <b k)%bytes.
Proof.
  intros k. split.
  - intros H. eapply blt_ble_trans; [|exact H]. rewrite <- (app_nil_r h) at 1. by apply blt_app.
  - revert k. induction h as [|b h IH]; intros k H.
    + destruct k as [|c k]; [done|]. unfold ble. cbn. destruct (b2z c) eqn:E; [|done|pose proof (b2z_range c); lia]. apply ble_nil.
    + destruct k as [|c k]; [done|]. unfold blt, ble in *. cbn [app bytes_cmp] in *. destruct (b2z b ?= b2z c); [by apply IH|done|done].
Qed.

Lemma after_window (rows w rest : bmap MemValue) h x : bsorted rows -> rows = (w ++ [(h, x)]) ++ rest -> bm_range (h ++ [x00]) rows = rest.
Proof.
  intros Hs ->. unfold bm_range. rewrite List.filter_app. apply bsorted_app in Hs as (H1 & H2 & H3).
  rewrite (filter_ext_in _ (fun _ => false) (w ++ [(h, x)])), filter_none; [cbn [app]; apply filter_all_true|].
  - intros e He. destruct (bleb_spec (h ++ [x00]) (fst e)) as [|Hn]; [done|]. destruct Hn. apply ble_after.
    apply (H3 (h, x) e); [apply in_or_app; right; by left|done].
  - intros e He. destruct (bleb_spec (h ++ [x00]) (fst e)) as [Hn%ble_after|]; [|done]. exfalso. apply in_app_or in He as [He|[<-|[]]].
    + apply bsorted_app in H1 as (_ & _ & H1). specialize (H1 e (h, x) He (or_introl eq_refl)). cbn [fst] in H1.
      by apply (blt_irrefl h), (blt_trans _ (fst e)).
    + by apply blt_irrefl in Hn.
Qed.

Lemma range_twice {V} (a b : bytes) (m : bmap V) : (a <=b b)%bytes -> bm_range b (bm_range a m) = bm_range b m.
Proof.
  intros Hab. unfold bm_range. induction m as [|e m IH]; [done|]. cbn [List.filter]. destruct (bleb_spec a (fst e)) as [Ha|Ha]; cbn [List.filter].
  - by rewrite IH.
  - rewrite IH. destruct (bleb_spec b (fst e)) as [Hb|]; [|done]. destruct Ha. by eapply ble_trans.
Qed.

(** A fold that may fail. *)
Fixpoint folds {V R} (f : V -> R -> eres V) (rows : list R) (st : V) : eres V :=
  match rows with [] => EOk st | row :: rows => st ← f st row; folds f rows st end.

Lemma folds_app {V R} (f : V -> R -> eres V) a b st : folds f (a ++ b) st = (st ← folds f a st; folds f b st).
Proof. revert st. induction a as [|x a IH]; intros st; [done|]. cbn [app folds]. destruct (f st x); cbn; [apply IH|done..]. Qed.

Section scan.
Context {T : TextLib} {M : MathLib}.
Variables (db : Database) (r : Reader) (clock : nat -> Z) (raw : bmap MemValue) (type_name field_name : bytes) (limits : FulltextLimits).
Hypothesis Hc : chunks_ok r raw.

(** An error of the limits. *)
Definition limit_error (e : EngineError) : Prop :=
  is_Some (max_postings limits) /\ e = FulltextScanBudgetExceeded type_name field_name \/
  is_Some (fl_deadline limits) /\ e = FulltextDeadlineExceeded type_name field_name.

(** A visitor does what [f] does, but for the limits. *)
Definition visits {V} (visit : visitor V) (f : V -> bytes * bytes -> eres V) : Prop := forall st row scanned,
  match visit st row scanned with
  | EOk (st', _) => f st row = EOk st'
  | EErr e => limit_error e \/ f st row = EErr e
  | EPanic | EFuel => False
  end.

Lemma visit_rows_spec {V} (visit : visitor V) f rows : visits visit f -> forall st scanned,
  match visit_rows visit rows st scanned with
  | EOk (st', _) => folds f rows st = EOk st'
  | EErr e => limit_error e \/ folds f rows st = EErr e
  | EPanic | EFuel => False
  end.
Proof.
  intros Hv. induction rows as [|row rows IH]; intros st scanned; [done|]. cbn [visit_rows folds]. specialize (Hv st row scanned).
  destruct (visit st row scanned) as [[st1 s1]|e| |]; cbn [mbind eres_bind]; [|destruct Hv as [Hv|Hv]; [by left|right; by rewrite Hv]|done..].
  rewrite Hv. cbn [mbind eres_bind]. apply IH.
Qed.

Lemma chunk_want_pos scanned : 0 < chunk_want limits scanned.
Proof. unfold chunk_want, POSTING_SCAN_CHUNK, u64_max. case_match; lia. Qed.

Lemma over_limit_some scanned : over_limit limits scanned = true -> is_Some (max_postings limits).
Proof. unfold over_limit. by destruct (max_postings limits). Qed.

(** With more rounds than raw keys, a scan does what its visitor does on the
    live rows under the prefix from the start key. *)
Lemma scan_outcome {V} (visit : visitor V) f p fuel : visits visit f -> forall start n scanned st, p `prefix_of` start ->
  let rows := bm_range start (raw_under p raw) in (List.length rows < fuel)%nat ->
  match scan_fulltext_postings r clock type_name field_name limits fuel visit p start n scanned st with
  | EOk (st', _, _) => folds f (live_rows rows) st = EOk st'
  | EErr e => limit_error e \/ folds f (live_rows rows) st = EErr e
  | EPanic | EFuel => False
  end.
Proof.
  intros Hv. induction fuel as [|fuel IH]; intros start n scanned st Hp rows Hf; [lia|]. cbn [scan_fulltext_postings].
  assert (Hsorted : bsorted rows) by apply bsorted_range, bsorted_filter, Hc.
  match goal with |- context [ mbind _ ?m ] => destruct m as [n'|e| |] eqn:En end; cbn [mbind eres_bind];
    [|left; right|destruct (fl_deadline limits); [by destruct (_ <=? _)|done]..].
  2:{ destruct (fl_deadline limits) as [d|]; [|done]. destruct (d <=? clock n); [|done]. by injection En as <-. }
  destruct (co_chunk _ _ Hc p start _ Hp (chunk_want_pos scanned)) as (E1 & E2 & E3 & E4). fold rows in E1, E2, E3, E4.
  destruct (over_limit limits _) eqn:Eo; [left; left; split; [by eapply over_limit_some|done]|].
  set (k := Z.to_nat (chunk_want limits scanned)) in *. assert (Hk : (0 < k)%nat) by (pose proof (chunk_want_pos scanned); lia).
  assert (Hsplit : live_rows rows = live_rows (take k rows) ++ live_rows (drop k rows)) by (by rewrite <- live_rows_app, take_drop).
  rewrite E1. pose proof (visit_rows_spec visit f (live_rows (take k rows)) Hv st
    (as_u64 (scanned + Z.of_nat (cs_visited (rd_chunk r p start (chunk_want limits scanned)))))) as Hrows.
  destruct (visit_rows visit _ st _) as [[st1 s1]|e| |]; cbn [mbind eres_bind]; [|destruct Hrows as [Hrows|Hrows]; [by left|right; by rewrite Hsplit, folds_app, Hrows]|done..].
  assert (Hlast : take k rows = rows -> folds f (live_rows rows) st = EOk st1) by (intros <-; done).
  rewrite E2. destruct (last (take k rows)) as [[h x]|] eqn:El; cbn [fmap option_fmap option_map fst].
  2:{ apply last_None in El. apply Hlast. destruct rows as [|e rows']; [done|]. destruct k; [lia|done]. }
  destruct (cs_more _) eqn:Em; [|by apply Hlast, E4].
  apply last_Some in El as [w Ew]. assert (Erows : rows = (w ++ [(h, x)]) ++ drop k rows) by (by rewrite <- Ew, take_drop).
  assert (Hin : In (h, x) rows) by (rewrite Erows; apply in_or_app; left; apply in_or_app; right; by left).
  assert (Hnext : bm_range (h ++ [x00]) (raw_under p raw) = drop k rows).
  { transitivity (bm_range (h ++ [x00]) rows); [|by eapply after_window]. symmetry. apply range_twice.
    apply in_bm_range in Hin as [_ Hin]. cbn [fst] in Hin. eapply ble_trans; [exact Hin|apply ble_app_r]. }
  assert (Hph : p `prefix_of` h ++ [x00]).
  { apply in_bm_range in Hin as [Hin _]. apply filter_In in Hin as [_ Hin%starts_with_true]. by apply prefix_app_r. }
  assert (Hlt : (List.length (drop k rows) < fuel)%nat).
  { assert (List.length rows <> 0)%nat by (rewrite Erows, !length_app; cbn; lia). rewrite length_drop. lia. }
  specialize (IH (h ++ [x00]) n' s1 st1 Hph). cbv zeta in IH. rewrite Hnext in IH. specialize (IH Hlt).
  destruct (scan_fulltext_postings _ _ _ _ _ _ _ _ _ _ _ _) as [[[st2 s2] n2]|e| |]; [|destruct IH as [?|IH]; [by left|right]|done..];
    by rewrite Hsplit, folds_app, Hrows.
Qed.

Lemma range_self p : bm_range p (raw_under p raw) = raw_under p raw.
Proof.
  apply filter_all_true. intros e He. apply filter_In in He as [_ He%starts_with_true]. destruct (bleb_spec p (fst e)) as [|Hn]; [done|].
  by destruct Hn; apply prefix_ble.
Qed.

(** The scan of a prefix, on the rows of the snapshot. *)
Lemma scan_prefix_outcome {V} (visit : visitor V) f p fuel n scanned st : visits visit f -> (List.length raw < fuel)%nat ->
  match scan_fulltext_postings r clock type_name field_name limits fuel visit p p n scanned st with
  | EOk (st', _, _) => folds f (rows_under p (rd_map r)) st = EOk st'
  | EErr e => limit_error e \/ folds f (rows_under p (rd_map r)) st = EErr e
  | EPanic | EFuel => False
  end.
Proof.
  intros Hv Hf. rewrite <- (co_live _ _ Hc p). pose proof (scan_outcome visit f p fuel Hv p n scanned st) as H. cbv zeta in H.
  rewrite range_self in H. apply H; [done|]. unfold raw_under. eapply Nat.le_lt_trans; [apply List.filter_length_le|done].
Qed.
End scan.

(** ** The rows of the documents *)

Section index.
Context {T : TextLib}.
Variables (tid : Z) (ff : FulltextField) (docs : list (Z * bytes)) (m : bmap bytes).

(** The index of the field holds exactly the rows of the documents. *)
Record index_holds : Prop := {
  ih_sorted : bsorted m;
  ih_nodup : NoDup (map fst docs);
  ih_u64 : forall o x, In (o, x) docs -> is_u64 o;
  ih_rows : forall o, is_u64 o -> holds_rows tid ff o m (zget o docs);
  ih_keys : forall k x, In (k, x) m -> KeyBuilder.fulltext_field_prefix tid (ff_field_id ff) (ff_generation ff) `prefix_of` k ->
    exists o term, is_u64 o /\ k = posting_key tid ff o term;
}.
Hypothesis Hix : index_holds.

Definition toks (x : bytes) : list Token := analyze (ff_analyzer ff) x.
Definition dlen (x : bytes) : Z := Z.of_nat (List.length (toks x)).

(** The posting row of a term in a document. *)
Definition posting_row (o : Z) (x t : bytes) : bytes * bytes :=
  (posting_key tid ff o t, encode_posting (dlen x) (positions_of t (toks x)) (ff_positions ff)).

Lemma zget_in {V} o (x : V) l : NoDup (map fst l) -> zget o l = Some x <-> In (o, x) l.
Proof.
  induction l as [|[i y] l IH]; [done|]. cbn [map fst]. intros [Hn Hd]%NoDup_cons. cbn [zget]. rewrite list_elem_of_In in Hn.
  destruct (Z.eqb_spec o i) as [->|Hne]; split.
  - intros [= ->]. by left.
  - intros [[= ->]|Hin]; [done|]. exfalso. apply Hn. by apply (in_map fst) in Hin.
  - intros H. right. by apply IH.
  - intros [[= -> _]|Hin]; [done|]. by apply IH.
Qed.

Lemma dlen_bound x : 0 <= dlen x <= MAX_ANALYZED_WORDS.
Proof. unfold dlen, toks. pose proof (analyze_tokens (ff_analyzer ff) x) as [_ H]. lia. Qed.

Lemma positions_bound t x : Z.of_nat (List.length (positions_of t (toks x))) <= dlen x.
Proof. unfold positions_of, dlen. rewrite length_map. pose proof (List.filter_length_le (fun t0 => beqb t (t_term t0)) (toks x)). lia. Qed.

Lemma get_posting o t : is_u64 o ->
  bm_get (posting_key tid ff o t) m = x ← zget o docs;
    match positions_of t (toks x) with [] => None | _ => Some (snd (posting_row o x t)) end.
Proof.
  intros Ho. rewrite (ih_rows Hix o Ho (posting_key tid ff o t)) by (right; eauto). rewrite ft_rows_posting.
  destruct (zget o docs) as [x|]; [|done]. cbn [mbind option_bind]. unfold tokenize_for_index. cbn [id_terms id_doc_len].
  rewrite term_map_get, as_u32_small by (pose proof (dlen_bound x); unfold dlen, is_u32, MAX_ANALYZED_WORDS in *; fold (toks x); lia).
  unfold posting_row, dlen. cbn [snd]. fold (toks x). by destruct (positions_of t (toks x)).
Qed.

(** The rows under a prefix of the field's keys. *)
Lemma field_rows_in z row :
  In row (rows_under (KeyBuilder.fulltext_field_prefix tid (ff_field_id ff) (ff_generation ff) ++ z) m) <->
  exists o x t, zget o docs = Some x /\ positions_of t (toks x) <> [] /\ row = posting_row o x t /\
    KeyBuilder.fulltext_field_prefix tid (ff_field_id ff) (ff_generation ff) ++ z `prefix_of` posting_key tid ff o t.
Proof.
  unfold rows_under. rewrite filter_In, starts_with_true. destruct row as [k v]. cbn [fst]. split.
  - intros [Hin Hp]. destruct (ih_keys Hix k v Hin) as (o & t & Ho & ->); [etrans; [|exact Hp]; by apply prefix_app_r|].
    apply bm_get_in in Hin; [|apply Hix]. rewrite get_posting in Hin by done. destruct (zget o docs) as [x|] eqn:Ex; [|done].
    cbn [mbind option_bind] in Hin. exists o, x, t. destruct (positions_of t (toks x)) eqn:Eps; [done|]. injection Hin as <-. done.
  - intros (o & x & t & Ex & Hps & [= -> ->] & Hp). split; [|done]. apply bm_get_in; [apply Hix|].
    assert (Ho : is_u64 o) by (eapply (ih_u64 Hix), zget_in; [apply Hix|exact Ex]).
    rewrite get_posting, Ex by done. cbn [mbind option_bind]. unfold posting_row. cbn [snd]. by destruct (positions_of t (toks x)).
Qed.

Lemma term_rows_in t row :
  In row (rows_under (KeyBuilder.fulltext_term_prefix tid (ff_field_id ff) (ff_generation ff) (encode_term t)) m) <->
  exists o x, zget o docs = Some x /\ positions_of t (toks x) <> [] /\ row = posting_row o x t.
Proof.
  unfold KeyBuilder.fulltext_term_prefix. fold (KeyBuilder.fulltext_field_prefix tid (ff_field_id ff) (ff_generation ff)). rewrite field_rows_in. split.
  - intros (o & x & t' & Ex & Hps & -> & Hp). exists o, x. unfold posting_key, KeyBuilder.fulltext_posting in Hp.
    apply prefix_app_inv in Hp as [z Hz]. assert (t = t') as ->; [|done]. destruct (decide (t = t')) as [|Hne]; [done|]. exfalso.
    pose proof (encode_bytes_order t t' z (be64 o) Hne) as Hcmp. unfold encode_term, encode_str_for_index in Hz. rewrite Hz, bytes_cmp_refl in Hcmp.
    symmetry in Hcmp. by apply bytes_cmp_eq in Hcmp.
  - intros (o & x & Ex & Hps & ->). exists o, x, t. split_and!; [done..|]. unfold posting_key, KeyBuilder.fulltext_posting. apply prefix_app. by apply prefix_app_r.
Qed.

Lemma prefix_rows_in p row :
  In row (rows_under (KeyBuilder.fulltext_term_prefix tid (ff_field_id ff) (ff_generation ff) (encode_term_prefix p)) m) <->
  exists o x t, zget o docs = Some x /\ positions_of t (toks x) <> [] /\ row = posting_row o x t /\ p `prefix_of` t.
Proof.
  unfold KeyBuilder.fulltext_term_prefix. fold (KeyBuilder.fulltext_field_prefix tid (ff_field_id ff) (ff_generation ff)). rewrite field_rows_in.
  by setoid_rewrite (fun o t => proj1 (term_prefix_exact tid (ff_field_id ff) (ff_generation ff) o p t)).
Qed.

(** ** Decoding *)

Variables (type_name field_name : bytes).

(** The entry a row gives, with or without positions. *)
Definition row_entry (with_positions : bool) (row : bytes * bytes) : eres (Z * Posting) :=
  object_id ← match KeyBuilder.fulltext_object_id (fst row) with Some o => EOk o | None => corrupt type_name field_name end;
  if with_positions then
    match decode_posting_header (snd row) with
    | DErr _ => corrupt type_name field_name
    | DOk _ => match decode_posting (snd row) with DOk p => EOk (object_id, p) | DErr _ => corrupt type_name field_name end
    end
  else p ← header_posting type_name field_name (snd row); EOk (object_id, p).

(** The posting of a term in a text. *)
Definition text_posting (with_positions : bool) (x t : bytes) : Posting :=
  {| doc_len := dlen x; tf := Z.of_nat (List.length (positions_of t (toks x)));
     p_positions := if with_positions && ff_positions ff then positions_of t (toks x) else [] |}.

Lemma row_entry_ok wp o x t : is_u64 o -> positions_of t (toks x) <> [] -> row_entry wp (posting_row o x t) = EOk (o, text_posting wp x t).
Proof.
  intros Ho Hps. unfold row_entry, posting_row. cbn [fst snd]. unfold posting_key. rewrite (proj1 (proj2 (term_prefix_exact _ _ _ o [] t))) by done.
  cbn [mbind eres_bind]. pose proof (dlen_bound x) as Hd. pose proof (positions_bound t x) as Hb.
  destruct (posting_round_trip (dlen x) (positions_of t (toks x)) (ff_positions ff)) as (E1 & E2 & _);
    [unfold is_u32, MAX_ANALYZED_WORDS in *; lia|done|unfold is_u32, MAX_ANALYZED_WORDS in *; lia|eapply positions_ascending; [apply analyze_tokens|done|done]|].
  unfold header_posting. rewrite E2. destruct wp; [by rewrite E1|done].
Qed.

(** Gather the entries of rows. *)
Definition gather (wp : bool) (l : PostingList) (row : bytes * bytes) : eres PostingList := e ← row_entry wp row; EOk (l ++ [e]).

Definition decodes (wp : bool) (rows : list (bytes * bytes)) (es : list (Z * Posting)) : Prop := Forall2 (fun row e => row_entry wp row = EOk e) rows es.

Lemma rows_decode wp rows : (forall row, In row rows -> exists o x t, zget o docs = Some x /\ positions_of t (toks x) <> [] /\ row = posting_row o x t) ->
  exists es, decodes wp rows es.
Proof.
  induction rows as [|row rows IH]; intros H; [exists []; by constructor|]. destruct (H row) as (o & x & t & Ex & Hps & ->); [by left|].
  destruct IH as (es & Hes); [intros r' Hr'; apply H; by right|]. exists ((o, text_posting wp x t) :: es). constructor; [|done].
  apply row_entry_ok; [|done]. eapply (ih_u64 Hix), zget_in; [apply Hix|exact Ex].
Qed.

Lemma gather_decodes wp rows es : decodes wp rows es -> forall l, folds (gather wp) rows l = EOk (l ++ es).
Proof.
  induction 1 as [|row e rows es He Hes IH]; intros l; cbn [folds]; [by rewrite app_nil_r|].
  assert (gather wp l row = EOk (l ++ [e])) as -> by (unfold gather; by rewrite He). cbn [mbind eres_bind].
  by rewrite IH, <- app_assoc.
Qed.

Lemma visit_term_visits limits wp : visits type_name field_name limits (visit_term type_name field_name limits wp) (gather wp).
Proof.
  intros l row scanned. unfold visit_term, gather, row_entry. destruct (KeyBuilder.fulltext_object_id (fst row)); cbn [mbind eres_bind corrupt]; [|by right].
  destruct wp.
  - destruct (decode_posting_header (snd row)) as [[dl tf]|]; [|by right]. destruct (over_limit limits _) eqn:Eo.
    + left. left. split; [by eapply over_limit_some|done].
    + destruct (decode_posting (snd row)); cbn [mbind eres_bind corrupt]; [done|by right].
  - destruct (header_posting type_name field_name (snd row)) eqn:Eh; cbn [mbind eres_bind]; [done|by right| |]; unfold header_posting in Eh; by repeat case_match.
Qed.

End index.
