(* ===== verification/FulltextExact.v ===== *)
(** * Full-text search answers from the documents

    On an index that holds the documents, the lists a search collects are, up to
    order, the postings of the documents, and a merged prefix counts the tokens
    that start with it.  So the answer of a search is the reference ranking of
    the documents by their text. *)

From Stdlib Require Import ZArith Lia Bool List Strings.Byte Strings.String Sorting.Sorted Sorting.Permutation.
From stdpp Require Import base tactics option list sorting gmap.
From S2P Require Import Prelude ByteMap Keys Versioned MemTable Layers Lsm Values Utf8 Ieee Schema IndexKeys Posting Store Fulltext Engine FilterScan.
From S2P Require Import FilterSpec FilterProps ScanChunks FulltextQuery FulltextSearch FulltextSearchProps FulltextScan.

Local Open Scope Z_scope.

(** ** Association lists up to order *)

Lemma zget_perm {V} (l1 l2 : list (Z * V)) o : NoDup (map fst l1) -> Permutation l1 l2 -> zget o l1 = zget o l2.
Proof.
  intros Hn Hp. assert (Hn2 : NoDup (map fst l2)) by (by rewrite <- (Permutation_map fst Hp)).
  destruct (zget o l2) as [v|] eqn:E.
  - apply zget_in in E; [|done]. apply zget_in; [done|]. by apply (Permutation_in _ (Permutation_sym Hp)).
  - destruct (zget o l1) as [v|] eqn:E1; [|done]. apply zget_in in E1; [|done]. apply (Permutation_in _ Hp) in E1. apply zget_in in E1; [|done]. congruence.
Qed.

Lemma zget_filter_map {V W} (f : V -> bool) (g : V -> W) (l : list (Z * V)) o : NoDup (map fst l) ->
  zget o (map (fun e => (e.1, g e.2)) (List.filter (fun e => f e.2) l)) = v ← zget o l; if f v then Some (g v) else None.
Proof.
  induction l as [|[i v] l IH]; [done|]. cbn [map fst]. intros [Hi Hn]%NoDup_cons. cbn [List.filter snd zget].
  destruct (Z.eqb_spec o i) as [->|Hne].
  - cbn [mbind option_bind]. destruct (f v) eqn:Ef; cbn [map fst snd zget]; [by rewrite Z.eqb_refl|]. rewrite IH by done.
    destruct (zget i l) eqn:E; [|done]. apply zget_in in E; [|done]. exfalso. apply Hi, list_elem_of_In. by apply (in_map fst) in E.
  - destruct (f v); cbn [map fst snd zget]; [|by apply IH]. destruct (Z.eqb_spec o i); [done|by apply IH].
Qed.

Lemma nodup_perm {A} (l1 l2 : list A) : NoDup l1 -> NoDup l2 -> (forall x, In x l1 <-> In x l2) -> Permutation l1 l2.
Proof. intros H1 H2 H. apply NoDup_Permutation; [done|done|]. intros x. by rewrite !list_elem_of_In. Qed.

Lemma nodup_fst_nodup {A B} (l : list (A * B)) : NoDup (map fst l) -> NoDup l.
Proof. intros H. by eapply NoDup_fmap_1. Qed.

Section lists.
Context {T : TextLib}.
Variables (tid : Z) (ff : FulltextField) (docs : list (Z * bytes)) (m : bmap bytes).
Hypothesis Hix : index_holds tid ff docs m.

Notation toks := (toks ff).
Notation dlen := (dlen ff).
Notation posting_row := (posting_row tid ff).
Notation text_posting := (text_posting ff).

Definition has_term (t x : bytes) : bool := match positions_of t (toks x) with [] => false | _ => true end.

Lemma has_term_spec t x : has_term t x = true <-> positions_of t (toks x) <> [].
Proof. unfold has_term. by destruct (positions_of t (toks x)). Qed.

Lemma doc_u64 o x : In (o, x) docs -> is_u64 o.
Proof. apply (ih_u64 _ _ _ _ Hix). Qed.

Lemma posting_row_inj o x t o' x' t' : is_u64 o -> is_u64 o' -> fst (posting_row o x t) = fst (posting_row o' x' t') -> o = o' /\ t = t'.
Proof.
  intros Ho Ho' H. unfold FulltextScan.posting_row in H. cbn [fst] in H. assert (o = o') as ->.
  { unfold posting_key in H. pose proof (proj1 (proj2 (term_prefix_exact tid (ff_field_id ff) (ff_generation ff) o [] t)) Ho) as E.
    rewrite H, (proj1 (proj2 (term_prefix_exact tid (ff_field_id ff) (ff_generation ff) o' [] t')) Ho') in E. by injection E. }
  split; [done|]. by apply posting_key_inj in H.
Qed.

(** The reference list of a term. *)
Definition ref_list (wp : bool) (t : bytes) : PostingList :=
  map (fun d => (d.1, text_posting wp d.2 t)) (List.filter (fun d => has_term t d.2) docs).

Lemma rows_sorted_nodup p : NoDup (rows_under p m).
Proof. apply nodup_fst_nodup, bsorted_nodup. apply bsorted_filter, (ih_sorted _ _ _ _ Hix). Qed.

Lemma term_rows_perm t :
  Permutation (rows_under (KeyBuilder.fulltext_term_prefix tid (ff_field_id ff) (ff_generation ff) (encode_term t)) m)
    (map (fun d => posting_row d.1 d.2 t) (List.filter (fun d => has_term t d.2) docs)).
Proof.
  apply nodup_perm; [apply rows_sorted_nodup| |].
  - apply (NoDup_fmap_2_strong (fun d => posting_row d.1 d.2 t)).
    + intros [o x] [o' x'] H1 H2 E. rewrite list_elem_of_In in H1, H2. apply filter_In in H1 as [H1 _], H2 as [H2 _]. cbn [fst snd] in E.
      apply (f_equal fst) in E. apply posting_row_inj in E as [-> _]; [|by eapply doc_u64..]. f_equal.
      apply (zget_in o' x docs) in H1; [|apply Hix]. apply (zget_in o' x' docs) in H2; [|apply Hix]. congruence.
    + apply NoDup_ListNoDup, List.NoDup_filter, NoDup_ListNoDup, nodup_fst_nodup, Hix.
  - intros row. rewrite (term_rows_in tid ff docs m Hix), in_map_iff. split.
    + intros (o & x & Ex & Hps & ->). exists (o, x). split; [done|]. apply filter_In. split; [apply zget_in; [apply Hix|done]|]. by apply has_term_spec.
    + intros ([o x] & <- & Hin). apply filter_In in Hin as [Hin Hh]. exists o, x. cbn [fst snd] in *. split_and!; [|by apply has_term_spec|done].
      apply zget_in; [apply Hix|done].
Qed.

Variables (type_name field_name : bytes).

Lemma decodes_perm wp rows es (ds : list (Z * bytes * bytes)) : decodes type_name field_name wp rows es ->
  Permutation rows (map (fun d => posting_row d.1.1 d.1.2 d.2) ds) ->
  (forall d, In d ds -> is_u64 d.1.1 /\ positions_of d.2 (toks d.1.2) <> []) ->
  Permutation es (map (fun d => (d.1.1, text_posting wp d.1.2 d.2)) ds).
Proof.
  intros Hes Hp Hd. set (ent := fun row => match row_entry type_name field_name wp row with EOk e => e | _ => (0, {| doc_len := 0; tf := 0; p_positions := [] |}) end).
  assert (E : es = map ent rows).
  { clear -Hes. induction Hes as [|row e rows es He _ IH]; [done|]. cbn [map]. rewrite IH. f_equal. unfold ent. by rewrite He. }
  rewrite E, (Permutation_map ent Hp), map_map. apply Permutation_refl'. apply List.map_ext_in. intros d Hin. destruct (Hd d Hin) as [H1 H2].
  unfold ent. by rewrite row_entry_ok.
Qed.

Lemma term_list_perm wp t es :
  decodes type_name field_name wp (rows_under (KeyBuilder.fulltext_term_prefix tid (ff_field_id ff) (ff_generation ff) (encode_term t)) m) es ->
  Permutation es (ref_list wp t).
Proof.
  intros Hes. unfold ref_list. etrans; [apply (decodes_perm wp _ es (map (fun d => (d, t)) (List.filter (fun d => has_term t d.2) docs)) Hes)|].
  - rewrite map_map. apply term_rows_perm.
  - intros d Hd. apply in_map_iff in Hd as (e & <- & He). apply filter_In in He as [He Hh]. cbn [fst snd]. split; [|by apply has_term_spec].
    destruct e. by eapply doc_u64.
  - by rewrite map_map.
Qed.

Lemma ref_list_get wp t o : zget o (ref_list wp t) = x ← zget o docs; if has_term t x then Some (text_posting wp x t) else None.
Proof. apply (zget_filter_map (has_term t) (fun x => text_posting wp x t)), Hix. Qed.

Lemma ref_list_nodup wp t : NoDup (map fst (ref_list wp t)).
Proof. unfold ref_list. rewrite map_map. cbn [fst]. apply nodup_filter_fst, Hix. Qed.

(** ** Prefixes *)

Definition prefix_terms_of (p x : bytes) : list bytes := List.filter (fun t => starts_with t p) (map fst (term_map (toks x))).

(** The postings of the terms that start with [p]. *)
Definition prefix_docs (p : bytes) : list (Z * bytes * bytes) := docs ≫= fun d => (fun t => (d, t)) <$> prefix_terms_of p d.2.

Lemma prefix_terms_in p x t : In t (prefix_terms_of p x) <-> positions_of t (toks x) <> [] /\ p `prefix_of` t.
Proof.
  unfold prefix_terms_of. rewrite filter_In, starts_with_true, in_map_iff. apply and_iff_compat_r. split.
  - intros ([t' ps] & <- & Hin). by apply in_term_map in Hin as [-> ?].
  - intros H. exists (t, positions_of t (toks x)). split; [done|]. apply bm_get_in; [apply term_map_sorted|]. rewrite term_map_get.
    by destruct (positions_of t (toks x)).
Qed.

Lemma prefix_docs_in p o x t : In (o, x, t) (prefix_docs p) <-> zget o docs = Some x /\ positions_of t (toks x) <> [] /\ p `prefix_of` t.
Proof.
  unfold prefix_docs. rewrite <- list_elem_of_In, list_elem_of_bind, zget_in by apply Hix. split.
  - intros (d & Hf & Hd). apply list_elem_of_fmap in Hf as (t' & [= <- ->] & Ht). cbn [snd] in Ht. apply list_elem_of_In in Ht, Hd. by apply prefix_terms_in in Ht.
  - intros (Hd & Ht). exists (o, x). split; [|by apply list_elem_of_In]. apply list_elem_of_fmap. exists t. split; [done|].
    cbn [snd]. by apply list_elem_of_In, prefix_terms_in.
Qed.

Lemma prefix_docs_nodup p : NoDup (prefix_docs p).
Proof.
  unfold prefix_docs. apply NoDup_bind.
  - intros d1 d2 y _ _ H1 H2. apply list_elem_of_fmap in H1 as (t1 & -> & _), H2 as (t2 & [= ->] & _). done.
  - intros d _. apply NoDup_fmap_2; [intros ? ? [= ->]; done|]. apply NoDup_ListNoDup, List.NoDup_filter, NoDup_ListNoDup, term_map_nodup.
  - apply nodup_fst_nodup, Hix.
Qed.

Notation prefix_range p := (KeyBuilder.fulltext_term_prefix tid (ff_field_id ff) (ff_generation ff) (encode_term_prefix p)).

Lemma prefix_rows_perm p : Permutation (rows_under (prefix_range p) m) (map (fun d => posting_row d.1.1 d.1.2 d.2) (prefix_docs p)).
Proof.
  apply nodup_perm; [apply rows_sorted_nodup| |].
  - apply (NoDup_fmap_2_strong (fun d => posting_row d.1.1 d.1.2 d.2)); [|apply prefix_docs_nodup].
    intros [[o x] t] [[o' x'] t'] H1 H2 E. rewrite list_elem_of_In in H1, H2. apply prefix_docs_in in H1 as (H1 & _), H2 as (H2 & _).
    cbn [fst snd] in E. apply (f_equal fst) in E. apply posting_row_inj in E as [-> ->].
    + congruence.
    + by eapply doc_u64, zget_in; [apply Hix|].
    + by eapply doc_u64, zget_in; [apply Hix|].
  - intros row. rewrite (prefix_rows_in tid ff docs m Hix), in_map_iff. split.
    + intros (o & x & t & Ex & Hps & -> & Hp). exists (o, x, t). split; [done|]. by apply prefix_docs_in.
    + intros ([[o x] t] & <- & (Ex & Hps & Hp)%prefix_docs_in). by exists o, x, t.
Qed.

Lemma prefix_list_perm p es : decodes type_name field_name false (rows_under (prefix_range p) m) es ->
  Permutation es (map (fun d => (d.1.1, text_posting false d.1.2 d.2)) (prefix_docs p)).
Proof.
  intros Hes. apply (decodes_perm false _ es _ Hes); [apply prefix_rows_perm|]. intros [[o x] t] (Ex & Hps & _)%prefix_docs_in. cbn [fst snd].
  split; [by eapply doc_u64, zget_in; [apply Hix|]|done].
Qed.

(** *** Grouping by term *)

Definition group_row (limits : FulltextLimits) (st : list PostingList * option bytes) (row : bytes * bytes) : eres (list PostingList * option bytes) :=
  '(st, _) ← visit_prefix type_name field_name limits st row 0; EOk st.

Lemma visit_prefix_visits limits : visits type_name field_name limits (visit_prefix type_name field_name limits) (group_row limits).
Proof.
  intros [per cur] row scanned. unfold group_row, visit_prefix. destruct (KeyBuilder.fulltext_posting_term (fst row)) as [t|]; cbn [mbind eres_bind corrupt]; [|by right].
  match goal with |- context [ if ?b then ?x else ?y ] => destruct (if b then x else y) as [[per' cur']|e| |] eqn:E end; cbn [mbind eres_bind];
    [|by right|repeat (case_match; try done)..].
  destruct (KeyBuilder.fulltext_object_id (fst row)); cbn [mbind eres_bind corrupt]; [|by right].
  destruct (header_posting type_name field_name (snd row)) eqn:Eh; cbn [mbind eres_bind]; [done|by right| |]; unfold header_posting in Eh; by repeat case_match.
Qed.

Lemma posting_key_order o t o' t' : (posting_key tid ff o t <b posting_key tid ff o' t')%bytes -> t = t' \/ (t <b t')%bytes.
Proof.
  unfold posting_key, KeyBuilder.fulltext_posting. intros H%blt_app. destruct (decide (t = t')) as [|Hne]; [by left|right].
  unfold blt in *. by rewrite <- (encode_bytes_order t t' (be64 o) (be64 o') Hne).
Qed.

Lemma push_last_snoc per l e : push_last (per ++ [l]) e = per ++ [l ++ [e]].
Proof.
  unfold push_last. rewrite length_app. cbn [List.length]. replace (List.length per + 1 - 1)%nat with (List.length per + 0)%nat by lia.
  by rewrite alter_app_r.
Qed.

Definition cap_of (limits : FulltextLimits) : Z := if defer_prefix_cap limits then MAX_PREFIX_EXPANSION_SCAN else MAX_PREFIX_EXPANSION.

Lemma posting_row_term o x t : KeyBuilder.fulltext_posting_term (fst (posting_row o x t)) = Some (encode_term t).
Proof. apply (term_prefix_exact tid (ff_field_id ff) (ff_generation ff) o [] t). Qed.

Lemma posting_row_id o x t : is_u64 o -> KeyBuilder.fulltext_object_id (fst (posting_row o x t)) = Some o.
Proof. apply (term_prefix_exact tid (ff_field_id ff) (ff_generation ff) o [] t). Qed.

Lemma group_row_eq limits per cur o x t o' p : is_u64 o -> row_entry type_name field_name false (posting_row o x t) = EOk (o', p) ->
  o' = o /\ group_row limits (per, cur) (posting_row o x t) =
    ('(per, cur) ← if match cur with Some t0 => beqb t0 (encode_term t) | None => false end then EOk (per, cur)
       else if cap_of limits <=? Z.of_nat (List.length per) then EErr FulltextQuery else EOk (per ++ [[]], Some (encode_term t));
     EOk (push_last per (o, p), cur)).
Proof.
  intros Ho He. unfold row_entry in He. unfold group_row, visit_prefix. rewrite posting_row_term. rewrite posting_row_id in * by done.
  cbn [mbind eres_bind] in *. destruct (header_posting type_name field_name _) as [p0|e0| |]; cbn [mbind eres_bind] in He; [|done..]. injection He as <- ->.
  split; [done|]. fold (cap_of limits). repeat case_match; done.
Qed.

(** What grouping the rows gives: their entries, at most as many groups as the
    cap; or more distinct terms than the cap. *)
Lemma group_rows limits rows es : decodes type_name field_name false rows es -> bsorted rows ->
  (forall row, In row rows -> exists o x t, is_u64 o /\ row = posting_row o x t) ->
  forall per ts, List.length ts = List.length per -> Z.of_nat (List.length per) <= cap_of limits -> StronglySorted (fun a b => a <b b)%bytes ts ->
  Forall (fun l => nonempty l = true) per -> (forall t, last ts = Some t -> exists o, forall row, In row rows -> (posting_key tid ff o t <b fst row)%bytes) ->
  match folds (group_row limits) rows (per, encode_term <$> last ts) with
  | EOk (per', _) => List.concat per' = List.concat per ++ es /\ Forall (fun l => nonempty l = true) per' /\ Z.of_nat (List.length per') <= cap_of limits
  | EErr e => e = FulltextQuery /\ exists ts', cap_of limits < Z.of_nat (List.length ts') /\ NoDup ts' /\
      forall t, In t ts' -> In t ts \/ exists o x, In (posting_row o x t) rows
  | EPanic | EFuel => False
  end.
Proof.
  induction 1 as [|row [o' q] rows es He Hes IH]; intros Hs Hrows per ts Hl Hcap Hts Hne Hlast; cbn [folds].
  { by rewrite app_nil_r. }
  apply bsorted_cons_inv in Hs as [Hs Hhd]. rewrite List.Forall_forall in Hhd. destruct (Hrows row) as (o & x & t & Ho & ->); [by left|].
  assert (Hord : forall u, last ts = Some u -> u = t \/ (u <b t)%bytes).
  { intros u Hu. destruct (Hlast u Hu) as (o1 & H1). apply (posting_key_order o1 u o t). apply (H1 (posting_row o x t)). by left. }
  destruct (group_row_eq limits per (encode_term <$> last ts) o x t o' q Ho He) as [-> Eg]. rewrite Eg. clear Eg He.
  assert (Hnext : forall u, u = t -> exists o1, forall row, In row rows -> (posting_key tid ff o1 u <b fst row)%bytes)
    by (intros u ->; exists o; intros r' Hr'; by apply (Hhd r')).
  assert (Hsub : forall row, In row rows -> exists o x t, is_u64 o /\ row = posting_row o x t) by (intros r' Hr'; apply Hrows; by right).
  destruct (match encode_term <$> last ts with Some t0 => beqb t0 (encode_term t) | None => false end) eqn:Ecur.
  - destruct (last ts) as [u|] eqn:Eu; [|done]. cbn in Ecur. destruct (beqb_spec (encode_term u) (encode_term t)) as [E|]; [|done].
    apply encode_term_inj in E as ->. cbn [mbind eres_bind].
    destruct per as [|l per _] using rev_ind; [destruct ts; [done|]; cbn in Hl; lia|]. rewrite push_last_snoc.
    specialize (IH Hs Hsub (per ++ [l ++ [(o, q)]]) ts). rewrite Eu in IH. cbn [fmap option_fmap option_map] in *.
    rewrite !length_app, !concat_app in *. cbn [List.length List.concat] in *. rewrite !app_nil_r, <- !app_assoc in *.
    apply Forall_app in Hne as [Hn1 Hn2]. specialize (IH Hl Hcap Hts ltac:(apply Forall_app; split; [done|]; apply Forall_singleton; by destruct l)
      ltac:(intros ? [= <-]; by apply Hnext)). cbn [app] in IH.
    destruct (folds _ rows _) as [[per' cur']|e| |]; [done| |done..]. destruct IH as (-> & ts' & H1 & H2 & H3). split; [done|].
    exists ts'. split_and!; [done..|]. intros t0 Ht0. destruct (H3 t0 Ht0) as [?|(o0 & x0 & ?)]; [by left|right; exists o0, x0; by right].
  - assert (Hlt : forall u, last ts = Some u -> (u <b t)%bytes).
    { intros u Hu. rewrite Hu in Ecur. cbn in Ecur. destruct (Hord u Hu) as [->|]; [|done]. by destruct (beqb_spec (encode_term t) (encode_term t)). }
    assert (Hts' : StronglySorted (fun a b => a <b b)%bytes (ts ++ [t])).
    { clear -Hts Hlt. induction Hts as [|a ts Hts IH Hf]; [repeat constructor|]. cbn [app]. constructor.
      - apply IH. intros u Hu. apply Hlt. destruct ts; done.
      - apply Forall_app. split; [done|]. apply Forall_singleton. destruct (last ts) as [u|] eqn:El.
        + apply (blt_trans _ u); [|apply Hlt; by destruct ts]. apply last_Some in El as [l ->]. apply Forall_app in Hf as [_ Hf].
          by inversion Hf.
        + apply last_None in El as ->. by apply Hlt. }
    destruct (Z.leb_spec (cap_of limits) (Z.of_nat (List.length per))) as [Hge|Hltc]; cbn [mbind eres_bind].
    + split; [done|]. exists (ts ++ [t]). rewrite length_app. cbn [List.length]. split; [lia|]. split.
      * clear -Hts'. induction Hts' as [|a l Hl IH Hf]; [constructor|]. constructor; [|done]. intros Hin. rewrite List.Forall_forall in Hf.
        apply list_elem_of_In in Hin. by apply (blt_irrefl a), Hf.
      * intros t0 [Ht0|[<-|[]]]%in_app_or; [by left|right]. exists o, x. by left.
    + rewrite push_last_snoc. cbn [app]. specialize (IH Hs Hsub (per ++ [[(o, q)]]) (ts ++ [t])). rewrite last_snoc in IH.
      cbn [fmap option_fmap option_map] in IH. rewrite !length_app, !concat_app in IH. cbn [List.length List.concat app] in IH. rewrite <- app_assoc in IH.
      specialize (IH ltac:(lia) ltac:(lia) Hts' ltac:(apply Forall_app; split; [done|by apply Forall_singleton]) ltac:(intros ? [= <-]; by apply Hnext)).
      cbn [app] in IH. destruct (folds _ rows _) as [[per' cur']|e| |]; [done| |done..]. destruct IH as (-> & ts' & H1 & H2 & H3). split; [done|].
      exists ts'. split_and!; [done..|]. intros t0 Ht0. destruct (H3 t0 Ht0) as [[?|[<-|[]]]%in_app_or|(o0 & x0 & ?)]; [by left|right; exists o, x; by left|].
      right. exists o0, x0. by right.
Qed.

(** The rows of a scan with their terms and entries. *)
Definition rows_terms (rows : list (bytes * bytes)) (tes : list (bytes * (Z * Posting))) : Prop :=
  Forall2 (fun row te => (exists x, is_u64 te.2.1 /\ row = posting_row te.2.1 x te.1) /\ row_entry type_name field_name false row = EOk te.2) rows tes.

(** The entries of a term. *)
Definition select (t : bytes) (tes : list (bytes * (Z * Posting))) : PostingList := map snd (List.filter (fun te => beqb te.1 t) tes).

Lemma select_app t a b : select t (a ++ b) = select t a ++ select t b.
Proof. unfold select. by rewrite List.filter_app, map_app. Qed.

Lemma select_nil t tes : select t tes = [] <-> ~ In t (map fst tes).
Proof.
  unfold select. induction tes as [|[u e] tes IH]; [split; [intros _ []|done]|]. cbn [List.filter map fst]. destruct (beqb_spec u t) as [->|Hne].
  - split; [done|]. intros H. exfalso. apply H. by left.
  - rewrite IH. cbn [In]. split; [intros H [?|?]; done|]. intros H ?. apply H. by right.
Qed.

(** Sorted lists of bytes with the same elements are equal. *)
Definition tsorted : list bytes -> Prop := StronglySorted (fun a b => a <b b)%bytes.

Lemma tsorted_last ts u t : tsorted (ts ++ [u]) -> In t ts -> (t <b u)%bytes.
Proof.
  induction ts as [|a ts IH]; [done|]. cbn [app]. intros H. inversion H as [|? ? Hs Hf]; subst. intros [->|Hin]; [|by apply IH].
  apply Forall_app in Hf as [_ Hf]. by inversion Hf.
Qed.

Lemma tsorted_snoc ts t : tsorted ts -> (forall u, In u ts -> (u <b t)%bytes) -> tsorted (ts ++ [t]).
Proof.
  induction 1 as [|a ts Hs IH Hf]; intros H; [repeat constructor|]. cbn [app]. constructor; [apply IH; intros u Hu; apply H; by right|].
  apply Forall_app. split; [done|]. apply Forall_singleton, H. by left.
Qed.

(** Grouping keeps the entries of each term together, the terms ascending. *)
Lemma group_rows_select limits rows tes : rows_terms rows tes -> bsorted rows ->
  forall seen ts per' cur, tsorted ts -> (forall t, In t ts <-> In t (map fst seen)) ->
  (forall t, last ts = Some t -> exists o, forall row, In row rows -> (posting_key tid ff o t <b fst row)%bytes) ->
  folds (group_row limits) rows (map (fun t => select t seen) ts, encode_term <$> last ts) = EOk (per', cur) ->
  exists ts', per' = map (fun t => select t (seen ++ tes)) ts' /\ tsorted ts' /\ forall t, In t ts' <-> In t (map fst (seen ++ tes)).
Proof.
  induction 1 as [|row [t [o p]] rows tes [(x & Ho & ->) He] Hr IH]; intros Hs seen ts per' cur Hts Hin Hlast; cbn [folds].
  { intros [= <- _]. exists ts. by rewrite app_nil_r. }
  cbn [fst snd] in *. apply bsorted_cons_inv in Hs as [Hs Hhd]. rewrite List.Forall_forall in Hhd.
  destruct (group_row_eq limits (map (fun t => select t seen) ts) (encode_term <$> last ts) o x t o p Ho He) as [_ Eg]. rewrite Eg. clear Eg He.
  assert (Hord : forall u, last ts = Some u -> u = t \/ (u <b t)%bytes).
  { intros u Hu. destruct (Hlast u Hu) as (o1 & H1). apply (posting_key_order o1 u o t). apply (H1 (posting_row o x t)). by left. }
  assert (Hnext : exists o1, forall row, In row rows -> (posting_key tid ff o1 t <b fst row)%bytes) by (exists o; intros r' Hr'; by apply (Hhd r')).
  assert (Hother : forall u, u <> t -> select u (seen ++ [(t, (o, p))]) = select u seen).
  { intros u Hu. rewrite select_app. unfold select at 2. cbn [List.filter fst]. destruct (beqb_spec t u); [done|]. by rewrite app_nil_r. }
  assert (Hself : select t (seen ++ [(t, (o, p))]) = select t seen ++ [(o, p)]).
  { rewrite select_app. unfold select at 2. cbn [List.filter fst]. by destruct (beqb_spec t t). }
  destruct (match encode_term <$> last ts with Some t0 => beqb t0 (encode_term t) | None => false end) eqn:Ecur; cbn [mbind eres_bind].
  - destruct ts as [|u ts _] using rev_ind; [done|]. rewrite last_snoc in *. cbn in Ecur. destruct (beqb_spec (encode_term u) (encode_term t)) as [E|]; [|done].
    apply encode_term_inj in E as ->. intros H. specialize (IH Hs (seen ++ [(t, (o, p))]) (ts ++ [t]) per' cur Hts).
    rewrite <- app_assoc in IH. cbn [app] in IH. apply IH.
    + intros v. specialize (Hin v). rewrite in_app_iff in Hin. rewrite map_app, !in_app_iff. cbn in *. tauto.
    + rewrite last_snoc. intros v [= <-]. done.
    + rewrite last_snoc. rewrite !map_app in *. cbn [map] in *. rewrite push_last_snoc in H. rewrite Hself.
      rewrite (List.map_ext_in _ (fun t => select t seen) ts); [done|]. intros v Hv. apply Hother. intros ->.
      by apply (tsorted_last ts t t), blt_irrefl in Hv.
  - destruct (cap_of limits <=? _); [done|]. cbn [mbind eres_bind]. rewrite push_last_snoc. cbn [app].
    assert (Hlt : forall u, In u ts -> (u <b t)%bytes).
    { destruct ts as [|w ts _] using rev_ind; [done|]. rewrite last_snoc in *. cbn in Ecur.
      assert (Hw : (w <b t)%bytes) by (destruct (Hord w eq_refl) as [->|]; [by destruct (beqb_spec (encode_term t) (encode_term t))|done]).
      intros u [Hu|[<-|[]]]%in_app_or; [|done]. apply (blt_trans _ w); [by eapply tsorted_last|done]. }
    assert (Hnew : ~ In t ts) by (intros Ht; by apply Hlt, blt_irrefl in Ht).
    intros H'. specialize (IH Hs (seen ++ [(t, (o, p))]) (ts ++ [t]) per' cur (tsorted_snoc _ _ Hts Hlt)). rewrite <- app_assoc in IH. cbn [app] in IH. apply IH.
    + intros v. rewrite map_app, !in_app_iff, Hin. done.
    + rewrite last_snoc. intros v [= <-]. done.
    + rewrite last_snoc, map_app. cbn [map]. rewrite Hself. assert (select t seen = []) as -> by (apply select_nil; by rewrite <- Hin). cbn [app].
      rewrite (List.map_ext_in _ (fun t => select t seen) ts); [done|]. intros v Hv. apply Hother. intros ->. done.
Qed.

(** *** The expansion of a prefix, merged *)

(** How many tokens start with [p]. *)
Definition prefix_count (p x : bytes) : nat := List.length (List.filter (fun t => starts_with (t_term t) p) (toks x)).

Definition prefix_posting (x p : bytes) : option Posting :=
  if (prefix_count p x =? 0)%nat then None
  else Some {| doc_len := dlen x; tf := Z.of_nat (prefix_count p x); p_positions := [] |}.

Definition sum_tf (l : PostingList) : Z := fold_right (fun e n => tf e.2 + n) 0 l.

(** The merge of the postings of one document. *)
Definition summary (l : PostingList) : option Posting :=
  match l with [] => None | e :: _ => Some {| doc_len := doc_len e.2; tf := Z.min u32_max (sum_tf l); p_positions := [] |} end.

Definition of_doc (o : Z) (l : PostingList) : PostingList := List.filter (fun e => e.1 =? o) l.

Lemma sum_tf_app a b : sum_tf (a ++ b) = sum_tf a + sum_tf b.
Proof. unfold sum_tf. induction a as [|e a IH]; [done|]. cbn [app fold_right]. rewrite IH. lia. Qed.

Lemma sum_tf_perm a b : Permutation a b -> sum_tf a = sum_tf b.
Proof. unfold sum_tf. induction 1; cbn [fold_right]; lia. Qed.

Definition entries_ok (l : PostingList) : Prop :=
  (forall a b, In a l -> In b l -> a.1 = b.1 -> doc_len a.2 = doc_len b.2) /\ forall a, In a l -> 0 <= tf a.2 <= u32_max.

Lemma of_doc_app o a b : of_doc o (a ++ b) = of_doc o a ++ of_doc o b.
Proof. apply List.filter_app. Qed.

Lemma of_doc_perm o a b : Permutation a b -> Permutation (of_doc o a) (of_doc o b).
Proof.
  unfold of_doc. induction 1 as [|e a b _ IH|e1 e2 a|a b c _ IH1 _ IH2]; cbn [List.filter]; [done| | |by etrans].
  - destruct (e.1 =? o); [by apply perm_skip|done].
  - destruct (e1.1 =? o), (e2.1 =? o); try done. apply perm_swap.
Qed.

Lemma sum_tf_nonneg l : (forall a, In a l -> 0 <= tf a.2 <= u32_max) -> 0 <= sum_tf l.
Proof.
  unfold sum_tf. induction l as [|e l IH]; intros H; [done|]. cbn [fold_right]. specialize (IH ltac:(intros a Ha; apply H; by right)).
  specialize (H e (or_introl eq_refl)). lia.
Qed.

Lemma merge_postings fc es : forall seen (mg : gmap Z Posting), entries_ok (seen ++ es) -> (forall o, mg !! o = summary (of_doc o seen)) ->
  exists mg', folds (fun mg e => merge_posting fc mg e.1 e.2) es mg = EOk mg' /\ forall o, mg' !! o = summary (of_doc o (seen ++ es)).
Proof.
  induction es as [|[i p] es IH]; intros seen mg Hok Hmg; cbn [folds]; [exists mg; by rewrite app_nil_r|].
  assert (Hstep : exists mg1, merge_posting fc mg i p = EOk mg1 /\ forall o, mg1 !! o = summary (of_doc o (seen ++ [(i, p)]))).
  { assert (Hother : forall q o, o <> i -> <[ i := q ]> mg !! o = summary (of_doc o (seen ++ [(i, p)]))).
    { intros q o Ho. rewrite lookup_insert_ne, Hmg, of_doc_app by done. unfold of_doc at 3. cbn [List.filter fst]. rewrite (proj2 (Z.eqb_neq i o)) by done. by rewrite app_nil_r. }
    assert (Hself : of_doc i (seen ++ [(i, p)]) = of_doc i seen ++ [(i, p)]).
    { rewrite of_doc_app. unfold of_doc at 2. cbn [List.filter fst]. by rewrite Z.eqb_refl. }
    destruct Hok as [Hlen Htf]. assert (Hp : 0 <= tf p <= u32_max) by (apply (Htf (i, p)), in_or_app; right; by left).
    unfold merge_posting. rewrite Hmg. destruct (of_doc i seen) as [|[j q] l] eqn:El; cbn [summary].
    - eexists. split; [done|]. intros o. destruct (decide (o = i)) as [->|Hne]; [|by apply Hother]. rewrite lookup_insert_eq, Hself. cbn [app summary sum_tf fold_right snd].
      do 2 f_equal. lia.
    - assert (Hin : In (j, q) (of_doc i seen)) by (rewrite El; by left). apply filter_In in Hin as [Hin Hj%Z.eqb_eq]. cbn [fst] in Hj. subst j.
      assert (Hq : doc_len q = doc_len p) by (apply (Hlen (i, q) (i, p)); [apply in_or_app; by left|apply in_or_app; right; by left|done]).
      cbn [doc_len tf p_positions snd]. rewrite Hq, Z.eqb_refl. cbn [negb].
      eexists. split; [done|]. intros o. destruct (decide (o = i)) as [->|Hne]; [|by apply Hother]. rewrite lookup_insert_eq, Hself. cbn [app summary snd].
      rewrite Hq. do 2 f_equal. rewrite (sum_tf_app ((i, q) :: l) [(i, p)] : sum_tf ((i, q) :: l ++ [(i, p)]) = _).
      assert (0 <= sum_tf ((i, q) :: l)).
      { apply sum_tf_nonneg. intros a Ha. apply Htf, in_or_app. left. rewrite <- El in Ha. by apply filter_In in Ha as [Ha _]. }
      cbn [sum_tf fold_right snd] in *. lia. }
  destruct Hstep as (mg1 & E1 & H1). cbn [fst snd]. rewrite E1. cbn [mbind eres_bind]. destruct (IH (seen ++ [(i, p)]) mg1) as (mg' & E2 & H2); [by rewrite <- app_assoc|done|].
  exists mg'. split; [done|]. intros o. by rewrite H2, <- app_assoc.
Qed.

Lemma merge_list_counted fc l : forall terms mg,
  merge_list fc None true terms mg l = (mg ← folds (fun mg e => merge_posting fc mg e.1 e.2) l mg; EOk (terms, mg)).
Proof.
  induction l as [|[i p] l IH]; intros terms mg; [done|]. cbn [merge_list seen_by negb andb folds fst snd].
  destruct (merge_posting fc mg i p); cbn [mbind eres_bind]; [apply IH|done..].
Qed.

Lemma merge_lists_folds fc ls : forall terms mg, Forall (fun l => nonempty l = true) ls -> terms + Z.of_nat (List.length ls) <= MAX_PREFIX_EXPANSION ->
  merge_lists fc None terms mg ls = folds (fun mg e => merge_posting fc mg e.1 e.2) (List.concat ls) mg.
Proof.
  induction ls as [|l ls IH]; intros terms mg Hf Hl; [done|]. apply Forall_cons in Hf as [Hne Hf]. destruct l as [|[i p] l]; [done|]. cbn [List.length] in Hl.
  cbn [merge_lists merge_list seen_by negb andb List.concat app folds fst snd]. rewrite (proj2 (Z.ltb_ge _ _)) by lia.
  destruct (merge_posting fc mg i p) as [mg1| | |]; cbn [mbind eres_bind]; [|done..]. rewrite merge_list_counted, folds_app.
  destruct (folds _ l mg1) as [mg2| | |]; cbn [mbind eres_bind]; [|done..]. apply IH; [done|lia].
Qed.

(** The postings of a document in an expansion. *)
Lemma prefix_docs_from p o l : NoDup (map fst l) ->
  of_doc o (map (fun d => (d.1.1, text_posting false d.1.2 d.2)) (l ≫= fun d => (fun t => (d, t)) <$> prefix_terms_of p d.2)) =
  match zget o l with Some x => map (fun t => (o, text_posting false x t)) (prefix_terms_of p x) | None => [] end.
Proof.
  induction l as [|[i x] l IH]; intros Hn; [done|]. cbn [map fst] in Hn. apply NoDup_cons in Hn as [Hi Hn]. specialize (IH Hn).
  change (((i, x) :: l) ≫= fun d : Z * bytes => (fun t => (d, t)) <$> prefix_terms_of p d.2) with
    (((fun t => ((i, x), t)) <$> prefix_terms_of p x) ++ (l ≫= fun d : Z * bytes => (fun t => (d, t)) <$> prefix_terms_of p d.2)).
  rewrite map_app, of_doc_app. cbn [zget].
  assert (E : of_doc o (map (fun d : Z * bytes * bytes => (d.1.1, text_posting false d.1.2 d.2)) ((fun t => ((i, x), t)) <$> prefix_terms_of p x)) =
    if i =? o then map (fun t => (i, text_posting false x t)) (prefix_terms_of p x) else []).
  { unfold of_doc. clear. induction (prefix_terms_of p x) as [|t ts IHt]; [by destruct (i =? o)|]. cbn [fmap list_fmap map List.filter fst snd] in *.
    rewrite IHt. by destruct (i =? o). }
  rewrite E, IH. destruct (Z.eqb_spec i o) as [->|Hne].
  - rewrite Z.eqb_refl. destruct (zget o l) as [y|] eqn:Ey; [|by rewrite app_nil_r].
    apply zget_in in Ey; [|done]. exfalso. apply Hi, list_elem_of_In. by apply (in_map fst) in Ey.
  - by rewrite (proj2 (Z.eqb_neq o i)) by done.
Qed.

Lemma prefix_docs_of p o : of_doc o (map (fun d => (d.1.1, text_posting false d.1.2 d.2)) (prefix_docs p)) =
  match zget o docs with Some x => map (fun t => (o, text_posting false x t)) (prefix_terms_of p x) | None => [] end.
Proof. apply prefix_docs_from, Hix. Qed.

Lemma term_map_filter p ts : List.filter (fun e => starts_with (fst e) p) (term_map ts) = term_map (List.filter (fun t => starts_with (t_term t) p) ts).
Proof.
  apply bm_ext; [apply bsorted_filter, term_map_sorted|apply term_map_sorted|]. intros k. rewrite (bm_get_filter (fun k => starts_with k p)), !term_map_get.
  assert (E : positions_of k (List.filter (fun t => starts_with (t_term t) p) ts) = if starts_with k p then positions_of k ts else []).
  { unfold positions_of. induction ts as [|t ts IH]; [by case_match|]. cbn [List.filter]. destruct (beqb_spec k (t_term t)) as [->|Hne].
    - destruct (starts_with (t_term t) p) eqn:Es; [|done]. cbn [List.filter]. destruct (beqb_spec (t_term t) (t_term t)); [|done]. cbn [map]. by rewrite IH.
    - destruct (starts_with (t_term t) p); [cbn [List.filter]; destruct (beqb_spec k (t_term t)); [done|]|]; apply IH. }
  rewrite E. by destruct (starts_with k p).
Qed.

Lemma sum_tf_terms p x o : sum_tf (map (fun t => (o, text_posting false x t)) (prefix_terms_of p x)) = Z.of_nat (prefix_count p x).
Proof.
  unfold prefix_count. rewrite <- total_positions_term_map, <- term_map_filter. unfold prefix_terms_of.
  assert (H : forall l, (forall t ps, In (t, ps) l -> ps = positions_of t (toks x)) ->
    sum_tf (map (fun t => (o, text_posting false x t)) (List.filter (fun t => starts_with t p) (map fst l))) =
    Z.of_nat (total_positions (List.filter (fun e => starts_with (fst e) p) l))).
  { induction l as [|[t ps] l IH]; intros Hl; [done|]. cbn [map fst List.filter]. specialize (IH ltac:(intros t' ps' H'; apply Hl; by right)).
    destruct (starts_with t p); [|done]. cbn [map sum_tf fold_right snd total_positions]. fold (sum_tf (map (fun t => (o, text_posting false x t)) (List.filter (fun t => starts_with t p) (map fst l)))).
    rewrite IH, (Hl t ps) by by left. cbn [tf FulltextScan.text_posting]. lia. }
  apply H. intros t ps Hin. by apply in_term_map in Hin as [-> _].
Qed.

Lemma summary_terms p x o : summary (map (fun t => (o, text_posting false x t)) (prefix_terms_of p x)) = prefix_posting x p.
Proof.
  pose proof (sum_tf_terms p x o) as Hs. unfold prefix_posting.
  assert (Hb : Z.of_nat (prefix_count p x) <= dlen x) by (unfold prefix_count, FulltextScan.dlen; pose proof (List.filter_length_le (fun t => starts_with (t_term t) p) (toks x)); lia).
  pose proof (dlen_bound ff x) as Hd. destruct (prefix_terms_of p x) as [|t ts] eqn:Et.
  - cbn in Hs. by rewrite (proj2 (Nat.eqb_eq _ _)) by lia.
  - cbn [map summary snd doc_len FulltextScan.text_posting] in *.
    assert (Hpos : 0 < Z.of_nat (prefix_count p x)).
    { rewrite <- Hs. cbn [map sum_tf fold_right snd tf FulltextScan.text_posting].
      assert (Ht : In t (prefix_terms_of p x)) by (rewrite Et; by left). apply prefix_terms_in in Ht as [Ht _].
      assert (0 <= sum_tf (map (fun t => (o, text_posting false x t)) ts)).
      { apply sum_tf_nonneg. intros a Ha. apply in_map_iff in Ha as (t' & <- & _). cbn [snd tf FulltextScan.text_posting]. pose proof (positions_bound ff t' x).
        unfold u32_max, MAX_ANALYZED_WORDS in *. lia. }
      unfold sum_tf in *. destruct (positions_of t (toks x)); [done|]. cbn [List.length]. lia. }
    rewrite (proj2 (Nat.eqb_neq _ _)) by lia. do 2 f_equal. rewrite Hs. unfold u32_max, MAX_ANALYZED_WORDS in *. lia.
Qed.

(** A prefix whose expansion was collected, merged: per document, the tokens
    that start with it. *)
Lemma merged_prefix fc p per : Permutation (List.concat per) (map (fun d => (d.1.1, text_posting false d.1.2 d.2)) (prefix_docs p)) ->
  Forall (fun l => nonempty l = true) per -> Z.of_nat (List.length per) <= MAX_PREFIX_EXPANSION ->
  exists mg, merge_lists fc None 0 ∅ per = EOk mg /\ forall o, mg !! o = x ← zget o docs; prefix_posting x p.
Proof.
  intros Hp Hne Hl. rewrite merge_lists_folds by done. destruct (merge_postings fc (List.concat per) [] ∅) as (mg & E & Hmg).
  - assert (Hin : forall a, In a (List.concat per) -> exists x t, zget a.1 docs = Some x /\ a.2 = text_posting false x t).
    { intros a Ha. apply (Permutation_in _ Hp) in Ha. apply in_map_iff in Ha as ([[o x] t] & <- & (Ex & _)%prefix_docs_in). by exists x, t. }
    cbn [app]. split.
    + intros a b Ha Hb Hab. destruct (Hin a Ha) as (x & t & Ex & ->), (Hin b Hb) as (x' & t' & Ex' & ->). rewrite Hab, Ex' in Ex. by injection Ex as ->.
    + intros a Ha. destruct (Hin a Ha) as (x & t & Ex & ->). cbn [tf FulltextScan.text_posting]. pose proof (positions_bound ff t x). pose proof (dlen_bound ff x).
      unfold u32_max, MAX_ANALYZED_WORDS in *. lia.
  - intros o. by rewrite lookup_empty.
  - exists mg. split; [done|]. intros o. rewrite Hmg. cbn [app]. pose proof (of_doc_perm o _ _ Hp) as Ho.
    rewrite prefix_docs_of in Ho. destruct (zget o docs) as [x|] eqn:Ex; [|by apply Permutation_sym, Permutation_nil in Ho as ->].
    cbn [mbind option_bind]. rewrite <- (summary_terms p x o). unfold summary.
    assert (Hlen : forall e l, e :: l = map (fun t => (o, text_posting false x t)) (prefix_terms_of p x) \/ e :: l = of_doc o (List.concat per) -> doc_len e.2 = dlen x).
    { intros e l He. assert (Hein : In e (map (fun t => (o, text_posting false x t)) (prefix_terms_of p x))).
      { destruct He as [<-|He]; [by left|]. apply (Permutation_in _ Ho). rewrite <- He. by left. }
      by apply in_map_iff in Hein as (t & <- & _). }
    rewrite <- (sum_tf_perm _ _ Ho). destruct (of_doc o (List.concat per)) as [|e l] eqn:E1.
    + by apply Permutation_nil in Ho as ->.
    + destruct (map _ (prefix_terms_of p x)) as [|e' l'] eqn:E2; [by apply Permutation_sym, Permutation_nil in Ho|].
      by rewrite (Hlen e l), (Hlen e' l') by auto.
Qed.

End lists.
