(* ===== verification/FulltextAnswer.v ===== *)
(** * The answer of a full-text search

    The composition of parsing, collecting and ranking: on an index that holds
    the documents of a field, [fulltext_search] answers with the reference
    ranking of the documents whose text satisfies the query. *)

From Stdlib Require Import ZArith Lia Bool List Strings.Byte Strings.String SpecFloat Sorting.Sorted Sorting.Permutation.
From stdpp Require Import base tactics option list sorting gmap.
From S2P Require Import Prelude ByteMap Keys Versioned MemTable Layers Lsm Values Utf8 Ieee Schema IndexKeys Posting Store Fulltext Engine FilterScan.
From S2P Require Import FilterSpec FilterProps ScanChunks FulltextQuery FulltextSearch FulltextSearchProps FulltextScan FulltextExact.

Local Open Scope Z_scope.

(** ** Keys of a query *)

(** The analyzers never emit a term that ends in a star. *)
Definition starless (t : bytes) : Prop := last t <> Some x2a.

Lemma strip_star_spec k p : strip_star k = Some p <-> k = p ++ [x2a].
Proof.
  split; [|intros ->; apply strip_star_app]. unfold strip_star. destruct (last k) as [b|] eqn:E; [|done]. apply last_Some in E as [l ->].
  rewrite length_app. cbn [List.length]. rewrite Nat.add_sub, take_app_length. destruct b; try done. by intros [= ->].
Qed.

Lemma strip_star_none k : starless k -> strip_star k = None.
Proof. unfold strip_star, starless. destruct (last k) as [b|]; [|done]. intros H. destruct b; try done. Qed.

Section keys.
Variable q : ParsedQuery.
Hypothesis Hq : query_ok starless q.

Lemma clause_in c : In c (pq_clauses q) -> clause_ok starless c.
Proof. intros Hc. pose proof (qo_clauses _ _ Hq) as H. rewrite List.Forall_forall in H. by apply H. Qed.

(** A key is looked up as a prefix exactly when it ends in a star. *)
Lemma prefix_keys_get key : In key (List.concat (map c_terms (pq_clauses q))) -> bm_get key (prefix_keys q) = strip_star key.
Proof.
  unfold prefix_keys. set (f := fun m c => _).
  assert (Hf : forall cs, (forall c, In c cs -> In c (pq_clauses q)) -> forall m : bmap bytes, bsorted m ->
    (forall k p, bm_get k m = Some p -> strip_star k = Some p) ->
    let m' := fold_left f cs m in bsorted m' /\ (forall k p, bm_get k m' = Some p -> strip_star k = Some p) /\
      forall k p, (bm_get k m = Some p \/ exists c, In c cs /\ c_prefix c = true /\ In k (c_terms c) /\ strip_star k = Some p) -> bm_get k m' = Some p).
  { induction cs as [|c cs IH]; intros Hcs m Hs Hm; cbn [fold_left]; [split_and!; try done; intros k p [?|(? & [] & _)]; done|].
    assert (Hc : clause_ok starless c) by (apply clause_in, Hcs; by left).
    assert (Hstep : bsorted (f m c) /\ (forall k p, bm_get k (f m c) = Some p -> strip_star k = Some p) /\
      forall k p, (bm_get k m = Some p \/ (c_prefix c = true /\ In k (c_terms c) /\ strip_star k = Some p)) -> bm_get k (f m c) = Some p).
    { unfold f. unfold clause_ok in Hc. destruct (c_prefix c) eqn:Ep.
      - destruct Hc as (p0 & Ht & Hp & _). rewrite Hp, Ht. cbn [head default from_option Datatypes.id]. split; [by apply bsorted_insert|].
        split; intros k p; rewrite bm_get_insert by done; case_decide as Hk; subst.
        + intros [= <-]. by apply strip_star_spec.
        + apply Hm.
        + intros [H|(_ & _ & H)]; [apply Hm in H|]; apply strip_star_spec in H; apply app_inj_2 in H as [-> _]; done.
        + intros [H|(_ & [H|[]] & _)]; [done|]. by subst k.
      - unfold prefix_text. rewrite Ep. split_and!; [done..|]. intros k p [?|(? & _)]; done. }
    destruct Hstep as (H1 & H2 & H3). destruct (IH ltac:(intros d Hd; apply Hcs; by right) (f m c) H1 H2) as (I1 & I2 & I3).
    split_and!; [done..|]. intros k p Hk. apply I3. destruct Hk as [Hk|(d & [<-|Hd] & Hk)]; [left; apply H3; by left|left; apply H3; by right|right; eauto]. }
  intros Hin. destruct (Hf (pq_clauses q) ltac:(done) [] bsorted_nil ltac:(done)) as (_ & H2 & H3).
  apply in_concat in Hin as (ts & (c & <- & Hc)%in_map_iff & Hin). pose proof (clause_in c Hc) as Hok. unfold clause_ok in Hok.
  destruct (c_prefix c) eqn:Ep.
  - destruct Hok as (p & Ht & _). rewrite Ht in Hin. destruct Hin as [<-|[]]. rewrite strip_star_app. apply H3. right. exists c.
    rewrite Ht, strip_star_app. split_and!; [done..|by left|done].
  - destruct Hok as (_ & Hts & _). rewrite List.Forall_forall in Hts. destruct (Hts key Hin) as [_ Hless]. rewrite strip_star_none by done.
    destruct (bm_get key _) as [p|] eqn:E; [|done]. apply H2 in E. by rewrite strip_star_none in E.
Qed.
End keys.

Lemma first_seen_in l : forall seen t, In t (first_seen seen l) -> In t l.
Proof.
  induction l as [|u l IH]; intros seen t; cbn [first_seen]; [done|]. case_match; [intros H'; right; by eapply IH|].
  intros [<-|H']; [by left|right; by eapply IH].
Qed.

Lemma first_seen_all l : forall seen t, In t l -> In t seen \/ In t (first_seen seen l).
Proof.
  induction l as [|u l IH]; intros seen t; [done|]. cbn [first_seen]. intros [->|Hin].
  - destruct (existsb (beqb t) seen) eqn:E; [|right; by left]. apply existsb_exists in E as (v & Hv & E). destruct (beqb_spec t v); [subst; by left|done].
  - destruct (existsb (beqb u) seen); [by apply IH|]. destruct (IH (u :: seen) t Hin) as [[->|?]|?]; [right; by left|by left|right; by right].
Qed.

Lemma distinct_terms_in q t : In t (distinct_terms q) <-> In t (List.concat (map c_terms (pq_clauses q))).
Proof. unfold distinct_terms. split; [apply first_seen_in|]. intros H. by destruct (first_seen_all _ [] t H). Qed.

(** ** Documents *)

Section documents.
Context {T : TextLib} {M : MathLib}.
Variables (ff : FulltextField) (docs : list (Z * bytes)) (q : ParsedQuery).

(** The posting of a key of the query in a text; positions only for the words
    of its phrases. *)
Definition key_posting (key x : bytes) : option Posting :=
  match strip_star key with
  | Some p => prefix_posting ff x p
  | None => if has_term ff key x then Some (text_posting ff (existsb (beqb key) (phrase_terms q)) x key) else None
  end.

Definition doc_posting (o : Z) (key : bytes) : option Posting := x ← zget o docs; key_posting key x.

(** How many documents have the key. *)
Definition doc_df (key : bytes) : Z :=
  Z.of_nat (List.length (List.filter (fun d => match key_posting key d.2 with Some _ => true | None => false end) docs)).

Lemma df_count (l : PostingList) key : NoDup (map fst l) -> NoDup (map fst docs) -> (forall o, zget o l = doc_posting o key) ->
  Z.of_nat (List.length l) = doc_df key.
Proof.
  intros Hl Hd Hg. unfold doc_df. f_equal. set (ds := List.filter _ docs). rewrite <- (length_map fst l), <- (length_map fst ds).
  apply Permutation_length, nodup_perm; [done|by apply nodup_filter_fst|]. intros o. rewrite !in_map_iff. split.
  - intros ([i p] & <- & Hin). apply zget_in in Hin; [|done]. rewrite Hg in Hin. unfold doc_posting in Hin. destruct (zget i docs) as [x|] eqn:Ex; [|done].
    exists (i, x). split; [done|]. apply filter_In. split; [by apply zget_in|]. cbn [mbind option_bind snd] in *. by rewrite Hin.
  - intros ([i x] & <- & Hin). apply filter_In in Hin as [Hin Hk]. cbn [snd] in Hk. apply zget_in in Hin; [|done].
    destruct (key_posting key x) as [p|] eqn:Ek; [|done]. exists (i, p). split; [done|]. apply zget_in; [done|]. rewrite Hg. unfold doc_posting. by rewrite Hin.
Qed.

End documents.

(** ** Collecting *)

Section collect.
Context {T : TextLib} {M : MathLib}.
Variables (r : Reader) (clock : nat -> Z) (raw : bmap MemValue) (type_name field_name : bytes) (limits : FulltextLimits).
Variables (tid : Z) (ff : FulltextField) (docs : list (Z * bytes)) (q : ParsedQuery).
Hypothesis Hc : chunks_ok r raw.
Hypothesis Hix : index_holds tid ff docs (rd_map r).
Hypothesis Hq : query_ok starless q.

(** The groups of a prefix: the postings of its terms, none empty. *)
Record expansion_ok (p : bytes) (per : list PostingList) : Prop := {
  ex_entries : Permutation (List.concat per) (map (fun d => (d.1.1, text_posting ff false d.1.2 d.2)) (prefix_docs ff docs p));
  ex_nonempty : Forall (fun l => nonempty l = true) per;
  ex_cap : Z.of_nat (List.length per) <= cap_of limits;
}.

(** More distinct terms of documents start with [p] than the cap. *)
Definition too_many (p : bytes) : Prop := exists ts, cap_of limits < Z.of_nat (List.length ts) /\ NoDup ts /\
  forall t, In t ts -> p `prefix_of` t /\ exists o x, zget o docs = Some x /\ has_term ff t x = true.

(** The rows a term and a prefix are read from. *)
Definition term_rows (k : bytes) : list (bytes * bytes) :=
  rows_under (KeyBuilder.fulltext_term_prefix tid (ff_field_id ff) (ff_generation ff) (encode_term k)) (rd_map r).
Definition prefix_rows (p : bytes) : list (bytes * bytes) :=
  rows_under (KeyBuilder.fulltext_term_prefix tid (ff_field_id ff) (ff_generation ff) (encode_term_prefix p)) (rd_map r).

(** The lists of an expansion: the entries of each term, the terms ascending. *)
Definition groups_of (p : bytes) (per : list PostingList) : Prop :=
  exists tes ts, rows_terms tid ff type_name field_name (prefix_rows p) tes /\ tsorted ts /\ (forall t, In t ts <-> In t (map fst tes)) /\
    per = map (fun t => select t tes) ts.

Record collected_ok (co : Collected) (keys : list bytes) : Prop := {
  cl_sorted : bsorted (co_postings co);
  cl_psorted : bsorted (co_prefix_terms co);
  cl_lists : forall k l, bm_get k (co_postings co) = Some l -> strip_star k = None /\ NoDup (map fst l) /\ forall o, zget o l = doc_posting ff docs q o k;
  cl_prefixes : forall k per, bm_get k (co_prefix_terms co) = Some per -> exists p, strip_star k = Some p /\ expansion_ok p per;
  cl_decoded : forall k l, bm_get k (co_postings co) = Some l -> decodes type_name field_name (existsb (beqb k) (phrase_terms q)) (term_rows k) l;
  cl_groups : forall k per, bm_get k (co_prefix_terms co) = Some per -> exists p, strip_star k = Some p /\ groups_of p per;
  cl_keys : forall k, In k keys -> match strip_star k with Some _ => is_Some (bm_get k (co_prefix_terms co)) | None => is_Some (bm_get k (co_postings co)) end;
  cl_only : forall k, is_Some (bm_get k (co_postings co)) \/ is_Some (bm_get k (co_prefix_terms co)) -> In k keys;
}.

Lemma collect_term fuel key n scanned : (List.length raw < fuel)%nat ->
  let wp := existsb (beqb key) (phrase_terms q) in
  let p := KeyBuilder.fulltext_term_prefix tid (ff_field_id ff) (ff_generation ff) (encode_term key) in
  strip_star key = None ->
  match scan_fulltext_postings r clock type_name field_name limits fuel (visit_term type_name field_name limits wp) p p n scanned [] with
  | EOk (l, _, _) => (NoDup (map fst l) /\ forall o, zget o l = doc_posting ff docs q o key) /\ decodes type_name field_name wp (term_rows key) l
  | EErr e => limit_error type_name field_name limits e
  | EPanic | EFuel => False
  end.
Proof.
  intros Hf wp p Hs. pose proof (scan_prefix_outcome r clock raw type_name field_name limits Hc _ _ p fuel n scanned []
    (visit_term_visits type_name field_name limits wp) Hf) as H.
  destruct (rows_decode tid ff docs _ Hix type_name field_name wp (rows_under p (rd_map r))) as (es & Hes).
  { intros row Hrow. apply (term_rows_in tid ff docs _ Hix) in Hrow as (o & x & H1 & H2 & H3). by exists o, x, key. }
  pose proof (gather_decodes type_name field_name wp _ es Hes []) as E. cbn [app] in E.
  destruct (scan_fulltext_postings _ _ _ _ _ _ _ _ _ _ _ _) as [[[l s] n']|e| |]; [|destruct H as [H|H]; [done|]; by rewrite E in H|done..].
  rewrite E in H. injection H as <-.
  pose proof (term_list_perm tid ff docs _ Hix type_name field_name wp key es Hes) as Hp.
  assert (Hn : NoDup (map fst es)) by (rewrite (Permutation_map fst Hp); apply (ref_list_nodup tid ff docs _ Hix)).
  split; [|done]. split; [done|]. intros o. rewrite (zget_perm _ _ o Hn Hp), (ref_list_get tid ff docs _ Hix). unfold doc_posting, key_posting. by rewrite Hs.
Qed.

Lemma rows_with_terms rows es : decodes type_name field_name false rows es ->
  (forall row, In row rows -> exists o x t, is_u64 o /\ row = posting_row tid ff o x t) -> exists tes, rows_terms tid ff type_name field_name rows tes /\ map snd tes = es.
Proof.
  induction 1 as [|row [o' p] rows es He Hes IH]; intros H; [exists []; split; [constructor|done]|].
  destruct (H row) as (o & x & t & Ho & ->); [by left|]. destruct IH as (tes & Ht & Es); [intros r' Hr'; apply H; by right|].
  exists ((t, (o', p)) :: tes). split; [|cbn [map snd]; by rewrite Es]. constructor; [|done]. cbn [fst snd]. split; [|done]. exists x.
  destruct (group_row_eq tid ff type_name field_name limits [] None o x t o' p Ho He) as [-> _]. done.
Qed.

Lemma collect_prefix fuel p n scanned : (List.length raw < fuel)%nat ->
  let range := KeyBuilder.fulltext_term_prefix tid (ff_field_id ff) (ff_generation ff) (encode_term_prefix p) in
  match scan_fulltext_postings r clock type_name field_name limits fuel (visit_prefix type_name field_name limits) range range n scanned ([], None) with
  | EOk (per, _, _, _) => expansion_ok p per /\ groups_of p per
  | EErr e => limit_error type_name field_name limits e \/ e = FulltextQuery /\ too_many p
  | EPanic | EFuel => False
  end.
Proof.
  intros Hf range. pose proof (scan_prefix_outcome r clock raw type_name field_name limits Hc _ _ range fuel n scanned ([], None)
    (visit_prefix_visits type_name field_name limits) Hf) as H.
  assert (Hrows : forall row, In row (rows_under range (rd_map r)) -> exists o x t, zget o docs = Some x /\ positions_of t (toks ff x) <> [] /\
    row = posting_row tid ff o x t /\ p `prefix_of` t) by (intros row; apply (prefix_rows_in tid ff docs _ Hix)).
  destruct (rows_decode tid ff docs _ Hix type_name field_name false (rows_under range (rd_map r))) as (es & Hes).
  { intros row Hrow. destruct (Hrows row Hrow) as (o & x & t & H1 & H2 & H3 & _). by exists o, x, t. }
  pose proof (group_rows tid ff type_name field_name limits _ es Hes (bsorted_filter _ _ (ih_sorted _ _ _ _ Hix))) as Hg.
  assert (Hcap : Z.of_nat (@List.length PostingList []) <= cap_of limits).
  { unfold cap_of, MAX_PREFIX_EXPANSION_SCAN, MAX_PREFIX_EXPANSION. destruct (defer_prefix_cap limits); cbn; lia. }
  assert (Hform : forall row, In row (rows_under range (rd_map r)) -> exists o x t, is_u64 o /\ row = posting_row tid ff o x t).
  { intros row Hrow. destruct (Hrows row Hrow) as (o & x & t & H1 & _ & -> & _). exists o, x, t. split; [|done].
    eapply (doc_u64 tid ff docs _ Hix), zget_in; [apply Hix|exact H1]. }
  specialize (Hg Hform [] [] eq_refl Hcap (SSorted_nil _) (Forall_nil_2 _) ltac:(done)). cbn [last fmap option_fmap option_map List.concat app] in Hg.
  destruct (scan_fulltext_postings _ _ _ _ _ _ _ _ _ _ _ _) as [[[[per cur] s] n']|e| |]; [| |done..].
  - rewrite H in Hg. destruct Hg as (H1 & H2 & H3). split.
    + split; [|done|done]. rewrite H1. apply (prefix_list_perm tid ff docs _ Hix type_name field_name p es Hes).
    + destruct (rows_with_terms _ _ Hes Hform) as (tes & Htes & _).
      destruct (group_rows_select tid ff type_name field_name limits _ tes Htes (bsorted_filter _ _ (ih_sorted _ _ _ _ Hix)) [] [] per cur) as (ts & E1 & E2 & E3);
        [constructor|done|done|exact H|]. exists tes, ts. done.
  - destruct H as [H|H]; [by left|right]. rewrite H in Hg. destruct Hg as (-> & ts & H1 & H2 & H3). split; [done|]. exists ts. split_and!; [done..|].
    intros t Ht. destruct (H3 t Ht) as [[]|(o & x & Hin)]. destruct (Hrows _ Hin) as (o' & x' & t' & Ex & Hps & E & Hp).
    apply (f_equal fst) in E. assert (Et : encode_term t = encode_term t').
    { apply (f_equal KeyBuilder.fulltext_posting_term) in E. rewrite !posting_row_term in E. by injection E. }
    apply encode_term_inj in Et as ->. split; [done|]. exists o', x'. split; [done|]. by apply has_term_spec.
Qed.

Lemma collect_key_ok fuel co keys key : (List.length raw < fuel)%nat -> In key (List.concat (map c_terms (pq_clauses q))) -> collected_ok co keys ->
  match collect_key r clock type_name field_name limits fuel tid ff q co key with
  | EOk co' => collected_ok co' (key :: keys)
  | EErr e => limit_error type_name field_name limits e \/ e = FulltextQuery /\ exists p, strip_star key = Some p /\ too_many p
  | EPanic | EFuel => False
  end.
Proof.
  intros Hf Hin [H1 H2 H3 H4 Hd Hgr H5 Ho]. unfold collect_key. rewrite (prefix_keys_get q Hq key Hin). destruct (strip_star key) as [p|] eqn:Ek.
  - pose proof (collect_prefix fuel p (co_reads co) (co_scanned co) Hf) as Hp. cbv zeta in Hp.
    destruct (scan_fulltext_postings _ _ _ _ _ _ _ _ _ _ _ _) as [[[[per cur] s] n']|e| |]; cbn [mbind eres_bind]; [|destruct Hp as [?|[-> ?]]; [by left|right; eauto]|done..].
    destruct Hp as [Hp Hp']. split; cbn [co_postings co_prefix_terms]; [done|by apply bsorted_insert|done| |done| | |].
    + intros k per'. rewrite bm_get_insert by done. case_decide; [|apply H4]. subst k. intros [= <-]. by exists p.
    + intros k per'. rewrite bm_get_insert by done. case_decide; [|apply Hgr]. subst k. intros [= <-]. by exists p.
    + intros k [<-|Hk]; [rewrite Ek; rewrite bm_get_insert, decide_True by done; by eexists|]. specialize (H5 k Hk). destruct (strip_star k) eqn:Ek'; [|done].
      rewrite bm_get_insert by done. case_decide; [by eexists|done].
    + intros k. rewrite bm_get_insert by done. case_decide; [subst k; by left|]. right. by apply Ho.
  - pose proof (collect_term fuel key (co_reads co) (co_scanned co) Hf Ek) as Hp. cbv zeta in Hp.
    destruct (scan_fulltext_postings _ _ _ _ _ _ _ _ _ _ _ _) as [[[l s] n']|e| |]; cbn [mbind eres_bind]; [|by left|done..].
    destruct Hp as [Hp Hp']. split; cbn [co_postings co_prefix_terms]; [by apply bsorted_insert|done| |done| |done| |].
    + intros k l'. rewrite bm_get_insert by done. case_decide; [|apply H3]. subst k. by intros [= <-].
    + intros k l'. rewrite bm_get_insert by done. case_decide; [|apply Hd]. subst k. by intros [= <-].
    + intros k [<-|Hk]; [rewrite Ek; rewrite bm_get_insert, decide_True by done; by eexists|]. specialize (H5 k Hk). destruct (strip_star k) eqn:Ek'; [done|].
      rewrite bm_get_insert by done. case_decide; [by eexists|done].
    + intros k. rewrite bm_get_insert by done. case_decide; [subst k; by left|]. right. by apply Ho.
Qed.

Lemma collect_keys_ok fuel keys : (List.length raw < fuel)%nat -> (forall key, In key keys -> In key (List.concat (map c_terms (pq_clauses q)))) ->
  forall co seen, collected_ok co seen ->
  match collect_keys r clock type_name field_name limits fuel tid ff q keys co with
  | EOk co' => collected_ok co' (rev keys ++ seen)
  | EErr e => limit_error type_name field_name limits e \/
      e = FulltextQuery /\ exists key p, In key keys /\ strip_star key = Some p /\ too_many p
  | EPanic | EFuel => False
  end.
Proof.
  intros Hf. induction keys as [|key keys IH]; intros Hin co seen Hco; cbn [collect_keys]; [done|].
  pose proof (collect_key_ok fuel co seen key Hf (Hin key (or_introl eq_refl)) Hco) as H.
  destruct (collect_key _ _ _ _ _ _ _ _ _ _ _) as [co1|e| |]; cbn [mbind eres_bind]; [| |done..].
  - specialize (IH ltac:(intros k Hk; apply Hin; by right) co1 (key :: seen) H). cbn [rev]. rewrite <- app_assoc. cbn [app].
    destruct (collect_keys _ _ _ _ _ _ _ _ _ _ _); [done| |done..]. destruct IH as [?|(-> & k & p & ? & ?)]; [by left|right].
    split; [done|]. exists k, p. split; [by right|done].
  - destruct H as [?|(-> & p & ?)]; [by left|right]. split; [done|]. exists key, p. split; [by left|done].
Qed.

End collect.

(** ** Ranking what was collected *)

Lemma zget_map_to_list (mg : gmap Z Posting) o : zget o (map_to_list mg) = mg !! o.
Proof.
  destruct (mg !! o) as [p|] eqn:E.
  - apply zget_in; [apply NoDup_fst_map_to_list|]. by apply list_elem_of_In, elem_of_map_to_list.
  - destruct (zget o (map_to_list mg)) as [p|] eqn:E'; [|done]. apply zget_in in E'; [|apply NoDup_fst_map_to_list].
    apply list_elem_of_In, elem_of_map_to_list in E'. congruence.
Qed.

Section rank.
Context {T : TextLib} {M : MathLib}.
Variables (r : Reader) (type_name field_name : bytes) (limits : FulltextLimits) (tid : Z) (ff : FulltextField) (docs : list (Z * bytes)) (q : ParsedQuery).
Hypothesis Hix : index_holds tid ff docs (rd_map r).
Hypothesis Hq : query_ok starless q.
Hypothesis Hcap : cap_of limits = MAX_PREFIX_EXPANSION.

(** The list of a key: a posting per document that has it. *)
Definition list_for (key : bytes) (l : PostingList) : Prop := NoDup (map fst l) /\ forall o, zget o l = doc_posting ff docs q o key.

Lemma merge_prefixes_done fc prefixes : bsorted prefixes ->
  (forall k per, In (k, per) prefixes -> exists p, strip_star k = Some p /\ expansion_ok limits ff docs p per) -> forall out, lists_ok out ->
  exists merged, merge_prefixes_from fc None prefixes out = EOk merged /\ lists_ok merged /\
    forall k, match bm_get k prefixes with Some _ => exists l, bm_get k merged = Some l /\ list_for k l | None => bm_get k merged = bm_get k out end.
Proof.
  induction prefixes as [|[k per] prefixes IH]; intros Hs Hp out Hout; cbn [merge_prefixes_from]; [by exists out|].
  apply bsorted_cons_inv in Hs as [Hs Hhd]. destruct (Hp k per) as (p & Ek & [E1 E2 E3]); [by left|]. rewrite Hcap in E3.
  destruct (merged_prefix tid ff docs (rd_map r) Hix fc p per E1 E2 E3) as (mg & Em & Hmg). rewrite Em. cbn [mbind eres_bind].
  assert (Hfor : list_for k (map_to_list mg)).
  { split; [apply NoDup_fst_map_to_list|]. intros o. rewrite zget_map_to_list, Hmg. unfold doc_posting, key_posting. by rewrite Ek. }
  destruct (IH Hs ltac:(intros k' per' H'; apply Hp; by right) (bm_insert k (map_to_list mg) out)) as (merged & E & Hok & Hg).
  { destruct Hout as [Ho1 Ho2]. split; [by apply bsorted_insert|]. intros k' l'. rewrite bm_get_insert by done. case_decide; [|apply Ho2]. intros [= <-]. apply Hfor. }
  exists merged. split_and!; [done..|]. intros k'. specialize (Hg k'). cbn [bm_get]. rewrite bm_get_insert in Hg by apply Hout.
  destruct (beqb_spec k' k) as [->|Hne].
  - assert (bm_get k prefixes = None) as E0.
    { apply bm_get_none. intros x Hx. rewrite List.Forall_forall in Hhd. specialize (Hhd _ Hx). by apply blt_irrefl in Hhd. }
    rewrite E0, decide_True in Hg by done. eauto.
  - by rewrite decide_False in Hg.
Qed.

(** Every key of the query has its list. *)
Lemma lists_of_query fc co : collected_ok r type_name field_name limits tid ff docs q co (distinct_terms q) -> fc_postings fc = co_postings co -> fc_prefix_terms fc = co_prefix_terms co ->
  exists merged, merge_prefixes fc None = EOk merged /\ lists_ok (lists fc merged) /\
    forall key, In key (List.concat (map c_terms (pq_clauses q))) -> exists l, bm_get key (lists fc merged) = Some l /\ list_for key l.
Proof.
  intros [H1 H2 H3 H4 _ _ H5 _] Ep Et. unfold merge_prefixes. rewrite Et.
  destruct (merge_prefixes_done fc (co_prefix_terms co) H2) with (out := [] : bmap PostingList) as (merged & Em & Hok & Hg).
  { intros k per Hin. apply H4. by apply bm_get_in. }
  { split; [apply bsorted_nil|done]. }
  assert (Hget : forall key, bm_get key (lists fc merged) = match bm_get key merged with Some l => Some l | None => bm_get key (co_postings co) end).
  { intros key. rewrite <- Ep. apply lists_get; [by rewrite Ep|done]. }
  exists merged. split; [done|]. split.
  - split; [unfold lists; rewrite Ep; by apply bsorted_insert_all|]. intros key l. rewrite Hget.
    destruct (bm_get key merged) eqn:E; [intros [= <-]; by eapply Hok|]. intros Hl. by apply H3 in Hl as (_ & ? & _).
  - intros key Hin. rewrite Hget. specialize (Hg key). specialize (H5 key (proj2 (distinct_terms_in q key) Hin)).
    destruct (bm_get key (co_prefix_terms co)) as [per|] eqn:E.
    + destruct Hg as (l & -> & Hl). by exists l.
    + rewrite Hg. cbn [bm_get]. destruct (strip_star key); [by destruct H5 as [? ?]|]. destruct H5 as [l Hl]. exists l. split; [done|]. by apply H3 in Hl as (_ & ?).
Qed.

Lemma score_exact fc co clock n restrict k : collected_ok r type_name field_name limits tid ff docs q co (distinct_terms q) ->
  fc_parsed fc = q -> fc_postings fc = co_postings co -> fc_prefix_terms fc = co_prefix_terms co ->
  exists hits, score clock n fc restrict k None = EOk hits /\ (k <> 0 -> doc_count (fc_stats fc) <> 0 ->
    exists ranked, hits = take (Z.to_nat k) ranked /\ StronglySorted hit_le ranked /\ NoDup (map hit_id ranked) /\
      forall h, h ∈ ranked <-> hit_spec q (fc_stats fc) restrict (doc_df ff docs q) (doc_posting ff docs q) h).
Proof.
  intros Hco Eq Ep Et. destruct (lists_of_query fc co Hco Ep Et) as (merged & Em & [Hs Hn] & Hl). unfold score. rewrite Em, Eq. cbn [mbind eres_bind].
  destruct (score_query_with _ _ _ _ _ _ _ _ _) as [hits|] eqn:E; [|by apply score_query_total in E]. exists hits. split; [done|]. intros Hk Hd.
  assert (Hb := clauses_bound _ _ Hq). apply score_query_exact in E as (ranked & -> & H1 & H2 & H3); [|done|unfold u32_max, MAX_QUERY_TERMS in *; lia|done|done].
  exists ranked. split_and!; [done..|]. intros h. rewrite H3. apply hit_spec_ext.
  - intros c Hc. apply (clause_ok_terms starless). by apply (clause_in q Hq).
  - intros t Ht. destruct (Hl t Ht) as (l & El & Hl1 & Hl2). unfold term_df. rewrite El. apply df_count; [done|apply Hix|done].
  - intros id t Ht _. destruct (Hl t Ht) as (l & El & Hl1 & Hl2). unfold posting_of. rewrite El. apply Hl2.
Qed.
End rank.

(** ** What a query asks of a text *)

Section semantics.
Context {T : TextLib} {M : MathLib}.
Variables (tid : Z) (ff : FulltextField) (docs : list (Z * bytes)) (m : bmap bytes) (q : ParsedQuery).
Hypothesis Hix : index_holds tid ff docs m.
Hypothesis Hq : query_ok starless q.
Hypothesis Hpos : needs_positions q = true -> ff_positions ff = true.

(** A prefix clause asks for a token that starts with it; a word or a phrase for
    its words at the positions it gives them, from some position on. *)
Definition text_matches (x : bytes) (c : Clause) : Prop :=
  if c_prefix c then exists t p, In t (toks ff x) /\ prefix_text c = Some p /\ p `prefix_of` t_term t
  else exists start, forall i w, c_terms c !! i = Some w -> In {| t_term := w; t_position := start + clause_offset c i |} (toks ff x).

Lemma positions_in w x pos : In pos (positions_of w (toks ff x)) <-> In {| t_term := w; t_position := pos |} (toks ff x).
Proof.
  unfold positions_of. rewrite in_map_iff. split.
  - intros ([w' p'] & <- & Hin). apply filter_In in Hin as [Hin Hw]. cbn [t_term t_position] in *. destruct (beqb_spec w w'); [by subst|done].
  - intros Hin. eexists. split; [|apply filter_In; split; [exact Hin|]]; [done|]. cbn [t_term]. by destruct (beqb_spec w w).
Qed.

Lemma tokens_position ts t : In t ts -> forall lo, 0 <= lo -> tokens_ok lo MAX_ANALYZED_WORDS ts -> 0 <= t_position t < MAX_ANALYZED_WORDS.
Proof.
  induction ts as [|u ts IH]; [done|]. intros Hin lo Hlo (_ & Hr & Hok). destruct Hin as [->|Hin]; [lia|]. apply (IH Hin (t_position u + 1)); [lia|done].
Qed.

Lemma token_position t x : In t (toks ff x) -> 0 <= t_position t < MAX_ANALYZED_WORDS.
Proof. intros Hin. eapply tokens_position; [exact Hin|reflexivity|apply analyze_tokens]. Qed.

Lemma has_term_in w x : has_term ff w x = true <-> exists pos, In {| t_term := w; t_position := pos |} (toks ff x).
Proof.
  rewrite has_term_spec. setoid_rewrite <- positions_in. destruct (positions_of w (toks ff x)) as [|p ps].
  - split; [done|]. by intros [? []].
  - split; [|done]. intros _. exists p. by left.
Qed.

Lemma prefix_posting_some x p : prefix_posting ff x p <> None <-> exists t, In t (toks ff x) /\ p `prefix_of` t_term t.
Proof.
  unfold prefix_posting, prefix_count. destruct (List.filter _ (toks ff x)) as [|t l] eqn:E; cbn [List.length Nat.eqb].
  - split; [done|]. intros (t & Hin & Hp). exfalso. assert (H : In t []); [|done]. rewrite <- E. apply filter_In. split; [done|]. by apply starts_with_true.
  - split; [|done]. intros _. assert (H : In t (t :: l)) by by left. rewrite <- E in H. apply filter_In in H as [H1 H2%starts_with_true]. eauto.
Qed.

Lemma mapM_all {A B} (f : A -> option B) (b : A -> bool) (g : A -> B) l : (forall a, In a l -> f a = if b a then Some (g a) else None) ->
  mapM f l = if forallb b l then Some (map g l) else None.
Proof.
  induction l as [|a l IH]; intros H; [done|]. cbn. rewrite (H a) by by left. destruct (b a); [|done]. cbn. rewrite IH by (intros ? ?; apply H; by right).
  by destruct (forallb b l).
Qed.

Lemma later_match_spec c p posts : forall i, later_match c p i posts = true <->
  forall j post, posts !! j = Some post -> p + clause_offset c (i + j) <= u32_max /\ In (p + clause_offset c (i + j)) (p_positions post).
Proof.
  induction posts as [|post posts IH]; intros i; cbn [later_match].
  - split; [|done]. intros _ j post. by rewrite lookup_nil.
  - rewrite andb_true_iff, IH. unfold checked_add_u32, has_position. split.
    + intros [H1 H2] [|j] post'.
      * cbn. rewrite Nat.add_0_r. intros [= <-]. destruct (Z.leb_spec (p + clause_offset c i) u32_max); [|done].
        apply existsb_exists in H1 as (z & Hz & Ez%Z.eqb_eq). split; [done|by rewrite Ez].
      * cbn. intros Hj. specialize (H2 j post' Hj). by replace (i + S j)%nat with (S i + j)%nat by lia.
    + intros H. split.
      * destruct (H 0%nat post eq_refl) as [H1 H2]. rewrite Nat.add_0_r in *. rewrite (proj2 (Z.leb_le _ _)) by done. apply existsb_exists. eexists. split; [exact H2|apply Z.eqb_refl].
      * intros j post' Hj. specialize (H (S j) post' Hj). by replace (S i + j)%nat with (i + S j)%nat by lia.
Qed.

Lemma phrase_positions c w : In c (pq_clauses q) -> is_phrase c = true -> In w (c_terms c) -> c_prefix c = false ->
  forall x, key_posting ff q w x = if has_term ff w x then Some (text_posting ff true x w) else None.
Proof.
  intros Hc Hp Hw Hpre x. pose proof (clause_in q Hq c Hc) as Hok. unfold clause_ok in Hok. rewrite Hpre in Hok. destruct Hok as (_ & Hts & _).
  rewrite List.Forall_forall in Hts. destruct (Hts w Hw) as [_ Hless]. unfold key_posting. rewrite strip_star_none by done.
  assert (existsb (beqb w) (phrase_terms q) = true) as ->; [|done]. apply existsb_exists. exists w. split; [|by destruct (beqb_spec w w)].
  apply in_concat. exists (c_terms c). split; [|done]. apply in_map, filter_In. done.
Qed.

(** A clause contributes to a document exactly when its text satisfies it. *)
Lemma clause_doc_matches stats restrict df o c : In c (pq_clauses q) ->
  clause_doc stats restrict df (doc_posting ff docs q) o c <> None <->
  allowed restrict o = true /\ exists x, zget o docs = Some x /\ text_matches x c.
Proof.
  intros Hc. pose proof (clause_in q Hq c Hc) as Hok. unfold clause_doc, text_matches. destruct (allowed restrict o); [|split; [done|by intros [? _]]].
  unfold doc_posting. destruct (zget o docs) as [x|] eqn:Ex.
  2:{ assert (Hn : forall l : list bytes, l <> [] -> mapM (fun _ : bytes => @None Posting) l = None) by (by intros [|]).
      split; [|by intros (_ & x & [=] & _)]. cbn [mbind option_bind]. destruct (is_phrase c); [|done]. by rewrite Hn by (by eapply clause_ok_terms). }
  cbn [mbind option_bind]. transitivity (text_matches x c); [|split; [intros H; split; [done|by exists x]|by intros (_ & x' & [= <-] & H)]].
  unfold text_matches. unfold clause_ok in Hok. destruct (c_prefix c) eqn:Ep.
  - destruct Hok as (p & Ht & Hp & _). unfold is_phrase. rewrite Ht. cbn [List.length Nat.ltb Nat.leb head default from_option Datatypes.id].
    unfold key_posting. rewrite strip_star_app, Hp. pose proof (prefix_posting_some x p) as H. destruct (prefix_posting ff x p); cbn [mbind option_bind].
    + split; [|done]. intros _. destruct H as [H _]. destruct H as (t & H1 & H2); [done|]. by exists t, p.
    + split; [done|]. intros (t & p' & H1 & [= <-] & H2). exfalso. apply (proj2 H); [eauto|done].
  - destruct Hok as (Hne & Hts & _ & Hoff). destruct (is_phrase c) eqn:Eph.
    + assert (Hall : mapM (fun w => key_posting ff q w x) (c_terms c) = if forallb (fun w => has_term ff w x) (c_terms c) then Some (map (text_posting ff true x) (c_terms c)) else None).
      { apply mapM_all. intros w Hw. by apply (phrase_positions c). }
      change (mapM (fun x0 => key_posting ff q x0 x) (c_terms c)) with (mapM (fun w => key_posting ff q w x) (c_terms c)). rewrite Hall. clear Hall.
      assert (Hfp : ff_positions ff = true) by (apply Hpos, existsb_exists; by exists c).
      destruct Hoff as (_ & H0 & _). assert (Ho0 : clause_offset c 0 = 0) by (unfold clause_offset; by rewrite H0).
      destruct (c_terms c) as [|w0 ws] eqn:Ews; [done|]. destruct (forallb (fun w => has_term ff w x) (w0 :: ws)) eqn:Eall; cbn [mbind option_bind map phrase_matched].
      * assert (Hm : existsb (fun p => later_match c p 1 (map (text_posting ff true x) ws)) (p_positions (text_posting ff true x w0)) = true <->
          exists start, forall i w, (w0 :: ws) !! i = Some w -> In {| t_term := w; t_position := start + clause_offset c i |} (toks ff x)).
        { rewrite existsb_exists. cbn [p_positions text_posting]. rewrite Hfp. cbn [andb]. split.
          - intros (start & Hs & Hl). exists start. rewrite later_match_spec in Hl. intros [|i] w.
            + cbn. intros [= <-]. rewrite Ho0, Z.add_0_r. by apply positions_in.
            + intros Hi. change (ws !! i = Some w) in Hi. destruct (Hl i (text_posting ff true x w)) as [_ Hin].
              { rewrite (list_lookup_fmap (text_posting ff true x) ws i), Hi. done. } apply positions_in.
              cbn [p_positions text_posting] in Hin. by rewrite Hfp in Hin.
          - intros (start & Hs). exists start. specialize (Hs 0%nat w0 eq_refl) as Hs0. rewrite Ho0, Z.add_0_r in Hs0. split; [by apply positions_in|].
            apply later_match_spec. intros j post Hj. apply list_lookup_fmap_Some in Hj as (w & -> & Hw). specialize (Hs (S j) w Hw).
            pose proof (token_position _ _ Hs) as Hr. cbn [t_position] in Hr. change (1 + j)%nat with (S j). split; [unfold u32_max, MAX_ANALYZED_WORDS in *; lia|].
            cbn [p_positions text_posting]. rewrite Hfp. by apply positions_in. }
        case_match; split; [intros _; by apply Hm|done|done|intros Hx; by apply Hm in Hx].
      * split; [done|]. intros (start & Hs). exfalso. assert (forallb (fun w => has_term ff w x) (w0 :: ws) = true); [|congruence].
        apply forallb_forall. intros w Hw. apply has_term_in. apply list_elem_of_In, list_elem_of_lookup in Hw as [i Hi]. eexists. by apply (Hs i w).
    + unfold is_phrase in Eph. destruct (c_terms c) as [|w [|]]; [done| |done]. cbn [head default from_option Datatypes.id].
      apply Forall_singleton in Hts as [_ Hless]. unfold key_posting. rewrite strip_star_none by done. pose proof (has_term_in w x) as H.
      assert (Ho0 : clause_offset c 0 = 0) by (unfold clause_offset; by rewrite Hoff).
      destruct (has_term ff w x); cbn [mbind option_bind].
      * split; [|done]. intros _. destruct H as [H _]. destruct H as [pos Hp]; [done|]. exists pos. intros [|i] w'; [|done]. cbn. intros [= <-]. by rewrite Ho0, Z.add_0_r.
      * split; [done|]. intros (start & Hs). enough (false = true) by done. apply H. eexists. by apply (Hs 0%nat w).
Qed.
End semantics.

(** ** The theorem *)

Section answer.
Context {T : TextLib} {M : MathLib}.
Variables (db : Database) (state : FulltextField -> FieldState) (r : Reader) (clock : nat -> Z) (raw : bmap MemValue).
Variables (type_name field_name : bytes) (tid : Z) (ff : FulltextField) (docs : list (Z * bytes)).

(** The documents a query answers with: allowed, with a text that satisfies every
    required clause and some clause, and with the BM25 score of the document
    among the documents. *)
Record answers (q : ParsedQuery) (restrict : option (gset Z)) (h : FulltextHit) : Prop := {
  an_allowed : allowed restrict (hit_id h) = true;
  an_text : exists x, zget (hit_id h) docs = Some x /\ (forall c, In c (pq_clauses q) -> c_required c = true -> text_matches ff x c) /\
    exists c, In c (pq_clauses q) /\ text_matches ff x c;
  an_positive : f_gt (doc_score q (fs_stats (state ff)) restrict (doc_df ff docs q) (doc_posting ff docs q) (hit_id h)) (S754_zero false) = true;
  an_score : hit_score h = f32_bits (doc_score q (fs_stats (state ff)) restrict (doc_df ff docs q) (doc_posting ff docs q) (hit_id h));
}.

Lemma hit_spec_answers q restrict h m : index_holds tid ff docs m -> query_ok starless q -> (needs_positions q = true -> ff_positions ff = true) ->
  hit_spec q (fs_stats (state ff)) restrict (doc_df ff docs q) (doc_posting ff docs q) h <-> answers q restrict h.
Proof.
  intros Hix Hq Hp. pose proof (clause_doc_matches ff docs q Hq Hp (fs_stats (state ff)) restrict (doc_df ff docs q) (hit_id h)) as Hm. split.
  - intros [H1 H2 H3]. assert (Hsome : exists c, In c (pq_clauses q) /\ clause_doc (fs_stats (state ff)) restrict (doc_df ff docs q) (doc_posting ff docs q) (hit_id h) c <> None).
    { unfold doc_score in H2. destruct (omap _ (pq_clauses q)) as [|x l] eqn:E; [done|]. assert (Hx : x ∈ omap (clause_doc (fs_stats (state ff)) restrict (doc_df ff docs q)
        (doc_posting ff docs q) (hit_id h)) (pq_clauses q)) by (rewrite E; apply elem_of_cons; by left).
      apply list_elem_of_omap in Hx as (c & Hc & Ec). exists c. split; [by apply list_elem_of_In|]. by rewrite Ec. }
    destruct Hsome as (c & Hc & Hcd). apply (Hm c Hc) in Hcd as (Ha & x & Ex & Hx). split; [done| |done|done]. exists x. split; [done|]. split; [|eauto].
    intros d Hd Hr. specialize (H1 d Hd Hr). apply (Hm d Hd) in H1 as (_ & x' & Ex' & Hx'). rewrite Ex in Ex'. by injection Ex' as <-.
  - intros [Ha (x & Ex & Hr & _) H2 H3]. split; [|done|done]. intros c Hc Hreq. apply (Hm c Hc). eauto.
Qed.

Hypothesis Hc : chunks_ok r raw.
Hypothesis Hix : index_holds tid ff docs (rd_map r).
Hypothesis Htid : resolve_type_id db type_name = EOk tid.
Hypothesis Hff : fulltext_field db type_name field_name = Some ff.
Hypothesis Hbuilt : fs_built (state ff) = true.
Hypothesis Hstar : forall text keep t, In t (a_tokens (analyze_opts (ff_analyzer ff) text keep)) -> starless (t_term t).

(** C36: a full-text search answers from the documents.  On a snapshot whose index
    holds the documents of a built field, for a query that parses (a phrase only
    on a field with positions) and any budget: the search ends, and either
    answers with the first [k] of exactly the allowed documents whose text
    satisfies every required clause and some clause and whose score is positive,
    each once, by descending BM25 score over the documents and then by id; or
    refuses the query because the budget is exceeded or because more than 64
    distinct terms of the documents start with one of its prefixes.  A word is
    satisfied by a token, a prefix by a token that starts with it, a phrase by
    its words at consecutive positions with the gaps of its stop words. *)
Theorem fulltext_search_exact fuel text q k restrict budget :
  (List.length raw < fuel)%nat -> parse_query (ff_analyzer ff) text = SOk q -> (needs_positions q = true -> ff_positions ff = true) ->
  0 < k -> doc_count (fs_stats (state ff)) <> 0 ->
  match fulltext_search db state r clock fuel type_name field_name text k restrict budget with
  | EOk res => exists ranked, sr_hits res = take (Z.to_nat k) ranked /\ StronglySorted hit_le ranked /\ NoDup (map hit_id ranked) /\
      forall h, h ∈ ranked <-> answers q restrict h
  | EErr e => is_Some budget /\ e = FulltextScanBudgetExceeded type_name field_name \/
      e = FulltextQuery /\ exists c p ts, In c (pq_clauses q) /\ prefix_text c = Some p /\ MAX_PREFIX_EXPANSION < Z.of_nat (List.length ts) /\ NoDup ts /\
        forall t, In t ts -> p `prefix_of` t /\ exists o x pos, zget o docs = Some x /\ In {| t_term := t; t_position := pos |} (toks ff x)
  | EPanic | EFuel => False
  end.
Proof.
  intros Hf Hpq Hpos Hk Hd. destruct (parse_query_wf starless (ff_analyzer ff) Hstar text) as [_ Hwf]. destruct (Hwf q Hpq) as [_ Hq].
  unfold fulltext_search. set (limits := {| max_postings := budget; fl_deadline := None; defer_prefix_cap := false |}).
  unfold fulltext_candidates. rewrite Htid, Hff. cbn [mbind eres_bind]. rewrite Hbuilt. cbn [negb]. rewrite Hpq. cbn [mbind eres_bind].
  assert ((needs_positions q && negb (ff_positions ff)) = false) as ->.
  { destruct (needs_positions q); [|done]. cbn [andb]. by rewrite Hpos. }
  pose proof (collect_keys_ok r clock raw type_name field_name limits tid ff docs q Hc Hix Hq fuel (distinct_terms q) Hf
    (fun key => proj1 (distinct_terms_in q key)) {| co_postings := []; co_prefix_terms := []; co_scanned := 0; co_reads := 0 |} []) as Hco.
  specialize (Hco ltac:(split; [apply bsorted_nil|apply bsorted_nil|done..|by intros ? [[??]|[??]]])). rewrite app_nil_r in Hco.
  destruct (collect_keys _ _ _ _ _ _ _ _ _ _ _) as [co|e| |]; cbn [mbind eres_bind]; [| |done..].
  - assert (Hco' : collected_ok r type_name field_name limits tid ff docs q co (distinct_terms q)).
    { destruct Hco as [H1 H2 H3 H4 H6 H7 H5 H8]. split; [done..| |]; intros key Hkey; [apply H5; by apply in_rev in Hkey|by apply in_rev, H8]. }
    match goal with |- context [score clock 0 ?fc restrict k None] => destruct (score_exact r type_name field_name limits tid ff docs q Hix Hq eq_refl fc co clock 0 restrict k Hco' eq_refl eq_refl eq_refl)
      as (hits & -> & Hr) end.
    cbn [mbind eres_bind sr_hits fc_stats] in *. destruct Hr as (ranked & H1 & H2 & H3 & H4); [lia|done|]. exists ranked. split_and!; [done..|].
    intros h. rewrite H4. by eapply hit_spec_answers.
  - destruct Hco as [[[Hb ->]|[[d Hdl] _]]|(-> & key & p & Hkey & Hs & ts & Ht1 & Ht2 & Ht3)]; [by left|done|right]. split; [done|].
    apply distinct_terms_in, in_concat in Hkey as (l & (c & <- & Hc')%in_map_iff & Hin). exists c, p, ts. split; [done|]. split.
    + pose proof (clause_in q Hq c Hc') as Hok. unfold clause_ok in Hok. destruct (c_prefix c).
      * destruct Hok as (p' & Ht & -> & _). rewrite Ht in Hin. destruct Hin as [<-|[]]. by rewrite strip_star_app in Hs.
      * destruct Hok as (_ & Hts & _). rewrite List.Forall_forall in Hts. destruct (Hts key Hin) as [_ Hless]. by rewrite strip_star_none in Hs.
    + split; [done|]. split; [done|]. intros t Ht. destruct (Ht3 t Ht) as (Hpre & o & x & Ex & Hx). split; [done|]. apply has_term_in in Hx as (pos & Hx). by exists o, x, pos.
Qed.

End answer.

(** ** An index of any documents *)

Section build.
Context {T : TextLib}.
Variables (tid : Z) (ff : FulltextField).

Definition document_rows (docs : list (Z * bytes)) : list (bytes * bytes) :=
  List.concat (map (fun d => ft_rows tid ff d.1 (Some d.2)) docs).

Lemma ft_row_key o x k v : is_u64 o -> In (k, v) (ft_rows tid ff o (Some x)) -> KeyBuilder.fulltext_object_id k = Some o /\ ft_key tid ff o k.
Proof.
  intros Ho. cbn [ft_rows]. unfold stage_doc_puts. cbn [app]. intros [Hin|[[= <- <-]|[]]]%in_app_or.
  - apply in_map_iff in Hin as ([t ps] & [= <- <-] & _). split; [|right; by exists t].
    by apply (term_prefix_exact tid (ff_field_id ff) (ff_generation ff) o [] t).
  - split; [|by left]. unfold doc_key, KeyBuilder.fulltext_doc, KeyBuilder.fulltext_object_id, len.
    rewrite !length_app, put_fulltext_prefix_length, length_be64. cbn [Nat.add]. destruct (Z.ltb_spec (Z.of_nat 33) (FULLTEXT_PREFIX_LEN + 8)); [unfold FULLTEXT_PREFIX_LEN in *; lia|].
    rewrite drop_app_length' by (rewrite put_fulltext_prefix_length; done). by rewrite from_be64.
Qed.

Lemma ft_rows_nodup o x : NoDup (map fst (ft_rows tid ff o (Some x))).
Proof.
  cbn [ft_rows]. unfold stage_doc_puts. cbn [app]. rewrite map_app, map_map. apply NoDup_app. split_and!.
  - assert (E : map (fun e : bytes * list Z => fst (let '(term, positions) := e in (posting_key tid ff o term, encode_posting (id_doc_len (tokenize_for_index ff x)) positions (ff_positions ff))))
      (id_terms (tokenize_for_index ff x)) = map (posting_key tid ff o) (map fst (id_terms (tokenize_for_index ff x)))).
    { rewrite map_map. apply List.map_ext. by intros [t ps]. }
    rewrite E. apply NoDup_fmap_2; [intros a b; apply posting_key_inj|apply term_map_nodup].
  - intros k Hk Hd. apply list_elem_of_singleton in Hd as ->. apply list_elem_of_In, in_map_iff in Hk as ([t ps] & E & _). by apply posting_key_doc in E.
  - apply NoDup_singleton.
Qed.

Variable docs : list (Z * bytes).
Hypothesis Hn : NoDup (map fst docs).
Hypothesis Hu : forall o x, In (o, x) docs -> is_u64 o.

Lemma document_rows_get o k : is_u64 o -> ft_key tid ff o k -> bm_get k (document_rows docs) = bm_get k (ft_rows tid ff o (zget o docs)).
Proof.
  intros Ho Hk. unfold document_rows. induction docs as [|[i x] l IH]; [done|]. cbn [map fst] in Hn. apply NoDup_cons in Hn as [Hi Hn'].
  cbn [map List.concat fst snd zget]. rewrite assoc_app, IH by (done || (intros o' x' H'; apply (Hu o' x'); by right)). destruct (Z.eqb_spec o i) as [->|Hne].
  - destruct (bm_get k (ft_rows tid ff i (Some x))); [done|]. destruct (zget i l) eqn:E; [|done]. apply zget_in in E; [|done]. exfalso.
    apply Hi, list_elem_of_In. by apply (in_map fst) in E.
  - assert (bm_get k (ft_rows tid ff i (Some x)) = None) as ->; [|done]. apply assoc_none. intros Hin. apply in_map_iff in Hin as ([k' v] & <- & Hin).
    apply ft_row_key in Hin as [Hid _]; [|by apply (Hu i x); left]. cbn [fst] in *. destruct Hk as [->|[t ->]].
    + assert (E : KeyBuilder.fulltext_object_id (doc_key tid ff o) = Some o).
      { apply (ft_row_key o [] _ (encode_doc_len (id_doc_len (tokenize_for_index ff [])))); [done|]. cbn [ft_rows]. unfold stage_doc_puts. apply in_or_app. right.
        apply in_or_app. right. by left. }
      rewrite E in Hid. by injection Hid.
    + unfold posting_key in Hid. rewrite (proj1 (proj2 (term_prefix_exact tid (ff_field_id ff) (ff_generation ff) o [] t)) Ho) in Hid. by injection Hid.
Qed.

Lemma document_rows_nodup : NoDup (map fst (document_rows docs)).
Proof.
  unfold document_rows. induction docs as [|[i x] l IH]; [constructor|]. cbn [map fst] in Hn. apply NoDup_cons in Hn as [Hi Hn'].
  cbn [map List.concat fst snd]. rewrite map_app. apply NoDup_app. split_and!; [apply ft_rows_nodup| |apply IH; [done|intros o' x' H'; apply (Hu o' x'); by right]].
  intros k Hk1 Hk2. apply list_elem_of_In, in_map_iff in Hk1 as ([k1 v1] & <- & H1), Hk2 as ([k2 v2] & E & H2). cbn [fst] in *. subst k2.
  apply ft_row_key in H1 as [H1 _]; [|by apply (Hu i x); left]. apply in_concat in H2 as (rows & (d & <- & Hd)%in_map_iff & H2).
  destruct d as [j y]. cbn [fst snd] in H2. apply ft_row_key in H2 as [H2 _]; [|apply (Hu j y); by right]. rewrite H1 in H2. injection H2 as ->.
  apply Hi, list_elem_of_In. by apply (in_map fst) in Hd.
Qed.

(** The index of any documents exists. *)
Lemma documents_indexed : index_holds tid ff docs (bm_insert_all (document_rows docs) []).
Proof.
  assert (Hg : forall k, bm_get k (bm_insert_all (document_rows docs) []) = bm_get k (document_rows docs)).
  { intros k. rewrite assoc_insert_all by (apply bsorted_nil || apply document_rows_nodup). by destruct (bm_get k (document_rows docs)). }
  split; [apply bsorted_insert_all, bsorted_nil|done|done| |].
  - intros o Ho k Hk. by rewrite Hg, (document_rows_get o k Ho Hk).
  - intros k v Hin Hp. apply bm_get_in in Hin; [|apply bsorted_insert_all, bsorted_nil]. rewrite Hg in Hin. apply assoc_in in Hin.
    apply in_concat in Hin as (rows & ([o x] & <- & Hd)%in_map_iff & Hin). cbn [fst snd] in Hin. pose proof (Hu o x Hd) as Ho.
    apply ft_row_key in Hin as [_ [->|[t ->]]]; [|by exists o, t|done]. exfalso. destruct Hp as [z Hz]. done.
Qed.
End build.

(** ** Witnesses *)

(** Words end at spaces and stars; the terms are the words. *)
Definition split_words (s : bytes) : list bytes :=
  List.filter (fun w => match w with [] => false | _ => true end)
    (fold_right (fun b ws => if (b2z b =? 32) || (b2z b =? 42) then [] :: ws else
       match ws with w :: ws => (b :: w) :: ws | [] => [[b]] end) [[]] s).

Definition plain_text : TextLib := {|
  unicode_words := split_words; to_lowercase := fun w => w; nfkd := map (fun b => [b]); stem := fun w => w |}.

(** [x - 1] for the logarithm. *)
Definition linear_math : MathLib := {| f64_ln := fun x => SFsub 53 1024 x (int_as_f64 1) |}.

Lemma split_words_starless s w : In w (split_words s) -> ~ In x2a w.
Proof.
  unfold split_words. intros [Hin _]%filter_In. revert w Hin. induction s as [|b s IH]; cbn [fold_right]; intros w Hw; [destruct Hw as [<-|[]]; intros []|].
  destruct ((b2z b =? 32) || (b2z b =? 42)) eqn:E; [destruct Hw as [<-|Hw]; [intros []|by apply IH]|].
  assert (Hb : b <> x2a) by (intros ->; done). destruct (fold_right _ [[]] s) as [|w0 ws]; cbn [In] in Hw.
  - destruct Hw as [<-|[]]. intros [?|[]]. done.
  - destruct Hw as [<-|Hw]; [|apply IH; by right]. intros [?|Hin]; [done|]. by apply (IH w0 (or_introl eq_refl)).
Qed.

Lemma plain_starless text keep t : In t (a_tokens (analyze_opts (T := plain_text) Simple text keep)) -> starless (t_term t).
Proof.
  cbn [analyze_opts]. unfold analyze_words.
  assert (Hw : forall w, In w (take (Z.to_nat MAX_ANALYZED_WORDS) (split_words text)) -> ~ In x2a w).
  { intros w Hin. apply in_take in Hin. by eapply split_words_starless. }
  revert Hw. change (unicode_words text) with (split_words text). generalize (take (Z.to_nat MAX_ANALYZED_WORDS) (split_words text)) as ws. intros ws Hw.
  assert (H : forall position out dropped, (forall t, In t out -> starless (t_term t)) ->
    forall t, In t (a_tokens (analyze_loop (fun w => Some (fold_simple (T := plain_text) w)) ws position out dropped)) -> starless (t_term t)).
  { induction ws as [|w ws IH]; intros position out dropped Hout u; cbn [analyze_loop a_tokens]; [apply Hout|].
    specialize (IH ltac:(intros w' H'; apply Hw; by right)). case_match; [by apply IH|]. apply IH. intros v [Hv|[<-|[]]]%in_app_or; [by apply Hout|]. cbn [t_term].
    intros [l El]%last_Some. apply (Hw w (or_introl eq_refl)). assert (Hin : In x2a (fold_simple (T := plain_text) w)) by (rewrite El; apply in_or_app; right; by left).
    unfold fold_simple in Hin. apply in_concat in Hin as (c & Hc & Hin). apply filter_In in Hc as [Hc _]. apply in_map_iff in Hc as (b & <- & Hb).
    destruct Hin as [->|[]]. done. }
  apply H. done.
Qed.

Definition note_field : FulltextField := {| ff_name := bs "text"; ff_field_id := 3; ff_generation := 1; ff_analyzer := Simple; ff_positions := true |}.

Definition note_db : Database := {|
  schema := {| types := [] |}; type_ids := [(bs "Note", 2)]; rel_ids := []; field_ids := []; tombstoned_type_ids := []; tombstoned_rel_ids := [];
  tombstoned_field_quals := []; retired_field_names_by_type := []; incoming_relations := []; cascade_meta_by_id := []; indexed_fields := [];
  fulltext_fields := [(bs "Note", [note_field])] |}.

Definition notes : list (Z * bytes) := [(1, bs "a red camera"); (2, bs "the red cam and the camera"); (3, bs "a blue car")].

Definition note_state (_ : FulltextField) : FieldState := {| fs_stats := {| doc_count := 3; total_tokens := 12 |}; fs_built := true |}.

Definition note_store : bmap bytes := bm_insert_all (document_rows (T := plain_text) 2 note_field notes) [].

Definition note_query : ParsedQuery := {| pq_clauses := [clause_term (bs "blue") false; {| c_required := true; c_terms := [bs "cam*"]; c_prefix := true; c_offsets := [] |}] |}.

Definition note_result : eres FulltextSearchResult :=
  fulltext_search (T := plain_text) (M := linear_math) note_db note_state (map_reader note_store) (fun _ => 0) 20 (bs "Note") (bs "text") (bs "blue +cam*") 10 None None.

Lemma note_index : index_holds (T := plain_text) 2 note_field notes note_store.
Proof.
  apply documents_indexed.
  - apply (bool_decide_unpack (NoDup _)). by vm_compute.
  - intros o x Hin. unfold notes in Hin. unfold is_u64. repeat (destruct Hin as [[= <- <-]|Hin]; [lia|]). done.
Qed.

Lemma fulltext_search_exact_witness : exists res ranked, note_result = EOk res /\ map hit_id (sr_hits res) = [2; 1] /\ sr_hits res = take 10 ranked /\
  forall h, h ∈ ranked <-> answers (T := plain_text) (M := linear_math) note_state note_field notes note_query None h.
Proof.
  pose proof (fulltext_search_exact (T := plain_text) (M := linear_math) note_db note_state (map_reader note_store) (fun _ => 0) (all_live note_store)
    (bs "Note") (bs "text") 2 note_field notes (map_reader_chunks _ (ih_sorted _ _ _ _ note_index)) note_index eq_refl eq_refl eq_refl plain_starless
    20 (bs "blue +cam*") note_query 10 None None) as H.
  destruct note_result as [res|e| |] eqn:E; [|by vm_compute in E..]. fold note_result in H. rewrite E in H.
  destruct H as (ranked & H1 & _ & _ & H4); [vm_compute; lia|by vm_compute|done|lia|done|]. exists res, ranked. split_and!; [done| |done|done].
  vm_compute in E. injection E as <-. by vm_compute.
Defined.
