(* ===== verification/FulltextHidden.v ===== *)
(** * Hidden documents do not interfere with a search

    Under security rules a search ranks over the documents the caller may read
    ([score_visible]).  Two stores whose indexes agree on those documents give
    the same answer, whatever the other documents hold. *)

From Stdlib Require Import ZArith Lia Bool List Strings.Byte Strings.String SpecFloat Sorting.Sorted Sorting.Permutation.
From stdpp Require Import base tactics option list sorting gmap.
From S2P Require Import Prelude ByteMap Keys Versioned MemTable Layers Lsm Values Utf8 Ieee Schema IndexKeys Posting Store Fulltext Engine FilterScan.
From S2P Require Import FilterSpec FilterProps ScanChunks FulltextQuery FulltextSearch FulltextSearchProps FulltextScan.
From S2P Require Import FulltextExact FulltextAnswer.

Local Open Scope Z_scope.

(** ** Sorted lists with the same elements *)

Lemma bsorted_in_ext {A} (a b : bmap A) : bsorted a -> bsorted b -> (forall e, In e a <-> In e b) -> a = b.
Proof.
  intros Ha Hb H. apply bm_ext; [done..|]. intros k. destruct (bm_get k a) as [x|] eqn:Ea.
  - symmetry. apply bm_get_in; [done|]. apply H. by apply bm_get_in.
  - destruct (bm_get k b) as [y|] eqn:Eb; [|done]. apply bm_get_in in Eb; [|done]. apply H, bm_get_in in Eb; [|done]. congruence.
Qed.

Lemma tsorted_nodup ts : tsorted ts -> NoDup ts.
Proof.
  induction 1 as [|a l Hl IH Hf]; [constructor|]. constructor; [|done]. intros Hin. rewrite List.Forall_forall in Hf.
  apply list_elem_of_In in Hin. by apply (blt_irrefl a), Hf.
Qed.

Lemma tsorted_ext a b : tsorted a -> tsorted b -> (forall t, In t a <-> In t b) -> a = b.
Proof.
  intros Ha Hb H. eapply StronglySorted_unique_strong; [|exact Ha|exact Hb|apply nodup_perm; [by apply tsorted_nodup..|done]].
  intros x y _ _ Hxy Hyx. exfalso. by apply (blt_irrefl x), (blt_trans _ y).
Qed.

Lemma bmap_keys_sorted {A} (a : bmap A) : bsorted a -> tsorted (map fst a).
Proof. induction 1 as [|e l Hl IH Hf]; [constructor|]. cbn [map]. constructor; [done|]. apply Forall_fmap. exact Hf. Qed.

Lemma bm_get_keys {A} (a : bmap A) k : bsorted a -> In k (map fst a) <-> is_Some (bm_get k a).
Proof.
  intros Ha. split.
  - intros ([k' x] & <- & Hin)%in_map_iff. exists x. by apply bm_get_in.
  - intros [x Hx%bm_get_in]; [|done]. by apply (in_map fst) in Hx.
Qed.

Lemma keys_forall2 {A B} (R : A -> B -> Prop) (a : bmap A) : forall b : bmap B, map fst a = map fst b ->
  (forall k x y, In (k, x) a -> In (k, y) b -> R x y) -> Forall2 (fun x y => x.1 = y.1 /\ R x.2 y.2) a b.
Proof.
  induction a as [|[k x] a IH]; intros [|[k' y] b] E H; [constructor|done|done|]. injection E as -> E. constructor.
  - split; [done|]. by apply (H k'); left.
  - apply IH; [done|]. intros k2 x2 y2 Hx Hy. by apply (H k2); right.
Qed.

(** Sorted maps with the same keys, compared key by key. *)
Lemma bsorted_forall2 {A B} (R : A -> B -> Prop) (a : bmap A) (b : bmap B) : bsorted a -> bsorted b ->
  (forall k, match bm_get k a, bm_get k b with Some x, Some y => R x y | None, None => True | _, _ => False end) ->
  Forall2 (fun x y => x.1 = y.1 /\ R x.2 y.2) a b.
Proof.
  intros Ha Hb H. apply keys_forall2.
  - assert (Hmem : forall k, In k (map fst a) <-> In k (map fst b)); [|eapply tsorted_ext; [by apply bmap_keys_sorted..|done]].
    intros k. rewrite !bm_get_keys by done. specialize (H k). by destruct (bm_get k a), (bm_get k b).
  - intros k x y Hx%bm_get_in Hy%bm_get_in; [|done..]. specialize (H k). by rewrite Hx, Hy in H.
Qed.

Lemma tsorted_filter f ts : tsorted ts -> tsorted (List.filter f ts).
Proof.
  induction 1 as [|a l Hl IH Hf]; [constructor|]. cbn [List.filter]. destruct (f a); [|done]. constructor; [done|].
  rewrite List.Forall_forall in *. intros x Hx. apply filter_In in Hx as [Hx _]. by apply Hf.
Qed.

Lemma Forall2_functional {A B} (R : A -> B -> Prop) (l : list A) : (forall a b c, R a b -> R a c -> b = c) ->
  forall l1 l2, Forall2 R l l1 -> Forall2 R l l2 -> l1 = l2.
Proof.
  intros HR. induction l as [|a l IH]; intros l1 l2 H1 H2; inversion H1; inversion H2; subst; [done|]. f_equal; [by eapply HR|by apply IH].
Qed.

Lemma Forall2_filter {A B} (R : A -> B -> Prop) (f : A -> bool) (g : B -> bool) l1 l2 : (forall a b, R a b -> f a = g b) ->
  Forall2 R l1 l2 -> Forall2 R (List.filter f l1) (List.filter g l2).
Proof.
  intros H. induction 1 as [|a b l1 l2 Hab _ IH]; [constructor|]. cbn [List.filter]. rewrite (H a b Hab). destruct (g b); [by constructor|done].
Qed.

Section hidden.
Context {T : TextLib} {M : MathLib}.
Variables (V : gset Z) (tid : Z) (ff : FulltextField) (type_name field_name : bytes).

(** ** The visible rows *)

Definition row_visible (row : bytes * bytes) : bool :=
  match KeyBuilder.fulltext_object_id (fst row) with Some o => bool_decide (o ∈ V) | None => false end.

Lemma row_entry_id wp row e : row_entry type_name field_name wp row = EOk e -> row_visible row = bool_decide (e.1 ∈ V).
Proof.
  unfold row_entry, row_visible. destruct (KeyBuilder.fulltext_object_id (fst row)) as [o|]; cbn [mbind eres_bind corrupt]; [|done]. destruct wp.
  - destruct (decode_posting_header (snd row)); [|done]. destruct (decode_posting (snd row)); [|done]. by intros [= <-].
  - destruct (header_posting _ _ _); cbn [mbind eres_bind]; [|done..]. by intros [= <-].
Qed.

Lemma visible_rows_in docs m z row : index_holds tid ff docs m ->
  In row (List.filter row_visible (rows_under (KeyBuilder.fulltext_field_prefix tid (ff_field_id ff) (ff_generation ff) ++ z) m)) <->
  exists o x t, o ∈ V /\ zget o docs = Some x /\ positions_of t (toks ff x) <> [] /\ row = posting_row tid ff o x t /\
    KeyBuilder.fulltext_field_prefix tid (ff_field_id ff) (ff_generation ff) ++ z `prefix_of` posting_key tid ff o t.
Proof.
  intros Hix. rewrite filter_In, (field_rows_in tid ff docs m Hix). split.
  - intros [(o & x & t & Ex & Hps & -> & Hp) Hv]. exists o, x, t. split; [|done]. unfold row_visible in Hv. rewrite posting_row_id in Hv.
    + by apply bool_decide_eq_true in Hv.
    + eapply (doc_u64 tid ff docs m Hix), zget_in; [apply Hix|exact Ex].
  - intros (o & x & t & Hv & Ex & Hps & -> & Hp). split; [by exists o, x, t|]. unfold row_visible. rewrite posting_row_id.
    + by apply bool_decide_eq_true.
    + eapply (doc_u64 tid ff docs m Hix), zget_in; [apply Hix|exact Ex].
Qed.

Section two.
Variables (docs1 docs2 : list (Z * bytes)) (r1 r2 : Reader).
Hypothesis Hix1 : index_holds tid ff docs1 (rd_map r1).
Hypothesis Hix2 : index_holds tid ff docs2 (rd_map r2).
Hypothesis Hagree : forall o, o ∈ V -> zget o docs1 = zget o docs2.

Lemma visible_rows_same z : let p := KeyBuilder.fulltext_field_prefix tid (ff_field_id ff) (ff_generation ff) ++ z in
  List.filter row_visible (rows_under p (rd_map r1)) = List.filter row_visible (rows_under p (rd_map r2)).
Proof.
  intros p. subst p. apply bsorted_in_ext; [apply bsorted_filter, bsorted_filter, Hix1|apply bsorted_filter, bsorted_filter, Hix2|].
  intros row. rewrite (visible_rows_in docs1 _ z row Hix1), (visible_rows_in docs2 _ z row Hix2).
  split; intros (o & x & t & Hv & Ex & H); exists o, x, t; (split; [done|]); (split; [|done]); [rewrite <- Hagree|rewrite Hagree]; done.
Qed.

Lemma decodes_visible wp rows es : decodes type_name field_name wp rows es -> decodes type_name field_name wp (List.filter row_visible rows) (visible_list V es).
Proof. apply Forall2_filter. intros row e. apply row_entry_id. Qed.

Lemma term_list_same wp key l1 l2 : decodes type_name field_name wp (term_rows r1 tid ff key) l1 -> decodes type_name field_name wp (term_rows r2 tid ff key) l2 ->
  visible_list V l1 = visible_list V l2.
Proof.
  intros H1%decodes_visible H2%decodes_visible. unfold term_rows, KeyBuilder.fulltext_term_prefix in *.
  fold (KeyBuilder.fulltext_field_prefix tid (ff_field_id ff) (ff_generation ff)) in *. rewrite <- (visible_rows_same (encode_term key)) in H2.
  eapply (Forall2_functional (fun row e => row_entry type_name field_name wp row = EOk e)); [|exact H1|exact H2]. intros row e1 e2 E1 E2. congruence.
Qed.

(** ** Prefixes *)

Definition te_visible (te : bytes * (Z * Posting)) : bool := bool_decide (te.2.1 ∈ V).

Lemma select_visible t tes : visible_list V (select t tes) = select t (List.filter te_visible tes).
Proof.
  unfold visible_list, select. induction tes as [|[u [o p]] tes IH]; [done|]. cbn [List.filter fst snd]. unfold te_visible at 1. cbn [fst snd].
  destruct (beqb u t) eqn:Eu, (bool_decide (o ∈ V)) eqn:Eo; cbn [map List.filter fst snd]; rewrite ?Eu, ?Eo; cbn [map snd]; by rewrite ?IH.
Qed.

Lemma visible_groups tes ts : visible_terms V (map (fun t => select t tes) ts) =
  map (fun t => select t (List.filter te_visible tes)) (List.filter (fun t => nonempty (select t (List.filter te_visible tes))) ts).
Proof.
  unfold visible_terms. induction ts as [|t ts IH]; [done|]. cbn [map List.filter]. rewrite select_visible.
  destruct (nonempty (select t (List.filter te_visible tes))); cbn [map]; by rewrite IH.
Qed.

Lemma rows_terms_functional rows tes1 tes2 : rows_terms tid ff type_name field_name rows tes1 -> rows_terms tid ff type_name field_name rows tes2 -> tes1 = tes2.
Proof.
  apply Forall2_functional. intros row [t1 e1] [t2 e2] [(x1 & _ & E1) H1] [(x2 & _ & E2) H2]. cbn [fst snd] in *. rewrite H1 in H2. injection H2 as <-. f_equal.
  rewrite E1 in E2. apply (f_equal fst), (f_equal KeyBuilder.fulltext_posting_term) in E2. rewrite !posting_row_term in E2. injection E2 as E2. by apply encode_term_inj.
Qed.

Lemma rows_terms_visible rows tes : rows_terms tid ff type_name field_name rows tes ->
  rows_terms tid ff type_name field_name (List.filter row_visible rows) (List.filter te_visible tes).
Proof. apply Forall2_filter. intros row te [_ H]. by apply row_entry_id in H. Qed.

Lemma groups_same p per1 per2 : groups_of r1 type_name field_name tid ff p per1 -> groups_of r2 type_name field_name tid ff p per2 ->
  visible_terms V per1 = visible_terms V per2.
Proof.
  intros (tes1 & ts1 & H1%rows_terms_visible & S1 & I1 & ->) (tes2 & ts2 & H2%rows_terms_visible & S2 & I2 & ->).
  unfold prefix_rows, KeyBuilder.fulltext_term_prefix in *. fold (KeyBuilder.fulltext_field_prefix tid (ff_field_id ff) (ff_generation ff)) in *.
  rewrite <- (visible_rows_same (encode_term_prefix p)) in H2. pose proof (rows_terms_functional _ _ _ H1 H2) as E. rewrite !visible_groups, <- E. f_equal.
  assert (Hmem : forall tes ts, (forall t, In t ts <-> In t (map fst tes)) -> forall t,
    In t (List.filter (fun t => nonempty (select t (List.filter te_visible tes))) ts) <-> In t (map fst (List.filter te_visible tes))).
  { intros tes ts Hts t. rewrite filter_In, Hts. assert (Hn : nonempty (select t (List.filter te_visible tes)) = true <-> In t (map fst (List.filter te_visible tes))).
    { pose proof (select_nil t (List.filter te_visible tes)) as Hs. destruct (select t (List.filter te_visible tes)) eqn:Es; cbn [nonempty].
      - split; [done|]. intros Hin. by apply Hs in Hin.
      - split; [|done]. intros _. destruct (in_dec (fun a b => decide (a = b)) t (map fst (List.filter te_visible tes))); [done|]. by apply Hs in n. }
    rewrite Hn. split; [by intros [_ ?]|]. intros Hin. split; [|done]. apply in_map_iff in Hin as (te & <- & Hte). apply filter_In in Hte as [Hte _]. by apply in_map. }
  apply tsorted_ext; [by apply tsorted_filter..|]. intros t. rewrite (Hmem tes1 ts1 I1 t). rewrite E. symmetry. apply (Hmem tes2 ts2 I2 t).
Qed.
End two.

(** ** Candidates *)

Variable db : Database.
Hypothesis Htid : resolve_type_id db type_name = EOk tid.
Hypothesis Hff : fulltext_field db type_name field_name = Some ff.
Hypothesis Hstar : forall text keep t, In t (a_tokens (analyze_opts (ff_analyzer ff) text keep)) -> starless (t_term t).

(** What the candidates of a query are made of. *)
Lemma candidates_collected state r clock raw docs limits fuel n text fc : chunks_ok r raw -> index_holds tid ff docs (rd_map r) -> (List.length raw < fuel)%nat ->
  fulltext_candidates db state r clock type_name field_name limits fuel n text = EOk fc ->
  exists co, parse_query (ff_analyzer ff) text = SOk (fc_parsed fc) /\ query_ok starless (fc_parsed fc) /\
    collected_ok r type_name field_name limits tid ff docs (fc_parsed fc) co (distinct_terms (fc_parsed fc)) /\
    fc_postings fc = co_postings co /\ fc_prefix_terms fc = co_prefix_terms co /\ fc_type_name fc = type_name /\ fc_field_name fc = field_name.
Proof.
  intros Hc Hix Hf. unfold fulltext_candidates. rewrite Htid, Hff. cbn [mbind eres_bind]. destruct (negb (fs_built (state ff))); [done|].
  destruct (parse_query (ff_analyzer ff) text) as [q| |] eqn:Eq; cbn [mbind eres_bind]; [|done..]. destruct (needs_positions q && negb (ff_positions ff)); [done|].
  destruct (parse_query_wf starless (ff_analyzer ff) Hstar text) as [_ Hwf]. destruct (Hwf q Eq) as [_ Hq].
  pose proof (collect_keys_ok r clock raw type_name field_name limits tid ff docs q Hc Hix Hq fuel (distinct_terms q) Hf
    (fun key => proj1 (distinct_terms_in q key)) {| co_postings := []; co_prefix_terms := []; co_scanned := 0; co_reads := n |} []) as Hco.
  specialize (Hco ltac:(split; [apply bsorted_nil|apply bsorted_nil|done..|by intros ? [[??]|[??]]])). rewrite app_nil_r in Hco.
  destruct (collect_keys _ _ _ _ _ _ _ _ _ _ _) as [co|e| |]; cbn [mbind eres_bind]; [|done..]. intros [= <-]. exists co. cbn. split_and!; try done.
  destruct Hco as [H1 H2 H3 H4 H5 H6 H7 H8]. split; [done..| |].
  - intros key Hkey. apply H7. by apply in_rev in Hkey.
  - intros key Hkey. by apply in_rev, H8.
Qed.

Lemma collected_candidates r limits docs fc co : query_ok starless (fc_parsed fc) -> fc_postings fc = co_postings co ->
  collected_ok r type_name field_name limits tid ff docs (fc_parsed fc) co (distinct_terms (fc_parsed fc)) -> candidates_ok fc.
Proof.
  intros [Hq1 Hq2] Ep [H1 H2 H3 _ _ _ _ _]. split; rewrite ?Ep; [done|intros key l Hl; by apply H3 in Hl as (_ & ? & _)|].
  split; [|done]. eapply Forall_impl; [exact Hq1|]. intros c. unfold clause_ok, term_ok. destruct (c_prefix c).
  - intros (p & A & B & [C1 _] & D & E). by exists p.
  - intros (A & B & C & D). split_and!; [done| |done|done]. eapply Forall_impl; [exact B|]. by intros t [? _].
Qed.

(** What two stores show of the candidates of a query. *)
Lemma collected_lookup r limits docs q co key : collected_ok r type_name field_name limits tid ff docs q co (distinct_terms q) ->
  if bool_decide (key ∈ distinct_terms q /\ strip_star key = None)
  then exists l, bm_get key (co_postings co) = Some l /\ decodes type_name field_name (existsb (beqb key) (phrase_terms q)) (term_rows r tid ff key) l
  else bm_get key (co_postings co) = None.
Proof.
  intros [_ _ Hl _ Hd _ Hk Ho]. case_bool_decide as Hb.
  - destruct Hb as [Hin%list_elem_of_In Hs]. specialize (Hk key Hin). rewrite Hs in Hk. destruct Hk as [l El]. exists l. split; [done|]. by apply Hd.
  - destruct (bm_get key (co_postings co)) as [l|] eqn:El; [|done]. exfalso. apply Hb. split; [apply list_elem_of_In, Ho; left; by eexists|]. by apply Hl in El as (? & _).
Qed.

Lemma collected_prefix r limits docs q co key : collected_ok r type_name field_name limits tid ff docs q co (distinct_terms q) ->
  match strip_star key with
  | Some p => if bool_decide (key ∈ distinct_terms q) then exists per, bm_get key (co_prefix_terms co) = Some per /\ groups_of r type_name field_name tid ff p per
      else bm_get key (co_prefix_terms co) = None
  | None => bm_get key (co_prefix_terms co) = None
  end.
Proof.
  intros [_ _ _ _ _ Hg Hk Ho]. destruct (strip_star key) as [p|] eqn:Es.
  - case_bool_decide as Hb.
    + apply list_elem_of_In in Hb. specialize (Hk key Hb). rewrite Es in Hk. destruct Hk as [per Ep]. exists per. split; [done|]. destruct (Hg key per Ep) as (p' & E' & ?). congruence.
    + destruct (bm_get key (co_prefix_terms co)) eqn:E; [|done]. exfalso. apply Hb, list_elem_of_In, Ho. right. by eexists.
  - destruct (bm_get key (co_prefix_terms co)) as [per|] eqn:E; [|done]. apply Hg in E as (p & E & _). congruence.
Qed.

Lemma collected_view docs1 docs2 r1 r2 : index_holds tid ff docs1 (rd_map r1) -> index_holds tid ff docs2 (rd_map r2) ->
  (forall o, o ∈ V -> zget o docs1 = zget o docs2) -> forall limits1 limits2 c1 c2 co1 co2, fc_parsed c1 = fc_parsed c2 ->
  collected_ok r1 type_name field_name limits1 tid ff docs1 (fc_parsed c1) co1 (distinct_terms (fc_parsed c1)) ->
  collected_ok r2 type_name field_name limits2 tid ff docs2 (fc_parsed c2) co2 (distinct_terms (fc_parsed c2)) ->
  fc_postings c1 = co_postings co1 -> fc_postings c2 = co_postings co2 -> fc_prefix_terms c1 = co_prefix_terms co1 -> fc_prefix_terms c2 = co_prefix_terms co2 ->
  fc_type_name c1 = fc_type_name c2 -> fc_field_name c1 = fc_field_name c2 -> same_view V c1 c2.
Proof.
  intros Hix1 Hix2 Hagree limits1 limits2 c1 c2 co1 co2 Eq H1 H2 A1 A2 B1 B2 Et Ef. split; [done..| |].
  - intros key. rewrite A1, A2. pose proof (collected_lookup _ _ _ _ _ key H1) as G1. pose proof (collected_lookup _ _ _ _ _ key H2) as G2.
    rewrite <- Eq in G2. case_bool_decide; [|by rewrite G1, G2]. destruct G1 as (l1 & -> & D1), G2 as (l2 & -> & D2). cbn [default].
    by apply (term_list_same docs1 docs2 r1 r2 Hix1 Hix2 Hagree _ key l1 l2 D1 D2).
  - rewrite B1, B2. apply (bsorted_forall2 (fun x y => visible_terms V x = visible_terms V y)); [apply H1|apply H2|]. intros key.
    pose proof (collected_prefix _ _ _ _ _ key H1) as G1. pose proof (collected_prefix _ _ _ _ _ key H2) as G2. rewrite <- Eq in G2.
    destruct (strip_star key) as [p|]; [|by rewrite G1, G2]. case_bool_decide; [|by rewrite G1, G2].
    destruct G1 as (per1 & -> & D1), G2 as (per2 & -> & D2). by apply (groups_same docs1 docs2 r1 r2 Hix1 Hix2 Hagree p).
Qed.

End hidden.

(** ** Witness *)

(** The notes with the second one, hidden, rewritten and a hidden fourth added. *)
Definition other_notes : list (Z * bytes) := [(1, bs "a red camera"); (2, bs "red camel camera red"); (3, bs "a blue car"); (4, bs "red red camp")].

Definition other_store : bmap bytes := bm_insert_all (document_rows (T := plain_text) 2 note_field other_notes) [].

Definition other_state (_ : FulltextField) : FieldState := {| fs_stats := {| doc_count := 4; total_tokens := 14 |}; fs_built := true |}.

Lemma other_index : index_holds (T := plain_text) 2 note_field other_notes other_store.
Proof.
  apply documents_indexed.
  - apply (bool_decide_unpack (NoDup _)). by vm_compute.
  - intros o x Hin. unfold other_notes in Hin. unfold is_u64. repeat (destruct Hin as [[= <- <-]|Hin]; [lia|]). done.
Qed.

Definition reader_limits : FulltextLimits := {| max_postings := None; fl_deadline := None; defer_prefix_cap := true |}.

Definition note_candidates : eres FulltextCandidates := fulltext_candidates (T := plain_text) note_db note_state (map_reader note_store) (fun _ => 0)
  (bs "Note") (bs "text") reader_limits 20 0 (bs "red +cam*").

Definition other_candidates : eres FulltextCandidates := fulltext_candidates (T := plain_text) note_db other_state (map_reader other_store) (fun _ => 0)
  (bs "Note") (bs "text") reader_limits 30 0 (bs "red +cam*").

