(* ===== verification/CatalogCodec.v ===== *)
(** * The rows of the catalog (crates/rhypedb-engine/src/catalog.rs)

    The catalog keeps, under its own key prefix, the numeric id of every type,
    field and relation, the counters the ids come from, and the plans of
    field-type migrations.  This file holds the data and the codecs: an id entry
    and a plan are sequences of tagged values behind a header, counters and
    cursors have a fixed layout. *)

From Stdlib Require Import ZArith Lia Bool List Strings.Byte Strings.String.
From stdpp Require Import base tactics option list.
From S2P Require Import Prelude Utf8 Values Schema.

Local Open Scope Z_scope.

(** ** Errors *)

(** The row an error is about is left out; [EntryKind] is its kind. *)
Inductive EntryKind := KType | KField | KRelation.

Inductive CatalogError :=
| UnsupportedFormat (got : Z)
| UnsupportedRecordFormat (got : Z)
| UnknownValueKind (tag : Z)
| WrongValueKind (got_tag : Z)
| Truncated
| DuplicateTlv (tag : Z)
| MissingRequiredTlv (tag : Z)
| MissingRequiredKey (key : bytes)
| MalformedKey
| SchemaShrinkRequiresOptIn (dropped_types dropped_fields dropped_rels : list bytes)
| NameReuseOfRetiredEntry (kind : EntryKind) (name : bytes) (retired_id : Z)
| TombstoneOnV1Catalog (kind : EntryKind) (id : Z)
| UnknownTombstoneStatus (status : Z)
| UnknownRetireReason (reason : Z)
| UnknownMigrationStatus (status : Z)
| MalformedMigrationPlan
| EmptyRenameChain
| RenameChainOverCap (count : Z)
| EmptyTypeChangeChain
| TypeChangeChainOverCap (count : Z)
| FieldKindChanged (qualified : bytes) (was now : Z)
| DuplicateId (kind : EntryKind) (id : Z)
| CounterOverflow (kind : EntryKind)
| ReservedByteInIdentifier (name : bytes)
| ReservedDoubleUnderscoreInIdentifier (name : bytes)
| ConcurrentInit.

Inductive cres (A : Type) := COk (a : A) | CErr (e : CatalogError).
Arguments COk {A} a.
Arguments CErr {A} e.

#[global] Instance cres_bind : MBind cres := fun A B f m => match m with COk a => f a | CErr e => CErr e end.
#[global] Instance cres_ret : MRet cres := @COk.

Lemma cbind_ok {A B} (m : cres A) (f : A -> cres B) b : m ≫= f = COk b -> exists a, m = COk a /\ f a = COk b.
Proof. destruct m; cbn; [eauto|done]. Qed.

Definition cguard (b : bool) (e : CatalogError) : cres unit := if b then COk tt else CErr e.

Definition require {A} (o : option A) (e : CatalogError) : cres A := match o with Some a => COk a | None => CErr e end.

(** ** Constants *)

Definition CATALOG_FORMAT_V1 : Z := 1.
Definition CATALOG_FORMAT_V2 : Z := 2.
Definition CATALOG_FORMAT_CURRENT : Z := 5.
Definition RECORD_FORMAT_V1 : Z := 1.

Definition KIND_ID_ENTRY : Z := 1.
Definition KIND_COUNTER : Z := 2.
Definition KIND_MARKER : Z := 3.
Definition KIND_MIGRATION_PLAN : Z := 4.
Definition KIND_PARTITION_CURSOR : Z := 5.

Definition TLV_ID : Z := 1.
Definition TLV_ASSIGNED_AT : Z := 2.
Definition TLV_ASSIGNED_BY : Z := 3.
Definition TLV_KIND : Z := 4.
Definition TLV_STATUS : Z := 16.
Definition TLV_RETIRED_AT_MS : Z := 17.
Definition TLV_RETIRED_REASON : Z := 19.
Definition TLV_PREVIOUS_NAMES : Z := 32.
Definition TLV_LAST_RENAMED_AT_MS : Z := 33.
Definition TLV_TYPE_CHANGE_HISTORY : Z := 48.
Definition TLV_LAST_TYPE_CHANGE_AT_MS : Z := 49.

Definition ASSIGNED_BY_BACKFILL : Z := 0.
Definition ASSIGNED_BY_FRESH : Z := 1.
Definition STATUS_LIVE : Z := 0.
Definition STATUS_TOMBSTONED : Z := 1.
Definition REASON_EXPLICIT_SHRINK : Z := 1.
Definition REASON_CASCADE_PARENT_RETIRED : Z := 2.

Definition MAX_TYPE_CHANGE_HISTORY : Z := 16.
Definition MAX_RENAME_HISTORY : Z := 32.

(** ** Kinds of fields *)

Definition KIND_UNSET : Z := 0.
Definition KIND_RELATION : Z := 128.

Definition scalar_kind (s : ScalarType) : Z :=
  match s with
  | TString => 1 | TU32 => 2 | TU64 => 3 | TI32 => 4 | TI64 => 5 | TF32 => 6 | TF64 => 7
  | TBool => 8 | TDateTime => 9 | TBytes => 10 | TJson => 11
  end.

Definition schema_kind_byte (ft : FieldType) : Z :=
  match ft with Scalar s => scalar_kind s | VectorT _ => 64 | Relation _ => KIND_RELATION end.

Definition scalar_type_from_kind (k : Z) : option ScalarType :=
  match k with
  | 1 => Some TString | 2 => Some TU32 | 3 => Some TU64 | 4 => Some TI32 | 5 => Some TI64 | 6 => Some TF32 | 7 => Some TF64
  | 8 => Some TBool | 9 => Some TDateTime | 10 => Some TBytes | 11 => Some TJson | _ => None
  end.

(** ** Id entries *)

Inductive TombstoneStatus := Live | Tombstoned.
Inductive RetireReason := ExplicitShrink | CascadeParentRetired.

#[global] Instance TombstoneStatus_eq : EqDecision TombstoneStatus.
Proof. solve_decision. Defined.

Record RenameRecord := { rr_from : bytes; rr_to : bytes; rr_wall_time_unix_ms : Z }.
Record TypeChangeRecord := { tc_from_kind : Z; tc_to_kind : Z; tc_wall_time_unix_ms : Z }.

Record IdEntry := {
  ie_id : Z;
  ie_assigned_at : Z;
  ie_assigned_by : Z;
  ie_kind : Z;
  ie_status : TombstoneStatus;
  ie_retired_at_ms : option Z;
  ie_retired_reason : option RetireReason;
  ie_previous_names : list RenameRecord;
  ie_last_renamed_at_ms : option Z;
  ie_type_change_history : list TypeChangeRecord;
  ie_last_type_change_at_ms : option Z;
  ie_unknown_tlvs : list (Z * bytes);
}.

Definition new_entry (id kind now_ms by_ : Z) : IdEntry := {|
  ie_id := id; ie_assigned_at := now_ms; ie_assigned_by := by_; ie_kind := kind; ie_status := Live; ie_retired_at_ms := None;
  ie_retired_reason := None; ie_previous_names := []; ie_last_renamed_at_ms := None; ie_type_change_history := [];
  ie_last_type_change_at_ms := None; ie_unknown_tlvs := [] |}.

Definition entry_fresh (id kind now_ms : Z) : IdEntry := new_entry id kind now_ms ASSIGNED_BY_FRESH.
Definition entry_backfilled (id kind now_ms : Z) : IdEntry := new_entry id kind now_ms ASSIGNED_BY_BACKFILL.

Definition entry_tombstone (now_ms : Z) (reason : RetireReason) (e : IdEntry) : IdEntry := {|
  ie_id := ie_id e; ie_assigned_at := ie_assigned_at e; ie_assigned_by := ie_assigned_by e; ie_kind := ie_kind e;
  ie_status := Tombstoned; ie_retired_at_ms := Some now_ms; ie_retired_reason := Some reason;
  ie_previous_names := ie_previous_names e; ie_last_renamed_at_ms := ie_last_renamed_at_ms e;
  ie_type_change_history := ie_type_change_history e; ie_last_type_change_at_ms := ie_last_type_change_at_ms e;
  ie_unknown_tlvs := ie_unknown_tlvs e |}.

(** ** Tagged values *)

Definition write_tlv (tag : Z) (value : bytes) : bytes := [z2b tag] ++ be16 (as_u16 (len value)) ++ value.

Definition write_tlvs (ts : list (Z * bytes)) : bytes := List.concat (map (fun t => write_tlv (fst t) (snd t)) ts).

Definition opt_tlv {A} (tag : Z) (enc : A -> bytes) (o : option A) : list (Z * bytes) :=
  match o with Some a => [(tag, enc a)] | None => [] end.

Definition reason_byte (r : RetireReason) : Z :=
  match r with ExplicitShrink => REASON_EXPLICIT_SHRINK | CascadeParentRetired => REASON_CASCADE_PARENT_RETIRED end.

Definition u8_value (x : Z) : bytes := [z2b x].

Definition enc_rename (r : RenameRecord) : bytes :=
  be16 (as_u16 (len (rr_from r))) ++ rr_from r ++ be16 (as_u16 (len (rr_to r))) ++ rr_to r ++ be64 (rr_wall_time_unix_ms r).

Definition enc_rename_chain (l : list RenameRecord) : bytes := [z2b (Z.of_nat (List.length l))] ++ List.concat (map enc_rename l).

Definition enc_type_change (r : TypeChangeRecord) : bytes := [z2b (tc_from_kind r); z2b (tc_to_kind r)] ++ be64 (tc_wall_time_unix_ms r).

Definition enc_type_change_chain (l : list TypeChangeRecord) : bytes :=
  [z2b (Z.of_nat (List.length l))] ++ List.concat (map enc_type_change l).

(** The values of an id entry in the order they are written. *)
Definition id_entry_tlvs (e : IdEntry) : list (Z * bytes) :=
  [(TLV_ID, be64 (ie_id e)); (TLV_ASSIGNED_AT, be64 (ie_assigned_at e)); (TLV_ASSIGNED_BY, u8_value (ie_assigned_by e)); (TLV_KIND, u8_value (ie_kind e))]
  ++ match ie_status e with
     | Tombstoned => [(TLV_STATUS, u8_value STATUS_TOMBSTONED)] ++ opt_tlv TLV_RETIRED_AT_MS be64 (ie_retired_at_ms e)
         ++ opt_tlv TLV_RETIRED_REASON (fun r => u8_value (reason_byte r)) (ie_retired_reason e)
     | Live => []
     end
  ++ match ie_previous_names e with
     | [] => []
     | l => [(TLV_PREVIOUS_NAMES, enc_rename_chain l)] ++ opt_tlv TLV_LAST_RENAMED_AT_MS be64 (ie_last_renamed_at_ms e)
     end
  ++ match ie_type_change_history e with
     | [] => []
     | l => [(TLV_TYPE_CHANGE_HISTORY, enc_type_change_chain l)] ++ opt_tlv TLV_LAST_TYPE_CHANGE_AT_MS be64 (ie_last_type_change_at_ms e)
     end
  ++ ie_unknown_tlvs e.

(** The header of a record with a body. *)
Definition framed (kind : Z) (body : bytes) : bytes := [z2b RECORD_FORMAT_V1; z2b kind] ++ be16 (as_u16 (len body)) ++ body.

Definition encode_id_entry (e : IdEntry) : bytes := framed KIND_ID_ENTRY (write_tlvs (id_entry_tlvs e)).

(** *** Reading them *)

(** The first [n] bytes, when they are there. *)
Definition split_at (n : Z) (bs : bytes) : option (bytes * bytes) :=
  if len bs <? n then None else Some (take (Z.to_nat n) bs, drop (Z.to_nat n) bs).

Definition read_u64 (value : bytes) : cres Z := if len value =? 8 then COk (from_be value) else CErr Truncated.
Definition read_u32 (value : bytes) : cres Z := if len value =? 4 then COk (from_be value) else CErr Truncated.
Definition read_u8 (value : bytes) : cres Z := if len value =? 1 then COk (from_be value) else CErr Truncated.

(** The checks of the header and the body behind it; [others] are the kinds
    that are known but belong to other rows. *)
Definition unframe (kind : Z) (others : list Z) (bs : bytes) : cres bytes :=
  match split_at 4 bs with
  | Some ([f; k; l1; l2], rest) =>
      _ ← cguard (b2z f =? RECORD_FORMAT_V1) (UnsupportedRecordFormat (b2z f));
      _ ← cguard (b2z k =? kind)
            (if existsb (Z.eqb (b2z k)) others then WrongValueKind (b2z k) else UnknownValueKind (b2z k));
      '(body, _) ← require (split_at (from_be [l1; l2]) rest) Truncated;
      COk body
  | _ => CErr Truncated
  end.

Section walk.
Context {St : Type}.
Variable step : St -> Z -> bytes -> cres St.

(** The loop over the values; [seen] is the bit set of the tags below 128. *)
Fixpoint walk_tlvs (fuel : nat) (body : bytes) (seen : Z) (st : St) : cres St :=
  match fuel, body with
  | _, [] => COk st
  | S fuel, t :: rest =>
      '(l, rest) ← require (split_at 2 rest) Truncated;
      '(value, rest) ← require (split_at (from_be l) rest) Truncated;
      let tag := b2z t in
      seen ← (if tag <? 128 then if Z.testbit seen tag then CErr (DuplicateTlv tag) else COk (Z.lor seen (Z.shiftl 1 tag)) else COk seen);
      st ← step st tag value;
      walk_tlvs fuel rest seen st
  | O, _ => CErr Truncated
  end.
End walk.

(** *** The chains *)

Definition read_name (bs : bytes) : cres (bytes * bytes) :=
  '(l, bs) ← require (split_at 2 bs) Truncated;
  '(name, bs) ← require (split_at (from_be l) bs) Truncated;
  if utf8_valid name then COk (name, bs) else CErr MalformedKey.

Fixpoint rename_records (count : nat) (bs : bytes) : cres (list RenameRecord) :=
  match count with
  | O => COk []
  | S count =>
      '(from, bs) ← read_name bs;
      '(to, bs) ← read_name bs;
      '(ms, bs) ← require (split_at 8 bs) Truncated;
      rest ← rename_records count bs;
      COk ({| rr_from := from; rr_to := to; rr_wall_time_unix_ms := from_be ms |} :: rest)
  end.

Definition decode_rename_chain (value : bytes) : cres (list RenameRecord) :=
  match value with
  | [] => CErr Truncated
  | c :: rest =>
      let count := b2z c in
      _ ← cguard (negb (count =? 0)) EmptyRenameChain;
      _ ← cguard (count <=? MAX_RENAME_HISTORY) (RenameChainOverCap count);
      rename_records (Z.to_nat count) rest
  end.

Fixpoint type_change_records (count : nat) (bs : bytes) : list TypeChangeRecord :=
  match count, bs with
  | S count, f :: t :: rest =>
      {| tc_from_kind := b2z f; tc_to_kind := b2z t; tc_wall_time_unix_ms := from_be (take 8 rest) |} :: type_change_records count (drop 8 rest)
  | _, _ => []
  end.

Definition decode_type_change_chain (value : bytes) : cres (list TypeChangeRecord) :=
  match value with
  | [] => CErr Truncated
  | c :: rest =>
      let count := b2z c in
      _ ← cguard (negb (count =? 0)) EmptyTypeChangeChain;
      _ ← cguard (count <=? MAX_TYPE_CHANGE_HISTORY) (TypeChangeChainOverCap count);
      _ ← cguard (1 + count * 10 <=? len value) Truncated;
      COk (type_change_records (Z.to_nat count) rest)
  end.

(** *** The entry *)

(** What the loop has read so far. *)
Record IdFields := {
  f_id : option Z;
  f_assigned_at : option Z;
  f_assigned_by : option Z;
  f_kind : option Z;
  f_status : TombstoneStatus;
  f_retired_at_ms : option Z;
  f_retired_reason : option RetireReason;
  f_previous_names : list RenameRecord;
  f_last_renamed_at_ms : option Z;
  f_type_change_history : list TypeChangeRecord;
  f_last_type_change_at_ms : option Z;
  f_unknown : list (Z * bytes);
}.

Definition no_fields : IdFields := {|
  f_id := None; f_assigned_at := None; f_assigned_by := None; f_kind := None; f_status := Live; f_retired_at_ms := None;
  f_retired_reason := None; f_previous_names := []; f_last_renamed_at_ms := None; f_type_change_history := [];
  f_last_type_change_at_ms := None; f_unknown := [] |}.

Definition status_from_byte (b : Z) : cres TombstoneStatus :=
  if b =? STATUS_LIVE then COk Live else if b =? STATUS_TOMBSTONED then COk Tombstoned else CErr (UnknownTombstoneStatus b).

Definition reason_from_byte (b : Z) : cres RetireReason :=
  if b =? REASON_EXPLICIT_SHRINK then COk ExplicitShrink
  else if b =? REASON_CASCADE_PARENT_RETIRED then COk CascadeParentRetired else CErr (UnknownRetireReason b).

Definition id_step (st : IdFields) (tag : Z) (value : bytes) : cres IdFields :=
  let '(Build_IdFields i a b k s ra rr pn lr th lt u) := st in
  if tag =? TLV_ID then x ← read_u64 value; COk (Build_IdFields (Some x) a b k s ra rr pn lr th lt u)
  else if tag =? TLV_ASSIGNED_AT then x ← read_u64 value; COk (Build_IdFields i (Some x) b k s ra rr pn lr th lt u)
  else if tag =? TLV_ASSIGNED_BY then x ← read_u8 value; COk (Build_IdFields i a (Some x) k s ra rr pn lr th lt u)
  else if tag =? TLV_KIND then x ← read_u8 value; COk (Build_IdFields i a b (Some x) s ra rr pn lr th lt u)
  else if tag =? TLV_STATUS then x ← read_u8 value; x ← status_from_byte x; COk (Build_IdFields i a b k x ra rr pn lr th lt u)
  else if tag =? TLV_RETIRED_AT_MS then x ← read_u64 value; COk (Build_IdFields i a b k s (Some x) rr pn lr th lt u)
  else if tag =? TLV_RETIRED_REASON then
    x ← read_u8 value; x ← reason_from_byte x; COk (Build_IdFields i a b k s ra (Some x) pn lr th lt u)
  else if tag =? TLV_PREVIOUS_NAMES then x ← decode_rename_chain value; COk (Build_IdFields i a b k s ra rr x lr th lt u)
  else if tag =? TLV_LAST_RENAMED_AT_MS then x ← read_u64 value; COk (Build_IdFields i a b k s ra rr pn (Some x) th lt u)
  else if tag =? TLV_TYPE_CHANGE_HISTORY then x ← decode_type_change_chain value; COk (Build_IdFields i a b k s ra rr pn lr x lt u)
  else if tag =? TLV_LAST_TYPE_CHANGE_AT_MS then x ← read_u64 value; COk (Build_IdFields i a b k s ra rr pn lr th (Some x) u)
  else COk (Build_IdFields i a b k s ra rr pn lr th lt (u ++ [(tag, value)])).

Definition is_none {A} (o : option A) : bool := match o with None => true | Some _ => false end.

Definition finish_id_entry (st : IdFields) : cres IdEntry :=
  id ← require (f_id st) (MissingRequiredTlv TLV_ID);
  assigned_at ← require (f_assigned_at st) (MissingRequiredTlv TLV_ASSIGNED_AT);
  assigned_by ← require (f_assigned_by st) (MissingRequiredTlv TLV_ASSIGNED_BY);
  kind ← require (f_kind st) (MissingRequiredTlv TLV_KIND);
  _ ← match f_status st with
      | Live => COk tt
      | Tombstoned =>
          _ ← cguard (negb (is_none (f_retired_at_ms st))) (MissingRequiredTlv TLV_RETIRED_AT_MS);
          cguard (negb (is_none (f_retired_reason st))) (MissingRequiredTlv TLV_RETIRED_REASON)
      end;
  COk {| ie_id := id; ie_assigned_at := assigned_at; ie_assigned_by := assigned_by; ie_kind := kind; ie_status := f_status st;
         ie_retired_at_ms := f_retired_at_ms st; ie_retired_reason := f_retired_reason st; ie_previous_names := f_previous_names st;
         ie_last_renamed_at_ms := f_last_renamed_at_ms st; ie_type_change_history := f_type_change_history st;
         ie_last_type_change_at_ms := f_last_type_change_at_ms st; ie_unknown_tlvs := f_unknown st |}.

Definition decode_id_entry (bs : bytes) : cres IdEntry :=
  body ← unframe KIND_ID_ENTRY [KIND_COUNTER; KIND_MARKER; KIND_MIGRATION_PLAN] bs;
  st ← walk_tlvs id_step (List.length body) body 0 no_fields;
  finish_id_entry st.

(** ** Counters, marker, format *)

Definition encode_counter (value : Z) : bytes := [z2b RECORD_FORMAT_V1; z2b KIND_COUNTER] ++ be64 value.

Definition decode_counter (bs : bytes) : cres Z :=
  match bs with
  | f :: k :: rest =>
      if len bs <? 10 then CErr Truncated
      else
        _ ← cguard (b2z f =? RECORD_FORMAT_V1) (UnsupportedRecordFormat (b2z f));
        _ ← cguard (b2z k =? KIND_COUNTER) (WrongValueKind (b2z k));
        COk (from_be (take 8 rest))
  | _ => CErr Truncated
  end.

Definition encode_marker (now_ms : Z) : bytes := [z2b RECORD_FORMAT_V1; z2b KIND_MARKER] ++ be64 now_ms.

Definition encode_format_version (v : Z) : bytes := be64 v.

Definition decode_format_version (bs : bytes) : cres Z := if len bs =? 8 then COk (from_be bs) else CErr Truncated.

(** ** Migration plans *)

Definition TLV_MP_TYPE_NAME : Z := 1.
Definition TLV_MP_FIELD_NAME : Z := 2.
Definition TLV_MP_FIELD_ID : Z := 3.
Definition TLV_MP_SRC_KIND : Z := 4.
Definition TLV_MP_TARGET_KIND : Z := 5.
Definition TLV_MP_STATUS : Z := 6.
Definition TLV_MP_CURSOR : Z := 7.
Definition TLV_MP_CHUNK_SIZE : Z := 8.
Definition TLV_MP_CREATED_AT_MS : Z := 9.
Definition TLV_MP_CONVERTER_NAME : Z := 10.
Definition TLV_MP_CONVERTER_VERSION : Z := 11.
Definition TLV_MP_OBJECTS_CONVERTED : Z := 12.
Definition TLV_MP_PHASE : Z := 32.
Definition TLV_MP_CUTOVER_CURSOR : Z := 33.
Definition TLV_MP_PARALLEL_DEGREE : Z := 34.
Definition TLV_MP_ID_UPPER_BOUND : Z := 35.
Definition TLV_MP_ERROR_POLICY : Z := 36.
Definition TLV_MP_DRY_RUN : Z := 37.
Definition TLV_MP_ERROR_COUNT : Z := 38.
Definition TLV_MP_QUARANTINE_CAP : Z := 39.

Definition DEFAULT_QUARANTINE_CAP : Z := 100000.
Definition MAX_PARALLEL_DEGREE : Z := 64.

Inductive MigrationStatus := Pending | Running | Completed | Cancelled | Failed | AwaitingConverter | DryRunCompleted.
Inductive ErrorPolicy := PolicyStop | PolicySkipAndLog | PolicyQuarantine.
Inductive MigrationPhase := Converting | CuttingOver | RollingBack.

Definition status_to_byte (s : MigrationStatus) : Z :=
  match s with Pending => 0 | Running => 1 | Completed => 2 | Cancelled => 3 | Failed => 4 | AwaitingConverter => 5 | DryRunCompleted => 6 end.

Definition migration_status_from_byte (b : Z) : option MigrationStatus :=
  match b with
  | 0 => Some Pending | 1 => Some Running | 2 => Some Completed | 3 => Some Cancelled | 4 => Some Failed
  | 5 => Some AwaitingConverter | 6 => Some DryRunCompleted | _ => None
  end.

Definition is_terminal (s : MigrationStatus) : bool :=
  match s with Completed | Cancelled | Failed | DryRunCompleted => true | _ => false end.

Definition quiesces (s : MigrationStatus) : bool :=
  match s with Completed | Cancelled | DryRunCompleted => false | _ => true end.

Definition is_drivable (s : MigrationStatus) : bool := match s with Pending | Running => true | _ => false end.

Definition policy_to_byte (p : ErrorPolicy) : Z := match p with PolicyStop => 0 | PolicySkipAndLog => 1 | PolicyQuarantine => 2 end.

Definition policy_from_byte (b : Z) : option ErrorPolicy :=
  match b with 0 => Some PolicyStop | 1 => Some PolicySkipAndLog | 2 => Some PolicyQuarantine | _ => None end.

Definition phase_to_byte (p : MigrationPhase) : Z := match p with Converting => 0 | CuttingOver => 1 | RollingBack => 2 end.

Definition phase_from_byte (b : Z) : option MigrationPhase :=
  match b with 0 => Some Converting | 1 => Some CuttingOver | 2 => Some RollingBack | _ => None end.

Record MigrationPlan := {
  mp_plan_id : Z;
  mp_type_name : bytes;
  mp_field_name : bytes;
  mp_field_id : Z;
  mp_src_kind : Z;
  mp_target_kind : Z;
  mp_status : MigrationStatus;
  mp_cursor : Z;
  mp_chunk_size : Z;
  mp_created_at_ms : Z;
  mp_converter_name : bytes;
  mp_converter_version : Z;
  mp_objects_converted : Z;
  mp_phase : MigrationPhase;
  mp_cutover_cursor : Z;
  mp_parallel_degree : option Z;
  mp_id_upper_bound : Z;
  mp_error_policy : ErrorPolicy;
  mp_dry_run : bool;
  mp_error_count : Z;
  mp_quarantine_cap : Z;
  mp_unknown_tlvs : list (Z * bytes);
}.

Definition bool_byte (b : bool) : Z := if b then 1 else 0.

Definition plan_tlvs (p : MigrationPlan) : list (Z * bytes) :=
  [(TLV_MP_TYPE_NAME, mp_type_name p);
   (TLV_MP_FIELD_NAME, mp_field_name p);
   (TLV_MP_FIELD_ID, be64 (mp_field_id p));
   (TLV_MP_SRC_KIND, u8_value (mp_src_kind p));
   (TLV_MP_TARGET_KIND, u8_value (mp_target_kind p));
   (TLV_MP_STATUS, u8_value (status_to_byte (mp_status p)));
   (TLV_MP_CURSOR, be64 (mp_cursor p));
   (TLV_MP_CHUNK_SIZE, be64 (mp_chunk_size p));
   (TLV_MP_CREATED_AT_MS, be64 (mp_created_at_ms p));
   (TLV_MP_CONVERTER_NAME, mp_converter_name p);
   (TLV_MP_CONVERTER_VERSION, be32 (mp_converter_version p));
   (TLV_MP_OBJECTS_CONVERTED, be64 (mp_objects_converted p));
   (TLV_MP_PHASE, u8_value (phase_to_byte (mp_phase p)));
   (TLV_MP_CUTOVER_CURSOR, be64 (mp_cutover_cursor p))]
  ++ match mp_parallel_degree p with
     | Some n => [(TLV_MP_PARALLEL_DEGREE, u8_value n); (TLV_MP_ID_UPPER_BOUND, be64 (mp_id_upper_bound p))]
     | None => []
     end
  ++ [(TLV_MP_ERROR_POLICY, u8_value (policy_to_byte (mp_error_policy p)));
      (TLV_MP_DRY_RUN, u8_value (bool_byte (mp_dry_run p)));
      (TLV_MP_ERROR_COUNT, be64 (mp_error_count p));
      (TLV_MP_QUARANTINE_CAP, be64 (mp_quarantine_cap p))]
  ++ mp_unknown_tlvs p.

Definition encode_migration_plan (p : MigrationPlan) : bytes := framed KIND_MIGRATION_PLAN (write_tlvs (plan_tlvs p)).

(** What the loop has read so far. *)
Record PlanFields := {
  p_type_name : option bytes;
  p_field_name : option bytes;
  p_field_id : option Z;
  p_src_kind : option Z;
  p_target_kind : option Z;
  p_status : option MigrationStatus;
  p_cursor : option Z;
  p_chunk_size : option Z;
  p_created_at_ms : option Z;
  p_converter_name : option bytes;
  p_converter_version : option Z;
  p_objects_converted : option Z;
  p_phase : option MigrationPhase;
  p_cutover_cursor : option Z;
  p_parallel_degree : option Z;
  p_id_upper_bound : option Z;
  p_error_policy : option ErrorPolicy;
  p_dry_run : option bool;
  p_error_count : option Z;
  p_quarantine_cap : option Z;
  p_unknown : list (Z * bytes);
}.

Definition no_plan_fields : PlanFields := {|
  p_type_name := None;
  p_field_name := None;
  p_field_id := None;
  p_src_kind := None;
  p_target_kind := None;
  p_status := None;
  p_cursor := None;
  p_chunk_size := None;
  p_created_at_ms := None;
  p_converter_name := None;
  p_converter_version := None;
  p_objects_converted := None;
  p_phase := None;
  p_cutover_cursor := None;
  p_parallel_degree := None;
  p_id_upper_bound := None;
  p_error_policy := None;
  p_dry_run := None;
  p_error_count := None;
  p_quarantine_cap := None;
  p_unknown := [] |}.

Definition read_str (value : bytes) : cres bytes := if utf8_valid value then COk value else CErr MalformedMigrationPlan.

Definition read_status (value : bytes) : cres MigrationStatus :=
  b ← read_u8 value; require (migration_status_from_byte b) (UnknownMigrationStatus b).

Definition read_phase (value : bytes) : cres MigrationPhase := b ← read_u8 value; require (phase_from_byte b) MalformedMigrationPlan.

Definition read_policy (value : bytes) : cres ErrorPolicy := b ← read_u8 value; require (policy_from_byte b) MalformedMigrationPlan.

(** A degree out of range is refused: its partitions could not be rebuilt. *)
Definition read_degree (value : bytes) : cres Z :=
  n ← read_u8 value; if (n =? 0) || (MAX_PARALLEL_DEGREE <? n) then CErr MalformedMigrationPlan else COk n.

Definition read_bool (value : bytes) : cres bool := b ← read_u8 value; COk (negb (b =? 0)).

Definition plan_step (st : PlanFields) (tag : Z) (value : bytes) : cres PlanFields :=
  let '(Build_PlanFields a0 a1 a2 a3 a4 a5 a6 a7 a8 a9 a10 a11 a12 a13 a14 a15 a16 a17 a18 a19 u) := st in
  if tag =? TLV_MP_TYPE_NAME then x ← read_str value; COk (Build_PlanFields (Some x) a1 a2 a3 a4 a5 a6 a7 a8 a9 a10 a11 a12 a13 a14 a15 a16 a17 a18 a19 u)
  else if tag =? TLV_MP_FIELD_NAME then x ← read_str value; COk (Build_PlanFields a0 (Some x) a2 a3 a4 a5 a6 a7 a8 a9 a10 a11 a12 a13 a14 a15 a16 a17 a18 a19 u)
  else if tag =? TLV_MP_FIELD_ID then x ← read_u64 value; COk (Build_PlanFields a0 a1 (Some x) a3 a4 a5 a6 a7 a8 a9 a10 a11 a12 a13 a14 a15 a16 a17 a18 a19 u)
  else if tag =? TLV_MP_SRC_KIND then x ← read_u8 value; COk (Build_PlanFields a0 a1 a2 (Some x) a4 a5 a6 a7 a8 a9 a10 a11 a12 a13 a14 a15 a16 a17 a18 a19 u)
  else if tag =? TLV_MP_TARGET_KIND then x ← read_u8 value; COk (Build_PlanFields a0 a1 a2 a3 (Some x) a5 a6 a7 a8 a9 a10 a11 a12 a13 a14 a15 a16 a17 a18 a19 u)
  else if tag =? TLV_MP_STATUS then x ← read_status value; COk (Build_PlanFields a0 a1 a2 a3 a4 (Some x) a6 a7 a8 a9 a10 a11 a12 a13 a14 a15 a16 a17 a18 a19 u)
  else if tag =? TLV_MP_CURSOR then x ← read_u64 value; COk (Build_PlanFields a0 a1 a2 a3 a4 a5 (Some x) a7 a8 a9 a10 a11 a12 a13 a14 a15 a16 a17 a18 a19 u)
  else if tag =? TLV_MP_CHUNK_SIZE then x ← read_u64 value; COk (Build_PlanFields a0 a1 a2 a3 a4 a5 a6 (Some x) a8 a9 a10 a11 a12 a13 a14 a15 a16 a17 a18 a19 u)
  else if tag =? TLV_MP_CREATED_AT_MS then x ← read_u64 value; COk (Build_PlanFields a0 a1 a2 a3 a4 a5 a6 a7 (Some x) a9 a10 a11 a12 a13 a14 a15 a16 a17 a18 a19 u)
  else if tag =? TLV_MP_CONVERTER_NAME then x ← read_str value; COk (Build_PlanFields a0 a1 a2 a3 a4 a5 a6 a7 a8 (Some x) a10 a11 a12 a13 a14 a15 a16 a17 a18 a19 u)
  else if tag =? TLV_MP_CONVERTER_VERSION then x ← read_u32 value; COk (Build_PlanFields a0 a1 a2 a3 a4 a5 a6 a7 a8 a9 (Some x) a11 a12 a13 a14 a15 a16 a17 a18 a19 u)
  else if tag =? TLV_MP_OBJECTS_CONVERTED then x ← read_u64 value; COk (Build_PlanFields a0 a1 a2 a3 a4 a5 a6 a7 a8 a9 a10 (Some x) a12 a13 a14 a15 a16 a17 a18 a19 u)
  else if tag =? TLV_MP_PHASE then x ← read_phase value; COk (Build_PlanFields a0 a1 a2 a3 a4 a5 a6 a7 a8 a9 a10 a11 (Some x) a13 a14 a15 a16 a17 a18 a19 u)
  else if tag =? TLV_MP_CUTOVER_CURSOR then x ← read_u64 value; COk (Build_PlanFields a0 a1 a2 a3 a4 a5 a6 a7 a8 a9 a10 a11 a12 (Some x) a14 a15 a16 a17 a18 a19 u)
  else if tag =? TLV_MP_PARALLEL_DEGREE then x ← read_degree value; COk (Build_PlanFields a0 a1 a2 a3 a4 a5 a6 a7 a8 a9 a10 a11 a12 a13 (Some x) a15 a16 a17 a18 a19 u)
  else if tag =? TLV_MP_ID_UPPER_BOUND then x ← read_u64 value; COk (Build_PlanFields a0 a1 a2 a3 a4 a5 a6 a7 a8 a9 a10 a11 a12 a13 a14 (Some x) a16 a17 a18 a19 u)
  else if tag =? TLV_MP_ERROR_POLICY then x ← read_policy value; COk (Build_PlanFields a0 a1 a2 a3 a4 a5 a6 a7 a8 a9 a10 a11 a12 a13 a14 a15 (Some x) a17 a18 a19 u)
  else if tag =? TLV_MP_DRY_RUN then x ← read_bool value; COk (Build_PlanFields a0 a1 a2 a3 a4 a5 a6 a7 a8 a9 a10 a11 a12 a13 a14 a15 a16 (Some x) a18 a19 u)
  else if tag =? TLV_MP_ERROR_COUNT then x ← read_u64 value; COk (Build_PlanFields a0 a1 a2 a3 a4 a5 a6 a7 a8 a9 a10 a11 a12 a13 a14 a15 a16 a17 (Some x) a19 u)
  else if tag =? TLV_MP_QUARANTINE_CAP then x ← read_u64 value; COk (Build_PlanFields a0 a1 a2 a3 a4 a5 a6 a7 a8 a9 a10 a11 a12 a13 a14 a15 a16 a17 a18 (Some x) u)
  else COk (Build_PlanFields a0 a1 a2 a3 a4 a5 a6 a7 a8 a9 a10 a11 a12 a13 a14 a15 a16 a17 a18 a19 (u ++ [(tag, value)])).

Definition finish_plan (plan_id : Z) (st : PlanFields) : cres MigrationPlan :=
  type_name ← require (p_type_name st) (MissingRequiredTlv TLV_MP_TYPE_NAME);
  field_name ← require (p_field_name st) (MissingRequiredTlv TLV_MP_FIELD_NAME);
  field_id ← require (p_field_id st) (MissingRequiredTlv TLV_MP_FIELD_ID);
  src_kind ← require (p_src_kind st) (MissingRequiredTlv TLV_MP_SRC_KIND);
  target_kind ← require (p_target_kind st) (MissingRequiredTlv TLV_MP_TARGET_KIND);
  status ← require (p_status st) (MissingRequiredTlv TLV_MP_STATUS);
  cursor ← require (p_cursor st) (MissingRequiredTlv TLV_MP_CURSOR);
  chunk_size ← require (p_chunk_size st) (MissingRequiredTlv TLV_MP_CHUNK_SIZE);
  created_at_ms ← require (p_created_at_ms st) (MissingRequiredTlv TLV_MP_CREATED_AT_MS);
  converter_name ← require (p_converter_name st) (MissingRequiredTlv TLV_MP_CONVERTER_NAME);
  converter_version ← require (p_converter_version st) (MissingRequiredTlv TLV_MP_CONVERTER_VERSION);
  objects_converted ← require (p_objects_converted st) (MissingRequiredTlv TLV_MP_OBJECTS_CONVERTED);
  COk {| mp_plan_id := plan_id;
         mp_type_name := type_name; mp_field_name := field_name; mp_field_id := field_id; mp_src_kind := src_kind; mp_target_kind := target_kind; mp_status := status;
         mp_cursor := cursor; mp_chunk_size := chunk_size; mp_created_at_ms := created_at_ms; mp_converter_name := converter_name; mp_converter_version := converter_version; mp_objects_converted := objects_converted;
         mp_phase := default Converting (p_phase st);
         mp_cutover_cursor := default 0 (p_cutover_cursor st);
         mp_parallel_degree := p_parallel_degree st;
         mp_id_upper_bound := default 0 (p_id_upper_bound st);
         mp_error_policy := default PolicyStop (p_error_policy st);
         mp_dry_run := default false (p_dry_run st);
         mp_error_count := default 0 (p_error_count st);
         mp_quarantine_cap := default DEFAULT_QUARANTINE_CAP (p_quarantine_cap st);
         mp_unknown_tlvs := p_unknown st |}.

Definition decode_migration_plan (plan_id : Z) (bs : bytes) : cres MigrationPlan :=
  body ← unframe KIND_MIGRATION_PLAN [KIND_ID_ENTRY; KIND_COUNTER; KIND_MARKER] bs;
  st ← walk_tlvs plan_step (List.length body) body 0 no_plan_fields;
  finish_plan plan_id st.

(** ** Progress of a partition *)

Record PartitionCursor := { pc_cursor : Z; pc_objects_converted : Z; pc_errors : Z; pc_done : bool }.

Definition PARTITION_CURSOR_LEN : Z := 2 + 8 + 8 + 8 + 1.

Definition encode_partition_cursor (pc : PartitionCursor) : bytes :=
  [z2b RECORD_FORMAT_V1; z2b KIND_PARTITION_CURSOR] ++ be64 (pc_cursor pc) ++ be64 (pc_objects_converted pc) ++ be64 (pc_errors pc)
  ++ [z2b (bool_byte (pc_done pc))].

Definition done_from_byte (b : Z) : cres bool :=
  if b =? 0 then COk false else if b =? 1 then COk true else CErr MalformedMigrationPlan.

Definition decode_partition_cursor (bs : bytes) : cres PartitionCursor :=
  match bs with
  | f :: k :: rest =>
      if negb (len bs =? PARTITION_CURSOR_LEN) then CErr Truncated
      else
        _ ← cguard (b2z f =? RECORD_FORMAT_V1) (UnsupportedRecordFormat (b2z f));
        _ ← cguard (b2z k =? KIND_PARTITION_CURSOR) (WrongValueKind (b2z k));
        done ← done_from_byte (from_be (drop 24 rest));
        COk {| pc_cursor := from_be (take 8 rest); pc_objects_converted := from_be (take 8 (drop 8 rest));
               pc_errors := from_be (take 8 (drop 16 rest)); pc_done := done |}
  | _ => CErr Truncated
  end.

(** The ids [lo, hi) of partition [idx] of [n] below [id_upper_bound]. *)
Definition partition_range (n id_upper_bound idx : Z) : Z * Z :=
  let n := Z.max n 1 in
  let width := Z.max 0 (id_upper_bound - 1) in
  if width =? 0 then (Z.max id_upper_bound 1, Z.max id_upper_bound 1)
  else
    let span := Z.max ((width + n - 1) / n) 1 in
    let sat x := Z.min x u64_max in
    let lo := Z.min (sat (sat (idx * span) + 1)) id_upper_bound in
    let hi := Z.min (sat (sat (sat (idx + 1) * span) + 1)) id_upper_bound in
    (lo, hi).

(** ** Round trips *)

Lemma len_to_nat_ (v : bytes) : Z.to_nat (len v) = List.length v.
Proof. unfold len. lia. Qed.

Lemma split_at_app a r n : n = len a -> split_at n (a ++ r) = Some (a, r).
Proof.
  intros ->. unfold split_at. rewrite len_app. pose proof (len_nonneg r). destruct (Z.ltb_spec (len a + len r) (len a)); [lia|].
  by rewrite len_to_nat_, take_app_length, drop_app_length.
Qed.

Lemma from_be16_len (v : bytes) : len v <= 65535 -> from_be (be16 (as_u16 (len v))) = len v.
Proof.
  intros H. pose proof (len_nonneg v). unfold as_u16. rewrite Z.mod_small by lia. apply from_be_be. cbn. lia.
Qed.

Lemma len_be16 x : len (be16 x) = 2.
Proof. apply len_be. Qed.

Lemma read_u64_be x : is_u64 x -> read_u64 (be64 x) = COk x.
Proof. intros H. unfold read_u64. assert (len (be64 x) =? 8 = true) as -> by by rewrite (len_be 8). by rewrite from_be64. Qed.

Lemma read_u32_be x : is_u32 x -> read_u32 (be32 x) = COk x.
Proof. intros H. unfold read_u32. assert (len (be32 x) =? 4 = true) as -> by by rewrite (len_be 4). by rewrite from_be32. Qed.

Definition is_byte (x : Z) : Prop := 0 <= x < 256.

Lemma read_u8_value x : is_byte x -> read_u8 (u8_value x) = COk x.
Proof.
  intros H. unfold read_u8, u8_value. cbn [len List.length Z.of_nat Pos.of_succ_nat Z.eqb Pos.eqb]. f_equal. unfold from_be. cbn [fold_left].
  rewrite b2z_z2b. unfold is_byte in H. rewrite Z.mod_small by lia. lia.
Qed.

Lemma unframe_framed kind others body : is_byte kind -> len body <= 65535 -> unframe kind others (framed kind body) = COk body.
Proof.
  intros Hk Hb. unfold unframe, framed. set (h := be16 (as_u16 (len body))). assert (Hh : List.length h = 2%nat) by apply length_be.
  destruct h as [|l1 [|l2 [|? ?]]] eqn:E; try done. cbn [app].
  change (z2b RECORD_FORMAT_V1 :: z2b kind :: l1 :: l2 :: body) with ([z2b RECORD_FORMAT_V1; z2b kind; l1; l2] ++ body).
  rewrite split_at_app by done. cbn [mbind cres_bind cguard]. rewrite !b2z_z2b, (Z.mod_small kind) by done. cbn [cguard]. rewrite Z.eqb_refl.
  change (RECORD_FORMAT_V1 mod 256 =? RECORD_FORMAT_V1) with true. cbn [cguard mbind cres_bind].
  rewrite <- E. unfold h. rewrite from_be16_len by done. rewrite <- (app_nil_r body) at 2. by rewrite split_at_app.
Qed.

(** *** Sequences of values *)

Section walk_props.
Context {St : Type}.
Variable step : St -> Z -> bytes -> cres St.

Fixpoint fold_step (ts : list (Z * bytes)) (st : St) : cres St :=
  match ts with [] => COk st | t :: ts => st ← step st (fst t) (snd t); fold_step ts st end.

Lemma fold_step_app a b st : fold_step (a ++ b) st = st ← fold_step a st; fold_step b st.
Proof. revert st. induction a as [|t a IH]; intros st; [done|]. cbn [app fold_step]. destruct (step st t.1 t.2); cbn; [apply IH|done]. Qed.

Definition small_tags (ts : list (Z * bytes)) : list Z := List.filter (fun t => t <? 128) (map fst ts).

(** Values that fit, with no small tag twice. *)
Definition tlvs_ok (ts : list (Z * bytes)) : Prop :=
  Forall (fun t => is_byte (fst t) /\ len (snd t) <= 65535) ts /\ NoDup (small_tags ts).

Lemma walk_write ts : forall fuel seen st, tlvs_ok ts -> (forall t, In t (small_tags ts) -> Z.testbit seen t = false) ->
  (List.length (write_tlvs ts) <= fuel)%nat -> walk_tlvs step fuel (write_tlvs ts) seen st = fold_step ts st.
Proof.
  induction ts as [|[t v] ts IH]; intros fuel seen st [Hf Hn] Hs Hl; [by destruct fuel|].
  apply Forall_cons in Hf as [[Ht Hv] Hf]. cbn [fst snd] in *. unfold write_tlvs in *. cbn [map List.concat fst snd] in *.
  rewrite length_app in Hl. assert (Hl1 : (1 <= List.length (write_tlv t v))%nat) by (cbn; lia).
  unfold write_tlv at 1. rewrite <- !app_assoc. cbn [app]. destruct fuel as [|fuel]; [lia|]. cbn [walk_tlvs]. rewrite split_at_app by by rewrite len_be16. cbn [require mbind cres_bind].
  rewrite from_be16_len, split_at_app by done. cbn [require mbind cres_bind]. rewrite b2z_z2b, Z.mod_small by done.
  assert (Hl' : (List.length (List.concat (map (fun t => write_tlv t.1 t.2) ts)) <= fuel)%nat) by lia.
  unfold small_tags in Hn, Hs. cbn [map List.filter fst] in Hn, Hs. unfold is_byte in Ht. destruct (Z.ltb_spec t 128) as [H128|H128].
  - apply NoDup_cons in Hn as [Hni Hn]. rewrite (Hs t) by by left. cbn [mbind cres_bind]. cbn [fold_step fst snd].
    destruct (step st t v) as [st'|]; cbn [mbind cres_bind]; [|done]. apply IH; [done| |done]. intros t' Ht'. rewrite Z.lor_spec, Hs by by right.
    rewrite Z.shiftl_1_l. apply Z.pow2_bits_false. intros ->. apply Hni. by apply list_elem_of_In.
  - cbn [mbind cres_bind fold_step fst snd]. destruct (step st t v) as [st'|]; cbn [mbind cres_bind]; [|done]. by apply IH.
Qed.

Lemma walk_tlvs_written ts st : tlvs_ok ts -> walk_tlvs step (List.length (write_tlvs ts)) (write_tlvs ts) 0 st = fold_step ts st.
Proof. intros H. apply walk_write; [done| |done]. intros t _. apply Z.bits_0. Qed.
End walk_props.

(** Unknown values go at the end, in order. *)
Definition unknown_ok (known : list Z) (u : list (Z * bytes)) : Prop :=
  Forall (fun t => is_byte (fst t) /\ ~ In (fst t) known /\ len (snd t) <= 65535) u /\ NoDup (small_tags u).

Lemma tlvs_ok_app known ts u : NoDup known -> sublist (map fst ts) known -> Forall (fun t => is_byte (fst t) /\ len (snd t) <= 65535) ts ->
  unknown_ok known u -> tlvs_ok (ts ++ u).
Proof.
  intros Hk Hs Hf [Hu Hn]. split.
  - apply Forall_app. split; [done|]. eapply Forall_impl; [exact Hu|]. by intros t (? & ? & ?).
  - unfold small_tags. rewrite map_app, List.filter_app. apply NoDup_app. split_and!; [|intros t Ht Ht'|done].
    + apply NoDup_ListNoDup, List.NoDup_filter, NoDup_ListNoDup. by apply (sublist_NoDup _ _ Hk).
    + apply list_elem_of_In, filter_In in Ht as [Ht _], Ht' as [Ht' _]. apply in_map_iff in Ht' as (x & <- & Hx).
      rewrite List.Forall_forall in Hu. destruct (Hu x Hx) as (_ & Hni & _). apply Hni. apply list_elem_of_In.
      eapply elem_of_sublist; [|exact Hs]. by apply list_elem_of_In.
Qed.

(** *** Chains *)

Definition rename_ok (r : RenameRecord) : Prop :=
  (utf8_valid (rr_from r) = true /\ len (rr_from r) <= 65535) /\ (utf8_valid (rr_to r) = true /\ len (rr_to r) <= 65535) /\
  is_u64 (rr_wall_time_unix_ms r).

Lemma read_name_app name r : utf8_valid name = true -> len name <= 65535 -> read_name (be16 (as_u16 (len name)) ++ name ++ r) = COk (name, r).
Proof.
  intros Hu Hl. unfold read_name. rewrite split_at_app by by rewrite len_be16. cbn [require mbind cres_bind].
  rewrite from_be16_len, split_at_app by done. cbn [require mbind cres_bind]. by rewrite Hu.
Qed.

Lemma rename_records_enc l r : Forall rename_ok l -> rename_records (List.length l) (List.concat (map enc_rename l) ++ r) = COk l.
Proof.
  induction 1 as [|[f t ms] l ((Hf & Hfl) & (Ht & Htl) & Hms) _ IH]; [done|]. cbn [map List.concat List.length rename_records].
  cbn [rr_from rr_to rr_wall_time_unix_ms] in *. unfold enc_rename at 1. cbn [rr_from rr_to rr_wall_time_unix_ms]. rewrite <- !app_assoc.
  rewrite read_name_app by done. cbn [mbind cres_bind]. rewrite read_name_app by done. cbn [mbind cres_bind].
  rewrite split_at_app by by rewrite (len_be 8). cbn [require mbind cres_bind]. rewrite IH. cbn [mbind cres_bind]. by rewrite from_be64.
Qed.

Lemma rename_chain_round_trip l : Forall rename_ok l -> l <> [] -> Z.of_nat (List.length l) <= MAX_RENAME_HISTORY -> decode_rename_chain (enc_rename_chain l) = COk l.
Proof.
  intros Hf Hn Hc. unfold enc_rename_chain. cbn [app decode_rename_chain]. unfold MAX_RENAME_HISTORY in *. rewrite b2z_z2b, Z.mod_small by lia.
  destruct (Z.eqb_spec (Z.of_nat (List.length l)) 0); [by destruct l|]. cbn [negb cguard mbind cres_bind].
  destruct (Z.leb_spec (Z.of_nat (List.length l)) 32); [|lia]. cbn [cguard mbind cres_bind]. rewrite Nat2Z.id.
  rewrite <- (app_nil_r (List.concat _)). by apply rename_records_enc.
Qed.

Definition type_change_ok (r : TypeChangeRecord) : Prop := is_byte (tc_from_kind r) /\ is_byte (tc_to_kind r) /\ is_u64 (tc_wall_time_unix_ms r).

Lemma type_change_records_enc l r : Forall type_change_ok l -> type_change_records (List.length l) (List.concat (map enc_type_change l) ++ r) = l.
Proof.
  induction 1 as [|[f t ms] l (Hf & Ht & Hms) _ IH]; [done|]. cbn [map List.concat List.length]. cbn [tc_from_kind tc_to_kind tc_wall_time_unix_ms] in *.
  unfold enc_type_change at 1. cbn [tc_from_kind tc_to_kind tc_wall_time_unix_ms app type_change_records]. rewrite <- !app_assoc.
  rewrite !b2z_z2b, !Z.mod_small by done. rewrite take_app_length', drop_app_length' by (symmetry; apply (length_be 8)). by rewrite from_be64, IH.
Qed.

Lemma length_type_changes l : len (List.concat (map enc_type_change l)) = Z.of_nat (List.length l) * 10.
Proof. induction l as [|r l IH]; [done|]. cbn [map List.concat List.length]. rewrite len_app, IH. unfold enc_type_change. rewrite len_app, (len_be 8), !len_cons, len_nil. lia. Qed.

Lemma type_change_chain_round_trip l : Forall type_change_ok l -> l <> [] -> Z.of_nat (List.length l) <= MAX_TYPE_CHANGE_HISTORY ->
  decode_type_change_chain (enc_type_change_chain l) = COk l.
Proof.
  intros Hf Hn Hc. unfold enc_type_change_chain. cbn [app decode_type_change_chain]. unfold MAX_TYPE_CHANGE_HISTORY in *. rewrite b2z_z2b, Z.mod_small by lia.
  destruct (Z.eqb_spec (Z.of_nat (List.length l)) 0); [by destruct l|]. cbn [negb cguard mbind cres_bind].
  destruct (Z.leb_spec (Z.of_nat (List.length l)) 16); [|lia]. cbn [cguard mbind cres_bind]. rewrite len_cons, length_type_changes.
  destruct (Z.leb_spec (1 + Z.of_nat (List.length l) * 10) (1 + Z.of_nat (List.length l) * 10)); [|lia]. cbn [cguard mbind cres_bind].
  rewrite Nat2Z.id, <- (app_nil_r (List.concat _)). by rewrite type_change_records_enc.
Qed.

(** *** Id entries *)

Definition KNOWN_ID_TAGS : list Z := [1; 2; 3; 4; 16; 17; 19; 32; 33; 48; 49].

Definition opt_u64 (o : option Z) : Prop := match o with Some x => is_u64 x | None => True end.

(** The bytes a retirement adds. *)
Definition TOMBSTONE_BYTES : Z := 19.

(** Entries as the catalog writes them: the numbers in range, the two marks of a
    retirement exactly on retired entries, the times of the chains only with the
    chains, and room for a retirement in the length of the body. *)
Record entry_ok (e : IdEntry) : Prop := {
  eo_id : is_u64 (ie_id e);
  eo_assigned_at : is_u64 (ie_assigned_at e);
  eo_assigned_by : is_byte (ie_assigned_by e);
  eo_kind : is_byte (ie_kind e);
  eo_status : match ie_status e with
    | Live => ie_retired_at_ms e = None /\ ie_retired_reason e = None
    | Tombstoned => is_Some (ie_retired_at_ms e) /\ is_Some (ie_retired_reason e)
    end;
  eo_retired_at : opt_u64 (ie_retired_at_ms e);
  eo_names : Forall rename_ok (ie_previous_names e) /\ Z.of_nat (List.length (ie_previous_names e)) <= MAX_RENAME_HISTORY;
  eo_renamed_at : opt_u64 (ie_last_renamed_at_ms e) /\ (ie_previous_names e = [] -> ie_last_renamed_at_ms e = None);
  eo_changes : Forall type_change_ok (ie_type_change_history e) /\ Z.of_nat (List.length (ie_type_change_history e)) <= MAX_TYPE_CHANGE_HISTORY;
  eo_changed_at : opt_u64 (ie_last_type_change_at_ms e) /\ (ie_type_change_history e = [] -> ie_last_type_change_at_ms e = None);
  eo_unknown : unknown_ok KNOWN_ID_TAGS (ie_unknown_tlvs e);
  eo_room : len (write_tlvs (id_entry_tlvs e)) + (match ie_status e with Live => TOMBSTONE_BYTES | Tombstoned => 0 end) <= 65535;
}.

Lemma in_write_tlvs ts t : In t ts -> len (snd t) <= len (write_tlvs ts).
Proof.
  unfold write_tlvs. induction ts as [|a ts IH]; [done|]. intros [->|H]; cbn [map List.concat]; rewrite len_app; pose proof (len_nonneg (List.concat (map (fun t => write_tlv t.1 t.2) ts))).
  - unfold write_tlv at 1. rewrite !len_app, len_be16, len_cons, len_nil. lia.
  - specialize (IH H). pose proof (len_nonneg (write_tlv a.1 a.2)). lia.
Qed.

(** Known values followed by unknown ones can be read back. *)
Lemma framed_tlvs_ok known ts u : NoDup known -> Forall is_byte known -> sublist (map fst ts) known -> unknown_ok known u ->
  len (write_tlvs (ts ++ u)) <= 65535 -> tlvs_ok (ts ++ u).
Proof.
  intros Hn Hb Hs Hu Hl. eapply tlvs_ok_app; [exact Hn|done| |done]. apply List.Forall_forall. intros t Ht. split.
  - rewrite List.Forall_forall in Hb. apply Hb, list_elem_of_In. eapply elem_of_sublist; [|exact Hs]. apply list_elem_of_In. by apply in_map.
  - etrans; [apply in_write_tlvs, in_or_app; by left|done].
Qed.

Lemma id_tlvs_split e : exists ks, id_entry_tlvs e = ks ++ ie_unknown_tlvs e /\ sublist (map fst ks) KNOWN_ID_TAGS.
Proof.
  unfold id_entry_tlvs. rewrite !app_assoc. eexists. split; [done|].
  rewrite !map_app. unfold KNOWN_ID_TAGS. change [1; 2; 3; 4; 16; 17; 19; 32; 33; 48; 49] with ((([1; 2; 3; 4] ++ [16; 17; 19]) ++ [32; 33]) ++ [48; 49]).
  apply sublist_app; [apply sublist_app; [apply sublist_app|]|].
  - done.
  - destruct (ie_status e); [apply sublist_nil_l|]. destruct (ie_retired_at_ms e), (ie_retired_reason e); cbn; repeat constructor.
  - destruct (ie_previous_names e), (ie_last_renamed_at_ms e); cbn; repeat constructor.
  - destruct (ie_type_change_history e), (ie_last_type_change_at_ms e); cbn; repeat constructor.
Qed.

Lemma known_id_tags : NoDup KNOWN_ID_TAGS /\ Forall is_byte KNOWN_ID_TAGS.
Proof. split; [apply (bool_decide_unpack (NoDup _)); by vm_compute|]. unfold KNOWN_ID_TAGS, is_byte. repeat (apply Forall_cons; split; [lia|]). done. Qed.

Lemma id_step_unknown st t v : ~ In t KNOWN_ID_TAGS -> exists st', id_step st t v = COk st' /\
  st' = Build_IdFields (f_id st) (f_assigned_at st) (f_assigned_by st) (f_kind st) (f_status st) (f_retired_at_ms st) (f_retired_reason st)
    (f_previous_names st) (f_last_renamed_at_ms st) (f_type_change_history st) (f_last_type_change_at_ms st) (f_unknown st ++ [(t, v)]).
Proof.
  intros H. eexists. split; [|done]. destruct st. unfold id_step, TLV_ID, TLV_ASSIGNED_AT, TLV_ASSIGNED_BY, TLV_KIND, TLV_STATUS, TLV_RETIRED_AT_MS,
    TLV_RETIRED_REASON, TLV_PREVIOUS_NAMES, TLV_LAST_RENAMED_AT_MS, TLV_TYPE_CHANGE_HISTORY, TLV_LAST_TYPE_CHANGE_AT_MS.
  repeat match goal with |- context [t =? ?n] => destruct (Z.eqb_spec t n); [exfalso; apply H; subst t; unfold KNOWN_ID_TAGS; cbn; tauto|] end. done.
Qed.

(** The state of the loop at the end of an entry. *)
Definition fields_of (e : IdEntry) : IdFields := {|
  f_id := Some (ie_id e); f_assigned_at := Some (ie_assigned_at e); f_assigned_by := Some (ie_assigned_by e); f_kind := Some (ie_kind e);
  f_status := ie_status e; f_retired_at_ms := ie_retired_at_ms e; f_retired_reason := ie_retired_reason e;
  f_previous_names := ie_previous_names e; f_last_renamed_at_ms := ie_last_renamed_at_ms e; f_type_change_history := ie_type_change_history e;
  f_last_type_change_at_ms := ie_last_type_change_at_ms e; f_unknown := ie_unknown_tlvs e |}.

Lemma fold_unknown u st : Forall (fun t => ~ In (fst t) KNOWN_ID_TAGS) u ->
  fold_step id_step u st = COk (Build_IdFields (f_id st) (f_assigned_at st) (f_assigned_by st) (f_kind st) (f_status st) (f_retired_at_ms st)
    (f_retired_reason st) (f_previous_names st) (f_last_renamed_at_ms st) (f_type_change_history st) (f_last_type_change_at_ms st) (f_unknown st ++ u)).
Proof.
  intros H. revert st. induction H as [|[t v] u Ht Hu IH]; intros st; cbn [fold_step fst snd].
  - rewrite app_nil_r. by destruct st.
  - destruct (id_step_unknown st t v Ht) as (st' & -> & ->). cbn [mbind cres_bind]. rewrite IH. cbn. by rewrite <- app_assoc.
Qed.

(** One value of an entry. *)
Ltac id_value :=
  match goal with |- context [id_step ?st ?t ?v] =>
    let r := eval lazy -[read_u64 read_u8 decode_rename_chain decode_type_change_chain be64 u8_value enc_rename_chain enc_type_change_chain
                         status_from_byte reason_from_byte reason_byte app] in (id_step st t v) in
    change (id_step st t v) with r
  end;
  rewrite ?read_u64_be, ?read_u8_value, ?rename_chain_round_trip, ?type_change_chain_round_trip by (assumption || done);
  cbn [mbind cres_bind].

Lemma reason_round_trip r : is_byte (reason_byte r) /\ reason_from_byte (reason_byte r) = COk r.
Proof. destruct r; (split; [unfold is_byte, reason_byte, REASON_EXPLICIT_SHRINK, REASON_CASCADE_PARENT_RETIRED; lia|done]). Qed.

Lemma fold_status i a b k s ra rr : match s with Live => ra = None /\ rr = None | Tombstoned => is_Some ra /\ is_Some rr end -> opt_u64 ra ->
  fold_step id_step
    match s with
    | Tombstoned => [(TLV_STATUS, u8_value STATUS_TOMBSTONED)] ++ opt_tlv TLV_RETIRED_AT_MS be64 ra ++ opt_tlv TLV_RETIRED_REASON (fun r => u8_value (reason_byte r)) rr
    | Live => []
    end (Build_IdFields i a b k Live None None [] None [] None [])
  = COk (Build_IdFields i a b k s ra rr [] None [] None []).
Proof.
  intros H Hu. destruct s; [by destruct H as [-> ->]|]. destruct H as [[ms ->] [r ->]]. destruct (reason_round_trip r) as [Hr Hr']. assert (Ht : is_byte STATUS_TOMBSTONED) by (unfold is_byte, STATUS_TOMBSTONED; lia).
  cbn [opt_tlv opt_u64 app fold_step fst snd] in *. id_value. change (status_from_byte 1) with (COk Tombstoned). cbn [mbind cres_bind]. do 2 id_value. by rewrite Hr'.
Qed.

Lemma fold_names i a b k s ra rr pn lr : Forall rename_ok pn -> Z.of_nat (List.length pn) <= MAX_RENAME_HISTORY -> opt_u64 lr -> (pn = [] -> lr = None) ->
  fold_step id_step match pn with [] => [] | r :: l => [(TLV_PREVIOUS_NAMES, enc_rename_chain (r :: l))] ++ opt_tlv TLV_LAST_RENAMED_AT_MS be64 lr end
    (Build_IdFields i a b k s ra rr [] None [] None [])
  = COk (Build_IdFields i a b k s ra rr pn lr [] None []).
Proof.
  intros Hf Hl Hu Hn. destruct pn as [|r pn]; [by rewrite Hn|]. destruct lr; cbn [opt_tlv opt_u64 app fold_step fst snd] in *; repeat id_value; done.
Qed.

Lemma fold_changes i a b k s ra rr pn lr th lt : Forall type_change_ok th -> Z.of_nat (List.length th) <= MAX_TYPE_CHANGE_HISTORY -> opt_u64 lt ->
  (th = [] -> lt = None) ->
  fold_step id_step match th with [] => [] | r :: l => [(TLV_TYPE_CHANGE_HISTORY, enc_type_change_chain (r :: l))] ++ opt_tlv TLV_LAST_TYPE_CHANGE_AT_MS be64 lt end
    (Build_IdFields i a b k s ra rr pn lr [] None [])
  = COk (Build_IdFields i a b k s ra rr pn lr th lt []).
Proof.
  intros Hf Hl Hu Hn. destruct th as [|r th]; [by rewrite Hn|]. destruct lt; cbn [opt_tlv opt_u64 app fold_step fst snd] in *; repeat id_value; done.
Qed.

Lemma fold_id_entry e : entry_ok e -> fold_step id_step (id_entry_tlvs e) no_fields = COk (fields_of e).
Proof.
  intros [H1 H2 H3 H4 H5 H6 [H7 H7'] [H8 H8'] [H9 H9'] [H10 H10'] [H11 _] _]. unfold id_entry_tlvs, no_fields.
  rewrite fold_step_app. cbn [fold_step fst snd]. do 4 id_value. rewrite fold_step_app, fold_status by done. cbn [mbind cres_bind].
  rewrite fold_step_app, fold_names by done. cbn [mbind cres_bind]. rewrite fold_step_app, fold_changes by done. cbn [mbind cres_bind].
  rewrite fold_unknown; [done|]. eapply Forall_impl; [exact H11|]. by intros t (? & ? & ?).
Qed.

(** An entry is read back as it was written, the values other versions of the
    program added to it included. *)
Lemma id_entry_round_trip e : entry_ok e -> decode_id_entry (encode_id_entry e) = COk e.
Proof.
  intros He. assert (Hl : len (write_tlvs (id_entry_tlvs e)) <= 65535).
  { pose proof (eo_room e He) as Hr. unfold TOMBSTONE_BYTES in Hr. destruct (ie_status e); lia. }
  unfold decode_id_entry, encode_id_entry. rewrite unframe_framed by done. cbn [mbind cres_bind]. destruct (id_tlvs_split e) as (ks & Ek & Hs).
  destruct known_id_tags as [Kn Kb]. rewrite walk_tlvs_written by (rewrite Ek in *; by eapply framed_tlvs_ok; [..|apply He|]).
  rewrite fold_id_entry by done. cbn [mbind cres_bind]. unfold finish_id_entry. cbn [fields_of f_id f_assigned_at f_assigned_by f_kind f_status f_retired_at_ms f_retired_reason
    require mbind cres_bind]. pose proof (eo_status e He) as Hst. destruct e as [i a b k s ra rr pn lr th lt u]. cbn [ie_status ie_retired_at_ms ie_retired_reason] in *.
  destruct s; [done|]. by destruct Hst as [[? ->] [? ->]].
Qed.

Lemma counter_round_trip x : is_u64 x -> decode_counter (encode_counter x) = COk x.
Proof.
  intros H. unfold decode_counter, encode_counter. cbn [app]. rewrite !len_cons, (len_be 8). change (1 + (1 + Z.of_nat 8) <? 10) with false.
  rewrite !b2z_z2b. cbn [cguard mbind cres_bind Z.modulo Z.div_eucl]. change (RECORD_FORMAT_V1 mod 256 =? RECORD_FORMAT_V1) with true.
  change (KIND_COUNTER mod 256 =? KIND_COUNTER) with true. cbn [cguard mbind cres_bind]. rewrite take_ge by (unfold be64; by rewrite length_be). by rewrite from_be64.
Qed.

Lemma format_round_trip v : is_u64 v -> decode_format_version (encode_format_version v) = COk v.
Proof. intros H. unfold decode_format_version, encode_format_version. change (len (be64 v)) with (len (be 8 v)). rewrite len_be. cbn. by rewrite from_be64. Qed.

(** *** Migration plans *)

Definition KNOWN_PLAN_TAGS : list Z := [1; 2; 3; 4; 5; 6; 7; 8; 9; 10; 11; 12; 32; 33; 34; 35; 36; 37; 38; 39].

Definition text_ok (s : bytes) : Prop := utf8_valid s = true.

(** Plans as they are written; the bound on the ids is kept for parallel plans. *)
Record plan_ok (p : MigrationPlan) : Prop := {
  po_names : text_ok (mp_type_name p) /\ text_ok (mp_field_name p) /\ text_ok (mp_converter_name p);
  po_u64 : is_u64 (mp_field_id p) /\ is_u64 (mp_cursor p) /\ is_u64 (mp_chunk_size p) /\ is_u64 (mp_created_at_ms p) /\ is_u64 (mp_objects_converted p) /\
    is_u64 (mp_cutover_cursor p) /\ is_u64 (mp_id_upper_bound p) /\ is_u64 (mp_error_count p) /\ is_u64 (mp_quarantine_cap p);
  po_version : is_u32 (mp_converter_version p);
  po_kinds : is_byte (mp_src_kind p) /\ is_byte (mp_target_kind p);
  po_degree : match mp_parallel_degree p with Some n => 1 <= n <= MAX_PARALLEL_DEGREE | None => mp_id_upper_bound p = 0 end;
  po_unknown : unknown_ok KNOWN_PLAN_TAGS (mp_unknown_tlvs p);
  po_fits : len (write_tlvs (plan_tlvs p)) <= 65535;
}.

Lemma known_plan_tags : NoDup KNOWN_PLAN_TAGS /\ Forall is_byte KNOWN_PLAN_TAGS.
Proof. split; [apply (bool_decide_unpack (NoDup _)); by vm_compute|]. unfold KNOWN_PLAN_TAGS, is_byte. repeat (apply Forall_cons; split; [lia|]). done. Qed.

Lemma plan_tlvs_split p : exists ks, plan_tlvs p = ks ++ mp_unknown_tlvs p /\ sublist (map fst ks) KNOWN_PLAN_TAGS.
Proof.
  unfold plan_tlvs. rewrite !app_assoc. eexists. split; [done|]. rewrite !map_app. unfold KNOWN_PLAN_TAGS.
  change [1; 2; 3; 4; 5; 6; 7; 8; 9; 10; 11; 12; 32; 33; 34; 35; 36; 37; 38; 39] with (([1; 2; 3; 4; 5; 6; 7; 8; 9; 10; 11; 12; 32; 33] ++ [34; 35]) ++ [36; 37; 38; 39]).
  apply sublist_app; [apply sublist_app|]; [done| |done]. destruct (mp_parallel_degree p); cbn; repeat constructor.
Qed.

Definition set_unknown (st : PlanFields) (u : list (Z * bytes)) : PlanFields :=
  let '(Build_PlanFields a0 a1 a2 a3 a4 a5 a6 a7 a8 a9 a10 a11 a12 a13 a14 a15 a16 a17 a18 a19 _) := st in
  Build_PlanFields a0 a1 a2 a3 a4 a5 a6 a7 a8 a9 a10 a11 a12 a13 a14 a15 a16 a17 a18 a19 u.

Lemma plan_step_unknown st t v : ~ In t KNOWN_PLAN_TAGS -> plan_step st t v = COk (set_unknown st (p_unknown st ++ [(t, v)])).
Proof.
  intros H. destruct st. cbn [set_unknown p_unknown].
  assert (E : forall n, In n KNOWN_PLAN_TAGS -> (t =? n) = false) by (intros n Hn; apply Z.eqb_neq; by intros ->).
  unfold plan_step. rewrite !E by (vm_compute; tauto). done.
Qed.

Lemma fold_plan_unknown u st : Forall (fun t => ~ In (fst t) KNOWN_PLAN_TAGS) u -> fold_step plan_step u st = COk (set_unknown st (p_unknown st ++ u)).
Proof.
  intros H. revert st. induction H as [|[t v] u Ht Hu IH]; intros st; cbn [fold_step fst snd].
  - rewrite app_nil_r. by destruct st.
  - rewrite (plan_step_unknown st t v Ht). cbn [mbind cres_bind]. rewrite IH. destruct st. cbn. by rewrite <- app_assoc.
Qed.

Lemma read_status_byte s : read_status (u8_value (status_to_byte s)) = COk s.
Proof. by destruct s; vm_compute. Qed.
Lemma read_phase_byte s : read_phase (u8_value (phase_to_byte s)) = COk s.
Proof. by destruct s; vm_compute. Qed.
Lemma read_policy_byte s : read_policy (u8_value (policy_to_byte s)) = COk s.
Proof. by destruct s; vm_compute. Qed.
Lemma read_bool_byte b : read_bool (u8_value (bool_byte b)) = COk b.
Proof. by destruct b; vm_compute. Qed.

Lemma read_degree_value n : 1 <= n <= MAX_PARALLEL_DEGREE -> read_degree (u8_value n) = COk n.
Proof.
  unfold read_degree, MAX_PARALLEL_DEGREE. intros H. rewrite read_u8_value by (unfold is_byte; lia). cbn [mbind cres_bind].
  destruct (Z.eqb_spec n 0); [lia|]. by destruct (Z.ltb_spec 64 n); [lia|].
Qed.

Lemma read_str_ok s : text_ok s -> read_str s = COk s.
Proof. unfold read_str. by intros ->. Qed.

(** One value of a plan. *)
Ltac plan_value :=
  match goal with |- context [plan_step ?st ?t ?v] =>
    let r := eval lazy -[read_u64 read_u8 read_u32 read_str read_status read_phase read_policy read_bool read_degree be64 be32 u8_value
                         status_to_byte phase_to_byte policy_to_byte bool_byte app] in (plan_step st t v) in
    change (plan_step st t v) with r
  end;
  rewrite ?read_u64_be, ?read_u32_be, ?read_u8_value, ?read_str_ok, ?read_status_byte, ?read_phase_byte, ?read_policy_byte, ?read_bool_byte,
    ?read_degree_value by assumption;
  cbn [mbind cres_bind].

(** A migration plan is read back as it was written. *)
Lemma migration_plan_round_trip p : plan_ok p -> decode_migration_plan (mp_plan_id p) (encode_migration_plan p) = COk p.
Proof.
  intros Hp. unfold decode_migration_plan, encode_migration_plan. rewrite unframe_framed by (done || apply Hp). cbn [mbind cres_bind].
  destruct (plan_tlvs_split p) as (ks & Ek & Hs). destruct known_plan_tags as [Kn Kb]. pose proof (po_fits p Hp) as Hfit.
  rewrite walk_tlvs_written by (rewrite Ek in *; by eapply framed_tlvs_ok; [..|apply Hp|]). clear ks Ek Hs.
  destruct Hp as [(N1 & N2 & N3) (U1 & U2 & U3 & U4 & U5 & U6 & U7 & U8 & U9) V (B1 & B2) D [Hu _] _].
  assert (Hu' : Forall (fun t => ~ In (fst t) KNOWN_PLAN_TAGS) (mp_unknown_tlvs p)) by (eapply Forall_impl; [exact Hu|]; by intros t (? & ? & ?)).
  unfold plan_tlvs, no_plan_fields. rewrite fold_step_app. cbn [fold_step fst snd]. do 14 plan_value. rewrite fold_step_app.
  destruct (mp_parallel_degree p) as [n|] eqn:En; cbn [fold_step fst snd]; [do 2 plan_value|cbn [mbind cres_bind]];
    rewrite fold_step_app; cbn [fold_step fst snd]; do 4 plan_value; rewrite fold_plan_unknown by done; unfold finish_plan;
    cbn [set_unknown p_unknown app mbind cres_bind]; destruct p; cbn in *; by subst.
Qed.

Lemma partition_cursor_round_trip pc : is_u64 (pc_cursor pc) -> is_u64 (pc_objects_converted pc) -> is_u64 (pc_errors pc) ->
  decode_partition_cursor (encode_partition_cursor pc) = COk pc.
Proof.
  intros H1 H2 H3. destruct pc as [c o e d]. cbn [pc_cursor pc_objects_converted pc_errors] in *. unfold decode_partition_cursor, encode_partition_cursor.
  cbn [pc_cursor pc_objects_converted pc_errors pc_done app]. rewrite !len_cons, !len_app, !(len_be 8). cbn [len List.length].
  change (_ =? PARTITION_CURSOR_LEN) with true. cbn [negb]. rewrite !b2z_z2b.
  change (RECORD_FORMAT_V1 mod 256 =? RECORD_FORMAT_V1) with true. change (KIND_PARTITION_CURSOR mod 256 =? KIND_PARTITION_CURSOR) with true. cbn [cguard mbind cres_bind].
  rewrite (take_app_length' (be64 c)), (drop_app_length' (be64 c)) by (symmetry; apply (length_be 8)).
  rewrite (take_app_length' (be64 o)) by (symmetry; apply (length_be 8)).
  assert (D2 : forall l : bytes, drop 16 l = drop 8 (drop 8 l)) by (intros l; by rewrite drop_drop).
  assert (D3 : forall l : bytes, drop 24 l = drop 8 (drop 8 (drop 8 l))) by (intros l; by rewrite !drop_drop). rewrite D2, D3.
  rewrite !(drop_app_length' (be64 c)), !(drop_app_length' (be64 o)), (take_app_length' (be64 e)), (drop_app_length' (be64 e)) by (symmetry; apply (length_be 8)).
  rewrite !from_be64 by done. by destruct d.
Qed.

(** *** Partitions *)

(** The partitions tile the ids below the bound: each id is in exactly one. *)
Lemma partition_ranges_tile n bound id : 1 <= n <= MAX_PARALLEL_DEGREE -> is_u64 bound -> 1 <= id < bound ->
  exists idx, (0 <= idx < n /\ (fst (partition_range n bound idx) <= id < snd (partition_range n bound idx))) /\
    forall idx', 0 <= idx' < n -> fst (partition_range n bound idx') <= id < snd (partition_range n bound idx') -> idx' = idx.
Proof.
  unfold is_u64, MAX_PARALLEL_DEGREE. intros Hn Hb Hid. assert (Hspec : forall idx, 0 <= idx < n -> exists span, 1 <= span /\ bound - 1 <= n * span /\
    span = (bound - 1 + n - 1) / n /\ partition_range n bound idx = (Z.min (idx * span + 1) bound, Z.min ((idx + 1) * span + 1) bound)).
  { intros idx Hi. exists ((bound - 1 + n - 1) / n). assert (1 <= (bound - 1 + n - 1) / n) by (apply Z.div_le_lower_bound; lia).
    assert (bound - 1 <= n * ((bound - 1 + n - 1) / n)).
    { pose proof (Z.div_mod (bound - 1 + n - 1) n ltac:(lia)). pose proof (Z.mod_pos_bound (bound - 1 + n - 1) n ltac:(lia)). lia. }
    split; [done|]. split; [done|]. split; [done|]. unfold partition_range, u64_max. rewrite (Z.max_l n 1), (Z.max_r 0 (bound - 1)) by lia.
    destruct (Z.eqb_spec (bound - 1) 0); [lia|]. rewrite (Z.max_l _ 1) by done. f_equal; lia. }
  set (span := (bound - 1 + n - 1) / n) in *. assert (Hspan : 1 <= span /\ bound - 1 <= n * span) by (destruct (Hspec 0) as (? & ? & ? & -> & _); [lia|done]).
  exists ((id - 1) / span). pose proof (Z.div_mod (id - 1) span ltac:(lia)) as E. pose proof (Z.mod_pos_bound (id - 1) span ltac:(lia)) as B.
  set (q := (id - 1) / span) in *. assert (0 <= q) by (apply Z.div_pos; lia). assert (q < n) by (apply Z.div_lt_upper_bound; lia). split.
  - split; [lia|]. destruct (Hspec q) as (? & ? & ? & -> & ->); [lia|]. cbn [fst snd]. fold span. nia.
  - intros idx' Hi H'. destruct (Hspec idx' Hi) as (? & ? & ? & -> & E'). rewrite E' in H'. cbn [fst snd] in H'. fold span in H'. 
    assert (idx' * span <= id - 1 < (idx' + 1) * span) by lia. assert (idx' - q < 1) by nia. assert (q - idx' < 1) by nia. lia.
Qed.
