(* ===== verification/Catalog.v ===== *)
(** * The catalog (crates/rhypedb-engine/src/catalog.rs)

    Opening a database gives every type, field and relation of the schema a
    numeric id that never changes: a store without a catalog is given one
    ([backfill_into_txn]), a catalog that exists is loaded and compared with the
    schema ([load_existing], [reconcile_into_txn]).  An attempt reads one snapshot
    and returns the catalog with the writes to commit.  SHA-256 is a parameter,
    the time an argument; maps that the code iterates are walked in the order of
    their names. *)

From Stdlib Require Import ZArith Lia Bool List Strings.Byte Strings.String.
From stdpp Require Import base tactics option list gmap.
From S2P Require Import Prelude ByteMap Keys Utf8 Values Schema IndexKeys Store CatalogCodec.

Local Open Scope Z_scope.

(** The hash of the digest of a schema. *)
Class CatalogLib := { sha256 : bytes -> bytes }.

(** ** Names *)

Definition reserved_byte (b : byte) : bool := (b2z b =? 0) || (b2z b =? 58) || (b2z b =? 46).

Fixpoint has_double_underscore (name : bytes) : bool :=
  match name with
  | a :: ((b :: _) as rest) => ((b2z a =? 95) && (b2z b =? 95)) || has_double_underscore rest
  | _ => false
  end.

Definition check_identifier (name : bytes) : cres unit :=
  _ ← cguard (negb (existsb reserved_byte name)) (ReservedByteInIdentifier name);
  cguard (negb (has_double_underscore name)) (ReservedDoubleUnderscoreInIdentifier name).

(** Splits at the first dot. *)
Fixpoint split_qualified (qual : bytes) : bytes * bytes :=
  match qual with
  | [] => ([], [])
  | b :: rest => if b2z b =? 46 then ([], rest) else let '(t, f) := split_qualified rest in (b :: t, f)
  end.

Definition checked_bump (kind : EntryKind) (cur : Z) : cres Z := if cur =? u64_max then CErr (CounterOverflow kind) else COk (cur + 1).

(** ** The state *)

(** The ids of one kind of entries, retired ones included; [tb_tombstoned_ids]
    and [tb_tombstoned_names] are the retired ones. *)
Record Table := {
  tb_ids : bmap Z;
  tb_entries : bmap IdEntry;
  tb_tombstoned_ids : gset Z;
  tb_tombstoned_names : gset bytes;
  tb_next : Z;
}.

Record Catalog := {
  c_types : Table;
  c_fields : Table;
  c_rels : Table;
  c_field_kinds : bmap Z;
  c_format_version : Z;
}.

Definition table_empty (next : Z) : Table := {| tb_ids := []; tb_entries := []; tb_tombstoned_ids := ∅; tb_tombstoned_names := ∅; tb_next := next |}.

Definition catalog_empty : Catalog := {|
  c_types := table_empty 1; c_fields := table_empty 1; c_rels := table_empty 1; c_field_kinds := []; c_format_version := CATALOG_FORMAT_V1 |}.

Definition set_next (t : Table) (next : Z) : Table := {|
  tb_ids := tb_ids t; tb_entries := tb_entries t; tb_tombstoned_ids := tb_tombstoned_ids t; tb_tombstoned_names := tb_tombstoned_names t; tb_next := next |}.

Definition table_insert (name : bytes) (e : IdEntry) (t : Table) : Table := {|
  tb_ids := bm_insert name (ie_id e) (tb_ids t);
  tb_entries := bm_insert name e (tb_entries t);
  tb_tombstoned_ids := match ie_status e with Tombstoned => {[ie_id e]} ∪ tb_tombstoned_ids t | Live => tb_tombstoned_ids t end;
  tb_tombstoned_names := match ie_status e with Tombstoned => {[name]} ∪ tb_tombstoned_names t | Live => tb_tombstoned_names t end;
  tb_next := tb_next t |}.

Definition set_types (c : Catalog) (t : Table) : Catalog := {|
  c_types := t; c_fields := c_fields c; c_rels := c_rels c; c_field_kinds := c_field_kinds c; c_format_version := c_format_version c |}.
Definition set_fields (c : Catalog) (t : Table) : Catalog := {|
  c_types := c_types c; c_fields := t; c_rels := c_rels c; c_field_kinds := c_field_kinds c; c_format_version := c_format_version c |}.
Definition set_rels (c : Catalog) (t : Table) : Catalog := {|
  c_types := c_types c; c_fields := c_fields c; c_rels := t; c_field_kinds := c_field_kinds c; c_format_version := c_format_version c |}.
Definition set_kinds (c : Catalog) (k : bmap Z) : Catalog := {|
  c_types := c_types c; c_fields := c_fields c; c_rels := c_rels c; c_field_kinds := k; c_format_version := c_format_version c |}.
Definition set_format (c : Catalog) (v : Z) : Catalog := {|
  c_types := c_types c; c_fields := c_fields c; c_rels := c_rels c; c_field_kinds := c_field_kinds c; c_format_version := v |}.

Definition insert_type (name : bytes) (e : IdEntry) (c : Catalog) : Catalog := set_types c (table_insert name e (c_types c)).
Definition insert_field (qual : bytes) (e : IdEntry) (c : Catalog) : Catalog :=
  set_kinds (set_fields c (table_insert qual e (c_fields c))) (bm_insert qual (ie_kind e) (c_field_kinds c)).
Definition insert_rel (qual : bytes) (e : IdEntry) (c : Catalog) : Catalog := set_rels c (table_insert qual e (c_rels c)).

(** ** The digest of a schema *)

Definition sized (s : bytes) : bytes := be32 (as_u32 (len s)) ++ s.

Definition is_some_ {A} (o : option A) : bool := match o with Some _ => true | None => false end.

Definition directive_flags (f : FieldDef) : Z :=
  Z.lor (Z.lor (Z.lor (Z.lor (if is_indexed f then 1 else 0) (if is_unique f then 2 else 0)) (if is_some_ (inverse f) then 4 else 0))
    (if is_some_ (vectorize f) then 8 else 0)) (if is_some_ (fulltext f) then 16 else 0).

Definition digest_field (f : FieldDef) : bytes :=
  sized (fd_name f) ++ [z2b (schema_kind_byte (field_type f))] ++ [z2b (directive_flags f)]
  ++ match fulltext f with Some ft => sized (analyzer ft) ++ [z2b (bool_byte (positions ft))] | None => [] end
  ++ match field_type f with Relation rel => sized (target_type rel) ++ [z2b (bool_byte (is_many rel))] | _ => [] end.

Definition digest_type (e : bytes * TypeDef) : bytes :=
  sized (fst e) ++ be32 (as_u32 (Z.of_nat (List.length (fields (snd e))))) ++ List.concat (map digest_field (fields (snd e))).

Definition digest_input (s : Schema) : bytes :=
  be32 (as_u32 (Z.of_nat (List.length (types s)))) ++ List.concat (map digest_type (types s)).

Definition compute_schema_digest {L : CatalogLib} (s : Schema) : bytes := sha256 (digest_input s).

(** ** Loading *)

Definition type_row_name (payload : bytes) : cres bytes := if utf8_valid payload then COk payload else CErr MalformedKey.

(** The payload up to its first NUL, and behind it. *)
Fixpoint split_nul (payload : bytes) : option (bytes * bytes) :=
  match payload with
  | [] => None
  | b :: rest => if b2z b =? 0 then Some ([], rest) else '(t, f) ← split_nul rest; Some (b :: t, f)
  end.

Definition member_row_name (payload : bytes) : cres bytes :=
  '(t, f) ← require (split_nul payload) MalformedKey;
  _ ← cguard (utf8_valid t) MalformedKey;
  _ ← cguard (utf8_valid f) MalformedKey;
  COk (qualified t f).

Section load.
Variables (kind : EntryKind) (row_name : bytes -> cres bytes) (insert : bytes -> IdEntry -> Catalog -> Catalog) (format_version : Z).

Fixpoint load_rows (prefix : bytes) (rows : list (bytes * bytes)) (seen : gset Z) (c : Catalog) : cres Catalog :=
  match rows with
  | [] => COk c
  | (key, value) :: rows =>
      name ← row_name (drop (List.length prefix) key);
      e ← decode_id_entry value;
      _ ← cguard (negb ((format_version =? CATALOG_FORMAT_V1) && bool_decide (ie_status e = Tombstoned))) (TombstoneOnV1Catalog kind (ie_id e));
      _ ← cguard (negb (bool_decide (ie_id e ∈ seen))) (DuplicateId kind (ie_id e));
      load_rows prefix rows ({[ie_id e]} ∪ seen) (insert name e c)
  end.
End load.

Definition read_counter (m : bmap bytes) (key : bytes) : cres Z := raw ← require (bm_get key m) (MissingRequiredKey key); decode_counter raw.

Definition max_assigned (ids : bmap Z) : option Z :=
  match map snd ids with [] => None | i :: rest => Some (fold_left Z.max rest i) end.

Definition self_heal_counter (on_disk : Z) (assigned : option Z) : Z :=
  match assigned with Some m => Z.max on_disk (Z.min (m + 1) u64_max) | None => Z.max on_disk 1 end.

Definition load_existing (m : bmap bytes) (format_version : Z) : cres Catalog :=
  let c := set_format {| c_types := table_empty 0; c_fields := table_empty 0; c_rels := table_empty 0; c_field_kinds := []; c_format_version := 0 |} format_version in
  c ← load_rows KType type_row_name insert_type format_version KeyBuilder.catalog_prefix_type (rows_under KeyBuilder.catalog_prefix_type m) ∅ c;
  c ← load_rows KField member_row_name insert_field format_version KeyBuilder.catalog_prefix_field (rows_under KeyBuilder.catalog_prefix_field m) ∅ c;
  c ← load_rows KRelation member_row_name insert_rel format_version KeyBuilder.catalog_prefix_rel (rows_under KeyBuilder.catalog_prefix_rel m) ∅ c;
  nt ← read_counter m KeyBuilder.catalog_next_type;
  nf ← read_counter m KeyBuilder.catalog_next_field;
  nr ← read_counter m KeyBuilder.catalog_next_rel;
  let heal t n := set_next t (self_heal_counter n (max_assigned (tb_ids t))) in
  COk (set_rels (set_fields (set_types c (heal (c_types c) nt)) (heal (c_fields c) nf)) (heal (c_rels c) nr)).

(** ** Allocation *)

Definition put (k v : bytes) : op := (k, Some v).

Section alloc.
Variables (entry : Z -> Z -> Z -> IdEntry) (now_ms : Z).

Definition allocate_type (name : bytes) (c : Catalog) : cres (Catalog * list op) :=
  let id := tb_next (c_types c) in
  next ← checked_bump KType id;
  let e := entry id KIND_UNSET now_ms in
  COk (insert_type name e (set_types c (set_next (c_types c) next)), [put (KeyBuilder.catalog_type name) (encode_id_entry e)]).

Definition allocate_field (name : bytes) (f : FieldDef) (c : Catalog) : cres (Catalog * list op) :=
  let id := tb_next (c_fields c) in
  next ← checked_bump KField id;
  let e := entry id (schema_kind_byte (field_type f)) now_ms in
  COk (insert_field (qualified name (fd_name f)) e (set_fields c (set_next (c_fields c) next)),
       [put (KeyBuilder.catalog_field name (fd_name f)) (encode_id_entry e)]).

Definition allocate_rel (name : bytes) (f : FieldDef) (c : Catalog) : cres (Catalog * list op) :=
  let id := tb_next (c_rels c) in
  next ← checked_bump KRelation id;
  let e := entry id KIND_RELATION now_ms in
  COk (insert_rel (qualified name (fd_name f)) e (set_rels c (set_next (c_rels c) next)),
       [put (KeyBuilder.catalog_rel name (fd_name f)) (encode_id_entry e)]).
End alloc.

Definition is_relation (f : FieldDef) : bool := match field_type f with Relation _ => true | _ => false end.

(** A step that may do nothing. *)
Definition when_ (b : bool) (f : Catalog -> cres (Catalog * list op)) (c : Catalog) : cres (Catalog * list op) :=
  if b then f c else COk (c, []).

Definition seq_ (f g : Catalog -> cres (Catalog * list op)) (c : Catalog) : cres (Catalog * list op) :=
  '(c, a) ← f c; '(c, b) ← g c; COk (c, a ++ b).

Fixpoint each {A} (f : A -> Catalog -> cres (Catalog * list op)) (l : list A) (c : Catalog) : cres (Catalog * list op) :=
  match l with [] => COk (c, []) | a :: l => seq_ (f a) (each f l) c end.

Definition counter_puts (c : Catalog) : list op :=
  [put KeyBuilder.catalog_next_type (encode_counter (tb_next (c_types c)));
   put KeyBuilder.catalog_next_field (encode_counter (tb_next (c_fields c)));
   put KeyBuilder.catalog_next_rel (encode_counter (tb_next (c_rels c)))].

Section ops.
Context {L : CatalogLib}.

(** ** A store without a catalog *)

Definition backfill_field (now_ms : Z) (name : bytes) (f : FieldDef) : Catalog -> cres (Catalog * list op) :=
  seq_ (allocate_field entry_backfilled now_ms name f) (when_ (is_relation f) (allocate_rel entry_backfilled now_ms name f)).

Definition backfill_type (now_ms : Z) (e : bytes * TypeDef) : Catalog -> cres (Catalog * list op) :=
  seq_ (allocate_type entry_backfilled now_ms (fst e)) (each (backfill_field now_ms (fst e)) (fields (snd e))).

Definition backfill_into_txn (s : Schema) (now_ms : Z) : cres (Catalog * list op) :=
  '(c, rows) ← each (backfill_type now_ms) (types s) catalog_empty;
  COk (c, [put KeyBuilder.catalog_format (encode_format_version CATALOG_FORMAT_V1)] ++ rows ++ counter_puts c
          ++ [put KeyBuilder.catalog_digest (compute_schema_digest s)] ++ [put KeyBuilder.catalog_initialized (encode_marker now_ms)]).

(** Rows of the catalog that the schema does not determine are kept. *)
Definition kept_in_recovery (k : bytes) : bool :=
  starts_with k KeyBuilder.catalog_migration_plan_prefix || starts_with k KeyBuilder.catalog_partition_cursor_prefix
  || starts_with k KeyBuilder.catalog_quarantine_prefix || starts_with k KeyBuilder.catalog_fulltext_marker_prefix
  || beqb k KeyBuilder.catalog_next_migration.

Definition recover_partial_into_txn (m : bmap bytes) (s : Schema) (now_ms : Z) : cres (Catalog * list op) :=
  let deletes := List.filter (fun k => negb (kept_in_recovery k)) (map fst (rows_under KeyBuilder.catalog_prefix_all m)) in
  '(c, puts) ← backfill_into_txn s now_ms;
  COk (c, map (fun k => (k, None)) deletes ++ puts).

(** ** Migration plans *)

Fixpoint decode_plans (rows : list (bytes * bytes)) : cres (list MigrationPlan) :=
  match rows with
  | [] => COk []
  | (key, value) :: rows =>
      let id_bytes := drop (List.length KeyBuilder.catalog_migration_plan_prefix) key in
      _ ← cguard (len id_bytes =? 8) MalformedKey;
      p ← decode_migration_plan (from_be id_bytes) value;
      rest ← decode_plans rows;
      COk (p :: rest)
  end.

Definition scan_migration_plans (m : bmap bytes) : cres (list MigrationPlan) := decode_plans (rows_under KeyBuilder.catalog_migration_plan_prefix m).

Definition next_migration_id (counter : Z) (plans : list MigrationPlan) : Z :=
  Z.min (Z.max counter (fold_left Z.max (map mp_plan_id plans) 0) + 1) u64_max.

Definition active_plan_for_type (plans : list MigrationPlan) (type_name : bytes) : option (bytes * Z) :=
  p ← List.find (fun p => quiesces (mp_status p) && beqb (mp_type_name p) type_name) plans;
  Some (qualified (mp_type_name p) (mp_field_name p), mp_plan_id p).

Definition resumable_plan_for_kind_change (plans : list MigrationPlan) (type_name field_name : bytes) (cat_kind want_kind : Z) : option Z :=
  p ← List.find (fun p => quiesces (mp_status p) && beqb (mp_type_name p) type_name && beqb (mp_field_name p) field_name
                   && (mp_src_kind p =? cat_kind) && (mp_target_kind p =? want_kind)) plans;
  Some (mp_plan_id p).

(** ** Reconciling *)

Definition retired (t : Table) (name : bytes) : bool := bool_decide (name ∈ tb_tombstoned_names t).

Definition has_key {V} (m : bmap V) (k : bytes) : bool := is_some_ (bm_get k m).

(** Drops: entries, not retired before, that the schema does not name. *)
Definition dropped_types (s : Schema) (c : Catalog) : list bytes :=
  List.filter (fun t => negb (has_key (types s) t) && negb (retired (c_types c) t)) (map fst (tb_ids (c_types c))).

Definition dropped_fields (s : Schema) (c : Catalog) : list bytes :=
  List.filter (fun qual => negb (retired (c_fields c) qual) &&
    let '(t, f) := split_qualified qual in
    match get_type s t with None => false | Some td => is_none (get_field td f) end) (map fst (tb_ids (c_fields c))).

Definition dropped_rels (s : Schema) (c : Catalog) : list bytes :=
  List.filter (fun qual => negb (retired (c_rels c) qual) &&
    let '(t, f) := split_qualified qual in
    match get_type s t with
    | None => false
    | Some td => match get_field td f with None => true | Some fd => negb (is_relation fd) end
    end) (map fst (tb_ids (c_rels c))).

Definition entry_id_or_0 (t : Table) (name : bytes) : Z := match bm_get name (tb_entries t) with Some e => ie_id e | None => 0 end.

Fixpoint check_type_names (c : Catalog) (ts : list bytes) : cres unit :=
  match ts with
  | [] => COk tt
  | t :: ts => if retired (c_types c) t then CErr (NameReuseOfRetiredEntry KType t (entry_id_or_0 (c_types c) t)) else check_type_names c ts
  end.

Fixpoint check_field_names (c : Catalog) (name : bytes) (fs : list FieldDef) : cres unit :=
  match fs with
  | [] => COk tt
  | f :: fs =>
      let qual := qualified name (fd_name f) in
      if retired (c_fields c) qual then CErr (NameReuseOfRetiredEntry KField qual (entry_id_or_0 (c_fields c) qual))
      else if is_relation f && retired (c_rels c) qual then CErr (NameReuseOfRetiredEntry KRelation qual (entry_id_or_0 (c_rels c) qual))
      else check_field_names c name fs
  end.

Fixpoint check_member_names (c : Catalog) (ts : list (bytes * TypeDef)) : cres unit :=
  match ts with [] => COk tt | e :: ts => _ ← check_field_names c (fst e) (fields (snd e)); check_member_names c ts end.

(** The fields or relations of dropped types. *)
Definition cascaded (t : Table) (types_ dropped : list bytes) : list bytes :=
  List.filter (fun qual => negb (retired t qual) && existsb (beqb (fst (split_qualified qual))) types_ && negb (existsb (beqb qual) dropped))
    (map fst (tb_ids t)).

Fixpoint check_kinds (s : Schema) (plans : list MigrationPlan) (kinds : bmap Z) : cres unit :=
  match kinds with
  | [] => COk tt
  | (qual, cat_kind) :: kinds =>
      let '(t, f) := split_qualified qual in
      _ ← match get_type s t with
          | None => COk tt
          | Some td =>
              match get_field td f with
              | None => COk tt
              | Some fd =>
                  let want_kind := schema_kind_byte (field_type fd) in
                  cguard ((cat_kind =? want_kind) || is_some_ (resumable_plan_for_kind_change plans t f cat_kind want_kind))
                    (FieldKindChanged qual cat_kind want_kind)
              end
          end;
      check_kinds s plans kinds
  end.

Definition new_type_names (s : Schema) (c : Catalog) : list bytes :=
  List.filter (fun t => negb (has_key (tb_ids (c_types c)) t)) (map fst (types s)).

Definition add_field (now_ms : Z) (name : bytes) (f : FieldDef) : Catalog -> cres (Catalog * list op) :=
  let qual := qualified name (fd_name f) in
  seq_ (fun c => when_ (negb (has_key (tb_ids (c_fields c)) qual)) (allocate_field entry_fresh now_ms name f) c)
       (fun c => when_ (is_relation f && negb (has_key (tb_ids (c_rels c)) qual)) (allocate_rel entry_fresh now_ms name f) c).

Definition add_fields (now_ms : Z) (e : bytes * TypeDef) : Catalog -> cres (Catalog * list op) := each (add_field now_ms (fst e)) (fields (snd e)).

(** Retires an entry: its row is written again with the marks of a retirement. *)
Definition table_tombstone (now_ms : Z) (reason : RetireReason) (name : bytes) (t : Table) : option (Table * IdEntry) :=
  e ← bm_get name (tb_entries t);
  let e := entry_tombstone now_ms reason e in
  Some ({| tb_ids := tb_ids t; tb_entries := bm_insert name e (tb_entries t); tb_tombstoned_ids := {[ie_id e]} ∪ tb_tombstoned_ids t;
           tb_tombstoned_names := {[name]} ∪ tb_tombstoned_names t; tb_next := tb_next t |}, e).

Definition retire_type (now_ms : Z) (reason : RetireReason) (name : bytes) (c : Catalog) : cres (Catalog * list op) :=
  match table_tombstone now_ms reason name (c_types c) with
  | Some (t, e) => COk (set_types c t, [put (KeyBuilder.catalog_type name) (encode_id_entry e)])
  | None => COk (c, [])
  end.

Definition retire_field (now_ms : Z) (reason : RetireReason) (qual : bytes) (c : Catalog) : cres (Catalog * list op) :=
  match table_tombstone now_ms reason qual (c_fields c) with
  | Some (t, e) => let '(tn, f) := split_qualified qual in COk (set_fields c t, [put (KeyBuilder.catalog_field tn f) (encode_id_entry e)])
  | None => COk (c, [])
  end.

Definition retire_rel (now_ms : Z) (reason : RetireReason) (qual : bytes) (c : Catalog) : cres (Catalog * list op) :=
  match table_tombstone now_ms reason qual (c_rels c) with
  | Some (t, e) => let '(tn, f) := split_qualified qual in COk (set_rels c t, [put (KeyBuilder.catalog_rel tn f) (encode_id_entry e)])
  | None => COk (c, [])
  end.

(** The retirements of a reconciliation, in the order of the writes. *)
Definition retire_all (now_ms : Z) (dt df dr cf cr : list bytes) : Catalog -> cres (Catalog * list op) :=
  seq_ (each (retire_type now_ms ExplicitShrink) dt)
    (seq_ (each (retire_field now_ms ExplicitShrink) df)
      (seq_ (each (retire_rel now_ms ExplicitShrink) dr)
        (seq_ (each (retire_field now_ms CascadeParentRetired) cf) (each (retire_rel now_ms CascadeParentRetired) cr)))).

Definition is_empty {A} (l : list A) : bool := match l with [] => true | _ => false end.

Definition reconcile_into_txn (m : bmap bytes) (s : Schema) (c : Catalog) (allow_schema_shrink : bool) (new_digest : bytes) (now_ms : Z)
    : cres (Catalog * list op) :=
  let dt := dropped_types s c in
  let df := dropped_fields s c in
  let dr := dropped_rels s c in
  _ ← cguard ((is_empty dt && is_empty df && is_empty dr) || allow_schema_shrink) (SchemaShrinkRequiresOptIn dt df dr);
  _ ← check_type_names c (map fst (types s));
  _ ← check_member_names c (types s);
  let cf := cascaded (c_fields c) dt df in
  let cr := cascaded (c_rels c) dt dr in
  plans ← scan_migration_plans m;
  _ ← check_kinds s plans (c_field_kinds c);
  '(c, new_types) ← each (allocate_type entry_fresh now_ms) (new_type_names s c) c;
  '(c, new_members) ← each (add_fields now_ms) (types s) c;
  '(c, retired_rows) ← retire_all now_ms dt df dr cf cr c;
  let bump := negb (is_empty retired_rows) && (c_format_version c <? CATALOG_FORMAT_V2) in
  let c := if bump then set_format c CATALOG_FORMAT_V2 else c in
  COk (c, new_types ++ new_members ++ retired_rows
          ++ (if bump then [put KeyBuilder.catalog_format (encode_format_version CATALOG_FORMAT_V2)] else [])
          ++ counter_puts c ++ [put KeyBuilder.catalog_digest new_digest]).

(** ** Opening *)

(** The catalog, and the writes to commit when there are some. *)
Definition load_or_initialize_attempt (m : bmap bytes) (s : Schema) (allow_schema_shrink : bool) (now_ms : Z) : cres (Catalog * option (list op)) :=
  match bm_get KeyBuilder.catalog_format m, bm_get KeyBuilder.catalog_initialized m with
  | None, None => '(c, ws) ← backfill_into_txn s now_ms; COk (c, Some ws)
  | Some fv, Some _ =>
      v ← decode_format_version fv;
      _ ← cguard (v <=? CATALOG_FORMAT_CURRENT) (UnsupportedFormat v);
      c ← load_existing m v;
      stored ← require (bm_get KeyBuilder.catalog_digest m) (MissingRequiredKey KeyBuilder.catalog_digest);
      let want := compute_schema_digest s in
      if beqb stored want then COk (c, None)
      else '(c, ws) ← reconcile_into_txn m s c allow_schema_shrink want now_ms; COk (c, Some ws)
  | _, _ => '(c, ws) ← recover_partial_into_txn m s now_ms; COk (c, Some ws)
  end.

Fixpoint check_fields (fs : list FieldDef) : cres unit :=
  match fs with [] => COk tt | f :: fs => _ ← check_identifier (fd_name f); check_fields fs end.

Fixpoint check_identifiers (ts : list (bytes * TypeDef)) : cres unit :=
  match ts with [] => COk tt | e :: ts => _ ← check_identifier (fst e); _ ← check_fields (fields (snd e)); check_identifiers ts end.

Definition COMMIT_RETRY_BUDGET : nat := 8.

(** Attempt [i] reads the snapshot [snapshot i] and, when [conflict i], fails to
    commit.  Returns the catalog and the attempt that made it with its writes. *)
Fixpoint attempts (budget i : nat) (snapshot : nat -> bmap bytes) (conflict : nat -> bool) (s : Schema) (allow : bool) (clock : nat -> Z)
    : cres (Catalog * (nat * option (list op))) :=
  match budget with
  | O => CErr ConcurrentInit
  | S budget =>
      '(c, ws) ← load_or_initialize_attempt (snapshot i) s allow (clock i);
      match ws with
      | Some _ => if conflict i then attempts budget (S i) snapshot conflict s allow clock else COk (c, (i, ws))
      | None => COk (c, (i, ws))
      end
  end.

Definition load_or_initialize (snapshot : nat -> bmap bytes) (conflict : nat -> bool) (s : Schema) (allow : bool) (clock : nat -> Z)
    : cres (Catalog * (nat * option (list op))) :=
  _ ← check_identifiers (types s);
  attempts COMMIT_RETRY_BUDGET 0 snapshot conflict s allow clock.
End ops.
