(* ===== verification/CatalogInv.v ===== *)
(** * The catalog in memory and on disk

    [cat_ok]: the tables of a catalog are determined by their entries, whose ids
    are distinct and below the counter.  [rows_ok]: a store holds exactly the rows
    of a catalog.  Loading such a store gives the catalog back. *)

From Stdlib Require Import ZArith Lia Bool List Strings.Byte Strings.String.
From stdpp Require Import base tactics option list gmap.
From S2P Require Import Prelude ByteMap Keys Store Utf8 Values Schema IndexKeys CatalogCodec Catalog.

Local Open Scope Z_scope.

(** ** Maps *)

Definition bm_fmap {A B} (f : A -> B) (m : bmap A) : bmap B := map (fun e => (fst e, f (snd e))) m.

Lemma bm_fmap_insert {A B} (f : A -> B) k v m : bm_fmap f (bm_insert k v m) = bm_insert k (f v) (bm_fmap f m).
Proof.
  unfold bm_fmap. induction m as [|[k' v'] m IH]; [done|]. cbn [bm_insert map fst snd]. destruct (bytes_cmp k k'); cbn [map fst snd]; [done..|]. by rewrite IH.
Qed.

Lemma bm_fmap_get {A B} (f : A -> B) m k : bm_get k (bm_fmap f m) = f <$> bm_get k m.
Proof. induction m as [|[k' v'] m IH]; [done|]. cbn [bm_fmap map bm_get fst snd]. by destruct (beqb k k'). Qed.

Lemma bm_fmap_sorted {A B} (f : A -> B) m : bsorted m -> bsorted (bm_fmap f m).
Proof. induction 1 as [|e l Hl IH Hf]; [apply bsorted_nil|]. cbn [bm_fmap map]. constructor; [done|]. apply Forall_fmap. exact Hf. Qed.

Lemma bm_fmap_keys {A B} (f : A -> B) m : map fst (bm_fmap f m) = map fst m.
Proof. unfold bm_fmap. by rewrite map_map. Qed.

Lemma has_key_spec {V} (m : bmap V) k : has_key m k = true <-> is_Some (bm_get k m).
Proof. unfold has_key, is_some_. destruct (bm_get k m); split; intros H; done. Qed.

(** ** Tables *)

Definition is_retired (e : IdEntry) : Prop := ie_status e = Tombstoned.

Definition retired_entries (es : bmap IdEntry) : bmap IdEntry := List.filter (fun e => bool_decide (ie_status (snd e) = Tombstoned)) es.

(** The table with these entries. *)
Definition table_of (es : bmap IdEntry) (next : Z) : Table := {|
  tb_ids := bm_fmap ie_id es;
  tb_entries := es;
  tb_tombstoned_ids := list_to_set (map (fun e => ie_id (snd e)) (retired_entries es));
  tb_tombstoned_names := list_to_set (map fst (retired_entries es));
  tb_next := next |}.

Lemma in_tombstoned_ids es i : i ∈ (list_to_set (map (fun e => ie_id (snd e)) (retired_entries es)) : gset Z) <->
  exists n e, In (n, e) es /\ is_retired e /\ ie_id e = i.
Proof.
  rewrite elem_of_list_to_set, list_elem_of_In, in_map_iff. split.
  - intros ([n e] & <- & [Hin Hr%bool_decide_eq_true]%filter_In). by exists n, e.
  - intros (n & e & Hin & Hr & <-). exists (n, e). split; [done|]. apply filter_In. split; [done|]. by apply bool_decide_eq_true.
Qed.

Lemma in_tombstoned_names es n : n ∈ (list_to_set (map fst (retired_entries es)) : gset bytes) <-> exists e, In (n, e) es /\ is_retired e.
Proof.
  rewrite elem_of_list_to_set, list_elem_of_In, in_map_iff. split.
  - intros ([n' e] & <- & [Hin Hr%bool_decide_eq_true]%filter_In). by exists e.
  - intros (e & Hin & Hr). exists (n, e). split; [done|]. apply filter_In. split; [done|]. by apply bool_decide_eq_true.
Qed.

Lemma in_insert_new {V} (es : bmap V) n e n' e' : bsorted es -> bm_get n es = None -> In (n', e') (bm_insert n e es) <-> (n' = n /\ e' = e) \/ In (n', e') es.
Proof.
  intros Hs Hn. rewrite in_bm_insert by done. split; [intros [?|[? ?]]; [by left|by right]|]. intros [?|Hin]; [by left|]. right. split; [|done].
  intros ->. by eapply bm_get_none in Hn.
Qed.

(** Inserting a new name. *)
Lemma table_insert_of n e es next : bsorted es -> bm_get n es = None -> table_insert n e (table_of es next) = table_of (bm_insert n e es) next.
Proof.
  intros Hs Hn. unfold table_insert, table_of. cbn [tb_ids tb_entries tb_tombstoned_ids tb_tombstoned_names tb_next].
  rewrite bm_fmap_insert. f_equal; apply set_eq; intros x.
  - rewrite in_tombstoned_ids. setoid_rewrite in_insert_new; [|done..]. destruct (ie_status e) eqn:Es; rewrite ?elem_of_union, ?elem_of_singleton, in_tombstoned_ids; split.
    + intros (n' & e' & Hin & H). exists n', e'. split; [by right|done].
    + intros (n' & e' & [[-> ->]|Hin] & Hr & <-); [by unfold is_retired in Hr; rewrite Es in Hr|]. by exists n', e'.
    + intros [->|(n' & e' & Hin & H)]; [exists n, e; split; [by left|done]|]. exists n', e'. split; [by right|done].
    + intros (n' & e' & [[-> ->]|Hin] & Hr & <-); [by left|]. right. by exists n', e'.
  - rewrite in_tombstoned_names. setoid_rewrite in_insert_new; [|done..]. destruct (ie_status e) eqn:Es; rewrite ?elem_of_union, ?elem_of_singleton, in_tombstoned_names; split.
    + intros (e' & Hin & H). exists e'. split; [by right|done].
    + intros (e' & [[-> ->]|Hin] & Hr); [by unfold is_retired in Hr; rewrite Es in Hr|]. by exists e'.
    + intros [->|(e' & Hin & H)]; [exists e; split; [by left|done]|]. exists e'. split; [by right|done].
    + intros (e' & [[-> ->]|Hin] & Hr); [by left|]. right. by exists e'.
Qed.

(** Retiring an entry. *)
Lemma table_tombstone_of now reason n es next e : bsorted es -> bm_get n es = Some e ->
  table_tombstone now reason n (table_of es next) = Some (table_of (bm_insert n (entry_tombstone now reason e) es) next, entry_tombstone now reason e).
Proof.
  intros Hs Hn. unfold table_tombstone. cbn [table_of tb_ids tb_entries tb_tombstoned_ids tb_tombstoned_names tb_next]. rewrite Hn. cbn [mbind option_bind].
  f_equal. f_equal. unfold table_of. pose proof (bm_get_in n e es Hs) as [Hin _]. specialize (Hin Hn).
  assert (Hids : bm_fmap ie_id (bm_insert n (entry_tombstone now reason e) es) = bm_fmap ie_id es).
  { apply bm_ext; [by apply bm_fmap_sorted, bsorted_insert|by apply bm_fmap_sorted|]. intros k. rewrite !bm_fmap_get, bm_get_insert by done.
    case_decide; [|done]. subst k. by rewrite Hn. }
  rewrite Hids. f_equal; apply set_eq; intros x.
  - rewrite elem_of_union, elem_of_singleton, !in_tombstoned_ids. setoid_rewrite in_bm_insert; [|done..]. split.
    + intros [->|(n' & e' & H1 & H2 & H3)]; [exists n, (entry_tombstone now reason e); split; [by left|done]|]. destruct (decide (n' = n)) as [->|Hne].
      * exists n, (entry_tombstone now reason e). split; [by left|]. split; [done|]. apply bm_get_in in H1; [|done]. rewrite Hn in H1. by injection H1 as <-.
      * exists n', e'. split; [by right|done].
    + intros (n' & e' & [[-> ->]|[_ H1]] & H2 & <-); [by left|]. right. by exists n', e'.
  - rewrite elem_of_union, elem_of_singleton, !in_tombstoned_names. setoid_rewrite in_bm_insert; [|done..]. split.
    + intros [->|(e' & H1 & H2)]; [exists (entry_tombstone now reason e); split; [by left|done]|]. destruct (decide (x = n)) as [->|Hne].
      * exists (entry_tombstone now reason e). split; [by left|done].
      * exists e'. split; [by right|done].
    + intros (e' & [[-> ->]|[_ H1]] & H2); [by left|]. right. by exists e'.
Qed.

Lemma set_next_of es n n' : set_next (table_of es n) n' = table_of es n'.
Proof. done. Qed.

(** ** Names and keys *)

Definition plain_name (n : bytes) : Prop := existsb reserved_byte n = false /\ utf8_valid n = true.

(** A member is a field or relation, named with its type. *)
Definition member (q : bytes) : Prop := exists t f, q = qualified t f /\ plain_name t /\ plain_name f.

Lemma existsb_false_cons (b : byte) n : existsb reserved_byte (b :: n) = false -> reserved_byte b = false /\ existsb reserved_byte n = false.
Proof. cbn [existsb]. by intros [? ?]%orb_false_iff. Qed.

Lemma split_qualified_of t f : existsb reserved_byte t = false -> split_qualified (qualified t f) = (t, f).
Proof.
  unfold qualified. induction t as [|b t IH]; intros H; [done|]. apply existsb_false_cons in H as [Hb H]. cbn [app split_qualified].
  unfold reserved_byte in Hb. apply orb_false_iff in Hb as [_ Hb]. rewrite Hb. change ([x2e] ++ f) with (x2e :: f) in IH. by rewrite IH.
Qed.

Lemma split_nul_of t f : existsb reserved_byte t = false -> split_nul (t ++ [x00] ++ f) = Some (t, f).
Proof.
  induction t as [|b t IH]; intros H; [done|]. apply existsb_false_cons in H as [Hb H]. cbn [app split_nul].
  unfold reserved_byte in Hb. apply orb_false_iff in Hb as [[Hb _]%orb_false_iff _]. rewrite Hb. cbn [app] in IH. by rewrite IH.
Qed.

Definition field_key (q : bytes) : bytes := let '(t, f) := split_qualified q in KeyBuilder.catalog_field t f.
Definition rel_key (q : bytes) : bytes := let '(t, f) := split_qualified q in KeyBuilder.catalog_rel t f.

Lemma field_key_of t f : plain_name t -> field_key (qualified t f) = KeyBuilder.catalog_field t f.
Proof. intros [H _]. unfold field_key. by rewrite split_qualified_of. Qed.

Lemma rel_key_of t f : plain_name t -> rel_key (qualified t f) = KeyBuilder.catalog_rel t f.
Proof. intros [H _]. unfold rel_key. by rewrite split_qualified_of. Qed.

(** How the rows of a table are named. *)
Record naming := {
  nm_prefix : bytes;
  nm_key : bytes -> bytes;
  nm_row : bytes -> cres bytes;
  nm_ok : bytes -> Prop;
  nm_key_prefix : forall n, nm_ok n -> nm_prefix `prefix_of` nm_key n;
  nm_row_key : forall n, nm_ok n -> nm_row (drop (List.length nm_prefix) (nm_key n)) = COk n;
}.

Lemma member_row t f : plain_name t -> plain_name f -> member_row_name (t ++ [x00] ++ f) = COk (qualified t f).
Proof. intros [Ht Hut] [Hf Huf]. unfold member_row_name. rewrite split_nul_of by done. cbn [require mbind cres_bind]. by rewrite Hut, Huf. Qed.

Program Definition type_naming : naming := {|
  nm_prefix := KeyBuilder.catalog_prefix_type; nm_key := KeyBuilder.catalog_type; nm_row := type_row_name; nm_ok := plain_name |}.
Next Obligation. intros n _. by exists n. Qed.
Next Obligation. intros n [_ Hu]. change (type_row_name n = COk n). unfold type_row_name. by rewrite Hu. Qed.

Program Definition field_naming : naming := {|
  nm_prefix := KeyBuilder.catalog_prefix_field; nm_key := field_key; nm_row := member_row_name; nm_ok := member |}.
Next Obligation. intros n (t & f & -> & Ht & Hf). rewrite field_key_of by done. by exists (t ++ [x00] ++ f). Qed.
Next Obligation. intros n (t & f & -> & Ht & Hf). rewrite field_key_of by done. change (member_row_name (t ++ [x00] ++ f) = COk (qualified t f)). by apply member_row. Qed.

Program Definition rel_naming : naming := {|
  nm_prefix := KeyBuilder.catalog_prefix_rel; nm_key := rel_key; nm_row := member_row_name; nm_ok := member |}.
Next Obligation. intros n (t & f & -> & Ht & Hf). rewrite rel_key_of by done. by exists (t ++ [x00] ++ f). Qed.
Next Obligation. intros n (t & f & -> & Ht & Hf). rewrite rel_key_of by done. change (member_row_name (t ++ [x00] ++ f) = COk (qualified t f)). by apply member_row. Qed.

Lemma nm_key_inj (N : naming) n n' : nm_ok N n -> nm_ok N n' -> nm_key N n = nm_key N n' -> n = n'.
Proof. intros H H' E. pose proof (nm_row_key N n H) as A. rewrite E, (nm_row_key N n' H') in A. by injection A. Qed.

(** ** The invariants of a table *)

Record entries_ok (N : naming) (es : bmap IdEntry) (next : Z) : Prop := {
  en_sorted : bsorted es;
  en_names : forall n e, bm_get n es = Some e -> nm_ok N n;
  en_entries : forall n e, bm_get n es = Some e -> entry_ok e;
  en_below : forall n e, bm_get n es = Some e -> 1 <= ie_id e < next;
  en_distinct : forall n n' e e', bm_get n es = Some e -> bm_get n' es = Some e' -> ie_id e = ie_id e' -> n = n';
  en_next : 1 <= next /\ is_u64 next;
}.

(** The store holds exactly the rows of the entries. *)
Definition rows_ok (N : naming) (es : bmap IdEntry) (m : bmap bytes) : Prop :=
  forall k v, nm_prefix N `prefix_of` k -> bm_get k m = Some v <-> exists n e, bm_get n es = Some e /\ k = nm_key N n /\ v = encode_id_entry e.

(** Writing the row of an entry that is new or changed. *)
Lemma rows_ok_put N es m n e : bsorted m -> bsorted es -> (forall n e, bm_get n es = Some e -> nm_ok N n) -> nm_ok N n -> rows_ok N es m ->
  rows_ok N (bm_insert n e es) (apply_op m (put (nm_key N n) (encode_id_entry e))).
Proof.
  intros Hm Hes Hok Hn Hr k v Hp. rewrite bm_get_apply_op by done. cbn [put fst snd]. case_decide as Ek.
  - subst k. split.
    + intros [= <-]. exists n, e. rewrite bm_get_insert by done. by rewrite decide_True.
    + intros (n' & e' & Hg & Ek & ->). rewrite bm_get_insert in Hg by done. case_decide; [by injection Hg as ->|].
      apply nm_key_inj in Ek; [done|done|by eapply Hok].
  - rewrite (Hr k v Hp). split; intros (n' & e' & Hg & -> & ->); exists n', e'; rewrite bm_get_insert in * by done.
    + rewrite decide_False; [done|]. intros ->. done.
    + rewrite decide_False in Hg; [done|]. intros ->. done.
Qed.

Lemma rows_ok_ext N es m m' : (forall k, nm_prefix N `prefix_of` k -> bm_get k m' = bm_get k m) -> rows_ok N es m -> rows_ok N es m'.
Proof. intros H Hr k v Hp. rewrite H by done. by apply Hr. Qed.

(** ** Loading a table *)

Definition entry_row (N : naming) (ne : bytes * IdEntry) : bytes * bytes := (nm_key N (fst ne), encode_id_entry (snd ne)).

Lemma rows_are_entries N es m : bsorted m -> rows_ok N es m -> forall rows, (forall row, In row rows -> In row (rows_under (nm_prefix N) m)) ->
  exists l, rows = map (entry_row N) l /\ forall n e, In (n, e) l -> bm_get n es = Some e.
Proof.
  intros Hm Hr. induction rows as [|[k v] rows IH]; intros Hin; [by exists []|].
  destruct IH as (l & -> & Hl); [intros row Hrow; apply Hin; by right|]. specialize (Hin (k, v) (or_introl eq_refl)). unfold rows_under in Hin.
  apply filter_In in Hin as [Hin Hp]. apply starts_with_true in Hp. apply bm_get_in in Hin; [|done]. apply Hr in Hin as (n & e & Hg & -> & ->); [|done].
  exists ((n, e) :: l). split; [done|]. intros n' e' [[= <- <-]|H]; [done|by apply Hl].
Qed.

Section load_table.
Variables (N : naming) (kind : EntryKind) (insert : bytes -> IdEntry -> Catalog -> Catalog) (fv : Z).

Definition insert_list (l : list (bytes * IdEntry)) (c : Catalog) : Catalog := fold_left (fun c ne => insert (fst ne) (snd ne) c) l c.

Lemma load_entry_rows l : forall seen c, (forall n e, In (n, e) l -> nm_ok N n /\ entry_ok e /\ (fv = CATALOG_FORMAT_V1 -> ~ is_retired e)) ->
  NoDup (map (fun ne => ie_id (snd ne)) l) -> (forall n e, In (n, e) l -> ie_id e ∉ seen) ->
  load_rows kind (nm_row N) insert fv (nm_prefix N) (map (entry_row N) l) seen c = COk (insert_list l c).
Proof.
  induction l as [|[n e] l IH]; intros seen c Hok Hn Hs; [done|]. destruct (Hok n e (or_introl eq_refl)) as (Hname & He & Hf).
  cbn [map entry_row fst snd load_rows]. rewrite nm_row_key by done. cbn [mbind cres_bind]. rewrite id_entry_round_trip by done. cbn [mbind cres_bind].
  assert (((fv =? CATALOG_FORMAT_V1) && bool_decide (ie_status e = Tombstoned)) = false) as ->.
  { apply andb_false_iff. destruct (Z.eqb_spec fv CATALOG_FORMAT_V1); [right|by left]. apply bool_decide_eq_false. by apply Hf. }
  cbn [negb cguard mbind cres_bind]. rewrite (bool_decide_eq_false_2 (ie_id e ∈ seen)) by (apply (Hs n e); by left). cbn [negb cguard mbind cres_bind].
  apply NoDup_cons in Hn as [Hi Hn]. rewrite IH; [done|intros n' e' H'; apply Hok; by right|done|].
  intros n' e' H'. rewrite elem_of_union, elem_of_singleton. intros [E|E]; [|by apply (Hs n' e'); [right|]]. apply Hi. cbn [snd]. rewrite <- E.
  apply list_elem_of_In. change (ie_id e') with ((fun ne : bytes * IdEntry => ie_id (snd ne)) (n', e')). by apply in_map.
Qed.
End load_table.

(** Inserting all the entries in some order. *)
Lemma table_insert_list l : forall es next, bsorted es -> NoDup (map fst l) -> (forall n e, In (n, e) l -> bm_get n es = None) ->
  fold_left (fun t ne => table_insert (fst ne) (snd ne) t) l (table_of es next) = table_of (bm_insert_all l es) next.
Proof.
  induction l as [|[n e] l IH]; intros es next Hs Hn Hf; [done|]. cbn [fold_left fst snd]. apply NoDup_cons in Hn as [Hi Hn].
  rewrite table_insert_of by (done || apply (Hf n e); by left). rewrite IH; [done|by apply bsorted_insert|done|].
  intros n' e' H'. rewrite bm_get_insert by done. rewrite decide_False; [by apply (Hf n' e'); right|]. intros ->. apply Hi, list_elem_of_In.
  by apply (in_map fst) in H'.
Qed.

(** The entries of the rows of a table, in the order of the rows. *)
Lemma load_order N es next m : bsorted m -> entries_ok N es next -> rows_ok N es m ->
  exists l, rows_under (nm_prefix N) m = map (entry_row N) l /\ (forall n e, In (n, e) l <-> bm_get n es = Some e) /\ NoDup (map fst l) /\
    NoDup (map (fun ne => ie_id (snd ne)) l) /\ bm_insert_all l [] = es.
Proof.
  intros Hm He Hr. destruct (rows_are_entries N es m Hm Hr (rows_under (nm_prefix N) m)) as (l & El & Hl); [done|].
  assert (Hrows : forall n e, bm_get n es = Some e -> In (entry_row N (n, e)) (rows_under (nm_prefix N) m)).
  { intros n e Hg. unfold rows_under. apply filter_In. pose proof (nm_key_prefix N n (en_names N es next He n e Hg)) as Hp. split; [|by apply starts_with_true].
    apply bm_get_in; [done|]. apply Hr; [done|]. by exists n, e. }
  assert (Hin : forall n e, In (n, e) l <-> bm_get n es = Some e).
  { intros n e. split; [apply Hl|]. intros Hg. pose proof (Hrows n e Hg) as H. rewrite El in H. apply in_map_iff in H as ([n' e'] & E & H).
    apply (f_equal fst) in E. cbn in E. pose proof (Hl n' e' H) as Hg'. apply nm_key_inj in E; [|by eapply He..]. subst n'. congruence. }
  assert (Hkeys : NoDup (map (nm_key N) (map fst l))).
  { rewrite map_map. change (fun x : bytes * IdEntry => nm_key N x.1) with (fun x => fst (entry_row N x)). rewrite <- (map_map (entry_row N) fst), <- El.
    apply bsorted_nodup, bsorted_filter, Hm. }
  assert (Hn : NoDup (map fst l)) by (by eapply NoDup_fmap_1).
  exists l. split_and!; [done|done|done| |].
  - clear Hkeys El. assert (Hd : forall n n' e e', In (n, e) l -> In (n', e') l -> ie_id e = ie_id e' -> n = n').
    { intros n n' e e' H H' E. apply Hin in H, H'. by eapply He. }
    clear Hin Hl Hrows. induction l as [|[n e] l IH]; [constructor|]. cbn [map fst snd] in *. apply NoDup_cons in Hn as [Hi Hn]. apply NoDup_cons. split.
    + intros Hx. apply list_elem_of_In, in_map_iff in Hx as ([n' e'] & E & H'). apply Hi, list_elem_of_In. rewrite (Hd n n' e e'); [by apply (in_map fst) in H'|by left|by right|done].
    + apply IH; [done|]. intros n1 n2 e1 e2 H1 H2. apply Hd; by right.
  - apply bm_ext; [apply bsorted_insert_all, bsorted_nil|apply He|]. intros n. destruct (bm_get n es) as [e|] eqn:Eg.
    + apply bm_get_insert_all_in; [apply bsorted_nil|done|]. by apply Hin.
    + rewrite bm_get_insert_all_notin; [done|apply bsorted_nil|]. intros ([n' e] & <- & H)%in_map_iff. apply Hin in H. cbn in Eg. congruence.
Qed.

(** ** The invariants of a catalog *)

Definition cat_of (et ef er : bmap IdEntry) (nt nf nr fv : Z) : Catalog := {|
  c_types := table_of et nt; c_fields := table_of ef nf; c_rels := table_of er nr; c_field_kinds := bm_fmap ie_kind ef; c_format_version := fv |}.

Definition none_retired (es : bmap IdEntry) : Prop := forall n e, bm_get n es = Some e -> ~ is_retired e.

Definition type_entries (c : Catalog) : bmap IdEntry := tb_entries (c_types c).
Definition field_entries (c : Catalog) : bmap IdEntry := tb_entries (c_fields c).
Definition rel_entries (c : Catalog) : bmap IdEntry := tb_entries (c_rels c).

Record cat_ok (c : Catalog) : Prop := {
  co_shape : c = cat_of (type_entries c) (field_entries c) (rel_entries c) (tb_next (c_types c)) (tb_next (c_fields c)) (tb_next (c_rels c)) (c_format_version c);
  co_types : entries_ok type_naming (type_entries c) (tb_next (c_types c));
  co_fields : entries_ok field_naming (field_entries c) (tb_next (c_fields c));
  co_rels : entries_ok rel_naming (rel_entries c) (tb_next (c_rels c));
}.

(** The format of a catalog with retired entries is at least the second. *)
Definition format_ok (c : Catalog) : Prop :=
  1 <= c_format_version c <= CATALOG_FORMAT_CURRENT /\
  (c_format_version c = CATALOG_FORMAT_V1 -> none_retired (type_entries c) /\ none_retired (field_entries c) /\ none_retired (rel_entries c)).

Record disk_ok (m : bmap bytes) (c : Catalog) : Prop := {
  dk_sorted : bsorted m;
  dk_types : rows_ok type_naming (type_entries c) m;
  dk_fields : rows_ok field_naming (field_entries c) m;
  dk_rels : rows_ok rel_naming (rel_entries c) m;
}.

Record header_ok (m : bmap bytes) (c : Catalog) : Prop := {
  hd_type : bm_get KeyBuilder.catalog_next_type m = Some (encode_counter (tb_next (c_types c)));
  hd_field : bm_get KeyBuilder.catalog_next_field m = Some (encode_counter (tb_next (c_fields c)));
  hd_rel : bm_get KeyBuilder.catalog_next_rel m = Some (encode_counter (tb_next (c_rels c)));
  hd_format : bm_get KeyBuilder.catalog_format m = Some (encode_format_version (c_format_version c));
  hd_init : is_Some (bm_get KeyBuilder.catalog_initialized m);
}.

(** ** Loading *)

Lemma fold_max_bound l : forall i b, i < b -> (forall x, In x l -> x < b) -> fold_left Z.max l i < b.
Proof. induction l as [|x l IH]; intros i b Hi Hl; [done|]. cbn [fold_left]. apply IH; [|intros y Hy; apply Hl; by right]. specialize (Hl x (or_introl eq_refl)). lia. Qed.

(** A counter that is ahead is kept. *)
Lemma heal_kept N es next : entries_ok N es next -> self_heal_counter next (max_assigned (bm_fmap ie_id es)) = next.
Proof.
  intros He. destruct (en_next N es next He) as [H1 H2]. unfold max_assigned, bm_fmap. rewrite map_map. cbn [snd]. destruct es as [|[n e] es]; [cbn; lia|].
  cbn [map snd self_heal_counter]. pose proof (en_sorted N _ next He) as Hs.
  assert (Hb : forall n' e', In (n', e') ((n, e) :: es) -> ie_id e' < next) by (intros n' e' Hin; apply bm_get_in in Hin; [|done]; by eapply He).
  assert (fold_left Z.max (map (fun x : bytes * IdEntry => ie_id x.2) es) (ie_id e) < next).
  { apply fold_max_bound; [apply (Hb n e); by left|]. intros x ([n' e'] & <- & Hin)%in_map_iff. apply (Hb n' e'). by right. }
  lia.
Qed.

Lemma insert_types_list l c : insert_list insert_type l c = set_types c (fold_left (fun t ne => table_insert (fst ne) (snd ne) t) l (c_types c)).
Proof. unfold insert_list. revert c. induction l as [|ne l IH]; intros c; [by destruct c|]. cbn [fold_left]. by rewrite IH. Qed.

Lemma insert_rels_list l c : insert_list insert_rel l c = set_rels c (fold_left (fun t ne => table_insert (fst ne) (snd ne) t) l (c_rels c)).
Proof. unfold insert_list. revert c. induction l as [|ne l IH]; intros c; [by destruct c|]. cbn [fold_left]. by rewrite IH. Qed.

Lemma insert_fields_list l c : insert_list insert_field l c =
  set_kinds (set_fields c (fold_left (fun t ne => table_insert (fst ne) (snd ne) t) l (c_fields c))) (bm_insert_all (map (fun ne => (fst ne, ie_kind (snd ne))) l) (c_field_kinds c)).
Proof. unfold insert_list. revert c. induction l as [|ne l IH]; intros c; [by destruct c|]. cbn [fold_left map]. by rewrite IH. Qed.

Lemma bm_insert_all_fmap {A B} (f : A -> B) l : forall es, bm_insert_all (map (fun ne => (fst ne, f (snd ne))) l) (bm_fmap f es) = bm_fmap f (bm_insert_all l es).
Proof. induction l as [|ne l IH]; intros es; [done|]. cbn [map]. unfold bm_insert_all in *. cbn [fold_left fst snd]. by rewrite <- bm_fmap_insert, IH. Qed.

(** Loading gives back the catalog a store holds. *)
Lemma load_existing_ok m c : cat_ok c -> format_ok c -> disk_ok m c -> header_ok m c -> load_existing m (c_format_version c) = COk c.
Proof.
  intros [Hc Ht Hf Hr] [Hv Hv'] [Hm Dt Df Dr] [Ct Cf Cr _ _]. unfold load_existing.
  destruct (load_order _ _ _ _ Hm Ht Dt) as (lt & Et & It & Nt & Jt & Lt). destruct (load_order _ _ _ _ Hm Hf Df) as (lf & Ef & If & Nf & Jf & Lf).
  destruct (load_order _ _ _ _ Hm Hr Dr) as (lr & Er & Ir & Nr & Jr & Lr).
  assert (Hgood : forall N es next l, entries_ok N es next -> (forall n e, In (n, e) l <-> bm_get n es = Some e) -> (c_format_version c = CATALOG_FORMAT_V1 -> none_retired es) ->
    forall n e, In (n, e) l -> nm_ok N n /\ entry_ok e /\ (c_format_version c = CATALOG_FORMAT_V1 -> ~ is_retired e)).
  { intros N es next l He Hl Hn n e Hin%Hl. split_and!; [by eapply He|by eapply He|]. intros E. by eapply Hn. }
  pose proof (load_entry_rows type_naming KType insert_type (c_format_version c) lt ∅) as L1. rewrite <- Et in L1. cbn [nm_prefix nm_row type_naming] in L1.
  rewrite L1; [|by eapply Hgood; [exact Ht|exact It|intros E; by apply Hv']|done|set_solver]. cbn [mbind cres_bind].
  pose proof (load_entry_rows field_naming KField insert_field (c_format_version c) lf ∅) as L2. rewrite <- Ef in L2. cbn [nm_prefix nm_row field_naming] in L2.
  rewrite L2; [|by eapply Hgood; [exact Hf|exact If|intros E; by apply Hv']|done|set_solver]. cbn [mbind cres_bind].
  pose proof (load_entry_rows rel_naming KRelation insert_rel (c_format_version c) lr ∅) as L3. rewrite <- Er in L3. cbn [nm_prefix nm_row rel_naming] in L3.
  rewrite L3; [|by eapply Hgood; [exact Hr|exact Ir|intros E; by apply Hv']|done|set_solver]. cbn [mbind cres_bind].
  unfold read_counter. rewrite Ct, Cf, Cr. cbn [require mbind cres_bind]. rewrite !counter_round_trip by (apply (en_next _ _ _ Ht) || apply (en_next _ _ _ Hf) || apply (en_next _ _ _ Hr)).
  cbn [mbind cres_bind]. rewrite insert_types_list, insert_fields_list, insert_rels_list. cbn [set_types set_fields set_rels set_kinds set_format c_types c_fields c_rels c_field_kinds].
  change (table_empty 0) with (table_of [] 0). rewrite !table_insert_list by (done || apply bsorted_nil). rewrite Lt, Lf, Lr.
  change (@nil (bytes * Z)) with (bm_fmap ie_kind []). rewrite bm_insert_all_fmap, Lf, !set_next_of. cbn [table_of tb_ids].
  rewrite (heal_kept _ _ _ Ht), (heal_kept _ _ _ Hf), (heal_kept _ _ _ Hr). f_equal. symmetry. exact Hc.
Qed.

(** * Opening a database keeps its ids

    Every step of an opening keeps the catalog and the store in step, never
    changes or reuses an id, and leaves an id for everything the schema names. *)

(** ** Entries *)

Lemma new_entry_ok id kind now by_ : is_u64 id -> is_byte kind -> is_u64 now -> is_byte by_ -> entry_ok (new_entry id kind now by_).
Proof.
  intros H1 H2 H3 H4. split; cbn [new_entry ie_id ie_assigned_at ie_assigned_by ie_kind ie_status ie_retired_at_ms ie_retired_reason ie_previous_names
    ie_last_renamed_at_ms ie_type_change_history ie_last_type_change_at_ms ie_unknown_tlvs opt_u64]; try done.
  split; constructor.
Qed.

Lemma len_write_app a b : len (write_tlvs (a ++ b)) = len (write_tlvs a) + len (write_tlvs b).
Proof. unfold write_tlvs. by rewrite map_app, concat_app, len_app. Qed.

Lemma tombstone_ok now reason e : is_u64 now -> entry_ok e -> entry_ok (entry_tombstone now reason e).
Proof.
  intros Hn [H1 H2 H3 H4 H5 H6 H7 H8 H9 H10 H11 H12]. split; cbn [entry_tombstone ie_id ie_assigned_at ie_assigned_by ie_kind ie_status ie_retired_at_ms ie_retired_reason
    ie_previous_names ie_last_renamed_at_ms ie_type_change_history ie_last_type_change_at_ms ie_unknown_tlvs opt_u64]; try done.
  unfold id_entry_tlvs, TOMBSTONE_BYTES in *. cbn [entry_tombstone ie_id ie_assigned_at ie_assigned_by ie_kind ie_status ie_retired_at_ms ie_retired_reason
    ie_previous_names ie_last_renamed_at_ms ie_type_change_history ie_last_type_change_at_ms ie_unknown_tlvs opt_tlv]. rewrite !len_write_app in *.
  assert (Hlen : forall r, len (write_tlvs [(TLV_STATUS, u8_value STATUS_TOMBSTONED)]) + (len (write_tlvs [(TLV_RETIRED_AT_MS, be64 now)]) +
    len (write_tlvs [(TLV_RETIRED_REASON, u8_value (reason_byte r))])) = 19).
  { intros r. unfold write_tlvs, write_tlv, u8_value. cbn [map List.concat fst snd]. rewrite !len_app, !len_be16, !(len_be 8), !len_cons, !len_nil. lia. }
  rewrite Hlen. destruct (ie_status e).
  - change (len (write_tlvs [])) with 0 in H12. lia.
  - destruct H5 as [[ms Em] [r Er]]. rewrite Em, Er in H12. cbn [opt_tlv] in H12. rewrite !len_write_app in H12.
    assert (E : len (write_tlvs [(TLV_STATUS, u8_value STATUS_TOMBSTONED)]) + (len (write_tlvs [(TLV_RETIRED_AT_MS, be64 ms)]) +
      len (write_tlvs [(TLV_RETIRED_REASON, u8_value (reason_byte r))])) = 19).
    { unfold write_tlvs, write_tlv, u8_value. cbn [map List.concat fst snd]. rewrite !len_app, !len_be16, !(len_be 8), !len_cons, !len_nil. lia. }
    lia.
Qed.

Lemma schema_kind_is_byte ft : is_byte (schema_kind_byte ft).
Proof. unfold is_byte, schema_kind_byte, KIND_RELATION. destruct ft as [[]| |]; cbn; lia. Qed.

(** ** Tables *)

Lemma alloc_entries N es next n e : entries_ok N es next -> nm_ok N n -> bm_get n es = None -> entry_ok e -> ie_id e = next -> next < u64_max ->
  entries_ok N (bm_insert n e es) (next + 1).
Proof.
  intros [Hs Hn He Hb Hd [Hx1 Hx2]] Hok Hg Hent Hid Hlt. unfold u64_max, is_u64 in *. split; [by apply bsorted_insert| | | | |unfold is_u64; lia];
    intros n' e'; rewrite ?bm_get_insert by done.
  - case_decide; [by subst|]. by apply Hn.
  - case_decide; [intros [= <-]; done|]. by apply He.
  - case_decide; [intros [= <-]; lia|]. intros Hg'. apply Hb in Hg'. lia.
  - intros e1 e2. repeat case_decide; subst; try done.
    + intros [= <-] G E. apply Hb in G. lia.
    + intros G [= <-] E. apply Hb in G. lia.
    + by apply Hd.
Qed.

Lemma retire_entries N es next n e now reason : entries_ok N es next -> bm_get n es = Some e -> is_u64 now ->
  entries_ok N (bm_insert n (entry_tombstone now reason e) es) next.
Proof.
  intros [Hs Hn He Hb Hd Hx] Hg Hnow. split; [by apply bsorted_insert| | | | |done]; intros n' e'; rewrite ?bm_get_insert by done.
  - case_decide; [intros _; subst; by eapply Hn|]. by apply Hn.
  - case_decide; [intros [= <-]; apply tombstone_ok; [done|by eapply He]|]. by apply He.
  - case_decide; [intros [= <-]; by apply (Hb n e)|]. by apply Hb.
  - intros e1 e2. repeat case_decide; subst; try done.
    + intros [= <-] G E. by eapply Hd.
    + intros G [= <-] E. by eapply Hd.
    + by apply Hd.
Qed.

(** ** Evolution *)

(** Entries stay, with their ids and kinds; retired ones stay retired. *)
Definition grows (es es' : bmap IdEntry) : Prop :=
  forall n e, bm_get n es = Some e -> exists e', bm_get n es' = Some e' /\ ie_id e' = ie_id e /\ ie_kind e' = ie_kind e /\ (is_retired e -> is_retired e').

Definition retired_in (es : bmap IdEntry) (n : bytes) : Prop := exists e, bm_get n es = Some e /\ is_retired e.

Definition extends (c c' : Catalog) : Prop :=
  grows (type_entries c) (type_entries c') /\ grows (field_entries c) (field_entries c') /\ grows (rel_entries c) (rel_entries c').

#[global] Instance grows_preorder : PreOrder grows.
Proof.
  split.
  - intros es n e H. by exists e.
  - intros a b d H1 H2 n e H. destruct (H1 n e H) as (e1 & G1 & I1 & K1 & R1). destruct (H2 n e1 G1) as (e2 & G2 & I2 & K2 & R2).
    exists e2. split_and!; [done|congruence|congruence|auto].
Qed.

#[global] Instance extends_preorder : PreOrder extends.
Proof.
  split; [intros c; by split_and!|]. intros a b d (H1 & H2 & H3) (G1 & G2 & G3). split_and!; by etrans.
Qed.

(** The names in [PT], [PF] and [PR] are those that may be retired. *)
Section evolution.
Variables (PT PF PR : bytes -> Prop).

Definition retires (P : bytes -> Prop) (es es' : bmap IdEntry) : Prop := forall n, retired_in es' n -> retired_in es n \/ P n.

Record evolves (c c' : Catalog) : Prop := {
  ev_extends : extends c c';
  ev_types : retires PT (type_entries c) (type_entries c');
  ev_fields : retires PF (field_entries c) (field_entries c');
  ev_rels : retires PR (rel_entries c) (rel_entries c');
  ev_format : c_format_version c' = c_format_version c;
}.

#[global] Instance evolves_preorder : PreOrder evolves.
Proof.
  split.
  - intros c. split; try done; intros n H; by left.
  - intros a b d [E1 T1 F1 R1 V1] [E2 T2 F2 R2 V2]. split; [by etrans| | | |congruence].
    + intros n [H|H]%T2; [by apply T1|by right].
    + intros n [H|H]%F2; [by apply F1|by right].
    + intros n [H|H]%R2; [by apply R1|by right].
Qed.

(** Writes of rows of entries only. *)
Definition table_key (k : bytes) : bool :=
  starts_with k KeyBuilder.catalog_prefix_type || starts_with k KeyBuilder.catalog_prefix_field || starts_with k KeyBuilder.catalog_prefix_rel.

Definition table_ops (ws : list op) : Prop := Forall (fun w => table_key (fst w) = true) ws.

Definition inv (c : Catalog) (m : bmap bytes) : Prop := cat_ok c /\ disk_ok m c.

(** A step of an opening at a catalog. *)
Definition keeps (f : Catalog -> cres (Catalog * list op)) (c : Catalog) : Prop :=
  forall c' ws m, inv c m -> f c = COk (c', ws) -> inv c' (apply_ops ws m) /\ evolves c c' /\ table_ops ws.

Lemma keeps_nothing c : keeps (fun c => COk (c, [])) c.
Proof. intros c' ws m Hi [= <- <-]. split; [done|]. split; [done|constructor]. Qed.

Lemma keeps_seq f g c : keeps f c -> (forall c' ws, f c = COk (c', ws) -> evolves c c' -> keeps g c') -> keeps (seq_ f g) c.
Proof.
  intros Hf Hg c' ws m Hi H. unfold seq_ in H. apply cbind_ok in H as ([c1 w1] & H1 & H). apply cbind_ok in H as ([c2 w2] & H2 & [= <- <-]).
  destruct (Hf c1 w1 m Hi H1) as (Hi1 & E1 & T1). destruct (Hg c1 w1 H1 E1 c2 w2 _ Hi1 H2) as (Hi2 & E2 & T2).
  rewrite apply_ops_app. split; [done|]. split; [by etrans|]. by apply Forall_app.
Qed.

Lemma keeps_when b f c : (b = true -> keeps f c) -> keeps (when_ b f) c.
Proof. intros H. unfold keeps, when_. destruct b; [by apply H|apply keeps_nothing]. Qed.

(** Over a list, when every step is good wherever the earlier ones lead. *)
Lemma keeps_each {A} (f : A -> Catalog -> cres (Catalog * list op)) l c : (forall a c', In a l -> evolves c c' -> keeps (f a) c') -> keeps (each f l) c.
Proof.
  revert c. induction l as [|a l IH]; intros c H; [apply keeps_nothing|]. cbn [each]. apply keeps_seq; [apply H; [by left|done]|].
  intros c' ws _ E. apply IH. intros b c2 Hb E2. apply H; [by right|by etrans].
Qed.
End evolution.

(** ** Single steps *)

(** How new entries are made. *)
Definition makes (entry : Z -> Z -> Z -> IdEntry) (now : Z) : Prop :=
  forall id kind, is_u64 id -> is_byte kind -> entry_ok (entry id kind now) /\ ie_id (entry id kind now) = id /\ ie_kind (entry id kind now) = kind /\
    ie_status (entry id kind now) = Live.

Lemma makes_fresh now : is_u64 now -> makes entry_fresh now.
Proof. intros Hn id kind Hi Hk. split_and!; [|done..]. apply new_entry_ok; [done..|]. unfold is_byte, ASSIGNED_BY_FRESH. lia. Qed.

Lemma makes_backfilled now : is_u64 now -> makes entry_backfilled now.
Proof. intros Hn id kind Hi Hk. split_and!; [|done..]. apply new_entry_ok; [done..|]. unfold is_byte, ASSIGNED_BY_BACKFILL. lia. Qed.

Lemma grows_new es n e : bsorted es -> bm_get n es = None -> grows es (bm_insert n e es).
Proof. intros Hs Hg n' e' H. exists e'. rewrite bm_get_insert by done. rewrite decide_False; [done|]. intros ->. congruence. Qed.

Lemma grows_retire es n e now reason : bsorted es -> bm_get n es = Some e -> grows es (bm_insert n (entry_tombstone now reason e) es).
Proof.
  intros Hs Hg n' e' H. destruct (decide (n' = n)) as [->|Hne].
  - exists (entry_tombstone now reason e). rewrite bm_get_insert, decide_True by done. rewrite Hg in H. by injection H as <-.
  - exists e'. rewrite bm_get_insert, decide_False by done. done.
Qed.

Lemma retires_live P es n e : bsorted es -> ie_status e = Live -> retires P es (bm_insert n e es).
Proof.
  intros Hs Hl n' (e' & Hg & Hr). rewrite bm_get_insert in Hg by done. case_decide; [|left; by exists e'].
  injection Hg as <-. unfold is_retired in Hr. congruence.
Qed.

Lemma retires_one (P : bytes -> Prop) es n e : bsorted es -> P n -> retires P es (bm_insert n e es).
Proof. intros Hs Hp n' (e' & Hg & Hr). rewrite bm_get_insert in Hg by done. case_decide; [subst; by right|left; by exists e']. Qed.

Lemma retires_refl P es : retires P es es.
Proof. intros n H. by left. Qed.

(** Rows of one family are not touched by writes of another. *)
Lemma other_family (p q k : bytes) m w : bsorted m -> List.length p = List.length q -> p <> q -> p `prefix_of` k -> q `prefix_of` fst w ->
  bm_get k (apply_op m w) = bm_get k m.
Proof.
  intros Hs Hl Hne [x ->] [y Ey]. rewrite bm_get_apply_op by done. rewrite decide_False; [done|]. rewrite Ey. intros E. apply Hne. by apply app_inj_1 in E as [? _].
Qed.

Lemma table_row N n v : nm_ok N n -> table_key (nm_prefix N) = true -> table_ops [put (nm_key N n) v].
Proof.
  intros Hn Hp. apply Forall_singleton. cbn [put fst]. destruct (nm_key_prefix N n Hn) as [x ->]. revert Hp. unfold table_key.
  rewrite !orb_true_iff, !starts_with_true. intros [[Hp|Hp]|Hp]; [left; left|left; right|right]; by apply prefix_app_r.
Qed.

(** Replacing one table and writing its row. *)
Section one_step.
Variables (PT PF PR : bytes -> Prop).

Lemma step_types c m es next n e : inv c m -> es = type_entries c -> nm_ok type_naming n -> entries_ok type_naming (bm_insert n e es) next ->
  grows es (bm_insert n e es) -> retires PT es (bm_insert n e es) ->
  let c' := set_types c (table_of (bm_insert n e es) next) in let ws := [put (KeyBuilder.catalog_type n) (encode_id_entry e)] in
  inv c' (apply_ops ws m) /\ evolves PT PF PR c c' /\ table_ops ws.
Proof.
  intros [[Hc Ht Hf Hr] [Hm Dt Df Dr]] -> Hn He Hg Hrt c' ws. split_and!.
  - split; [split; [|done..]; unfold c', type_entries, field_entries, rel_entries; cbn [set_types c_types c_fields c_rels table_of tb_entries tb_next]; rewrite Hc at 1; done|].
    split; cbn [apply_ops fold_left ws].
    + by apply apply_op_sorted.
    + apply (rows_ok_put type_naming); [done|apply Ht|apply Ht|done|done].
    + eapply rows_ok_ext; [|exact Df]. intros k Hk. apply (other_family KeyBuilder.catalog_prefix_field KeyBuilder.catalog_prefix_type); [done..|]. by exists n.
    + eapply rows_ok_ext; [|exact Dr]. intros k Hk. apply (other_family KeyBuilder.catalog_prefix_rel KeyBuilder.catalog_prefix_type); [done..|]. by exists n.
  - split; [split_and!; done|done|apply retires_refl|apply retires_refl|done].
  - by apply (table_row type_naming).
Qed.

Lemma step_fields c m es next n e : inv c m -> es = field_entries c -> nm_ok field_naming n -> entries_ok field_naming (bm_insert n e es) next ->
  grows es (bm_insert n e es) -> retires PF es (bm_insert n e es) ->
  let c' := set_kinds (set_fields c (table_of (bm_insert n e es) next)) (bm_fmap ie_kind (bm_insert n e es)) in let ws := [put (field_key n) (encode_id_entry e)] in
  inv c' (apply_ops ws m) /\ evolves PT PF PR c c' /\ table_ops ws.
Proof.
  intros [[Hc Ht Hf Hr] [Hm Dt Df Dr]] -> Hn He Hg Hrt c' ws. pose proof (nm_key_prefix field_naming n Hn) as Hp. cbn [nm_key nm_prefix field_naming] in Hp. split_and!.
  - split; [split; [|done..]; unfold c', type_entries, field_entries, rel_entries; cbn [set_fields set_kinds c_types c_fields c_rels table_of tb_entries tb_next]; rewrite Hc at 1; done|].
    split; cbn [apply_ops fold_left ws].
    + by apply apply_op_sorted.
    + eapply rows_ok_ext; [|exact Dt]. intros k Hk. by apply (other_family KeyBuilder.catalog_prefix_type KeyBuilder.catalog_prefix_field).
    + apply (rows_ok_put field_naming); [done|apply Hf|apply Hf|done|done].
    + eapply rows_ok_ext; [|exact Dr]. intros k Hk. by apply (other_family KeyBuilder.catalog_prefix_rel KeyBuilder.catalog_prefix_field).
  - split; [split_and!; done|apply retires_refl|done|apply retires_refl|done].
  - by apply (table_row field_naming).
Qed.

Lemma step_rels c m es next n e : inv c m -> es = rel_entries c -> nm_ok rel_naming n -> entries_ok rel_naming (bm_insert n e es) next ->
  grows es (bm_insert n e es) -> retires PR es (bm_insert n e es) ->
  let c' := set_rels c (table_of (bm_insert n e es) next) in let ws := [put (rel_key n) (encode_id_entry e)] in
  inv c' (apply_ops ws m) /\ evolves PT PF PR c c' /\ table_ops ws.
Proof.
  intros [[Hc Ht Hf Hr] [Hm Dt Df Dr]] -> Hn He Hg Hrt c' ws. pose proof (nm_key_prefix rel_naming n Hn) as Hp. cbn [nm_key nm_prefix rel_naming] in Hp. split_and!.
  - split; [split; [|done..]; unfold c', type_entries, field_entries, rel_entries; cbn [set_rels c_types c_fields c_rels table_of tb_entries tb_next]; rewrite Hc at 1; done|].
    split; cbn [apply_ops fold_left ws].
    + by apply apply_op_sorted.
    + eapply rows_ok_ext; [|exact Dt]. intros k Hk. by apply (other_family KeyBuilder.catalog_prefix_type KeyBuilder.catalog_prefix_rel).
    + eapply rows_ok_ext; [|exact Df]. intros k Hk. by apply (other_family KeyBuilder.catalog_prefix_field KeyBuilder.catalog_prefix_rel).
    + apply (rows_ok_put rel_naming); [done|apply Hr|apply Hr|done|done].
  - split; [split_and!; done|apply retires_refl|apply retires_refl|done|done].
  - by apply (table_row rel_naming).
Qed.
End one_step.

Lemma checked_bump_ok kind cur next : is_u64 cur -> checked_bump kind cur = COk next -> next = cur + 1 /\ cur < u64_max.
Proof. unfold checked_bump, is_u64, u64_max. intros H. destruct (Z.eqb_spec cur (2 ^ 64 - 1)); [done|]. intros [= <-]. lia. Qed.

(** Inserting a new name in a table of a catalog. *)
Lemma insert_shape (t : Table) es next n e nx : t = table_of es next -> bsorted es -> bm_get n es = None ->
  table_insert n e (set_next t nx) = table_of (bm_insert n e es) nx.
Proof. intros -> Hs Hg. by rewrite set_next_of, table_insert_of. Qed.

Lemma types_shape c : cat_ok c -> c_types c = table_of (type_entries c) (tb_next (c_types c)).
Proof. intros [Hc _ _ _]. by rewrite Hc at 1. Qed.

Lemma fields_shape c : cat_ok c -> c_fields c = table_of (field_entries c) (tb_next (c_fields c)) /\ c_field_kinds c = bm_fmap ie_kind (field_entries c).
Proof. intros [Hc _ _ _]. split; by rewrite Hc at 1. Qed.

Lemma rels_shape c : cat_ok c -> c_rels c = table_of (rel_entries c) (tb_next (c_rels c)).
Proof. intros [Hc _ _ _]. by rewrite Hc at 1. Qed.

Section steps.
Variables (PT PF PR : bytes -> Prop).
Abbreviation keeps := (keeps PT PF PR).

Lemma keeps_allocate_type entry now n c : makes entry now -> plain_name n -> bm_get n (type_entries c) = None -> keeps (allocate_type entry now n) c.
Proof.
  intros He Hn Hg c' ws m Hi H. unfold allocate_type in H. apply cbind_ok in H as (next & Hb & [= <- <-]). pose proof Hi as [[Hc Ht Hf Hr] _].
  apply checked_bump_ok in Hb as [-> Hlt]; [|apply Ht]. destruct (He (tb_next (c_types c)) KIND_UNSET) as (E1 & E2 & E3 & E4); [apply Ht|unfold is_byte, KIND_UNSET; lia|].
  unfold insert_type. cbn [set_types c_types c_fields c_rels]. rewrite (insert_shape _ _ _ _ _ _ (types_shape c (proj1 Hi))) by (done || apply Ht).
  apply (step_types PT PF PR c m (type_entries c)); [done..| | |].
  - by apply alloc_entries.
  - apply grows_new; [apply Ht|done].
  - apply retires_live; [apply Ht|done].
Qed.

Lemma keeps_allocate_field entry now t f c : makes entry now -> plain_name t -> plain_name (fd_name f) -> bm_get (qualified t (fd_name f)) (field_entries c) = None ->
  keeps (allocate_field entry now t f) c.
Proof.
  intros He Hn Hn' Hg c' ws m Hi H. unfold allocate_field in H. apply cbind_ok in H as (next & Hb & [= <- <-]). pose proof Hi as [[Hc Ht Hf Hr] _].
  apply checked_bump_ok in Hb as [-> Hlt]; [|apply Hf]. destruct (He (tb_next (c_fields c)) (schema_kind_byte (field_type f))) as (E1 & E2 & E3 & E4); [apply Hf|apply schema_kind_is_byte|].
  destruct (fields_shape c (proj1 Hi)) as [S1 S2]. unfold insert_field. cbn [set_fields set_kinds c_types c_fields c_rels c_field_kinds].
  rewrite (insert_shape _ _ _ _ _ _ S1) by (done || apply Hf). rewrite S2, <- bm_fmap_insert, <- (field_key_of t (fd_name f)) by done.
  apply (step_fields PT PF PR c m (field_entries c)); [done|done|by exists t, (fd_name f)| | |].
  - apply alloc_entries; [done|by exists t, (fd_name f)|done..].
  - apply grows_new; [apply Hf|done].
  - apply retires_live; [apply Hf|done].
Qed.

Lemma keeps_allocate_rel entry now t f c : makes entry now -> plain_name t -> plain_name (fd_name f) -> bm_get (qualified t (fd_name f)) (rel_entries c) = None ->
  keeps (allocate_rel entry now t f) c.
Proof.
  intros He Hn Hn' Hg c' ws m Hi H. unfold allocate_rel in H. apply cbind_ok in H as (next & Hb & [= <- <-]). pose proof Hi as [[Hc Ht Hf Hr] _].
  apply checked_bump_ok in Hb as [-> Hlt]; [|apply Hr]. destruct (He (tb_next (c_rels c)) KIND_RELATION) as (E1 & E2 & E3 & E4); [apply Hr|unfold is_byte, KIND_RELATION; lia|].
  unfold insert_rel. cbn [set_rels c_types c_fields c_rels]. rewrite (insert_shape _ _ _ _ _ _ (rels_shape c (proj1 Hi))) by (done || apply Hr).
  rewrite <- (rel_key_of t (fd_name f)) by done.
  apply (step_rels PT PF PR c m (rel_entries c)); [done|done|by exists t, (fd_name f)| | |].
  - apply alloc_entries; [done|by exists t, (fd_name f)|done..].
  - apply grows_new; [apply Hr|done].
  - apply retires_live; [apply Hr|done].
Qed.

Lemma keeps_retire_type now reason n c : is_u64 now -> PT n -> keeps (retire_type now reason n) c.
Proof.
  intros Hnow Hp c' ws m Hi H. pose proof Hi as [[Hc Ht Hf Hr] _]. unfold retire_type in H. rewrite (types_shape c (proj1 Hi)) in H.
  destruct (bm_get n (type_entries c)) as [e|] eqn:Eg.
  - rewrite (table_tombstone_of _ _ _ _ _ e) in H by (done || apply Ht). injection H as <- <-. apply (step_types PT PF PR c m (type_entries c)); [done|done|by eapply Ht| | |].
    + by apply retire_entries.
    + apply grows_retire; [apply Ht|done].
    + apply retires_one; [apply Ht|done].
  - unfold table_tombstone in H. cbn [table_of tb_entries] in H. rewrite Eg in H. cbn in H. by apply (keeps_nothing PT PF PR c).
Qed.

Lemma keeps_retire_field now reason n c : is_u64 now -> PF n -> keeps (retire_field now reason n) c.
Proof.
  intros Hnow Hp c' ws m Hi H. pose proof Hi as [[Hc Ht Hf Hr] _]. unfold retire_field in H. rewrite (proj1 (fields_shape c (proj1 Hi))) in H.
  destruct (bm_get n (field_entries c)) as [e|] eqn:Eg.
  - rewrite (table_tombstone_of _ _ _ _ _ e) in H by (done || apply Hf).
    assert (Ek : c_field_kinds c = bm_fmap ie_kind (bm_insert n (entry_tombstone now reason e) (field_entries c))).
    { rewrite Hc at 1. cbn [cat_of c_field_kinds]. apply bm_ext; [apply bm_fmap_sorted, Hf|apply bm_fmap_sorted, bsorted_insert, Hf|]. intros k.
      rewrite !bm_fmap_get, bm_get_insert by apply Hf. case_decide; [subst; by rewrite Eg|done]. }
    assert (Es : forall t, set_fields c t = set_kinds (set_fields c t) (c_field_kinds c)) by done. rewrite Es, Ek in H.
    assert (Ew : (let '(tn, f) := split_qualified n in KeyBuilder.catalog_field tn f) = field_key n) by done.
    destruct (split_qualified n) as [tn f] eqn:En. rewrite Ew in H. injection H as <- <-.
    apply (step_fields PT PF PR c m (field_entries c)); [done|done|by eapply Hf| | |].
    + by apply retire_entries.
    + apply grows_retire; [apply Hf|done].
    + apply retires_one; [apply Hf|done].
  - unfold table_tombstone in H. cbn [table_of tb_entries] in H. rewrite Eg in H. cbn in H. by apply (keeps_nothing PT PF PR c).
Qed.

Lemma keeps_retire_rel now reason n c : is_u64 now -> PR n -> keeps (retire_rel now reason n) c.
Proof.
  intros Hnow Hp c' ws m Hi H. pose proof Hi as [[Hc Ht Hf Hr] _]. unfold retire_rel in H. rewrite (rels_shape c (proj1 Hi)) in H.
  destruct (bm_get n (rel_entries c)) as [e|] eqn:Eg.
  - rewrite (table_tombstone_of _ _ _ _ _ e) in H by (done || apply Hr).
    assert (Ew : (let '(tn, f) := split_qualified n in KeyBuilder.catalog_rel tn f) = rel_key n) by done.
    destruct (split_qualified n) as [tn f] eqn:En. rewrite Ew in H. injection H as <- <-.
    apply (step_rels PT PF PR c m (rel_entries c)); [done|done|by eapply Hr| | |].
    + by apply retire_entries.
    + apply grows_retire; [apply Hr|done].
    + apply retires_one; [apply Hr|done].
  - unfold table_tombstone in H. cbn [table_of tb_entries] in H. rewrite Eg in H. cbn in H. by apply (keeps_nothing PT PF PR c).
Qed.
End steps.

(** ** Schemas *)

Record schema_ok (s : Schema) : Prop := {
  so_sorted : bsorted (types s);
  so_types : forall tn td, In (tn, td) (types s) -> plain_name tn;
  so_fields : forall tn td f, In (tn, td) (types s) -> In f (fields td) -> plain_name (fd_name f);
  so_distinct : forall tn td, In (tn, td) (types s) -> NoDup (map fd_name (fields td));
}.

Lemma schema_get s tn td : schema_ok s -> In (tn, td) (types s) -> get_type s tn = Some td.
Proof. intros Hs Hin. apply bm_get_in; [apply Hs|done]. Qed.

Lemma get_field_some td f : In f (fields td) -> NoDup (map fd_name (fields td)) -> get_field td (fd_name f) = Some f.
Proof.
  unfold get_field. induction (fields td) as [|g fs IH]; [done|]. intros [->|Hin] Hn; cbn [List.find]; apply NoDup_cons in Hn as [Hi Hn].
  - by destruct (beqb_spec (fd_name f) (fd_name f)).
  - destruct (beqb_spec (fd_name g) (fd_name f)) as [E|_]; [|by apply IH]. exfalso. apply Hi. rewrite E. apply list_elem_of_In. by apply in_map.
Qed.

(** ** Retired names *)

Lemma retired_spec es next n : bsorted es -> retired (table_of es next) n = true <-> retired_in es n.
Proof.
  intros Hs. unfold retired. cbn [table_of tb_tombstoned_names]. rewrite bool_decide_eq_true, in_tombstoned_names. split.
  - intros (e & Hin & Hr). exists e. split; [|done]. by apply bm_get_in.
  - intros (e & Hg & Hr). exists e. split; [|done]. by apply bm_get_in.
Qed.

Lemma retired_type c n : cat_ok c -> retired (c_types c) n = true <-> retired_in (type_entries c) n.
Proof. intros Hc. rewrite (types_shape c Hc). apply retired_spec. apply Hc. Qed.

Lemma retired_field c n : cat_ok c -> retired (c_fields c) n = true <-> retired_in (field_entries c) n.
Proof. intros Hc. rewrite (proj1 (fields_shape c Hc)). apply retired_spec. apply Hc. Qed.

Lemma retired_rel c n : cat_ok c -> retired (c_rels c) n = true <-> retired_in (rel_entries c) n.
Proof. intros Hc. rewrite (rels_shape c Hc). apply retired_spec. apply Hc. Qed.

Lemma check_type_names_ok c ts : check_type_names c ts = COk tt -> forall t, In t ts -> retired (c_types c) t = false.
Proof. induction ts as [|a ts IH]; [done|]. cbn [check_type_names]. destruct (retired (c_types c) a) eqn:E; [done|]. intros H t [<-|Ht]; [done|by apply IH]. Qed.

Lemma check_field_names_ok c name fs : check_field_names c name fs = COk tt -> forall f, In f fs ->
  retired (c_fields c) (qualified name (fd_name f)) = false /\ (is_relation f = true -> retired (c_rels c) (qualified name (fd_name f)) = false).
Proof.
  induction fs as [|a fs IH]; [done|]. cbn [check_field_names]. destruct (retired (c_fields c) _) eqn:E; [done|].
  destruct (is_relation a && retired (c_rels c) (qualified name (fd_name a))) eqn:E2; [done|]. intros H f [<-|Hf]; [|by apply IH]. split; [done|].
  intros Hr. by rewrite Hr in E2.
Qed.

Lemma check_member_names_ok c ts : check_member_names c ts = COk tt -> forall e f, In e ts -> In f (fields (snd e)) ->
  retired (c_fields c) (qualified (fst e) (fd_name f)) = false /\ (is_relation f = true -> retired (c_rels c) (qualified (fst e) (fd_name f)) = false).
Proof.
  induction ts as [|a ts IH]; [done|]. cbn [check_member_names]. intros H. apply cbind_ok in H as ([] & H1 & H2). intros e f [<-|He] Hf; [by eapply check_field_names_ok|by apply IH].
Qed.

(** ** Additions *)

Lemma bm_get_insert_ne {V} k (v : V) m k' : k' <> k -> bm_get k' (bm_insert k v m) = bm_get k' m.
Proof.
  intros Hne. induction m as [|[a x] m IH]; cbn [bm_insert].
  - cbn [bm_get]. by destruct (beqb_spec k' k).
  - destruct (bytes_cmp k a) eqn:E; cbn [bm_get].
    + apply bytes_cmp_eq in E as ->. by destruct (beqb_spec k' a).
    + by destruct (beqb_spec k' k).
    + by rewrite IH.
Qed.

Lemma bm_get_insert_eq {V} k (v : V) m : bm_get k (bm_insert k v m) = Some v.
Proof.
  induction m as [|[a x] m IH]; cbn [bm_insert]; [cbn [bm_get]; by destruct (beqb_spec k k)|].
  destruct (bytes_cmp k a) eqn:E; cbn [bm_get]; [by destruct (beqb_spec k k)..|].
  destruct (beqb_spec k a) as [->|_]; [by rewrite bytes_cmp_refl in E|done].
Qed.

Section additions.
Variables (PT PF PR : bytes -> Prop).
Abbreviation keeps := (keeps PT PF PR).
Abbreviation evolves := (evolves PT PF PR).

Lemma keeps_allocate_types entry now l : makes entry now -> forall c, NoDup l -> (forall n, In n l -> plain_name n /\ bm_get n (type_entries c) = None) ->
  keeps (each (allocate_type entry now) l) c.
Proof.
  intros He. induction l as [|n l IH]; intros c Hn Hl; [apply keeps_nothing|]. cbn [each]. apply NoDup_cons in Hn as [Hi Hn].
  destruct (Hl n (or_introl eq_refl)) as [H1 H2]. apply keeps_seq; [by apply keeps_allocate_type|]. intros c' ws H _. apply IH; [done|].
  intros n' Hn'. split; [by apply Hl; right|]. unfold allocate_type in H. apply cbind_ok in H as (next & _ & [= <- <-]).
  change (bm_get n' (bm_insert n (entry (tb_next (c_types c)) KIND_UNSET now) (type_entries c)) = None).
  rewrite bm_get_insert_ne; [by apply Hl; right|]. intros ->. by apply Hi, list_elem_of_In.
Qed.

Lemma absent_field c q : cat_ok c -> has_key (tb_ids (c_fields c)) q = false -> bm_get q (field_entries c) = None.
Proof.
  intros Hc H. rewrite (proj1 (fields_shape c Hc)) in H. cbn [table_of tb_ids] in H. unfold has_key in H. rewrite bm_fmap_get in H. by destruct (bm_get q (field_entries c)).
Qed.

Lemma absent_rel c q : cat_ok c -> has_key (tb_ids (c_rels c)) q = false -> bm_get q (rel_entries c) = None.
Proof.
  intros Hc H. rewrite (rels_shape c Hc) in H. cbn [table_of tb_ids] in H. unfold has_key in H. rewrite bm_fmap_get in H. by destruct (bm_get q (rel_entries c)).
Qed.

Lemma absent_type c q : cat_ok c -> has_key (tb_ids (c_types c)) q = false -> bm_get q (type_entries c) = None.
Proof.
  intros Hc H. rewrite (types_shape c Hc) in H. cbn [table_of tb_ids] in H. unfold has_key in H. rewrite bm_fmap_get in H. by destruct (bm_get q (type_entries c)).
Qed.

(** Allocating what is missing, for entries of either origin. *)
Definition add_field_with (entry : Z -> Z -> Z -> IdEntry) (now : Z) (t : bytes) (f : FieldDef) : Catalog -> cres (Catalog * list op) :=
  let qual := qualified t (fd_name f) in
  seq_ (fun c => when_ (negb (has_key (tb_ids (c_fields c)) qual)) (allocate_field entry now t f) c)
       (fun c => when_ (is_relation f && negb (has_key (tb_ids (c_rels c)) qual)) (allocate_rel entry now t f) c).

Lemma keeps_add_field entry now t f c : makes entry now -> plain_name t -> plain_name (fd_name f) -> keeps (add_field_with entry now t f) c.
Proof.
  intros Hn Ht Hf. unfold add_field_with. apply keeps_seq.
  - intros c' ws m Hi. destruct (has_key (tb_ids (c_fields c)) (qualified t (fd_name f))) eqn:E; cbn [negb when_]; [by apply keeps_nothing|].
    apply keeps_allocate_field; [done|done|done|by apply absent_field; [apply Hi|]|done].
  - intros c1 w1 _ _ c' ws m Hi. destruct (has_key (tb_ids (c_rels c1)) (qualified t (fd_name f))) eqn:E; rewrite ?andb_false_r; cbn [negb when_]; [by apply keeps_nothing|].
    destruct (is_relation f); cbn [andb when_]; [|by apply keeps_nothing].
    apply keeps_allocate_rel; [done|done|done|by apply absent_rel; [apply Hi|]|done].
Qed.

(** Facts that a step establishes and later steps keep hold at the end. *)
Lemma each_establishes {A} (f : A -> Catalog -> cres (Catalog * list op)) (Q : A -> Catalog -> Prop) l :
  (forall a c, In a l -> keeps (f a) c) -> (forall a c c' ws m, In a l -> inv c m -> f a c = COk (c', ws) -> Q a c') ->
  (forall a c c', Q a c -> evolves c c' -> Q a c') -> forall c c' ws m, inv c m -> each f l c = COk (c', ws) -> forall a, In a l -> Q a c'.
Proof.
  intros Hk Hq Hs. induction l as [|b l IH]; intros c c' ws m Hi H a Ha; [done|]. cbn [each] in H. unfold seq_ in H.
  apply cbind_ok in H as ([c1 w1] & H1 & H). apply cbind_ok in H as ([c2 w2] & H2 & [= <- <-]).
  destruct (Hk b c (or_introl eq_refl) c1 w1 m Hi H1) as (Hi1 & _ & _).
  assert (Hrest : keeps (each f l) c1) by (apply keeps_each; intros x c0 Hx _; apply Hk; by right).
  destruct (Hrest c2 w2 _ Hi1 H2) as (_ & E2 & _). destruct Ha as [->|Ha].
  - eapply Hs; [|exact E2]. eapply Hq; [by left|exact Hi|exact H1].
  - eapply IH; [..|exact Hi1|exact H2|done]; [intros x c0 Hx; apply Hk; by right|intros x c0 c3 w3 m3 Hx; apply Hq; by right].
Qed.

(** A field, and the relation when it is one, has an entry. *)
Definition has_member (t : bytes) (f : FieldDef) (c : Catalog) : Prop :=
  is_Some (bm_get (qualified t (fd_name f)) (field_entries c)) /\ (is_relation f = true -> is_Some (bm_get (qualified t (fd_name f)) (rel_entries c))).

Lemma grows_some es es' n : grows es es' -> is_Some (bm_get n es) -> is_Some (bm_get n es').
Proof. intros H [e He]. destruct (H n e He) as (e' & ? & _). by eexists. Qed.

Lemma has_member_stable t f c c' : has_member t f c -> evolves c c' -> has_member t f c'.
Proof. intros [H1 H2] [(_ & Ef & Er) _ _ _ _]. split; [by eapply grows_some|]. intros Hr. eapply grows_some; [done|by apply H2]. Qed.

Lemma insert_some {V} (m : bmap V) k v : is_Some (bm_get k (bm_insert k v m)).
Proof. rewrite bm_get_insert_eq. by eexists. Qed.

Lemma add_field_member entry now t f c c' ws m : makes entry now -> plain_name t -> plain_name (fd_name f) -> inv c m -> add_field_with entry now t f c = COk (c', ws) -> has_member t f c'.
Proof.
  intros Hn Ht Hf Hi H. unfold add_field_with, seq_ in H. apply cbind_ok in H as ([c1 w1] & H1 & H). apply cbind_ok in H as ([c2 w2] & H2 & [= <- <-]).
  assert (Hs1 : is_Some (bm_get (qualified t (fd_name f)) (field_entries c1)) /\ cat_ok c1).
  { destruct (has_key (tb_ids (c_fields c)) (qualified t (fd_name f))) eqn:E; cbn [negb when_] in H1.
    - injection H1 as <- <-. split; [|apply Hi]. apply has_key_spec in E. rewrite (proj1 (fields_shape c (proj1 Hi))) in E. cbn [table_of tb_ids] in E.
      rewrite bm_fmap_get in E. by apply fmap_is_Some in E.
    - split; [|eapply (keeps_allocate_field PT PF PR); [done|exact Ht|exact Hf|by apply absent_field; [apply Hi|]|exact Hi|exact H1]].
      unfold allocate_field in H1. apply cbind_ok in H1 as (next & _ & [= <- <-]). apply (insert_some (field_entries c)). }
  destruct Hs1 as [Hs1 Hc1].
  destruct (is_relation f && negb (has_key (tb_ids (c_rels c1)) (qualified t (fd_name f)))) eqn:E; cbn [when_] in H2.
  - unfold allocate_rel in H2. apply cbind_ok in H2 as (next & _ & [= <- <-]). split; [done|]. intros _. apply (insert_some (rel_entries c1)).
  - injection H2 as <- <-. split; [done|]. intros Hr. rewrite Hr in E. cbn [andb] in E. apply negb_false_iff, has_key_spec in E.
    rewrite (rels_shape c1 Hc1) in E. cbn [table_of tb_ids] in E. rewrite bm_fmap_get in E. by apply fmap_is_Some in E.
Qed.
End additions.
