(* ===== verification/CatalogOpen.v ===== *)
(** * What an opening leaves

    The three paths of an opening: a store without a catalog, a catalog whose
    schema changed, a catalog that was left half written.  Each leaves a store
    whose catalog loads as the one returned, covers the schema, and extends the
    catalog before. *)

From Stdlib Require Import ZArith Lia Bool List Strings.Byte Strings.String.
From stdpp Require Import base tactics option list gmap.
From S2P Require Import Prelude ByteMap Keys Utf8 Values Schema IndexKeys Store CatalogCodec Catalog CatalogInv.

Local Open Scope Z_scope.

(** ** Writes beside the tables *)

Lemma unwritten (ws : list op) m k : bsorted m -> (forall w, In w ws -> fst w <> k) -> bm_get k (apply_ops ws m) = bm_get k m.
Proof. intros Hs H. rewrite bm_get_apply_ops by done. assert (last_op k ws = None) as -> by (apply last_op_none; intros (w & E & Hw)%in_map_iff; by apply (H w Hw)). done. Qed.

Lemma table_ops_beside ws m k : bsorted m -> table_ops ws -> table_key k = false -> bm_get k (apply_ops ws m) = bm_get k m.
Proof. intros Hs Ht Hk. apply unwritten; [done|]. intros w Hw E. unfold table_ops in Ht. rewrite List.Forall_forall in Ht. specialize (Ht w Hw). congruence. Qed.

Lemma table_prefix k : KeyBuilder.catalog_prefix_type `prefix_of` k \/ KeyBuilder.catalog_prefix_field `prefix_of` k \/ KeyBuilder.catalog_prefix_rel `prefix_of` k -> table_key k = true.
Proof. unfold table_key. rewrite !orb_true_iff, !starts_with_true. tauto. Qed.

(** Writes that leave the tables alone. *)
Definition beside (ws : list op) : Prop := forall w, In w ws -> table_key (fst w) = false.

Lemma disk_beside ws m c : beside ws -> disk_ok m c -> disk_ok (apply_ops ws m) c.
Proof.
  intros Hw [Hm Dt Df Dr].
  assert (H : forall k, table_key k = true -> bm_get k (apply_ops ws m) = bm_get k m) by (intros k Hk; apply unwritten; [done|]; intros w Hin E; apply Hw in Hin; congruence).
  split; [by apply apply_ops_sorted|eapply rows_ok_ext; [|exact Dt]|eapply rows_ok_ext; [|exact Df]|eapply rows_ok_ext; [|exact Dr]]; intros k Hk; apply H, table_prefix; auto.
Qed.

(** ** Coverage *)

(** What a schema names. *)
Definition schema_type (s : Schema) (n : bytes) : Prop := exists td, In (n, td) (types s).
Definition schema_field (s : Schema) (q : bytes) : Prop := exists tn td f, In (tn, td) (types s) /\ In f (fields td) /\ q = qualified tn (fd_name f).
Definition schema_rel (s : Schema) (q : bytes) : Prop :=
  exists tn td f, In (tn, td) (types s) /\ In f (fields td) /\ is_relation f = true /\ q = qualified tn (fd_name f).

(** A name in use: it has an entry, which is not retired. *)
Definition live (es : bmap IdEntry) (n : bytes) : Prop := exists e, bm_get n es = Some e /\ ~ is_retired e.

(** The names in use are those of the schema. *)
Record names_match (s : Schema) (c : Catalog) : Prop := {
  mt_types : forall n, live (type_entries c) n <-> schema_type s n;
  mt_fields : forall q, live (field_entries c) q <-> schema_field s q;
  mt_rels : forall q, live (rel_entries c) q <-> schema_rel s q;
}.

Lemma live_spec es n : live es n <-> is_Some (bm_get n es) /\ ~ retired_in es n.
Proof.
  split.
  - intros (e & Hg & Hr). split; [by eexists|]. intros (e' & Hg' & Hr'). rewrite Hg in Hg'. by injection Hg' as <-.
  - intros [[e Hg] Hr]. exists e. split; [done|]. intros Hr'. apply Hr. by exists e.
Qed.

(** The kind of every field is that of the schema, or a plan is changing it. *)
Definition kind_licensed (plans : list MigrationPlan) (tn : bytes) (f : FieldDef) (k : Z) : Prop :=
  k = schema_kind_byte (field_type f) \/ is_Some (resumable_plan_for_kind_change plans tn (fd_name f) k (schema_kind_byte (field_type f))).

Definition kinds_licensed (s : Schema) (plans : list MigrationPlan) (c : Catalog) : Prop :=
  forall tn td f e, In (tn, td) (types s) -> In f (fields td) -> bm_get (qualified tn (fd_name f)) (field_entries c) = Some e -> kind_licensed plans tn f (ie_kind e).

Lemma check_kinds_ok s plans kinds : check_kinds s plans kinds = COk tt -> forall q k t f td fd, In (q, k) kinds -> split_qualified q = (t, f) ->
  get_type s t = Some td -> get_field td f = Some fd -> k = schema_kind_byte (field_type fd) \/ is_Some (resumable_plan_for_kind_change plans t f k (schema_kind_byte (field_type fd))).
Proof.
  induction kinds as [|[q' k'] kinds IH]; [done|]. cbn [check_kinds]. destruct (split_qualified q') as [t' f'] eqn:Eq. intros H q k t f td fd Hin Es Et Ef.
  apply cbind_ok in H as ([] & H1 & H2). destruct Hin as [[= -> ->]|Hin]; [|by eapply IH]. rewrite Es in Eq. injection Eq as <- <-. rewrite Et, Ef in H1.
  destruct (Z.eqb_spec k (schema_kind_byte (field_type fd))); [by left|]. cbn [orb] in H1. destruct (resumable_plan_for_kind_change _ _ _ _ _); [right; by eexists|done].
Qed.

(** A property that a step keeps. *)
Definition preserves (P : Catalog -> Prop) (f : Catalog -> cres (Catalog * list op)) : Prop := forall c c' ws, P c -> f c = COk (c', ws) -> P c'.

Lemma preserves_seq P f g : preserves P f -> preserves P g -> preserves P (seq_ f g).
Proof. intros Hf Hg c c' ws Hk H. unfold seq_ in H. apply cbind_ok in H as ([c1 w1] & H1 & H). apply cbind_ok in H as ([c2 w2] & H2 & [= <- <-]). eapply Hg; [|exact H2]. by eapply Hf. Qed.

Lemma preserves_each P {A} (f : A -> Catalog -> cres (Catalog * list op)) l : (forall a, In a l -> preserves P (f a)) -> preserves P (each f l).
Proof.
  induction l as [|a l IH]; intros H; [intros c c' ws Hk [= <- <-]; done|]. cbn [each]. apply preserves_seq; [by apply H; left|]. apply IH. intros b Hb. apply H. by right.
Qed.

Lemma preserves_when P (b : Catalog -> bool) f : preserves P f -> preserves P (fun c => when_ (b c) f c).
Proof. intros H c c' ws Hc. unfold when_. destruct (b c); [by apply H|by intros [= <- <-]]. Qed.

(** ** The allocations keep the kinds *)

Section kinds.
Variables (s : Schema) (plans : list MigrationPlan).
Hypothesis Hs : schema_ok s.

Lemma qualified_eq t f t' f' : plain_name t -> plain_name t' -> qualified t f = qualified t' f' -> t = t' /\ f = f'.
Proof. intros [H _] [H' _] E. apply (f_equal split_qualified) in E. rewrite !split_qualified_of in E by done. by injection E. Qed.

Abbreviation keeps_kinds := (preserves (kinds_licensed s plans)).

Lemma kinds_same (f : Catalog -> cres (Catalog * list op)) : (forall c c' ws, f c = COk (c', ws) -> field_entries c' = field_entries c) -> keeps_kinds f.
Proof. intros H c c' ws Hk E. apply H in E. unfold kinds_licensed. by rewrite E. Qed.

Lemma kinds_allocate_field entry now tn td f : (forall id kind, ie_kind (entry id kind now) = kind) -> In (tn, td) (types s) -> In f (fields td) ->
  keeps_kinds (allocate_field entry now tn f).
Proof.
  intros He Hin Hf c c' ws Hk H. unfold allocate_field in H. apply cbind_ok in H as (next & _ & [= <- <-]). intros tn' td' f' e Hin' Hf' Hg.
  destruct (decide (qualified tn' (fd_name f') = qualified tn (fd_name f))) as [E|Hne].
  - apply qualified_eq in E as [-> Ef]; [|by eapply Hs..]. assert (td' = td) as -> by (apply (schema_get s) in Hin, Hin'; [congruence|done..]).
    assert (f' = f) as ->. { pose proof (get_field_some td f' Hf' (so_distinct s Hs _ _ Hin)) as G. rewrite Ef, get_field_some in G by (done || by eapply Hs). by injection G. }
    left. change (bm_get (qualified tn (fd_name f)) (bm_insert (qualified tn (fd_name f)) (entry (tb_next (c_fields c)) (schema_kind_byte (field_type f)) now) (field_entries c)) = Some e) in Hg.
    rewrite bm_get_insert_eq in Hg. injection Hg as <-. by rewrite He.
  - eapply Hk; [exact Hin'|exact Hf'|]. change (bm_get (qualified tn' (fd_name f')) (bm_insert (qualified tn (fd_name f)) (entry (tb_next (c_fields c)) (schema_kind_byte (field_type f)) now) (field_entries c)) = Some e) in Hg.
    by rewrite bm_get_insert_ne in Hg.
Qed.

Lemma kinds_add_field entry now tn td f : (forall id kind, ie_kind (entry id kind now) = kind) -> In (tn, td) (types s) -> In f (fields td) ->
  keeps_kinds (add_field_with entry now tn f).
Proof.
  intros He Hin Hf. apply preserves_seq.
  - apply preserves_when. by eapply kinds_allocate_field.
  - apply preserves_when, kinds_same. intros c c' ws H. unfold allocate_rel in H. by apply cbind_ok in H as (next & _ & [= <- <-]).
Qed.
Lemma kinds_retire_field now reason q : keeps_kinds (retire_field now reason q).
Proof.
  intros c c' ws Hk H. unfold retire_field, table_tombstone in H. destruct (bm_get q (tb_entries (c_fields c))) as [e0|] eqn:Eg; [|by injection H as <- <-].
  cbn [mbind option_bind] in H. destruct (split_qualified q) as [t f]. injection H as <- <-. intros tn td fd e Hin Hf Hg.
  change (bm_get (qualified tn (fd_name fd)) (bm_insert q (entry_tombstone now reason e0) (field_entries c)) = Some e) in Hg.
  destruct (decide (qualified tn (fd_name fd) = q)) as [E|Hne]; [|rewrite bm_get_insert_ne in Hg by done; by eapply Hk].
  rewrite E, bm_get_insert_eq in Hg. injection Hg as <-. subst q. by apply (Hk tn td fd e0).
Qed.

Lemma kinds_retire_all now dt df dr cf cr : keeps_kinds (retire_all now dt df dr cf cr).
Proof.
  repeat apply preserves_seq; apply preserves_each; intros n _; try apply kinds_retire_field; apply kinds_same; intros c c' ws; unfold retire_type, retire_rel;
    destruct (table_tombstone _ _ _ _) as [[t e]|]; try destruct (split_qualified n); by intros [= <- <-].
Qed.

Lemma kinds_allocate_types entry now l : keeps_kinds (each (allocate_type entry now) l).
Proof.
  apply preserves_each. intros n _. apply kinds_same. intros c c' ws H. unfold allocate_type in H. by apply cbind_ok in H as (next & _ & [= <- <-]).
Qed.

Lemma kinds_add_fields now : keeps_kinds (each (add_fields now) (types s)).
Proof. apply preserves_each. intros [tn td] Hin. apply preserves_each. intros f Hf. by apply (kinds_add_field entry_fresh now tn td f). Qed.
End kinds.

(** ** New names are the schema's *)

Record origin (s : Schema) (c0 c : Catalog) : Prop := {
  og_types : forall n, is_Some (bm_get n (type_entries c)) -> is_Some (bm_get n (type_entries c0)) \/ schema_type s n;
  og_fields : forall q, is_Some (bm_get q (field_entries c)) -> is_Some (bm_get q (field_entries c0)) \/ schema_field s q;
  og_rels : forall q, is_Some (bm_get q (rel_entries c)) -> is_Some (bm_get q (rel_entries c0)) \/ schema_rel s q;
}.

Lemma insert_origin {V} (m : bmap V) k v n : is_Some (bm_get n (bm_insert k v m)) -> is_Some (bm_get n m) \/ n = k.
Proof. destruct (decide (n = k)); [by right|]. rewrite bm_get_insert_ne by done. by left. Qed.

Section origins.
Variables (s : Schema) (c0 : Catalog).

Lemma origin_type entry now n : schema_type s n -> preserves (origin s c0) (allocate_type entry now n).
Proof.
  intros Hn c c' ws [Ht Hf Hr] H. unfold allocate_type in H. apply cbind_ok in H as (next & _ & [= <- <-]). split; [|done..].
  intros n' [H| ->]%(insert_origin (type_entries c)); [by apply Ht|by right].
Qed.

Lemma origin_field entry now tn td f : In (tn, td) (types s) -> In f (fields td) -> preserves (origin s c0) (allocate_field entry now tn f).
Proof.
  intros Hin Hin' c c' ws [Ht Hf Hr] H. unfold allocate_field in H. apply cbind_ok in H as (next & _ & [= <- <-]). split; [done| |done].
  intros n' [H| ->]%(insert_origin (field_entries c)); [by apply Hf|right]. by exists tn, td, f.
Qed.

Lemma origin_rel entry now tn td f : In (tn, td) (types s) -> In f (fields td) -> is_relation f = true -> preserves (origin s c0) (allocate_rel entry now tn f).
Proof.
  intros Hin Hin' Hrel c c' ws [Ht Hf Hr] H. unfold allocate_rel in H. apply cbind_ok in H as (next & _ & [= <- <-]). split; [done..|].
  intros n' [H| ->]%(insert_origin (rel_entries c)); [by apply Hr|right]. by exists tn, td, f.
Qed.

Lemma origin_add_fields now : preserves (origin s c0) (each (add_fields now) (types s)).
Proof.
  apply preserves_each. intros [tn td] Hin. apply preserves_each. intros f Hf. apply preserves_seq; [by apply preserves_when; eapply origin_field|].
  destruct (is_relation f) eqn:Er; [|by intros c c' ws Hc [= <- <-]]. apply (preserves_when (origin s c0) (fun c => negb (has_key (tb_ids (c_rels c)) _))). by eapply origin_rel.
Qed.

Lemma origin_new_types now l : (forall n, In n l -> schema_type s n) -> preserves (origin s c0) (each (allocate_type entry_fresh now) l).
Proof. intros H. apply preserves_each. intros n Hn. by apply origin_type, H. Qed.

Lemma origin_retire_all now dt df dr cf cr : preserves (origin s c0) (retire_all now dt df dr cf cr).
Proof.
  repeat apply preserves_seq; apply preserves_each; intros n _ c c' ws [Ht Hf Hr] H; unfold retire_type, retire_field, retire_rel, table_tombstone in H;
    match goal with H : context [bm_get n ?es] |- _ => destruct (bm_get n es) eqn:Eg end; cbn [mbind option_bind] in H; try destruct (split_qualified n); injection H as <- <-;
    try (by split); split; try done; intros x [H| ->]%insert_origin; eauto.
Qed.
End origins.

(** ** Retirements *)

Section retirements.
Variables (PT PF PR : bytes -> Prop).

Lemma keeps_retire_all now dt df dr cf cr c : is_u64 now -> (forall n, In n dt -> PT n) -> (forall n, In n df \/ In n cf -> PF n) -> (forall n, In n dr \/ In n cr -> PR n) ->
  keeps PT PF PR (retire_all now dt df dr cf cr) c.
Proof.
  intros Hn Ht Hf Hr. unfold retire_all.
  repeat (apply keeps_seq; [|intros ? ? _ _]); apply keeps_each; intros a c0 Ha _; (apply keeps_retire_type || apply keeps_retire_field || apply keeps_retire_rel); auto.
Qed.
End retirements.

(** A name that is present when its turn comes is retired. *)
Section retired_names.
Variables (P Q R : bytes -> Prop) (proj : Catalog -> bmap IdEntry) (f : bytes -> Catalog -> cres (Catalog * list op)).
Hypothesis Hgrow : forall c c', evolves P Q R c c' -> grows (proj c) (proj c').
Hypothesis Hone : forall a c c' ws, is_Some (bm_get a (proj c)) -> f a c = COk (c', ws) -> retired_in (proj c') a.

Lemma grows_retired es es' n : grows es es' -> retired_in es n -> retired_in es' n.
Proof. intros H (e & Hg & Hr). destruct (H n e Hg) as (e' & Hg' & _ & _ & Hr'). exists e'. auto. Qed.

Lemma each_retires l : (forall a c, In a l -> keeps P Q R (f a) c) -> forall c c' ws m, inv c m -> each f l c = COk (c', ws) ->
  forall a, In a l -> is_Some (bm_get a (proj c)) -> retired_in (proj c') a.
Proof.
  induction l as [|b l IH]; intros Hk c c' ws m Hi H a Ha Hp; [done|]. cbn [each] in H. unfold seq_ in H.
  apply cbind_ok in H as ([c1 w1] & H1 & H). apply cbind_ok in H as ([c2 w2] & H2 & [= <- <-]).
  destruct (Hk b c (or_introl eq_refl) c1 w1 m Hi H1) as (Hi1 & E1 & _). destruct Ha as [->|Ha].
  - assert (Hl : keeps P Q R (each f l) c1) by (apply keeps_each; intros x c0 Hx _; apply Hk; by right).
    destruct (Hl c2 w2 _ Hi1 H2) as (_ & E2 & _). eapply grows_retired; [by apply Hgrow|]. by eapply Hone.
  - eapply IH; [intros x c0 Hx; apply Hk; by right|exact Hi1|exact H2|done|]. eapply grows_some; [by apply Hgrow|done].
Qed.
End retired_names.

Lemma retires_one_type now r a c c' ws : is_Some (bm_get a (type_entries c)) -> retire_type now r a c = COk (c', ws) -> retired_in (type_entries c') a.
Proof.
  intros [e Hg]. unfold retire_type, table_tombstone. change (tb_entries (c_types c)) with (type_entries c). rewrite Hg. cbn [mbind option_bind]. intros [= <- <-].
  exists (entry_tombstone now r e). split; [apply bm_get_insert_eq|done].
Qed.

Lemma retires_one_field now r a c c' ws : is_Some (bm_get a (field_entries c)) -> retire_field now r a c = COk (c', ws) -> retired_in (field_entries c') a.
Proof.
  intros [e Hg]. unfold retire_field, table_tombstone. change (tb_entries (c_fields c)) with (field_entries c). rewrite Hg. cbn [mbind option_bind].
  destruct (split_qualified a). intros [= <- <-]. exists (entry_tombstone now r e). split; [apply bm_get_insert_eq|done].
Qed.

Lemma retires_one_rel now r a c c' ws : is_Some (bm_get a (rel_entries c)) -> retire_rel now r a c = COk (c', ws) -> retired_in (rel_entries c') a.
Proof.
  intros [e Hg]. unfold retire_rel, table_tombstone. change (tb_entries (c_rels c)) with (rel_entries c). rewrite Hg. cbn [mbind option_bind].
  destruct (split_qualified a). intros [= <- <-]. exists (entry_tombstone now r e). split; [apply bm_get_insert_eq|done].
Qed.

Lemma retire_all_retires now dt df dr cf cr c c' ws m : is_u64 now -> inv c m -> retire_all now dt df dr cf cr c = COk (c', ws) ->
  (forall n, In n dt -> is_Some (bm_get n (type_entries c)) -> retired_in (type_entries c') n) /\
  (forall q, In q df \/ In q cf -> is_Some (bm_get q (field_entries c)) -> retired_in (field_entries c') q) /\
  (forall q, In q dr \/ In q cr -> is_Some (bm_get q (rel_entries c)) -> retired_in (rel_entries c') q).
Proof.
  intros Hn Hi H. set (U := fun _ : bytes => True).
  unfold retire_all, seq_ in H. apply cbind_ok in H as ([c1 w1] & H1 & H). apply cbind_ok in H as ([c5 v5] & H & [= -> <-]).
  apply cbind_ok in H as ([c2 w2] & H2 & H). apply cbind_ok in H as ([c6 v6] & H & [= -> <-]).
  apply cbind_ok in H as ([c3 w3] & H3 & H). apply cbind_ok in H as ([c7 v7] & H & [= -> <-]).
  apply cbind_ok in H as ([c4 w4] & H4 & H). apply cbind_ok in H as ([c8 v8] & H5 & [= -> <-]).
  assert (Kt : forall a c0, keeps U U U (retire_type now ExplicitShrink a) c0) by (intros; by apply keeps_retire_type).
  assert (Kf : forall r a c0, keeps U U U (retire_field now r a) c0) by (intros; by apply keeps_retire_field).
  assert (Kr : forall r a c0, keeps U U U (retire_rel now r a) c0) by (intros; by apply keeps_retire_rel).
  destruct (keeps_each U U U _ dt c (fun a c0 _ _ => Kt a c0) _ _ _ Hi H1) as (I1 & E1 & _).
  destruct (keeps_each U U U _ df c1 (fun a c0 _ _ => Kf _ a c0) _ _ _ I1 H2) as (I2 & E2 & _).
  destruct (keeps_each U U U _ dr c2 (fun a c0 _ _ => Kr _ a c0) _ _ _ I2 H3) as (I3 & E3 & _).
  destruct (keeps_each U U U _ cf c3 (fun a c0 _ _ => Kf _ a c0) _ _ _ I3 H4) as (I4 & E4 & _).
  destruct (keeps_each U U U _ cr c4 (fun a c0 _ _ => Kr _ a c0) _ _ _ I4 H5) as (I5 & E5 & _).
  assert (Gt : forall c c', evolves U U U c c' -> grows (type_entries c) (type_entries c')) by (intros ? ? E; apply E).
  assert (Gf : forall c c', evolves U U U c c' -> grows (field_entries c) (field_entries c')) by (intros ? ? E; apply E).
  assert (Gr : forall c c', evolves U U U c c' -> grows (rel_entries c) (rel_entries c')) by (intros ? ? E; apply E).
  split_and!.
  - intros n Hin Hp. eapply grows_retired; [apply Gt; etrans; [exact E2|etrans; [exact E3|etrans; [exact E4|exact E5]]]|].
    by apply (each_retires U U U type_entries _ Gt (retires_one_type now _) dt (fun a c0 _ => Kt a c0) c c1 w1 m).
  - intros q [Hin|Hin] Hp.
    + eapply grows_retired; [apply Gf; etrans; [exact E3|etrans; [exact E4|exact E5]]|].
      apply (each_retires U U U field_entries _ Gf (retires_one_field now _) df (fun a c0 _ => Kf _ a c0) c1 c2 w2 _ I1 H2 q Hin). by eapply grows_some; [apply Gf, E1|].
    + eapply grows_retired; [apply Gf; exact E5|].
      apply (each_retires U U U field_entries _ Gf (retires_one_field now _) cf (fun a c0 _ => Kf _ a c0) c3 c4 w4 _ I3 H4 q Hin).
      eapply grows_some; [|exact Hp]. apply Gf. etrans; [exact E1|etrans; [exact E2|exact E3]].
  - intros q [Hin|Hin] Hp.
    + eapply grows_retired; [apply Gr; etrans; [exact E4|exact E5]|].
      apply (each_retires U U U rel_entries _ Gr (retires_one_rel now _) dr (fun a c0 _ => Kr _ a c0) c2 c3 w3 _ I2 H3 q Hin).
      eapply grows_some; [|exact Hp]. apply Gr. etrans; [exact E1|exact E2].
    + apply (each_retires U U U rel_entries _ Gr (retires_one_rel now _) cr (fun a c0 _ => Kr _ a c0) c4 c' v8 _ I4 H5 q Hin).
      eapply grows_some; [|exact Hp]. apply Gr. etrans; [exact E1|etrans; [exact E2|etrans; [exact E3|exact E4]]].
Qed.

Definition silent (f : Catalog -> cres (Catalog * list op)) : Prop := forall c c', f c = COk (c', []) -> c' = c.

Lemma silent_seq f g : silent f -> silent g -> silent (seq_ f g).
Proof.
  intros Hf Hg c c' H. unfold seq_ in H. apply cbind_ok in H as ([c1 w1] & H1 & H). apply cbind_ok in H as ([c2 w2] & H2 & [= <- E]).
  apply app_eq_nil in E as [-> ->]. apply Hf in H1. apply Hg in H2. congruence.
Qed.

Lemma silent_each {A} (f : A -> Catalog -> cres (Catalog * list op)) l : (forall a, silent (f a)) -> silent (each f l).
Proof. intros H. induction l as [|a l IH]; [by intros c c' [= <-]|]. by apply silent_seq. Qed.

(** Without a row to write nothing is retired. *)
Lemma silent_retire_all now dt df dr cf cr : silent (retire_all now dt df dr cf cr).
Proof.
  repeat apply silent_seq; apply silent_each; intros n c c'; unfold retire_type, retire_field, retire_rel;
    destruct (table_tombstone _ _ _ _) as [[t e]|]; try destruct (split_qualified n); by intros [= <-].
Qed.

(** ** Dropped names *)

Lemma not_dropped_type s c n : is_Some (get_type s n) -> ~ In n (dropped_types s c).
Proof. intros Hs Hin. apply filter_In in Hin as [_ H]. apply andb_true_iff in H as [H _]. apply negb_true_iff in H. apply has_key_spec in Hs. unfold get_type in *. congruence. Qed.

Lemma not_dropped_field s c tn td f : schema_ok s -> In (tn, td) (types s) -> In f (fields td) -> ~ In (qualified tn (fd_name f)) (dropped_fields s c).
Proof.
  intros Hs Hin Hf H. apply filter_In in H as [_ H]. apply andb_true_iff in H as [_ H]. rewrite split_qualified_of in H by (by eapply Hs).
  rewrite (schema_get s tn td) in H by done. rewrite get_field_some in H by (done || by eapply Hs). done.
Qed.

Lemma not_dropped_rel s c tn td f : schema_ok s -> In (tn, td) (types s) -> In f (fields td) -> is_relation f = true -> ~ In (qualified tn (fd_name f)) (dropped_rels s c).
Proof.
  intros Hs Hin Hf Hr H. apply filter_In in H as [_ H]. apply andb_true_iff in H as [_ H]. rewrite split_qualified_of in H by (by eapply Hs).
  rewrite (schema_get s tn td) in H by done. rewrite get_field_some in H by (done || by eapply Hs). by rewrite Hr in H.
Qed.

Lemma not_cascaded s c t dropped tn td f : schema_ok s -> In (tn, td) (types s) -> ~ In (qualified tn f) (cascaded t (dropped_types s c) dropped).
Proof.
  intros Hs Hin H. apply filter_In in H as [_ H]. apply andb_true_iff in H as [H _]. apply andb_true_iff in H as [_ H].
  rewrite split_qualified_of in H by (by eapply Hs). cbn [fst] in H. apply existsb_exists in H as (x & Hx & E). destruct (beqb_spec tn x) as [->|]; [|done].
  eapply not_dropped_type; [|exact Hx]. rewrite (schema_get s x td) by done. by eexists.
Qed.

Lemma cascaded_nothing t dropped : cascaded t [] dropped = [].
Proof. unfold cascaded. induction (map fst (tb_ids t)) as [|q l IH]; [done|]. cbn [List.filter existsb]. by rewrite andb_false_r. Qed.

(** ** New types *)

Lemma allocate_types_some entry now l n : forall c c' ws, each (allocate_type entry now) l c = COk (c', ws) -> In n l \/ is_Some (bm_get n (type_entries c)) ->
  is_Some (bm_get n (type_entries c')).
Proof.
  induction l as [|a l IH]; intros c c' ws H Hn; [injection H as <- <-; by destruct Hn|]. cbn [each] in H. unfold seq_ in H.
  apply cbind_ok in H as ([c1 w1] & H1 & H). apply cbind_ok in H as ([c2 w2] & H2 & [= <- <-]). apply (IH _ _ _ H2).
  unfold allocate_type in H1. apply cbind_ok in H1 as (next & _ & [= <- <-]).
  destruct (decide (n = a)) as [->|Hne]; [right; apply (insert_some (type_entries c))|]. destruct Hn as [[->|Hn]|Hn]; [done|by left|right].
  change (is_Some (bm_get n (bm_insert a (entry (tb_next (c_types c)) KIND_UNSET now) (type_entries c)))). by rewrite bm_get_insert_ne.
Qed.

Lemma new_types_good s c : schema_ok s -> cat_ok c -> NoDup (new_type_names s c) /\ forall n, In n (new_type_names s c) -> plain_name n /\ bm_get n (type_entries c) = None.
Proof.
  intros Hs Hc. split.
  - apply NoDup_ListNoDup, List.NoDup_filter, NoDup_ListNoDup, bsorted_nodup, Hs.
  - intros n Hin. apply filter_In in Hin as [Hin Hk]. apply in_map_iff in Hin as ([n' td] & <- & Hin). split; [by eapply Hs|].
    apply absent_type; [done|]. by apply negb_true_iff.
Qed.

(** ** Reconciling *)

(** A store that holds a catalog. *)
Record stored (c : Catalog) (m : bmap bytes) : Prop := {
  sd_inv : inv c m;
  sd_format : format_ok c;
  sd_header : header_ok m c;
}.

Lemma inv_beside ws m c : beside ws -> inv c m -> inv c (apply_ops ws m).
Proof. intros Hw [Hc Hd]. split; [done|by apply disk_beside]. Qed.

Lemma inv_set_format c m v : inv c m -> inv (set_format c v) m.
Proof. intros [[Hc Ht Hf Hr] [Hm Dt Df Dr]]. split; split; try done. unfold cat_of. rewrite Hc at 1. done. Qed.

(** The writes behind the rows of the entries. *)
Definition header_ops (bump : bool) (c : Catalog) (digest : bytes) : list op :=
  (if bump then [put KeyBuilder.catalog_format (encode_format_version CATALOG_FORMAT_V2)] else []) ++ counter_puts c ++ [put KeyBuilder.catalog_digest digest].

Lemma header_ops_beside bump c d : beside (header_ops bump c d).
Proof. intros w. unfold header_ops, counter_puts. destruct bump; cbn [app In]; intros H; repeat (destruct H as [<-|H]; [done|]); done. Qed.

Lemma header_ops_ok (bump : bool) c m d : inv c m -> bm_get KeyBuilder.catalog_format m = Some (encode_format_version (c_format_version c)) ->
  is_Some (bm_get KeyBuilder.catalog_initialized m) -> let c' := if bump then set_format c CATALOG_FORMAT_V2 else c in let m' := apply_ops (header_ops bump c' d) m in
  inv c' m' /\ header_ok m' c' /\ bm_get KeyBuilder.catalog_digest m' = Some d.
Proof.
  intros Hi Hf Hinit c' m'. assert (Hs : bsorted m) by apply Hi. split_and!.
  - apply inv_beside; [apply header_ops_beside|]. unfold c'. destruct bump; [by apply inv_set_format|done].
  - unfold m', c'. destruct bump; split; rewrite bm_get_apply_ops by done; try reflexivity; [exact Hinit|exact Hf|exact Hinit].
  - unfold m'. rewrite bm_get_apply_ops by done. by destruct bump.
Qed.

(** The retirements a reconciliation may make. *)
Definition drops_type (s : Schema) (c : Catalog) (n : bytes) : Prop := In n (dropped_types s c).
Definition drops_field (s : Schema) (c : Catalog) (q : bytes) : Prop :=
  In q (dropped_fields s c) \/ In q (cascaded (c_fields c) (dropped_types s c) (dropped_fields s c)).
Definition drops_rel (s : Schema) (c : Catalog) (q : bytes) : Prop :=
  In q (dropped_rels s c) \/ In q (cascaded (c_rels c) (dropped_types s c) (dropped_rels s c)).

Abbreviation drops s c := (evolves (drops_type s c) (drops_field s c) (drops_rel s c)).
Abbreviation adds := (evolves (fun _ => False) (fun _ => False) (fun _ => False)).

Lemma adds_members s now c c' ws m : schema_ok s -> is_u64 now -> inv c m -> each (add_fields now) (types s) c = COk (c', ws) ->
  inv c' (apply_ops ws m) /\ adds c c' /\ table_ops ws /\ forall tn td f, In (tn, td) (types s) -> In f (fields td) -> has_member tn f c'.
Proof.
  intros Hs Hn Hi H. pose proof (makes_fresh now Hn) as Hmk.
  assert (Hk : forall e c0, In e (types s) -> keeps (fun _ => False) (fun _ => False) (fun _ => False) (add_fields now e) c0).
  { intros [tn td] c0 Hin. apply keeps_each. intros f c1 Hf _. apply (keeps_add_field _ _ _ entry_fresh); [done|by eapply so_types|by eapply so_fields]. }
  destruct (keeps_each _ _ _ (add_fields now) (types s) c (fun a c0 Ha _ => Hk a c0 Ha) c' ws m Hi H) as (Hi' & He & Ht). split_and!; [done..|].
  intros tn td f Hin Hf. apply (each_establishes (fun _ => False) (fun _ => False) (fun _ => False) (add_fields now) (fun e c0 => forall f, In f (fields (snd e)) -> has_member (fst e) f c0)
    (types s) Hk) with (a := (tn, td)) (c := c) (ws := ws) (m := m); try done.
  - intros [tn' td'] c0 c1 w1 m1 Hin' Hi1 H1 g Hg. eapply (each_establishes (fun _ => False) (fun _ => False) (fun _ => False) (add_field now tn') (fun f c => has_member tn' f c)); [..|exact Hi1|exact H1|exact Hg].
    + intros a c2 Ha. apply (keeps_add_field _ _ _ entry_fresh); [done|by eapply so_types|by eapply so_fields].
    + intros a c2 c3 w3 m3 Ha Hi3 H3. eapply (add_field_member (fun _ => False) (fun _ => False) (fun _ => False) entry_fresh); [done|by eapply so_types|by eapply so_fields|exact Hi3|exact H3].
    + intros a c2 c3. apply has_member_stable.
  - intros e c2 c3 Hq Hev g Hg. eapply has_member_stable; [by apply Hq|done].
Qed.

Lemma format_adds c c' : format_ok c -> adds c c' -> format_ok c'.
Proof.
  intros [Hv Hn] [_ Ht Hf Hr Ev]. split; rewrite Ev; [done|]. intros E. destruct (Hn E) as (N1 & N2 & N3).
  split_and!; intros n e Hg He; [destruct (Ht n) as [(e0 & G & R)|[]]|destruct (Hf n) as [(e0 & G & R)|[]]|destruct (Hr n) as [(e0 & G & R)|[]]];
    try (by exists e); [by apply (N1 n e0)|by apply (N2 n e0)|by apply (N3 n e0)].
Qed.

(** The pieces of a reconciliation. *)
Record reconciled (m : bmap bytes) (s : Schema) (c : Catalog) (allow : bool) (digest : bytes) (now : Z) (c' : Catalog) (ws : list op) : Prop := {
  rc_allowed : allow = false -> dropped_types s c = [] /\ dropped_fields s c = [] /\ dropped_rels s c = [];
  rc_types : check_type_names c (map fst (types s)) = COk tt;
  rc_members : check_member_names c (types s) = COk tt;
  rc_kinds : exists plans, scan_migration_plans m = COk plans /\ check_kinds s plans (c_field_kinds c) = COk tt;
  rc_steps : exists c1 w1 c2 w2 c3 w3, each (allocate_type entry_fresh now) (new_type_names s c) c = COk (c1, w1) /\
    each (add_fields now) (types s) c1 = COk (c2, w2) /\
    retire_all now (dropped_types s c) (dropped_fields s c) (dropped_rels s c) (cascaded (c_fields c) (dropped_types s c) (dropped_fields s c))
      (cascaded (c_rels c) (dropped_types s c) (dropped_rels s c)) c2 = COk (c3, w3) /\
    let bump := negb (is_empty w3) && (c_format_version c3 <? CATALOG_FORMAT_V2) in
    c' = (if bump then set_format c3 CATALOG_FORMAT_V2 else c3) /\ ws = w1 ++ w2 ++ w3 ++ header_ops bump c' digest;
}.

Lemma reconcile_pieces m s c allow digest now c' ws : reconcile_into_txn m s c allow digest now = COk (c', ws) -> reconciled m s c allow digest now c' ws.
Proof.
  intros H. unfold reconcile_into_txn in H. apply cbind_ok in H as ([] & H0 & H). apply cbind_ok in H as ([] & H1 & H). apply cbind_ok in H as ([] & H2 & H).
  apply cbind_ok in H as (plans & H3 & H). apply cbind_ok in H as ([] & H4 & H). apply cbind_ok in H as ([c1 w1] & H5 & H).
  apply cbind_ok in H as ([c2 w2] & H6 & H). apply cbind_ok in H as ([c3 w3] & H7 & H). injection H as <- <-. split; [|done..|by exists plans|by exists c1, w1, c2, w2, c3, w3].
  intros ->. rewrite orb_false_r in H0. destruct (dropped_types s c), (dropped_fields s c), (dropped_rels s c); done.
Qed.

(** The rows of the entries, before the header. *)
Lemma reconcile_rows m s c now c1 w1 c2 w2 c3 w3 : inv c m -> schema_ok s -> is_u64 now ->
  each (allocate_type entry_fresh now) (new_type_names s c) c = COk (c1, w1) -> each (add_fields now) (types s) c1 = COk (c2, w2) ->
  retire_all now (dropped_types s c) (dropped_fields s c) (dropped_rels s c) (cascaded (c_fields c) (dropped_types s c) (dropped_fields s c))
      (cascaded (c_rels c) (dropped_types s c) (dropped_rels s c)) c2 = COk (c3, w3) ->
  inv c3 (apply_ops (w1 ++ w2 ++ w3) m) /\ adds c c2 /\ drops s c c2 c3 /\ table_ops (w1 ++ w2 ++ w3) /\
  (forall tn td, In (tn, td) (types s) -> is_Some (bm_get tn (type_entries c3))) /\
  (forall tn td f, In (tn, td) (types s) -> In f (fields td) -> has_member tn f c3).
Proof.
  intros Hi Hs Hn H1 H2 H3. destruct (new_types_good s c Hs (proj1 Hi)) as [Hnd Hgood].
  destruct (keeps_allocate_types (fun _ => False) (fun _ => False) (fun _ => False) entry_fresh now _ (makes_fresh now Hn) c Hnd Hgood c1 w1 m Hi H1) as (Hi1 & E1 & T1).
  destruct (adds_members s now c1 c2 w2 _ Hs Hn Hi1 H2) as (Hi2 & E2 & T2 & M2).
  destruct (keeps_retire_all (drops_type s c) (drops_field s c) (drops_rel s c) now _ _ _ _ _ c2 Hn (fun n H => H) (fun n H => H) (fun n H => H) c3 w3 _ Hi2 H3) as (Hi3 & E3 & T3).
  rewrite !apply_ops_app. split_and!; [done|by etrans|done|by repeat apply Forall_app_2| |].
  - intros tn td Hin. eapply grows_some; [apply E3|]. eapply grows_some; [apply E2|]. eapply allocate_types_some; [exact H1|].
    destruct (has_key (tb_ids (c_types c)) tn) eqn:Ek.
    + right. apply has_key_spec in Ek. rewrite (types_shape c (proj1 Hi)) in Ek. cbn [table_of tb_ids] in Ek. rewrite bm_fmap_get in Ek. by apply fmap_is_Some in Ek.
    + left. apply filter_In. rewrite Ek. split; [by apply (in_map fst) in Hin|done].
  - intros tn td f Hin Hf. eapply (has_member_stable (drops_type s c) (drops_field s c) (drops_rel s c)); [by eapply M2|done].
Qed.

(** ** The names in use after a reconciliation *)

(** Members in use belong to types in use. *)
Definition parents (c : Catalog) : Prop :=
  forall t f, plain_name t -> live (field_entries c) (qualified t f) \/ live (rel_entries c) (qualified t f) -> live (type_entries c) t.

Lemma matches_parents s c : schema_ok s -> names_match s c -> parents c.
Proof.
  intros Hs [Mt Mf Mr] t f Ht [H|H]; [apply Mf in H as (tn & td & fd & Hin & _ & E)|apply Mr in H as (tn & td & fd & Hin & _ & _ & E)];
    apply Mt; exists td; (apply qualified_eq in E as [-> _]; [done|done|by eapply so_types]).
Qed.

Lemma not_retired es next n : bsorted es -> ~ retired_in es n -> retired (table_of es next) n = false.
Proof. intros Hs H. apply not_true_iff_false. by rewrite retired_spec. Qed.

Lemma key_listed es (next : Z) n : bsorted es -> is_Some (bm_get n es) -> In n (map fst (tb_ids (table_of es next))).
Proof. intros Hs [e Hg]. cbn [table_of tb_ids]. rewrite bm_fmap_keys. apply bm_get_in in Hg; [|done]. by apply (in_map fst) in Hg. Qed.

Lemma drops_unnamed_type s c n : schema_ok s -> cat_ok c -> live (type_entries c) n -> schema_type s n \/ drops_type s c n.
Proof.
  intros Hs Hc [Hp Hr]%live_spec. destruct (get_type s n) as [td|] eqn:E; [left; exists td; by apply bm_get_in in E; [|apply Hs]|right]. unfold drops_type, dropped_types. rewrite (types_shape c Hc). apply filter_In. split; [apply key_listed; [apply Hc|done]|].
  rewrite not_retired by (done || apply Hc). unfold has_key. unfold get_type in E. by rewrite E.
Qed.

(** The rule by which members are dropped: of a type the schema names when they
    are [gone] from it, of another with the type. *)
Lemma drops_unnamed t f s (gone : bytes -> TypeDef -> bool) tb es next dt :
  tb = table_of es next -> bsorted es -> plain_name t -> live es (qualified t f) -> (forall td, In (t, td) (types s) -> gone f td = true) ->
  (get_type s t = None -> In t dt) -> let dropped := List.filter (fun qual => negb (retired tb qual) &&
    let '(t, f) := split_qualified qual in match get_type s t with None => false | Some td => gone f td end) (map fst (tb_ids tb)) in
  schema_ok s -> In (qualified t f) dropped \/ In (qualified t f) (cascaded tb dt dropped).
Proof.
  intros -> Hes Ht [Hp Hr]%live_spec Hn Hdt dropped Hs. pose proof (key_listed es next _ Hes Hp) as Hk. pose proof (not_retired es next _ Hes Hr) as Hnr.
  destruct (get_type s t) as [td|] eqn:Eg.
  - left. apply filter_In. split; [done|]. rewrite Hnr, split_qualified_of by apply Ht. rewrite Eg, Hn; [done|]. by apply bm_get_in in Eg; [|apply Hs].
  - right. apply filter_In. split; [done|]. rewrite Hnr, split_qualified_of by apply Ht. cbn [negb andb fst].
    assert (existsb (beqb t) dt = true) as -> by (apply existsb_exists; exists t; split; [by apply Hdt|by destruct (beqb_spec t t)]). cbn [andb].
    apply negb_true_iff, not_true_iff_false. intros (x & Hx & E)%existsb_exists. destruct (beqb_spec (qualified t f) x) as [<-|]; [|done].
    apply filter_In in Hx as [_ Hx]. rewrite Hnr, split_qualified_of in Hx by apply Ht. by rewrite Eg in Hx.
Qed.

Lemma named_field td f fd : get_field td f = Some fd -> In fd (fields td) /\ fd_name fd = f.
Proof. intros [E1 E2]%List.find_some. split; [done|]. by destruct (beqb_spec (fd_name fd) f). Qed.

Lemma drops_type_of s c t : schema_ok s -> cat_ok c -> live (type_entries c) t -> get_type s t = None -> In t (dropped_types s c).
Proof. intros Hs Hc Hl E. destruct (drops_unnamed_type s c t Hs Hc Hl) as [[td Hin]|]; [|done]. by rewrite (schema_get s t td) in E. Qed.

Lemma drops_unnamed_field s c q : schema_ok s -> cat_ok c -> parents c -> live (field_entries c) q -> schema_field s q \/ drops_field s c q.
Proof.
  intros Hs Hc Hp Hl. pose proof Hl as (e & Hg & _). destruct (en_names _ _ _ (co_fields c Hc) q e Hg) as (t & f & -> & Ht & Hf).
  pose proof (drops_unnamed t f s (fun f td => is_none (get_field td f)) (c_fields c) (field_entries c) (tb_next (c_fields c)) (dropped_types s c)
    (proj1 (fields_shape c Hc)) (en_sorted _ _ _ (co_fields c Hc)) Ht Hl) as Hd. cbn beta zeta in Hd.
  assert (Hpar : get_type s t = None -> In t (dropped_types s c)) by (apply drops_type_of; [done..|]; apply (Hp t f); [done|by left]).
  destruct (get_type s t) as [td|] eqn:Et; [|right; apply Hd; [|done..]; intros td Hin; by rewrite (schema_get s t td) in Et].
  destruct (get_field td f) as [fd|] eqn:Ef; [left|right; apply Hd; [|done..]; intros td' Hin; rewrite (schema_get s t td') in Et by done; injection Et as <-; by rewrite Ef].
  apply named_field in Ef as [E1 <-]. exists t, td, fd. split_and!; [|done..]. by apply bm_get_in in Et; [|apply Hs].
Qed.

Lemma drops_unnamed_rel s c q : schema_ok s -> cat_ok c -> parents c -> live (rel_entries c) q -> schema_rel s q \/ drops_rel s c q.
Proof.
  intros Hs Hc Hp Hl. pose proof Hl as (e & Hg & _). destruct (en_names _ _ _ (co_rels c Hc) q e Hg) as (t & f & -> & Ht & Hf).
  pose proof (drops_unnamed t f s (fun f td => match get_field td f with None => true | Some fd => negb (is_relation fd) end) (c_rels c) (rel_entries c) (tb_next (c_rels c))
    (dropped_types s c) (rels_shape c Hc) (en_sorted _ _ _ (co_rels c Hc)) Ht Hl) as Hd. cbn beta zeta in Hd.
  assert (Hpar : get_type s t = None -> In t (dropped_types s c)) by (apply drops_type_of; [done..|]; apply (Hp t f); [done|by right]).
  destruct (get_type s t) as [td|] eqn:Et; [|right; apply Hd; [|done..]; intros td Hin; by rewrite (schema_get s t td) in Et].
  destruct (get_field td f) as [fd|] eqn:Ef; [|right; apply Hd; [|done..]; intros td' Hin; rewrite (schema_get s t td') in Et by done; injection Et as <-; by rewrite Ef].
  destruct (is_relation fd) eqn:Er; [left|right; apply Hd; [|done..]; intros td' Hin; rewrite (schema_get s t td') in Et by done; injection Et as <-; by rewrite Ef, Er].
  apply named_field in Ef as [E1 <-]. exists t, td, fd. split_and!; [|done..]. by apply bm_get_in in Et; [|apply Hs].
Qed.

(** One table: what is named and was not retired is in use, what is in use is named. *)
Lemma table_matches (P D : bytes -> Prop) es es2 es3 : grows es es2 -> grows es2 es3 -> retires (fun _ => False) es es2 -> retires D es2 es3 ->
  (forall n, is_Some (bm_get n es3) -> is_Some (bm_get n es) \/ P n) -> (forall n, P n -> is_Some (bm_get n es3)) -> (forall n, P n -> ~ retired_in es n /\ ~ D n) ->
  (forall n, live es n -> P n \/ D n) -> (forall n, D n -> is_Some (bm_get n es2) -> retired_in es3 n) -> forall n, live es3 n <-> P n.
Proof.
  intros G1 G2 R1 R2 Horig Hhas Hkeep Hdrop Hret n. rewrite live_spec. split.
  - intros [Hp Hr]. destruct (Horig n Hp) as [Hs|]; [|done].
    destruct (Hdrop n) as [|Hd]; [|done|exfalso; apply Hr, Hret; [done|by eapply grows_some]].
    apply live_spec. split; [done|]. intros H. apply Hr. by eapply grows_retired, grows_retired.
  - intros Hn. split; [by apply Hhas|]. intros H. destruct (Hkeep n Hn) as [K1 K2]. destruct (R2 n H) as [H2|]; [|done]. by destruct (R1 n H2).
Qed.

Lemma reconcile_matches m s c now c1 w1 c2 w2 c3 w3 : inv c m -> schema_ok s -> parents c -> is_u64 now ->
  check_type_names c (map fst (types s)) = COk tt -> check_member_names c (types s) = COk tt ->
  each (allocate_type entry_fresh now) (new_type_names s c) c = COk (c1, w1) -> each (add_fields now) (types s) c1 = COk (c2, w2) ->
  retire_all now (dropped_types s c) (dropped_fields s c) (dropped_rels s c) (cascaded (c_fields c) (dropped_types s c) (dropped_fields s c))
      (cascaded (c_rels c) (dropped_types s c) (dropped_rels s c)) c2 = COk (c3, w3) ->
  names_match s c3.
Proof.
  intros Hi Hs Hp Hn Ct Cm H1 H2 H3. destruct (reconcile_rows m s c now c1 w1 c2 w2 c3 w3 Hi Hs Hn H1 H2 H3) as (_ & [(G1 & G2 & G3) T1 F1 R1 _] & [(K1 & K2 & K3) T2 F2 R2 _] & _ & Ht & Hm).
  assert (Ho : origin s c c3).
  { eapply origin_retire_all; [|exact H3]. eapply origin_add_fields; [|exact H2]. eapply origin_new_types; [| |exact H1]; [|split; by left].
    intros n Hin. apply filter_In in Hin as [Hin _]. apply in_map_iff in Hin as ([n' td] & <- & Hin). by exists td. }
  destruct (new_types_good s c Hs (proj1 Hi)) as [Hnd Hgood].
  destruct (keeps_allocate_types (fun _ => False) (fun _ => False) (fun _ => False) entry_fresh now _ (makes_fresh now Hn) c Hnd Hgood c1 w1 m Hi H1) as (I1 & _).
  destruct (adds_members s now c1 c2 w2 _ Hs Hn I1 H2) as (I2 & _).
  destruct (retire_all_retires _ _ _ _ _ _ c2 c3 w3 _ Hn I2 H3) as (X1 & X2 & X3). destruct Ho as [Ot Of Or]. split.
  - apply (table_matches (schema_type s) (drops_type s c) (type_entries c) (type_entries c2)); try done.
    + intros n [td Hin]. by eapply Ht.
    + intros n [td Hin]. split; [|apply not_dropped_type; rewrite (schema_get s n td) by done; by eexists].
      rewrite <- (retired_type c n (proj1 Hi)). rewrite (check_type_names_ok _ _ Ct); [done|]. by apply (in_map fst) in Hin.
    + intros n. apply drops_unnamed_type; [done|apply Hi].
  - apply (table_matches (schema_field s) (drops_field s c) (field_entries c) (field_entries c2)); try done.
    + intros n (tn & td & f & Hin & Hf & ->). by eapply Hm.
    + intros n (tn & td & f & Hin & Hf & ->). split; [|intros [H|H]; [by eapply not_dropped_field in H|by eapply not_cascaded in H]].
      rewrite <- (retired_field c _ (proj1 Hi)). pose proof (proj1 (check_member_names_ok _ _ Cm (tn, td) f Hin Hf)) as E. cbn [fst] in E. by rewrite E.
    + intros n. apply drops_unnamed_field; [done|apply Hi|done].
  - apply (table_matches (schema_rel s) (drops_rel s c) (rel_entries c) (rel_entries c2)); try done.
    + intros n (tn & td & f & Hin & Hf & Hr & ->). by eapply Hm.
    + intros n (tn & td & f & Hin & Hf & Hr & ->). split; [|intros [H|H]; [by eapply not_dropped_rel in H|by eapply not_cascaded in H]].
      rewrite <- (retired_rel c _ (proj1 Hi)). pose proof (proj2 (check_member_names_ok _ _ Cm (tn, td) f Hin Hf) Hr) as E. cbn [fst] in E. by rewrite E.
    + intros n. apply drops_unnamed_rel; [done|apply Hi|done].
Qed.

(** What an opening leaves for a schema: a stored catalog whose names in use are the
    schema's, with the kinds of its fields. *)
Record opened (s : Schema) (digest : bytes) (plans : list MigrationPlan) (c : Catalog) (m : bmap bytes) : Prop := {
  op_stored : stored c m;
  op_matches : names_match s c;
  op_kinds : kinds_licensed s plans c;
  op_digest : bm_get KeyBuilder.catalog_digest m = Some digest;
}.

Definition nothing_retired (c c' : Catalog) : Prop :=
  (forall n, retired_in (type_entries c') n -> retired_in (type_entries c) n) /\ (forall n, retired_in (field_entries c') n -> retired_in (field_entries c) n) /\
  (forall n, retired_in (rel_entries c') n -> retired_in (rel_entries c) n).

Lemma checked_kinds s plans c : schema_ok s -> cat_ok c -> check_kinds s plans (c_field_kinds c) = COk tt -> kinds_licensed s plans c.
Proof.
  intros Hs Hc H tn td f e Hin Hf Hg. apply (check_kinds_ok s plans _ H (qualified tn (fd_name f)) (ie_kind e) tn (fd_name f) td f).
  - rewrite (proj2 (fields_shape c Hc)). apply bm_get_in; [apply bm_fmap_sorted, Hc|]. by rewrite bm_fmap_get, Hg.
  - apply split_qualified_of. by eapply so_types.
  - by apply schema_get.
  - apply get_field_some; [done|by eapply Hs].
Qed.

Lemma evolves_format_retire s c c2 c3 now dt df dr cf cr w3 : format_ok c2 -> drops s c c2 c3 -> retire_all now dt df dr cf cr c2 = COk (c3, w3) ->
  let bump := negb (is_empty w3) && (c_format_version c3 <? CATALOG_FORMAT_V2) in format_ok (if bump then set_format c3 CATALOG_FORMAT_V2 else c3).
Proof.
  intros Hf [_ _ _ _ Ev] H bump. unfold bump. destruct w3 as [|w w3]; cbn [is_empty negb andb].
  - apply silent_retire_all in H. by subst c3.
  - destruct (Z.ltb_spec (c_format_version c3) CATALOG_FORMAT_V2) as [Hlt|Hge].
    + split; [cbn; unfold CATALOG_FORMAT_V2, CATALOG_FORMAT_CURRENT; lia|]. by cbn.
    + destruct Hf as [Hv _]. rewrite <- Ev in Hv. split; [done|]. intros E. rewrite E in Hge. by cbn in Hge.
Qed.

Lemma reconcile_ok m s c allow digest now c' ws : stored c m -> parents c -> schema_ok s -> is_u64 now ->
  reconcile_into_txn m s c allow digest now = COk (c', ws) ->
  extends c c' /\ (allow = false -> nothing_retired c c') /\ exists plans, scan_migration_plans m = COk plans /\ opened s digest plans c' (apply_ops ws m).
Proof.
  intros [Hi Hf Hh] Hp Hs Hn H. apply reconcile_pieces in H as [Ha Ct Cm (plans & Hpl & Ck) (c1 & w1 & c2 & w2 & c3 & w3 & H1 & H2 & H3 & Ec & ->)].
  destruct (reconcile_rows m s c now c1 w1 c2 w2 c3 w3 Hi Hs Hn H1 H2 H3) as (Hi3 & A & D & T & _).
  pose proof (reconcile_matches m s c now c1 w1 c2 w2 c3 w3 Hi Hs Hp Hn Ct Cm H1 H2 H3) as M3.
  set (bump := negb (is_empty w3) && (c_format_version c3 <? CATALOG_FORMAT_V2)) in *.
  assert (Ex : extends c c3) by (etrans; [apply A|apply D]).
  assert (Hk : kinds_licensed s plans c3).
  { eapply kinds_retire_all; [|exact H3]. eapply kinds_add_fields; [exact Hs| |exact H2]. eapply kinds_allocate_types; [|exact H1]. apply checked_kinds; [done|apply Hi|done]. }
  assert (Hsame : type_entries c' = type_entries c3 /\ field_entries c' = field_entries c3 /\ rel_entries c' = rel_entries c3) by (rewrite Ec; by destruct bump).
  destruct Hsame as (S1 & S2 & S3). unfold extends, nothing_retired. rewrite S1, S2, S3. split; [done|]. split.
  - intros E. destruct (Ha E) as (D1 & D2 & D3). destruct A as [_ A1 A2 A3 _], D as [_ B1 B2 B3 _]. unfold drops_type, drops_field, drops_rel in B1, B2, B3.
    rewrite D1 in B1. rewrite D1, D2, cascaded_nothing in B2. rewrite D1, D3, cascaded_nothing in B3. split_and!.
    + intros n [H|[]]%B1. by destruct (A1 n H).
    + intros n [H|[[]|[]]]%B2. by destruct (A2 n H).
    + intros n [H|[[]|[]]]%B3. by destruct (A3 n H).
  - exists plans. split; [done|]. rewrite (app_assoc w2 w3), (app_assoc w1), apply_ops_app. set (m3 := apply_ops (w1 ++ w2 ++ w3) m) in *.
    assert (Hb : forall k, table_key k = false -> bm_get k m3 = bm_get k m) by (intros k Hk'; apply table_ops_beside; [apply Hi|done|done]).
    destruct (header_ops_ok bump c3 m3 digest Hi3) as (Hi' & Hh' & Hd').
    + rewrite Hb by done. destruct A as [_ _ _ _ V1], D as [_ _ _ _ V2]. rewrite V2, V1. apply Hh.
    + rewrite Hb by done. apply Hh.
    + rewrite <- Ec in Hi', Hh', Hd'. split.
      * split; [done| |done]. rewrite Ec. eapply evolves_format_retire; [eapply format_adds; [exact Hf|exact A]|exact D|exact H3].
      * destruct M3 as [M1 M2 M3]. split; [rewrite S1|rewrite S2|rewrite S3]; done.
      * unfold kinds_licensed. by rewrite S2.
      * done.
Qed.
