(* ===== verification/CatalogLife.v ===== *)
(** * The life of a catalog

    A catalog is made by the first opening of a store, and every later opening
    finds it again.  The digest of a schema tells schemas with different names or
    kinds apart.  Over any sequence of openings an id is never changed, shared or
    given to another name, and what an opening returns is what the tables of the
    engine need. *)

From Stdlib Require Import ZArith Lia Bool List Strings.Byte Strings.String.
From stdpp Require Import base tactics option list gmap.
From S2P Require Import Prelude ByteMap Keys Utf8 Values Schema SchemaParser SchemaSpec SchemaRoundTrip IndexKeys Store CatalogCodec Catalog CatalogInv CatalogOpen.

Local Open Scope Z_scope.

(** ** A store without a catalog *)

(** No rows of entries. *)
Definition no_tables (m : bmap bytes) : Prop := forall k, table_key k = true -> bm_get k m = None.

Lemma no_rows N m : table_key (nm_prefix N) = true -> no_tables m -> rows_ok N [] m.
Proof.
  intros Hp Hm k v Hk. rewrite Hm; [split; [done|]; by intros (n & e & H & _)|]. destruct Hk as [x ->]. revert Hp. unfold table_key.
  rewrite !orb_true_iff, !starts_with_true. intros [[Hp|Hp]|Hp]; [left; left|left; right|right]; by apply prefix_app_r.
Qed.

Lemma entries_none N : entries_ok N [] 1.
Proof. split; try done. apply bsorted_nil. Qed.

Lemma empty_inv m : bsorted m -> no_tables m -> inv catalog_empty m.
Proof.
  intros Hs Hm. split.
  - split; [done|apply entries_none..].
  - split; [done|by apply no_rows..].
Qed.

Lemma empty_format : format_ok catalog_empty.
Proof. split; [done|]. intros _. split_and!; by intros n e H. Qed.

(** ** Backfilling *)

Section backfill.
Variables (PT PF PR : bytes -> Prop) (now : Z).
Hypothesis Hnow : is_u64 now.

(** No entry for the member. *)
Definition fresh (q : bytes) (c : Catalog) : Prop := bm_get q (field_entries c) = None /\ bm_get q (rel_entries c) = None.

Lemma backfill_field_frame t f c c' ws : backfill_field now t f c = COk (c', ws) ->
  type_entries c' = type_entries c /\ forall q, q <> qualified t (fd_name f) -> fresh q c -> fresh q c'.
Proof.
  intros H. unfold backfill_field, seq_ in H. apply cbind_ok in H as ([c1 w1] & H1 & H). apply cbind_ok in H as ([c2 w2] & H2 & [= <- <-]).
  unfold allocate_field in H1. apply cbind_ok in H1 as (next & _ & [= <- <-]). unfold when_ in H2. destruct (is_relation f).
  - unfold allocate_rel in H2. apply cbind_ok in H2 as (next2 & _ & [= <- <-]). split; [done|]. intros q Hq [F1 F2]. split.
    + etrans; [apply (bm_get_insert_ne _ _ (field_entries c))|]; done.
    + etrans; [apply (bm_get_insert_ne _ _ (rel_entries c))|]; done.
  - injection H2 as <- <-. split; [done|]. intros q Hq [F1 F2]. split; [|done]. etrans; [apply (bm_get_insert_ne _ _ (field_entries c))|]; done.
Qed.

Lemma backfill_fields_frame t fs : forall c c' ws, each (backfill_field now t) fs c = COk (c', ws) ->
  type_entries c' = type_entries c /\ forall q, (forall f, In f fs -> q <> qualified t (fd_name f)) -> fresh q c -> fresh q c'.
Proof.
  induction fs as [|f fs IH]; intros c c' ws H; [injection H as <- <-; done|]. cbn [each] in H. unfold seq_ in H.
  apply cbind_ok in H as ([c1 w1] & H1 & H). apply cbind_ok in H as ([c2 w2] & H2 & [= <- <-]). apply backfill_field_frame in H1 as [E1 F1]. apply IH in H2 as [E2 F2].
  split; [congruence|]. intros q Hq Hc. apply F2; [intros g Hg; apply Hq; by right|]. apply F1; [apply Hq; by left|done].
Qed.

Lemma keeps_backfill_field t f c : plain_name t -> plain_name (fd_name f) -> fresh (qualified t (fd_name f)) c -> keeps PT PF PR (backfill_field now t f) c.
Proof.
  intros Ht Hf [F1 F2]. apply keeps_seq; [by apply keeps_allocate_field; [apply makes_backfilled|..]|].
  intros c' ws H _. apply keeps_when. intros _. apply keeps_allocate_rel; [by apply makes_backfilled|done..|].
  unfold allocate_field in H. by apply cbind_ok in H as (next & _ & [= <- <-]).
Qed.

Lemma keeps_backfill_fields t fs : plain_name t -> (forall f, In f fs -> plain_name (fd_name f)) -> NoDup (map fd_name fs) -> forall c,
  (forall f, In f fs -> fresh (qualified t (fd_name f)) c) -> keeps PT PF PR (each (backfill_field now t) fs) c.
Proof.
  intros Ht. induction fs as [|f fs IH]; intros Hf Hn c Hc; [apply keeps_nothing|]. cbn [each map] in *. apply NoDup_cons in Hn as [Hi Hn].
  apply keeps_seq; [apply keeps_backfill_field; [done|apply Hf; by left|apply Hc; by left]|]. intros c' ws H _. apply IH; [intros g Hg; apply Hf; by right|done|].
  intros g Hg. apply backfill_field_frame in H as [_ F]. apply F; [|apply Hc; by right]. intros [_ E]%qualified_eq; [|done..]. apply Hi. rewrite <- E. apply list_elem_of_In. by apply in_map.
Qed.

Lemma keeps_backfill_types ts : (forall tn td, In (tn, td) ts -> plain_name tn /\ (forall f, In f (fields td) -> plain_name (fd_name f)) /\ NoDup (map fd_name (fields td))) ->
  NoDup (map fst ts) -> forall c, (forall tn td, In (tn, td) ts -> bm_get tn (type_entries c) = None /\ forall f, In f (fields td) -> fresh (qualified tn (fd_name f)) c) ->
  keeps PT PF PR (each (backfill_type now) ts) c.
Proof.
  induction ts as [|[tn td] ts IH]; intros Hok Hn c Hc; [apply keeps_nothing|]. cbn [each map fst] in *. apply NoDup_cons in Hn as [Hi Hn].
  destruct (Hok tn td (or_introl eq_refl)) as (Ht & Hf & Hd). destruct (Hc tn td (or_introl eq_refl)) as [C1 C2]. apply keeps_seq.
  - apply keeps_seq; [by apply keeps_allocate_type; [apply makes_backfilled|..]|]. intros c' ws H _. apply keeps_backfill_fields; [done..|].
    intros f Hin. unfold allocate_type in H. apply cbind_ok in H as (next & _ & [= <- <-]). by apply C2.
  - intros c' ws H _. apply IH; [intros t' td' Hin; apply Hok; by right|done|]. intros t' td' Hin. destruct (Hc t' td' (or_intror Hin)) as [D1 D2].
    assert (Hne : t' <> tn) by (intros ->; apply Hi, list_elem_of_In; by apply (in_map fst) in Hin).
    unfold backfill_type, seq_ in H. cbn [fst snd] in H. apply cbind_ok in H as ([c1 w1] & H1 & H). apply cbind_ok in H as ([c2 w2] & H2 & [= <- <-]).
    unfold allocate_type in H1. apply cbind_ok in H1 as (next & _ & [= <- <-]). apply backfill_fields_frame in H2 as [E F]. split.
    + rewrite E. etrans; [apply (bm_get_insert_ne _ _ (type_entries c))|]; done.
    + intros f Hin'. apply F; [|by apply D2]. intros g Hg [E' _]%qualified_eq; [done|by apply (Hok t' td'); right|done].
Qed.
End backfill.

Lemma each_gives {A} (f : A -> Catalog -> cres (Catalog * list op)) (Q : A -> Catalog -> Prop) l : (forall a b, In a l -> In b l -> preserves (Q a) (f b)) ->
  (forall a c c' ws, In a l -> f a c = COk (c', ws) -> Q a c') -> forall c c' ws, each f l c = COk (c', ws) -> forall a, In a l -> Q a c'.
Proof.
  induction l as [|b l IH]; intros Hp Hq c c' ws H a Ha; [done|]. cbn [each] in H. unfold seq_ in H.
  apply cbind_ok in H as ([c1 w1] & H1 & H). apply cbind_ok in H as ([c2 w2] & H2 & [= <- <-]). destruct Ha as [->|Ha].
  - assert (Hl : preserves (Q a) (each f l)) by (apply preserves_each; intros x Hx; apply Hp; [by left|by right]). eapply Hl; [|exact H2]. eapply Hq; [by left|exact H1].
  - eapply IH; [intros x y Hx Hy; apply Hp; by right|intros x c0 c3 w3 Hx; apply Hq; by right|exact H2|done].
Qed.

(** Allocations lose no name. *)
Definition has_type (t : bytes) (c : Catalog) : Prop := is_Some (bm_get t (type_entries c)).

Lemma insert_keeps {V} (m : bmap V) k v n : is_Some (bm_get n m) -> is_Some (bm_get n (bm_insert k v m)).
Proof. destruct (decide (n = k)) as [->|]; [intros _; apply insert_some|]. by rewrite bm_get_insert_ne. Qed.

Section kept.
Variables (entry : Z -> Z -> Z -> IdEntry) (now : Z).

Lemma type_kept t t' : preserves (has_type t) (allocate_type entry now t').
Proof. intros c c' ws Hc H. unfold allocate_type in H. apply cbind_ok in H as (next & _ & [= <- <-]). by apply (insert_keeps (type_entries c)). Qed.

Lemma member_kept_type t f t' : preserves (has_member t f) (allocate_type entry now t').
Proof. intros c c' ws Hc H. unfold allocate_type in H. by apply cbind_ok in H as (next & _ & [= <- <-]). Qed.

Lemma type_kept_field t t' f' : preserves (has_type t) (allocate_field entry now t' f').
Proof. intros c c' ws Hc H. unfold allocate_field in H. by apply cbind_ok in H as (next & _ & [= <- <-]). Qed.

Lemma type_kept_rel t t' f' : preserves (has_type t) (allocate_rel entry now t' f').
Proof. intros c c' ws Hc H. unfold allocate_rel in H. by apply cbind_ok in H as (next & _ & [= <- <-]). Qed.

Lemma member_kept_field t f t' f' : preserves (has_member t f) (allocate_field entry now t' f').
Proof. intros c c' ws [H1 H2] H. unfold allocate_field in H. apply cbind_ok in H as (next & _ & [= <- <-]). split; [by apply (insert_keeps (field_entries c))|done]. Qed.

Lemma member_kept_rel t f t' f' : preserves (has_member t f) (allocate_rel entry now t' f').
Proof. intros c c' ws [H1 H2] H. unfold allocate_rel in H. apply cbind_ok in H as (next & _ & [= <- <-]). split; [done|]. intros Hr. apply (insert_keeps (rel_entries c)). by apply H2. Qed.
End kept.

Lemma preserves_backfill_field P now t f : preserves P (allocate_field entry_backfilled now t f) -> (is_relation f = true -> preserves P (allocate_rel entry_backfilled now t f)) ->
  preserves P (backfill_field now t f).
Proof.
  intros H1 H2. apply preserves_seq; [done|]. destruct (is_relation f); [by apply H2|]. by intros c c' ws Hc [= <- <-].
Qed.

Lemma preserves_backfill_type P now e : preserves P (allocate_type entry_backfilled now (fst e)) -> (forall f, In f (fields (snd e)) -> preserves P (allocate_field entry_backfilled now (fst e) f)) ->
  (forall f, In f (fields (snd e)) -> is_relation f = true -> preserves P (allocate_rel entry_backfilled now (fst e) f)) -> preserves P (backfill_type now e).
Proof. intros H1 H2 H3. apply preserves_seq; [done|]. apply preserves_each. intros f Hf. apply preserves_backfill_field; [by apply H2|by apply H3]. Qed.

Lemma backfill_field_member now t f c c' ws : backfill_field now t f c = COk (c', ws) -> has_member t f c'.
Proof.
  intros H. unfold backfill_field, seq_ in H. apply cbind_ok in H as ([c1 w1] & H1 & H). apply cbind_ok in H as ([c2 w2] & H2 & [= <- <-]).
  unfold allocate_field in H1. apply cbind_ok in H1 as (next & _ & [= <- <-]). unfold when_ in H2. unfold has_member. destruct (is_relation f).
  - unfold allocate_rel in H2. apply cbind_ok in H2 as (next2 & _ & [= <- <-]). split; [apply (insert_some (field_entries c))|intros _; apply (insert_some (rel_entries c))].
  - injection H2 as <- <-. split; [apply (insert_some (field_entries c))|done].
Qed.

Lemma backfill_names s now c c' ws : each (backfill_type now) (types s) c = COk (c', ws) ->
  (forall tn td, In (tn, td) (types s) -> has_type tn c') /\ forall tn td f, In (tn, td) (types s) -> In f (fields td) -> has_member tn f c'.
Proof.
  intros H.
  assert (Hg : forall e, In e (types s) -> has_type (fst e) c' /\ forall f, In f (fields (snd e)) -> has_member (fst e) f c').
  { eapply (each_gives (backfill_type now) (fun e c => has_type (fst e) c /\ forall f, In f (fields (snd e)) -> has_member (fst e) f c)); [..|exact H].
    - intros a b _ _ c0 c1 w1 [Ht Hm] H1. split.
      + eapply preserves_backfill_type; [apply type_kept|intros; apply type_kept_field|intros; apply type_kept_rel|exact Ht|exact H1].
      + intros f Hf. eapply preserves_backfill_type; [apply member_kept_type|intros; apply member_kept_field|intros; apply member_kept_rel|by apply Hm|exact H1].
    - intros [tn td] c0 c1 w1 _ H1. unfold backfill_type, seq_ in H1. cbn [fst snd] in *. apply cbind_ok in H1 as ([c2 w2] & H2 & H1). apply cbind_ok in H1 as ([c3 w3] & H3 & [= <- <-]). split.
      + eapply (preserves_each (has_type tn)); [intros f _|..|exact H3]; [apply preserves_backfill_field; [apply type_kept_field|intros _; apply type_kept_rel]|].
        unfold allocate_type in H2. apply cbind_ok in H2 as (next & _ & [= <- <-]). apply (insert_some (type_entries c0)).
      + eapply (each_gives (backfill_field now tn) (has_member tn)); [..|exact H3].
        * intros f g _ _. apply preserves_backfill_field; [apply member_kept_field|intros _; apply member_kept_rel].
        * intros f c4 c5 w5 _. apply backfill_field_member. }
  split; [intros tn td Hin; by apply (Hg (tn, td))|]. intros tn td f Hin Hf. by apply (Hg (tn, td)).
Qed.

Lemma backfill_origin s now c0 : preserves (origin s c0) (each (backfill_type now) (types s)).
Proof.
  apply preserves_each. intros [tn td] Hin. apply preserves_backfill_type; cbn [fst snd].
  - apply origin_type. by exists td.
  - intros f Hf. by eapply origin_field.
  - intros f Hf Hr. by eapply origin_rel.
Qed.

Lemma backfill_kinds s plans now : schema_ok s -> preserves (kinds_licensed s plans) (each (backfill_type now) (types s)).
Proof.
  intros Hs. apply preserves_each. intros [tn td] Hin. apply preserves_backfill_type; cbn [fst snd].
  - apply kinds_same. intros c c' ws H. unfold allocate_type in H. by apply cbind_ok in H as (next & _ & [= <- <-]).
  - intros f Hf. by eapply kinds_allocate_field.
  - intros f Hf Hr. apply kinds_same. intros c c' ws H. unfold allocate_rel in H. by apply cbind_ok in H as (next & _ & [= <- <-]).
Qed.

Section openings.
Context {L : CatalogLib}.

Definition backfill_tail (c : Catalog) (digest : bytes) (now : Z) : list op :=
  counter_puts c ++ [put KeyBuilder.catalog_digest digest] ++ [put KeyBuilder.catalog_initialized (encode_marker now)].

Lemma backfill_tail_beside c d now : beside (backfill_tail c d now).
Proof. intros w. unfold backfill_tail, counter_puts. cbn [app In]. intros H. repeat (destruct H as [<-|H]; [done|]). done. Qed.

Lemma matches_added s c : adds catalog_empty c -> origin s catalog_empty c -> (forall tn td, In (tn, td) (types s) -> has_type tn c) ->
  (forall tn td f, In (tn, td) (types s) -> In f (fields td) -> has_member tn f c) -> names_match s c.
Proof.
  intros [_ Rt Rf Rr _] [Ot Of Or] Ht Hm. split; intros n; rewrite live_spec; split.
  - intros [Hp _]. destruct (Ot n Hp) as [[e H]|]; done.
  - intros [td Hin]. split; [by eapply Ht|]. intros H. destruct (Rt n H) as [(e & ? & _)|[]]. done.
  - intros [Hp _]. destruct (Of n Hp) as [[e H]|]; done.
  - intros (tn & td & f & Hin & Hf & ->). split; [by eapply Hm|]. intros H. destruct (Rf _ H) as [(e & ? & _)|[]]. done.
  - intros [Hp _]. destruct (Or n Hp) as [[e H]|]; done.
  - intros (tn & td & f & Hin & Hf & Hr & ->). split; [by eapply Hm|]. intros H. destruct (Rr _ H) as [(e & ? & _)|[]]. done.
Qed.

Lemma backfill_ok m s plans now c ws : bsorted m -> no_tables m -> schema_ok s -> is_u64 now -> backfill_into_txn s now = COk (c, ws) ->
  opened s (compute_schema_digest s) plans c (apply_ops ws m).
Proof.
  intros Hm Hno Hs Hn H. unfold backfill_into_txn in H. apply cbind_ok in H as ([c1 rows] & H1 & H).
  assert (c = c1 /\ ws = [put KeyBuilder.catalog_format (encode_format_version CATALOG_FORMAT_V1)] ++ rows ++ backfill_tail c1 (compute_schema_digest s) now) as [-> ->] by (by injection H as <- <-).
  set (m0 := apply_ops [put KeyBuilder.catalog_format (encode_format_version CATALOG_FORMAT_V1)] m).
  assert (Hi0 : inv catalog_empty m0) by (apply inv_beside; [by intros w [<-|[]]|by apply empty_inv]).
  assert (Hk : keeps (fun _ => False) (fun _ => False) (fun _ => False) (each (backfill_type now) (types s)) catalog_empty).
  { apply keeps_backfill_types; [done| |apply bsorted_nodup, Hs|done]. intros tn td Hin. split_and!; [by eapply so_types|intros f Hf; by eapply so_fields|by eapply so_distinct]. }
  destruct (Hk c1 rows m0 Hi0 H1) as (Hi1 & A & T). pose proof (backfill_names s now _ _ _ H1) as [Ht Hmem].
  rewrite apply_ops_app. fold m0. rewrite apply_ops_app. set (m1 := apply_ops rows m0) in *.
  assert (Hs1 : bsorted m1) by apply Hi1. split.
  - split; [apply inv_beside; [apply backfill_tail_beside|done]|by eapply format_adds; [apply empty_format|]|].
    assert (Ef : bm_get KeyBuilder.catalog_format m1 = Some (encode_format_version (c_format_version c1))).
    { unfold m1. rewrite table_ops_beside by (done || apply Hi0). unfold m0. rewrite bm_get_apply_ops by done. destruct A as [_ _ _ _ ->]. done. }
    split; rewrite bm_get_apply_ops by done; try reflexivity; [exact Ef|by eexists].
  - apply matches_added; [done| |done|done]. eapply backfill_origin; [|exact H1]. split; by left.
  - eapply backfill_kinds; [done| |exact H1]. intros tn td f e _ _ Hg. done.
  - by rewrite bm_get_apply_ops.
Qed.

(** ** A catalog that was left half written *)

Lemma delete_get ks m k : bsorted m -> bm_get k (apply_ops (map (fun k => (k, None)) ks) m) = if existsb (beqb k) ks then None else bm_get k m.
Proof.
  revert m. induction ks as [|a ks IH]; intros m Hm; [done|]. cbn [map apply_ops fold_left existsb]. change (fold_left apply_op ?l ?x) with (apply_ops l x). rewrite IH by (by apply apply_op_sorted).
  rewrite bm_get_apply_op by done. cbn [fst snd]. destruct (beqb_spec k a) as [->|Hne]; cbn [orb].
  - rewrite decide_True by done. by destruct (existsb _ _).
  - by rewrite decide_False.
Qed.

Lemma table_not_kept k : table_key k = true -> kept_in_recovery k = false /\ starts_with k KeyBuilder.catalog_prefix_all = true.
Proof.
  unfold table_key. intros H. rewrite !orb_true_iff, !starts_with_true in H. destruct H as [[[x ->]|[x ->]]|[x ->]]; split; reflexivity.
Qed.

Lemma recover_ok m s plans now c ws : bsorted m -> schema_ok s -> is_u64 now -> recover_partial_into_txn m s now = COk (c, ws) ->
  opened s (compute_schema_digest s) plans c (apply_ops ws m).
Proof.
  intros Hm Hs Hn H. unfold recover_partial_into_txn in H. apply cbind_ok in H as ([c1 puts] & H1 & [= <- <-]). rewrite apply_ops_app. apply (backfill_ok _ _ _ now); [by apply apply_ops_sorted| |done..].
  intros k Hk. rewrite delete_get by done. destruct (bm_get k m) as [v|] eqn:Eg; [|by destruct (existsb _ _)].
  destruct (table_not_kept k Hk) as [K1 K2]. assert (existsb (beqb k) (List.filter (fun k => negb (kept_in_recovery k)) (map fst (rows_under KeyBuilder.catalog_prefix_all m))) = true) as ->; [|done].
  apply existsb_exists. exists k. split; [|by destruct (beqb_spec k k)]. apply filter_In. split; [|by rewrite K1].
  apply in_map_iff. exists (k, v). split; [done|]. unfold rows_under. apply filter_In. split; [by apply bm_get_in|done].
Qed.
End openings.

(** ** The digest tells schemas apart *)

Definition short (b : bytes) : Prop := len b < 2 ^ 32.

Lemma be32_app_inj a b x y : is_u32 a -> is_u32 b -> be32 a ++ x = be32 b ++ y -> a = b /\ x = y.
Proof.
  intros Ha Hb E. apply app_inj_1 in E as [E ->]; [|by unfold be32; rewrite !length_be]. split; [|done]. apply (f_equal from_be) in E. by rewrite !from_be32 in E.
Qed.

Lemma as_u32_fits x : 0 <= x < 2 ^ 32 -> as_u32 x = x /\ is_u32 x.
Proof. intros H. unfold as_u32, is_u32. split; [by apply Z.mod_small|lia]. Qed.

Lemma sized_inj a b x y : short a -> short b -> sized a ++ x = sized b ++ y -> a = b /\ x = y.
Proof.
  unfold short, sized. intros Ha Hb. rewrite <- !app_assoc. pose proof (len_nonneg a). pose proof (len_nonneg b).
  destruct (as_u32_fits (len a)) as [-> Ua]; [lia|]. destruct (as_u32_fits (len b)) as [-> Ub]; [lia|].
  intros [E1 E2]%be32_app_inj; [|done..]. apply app_inj_1 in E2; [done|]. unfold len in E1. lia.
Qed.

Definition counted {A} (f : A -> bytes) (l : list A) : bytes := be32 (as_u32 (Z.of_nat (List.length l))) ++ List.concat (map f l).

(** A list of items that can be told apart. *)
Lemma concat_inj {A} (f : A -> bytes) (P : A -> Prop) (R : A -> A -> Prop) : (forall a b x y, P a -> P b -> f a ++ x = f b ++ y -> R a b /\ x = y) ->
  forall l l' x y, List.length l = List.length l' -> Forall P l -> Forall P l' -> List.concat (map f l) ++ x = List.concat (map f l') ++ y -> Forall2 R l l' /\ x = y.
Proof.
  intros H. induction l as [|a l IH]; intros [|b l'] x y Hl Hp Hp'; [done|done|done|]. cbn [map List.concat]. rewrite <- !app_assoc. inversion Hp; inversion Hp'; subst.
  intros [R1 E]%H; [|done..]. apply IH in E as [R2 ->]; [|by injection Hl|done..]. split; [by constructor|done].
Qed.

Lemma counted_inj {A} (f : A -> bytes) (P : A -> Prop) (R : A -> A -> Prop) : (forall a b x y, P a -> P b -> f a ++ x = f b ++ y -> R a b /\ x = y) ->
  forall l l' x y, Z.of_nat (List.length l) < 2 ^ 32 -> Z.of_nat (List.length l') < 2 ^ 32 -> Forall P l -> Forall P l' -> counted f l ++ x = counted f l' ++ y -> Forall2 R l l' /\ x = y.
Proof.
  intros H l l' x y Hl Hl' Hp Hp'. unfold counted. rewrite <- !app_assoc. destruct (as_u32_fits (Z.of_nat (List.length l))) as [-> Ua]; [lia|].
  destruct (as_u32_fits (Z.of_nat (List.length l'))) as [-> Ub]; [lia|]. intros [E1 E2]%be32_app_inj; [|done..]. eapply concat_inj; [done| |done..]. lia.
Qed.

(** Sizes that fit the digest's length words. *)
Record field_short (f : FieldDef) : Prop := {
  fs_name : short (fd_name f);
  fs_analyzer : forall ft, fulltext f = Some ft -> short (analyzer ft);
  fs_target : forall rel, field_type f = Relation rel -> short (target_type rel);
}.

Definition type_short (e : bytes * TypeDef) : Prop := short (fst e) /\ Z.of_nat (List.length (fields (snd e))) < 2 ^ 32 /\ Forall field_short (fields (snd e)).

Definition schema_short (s : Schema) : Prop := Z.of_nat (List.length (types s)) < 2 ^ 32 /\ Forall type_short (types s).

Definition same_field (f g : FieldDef) : Prop := fd_name f = fd_name g /\ schema_kind_byte (field_type f) = schema_kind_byte (field_type g).
Definition same_type (a b : bytes * TypeDef) : Prop := fst a = fst b /\ Forall2 same_field (fields (snd a)) (fields (snd b)).

Lemma z2b_inj_byte a b : is_byte a -> is_byte b -> z2b a = z2b b -> a = b.
Proof. unfold is_byte. intros Ha Hb E. apply (f_equal b2z) in E. rewrite !b2z_z2b, !Z.mod_small in E by lia. done. Qed.

Lemma flags_byte f : is_byte (directive_flags f) /\ Z.testbit (directive_flags f) 4 = is_some_ (fulltext f).
Proof.
  unfold directive_flags, is_byte. destruct (is_indexed f), (is_unique f), (inverse f), (vectorize f), (fulltext f); cbn [is_some_]; vm_compute; split; split; done || reflexivity.
Qed.

Lemma kind_relation f : is_relation f = (schema_kind_byte (field_type f) =? KIND_RELATION).
Proof. unfold is_relation. by destruct (field_type f) as [[]| |]. Qed.

(** The part of an optional item is there on both sides or on neither. *)
Lemma optional_inj {A} (o o' : option A) (name : A -> bytes) (last : A -> byte) x y : (forall a, o = Some a -> short (name a)) -> (forall a, o' = Some a -> short (name a)) ->
  is_some_ o = is_some_ o' -> (match o with Some a => sized (name a) ++ [last a] | None => [] end) ++ x = (match o' with Some a => sized (name a) ++ [last a] | None => [] end) ++ y -> x = y.
Proof.
  intros Ho Ho' E. destruct o as [a|], o' as [b|]; [|done|done|done]. rewrite <- !app_assoc. intros [_ H]%sized_inj; [|by apply Ho|by apply Ho']. by injection H.
Qed.

Definition relation_of (f : FieldDef) : option RelationType := match field_type f with Relation rel => Some rel | _ => None end.

Lemma digest_field_inj f g x y : field_short f -> field_short g -> digest_field f ++ x = digest_field g ++ y -> same_field f g /\ x = y.
Proof.
  intros [N1 A1 T1] [N2 A2 T2]. unfold digest_field. rewrite <- !app_assoc. intros [En E]%sized_inj; [|done..]. cbn [app] in E. injection E as Ek Efl E.
  apply z2b_inj_byte in Ek; [|apply schema_kind_is_byte..]. destruct (flags_byte f) as [F1 F2], (flags_byte g) as [G1 G2]. apply z2b_inj_byte in Efl; [|done..].
  rewrite Efl, G2 in F2. split; [done|].
  apply (optional_inj (fulltext f) (fulltext g) analyzer (fun ft => z2b (bool_byte (positions ft)))) in E; [|done..].
  apply (optional_inj (relation_of f) (relation_of g) target_type (fun rel => z2b (bool_byte (is_many rel))) x y).
  - intros rel. unfold relation_of. destruct (field_type f) eqn:Et; [done| |done]. intros [= <-]. by apply T1.
  - intros rel. unfold relation_of. destruct (field_type g) eqn:Et; [done| |done]. intros [= <-]. by apply T2.
  - assert (H : forall h, is_some_ (relation_of h) = is_relation h) by (intros h; unfold relation_of, is_relation; by destruct (field_type h)). by rewrite !H, !kind_relation, Ek.
  - revert E. unfold relation_of. by destruct (field_type f), (field_type g).
Qed.

Lemma digest_type_inj a b x y : type_short a -> type_short b -> digest_type a ++ x = digest_type b ++ y -> same_type a b /\ x = y.
Proof.
  intros (N1 & L1 & F1) (N2 & L2 & F2). unfold digest_type. rewrite <- (app_assoc (sized (fst a))), <- (app_assoc (sized (fst b))). intros [En E]%sized_inj; [|done..].
  apply (counted_inj digest_field field_short same_field) in E as [E ->]; [done|intros; by apply digest_field_inj|done..].
Qed.

Lemma digest_input_inj s s' : schema_short s -> schema_short s' -> digest_input s = digest_input s' -> Forall2 same_type (types s) (types s').
Proof.
  intros [L1 F1] [L2 F2] E. apply (f_equal (fun l => l ++ [])) in E.
  apply (counted_inj digest_type type_short same_type) in E as [E _]; [done|intros; by apply digest_type_inj|done..].
Qed.

(** Schemas with the same names and kinds. *)
Lemma forall2_in {A B} (R : A -> B -> Prop) l l' a : Forall2 R l l' -> In a l -> exists b, In b l' /\ R a b.
Proof. induction 1 as [|x y l l' Hr H IH]; [done|]. intros [->|Ha]; [exists y; split; [by left|done]|]. destruct (IH Ha) as (b & ? & ?). exists b. split; [by right|done]. Qed.

Lemma same_names s s' : Forall2 same_type (types s) (types s') ->
  (forall n, schema_type s n -> schema_type s' n) /\ (forall q, schema_field s q -> schema_field s' q) /\ (forall q, schema_rel s q -> schema_rel s' q).
Proof.
  intros H. split_and!.
  - intros n [td Hin]. destruct (forall2_in _ _ _ _ H Hin) as ([n' td'] & Hin' & [E _]). cbn in E. subst n'. by exists td'.
  - intros q (tn & td & f & Hin & Hf & ->). destruct (forall2_in _ _ _ _ H Hin) as ([n' td'] & Hin' & [E Hfs]). cbn in E, Hfs. subst n'.
    destruct (forall2_in _ _ _ _ Hfs Hf) as (f' & Hf' & [-> _]). by exists tn, td', f'.
  - intros q (tn & td & f & Hin & Hf & Hr & ->). destruct (forall2_in _ _ _ _ H Hin) as ([n' td'] & Hin' & [E Hfs]). cbn in E, Hfs. subst n'.
    destruct (forall2_in _ _ _ _ Hfs Hf) as (f' & Hf' & [-> Ek]). exists tn, td', f'. rewrite kind_relation, <- Ek, <- kind_relation. done.
Qed.

Lemma same_type_sym a b : same_type a b -> same_type b a.
Proof. intros [E H]. split; [done|]. apply Forall2_flip. eapply Forall2_impl; [exact H|]. by intros f g [-> ->]. Qed.

Lemma same_schema_sym l l' : Forall2 same_type l l' -> Forall2 same_type l' l.
Proof. intros H. apply Forall2_flip. eapply Forall2_impl; [exact H|]. intros a b. apply same_type_sym. Qed.

Lemma matches_same s s' c : Forall2 same_type (types s) (types s') -> names_match s c -> names_match s' c.
Proof.
  intros H [Mt Mf Mr]. destruct (same_names s s' H) as (A1 & A2 & A3). destruct (same_names s' s (same_schema_sym _ _ H)) as (B1 & B2 & B3).
  split; intros n; [rewrite Mt|rewrite Mf|rewrite Mr]; split; auto.
Qed.

Lemma kinds_same_schema s s' plans c : Forall2 same_type (types s) (types s') -> kinds_licensed s plans c -> kinds_licensed s' plans c.
Proof.
  intros H Hk tn td f e Hin Hf Hg. destruct (forall2_in _ _ _ _ (same_schema_sym _ _ H) Hin) as ([n' td'] & Hin' & [E Hfs]). cbn in E, Hfs. subst n'.
  destruct (forall2_in _ _ _ _ Hfs Hf) as (f' & Hf' & [En Ek]). rewrite En in Hg. specialize (Hk tn td' f' e Hin' Hf' Hg). unfold kind_licensed in *. by rewrite En, Ek.
Qed.

(** ** Opening *)

Section life.
Context {L : CatalogLib}.

Definition no_catalog (m : bmap bytes) : Prop :=
  no_tables m /\ bm_get KeyBuilder.catalog_format m = None /\ bm_get KeyBuilder.catalog_initialized m = None.

(** A schema as the parser makes it: types in the order of their names, which are
    strings, and accepted by the validation. *)
Record schema_parsed (s : Schema) : Prop := {
  sp_sorted : bsorted (types s);
  sp_types : forall tn td, In (tn, td) (types s) -> utf8_valid tn = true;
  sp_fields : forall tn td f, In (tn, td) (types s) -> In f (fields td) -> utf8_valid (fd_name f) = true;
  sp_wf : schema_wf s;
}.

Lemma checked_identifier n : check_identifier n = COk tt -> existsb reserved_byte n = false.
Proof. unfold check_identifier. destruct (existsb reserved_byte n); done. Qed.

Lemma checked_fields fs : check_fields fs = COk tt -> forall f, In f fs -> existsb reserved_byte (fd_name f) = false.
Proof. induction fs as [|g fs IH]; [done|]. cbn [check_fields]. intros H. apply cbind_ok in H as ([] & H1 & H2). intros f [<-|Hf]; [by apply checked_identifier|by apply IH]. Qed.

Lemma checked_identifiers ts : check_identifiers ts = COk tt -> forall e, In e ts -> existsb reserved_byte (fst e) = false /\ forall f, In f (fields (snd e)) -> existsb reserved_byte (fd_name f) = false.
Proof.
  induction ts as [|a ts IH]; [done|]. cbn [check_identifiers]. intros H. apply cbind_ok in H as ([] & H1 & H). apply cbind_ok in H as ([] & H2 & H3).
  intros e [<-|He]; [|by apply IH]. split; [by apply checked_identifier|by apply checked_fields].
Qed.

Lemma checked_schema s : schema_parsed s -> check_identifiers (types s) = COk tt -> schema_ok s.
Proof.
  intros [Hs Ht Hf Hw] H. split; [done| | |intros tn td Hin; apply Hw; by apply (in_map snd) in Hin].
  - intros tn td Hin. split; [by apply (checked_identifiers _ H (tn, td))|by eapply Ht].
  - intros tn td f Hin Hin'. split; [by apply (checked_identifiers _ H (tn, td))|by eapply Hf].
Qed.

(** The store holds the catalog of a schema. *)
Definition holds (c : Catalog) (m : bmap bytes) : Prop :=
  exists s plans, schema_ok s /\ schema_short s /\ opened s (compute_schema_digest s) plans c m.

Lemma holds_sorted c m : holds c m -> bsorted m.
Proof. intros (s & plans & _ & _ & [[[_ Hd] _ _] _ _ _]). apply Hd. Qed.

Lemma holds_loads c m : holds c m -> load_existing m (c_format_version c) = COk c.
Proof. intros (s & plans & _ & _ & [[[Hc Hd] Hf Hh] _ _ _]). by apply load_existing_ok. Qed.

Lemma format_word v : is_u64 v -> decode_format_version (encode_format_version v) = COk v.
Proof. apply format_round_trip. Qed.

Lemma holds_format c m : holds c m -> bm_get KeyBuilder.catalog_format m = Some (encode_format_version (c_format_version c)) /\
  is_Some (bm_get KeyBuilder.catalog_initialized m) /\ decode_format_version (encode_format_version (c_format_version c)) = COk (c_format_version c) /\
  (c_format_version c <=? CATALOG_FORMAT_CURRENT) = true.
Proof.
  intros (s & plans & _ & _ & [[_ [Hv _] [_ _ _ Hf Hi]] _ _ _]). split_and!; [done|done| |apply Z.leb_le; lia].
  apply format_word. unfold is_u64, CATALOG_FORMAT_CURRENT in *. lia.
Qed.

(** SHA-256 tells apart the digests of schemas. *)
Definition collision_free : Prop := forall s s' : Schema, sha256 (digest_input s) = sha256 (digest_input s') -> digest_input s = digest_input s'.

Definition commit (ws : option (list op)) (m : bmap bytes) : bmap bytes := match ws with Some ws => apply_ops ws m | None => m end.

Lemma attempt_unchanged m s allow now c ws : holds c m -> load_or_initialize_attempt m s allow now = COk (ws, None) -> ws = c.
Proof.
  intros Hc H. unfold load_or_initialize_attempt in H. destruct (holds_format c m Hc) as (Ef & [iv Ei] & Ed & Ev). rewrite Ef, Ei, Ed in H. cbn [mbind cres_bind] in H.
  rewrite Ev in H. cbn [cguard mbind cres_bind] in H. rewrite (holds_loads c m Hc) in H. cbn [mbind cres_bind] in H. apply cbind_ok in H as (st & _ & H).
  destruct (beqb st _); [by injection H|]. by apply cbind_ok in H as ([c1 w1] & _ & H).
Qed.

(** An attempt on a store that holds a catalog. *)
Lemma attempt_holds m s allow now c c' ws : collision_free -> holds c m -> schema_ok s -> schema_short s -> is_u64 now ->
  load_or_initialize_attempt m s allow now = COk (c', ws) ->
  extends c c' /\ (allow = false -> nothing_retired c c') /\ exists plans, opened s (compute_schema_digest s) plans c' (commit ws m) /\ (is_Some ws -> scan_migration_plans m = COk plans).
Proof.
  intros Hcf Hc Hs Hsh Hn H. pose proof H as H0. unfold load_or_initialize_attempt in H. destruct (holds_format c m Hc) as (Ef & [iv Ei] & Ed & Ev). rewrite Ef, Ei, Ed in H.
  cbn [mbind cres_bind] in H. rewrite Ev in H. cbn [cguard mbind cres_bind] in H. rewrite (holds_loads c m Hc) in H. cbn [mbind cres_bind] in H.
  destruct Hc as (s0 & plans & Hs0 & Hsh0 & Ho). pose proof Ho as [Hst Hm Hk Hd]. rewrite Hd in H. cbn [require mbind cres_bind] in H.
  destruct (beqb_spec (compute_schema_digest s0) (compute_schema_digest s)) as [E|Hne].
  - injection H as <- <-. split; [done|]. split; [done|]. exists plans. apply Hcf in E. pose proof E as E'. apply digest_input_inj in E; [|done..]. cbn [commit].
    split; [|by intros [? ?]]. split; [done|by eapply matches_same|by eapply kinds_same_schema|]. unfold compute_schema_digest in *. by rewrite <- E'.
  - apply cbind_ok in H as ([c1 w1] & H1 & [= <- <-]). apply reconcile_ok in H1 as (E & Ha & pl & Hpl & Hop); [|done|by apply (matches_parents s0)|done..].
    split; [done|]. split; [done|]. by exists pl.
Qed.

(** An attempt on a store without a catalog. *)
Lemma attempt_first m s allow now c' ws : bsorted m -> no_catalog m -> schema_ok s -> is_u64 now ->
  load_or_initialize_attempt m s allow now = COk (c', ws) -> opened s (compute_schema_digest s) [] c' (commit ws m).
Proof.
  intros Hm (Hno & Ef & Ei) Hs Hn H. unfold load_or_initialize_attempt in H. rewrite Ef, Ei in H. apply cbind_ok in H as ([c1 w1] & H1 & [= <- <-]).
  by eapply backfill_ok.
Qed.

(** The attempt behind a result. *)
Lemma attempts_made budget : forall i snapshot conflict s allow clock c j ws, attempts budget i snapshot conflict s allow clock = COk (c, (j, ws)) ->
  load_or_initialize_attempt (snapshot j) s allow (clock j) = COk (c, ws).
Proof.
  induction budget as [|budget IH]; intros i snapshot conflict s allow clock c j ws; [done|]. cbn [attempts]. intros H. apply cbind_ok in H as ([c1 w1] & H1 & H).
  destruct w1 as [w1|]; [destruct (conflict i); [by eapply IH|]|]; by injection H as <- <- <-.
Qed.

(** ** Databases over time *)

(** A store, and the catalog its last opening returned. *)
Record world := { w_store : bmap bytes; w_catalog : option Catalog }.

(** The rows an opening reads. *)
Definition catalog_row (k : bytes) : bool :=
  table_key k || existsb (beqb k) [KeyBuilder.catalog_format; KeyBuilder.catalog_initialized; KeyBuilder.catalog_digest;
    KeyBuilder.catalog_next_type; KeyBuilder.catalog_next_field; KeyBuilder.catalog_next_rel].

(** Openings, whose attempt that commits sees the store as it is, and any other
    writes, rows of migration plans included. *)
Inductive life_step : world -> world -> Prop :=
| life_open m last snapshot conflict s allow clock c i ws : schema_parsed s -> schema_short s -> (forall i, is_u64 (clock i)) ->
    load_or_initialize snapshot conflict s allow clock = COk (c, (i, ws)) -> snapshot i = m ->
    life_step {| w_store := m; w_catalog := last |} {| w_store := commit ws m; w_catalog := Some c |}
| life_write m last ws : (forall w, In w ws -> catalog_row (fst w) = false) ->
    life_step {| w_store := m; w_catalog := last |} {| w_store := apply_ops ws m; w_catalog := last |}.

Definition world_ok (w : world) : Prop :=
  bsorted (w_store w) /\ match w_catalog w with None => no_catalog (w_store w) | Some c => holds c (w_store w) end.

Definition world_extends (w w' : world) : Prop :=
  match w_catalog w with None => True | Some c => exists c', w_catalog w' = Some c' /\ extends c c' end.

#[global] Instance world_extends_preorder : PreOrder world_extends.
Proof.
  split.
  - intros w. unfold world_extends. destruct (w_catalog w) as [c|]; [|done]. by exists c.
  - intros a b d. unfold world_extends. destruct (w_catalog a) as [c|]; [|done]. intros (c1 & -> & E1) (c2 & -> & E2). exists c2. split; [done|by etrans].
Qed.

Lemma catalog_row_false k : catalog_row k = false -> table_key k = false /\ ~ In k [KeyBuilder.catalog_format; KeyBuilder.catalog_initialized; KeyBuilder.catalog_digest;
    KeyBuilder.catalog_next_type; KeyBuilder.catalog_next_field; KeyBuilder.catalog_next_rel].
Proof.
  unfold catalog_row. intros [H1 H2]%orb_false_iff. split; [done|]. intros Hin. apply not_true_iff_false in H2. apply H2, existsb_exists. exists k. split; [done|by destruct (beqb_spec k k)].
Qed.

(** Other writes leave the catalog alone. *)
Lemma write_kept ws m k : bsorted m -> (forall w, In w ws -> catalog_row (fst w) = false) -> catalog_row k = true -> bm_get k (apply_ops ws m) = bm_get k m.
Proof. intros Hs Hw Hk. apply unwritten; [done|]. intros w Hin E. apply Hw in Hin. congruence. Qed.

Lemma opened_kept s d plans ws m c : (forall w, In w ws -> catalog_row (fst w) = false) -> opened s d plans c m -> opened s d plans c (apply_ops ws m).
Proof.
  intros Hw [[Hi Hf [H1 H2 H3 H4 H5]] Hm Hk Hd]. assert (Hs : bsorted m) by apply Hi. split; [split|done|done|by rewrite write_kept].
  - apply inv_beside; [|done]. intros w Hin. by apply catalog_row_false, Hw.
  - done.
  - split; by rewrite write_kept.
Qed.

Lemma no_catalog_kept ws m : bsorted m -> (forall w, In w ws -> catalog_row (fst w) = false) -> no_catalog m -> no_catalog (apply_ops ws m).
Proof.
  intros Hs Hw (H1 & H2 & H3). split_and!; [|by rewrite write_kept..]. intros k Hk. rewrite write_kept; [by apply H1|done..|]. unfold catalog_row. by rewrite Hk.
Qed.

Lemma open_step m last snapshot conflict s allow clock c i ws : collision_free -> world_ok {| w_store := m; w_catalog := last |} -> schema_parsed s -> schema_short s ->
  (forall i, is_u64 (clock i)) -> load_or_initialize snapshot conflict s allow clock = COk (c, (i, ws)) -> snapshot i = m ->
  schema_ok s /\ (exists plans, opened s (compute_schema_digest s) plans c (commit ws m) /\
    match last with None => plans = [] | Some _ => is_Some ws -> scan_migration_plans m = COk plans end) /\
  match last with None => True | Some c0 => extends c0 c /\ (allow = false -> nothing_retired c0 c) end.
Proof.
  intros Hcf [Hm Hw] Hp Hsh Hn H <-. unfold load_or_initialize in H. apply cbind_ok in H as ([] & Hid & H). apply attempts_made in H. pose proof (checked_schema s Hp Hid) as Hs.
  split; [done|]. cbn [w_store w_catalog] in *. destruct last as [c0|].
  - destruct (attempt_holds _ _ _ _ _ _ _ Hcf Hw Hs Hsh (Hn i) H) as (E & Ha & Ho). done.
  - split; [|done]. exists []. split; [by eapply attempt_first|done].
Qed.

Lemma life_step_ok w w' : collision_free -> world_ok w -> life_step w w' -> world_ok w' /\ world_extends w w'.
Proof.
  intros Hcf Hw Hst. destruct Hst as [m last snapshot conflict s allow clock c i ws Hp Hsh Hn H Hi|m last ws Hws].
  - destruct (open_step m last snapshot conflict s allow clock c i ws Hcf Hw Hp Hsh Hn H Hi) as (Hs & (plans & Ho & _) & He).
    assert (Hh : holds c (commit ws m)) by (by exists s, plans). split; [split; [by apply (holds_sorted c)|done]|].
    unfold world_extends. cbn [w_catalog]. destruct last as [c0|]; [|done]. exists c. by destruct He.
  - destruct Hw as [Hm Hw]. cbn [w_store w_catalog] in *. split; [split; [by apply apply_ops_sorted|]|by unfold world_extends; destruct last as [c|]; [exists c|]].
    cbn [w_store w_catalog]. destruct last as [c|]; [|by apply no_catalog_kept]. destruct Hw as (s & plans & Hs & Hsh & Ho). exists s, plans. split_and!; [done..|by apply opened_kept].
Qed.

Lemma life_ok w w' : collision_free -> world_ok w -> rtc life_step w w' -> world_ok w' /\ world_extends w w'.
Proof.
  intros Hcf Hw H. induction H as [w|w w1 w2 H1 _ IH]; [done|]. destruct (life_step_ok w w1 Hcf Hw H1) as [Hw1 E1]. destruct (IH Hw1) as [Hw2 E2]. split; [done|by etrans].
Qed.

Lemma first_world m : bsorted m -> no_catalog m -> world_ok {| w_store := m; w_catalog := None |}.
Proof. by split. Qed.

(** ** Ids *)

(** Ids of a table stay with their names, and retired ones stay retired. *)
Definition stable_table (t t' : Table) : Prop := forall n i, bm_get n (tb_ids t) = Some i ->
  bm_get n (tb_ids t') = Some i /\ (forall n', bm_get n' (tb_ids t') = Some i -> n' = n) /\
  (n ∈ tb_tombstoned_names t -> n ∈ tb_tombstoned_names t') /\ (i ∈ tb_tombstoned_ids t -> i ∈ tb_tombstoned_ids t').

Lemma stable_entries N es next es' next' : bsorted es -> entries_ok N es' next' -> grows es es' ->
  stable_table (table_of es next) (table_of es' next').
Proof.
  intros Hs He' Hg n i. cbn [table_of tb_ids tb_tombstoned_names tb_tombstoned_ids]. rewrite !bm_fmap_get. destruct (bm_get n es) as [e|] eqn:Eg; [|done]. intros [= <-].
  destruct (Hg n e Eg) as (e' & Eg' & Ei & _ & Er). assert (Hs' : bsorted es') by apply He'. rewrite Eg'. cbn [fmap option_fmap option_map]. rewrite Ei. split_and!.
  - done.
  - intros n'. rewrite bm_fmap_get. destruct (bm_get n' es') as [e2|] eqn:Eg2; [|done]. intros [= E]. eapply He'; [exact Eg2|exact Eg'|congruence].
  - rewrite !in_tombstoned_names. intros (e0 & Hin & Hr). apply bm_get_in in Hin; [|done]. destruct (Hg n e0 Hin) as (e1 & G1 & _ & _ & R1). exists e1. split; [by apply bm_get_in|auto].
  - rewrite !in_tombstoned_ids. intros (n0 & e0 & Hin & Hr & E0). apply bm_get_in in Hin; [|done]. destruct (Hg n0 e0 Hin) as (e1 & G1 & I1 & _ & R1).
    exists n0, e1. split_and!; [by apply bm_get_in|auto|congruence].
Qed.

Lemma extends_stable c c' : cat_ok c -> cat_ok c' -> extends c c' ->
  stable_table (c_types c) (c_types c') /\ stable_table (c_fields c) (c_fields c') /\ stable_table (c_rels c) (c_rels c').
Proof.
  intros Hc Hc' (E1 & E2 & E3). rewrite (types_shape c Hc), (types_shape c' Hc'), (proj1 (fields_shape c Hc)), (proj1 (fields_shape c' Hc')), (rels_shape c Hc), (rels_shape c' Hc').
  split_and!; eapply stable_entries; try done; apply Hc || apply Hc'.
Qed.

(** C11: The contract of the catalog.  From a store without one, over any sequence of
    openings, with any schemas, shrinking or not, between which anything but the
    rows of the catalog is written: a type, field or relation that an opening gave
    an id has that id in every later one, no other name ever has it, and a name or
    id that was retired stays retired. *)
Theorem catalog_ids_stable m0 m1 c1 m2 c2 : collision_free -> bsorted m0 -> no_catalog m0 ->
  rtc life_step {| w_store := m0; w_catalog := None |} {| w_store := m1; w_catalog := Some c1 |} ->
  rtc life_step {| w_store := m1; w_catalog := Some c1 |} {| w_store := m2; w_catalog := Some c2 |} ->
  stable_table (c_types c1) (c_types c2) /\ stable_table (c_fields c1) (c_fields c2) /\ stable_table (c_rels c1) (c_rels c2).
Proof.
  intros Hcf Hm Hno H1 H2. destruct (life_ok _ _ Hcf (first_world m0 Hm Hno) H1) as [W1 _]. destruct (life_ok _ _ Hcf W1 H2) as [[_ W2] (c' & [= <-] & E)].
  destruct W1 as [_ W1]. apply extends_stable; [| |done]; [destruct W1 as (s & pl & _ & _ & [[[? _] _ _] _ _ _])|destruct W2 as (s & pl & _ & _ & [[[? _] _ _] _ _ _])]; done.
Qed.


(** ** Reopening *)

Lemma reopened s plans c m : opened s (compute_schema_digest s) plans c m -> schema_ok s -> schema_short s -> forall allow now,
  load_or_initialize_attempt m s allow now = COk (c, None).
Proof.
  intros Ho Hs Hsh allow now. assert (Hh : holds c m) by (by exists s, plans). unfold load_or_initialize_attempt. destruct (holds_format c m Hh) as (Ef & [iv Ei] & Ed & Ev).
  rewrite Ef, Ei, Ed. cbn [mbind cres_bind]. rewrite Ev. cbn [cguard mbind cres_bind]. rewrite (holds_loads c m Hh). cbn [mbind cres_bind].
  rewrite (op_digest _ _ _ _ _ Ho). cbn [require mbind cres_bind]. by destruct (beqb_spec (compute_schema_digest s) (compute_schema_digest s)).
Qed.

Lemma attempts_at_once budget i snapshot conflict s allow clock c : load_or_initialize_attempt (snapshot i) s allow (clock i) = COk (c, None) ->
  attempts (S budget) i snapshot conflict s allow clock = COk (c, (i, None)).
Proof. intros H. cbn [attempts]. by rewrite H. Qed.

(** C13: What an opening returned is what the store holds: whatever was written since
    beside the catalog, opening it again with the same schema finds the same
    catalog, every entry, counter and retirement of it, at the first attempt and
    without a write. *)
Theorem catalog_reopens m0 m last snapshot conflict s allow clock c i ws ws' snapshot' conflict' allow' clock' : collision_free -> bsorted m0 -> no_catalog m0 ->
  rtc life_step {| w_store := m0; w_catalog := None |} {| w_store := m; w_catalog := last |} -> schema_parsed s -> schema_short s -> (forall i, is_u64 (clock i)) ->
  load_or_initialize snapshot conflict s allow clock = COk (c, (i, ws)) -> snapshot i = m ->
  (forall w, In w ws' -> catalog_row (fst w) = false) -> snapshot' 0%nat = apply_ops ws' (commit ws m) ->
  load_or_initialize snapshot' conflict' s allow' clock' = COk (c, (0%nat, None)).
Proof.
  intros Hcf Hm Hno H1 Hp Hsh Hn H Hi Hw Hs'. destruct (life_ok _ _ Hcf (first_world m0 Hm Hno) H1) as [W1 _].
  destruct (open_step m last snapshot conflict s allow clock c i ws Hcf W1 Hp Hsh Hn H Hi) as (Hs & (plans & Ho & _) & _).
  unfold load_or_initialize in *. apply cbind_ok in H as ([] & Hid & _). rewrite Hid. cbn [mbind cres_bind].
  apply attempts_at_once. rewrite Hs'. apply (reopened s plans c); [by apply opened_kept|done..].
Qed.
End life.

(** ** The first opening succeeds *)

(** Steps that need so many free ids. *)
Definition room (c : Catalog) (k : Z) : Prop :=
  tb_next (c_types c) + k <= u64_max /\ tb_next (c_fields c) + k <= u64_max /\ tb_next (c_rels c) + k <= u64_max.

Definition allocates (k : Z) (f : Catalog -> cres (Catalog * list op)) : Prop :=
  0 <= k /\ forall c j, 0 <= j -> room c (k + j) -> exists c' ws, f c = COk (c', ws) /\ room c' j.

Lemma allocates_seq a b f g : allocates a f -> allocates b g -> allocates (a + b) (seq_ f g).
Proof.
  intros [Ha Hf] [Hb Hg]. split; [lia|]. intros c j Hj Hr. destruct (Hf c (b + j)) as (c1 & w1 & E1 & R1); [lia|by rewrite Z.add_assoc|].
  destruct (Hg c1 j Hj R1) as (c2 & w2 & E2 & R2). exists c2, (w1 ++ w2). unfold seq_. rewrite E1. cbn [mbind cres_bind]. by rewrite E2.
Qed.

Lemma allocates_each {A} (w : A -> Z) (f : A -> Catalog -> cres (Catalog * list op)) l : (forall a, In a l -> allocates (w a) (f a)) ->
  allocates (fold_right Z.add 0 (map w l)) (each f l).
Proof.
  induction l as [|a l IH]; intros H; [split; [done|]; intros c j _ Hr; by exists c, []|]. cbn [map fold_right each].
  apply allocates_seq; [apply H; by left|apply IH; intros b Hb; apply H; by right].
Qed.

Lemma checked_bump_room kind cur : cur < u64_max -> checked_bump kind cur = COk (cur + 1).
Proof. intros H. unfold checked_bump. destruct (Z.eqb_spec cur u64_max); [lia|done]. Qed.

Lemma allocates_type entry now n : allocates 1 (allocate_type entry now n).
Proof.
  split; [lia|]. intros c j Hj (R1 & R2 & R3). unfold allocate_type. rewrite checked_bump_room by lia. eexists _, _. split; [done|]. unfold room. cbn. lia.
Qed.

Lemma allocates_field entry now n f : allocates 1 (allocate_field entry now n f).
Proof.
  split; [lia|]. intros c j Hj (R1 & R2 & R3). unfold allocate_field. rewrite checked_bump_room by lia. eexists _, _. split; [done|]. unfold room. cbn. lia.
Qed.

Lemma allocates_rel entry now n f : allocates 1 (allocate_rel entry now n f).
Proof.
  split; [lia|]. intros c j Hj (R1 & R2 & R3). unfold allocate_rel. rewrite checked_bump_room by lia. eexists _, _. split; [done|]. unfold room. cbn. lia.
Qed.

Lemma allocates_when k b f : allocates k f -> allocates k (when_ b f).
Proof. intros [Hk H]. split; [done|]. intros c j Hj Hr. unfold when_. destruct b; [by apply H|]. exists c, []. split; [done|]. unfold room in *. lia. Qed.

(** The ids a schema needs at most. *)
Definition ids_needed (s : Schema) : Z := fold_right Z.add 0 (map (fun e => 1 + fold_right Z.add 0 (map (fun _ => 2) (fields (snd e)))) (types s)).

Lemma backfill_allocates now s : allocates (ids_needed s) (each (backfill_type now) (types s)).
Proof.
  apply allocates_each. intros e _. apply allocates_seq; [apply allocates_type|]. apply allocates_each. intros f _.
  apply (allocates_seq 1 1); [apply allocates_field|apply allocates_when, allocates_rel].
Qed.

(** Opening a store without a catalog, with names that are allowed and nobody else
    opening it, succeeds at the first attempt and makes a catalog. *)
Theorem first_open_succeeds {L : CatalogLib} snapshot conflict s allow clock : no_catalog (snapshot 0%nat) -> check_identifiers (types s) = COk tt -> ids_needed s < u64_max ->
  conflict 0%nat = false -> exists c ws, load_or_initialize snapshot conflict s allow clock = COk (c, (0%nat, Some ws)).
Proof.
  intros (_ & Ef & Ei) Hid Hr Hc. destruct (backfill_allocates (clock 0%nat) s) as [Hk H]. destruct (H catalog_empty 0) as (c & ws & E & _); [lia|unfold room; cbn; lia|].
  unfold load_or_initialize. rewrite Hid. cbn [mbind cres_bind]. unfold COMMIT_RETRY_BUDGET. remember 7%nat as budget. cbn [attempts]. unfold load_or_initialize_attempt at 1. rewrite Ef, Ei.
  unfold backfill_into_txn. rewrite E. cbn [mbind cres_bind]. rewrite Hc. by eexists _, _.
Qed.

(** ** Witnesses

    A store that is opened with a schema of two types, and again with one that adds
    a type and a relation and drops a field. *)

Lemma parsed_checked {C : CharClass} src s : utf8_valid src = true -> parse_schema src = SOk s ->
  forallb (fun e => utf8_valid (fst e) && forallb (fun f => utf8_valid (fd_name f)) (fields (snd e))) (types s) = true -> schema_parsed s.
Proof.
  intros Hv Hp H. destruct (parse_accepts src s Hv Hp) as [[Hs _] Hw]. rewrite forallb_forall in H. split; [done| | |done].
  - intros tn td Hin. by apply H, andb_true_iff in Hin as [Hin _].
  - intros tn td f Hin Hf. apply H, andb_true_iff in Hin as [_ Hin]. rewrite forallb_forall in Hin. by apply Hin.
Qed.

Definition shortb (b : bytes) : bool := len b <? 2 ^ 32.

Definition field_shortb (f : FieldDef) : bool :=
  shortb (fd_name f) && match fulltext f with Some ft => shortb (analyzer ft) | None => true end && match field_type f with Relation rel => shortb (target_type rel) | _ => true end.

Definition schema_shortb (s : Schema) : bool :=
  (Z.of_nat (List.length (types s)) <? 2 ^ 32) &&
  forallb (fun e => shortb (fst e) && (Z.of_nat (List.length (fields (snd e))) <? 2 ^ 32) && forallb field_shortb (fields (snd e))) (types s).

Lemma short_checked s : schema_shortb s = true -> schema_short s.
Proof.
  assert (Hs : forall b, shortb b = true -> short b) by (intros b H; by apply Z.ltb_lt in H).
  unfold schema_shortb. intros [H1 H2]%andb_true_iff. split; [by apply Z.ltb_lt|]. apply List.Forall_forall. intros e He. rewrite forallb_forall in H2. apply H2 in He.
  apply andb_true_iff in He as [[E1 E2]%andb_true_iff E3]. split_and!; [by apply Hs|by apply Z.ltb_lt|]. apply List.Forall_forall. intros f Hf. rewrite forallb_forall in E3. apply E3 in Hf.
  apply andb_true_iff in Hf as [[F1 F2]%andb_true_iff F3]. split; [by apply Hs| |].
  - intros ft E. rewrite E in F2. by apply Hs.
  - intros rel E. rewrite E in F3. by apply Hs.
Qed.

Definition demo_hash : CatalogLib := {| sha256 b := b |}.
#[export] Existing Instance demo_hash.

Lemma demo_collision_free : collision_free.
Proof. by intros s s'. Qed.

Definition sdl_first : bytes := bs "type Post { title: String @indexed author: User }
type User { email: String @unique }".
Definition sdl_second : bytes := bs "type Post { author: User tags: [Tag] }
type Tag { name: String }
type User { email: String @unique }".

Definition schema_of (src : bytes) : Schema := match parse_schema (C := ascii_only) src with SOk s => s | _ => {| types := [] |} end.
Definition schema_first : Schema := Eval vm_compute in schema_of sdl_first.
Definition schema_second : Schema := Eval vm_compute in schema_of sdl_second.

Lemma schema_first_parsed : schema_parsed schema_first.
Proof. by apply (parsed_checked (C := ascii_only) sdl_first); vm_compute. Qed.

Lemma schema_second_parsed : schema_parsed schema_second.
Proof. by apply (parsed_checked (C := ascii_only) sdl_second); vm_compute. Qed.

Lemma demo_shorts : schema_short schema_first /\ schema_short schema_second.
Proof. split; apply short_checked; by vm_compute. Qed.

(** The catalog and the writes of an opening at a store. *)
Definition opening (m : bmap bytes) (s : Schema) (allow : bool) (now : Z) : Catalog * option (list op) :=
  match load_or_initialize (fun _ => m) (fun _ => false) s allow (fun _ => now) with COk (c, (_, ws)) => (c, ws) | CErr _ => (catalog_empty, None) end.

Definition first_catalog : Catalog := fst (opening [] schema_first false 5).
Definition first_writes : option (list op) := snd (opening [] schema_first false 5).
Definition first_store : bmap bytes := commit first_writes [].
Definition second_catalog : Catalog := fst (opening first_store schema_second true 6).
Definition second_writes : option (list op) := snd (opening first_store schema_second true 6).
Definition second_store : bmap bytes := commit second_writes first_store.

Lemma demo_no_catalog : bsorted ([] : bmap bytes) /\ no_catalog [].
Proof. split; [apply bsorted_nil|]. by split_and!. Qed.

Lemma first_opening : load_or_initialize (fun _ => []) (fun _ => false) schema_first false (fun _ => 5) = COk (first_catalog, (0%nat, first_writes)).
Proof. by vm_compute. Qed.

Lemma second_opening : load_or_initialize (fun _ => first_store) (fun _ => false) schema_second true (fun _ => 6) = COk (second_catalog, (0%nat, second_writes)).
Proof. by vm_compute. Qed.

Lemma first_life : rtc life_step {| w_store := []; w_catalog := None |} {| w_store := first_store; w_catalog := Some first_catalog |}.
Proof.
  apply rtc_once. eapply (life_open [] None (fun _ => []) (fun _ => false) schema_first false (fun _ => 5)); [apply schema_first_parsed|apply demo_shorts|done|apply first_opening|done].
Qed.

Lemma second_life : rtc life_step {| w_store := first_store; w_catalog := Some first_catalog |} {| w_store := second_store; w_catalog := Some second_catalog |}.
Proof.
  apply rtc_once. eapply (life_open first_store (Some first_catalog) (fun _ => first_store) (fun _ => false) schema_second true (fun _ => 6));
    [apply schema_second_parsed|apply demo_shorts|done|apply second_opening|done].
Qed.

Lemma catalog_ids_stable_witness : tb_ids (c_fields first_catalog) = [(bs "Post.author", 2); (bs "Post.title", 1); (bs "User.email", 3)] /\
  tb_ids (c_fields second_catalog) = [(bs "Post.author", 2); (bs "Post.tags", 4); (bs "Post.title", 1); (bs "Tag.name", 5); (bs "User.email", 3)] /\
  stable_table (c_fields first_catalog) (c_fields second_catalog).
Proof.
  split_and!; [by vm_compute|by vm_compute|].
  apply (catalog_ids_stable [] first_store first_catalog second_store second_catalog demo_collision_free (proj1 demo_no_catalog) (proj2 demo_no_catalog) first_life second_life).
Defined.

Lemma demo_clock : nat -> is_u64 6.
Proof. done. Qed.


Lemma nothing_written : second_store = apply_ops [] (commit second_writes first_store).
Proof. unfold second_store, apply_ops. cbn [fold_left]. reflexivity. Qed.

Lemma catalog_reopens_witness : load_or_initialize (fun _ => second_store) (fun _ => true) schema_second false (fun _ => 7) = COk (second_catalog, (0%nat, None)).
Proof.
  apply (catalog_reopens [] first_store (Some first_catalog) (fun _ => first_store) (fun _ => false) schema_second true (fun _ => 6) second_catalog 0%nat second_writes [] (fun _ => second_store)
    (fun _ => true) false (fun _ => 7) demo_collision_free (proj1 demo_no_catalog) (proj2 demo_no_catalog) first_life schema_second_parsed (proj2 demo_shorts) demo_clock second_opening eq_refl (fun w H => match H with end) nothing_written).
Defined.

(** ** Cases *)

Definition sdl_retargeted : bytes := bs "type Post { title: String @indexed author: Tag }
type Tag { name: String }
type User { email: String @unique }".

(** A relation that now leads to another type is accepted, with the id it had: the
    edges of the store lead to objects of the old type. *)
Example retargeted_relation_accepted :
  bm_get (bs "Post.author") (tb_ids (c_rels (fst (opening first_store (schema_of sdl_retargeted) false 6)))) = Some 1 /\
  bm_get (bs "Post.author") (tb_ids (c_rels first_catalog)) = Some 1 /\
  is_Some (snd (opening first_store (schema_of sdl_retargeted) false 6)).
Proof. split_and!; vm_compute; [reflexivity..|]. by eexists. Qed.

(** A catalog that is found half written is made again, without the record of the
    migrations that were applied; a record of a migration under way is kept. *)
Definition torn_store : bmap bytes := apply_ops
  [put KeyBuilder.catalog_format (encode_format_version CATALOG_FORMAT_V1); put (KeyBuilder.catalog_migration_log 1) [x00];
   put KeyBuilder.catalog_migration_version (be64 1); put (KeyBuilder.catalog_migration_plan 1) [x00]] [].

Example recovery_forgets_migrations :
  let m := commit (snd (opening torn_store schema_first false 5)) torn_store in
  bm_get (KeyBuilder.catalog_migration_log 1) m = None /\ bm_get KeyBuilder.catalog_migration_version m = None /\
  bm_get (KeyBuilder.catalog_migration_plan 1) m = Some [x00] /\ is_Some (bm_get KeyBuilder.catalog_initialized m).
Proof. cbn zeta. split_and!; vm_compute; [reflexivity..|]. by eexists. Qed.
