(* ===== verification/DatabaseOpen.v ===== *)
(** * Opening a database (crates/rhypedb-engine/src/database.rs)

    [rebuild_with_arc_storage] on a fresh start: the ids come from the catalog, the
    tables that operations use are computed from the schema and the ids, the counter
    of objects and the versions from the rows.  The full-text plan is an argument.
    With the catalog's theorems the result satisfies the invariant that the
    theorems on the engine's operations assume. *)

From Stdlib Require Import ZArith Lia Bool List Strings.Byte Strings.String.
From stdpp Require Import base tactics option list gmap.
From S2P Require Import Prelude ByteMap Keys Utf8 Values Schema SchemaParser SchemaSpec IndexKeys Store Fulltext Engine EngineEdges EngineInv CatalogCodec Catalog CatalogInv CatalogOpen CatalogLife.

Local Open Scope Z_scope.

(** ** Retired fields *)

(** [qual.find('.')]: the names before and behind the first dot. *)
Fixpoint find_dot (qual : bytes) : option (bytes * bytes) :=
  match qual with
  | [] => None
  | b :: rest => if b2z b =? 46 then Some ([], rest) else '(t, f) ← find_dot rest; Some (b :: t, f)
  end.

Definition retire_name (acc : bmap (list bytes)) (qual : bytes) : bmap (list bytes) :=
  match find_dot qual with
  | Some (t, f) => bm_insert t (f :: default [] (bm_get t acc)) acc
  | None => acc
  end.

(** The retired fields by type, each once. *)
Definition retired_names (quals : list bytes) : bmap (list bytes) := fold_left retire_name quals [].

(** ** Counters *)

Definition last8 (key : bytes) : bytes := drop (List.length key - 8) key.

(** The ids of the objects of one type. *)
Definition object_ids_of (m : bmap bytes) (type_id : Z) : list Z :=
  map (fun e => from_be (last8 (fst e))) (List.filter (fun e => 8 <=? len (fst e)) (rows_under (KeyBuilder.object_prefix type_id) m)).

(** The objects of all types, with their types. *)
Definition scanned_objects (m : bmap bytes) (tids : bmap Z) : list (Z * Z) :=
  List.concat (map (fun e => map (pair (snd e)) (object_ids_of m (snd e))) tids).

Definition max_object_id (m : bmap bytes) (tids : bmap Z) : Z := fold_left Z.max (map snd (scanned_objects m tids)) 0.

(** Every object is born with generation 1. *)
Definition seed_versions (m : bmap bytes) (tids : bmap Z) : gmap (Z * Z) Z := fold_left (fun acc o => <[o := 1]> acc) (scanned_objects m tids) ∅.

Definition version_row (acc : gmap (Z * Z) Z) (e : bytes * bytes) : gmap (Z * Z) Z :=
  let '(key, value) := e in
  if (len key <? 19) || negb (len value =? 8) then acc
  else <[(from_be (take 8 (drop 2 key)), from_be (take 8 (drop 11 key))) := from_be value]> acc.

Definition version_counters (m : bmap bytes) (tids : bmap Z) : gmap (Z * Z) Z :=
  fold_left version_row (rows_under KeyBuilder.object_version_prefix m) (seed_versions m tids).

(** ** The database *)

(** The handle, with the counter of objects and the versions. *)
Record Opened := {
  o_db : Database;
  o_next_object_id : Z;
  o_versions : gmap (Z * Z) Z;
}.

Definition rebuild_database (m : bmap bytes) (sch : Schema) (cat : Catalog) (fulltext_plan : bmap (list FulltextField)) : eres Opened :=
  let tids := tb_ids (c_types cat) in
  let rids := tb_ids (c_rels cat) in
  let fids := tb_ids (c_fields cat) in
  let quals := elements (tb_tombstoned_names (c_fields cat)) in
  incoming ← build_incoming tids rids (types sch);
  cascade ← build_cascade_meta tids rids (types sch);
  indexed ← build_indexed fids (types sch);
  EOk {| o_db := {| schema := sch; type_ids := tids; rel_ids := rids; field_ids := fids;
                    tombstoned_type_ids := elements (tb_tombstoned_ids (c_types cat)); tombstoned_rel_ids := elements (tb_tombstoned_ids (c_rels cat));
                    tombstoned_field_quals := quals; retired_field_names_by_type := retired_names quals;
                    incoming_relations := incoming; cascade_meta_by_id := cascade; indexed_fields := indexed; fulltext_fields := fulltext_plan |};
         o_next_object_id := as_u64 (max_object_id m tids + 1);
         o_versions := version_counters m tids |}.

(** ** The tables can be built *)

(** The ids cover the schema. *)
Record ids_cover (s : Schema) (tids rids fids : bmap Z) : Prop := {
  ic_types : forall tn td, In (tn, td) (types s) -> is_Some (bm_get tn tids);
  ic_fields : forall tn td f, In (tn, td) (types s) -> In f (fields td) -> is_Some (bm_get (qualified tn (fd_name f)) fids);
  ic_rels : forall tn td f, In (tn, td) (types s) -> In f (fields td) -> is_relation f = true -> is_Some (bm_get (qualified tn (fd_name f)) rids);
  ic_targets : forall tn td f rel, In (tn, td) (types s) -> In f (fields td) -> field_type f = Relation rel -> is_Some (bm_get (target_type rel) tids);
}.

Lemma relation_field f rel : field_type f = Relation rel -> is_relation f = true.
Proof. unfold is_relation. by intros ->. Qed.

Section build.
Variables (tids rids fids : bmap Z) (tn : bytes).

Lemma incoming_built tid fs : (forall f rel, In f fs -> field_type f = Relation rel -> is_Some (bm_get (qualified tn (fd_name f)) rids) /\ is_Some (bm_get (target_type rel) tids)) ->
  exists l, incoming_of_fields tids rids tn tid fs = EOk l.
Proof.
  induction fs as [|f fs IH]; intros H; [by exists []|]. destruct IH as [l E]; [intros g rel Hg; apply H; by right|]. cbn [incoming_of_fields].
  destruct (field_type f) as [|rel|] eqn:Et; [by exists l| |by exists l]. destruct (inverse f); [by exists l|]. destruct (H f rel (or_introl eq_refl) Et) as [[r Er] [t Ett]].
  rewrite Er, Ett. cbn [idx mbind eres_bind]. rewrite E. cbn. by eexists.
Qed.

Lemma forward_built fs : (forall f rel, In f fs -> field_type f = Relation rel -> is_Some (bm_get (qualified tn (fd_name f)) rids)) -> exists l, forward_of_fields rids tn fs = EOk l.
Proof.
  induction fs as [|f fs IH]; intros H; [by exists []|]. destruct IH as [l E]; [intros g rel Hg; apply H; by right|]. cbn [forward_of_fields].
  destruct (field_type f) as [|rel|] eqn:Et; [by exists l| |by exists l]. destruct (inverse f); [by exists l|]. destruct (H f rel (or_introl eq_refl) Et) as [r Er].
  rewrite Er. cbn [idx mbind eres_bind]. rewrite E. cbn. by eexists.
Qed.

Lemma indexed_built fs : (forall f, In f fs -> is_Some (bm_get (qualified tn (fd_name f)) fids)) -> exists l, indexed_of_fields fids tn fs = EOk l.
Proof.
  induction fs as [|f fs IH]; intros H; [by exists []|]. destruct IH as [l E]; [intros g Hg; apply H; by right|]. cbn [indexed_of_fields].
  destruct (is_indexed f); [|by exists l]. destruct (H f (or_introl eq_refl)) as [i Ei]. rewrite Ei. cbn [idx mbind eres_bind]. rewrite E. cbn. by eexists.
Qed.
End build.

Lemma tables_built s tids rids fids : ids_cover s tids rids fids ->
  (exists a, build_incoming tids rids (types s) = EOk a) /\ (exists b, build_cascade_meta tids rids (types s) = EOk b) /\ exists d, build_indexed fids (types s) = EOk d.
Proof.
  intros [Ht Hf Hr Hg].
  assert (H : forall e, In e (types s) -> is_Some (bm_get (fst e) tids) /\ (forall tid, exists l, incoming_of_fields tids rids (fst e) tid (fields (snd e)) = EOk l) /\
    (exists l, forward_of_fields rids (fst e) (fields (snd e)) = EOk l) /\ exists l, indexed_of_fields fids (fst e) (fields (snd e)) = EOk l).
  { intros [tn td] Hin. cbn [fst snd]. split_and!.
    - by eapply Ht.
    - intros tid. apply incoming_built. intros f rel Hin' Et. split; [eapply Hr; [exact Hin|exact Hin'|by eapply relation_field]|by eapply Hg].
    - apply forward_built. intros f rel Hin' Et. eapply Hr; [exact Hin|exact Hin'|by eapply relation_field].
    - apply indexed_built. intros f Hin'. by eapply Hf. }
  clear Ht Hf Hr Hg. induction (types s) as [|[tn td] ts IH]; [split_and!; by eexists|]. destruct IH as ((a & Ea) & (b & Eb) & (d & Ed)); [intros e He; apply H; by right|].
  destruct (H (tn, td) (or_introl eq_refl)) as ([t Et] & Hi & (l2 & E2) & (l3 & E3)). cbn [fst snd] in *. destruct (Hi t) as [l1 E1].
  cbn [build_incoming build_cascade_meta build_indexed]. rewrite Et. cbn [idx mbind eres_bind]. rewrite E1, E2, E3. cbn [mbind eres_bind]. rewrite Ea, Eb, Ed. cbn.
  split_and!; by eexists.
Qed.

Lemma catalog_covers s c : cat_ok c -> schema_parsed s -> names_match s c -> ids_cover s (tb_ids (c_types c)) (tb_ids (c_rels c)) (tb_ids (c_fields c)).
Proof.
  intros Hc Hp [Mt Mf Mr]. rewrite (types_shape c Hc), (proj1 (fields_shape c Hc)), (rels_shape c Hc). cbn [table_of tb_ids].
  assert (Hl : forall es n, live es n -> is_Some (bm_get n (bm_fmap ie_id es))) by (intros es n (e & Hg & _); rewrite bm_fmap_get, Hg; by eexists).
  split.
  - intros tn td Hin. apply Hl, Mt. by exists td.
  - intros tn td f Hin Hf. apply Hl, Mf. by exists tn, td, f.
  - intros tn td f Hin Hf Hr. apply Hl, Mr. by exists tn, td, f.
  - intros tn td f rel Hin Hf Hr. apply Hl, Mt. pose proof (wf_fields _ (sp_wf s Hp) td) as Hw. rewrite List.Forall_forall in Hw.
    destruct (wf_relation _ _ _ (Hw (in_map snd _ _ Hin) f Hf) rel Hr) as [td' Htd]. exists td'. by apply bm_get_in in Htd; [|apply Hp].
Qed.

(** ** The counters *)

Lemma fold_max_ge l : forall i x, In x l \/ x <= i -> x <= fold_left Z.max l i.
Proof. induction l as [|y l IH]; intros i x H; [by destruct H|]. cbn [fold_left]. apply IH. destruct H as [[->|H]|H]; [right; lia|by left|right; lia]. Qed.

Lemma object_key_parts t o : last8 (KeyBuilder.object t o) = be64 o /\ len (KeyBuilder.object t o) = 19.
Proof.
  unfold KeyBuilder.object, last8, be64. split; [|rewrite !len_app, !(len_be 8); done].
  rewrite !app_assoc. rewrite (length_app _ (be 8 o)), length_be, Nat.add_sub. by rewrite drop_app_length.
Qed.

Lemma scanned m (tids : bmap Z) tn t o d : bsorted m -> bm_get tn tids = Some t -> is_u64 t -> is_u64 o -> bm_get (KeyBuilder.object t o) m = Some d -> In (t, o) (scanned_objects m tids).
Proof.
  intros Hm Ht Hu Ho Hg. unfold scanned_objects. apply in_concat. exists (map (pair t) (object_ids_of m t)). split.
  - apply in_map_iff. exists (tn, t). split; [done|]. by apply assoc_in.
  - apply in_map. unfold object_ids_of. apply in_map_iff. exists (KeyBuilder.object t o, d). destruct (object_key_parts t o) as [E1 E2]. cbn [fst]. rewrite E1, from_be64 by done. split; [done|].
    apply filter_In. cbn [fst]. rewrite E2. split; [|done]. apply filter_In. cbn [fst]. split; [by apply bm_get_in|]. by apply object_prefix_exact.
Qed.

Lemma scanned_below m (tids : bmap Z) tn t o d : bsorted m -> bm_get tn tids = Some t -> is_u64 t -> is_u64 o -> bm_get (KeyBuilder.object t o) m = Some d -> o <= max_object_id m tids.
Proof. intros Hm Ht Hu Ho Hg. apply fold_max_ge. left. change o with (snd (t, o)). apply in_map. by eapply scanned. Qed.

Lemma seeded l o : forall acc : gmap (Z * Z) Z, In o l \/ acc !! o = Some 1 -> fold_left (fun acc o => <[o := 1]> acc) l acc !! o = Some 1.
Proof.
  induction l as [|x l IH]; intros acc H; [by destruct H|]. cbn [fold_left]. apply IH. destruct (decide (x = o)) as [->|Hne]; [right; by rewrite lookup_insert_eq|].
  destruct H as [[->|H]|H]; [done|by left|right; by rewrite lookup_insert_ne].
Qed.

(** The rows of versions have the layout of their keys. *)
Definition version_rows (rows : list (bytes * bytes)) : Prop :=
  forall k v, In (k, v) rows -> exists t o, is_u64 t /\ is_u64 o /\ k = KeyBuilder.object_version t o /\ len v = 8.

Lemma version_key_parts t o : is_u64 t -> is_u64 o -> let k := KeyBuilder.object_version t o in
  from_be (take 8 (drop 2 k)) = t /\ from_be (take 8 (drop 11 k)) = o /\ len k = 19.
Proof.
  intros Ht Ho k. unfold k, KeyBuilder.object_version. split_and!; [| |unfold be64; rewrite !len_app, !(len_be 8); done].
  - change (drop 2 _) with (be64 t ++ [SEPARATOR] ++ be64 o). rewrite take_app_length' by (unfold be64; by rewrite length_be). by apply from_be64.
  - rewrite !app_assoc, drop_app_length' by (rewrite !length_app; unfold be64; by rewrite length_be). rewrite take_ge by (unfold be64; by rewrite length_be). by apply from_be64.
Qed.

Lemma version_key_inj t o t' o' : is_u64 t -> is_u64 o -> is_u64 t' -> is_u64 o' -> KeyBuilder.object_version t o = KeyBuilder.object_version t' o' -> (t, o) = (t', o').
Proof.
  intros Ht Ho Ht' Ho' E. destruct (version_key_parts t o Ht Ho) as (E1 & E2 & _), (version_key_parts t' o' Ht' Ho') as (E3 & E4 & _). cbn zeta in *. rewrite E in E1, E2. congruence.
Qed.

Lemma versions_read t o : is_u64 t -> is_u64 o -> forall rows (acc : gmap (Z * Z) Z), bsorted rows -> version_rows rows ->
  fold_left version_row rows acc !! (t, o) = match bm_get (KeyBuilder.object_version t o) rows with Some v => Some (from_be v) | None => acc !! (t, o) end.
Proof.
  intros Ht Ho. induction rows as [|[k v] rows IH]; intros acc Hs Hv; [done|]. cbn [fold_left bm_get]. apply bsorted_cons_inv in Hs as [Hs Hk].
  rewrite IH by (done || intros k' v' Hin; apply Hv; by right). destruct (Hv k v (or_introl eq_refl)) as (t' & o' & Ht' & Ho' & -> & Hl).
  destruct (version_key_parts t' o' Ht' Ho') as (E1 & E2 & E3). cbn zeta in *. unfold version_row. rewrite E1, E2, E3, Hl. change ((19 <? 19) || negb (8 =? 8)) with false. cbn iota.
  destruct (beqb_spec (KeyBuilder.object_version t o) (KeyBuilder.object_version t' o')) as [E|Hne].
  - pose proof (version_key_inj _ _ _ _ Ht Ho Ht' Ho' E) as [= <- <-]. rewrite lookup_insert_eq.
    destruct (bm_get (KeyBuilder.object_version t o) rows) as [v'|] eqn:Eg; [|done]. apply bm_get_in in Eg; [|done]. rewrite List.Forall_forall in Hk. apply Hk in Eg.
    cbn in Eg. by apply blt_irrefl in Eg.
  - destruct (bm_get (KeyBuilder.object_version t o) rows); [done|]. rewrite lookup_insert_ne; [done|]. intros [= -> ->]. done.
Qed.

(** ** Retired fields *)

Lemma find_dot_of t f : plain_name t -> find_dot (qualified t f) = Some (t, f).
Proof.
  intros [H _]. unfold qualified. induction t as [|b t IH]; [done|]. apply existsb_false_cons in H as [Hb H]. cbn [app find_dot].
  unfold reserved_byte in Hb. apply orb_false_iff in Hb as [_ Hb]. rewrite Hb. change ([x2e] ++ f) with (x2e :: f) in IH. by rewrite IH.
Qed.

Lemma retired_names_spec t f quals : plain_name t -> (forall q, In q quals -> member q) -> forall acc, bsorted acc ->
  In f (default [] (bm_get t (fold_left retire_name quals acc))) <-> In (qualified t f) quals \/ In f (default [] (bm_get t acc)).
Proof.
  intros Ht. induction quals as [|q quals IH]; intros Hq acc Hs; [cbn; tauto|]. destruct (Hq q (or_introl eq_refl)) as (t' & f' & -> & Ht' & Hf'). cbn [fold_left In].
  assert (E : retire_name acc (qualified t' f') = bm_insert t' (f' :: default [] (bm_get t' acc)) acc) by (unfold retire_name; by rewrite find_dot_of).
  rewrite E, IH by (try (by apply bsorted_insert); intros q H; apply Hq; by right). rewrite bm_get_insert by done. split.
  - intros [H|H]; [left; by right|]. case_decide as Et; [|by right]. subst t'. cbn [default from_option id] in H. destruct H as [->|H]; [left; by left|by right].
  - intros [[H|H]|H]; [|by left|].
    + apply qualified_eq in H as [-> ->]; [|done..]. right. rewrite decide_True by done. by left.
    + right. case_decide as Et; [|done]. subst t'. by right.
Qed.

(** ** Opening *)

(** Limits of the object encoding. *)
Definition encodable (s : Schema) : Prop :=
  forall tn td, In (tn, td) (types s) -> is_u16 (Z.of_nat (List.length (fields td))) /\ Forall (fun f => is_u16 (len (fd_name f))) (fields td).

Lemma rebuilt_db s c m plan o : cat_ok c -> schema_parsed s -> names_match s c -> encodable s -> rebuild_database m s c plan = EOk o -> db_ok (o_db o).
Proof.
  intros Hc Hp Hm He H. unfold rebuild_database in H. apply ebind_ok in H as (a & Ha & H). apply ebind_ok in H as (b & Hb & H). apply ebind_ok in H as (d & Hd & [= <-]).
  assert (Hinj : forall N es next n n' i, entries_ok N es next -> bm_get n (bm_fmap ie_id es) = Some i -> bm_get n' (bm_fmap ie_id es) = Some i -> n = n').
  { intros N es next n n' i Hen. rewrite !bm_fmap_get. destruct (bm_get n es) as [e|] eqn:E; [|done]. destruct (bm_get n' es) as [e'|] eqn:E'; [|done].
    intros [= <-] [= Ei]. by eapply Hen. }
  assert (Hu : forall N es next n i, entries_ok N es next -> bm_get n (bm_fmap ie_id es) = Some i -> is_u64 i).
  { intros N es next n i Hen. rewrite bm_fmap_get. destruct (bm_get n es) as [e|] eqn:E; [|done]. intros [= <-]. pose proof (en_below _ _ _ Hen n e E). destruct (en_next _ _ _ Hen) as [_ Hx].
    unfold is_u64 in *. lia. }
  rewrite (types_shape c Hc), (proj1 (fields_shape c Hc)), (rels_shape c Hc) in *. cbn [table_of tb_ids] in *.
  split; cbn [o_db schema type_ids field_ids rel_ids incoming_relations cascade_meta_by_id indexed_fields]; try done.
  - intros n n' i. apply (Hinj _ _ _ _ _ _ (co_types c Hc)).
  - intros n i. apply (Hu _ _ _ _ _ (co_types c Hc)).
  - intros n n' i. apply (Hinj _ _ _ _ _ _ (co_fields c Hc)).
  - intros n i. apply (Hu _ _ _ _ _ (co_fields c Hc)).
  - apply Hp.
  - intros tn td Ht. apply bm_get_in in Ht; [|apply Hp]. destruct (He tn td Ht) as [H1 H2]. split_and!; [apply (sp_wf s Hp); by apply (in_map snd) in Ht|done|].
    rewrite List.Forall_forall in *. intros f Hf. split; [by eapply sp_fields|by apply H2].
Qed.

Lemma rebuilt_ids s c m plan o : rebuild_database m s c plan = EOk o -> type_ids (o_db o) = tb_ids (c_types c).
Proof.
  intros H. unfold rebuild_database in H. apply ebind_ok in H as (a & _ & H). apply ebind_ok in H as (b & _ & H). by apply ebind_ok in H as (d & _ & [= <-]).
Qed.

Lemma rebuilt_names s c m plan o tn td f : cat_ok c -> schema_ok s -> names_match s c -> rebuild_database m s c plan = EOk o -> In (tn, td) (types s) -> In f (fields td) ->
  ~ In (fd_name f) (default [] (bm_get tn (retired_field_names_by_type (o_db o)))).
Proof.
  intros Hc Hs Hm H Hin Hf. unfold rebuild_database in H. apply ebind_ok in H as (a & Ha & H). apply ebind_ok in H as (b & Hb & H). apply ebind_ok in H as (d & Hd & [= <-]).
  cbn [o_db retired_field_names_by_type]. rewrite (proj1 (fields_shape c Hc)). cbn [table_of tb_tombstoned_names].
  assert (Hr : forall q, In q (elements (list_to_set (map fst (retired_entries (field_entries c))) : gset bytes)) <-> retired_in (field_entries c) q).
  { intros q. rewrite <- list_elem_of_In, elem_of_elements, in_tombstoned_names. split; intros (e & H1 & H2); exists e; (split; [|done]); by apply bm_get_in in H1; [|apply Hc]. }
  unfold retired_names. rewrite retired_names_spec; [|by eapply so_types| |apply bsorted_nil].
  - rewrite Hr. intros [(e & Hg & Hret)|[]]. destruct (proj2 (mt_fields s c Hm (qualified tn (fd_name f)))) as (e' & Hg' & Hl); [by exists tn, td, f|]. by rewrite Hg in Hg'; injection Hg' as <-.
  - intros q (e & Hg & _)%Hr. by eapply (en_names _ _ _ (co_fields c Hc)).
Qed.

(** C14: An opened database is ready for use: whenever the catalog opens, over any
    history of the store, the tables of the handle can be built (no lookup of an id
    fails) and satisfy the invariant that the theorems on objects, edges, indexes
    and queries assume; no field of the schema is taken for a retired one; the
    counter of objects is beyond every object of the store, and the version of an
    object is the one its row records, or that of a new object. *)
Theorem database_opens {L : CatalogLib} m0 m last snapshot conflict s allow clock c i ws plan : collision_free -> bsorted m0 -> no_catalog m0 ->
  rtc life_step {| w_store := m0; w_catalog := None |} {| w_store := m; w_catalog := last |} -> schema_parsed s -> schema_short s -> encodable s -> (forall i, is_u64 (clock i)) ->
  load_or_initialize snapshot conflict s allow clock = COk (c, (i, ws)) -> snapshot i = m ->
  let m' := commit ws m in
  exists o, rebuild_database m' s c plan = EOk o /\ db_ok (o_db o) /\ schema (o_db o) = s /\
    (forall tn td f, In (tn, td) (types s) -> In f (fields td) -> ~ In (fd_name f) (default [] (bm_get tn (retired_field_names_by_type (o_db o))))) /\
    (forall tn t id d, bm_get tn (type_ids (o_db o)) = Some t -> is_u64 id -> bm_get (KeyBuilder.object t id) m' = Some d ->
      (max_object_id m' (type_ids (o_db o)) < u64_max -> id < o_next_object_id o) /\
      (version_rows (rows_under KeyBuilder.object_version_prefix m') ->
        o_versions o !! (t, id) = Some (match bm_get (KeyBuilder.object_version t id) m' with Some v => from_be v | None => 1 end))).
Proof.
  intros Hcf Hm Hno H1 Hp Hsh Henc Hn H Hi m'. destruct (life_ok _ _ Hcf (first_world m0 Hm Hno) H1) as [W1 _].
  destruct (open_step m last snapshot conflict s allow clock c i ws Hcf W1 Hp Hsh Hn H Hi) as (Hs & (plans & [[[Hc Hd] _ _] M _ _] & _) & _).
  destruct (tables_built s _ _ _ (catalog_covers s c Hc Hp M)) as ((a & Ea) & (b & Eb) & (d & Ed)).
  assert (Hr : exists o, rebuild_database m' s c plan = EOk o) by (unfold rebuild_database; rewrite Ea, Eb, Ed; by eexists). destruct Hr as [o Ho]. exists o.
  assert (Hm' : bsorted m') by apply Hd. pose proof (rebuilt_db s c m' plan o Hc Hp M Henc Ho) as Hdb. split_and!; [done..| | |].
  - unfold rebuild_database in Ho. by rewrite Ea, Eb, Ed in Ho; injection Ho as <-.
  - intros tn td f. by apply (rebuilt_names s c m' plan o).
  - intros tn t id dt Ht Hid Hg. pose proof (ok_type_u64 _ Hdb tn t Ht) as Hu. unfold rebuild_database in Ho. rewrite Ea, Eb, Ed in Ho. injection Ho as <-.
    cbn [o_db type_ids o_next_object_id o_versions] in *. pose proof (scanned_below m' _ tn t id dt Hm' Ht Hu Hid Hg). split.
    + intros Hmax. unfold as_u64. unfold is_u64, u64_max in *. rewrite Z.mod_small by lia. lia.
    + intros Hv. unfold version_counters. rewrite versions_read; [|done|done|by apply bsorted_filter|done]. unfold rows_under.
      rewrite (bm_get_filter (fun k => starts_with k KeyBuilder.object_version_prefix)). change (starts_with (KeyBuilder.object_version t id) KeyBuilder.object_version_prefix) with true. cbn iota.
      destruct (bm_get (KeyBuilder.object_version t id) m'); [done|]. apply seeded. left. by eapply scanned.
Qed.

(** ** Witness

    The store of [CatalogLife], in which an object was written and updated. *)

Definition object_writes : list op := [put (KeyBuilder.object 1 7) [x00]; put (KeyBuilder.object_version 1 7) (be64 3)].
Definition used_store : bmap bytes := apply_ops object_writes first_store.
Definition used_writes : option (list op) := snd (opening used_store schema_second true 6).
Definition used_catalog : Catalog := fst (opening used_store schema_second true 6).

Lemma used_opening : load_or_initialize (fun _ => used_store) (fun _ => false) schema_second true (fun _ => 6) = COk (used_catalog, (0%nat, used_writes)).
Proof. by vm_compute. Qed.

Lemma used_life : rtc life_step {| w_store := []; w_catalog := None |} {| w_store := used_store; w_catalog := Some first_catalog |}.
Proof.
  etrans; [apply first_life|]. apply rtc_once. apply (life_write first_store (Some first_catalog) object_writes). intros w [<-|[<-|[]]]; reflexivity.
Qed.

Lemma demo_encodable : encodable schema_second.
Proof. intros tn td. cbn. intros H. repeat (destruct H as [[= <- <-]|H]; [by repeat constructor|]). done. Qed.

Lemma used_versions : rows_under KeyBuilder.object_version_prefix (commit used_writes used_store) = [(KeyBuilder.object_version 1 7, be64 3)].
Proof. vm_compute. reflexivity. Qed.

Lemma used_version_rows : version_rows (rows_under KeyBuilder.object_version_prefix (commit used_writes used_store)).
Proof. rewrite used_versions. intros k v [E|[]]. injection E as <- <-. exists 1, 7. by split_and!. Qed.

Lemma used_type : bm_get (bs "Post") (tb_ids (c_types used_catalog)) = Some 1.
Proof. vm_compute. reflexivity. Qed.

Lemma used_id : is_u64 7.
Proof. done. Qed.

Lemma used_object : bm_get (KeyBuilder.object 1 7) (commit used_writes used_store) = Some [x00].
Proof. vm_compute. reflexivity. Qed.

Lemma used_max : max_object_id (commit used_writes used_store) (tb_ids (c_types used_catalog)) < u64_max.
Proof. vm_compute. reflexivity. Qed.

Lemma used_version : Some (match bm_get (KeyBuilder.object_version 1 7) (commit used_writes used_store) with Some v => from_be v | None => 1 end) = Some 3.
Proof. vm_compute. reflexivity. Qed.

Lemma database_opens_witness : exists o, rebuild_database (commit used_writes used_store) schema_second used_catalog [] = EOk o /\ db_ok (o_db o) /\
  7 < o_next_object_id o /\ o_versions o !! (1, 7) = Some 3.
Proof.
  destruct (database_opens [] used_store (Some first_catalog) (fun _ => used_store) (fun _ => false) schema_second true (fun _ => 6) used_catalog 0%nat used_writes []
    demo_collision_free (proj1 demo_no_catalog) (proj2 demo_no_catalog) used_life schema_second_parsed (proj2 demo_shorts) demo_encodable demo_clock used_opening eq_refl)
    as (o & Ho & Hdb & Hs & _ & Hid).
  pose proof (rebuilt_ids _ _ _ _ _ Ho) as E.
  destruct (Hid (bs "Post") 1 7 [x00] (eq_trans (f_equal (bm_get (bs "Post")) E) used_type) used_id used_object) as [H1 H2].
  exists o. split; [exact Ho|]. split; [exact Hdb|]. split.
  - apply H1. rewrite E. exact used_max.
  - exact (eq_trans (H2 used_version_rows) used_version).
Defined.

(** The counter is taken from the objects that are left: once the newest object is
    deleted, the next opening gives its id to a new one. *)
Definition deleted_store : bmap bytes := apply_ops [(KeyBuilder.object 1 7, None)] (apply_ops [put (KeyBuilder.object 1 6) [x00]] used_store).

Example deleted_id_reused :
  max_object_id (apply_ops [put (KeyBuilder.object 1 6) [x00]] used_store) (tb_ids (c_types first_catalog)) = 7 /\
  exists o, rebuild_database deleted_store schema_first first_catalog [] = EOk o /\ o_next_object_id o = 7.
Proof. split; [vm_compute; reflexivity|]. eexists. split; vm_compute; reflexivity. Qed.
